(* ===== verification/_CoqProject ===== *)
-Q . S2P
Prelude.v
Atomic.v
Frame.v
Futex.v
Lock.v
Mutex.v
MutexNormal.v
MutexClient.v
MutexRecursive.v
PiMutex.v
MutexInit.v
Cond.v
Rwlock.v
RwlockExclusion.v
Semaphore.v
WaitQueue.v
CondMonitor.v
Once.v
CxaGuard.v
Barrier.v
Utf8.v
Utf8Correct.v
Result.v
Ctype.v
StrTol.v
CString.v
Sort.v
StrTok.v
Fortify.v
TwoWay.v
StrStr.v
PropArea.v
PropTree.v
PropAreaCorrect.v
PropSeq.v
LinkerReloc.v
LinkerLookup.v
LinkerUtils.v
Hashmap.v
JeUtil.v
JeSizes.v
JeBitmap.v
LocalTime.v
PthreadKey.v
NsName.v
NsPack.v
NsText.v
Inet.v
Base64.v
NsParse.v
DnsPacket.v
ResCache.v
ResCacheCorrect.v
ResCacheRefine.v
ResMkquery.v
AddrSort.v
