(* ===== verification/Prelude.v ===== *)
(** Verification of xbionic: the C library, the dynamic linker and the support libraries.

    xbionic is a port of Android's C library (platform_bionic: libc, libm, libdl and the linker) with
    jemalloc, libcutils and liblog.  This library models a number of its parts in Rocq and proves
    them correct.  The models are shallow: a C or C++ function becomes a Rocq function or a program
    in a small language of atomic actions, with the names of the source.  Paths below are under
    src/platform_bionic-android-vts-12.0_r2 unless another directory of src/ is named.

    * Ground

    - Prelude.v: this file; integers of a given width ([wrapU], [wrapS]), booleans as numbers,
      counting and summing over lists, bit masks.
    - Atomic.v: shared-memory programs.  [prog] is a tree of atomic actions and loops, [machine] a
      list of threads over one memory, [reachable] what interleaving can lead to, [wp] a program
      logic over phases of threads, [machine_inv] its soundness; [ends] is total correctness of a thread
      that runs alone.  The futex system call is not in
      the repository: it is the class [FutexKernel], whose laws futex(2) documents, the errors with which
      FUTEX_LOCK_PI may refuse included, with an instance that shows they can be met.  Memory is
      sequentially consistent: the memory orders of the sources are not modelled, so that the theorems
      do not show that they suffice.
    - Frame.v: composition of two components on the same threads.
    - WaitQueue.v: the invariant of the sleepers on one futex word, used by five components.
    - Result.v: sequential code that returns, aborts the process, or does something undefined.

    * Synchronization (libc/bionic, libc/private)

    - Futex.v: bionic_futex.h, bionic_time_conversions.cpp.
    - Lock.v: bionic_lock.h, pthread_spinlock.cpp.  Mutual exclusion; no lost wake-up.
    - Mutex.v (definitions), MutexNormal.v, MutexClient.v (the contract and its most general
      client), MutexRecursive.v, PiMutex.v, MutexInit.v: pthread_mutex.cpp, 64-bit configuration.
      Exclusion, nesting, the result of every call, no lost wake-up, attributes, initialization,
      destruction.
    - Cond.v, CondMonitor.v: pthread_cond.cpp, and its composition with a mutex: no broadcast is
      lost.
    - Rwlock.v, RwlockExclusion.v: pthread_rwlock.cpp.  Exclusion, and the results of unlocking and of
      relocking by a writer; an execution in which a wake-up is lost.
    - Semaphore.v, Once.v, CxaGuard.v, Barrier.v: semaphore.cpp, pthread_once.cpp, __cxa_guard.cpp,
      pthread_barrier.cpp.
    - PthreadKey.v: pthread_key.cpp.  Linearizability: one order of the calls of all threads, which
      keeps their order in time, explains their results by a table that is cleared when a key is created.
      Values left at the end of a thread are cleaned up as POSIX says, whatever destructors do.
    The theorems quantify over the number of threads and over all interleavings; a thread runs one
    of the programs a client may write with the calls.  Loops are loops of [prog] and need no fuel.

    * Strings and characters

    - Utf8.v, Utf8Correct.v: bionic_mbstate.h, mbrtoc32.cpp, c32rtomb.cpp, mbrtoc16.cpp,
      c16rtomb.cpp, wchar.cpp, against RFC 3629.
    - Ctype.v, StrTol.v: ctype_inlines.h, ctype_.c, strtol.cpp.
    - CString.v, StrTok.v: upstream-openbsd/lib/libc/string.
    - TwoWay.v, StrStr.v: strstr.c and memmem.c.  TwoWay.v is about words, periods and critical
      factorizations; StrStr.v shows that the two-way search finds the first occurrence.
    - Fortify.v: fortify.cpp, bionic_fortify.h, sys/select.h.  A checked function is the unchecked
      one or aborts.
    - Sort.v: qsort.c and bsearch.c.  Order, permutation, bounds and depth of recursion.  The fuel
      of qsort is the depth, log2 n + 1, and the length, and is proved to suffice.
    Arrays are lists; an access outside one has no result, so that a theorem about a result is also
    a theorem about bounds.

    * System properties (libc/system_properties)

    - PropArea.v: prop_area.cpp, prop_info.cpp; PropTree.v: the trees an area holds;
      PropAreaCorrect.v: an area implements a finite map, and its allocator stays in bounds.
      Lengths are 32 bits, as in the source, and the theorems exclude those that do not fit.
    - PropSeq.v: Update, reading and Wait of system_properties.cpp over shared memory: a read
      returns a whole value the property had during the call.

    * Dynamic linker (linker)

    - LinkerReloc.v: linker_sleb128.h, linker_reloc_iterators.h, relocate_relr: decoding undoes
      encoding.
    - LinkerLookup.v: soinfo_do_lookup, gnu_lookup, elf_lookup and versions of linker_soinfo.cpp
      and linker.cpp: lookup by hash is a linear search in order, for names whose length fits 32 bits.
    - LinkerUtils.v: normalize_path, parse_zip_path, format_string of linker_utils.cpp.

    * Support libraries

    - Hashmap.v: hashmap.cpp of src/libcutils-android12-release: a hash map refines a finite map.
    - JeUtil.v, JeSizes.v, JeBitmap.v: util.h, size_classes.h, the size conversions of
      jemalloc_internal.h, bitmap.h and bitmap.c of src/jemalloc-android11-platform-release, for
      64-bit targets and pages of 4 KiB: size classes are the least that fit, by table and by
      computation; a bitmap, with or without its tree of summaries, refines a list of bits.  The fuel
      of the loop over the levels of a bitmap is 64, and shown to suffice for any number of bits.
      The assertions of the initialisation are part of the model, and shown to hold.

    * Calendar time (libc/tzcode)

    - LocalTime.v: timesub, gmtsub, timegm, time1, time2 and time2sub of localtime.c against the
      Gregorian calendar.  The loop of timesub over years has a fuel of 100 and the binary search of
      time2sub one of 70; both are shown to suffice for every 64-bit time.
      An overflow of a signed variable of timesub has no result.

    * Names and addresses of the network (libc/dns, upstream-openbsd/lib/libc/net)

    - NsName.v, NsPack.v, NsText.v: ns_name.c.  Names on the wire, with pointers to earlier names, and
      as text: what is packed and compressed is unpacked and read back, and every message, loops of
      pointers included, is read without an access outside it or refused.
    - Inet.v, Base64.v: inet_ntop.c, inet_pton.c, arpa_inet.cpp, base64.c.  Addresses and bytes as text
      and back; what inet_pton and b64_pton accept.
    - NsParse.v: ns_parse.c, ns_netint.c and parts of res_comp.c, and the lifetime of an answer from
      res_cache.c.  The records of a message can be read in any order.
    - ResMkquery.v: res_mkquery.c.  The bytes of a query, which calls NsText.v, and that it is a key of
      the cache: it passes the check of DnsPacket.v, and name and type decide its entry in ResCache.v.
    - DnsPacket.v: the first half of res_cache.c: queries as keys, their check, hash and comparison.
    - ResCache.v (definitions), ResCacheCorrect.v (the lists and chains in the memory of a cache),
      ResCacheRefine.v (calls on the caches of all networks): the second half of res_cache.c.  A cache
      refines a list of answers in the order of last use.  A lookup that waits for the answer to the
      same question is two calls, with any others in between.  The number of calls is
      below 2^31, since the counter of entries is an int whose overflow is undefined.
    - AddrSort.v: the part of getaddrinfo.c that orders addresses by RFC 6724.  It calls qsort, whose
      theorem in Sort.v asks for an order; the comparison is one unless IPv4 addresses occur in both
      their forms.  The rules are stated with the table of policies and the scopes of the RFC.
    Allocation and system calls are arguments of the models.  The type char is unsigned, as on ARM.  Fuel: a
    loop over a name or a text has at least as much as it has bytes, [ns_name_unpack2] the sizes of the
    message and of the target and two, a walk along a chain or a list the number of objects in
    memory and one; each is shown to suffice by a theorem that gives the result.

    * Not modelled

    - jemalloc, except what is named above; malloc_debug, malloc_hooks: their correctness is about
      the layout of raw memory and many threads, which the models here do not have.
    - libm, gdtoa and the formatted input and output of stdio: floating point and long tables.
    - The rest of the linker (mapping of segments, namespaces, TLS, CFI), libdl, and everything else
      that is made of system calls: files, sockets, processes, signals.
    - The exchange of queries with name servers (res_send.c, res_query.c, res_init.c), their statistics
      in res_cache.c, and the requests of getaddrinfo.c, which go over sockets to a daemon.
    - Reading and parsing of time zones, localsub and mktime, which use them, and the formatting of
      time; regular expressions, collation and locales.
    - liblog, logd, logcat and the rest of libcutils, which mostly talk to daemons and files.
    - The 32-bit configuration, in particular PIMutexAllocator of pthread_mutex.cpp.
    - Assembly (arch-arm64 and the others), generated kernel headers, tests, benchmarks and build tools. *)

From Stdlib Require Export ZArith Lia List.
From stdpp Require Export base list strings relations.

Open Scope Z_scope.

(** * Constants of the C headers the sources include *)

Definition EPERM : Z := 1.
Definition ESRCH : Z := 3.
Definition EINTR : Z := 4.
Definition EAGAIN : Z := 11.
Definition ENOMEM : Z := 12.
Definition EFAULT : Z := 14.
Definition EBUSY : Z := 16.
Definition EINVAL : Z := 22.
Definition ERANGE : Z := 34.
Definition EDEADLK : Z := 35.
Definition ENOSYS : Z := 38.
Definition EOVERFLOW : Z := 75.
Definition EILSEQ : Z := 84.
Definition ETIMEDOUT : Z := 110.

Definition INT_MAX : Z := 2147483647.

Abbreviation PROP_VALUE_MAX := 92.

Definition CLOCK_REALTIME : Z := 0.
Definition CLOCK_MONOTONIC : Z := 1.

Definition PTHREAD_PROCESS_PRIVATE : Z := 0.
Definition PTHREAD_PROCESS_SHARED : Z := 1.

(** * Machine integers: an integer of [w] bits is a [Z] and the wrap-around is explicit *)

Definition wrapU (w x : Z) : Z := x mod 2 ^ w.

Lemma wrapU_small w x : 0 <= x < 2 ^ w -> wrapU w x = x.
Proof. apply Z.mod_small. Qed.

Definition wrapS (w x : Z) : Z := (x + 2 ^ (w - 1)) mod 2 ^ w - 2 ^ (w - 1).

Lemma wrapS_small w x : 0 < w -> - 2 ^ (w - 1) <= x < 2 ^ (w - 1) -> wrapS w x = x.
Proof.
  intros Hw Hx. unfold wrapS. assert (2 ^ w = 2 * 2 ^ (w - 1)) by (rewrite <-Z.pow_succ_r by lia; f_equal; lia).
  rewrite Z.mod_small by lia. lia.
Qed.

(** C truth values *)
Definition b2z (b : bool) : Z := if b then 1 else 0.

Definition truthy (x : Z) : bool := negb (x =? 0).

Lemma truthy_b2z (b : bool) : truthy (b2z b) = b.
Proof. by destruct b. Qed.

(** The characters of a C++ string literal. *)
Fixpoint chars (s : string) : list Z :=
  match s with
  | EmptyString => []
  | String c s => Z.of_nat (Ascii.nat_of_ascii c) :: chars s
  end.

(** What printf makes of small numbers: a hexadecimal digit, and [%d] below 1000. *)
Definition hex_digit (d : Z) : Z := if d <? 10 then 48 + d else 87 + d.

Definition decimal (n : Z) : list Z :=
  if n <? 10 then [48 + n] else if n <? 100 then [48 + n / 10; 48 + n mod 10] else [48 + n / 100; 48 + n mod 100 / 10; 48 + n mod 10].

Lemma insert_middle {A} (l1 l2 : list A) x y n : n = length l1 -> <[n := y]> (l1 ++ x :: l2) = l1 ++ y :: l2.
Proof. intros ->. by rewrite insert_app_r_alt, Nat.sub_diag by lia. Qed.

(** * Counting in lists *)

Fixpoint cnt {A} (P : A -> bool) (l : list A) : Z :=
  match l with
  | [] => 0
  | x :: l' => b2z (P x) + cnt P l'
  end.

Lemma cnt_nonneg {A} (P : A -> bool) l : 0 <= cnt P l.
Proof. induction l as [|x l IH]; simpl; [lia|]. destruct (P x); simpl; lia. Qed.

Lemma cnt_app {A} (P : A -> bool) l1 l2 : cnt P (l1 ++ l2) = cnt P l1 + cnt P l2.
Proof. induction l1 as [|x l1 IH]; simpl; [done|]. rewrite IH. lia. Qed.

Lemma cnt_insert {A} (P : A -> bool) (l : list A) t x y :
  l !! t = Some x -> cnt P (<[t:=y]> l) = cnt P l - b2z (P x) + b2z (P y).
Proof.
  revert t. induction l as [|z l IH]; intros [|t] H; simpl in *; try done.
  - injection H as ->. lia.
  - rewrite (IH t H). lia.
Qed.

Lemma cnt_lookup {A} (P : A -> bool) (l : list A) t x :
  l !! t = Some x -> P x = true -> 1 <= cnt P l.
Proof.
  revert t. induction l as [|z l IH]; intros [|t] H HP; simpl in *; try done.
  - injection H as ->. rewrite HP. pose proof (cnt_nonneg P l). simpl. lia.
  - pose proof (IH t H HP). destruct (P z); simpl; lia.
Qed.

Lemma cnt_pos {A} (P : A -> bool) (l : list A) :
  1 <= cnt P l -> exists t x, l !! t = Some x /\ P x = true.
Proof.
  induction l as [|z l IH]; simpl; [lia|].
  destruct (P z) eqn:E; simpl; intros H.
  - exists 0%nat, z. done.
  - destruct IH as (t & x & ? & ?); [lia|]. by exists (S t), x.
Qed.

Lemma cnt_two {A} (P : A -> bool) (l : list A) t1 t2 x1 x2 :
  cnt P l <= 1 -> l !! t1 = Some x1 -> l !! t2 = Some x2 ->
  P x1 = true -> P x2 = true -> t1 = t2.
Proof.
  revert t1 t2. induction l as [|z l IH]; intros [|t1] [|t2] Hc H1 H2 P1 P2;
    simpl in *; try done.
  - injection H1 as ->. pose proof (cnt_lookup P l t2 x2 H2 P2). rewrite P1 in Hc. simpl in Hc. lia.
  - injection H2 as ->. pose proof (cnt_lookup P l t1 x1 H1 P1). rewrite P2 in Hc. simpl in Hc. lia.
  - f_equal. apply (IH t1 t2); try done. destruct (P z); simpl in Hc; lia.
Qed.

Lemma cnt_zero {A} (P : A -> bool) (l : list A) :
  (forall t x, l !! t = Some x -> P x = false) -> cnt P l = 0.
Proof.
  induction l as [|z l IH]; simpl; [done|]. intros H.
  rewrite (H 0%nat z eq_refl). simpl. rewrite IH; [done|].
  intros t x Hx. apply (H (S t) x Hx).
Qed.

Lemma cnt_zero_lookup {A} (P : A -> bool) (l : list A) t x :
  cnt P l = 0 -> l !! t = Some x -> P x = false.
Proof.
  intros H0 Hx. destruct (P x) eqn:E; [|done].
  pose proof (cnt_lookup P l t x Hx E). lia.
Qed.

Lemma cnt_mono {A} (P Q : A -> bool) (l : list A) :
  (forall x, P x = true -> Q x = true) -> cnt P l <= cnt Q l.
Proof.
  intros H. induction l as [|z l IH]; simpl; [done|]. pose proof (H z).
  destruct (P z), (Q z); simpl; naive_solver lia.
Qed.

Lemma cnt_bound {A} (P : A -> bool) (l : list A) : cnt P l <= Z.of_nat (length l).
Proof. induction l as [|z l IH]; simpl; [done|]. destruct (P z); simpl; lia. Qed.

Lemma cnt_all {A} (P : A -> bool) (l : list A) t x :
  cnt P l = Z.of_nat (length l) -> l !! t = Some x -> P x = true.
Proof.
  revert t. induction l as [|z l IH]; intros t H Hx; [done|]. simpl in H.
  pose proof (cnt_bound P l). destruct (P z) eqn:E; simpl in H; [|lia].
  destruct t as [|t]; simpl in Hx; [by simplify_eq|]. apply (IH t); [lia|done].
Qed.

Lemma cnt_full {A} (P : A -> bool) (l : list A) :
  (forall t x, l !! t = Some x -> P x = true) -> cnt P l = Z.of_nat (length l).
Proof.
  induction l as [|z l IH]; intros H; simpl; [done|]. rewrite (H 0%nat z eq_refl), IH.
  - simpl. lia.
  - intros t x Hx. apply (H (S t) x Hx).
Qed.

Lemma cnt_replicate {A} (P : A -> bool) n x : P x = false -> cnt P (replicate n x) = 0.
Proof. intros E. induction n as [|n IH]; simpl; [done|]. rewrite E, IH. done. Qed.

Lemma insert_all {A} (R : nat -> A -> Prop) (g : list A) t x y :
  g !! t = Some x -> R t y -> (forall t1 x1, t1 <> t -> g !! t1 = Some x1 -> R t1 x1) ->
  forall t1 x1, <[t:=y]> g !! t1 = Some x1 -> R t1 x1.
Proof.
  intros Hg Ht Ho t1 x1 H1. destruct (decide (t1 = t)) as [->|Hne].
  - rewrite list_lookup_insert_eq in H1 by (by eapply lookup_lt_Some). by simplify_eq.
  - rewrite list_lookup_insert_ne in H1 by done. auto.
Qed.

Lemma cnt_kept {A} (P : A -> bool) (g : list A) t x y :
  g !! t = Some x -> (P x = true -> P y = true) -> 1 <= cnt P g -> 1 <= cnt P (<[t:=y]> g).
Proof.
  intros Hg HP Hc. rewrite (cnt_insert _ _ _ _ _ Hg).
  destruct (P x); [rewrite HP by done|]; simpl; [lia|]. destruct (P y); simpl; lia.
Qed.

Lemma cnt_made {A} (P : A -> bool) (g : list A) t x y :
  g !! t = Some x -> P y = true -> 1 <= cnt P (<[t:=y]> g).
Proof.
  intros Hg HP. apply (cnt_lookup P _ t y); [|done]. apply list_lookup_insert_eq. by eapply lookup_lt_Some.
Qed.

(** If every index that satisfies [P] is in [q], there are at most [length q] of them. *)
Lemma cnt_le_length {A} (P : A -> bool) (y : A) (q : list nat) (l : list A) :
  P y = false -> (forall t x, l !! t = Some x -> P x = true -> t ∈ q) ->
  cnt P l <= Z.of_nat (length q).
Proof.
  intros Hy. revert l. induction q as [|t q IH]; intros l Hin.
  - rewrite cnt_zero; [done|]. intros t x Hx. destruct (P x) eqn:E; [|done].
    pose proof (Hin t x Hx E) as H. by apply not_elem_of_nil in H.
  - destruct (l !! t) as [x|] eqn:Ht.
    + pose proof (cnt_insert P l t x y Ht) as Hc. rewrite Hy in Hc.
      enough (cnt P (<[t:=y]> l) <= Z.of_nat (length q))
        by (simpl in *; destruct (P x); simpl in *; lia).
      apply IH. intros t' x' Hx' HP. destruct (decide (t = t')) as [<-|Hne].
      * rewrite list_lookup_insert_eq in Hx' by (by eapply lookup_lt_Some). congruence.
      * rewrite list_lookup_insert_ne in Hx' by done.
        pose proof (Hin t' x' Hx' HP) as H. apply elem_of_cons in H as [->|H]; done.
    + enough (cnt P l <= Z.of_nat (length q)) by (simpl; lia). apply IH. intros t' x' Hx' HP.
      pose proof (Hin t' x' Hx' HP) as H. apply elem_of_cons in H as [->|H]; [congruence|done].
Qed.

(** Taking one element out of a list without duplicates. *)
Lemma filter_ne_id (t : nat) (q : list nat) : t ∉ q -> filter (fun t' => t' <> t) q = q.
Proof.
  induction q as [|x q IH]; intros Hni; [done|]. apply not_elem_of_cons in Hni as [Hx Hni].
  rewrite filter_cons_True by done. by rewrite IH.
Qed.

Lemma length_filter_ne (t : nat) (q : list nat) : NoDup q -> t ∈ q ->
  Z.of_nat (length (filter (fun t' => t' <> t) q)) = Z.of_nat (length q) - 1.
Proof.
  induction q as [|x q IH]; intros Hnd Hin; [by apply not_elem_of_nil in Hin|].
  apply NoDup_cons in Hnd as [Hx Hnd]. destruct (decide (x = t)) as [->|Hne].
  - rewrite filter_cons_False by auto. rewrite filter_ne_id by done. simpl. lia.
  - apply elem_of_cons in Hin as [->|Hin]; [done|].
    rewrite filter_cons_True by done. simpl length. rewrite !Nat2Z.inj_succ, IH by done. lia.
Qed.

Lemma cnt_le_1 {A} (P : A -> bool) (l : list A) :
  (forall t t' x x', l !! t = Some x -> l !! t' = Some x' -> P x = true -> P x' = true -> t = t') ->
  cnt P l <= 1.
Proof.
  induction l as [|z l IH]; intros H; simpl; [lia|].
  destruct (P z) eqn:E; simpl.
  - rewrite cnt_zero; [lia|]. intros t x Hx. destruct (P x) eqn:Ex; [|done].
    by specialize (H 0%nat (S t) z x eq_refl Hx E Ex).
  - enough (cnt P l <= 1) by lia. apply IH. intros t t' x x' Hx Hx' Px Px'.
    specialize (H (S t) (S t') x x' Hx Hx' Px Px'). congruence.
Qed.

(** * Sums over lists *)

Fixpoint total {A} (f : A -> Z) (l : list A) : Z :=
  match l with
  | [] => 0
  | x :: l' => f x + total f l'
  end.

Lemma total_insert {A} (f : A -> Z) (l : list A) t x y :
  l !! t = Some x -> total f (<[t:=y]> l) = total f l - f x + f y.
Proof.
  revert t. induction l as [|z l IH]; intros [|t] H; simpl in *; try done.
  - injection H as ->. lia.
  - rewrite (IH t H). lia.
Qed.

Lemma total_replicate {A} (f : A -> Z) n x : f x = 0 -> total f (replicate n x) = 0.
Proof. intros E. induction n as [|n IH]; simpl; [done|]. rewrite E, IH. done. Qed.

Lemma total_zero {A} (f : A -> Z) (l : list A) :
  (forall t x, l !! t = Some x -> f x = 0) -> total f l = 0.
Proof.
  induction l as [|z l IH]; simpl; [done|]. intros H.
  rewrite (H 0%nat z eq_refl), IH; [done|]. intros t x Hx. apply (H (S t) x Hx).
Qed.

Lemma total_nonneg {A} (f : A -> Z) (l : list A) :
  (forall t x, l !! t = Some x -> 0 <= f x) -> 0 <= total f l.
Proof.
  induction l as [|z l IH]; simpl; [lia|]. intros H.
  pose proof (H 0%nat z eq_refl). enough (0 <= total f l) by lia.
  apply IH. intros t x Hx. apply (H (S t) x Hx).
Qed.

Lemma total_lookup {A} (f : A -> Z) (l : list A) t x :
  (forall t x, l !! t = Some x -> 0 <= f x) -> l !! t = Some x -> f x <= total f l.
Proof.
  revert t. induction l as [|z l IH]; intros t H Hx; [done|]. simpl.
  pose proof (H 0%nat z eq_refl) as Hz.
  assert (forall t x, l !! t = Some x -> 0 <= f x) as H' by (intros t' x' Hx'; apply (H (S t') x' Hx')).
  destruct t as [|t]; simpl in Hx.
  - injection Hx as ->. pose proof (total_nonneg f l H'). lia.
  - pose proof (IH t H' Hx). lia.
Qed.

(** If only the entry at [t] is not zero, the sum is that entry. *)
Lemma total_single {A} (f : A -> Z) (l : list A) t x :
  l !! t = Some x -> (forall t' x', l !! t' = Some x' -> t' <> t -> f x' = 0) -> total f l = f x.
Proof.
  intros Hx H0. pose proof (total_insert f l t x x Hx) as H.
  revert t Hx H0 H. induction l as [|z l IH]; intros [|t] Hx H0 _; simpl in *; try done.
  - injection Hx as ->. rewrite total_zero; [lia|]. intros t' x' Hx'. by apply (H0 (S t') x').
  - rewrite (H0 0%nat z) by done. rewrite (IH t Hx); [done| |by rewrite (total_insert f l t x x Hx); lia].
    intros t' x' Hx' Hne. apply (H0 (S t') x'); [done|congruence].
Qed.

(** * Bit fields *)

(** The field of [len] bits at [sh]. *)
Lemma land_field w sh len :
  0 <= sh -> 0 <= len ->
  Z.land w (Z.shiftl (Z.ones len) sh) = (w / 2 ^ sh) mod 2 ^ len * 2 ^ sh.
Proof.
  intros Hs Hl. rewrite <- Z.shiftl_mul_pow2, <- Z.land_ones, <- Z.shiftr_div_pow2 by done.
  apply Z.bits_inj'. intros n Hn. rewrite Z.land_spec, !Z.shiftl_spec, Z.land_spec by done.
  destruct (Z.ltb_spec (n - sh) 0).
  - rewrite (Z.testbit_neg_r (Z.ones len)), (Z.testbit_neg_r (Z.shiftr w sh)) by done.
    by rewrite Bool.andb_false_r.
  - rewrite Z.shiftr_spec by done. do 2 f_equal. lia.
Qed.

Lemma testbit_truthy x k : 0 <= k -> truthy (Z.land x (2 ^ k)) = Z.testbit x k.
Proof.
  intros Hk. unfold truthy. destruct (Z.testbit x k) eqn:E.
  - apply negb_true_iff, Z.eqb_neq. intros H0. apply (f_equal (fun z => Z.testbit z k)) in H0.
    rewrite Z.land_spec, Z.pow2_bits_true, E, Z.bits_0 in H0 by lia. done.
  - apply negb_false_iff, Z.eqb_eq, Z.bits_inj_iff'. intros i Hi.
    rewrite Z.land_spec, Z.bits_0. destruct (Z.eq_dec k i) as [->|]; [by rewrite E|].
    by rewrite Z.pow2_bits_false, andb_false_r.
Qed.

Lemma land_le a b : 0 <= a -> 0 <= b -> Z.land a b <= b.
Proof.
  intros Ha Hb. rewrite <-(Z2N.id a), <-(Z2N.id b), <-N2Z.inj_land by done. apply N2Z.inj_le, N.land_le_r.
Qed.

Lemma lor_ge a b : 0 <= a -> 0 <= b -> a <= Z.lor a b.
Proof. intros Ha Hb. pose proof (Z.add_lor_land a b). pose proof (land_le a b Ha Hb). lia. Qed.

Lemma land_1 x : Z.land x 1 = x mod 2.
Proof. change 1 with (Z.ones 1). by rewrite Z.land_ones. Qed.

(** A number whose low bits are clear and one that has no others. *)
Lemma land_low_bits n h l : 0 <= n -> 0 <= l < 2 ^ n -> Z.land (h * 2 ^ n) l = 0.
Proof.
  intros Hn Hl. rewrite <- (Z.mod_small l (2 ^ n)), <- Z.land_ones by done.
  rewrite (Z.land_comm l), Z.land_assoc, Z.land_ones by done.
  rewrite Z.mod_mul by lia. apply Z.land_0_l.
Qed.

Lemma lor_low_bits n h l : 0 <= n -> 0 <= l < 2 ^ n -> Z.lor (h * 2 ^ n) l = h * 2 ^ n + l.
Proof. intros Hn Hl. pose proof (Z.add_lor_land (h * 2 ^ n) l). rewrite land_low_bits in * by done. lia. Qed.

(** Flipping the two low bits of a number that ends in 01. *)
Lemma lxor_3_of_1 k : Z.lxor (4 * k + 1) 3 = 4 * k + 2.
Proof.
  assert (Z.land (4 * k) 3 = 0) as H3.
  { change 3 with (Z.ones 2). rewrite Z.land_ones by done. change (2 ^ 2) with 4.
    rewrite Z.mul_comm. by apply Z.mod_mul. }
  assert (forall b, Z.land 3 b = b -> Z.land (4 * k) b = 0) as Hb.
  { intros b <-. by rewrite Z.land_assoc, H3, Z.land_0_l. }
  rewrite (Z.add_nocarry_lxor (4 * k) 1), (Z.add_nocarry_lxor (4 * k) 2) by (by apply Hb).
  by rewrite Z.lxor_assoc.
Qed.

(** A decidable property of the numbers below [n], by computation. *)
Lemma all_below (P : Z -> Prop) `{!forall k, Decision (P k)} n :
  forallb (fun k => bool_decide (P k)) (Z.of_nat <$> seq 0 n) = true -> forall k, 0 <= k < Z.of_nat n -> P k.
Proof.
  intros Hall k Hk. rewrite forallb_forall in Hall. specialize (Hall k). rewrite bool_decide_eq_true in Hall. apply Hall.
  apply list_elem_of_In, list_elem_of_fmap. exists (Z.to_nat k). split; [lia|]. apply elem_of_seq. lia.
Qed.

(** A sequence that grows in every step. *)
Lemma ladder (f : Z -> Z) n i j : (forall k, 0 <= k < n -> f k < f (k + 1)) -> 0 <= i <= j -> j <= n -> f i <= f j.
Proof.
  intros Hstep Hij. replace j with (i + Z.of_nat (Z.to_nat (j - i))) by lia. induction (Z.to_nat (j - i)) as [|m IH]; intros Hn.
  - rewrite Z.add_0_r. lia.
  - specialize (Hstep (i + Z.of_nat m) ltac:(lia)). replace (i + Z.of_nat (S m)) with (i + Z.of_nat m + 1) by lia. lia.
Qed.
