(* ===== verification/Atomic.v ===== *)
(** Programs that act on shared memory.

    The synchronization routines of bionic are straight-line C++ over atomic words, with
    loops and the futex system call.  A routine is here a value of [prog]: a tree of atomic
    actions, each with the continuation that takes its result, and loops whose body returns
    either the next loop state ([inl], the C [continue]) or a result ([inr], [break] or
    [return]).  A machine is a list of such programs, one per thread, that take turns one
    action at a time over one memory: sequentially consistent interleaving, so the
    [memory_order_*] arguments of the sources have no counterpart.

    The kernel is not part of the repository: the futex system call is the class
    [FutexKernel], whose laws are the behaviour futex(2) documents; [fifo_kernel] is a
    kernel that satisfies them.

    The second half is a program logic: [wp] assigns every thread a phase, [Inv] relates the
    memory to all the phases, and [machine_inv] lifts a proof about each routine to every
    state the machine can reach. *)

From S2P Require Import Prelude.

(** * Memory *)

(** A location is a field of an object: [(mutex, "state")] is [&mutex->state]. *)
Definition loc : Type := (nat * string)%type.

Record timespec := mk_timespec { tv_sec : Z; tv_nsec : Z }.

Record mem := mk_mem {
  word : loc -> Z;             (* every word of shared memory *)
  waiters : loc -> bool -> list nat;
    (* the threads the kernel has queued on a futex word; process-private and shared
       waiters are on different queues *)
  errno : nat -> Z             (* errno of each thread *)
}.

Definition set_word (m : mem) (l : loc) (v : Z) : mem :=
  mk_mem (fun l' => if decide (l' = l) then v else word m l') (waiters m) (errno m).

Definition set_waiters (m : mem) (l : loc) (sh : bool) (q : list nat) : mem :=
  mk_mem (word m) (fun l' sh' => if decide (l' = l /\ sh' = sh) then q else waiters m l' sh')
    (errno m).

Definition set_errno (m : mem) (t : nat) (e : Z) : mem :=
  mk_mem (word m) (waiters m) (fun t' => if decide (t' = t) then e else errno m t').

Lemma word_set_word_eq m l v : word (set_word m l v) l = v.
Proof. simpl. by rewrite decide_True. Qed.

Lemma word_set_word_ne m l l' v : l' <> l -> word (set_word m l v) l' = word m l'.
Proof. intros H. simpl. by rewrite decide_False. Qed.

Lemma waiters_set_waiters_eq m l sh q : waiters (set_waiters m l sh q) l sh = q.
Proof. simpl. by rewrite decide_True. Qed.

Lemma waiters_set_waiters_ne m l sh l' sh' q :
  (l', sh') <> (l, sh) -> waiters (set_waiters m l sh q) l' sh' = waiters m l' sh'.
Proof. intros H. simpl. rewrite decide_False; [done|]. intros [-> ->]. done. Qed.

(** * Actions and programs *)

Inductive action : Type -> Type :=
| Rmw (l : loc) (f : Z -> Z) : action Z
    (* atomic read-modify-write; the result is the old value *)
| Cas (weak : bool) (l : loc) (expected desired : Z) : action (bool * Z)
    (* the result is success and the value seen *)
| GetTid : action Z
    (* __get_thread()->tid *)
| GetErrno : action Z
| SetErrno (e : Z) : action unit
| FutexWaitBegin (l : loc) (shared : bool) (v : Z) : action bool
    (* FUTEX_WAIT compares and queues the caller; [false] is a mismatch *)
| FutexWaitEnd (l : loc) (shared timed : bool) : action Z
    (* the queued caller comes back, with an errno value *)
| FutexWakeCall (l : loc) (shared : bool) (n : Z) : action Z
| FutexLockPiBegin (l : loc) (shared : bool) : action (option Z)
    (* FUTEX_LOCK_PI: an immediate errno value, or [None] when the caller is queued *)
| FutexLockPiEnd (l : loc) (shared timed : bool) : action Z
| FutexUnlockPi (l : loc) (shared : bool) : action Z
| ClockGettime (clk : Z) : action timespec
| Choose : action bool
    (* a choice of the environment: the client, or code outside the model *)
| Abort : action Empty_set.
    (* the process ends *)

Inductive prog (R : Type) : Type :=
| Ret (r : R)
| Vis (X : Type) (a : action X) (k : X -> prog R)
| Loop (S X : Type) (body : S -> prog (S + X)) (s : S) (k : X -> prog R).
Arguments Ret {R} r.
Arguments Vis {R X} a k.
Arguments Loop {R S X} body s k.

Fixpoint bind {R R' : Type} (p : prog R) (f : R -> prog R') {struct p} : prog R' :=
  match p with
  | Ret r => f r
  | Vis a k => Vis a (fun x => bind (k x) f)
  | Loop body s k => Loop body s (fun x => bind (k x) f)
  end.

Definition act {X : Type} (a : action X) : prog X := Vis a Ret.

Definition loop {S X : Type} (body : S -> prog (S + X)) (s : S) : prog X := Loop body s Ret.

Declare Scope prog_scope.
Delimit Scope prog_scope with prog.
Notation "x <- c ;; k" := (bind c (fun x => k))
  (at level 100, c at next level, right associativity) : prog_scope.
Notation "'let2' x , y <- c ;; k" := (bind c (fun r => match r with (x, y) => k end))
  (at level 100, x name, y name, c at next level, right associativity) : prog_scope.
Notation "c ;; k" := (bind c (fun _ => k)) (at level 100, right associativity) : prog_scope.
Open Scope prog_scope.

(** The C11 atomics the sources use. *)
Definition atomic_load (l : loc) : prog Z := act (Rmw l (fun x => x)).
Definition atomic_store (l : loc) (v : Z) : prog unit := act (Rmw l (fun _ => v)) ;; Ret tt.
Definition atomic_exchange (l : loc) (v : Z) : prog Z := act (Rmw l (fun _ => v)).
Definition atomic_fetch_add (w : Z) (l : loc) (v : Z) : prog Z :=
  act (Rmw l (fun x => wrapU w (x + v))).
Definition atomic_fetch_sub (w : Z) (l : loc) (v : Z) : prog Z :=
  act (Rmw l (fun x => wrapU w (x - v))).
Definition atomic_compare_exchange_strong (l : loc) (e d : Z) : prog (bool * Z) :=
  act (Cas false l e d).
Definition atomic_compare_exchange_weak (l : loc) (e d : Z) : prog (bool * Z) :=
  act (Cas true l e d).
Definition abort {R : Type} : prog R := Vis Abort (fun x => match x with end).

(** FUTEX_TID_MASK and FUTEX_WAITERS of linux/futex.h *)
Definition FUTEX_TID_MASK : Z := 0x3fffffff.
Definition FUTEX_WAITERS : Z := 0x80000000.

(** The errors of FUTEX_LOCK_PI that futex(2) lists besides ETIMEDOUT: the caller may not attach itself, the owner of the word
    does not exist or is about to exit, there is no memory, the word or the timeout is not valid, the operation is not
    there, and the deadlocks that the kernel detects. *)
Definition lock_pi_errors : list Z := [EPERM; ESRCH; EAGAIN; ENOMEM; EFAULT; EINVAL; EDEADLK; ENOSYS].

(** The futex system call, as futex(2) documents it.  [q] is the queue of the futex word
    before the call and [q'] after it; an errno value of 0 is success. *)
Class FutexKernel := {
  (* FUTEX_WAIT of thread [t]: the word, the value expected, queued or not *)
  kernel_wait_begin : nat -> Z -> Z -> list nat -> bool -> list nat -> Prop;
  (* the return of a queued thread: has a timeout, the errno value *)
  kernel_wait_end : nat -> bool -> list nat -> Z -> list nat -> Prop;
  (* FUTEX_WAKE of at most [n] waiters *)
  kernel_wake : list nat -> Z -> list nat -> Prop;
  (* FUTEX_LOCK_PI: the word before, the result, the word after *)
  kernel_lock_pi_begin : nat -> Z -> list nat -> option Z -> Z -> list nat -> Prop;
  (* the return of a thread that FUTEX_LOCK_PI has queued *)
  kernel_lock_pi_end : nat -> bool -> list nat -> Z -> list nat -> Prop;
  (* FUTEX_UNLOCK_PI: the word before, the errno value, the word after *)
  kernel_unlock_pi : nat -> Z -> list nat -> Z -> Z -> list nat -> Prop;
  (* the number of threads that can exist and the ids the kernel hands out *)
  max_threads : Z;
  tid_of : nat -> Z;

  (* the caller is queued if the word has the value expected, and fails otherwise *)
  kernel_wait_begin_spec t w v q b q' : kernel_wait_begin t w v q b q' ->
    (w = v /\ b = true /\ q' ≡ₚ t :: q) \/ (w <> v /\ b = false /\ q' = q);
  (* a thread returns 0 once a wake-up removed it from the queue; it can give up with EINTR,
     or with ETIMEDOUT if it has a timeout *)
  kernel_wait_end_spec t timed q e q' : kernel_wait_end t timed q e q' ->
    ((t ∉ q) /\ e = 0 /\ q' = q) \/
    ((t ∈ q) /\ (e = EINTR \/ (timed = true /\ e = ETIMEDOUT)) /\
       q' = filter (fun t' => t' <> t) q);
  (* a wake-up removes waiters, at most [n], all of them when there are no more *)
  kernel_wake_sub q n q' : kernel_wake q n q' -> sublist q' q;
  kernel_wake_count q n q' : 0 <= n -> kernel_wake q n q' ->
    Z.of_nat (length q) - Z.of_nat (length q') = Z.min n (Z.of_nat (length q));
  (* a word with no owner becomes the id of the caller, the owner gets EDEADLK, any other
     caller sets FUTEX_WAITERS and is queued; or the call fails, which may leave FUTEX_WAITERS set *)
  kernel_lock_pi_begin_spec t w q r w' q' : kernel_lock_pi_begin t w q r w' q' ->
    (Z.land w FUTEX_TID_MASK = 0 /\ r = Some 0 /\
       (w' = tid_of t \/ w' = Z.lor (tid_of t) FUTEX_WAITERS) /\ q' = q) \/
    (Z.land w FUTEX_TID_MASK = tid_of t /\ r = Some EDEADLK /\ w' = w /\ q' = q) \/
    (Z.land w FUTEX_TID_MASK <> 0 /\ Z.land w FUTEX_TID_MASK <> tid_of t /\ r = None /\
       w' = Z.lor w FUTEX_WAITERS /\ q' ≡ₚ t :: q) \/
    (exists e, e ∈ lock_pi_errors /\ r = Some e /\
       (w' = w \/ (Z.land w FUTEX_TID_MASK <> 0 /\ w' = Z.lor w FUTEX_WAITERS)) /\ q' = q);
  (* a queued thread returns 0 once it was handed the word and removed from the queue; it can give up at its timeout
     or with an error *)
  kernel_lock_pi_end_spec t timed q e q' : kernel_lock_pi_end t timed q e q' ->
    ((t ∉ q) /\ e = 0 /\ q' = q) \/
    ((t ∈ q) /\ ((e ∈ lock_pi_errors) \/ (timed = true /\ e = ETIMEDOUT)) /\
       q' = filter (fun t' => t' <> t) q);
  (* only the owner can unlock; the word goes to one of the waiters, if there is one, with
     FUTEX_WAITERS if there are more *)
  kernel_unlock_pi_spec t w q e w' q' : kernel_unlock_pi t w q e w' q' ->
    (Z.land w FUTEX_TID_MASK <> tid_of t /\ e = EPERM /\ w' = w /\ q' = q) \/
    (Z.land w FUTEX_TID_MASK = tid_of t /\ e = 0 /\ q = [] /\ w' = 0 /\ q' = []) \/
    (Z.land w FUTEX_TID_MASK = tid_of t /\ e = 0 /\ exists t', q ≡ₚ t' :: q' /\
       ((q' = [] /\ w' = tid_of t') \/ w' = Z.lor (tid_of t') FUTEX_WAITERS));
  (* ids are positive, fit FUTEX_TID_MASK and are distinct *)
  tid_of_pos t : Z.of_nat t < max_threads -> 0 < tid_of t <= FUTEX_TID_MASK;
  tid_of_inj t t' : Z.of_nat t < max_threads -> Z.of_nat t' < max_threads ->
    tid_of t = tid_of t' -> t = t'
}.

Section semantics.
Context {K : FutexKernel}.

(** What an action of thread [t] does: memory before, result, memory after. *)
Definition action_sem (t : nat) {X : Type} (a : action X) (m : mem) (x : X) (m' : mem) : Prop :=
  match a in action X return X -> Prop with
  | Rmw l f => fun x => x = word m l /\ m' = set_word m l (f (word m l))
  | Cas weak l e d => fun x =>
      x.2 = word m l /\
      ((x.1 = true /\ word m l = e /\ m' = set_word m l d) \/
       (x.1 = false /\ (word m l <> e \/ weak = true) /\ m' = m))
  | GetTid => fun x => x = tid_of t /\ m' = m
  | GetErrno => fun x => x = errno m t /\ m' = m
  | SetErrno e => fun _ => m' = set_errno m t e
  | FutexWaitBegin l sh v => fun x => exists q,
      kernel_wait_begin t (word m l) v (waiters m l sh) x q /\ m' = set_waiters m l sh q
  | FutexWaitEnd l sh timed => fun x => exists q,
      kernel_wait_end t timed (waiters m l sh) x q /\ m' = set_waiters m l sh q
  | FutexWakeCall l sh n => fun x => exists q,
      kernel_wake (waiters m l sh) n q /\
      x = Z.of_nat (length (waiters m l sh)) - Z.of_nat (length q) /\ m' = set_waiters m l sh q
  | FutexLockPiBegin l sh => fun x => exists w q,
      kernel_lock_pi_begin t (word m l) (waiters m l sh) x w q /\
      m' = set_word (set_waiters m l sh q) l w
  | FutexLockPiEnd l sh timed => fun x => exists q,
      kernel_lock_pi_end t timed (waiters m l sh) x q /\ m' = set_waiters m l sh q
  | FutexUnlockPi l sh => fun x => exists w q,
      kernel_unlock_pi t (word m l) (waiters m l sh) x w q /\
      m' = set_word (set_waiters m l sh q) l w
  | ClockGettime _ => fun _ => m' = m
  | Choose => fun _ => m' = m
  | Abort => fun _ => False
  end x.

(** One step of a thread. *)
Definition prog_step {R : Type} (t : nat) (p : prog R) (m : mem) (p' : prog R) (m' : mem) : Prop :=
  match p with
  | Ret _ => False
  | Vis a k => exists x, action_sem t a m x m' /\ p' = k x
  | Loop body s k =>
      m' = m /\ p' = bind (body s) (fun r => match r with inl s' => Loop body s' k | inr x => k x end)
  end.

(** The machine. *)
Definition machine : Type := (list (prog unit) * mem)%type.

Inductive machine_step : machine -> machine -> Prop :=
| machine_step_thread ps m t p p' m' :
    ps !! t = Some p -> prog_step t p m p' m' ->
    machine_step (ps, m) (<[t:=p']> ps, m').

Definition reachable : machine -> machine -> Prop := rtc machine_step.

Definition finished {R} (p : prog R) : bool := match p with Ret _ => true | _ => false end.

(** The futex queue a thread is waiting to come back from. *)
Definition waiting_on {R} (p : prog R) : option (loc * bool) :=
  match p with
  | Vis (FutexWaitEnd l sh _) _ => Some (l, sh)
  | Vis (FutexLockPiEnd l sh _) _ => Some (l, sh)
  | _ => None
  end.

(** The thread is queued on the futex it waits for: only a wake-up, a signal or a timeout
    lets it run again. *)
Definition asleep (m : mem) (t : nat) (p : prog unit) : bool :=
  match waiting_on p with
  | Some (l, sh) => bool_decide (t ∈ waiters m l sh)
  | None => false
  end.

(** Threads neither come nor go. *)
Lemma reachable_length c c' : reachable c c' -> length c'.1 = length c.1.
Proof.
  induction 1 as [|c c1 c2 Hs _ IH]; [done|]. rewrite IH. destruct Hs. simpl. apply length_insert.
Qed.

(** Every thread has returned or sleeps: nothing happens any more. *)
Definition quiescent (c : machine) : Prop :=
  forall t p, c.1 !! t = Some p -> finished p = true \/ asleep c.2 t p = true.

End semantics.

(** * Running one thread *)

(** A kernel that wakes waiters in the order in which they came, with room for 32767 threads. *)
Definition fifo_tid (t : nat) : Z := Z.of_nat t + 1.

Definition fifo_wait_begin (t : nat) (w v : Z) (q : list nat) : bool * list nat :=
  if decide (w = v) then (true, q ++ [t]) else (false, q).

Definition fifo_wait_end (t : nat) (timed : bool) (q : list nat) : Z * list nat :=
  if decide (t ∈ q)
  then (if timed then ETIMEDOUT else EINTR, filter (fun t' => t' <> t) q) else (0, q).

Definition fifo_wake (q : list nat) (n : Z) : list nat :=
  drop (Z.to_nat (Z.min n (Z.of_nat (length q)))) q.

Definition fifo_lock_pi (t : nat) (w : Z) (q : list nat) : option Z * Z * list nat :=
  if decide (Z.land w FUTEX_TID_MASK = 0) then (Some 0, fifo_tid t, q)
  else if decide (Z.land w FUTEX_TID_MASK = fifo_tid t) then (Some EDEADLK, w, q)
  else (None, Z.lor w FUTEX_WAITERS, q ++ [t]).

Definition fifo_lock_pi_end (t : nat) (timed : bool) (q : list nat) : Z * list nat :=
  if decide (t ∈ q)
  then (if timed then ETIMEDOUT else EAGAIN, filter (fun t' => t' <> t) q) else (0, q).

Definition fifo_unlock_pi (t : nat) (w : Z) (q : list nat) : Z * Z * list nat :=
  if decide (Z.land w FUTEX_TID_MASK = fifo_tid t) then
    match q with
    | [] => (0, 0, [])
    | [t'] => (0, fifo_tid t', [])
    | t' :: q' => (0, Z.lor (fifo_tid t') FUTEX_WAITERS, q')
    end
  else (EPERM, w, q).

#[local] Obligation Tactic := simpl.
#[export] Program Instance fifo_kernel : FutexKernel := {|
  kernel_wait_begin t w v q b q' := fifo_wait_begin t w v q = (b, q');
  kernel_wait_end t timed q e q' := fifo_wait_end t timed q = (e, q');
  kernel_wake q n q' := fifo_wake q n = q';
  kernel_lock_pi_begin t w q r w' q' := fifo_lock_pi t w q = (r, w', q');
  kernel_lock_pi_end t timed q e q' := fifo_lock_pi_end t timed q = (e, q');
  kernel_unlock_pi t w q e w' q' := fifo_unlock_pi t w q = (e, w', q');
  max_threads := 32767;
  tid_of := fifo_tid
|}.
Next Obligation.
  unfold fifo_wait_begin. intros t w v q b q' H. case_decide; simplify_eq; [left|by right].
  repeat split; try done. by rewrite Permutation_app_comm.
Qed.
Next Obligation.
  unfold fifo_wait_end. intros t timed q e q' H. case_decide; simplify_eq; [right|by left].
  destruct timed; auto.
Qed.
Next Obligation. intros q n q' <-. apply sublist_drop. Qed.
Next Obligation. intros q n q' Hn <-. unfold fifo_wake. rewrite length_drop. lia. Qed.
Next Obligation.
  unfold fifo_lock_pi. intros t w q r w' q' H.
  repeat case_decide; simplify_eq; [left; auto|right; left; auto|].
  right; right; left. repeat split; try done. by rewrite Permutation_app_comm.
Qed.
Next Obligation.
  unfold fifo_lock_pi_end. intros t timed q e q' H. case_decide; simplify_eq; [right|by left].
  destruct timed; [auto|]. split; [done|]. split; [left|done]. by apply (bool_decide_eq_true_1 (EAGAIN ∈ lock_pi_errors)).
Qed.
Next Obligation.
  unfold fifo_unlock_pi. intros t w q e w' q' H. case_decide; simplify_eq; [right|by left].
  destruct q as [|t' [|t1 q1]]; simplify_eq; [by left|right..];
    (repeat split; try done; exists t'; auto).
Qed.
Next Obligation. intros t H. unfold fifo_tid, FUTEX_TID_MASK. lia. Qed.
Next Obligation. intros t t' _ _ H. unfold fifo_tid in H. lia. Qed.

(** What a thread that runs alone comes to. *)
Inductive outcome (R : Type) : Type :=
| Done (r : R) (m : mem)
| Blocked (m : mem)
| Aborted (m : mem)
| OutOfFuel.
Arguments Done {R} r m.
Arguments Blocked {R} m.
Arguments Aborted {R} m.
Arguments OutOfFuel {R}.

Section exec.
(** The clocks, and the choice [Choose] makes. *)
Context (clock : Z -> timespec) (choice : bool).

Definition exec_action (t : nat) {X : Type} (a : action X) (m : mem) : option (X * mem) :=
  match a in action X return option (X * mem) with
  | Rmw l f => Some (word m l, set_word m l (f (word m l)))
  | Cas _ l e d =>
      if word m l =? e then Some ((true, word m l), set_word m l d) else Some ((false, word m l), m)
  | GetTid => Some (tid_of t, m)
  | GetErrno => Some (errno m t, m)
  | SetErrno e => Some (tt, set_errno m t e)
  | FutexWaitBegin l sh v =>
      let '(b, q) := fifo_wait_begin t (word m l) v (waiters m l sh) in
      Some (b, set_waiters m l sh q)
  | FutexWaitEnd l sh _ =>
      if decide (t ∈ waiters m l sh) then None
      else Some (0, set_waiters m l sh (waiters m l sh))
  | FutexWakeCall l sh n =>
      let q := fifo_wake (waiters m l sh) n in
      Some (Z.of_nat (length (waiters m l sh)) - Z.of_nat (length q), set_waiters m l sh q)
  | FutexLockPiBegin l sh =>
      let '(r, w, q) := fifo_lock_pi t (word m l) (waiters m l sh) in
      Some (r, set_word (set_waiters m l sh q) l w)
  | FutexLockPiEnd l sh _ =>
      if decide (t ∈ waiters m l sh) then None
      else Some (0, set_waiters m l sh (waiters m l sh))
  | FutexUnlockPi l sh =>
      let '(e, w, q) := fifo_unlock_pi t (word m l) (waiters m l sh) in
      Some (e, set_word (set_waiters m l sh q) l w)
  | ClockGettime c => Some (clock c, m)
  | Choose => Some (choice, m)
  | Abort => None
  end.

Definition is_abort {X : Type} (a : action X) : bool := match a with Abort => true | _ => false end.

Fixpoint exec {R : Type} (fuel : nat) (t : nat) (p : prog R) (m : mem) : outcome R :=
  match fuel with
  | O => OutOfFuel
  | S n =>
      match p with
      | Ret r => Done r m
      | Vis a k =>
          match exec_action t a m with
          | Some (x, m') => exec n t (k x) m'
          | None => if is_abort a then Aborted m else Blocked m
          end
      | Loop body s k =>
          exec n t (bind (body s) (fun r => match r with inl s' => Loop body s' k | inr x => k x end)) m
      end
  end.

Lemma fifo_wait_end_woken t timed q : t ∉ q -> fifo_wait_end t timed q = (0, q).
Proof. intros H. unfold fifo_wait_end. by rewrite decide_False. Qed.

Lemma fifo_lock_pi_end_woken t timed q : t ∉ q -> fifo_lock_pi_end t timed q = (0, q).
Proof. intros H. unfold fifo_lock_pi_end. by rewrite decide_False. Qed.

Lemma exec_action_sound t {X} (a : action X) m x m' :
  exec_action t a m = Some (x, m') -> action_sem t a m x m'.
Proof.
  destruct a; simpl; intros H; repeat case_match; simplify_eq/=; try done;
    repeat match goal with
    | H : (_ =? _) = true |- _ => apply Z.eqb_eq in H
    | H : (_ =? _) = false |- _ => apply Z.eqb_neq in H
    end; first [by eauto 4 using fifo_wait_end_woken, fifo_lock_pi_end_woken | by auto 6].
Qed.

(** A run that ends is an execution of the thread. *)
Lemma exec_sound {R} fuel t (p : prog R) m r m' :
  exec fuel t p m = Done r m' ->
  rtc (fun c c' => prog_step t c.1 c.2 c'.1 c'.2) (p, m) (Ret r, m').
Proof.
  revert p m. induction fuel as [|n IH]; simpl; intros p m H; [done|].
  destruct p as [r0|X a k|S X body s k].
  - injection H as -> ->. apply rtc_refl.
  - destruct (exec_action t a m) as [[x m1]|] eqn:E; [|by destruct (is_abort a)].
    eapply rtc_l; [|by apply IH, H]. simpl. exists x. split; [|done]. by apply exec_action_sound.
  - eapply rtc_l; [|by apply IH, H]. done.
Qed.

(** ** Total correctness of a thread that runs alone *)

(** Programs that differ in the form of their continuations only. *)
Inductive peq {R : Type} : prog R -> prog R -> Prop :=
| peq_ret r : peq (Ret r) (Ret r)
| peq_vis X (a : action X) k k' : (forall x, peq (k x) (k' x)) -> peq (Vis a k) (Vis a k')
| peq_loop S X (body : S -> prog (S + X)) s k k' :
    (forall x, peq (k x) (k' x)) -> peq (Loop body s k) (Loop body s k').

Lemma peq_refl {R} (p : prog R) : peq p p.
Proof using Type. induction p; by constructor. Qed.

Lemma peq_bind {R R'} (p : prog R) (f f' : R -> prog R') :
  (forall r, peq (f r) (f' r)) -> peq (bind p f) (bind p f').
Proof using Type. intros Hf. induction p; simpl; [apply Hf|constructor; auto..]. Qed.

Lemma peq_assoc {R R' R''} (p : prog R) (f : R -> prog R') (g : R' -> prog R'') :
  peq (bind (bind p f) g) (bind p (fun x => bind (f x) g)).
Proof using Type. induction p; simpl; [apply peq_refl|constructor; auto..]. Qed.

Lemma exec_peq {R} fuel t (p p' : prog R) m : peq p p' -> exec fuel t p m = exec fuel t p' m.
Proof using Type.
  revert p p' m. induction fuel as [|n IH]; intros p p' m H; simpl; [done|].
  destruct H as [r|X a k k' Hk|S X body s k k' Hk]; [done|..].
  - destruct (exec_action t a m) as [[x m1]|]; [auto|done].
  - apply IH, peq_bind. intros [s'|x]; [by constructor|done].
Qed.

Lemma exec_mono {R} n n' t (p : prog R) m r m' :
  exec n t p m = Done r m' -> (n <= n')%nat -> exec n' t p m = Done r m'.
Proof using Type.
  revert n' p m. induction n as [|n IH]; simpl; intros n' p m H Hle; [done|].
  destruct n' as [|n']; [lia|]. simpl. destruct p as [r0|X a k|S X body s k]; [done|..|by apply IH; [|lia]].
  destruct (exec_action t a m) as [[x m1]|]; [by apply IH; [|lia]|done].
Qed.

Lemma exec_bind {R R'} n n' t (p : prog R) (f : R -> prog R') m x m1 r m' :
  exec n t p m = Done x m1 -> exec n' t (f x) m1 = Done r m' -> exec (n + n') t (bind p f) m = Done r m'.
Proof using Type.
  intros H H'. revert p m H. induction n as [|n IH]; simpl; intros p m H; [done|].
  destruct p as [r0|X a k|S X body s k]; simpl.
  - injection H as -> ->. apply (exec_mono n' (Datatypes.S (n + n')) t (f x)); [done|lia].
  - destruct (exec_action t a m) as [[y m2]|]; [by apply IH|by destruct (is_abort a)].
  - rewrite <-(IH _ _ H). symmetry. etrans; [apply exec_peq, peq_assoc|]. apply exec_peq, peq_bind.
    intros [s'|y]; apply peq_refl.
Qed.

(** The thread returns, and then [P] holds of the result and the memory. *)
Definition ends {R : Type} (t : nat) (p : prog R) (m : mem) (P : R -> mem -> Prop) : Prop :=
  exists n r m', exec n t p m = Done r m' /\ P r m'.

Lemma ends_ret {R} t (r : R) m (P : R -> mem -> Prop) : P r m -> ends t (Ret r) m P.
Proof using Type. intros H. by exists 1%nat, r, m. Qed.

Lemma ends_mono {R} t (p : prog R) m (P P' : R -> mem -> Prop) :
  (forall r m', P r m' -> P' r m') -> ends t p m P -> ends t p m P'.
Proof using Type. intros H (n & r & m' & E & HP). exists n, r, m'. auto. Qed.

Lemma ends_bind {R R'} t (p : prog R) (f : R -> prog R') m P :
  ends t p m (fun x m1 => ends t (f x) m1 P) -> ends t (bind p f) m P.
Proof using Type.
  intros (n & x & m1 & E & n' & r & m' & E' & HP). exists (n + n')%nat, r, m'. split; [|done]. by apply (exec_bind n n' t p f m x m1).
Qed.

Lemma ends_act {X} t (a : action X) m x m' P : exec_action t a m = Some (x, m') -> P x m' -> ends t (act a) m P.
Proof using Type. intros E HP. exists 2%nat, x, m'. simpl. by rewrite E. Qed.

Lemma ends_load t l m (P : Z -> mem -> Prop) : P (word m l) (set_word m l (word m l)) -> ends t (atomic_load l) m P.
Proof using Type. by apply ends_act. Qed.

Lemma ends_store t l v m (P : unit -> mem -> Prop) : P tt (set_word m l v) -> ends t (atomic_store l v) m P.
Proof using Type. intros H. by apply ends_bind, (ends_act t _ m (word m l) (set_word m l v)); [|apply ends_ret]. Qed.

(** A loop with an invariant and a measure. *)
Lemma ends_loop {S X} t (body : S -> prog (S + X)) (J : S -> mem -> Prop) (μ : S -> nat) s m (P : X -> mem -> Prop) :
  J s m ->
  (forall s m, J s m -> ends t (body s) m (fun r m' =>
     match r with inl s' => J s' m' /\ (μ s' < μ s)%nat | inr x => P x m' end)) ->
  ends t (loop body s) m P.
Proof using Type.
  intros HJ Hb. remember (μ s) as k eqn:Ek. revert s m HJ Ek. induction k as [k IH] using lt_wf_ind. intros s m HJ ->.
  destruct (Hb s m HJ) as (n & r & m1 & E & Hr). destruct r as [s'|x].
  - destruct Hr as [HJ' Hlt]. destruct (IH (μ s') Hlt s' m1 HJ' eq_refl) as (n' & x & m' & E' & HP).
    exists (Datatypes.S (n + n')), x, m'. split; [|done]. simpl. by apply (exec_bind n n' t _ _ m (inl s') m1).
  - exists (Datatypes.S (n + 1)), x, m1. split; [|done]. simpl. by apply (exec_bind n 1 t _ _ m (inr x) m1).
Qed.

Definition exec_step (t : nat) (p : prog unit) (m : mem) : option (prog unit * mem) :=
  match p with
  | Ret _ => None
  | Vis a k => match exec_action t a m with Some (x, m') => Some (k x, m') | None => None end
  | Loop body s k =>
      Some (bind (body s) (fun r => match r with inl s' => Loop body s' k | inr x => k x end), m)
  end.

Lemma exec_step_sound t p m p' m' : exec_step t p m = Some (p', m') -> prog_step t p m p' m'.
Proof.
  destruct p as [r|X a k|S X body s k]; simpl; intros H; [done|..].
  - destruct (exec_action t a m) as [[x m1]|] eqn:Ea; simplify_eq.
    exists x. split; [by apply exec_action_sound|done].
  - by simplify_eq.
Qed.

End exec.

Lemma exec_load {R} clock choice fuel t l (k : Z -> prog R) m :
  exec clock choice (S fuel) t (x <- atomic_load l ;; k x) m
  = exec clock choice fuel t (k (word m l)) (set_word m l (word m l)).
Proof. done. Qed.

(** The machine under a schedule: the threads that step, in order, each with the choice it
    makes if it makes one; a thread that cannot step is skipped. *)
Fixpoint run_schedule (clock : Z -> timespec) (sched : list (nat * bool)) (c : machine) : machine :=
  match sched with
  | [] => c
  | (t, choice) :: sched' =>
      run_schedule clock sched'
        match c.1 !! t with
        | Some p => match exec_step clock choice t p c.2 with
                    | Some (p', m') => (<[t:=p']> c.1, m')
                    | None => c
                    end
        | None => c
        end
  end.

(** A decision procedure for the outcome: every thread has returned or sleeps, thread [t] sleeps. *)
Definition stuck (t : nat) (c : machine) : bool :=
  forallb (fun t => match c.1 !! t with
                    | Some p => finished p || asleep c.2 t p
                    | None => true
                    end) (seq 0 (length c.1)) &&
  match c.1 !! t with Some p => asleep c.2 t p | None => false end.

Lemma stuck_sound t c :
  stuck t c = true -> quiescent c /\ exists p, c.1 !! t = Some p /\ asleep c.2 t p = true.
Proof.
  unfold stuck. intros [Hall Ht]%andb_prop. split.
  - intros t' p Hp. rewrite forallb_forall in Hall. specialize (Hall t').
    rewrite Hp in Hall. apply orb_prop, Hall. apply in_seq. apply lookup_lt_Some in Hp. lia.
  - destruct (c.1 !! t) as [p|]; [by exists p|done].
Qed.

(** The thread [t], asleep in a futex wait, gives up: with ETIMEDOUT if it has a timeout, and
    with EINTR otherwise. *)
Definition quit_wait (t : nat) (c : machine) : machine :=
  match c.1 !! t with
  | Some (Vis (FutexWaitEnd l sh timed) k) =>
      let '(e, q) := fifo_wait_end t timed (waiters c.2 l sh) in
      (<[t:=k e]> c.1, set_waiters c.2 l sh q)
  | _ => c
  end.

Lemma quit_wait_reachable t c : reachable c (quit_wait t c).
Proof.
  unfold quit_wait. destruct c as [ps m]. simpl.
  destruct (ps !! t) as [[r|X a k|S X body s k]|] eqn:Hp; try apply rtc_refl.
  destruct a; try apply rtc_refl. destruct (fifo_wait_end t timed (waiters m l shared)) as [e q] eqn:E.
  apply rtc_once. apply machine_step_thread with (1 := Hp). exists e. split; [|done]. by exists q.
Qed.

Lemma run_schedule_reachable clock sched c : reachable c (run_schedule clock sched c).
Proof.
  revert c. induction sched as [|[t choice] sched IH]; intros [ps m]; simpl; [apply rtc_refl|].
  destruct (ps !! t) as [p|] eqn:Hp; [|apply IH].
  destruct (exec_step clock choice t p m) as [[p' m']|] eqn:E; [|apply IH].
  eapply rtc_l; [|apply IH]. apply machine_step_thread with (p := p); [done|].
  by eapply exec_step_sound.
Qed.

(** * A program logic over phases *)

(** Memories that agree on words and queues; errno belongs to its thread. *)
Definition mem_equiv (m m' : mem) : Prop :=
  (forall l, word m l = word m' l) /\ (forall l sh, waiters m l sh = waiters m' l sh).

#[export] Instance mem_equiv_equivalence : Equivalence mem_equiv.
Proof.
  split.
  - done.
  - intros m m' [H1 H2]. split; intros; symmetry; auto.
  - intros m1 m2 m3 [H1 H2] [H3 H4]. split; intros; etrans; eauto.
Qed.

Lemma mem_equiv_set_errno m t e : mem_equiv m (set_errno m t e).
Proof. done. Qed.

Lemma mem_equiv_same_waiters m l sh : mem_equiv m (set_waiters m l sh (waiters m l sh)).
Proof. split; simpl; [done|]. intros l' sh'. case_decide as E; [|done]. by destruct E as [-> ->]. Qed.

Lemma mem_equiv_same_word m l : mem_equiv m (set_word m l (word m l)).
Proof. split; simpl; [|done]. intros l'. case_decide as E; [|done]. by rewrite E. Qed.

#[export] Instance set_word_equiv : Proper (mem_equiv ==> eq ==> eq ==> mem_equiv) set_word.
Proof. intros m m' [H1 H2] l ? <- v ? <-. split; simpl; [|done]. intros l'. by case_decide. Qed.

#[export] Instance set_waiters_equiv : Proper (mem_equiv ==> eq ==> eq ==> eq ==> mem_equiv) set_waiters.
Proof. intros m m' [H1 H2] l ? <- sh ? <- q ? <-. split; simpl; [done|]. intros l' sh'. by case_decide. Qed.

(** The places a program may touch. *)
Definition action_within (P : loc -> Prop) {X : Type} (a : action X) : Prop :=
  match a with
  | Rmw l _ | Cas _ l _ _ | FutexWaitBegin l _ _ | FutexWaitEnd l _ _ | FutexWakeCall l _ _
  | FutexLockPiBegin l _ | FutexLockPiEnd l _ _ | FutexUnlockPi l _ => P l
  | _ => True
  end.

Fixpoint within (P : loc -> Prop) {R : Type} (p : prog R) : Prop :=
  match p with
  | Ret _ => True
  | Vis a k => action_within P a /\ forall x, within P (k x)
  | Loop body _ k => (forall s, within P (body s)) /\ forall x, within P (k x)
  end.

Lemma within_bind P {R R'} (p : prog R) (f : R -> prog R') :
  within P p -> (forall r, within P (f r)) -> within P (bind p f).
Proof.
  induction p as [R r|R X a k IH|R S X body _ s k IHk]; simpl; intros Hp Hf; [apply Hf|..].
  - split; [apply Hp|]. intros x. apply IH; [apply Hp|done].
  - split; [apply Hp|]. intros x. apply IHk; [apply Hp|done].
Qed.

Lemma within_act P {X} (a : action X) : action_within P a -> within P (act a).
Proof. by split. Qed.

Lemma within_loop P {S X} (body : S -> prog (S + X)) s :
  (forall s, within P (body s)) -> within P (loop body s).
Proof. by split. Qed.

(** Solves [within P p] by the structure of [p], with the lemmas on subroutines in the database
    [within]. *)
Create HintDb within.

Ltac within_tac :=
  repeat first
    [ done
    | progress intros
    | solve [eauto 2 with within]
    | apply within_bind
    | apply within_act
    | apply within_loop
    | match goal with
      | |- within _ (match ?x with _ => _ end) => destruct x
      | |- within _ (let _ := _ in _) => cbv zeta
      end ].

Section logic.
Context {K : FutexKernel} {Φ : Type} (Inv : mem -> list Φ -> Prop)
  `{Inv_proper : !Proper (mem_equiv ==> eq ==> iff) Inv}.

(** [wpe p t Q φ e]: thread [t], in phase [φ] and with errno [e], runs [p].  Each of its
    actions, from any memory and any phases of the others that satisfy [Inv], can be matched
    by a phase of its own that restores [Inv]; when [p] returns, [Q] holds of the result, the
    phase and errno.  A loop has an invariant on its state, the phase and errno. *)
Fixpoint wpe {R : Type} (p : prog R) (t : nat) (Q : R -> Φ -> Z -> Prop) (φ : Φ) (e : Z)
    {struct p} : Prop :=
  match p with
  | Ret r => Q r φ e
  | Vis a k => forall m g, Inv m g -> g !! t = Some φ -> errno m t = e ->
      forall x m', action_sem t a m x m' ->
      exists φ', Inv m' (<[t:=φ']> g) /\ wpe (k x) t Q φ' (errno m' t)
  | Loop body s k => exists J : _ -> Φ -> Z -> Prop, J s φ e /\ forall s φ e, J s φ e ->
      wpe (body s) t
        (fun r φ' e' => match r with inl s' => J s' φ' e' | inr x => wpe (k x) t Q φ' e' end) φ e
  end.

Lemma wpe_mono {R} (p : prog R) t (Q Q' : R -> Φ -> Z -> Prop) φ e :
  (forall r φ e, Q r φ e -> Q' r φ e) -> wpe p t Q φ e -> wpe p t Q' φ e.
Proof.
  revert Q Q' φ e.
  induction p as [R r|R X a k IH|R S X body IHb s k IHk]; simpl; intros Q Q' φ e HQ H.
  - by apply HQ.
  - intros m g HI Hg He x m' Ha. destruct (H m g HI Hg He x m' Ha) as (φ' & HI' & Hk).
    exists φ'. split; [done|]. by apply (IH x Q Q').
  - destruct H as (J & HJ & Hb). exists J. split; [done|]. intros s' φ' e' HJ'.
    apply (IHb s' _ _ φ' e') with (2 := Hb s' φ' e' HJ').
    intros [s''|x] φ'' e''; [done|]. by apply IHk.
Qed.

Lemma wpe_bind {R R'} (p : prog R) (f : R -> prog R') t Q φ e :
  wpe p t (fun r φ' e' => wpe (f r) t Q φ' e') φ e -> wpe (bind p f) t Q φ e.
Proof.
  revert φ e. induction p as [R r|R X a k IH|R S X body _ s k IHk]; simpl; intros φ e H; [done|..].
  - intros m g HI Hg He x m' Ha. destruct (H m g HI Hg He x m' Ha) as (φ' & HI' & Hk).
    exists φ'. split; [done|]. by apply IH.
  - destruct H as (J & HJ & Hb). exists J. split; [done|]. intros s' φ' e' HJ'.
    apply (wpe_mono (body s') t _ _ φ' e') with (2 := Hb s' φ' e' HJ').
    intros [s''|x] φ'' e''; [done|]. by apply IHk.
Qed.

Lemma wpe_act {X} (a : action X) t (Q : X -> Φ -> Z -> Prop) φ e :
  (forall m g, Inv m g -> g !! t = Some φ -> errno m t = e ->
     forall x m', action_sem t a m x m' ->
     exists φ', Inv m' (<[t:=φ']> g) /\ Q x φ' (errno m' t)) ->
  wpe (act a) t Q φ e.
Proof. done. Qed.

Lemma wpe_get_errno t (Q : Z -> Φ -> Z -> Prop) φ e : Q e φ e -> wpe (act GetErrno) t Q φ e.
Proof.
  intros HQ. apply wpe_act. intros m g HI Hg He x m' [-> ->]. exists φ.
  rewrite (list_insert_id g t φ Hg), He. done.
Qed.

Lemma wpe_set_errno e' t (Q : unit -> Φ -> Z -> Prop) φ e :
  Q tt φ e' -> wpe (act (SetErrno e')) t Q φ e.
Proof using Inv_proper.
  intros HQ. apply wpe_act. intros m g HI Hg He [] m' ->. exists φ.
  rewrite (list_insert_id g t φ Hg). split; [by rewrite <- mem_equiv_set_errno|].
  simpl. by rewrite decide_True.
Qed.

(** A step of the thread keeps the invariant and the proof. *)
Lemma wpe_step {R} (p p' : prog R) t Q φ m m' g :
  wpe p t Q φ (errno m t) -> Inv m g -> g !! t = Some φ -> prog_step t p m p' m' ->
  exists φ', Inv m' (<[t:=φ']> g) /\ wpe p' t Q φ' (errno m' t).
Proof.
  destruct p as [r|X a k|S X body s k]; simpl; intros Hwp HI Hg Hs; [done|..].
  - destruct Hs as (x & Ha & ->). by apply Hwp with (m := m).
  - destruct Hs as [-> ->]. exists φ. rewrite (list_insert_id g t φ Hg). split; [done|].
    destruct Hwp as (J & HJ & Hb). apply wpe_bind.
    apply (wpe_mono (body s) t _ _ φ _) with (2 := Hb s φ _ HJ).
    intros [s'|x] φ' e' H; [|done]. simpl. by exists J.
Qed.

(** A thread does not touch the errno of another. *)
Lemma prog_step_errno {R} (p p' : prog R) t t' m m' :
  t' <> t -> prog_step t p m p' m' -> errno m' t' = errno m t'.
Proof.
  intros Hne. destruct p as [r|X a k|S X body s k]; simpl; [done|..].
  - intros (x & Ha & _). destruct a; simpl in Ha;
      repeat match goal with
      | H : exists _, _ |- _ => destruct H
      | H : _ /\ _ |- _ => destruct H
      | H : _ \/ _ |- _ => destruct H
      end; subst; simpl; try case_decide; done.
  - by intros [-> _].
Qed.

(** Every thread is in a phase in which the logic vouches for the rest of its program. *)
Definition threads_ok (Q : unit -> Φ -> Z -> Prop) (ps : list (prog unit)) (m : mem) (g : list Φ) : Prop :=
  length g = length ps /\
  forall t p, ps !! t = Some p -> exists φ, g !! t = Some φ /\ wpe p t Q φ (errno m t).

Lemma machine_inv_step Q c c' :
  machine_step c c' ->
  (exists g, Inv c.2 g /\ threads_ok Q c.1 c.2 g) ->
  exists g, Inv c'.2 g /\ threads_ok Q c'.1 c'.2 g.
Proof.
  intros [ps m t p p' m' Hp Hs] (g & HI & Hlen & Hok). simpl in *.
  destruct (Hok t p Hp) as (φ & Hg & Hwp).
  destruct (wpe_step p p' t Q φ m m' g Hwp HI Hg Hs) as (φ' & HI' & Hwp').
  exists (<[t:=φ']> g). split; [done|]. split; [by rewrite !length_insert|].
  intros t0 p0 H0. destruct (decide (t = t0)) as [<-|Hne].
  - rewrite list_lookup_insert_eq in H0 by (by eapply lookup_lt_Some). injection H0 as <-.
    exists φ'. split; [|done]. apply list_lookup_insert_eq. by eapply lookup_lt_Some.
  - rewrite list_lookup_insert_ne in H0 by done. rewrite list_lookup_insert_ne by done.
    rewrite (prog_step_errno p p' t t0 m m') by done. by apply Hok.
Qed.

(** Adequacy: what holds of the threads at the start holds of every reachable machine. *)
Theorem machine_inv Q c c' g :
  reachable c c' -> Inv c.2 g -> threads_ok Q c.1 c.2 g ->
  exists g', Inv c'.2 g' /\ threads_ok Q c'.1 c'.2 g'.
Proof.
  intros Hr HI Hok. assert (exists g, Inv c.2 g /\ threads_ok Q c.1 c.2 g) as H by (by exists g).
  clear g HI Hok. induction Hr as [c|c c1 c2 Hs _ IH]; [done|].
  apply IH. by apply (machine_inv_step Q c c1).
Qed.

(** Most routines are judged whatever errno is. *)
Definition wp {R : Type} (p : prog R) (t : nat) (Q : R -> Φ -> Prop) (φ : Φ) : Prop :=
  forall e, wpe p t (fun r φ' _ => Q r φ') φ e.

Lemma wp_mono {R} (p : prog R) t (Q Q' : R -> Φ -> Prop) φ :
  (forall r φ, Q r φ -> Q' r φ) -> wp p t Q φ -> wp p t Q' φ.
Proof. intros HQ H e. apply wpe_mono with (2 := H e). auto. Qed.

Lemma wp_ret {R} (r : R) t (Q : R -> Φ -> Prop) φ : Q r φ -> wp (Ret r) t Q φ.
Proof. by intros H e. Qed.

Lemma wp_bind {R R'} (p : prog R) (f : R -> prog R') t Q φ :
  wp p t (fun r φ' => wp (f r) t Q φ') φ -> wp (bind p f) t Q φ.
Proof. intros H e. apply wpe_bind, wpe_mono with (2 := H e). auto. Qed.

Lemma wp_act {X} (a : action X) t (Q : X -> Φ -> Prop) φ :
  (forall m g, Inv m g -> g !! t = Some φ -> forall x m', action_sem t a m x m' ->
     exists φ', Inv m' (<[t:=φ']> g) /\ Q x φ') ->
  wp (act a) t Q φ.
Proof. intros H e m g HI Hg He x m' Ha. simpl. by apply H with (m := m). Qed.

(** An action that leaves [Inv] alone whatever the phases. *)
Lemma wp_act_stable {X} (a : action X) t (Q : X -> Φ -> Prop) φ :
  (forall m g x m', Inv m g -> g !! t = Some φ -> action_sem t a m x m' -> Inv m' g /\ Q x φ) ->
  wp (act a) t Q φ.
Proof.
  intros H. apply wp_act. intros m g HI Hg x m' Ha.
  destruct (H m g x m' HI Hg Ha) as [HI' HQ]. exists φ. by rewrite (list_insert_id g t φ Hg).
Qed.

(** A load leaves the memory alone; the invariant can say what it reads. *)
Lemma wp_load l t (Q : Z -> Φ -> Prop) φ :
  (forall m g, Inv m g -> g !! t = Some φ -> exists φ', Inv m (<[t:=φ']> g) /\ Q (word m l) φ') ->
  wp (atomic_load l) t Q φ.
Proof using Inv_proper.
  intros H. apply wp_act. intros m g HI Hg x m' [-> ->].
  destruct (H m g HI Hg) as (φ' & HI' & HQ). exists φ'.
  split; [|done]. by rewrite <- mem_equiv_same_word.
Qed.

Lemma wp_store l v t (Q : unit -> Φ -> Prop) φ :
  (forall m g, Inv m g -> g !! t = Some φ ->
     exists φ', Inv (set_word m l v) (<[t:=φ']> g) /\ Q tt φ') ->
  wp (atomic_store l v) t Q φ.
Proof.
  intros H. apply wp_bind, wp_act. intros m g HI Hg x m' [_ ->].
  destruct (H m g HI Hg) as (φ' & HI' & HQ). exists φ'. split; [done|by apply wp_ret].
Qed.

Lemma wp_tid t (Q : Z -> Φ -> Prop) φ : Q (tid_of t) φ -> wp (act GetTid) t Q φ.
Proof. intros H. apply wp_act_stable. by intros m g x m' HI Hg [-> ->]. Qed.

Lemma wp_set_errno e t (Q : unit -> Φ -> Prop) φ : Q tt φ -> wp (act (SetErrno e)) t Q φ.
Proof using Inv_proper.
  intros H. apply wp_act_stable. intros m g [] m' HI Hg ->.
  by rewrite <- mem_equiv_set_errno.
Qed.

Lemma wp_clock c t (Q : timespec -> Φ -> Prop) φ : (forall ts, Q ts φ) -> wp (act (ClockGettime c)) t Q φ.
Proof. intros H. apply wp_act_stable. by intros m g x m' HI Hg ->. Qed.

Lemma wp_choose t (Q : bool -> Φ -> Prop) φ : (forall b, Q b φ) -> wp (act Choose) t Q φ.
Proof. intros H. apply wp_act_stable. by intros m g x m' HI Hg ->. Qed.

Lemma wp_abort {R} t (Q : R -> Φ -> Prop) φ : wp abort t Q φ.
Proof. by intros e m g HI Hg He []. Qed.

Lemma wp_loop {S X} (J : S -> Φ -> Prop) (body : S -> prog (S + X)) s t Q φ :
  J s φ ->
  (forall s φ, J s φ ->
     wp (body s) t (fun r φ' => match r with inl s' => J s' φ' | inr x => Q x φ' end) φ) ->
  wp (loop body s) t Q φ.
Proof.
  intros HJ Hb e. exists (fun s φ _ => J s φ). split; [done|]. intros s' φ' e' HJ'.
  apply wpe_mono with (2 := Hb s' φ' HJ' e'). by intros [s''|x].
Qed.

(** Threads that all run programs the logic accepts from the phase [φ]. *)
Lemma threads_ok_intro (Q : unit -> Φ -> Prop) ps m φ :
  (forall t p, ps !! t = Some p -> wp p t Q φ) ->
  threads_ok (fun r φ _ => Q r φ) ps m (replicate (length ps) φ).
Proof.
  intros H. split; [by rewrite length_replicate|]. intros t p Hp. exists φ.
  split; [by apply lookup_replicate_2; eapply lookup_lt_Some|]. by apply H.
Qed.


(** ** Programs that do not touch what the invariant is about *)

Context (P : loc -> Prop)
  (Inv_word : forall m g l v, P l -> Inv m g -> Inv (set_word m l v) g)
  (Inv_waiters : forall m g l sh q, P l -> Inv m g -> Inv (set_waiters m l sh q) g).

Lemma wp_within {R} (p : prog R) t (Q : R -> Φ -> Prop) φ :
  within P p -> (forall r, Q r φ) -> wp p t Q φ.
Proof using Inv_proper Inv_word Inv_waiters.
  intros Hp HQ e. revert e. revert Q HQ Hp.
  induction p as [R r|R X a k IH|R S X body IHb s k IHk]; intros Q HQ Hp e.
  - apply HQ.
  - destruct Hp as [Ha Hk]. intros m g HI Hg He x m' Hx. exists φ.
    rewrite (list_insert_id g t φ Hg). split; [|by apply IH].
    destruct a; simpl in *;
      repeat match goal with
      | H : exists _, _ |- _ => destruct H
      | H : _ /\ _ |- _ => destruct H
      | H : _ \/ _ |- _ => destruct H
      end; subst; auto; try done.
    by rewrite <- mem_equiv_set_errno.
  - destruct Hp as [Hb Hk]. exists (fun _ φ' _ => φ' = φ). split; [done|].
    intros s' φ' e' ->.
    assert (wpe (body s') t (fun _ φ' _ => φ' = φ) φ e') as Hbody
      by (by apply (IHb s' (fun _ φ' => φ' = φ))).
    apply wpe_mono with (2 := Hbody). intros [s''|x] φ' e'' ->; [done|by apply IHk].
Qed.

End logic.

#[global] Arguments bind : simpl never.
#[global] Arguments wpe : simpl never.
#[global] Arguments wp : simpl never.
#[global] Arguments within : simpl never.
