(* ===== verification/Frame.v ===== *)
(** Two components side by side.

    A component's contract is a proof in the logic of Atomic.v about an invariant of its own.
    The rule [wp_frame] carries such a proof over to a system in which another component, with
    its own words and queues, runs on the same threads: the phase of a thread becomes a pair,
    and the first component sees the memory with the queues of the other one hidden. *)

From S2P Require Import Prelude Atomic.

Section frame.
Context {K : FutexKernel} {Φ1 Φ2 : Type} (own : loc -> bool).

(** The memory as the first component sees it: no queues but on the words it owns. *)
Definition view (m : mem) : mem :=
  mk_mem (word m) (fun l sh => if own l then waiters m l sh else []) (errno m).

#[export] Instance view_proper : Proper (mem_equiv ==> mem_equiv) view.
Proof. intros m m' [Hw Hq]. split; simpl; [done|]. intros l sh. by destruct (own l). Qed.

Lemma view_set_waiters_own m l sh q :
  own l = true -> mem_equiv (view (set_waiters m l sh q)) (set_waiters (view m) l sh q).
Proof.
  intros Hl. split; simpl; [done|]. intros l' sh'. destruct (decide (l' = l /\ sh' = sh)) as [[-> ->]|]; [|done].
  by rewrite Hl.
Qed.

Lemma view_set_waiters_other m l sh q : own l = false -> mem_equiv (view (set_waiters m l sh q)) (view m).
Proof.
  intros Hl. split; simpl; [done|]. intros l' sh'. destruct (own l') eqn:E; [|done].
  rewrite decide_False; [done|]. intros [-> ->]. congruence.
Qed.

(** An action on owned words does the same in the view. *)
Lemma view_action t {X} (a : action X) m x m' :
  action_within (fun l => own l = true) a -> action_sem t a m x m' ->
  exists m1, action_sem t a (view m) x m1 /\ mem_equiv m1 (view m') /\ errno m1 t = errno m' t.
Proof.
  destruct a; simpl; intros Hl H;
    repeat match goal with
    | H : exists _, _ |- _ => destruct H
    | H : _ /\ _ |- _ => destruct H
    end; subst; try (by eexists; repeat split); rewrite ?Hl.
  - match goal with H : _ \/ _ |- _ => destruct H as [(E1 & E2 & ->)|(E1 & E2 & ->)] end;
      (eexists; split; [split; [done|]; by eauto 6|done]).
  - eexists. split; [by eexists|]. split; [|done]. by rewrite view_set_waiters_own.
  - eexists. split; [by eexists|]. split; [|done]. by rewrite view_set_waiters_own.
  - eexists. split; [by eexists|]. split; [|done]. by rewrite view_set_waiters_own.
  - eexists. split; [by eexists _, _|]. split; [|done].
    change (view (set_word ?m ?l ?v)) with (set_word (view m) l v). by rewrite view_set_waiters_own.
  - eexists. split; [by eexists|]. split; [|done]. by rewrite view_set_waiters_own.
  - eexists. split; [by eexists _, _|]. split; [|done].
    change (view (set_word ?m ?l ?v)) with (set_word (view m) l v). by rewrite view_set_waiters_own.
Qed.

Context (Inv1 : mem -> list Φ1 -> Prop) `{Inv1_proper : !Proper (mem_equiv ==> eq ==> iff) Inv1}
  (Inv2 : mem -> list (Φ1 * Φ2) -> Prop) `{Inv2_proper : !Proper (mem_equiv ==> eq ==> iff) Inv2}.

Definition both (m : mem) (g : list (Φ1 * Φ2)) : Prop := Inv1 (view m) (fst <$> g) /\ Inv2 m g.

#[export] Instance both_proper : Proper (mem_equiv ==> eq ==> iff) both.
Proof using Inv1_proper Inv2_proper.
  intros m m' He g ? <-. unfold both. by rewrite He.
Qed.

(** What the second component promises: it does not care for the words of the first, and while
    the second phase of a thread is [neutral] it does not care for the first phase. *)
Context (neutral : Φ2 -> Prop)
  (Inv2_phase : forall m g t φ1 φ1' φ2, neutral φ2 -> g !! t = Some (φ1, φ2) -> Inv2 m g -> Inv2 m (<[t:=(φ1', φ2)]> g))
  (Inv2_word : forall m g l v, own l = true -> Inv2 m g -> Inv2 (set_word m l v) g)
  (Inv2_waiters : forall m g l sh q, own l = true -> Inv2 m g -> Inv2 (set_waiters m l sh q) g).

Lemma Inv2_action t {X} (a : action X) m g x m' :
  action_within (fun l => own l = true) a -> action_sem t a m x m' -> Inv2 m g -> Inv2 m' g.
Proof using Inv2_proper Inv2_word Inv2_waiters.
  destruct a; simpl; intros Hl H HI;
    repeat match goal with
    | H : exists _, _ |- _ => destruct H
    | H : _ /\ _ |- _ => destruct H
    | H : _ \/ _ |- _ => destruct H
    end; subst; auto; try done.
  by rewrite <- mem_equiv_set_errno.
Qed.

Lemma wpe_frame {R} (p : prog R) t Q φ1 φ2 e :
  neutral φ2 -> within (fun l => own l = true) p -> wpe Inv1 p t Q φ1 e ->
  wpe both p t (fun r φ e => Q r φ.1 e /\ φ.2 = φ2) (φ1, φ2) e.
Proof using All.
  intros Hn. revert Q φ1 e.
  induction p as [R r|R X a k IH|R S X body IHb s k IHk]; intros Q φ1 e Hp Hwp.
  - by split.
  - destruct Hp as [Ha Hk]. intros m g [H1 H2] Hg He x m' Hx.
    destruct (view_action t a m x m' Ha Hx) as (m1 & Hx1 & Em & Ee).
    destruct (Hwp (view m) (fst <$> g) H1) with (x := x) (m' := m1) as (φ1' & H1' & Hwp'); [|done..|].
    { by rewrite list_lookup_fmap, Hg. }
    exists (φ1', φ2). split; [split|].
    + rewrite list_fmap_insert, <- Em. done.
    + apply Inv2_phase with (2 := Hg); [done|]. by apply (Inv2_action t a m g x).
    + rewrite <- Ee. by apply IH.
  - destruct Hp as [Hb Hk]. destruct Hwp as (J & HJ & Hbody).
    exists (fun s φ e => J s φ.1 e /\ φ.2 = φ2). split; [done|]. intros s' [φ1' φ2'] e' [HJ' E]. simpl in E. subst φ2'.
    apply wpe_mono with (2 := IHb s' _ φ1' e' (Hb s') (Hbody s' φ1' e' HJ')).
    intros [s''|x] [φ1'' φ2''] e'' [H E]; simpl in E; subst φ2''; [done|]. by apply IHk.
Qed.

Lemma wp_frame {R} (p : prog R) t Q φ1 φ2 :
  neutral φ2 -> within (fun l => own l = true) p -> wp Inv1 p t Q φ1 ->
  wp both p t (fun r φ => Q r φ.1 /\ φ.2 = φ2) (φ1, φ2).
Proof using All. intros Hn Hp Hwp e. exact (wpe_frame p t (fun r φ _ => Q r φ) φ1 φ2 e Hn Hp (Hwp e)). Qed.

End frame.
