(* ===== verification/Futex.v ===== *)
(** Time conversions and the futex wrappers: libc/private/bionic_time_conversions.h,
    libc/bionic/bionic_time_conversions.cpp, libc/private/bionic_futex.h and
    libc/bionic/bionic_futex.cpp, with the rules by which the program logic treats a futex
    wait and a futex wake. *)

From S2P Require Import Prelude Atomic.

Definition NS_PER_S : Z := 1000000000.

(** * Time conversions *)

Record timeval := mk_timeval { timeval_sec : Z; timeval_usec : Z }.

(** The [timespec] the caller passed keeps its [tv_nsec] when the conversion is refused. *)
Definition timespec_from_timeval (ts : timespec) (tv : timeval) : bool * timespec :=
  let ts := mk_timespec (timeval_sec tv) (tv_nsec ts) in
  if (1000000 <=? timeval_usec tv) || (timeval_usec tv <? 0)
  then (false, ts)
  else (true, mk_timespec (tv_sec ts) (timeval_usec tv * 1000)).

(** C division and remainder truncate towards zero. *)
Definition timespec_from_ms (ms : Z) : timespec :=
  mk_timespec (Z.quot ms 1000) (Z.rem ms 1000 * 1000000).

Definition timeval_from_timespec (ts : timespec) : timeval :=
  mk_timeval (tv_sec ts) (Z.quot (tv_nsec ts) 1000).

(** The arithmetic of [monotonic_time_from_realtime_time], given what the clocks read. *)
Definition convert_to_monotonic (realtime cur_monotonic cur_realtime : timespec) : timespec :=
  let nsec := tv_nsec realtime - tv_nsec cur_realtime + tv_nsec cur_monotonic in
  let '(sec, nsec) :=
    if NS_PER_S <=? nsec then (tv_sec realtime + 1, nsec - NS_PER_S)
    else if nsec <? 0 then (tv_sec realtime - 1, nsec + NS_PER_S)
    else (tv_sec realtime, nsec) in
  mk_timespec (sec - tv_sec cur_realtime + tv_sec cur_monotonic) nsec.

Definition monotonic_time_from_realtime_time (realtime : timespec) : prog timespec :=
  cur_monotonic <- act (ClockGettime CLOCK_MONOTONIC) ;;
  cur_realtime <- act (ClockGettime CLOCK_REALTIME) ;;
  Ret (convert_to_monotonic realtime cur_monotonic cur_realtime).

(** [None] is the read through a null pointer that the comment in the source speaks of. *)
Definition check_timespec (ts : option timespec) (null_allowed : bool) : option Z :=
  match ts with
  | None => if null_allowed then Some 0 else None
  | Some ts =>
      if (tv_nsec ts <? 0) || (NS_PER_S <=? tv_nsec ts) then Some EINVAL
      else if tv_sec ts <? 0 then Some ETIMEDOUT
      else Some 0
  end.

(** [check_timespec] inside a program: reading a null pointer ends the process. *)
Definition check_timespec_p (ts : option timespec) (null_allowed : bool) : prog Z :=
  match check_timespec ts null_allowed with Some r => Ret r | None => abort end.

(** 32-bit builds only. *)
Definition absolute_timespec_from_timespec (ts : timespec) (clock : Z) : prog timespec :=
  now <- act (ClockGettime clock) ;;
  let sec := tv_sec now + tv_sec ts in
  let nsec := tv_nsec now + tv_nsec ts in
  Ret (if NS_PER_S <=? nsec then mk_timespec (sec + 1) (nsec - NS_PER_S) else mk_timespec sec nsec).

(** * The futex system call and its wrappers *)

Inductive futex_op :=
| FUTEX_WAIT | FUTEX_WAIT_BITSET | FUTEX_WAIT_BITSET_PRIVATE
| FUTEX_WAKE | FUTEX_WAKE_PRIVATE
| FUTEX_LOCK_PI | FUTEX_LOCK_PI_PRIVATE
| FUTEX_UNLOCK_PI | FUTEX_UNLOCK_PI_PRIVATE.

(** The system call convention: -1 and errno, or the result. *)
Definition syscall_result (e v : Z) : prog Z :=
  if e =? 0 then Ret v else act (SetErrno e) ;; Ret (-1).

Definition futex_wait_call (l : loc) (shared : bool) (value : Z) (timed : bool) : prog Z :=
  queued <- act (FutexWaitBegin l shared value) ;;
  if (queued : bool)
  then e <- act (FutexWaitEnd l shared timed) ;; syscall_result e 0
  else syscall_result EAGAIN 0.

Definition futex_lock_pi_call (l : loc) (shared timed : bool) : prog Z :=
  r <- act (FutexLockPiBegin l shared) ;;
  match r with
  | Some e => syscall_result e 0
  | None => e <- act (FutexLockPiEnd l shared timed) ;; syscall_result e 0
  end.

Definition syscall_futex (l : loc) (op : futex_op) (value : Z) (timeout : option timespec) : prog Z :=
  let timed := bool_decide (is_Some timeout) in
  match op with
  | FUTEX_WAIT | FUTEX_WAIT_BITSET => futex_wait_call l true value timed
  | FUTEX_WAIT_BITSET_PRIVATE => futex_wait_call l false value timed
  | FUTEX_WAKE => act (FutexWakeCall l true value)
  | FUTEX_WAKE_PRIVATE => act (FutexWakeCall l false value)
  | FUTEX_LOCK_PI => futex_lock_pi_call l true timed
  | FUTEX_LOCK_PI_PRIVATE => futex_lock_pi_call l false timed
  | FUTEX_UNLOCK_PI => e <- act (FutexUnlockPi l true) ;; syscall_result e 0
  | FUTEX_UNLOCK_PI_PRIVATE => e <- act (FutexUnlockPi l false) ;; syscall_result e 0
  end.

Definition __futex (l : loc) (op : futex_op) (value : Z) (timeout : option timespec) : prog Z :=
  saved_errno <- act GetErrno ;;
  result <- syscall_futex l op value timeout ;;
  if result =? -1 then
    e <- act GetErrno ;;
    act (SetErrno saved_errno) ;;
    Ret (- e)
  else Ret result.

Definition __futex_wake (l : loc) (count : Z) : prog Z := __futex l FUTEX_WAKE count None.

Definition __futex_wake_ex (l : loc) (shared : bool) (count : Z) : prog Z :=
  __futex l (if shared then FUTEX_WAKE else FUTEX_WAKE_PRIVATE) count None.

Definition __futex_wait (l : loc) (value : Z) (timeout : option timespec) : prog Z :=
  __futex l FUTEX_WAIT value timeout.

(** The overload with three arguments, without a timeout. *)
Definition __futex_wait_ex3 (l : loc) (shared : bool) (value : Z) : prog Z :=
  __futex l (if shared then FUTEX_WAIT_BITSET else FUTEX_WAIT_BITSET_PRIVATE) value None.

Definition __futex_pi_unlock (l : loc) (shared : bool) : prog Z :=
  __futex l (if shared then FUTEX_UNLOCK_PI else FUTEX_UNLOCK_PI_PRIVATE) 0 None.

Definition FutexWithTimeout (l : loc) (op : futex_op) (value : Z) (use_realtime_clock : bool)
    (abs_timeout : option timespec) : prog Z :=
  match abs_timeout with
  | Some ts =>
      if use_realtime_clock then
        converted <- monotonic_time_from_realtime_time ts ;;
        if tv_sec converted <? 0 then Ret (- ETIMEDOUT)
        else __futex l op value (Some converted)
      else __futex l op value abs_timeout
  | None => __futex l op value abs_timeout
  end.

Definition __futex_wait_ex (l : loc) (shared : bool) (value : Z) (use_realtime_clock : bool)
    (abs_timeout : option timespec) : prog Z :=
  FutexWithTimeout l (if shared then FUTEX_WAIT_BITSET else FUTEX_WAIT_BITSET_PRIVATE) value
    use_realtime_clock abs_timeout.

Definition __futex_pi_lock_ex (l : loc) (shared use_realtime_clock : bool)
    (abs_timeout : option timespec) : prog Z :=
  FutexWithTimeout l (if shared then FUTEX_LOCK_PI else FUTEX_LOCK_PI_PRIVATE) 0
    use_realtime_clock abs_timeout.

(** * The wrappers touch only the futex word *)

Section within.
Context (P : loc -> Prop).

Lemma within_syscall_result e v : within P (syscall_result e v).
Proof. unfold syscall_result. within_tac. Qed.

#[local] Hint Resolve within_syscall_result : within.

Lemma within_futex l op v ts : P l -> within P (__futex l op v ts).
Proof.
  intros Hl. unfold __futex. apply within_bind; [done|]. intros saved.
  apply within_bind; [|within_tac]. destruct op; simpl; unfold futex_wait_call, futex_lock_pi_call; within_tac.
Qed.

Lemma within_FutexWithTimeout l op v rt ts : P l -> within P (FutexWithTimeout l op v rt ts).
Proof.
  intros Hl. pose proof within_futex as Hf. unfold FutexWithTimeout, monotonic_time_from_realtime_time.
  within_tac; auto.
Qed.

Lemma within_futex_wait_ex l sh v rt ts : P l -> within P (__futex_wait_ex l sh v rt ts).
Proof. apply within_FutexWithTimeout. Qed.

Lemma within_futex_wait_ex3 l sh v : P l -> within P (__futex_wait_ex3 l sh v).
Proof. apply within_futex. Qed.

Lemma within_futex_wake_ex l sh n : P l -> within P (__futex_wake_ex l sh n).
Proof. apply within_futex. Qed.

End within.

#[export] Hint Resolve within_futex_wait_ex within_futex_wait_ex3 within_futex_wake_ex : within.

(** * Rules for the program logic *)

Section rules.
Context {K : FutexKernel} {Φ : Type} (Inv : mem -> list Φ -> Prop)
  `{Inv_proper : !Proper (mem_equiv ==> eq ==> iff) Inv}.
Implicit Types (Q : Z -> Φ -> Prop).

(** The result of the system call as the wrapper reports it: a negative errno value instead of
    -1 and errno. *)
Definition errno_result (Q : Z -> Φ -> Prop) (r : Z) (φ : Φ) (e : Z) : Prop :=
  if r =? -1 then Q (- e) φ else Q r φ.

Lemma wp_futex l op v ts t Q φ :
  (forall e, wpe Inv (syscall_futex l op v ts) t (errno_result Q) φ e) ->
  wp Inv (__futex l op v ts) t Q φ.
Proof using Inv_proper.
  intros H e. apply wpe_bind, wpe_get_errno, wpe_bind. apply wpe_mono with (2 := H _).
  unfold errno_result. intros r φ' e'. destruct (r =? -1); [|done].
  intros HQ. by apply wpe_bind, wpe_get_errno, wpe_bind, wpe_set_errno.
Qed.

Lemma wpe_syscall_result r v t Q φ e :
  0 <= v -> Q (if r =? 0 then v else - r) φ -> wpe Inv (syscall_result r v) t (errno_result Q) φ e.
Proof using Inv_proper.
  intros Hv HQ. unfold syscall_result. destruct (r =? 0).
  - unfold wpe, errno_result. destruct (Z.eqb_spec v (-1)); [lia|done].
  - by apply wpe_bind, wpe_set_errno.
Qed.

(** A wait: the caller, in phase [φ], is queued in phase [φq] if the word has the value
    expected; it comes back in [φw] after a wake-up and in [φx] if it gave up. *)
Lemma wpe_futex_wait_call l sh v timed t Q φ φq φw φx e :
  Q (- EAGAIN) φ ->
  (forall m g q, Inv m g -> g !! t = Some φ -> word m l = v -> q ≡ₚ t :: waiters m l sh ->
     Inv (set_waiters m l sh q) (<[t:=φq]> g)) ->
  (forall m g, Inv m g -> g !! t = Some φq -> t ∉ waiters m l sh ->
     Inv m (<[t:=φw]> g) /\ Q 0 φw) ->
  (forall m g, Inv m g -> g !! t = Some φq -> t ∈ waiters m l sh ->
     Inv (set_waiters m l sh (filter (fun t' => t' <> t) (waiters m l sh))) (<[t:=φx]> g) /\
     Q (- EINTR) φx /\ (timed = true -> Q (- ETIMEDOUT) φx)) ->
  wpe Inv (futex_wait_call l sh v timed) t (errno_result Q) φ e.
Proof using Inv_proper.
  intros Hmis Hq Hw Hx. apply wpe_bind, wpe_act. intros m g HI Hg He b m' (q & Hk & ->).
  apply kernel_wait_begin_spec in Hk as [(Hv & -> & Hperm)|(_ & -> & ->)].
  - exists φq. split; [by apply Hq|].
    apply wpe_bind, wpe_act. intros m1 g1 HI1 Hg1 He1 r m1' (q1 & Hk & ->).
    apply kernel_wait_end_spec in Hk as [(Hni & -> & ->)|(Hin & He' & ->)].
    + exists φw. destruct (Hw m1 g1 HI1 Hg1 Hni) as [HI' HQ].
      split; [by rewrite <- mem_equiv_same_waiters|]. by apply wpe_syscall_result.
    + exists φx. destruct (Hx m1 g1 HI1 Hg1 Hin) as (HI' & HQ1 & HQ2). split; [done|].
      apply wpe_syscall_result; [done|]. destruct He' as [->|[-> ->]]; simpl; auto.
  - exists φ. rewrite (list_insert_id g t φ Hg). split; [by rewrite <- mem_equiv_same_waiters|].
    by apply wpe_syscall_result.
Qed.

Lemma wp_monotonic_time ts t (Q : timespec -> Φ -> Prop) φ :
  (forall ts', Q ts' φ) -> wp Inv (monotonic_time_from_realtime_time ts) t Q φ.
Proof. intros H. apply wp_bind, wp_clock. intros ts1. apply wp_bind, wp_clock. intros ts2. by apply wp_ret. Qed.

(** The call is made with no timeout, with the timeout given or with a converted one, or it is
    not made because the timeout is in the past. *)
Lemma wp_FutexWithTimeout l op v rt ts t Q φ :
  (is_Some ts -> Q (- ETIMEDOUT) φ) ->
  (forall ts', (is_Some ts' -> is_Some ts) -> wp Inv (__futex l op v ts') t Q φ) ->
  wp Inv (FutexWithTimeout l op v rt ts) t Q φ.
Proof.
  intros Hto Hf. unfold FutexWithTimeout. destruct ts as [ts|]; [|by apply Hf].
  destruct rt; [|by apply Hf]. apply wp_bind, wp_monotonic_time. intros ts'.
  destruct (tv_sec ts' <? 0); [apply wp_ret; auto|]. by apply Hf.
Qed.

Lemma wp_futex_wait_ex l sh v rt ts t Q φ φq φw φx :
  Q (- EAGAIN) φ ->
  (is_Some ts -> Q (- ETIMEDOUT) φ) ->
  (forall m g q, Inv m g -> g !! t = Some φ -> word m l = v -> q ≡ₚ t :: waiters m l sh ->
     Inv (set_waiters m l sh q) (<[t:=φq]> g)) ->
  (forall m g, Inv m g -> g !! t = Some φq -> t ∉ waiters m l sh ->
     Inv m (<[t:=φw]> g) /\ Q 0 φw) ->
  (forall m g, Inv m g -> g !! t = Some φq -> t ∈ waiters m l sh ->
     Inv (set_waiters m l sh (filter (fun t' => t' <> t) (waiters m l sh))) (<[t:=φx]> g) /\
     Q (- EINTR) φx /\ (is_Some ts -> Q (- ETIMEDOUT) φx)) ->
  wp Inv (__futex_wait_ex l sh v rt ts) t Q φ.
Proof using Inv_proper.
  intros Hmis Hto Hq Hw Hx. apply wp_FutexWithTimeout; [done|].
  intros ts' Hts. apply wp_futex. intros e. destruct sh;
    (apply (wpe_futex_wait_call l _ v _ t Q φ φq φw φx e); [done..|]; intros m g HI Hg Hin;
     destruct (Hx m g HI Hg Hin) as (? & ? & ?); rewrite bool_decide_eq_true; auto).
Qed.

Lemma wp_futex_wait_ex3 l sh v t Q φ φq φw φx :
  Q (- EAGAIN) φ ->
  (forall m g q, Inv m g -> g !! t = Some φ -> word m l = v -> q ≡ₚ t :: waiters m l sh ->
     Inv (set_waiters m l sh q) (<[t:=φq]> g)) ->
  (forall m g, Inv m g -> g !! t = Some φq -> t ∉ waiters m l sh ->
     Inv m (<[t:=φw]> g) /\ Q 0 φw) ->
  (forall m g, Inv m g -> g !! t = Some φq -> t ∈ waiters m l sh ->
     Inv (set_waiters m l sh (filter (fun t' => t' <> t) (waiters m l sh))) (<[t:=φx]> g) /\
     Q (- EINTR) φx) ->
  wp Inv (__futex_wait_ex3 l sh v) t Q φ.
Proof using Inv_proper.
  intros Hmis Hq Hw Hx. apply (wp_futex_wait_ex l sh v false None t Q φ φq φw φx).
  - exact Hmis.
  - intros [ts [=]].
  - exact Hq.
  - exact Hw.
  - intros m g HI Hg Hin. destruct (Hx m g HI Hg Hin) as [HI' HQ].
    repeat split; [exact HI'|exact HQ|intros [ts [=]]].
Qed.

(** A wake-up of at most [n] waiters. *)
Lemma wp_futex_wake_ex l sh n t Q φ φ' :
  0 <= n ->
  (forall m g q, Inv m g -> g !! t = Some φ -> sublist q (waiters m l sh) ->
     Z.of_nat (length (waiters m l sh)) - Z.of_nat (length q)
       = Z.min n (Z.of_nat (length (waiters m l sh))) ->
     Inv (set_waiters m l sh q) (<[t:=φ']> g)) ->
  (forall r, Q r φ') ->
  wp Inv (__futex_wake_ex l sh n) t Q φ.
Proof using Inv_proper.
  intros Hn H HQ. apply wp_futex. intros e.
  assert (wpe Inv (act (FutexWakeCall l sh n)) t (errno_result Q) φ e) as Hw; [|by destruct sh].
  apply wpe_act. intros m g HI Hg He x m' (q & Hk & -> & ->). exists φ'. split.
  - apply H; [done..|by eapply kernel_wake_sub|by eapply kernel_wake_count].
  - unfold errno_result. pose proof (kernel_wake_count _ _ _ Hn Hk).
    destruct (Z.eqb_spec (Z.of_nat (length (waiters m l sh)) - Z.of_nat (length q)) (-1)); [lia|done].
Qed.

End rules.

Lemma wp_check_timespec {K : FutexKernel} {Φ} (Inv : mem -> list Φ -> Prop) ts b t (Q : Z -> Φ -> Prop) φ :
  (forall r, Q r φ) -> wp Inv (check_timespec_p ts b) t Q φ.
Proof.
  intros HQ. unfold check_timespec_p. destruct (check_timespec ts b); [by apply wp_ret|apply wp_abort].
Qed.

Lemma wp_check_timespec_is {K : FutexKernel} {Φ} (Inv : mem -> list Φ -> Prop) ts b t (Q : Z -> Φ -> Prop) φ :
  (forall r, check_timespec ts b = Some r -> Q r φ) -> wp Inv (check_timespec_p ts b) t Q φ.
Proof.
  intros HQ. unfold check_timespec_p. destruct (check_timespec ts b) as [r|] eqn:E; [apply wp_ret; auto|apply wp_abort].
Qed.

(** The results with which a call that waits may fail: those of a timeout that is not valid, and ETIMEDOUT if there is
    one that is. *)
Definition timeout_result (ts : option timespec) (r : Z) : bool :=
  match check_timespec ts true with
  | Some e => if e =? 0 then bool_decide (is_Some ts) && (r =? ETIMEDOUT) else r =? e
  | None => false
  end.

Lemma timeout_result_check ts e : check_timespec ts true = Some e -> e <> 0 -> timeout_result ts e = true.
Proof. intros E He. unfold timeout_result. rewrite E, (proj2 (Z.eqb_neq e 0)) by done. apply Z.eqb_refl. Qed.

Lemma timeout_result_late ts : check_timespec ts true = Some 0 -> is_Some ts -> timeout_result ts ETIMEDOUT = true.
Proof. intros E Hs. unfold timeout_result. by rewrite E, bool_decide_true. Qed.
