(* ===== verification/Lock.v ===== *)
(** The futex lock: class [Lock] of libc/private/bionic_lock.h and the spin locks of
    libc/bionic/pthread_spinlock.cpp that are built on it.

    The section [three_state] is the protocol that [Lock] shares with the normal mutex of
    pthread_mutex.cpp: a word that is unlocked, locked, or locked with possible waiters.  It
    states the invariant of the word, of the kernel's queue and of the threads, and proves it
    kept by each of the steps the routines take. *)

From S2P Require Import Prelude Atomic Futex.

(** * The protocol of a three-state futex word *)

(** Where a thread is. *)
Inductive phase :=
| Idle      (* does not hold the lock and owes nothing to the others *)
| Queued    (* inside the futex wait *)
| Retry     (* woken up, about to try again *)
| Own       (* holds the lock *)
| Crit      (* holds the lock, inside the critical section of the client *)
| Wake.     (* released a contended lock, about to wake a waiter *)

Definition is_own (φ : phase) : bool := match φ with Own | Crit => true | _ => false end.
Definition is_crit (φ : phase) : bool := match φ with Crit => true | _ => false end.
Definition is_queued (φ : phase) : bool := match φ with Queued => true | _ => false end.
(* a thread that will make the word contended, or wake a waiter *)
Definition is_waker (φ : phase) : bool := match φ with Retry | Wake => true | _ => false end.

Section three_state.
Context (l cs : loc) (sh : bool) (vu v1 v2 : Z).
Context (vu_v1 : vu <> v1) (vu_v2 : vu <> v2) (v1_v2 : v1 <> v2) (l_cs : l <> cs).
(** What else the routines rely on, in memory they do not write. *)
Context (C : mem -> Prop) `{C_proper : !Proper (mem_equiv ==> iff) C}
  (C_word : forall m l' v, l' = l \/ l' = cs -> C m -> C (set_word m l' v))
  (C_waiters : forall m q, C m -> C (set_waiters m l sh q)).

Record tinv (m : mem) (g : list phase) : Prop := mk_tinv {
  ti_const : C m;
  ti_word : word m l = vu \/ word m l = v1 \/ word m l = v2;
  ti_own : cnt is_own g = b2z (negb (word m l =? vu));
  ti_crit : word m cs = cnt is_crit g;
  ti_others : forall l' sh', (l', sh') <> (l, sh) -> waiters m l' sh' = [];
  ti_nodup : NoDup (waiters m l sh);
  ti_queued : forall t, t ∈ waiters m l sh -> g !! t = Some Queued;
  (* nobody is forgotten: if threads are queued, the word says so, or some thread is on its
     way to wake one of them or to make the word say so *)
  ti_wake : waiters m l sh <> [] ->
    word m l = v2 \/
    1 <= cnt is_waker g + (cnt is_queued g - Z.of_nat (length (waiters m l sh)))
}.

#[export] Instance tinv_proper : Proper (mem_equiv ==> eq ==> iff) tinv.
Proof using C_proper.
  assert (forall m m' g, mem_equiv m m' -> tinv m g -> tinv m' g) as H.
  { intros m m' g He [H1 H2 H3 H4 H0 H5 H6 H7]. pose proof He as [Hw Hq].
    split; rewrite <- ?Hw, <- ?Hq; try done; [by rewrite <- He|].
    intros l' sh' Hne. rewrite <- Hq. by apply H0. }
  intros m m' He g ? <-. split; apply H; [done|by symmetry].
Qed.

Lemma length_queued (g : list phase) (q : list nat) :
  NoDup q -> (forall t, t ∈ q -> g !! t = Some Queued) ->
  Z.of_nat (length q) <= cnt is_queued g.
Proof.
  revert g. induction q as [|t q IH]; intros g Hnd Hg; [apply cnt_nonneg|].
  apply NoDup_cons in Hnd as [Hni Hnd].
  assert (g !! t = Some Queued) as Ht by (apply Hg, list_elem_of_here).
  pose proof (cnt_insert is_queued g t _ Idle Ht) as Hc. simpl in Hc.
  enough (Z.of_nat (length q) <= cnt is_queued (<[t:=Idle]> g)) by (simpl; lia).
  apply IH; [done|]. intros t' Ht'. rewrite list_lookup_insert_ne; [|by intros ->].
  apply Hg. by apply list_elem_of_further.
Qed.

Lemma queued_insert (g : list phase) t φ φ' (q : list nat) :
  g !! t = Some φ -> φ <> Queued -> (forall t', t' ∈ q -> g !! t' = Some Queued) ->
  forall t', t' ∈ q -> <[t:=φ']> g !! t' = Some Queued.
Proof.
  intros Hg Hφ Hq t' Ht'. pose proof (Hq t' Ht') as H.
  rewrite list_lookup_insert_ne; [done|]. intros ->. congruence.
Qed.

(** Unfolds the invariant of the goal, with the counts after the phase change. *)
Ltac tinv_solve Hg :=
  split; simpl; rewrite ?(cnt_insert _ _ _ _ _ Hg); simpl;
  repeat first [rewrite decide_True by done | rewrite decide_False by done];
  try done; try (by eapply queued_insert);
  try (by intros l' sh' Hne; rewrite decide_False by (intros [-> ->]; done); auto).

(** The compare-and-swap from unlocked to locked. *)
Lemma tinv_cas m g t :
  tinv m g -> g !! t = Some Idle -> word m l = vu -> tinv (set_word m l v1) (<[t:=Own]> g).
Proof using All.
  intros [H1 H2 H3 H4 H0 H5 H6 H7] Hg Hu. rewrite Hu, Z.eqb_refl in H3. simpl in H3.
  tinv_solve Hg; try lia; [by apply C_word; auto|auto|..].
  - destruct (Z.eqb_spec v1 vu); simpl; [congruence|lia].
  - intros Hne. destruct (H7 Hne) as [H|H]; [congruence|right; lia].
Qed.

(** The exchange that marks the word contended and takes the lock if it was free. *)
Lemma tinv_exchange m g t φ :
  φ = Idle \/ φ = Retry ->
  tinv m g -> g !! t = Some φ ->
  tinv (set_word m l v2) (<[t:=if word m l =? vu then Own else Idle]> g).
Proof using All.
  intros Hφ [H1 H2 H3 H4 H0 H5 H6 H7] Hg.
  assert (is_own φ = false /\ is_crit φ = false /\ is_queued φ = false) as (Ho & Hc & Hq)
    by (destruct Hφ as [->| ->]; done).
  assert (φ <> Queued) as HnQ by (by intros ->).
  tinv_solve Hg; [by apply C_word; auto|auto|..|auto].
  - destruct (Z.eqb_spec v2 vu); [congruence|]. rewrite Ho.
    destruct (Z.eqb_spec (word m l) vu); simpl in *; lia.
  - rewrite Hc. destruct (word m l =? vu); simpl; lia.
Qed.

(** The exchange that releases the lock; who saw it contended goes on to wake a waiter. *)
Lemma tinv_release m g t :
  tinv m g -> g !! t = Some Own ->
  tinv (set_word m l vu) (<[t:=if word m l =? v2 then Wake else Idle]> g).
Proof using All.
  intros [H1 H2 H3 H4 H0 H5 H6 H7] Hg.
  pose proof (cnt_lookup is_own g t _ Hg eq_refl) as Hown.
  tinv_solve Hg; [by apply C_word; auto|auto|..].
  - rewrite Z.eqb_refl. destruct (Z.eqb_spec (word m l) vu); simpl in *; [lia|].
    destruct (word m l =? v2); simpl; lia.
  - destruct (word m l =? v2); simpl; lia.
  - intros Hne. right. pose proof (length_queued g (waiters m l sh) H5 H6).
    pose proof (cnt_nonneg is_waker g).
    destruct (Z.eqb_spec (word m l) v2); simpl; [lia|].
    destruct (H7 Hne) as [H'|H']; [congruence|lia].
Qed.

(** The kernel queues a thread: the word was contended. *)
Lemma tinv_enqueue m g t q :
  tinv m g -> g !! t = Some Idle -> word m l = v2 -> q ≡ₚ t :: waiters m l sh ->
  tinv (set_waiters m l sh q) (<[t:=Queued]> g).
Proof using All.
  intros [H1 H2 H3 H4 H0 H5 H6 H7] Hg Hv Hq.
  assert (t ∉ waiters m l sh) as Hni by (intros Hin; pose proof (H6 t Hin); congruence).
  tinv_solve Hg; [by apply C_waiters|lia|lia|..|auto].
  - rewrite Hq. by apply NoDup_cons.
  - intros t'. rewrite Hq, elem_of_cons. intros [->|Hin].
    + apply list_lookup_insert_eq. by eapply lookup_lt_Some.
    + by eapply (queued_insert g t Idle).
Qed.

(** A thread that a wake-up removed from the queue comes back. *)
Lemma tinv_woken m g t :
  tinv m g -> g !! t = Some Queued -> t ∉ waiters m l sh -> tinv m (<[t:=Retry]> g).
Proof.
  intros [H1 H2 H3 H4 H0 H5 H6 H7] Hg Hni. tinv_solve Hg; [lia|lia|..].
  - intros t' Hin. rewrite list_lookup_insert_ne; [auto|]. by intros ->.
  - intros Hne. destruct (H7 Hne); [by left|right; lia].
Qed.

(** A queued thread gives up. *)
Lemma tinv_giveup m g t :
  tinv m g -> g !! t = Some Queued -> t ∈ waiters m l sh ->
  tinv (set_waiters m l sh (filter (fun t' => t' <> t) (waiters m l sh))) (<[t:=Idle]> g).
Proof using All.
  intros [H1 H2 H3 H4 H0 H5 H6 H7] Hg Hin.
  tinv_solve Hg; [by apply C_waiters|lia|lia|by apply NoDup_filter|..].
  - intros t' [Hne Hin']%list_elem_of_filter. rewrite list_lookup_insert_ne; [auto|]. by intros ->.
  - rewrite length_filter_ne by done. intros _.
    destruct H7 as [H7|H7]; [by destruct (waiters m l sh); [apply not_elem_of_nil in Hin|]|by left|].
    right; lia.
Qed.

(** The wake-up of one waiter. *)
Lemma tinv_wake m g t q :
  tinv m g -> g !! t = Some Wake -> sublist q (waiters m l sh) ->
  Z.of_nat (length (waiters m l sh)) - Z.of_nat (length q)
    = Z.min 1 (Z.of_nat (length (waiters m l sh))) ->
  tinv (set_waiters m l sh q) (<[t:=Idle]> g).
Proof using All.
  intros [H1 H2 H3 H4 H0 H5 H6 H7] Hg Hsub Hlen.
  tinv_solve Hg; [by apply C_waiters|lia|lia|by eapply sublist_NoDup|..].
  - intros t' Hin. eapply (queued_insert g t Wake); [done..|].
    by eapply elem_of_sublist.
  - intros Hne. assert (waiters m l sh <> []) as Hne'.
    { intros E. rewrite E in Hsub. apply sublist_nil_r in Hsub. done. }
    destruct (H7 Hne') as [|H]; [by left|right].
    destruct (waiters m l sh); [done|]. simpl length in *. lia.
Qed.

(** The client enters and leaves its critical section. *)
Lemma tinv_enter m g t :
  tinv m g -> g !! t = Some Own -> tinv (set_word m cs (word m cs + 1)) (<[t:=Crit]> g).
Proof using All.
  intros [H1 H2 H3 H4 H0 H5 H6 H7] Hg.
  tinv_solve Hg; [by apply C_word; auto|lia|lia|].
  intros Hne. destruct (H7 Hne); [by left|right; lia].
Qed.

Lemma tinv_leave m g t :
  tinv m g -> g !! t = Some Crit -> tinv (set_word m cs (word m cs - 1)) (<[t:=Own]> g).
Proof using All.
  intros [H1 H2 H3 H4 H0 H5 H6 H7] Hg.
  tinv_solve Hg; [by apply C_word; auto|lia|lia|].
  intros Hne. destruct (H7 Hne); [by left|right; lia].
Qed.

(** Mutual exclusion. *)
Lemma tinv_exclusion m g : tinv m g -> 0 <= word m cs <= 1.
Proof.
  intros [H1 H2 H3 H4 H0 H5 H6 H7]. rewrite H4. split; [apply cnt_nonneg|].
  assert (cnt is_crit g <= cnt is_own g).
  { clear. induction g as [|φ g IH]; simpl; [lia|]. destruct φ; simpl; lia. }
  destruct (negb (word m l =? vu)); simpl in *; lia.
Qed.

(** When nobody is between operations, nobody is queued. *)
Lemma tinv_quiet m g :
  tinv m g -> (forall t φ, g !! t = Some φ -> φ = Idle \/ (φ = Queued /\ t ∈ waiters m l sh)) ->
  forall t φ, g !! t = Some φ -> φ = Idle.
Proof using All.
  intros [H1 H2 H3 H4 H0 H5 H6 H7] Hall t φ Hg.
  destruct (Hall t φ Hg) as [->|[-> Hin]]; [done|exfalso].
  assert (cnt is_own g = 0) as Ho.
  { apply cnt_zero. intros t' φ' Hg'. by destruct (Hall t' φ' Hg') as [->|[-> _]]. }
  assert (cnt is_waker g = 0) as Hw.
  { apply cnt_zero. intros t' φ' Hg'. by destruct (Hall t' φ' Hg') as [->|[-> _]]. }
  assert (cnt is_queued g <= Z.of_nat (length (waiters m l sh))) as Hq.
  { apply (cnt_le_length is_queued Idle); [done|]. intros t' φ' Hg' HP.
    by destruct (Hall t' φ' Hg') as [->|[-> Hin']]. }
  destruct H7 as [H|H].
  - by destruct (waiters m l sh); [apply not_elem_of_nil in Hin|].
  - rewrite H in H3. destruct (Z.eqb_spec v2 vu); [congruence|]. simpl in H3. lia.
  - lia.
Qed.

End three_state.

(** * Clients and the contract of a lock *)

(** The most general client of a lock: it takes the lock as often as it likes and, when it
    holds it, counts itself in and out of a critical section before it releases it. *)
Definition client (cs : loc) (acquire : prog bool) (release : prog unit) : prog unit :=
  loop (fun _ : unit =>
    again <- act Choose ;;
    if (again : bool) then
      acquired <- acquire ;;
      if (acquired : bool) then
        act (Rmw cs (fun n => n + 1)) ;;
        act (Rmw cs (fun n => n - 1)) ;;
        release ;;
        Ret (inl tt)
      else Ret (inl tt)
    else Ret (inr tt)) tt.

Section client.
Context {K : FutexKernel}.
Context (l cs : loc) (sh : bool) (vu v1 v2 : Z).
Context (vu_v1 : vu <> v1) (vu_v2 : vu <> v2) (v1_v2 : v1 <> v2) (l_cs : l <> cs).
Context (C : mem -> Prop) `{C_proper : !Proper (mem_equiv ==> iff) C}
  (C_word : forall m l' v, l' = l \/ l' = cs -> C m -> C (set_word m l' v))
  (C_waiters : forall m q, C m -> C (set_waiters m l sh q)).
Abbreviation TInv := (tinv l cs sh vu v1 v2 C).

(** What an implementation promises: [acquire] takes the lock or leaves the thread idle,
    [release] gives it back. *)
Class LockContract (acquire : prog bool) (release : prog unit) := {
  acquire_ok t : Z.of_nat t < max_threads ->
    wp TInv acquire t (fun ok φ => φ = if (ok : bool) then Own else Idle) Idle;
  release_ok t : Z.of_nat t < max_threads ->
    wp TInv release t (fun _ φ => φ = Idle) Own
}.

Context (acquire : prog bool) (release : prog unit) {HC : LockContract acquire release}.

Lemma wp_client t :
  Z.of_nat t < max_threads -> wp TInv (client cs acquire release) t (fun _ φ => φ = Idle) Idle.
Proof using All.
  intros Ht. apply (wp_loop TInv (fun _ φ => φ = Idle)); [done|]. intros _ φ ->.
  apply wp_bind, wp_choose. intros []; [|by apply wp_ret].
  apply wp_bind. apply wp_mono with (2 := acquire_ok t Ht). intros [] φ ->; [|by apply wp_ret].
  apply wp_bind, wp_act. intros m g HI Hg x m' [-> ->]. exists Crit.
  split; [by apply tinv_enter|].
  apply wp_bind, wp_act. intros m1 g1 HI1 Hg1 x1 m1' [-> ->]. exists Own.
  split; [by apply tinv_leave|].
  apply wp_bind. apply wp_mono with (2 := release_ok t Ht). intros _ φ ->. by apply wp_ret.
Qed.

(** The start: the lock is free and nobody waits. *)
Definition lock_start (m : mem) : Prop :=
  C m /\ word m l = vu /\ word m cs = 0 /\ forall l' sh', waiters m l' sh' = [].

Lemma client_inv n m c :
  Z.of_nat n <= max_threads -> lock_start m ->
  reachable (replicate n (client cs acquire release), m) c ->
  exists g, TInv c.2 g /\ threads_ok TInv (fun _ φ _ => φ = Idle) c.1 c.2 g.
Proof using All.
  intros Hn (HC0 & Hl & Hcs & Hq) Hr.
  apply (machine_inv TInv (fun _ φ _ => φ = Idle) _ _ (replicate n Idle) Hr); simpl.
  - split; rewrite ?cnt_replicate by done; rewrite ?Hq; try done.
    + by left.
    + by rewrite Hl, Z.eqb_refl.
    + apply NoDup_nil_2.
    + intros t Hin. by apply not_elem_of_nil in Hin.
  - rewrite <- (length_replicate n (client cs acquire release)) at 2.
    apply threads_ok_intro. intros t p [-> Ht]%lookup_replicate. apply wp_client. lia.
Qed.

(** What the operations leave alone stays as it is. *)
Lemma client_const n m c :
  Z.of_nat n <= max_threads -> lock_start m ->
  reachable (replicate n (client cs acquire release), m) c -> C c.2.
Proof using All.
  intros Hn Hm Hr. destruct (client_inv n m c Hn Hm Hr) as (g & HI & _). by destruct HI.
Qed.

(** At most one client is in its critical section. *)
Lemma client_exclusion n m c :
  Z.of_nat n <= max_threads -> lock_start m ->
  reachable (replicate n (client cs acquire release), m) c ->
  0 <= word c.2 cs <= 1.
Proof using All.
  intros Hn Hm Hr. destruct (client_inv n m c Hn Hm Hr) as (g & HI & _).
  by apply (tinv_exclusion l cs sh vu v1 v2 vu_v1 vu_v2 v1_v2 C c.2 g).
Qed.

Lemma tinv_asleep m g t p :
  TInv m g -> asleep m t p = true -> g !! t = Some Queued /\ (t ∈ waiters m l sh).
Proof using Type.
  intros [_ _ _ _ Hother _ Hq _] Hs. unfold asleep in Hs.
  destruct (waiting_on p) as [[l' sh']|]; [|done]. apply bool_decide_eq_true in Hs.
  destruct (decide ((l', sh') = (l, sh))) as [[= -> ->]|Hne]; [auto|].
  rewrite (Hother l' sh' Hne) in Hs. by apply not_elem_of_nil in Hs.
Qed.

(** A machine in which every thread has returned or sleeps has no thread that sleeps. *)
Lemma client_no_lost_wakeup n m c :
  Z.of_nat n <= max_threads -> lock_start m ->
  reachable (replicate n (client cs acquire release), m) c ->
  quiescent c -> forall t p, c.1 !! t = Some p -> finished p = true.
Proof using All.
  intros Hn Hm Hr Hquiet. destruct (client_inv n m c Hn Hm Hr) as (g & HI & Hlen & Hok).
  assert (forall t φ, g !! t = Some φ -> φ = Idle \/ (φ = Queued /\ t ∈ waiters c.2 l sh)) as Hall.
  { intros t φ Hg. destruct (lookup_lt_is_Some_2 c.1 t) as [p Hp].
    { rewrite <- Hlen. by eapply lookup_lt_Some. }
    destruct (Hok t p Hp) as (φ' & Hg' & Hwp). replace φ' with φ in * by congruence.
    destruct (Hquiet t p Hp) as [Hf|Hs]; [left; by destruct p|right].
    destruct (tinv_asleep c.2 g t p HI Hs). split; congruence. }
  intros t p Hp. destruct (Hok t p Hp) as (φ & Hg & Hwp).
  assert (φ = Idle) as -> by (by eapply (tinv_quiet l cs sh vu v1 v2); eauto).
  destruct (Hquiet t p Hp) as [Hf|Hs]; [done|].
  destruct (tinv_asleep c.2 g t p HI Hs). congruence.
Qed.

End client.

(** * Parts of the clients of other locks *)

(** The ways to take a lock. *)
Inductive lock_call := CallLock | CallTrylock | CallTimedlock (realtime : bool).

Definition choose_lock_call : prog lock_call :=
  wait <- act Choose ;;
  timed <- act Choose ;;
  realtime <- act Choose ;;
  Ret (if (wait : bool) then if (timed : bool) then CallTimedlock realtime else CallLock
       else CallTrylock).

(** A client writes to [bad] when a call gives a result it must not give. *)
Definition expect (bad : loc) (ok : bool) : prog unit := if ok then Ret tt else atomic_store bad 1.

Lemma wp_expect {K : FutexKernel} {Φ} (Inv : mem -> list Φ -> Prop) bad (ok : bool) t
    (Q : unit -> Φ -> Prop) φ :
  ok = true -> Q tt φ -> wp Inv (expect bad ok) t Q φ.
Proof. intros -> HQ. by apply wp_ret. Qed.

(** The results of a call by a thread that does not hold the lock: it has it then, or trylock found it taken, or a timed
    call gave up. *)
Definition first_result (ts : option timespec) (c : lock_call) (r : Z) : bool :=
  (r =? 0) || match c with CallLock => false | CallTrylock => r =? EBUSY | CallTimedlock _ => timeout_result ts r end.

(** Nothing was written to [bad]. *)
Definition no_bad (bad : loc) (m : mem) : Prop := word m bad = 0.

#[export] Instance no_bad_proper bad : Proper (mem_equiv ==> iff) (no_bad bad).
Proof. intros m m' [Hw _]. unfold no_bad. by rewrite Hw. Qed.

Lemma no_bad_word bad l cs m (l' : loc) v :
  l <> bad -> cs <> bad -> l' = l \/ l' = cs -> no_bad bad m -> no_bad bad (set_word m l' v).
Proof. intros H1 H2 [-> | ->] Hm; unfold no_bad in *; by rewrite word_set_word_ne. Qed.

Lemma no_bad_waiters bad l sh m q : no_bad bad m -> no_bad bad (set_waiters m l sh q).
Proof. done. Qed.

Lemma wp_choose_lock_call {K : FutexKernel} {Φ} (Inv : mem -> list Φ -> Prop) t
    (Q : lock_call -> Φ -> Prop) φ :
  (forall c, Q c φ) -> wp Inv choose_lock_call t Q φ.
Proof.
  intros HQ. apply wp_bind, wp_choose. intros wait. apply wp_bind, wp_choose. intros timed.
  apply wp_bind, wp_choose. intros rt. by apply wp_ret.
Qed.

(** * The lock of bionic_lock.h *)

(** [enum LockState] *)
Abbreviation Unlocked := 0.
Definition LockedWithoutWaiter : Z := 1.
Definition LockedWithWaiter : Z := 2.

(** The members of a [Lock] object. *)
Record Lock := mk_Lock { lock_state : loc; lock_process_shared : loc }.

Definition Lock_init (lk : Lock) (process_shared : bool) : prog unit :=
  atomic_store (lock_state lk) Unlocked ;;
  atomic_store (lock_process_shared lk) (b2z process_shared).

Definition Lock_trylock (lk : Lock) : prog bool :=
  let2 ok, _seen <- atomic_compare_exchange_strong (lock_state lk) Unlocked LockedWithoutWaiter ;;
  Ret ok.

Definition Lock_lock (lk : Lock) : prog unit :=
  let2 ok, _seen <- atomic_compare_exchange_strong (lock_state lk) Unlocked LockedWithoutWaiter ;;
  if (ok : bool) then Ret tt else
  loop (fun _ : unit =>
    old <- atomic_exchange (lock_state lk) LockedWithWaiter ;;
    if old =? Unlocked then Ret (inr tt) else
    process_shared <- atomic_load (lock_process_shared lk) ;;
    __futex_wait_ex3 (lock_state lk) (truthy process_shared) LockedWithWaiter ;;
    Ret (inl tt)) tt.

Definition Lock_unlock (lk : Lock) : prog unit :=
  shared <- atomic_load (lock_process_shared lk) ;;
  old <- atomic_exchange (lock_state lk) Unlocked ;;
  if old =? LockedWithWaiter
  then __futex_wake_ex (lock_state lk) (truthy shared) 1 ;; Ret tt
  else Ret tt.

(** The operations touch only the members of the lock. *)
Section within_lock.
Context (P : loc -> Prop) (lk : Lock) (Hs : P (lock_state lk)) (Hp : P (lock_process_shared lk)).

Lemma within_Lock_lock : within P (Lock_lock lk).
Proof using Hs Hp. unfold Lock_lock, atomic_compare_exchange_strong, atomic_exchange, atomic_load. within_tac. Qed.

Lemma within_Lock_unlock : within P (Lock_unlock lk).
Proof using Hs Hp. unfold Lock_unlock, atomic_exchange, atomic_load. within_tac. Qed.

End within_lock.

#[export] Hint Resolve within_Lock_lock within_Lock_unlock : within.

(** * Spin locks: a [Lock] that is tried a number of times before the thread sleeps *)

Definition pthread_spin_init (lk : Lock) (pshared : Z) : prog Z :=
  Lock_init lk (truthy pshared) ;; Ret 0.

Definition pthread_spin_destroy (lk : Lock) : prog Z :=
  ok <- Lock_trylock lk ;; Ret (if (ok : bool) then 0 else EBUSY).

Definition pthread_spin_trylock (lk : Lock) : prog Z :=
  ok <- Lock_trylock lk ;; Ret (if (ok : bool) then 0 else EBUSY).

Definition pthread_spin_lock (lk : Lock) : prog Z :=
  acquired <- loop (fun i : Z =>
    if i <? 10000 then
      ok <- Lock_trylock lk ;;
      Ret (if (ok : bool) then inr true else inl (i + 1))
    else Ret (inr false)) 0 ;;
  if (acquired : bool) then Ret 0 else Lock_lock lk ;; Ret 0.

Definition pthread_spin_unlock (lk : Lock) : prog Z := Lock_unlock lk ;; Ret 0.

(** * Correctness *)

Section lock_ok.
Context {K : FutexKernel} (lk : Lock) (cs : loc) (sh : bool).
Context (Hls : lock_state lk <> lock_process_shared lk) (Hlc : lock_state lk <> cs)
  (Hsc : lock_process_shared lk <> cs).

(** The flag of the object does not change. *)
Definition lock_const (m : mem) : Prop := word m (lock_process_shared lk) = b2z sh.

#[export] Instance lock_const_proper : Proper (mem_equiv ==> iff) lock_const.
Proof. intros m m' [Hw _]. unfold lock_const. by rewrite Hw. Qed.

Lemma lock_const_word m l' v :
  l' = lock_state lk \/ l' = cs -> lock_const m -> lock_const (set_word m l' v).
Proof using Hls Hsc.
  intros Hl Hc. unfold lock_const. rewrite word_set_word_ne; [done|]. destruct Hl as [->| ->]; auto.
Qed.

Lemma lock_const_waiters m q : lock_const m -> lock_const (set_waiters m (lock_state lk) sh q).
Proof. done. Qed.

Abbreviation LInv := (tinv (lock_state lk) cs sh Unlocked LockedWithoutWaiter LockedWithWaiter lock_const).

Lemma lock_states_differ :
  Unlocked <> LockedWithoutWaiter /\ Unlocked <> LockedWithWaiter /\
  LockedWithoutWaiter <> LockedWithWaiter.
Proof. done. Qed.

Ltac lk :=
  try done; eauto using lock_const_word, lock_const_waiters, lock_const_proper;
  try (by apply lock_states_differ).

Lemma wp_lock_cas t :
  wp LInv (atomic_compare_exchange_strong (lock_state lk) Unlocked LockedWithoutWaiter) t
    (fun r φ => φ = if r.1 then Own else Idle) Idle.
Proof using All.
  apply wp_act. intros m g HI Hg [ok seen] m' [_ [(Hok & Hv & ->)|(Hok & _ & ->)]];
    simpl in *; subst ok.
  - exists Own. split; [apply tinv_cas; lk|done].
  - exists Idle. by rewrite list_insert_id.
Qed.

Lemma wp_Lock_trylock t :
  wp LInv (Lock_trylock lk) t (fun ok φ => φ = if (ok : bool) then Own else Idle) Idle.
Proof using All.
  apply wp_bind. apply wp_mono with (2 := wp_lock_cas t). intros [ok seen] φ ->. by apply wp_ret.
Qed.

(** The flag, as the routines read it. *)
Lemma wp_lock_shared t Q φ :
  Q (b2z sh) φ -> wp LInv (atomic_load (lock_process_shared lk)) t Q φ.
Proof using All.
  intros HQ. apply (wp_load LInv). intros m g HI Hg. exists φ.
  rewrite list_insert_id by done. split; [done|].
  pose proof (ti_const _ _ _ _ _ _ _ _ _ HI) as ->. done.
Qed.

Lemma wp_Lock_lock t : wp LInv (Lock_lock lk) t (fun _ φ => φ = Own) Idle.
Proof using All.
  apply wp_bind. apply wp_mono with (2 := wp_lock_cas t). intros [ok seen] φ ->.
  destruct ok; [by apply wp_ret|].
  apply (wp_loop LInv (fun _ φ => φ = Idle \/ φ = Retry)); [by left|]. intros _ φ Hφ.
  apply wp_bind, wp_act. intros m g HI Hg x m' [-> ->].
  exists (if word m (lock_state lk) =? Unlocked then Own else Idle).
  split; [eapply tinv_exchange; lk|].
  destruct (word m (lock_state lk) =? Unlocked); [by apply wp_ret|].
  apply wp_bind, wp_lock_shared, wp_bind. rewrite truthy_b2z.
  eapply (wp_futex_wait_ex3 LInv _ _ _ _ _ Idle Queued Retry Idle).
  - apply wp_ret. by left.
  - intros m1 g1 q HI1 Hg1 Hw Hq. apply tinv_enqueue; lk.
  - intros m1 g1 HI1 Hg1 Hni. split; [apply tinv_woken; lk|]. apply wp_ret. by right.
  - intros m1 g1 HI1 Hg1 Hin. split; [apply tinv_giveup; lk|]. apply wp_ret. by left.
Qed.

Lemma wp_Lock_unlock t : wp LInv (Lock_unlock lk) t (fun _ φ => φ = Idle) Own.
Proof using All.
  apply wp_bind, wp_lock_shared, wp_bind, wp_act. intros m g HI Hg x m' [-> ->].
  exists (if word m (lock_state lk) =? LockedWithWaiter then Wake else Idle).
  split; [apply tinv_release; lk|]. rewrite truthy_b2z.
  destruct (word m (lock_state lk) =? LockedWithWaiter); [|by apply wp_ret].
  apply wp_bind. apply (wp_futex_wake_ex LInv _ _ _ _ _ Wake Idle); [done|..].
  - intros m1 g1 q HI1 Hg1 Hsub Hlen. apply tinv_wake; lk.
  - intros r. by apply wp_ret.
Qed.

(** What the client does to take the lock: [lock], or [trylock], as it likes. *)
Definition lock_acquire : prog bool :=
  wait <- act Choose ;;
  if (wait : bool) then Lock_lock lk ;; Ret true else Lock_trylock lk.

#[export] Instance Lock_contract :
  LockContract (lock_state lk) cs sh Unlocked LockedWithoutWaiter LockedWithWaiter lock_const
    lock_acquire (Lock_unlock lk).
Proof using All.
  split; intros t _; [|apply wp_Lock_unlock].
  apply wp_bind, wp_choose. intros []; [|apply wp_Lock_trylock].
  apply wp_bind. apply wp_mono with (2 := wp_Lock_lock t). intros _ φ ->. by apply wp_ret.
Qed.

Lemma wp_spin_trylock t :
  wp LInv (pthread_spin_trylock lk) t (fun r φ => φ = if r =? 0 then Own else Idle) Idle.
Proof using All.
  apply wp_bind. apply wp_mono with (2 := wp_Lock_trylock t). intros [] φ ->; by apply wp_ret.
Qed.

Lemma wp_spin_lock t :
  wp LInv (pthread_spin_lock lk) t (fun r φ => r = 0 /\ φ = Own) Idle.
Proof using All.
  apply wp_bind.
  apply (wp_loop LInv (fun _ φ => φ = Idle)); [done|]. intros i φ ->.
  destruct (i <? 10000).
  - apply wp_bind. apply wp_mono with (2 := wp_Lock_trylock t). intros [] φ ->.
    + by apply wp_ret, wp_ret.
    + by apply wp_ret.
  - apply wp_ret, wp_bind. apply wp_mono with (2 := wp_Lock_lock t). intros _ φ ->. by apply wp_ret.
Qed.

Definition spin_acquire : prog bool :=
  wait <- act Choose ;;
  r <- (if (wait : bool) then pthread_spin_lock lk else pthread_spin_trylock lk) ;;
  Ret (r =? 0).

Definition spin_release : prog unit := pthread_spin_unlock lk ;; Ret tt.

#[export] Instance spin_contract :
  LockContract (lock_state lk) cs sh Unlocked LockedWithoutWaiter LockedWithWaiter lock_const
    spin_acquire spin_release.
Proof using All.
  split; intros t _.
  - apply wp_bind, wp_choose. intros []; apply wp_bind.
    + apply wp_mono with (2 := wp_spin_lock t). intros r φ [-> ->]. by apply wp_ret.
    + apply wp_mono with (2 := wp_spin_trylock t). intros r φ ->. by apply wp_ret.
  - apply wp_bind, wp_bind. apply wp_mono with (2 := wp_Lock_unlock t). intros _ φ ->.
    by apply wp_ret, wp_ret.
Qed.

End lock_ok.

(** The start of the machines below: a [Lock] object after [init], no critical section
    entered, nobody asleep. *)
Definition Lock_start (lk : Lock) (cs : loc) (sh : bool) (m : mem) : Prop :=
  lock_state lk <> lock_process_shared lk /\ lock_state lk <> cs /\ lock_process_shared lk <> cs /\
  lock_start (lock_state lk) cs Unlocked (lock_const lk sh) m.

Lemma Lock_clients_ok {K : FutexKernel} lk cs sh acquire release n m c :
  Lock_start lk cs sh m -> Z.of_nat n <= max_threads ->
  LockContract (lock_state lk) cs sh Unlocked LockedWithoutWaiter LockedWithWaiter
    (lock_const lk sh) acquire release ->
  reachable (replicate n (client cs acquire release), m) c ->
  0 <= word c.2 cs <= 1 /\
  (quiescent c -> forall t p, c.1 !! t = Some p -> finished p = true).
Proof.
  intros (H1 & H2 & H3 & Hm) Hn HC Hr.
  pose proof (lock_const_proper lk sh) as HP.
  pose proof lock_states_differ as (Hd1 & Hd2 & Hd3).
  pose proof (lock_const_word lk cs sh H1 H3) as HW.
  pose proof (lock_const_waiters lk sh) as HQ. split.
  - by eapply (client_exclusion (lock_state lk) cs sh Unlocked LockedWithoutWaiter LockedWithWaiter).
  - by eapply (client_no_lost_wakeup (lock_state lk) cs sh Unlocked LockedWithoutWaiter LockedWithWaiter).
Qed.

(** C20: mutual exclusion of the futex lock.  Any number of threads take the lock with
    [lock] or [trylock] and release it with [unlock], in any interleaving, with any kernel
    that satisfies the futex contract: never are two of them in the critical section. *)
Theorem Lock_mutual_exclusion {K : FutexKernel} lk cs sh n m c :
  Z.of_nat n <= max_threads -> Lock_start lk cs sh m ->
  reachable (replicate n (client cs (lock_acquire lk) (Lock_unlock lk)), m) c ->
  0 <= word c.2 cs <= 1.
Proof.
  intros Hn Hm Hr. pose proof Hm as (H1 & H2 & H3 & _).
  by eapply (Lock_clients_ok lk cs sh); [..|apply Lock_contract|].
Qed.

(** C21: no wake-up of the futex lock is lost.  Whenever every thread has returned or sleeps in
    the kernel, no thread sleeps: a waiter is never left behind by a lock that is free. *)
Theorem Lock_no_lost_wakeup {K : FutexKernel} lk cs sh n m c :
  Z.of_nat n <= max_threads -> Lock_start lk cs sh m ->
  reachable (replicate n (client cs (lock_acquire lk) (Lock_unlock lk)), m) c ->
  quiescent c -> forall t p, c.1 !! t = Some p -> finished p = true.
Proof.
  intros Hn Hm Hr. pose proof Hm as (H1 & H2 & H3 & _).
  by eapply (Lock_clients_ok lk cs sh); [..|apply Lock_contract|].
Qed.

(** The spin lock, which tries the futex lock ten thousand times and then sleeps on it,
    excludes its clients from each other's critical sections and loses no wake-up. *)
Theorem spin_lock_correct {K : FutexKernel} lk cs sh n m c :
  Z.of_nat n <= max_threads -> Lock_start lk cs sh m ->
  reachable (replicate n (client cs (spin_acquire lk) (spin_release lk)), m) c ->
  0 <= word c.2 cs <= 1 /\
  (quiescent c -> forall t p, c.1 !! t = Some p -> finished p = true).
Proof.
  intros Hn Hm Hr. pose proof Hm as (H1 & H2 & H3 & _).
  by eapply (Lock_clients_ok lk cs sh); [..|apply spin_contract|].
Qed.

(** * Concrete machines *)

Definition ex_lock : Lock := mk_Lock (0%nat, "state") (0%nat, "process_shared").
Definition ex_cs : loc := (1%nat, "critical").
Definition ex_bad : loc := (2%nat, "bad").
Definition ex_mem : mem := mk_mem (fun _ => 0) (fun _ _ => []) (fun _ => 0).
Definition ex_clock (_ : Z) : timespec := mk_timespec 0 0.

Lemma ex_lock_start : Lock_start ex_lock ex_cs false ex_mem.
Proof. repeat split; done. Qed.

Definition ex_lock_client : prog unit := client ex_cs (lock_acquire ex_lock) (Lock_unlock ex_lock).

(** Thread 0 enters the critical section; thread 1 finds the lock taken and sleeps. *)
Definition ex_lock_run : machine :=
  run_schedule ex_clock (replicate 5 (0%nat, true) ++ replicate 12 (1%nat, true))
    (replicate 2 ex_lock_client, ex_mem).

(** Then thread 0 leaves, wakes thread 1 and stops; thread 1 has its turn and stops. *)
Definition ex_lock_end : machine :=
  run_schedule ex_clock
    (replicate 5 (0%nat, true) ++ replicate 12 (1%nat, true) ++ replicate 12 (0%nat, false) ++
     replicate 20 (1%nat, false))
    (replicate 2 ex_lock_client, ex_mem).

Lemma Lock_mutual_exclusion_witness :
  word ex_lock_run.2 ex_cs = 1 /\ waiters ex_lock_run.2 (lock_state ex_lock) false = [1%nat] /\
  0 <= word ex_lock_run.2 ex_cs <= 1.
Proof.
  split; [vm_compute; reflexivity|]. split; [vm_compute; reflexivity|].
  apply (Lock_mutual_exclusion (K := fifo_kernel) ex_lock ex_cs false 2 ex_mem ex_lock_run).
  - vm_compute. discriminate.
  - apply ex_lock_start.
  - exact (run_schedule_reachable _ _ _).
Defined.

Lemma ex_lock_end_quiescent : quiescent ex_lock_end.
Proof. intros [|[|t]] p Hp; vm_compute in Hp; simplify_eq; by left. Qed.

Lemma Lock_no_lost_wakeup_witness :
  quiescent ex_lock_end /\ forall t p, ex_lock_end.1 !! t = Some p -> finished p = true.
Proof.
  split; [apply ex_lock_end_quiescent|].
  apply (Lock_no_lost_wakeup (K := fifo_kernel) ex_lock ex_cs false 2 ex_mem ex_lock_end).
  - vm_compute. discriminate.
  - apply ex_lock_start.
  - exact (run_schedule_reachable _ _ _).
  - apply ex_lock_end_quiescent.
Defined.

Definition ex_spin_run : machine :=
  run_schedule ex_clock (replicate 6 (0%nat, true) ++ replicate 9 (1%nat, false))
    (replicate 2 (client ex_cs (spin_acquire ex_lock) (spin_release ex_lock)), ex_mem).

Lemma spin_lock_correct_witness :
  word ex_spin_run.2 ex_cs = 1 /\
  (0 <= word ex_spin_run.2 ex_cs <= 1 /\
   (quiescent ex_spin_run -> forall t p, ex_spin_run.1 !! t = Some p -> finished p = true)).
Proof.
  split; [vm_compute; reflexivity|].
  apply (spin_lock_correct (K := fifo_kernel) ex_lock ex_cs false 2 ex_mem ex_spin_run).
  - vm_compute. discriminate.
  - apply ex_lock_start.
  - exact (run_schedule_reachable _ _ _).
Defined.
