(* ===== verification/Mutex.v ===== *)
(** Mutexes: libc/bionic/pthread_mutex.cpp in its 64-bit configuration
    ([__LP64__]).

    A mutex is an object with the members of [pthread_mutex_internal_t]; the members of the
    union are separate words, as a mutex uses one side of it for its whole life.  The trace
    objects ([ScopedTrace]) are left out: they do not touch the mutex. *)

From S2P Require Import Prelude Atomic Futex.

(** * Attributes *)

Definition PTHREAD_MUTEX_NORMAL : Z := 0.
Definition PTHREAD_MUTEX_RECURSIVE : Z := 1.
Definition PTHREAD_MUTEX_ERRORCHECK : Z := 2.
Definition PTHREAD_MUTEX_DEFAULT : Z := PTHREAD_MUTEX_NORMAL.
Definition PTHREAD_PRIO_NONE : Z := 0.
Definition PTHREAD_PRIO_INHERIT : Z := 1.

Definition MUTEXATTR_TYPE_MASK : Z := 0x000f.
Definition MUTEXATTR_SHARED_MASK : Z := 0x0010.
Definition MUTEXATTR_PROTOCOL_MASK : Z := 0x0020.
Definition MUTEXATTR_PROTOCOL_SHIFT : Z := 5.

(** The functions on attributes take the attribute and give the result with the attribute
    after the call; the getters give the result and what they store through their pointer. *)
Definition pthread_mutexattr_init (_ : Z) : Z * Z := (0, PTHREAD_MUTEX_DEFAULT).

Definition pthread_mutexattr_destroy (_ : Z) : Z * Z := (0, -1).

Definition pthread_mutexattr_gettype (attr : Z) : Z * option Z :=
  let type := Z.land attr MUTEXATTR_TYPE_MASK in
  if (type <? PTHREAD_MUTEX_NORMAL) || (PTHREAD_MUTEX_ERRORCHECK <? type)
  then (EINVAL, None) else (0, Some type).

Definition pthread_mutexattr_settype (attr type : Z) : Z * Z :=
  if (type <? PTHREAD_MUTEX_NORMAL) || (PTHREAD_MUTEX_ERRORCHECK <? type)
  then (EINVAL, attr)
  else (0, Z.lor (Z.land attr (Z.lnot MUTEXATTR_TYPE_MASK)) type).

Definition pthread_mutexattr_setpshared (attr pshared : Z) : Z * Z :=
  if pshared =? PTHREAD_PROCESS_PRIVATE then (0, Z.land attr (Z.lnot MUTEXATTR_SHARED_MASK))
  else if pshared =? PTHREAD_PROCESS_SHARED then (0, Z.lor attr MUTEXATTR_SHARED_MASK)
  else (EINVAL, attr).

Definition pthread_mutexattr_getpshared (attr : Z) : Z * Z :=
  (0, if truthy (Z.land attr MUTEXATTR_SHARED_MASK)
      then PTHREAD_PROCESS_SHARED else PTHREAD_PROCESS_PRIVATE).

Definition pthread_mutexattr_setprotocol (attr protocol : Z) : Z * Z :=
  if negb (protocol =? PTHREAD_PRIO_NONE) && negb (protocol =? PTHREAD_PRIO_INHERIT)
  then (EINVAL, attr)
  else (0, Z.lor (Z.land attr (Z.lnot MUTEXATTR_PROTOCOL_MASK))
             (Z.shiftl protocol MUTEXATTR_PROTOCOL_SHIFT)).

Definition pthread_mutexattr_getprotocol (attr : Z) : Z * Z :=
  (0, Z.shiftr (Z.land attr MUTEXATTR_PROTOCOL_MASK) MUTEXATTR_PROTOCOL_SHIFT).

(** * The members of a mutex *)

(** A mutex is known by its address. *)
Definition m_state (mutex : nat) : loc := (mutex, "state").
Definition m_owner_tid (mutex : nat) : loc := (mutex, "owner_tid").

(** [struct PIMutex] *)
Definition pi_type (mutex : nat) : loc := (mutex, "pi_mutex.type").
Definition pi_shared (mutex : nat) : loc := (mutex, "pi_mutex.shared").
Definition pi_counter (mutex : nat) : loc := (mutex, "pi_mutex.counter").
Definition pi_owner_tid (mutex : nat) : loc := (mutex, "pi_mutex.owner_tid").

(** * Priority inheritance mutexes *)

Definition PIMutexTryLock (mutex : nat) : prog Z :=
  tid <- act GetTid ;;
  let2 ok, old_owner <- atomic_compare_exchange_strong (pi_owner_tid mutex) 0 tid ;;
  if (ok : bool) then Ret 0 else
  if tid =? Z.land old_owner FUTEX_TID_MASK then
    (* We already own this mutex. *)
    type <- atomic_load (pi_type mutex) ;;
    if type =? PTHREAD_MUTEX_NORMAL then Ret EBUSY else
    type <- atomic_load (pi_type mutex) ;;
    if type =? PTHREAD_MUTEX_ERRORCHECK then Ret EDEADLK else
    counter <- atomic_load (pi_counter mutex) ;;
    if counter =? 0xffff then Ret EAGAIN else
    counter <- atomic_load (pi_counter mutex) ;;
    atomic_store (pi_counter mutex) (wrapU 16 (counter + 1)) ;;
    Ret 0
  else Ret EBUSY.

Definition PIMutexTimedLock (mutex : nat) (use_realtime_clock : bool)
    (abs_timeout : option timespec) : prog Z :=
  ret <- PIMutexTryLock mutex ;;
  if ret =? 0 then Ret 0 else
  if ret =? EBUSY then
    shared <- atomic_load (pi_shared mutex) ;;
    r <- __futex_pi_lock_ex (pi_owner_tid mutex) (truthy shared) use_realtime_clock abs_timeout ;;
    Ret (- r)
  else Ret ret.

(** What [PIMutexUnlock] does once it knows the owner word is [old_owner]. *)
Definition PIMutexUnlock_owned (mutex : nat) (tid old_owner : Z) : prog Z :=
  if negb (tid =? Z.land old_owner FUTEX_TID_MASK) then Ret EPERM else
  type <- atomic_load (pi_type mutex) ;;
  counter <- (if type =? PTHREAD_MUTEX_RECURSIVE then atomic_load (pi_counter mutex) else Ret 0) ;;
  if negb (counter =? 0) then
    counter <- atomic_load (pi_counter mutex) ;;
    atomic_store (pi_counter mutex) (wrapU 16 (counter - 1)) ;;
    Ret 0
  else
  released <- (if old_owner =? tid then
                 let2 ok, _seen <- atomic_compare_exchange_strong (pi_owner_tid mutex) old_owner 0 ;;
                 Ret ok
               else Ret false) ;;
  if (released : bool) then Ret 0 else
  shared <- atomic_load (pi_shared mutex) ;;
  r <- __futex_pi_unlock (pi_owner_tid mutex) (truthy shared) ;;
  Ret (- r).

Definition PIMutexUnlock (mutex : nat) : prog Z :=
  tid <- act GetTid ;;
  type <- atomic_load (pi_type mutex) ;;
  if type =? PTHREAD_MUTEX_NORMAL then
    let2 ok, old_owner <- atomic_compare_exchange_strong (pi_owner_tid mutex) tid 0 ;;
    if (ok : bool) then Ret 0 else PIMutexUnlock_owned mutex tid old_owner
  else
    old_owner <- atomic_load (pi_owner_tid mutex) ;;
    PIMutexUnlock_owned mutex tid old_owner.

Definition PIMutexDestroy (mutex : nat) : prog Z :=
  let2 ok, _seen <- atomic_compare_exchange_strong (pi_owner_tid mutex) 0 0xffffffff ;;
  Ret (if (ok : bool) then 0 else EBUSY).

(** * The state word of the other mutexes *)

Definition FIELD_MASK (shift bits : Z) : Z := Z.shiftl (Z.shiftl 1 bits - 1) shift.
Definition FIELD_TO_BITS (val shift bits : Z) : Z :=
  Z.shiftl (Z.land val (Z.shiftl 1 bits - 1)) shift.
Definition FIELD_FROM_BITS (val shift bits : Z) : Z :=
  Z.land (Z.shiftr val shift) (Z.shiftl 1 bits - 1).

Definition MUTEX_STATE_SHIFT : Z := 0.
Definition MUTEX_STATE_LEN : Z := 2.
Definition MUTEX_STATE_MASK : Z := FIELD_MASK MUTEX_STATE_SHIFT MUTEX_STATE_LEN.
Definition MUTEX_STATE_FROM_BITS (v : Z) : Z := FIELD_FROM_BITS v MUTEX_STATE_SHIFT MUTEX_STATE_LEN.
Definition MUTEX_STATE_TO_BITS (v : Z) : Z := FIELD_TO_BITS v MUTEX_STATE_SHIFT MUTEX_STATE_LEN.

Definition MUTEX_STATE_UNLOCKED : Z := 0.
Definition MUTEX_STATE_LOCKED_UNCONTENDED : Z := 1.
Definition MUTEX_STATE_LOCKED_CONTENDED : Z := 2.

Definition MUTEX_STATE_BITS_UNLOCKED : Z := MUTEX_STATE_TO_BITS MUTEX_STATE_UNLOCKED.
Definition MUTEX_STATE_BITS_LOCKED_UNCONTENDED : Z :=
  MUTEX_STATE_TO_BITS MUTEX_STATE_LOCKED_UNCONTENDED.
Definition MUTEX_STATE_BITS_LOCKED_CONTENDED : Z :=
  MUTEX_STATE_TO_BITS MUTEX_STATE_LOCKED_CONTENDED.

Definition MUTEX_STATE_BITS_IS_UNLOCKED (v : Z) : bool :=
  Z.land v MUTEX_STATE_MASK =? MUTEX_STATE_BITS_UNLOCKED.
Definition MUTEX_STATE_BITS_IS_LOCKED_UNCONTENDED (v : Z) : bool :=
  Z.land v MUTEX_STATE_MASK =? MUTEX_STATE_BITS_LOCKED_UNCONTENDED.
Definition MUTEX_STATE_BITS_IS_LOCKED_CONTENDED (v : Z) : bool :=
  Z.land v MUTEX_STATE_MASK =? MUTEX_STATE_BITS_LOCKED_CONTENDED.

Definition MUTEX_STATE_BITS_FLIP_CONTENTION (v : Z) : Z :=
  Z.lxor v (Z.lxor MUTEX_STATE_BITS_LOCKED_CONTENDED MUTEX_STATE_BITS_LOCKED_UNCONTENDED).

Definition MUTEX_COUNTER_SHIFT : Z := 2.
Definition MUTEX_COUNTER_LEN : Z := 11.
Definition MUTEX_COUNTER_MASK : Z := FIELD_MASK MUTEX_COUNTER_SHIFT MUTEX_COUNTER_LEN.
Definition MUTEX_COUNTER_BITS_WILL_OVERFLOW (v : Z) : bool :=
  Z.land v MUTEX_COUNTER_MASK =? MUTEX_COUNTER_MASK.
Definition MUTEX_COUNTER_BITS_IS_ZERO (v : Z) : bool := Z.land v MUTEX_COUNTER_MASK =? 0.
Definition MUTEX_COUNTER_BITS_ONE : Z := FIELD_TO_BITS 1 MUTEX_COUNTER_SHIFT MUTEX_COUNTER_LEN.

Definition MUTEX_SHARED_SHIFT : Z := 13.
Definition MUTEX_SHARED_MASK : Z := FIELD_MASK MUTEX_SHARED_SHIFT 1.

Definition MUTEX_TYPE_SHIFT : Z := 14.
Definition MUTEX_TYPE_LEN : Z := 2.
Definition MUTEX_TYPE_MASK : Z := FIELD_MASK MUTEX_TYPE_SHIFT MUTEX_TYPE_LEN.
Definition MUTEX_TYPE_TO_BITS (t : Z) : Z := FIELD_TO_BITS t MUTEX_TYPE_SHIFT MUTEX_TYPE_LEN.
Definition MUTEX_TYPE_BITS_NORMAL : Z := MUTEX_TYPE_TO_BITS PTHREAD_MUTEX_NORMAL.
Definition MUTEX_TYPE_BITS_RECURSIVE : Z := MUTEX_TYPE_TO_BITS PTHREAD_MUTEX_RECURSIVE.
Definition MUTEX_TYPE_BITS_ERRORCHECK : Z := MUTEX_TYPE_TO_BITS PTHREAD_MUTEX_ERRORCHECK.
Definition PI_MUTEX_STATE : Z := MUTEX_TYPE_TO_BITS 3.

(** * Initialization *)

(** [memset(mutex, 0, sizeof(pthread_mutex_internal_t))] *)
Definition mutex_memset (mutex : nat) : prog unit :=
  atomic_store (m_state mutex) 0 ;;
  atomic_store (m_owner_tid mutex) 0 ;;
  atomic_store (pi_type mutex) 0 ;;
  atomic_store (pi_shared mutex) 0 ;;
  atomic_store (pi_counter mutex) 0 ;;
  atomic_store (pi_owner_tid mutex) 0.

(** The state word [pthread_mutex_init] computes from an attribute, [None] for EINVAL. *)
Definition mutex_init_state (attr : Z) : option Z :=
  let state := if negb (Z.land attr MUTEXATTR_SHARED_MASK =? 0) then MUTEX_SHARED_MASK else 0 in
  let type := Z.land attr MUTEXATTR_TYPE_MASK in
  if type =? PTHREAD_MUTEX_NORMAL then Some (Z.lor state MUTEX_TYPE_BITS_NORMAL)
  else if type =? PTHREAD_MUTEX_RECURSIVE then Some (Z.lor state MUTEX_TYPE_BITS_RECURSIVE)
  else if type =? PTHREAD_MUTEX_ERRORCHECK then Some (Z.lor state MUTEX_TYPE_BITS_ERRORCHECK)
  else None.

Definition pthread_mutex_init (mutex : nat) (attr : option Z) : prog Z :=
  mutex_memset mutex ;;
  match attr with
  | None => atomic_store (m_state mutex) MUTEX_TYPE_BITS_NORMAL ;; Ret 0
  | Some attr =>
      match mutex_init_state attr with
      | None => Ret EINVAL
      | Some state =>
          if Z.shiftr (Z.land attr MUTEXATTR_PROTOCOL_MASK) MUTEXATTR_PROTOCOL_SHIFT
             =? PTHREAD_PRIO_INHERIT then
            atomic_store (m_state mutex) PI_MUTEX_STATE ;;
            atomic_store (pi_type mutex) (Z.land attr MUTEXATTR_TYPE_MASK) ;;
            atomic_store (pi_shared mutex) (b2z (negb (Z.land attr MUTEXATTR_SHARED_MASK =? 0))) ;;
            Ret 0
          else
            atomic_store (m_state mutex) state ;;
            atomic_store (m_owner_tid mutex) 0 ;;
            Ret 0
      end
  end.

(** * Namespace NonPI *)

Definition NormalMutexTryLock (mutex : nat) (shared : Z) : prog Z :=
  let unlocked := Z.lor shared MUTEX_STATE_BITS_UNLOCKED in
  let locked_uncontended := Z.lor shared MUTEX_STATE_BITS_LOCKED_UNCONTENDED in
  let2 ok, _seen <- atomic_compare_exchange_strong (m_state mutex) unlocked locked_uncontended ;;
  Ret (if (ok : bool) then 0 else EBUSY).

Definition NormalMutexLock (mutex : nat) (shared : Z) (use_realtime_clock : bool)
    (abs_timeout_or_null : option timespec) : prog Z :=
  r <- NormalMutexTryLock mutex shared ;;
  if r =? 0 then Ret 0 else
  result <- check_timespec_p abs_timeout_or_null true ;;
  if negb (result =? 0) then Ret result else
  let unlocked := Z.lor shared MUTEX_STATE_BITS_UNLOCKED in
  let locked_contended := Z.lor shared MUTEX_STATE_BITS_LOCKED_CONTENDED in
  loop (fun _ : unit =>
    old <- atomic_exchange (m_state mutex) locked_contended ;;
    if old =? unlocked then Ret (inr 0) else
    w <- __futex_wait_ex (m_state mutex) (truthy shared) locked_contended use_realtime_clock
           abs_timeout_or_null ;;
    Ret (if w =? - ETIMEDOUT then inr ETIMEDOUT else inl tt)) tt.

Definition NormalMutexUnlock (mutex : nat) (shared : Z) : prog unit :=
  let unlocked := Z.lor shared MUTEX_STATE_BITS_UNLOCKED in
  let locked_contended := Z.lor shared MUTEX_STATE_BITS_LOCKED_CONTENDED in
  old <- atomic_exchange (m_state mutex) unlocked ;;
  if old =? locked_contended
  then __futex_wake_ex (m_state mutex) (truthy shared) 1 ;; Ret tt
  else Ret tt.

Definition RecursiveIncrement (mutex : nat) (old_state : Z) : prog Z :=
  if MUTEX_COUNTER_BITS_WILL_OVERFLOW old_state then Ret EAGAIN else
  atomic_fetch_add 16 (m_state mutex) MUTEX_COUNTER_BITS_ONE ;;
  Ret 0.

(** On 64-bit devices the word next to the state is padding. *)
Definition RecursiveOrErrorcheckMutexWait (mutex : nat) (shared old_state : Z)
    (use_realtime_clock : bool) (abs_timeout : option timespec) : prog Z :=
  __futex_wait_ex (m_state mutex) (truthy shared) old_state use_realtime_clock abs_timeout.

(** The loop of [MutexLockWithTimeout], from [while (true)]. *)
Definition mutex_lock_loop (mutex : nat) (mtype shared tid : Z) (use_realtime_clock : bool)
    (abs_timeout_or_null : option timespec) (old_state : Z) : prog Z :=
  let unlocked := Z.lor (Z.lor mtype shared) MUTEX_STATE_BITS_UNLOCKED in
  let locked_contended := Z.lor (Z.lor mtype shared) MUTEX_STATE_BITS_LOCKED_CONTENDED in
  (* the end of an iteration: check the timeout, sleep and read the state again *)
  let wait old_state :=
    result <- check_timespec_p abs_timeout_or_null true ;;
    if negb (result =? 0) then Ret (inr result) else
    w <- RecursiveOrErrorcheckMutexWait mutex shared old_state use_realtime_clock
           abs_timeout_or_null ;;
    if w =? - ETIMEDOUT then Ret (inr ETIMEDOUT) else
    old_state <- atomic_load (m_state mutex) ;;
    Ret (inl old_state) in
  loop (fun old_state : Z =>
    if old_state =? unlocked then
      let2 ok, seen <- atomic_compare_exchange_weak (m_state mutex) old_state locked_contended ;;
      if (ok : bool) then atomic_store (m_owner_tid mutex) tid ;; Ret (inr 0)
      else Ret (inl seen)
    else if MUTEX_STATE_BITS_IS_LOCKED_UNCONTENDED old_state then
      let new_state := MUTEX_STATE_BITS_FLIP_CONTENTION old_state in
      let2 ok, seen <- atomic_compare_exchange_weak (m_state mutex) old_state new_state ;;
      if (ok : bool) then wait new_state else Ret (inl seen)
    else wait old_state) old_state.

Definition MutexLockWithTimeout (mutex : nat) (use_realtime_clock : bool)
    (abs_timeout_or_null : option timespec) : prog Z :=
  old_state <- atomic_load (m_state mutex) ;;
  let mtype := Z.land old_state MUTEX_TYPE_MASK in
  let shared := Z.land old_state MUTEX_SHARED_MASK in
  if mtype =? MUTEX_TYPE_BITS_NORMAL
  then NormalMutexLock mutex shared use_realtime_clock abs_timeout_or_null else
  tid <- act GetTid ;;
  owner <- atomic_load (m_owner_tid mutex) ;;
  if tid =? owner then
    if mtype =? MUTEX_TYPE_BITS_ERRORCHECK then Ret EDEADLK else
    RecursiveIncrement mutex old_state
  else
  let unlocked := Z.lor (Z.lor mtype shared) MUTEX_STATE_BITS_UNLOCKED in
  let locked_uncontended := Z.lor (Z.lor mtype shared) MUTEX_STATE_BITS_LOCKED_UNCONTENDED in
  if old_state =? unlocked then
    let2 ok, seen <- atomic_compare_exchange_strong (m_state mutex) old_state locked_uncontended ;;
    if (ok : bool) then atomic_store (m_owner_tid mutex) tid ;; Ret 0
    else mutex_lock_loop mutex mtype shared tid use_realtime_clock abs_timeout_or_null seen
  else mutex_lock_loop mutex mtype shared tid use_realtime_clock abs_timeout_or_null old_state.

(** 32-bit builds: the timeout is an [unsigned] that [timespec_from_ms] takes as an [int]. *)
Definition pthread_mutex_lock_timeout_np (mutex : nat) (ms : Z) : prog Z :=
  abs_timeout <- absolute_timespec_from_timespec (timespec_from_ms (wrapS 32 ms)) CLOCK_MONOTONIC ;;
  error <- MutexLockWithTimeout mutex false (Some abs_timeout) ;;
  Ret (if error =? ETIMEDOUT then EBUSY else error).

(** * The interface *)

Definition IsMutexDestroyed (mutex_state : Z) : bool := mutex_state =? 0xffff.

Section api.
(** [android_get_application_target_sdk_version()]: the API level of the application. *)
Context (target_sdk : Z).

Definition HandleUsingDestroyedMutex : prog Z :=
  if 28 <=? target_sdk then abort else Ret EBUSY.

Definition pthread_mutex_lock (mutex : nat) : prog Z :=
  old_state <- atomic_load (m_state mutex) ;;
  let mtype := Z.land old_state MUTEX_TYPE_MASK in
  taken <- (if mtype =? MUTEX_TYPE_BITS_NORMAL then
              r <- NormalMutexTryLock mutex (Z.land old_state MUTEX_SHARED_MASK) ;; Ret (r =? 0)
            else Ret false) ;;
  if (taken : bool) then Ret 0 else
  if old_state =? PI_MUTEX_STATE then
    r <- PIMutexTryLock mutex ;;
    if r =? 0 then Ret 0 else PIMutexTimedLock mutex false None
  else if IsMutexDestroyed old_state then HandleUsingDestroyedMutex
  else MutexLockWithTimeout mutex false None.

Definition pthread_mutex_unlock (mutex : nat) : prog Z :=
  old_state <- atomic_load (m_state mutex) ;;
  let mtype := Z.land old_state MUTEX_TYPE_MASK in
  let shared := Z.land old_state MUTEX_SHARED_MASK in
  if mtype =? MUTEX_TYPE_BITS_NORMAL then NormalMutexUnlock mutex shared ;; Ret 0 else
  if old_state =? PI_MUTEX_STATE then PIMutexUnlock mutex else
  if IsMutexDestroyed old_state then HandleUsingDestroyedMutex else
  tid <- act GetTid ;;
  owner <- atomic_load (m_owner_tid mutex) ;;
  if negb (tid =? owner) then Ret EPERM else
  if negb (MUTEX_COUNTER_BITS_IS_ZERO old_state) then
    atomic_fetch_sub 16 (m_state mutex) MUTEX_COUNTER_BITS_ONE ;;
    Ret 0
  else
  atomic_store (m_owner_tid mutex) 0 ;;
  let unlocked := Z.lor (Z.lor mtype shared) MUTEX_STATE_BITS_UNLOCKED in
  old_state <- atomic_exchange (m_state mutex) unlocked ;;
  if MUTEX_STATE_BITS_IS_LOCKED_CONTENDED old_state
  then __futex_wake_ex (m_state mutex) (truthy shared) 1 ;; Ret 0
  else Ret 0.

Definition pthread_mutex_trylock (mutex : nat) : prog Z :=
  old_state <- atomic_load (m_state mutex) ;;
  let mtype := Z.land old_state MUTEX_TYPE_MASK in
  if mtype =? MUTEX_TYPE_BITS_NORMAL
  then NormalMutexTryLock mutex (Z.land old_state MUTEX_SHARED_MASK) else
  if old_state =? PI_MUTEX_STATE then PIMutexTryLock mutex else
  if IsMutexDestroyed old_state then HandleUsingDestroyedMutex else
  tid <- act GetTid ;;
  owner <- atomic_load (m_owner_tid mutex) ;;
  if tid =? owner then
    if mtype =? MUTEX_TYPE_BITS_ERRORCHECK then Ret EBUSY else
    RecursiveIncrement mutex old_state
  else
  let shared := Z.land old_state MUTEX_SHARED_MASK in
  let unlocked := Z.lor (Z.lor mtype shared) MUTEX_STATE_BITS_UNLOCKED in
  let locked_uncontended := Z.lor (Z.lor mtype shared) MUTEX_STATE_BITS_LOCKED_UNCONTENDED in
  let2 ok, _seen <- atomic_compare_exchange_strong (m_state mutex) unlocked locked_uncontended ;;
  if (ok : bool) then atomic_store (m_owner_tid mutex) tid ;; Ret 0 else Ret EBUSY.

Definition __pthread_mutex_timedlock (mutex : nat) (use_realtime_clock : bool)
    (abs_timeout : option timespec) : prog Z :=
  old_state <- atomic_load (m_state mutex) ;;
  let mtype := Z.land old_state MUTEX_TYPE_MASK in
  taken <- (if mtype =? MUTEX_TYPE_BITS_NORMAL then
              r <- NormalMutexTryLock mutex (Z.land old_state MUTEX_SHARED_MASK) ;; Ret (r =? 0)
            else Ret false) ;;
  if (taken : bool) then Ret 0 else
  if old_state =? PI_MUTEX_STATE then PIMutexTimedLock mutex use_realtime_clock abs_timeout else
  if IsMutexDestroyed old_state then HandleUsingDestroyedMutex else
  MutexLockWithTimeout mutex use_realtime_clock abs_timeout.

Definition pthread_mutex_timedlock (mutex : nat) (abs_timeout : option timespec) : prog Z :=
  __pthread_mutex_timedlock mutex true abs_timeout.

Definition pthread_mutex_timedlock_monotonic_np (mutex : nat) (abs_timeout : option timespec) : prog Z :=
  __pthread_mutex_timedlock mutex false abs_timeout.

Definition pthread_mutex_clocklock (mutex : nat) (clock : Z) (abs_timeout : option timespec) : prog Z :=
  if clock =? CLOCK_MONOTONIC then __pthread_mutex_timedlock mutex false abs_timeout
  else if clock =? CLOCK_REALTIME then __pthread_mutex_timedlock mutex true abs_timeout
  else
    old_state <- atomic_load (m_state mutex) ;;
    if IsMutexDestroyed old_state then HandleUsingDestroyedMutex else Ret EINVAL.

Definition pthread_mutex_destroy (mutex : nat) : prog Z :=
  old_state <- atomic_load (m_state mutex) ;;
  if IsMutexDestroyed old_state then HandleUsingDestroyedMutex else
  if old_state =? PI_MUTEX_STATE then
    result <- PIMutexDestroy mutex ;;
    if result =? 0 then atomic_store (m_state mutex) 0xffff ;; Ret result else Ret result
  else
  destroyed <- (if MUTEX_STATE_BITS_IS_UNLOCKED old_state then
                  let2 ok, _seen <- atomic_compare_exchange_strong (m_state mutex) old_state 0xffff ;;
                  Ret ok
                else Ret false) ;;
  Ret (if (destroyed : bool) then 0 else EBUSY).

End api.

(** * The functions touch only the mutex *)

Ltac within_mutex :=
  unfold check_timespec_p, abort, atomic_store, atomic_load, atomic_fetch_add, atomic_fetch_sub,
    atomic_compare_exchange_strong, atomic_compare_exchange_weak, atomic_exchange;
  within_tac; auto.

Section within.
Context (P : loc -> Prop) (sdk : Z) (mutex : nat) (HP : forall f, P (mutex, f)).

Lemma within_pi rt ts :
  within P (PIMutexTryLock mutex) /\ within P (PIMutexTimedLock mutex rt ts) /\ within P (PIMutexUnlock mutex).
Proof using HP.
  pose proof (within_FutexWithTimeout P). pose proof (within_futex P).
  assert (P (pi_type mutex) /\ P (pi_shared mutex) /\ P (pi_counter mutex) /\ P (pi_owner_tid mutex))
    as (H1 & H2 & H3 & H4) by (repeat split; apply HP).
  unfold PIMutexTryLock, PIMutexTimedLock, PIMutexUnlock, PIMutexUnlock_owned, __futex_pi_lock_ex, __futex_pi_unlock.
  split; [|split]; within_mutex.
Qed.

Lemma within_normal sh rt ts :
  within P (NormalMutexTryLock mutex sh) /\ within P (NormalMutexLock mutex sh rt ts) /\
  within P (NormalMutexUnlock mutex sh).
Proof using HP.
  assert (P (m_state mutex)) by apply HP.
  unfold NormalMutexTryLock, NormalMutexLock, NormalMutexUnlock. split; [|split]; within_mutex.
Qed.

Lemma within_MutexLockWithTimeout rt ts : within P (MutexLockWithTimeout mutex rt ts).
Proof using HP.
  assert (P (m_state mutex)) by apply HP. assert (P (m_owner_tid mutex)) by apply HP.
  pose proof (fun sh => proj1 (proj2 (within_normal sh rt ts))).
  unfold MutexLockWithTimeout, RecursiveIncrement, mutex_lock_loop, RecursiveOrErrorcheckMutexWait. within_mutex.
Qed.

Lemma within_pthread_mutex_lock : within P (pthread_mutex_lock sdk mutex).
Proof using HP.
  assert (P (m_state mutex)) by apply HP. destruct (within_pi false None) as (? & ? & _).
  pose proof (fun sh => proj1 (within_normal sh false None)). pose proof (within_MutexLockWithTimeout false None).
  unfold pthread_mutex_lock, HandleUsingDestroyedMutex. within_mutex.
Qed.

Lemma within_pthread_mutex_unlock : within P (pthread_mutex_unlock sdk mutex).
Proof using HP.
  assert (P (m_state mutex)) by apply HP. assert (P (m_owner_tid mutex)) by apply HP.
  destruct (within_pi false None) as (_ & _ & ?). pose proof (fun sh => proj2 (proj2 (within_normal sh false None))).
  unfold pthread_mutex_unlock, HandleUsingDestroyedMutex. within_mutex.
Qed.

End within.
