(* ===== verification/MutexNormal.v ===== *)
(** The normal mutex, through the functions of the interface, keeps the contract of a lock:
    the client theorems of Lock.v hold of it. *)

From S2P Require Import Prelude Atomic Futex Lock Mutex.

(** Nothing else. *)
Definition no_const (_ : mem) : Prop := True.

#[export] Instance no_const_proper : Proper (mem_equiv ==> iff) no_const.
Proof. done. Qed.

Lemma no_const_word mu cs m (l' : loc) v : l' = m_state mu \/ l' = cs -> no_const m -> no_const (set_word m l' v).
Proof. done. Qed.

Lemma no_const_waiters mu shared m q : no_const m -> no_const (set_waiters m (m_state mu) (truthy shared) q).
Proof. done. Qed.

Section normal.
Context {K : FutexKernel} (sdk : Z) (mu : nat) (cs : loc) (shared : Z).
Context (Hshared : shared = 0 \/ shared = MUTEX_SHARED_MASK) (Hcs : m_state mu <> cs).

Definition normal_unlocked : Z := Z.lor shared MUTEX_STATE_BITS_UNLOCKED.
Definition normal_locked : Z := Z.lor shared MUTEX_STATE_BITS_LOCKED_UNCONTENDED.
Definition normal_contended : Z := Z.lor shared MUTEX_STATE_BITS_LOCKED_CONTENDED.

Lemma normal_states_differ :
  normal_unlocked <> normal_locked /\ normal_unlocked <> normal_contended /\
  normal_locked <> normal_contended.
Proof using Hshared.
  unfold normal_unlocked, normal_locked, normal_contended.
  destruct Hshared as [-> | ->]; repeat split; discriminate.
Qed.

(** What the routines read off a state word of a normal mutex. *)
Lemma normal_word v :
  v = normal_unlocked \/ v = normal_locked \/ v = normal_contended ->
  (Z.land v MUTEX_TYPE_MASK =? MUTEX_TYPE_BITS_NORMAL) = true /\
  Z.land v MUTEX_SHARED_MASK = shared /\
  (v =? PI_MUTEX_STATE) = false /\ IsMutexDestroyed v = false.
Proof using Hshared.
  unfold normal_unlocked, normal_locked, normal_contended.
  destruct Hshared as [-> | ->]; intros [-> |[-> | ->]]; repeat split; reflexivity.
Qed.

(** What else is true of the memory, and the operations leave alone. *)
Context (const : mem -> Prop) (const_proper : Proper (mem_equiv ==> iff) const)
  (const_word : forall m (l' : loc) v, l' = m_state mu \/ l' = cs -> const m -> const (set_word m l' v))
  (const_waiters : forall m q, const m -> const (set_waiters m (m_state mu) (truthy shared) q)).
#[local] Existing Instance const_proper.

Abbreviation NInv :=
  (tinv (m_state mu) cs (truthy shared) normal_unlocked normal_locked normal_contended const).

Ltac nm :=
  try done; eauto using const_word, const_waiters, const_proper;
  try (by apply normal_states_differ).

Lemma wp_normal_load t (Q : Z -> phase -> Prop) φ :
  (forall v, v = normal_unlocked \/ v = normal_locked \/ v = normal_contended -> Q v φ) ->
  wp NInv (atomic_load (m_state mu)) t Q φ.
Proof using All.
  intros HQ. apply (wp_load NInv). intros m g HI Hg. exists φ. rewrite list_insert_id by done.
  split; [done|]. apply HQ. by apply (ti_word _ _ _ _ _ _ _ _ _ HI).
Qed.

(** The result of an acquiring call and the phase it leaves the thread in. *)
Definition acquired (r : Z) (φ : phase) : Prop := φ = if r =? 0 then Own else Idle.

Definition tried (r : Z) (φ : phase) : Prop := acquired r φ /\ (r = 0 \/ r = EBUSY).

Lemma wp_NormalMutexTryLock t : wp NInv (NormalMutexTryLock mu shared) t tried Idle.
Proof using All.
  apply wp_bind, wp_act. intros m g HI Hg [ok seen] m' [_ [(Hok & Hv & ->)|(Hok & _ & ->)]];
    simpl in *; subst ok.
  - exists Own. split; [apply tinv_cas; nm|]. apply wp_ret. split; [done|by left].
  - exists Idle. rewrite list_insert_id by done. split; [done|]. apply wp_ret. split; [done|by right].
Qed.

(** A call that may wait: without a timeout it succeeds. *)
Definition locked_within (ts : option timespec) (r : Z) (φ : phase) : Prop :=
  acquired r φ /\ (r = 0 \/ timeout_result ts r = true).

Lemma wp_NormalMutexLock rt ts t : wp NInv (NormalMutexLock mu shared rt ts) t (locked_within ts) Idle.
Proof using All.
  apply wp_bind. apply wp_mono with (2 := wp_NormalMutexTryLock t). intros r φ [-> _].
  destruct (r =? 0); [apply wp_ret; split; [done|by left]|].
  apply wp_bind, wp_check_timespec_is. intros res Hcheck. destruct (Z.eqb_spec res 0) as [->|Hres]; simpl.
  2: { apply wp_ret. split; [|right; by apply timeout_result_check]. unfold acquired. by rewrite (proj2 (Z.eqb_neq res 0) Hres). }
  apply (wp_loop NInv (fun _ φ => φ = Idle \/ φ = Retry)); [by left|]. intros _ φ Hφ.
  apply wp_bind, wp_act. intros m g HI Hg x m' [-> ->].
  exists (if word m (m_state mu) =? normal_unlocked then Own else Idle).
  split; [eapply tinv_exchange; nm|]. fold normal_unlocked.
  destruct (word m (m_state mu) =? normal_unlocked); [apply wp_ret; split; [done|by left]|].
  apply wp_bind. eapply (wp_futex_wait_ex NInv _ _ _ _ _ _ _ Idle Queued Retry Idle).
  - apply wp_ret. by left.
  - intros Hts. apply wp_ret. split; [done|]. right. by apply timeout_result_late.
  - intros m1 g1 q HI1 Hg1 Hw Hq. apply tinv_enqueue; nm.
  - intros m1 g1 HI1 Hg1 Hni. split; [apply tinv_woken; nm|]. apply wp_ret. by right.
  - intros m1 g1 HI1 Hg1 Hin. split; [apply tinv_giveup; nm|]. split; [apply wp_ret; by left|].
    intros Hts. apply wp_ret. split; [done|]. right. by apply timeout_result_late.
Qed.

Lemma wp_NormalMutexUnlock t : wp NInv (NormalMutexUnlock mu shared) t (fun _ φ => φ = Idle) Own.
Proof using All.
  apply wp_bind, wp_act. intros m g HI Hg x m' [-> ->].
  exists (if word m (m_state mu) =? normal_contended then Wake else Idle).
  split; [apply tinv_release; nm|]. fold normal_contended.
  destruct (word m (m_state mu) =? normal_contended); [|by apply wp_ret].
  apply wp_bind. apply (wp_futex_wake_ex NInv _ _ _ _ _ Wake Idle); [done|..].
  - intros m1 g1 q HI1 Hg1 Hsub Hlen. apply tinv_wake; nm.
  - intros r. by apply wp_ret.
Qed.

(** * The interface *)

Lemma wp_MutexLockWithTimeout rt ts t : wp NInv (MutexLockWithTimeout mu rt ts) t (locked_within ts) Idle.
Proof using All.
  apply wp_bind, wp_normal_load. intros v Hv. cbv beta zeta.
  destruct (normal_word v Hv) as (-> & -> & _ & _). apply wp_NormalMutexLock.
Qed.

(** The fast path of the locking functions. *)
Lemma wp_normal_fast v (p : prog Z) t (Q : Z -> phase -> Prop) :
  v = normal_unlocked \/ v = normal_locked \/ v = normal_contended ->
  Q 0 Own -> wp NInv p t Q Idle ->
  wp NInv (taken <- (if Z.land v MUTEX_TYPE_MASK =? MUTEX_TYPE_BITS_NORMAL then
                       r <- NormalMutexTryLock mu (Z.land v MUTEX_SHARED_MASK) ;; Ret (r =? 0)
                     else Ret false) ;;
           if (taken : bool) then Ret 0 else p) t Q Idle.
Proof using All.
  intros Hv HQ Hp. destruct (normal_word v Hv) as (-> & -> & _ & _).
  apply wp_bind, wp_bind. apply wp_mono with (2 := wp_NormalMutexTryLock t).
  intros r φ [-> _]. apply wp_ret. destruct (r =? 0); [by apply wp_ret|done].
Qed.

Lemma wp_pthread_mutex_lock t : wp NInv (pthread_mutex_lock sdk mu) t (locked_within None) Idle.
Proof using All.
  apply wp_bind, wp_normal_load. intros v Hv. cbv beta zeta. apply (wp_normal_fast v); [done|by split; [|left]|].
  destruct (normal_word v Hv) as (_ & _ & -> & ->). apply wp_MutexLockWithTimeout.
Qed.

Lemma wp_pthread_mutex_timedlock rt ts t :
  wp NInv (__pthread_mutex_timedlock sdk mu rt ts) t (locked_within ts) Idle.
Proof using All.
  apply wp_bind, wp_normal_load. intros v Hv. cbv beta zeta. apply (wp_normal_fast v); [done|by split; [|left]|].
  destruct (normal_word v Hv) as (_ & _ & -> & ->).
  apply wp_MutexLockWithTimeout.
Qed.

Definition known_clock (clock : Z) : bool := (clock =? CLOCK_MONOTONIC) || (clock =? CLOCK_REALTIME).

Lemma wp_pthread_mutex_clocklock clock ts t :
  wp NInv (pthread_mutex_clocklock sdk mu clock ts) t
    (fun r φ => if known_clock clock then locked_within ts r φ else acquired r φ /\ r = EINVAL) Idle.
Proof using All.
  unfold pthread_mutex_clocklock, known_clock. destruct (clock =? CLOCK_MONOTONIC); [apply wp_pthread_mutex_timedlock|].
  destruct (clock =? CLOCK_REALTIME); [apply wp_pthread_mutex_timedlock|].
  apply wp_bind, wp_normal_load. intros v Hv. cbv beta zeta.
  destruct (normal_word v Hv) as (_ & _ & _ & ->). by apply wp_ret.
Qed.

Lemma wp_pthread_mutex_trylock t : wp NInv (pthread_mutex_trylock sdk mu) t tried Idle.
Proof using All.
  apply wp_bind, wp_normal_load. intros v Hv. cbv beta zeta.
  destruct (normal_word v Hv) as (-> & -> & _ & _). apply wp_NormalMutexTryLock.
Qed.

Lemma wp_pthread_mutex_unlock t :
  wp NInv (pthread_mutex_unlock sdk mu) t (fun r φ => r = 0 /\ φ = Idle) Own.
Proof using All.
  apply wp_bind, wp_normal_load. intros v Hv. cbv beta zeta.
  destruct (normal_word v Hv) as (-> & -> & _ & _). apply wp_bind.
  apply wp_mono with (2 := wp_NormalMutexUnlock t). intros _ φ ->. by apply wp_ret.
Qed.

(** The client's ways to take the mutex: [ts] and [clock] are the arguments it passes. *)
Inductive normal_call := ByLock | ByTrylock | ByTimedlock | ByClocklock.

Definition run_normal_call (ts : option timespec) (clock : Z) (c : normal_call) : prog Z :=
  match c with
  | ByLock => pthread_mutex_lock sdk mu
  | ByTrylock => pthread_mutex_trylock sdk mu
  | ByTimedlock => pthread_mutex_timedlock sdk mu ts
  | ByClocklock => pthread_mutex_clocklock sdk mu clock ts
  end.

(** The results that each of them may give. *)
Definition normal_result (ts : option timespec) (clock : Z) (c : normal_call) (r : Z) : bool :=
  match c with
  | ByLock => r =? 0
  | ByTrylock => (r =? 0) || (r =? EBUSY)
  | ByTimedlock => (r =? 0) || timeout_result ts r
  | ByClocklock => if known_clock clock then (r =? 0) || timeout_result ts r else r =? EINVAL
  end.

Definition mutex_acquire (bad : loc) (ts : option timespec) (clock : Z) : prog bool :=
  wait <- act Choose ;;
  timed <- act Choose ;;
  let call := if (wait : bool) then if (timed : bool) then ByClocklock else ByLock else if (timed : bool) then ByTimedlock else ByTrylock in
  r <- run_normal_call ts clock call ;;
  expect bad (normal_result ts clock call r) ;;
  Ret (r =? 0).

Definition mutex_release (bad : loc) : prog unit :=
  r <- pthread_mutex_unlock sdk mu ;; expect bad (r =? 0).

Lemma wp_normal_call ts clock c t :
  wp NInv (run_normal_call ts clock c) t (fun r φ => acquired r φ /\ normal_result ts clock c r = true) Idle.
Proof using All.
  assert (Hw : forall ts r φ, locked_within ts r φ -> acquired r φ /\ ((r =? 0) || timeout_result ts r = true)).
  { intros ts' r φ [H [-> | E]]; (split; [done|]); [done|]. by rewrite E, orb_true_r. }
  destruct c; simpl.
  - apply wp_mono with (2 := wp_pthread_mutex_lock t). intros r φ [H [-> |E]]; [done|by destruct r].
  - apply wp_mono with (2 := wp_pthread_mutex_trylock t). intros r φ [H [-> | ->]]; done.
  - apply wp_mono with (2 := wp_pthread_mutex_timedlock true ts t). auto.
  - apply wp_mono with (2 := wp_pthread_mutex_clocklock clock ts t). intros r φ H.
    destruct (known_clock clock); [auto|]. by destruct H as [H ->].
Qed.

#[export] Instance normal_contract bad ts clock :
  LockContract (m_state mu) cs (truthy shared) normal_unlocked normal_locked normal_contended
    const (mutex_acquire bad ts clock) (mutex_release bad).
Proof using All.
  split; intros t _.
  - apply wp_bind, wp_choose. intros wait. apply wp_bind, wp_choose. intros timed. cbv zeta.
    apply wp_bind. apply wp_mono with (2 := wp_normal_call ts clock _ t). intros r φ [-> Hr].
    by apply wp_bind, wp_expect, wp_ret.
  - apply wp_bind. apply wp_mono with (2 := wp_pthread_mutex_unlock t).
    intros r φ [-> ->]. by apply wp_expect.
Qed.

End normal.

(** C17: the normal mutex, process-private or process-shared, used through lock, trylock,
    timedlock and clocklock with any timeout on any clock, by any number of threads that lock and unlock in
    turn.  Whatever the threads and the kernel do, at most one thread is in its critical section, and a machine
    in which every thread has returned or sleeps has no thread that sleeps: no unlock forgets a waiter.  No call gives a
    result it must not give: lock and unlock succeed, trylock gives 0 or EBUSY, and the timed calls give 0, ETIMEDOUT if
    there is a timeout, or EINVAL if the timeout or the clock is not valid. *)
Theorem normal_mutex_correct {K : FutexKernel} sdk mu cs bad shared ts clock n m c :
  shared = 0 \/ shared = MUTEX_SHARED_MASK -> m_state mu <> cs -> m_state mu <> bad -> cs <> bad ->
  Z.of_nat n <= max_threads ->
  lock_start (m_state mu) cs (normal_unlocked shared) (no_bad bad) m ->
  reachable (replicate n (client cs (mutex_acquire sdk mu bad ts clock) (mutex_release sdk mu bad)), m) c ->
  0 <= word c.2 cs <= 1 /\ word c.2 bad = 0 /\
  (quiescent c -> forall t p, c.1 !! t = Some p -> finished p = true).
Proof.
  intros Hs Hcs Hb1 Hb2 Hn Hm Hr. pose proof (normal_states_differ shared Hs) as (Hd1 & Hd2 & Hd3).
  pose proof (no_bad_proper bad) as HP.
  pose proof (fun m l' v => no_bad_word bad (m_state mu) cs m l' v Hb1 Hb2) as HW.
  pose proof (no_bad_waiters bad (m_state mu) (truthy shared)) as HQ.
  pose proof (normal_contract sdk mu cs shared Hs Hcs (no_bad bad) HP HW HQ bad ts clock) as HC. split; [|split].
  - by eapply (client_exclusion (m_state mu) cs (truthy shared) (normal_unlocked shared)
      (normal_locked shared) (normal_contended shared)).
  - by apply (client_const (m_state mu) cs (truthy shared) (normal_unlocked shared)
      (normal_locked shared) (normal_contended shared) Hd1 Hd2 Hd3 Hcs (no_bad bad) HW HQ _ _ n m c).
  - by eapply (client_no_lost_wakeup (m_state mu) cs (truthy shared) (normal_unlocked shared)
      (normal_locked shared) (normal_contended shared)).
Qed.

(** Thread 0 takes a process-shared mutex; thread 1 sleeps on it. *)
Definition ex_mutex_mem : mem := set_word ex_mem (m_state 0) MUTEX_SHARED_MASK.

Definition ex_mutex_run : machine :=
  run_schedule ex_clock (replicate 7 (0%nat, true) ++ replicate 30 (1%nat, true))
    (replicate 2 (client ex_cs (mutex_acquire 30 0 ex_bad None CLOCK_REALTIME) (mutex_release 30 0 ex_bad)),
     ex_mutex_mem).

Lemma normal_mutex_correct_witness :
  word ex_mutex_run.2 ex_cs = 1 /\ waiters ex_mutex_run.2 (m_state 0) true = [1%nat] /\
  (0 <= word ex_mutex_run.2 ex_cs <= 1 /\ word ex_mutex_run.2 ex_bad = 0 /\
   (quiescent ex_mutex_run -> forall t p, ex_mutex_run.1 !! t = Some p -> finished p = true)).
Proof.
  split; [vm_compute; reflexivity|]. split; [vm_compute; reflexivity|].
  apply (normal_mutex_correct (K := fifo_kernel) 30 0 ex_cs ex_bad MUTEX_SHARED_MASK None CLOCK_REALTIME
           2 ex_mutex_mem ex_mutex_run).
  - by right.
  - done.
  - done.
  - done.
  - vm_compute. discriminate.
  - repeat split; done.
  - exact (run_schedule_reachable _ _ _).
Defined.
