(* ===== verification/MutexClient.v ===== *)
(** The contract of a mutex with an owner, and the most general client of it.

    [MutexContract] is what a recursive, error-checking or priority inheritance mutex promises
    to each thread; MutexRecursive.v and PiMutex.v prove it of the functions of
    pthread_mutex.cpp, and the client is verified here against the contract alone. *)

From S2P Require Import Prelude Atomic Futex Lock Mutex.

Definition run_lock_call (sdk : Z) (mu : nat) (ts : option timespec) (c : lock_call) : prog Z :=
  match c with
  | CallLock => pthread_mutex_lock sdk mu
  | CallTrylock => pthread_mutex_trylock sdk mu
  | CallTimedlock realtime => __pthread_mutex_timedlock sdk mu realtime ts
  end.

Section client.
Context (sdk : Z) (mu : nat) (cs bad : loc) (ts : option timespec).
(** Whether [r] is a result a call may give to a thread that does not hold the mutex, and to the
    owner, who has locked it [d + 1] times. *)
Context (first_ok : lock_call -> Z -> bool) (relock_ok : lock_call -> Z -> Z -> bool).

(** The most general client: it locks and unlocks as it likes, nested, and also unlocks when it
    holds nothing; [n] counts its locks.  It counts itself in and out of a critical section at
    the outermost lock, and writes to [bad] when a call gives a result it must not give. *)
Definition nested_client : prog unit :=
  loop (fun n : Z =>
    go <- act Choose ;;
    up <- act Choose ;;
    if (go : bool) then
      if (up : bool) then
        call <- choose_lock_call ;;
        r <- run_lock_call sdk mu ts call ;;
        if n =? 0 then
          expect bad (first_ok call r) ;;
          if r =? 0 then act (Rmw cs (fun c => c + 1)) ;; Ret (inl 1) else Ret (inl 0)
        else
          expect bad (relock_ok call (n - 1) r) ;;
          Ret (inl (if r =? 0 then n + 1 else n))
      else if n =? 1 then
        act (Rmw cs (fun c => c - 1)) ;;
        r <- pthread_mutex_unlock sdk mu ;;
        expect bad (r =? 0) ;;
        Ret (inl 0)
      else
        r <- pthread_mutex_unlock sdk mu ;;
        expect bad (r =? if n =? 0 then EPERM else 0) ;;
        Ret (inl (if n =? 0 then 0 else n - 1))
    else Ret (if n =? 0 then inr tt else inl n)) 0.

Context {K : FutexKernel} {Φ : Type} (Inv : mem -> list Φ -> Prop)
  (idle : Φ) (own : Z -> bool -> Φ).

(** [own d crit] is the phase of a thread that has locked the mutex [d + 1] times; [crit] says
    that it is in its critical section. *)
Class MutexContract := {
  lock_idle c t : wp Inv (run_lock_call sdk mu ts c) t
    (fun r φ => first_ok c r = true /\ φ = if r =? 0 then own 0 false else idle) idle;
  lock_own c t d : 0 <= d -> wp Inv (run_lock_call sdk mu ts c) t
    (fun r φ => relock_ok c d r = true /\ φ = own (if r =? 0 then d + 1 else d) true) (own d true);
  unlock_idle t : wp Inv (pthread_mutex_unlock sdk mu) t (fun r φ => r = EPERM /\ φ = idle) idle;
  unlock_last t : wp Inv (pthread_mutex_unlock sdk mu) t (fun r φ => r = 0 /\ φ = idle) (own 0 false);
  unlock_own t d : 1 <= d ->
    wp Inv (pthread_mutex_unlock sdk mu) t (fun r φ => r = 0 /\ φ = own (d - 1) true) (own d true);
  enter_cs m g t : Inv m g -> g !! t = Some (own 0 false) ->
    Inv (set_word m cs (word m cs + 1)) (<[t:=own 0 true]> g);
  leave_cs m g t : Inv m g -> g !! t = Some (own 0 true) ->
    Inv (set_word m cs (word m cs - 1)) (<[t:=own 0 false]> g)
}.

Context {HC : MutexContract}.

Definition locked (n : Z) (φ : Φ) : Prop :=
  (n = 0 /\ φ = idle) \/ (1 <= n /\ φ = own (n - 1) true).

Lemma wp_nested_lock c n t φ (Q : Z + unit -> Φ -> Prop) :
  locked n φ -> (forall n' φ', locked n' φ' -> Q (inl n') φ') ->
  wp Inv (r <- run_lock_call sdk mu ts c ;;
    if n =? 0 then
      expect bad (first_ok c r) ;;
      if r =? 0 then act (Rmw cs (fun c => c + 1)) ;; Ret (inl 1) else Ret (inl 0)
    else expect bad (relock_ok c (n - 1) r) ;; Ret (inl (if r =? 0 then n + 1 else n))) t Q φ.
Proof using HC.
  intros Hn HQ. apply wp_bind. destruct Hn as [[-> ->]|[Hn ->]]; simpl Z.eqb.
  - apply wp_mono with (2 := lock_idle c t). intros r φ [Hr ->].
    apply wp_bind, wp_expect; [done|].
    destruct (r =? 0); [|apply wp_ret, HQ; by left].
    apply wp_bind, wp_act. intros m g HI Hg x m' [_ ->]. exists (own 0 true).
    split; [by apply enter_cs|]. apply wp_ret, HQ. right. split; [lia|done].
  - apply wp_mono with (2 := lock_own c t (n - 1) ltac:(lia)). intros r φ [Hr ->].
    rewrite (proj2 (Z.eqb_neq n 0)) by lia. apply wp_bind, wp_expect; [done|].
    apply wp_ret, HQ. right. destruct (r =? 0); split; f_equal; lia.
Qed.

Lemma wp_nested_unlock n t φ (Q : Z + unit -> Φ -> Prop) :
  locked n φ -> n <> 1 -> (forall n' φ', locked n' φ' -> Q (inl n') φ') ->
  wp Inv (r <- pthread_mutex_unlock sdk mu ;;
    expect bad (r =? if n =? 0 then EPERM else 0) ;; Ret (inl (if n =? 0 then 0 else n - 1))) t Q φ.
Proof using HC.
  intros Hn Hn1 HQ. apply wp_bind. destruct Hn as [[-> ->]|[Hn ->]].
  - apply wp_mono with (2 := unlock_idle t). intros r φ [-> ->].
    apply wp_bind, wp_expect; [done|]. apply wp_ret, HQ. by left.
  - apply wp_mono with (2 := unlock_own t (n - 1) ltac:(lia)). intros r φ [-> ->].
    rewrite (proj2 (Z.eqb_neq n 0)) by lia.
    apply wp_bind, wp_expect; [done|]. apply wp_ret, HQ. right. split; [lia|done].
Qed.

Lemma wp_nested_client t : wp Inv nested_client t (fun _ φ => φ = idle) idle.
Proof using HC.
  apply (wp_loop Inv locked); [by left|]. intros n φ Hn.
  apply wp_bind, wp_choose. intros go. apply wp_bind, wp_choose. intros up. destruct go.
  2: { apply wp_ret. by destruct Hn as [[-> ->]|[Hn ->]];
         [|rewrite (proj2 (Z.eqb_neq n 0)) by lia; right]. }
  destruct up.
  - apply wp_bind, wp_choose_lock_call. intros c. by apply wp_nested_lock.
  - destruct (Z.eqb_spec n 1) as [->|Hn1]; [|by apply wp_nested_unlock].
    destruct Hn as [[? _]|[_ ->]]; [done|].
    apply wp_bind, wp_act. intros m g HI Hg x m' [_ ->]. exists (own 0 false).
    split; [by apply leave_cs|].
    apply wp_bind. apply wp_mono with (2 := unlock_last t).
    intros r φ [-> ->]. apply wp_bind, wp_expect; [done|]. apply wp_ret. by left.
Qed.

Lemma nested_client_inv n m c :
  Inv m (replicate n idle) -> reachable (replicate n nested_client, m) c ->
  exists g, Inv c.2 g /\ threads_ok Inv (fun _ φ _ => φ = idle) c.1 c.2 g.
Proof using HC.
  intros Hm Hr. apply (machine_inv Inv (fun _ φ _ => φ = idle) _ _ (replicate n idle) Hr); [done|].
  simpl. rewrite <- (length_replicate n nested_client) at 2.
  apply threads_ok_intro. intros t p [-> _]%lookup_replicate. apply wp_nested_client.
Qed.

(** A quiescent machine, thread by thread: it has returned and is idle, or it sleeps. *)
Lemma quiescent_cases c g t φ :
  threads_ok Inv (fun _ φ _ => φ = idle) c.1 c.2 g -> quiescent c -> g !! t = Some φ ->
  φ = idle \/ exists p, c.1 !! t = Some p /\ asleep c.2 t p = true.
Proof using Type.
  intros [Hlen Hok] Hq Hg. destruct (lookup_lt_is_Some_2 c.1 t) as [p Hp].
  { rewrite <- Hlen. by eapply lookup_lt_Some. }
  destruct (Hok t p Hp) as (φ' & Hg' & Hwp). replace φ' with φ in * by congruence.
  destruct (Hq t p Hp) as [Hf|Hs]; [left; by destruct p|right; eauto].
Qed.

End client.
