(* ===== verification/MutexRecursive.v ===== *)
(** Recursive and error-checking mutexes: mutual exclusion, wake-ups, ownership, the recursion
    counter and the results of every call, for any number of threads.

    The state word of such a mutex is [base + 4 * depth + s]: [base] holds the type and the
    shared flag, [depth] counts the nested locks beyond the first, [s] is the three-state
    word of Lock.v, whose invariant and transitions are reused on a view of the memory. *)

From S2P Require Import Prelude Atomic Futex Lock Mutex MutexNormal MutexClient.

(** Where a thread is. *)
Inductive rphase :=
| RIdle
| RQueued                        (* inside the futex wait *)
| RRetry                         (* woken up, about to try again *)
| RAcq                           (* took the word, has not stored its id yet *)
| ROwn (depth : Z) (crit : bool) (* owns the mutex, locked [depth + 1] times *)
| RRel                           (* cleared the owner, about to release the word *)
| RWake.                         (* released a contended word, about to wake a waiter *)

Definition lock_phase (φ : rphase) : phase :=
  match φ with
  | RIdle => Idle | RQueued => Queued | RRetry => Retry
  | RAcq | ROwn _ false | RRel => Own | ROwn _ true => Crit | RWake => Wake
  end.

Definition depth (φ : rphase) : Z := match φ with ROwn d _ => d | _ => 0 end.
Definition is_owner (φ : rphase) : bool := match φ with ROwn _ _ => true | _ => false end.

(** * The state word *)

Section recursive_word.
Context (mtype shared : Z).
Context (Hmtype : mtype = MUTEX_TYPE_BITS_RECURSIVE \/ mtype = MUTEX_TYPE_BITS_ERRORCHECK)
  (Hshared : shared = 0 \/ shared = MUTEX_SHARED_MASK).

Definition base : Z := Z.lor mtype shared.

Lemma base_eq : base = mtype + shared.
Proof using Hmtype Hshared.
  unfold base. destruct Hmtype as [-> | ->], Hshared as [-> | ->]; reflexivity.
Qed.

Record word_fields (w D s : Z) : Prop := {
  wf_type : Z.land w MUTEX_TYPE_MASK = mtype;
  wf_shared : Z.land w MUTEX_SHARED_MASK = shared;
  wf_pi : (w =? PI_MUTEX_STATE) = false;
  wf_destroyed : IsMutexDestroyed w = false;
  wf_uncontended : MUTEX_STATE_BITS_IS_LOCKED_UNCONTENDED w = (s =? 1);
  wf_contended : MUTEX_STATE_BITS_IS_LOCKED_CONTENDED w = (s =? 2);
  wf_zero : MUTEX_COUNTER_BITS_IS_ZERO w = (D =? 0);
  wf_overflow : MUTEX_COUNTER_BITS_WILL_OVERFLOW w = (D =? 2047)
}.

Lemma eqb_iff a b c d : (a = b <-> c = d) -> (a =? b) = (c =? d).
Proof. destruct (Z.eqb_spec a b), (Z.eqb_spec c d); tauto. Qed.

Lemma word_fields_ok D s : 0 <= D <= 2047 -> 0 <= s <= 2 -> word_fields (base + 4 * D + s) D s.
Proof using Hmtype Hshared.
  intros HD Hs. rewrite base_eq.
  assert (exists k j, mtype = 16384 * k /\ 1 <= k <= 2 /\ shared = 8192 * j /\ 0 <= j <= 1)
    as (k & j & Ek & Hk & Ej & Hj).
  { destruct Hmtype as [-> | ->], Hshared as [-> | ->];
      [exists 1, 0|exists 1, 1|exists 2, 0|exists 2, 1]; repeat split; discriminate. }
  rewrite Ek, Ej.
  assert (forall sh len, 0 <= sh -> 0 <= len -> forall w,
    Z.land w (FIELD_MASK sh len) = (w / 2 ^ sh) mod 2 ^ len * 2 ^ sh) as Hf.
  { intros sh len H1 H2 w. rewrite <- land_field by done. unfold FIELD_MASK, Z.ones.
    by rewrite (Z.shiftl_mul_pow2 1 len), Z.mul_1_l, Z.sub_1_r by done. }
  split; unfold MUTEX_STATE_BITS_IS_LOCKED_UNCONTENDED, MUTEX_STATE_BITS_IS_LOCKED_CONTENDED,
    MUTEX_COUNTER_BITS_IS_ZERO, MUTEX_COUNTER_BITS_WILL_OVERFLOW, IsMutexDestroyed,
    MUTEX_TYPE_MASK, MUTEX_SHARED_MASK, MUTEX_STATE_MASK;
    rewrite ?(Hf MUTEX_COUNTER_SHIFT MUTEX_COUNTER_LEN) by done; rewrite ?Hf by done;
    try (apply Z.eqb_neq; change PI_MUTEX_STATE with 49152; lia); try apply eqb_iff;
    cbv [MUTEX_TYPE_SHIFT MUTEX_TYPE_LEN MUTEX_SHARED_SHIFT MUTEX_STATE_SHIFT MUTEX_STATE_LEN
         MUTEX_COUNTER_SHIFT MUTEX_COUNTER_LEN];
    change MUTEX_STATE_BITS_LOCKED_UNCONTENDED with 1;
    change MUTEX_STATE_BITS_LOCKED_CONTENDED with 2;
    change MUTEX_COUNTER_MASK with 8188; 
    change (2 ^ 14) with 16384; change (2 ^ 13) with 8192; change (2 ^ 11) with 2048;
    change (2 ^ 2) with 4; change (2 ^ 1) with 2; change (2 ^ 0) with 1; 
    Z.div_mod_to_equations; lia.
Qed.

Lemma flip_contention D : MUTEX_STATE_BITS_FLIP_CONTENTION (base + 4 * D + 1) = base + 4 * D + 2.
Proof using Hmtype Hshared.
  assert (exists b, base = 4 * b) as [b ->].
  { unfold base. destruct Hmtype as [-> | ->], Hshared as [-> | ->];
      [exists 4096|exists 6144|exists 8192|exists 10240]; reflexivity. }
  unfold MUTEX_STATE_BITS_FLIP_CONTENTION.
  replace (4 * b + 4 * D + 1) with (4 * (b + D) + 1) by lia.
  change (Z.lxor MUTEX_STATE_BITS_LOCKED_CONTENDED MUTEX_STATE_BITS_LOCKED_UNCONTENDED) with 3.
  rewrite lxor_3_of_1. lia.
Qed.

Lemma base_states :
  Z.lor (Z.lor mtype shared) MUTEX_STATE_BITS_UNLOCKED = base /\
  Z.lor (Z.lor mtype shared) MUTEX_STATE_BITS_LOCKED_UNCONTENDED = base + 1 /\
  Z.lor (Z.lor mtype shared) MUTEX_STATE_BITS_LOCKED_CONTENDED = base + 2 /\
  4 <= base <= 40960.
Proof using Hmtype Hshared.
  unfold base. destruct Hmtype as [-> | ->], Hshared as [-> | ->]; repeat split; discriminate.
Qed.

End recursive_word.

(** * The invariant *)

Section recursive.
Context {K : FutexKernel} (sdk : Z) (mu : nat) (cs bad : loc) (mtype shared : Z).
Context (Hmtype : mtype = MUTEX_TYPE_BITS_RECURSIVE \/ mtype = MUTEX_TYPE_BITS_ERRORCHECK)
  (Hshared : shared = 0 \/ shared = MUTEX_SHARED_MASK)
  (Hcs : m_state mu <> cs /\ m_owner_tid mu <> cs)
  (Hbad : m_state mu <> bad /\ m_owner_tid mu <> bad /\ cs <> bad).

Abbreviation base := (base mtype shared).
Abbreviation st := (m_state mu).
Abbreviation ow := (m_owner_tid mu).
Abbreviation LInv := (tinv st cs (truthy shared) 0 1 2 no_const).

(** [s] is the three-state part of the word. *)
Record rinv (s : Z) (m : mem) (g : list rphase) : Prop := mk_rinv {
  ri_lock : LInv (set_word m st s) (lock_phase <$> g);
  ri_word : word m st = base + 4 * total depth g + s;
  ri_depth : forall t φ, g !! t = Some φ -> 0 <= depth φ <= 2047;
  ri_owner : forall t φ, g !! t = Some φ -> is_owner φ = true -> word m ow = tid_of t;
  ri_noowner : cnt is_owner g = 0 -> word m ow = 0;
  ri_bad : word m bad = 0;
  ri_len : Z.of_nat (length g) <= max_threads
}.

Definition RInv (m : mem) (g : list rphase) : Prop := exists s, rinv s m g.

#[export] Instance RInv_proper : Proper (mem_equiv ==> eq ==> iff) RInv.
Proof using Type.
  assert (forall m m' g, mem_equiv m m' -> RInv m g -> RInv m' g) as H.
  { intros m m' g He [s [H1 H2 H3 H4 H5 H6 H7]]. exists s. pose proof He as [Hw _].
    split; rewrite <- ?Hw; try done. by rewrite <- He. }
  intros m m' He g ? <-. split; apply H; [done|by symmetry].
Qed.

Lemma st_cs : st <> cs.
Proof using Hcs. apply Hcs. Qed.

Lemma rinv_s s m g : rinv s m g -> 0 <= s <= 2 /\ cnt is_own (lock_phase <$> g) = b2z (negb (s =? 0)).
Proof using Hcs.
  intros [[_ Hs Ho _ _ _ _ _] _ _ _ _ _ _]. simpl in *. rewrite decide_True in Hs, Ho by done.
  split; [lia|done].
Qed.

Lemma rinv_unique s m g t t' φ φ' :
  rinv s m g -> g !! t = Some φ -> g !! t' = Some φ' ->
  is_own (lock_phase φ) = true -> is_own (lock_phase φ') = true -> t = t'.
Proof using Hcs.
  intros HI Hg Hg' Ho Ho'. destruct (rinv_s s m g HI) as [_ Hc].
  apply (cnt_two is_own (lock_phase <$> g) t t' (lock_phase φ) (lock_phase φ')); try done.
  - destruct (negb (s =? 0)); simpl in *; lia.
  - by rewrite list_lookup_fmap, Hg.
  - by rewrite list_lookup_fmap, Hg'.
Qed.

(** The depth in the word is that of the thread that holds the mutex. *)
Lemma rinv_depth_own s m g t φ :
  rinv s m g -> g !! t = Some φ -> is_own (lock_phase φ) = true -> total depth g = depth φ /\ s <> 0.
Proof using Hcs.
  intros HI Hg Ho. split.
  - apply (total_single depth g t φ Hg). intros t' φ' Hg' Hne.
    destruct (is_own (lock_phase φ')) eqn:Ho'; [|by destruct φ' as [| | | |? []| |]].
    by destruct Hne; eapply rinv_unique.
  - intros ->. destruct (rinv_s 0 m g HI) as [_ Hc]. simpl in Hc.
    rewrite (cnt_zero_lookup is_own (lock_phase <$> g) t (lock_phase φ)) in Ho; try done.
    by rewrite list_lookup_fmap, Hg.
Qed.

Lemma rinv_depth_free m g : rinv 0 m g -> total depth g = 0.
Proof using Hcs.
  intros HI. destruct (rinv_s 0 m g HI) as [_ Hc]. simpl in Hc. apply total_zero.
  intros t φ Hg. assert (is_own (lock_phase φ) = false) as Ho.
  { apply (cnt_zero_lookup is_own (lock_phase <$> g) t); [done|]. by rewrite list_lookup_fmap, Hg. }
  by destruct φ as [| | | |? []| |].
Qed.

Lemma rinv_total s m g : rinv s m g -> 0 <= total depth g <= 2047.
Proof using Hcs.
  intros HI. destruct (rinv_s s m g HI) as [Hs Hc].
  destruct (Z.eq_dec s 0) as [->|Hs0]; [rewrite (rinv_depth_free m g HI); lia|].
  rewrite (proj2 (Z.eqb_neq s 0) Hs0) in Hc. simpl in Hc.
  destruct (cnt_pos is_own (lock_phase <$> g)) as (t & x & Hx & Ho); [lia|].
  rewrite list_lookup_fmap in Hx. destruct (g !! t) as [φ|] eqn:Hg; [|done]. injection Hx as <-.
  destruct (rinv_depth_own s m g t φ HI Hg Ho) as [-> _]. by eapply ri_depth.
Qed.

(** A step that does not change who owns the mutex. *)
Lemma rinv_step s m g t φ φ' s' m' :
  rinv s m g -> g !! t = Some φ ->
  LInv (set_word m' st s') (<[t:=lock_phase φ']> (lock_phase <$> g)) ->
  word m' st = base + 4 * (total depth g - depth φ + depth φ') + s' ->
  0 <= depth φ' <= 2047 -> is_owner φ' = is_owner φ -> word m' ow = word m ow ->
  word m' bad = word m bad ->
  rinv s' m' (<[t:=φ']> g).
Proof using Type.
  intros [H1 H2 H3 H4 H5 H6 H7] Hg HL Hw Hd Ho Ew Eb. pose proof (lookup_lt_Some _ _ _ Hg) as Hlt.
  split.
  - by rewrite list_fmap_insert.
  - by rewrite (total_insert depth g t φ φ' Hg).
  - intros t' x. destruct (decide (t' = t)) as [->|Hne].
    + rewrite list_lookup_insert_eq by done. by intros [= <-].
    + rewrite list_lookup_insert_ne by done. apply H3.
  - rewrite Ew. intros t' x. destruct (decide (t' = t)) as [->|Hne].
    + rewrite list_lookup_insert_eq by done. intros [= <-]. rewrite Ho. by apply H4.
    + rewrite list_lookup_insert_ne by done. apply H4.
  - rewrite (cnt_insert is_owner g t φ φ' Hg), Ho, Ew. intros Hc. apply H5. lia.
  - by rewrite Eb.
  - by rewrite length_insert.
Qed.

Lemma fmap_phase (g : list rphase) t φ : g !! t = Some φ -> (lock_phase <$> g) !! t = Some (lock_phase φ).
Proof. intros Hg. by rewrite list_lookup_fmap, Hg. Qed.

Lemma LInv_equiv m m' g : mem_equiv m m' -> LInv m' g -> LInv m g.
Proof using Type. intros He. apply (tinv_proper st cs (truthy shared) 0 1 2 no_const m m' He g g eq_refl). Qed.

(** A step that writes the state word. *)
Lemma rinv_word_step s m g t φ φ' s' v :
  rinv s m g -> g !! t = Some φ ->
  LInv (set_word (set_word m st s) st s') (<[t:=lock_phase φ']> (lock_phase <$> g)) ->
  v = base + 4 * (total depth g - depth φ + depth φ') + s' ->
  0 <= depth φ' <= 2047 -> is_owner φ' = is_owner φ ->
  rinv s' (set_word m st v) (<[t:=φ']> g).
Proof using Hbad.
  intros HI Hg HL Hv Hd Ho. destruct Hbad as (Hb1 & Hb2 & Hb3).
  apply (rinv_step s m g t φ φ'); try done; simpl.
  - apply (LInv_equiv _ _ _) with (2 := HL). split; simpl; [|done].
    intros l. by destruct (decide (l = st)).
  - by rewrite decide_True.
  - by rewrite decide_False.
  - by rewrite decide_False.
Qed.

Ltac rec_side :=
  try done; eauto using no_const_word, no_const_waiters, no_const_proper, fmap_phase, st_cs.

Ltac view_word := simpl; rewrite decide_True by done.

(** The compare-and-swap of the fast paths. *)
Lemma rinv_cas m g t :
  RInv m g -> g !! t = Some RIdle -> word m st = base ->
  RInv (set_word m st (base + 1)) (<[t:=RAcq]> g).
Proof using All.
  intros [s HI] Hg Hw. destruct (rinv_s s m g HI) as [Hs _]. pose proof (rinv_total s m g HI).
  pose proof (ri_word s m g HI). assert (s = 0) as -> by lia. exists 1.
  apply (rinv_word_step 0 m g t RIdle RAcq); rec_side; simpl; [|lia].
  apply tinv_cas; rec_side; [apply HI|by apply fmap_phase in Hg|by view_word].
Qed.

Lemma rinv_exchange s m g t φ :
  φ = RIdle \/ φ = RRetry -> rinv s m g -> g !! t = Some φ ->
  LInv (set_word (set_word m st s) st 2) (<[t:=if s =? 0 then Own else Idle]> (lock_phase <$> g)).
Proof using All.
  intros Hφ HI Hg. pose proof (ri_lock s m g HI) as HL. apply fmap_phase in Hg.
  replace (s =? 0) with (word (set_word m st s) st =? 0) by (by view_word).
  apply (tinv_exchange st cs (truthy shared) 0 1 2) with (φ := lock_phase φ); rec_side.
  destruct Hφ as [-> | ->]; [by left|by right].
Qed.

(** The compare-and-swap of the loop, to contended. *)
Lemma rinv_cas_contended m g t φ :
  φ = RIdle \/ φ = RRetry ->
  RInv m g -> g !! t = Some φ -> word m st = base ->
  RInv (set_word m st (base + 2)) (<[t:=RAcq]> g).
Proof using All.
  intros Hφ [s HI] Hg Hw. destruct (rinv_s s m g HI) as [Hs _]. pose proof (rinv_total s m g HI).
  pose proof (ri_word s m g HI). assert (s = 0) as -> by lia. exists 2.
  apply (rinv_word_step 0 m g t φ RAcq); try done;
    [|destruct Hφ as [-> | ->]; simpl; lia|by destruct Hφ as [-> | ->]].
  by apply (rinv_exchange 0 m g t φ).
Qed.

(** The compare-and-swap that marks a held mutex contended. *)
Lemma rinv_flip m g t φ D :
  φ = RIdle \/ φ = RRetry ->
  RInv m g -> g !! t = Some φ -> word m st = base + 4 * D + 1 ->
  RInv (set_word m st (base + 4 * D + 2)) (<[t:=RIdle]> g).
Proof using All.
  intros Hφ [s HI] Hg Hw. destruct (rinv_s s m g HI) as [Hs _].
  pose proof (ri_word s m g HI). assert (s = 1) as -> by lia. exists 2.
  apply (rinv_word_step 1 m g t φ RIdle); try done;
    [|destruct Hφ as [-> | ->]; simpl; lia|by destruct Hφ as [-> | ->]].
  by apply (rinv_exchange 1 m g t φ).
Qed.

(** A thread that was woken up and sees the word contended owes nothing any more. *)
Lemma rinv_relax m g t D :
  RInv m g -> g !! t = Some RRetry -> word m st = base + 4 * D + 2 -> RInv m (<[t:=RIdle]> g).
Proof using All.
  intros [s HI] Hg Hw. destruct (rinv_s s m g HI) as [Hs _].
  pose proof (ri_word s m g HI). assert (s = 2) as -> by lia. exists 2.
  apply (rinv_step 2 m g t RRetry RIdle); rec_side; simpl; [|lia].
  pose proof (rinv_exchange 2 m g t RRetry (or_intror eq_refl) HI Hg) as HL.
  apply (LInv_equiv _ _ _) with (2 := HL). split; simpl; [|done].
  intros l. by destruct (decide (l = st)).
Qed.

(** A step in the kernel's queue. *)
Lemma rinv_queue_step s m g t φ φ' q :
  rinv s m g -> g !! t = Some φ ->
  LInv (set_waiters (set_word m st s) st (truthy shared) q)
    (<[t:=lock_phase φ']> (lock_phase <$> g)) ->
  depth φ' = depth φ -> is_owner φ' = is_owner φ ->
  rinv s (set_waiters m st (truthy shared) q) (<[t:=φ']> g).
Proof using Type.
  intros HI Hg HL Hd Ho. pose proof (ri_depth s m g HI t φ Hg).
  apply (rinv_step s m g t φ φ'); try done; [|lia].
  simpl. rewrite (ri_word s m g HI). lia.
Qed.

Lemma rinv_enqueue m g t q D :
  RInv m g -> g !! t = Some RIdle -> word m st = base + 4 * D + 2 ->
  q ≡ₚ t :: waiters m st (truthy shared) ->
  RInv (set_waiters m st (truthy shared) q) (<[t:=RQueued]> g).
Proof using All.
  intros [s HI] Hg Hw Hq. destruct (rinv_s s m g HI) as [Hs _].
  pose proof (ri_word s m g HI). assert (s = 2) as -> by lia. exists 2.
  apply (rinv_queue_step 2 m g t RIdle RQueued); try done.
  apply tinv_enqueue; rec_side; [apply HI|by apply fmap_phase in Hg|by view_word].
Qed.

Lemma rinv_woken m g t :
  RInv m g -> g !! t = Some RQueued -> t ∉ waiters m st (truthy shared) -> RInv m (<[t:=RRetry]> g).
Proof using All.
  intros [s HI] Hg Hni. exists s. pose proof (ri_word s m g HI) as Hw.
  apply (rinv_step s m g t RQueued RRetry); try done; [|simpl; lia].
  apply tinv_woken; rec_side; [apply HI|by apply fmap_phase in Hg].
Qed.

Lemma rinv_giveup m g t :
  RInv m g -> g !! t = Some RQueued -> t ∈ waiters m st (truthy shared) ->
  RInv (set_waiters m st (truthy shared) (filter (fun t' => t' <> t) (waiters m st (truthy shared))))
    (<[t:=RIdle]> g).
Proof using All.
  intros [s HI] Hg Hin. exists s. apply (rinv_queue_step s m g t RQueued RIdle); try done.
  apply (tinv_giveup st cs (truthy shared) 0 1 2) with (m := set_word m st s); rec_side;
    [apply HI|by apply fmap_phase in Hg].
Qed.

Lemma rinv_wake m g t q :
  RInv m g -> g !! t = Some RWake -> sublist q (waiters m st (truthy shared)) ->
  Z.of_nat (length (waiters m st (truthy shared))) - Z.of_nat (length q)
    = Z.min 1 (Z.of_nat (length (waiters m st (truthy shared)))) ->
  RInv (set_waiters m st (truthy shared) q) (<[t:=RIdle]> g).
Proof using All.
  intros [s HI] Hg Hsub Hlen. exists s. apply (rinv_queue_step s m g t RWake RIdle); try done.
  apply tinv_wake; rec_side; [apply HI|by apply fmap_phase in Hg].
Qed.

(** The owner changes the recursion counter. *)
Lemma rinv_count m g t d d' crit :
  RInv m g -> g !! t = Some (ROwn d crit) -> 0 <= d' <= 2047 ->
  RInv (set_word m st (word m st + 4 * (d' - d))) (<[t:=ROwn d' crit]> g).
Proof using All.
  intros [s HI] Hg Hd. exists s. pose proof (ri_word s m g HI) as Hw.
  apply (rinv_word_step s m g t (ROwn d crit) (ROwn d' crit)); try done; [|simpl; lia].
  replace (lock_phase (ROwn d' crit)) with (lock_phase (ROwn d crit)) by done.
  rewrite list_insert_id by (by apply fmap_phase).
  apply LInv_equiv with (2 := ri_lock s m g HI). split; simpl; [|done].
  intros l. by destruct (decide (l = st)).
Qed.

(** The release of the word. *)
Lemma rinv_release m g t D s :
  RInv m g -> g !! t = Some RRel -> word m st = base + 4 * D + s -> 0 <= s <= 2 ->
  RInv (set_word m st base) (<[t:=if s =? 2 then RWake else RIdle]> g).
Proof using All.
  intros [s' HI] Hg Hw Hs. destruct (rinv_s s' m g HI) as [Hs' _].
  pose proof (ri_word s' m g HI). assert (s' = s) as -> by lia. exists 0.
  destruct (rinv_depth_own s m g t RRel HI Hg eq_refl) as [HD _]. simpl in HD.
  apply (rinv_word_step s m g t RRel); try done; try (destruct (s =? 2); simpl; lia).
  - replace (lock_phase _) with (if word (set_word m st s) st =? 2 then Wake else Idle)
      by (view_word; by destruct (s =? 2)).
    apply (tinv_release st cs (truthy shared) 0 1 2); rec_side; [apply HI|by apply fmap_phase in Hg].
Qed.

Lemma LInv_frame s m g l v : l <> st -> l <> cs -> LInv (set_word m st s) g -> LInv (set_word (set_word m l v) st s) g.
Proof using Type.
  intros Hl Hl' [H1 H2 H3 H4 H0 H5 H6 H7]. split; simpl in *;
    repeat match goal with H : context [decide (st = st)] |- _ => rewrite decide_True in H by done end;
    repeat first [rewrite decide_True by done | rewrite decide_False by done]; try done.
  destruct (decide (cs = st)); [done|]. by rewrite decide_False.
Qed.

Lemma owner_unique s m g t t' φ φ' :
  rinv s m g -> g !! t = Some φ -> is_own (lock_phase φ) = true ->
  g !! t' = Some φ' -> is_owner φ' = true -> t' = t.
Proof using Hcs.
  intros HI Hg Ho Hg' Ho'. eapply (rinv_unique s m g t' t); try done.
  by destruct φ' as [| | | |? []| |].
Qed.

(** The thread that took the word stores its id; the owner clears it before it releases. *)
Lemma rinv_owner_step m g t φ φ' v :
  RInv m g -> g !! t = Some φ -> lock_phase φ = Own -> lock_phase φ' = Own ->
  depth φ = 0 -> depth φ' = 0 ->
  v = (if is_owner φ' then tid_of t else 0) ->
  RInv (set_word m ow v) (<[t:=φ']> g).
Proof using All.
  intros [s HI] Hg Hφ Hφ' Hd Hd' Hv. exists s. pose proof HI as [H1 H2 H3 H4 H5 H6 H7].
  destruct Hbad as (Hb1 & Hb2 & Hb3), Hcs as [Hc1 Hc2].
  pose proof (lookup_lt_Some _ _ _ Hg) as Hlt.
  assert (is_own (lock_phase φ) = true) as Ho by (by rewrite Hφ).
  split; simpl; try (by rewrite length_insert); try (by rewrite decide_False).
  - apply LInv_frame; [done..|]. rewrite list_fmap_insert, Hφ', <- Hφ, list_insert_id; [done|].
    by apply fmap_phase.
  - rewrite (total_insert depth g t φ φ' Hg), decide_False by done. lia.
  - intros t' x. destruct (decide (t' = t)) as [->|Hne].
    + rewrite list_lookup_insert_eq by done. intros [= <-]. lia.
    + rewrite list_lookup_insert_ne by done. apply H3.
  - rewrite decide_True by done. intros t' x. destruct (decide (t' = t)) as [->|Hne].
    + rewrite list_lookup_insert_eq by done. intros [= <-] Hx. by rewrite Hv, Hx.
    + rewrite list_lookup_insert_ne by done. intros Hx Hox.
      destruct Hne. by eapply owner_unique.
  - rewrite decide_True by done. intros Hc. rewrite Hv. destruct (is_owner φ') eqn:Eo; [|done].
    rewrite (cnt_zero_lookup is_owner _ t φ' Hc) in Eo; [done|]. by apply list_lookup_insert_eq.
Qed.

(** The client enters and leaves its critical section. *)
Lemma rinv_cs_step s m g t d crit v :
  rinv s m g -> g !! t = Some (ROwn d crit) ->
  LInv (set_word (set_word m st s) cs v) (<[t:=lock_phase (ROwn d (negb crit))]> (lock_phase <$> g)) ->
  rinv s (set_word m cs v) (<[t:=ROwn d (negb crit)]> g).
Proof using All.
  intros HI Hg HL. destruct Hbad as (Hb1 & Hb2 & Hb3), Hcs as [Hc1 Hc2].
  pose proof (ri_depth s m g HI t _ Hg) as Hd. pose proof (ri_word s m g HI) as Hw.
  apply (rinv_step s m g t (ROwn d crit)); try done; simpl in *;
    repeat rewrite decide_False by done; try done; [|lia].
  apply LInv_equiv with (2 := HL). split; simpl; [|done].
  intros l. destruct (decide (l = st)) as [->|]; [|done]. by rewrite decide_False.
Qed.

Lemma rinv_enter m g t d :
  RInv m g -> g !! t = Some (ROwn d false) -> RInv (set_word m cs (word m cs + 1)) (<[t:=ROwn d true]> g).
Proof using All.
  intros [s HI] Hg. exists s. apply (rinv_cs_step s m g t d false); [done..|].
  replace (word m cs) with (word (set_word m st s) cs) by (simpl; rewrite decide_False; [done|apply not_eq_sym, Hcs]).
  apply tinv_enter; rec_side; [apply HI|by apply fmap_phase in Hg].
Qed.

Lemma rinv_leave m g t d :
  RInv m g -> g !! t = Some (ROwn d true) -> RInv (set_word m cs (word m cs - 1)) (<[t:=ROwn d false]> g).
Proof using All.
  intros [s HI] Hg. exists s. apply (rinv_cs_step s m g t d true); [done..|].
  replace (word m cs) with (word (set_word m st s) cs) by (simpl; rewrite decide_False; [done|apply not_eq_sym, Hcs]).
  apply tinv_leave; rec_side; [apply HI|by apply fmap_phase in Hg].
Qed.

(** * The routines *)

(** What a thread in phase [φ] knows of a state word [base + 4 * D + s] it reads. *)
Definition seen_ok (φ : rphase) (D s : Z) : Prop :=
  0 <= D <= 2047 /\ 0 <= s <= 2 /\ (s = 0 -> D = 0) /\
  (is_own (lock_phase φ) = true -> D = depth φ /\ s <> 0).

Lemma rinv_seen m g t φ :
  RInv m g -> g !! t = Some φ -> exists D s, word m st = base + 4 * D + s /\ seen_ok φ D s.
Proof using Hcs.
  intros [s HI] Hg. exists (total depth g), s. split; [apply HI|].
  split; [by eapply rinv_total|]. split; [by eapply rinv_s|]. split.
  - intros ->. by eapply rinv_depth_free.
  - intros Ho. by eapply rinv_depth_own.
Qed.

(** Reading the word contended relieves a thread that was woken up. *)
Definition relax (s : Z) (φ : rphase) : rphase :=
  match φ with RRetry => if s =? 2 then RIdle else RRetry | _ => φ end.

Lemma rinv_relax' m g t φ D s :
  RInv m g -> g !! t = Some φ -> word m st = base + 4 * D + s -> RInv m (<[t:=relax s φ]> g).
Proof using All.
  intros HI Hg Hw. destruct φ; simpl; try (by rewrite list_insert_id).
  destruct (Z.eqb_spec s 2) as [->|]; [by eapply rinv_relax|by rewrite list_insert_id].
Qed.

Lemma wp_state_load t (Q : Z -> rphase -> Prop) φ :
  (forall D s, seen_ok φ D s -> Q (base + 4 * D + s) (relax s φ)) ->
  wp RInv (atomic_load st) t Q φ.
Proof using All.
  intros HQ. apply (wp_load RInv). intros m g HI Hg.
  destruct (rinv_seen m g t φ HI Hg) as (D & s & Hw & Hs). exists (relax s φ). rewrite Hw.
  split; [by eapply rinv_relax'|auto].
Qed.

Lemma wp_owner_load t (Q : Z -> rphase -> Prop) φ :
  (forall v, (tid_of t =? v) = is_owner φ -> Q v φ) -> wp RInv (atomic_load ow) t Q φ.
Proof using All.
  intros HQ. apply (wp_load RInv). intros m g [s HI] Hg. exists φ. rewrite list_insert_id by done.
  split; [by exists s|]. apply HQ. pose proof (ri_len s m g HI) as Hlen.
  assert (Z.of_nat t < max_threads) as Ht by (apply lookup_lt_Some in Hg; lia).
  pose proof (tid_of_pos t Ht). destruct (is_owner φ) eqn:Ho.
  { apply Z.eqb_eq. symmetry. by eapply (ri_owner s). }
  apply Z.eqb_neq. intros E. destruct (Z.eq_dec (cnt is_owner g) 0) as [E0|E0].
  - rewrite (ri_noowner s m g HI E0) in E. lia.
  - destruct (cnt_pos is_owner g) as (t' & φ' & Hg' & Ho'); [pose proof (cnt_nonneg is_owner g); lia|].
    rewrite (ri_owner s m g HI t' φ' Hg' Ho') in E.
    apply tid_of_inj in E as <-; [congruence|done|]. apply lookup_lt_Some in Hg'. lia.
Qed.

(** The thread that took the word becomes the owner. *)
Lemma wp_become_owner {R} (r : R) t Q :
  Q r (ROwn 0 false) -> wp RInv (atomic_store ow (tid_of t) ;; Ret r) t Q RAcq.
Proof using All.
  intros HQ. apply wp_bind, wp_store. intros m g HI Hg. exists (ROwn 0 false).
  split; [by eapply (rinv_owner_step m g t RAcq)|by apply wp_ret].
Qed.

(** The end of a locking call by a thread that did not own the mutex. *)
Definition racquired (may_fail : Z -> bool) (r : Z) (φ : rphase) : Prop :=
  (r =? 0) || may_fail r = true /\ φ = if r =? 0 then ROwn 0 false else RIdle.

(** What a thread in the locking loop may assume of the word it saw. *)
Definition loop_ok (old_state : Z) (φ : rphase) : Prop :=
  (φ = RIdle \/ φ = RRetry) /\
  exists D s, old_state = base + 4 * D + s /\ 0 <= D <= 2047 /\ 0 <= s <= 2 /\
    (s = 0 -> D = 0) /\ (s = 2 -> φ = RIdle).

Lemma loop_ok_seen φ D s :
  φ = RIdle \/ φ = RRetry -> seen_ok φ D s -> loop_ok (base + 4 * D + s) (relax s φ).
Proof.
  intros Hφ (HD & Hs & H0 & _). split.
  - destruct Hφ as [-> | ->]; simpl; [by left|]. destruct (s =? 2); auto.
  - exists D, s. repeat split; try lia. intros ->. by destruct Hφ as [-> | ->].
Qed.

(** A compare-and-swap in the loop. *)
Lemma wp_loop_cas weak t (Q : bool * Z -> rphase -> Prop) φ φ' e d :
  φ = RIdle \/ φ = RRetry ->
  (forall m g, RInv m g -> g !! t = Some φ -> word m st = e -> RInv (set_word m st d) (<[t:=φ']> g)) ->
  Q (true, e) φ' -> (forall v s, loop_ok v (relax s φ) -> Q (false, v) (relax s φ)) ->
  wp RInv (act (Cas weak st e d)) t Q φ.
Proof using All.
  intros Hφ Hok HQ Hno. apply wp_act. intros m g HI Hg [b seen] m' [E H]. simpl in *. subst seen.
  destruct H as [(-> & Hw & ->)|(-> & _ & ->)].
  - exists φ'. split; [auto|]. by rewrite Hw.
  - destruct (rinv_seen m g t φ HI Hg) as (D & s & Hw & Hs). exists (relax s φ). rewrite Hw.
    split; [by eapply rinv_relax'|]. apply Hno. by apply loop_ok_seen.
Qed.

Lemma wp_mutex_lock_loop rt ts old t φ :
  loop_ok old φ ->
  wp RInv (mutex_lock_loop mu mtype shared (tid_of t) rt ts old) t (racquired (timeout_result ts)) φ.
Proof using All.
  intros HJ. apply (wp_loop RInv loop_ok); [done|]. clear old φ HJ. intros old φ (Hφ & D & s & -> & HD & Hs & H0 & H2).
  destruct (base_states mtype shared Hmtype Hshared) as (Eu & _ & Ec & Hb). rewrite Eu, Ec.
  assert (forall D', wp RInv
    (result <- check_timespec_p ts true ;;
     if negb (result =? 0) then Ret (inr result) else
     w <- RecursiveOrErrorcheckMutexWait mu shared (base + 4 * D' + 2) rt ts ;;
     if w =? - ETIMEDOUT then Ret (inr ETIMEDOUT) else
     old_state <- atomic_load st ;; Ret (inl old_state)) t
    (fun r φ' => match r with inl s' => loop_ok s' φ' | inr x => racquired (timeout_result ts) x φ' end) RIdle) as Hwait.
  { intros D'. apply wp_bind, wp_check_timespec_is. intros r Hcheck. destruct (Z.eqb_spec r 0) as [->|Hr].
    2: { apply wp_ret. unfold racquired. rewrite (proj2 (Z.eqb_neq r 0) Hr). split; [by apply timeout_result_check|done]. }
    assert (forall φ, φ = RIdle \/ φ = RRetry -> wp RInv (old <- atomic_load st ;; Ret (inl old)) t
      (fun r φ' => match r with inl s' => loop_ok s' φ' | inr x => racquired (timeout_result ts) x φ' end) φ) as Hload.
    { intros φ' Hφ'. apply wp_bind, wp_state_load. intros D1 s1 H1. apply wp_ret. by apply loop_ok_seen. }
    assert (is_Some ts -> racquired (timeout_result ts) ETIMEDOUT RIdle) as Hlate by (intros Hts; split; [by apply timeout_result_late|done]).
    apply wp_bind.
    apply (wp_futex_wait_ex RInv _ _ _ _ _ _ _ RIdle RQueued RRetry RIdle); try (intros Hts; apply wp_ret; by apply Hlate).
    - apply Hload. by left.
    - intros m g q HI Hg Hw Hq. by eapply rinv_enqueue.
    - intros m g HI Hg Hni. split; [by apply rinv_woken|]. apply Hload. by right.
    - intros m g HI Hg Hin. split; [by apply rinv_giveup|]. split; [apply Hload; by left|].
      intros Hts. apply wp_ret. by apply Hlate. }
  rewrite (wf_uncontended _ _ _ _ _ (word_fields_ok mtype shared Hmtype Hshared D s HD Hs)).
  destruct (Z.eqb_spec (base + 4 * D + s) base) as [E|Hne].
  - apply wp_bind, (wp_loop_cas true t _ φ RAcq); [done|..].
    + intros m g HI Hg Hw. eapply rinv_cas_contended; eauto. lia.
    + by apply wp_become_owner.
    + intros v s' Hv. by apply wp_ret.
  - destruct (Z.eqb_spec s 1) as [->|Hs1].
    + rewrite (flip_contention mtype shared Hmtype Hshared D).
      apply wp_bind, (wp_loop_cas true t _ φ RIdle); [done|..].
      * intros m g HI Hg Hw. by eapply rinv_flip.
      * apply Hwait.
      * intros v s' Hv. by apply wp_ret.
    + assert (s = 2) as -> by lia. rewrite (H2 eq_refl). apply Hwait.
Qed.

(** A call by the owner: an error-checking mutex refuses with [err]; a recursive mutex counts,
    up to 2048 nested locks. *)
Definition relock_result (err d : Z) : Z :=
  if mtype =? MUTEX_TYPE_BITS_ERRORCHECK then err else if d =? 2047 then EAGAIN else 0.

Definition relocked (err d : Z) (crit : bool) (r : Z) (φ : rphase) : Prop :=
  r = relock_result err d /\ φ = ROwn (if r =? 0 then d + 1 else d) crit.

Lemma wp_RecursiveIncrement t d s crit :
  mtype <> MUTEX_TYPE_BITS_ERRORCHECK -> 0 <= d <= 2047 -> 0 <= s <= 2 ->
  forall err, wp RInv (RecursiveIncrement mu (base + 4 * d + s)) t (relocked err d crit) (ROwn d crit).
Proof using All.
  intros Hm Hd Hs err. unfold RecursiveIncrement, relocked, relock_result.
  rewrite (wf_overflow _ _ _ _ _ (word_fields_ok mtype shared Hmtype Hshared d s Hd Hs)).
  rewrite (proj2 (Z.eqb_neq _ _) Hm). destruct (Z.eqb_spec d 2047) as [->|Hne]; [by apply wp_ret|].
  apply wp_bind, wp_act. intros m g HI Hg x m' [_ ->]. exists (ROwn (d + 1) crit). split.
  - destruct (rinv_seen m g t _ HI Hg) as (D' & s' & Hw & HD' & Hs' & _ & Ho).
    destruct (base_states mtype shared Hmtype Hshared) as (_ & _ & _ & Hb).
    replace (wrapU _ _) with (word m st + 4 * (d + 1 - d)); [apply rinv_count; [done..|lia]|].
    change MUTEX_COUNTER_BITS_ONE with 4. unfold wrapU. change (2 ^ 16) with 65536.
    rewrite Z.mod_small; lia.
  - by apply wp_ret.
Qed.

Lemma type_not_normal : (mtype =? MUTEX_TYPE_BITS_NORMAL) = false.
Proof using Hmtype. destruct Hmtype as [-> | ->]; reflexivity. Qed.

(** The fields of a word the thread has read. *)
Ltac fields H :=
  let HD := fresh "HD" in let Hs := fresh "Hs" in let H0 := fresh "H0" in let Ho := fresh "Ho" in
  let F := fresh "F" in
  destruct H as (HD & Hs & H0 & Ho);
  match type of HD with 0 <= ?D <= 2047 => match type of Hs with 0 <= ?s <= 2 =>
    pose proof (word_fields_ok mtype shared Hmtype Hshared D s HD Hs) as F;
    rewrite ?(wf_type _ _ _ _ _ F), ?(wf_shared _ _ _ _ _ F), ?type_not_normal,
      ?(wf_pi _ _ _ _ _ F), ?(wf_destroyed _ _ _ _ _ F), ?(wf_zero _ _ _ _ _ F)
  end end.

Lemma wp_MutexLock_idle rt ts t : wp RInv (MutexLockWithTimeout mu rt ts) t (racquired (timeout_result ts)) RIdle.
Proof using All.
  apply wp_bind, wp_state_load. intros D s H. cbv beta zeta. pose proof H as Hseen. fields H.
  destruct (base_states mtype shared Hmtype Hshared) as (-> & -> & _ & Hb). simpl relax.
  apply wp_bind, wp_tid, wp_bind, wp_owner_load. intros v ->. simpl is_owner. cbv iota.
  destruct (Z.eqb_spec (base + 4 * D + s) base) as [E|Hne].
  - apply wp_bind, (wp_loop_cas false t _ RIdle RAcq); [by left|..].
    + intros m g HI Hg Hw. apply rinv_cas; [done..|lia].
    + by apply wp_become_owner.
    + intros v' s' Hv'. by apply wp_mutex_lock_loop.
  - apply wp_mutex_lock_loop. apply (loop_ok_seen RIdle); [by left|done].
Qed.

Lemma wp_MutexLock_own rt ts t d crit :
  wp RInv (MutexLockWithTimeout mu rt ts) t (relocked EDEADLK d crit) (ROwn d crit).
Proof using All.
  apply wp_bind, wp_state_load. intros D s H. cbv beta zeta. fields H.
  destruct Ho as [-> _]; [by destruct crit|]. simpl depth in *. simpl relax.
  apply wp_bind, wp_tid, wp_bind, wp_owner_load. intros v ->. simpl is_owner. cbv iota.
  destruct (Z.eqb_spec mtype MUTEX_TYPE_BITS_ERRORCHECK) as [E|Hne];
    [|by apply wp_RecursiveIncrement].
  apply wp_ret. split; [|done]. unfold relock_result. by rewrite E.
Qed.

(** The results of locking, by a thread that owns nothing and by the owner. *)
Definition locks (p : prog Z) (may_fail : Z -> bool) (err : Z) : Prop :=
  forall t, wp RInv p t (racquired may_fail) RIdle /\
    forall d crit, wp RInv p t (relocked err d crit) (ROwn d crit).

Lemma locks_timedlock rt ts : locks (__pthread_mutex_timedlock sdk mu rt ts) (timeout_result ts) EDEADLK.
Proof using All.
  intros t; split; [|intros d crit]; apply wp_bind, wp_state_load; intros D s H; cbv beta zeta;
    fields H; apply wp_bind, wp_ret; [apply wp_MutexLock_idle|apply wp_MutexLock_own].
Qed.

Lemma locks_lock : locks (pthread_mutex_lock sdk mu) (timeout_result None) EDEADLK.
Proof using All.
  intros t; split; [|intros d crit]; apply wp_bind, wp_state_load; intros D s H; cbv beta zeta;
    fields H; apply wp_bind, wp_ret; [apply wp_MutexLock_idle|apply wp_MutexLock_own].
Qed.

Lemma locks_trylock : locks (pthread_mutex_trylock sdk mu) (fun r => r =? EBUSY) EBUSY.
Proof using All.
  destruct (base_states mtype shared Hmtype Hshared) as (Eu & El & _ & Hb).
  intros t; split; [|intros d crit]; apply wp_bind, wp_state_load; intros D s H; cbv beta zeta;
    fields H; apply wp_bind, wp_tid, wp_bind, wp_owner_load; intros v ->; simpl is_owner; cbv iota.
  - rewrite Eu, El. apply wp_bind, (wp_loop_cas false t _ RIdle RAcq); [by left|..].
    + intros m g HI Hg Hw. by apply rinv_cas.
    + by apply wp_become_owner.
    + intros v' s' _. by apply wp_ret.
  - destruct Ho as [-> _]; [by destruct crit|].
    destruct (Z.eqb_spec mtype MUTEX_TYPE_BITS_ERRORCHECK) as [E|Hne];
      [|by apply wp_RecursiveIncrement].
    apply wp_ret. split; [|done]. unfold relock_result. by rewrite E.
Qed.

Lemma wp_unlock_idle t : wp RInv (pthread_mutex_unlock sdk mu) t (fun r φ => r = EPERM /\ φ = RIdle) RIdle.
Proof using All.
  apply wp_bind, wp_state_load. intros D s H. cbv beta zeta. fields H.
  apply wp_bind, wp_tid, wp_bind, wp_owner_load. intros v ->. by apply wp_ret.
Qed.

Lemma wp_unlock_own t d crit :
  (d = 0 -> crit = false) ->
  wp RInv (pthread_mutex_unlock sdk mu) t
    (fun r φ => r = 0 /\ φ = if d =? 0 then RIdle else ROwn (d - 1) crit) (ROwn d crit).
Proof using All.
  intros Hcrit. destruct (base_states mtype shared Hmtype Hshared) as (Eu & _ & _ & Hb).
  apply wp_bind, wp_state_load. intros D s H. cbv beta zeta. fields H.
  destruct Ho as [-> _]; [by destruct crit|]. simpl depth in *. simpl relax.
  apply wp_bind, wp_tid, wp_bind, wp_owner_load. intros v ->. simpl is_owner. simpl negb. cbv iota.
  destruct (Z.eqb_spec d 0) as [->|Hd]; simpl negb; cbv iota.
  - rewrite (Hcrit eq_refl). apply wp_bind, wp_store. intros m g HI Hg. exists RRel.
    split; [by eapply (rinv_owner_step m g t (ROwn 0 false))|]. rewrite Eu.
    apply wp_bind, wp_act. clear m g HI Hg. intros m g HI Hg x m' [-> ->].
    destruct (rinv_seen m g t _ HI Hg) as (D' & s' & Hw & HD' & Hs' & _ & Ho).
    exists (if s' =? 2 then RWake else RIdle). split; [by eapply rinv_release|].
    rewrite Hw, (wf_contended _ _ _ _ _ (word_fields_ok mtype shared Hmtype Hshared D' s' HD' Hs')).
    destruct (s' =? 2); [|by apply wp_ret].
    apply wp_bind, (wp_futex_wake_ex RInv _ _ _ _ _ RWake RIdle); [done| |intros r; by apply wp_ret].
    intros m1 g1 q HI1 Hg1 Hsub Hlen. by apply rinv_wake with (t := t).
  - apply wp_bind, wp_act. intros m g HI Hg x m' [_ ->]. exists (ROwn (d - 1) crit).
    split; [|by apply wp_ret].
    destruct (rinv_seen m g t _ HI Hg) as (D' & s' & Hw & HD' & Hs' & _ & Ho).
    destruct Ho as [-> _]; [by destruct crit|]. simpl depth in *.
    replace (wrapU _ _) with (word m st + 4 * (d - 1 - d)); [apply rinv_count; [done..|lia]|].
    change MUTEX_COUNTER_BITS_ONE with 4. unfold wrapU. change (2 ^ 16) with 65536.
    rewrite Z.mod_small; lia.
Qed.

(** * The contract *)

Definition recursive_relock_ok (c : lock_call) (d r : Z) : bool :=
  r =? relock_result (match c with CallTrylock => EBUSY | _ => EDEADLK end) d.

#[export] Instance recursive_contract ts :
  MutexContract sdk mu cs ts (first_result ts) recursive_relock_ok RInv RIdle ROwn.
Proof using All.
  assert (forall c, locks (run_lock_call sdk mu ts c)
    (match c with CallLock => timeout_result None | CallTrylock => fun r => r =? EBUSY | CallTimedlock _ => timeout_result ts end)
    (match c with CallTrylock => EBUSY | _ => EDEADLK end)) as HL.
  { intros []; [apply locks_lock|apply locks_trylock|apply locks_timedlock]. }
  split.
  - intros c t. by apply wp_mono with (2 := proj1 (HL c t)); destruct c.
  - intros c t d _. eapply wp_mono with (2 := proj2 (HL c t) d true). intros r φ [Hr ->].
    split; [|done]. by apply Z.eqb_eq.
  - apply wp_unlock_idle.
  - intros t. by apply (wp_unlock_own t 0 false).
  - intros t d Hd. eapply wp_mono with (2 := wp_unlock_own t d true ltac:(lia)).
    by rewrite (proj2 (Z.eqb_neq d 0)) by lia.
  - intros m g t. apply rinv_enter.
  - intros m g t. apply rinv_leave.
Qed.

Definition recursive_start (m : mem) : Prop :=
  word m st = base /\ word m ow = 0 /\ word m cs = 0 /\ word m bad = 0 /\
  forall l sh, waiters m l sh = [].

Lemma recursive_start_inv n m :
  Z.of_nat n <= max_threads -> recursive_start m -> RInv m (replicate n RIdle).
Proof using All.
  intros Hn (Hst & How & Hc & Hb & Hq).
  exists 0. split; rewrite ?fmap_replicate, ?length_replicate, ?total_replicate by done; try done; try lia;
    try (by intros t φ [-> _]%lookup_replicate).
  split; simpl; rewrite ?cnt_replicate by done; rewrite ?Hq, ?decide_True by done; try done.
  - by left.
  - by rewrite decide_False by (apply not_eq_sym, Hcs).
  - apply NoDup_nil_2.
  - intros t Hin. by apply not_elem_of_nil in Hin.
Qed.

Lemma rinv_asleep m g t p :
  RInv m g -> asleep m t p = true -> g !! t = Some RQueued /\ (t ∈ waiters m st (truthy shared)).
Proof using All.
  intros [s HI] Hs.
  destruct (tinv_asleep st cs (truthy shared) 0 1 2 no_const (set_word m st s) (lock_phase <$> g) t p)
    as [Hg Hin]; [apply HI|done|]. split; [|done].
  rewrite list_lookup_fmap in Hg. by destruct (g !! t) as [[| | | |? []| |]|].
Qed.

Lemma recursive_quiet c g :
  RInv c.2 g -> threads_ok RInv (fun _ φ _ => φ = RIdle) c.1 c.2 g ->
  quiescent c -> forall t p, c.1 !! t = Some p -> finished p = true.
Proof using All.
  intros HI Hok Hquiet.
  assert (forall t φ, (lock_phase <$> g) !! t = Some φ ->
    φ = Idle \/ (φ = Queued /\ t ∈ waiters c.2 st (truthy shared))) as Hall.
  { intros t φ Hg. rewrite list_lookup_fmap in Hg.
    destruct (g !! t) as [φ1|] eqn:Hg1; [|done]. injection Hg as <-.
    destruct (quiescent_cases RInv RIdle c g t φ1 Hok Hquiet Hg1) as [->|(p & Hp & Hs)]; [by left|right].
    destruct (rinv_asleep c.2 g t p HI Hs) as [Hg2 Hin]. split; [|done].
    replace φ1 with RQueued by congruence. done. }
  intros t p Hp. destruct (Hquiet t p Hp) as [Hf|Hs]; [done|exfalso].
  destruct (rinv_asleep c.2 g t p HI Hs) as [Hg' _]. destruct HI as [s HI].
  assert (Queued = Idle) as [=].
  apply (tinv_quiet st cs (truthy shared) 0 1 2 ltac:(done) ltac:(done) ltac:(done) st_cs no_const
    (no_const_word mu cs) (no_const_waiters mu shared)
    (set_word c.2 st s) (lock_phase <$> g)) with (t := t); [apply HI|apply Hall|].
  by apply (fmap_phase g t RQueued).
Qed.

End recursive.

(** C23: recursive and error-checking mutexes, private or shared.  Threads lock (with lock,
    trylock or a timed lock on either clock) and unlock in any nesting, also when they hold
    nothing.  In every interleaving: at most one thread is in the section between its
    outermost lock and unlock; every call gives the result it must ([bad] is never written):
    a call by a thread that does not hold the mutex succeeds, except that trylock may give EBUSY and a timed lock
    ETIMEDOUT if it has a timeout, or EINVAL if that is not valid; a relock of a recursive mutex succeeds up to 2048 times and then gives EAGAIN, a relock of
    an error-checking mutex gives EDEADLK or, for trylock, EBUSY, an unlock by the owner
    gives 0 and by any other thread EPERM; and no wake-up is lost. *)
Theorem recursive_mutex_correct {K : FutexKernel} sdk mu cs bad mtype shared ts n m c :
  mtype = MUTEX_TYPE_BITS_RECURSIVE \/ mtype = MUTEX_TYPE_BITS_ERRORCHECK ->
  shared = 0 \/ shared = MUTEX_SHARED_MASK ->
  m_state mu <> cs /\ m_owner_tid mu <> cs ->
  m_state mu <> bad /\ m_owner_tid mu <> bad /\ cs <> bad ->
  Z.of_nat n <= max_threads -> recursive_start mu cs bad mtype shared m ->
  reachable (replicate n (nested_client sdk mu cs bad ts (first_result ts) (recursive_relock_ok mtype)), m) c ->
  0 <= word c.2 cs <= 1 /\ word c.2 bad = 0 /\
  (quiescent c -> forall t p, c.1 !! t = Some p -> finished p = true).
Proof.
  intros Hm Hs Hcs Hbad Hn Hst Hr.
  pose proof (recursive_contract sdk mu cs bad mtype shared Hm Hs Hcs Hbad ts) as HC.
  destruct (nested_client_inv sdk mu cs bad ts _ _ _ RIdle ROwn n m c
    (recursive_start_inv sdk mu cs bad mtype shared Hm Hs Hcs Hbad n m Hn Hst) Hr) as (g & HI & Hok).
  pose proof HI as [s HI'].
  split; [|split].
  - pose proof (tinv_exclusion _ _ _ 0 1 2 ltac:(done) ltac:(done) ltac:(done) _ _ _
      (ri_lock _ _ _ _ _ _ _ _ HI')) as H. simpl in H.
    by rewrite decide_False in H by (apply not_eq_sym, Hcs).
  - apply HI'.
  - by apply (recursive_quiet sdk mu cs bad mtype shared Hm Hs Hcs Hbad c g).
Qed.

Definition ex_rec_mem : mem := set_word ex_mem (m_state 0) MUTEX_TYPE_BITS_RECURSIVE.

(** Thread 0 locks a recursive mutex twice, thread 1 goes to sleep on it. *)
Definition ex_rec_run : machine :=
  run_schedule ex_clock (replicate 28 (0%nat, true) ++ replicate 40 (1%nat, true))
    (replicate 2 (nested_client 30 0 ex_cs ex_bad None (first_result None) (recursive_relock_ok MUTEX_TYPE_BITS_RECURSIVE)), ex_rec_mem).

Lemma recursive_mutex_correct_witness :
  word ex_rec_run.2 (m_state 0) = MUTEX_TYPE_BITS_RECURSIVE + 4 + 2 /\
  waiters ex_rec_run.2 (m_state 0) false = [1%nat] /\
  (0 <= word ex_rec_run.2 ex_cs <= 1 /\ word ex_rec_run.2 ex_bad = 0 /\
   (quiescent ex_rec_run -> forall t p, ex_rec_run.1 !! t = Some p -> finished p = true)).
Proof.
  split; [vm_compute; reflexivity|]. split; [vm_compute; reflexivity|].
  apply (recursive_mutex_correct (K := fifo_kernel) 30 0 ex_cs ex_bad MUTEX_TYPE_BITS_RECURSIVE 0
           None 2 ex_rec_mem ex_rec_run).
  - by left.
  - by left.
  - done.
  - done.
  - vm_compute. discriminate.
  - repeat split; done.
  - exact (run_schedule_reachable _ _ _).
Defined.
