(* ===== verification/PiMutex.v ===== *)
(** Priority inheritance mutexes: mutual exclusion, hand-over by the kernel, the recursion
    counter and the results of every call, for the three types and any number of threads. *)

From S2P Require Import Prelude Atomic Futex Lock Mutex MutexClient.

(** Where a thread is. *)
Inductive pphase :=
| PIdle
| PQueued                         (* inside the kernel's lock operation *)
| POwn (depth : Z) (crit : bool). (* owns the mutex *)

Definition pdepth (φ : pphase) : Z := match φ with POwn d _ => d | _ => 0 end.
Definition is_pcrit (φ : pphase) : bool := match φ with POwn _ c => c | _ => false end.

(** The thread holds the mutex: it knows, or the kernel has handed it the mutex, and taken it off
    the queue [q], and it is about to return. *)
Definition pholds (q : list nat) (t : nat) (φ : pphase) : Prop :=
  match φ with PIdle => False | PQueued => t ∉ q | POwn _ _ => True end.

Definition tid_bits (w : Z) : Z := Z.land w FUTEX_TID_MASK.

Lemma tid_bits_id w : 0 <= w <= FUTEX_TID_MASK -> tid_bits w = w.
Proof.
  unfold tid_bits. change FUTEX_TID_MASK with (Z.ones 30). intros H.
  rewrite Z.land_ones, Z.mod_small; [done| |done]. change (Z.ones 30) with (2 ^ 30 - 1) in H. lia.
Qed.

Lemma tid_bits_waiters w : tid_bits (Z.lor w FUTEX_WAITERS) = tid_bits w.
Proof.
  unfold tid_bits. rewrite Z.land_lor_distr_l. change (Z.land FUTEX_WAITERS FUTEX_TID_MASK) with 0.
  apply Z.lor_0_r.
Qed.

Definition has_waiters (w : Z) : Prop := Z.land w FUTEX_WAITERS <> 0.

Lemma has_waiters_lor w : has_waiters (Z.lor w FUTEX_WAITERS).
Proof.
  unfold has_waiters. rewrite Z.land_lor_distr_l, Z.land_diag. intros H.
  by apply Z.lor_eq_0_iff in H as [_ H].
Qed.

Lemma tid_no_waiters w : 0 <= w <= FUTEX_TID_MASK -> ~ has_waiters w.
Proof.
  intros H Hw. apply Hw. rewrite <- (tid_bits_id w H). unfold tid_bits.
  rewrite <- Z.land_assoc. change (Z.land FUTEX_TID_MASK FUTEX_WAITERS) with 0. apply Z.land_0_r.
Qed.

Section pi.
Context {K : FutexKernel} (sdk : Z) (mu : nat) (cs bad : loc) (type : Z) (sh : bool).

Abbreviation st := (m_state mu).
Abbreviation pw := (pi_owner_tid mu).
Abbreviation pc := (pi_counter mu).
Abbreviation queue m := (waiters m (pi_owner_tid mu) sh).

Context (Hcs : cs <> st /\ cs <> pw /\ cs <> pc /\ cs <> pi_type mu /\ cs <> pi_shared mu)
  (Hbad : bad <> st /\ bad <> pw /\ bad <> pc /\ bad <> cs /\ bad <> pi_type mu /\ bad <> pi_shared mu).

Context (Htype : type = PTHREAD_MUTEX_NORMAL \/ type = PTHREAD_MUTEX_RECURSIVE \/
                 type = PTHREAD_MUTEX_ERRORCHECK).

(** How often the owner can lock the mutex again. *)
Definition max_depth : Z := if type =? PTHREAD_MUTEX_RECURSIVE then 65535 else 0.

Lemma max_depth_le : 0 <= max_depth <= 65535.
Proof using Type. unfold max_depth. destruct (type =? PTHREAD_MUTEX_RECURSIVE); lia. Qed.

(** What the mutex does not change. *)
Definition pi_const (m : mem) : Prop :=
  word m st = PI_MUTEX_STATE /\ word m (pi_type mu) = type /\ word m (pi_shared mu) = b2z sh /\
  word m bad = 0.

Record pinv (m : mem) (g : list pphase) : Prop := mk_pinv {
  pv_const : pi_const m;
  pv_free : tid_bits (word m pw) = 0 -> word m pw = 0;
  pv_tid : tid_bits (word m pw) <> 0 ->
    exists t φ, g !! t = Some φ /\ tid_bits (word m pw) = tid_of t;
  pv_holds : forall t φ, g !! t = Some φ ->
    (pholds (queue m) t φ <-> tid_bits (word m pw) = tid_of t);
  pv_counter : word m pc = total pdepth g;
  pv_depth : forall t φ, g !! t = Some φ -> 0 <= pdepth φ <= max_depth;
  pv_crit : word m cs = cnt is_pcrit g;
  pv_others : forall l' sh', (l', sh') <> (pw, sh) -> waiters m l' sh' = [];
  pv_nodup : NoDup (queue m);
  pv_queued : forall t, t ∈ queue m -> g !! t = Some PQueued;
  pv_waiters : queue m <> [] -> has_waiters (word m pw);
  pv_len : Z.of_nat (length g) <= max_threads
}.

#[export] Instance pinv_proper : Proper (mem_equiv ==> eq ==> iff) pinv.
Proof using Type.
  assert (forall m m' g, mem_equiv m m' -> pinv m g -> pinv m' g) as H.
  { intros m m' g [Hw Hq] [[? []] ? ? ? ? ? ? Ho]. split; rewrite <- ?Hw, <- ?Hq; try done.
    - unfold pi_const. by rewrite <- !Hw.
    - intros l' sh' Hne. rewrite <- Hq. by apply Ho. }
  intros m m' He g ? <-. split; apply H; [done|by symmetry].
Qed.

Lemma ptid_pos m g t φ : pinv m g -> g !! t = Some φ -> 0 < tid_of t <= FUTEX_TID_MASK.
Proof using Type. intros HI Hg. apply tid_of_pos. pose proof (pv_len m g HI). apply lookup_lt_Some in Hg. lia. Qed.

Lemma ptid_inj m g t t' φ φ' :
  pinv m g -> g !! t = Some φ -> g !! t' = Some φ' -> tid_of t = tid_of t' -> t = t'.
Proof using Type.
  intros HI Hg Hg'. pose proof (pv_len m g HI). apply lookup_lt_Some in Hg, Hg'.
  apply tid_of_inj; lia.
Qed.

(** Only one thread owns the mutex, and the counter is its depth. *)
Lemma pinv_counter m g t d c : pinv m g -> g !! t = Some (POwn d c) -> word m pc = d.
Proof using Type.
  intros HI Hg. rewrite (pv_counter m g HI). apply (total_single pdepth g t _ Hg).
  intros t' φ' Hg' Hne. destruct φ' as [| |d' c']; try done. destruct Hne.
  apply (ptid_inj m g t' t _ _ HI Hg' Hg).
  rewrite <- (proj1 (pv_holds m g HI _ _ Hg') I), <- (proj1 (pv_holds m g HI _ _ Hg) I). done.
Qed.

Lemma pinv_free m g : pinv m g -> word m pw = 0 -> queue m = [].
Proof using Type.
  intros HI Hw. destruct (queue m) eqn:E; [done|].
  destruct (pv_waiters m g HI); [by rewrite E|]. by rewrite Hw.
Qed.

(** A step of thread [t]. *)
Lemma pinv_step m g t φ φ' m' :
  pinv m g -> g !! t = Some φ ->
  pi_const m' ->
  (tid_bits (word m' pw) = 0 -> word m' pw = 0) ->
  (tid_bits (word m' pw) <> 0 -> exists t' φ, g !! t' = Some φ /\ tid_bits (word m' pw) = tid_of t') ->
  (forall t' x, t' <> t -> g !! t' = Some x ->
     (pholds (queue m') t' x <-> tid_bits (word m' pw) = tid_of t')) ->
  (pholds (queue m') t φ' <-> tid_bits (word m' pw) = tid_of t) ->
  word m' pc = total pdepth g - pdepth φ + pdepth φ' -> 0 <= pdepth φ' <= max_depth ->
  word m' cs = cnt is_pcrit g - b2z (is_pcrit φ) + b2z (is_pcrit φ') ->
  (forall l' sh', (l', sh') <> (pw, sh) -> waiters m' l' sh' = waiters m l' sh') ->
  NoDup (queue m') ->
  (forall t', t' ∈ queue m' -> t' <> t /\ g !! t' = Some PQueued \/ t' = t /\ φ' = PQueued) ->
  (queue m' <> [] -> has_waiters (word m' pw)) ->
  pinv m' (<[t:=φ']> g).
Proof using Type.
  intros HI Hg H1 H2 H3 H4 H5 H6 H7 H8 H9 H10 H11 H12.
  pose proof (lookup_lt_Some _ _ _ Hg) as Hlt.
  assert (forall t' x, <[t:=φ']> g !! t' = Some x -> t' = t /\ x = φ' \/ t' <> t /\ g !! t' = Some x)
    as Hl.
  { intros t' x. destruct (decide (t' = t)) as [->|Hne].
    - rewrite list_lookup_insert_eq by done. intros [= <-]. by left.
    - rewrite list_lookup_insert_ne by done. by right. }
  split; try done.
  - intros Hw. destruct (H3 Hw) as (t' & x & Hx & Ht).
    destruct (decide (t' = t)) as [->|Hne]; [exists t, φ'|exists t', x].
    + by rewrite list_lookup_insert_eq.
    + by rewrite list_lookup_insert_ne.
  - intros t' x [[-> ->]|[Hne Hx]]%Hl; auto.
  - by rewrite (total_insert pdepth g t φ φ' Hg).
  - intros t' x [[-> ->]|[Hne Hx]]%Hl; [done|]. by eapply (pv_depth m g HI).
  - by rewrite (cnt_insert is_pcrit g t φ φ' Hg).
  - intros l' sh' Hne. rewrite H9 by done. by apply (pv_others m g HI).
  - intros t' Ht'. destruct (H11 t' Ht') as [[Hne Hx]|[-> ->]].
    + by rewrite list_lookup_insert_ne.
    + by apply list_lookup_insert_eq.
  - rewrite length_insert. apply HI.
Qed.

(** Reads of a memory after writes to distinct places. *)
Ltac places :=
  destruct Hcs as (? & ? & ? & ? & ?), Hbad as (? & ? & ? & ? & ? & ?);
  simpl; repeat first [rewrite decide_True by done | rewrite decide_False by first [done | congruence]].

(** A step that writes the owner word and the queue. *)
Lemma pinv_word_step m g t φ φ' w q :
  pinv m g -> g !! t = Some φ ->
  (tid_bits w = 0 -> w = 0) ->
  (tid_bits w <> 0 -> exists t' φ, g !! t' = Some φ /\ tid_bits w = tid_of t') ->
  (forall t' x, t' <> t -> g !! t' = Some x -> (pholds q t' x <-> tid_bits w = tid_of t')) ->
  (pholds q t φ' <-> tid_bits w = tid_of t) ->
  pdepth φ' = pdepth φ -> is_pcrit φ' = is_pcrit φ -> NoDup q ->
  (forall t', t' ∈ q -> t' <> t /\ g !! t' = Some PQueued \/ t' = t /\ φ' = PQueued) ->
  (q <> [] -> has_waiters w) ->
  pinv (set_word (set_waiters m pw sh q) pw w) (<[t:=φ']> g).
Proof using All.
  intros HI Hg H1 H2 H3 H4 H5 H6 H7 H8 H9. pose proof (pv_depth m g HI t φ Hg).
  pose proof (pv_const m g HI) as (E1 & E2 & E3 & E4).
  apply (pinv_step m g t φ φ'); try done; rewrite ?H5; places; try done.
  - unfold pi_const. simpl. rewrite !decide_False by first [done | congruence]. done.
  - rewrite (pv_counter m g HI). lia.
  - rewrite (pv_crit m g HI), H6. lia.
  - intros l' sh' Hne. rewrite decide_False; [done|]. by intros [-> ->].
Qed.

Lemma pinv_same_queue m l v : mem_equiv (set_word m l v) (set_word (set_waiters m pw sh (queue m)) l v).
Proof using Type. by rewrite <- mem_equiv_same_waiters. Qed.

Lemma not_queued m g t φ : pinv m g -> g !! t = Some φ -> φ <> PQueued -> t ∉ queue m.
Proof using Type. intros HI Hg Hφ Hin. pose proof (pv_queued m g HI t Hin). congruence. Qed.

(** The word is free and goes to [t], by compare-and-swap or in the kernel. *)
Lemma pinv_acquire m g t w :
  pinv m g -> g !! t = Some PIdle -> tid_bits (word m pw) = 0 ->
  w = tid_of t \/ w = Z.lor (tid_of t) FUTEX_WAITERS ->
  pinv (set_word (set_waiters m pw sh (queue m)) pw w) (<[t:=POwn 0 false]> g).
Proof using All.
  intros HI Hg Hw0 Hw. pose proof (ptid_pos m g t _ HI Hg) as Ht.
  pose proof (pv_free m g HI Hw0) as Hfree. pose proof (pinv_free m g HI Hfree) as Hq.
  assert (tid_bits w = tid_of t) as Hb
    by (destruct Hw as [->| ->]; rewrite ?tid_bits_waiters; apply tid_bits_id; lia).
  rewrite Hq. apply (pinv_word_step m g t PIdle); try done; rewrite ?Hb.
  - lia.
  - intros _. by exists t, PIdle.
  - intros t' x Hne Hx. pose proof (pv_holds m g HI t' x Hx) as H. rewrite Hq, Hw0 in H.
    pose proof (ptid_pos m g t' x HI Hx). split; [intros Hh%H; lia|].
    intros E. destruct Hne. symmetry. by eapply (ptid_inj m g).
  - apply NoDup_nil_2.
  - intros t' Ht'. by apply not_elem_of_nil in Ht'.
Qed.

(** The kernel queues [t]. *)
Lemma pinv_enqueue m g t q :
  pinv m g -> g !! t = Some PIdle -> tid_bits (word m pw) <> 0 ->
  tid_bits (word m pw) <> tid_of t -> q ≡ₚ t :: queue m ->
  pinv (set_word (set_waiters m pw sh q) pw (Z.lor (word m pw) FUTEX_WAITERS)) (<[t:=PQueued]> g).
Proof using All.
  intros HI Hg Hw Hwt Hq. pose proof (not_queued m g t _ HI Hg ltac:(done)) as Hni.
  apply (pinv_word_step m g t PIdle); try done; rewrite ?tid_bits_waiters.
  - done.
  - intros _. by apply (pv_tid m g HI).
  - intros t' x Hne Hx. rewrite <- (pv_holds m g HI t' x Hx). destruct x; simpl; try done.
    by rewrite Hq, elem_of_cons; intuition.
  - simpl. rewrite Hq. split; [|done]. intros H. destruct H. apply list_elem_of_here.
  - rewrite Hq. apply NoDup_cons. split; [done|apply HI].
  - intros t'. rewrite Hq, elem_of_cons. intros [->|Hin]; [by right|left].
    split; [by intros ->|by apply (pv_queued m g HI)].
  - intros _. apply has_waiters_lor.
Qed.

(** A thread that was handed the mutex returns. *)
Lemma pinv_woken m g t :
  pinv m g -> g !! t = Some PQueued -> t ∉ queue m -> pinv m (<[t:=POwn 0 false]> g).
Proof using All.
  intros HI Hg Hni. pose proof max_depth_le as Hmd. pose proof (proj1 (pv_holds m g HI t _ Hg) Hni) as Hw.
  apply (pinv_step m g t PQueued); try done; simpl;
    try (rewrite (pv_counter m g HI); lia); try (rewrite (pv_crit m g HI); lia); try (by apply HI); try done; try lia.
  - intros t' x _ Hx. by apply (pv_holds m g HI).
  - intros t' Hin. left. split; [by intros ->|by apply (pv_queued m g HI)].
Qed.

(** A queued thread gives up. *)
Lemma pinv_giveup m g t :
  pinv m g -> g !! t = Some PQueued -> t ∈ queue m ->
  pinv (set_waiters m pw sh (filter (fun t' => t' <> t) (queue m))) (<[t:=PIdle]> g).
Proof using All.
  intros HI Hg Hin. pose proof max_depth_le as Hmd. pose proof (pv_holds m g HI t _ Hg) as Hh. simpl in Hh.
  pose proof (pv_const m g HI) as Hc.
  apply (pinv_step m g t PQueued); try done; simpl; rewrite ?decide_True by done;
    try (rewrite (pv_counter m g HI); lia); try (rewrite (pv_crit m g HI); lia); try (by apply HI); try done; try lia.
  - intros t' x Hne Hx. rewrite <- (pv_holds m g HI t' x Hx). destruct x; simpl; try done.
    rewrite list_elem_of_filter. intuition.
  - rewrite <- Hh. intuition.
  - intros l' sh' Hne. rewrite decide_False; [done|]. by intros [-> ->].
  - apply NoDup_filter, HI.
  - intros t' [Hne Hin']%list_elem_of_filter. left. split; [done|by apply (pv_queued m g HI)].
  - intros _. apply (pv_waiters m g HI). by destruct (queue m); [apply not_elem_of_nil in Hin|].
Qed.

(** The owner releases a mutex nobody waits for. *)
Lemma pinv_release m g t :
  pinv m g -> g !! t = Some (POwn 0 false) -> queue m = [] ->
  pinv (set_word (set_waiters m pw sh []) pw 0) (<[t:=PIdle]> g).
Proof using All.
  intros HI Hg Hq. pose proof (proj1 (pv_holds m g HI t _ Hg) I) as Hw.
  apply (pinv_word_step m g t (POwn 0 false)); try done.
  - intros t' x Hne Hx. pose proof (ptid_pos m g t' x HI Hx) as Hp.
    change (tid_bits 0) with 0. split; [|lia]. intros Hh. exfalso. apply Hne.
    rewrite <- Hq in Hh. apply (pv_holds m g HI t' x Hx) in Hh. eapply (ptid_inj m g); eauto. congruence.
  - pose proof (ptid_pos m g t _ HI Hg). change (tid_bits 0) with 0. simpl. lia.
  - apply NoDup_nil_2.
  - intros t' Ht'. by apply not_elem_of_nil in Ht'.
Qed.

(** The kernel hands the mutex to [t']. *)
Lemma pinv_handover m g t t' q w :
  pinv m g -> g !! t = Some (POwn 0 false) -> queue m ≡ₚ t' :: q ->
  (q = [] /\ w = tid_of t') \/ w = Z.lor (tid_of t') FUTEX_WAITERS ->
  pinv (set_word (set_waiters m pw sh q) pw w) (<[t:=PIdle]> g).
Proof using All.
  intros HI Hg Hq Hw. pose proof (proj1 (pv_holds m g HI t _ Hg) I) as Ht.
  assert (t' ∈ queue m) as Hin by (rewrite Hq; apply list_elem_of_here).
  pose proof (pv_queued m g HI t' Hin) as Hg'. pose proof (ptid_pos m g t' _ HI Hg') as Hp.
  pose proof (pv_nodup m g HI) as Hnd. rewrite Hq in Hnd. apply NoDup_cons in Hnd as [Hni Hnd].
  assert (tid_bits w = tid_of t') as Hb.
  { destruct Hw as [[_ ->]| ->]; rewrite ?tid_bits_waiters; apply tid_bits_id; lia. }
  apply (pinv_word_step m g t (POwn 0 false)); try done; rewrite ?Hb.
  - lia.
  - intros _. by exists t', PQueued.
  - intros t1 x Hne Hx. pose proof (pv_holds m g HI t1 x Hx) as Hh. destruct (decide (t1 = t')) as [->|Hne'].
    + replace x with PQueued by congruence. done.
    + split; [|intros E; destruct Hne'; symmetry; by eapply (ptid_inj m g)].
      destruct x as [| |d c]; simpl; [done| |].
      * intros Hn. destruct Hne. eapply (ptid_inj m g); eauto. rewrite <- Ht, <- (proj1 Hh); [done|].
        simpl. rewrite Hq, elem_of_cons. intuition.
      * intros _. destruct Hne. eapply (ptid_inj m g); eauto. rewrite <- Ht, <- (proj1 Hh); done.
  - split; [done|]. intros E. replace t' with t in * by (by eapply (ptid_inj m g)). congruence.
  - intros t1 Hin1. left. assert (t1 ∈ queue m) as Hin1' by (rewrite Hq; by apply list_elem_of_further).
    pose proof (pv_queued m g HI t1 Hin1'). split; [|done]. intros ->. congruence.
  - intros Hne. destruct Hw as [[-> _]| ->]; [done|apply has_waiters_lor].
Qed.

(** The owner changes the counter. *)
Lemma pinv_count m g t d d' c :
  pinv m g -> g !! t = Some (POwn d c) -> 0 <= d' <= max_depth ->
  pinv (set_word m pc d') (<[t:=POwn d' c]> g).
Proof using All.
  intros HI Hg Hd. pose proof (pinv_counter m g t d c HI Hg) as Ec.
  pose proof (pv_counter m g HI) as Et. pose proof (pv_const m g HI) as (E1 & E2 & E3 & E4).
  pose proof (pv_holds m g HI t _ Hg) as Hh. pose proof (pv_crit m g HI) as Hcr.
  apply (pinv_step m g t (POwn d c)); try done; places; try (by apply HI); try (simpl; lia).
  - unfold pi_const. simpl. rewrite !decide_False by first [done | congruence]. done.
  - intros t' x _ Hx. by apply (pv_holds m g HI).
  - exact Hh.
  - intros t' Hin. left. pose proof (pv_queued m g HI t' Hin). split; [|done]. intros ->. congruence.
Qed.

(** The client enters or leaves its critical section. *)
Lemma pinv_cs m g t d c c' :
  pinv m g -> g !! t = Some (POwn d c) ->
  pinv (set_word m cs (word m cs - b2z c + b2z c')) (<[t:=POwn d c']> g).
Proof using All.
  intros HI Hg. pose proof (pv_counter m g HI) as Et. pose proof (pv_const m g HI) as (E1 & E2 & E3 & E4).
  pose proof (pv_holds m g HI t _ Hg) as Hh. pose proof (pv_crit m g HI) as Hcr.
  pose proof (pv_depth m g HI t _ Hg) as Hd.
  apply (pinv_step m g t (POwn d c)); try done; places; try (by apply HI); try (simpl; lia).
  - unfold pi_const. simpl. rewrite !decide_False by first [done | congruence]. done.
  - intros t' x _ Hx. by apply (pv_holds m g HI).
  - exact Hh.
  - intros t' Hin. left. pose proof (pv_queued m g HI t' Hin). split; [|done]. intros ->. congruence.
Qed.

(** * The routines *)

Lemma wp_const_load l v t (Q : Z -> pphase -> Prop) φ :
  (forall m, pi_const m -> word m l = v) -> Q v φ -> wp pinv (atomic_load l) t Q φ.
Proof using All.
  intros Hl HQ. apply (wp_load pinv). intros m g HI Hg. exists φ. rewrite list_insert_id by done.
  rewrite (Hl m) by apply HI. done.
Qed.

Lemma wp_type_load t (Q : Z -> pphase -> Prop) φ : Q type φ -> wp pinv (atomic_load (pi_type mu)) t Q φ.
Proof using All. apply wp_const_load. by intros m (_ & -> & _). Qed.

Lemma wp_shared_load t (Q : Z -> pphase -> Prop) φ : Q (b2z sh) φ -> wp pinv (atomic_load (pi_shared mu)) t Q φ.
Proof using All. apply wp_const_load. by intros m (_ & _ & -> & _). Qed.

Lemma wp_counter_load t (Q : Z -> pphase -> Prop) d c :
  (0 <= d <= max_depth -> Q d (POwn d c)) -> wp pinv (atomic_load pc) t Q (POwn d c).
Proof using All.
  intros HQ. apply (wp_load pinv). intros m g HI Hg. exists (POwn d c). rewrite list_insert_id by done.
  rewrite (pinv_counter m g t d c HI Hg). split; [done|]. apply HQ. by apply (pv_depth m g HI t _ Hg).
Qed.

(** Writing the owner word alone. *)
Lemma pinv_set_owner m g w :
  pinv (set_word (set_waiters m pw sh (queue m)) pw w) g -> pinv (set_word m pw w) g.
Proof using Type. by rewrite <- pinv_same_queue. Qed.

(** What trylock gives the owner. *)
Definition pi_trylock_result (d : Z) : Z :=
  if type =? PTHREAD_MUTEX_NORMAL then EBUSY
  else if type =? PTHREAD_MUTEX_ERRORCHECK then EDEADLK
  else if d =? 65535 then EAGAIN else 0.

Lemma wp_PIMutexTryLock_idle t :
  wp pinv (PIMutexTryLock mu) t (fun r φ => r = 0 /\ φ = POwn 0 false \/ r = EBUSY /\ φ = PIdle) PIdle.
Proof using All.
  apply wp_bind, wp_tid, wp_bind, wp_act. intros m g HI Hg [ok seen] m' [E H]. simpl in *. subst seen.
  destruct H as [(-> & Hw & ->)|(-> & Hw & ->)].
  - exists (POwn 0 false). split; [|apply wp_ret; by left]. apply pinv_set_owner, pinv_acquire; auto.
    by rewrite Hw.
  - exists PIdle. rewrite list_insert_id by done. split; [done|].
    destruct (Z.eqb_spec (tid_of t) (Z.land (word m pw) FUTEX_TID_MASK)) as [E|E].
    + by destruct (proj2 (pv_holds m g HI t _ Hg) (eq_sym E)).
    + apply wp_ret. by right.
Qed.

Lemma wp_PIMutexTryLock_own t d c :
  wp pinv (PIMutexTryLock mu) t
    (fun r φ => r = pi_trylock_result d /\ φ = POwn (if r =? 0 then d + 1 else d) c) (POwn d c).
Proof using All.
  apply wp_bind, wp_tid, wp_bind, wp_act. intros m g HI Hg [ok seen] m' [E H]. simpl in *. subst seen.
  pose proof (proj1 (pv_holds m g HI t _ Hg) I) as Ht. pose proof (ptid_pos m g t _ HI Hg) as Hp.
  destruct H as [(-> & Hw & ->)|(-> & Hw & ->)].
  { rewrite Hw in Ht. change (tid_bits 0) with 0 in Ht. lia. }
  exists (POwn d c). rewrite list_insert_id by done. split; [done|].
  unfold tid_bits in Ht. rewrite Ht, Z.eqb_refl. unfold pi_trylock_result.
  apply wp_bind, wp_type_load. destruct (Z.eqb_spec type PTHREAD_MUTEX_NORMAL) as [|N1]; [by apply wp_ret|].
  apply wp_bind, wp_type_load. destruct (Z.eqb_spec type PTHREAD_MUTEX_ERRORCHECK) as [|N2]; [by apply wp_ret|].
  assert (max_depth = 65535) as Hmd
    by (unfold max_depth; destruct Htype as [E|[E|E]]; [done|by rewrite E|done]).
  apply wp_bind, wp_counter_load. intros Hd. destruct (Z.eqb_spec d 65535) as [->|Hne]; [by apply wp_ret|].
  apply wp_bind, wp_counter_load. intros _. apply wp_bind, wp_store. intros m1 g1 HI1 Hg1.
  exists (POwn (d + 1) c). split; [|by apply wp_ret].
  unfold wrapU. rewrite Z.mod_small by (change (2 ^ 16) with 65536; lia). apply pinv_count with (d := d); auto. lia.
Qed.

(** The ways in which the kernel may refuse. *)
Definition lock_pi_fails (timed : bool) (r : Z) : bool := bool_decide (r ∈ lock_pi_errors) || (timed && (r =? ETIMEDOUT)).

Lemma lock_pi_fails_intro timed timed' e :
  e ∈ lock_pi_errors \/ (timed' = true /\ e = ETIMEDOUT) -> (timed' = true -> timed = true) -> lock_pi_fails timed e = true /\ (e =? 0) = false.
Proof using Type.
  unfold lock_pi_fails. intros [He|[Ht ->]] Hto; [|by rewrite Hto, orb_true_r]. rewrite bool_decide_eq_true_2 by done. split; [done|].
  apply Z.eqb_neq. intros ->. by apply (bool_decide_eq_false_1 (0 ∈ lock_pi_errors)) in He.
Qed.

Definition pi_acquired (timed : bool) (r : Z) (φ : pphase) : Prop :=
  (r =? 0) || lock_pi_fails timed r = true /\ φ = if r =? 0 then POwn 0 false else PIdle.

(** A call that fails leaves the mutex as it was, but for FUTEX_WAITERS. *)
Lemma pinv_failed m g t φ w :
  pinv m g -> g !! t = Some φ -> (w = word m pw \/ (Z.land (word m pw) FUTEX_TID_MASK <> 0 /\ w = Z.lor (word m pw) FUTEX_WAITERS)) ->
  pinv (set_word (set_waiters m pw sh (queue m)) pw w) (<[t:=φ]> g).
Proof using All.
  intros HI Hg Hw. assert (tid_bits w = tid_bits (word m pw)) as Hb by (destruct Hw as [-> |[_ ->]]; [done|apply tid_bits_waiters]).
  apply (pinv_word_step m g t φ φ w); rewrite ?Hb; try done.
  - intros H0. pose proof (pv_free m g HI H0) as E. destruct Hw as [-> |[Hne _]]; [done|]. by rewrite E in Hne.
  - apply (pv_tid m g HI).
  - intros t' x _ Hx. by apply (pv_holds m g HI).
  - by apply (pv_holds m g HI).
  - apply (pv_nodup m g HI).
  - intros t' Ht'. pose proof (pv_queued m g HI t' Ht') as Hq. destruct (decide (t' = t)) as [->|]; [right|by left]. split; [done|congruence].
  - intros Hne. destruct Hw as [-> |[_ ->]]; [by apply (pv_waiters m g HI)|apply has_waiters_lor].
Qed.

Lemma lock_pi_syscall ts :
  syscall_futex pw (if sh then FUTEX_LOCK_PI else FUTEX_LOCK_PI_PRIVATE) 0 ts
  = futex_lock_pi_call pw sh (bool_decide (is_Some ts)).
Proof using Type. by destruct sh. Qed.

(** The timeout that is passed on is there only if one was given. *)
Lemma timed_le (ts ts' : option timespec) : (is_Some ts' -> is_Some ts) -> bool_decide (is_Some ts') = true -> bool_decide (is_Some ts) = true.
Proof using Type. rewrite !bool_decide_eq_true. auto. Qed.

Lemma wp_futex_pi_lock_idle rt ts t :
  wp pinv (__futex_pi_lock_ex pw sh rt ts) t (fun r φ => pi_acquired (bool_decide (is_Some ts)) (- r) φ) PIdle.
Proof using All.
  assert (forall (ts' : option timespec) e φ, (is_Some ts' -> is_Some ts) -> (e ∈ lock_pi_errors) \/ (bool_decide (is_Some ts') = true /\ e = ETIMEDOUT) ->
    φ = PIdle -> pi_acquired (bool_decide (is_Some ts)) (- (if e =? 0 then 0 else - e)) φ) as Hfail.
  { intros ts' e φ Hts He ->. destruct (lock_pi_fails_intro (bool_decide (is_Some ts)) _ e He (timed_le ts ts' Hts)) as [Hf He0].
    rewrite He0, Z.opp_involutive. unfold pi_acquired. by rewrite He0. }
  apply wp_FutexWithTimeout; [intros Hts; apply (Hfail ts ETIMEDOUT); [done|right; by rewrite bool_decide_eq_true_2|done]|].
  intros ts' Hts. apply (wp_futex pinv). intros e. rewrite lock_pi_syscall.
  apply wpe_bind, wpe_act. intros m g HI Hg He r m' (w & q & Hk & ->).
  apply kernel_lock_pi_begin_spec in Hk
    as [(Hw & -> & Hw' & ->)|[(Hw & -> & -> & ->)|[(Hw & Hwt & -> & -> & Hq)|(e' & He' & -> & Hw & ->)]]].
  - exists (POwn 0 false). split; [by apply pinv_acquire|]. by apply (wpe_syscall_result pinv).
  - by destruct (proj2 (pv_holds m g HI t _ Hg) Hw).
  - exists PQueued. split; [by apply pinv_enqueue|].
    apply wpe_bind, wpe_act. intros m1 g1 HI1 Hg1 He1 r m1' (q1 & Hk & ->).
    apply kernel_lock_pi_end_spec in Hk as [(Hni & -> & ->)|(Hin & Hr & ->)].
    + exists (POwn 0 false). split; [rewrite <- mem_equiv_same_waiters; by apply pinv_woken|].
      by apply (wpe_syscall_result pinv).
    + exists PIdle. split; [by apply pinv_giveup|]. apply (wpe_syscall_result pinv); [done|]. by apply (Hfail ts').
  - exists PIdle. split; [by apply pinv_failed|]. apply (wpe_syscall_result pinv); [done|]. apply (Hfail ts'); auto.
Qed.

Lemma wp_futex_pi_lock_own rt ts t d c :
  wp pinv (__futex_pi_lock_ex pw sh rt ts) t
    (fun r φ => lock_pi_fails (bool_decide (is_Some ts)) (- r) = true /\ (- r =? 0) = false /\ φ = POwn d c) (POwn d c).
Proof using All.
  assert (forall e φ, e ∈ lock_pi_errors -> φ = POwn d c ->
    lock_pi_fails (bool_decide (is_Some ts)) (- (if e =? 0 then 0 else - e)) = true /\ (- (if e =? 0 then 0 else - e) =? 0) = false /\ φ = POwn d c) as Hfail.
  { intros e φ He ->. destruct (lock_pi_fails_intro (bool_decide (is_Some ts)) false e (or_introl He) ltac:(done)) as [Hf He0].
    by rewrite He0, Z.opp_involutive. }
  apply wp_FutexWithTimeout.
  { intros Hts. unfold lock_pi_fails. by rewrite bool_decide_eq_true_2 with (P := is_Some ts), orb_true_r. }
  intros ts' _. apply (wp_futex pinv). intros e.
  rewrite lock_pi_syscall. apply wpe_bind, wpe_act. intros m g HI Hg He r m' (w & q & Hk & ->).
  pose proof (proj1 (pv_holds m g HI t _ Hg) I) as Ht. pose proof (ptid_pos m g t _ HI Hg) as Hp.
  unfold tid_bits in Ht. apply kernel_lock_pi_begin_spec in Hk
    as [(Hw & -> & Hw' & ->)|[(Hw & -> & -> & ->)|[(Hw & Hwt & _)|(e' & He' & -> & Hw & ->)]]]; [lia| |done|].
  - exists (POwn d c). split; [apply pinv_failed; auto|]. apply (wpe_syscall_result pinv); [done|].
    apply (Hfail EDEADLK); [|done]. by apply (bool_decide_eq_true_1 (EDEADLK ∈ lock_pi_errors)).
  - exists (POwn d c). split; [by apply pinv_failed|]. apply (wpe_syscall_result pinv); [done|]. by apply Hfail.
Qed.

Lemma truthy_sh : truthy (b2z sh) = sh.
Proof using Type. by destruct sh. Qed.

Lemma wp_PIMutexTimedLock_idle rt ts t :
  wp pinv (PIMutexTimedLock mu rt ts) t (pi_acquired (bool_decide (is_Some ts))) PIdle.
Proof using All.
  apply wp_bind. apply wp_mono with (2 := wp_PIMutexTryLock_idle t).
  intros r φ [[-> ->]|[-> ->]]; [by apply wp_ret|]. change (EBUSY =? 0) with false.
  change (EBUSY =? EBUSY) with true. cbv iota. apply wp_bind, wp_shared_load. rewrite truthy_sh.
  apply wp_bind. apply wp_mono with (2 := wp_futex_pi_lock_idle rt ts t). intros r φ H. by apply wp_ret.
Qed.

(** What a blocking lock gives the owner: for a normal mutex what the kernel says, EDEADLK or another error. *)
Definition pi_relock_ok (timed : bool) (d r : Z) : bool :=
  if type =? PTHREAD_MUTEX_NORMAL then lock_pi_fails timed r else r =? pi_trylock_result d.

Lemma wp_PIMutexTimedLock_own rt ts t d c :
  wp pinv (PIMutexTimedLock mu rt ts) t
    (fun r φ => pi_relock_ok (bool_decide (is_Some ts)) d r = true /\
       φ = POwn (if r =? 0 then d + 1 else d) c) (POwn d c).
Proof using All.
  unfold pi_relock_ok.
  apply wp_bind. apply wp_mono with (2 := wp_PIMutexTryLock_own t d c). intros r φ [-> ->].
  unfold pi_trylock_result. destruct (type =? PTHREAD_MUTEX_NORMAL).
  2: { destruct (type =? PTHREAD_MUTEX_ERRORCHECK); [by apply wp_ret|].
       destruct (d =? 65535); by apply wp_ret. }
  change (EBUSY =? 0) with false. change (EBUSY =? EBUSY) with true. cbv iota.
  apply wp_bind, wp_shared_load. rewrite truthy_sh. apply wp_bind.
  apply wp_mono with (2 := wp_futex_pi_lock_own rt ts t d c). intros r φ (Hr & H0 & ->). apply wp_ret. by rewrite H0.
Qed.

Lemma wp_futex_pi_unlock t :
  wp pinv (__futex_pi_unlock pw sh) t (fun r φ => r = 0 /\ φ = PIdle) (POwn 0 false).
Proof using All.
  apply (wp_futex pinv). intros e.
  replace (syscall_futex _ _ _ _) with (e <- act (FutexUnlockPi pw sh) ;; syscall_result e 0)
    by (by destruct sh).
  apply wpe_bind, wpe_act. intros m g HI Hg He r m' (w & q & Hk & ->). exists PIdle.
  pose proof (proj1 (pv_holds m g HI t _ Hg) I) as Ht. unfold tid_bits in Ht.
  apply kernel_unlock_pi_spec in Hk
    as [(Hw & _)|[(Hw & -> & Hq & -> & ->)|(Hw & -> & t' & Hq & Hw')]]; [done|..].
  - split; [by apply pinv_release|]. by apply (wpe_syscall_result pinv).
  - split; [by eapply pinv_handover|]. by apply (wpe_syscall_result pinv).
Qed.

(** The compare-and-swap that releases the word, by the owner. *)
Lemma wp_release_cas t (Q : bool * Z -> pphase -> Prop) :
  Q (true, tid_of t) PIdle ->
  (forall v, tid_bits v = tid_of t -> Q (false, v) (POwn 0 false)) ->
  wp pinv (atomic_compare_exchange_strong pw (tid_of t) 0) t Q (POwn 0 false).
Proof using All.
  intros HQ Hno. apply wp_act. intros m g HI Hg [ok seen] m' [E H]. simpl in *. subst seen.
  pose proof (proj1 (pv_holds m g HI t _ Hg) I) as Ht. pose proof (ptid_pos m g t _ HI Hg) as Hp.
  destruct H as [(-> & Hw & ->)|(-> & Hw & ->)].
  - exists PIdle. rewrite Hw. split; [|done]. apply pinv_set_owner.
    assert (queue m = []) as Hq.
    { destruct (queue m) eqn:Eq; [done|]. exfalso. apply (tid_no_waiters (tid_of t)); [lia|].
      rewrite <- Hw. apply (pv_waiters m g HI). by rewrite Eq. }
    rewrite Hq. by apply pinv_release.
  - exists (POwn 0 false). rewrite list_insert_id by done. split; [done|]. by apply Hno.
Qed.

(** The phase after an unlock by the owner. *)
Definition pi_unlocked (d : Z) (c : bool) (r : Z) (φ : pphase) : Prop :=
  r = 0 /\ φ = if d =? 0 then PIdle else POwn (d - 1) c.

Lemma wp_PIMutexUnlock_owned t d c v :
  (d = 0 -> c = false) -> (type <> PTHREAD_MUTEX_RECURSIVE -> d = 0) -> tid_bits v = tid_of t ->
  wp pinv (PIMutexUnlock_owned mu (tid_of t) v) t (pi_unlocked d c) (POwn d c).
Proof using All.
  intros Hc Hd Hv. unfold PIMutexUnlock_owned, pi_unlocked. unfold tid_bits in Hv.
  rewrite Hv, Z.eqb_refl. simpl negb. cbv iota.
  apply wp_bind, wp_type_load, wp_bind.
  apply wp_mono with (Q := fun counter φ => counter = d /\ 0 <= d <= max_depth /\ φ = POwn d c).
  2: { destruct (Z.eqb_spec type PTHREAD_MUTEX_RECURSIVE) as [E|E]; [by apply wp_counter_load|].
       apply wp_ret. rewrite (Hd E). split; [done|]. split; [pose proof max_depth_le; lia|done]. }
  intros counter φ (-> & Hd' & ->). destruct (Z.eqb_spec d 0) as [->|Hne]; simpl negb; cbv iota.
  2: { apply wp_bind, wp_counter_load. intros _. apply wp_bind, wp_store. intros m g HI Hg.
       exists (POwn (d - 1) c). split; [|by apply wp_ret]. unfold wrapU.
       rewrite Z.mod_small by (pose proof max_depth_le; change (2 ^ 16) with 65536; lia).
       apply pinv_count with (d := d); auto. lia. }
  rewrite (Hc eq_refl). apply wp_bind.
  apply wp_mono with (Q := fun ok φ => φ = if (ok : bool) then PIdle else POwn 0 false).
  - intros [] φ ->; [by apply wp_ret|]. apply wp_bind, wp_shared_load. rewrite truthy_sh.
    apply wp_bind. apply wp_mono with (2 := wp_futex_pi_unlock t). intros r φ [-> ->]. by apply wp_ret.
  - destruct (Z.eqb_spec v (tid_of t)) as [->|Hne]; [|by apply wp_ret].
    apply wp_bind, wp_release_cas; [by apply wp_ret|]. intros v' _. by apply wp_ret.
Qed.

Lemma wp_PIMutexUnlock_own t d c :
  (d = 0 -> c = false) -> (type <> PTHREAD_MUTEX_RECURSIVE -> d = 0) ->
  wp pinv (PIMutexUnlock mu) t (pi_unlocked d c) (POwn d c).
Proof using All.
  intros Hc Hd. apply wp_bind, wp_tid, wp_bind, wp_type_load.
  destruct (Z.eqb_spec type PTHREAD_MUTEX_NORMAL) as [E|E].
  - assert (d = 0) as -> by (apply Hd; by rewrite E). rewrite (Hc eq_refl).
    apply wp_bind, wp_release_cas; [by apply wp_ret|]. intros v Hv. by apply wp_PIMutexUnlock_owned.
  - apply wp_bind, (wp_load pinv). intros m g HI Hg. exists (POwn d c). rewrite list_insert_id by done.
    split; [done|]. apply wp_PIMutexUnlock_owned; [done..|]. by apply (pv_holds m g HI t _ Hg).
Qed.

Lemma wp_PIMutexUnlock_idle t :
  wp pinv (PIMutexUnlock mu) t (fun r φ => r = EPERM /\ φ = PIdle) PIdle.
Proof using All.
  assert (forall m g, pinv m g -> g !! t = Some PIdle -> tid_bits (word m pw) <> tid_of t) as Hno.
  { intros m g HI Hg E. by apply (pv_holds m g HI t _ Hg) in E. }
  assert (forall v, tid_bits v <> tid_of t -> wp pinv (PIMutexUnlock_owned mu (tid_of t) v) t
    (fun r φ => r = EPERM /\ φ = PIdle) PIdle) as Hown.
  { intros v Hv. unfold PIMutexUnlock_owned, tid_bits in *. rewrite (proj2 (Z.eqb_neq _ _) (not_eq_sym Hv)).
    by apply wp_ret. }
  apply wp_bind, wp_tid, wp_bind, wp_type_load. destruct (type =? PTHREAD_MUTEX_NORMAL).
  - apply wp_bind, wp_act. intros m g HI Hg [ok seen] m' [E H]. simpl in *. subst seen.
    pose proof (ptid_pos m g t _ HI Hg) as Hp. specialize (Hno m g HI Hg).
    destruct H as [(-> & Hw & ->)|(-> & Hw & ->)].
    + rewrite Hw, tid_bits_id in Hno by lia. done.
    + exists PIdle. rewrite list_insert_id by done. auto.
  - apply wp_bind, (wp_load pinv). intros m g HI Hg. exists PIdle. rewrite list_insert_id by done. eauto.
Qed.

(** * The interface *)

Lemma wp_pi_state_load t (Q : Z -> pphase -> Prop) φ : Q PI_MUTEX_STATE φ -> wp pinv (atomic_load st) t Q φ.
Proof using All. apply wp_const_load. by intros m (-> & _). Qed.

Definition pi_call_ok (ts : option timespec) (c : lock_call) (d r : Z) : bool :=
  match c with
  | CallTrylock => r =? pi_trylock_result d
  | CallLock => pi_relock_ok false d r
  | CallTimedlock _ => pi_relock_ok (bool_decide (is_Some ts)) d r
  end.

(** What a call gives a thread that does not hold the mutex. *)
Definition pi_first_ok (ts : option timespec) (c : lock_call) (r : Z) : bool :=
  (r =? 0) || match c with
              | CallTrylock => r =? EBUSY
              | CallLock => lock_pi_fails false r
              | CallTimedlock _ => lock_pi_fails (bool_decide (is_Some ts)) r
              end.

Lemma wp_call_idle ts c t :
  wp pinv (run_lock_call sdk mu ts c) t (fun r φ => pi_first_ok ts c r = true /\ φ = if r =? 0 then POwn 0 false else PIdle) PIdle.
Proof using All.
  destruct c; apply wp_bind, wp_pi_state_load.
  - apply wp_bind, wp_ret, wp_bind. apply wp_mono with (2 := wp_PIMutexTryLock_idle t).
    intros r φ [[-> ->]|[-> ->]]; [by apply wp_ret|]. apply (wp_PIMutexTimedLock_idle false None).
  - apply wp_mono with (2 := wp_PIMutexTryLock_idle t). by intros r φ [[-> ->]|[-> ->]].
  - apply wp_bind, wp_ret, wp_PIMutexTimedLock_idle.
Qed.

Lemma wp_pi_call_own ts c t d crit :
  wp pinv (run_lock_call sdk mu ts c) t
    (fun r φ => pi_call_ok ts c d r = true /\ φ = POwn (if r =? 0 then d + 1 else d) crit) (POwn d crit).
Proof using All.
  destruct c; apply wp_bind, wp_pi_state_load.
  - apply wp_bind, wp_ret, wp_bind. apply wp_mono with (2 := wp_PIMutexTryLock_own t d crit).
    intros r φ [-> ->]. destruct (Z.eqb_spec (pi_trylock_result d) 0) as [E|E]; cycle 1.
    { apply (wp_PIMutexTimedLock_own false None). }
    apply wp_ret. split; [|done]. unfold pi_call_ok, pi_relock_ok. rewrite E.
    unfold pi_trylock_result in E. by destruct (type =? PTHREAD_MUTEX_NORMAL).
  - apply wp_mono with (2 := wp_PIMutexTryLock_own t d crit). intros r φ [-> ->].
    split; [|done]. apply Z.eqb_refl.
  - apply wp_bind, wp_ret, wp_PIMutexTimedLock_own.
Qed.

#[export] Instance pi_contract ts :
  MutexContract sdk mu cs ts (pi_first_ok ts) (pi_call_ok ts) pinv PIdle POwn.
Proof using All.
  assert (forall t d c, (d = 0 -> c = false) ->
    wp pinv (pthread_mutex_unlock sdk mu) t (pi_unlocked d c) (POwn d c)) as Hu.
  { intros t d c Hc. apply wp_bind, (wp_load pinv). intros m g HI Hg. exists (POwn d c).
    rewrite list_insert_id by done. split; [done|].
    rewrite (proj1 (pv_const m g HI)). apply wp_PIMutexUnlock_own; [done|]. intros Hne.
    pose proof (pv_depth m g HI t _ Hg) as Hd. unfold max_depth in Hd.
    rewrite (proj2 (Z.eqb_neq _ _) Hne) in Hd. simpl in Hd. lia. }
  split.
  - intros c t. apply wp_call_idle.
  - intros c t d _. apply wp_pi_call_own.
  - intros t. apply wp_bind, wp_pi_state_load, wp_PIMutexUnlock_idle.
  - intros t. by apply (Hu t 0 false).
  - intros t d Hd. eapply wp_mono with (2 := Hu t d true ltac:(lia)). unfold pi_unlocked.
    by rewrite (proj2 (Z.eqb_neq d 0)) by lia.
  - intros m g t HI Hg. replace (word m cs + 1) with (word m cs - b2z false + b2z true) by (simpl; lia).
    by apply (pinv_cs m g t 0 false true).
  - intros m g t HI Hg. replace (word m cs - 1) with (word m cs - b2z true + b2z false) by (simpl; lia).
    by apply (pinv_cs m g t 0 true false).
Qed.

Definition pi_start (m : mem) : Prop :=
  pi_const m /\ word m pw = 0 /\ word m pc = 0 /\ word m cs = 0 /\ forall l sh', waiters m l sh' = [].

Lemma pi_start_inv n m :
  Z.of_nat n <= max_threads -> pi_start m -> pinv m (replicate n PIdle).
Proof using All.
  intros Hn (Hc & Hw & Hp & Hs & Hq). pose proof max_depth_le.
  split; rewrite ?Hw, ?Hp, ?Hs, ?Hq, ?length_replicate, ?total_replicate, ?cnt_replicate by done; try done.
  - intros t φ [-> Ht]%lookup_replicate. simpl. change (tid_bits 0) with 0.
    assert (Z.of_nat t < max_threads) as Htn by lia. pose proof (tid_of_pos t Htn). split; [done|lia].
  - intros t φ [-> _]%lookup_replicate. simpl. lia.
  - apply NoDup_nil_2.
  - intros t Hin. by apply not_elem_of_nil in Hin.
Qed.

(** Mutual exclusion. *)
Lemma pinv_exclusion m g : pinv m g -> 0 <= word m cs <= 1.
Proof using Type.
  intros HI. rewrite (pv_crit m g HI). split; [apply cnt_nonneg|].
  apply cnt_le_1. intros t t' x x' Hx Hx' Hc Hc'.
  apply (ptid_inj m g t t' x x' HI Hx Hx').
  rewrite <- (proj1 (pv_holds m g HI t x Hx)), <- (proj1 (pv_holds m g HI t' x' Hx')); [done|..].
  - by destruct x'.
  - by destruct x.
Qed.

Lemma pinv_asleep m g t p : pinv m g -> asleep m t p = true -> t ∈ queue m.
Proof using Type.
  intros HI Hs. unfold asleep in Hs.
  destruct (waiting_on p) as [[l' sh']|]; [|done]. apply bool_decide_eq_true in Hs.
  destruct (decide ((l', sh') = (pw, sh))) as [[= -> ->]|Hne]; [auto|].
  rewrite (pv_others m g HI l' sh' Hne) in Hs. by apply not_elem_of_nil in Hs.
Qed.

Lemma pi_quiet c g :
  pinv c.2 g -> threads_ok pinv (fun _ φ _ => φ = PIdle) c.1 c.2 g ->
  quiescent c -> forall t p, c.1 !! t = Some p -> finished p = true.
Proof using Type.
  intros HI Hok Hquiet t p Hp. destruct (Hquiet t p Hp) as [Hf|Hs]; [done|exfalso].
  pose proof (pinv_asleep c.2 g t p HI Hs) as Hin.
  assert (queue c.2 <> []) as Hne by (intros E; rewrite E in Hin; by apply not_elem_of_nil in Hin).
  destruct (Z.eq_dec (tid_bits (word c.2 pw)) 0) as [E|E].
  { apply Hne. apply (pinv_free c.2 g HI). by apply (pv_free c.2 g HI). }
  destruct (pv_tid c.2 g HI E) as (t' & φ & Hg & Ht').
  pose proof (proj2 (pv_holds c.2 g HI t' φ Hg) Ht') as Hh.
  destruct (quiescent_cases pinv PIdle c g t' φ Hok Hquiet Hg) as [->|(p' & Hp' & Hs')]; [done|].
  pose proof (pinv_asleep c.2 g t' p' HI Hs') as Hin'. pose proof (pv_queued c.2 g HI t' Hin').
  replace φ with PQueued in Hh by congruence. done.
Qed.

(** When all threads have returned nobody holds the mutex. *)
Lemma pi_released c g :
  pinv c.2 g -> threads_ok pinv (fun _ φ _ => φ = PIdle) c.1 c.2 g ->
  (forall t p, c.1 !! t = Some p -> finished p = true) -> word c.2 pw = 0.
Proof using Type.
  intros HI Hok Hf. apply (pv_free c.2 g HI). destruct (Z.eq_dec (tid_bits (word c.2 pw)) 0) as [E|E]; [done|exfalso].
  destruct (pv_tid c.2 g HI E) as (t & φ & Hg & Ht). apply (pv_holds c.2 g HI t φ Hg) in Ht.
  assert (φ = PIdle) as -> by (destruct (quiescent_cases pinv PIdle c g t φ Hok (fun t p Hp => or_introl (Hf t p Hp)) Hg) as [->|(p & Hp & Hs)];
    [done|specialize (Hf t p Hp); by destruct p]). done.
Qed.

End pi.

(** C24: priority inheritance mutexes of the three types, private or shared, on any kernel that
    keeps the contract of FUTEX_LOCK_PI and FUTEX_UNLOCK_PI.  For the nested client and every
    interleaving: at most one thread is in its critical section; every call gives the result
    it must: a thread that does not hold the mutex gets 0 or, from trylock, EBUSY, or else the error with which the kernel
    refuses to lock; a relock of a normal mutex gives an error of the kernel, such as EDEADLK, or EBUSY from trylock, of an
    error-checking one EDEADLK, of a recursive one 0 and EAGAIN once the 16-bit counter is full; an
    unlock gives 0 to the owner and EPERM to any other thread.  No waiter is forgotten, and when all threads have
    returned the word of the owner is free. *)
Theorem pi_mutex_correct {K : FutexKernel} sdk mu cs bad type sh ts n m c :
  cs <> m_state mu /\ cs <> pi_owner_tid mu /\ cs <> pi_counter mu /\ cs <> pi_type mu /\
    cs <> pi_shared mu ->
  bad <> m_state mu /\ bad <> pi_owner_tid mu /\ bad <> pi_counter mu /\ bad <> cs /\
    bad <> pi_type mu /\ bad <> pi_shared mu ->
  type = PTHREAD_MUTEX_NORMAL \/ type = PTHREAD_MUTEX_RECURSIVE \/
    type = PTHREAD_MUTEX_ERRORCHECK ->
  Z.of_nat n <= max_threads -> pi_start mu cs bad type sh m ->
  reachable (replicate n (nested_client sdk mu cs bad ts (pi_first_ok ts) (pi_call_ok type ts)), m) c ->
  0 <= word c.2 cs <= 1 /\ word c.2 bad = 0 /\
  (quiescent c -> forall t p, c.1 !! t = Some p -> finished p = true) /\
  ((forall t p, c.1 !! t = Some p -> finished p = true) -> word c.2 (pi_owner_tid mu) = 0).
Proof.
  intros Hcs Hbad Ht Hn Hm Hr.
  pose proof (pi_contract sdk mu cs bad type sh Hcs Hbad Ht ts) as HC.
  destruct (nested_client_inv sdk mu cs bad ts _ _ _ PIdle POwn n m c
    (pi_start_inv sdk mu cs bad type sh Hcs Hbad Ht n m Hn Hm) Hr) as (g & HI & Hok).
  split; [by eapply pinv_exclusion|]. split; [apply HI|]. split; [by eapply pi_quiet|]. by eapply pi_released.
Qed.

Definition ex_pi_bad : loc := (2%nat, "bad").
Definition ex_pi_mem : mem :=
  set_word (set_word ex_mem (m_state 0) PI_MUTEX_STATE) (pi_type 0) PTHREAD_MUTEX_RECURSIVE.

(** Thread 0 locks a recursive mutex twice, thread 1 is queued in the kernel. *)
Definition ex_pi_run : machine :=
  run_schedule ex_clock (replicate 24 (0%nat, true) ++ replicate 40 (1%nat, true))
    (replicate 2 (nested_client 30 0 ex_cs ex_pi_bad None (pi_first_ok None) (pi_call_ok PTHREAD_MUTEX_RECURSIVE None)),
     ex_pi_mem).

Lemma pi_mutex_correct_witness :
  word ex_pi_run.2 (pi_counter 0) = 1 /\ waiters ex_pi_run.2 (pi_owner_tid 0) false = [1%nat] /\
  (0 <= word ex_pi_run.2 ex_cs <= 1 /\ word ex_pi_run.2 ex_pi_bad = 0 /\
   (quiescent ex_pi_run -> forall t p, ex_pi_run.1 !! t = Some p -> finished p = true) /\
   ((forall t p, ex_pi_run.1 !! t = Some p -> finished p = true) -> word ex_pi_run.2 (pi_owner_tid 0) = 0)).
Proof.
  split; [vm_compute; reflexivity|]. split; [vm_compute; reflexivity|].
  apply (pi_mutex_correct (K := fifo_kernel) 30 0 ex_cs ex_pi_bad PTHREAD_MUTEX_RECURSIVE false
           None 2 ex_pi_mem ex_pi_run).
  - done.
  - done.
  - by right; left.
  - vm_compute. discriminate.
  - repeat split; done.
  - exact (run_schedule_reachable _ _ _).
Defined.
