(* ===== verification/MutexInit.v ===== *)
(** The life of a mutex: attributes, initialization and destruction. *)

From S2P Require Import Prelude Atomic Futex Lock Mutex MutexNormal MutexRecursive PiMutex.

(** * Attributes *)

Lemma land_cleared a m v : Z.land v m = v -> Z.land (Z.lor (Z.land a (Z.lnot m)) v) m = v.
Proof.
  intros Hv. rewrite Z.land_lor_distr_l, <- Z.land_assoc, (Z.land_comm (Z.lnot m)), Z.land_lnot_diag.
  by rewrite Z.land_0_r, Z.lor_0_l.
Qed.

Lemma land_kept a m v m' :
  Z.land (Z.lnot m) m' = m' -> Z.land v m' = 0 -> Z.land (Z.lor (Z.land a (Z.lnot m)) v) m' = Z.land a m'.
Proof. intros Hm Hv. by rewrite Z.land_lor_distr_l, <- Z.land_assoc, Hm, Hv, Z.lor_0_r. Qed.

(** The three settings an attribute holds. *)
Definition attr_view (attr : Z) : (Z * option Z) * (Z * Z) * (Z * Z) :=
  (pthread_mutexattr_gettype attr, pthread_mutexattr_getpshared attr,
   pthread_mutexattr_getprotocol attr).

(** A setter [set] with valid values [valid] stores its value, keeps the rest and refuses other
    values; [expected] is the view with the value stored. *)
Definition setter_ok (set : Z -> Z -> Z * Z) (valid : Z -> Prop)
    (expected : Z -> Z -> (Z * option Z) * (Z * Z) * (Z * Z)) : Prop :=
  forall attr v,
    (valid v -> (set attr v).1 = 0 /\ attr_view (set attr v).2 = expected attr v) /\
    (~ valid v -> set attr v = (EINVAL, attr)).

Lemma settype_ok :
  setter_ok pthread_mutexattr_settype (fun v => 0 <= v <= 2)
    (fun a v => ((0, Some v), pthread_mutexattr_getpshared a, pthread_mutexattr_getprotocol a)).
Proof.
  intros a v. unfold pthread_mutexattr_settype. split; intros Hv.
  - assert (v = 0 \/ v = 1 \/ v = 2) as Hv3 by lia.
    destruct (Z.ltb_spec v PTHREAD_MUTEX_NORMAL) as [E|_]; [unfold PTHREAD_MUTEX_NORMAL in E; lia|].
    destruct (Z.ltb_spec PTHREAD_MUTEX_ERRORCHECK v) as [E|_]; [unfold PTHREAD_MUTEX_ERRORCHECK in E; lia|].
    split; [done|]. unfold attr_view, pthread_mutexattr_gettype, pthread_mutexattr_getpshared,
      pthread_mutexattr_getprotocol. simpl snd.
    destruct Hv3 as [->|[->| ->]]; by rewrite land_cleared, !land_kept by reflexivity.
  - destruct (Z.ltb_spec v PTHREAD_MUTEX_NORMAL) as [E|E]; [done|].
    destruct (Z.ltb_spec PTHREAD_MUTEX_ERRORCHECK v) as [E'|E']; [done|].
    destruct Hv. unfold PTHREAD_MUTEX_NORMAL, PTHREAD_MUTEX_ERRORCHECK in *. lia.
Qed.

Lemma gettype_ext a a' :
  Z.land a MUTEXATTR_TYPE_MASK = Z.land a' MUTEXATTR_TYPE_MASK ->
  pthread_mutexattr_gettype a = pthread_mutexattr_gettype a'.
Proof. unfold pthread_mutexattr_gettype. by intros ->. Qed.

Lemma setpshared_ok :
  setter_ok pthread_mutexattr_setpshared (fun v => 0 <= v <= 1)
    (fun a v => (pthread_mutexattr_gettype a, (0, v), pthread_mutexattr_getprotocol a)).
Proof.
  intros a v. unfold pthread_mutexattr_setpshared. split; intros Hv.
  - assert (v = 0 \/ v = 1) as [-> | ->] by lia; simpl; (split; [done|]);
      unfold attr_view, pthread_mutexattr_getpshared, pthread_mutexattr_getprotocol.
    + rewrite <- (Z.lor_0_r (Z.land a _)), land_cleared, land_kept by reflexivity.
      rewrite (gettype_ext _ a); [done|]. by rewrite land_kept by reflexivity.
    + rewrite !Z.land_lor_distr_l. change (Z.land MUTEXATTR_SHARED_MASK MUTEXATTR_PROTOCOL_MASK) with 0.
      rewrite Z.lor_0_r, (gettype_ext _ a).
      * do 3 f_equal. unfold truthy. destruct (Z.eqb_spec (Z.lor (Z.land a MUTEXATTR_SHARED_MASK)
          (Z.land MUTEXATTR_SHARED_MASK MUTEXATTR_SHARED_MASK)) 0) as [E|E]; [|done].
        by apply Z.lor_eq_0_iff in E as [_ E].
      * rewrite Z.land_lor_distr_l. apply Z.lor_0_r.
  - destruct (Z.eqb_spec v PTHREAD_PROCESS_PRIVATE) as [->|E]; [by destruct Hv|].
    destruct (Z.eqb_spec v PTHREAD_PROCESS_SHARED) as [->|E']; [by destruct Hv|done].
Qed.

Lemma setprotocol_ok :
  setter_ok pthread_mutexattr_setprotocol (fun v => 0 <= v <= 1)
    (fun a v => (pthread_mutexattr_gettype a, pthread_mutexattr_getpshared a, (0, v))).
Proof.
  intros a v. unfold pthread_mutexattr_setprotocol. split; intros Hv.
  - assert (v = 0 \/ v = 1) as [-> | ->] by lia; simpl; (split; [done|]);
      unfold attr_view, pthread_mutexattr_getpshared, pthread_mutexattr_getprotocol;
      rewrite land_cleared, land_kept by reflexivity;
      (rewrite (gettype_ext _ a); [done|]; by rewrite land_kept by reflexivity).
  - destruct (Z.eqb_spec v PTHREAD_PRIO_NONE) as [->|E]; [by destruct Hv|].
    destruct (Z.eqb_spec v PTHREAD_PRIO_INHERIT) as [->|E']; [by destruct Hv|done].
Qed.

(** The settings of a mutex attribute are independent and kept.  For any attribute, setting
    the type, the sharing or the protocol to a valid value gives 0, the getter of the setting
    then gives the value back and the other two getters give what they gave before; any other
    value gives EINVAL and leaves the attribute alone. *)
Theorem mutexattr_roundtrip :
  setter_ok pthread_mutexattr_settype (fun v => 0 <= v <= 2)
    (fun a v => ((0, Some v), pthread_mutexattr_getpshared a, pthread_mutexattr_getprotocol a)) /\
  setter_ok pthread_mutexattr_setpshared (fun v => 0 <= v <= 1)
    (fun a v => (pthread_mutexattr_gettype a, (0, v), pthread_mutexattr_getprotocol a)) /\
  setter_ok pthread_mutexattr_setprotocol (fun v => 0 <= v <= 1)
    (fun a v => (pthread_mutexattr_gettype a, pthread_mutexattr_getpshared a, (0, v))).
Proof. split; [apply settype_ok|split; [apply setpshared_ok|apply setprotocol_ok]]. Qed.

(** * Initialization *)

(** The mutex that an attribute asks for, ready for the clients of MutexNormal.v,
    MutexRecursive.v and PiMutex.v. *)
Definition mutex_ready (mu : nat) (cs bad : loc) (type : Z) (pi shared : bool) (m : mem) : Prop :=
  let shared_bits := if shared then MUTEX_SHARED_MASK else 0 in
  if pi then pi_start mu cs bad type shared m
  else if type =? PTHREAD_MUTEX_NORMAL
  then lock_start (m_state mu) cs (normal_unlocked shared_bits) (no_bad bad) m
  else recursive_start mu cs bad (MUTEX_TYPE_TO_BITS type) shared_bits m.

Definition mutex_init_result (mu : nat) (cs bad : loc) (attr : option Z) (r : Z) (m : mem) : Prop :=
  match attr with
  | None => r = 0 /\ mutex_ready mu cs bad PTHREAD_MUTEX_NORMAL false false m
  | Some attr =>
      match pthread_mutexattr_gettype attr with
      | (_, None) => r = EINVAL
      | (_, Some type) =>
          r = 0 /\
          mutex_ready mu cs bad type ((pthread_mutexattr_getprotocol attr).2 =? PTHREAD_PRIO_INHERIT)
            ((pthread_mutexattr_getpshared attr).2 =? PTHREAD_PROCESS_SHARED) m
      end
  end.

(** Reads of the memory after the initializer's writes, which are all to [mu]. *)
Ltac reads :=
  repeat first [rewrite word_set_word_eq | rewrite word_set_word_ne by first [done | by intros ->]].

Lemma attr_type_cases attr :
  let type := Z.land attr MUTEXATTR_TYPE_MASK in
  (type = 0 \/ type = 1 \/ type = 2) /\ pthread_mutexattr_gettype attr = (0, Some type) \/
  (type <> 0 /\ type <> 1 /\ type <> 2) /\ pthread_mutexattr_gettype attr = (EINVAL, None).
Proof.
  intros type. unfold pthread_mutexattr_gettype. fold type.
  unfold PTHREAD_MUTEX_NORMAL, PTHREAD_MUTEX_ERRORCHECK.
  destruct (Z.ltb_spec type 0), (Z.ltb_spec 2 type); simpl; [right|right|right|left];
    (split; [lia|done]).
Qed.

(** [pthread_mutex_init] always returns, with EINVAL if the type of the attribute is not
    one of the three, and otherwise with 0 and a mutex in the state from which the theorems on
    the three kinds of mutex start: free, with no owner, with the type, the sharing and the
    protocol of the attribute. *)
Theorem mutex_init_correct clock choice mu cs bad attr t m :
  cs.1 <> mu -> bad.1 <> mu -> word m cs = 0 -> word m bad = 0 ->
  (forall l sh, waiters m l sh = []) ->
  exists r m', exec clock choice 20 t (pthread_mutex_init mu attr) m = Done r m' /\
    mutex_init_result mu cs bad attr r m'.
Proof.
  intros Hcs Hbad Hc Hb Hq.
  destruct attr as [attr|]; unfold pthread_mutex_init, mutex_init_result, mutex_ready, lock_start, no_bad.
  2: { eexists _, _. split; [reflexivity|]. split; [done|]. repeat split; reads; done. }
  destruct (attr_type_cases attr) as [[Ht ->]|[(H0 & H1 & H2) ->]].
  2: { unfold mutex_init_state, PTHREAD_MUTEX_NORMAL, PTHREAD_MUTEX_RECURSIVE, PTHREAD_MUTEX_ERRORCHECK.
       rewrite !(proj2 (Z.eqb_neq _ _)) by done. eexists _, _. split; [reflexivity|done]. }
  assert (mutex_init_state attr = Some (Z.lor (if negb (Z.land attr MUTEXATTR_SHARED_MASK =? 0)
    then MUTEX_SHARED_MASK else 0) (MUTEX_TYPE_TO_BITS (Z.land attr MUTEXATTR_TYPE_MASK)))) as ->
    by (unfold mutex_init_state; by destruct Ht as [->|[->| ->]]).
  unfold pthread_mutexattr_getprotocol, pthread_mutexattr_getpshared, truthy. simpl snd.
  destruct (_ =? PTHREAD_PRIO_INHERIT); eexists _, _; (split; [reflexivity|]); (split; [done|]).
  - repeat split; reads; try done. by destruct (Z.land attr MUTEXATTR_SHARED_MASK =? 0).
  - destruct Ht as [->|[->| ->]]; destruct (Z.land attr MUTEXATTR_SHARED_MASK =? 0);
      repeat split; reads; done.
Qed.

Lemma mutex_init_correct_witness :
  exists r m', exec ex_clock true 20 0 (pthread_mutex_init 7 (Some 0x31)) ex_mem = Done r m' /\
    mutex_init_result 7 ex_cs ex_bad (Some 0x31) r m'.
Proof.
  apply (mutex_init_correct ex_clock true 7 ex_cs ex_bad (Some 0x31) 0 ex_mem); done.
Defined.

(** * Destruction *)

(** The calls on a mutex. *)
Inductive mutex_call := MLock | MTrylock | MTimedlock (ts : option timespec)
| MClocklock (clock : Z) (ts : option timespec) | MUnlock | MDestroy.

Definition run_mutex_call (sdk : Z) (mu : nat) (c : mutex_call) : prog Z :=
  match c with
  | MLock => pthread_mutex_lock sdk mu
  | MTrylock => pthread_mutex_trylock sdk mu
  | MTimedlock ts => pthread_mutex_timedlock sdk mu ts
  | MClocklock clock ts => pthread_mutex_clocklock sdk mu clock ts
  | MUnlock => pthread_mutex_unlock sdk mu
  | MDestroy => pthread_mutex_destroy sdk mu
  end.

(** What a call on a destroyed mutex comes to: applications that target API level 28 or more
    are stopped, others get EBUSY. *)
Definition destroyed_outcome (sdk : Z) (o : outcome Z) : Prop :=
  if 28 <=? sdk then exists m, o = Aborted m else exists m, o = Done EBUSY m.

Lemma handle_destroyed clock choice fuel t sdk m :
  destroyed_outcome sdk (exec clock choice (S fuel) t (HandleUsingDestroyedMutex sdk) m).
Proof.
  unfold destroyed_outcome, HandleUsingDestroyedMutex. destruct (28 <=? sdk); by eexists.
Qed.

Lemma use_after_destroy clock choice sdk mu c t m :
  word m (m_state mu) = 0xffff ->
  destroyed_outcome sdk (exec clock choice 10 t (run_mutex_call sdk mu c) m).
Proof.
  intros Hw. destruct c as [| |ts|clk ts| |]; simpl run_mutex_call;
    unfold pthread_mutex_clocklock, pthread_mutex_timedlock;
    [..|destruct (clk =? CLOCK_MONOTONIC); [|destruct (clk =? CLOCK_REALTIME)]| |];
    unfold pthread_mutex_lock, pthread_mutex_trylock, __pthread_mutex_timedlock, pthread_mutex_unlock,
      pthread_mutex_destroy;
    rewrite exec_load, Hw; exact (handle_destroyed clock choice 8 t sdk _).
Qed.

(** Destruction.  A call of [pthread_mutex_destroy] on a mutex that is not a priority
    inheritance mutex and not destroyed returns 0 if the mutex is free, and EBUSY, with the
    state word unchanged, if it is locked.  Once it has returned 0, every further call on the
    mutex aborts the process, or returns EBUSY to applications that target API levels below
    28. *)
Theorem mutex_destroy_correct clock choice sdk mu t m :
  word m (m_state mu) <> PI_MUTEX_STATE -> word m (m_state mu) <> 0xffff ->
  let unlocked := MUTEX_STATE_BITS_IS_UNLOCKED (word m (m_state mu)) in
  exists m', exec clock choice 10 t (pthread_mutex_destroy sdk mu) m
      = Done (if unlocked then 0 else EBUSY) m' /\
    word m' (m_state mu) = (if unlocked then 0xffff else word m (m_state mu)) /\
    (unlocked = true -> forall clock' choice' c t',
       destroyed_outcome sdk (exec clock' choice' 10 t' (run_mutex_call sdk mu c) m')).
Proof.
  intros Hpi Hd unlocked.
  assert (exists m', exec clock choice 10 t (pthread_mutex_destroy sdk mu) m
      = Done (if unlocked then 0 else EBUSY) m' /\
    word m' (m_state mu) = (if unlocked then 0xffff else word m (m_state mu))) as (m' & He & Hw).
  { unfold pthread_mutex_destroy. rewrite exec_load. unfold IsMutexDestroyed.
    rewrite (proj2 (Z.eqb_neq _ _) Hd), (proj2 (Z.eqb_neq _ _) Hpi). fold unlocked.
    destruct unlocked; [|eexists; split; [reflexivity|]; by rewrite word_set_word_eq].
    simpl. rewrite decide_True, Z.eqb_refl by done. simpl.
    eexists. split; [reflexivity|]. simpl. by rewrite decide_True. }
  exists m'. split; [done|]. split; [done|]. intros Hu clock' choice' c t'.
  apply use_after_destroy. by rewrite Hw, Hu.
Qed.

Lemma mutex_destroy_correct_witness :
  exists m', exec ex_clock true 10 0 (pthread_mutex_destroy 28 0) ex_mem = Done 0 m' /\
    word m' (m_state 0) = 0xffff /\
    (true = true -> forall clock' choice' c t',
       destroyed_outcome 28 (exec clock' choice' 10 t' (run_mutex_call 28 0 c) m')).
Proof. apply (mutex_destroy_correct ex_clock true 28 0 0 ex_mem); discriminate. Defined.
