(* ===== verification/Cond.v ===== *)
(** Condition variables: libc/bionic/pthread_cond.cpp, for 64-bit targets.

    The state word holds a counter above the flags for sharing and clock; a waiter sleeps while
    the counter has the value it saw before it released the mutex. *)

From S2P Require Import Prelude Atomic Futex Lock Mutex.

Abbreviation COND_SHARED_MASK := 0x0001.
Abbreviation COND_CLOCK_MASK := 0x0002.
Abbreviation COND_COUNTER_STEP := 0x0004.
Abbreviation COND_FLAGS_MASK := (Z.lor COND_SHARED_MASK COND_CLOCK_MASK).
Abbreviation COND_COUNTER_MASK := (Z.lnot COND_FLAGS_MASK).

Definition COND_IS_SHARED (c : Z) : bool := truthy (Z.land c COND_SHARED_MASK).
Definition COND_GET_CLOCK (c : Z) : Z := Z.shiftr (Z.land c COND_CLOCK_MASK) 1.
Definition COND_SET_CLOCK (attr c : Z) : Z := Z.lor attr (Z.shiftl c 1).

(** Attributes, as functions from the attribute to the result and the new attribute, or the value
    stored through the pointer. *)
Definition pthread_condattr_init (_ : Z) : Z * Z :=
  (0, Z.lor (Z.lor 0 PTHREAD_PROCESS_PRIVATE) (Z.shiftl CLOCK_REALTIME 1)).

Definition pthread_condattr_getpshared (attr : Z) : Z * Z := (0, b2z (COND_IS_SHARED attr)).

Definition pthread_condattr_setpshared (attr pshared : Z) : Z * Z :=
  if negb (pshared =? PTHREAD_PROCESS_SHARED) && negb (pshared =? PTHREAD_PROCESS_PRIVATE)
  then (EINVAL, attr) else (0, Z.lor attr pshared).

Definition pthread_condattr_getclock (attr : Z) : Z * Z := (0, COND_GET_CLOCK attr).

Definition pthread_condattr_setclock (attr clock : Z) : Z * Z :=
  if negb (clock =? CLOCK_MONOTONIC) && negb (clock =? CLOCK_REALTIME)
  then (EINVAL, attr) else (0, COND_SET_CLOCK attr clock).

Definition pthread_condattr_destroy (_ : Z) : Z * Z := (0, 0xdeada11d).

(** The fields of [pthread_cond_internal_t]. *)
Definition c_state (cond : nat) : loc := (cond, "state").
Definition c_waiters (cond : nat) : loc := (cond, "waiters").

Definition process_shared (cond : nat) : prog bool :=
  s <- atomic_load (c_state cond) ;; Ret (COND_IS_SHARED s).

Definition use_realtime_clock (cond : nat) : prog bool :=
  s <- atomic_load (c_state cond) ;; Ret (COND_GET_CLOCK s =? CLOCK_REALTIME).

Definition pthread_cond_init (cond : nat) (attr : option Z) : prog Z :=
  let init_state := match attr with Some a => Z.land a COND_FLAGS_MASK | None => 0 end in
  atomic_store (c_state cond) init_state ;;
  atomic_store (c_waiters cond) 0 ;;
  Ret 0.

Definition pthread_cond_destroy (cond : nat) : prog Z :=
  atomic_store (c_state cond) 0xdeadc04d ;; Ret 0.

Definition __pthread_cond_pulse (cond : nat) (thread_count : Z) : prog Z :=
  n <- atomic_load (c_waiters cond) ;;
  if n =? 0 then Ret 0 else
  atomic_fetch_add 32 (c_state cond) COND_COUNTER_STEP ;;
  shared <- process_shared cond ;;
  __futex_wake_ex (c_state cond) shared thread_count ;;
  Ret 0.

Section api.
(** [android_get_application_target_sdk_version()], for the mutex. *)
Context (target_sdk : Z).

Definition __pthread_cond_timedwait (cond mutex : nat) (use_realtime_clock : bool)
    (abs_timeout_or_null : option timespec) : prog Z :=
  result <- check_timespec_p abs_timeout_or_null true ;;
  if negb (result =? 0) then Ret result else
  old_state <- atomic_load (c_state cond) ;;
  atomic_fetch_add 32 (c_waiters cond) 1 ;;
  pthread_mutex_unlock target_sdk mutex ;;
  shared <- process_shared cond ;;
  status <- __futex_wait_ex (c_state cond) shared old_state use_realtime_clock abs_timeout_or_null ;;
  atomic_fetch_sub 32 (c_waiters cond) 1 ;;
  pthread_mutex_lock target_sdk mutex ;;
  Ret (if status =? - ETIMEDOUT then ETIMEDOUT else 0).

Definition pthread_cond_broadcast (cond : nat) : prog Z := __pthread_cond_pulse cond INT_MAX.

Definition pthread_cond_signal (cond : nat) : prog Z := __pthread_cond_pulse cond 1.

Definition pthread_cond_wait (cond mutex : nat) : prog Z :=
  __pthread_cond_timedwait cond mutex false None.

Definition pthread_cond_timedwait (cond mutex : nat) (abstime : option timespec) : prog Z :=
  rt <- use_realtime_clock cond ;;
  __pthread_cond_timedwait cond mutex rt abstime.

Definition pthread_cond_timedwait_monotonic_np (cond mutex : nat) (abs_timeout : option timespec) : prog Z :=
  __pthread_cond_timedwait cond mutex false abs_timeout.

Definition pthread_cond_clockwait (cond mutex : nat) (clock : Z) (abs_timeout : option timespec) : prog Z :=
  if clock =? CLOCK_MONOTONIC then pthread_cond_timedwait_monotonic_np cond mutex abs_timeout
  else if clock =? CLOCK_REALTIME then __pthread_cond_timedwait cond mutex true abs_timeout
  else Ret EINVAL.

(** 32-bit builds only. *)
Definition pthread_cond_timedwait_relative_np (cond mutex : nat) (rel_timeout : option timespec) : prog Z :=
  abs_timeout <- match rel_timeout with
                 | Some ts => a <- absolute_timespec_from_timespec ts CLOCK_MONOTONIC ;; Ret (Some a)
                 | None => Ret None
                 end ;;
  __pthread_cond_timedwait cond mutex false abs_timeout.

Definition pthread_cond_timeout_np (cond mutex : nat) (ms : Z) : prog Z :=
  pthread_cond_timedwait_relative_np cond mutex (Some (timespec_from_ms (wrapS 32 ms))).

End api.

(** * Attributes and initialization *)

Lemma land_bit a i : 0 <= i -> Z.shiftr (Z.land a (Z.shiftl 1 i)) i = b2z (Z.testbit a i).
Proof.
  intros Hi. apply Z.bits_inj'. intros j Hj. rewrite Z.shiftr_spec, Z.land_spec, Z.shiftl_spec by lia.
  replace (j + i - i) with j by lia. destruct (Z.eq_dec j 0) as [->|Hne].
  - rewrite Z.add_0_l, Z.bit0_odd. destruct (Z.testbit a i); done.
  - replace (Z.testbit 1 j) with false by (symmetry; apply Z.bits_above_log2; simpl; lia).
    rewrite andb_false_r. destruct (Z.testbit a i); symmetry; [|by apply Z.bits_0].
    apply Z.bits_above_log2; simpl; lia.
Qed.

Lemma getpshared_bit attr : (pthread_condattr_getpshared attr).2 = b2z (Z.testbit attr 0).
Proof.
  unfold pthread_condattr_getpshared, COND_IS_SHARED. cbn [snd]. rewrite <- (Z.shiftr_0_r (Z.land attr COND_SHARED_MASK)).
  change COND_SHARED_MASK with (Z.shiftl 1 0). by rewrite land_bit, truthy_b2z.
Qed.

Lemma getclock_bit attr : (pthread_condattr_getclock attr).2 = b2z (Z.testbit attr 1).
Proof. unfold pthread_condattr_getclock, COND_GET_CLOCK. cbn [snd]. by rewrite <- (land_bit attr 1). Qed.

(** The settings of a condition variable.  On any attribute, setting the sharing or the clock
    to one of its two values returns 0 and leaves the other setting alone, and the value read
    back is the larger of the old and the new one: the setters only ever set their bit, and a
    later call with [PTHREAD_PROCESS_PRIVATE] or [CLOCK_REALTIME] has no effect.  Other values
    give EINVAL and change nothing.  [pthread_cond_init] takes both settings over. *)
Theorem cond_settings clock choice cond attr t m :
  (forall p, p = PTHREAD_PROCESS_PRIVATE \/ p = PTHREAD_PROCESS_SHARED ->
     let r := pthread_condattr_setpshared attr p in
     r.1 = 0 /\ (pthread_condattr_getclock r.2).2 = (pthread_condattr_getclock attr).2 /\
     (pthread_condattr_getpshared r.2).2 = Z.max (pthread_condattr_getpshared attr).2 p) /\
  (forall c, c = CLOCK_REALTIME \/ c = CLOCK_MONOTONIC ->
     let r := pthread_condattr_setclock attr c in
     r.1 = 0 /\ (pthread_condattr_getpshared r.2).2 = (pthread_condattr_getpshared attr).2 /\
     (pthread_condattr_getclock r.2).2 = Z.max (pthread_condattr_getclock attr).2 c) /\
  (forall x, x <> 0 -> x <> 1 ->
     pthread_condattr_setpshared attr x = (EINVAL, attr) /\ pthread_condattr_setclock attr x = (EINVAL, attr)) /\
  (exists m', exec clock choice 10 t (pthread_cond_init cond (Some attr)) m = Done 0 m' /\
     word m' (c_waiters cond) = 0 /\
     COND_IS_SHARED (word m' (c_state cond)) = truthy (pthread_condattr_getpshared attr).2 /\
     COND_GET_CLOCK (word m' (c_state cond)) = (pthread_condattr_getclock attr).2).
Proof.
  split; [|split; [|split]].
  - intros p Hp r. rewrite !getclock_bit, !getpshared_bit. unfold r, pthread_condattr_setpshared.
    destruct Hp as [-> | ->]; simpl fst; simpl snd; rewrite !Z.lor_spec; (split; [done|]).
    + change (Z.testbit PTHREAD_PROCESS_PRIVATE 1) with false. change (Z.testbit PTHREAD_PROCESS_PRIVATE 0) with false.
      rewrite !orb_false_r. split; [done|]. by destruct (Z.testbit attr 0).
    + change (Z.testbit PTHREAD_PROCESS_SHARED 1) with false. change (Z.testbit PTHREAD_PROCESS_SHARED 0) with true.
      rewrite orb_false_r, orb_true_r. split; [done|]. by destruct (Z.testbit attr 0).
  - intros c Hc r. rewrite !getclock_bit, !getpshared_bit. unfold r, pthread_condattr_setclock, COND_SET_CLOCK.
    destruct Hc as [-> | ->]; simpl fst; simpl snd; rewrite !Z.lor_spec; (split; [done|]).
    + change (Z.testbit (Z.shiftl CLOCK_REALTIME 1) 1) with false. change (Z.testbit (Z.shiftl CLOCK_REALTIME 1) 0) with false.
      rewrite !orb_false_r. split; [done|]. by destruct (Z.testbit attr 1).
    + change (Z.testbit (Z.shiftl CLOCK_MONOTONIC 1) 1) with true. change (Z.testbit (Z.shiftl CLOCK_MONOTONIC 1) 0) with false.
      rewrite orb_false_r, orb_true_r. split; [done|]. by destruct (Z.testbit attr 1).
  - intros x H0 H1. unfold pthread_condattr_setpshared, pthread_condattr_setclock, PTHREAD_PROCESS_SHARED,
      PTHREAD_PROCESS_PRIVATE, CLOCK_MONOTONIC, CLOCK_REALTIME.
    by rewrite (proj2 (Z.eqb_neq x 0) H0), (proj2 (Z.eqb_neq x 1) H1).
  - eexists. split; [reflexivity|]. rewrite word_set_word_eq, word_set_word_ne, word_set_word_eq by done. split; [done|].
    unfold pthread_condattr_getpshared, pthread_condattr_getclock, COND_IS_SHARED, COND_GET_CLOCK. cbn [snd].
    rewrite truthy_b2z, <- !Z.land_assoc. done.
Qed.

(** A shared attribute that is made private again. *)
Lemma cond_settings_witness :
  (pthread_condattr_getpshared (pthread_condattr_setpshared 1 PTHREAD_PROCESS_PRIVATE).2).2 = PTHREAD_PROCESS_SHARED.
Proof.
  destruct (cond_settings (fun _ => mk_timespec 0 0) true 0 1 0 (mk_mem (fun _ => 0) (fun _ _ => []) (fun _ => 0)))
    as (H & _ & _ & _). destruct (H PTHREAD_PROCESS_PRIVATE (or_introl eq_refl)) as (_ & _ & E). exact E.
Defined.
