(* ===== verification/Rwlock.v ===== *)
(** Read/write locks: libc/bionic/pthread_rwlock.cpp. *)

From S2P Require Import Prelude Atomic Futex Lock.

(** * Attributes *)

Definition PTHREAD_RWLOCK_PREFER_READER_NP : Z := 0.
Definition PTHREAD_RWLOCK_PREFER_WRITER_NONRECURSIVE_NP : Z := 1.

Definition RWLOCKATTR_PSHARED_SHIFT : Z := 0.
Definition RWLOCKATTR_KIND_SHIFT : Z := 1.
Definition RWLOCKATTR_PSHARED_MASK : Z := 1.
Definition RWLOCKATTR_KIND_MASK : Z := 2.
Definition RWLOCKATTR_RESERVED_MASK : Z := Z.lnot 3.

Definition __rwlockattr_getpshared (attr : Z) : bool :=
  truthy (Z.shiftr (Z.land attr RWLOCKATTR_PSHARED_MASK) RWLOCKATTR_PSHARED_SHIFT).
Definition __rwlockattr_setpshared (attr pshared : Z) : Z :=
  Z.lor (Z.land attr (Z.lnot RWLOCKATTR_PSHARED_MASK)) (Z.shiftl pshared RWLOCKATTR_PSHARED_SHIFT).
Definition __rwlockattr_getkind (attr : Z) : Z :=
  Z.shiftr (Z.land attr RWLOCKATTR_KIND_MASK) RWLOCKATTR_KIND_SHIFT.
Definition __rwlockattr_setkind (attr kind : Z) : Z :=
  Z.lor (Z.land attr (Z.lnot RWLOCKATTR_KIND_MASK)) (Z.shiftl kind RWLOCKATTR_KIND_SHIFT).

(** The functions on attributes give the result and the attribute, or what they store. *)
Definition pthread_rwlockattr_init (_ : Z) : Z * Z := (0, 0).
Definition pthread_rwlockattr_destroy (_ : Z) : Z * Z := (0, -1).
Definition pthread_rwlockattr_getpshared (attr : Z) : Z * Z :=
  (0, if __rwlockattr_getpshared attr then PTHREAD_PROCESS_SHARED else PTHREAD_PROCESS_PRIVATE).
Definition pthread_rwlockattr_setpshared (attr pshared : Z) : Z * Z :=
  if pshared =? PTHREAD_PROCESS_PRIVATE then (0, __rwlockattr_setpshared attr 0)
  else if pshared =? PTHREAD_PROCESS_SHARED then (0, __rwlockattr_setpshared attr 1)
  else (EINVAL, attr).
Definition pthread_rwlockattr_getkind_np (attr : Z) : Z * Z := (0, __rwlockattr_getkind attr).
Definition pthread_rwlockattr_setkind_np (attr pref : Z) : Z * Z :=
  if (pref =? PTHREAD_RWLOCK_PREFER_READER_NP) || (pref =? PTHREAD_RWLOCK_PREFER_WRITER_NONRECURSIVE_NP)
  then (0, __rwlockattr_setkind attr pref)
  else (EINVAL, attr).

(** * The state word *)

Definition STATE_HAVE_PENDING_READERS_FLAG : Z := Z.shiftl 1 0.
Definition STATE_HAVE_PENDING_WRITERS_FLAG : Z := Z.shiftl 1 1.
Definition STATE_READER_COUNT_SHIFT : Z := 2.
Definition STATE_READER_COUNT_CHANGE_STEP : Z := Z.shiftl 1 STATE_READER_COUNT_SHIFT.
(* bit 31 of an int *)
Definition STATE_OWNED_BY_WRITER_FLAG : Z := wrapS 32 (Z.shiftl 1 31).
Definition STATE_HAVE_PENDING_READERS_OR_WRITERS_FLAG : Z :=
  Z.lor STATE_HAVE_PENDING_READERS_FLAG STATE_HAVE_PENDING_WRITERS_FLAG.

Definition __state_owned_by_writer (state : Z) : bool := state <? 0.
Definition __state_owned_by_readers (state : Z) : bool := STATE_READER_COUNT_CHANGE_STEP <=? state.
Definition __state_owned_by_readers_or_writer (state : Z) : bool :=
  (state <? 0) || (STATE_READER_COUNT_CHANGE_STEP <=? state).
Definition __state_add_writer_flag (state : Z) : Z := Z.lor state STATE_OWNED_BY_WRITER_FLAG.
Definition __state_is_last_reader (state : Z) : bool := Z.shiftr state STATE_READER_COUNT_SHIFT =? 1.
Definition __state_have_pending_writers (state : Z) : bool :=
  truthy (Z.land state STATE_HAVE_PENDING_WRITERS_FLAG).
Definition __state_have_pending_readers_or_writers (state : Z) : bool :=
  truthy (Z.land state STATE_HAVE_PENDING_READERS_OR_WRITERS_FLAG).

(** * The members of a lock, at its address *)

Definition rw_state (rw : nat) : loc := (rw, "state").
Definition rw_writer_tid (rw : nat) : loc := (rw, "writer_tid").
Definition rw_pshared (rw : nat) : loc := (rw, "pshared").
Definition rw_prefer (rw : nat) : loc := (rw, "writer_nonrecursive_preferred").
Definition rw_lock (rw : nat) : Lock :=
  mk_Lock (rw, "pending_lock.state") (rw, "pending_lock.process_shared").
Definition rw_reader_count (rw : nat) : loc := (rw, "pending_reader_count").
Definition rw_writer_count (rw : nat) : loc := (rw, "pending_writer_count").
Definition rw_reader_serial (rw : nat) : loc := (rw, "pending_reader_wakeup_serial").
Definition rw_writer_serial (rw : nat) : loc := (rw, "pending_writer_wakeup_serial").

Definition atomic_fetch_or (l : loc) (v : Z) : prog Z := act (Rmw l (fun x => Z.lor x v)).
Definition atomic_fetch_and (l : loc) (v : Z) : prog Z := act (Rmw l (fun x => Z.land x v)).

(** [x++] and [x--] on a [uint32_t] that is not atomic. *)
Definition increment32 (l : loc) : prog unit := x <- atomic_load l ;; atomic_store l (wrapU 32 (x + 1)).
Definition decrement32 (l : loc) : prog unit := x <- atomic_load l ;; atomic_store l (wrapU 32 (x - 1)).

Definition rwlock_memset (rw : nat) : prog unit :=
  atomic_store (rw_state rw) 0 ;;
  atomic_store (rw_writer_tid rw) 0 ;;
  atomic_store (rw_pshared rw) 0 ;;
  atomic_store (rw_prefer rw) 0 ;;
  atomic_store (lock_state (rw_lock rw)) 0 ;;
  atomic_store (lock_process_shared (rw_lock rw)) 0 ;;
  atomic_store (rw_reader_count rw) 0 ;;
  atomic_store (rw_writer_count rw) 0 ;;
  atomic_store (rw_reader_serial rw) 0 ;;
  atomic_store (rw_writer_serial rw) 0.

(** What [pthread_rwlock_init] does with an attribute; [true] if it goes on. *)
Definition rwlock_init_attr (rw : nat) (attr : Z) : prog bool :=
  atomic_store (rw_pshared rw) (b2z (__rwlockattr_getpshared attr)) ;;
  let kind := __rwlockattr_getkind attr in
  known <- (if kind =? PTHREAD_RWLOCK_PREFER_READER_NP
            then atomic_store (rw_prefer rw) (b2z false) ;; Ret true
            else if kind =? PTHREAD_RWLOCK_PREFER_WRITER_NONRECURSIVE_NP
            then atomic_store (rw_prefer rw) (b2z true) ;; Ret true
            else Ret false) ;;
  Ret ((known : bool) && (Z.land attr RWLOCKATTR_RESERVED_MASK =? 0)).

Definition pthread_rwlock_init (rw : nat) (attr : option Z) : prog Z :=
  rwlock_memset rw ;;
  ok <- match attr with Some a => rwlock_init_attr rw a | None => Ret true end ;;
  if negb (ok : bool) then Ret EINVAL else
  atomic_store (rw_state rw) 0 ;;
  pshared <- atomic_load (rw_pshared rw) ;;
  Lock_init (rw_lock rw) (truthy pshared) ;;
  Ret 0.

Definition pthread_rwlock_destroy (rw : nat) : prog Z :=
  state <- atomic_load (rw_state rw) ;;
  Ret (if negb (state =? 0) then EBUSY else 0).

(** * Readers *)

Definition __can_acquire_read_lock (old_state : Z) (writer_nonrecursive_preferred : bool) : bool :=
  let cannot_apply := __state_owned_by_writer old_state ||
    (writer_nonrecursive_preferred && __state_have_pending_writers old_state) in
  negb cannot_apply.

(** The sum is computed on [int]; it wraps around when the reader count overflows. *)
Definition __pthread_rwlock_tryrdlock (rw : nat) : prog Z :=
  old_state <- atomic_load (rw_state rw) ;;
  loop (fun old_state : Z =>
    prefer <- atomic_load (rw_prefer rw) ;;
    if __can_acquire_read_lock old_state (truthy prefer) then
      let new_state := wrapS 32 (old_state + STATE_READER_COUNT_CHANGE_STEP) in
      if negb (__state_owned_by_readers new_state) then Ret (inr EAGAIN) else
      let2 ok, seen <- atomic_compare_exchange_weak (rw_state rw) old_state new_state ;;
      Ret (if (ok : bool) then inr 0 else inl seen)
    else Ret (inr EBUSY)) old_state.

(** From [rwlock->pending_lock.lock()] to the end of an iteration, for readers and writers:
    [flag], [count] and [serial] are the members of the side, [can_acquire] its test. *)
Definition rwlock_wait (rw : nat) (flag : Z) (count serial : loc) (can_acquire : Z -> prog bool)
    (use_realtime_clock : bool) (abs_timeout_or_null : option timespec) : prog Z :=
  Lock_lock (rw_lock rw) ;;
  increment32 count ;;
  old_state <- atomic_fetch_or (rw_state rw) flag ;;
  old_serial <- atomic_load serial ;;
  Lock_unlock (rw_lock rw) ;;
  can <- can_acquire old_state ;;
  futex_result <- (if negb (can : bool) then
                     pshared <- atomic_load (rw_pshared rw) ;;
                     __futex_wait_ex serial (truthy pshared) old_serial use_realtime_clock
                       abs_timeout_or_null
                   else Ret 0) ;;
  Lock_lock (rw_lock rw) ;;
  decrement32 count ;;
  n <- atomic_load count ;;
  (if n =? 0 then atomic_fetch_and (rw_state rw) (Z.lnot flag) ;; Ret tt else Ret tt) ;;
  Lock_unlock (rw_lock rw) ;;
  Ret futex_result.

Definition rwlock_can_read (rw : nat) (state : Z) : prog bool :=
  prefer <- atomic_load (rw_prefer rw) ;; Ret (__can_acquire_read_lock state (truthy prefer)).

Definition __pthread_rwlock_timedrdlock (rw : nat) (use_realtime_clock : bool)
    (abs_timeout_or_null : option timespec) : prog Z :=
  writer <- atomic_load (rw_writer_tid rw) ;;
  tid <- act GetTid ;;
  if writer =? tid then Ret EDEADLK else
  loop (fun _ : unit =>
    result <- __pthread_rwlock_tryrdlock rw ;;
    if (result =? 0) || (result =? EAGAIN) then Ret (inr result) else
    result <- check_timespec_p abs_timeout_or_null true ;;
    if negb (result =? 0) then Ret (inr result) else
    old_state <- atomic_load (rw_state rw) ;;
    can <- rwlock_can_read rw old_state ;;
    if (can : bool) then Ret (inl tt) else
    futex_result <- rwlock_wait rw STATE_HAVE_PENDING_READERS_FLAG (rw_reader_count rw)
      (rw_reader_serial rw) (rwlock_can_read rw) use_realtime_clock abs_timeout_or_null ;;
    Ret (if futex_result =? - ETIMEDOUT then inr ETIMEDOUT else inl tt)) tt.

(** * Writers *)

Definition __can_acquire_write_lock (old_state : Z) : bool :=
  negb (__state_owned_by_readers_or_writer old_state).

Definition __pthread_rwlock_trywrlock (rw : nat) : prog Z :=
  old_state <- atomic_load (rw_state rw) ;;
  loop (fun old_state : Z =>
    if __can_acquire_write_lock old_state then
      let2 ok, seen <- atomic_compare_exchange_weak (rw_state rw) old_state
                         (__state_add_writer_flag old_state) ;;
      if (ok : bool) then
        tid <- act GetTid ;;
        atomic_store (rw_writer_tid rw) tid ;;
        Ret (inr 0)
      else Ret (inl seen)
    else Ret (inr EBUSY)) old_state.

Definition __pthread_rwlock_timedwrlock (rw : nat) (use_realtime_clock : bool)
    (abs_timeout_or_null : option timespec) : prog Z :=
  writer <- atomic_load (rw_writer_tid rw) ;;
  tid <- act GetTid ;;
  if writer =? tid then Ret EDEADLK else
  loop (fun _ : unit =>
    result <- __pthread_rwlock_trywrlock rw ;;
    if result =? 0 then Ret (inr result) else
    result <- check_timespec_p abs_timeout_or_null true ;;
    if negb (result =? 0) then Ret (inr result) else
    old_state <- atomic_load (rw_state rw) ;;
    if __can_acquire_write_lock old_state then Ret (inl tt) else
    futex_result <- rwlock_wait rw STATE_HAVE_PENDING_WRITERS_FLAG (rw_writer_count rw)
      (rw_writer_serial rw) (fun s => Ret (__can_acquire_write_lock s)) use_realtime_clock
      abs_timeout_or_null ;;
    Ret (if futex_result =? - ETIMEDOUT then inr ETIMEDOUT else inl tt)) tt.

(** * The interface *)

Definition pthread_rwlock_rdlock (rw : nat) : prog Z :=
  r <- __pthread_rwlock_tryrdlock rw ;;
  if r =? 0 then Ret 0 else __pthread_rwlock_timedrdlock rw false None.

Definition pthread_rwlock_timedrdlock (rw : nat) (abs_timeout : option timespec) : prog Z :=
  __pthread_rwlock_timedrdlock rw true abs_timeout.

Definition pthread_rwlock_timedrdlock_monotonic_np (rw : nat) (abs_timeout : option timespec) : prog Z :=
  __pthread_rwlock_timedrdlock rw false abs_timeout.

Definition pthread_rwlock_clockrdlock (rw : nat) (clock : Z) (abs_timeout : option timespec) : prog Z :=
  if clock =? CLOCK_MONOTONIC then pthread_rwlock_timedrdlock_monotonic_np rw abs_timeout
  else if clock =? CLOCK_REALTIME then pthread_rwlock_timedrdlock rw abs_timeout
  else Ret EINVAL.

Definition pthread_rwlock_tryrdlock (rw : nat) : prog Z := __pthread_rwlock_tryrdlock rw.

Definition pthread_rwlock_wrlock (rw : nat) : prog Z :=
  r <- __pthread_rwlock_trywrlock rw ;;
  if r =? 0 then Ret 0 else __pthread_rwlock_timedwrlock rw false None.

Definition pthread_rwlock_timedwrlock (rw : nat) (abs_timeout : option timespec) : prog Z :=
  __pthread_rwlock_timedwrlock rw true abs_timeout.

Definition pthread_rwlock_timedwrlock_monotonic_np (rw : nat) (abs_timeout : option timespec) : prog Z :=
  __pthread_rwlock_timedwrlock rw false abs_timeout.

Definition pthread_rwlock_clockwrlock (rw : nat) (clock : Z) (abs_timeout : option timespec) : prog Z :=
  if clock =? CLOCK_MONOTONIC then pthread_rwlock_timedwrlock_monotonic_np rw abs_timeout
  else if clock =? CLOCK_REALTIME then pthread_rwlock_timedwrlock rw abs_timeout
  else Ret EINVAL.

Definition pthread_rwlock_trywrlock (rw : nat) : prog Z := __pthread_rwlock_trywrlock rw.

(** From the comment "Wake up pending readers or writers". *)
Definition rwlock_wake_pending (rw : nat) : prog Z :=
  Lock_lock (rw_lock rw) ;;
  writers <- atomic_load (rw_writer_count rw) ;;
  if negb (writers =? 0) then
    increment32 (rw_writer_serial rw) ;;
    Lock_unlock (rw_lock rw) ;;
    pshared <- atomic_load (rw_pshared rw) ;;
    __futex_wake_ex (rw_writer_serial rw) (truthy pshared) 1 ;;
    Ret 0
  else
  readers <- atomic_load (rw_reader_count rw) ;;
  if negb (readers =? 0) then
    increment32 (rw_reader_serial rw) ;;
    Lock_unlock (rw_lock rw) ;;
    pshared <- atomic_load (rw_pshared rw) ;;
    __futex_wake_ex (rw_reader_serial rw) (truthy pshared) INT_MAX ;;
    Ret 0
  else Lock_unlock (rw_lock rw) ;; Ret 0.

Definition pthread_rwlock_unlock (rw : nat) : prog Z :=
  old_state <- atomic_load (rw_state rw) ;;
  if __state_owned_by_writer old_state then
    writer <- atomic_load (rw_writer_tid rw) ;;
    tid <- act GetTid ;;
    if negb (writer =? tid) then Ret EPERM else
    atomic_store (rw_writer_tid rw) 0 ;;
    old_state <- atomic_fetch_and (rw_state rw) (Z.lnot STATE_OWNED_BY_WRITER_FLAG) ;;
    if negb (__state_have_pending_readers_or_writers old_state) then Ret 0
    else rwlock_wake_pending rw
  else if __state_owned_by_readers old_state then
    old_state <- act (Rmw (rw_state rw) (fun x => wrapS 32 (x - STATE_READER_COUNT_CHANGE_STEP))) ;;
    if negb (__state_is_last_reader old_state) ||
       negb (__state_have_pending_readers_or_writers old_state) then Ret 0
    else rwlock_wake_pending rw
  else Ret EPERM.
