(* ===== verification/RwlockExclusion.v ===== *)
(** Read/write locks exclude writers from readers and from each other, count readers, and give
    the results they must, for any number of threads; and a wake-up that goes to a writer whose
    time runs out is lost. *)

From S2P Require Import Prelude Atomic Futex Lock Rwlock.

(** * The state word: [-2^31] for a writer, [4] for each reader, and two pending bits *)

Lemma low_land k p : 0 <= p < 4 -> Z.land (4 * k) p = 0.
Proof. intros Hp. rewrite Z.mul_comm. by apply (land_low_bits 2). Qed.

Lemma low_lor k p : 0 <= p < 4 -> Z.lor (4 * k) p = 4 * k + p.
Proof. intros Hp. rewrite Z.mul_comm. by apply (lor_low_bits 2). Qed.

Lemma state_or k p f : 0 <= p < 4 -> 0 <= f < 4 ->
  Z.lor (4 * k + p) f = 4 * k + Z.lor p f /\ 0 <= Z.lor p f < 4.
Proof.
  intros Hp Hf. assert (0 <= Z.lor p f < 4) as H.
  { assert (p = 0 \/ p = 1 \/ p = 2 \/ p = 3) as [->|[->|[->| ->]]] by lia;
      assert (f = 0 \/ f = 1 \/ f = 2 \/ f = 3) as [->|[->|[->| ->]]] by lia; (split; [discriminate|reflexivity]). }
  split; [|done]. by rewrite <- low_lor, <- Z.lor_assoc, low_lor.
Qed.

Lemma state_clear k p f : 0 <= p < 4 -> 0 <= f < 4 ->
  exists p', Z.land (4 * k + p) (Z.lnot f) = 4 * k + p' /\ 0 <= p' < 4.
Proof.
  intros Hp Hf. exists (Z.land p (Z.lnot f)).
  assert (0 <= Z.land p (Z.lnot f) < 4) as H.
  { assert (p = 0 \/ p = 1 \/ p = 2 \/ p = 3) as [->|[->|[->| ->]]] by lia;
      assert (f = 0 \/ f = 1 \/ f = 2 \/ f = 3) as [->|[->|[->| ->]]] by lia; (split; [discriminate|reflexivity]). }
  split; [|done]. rewrite <- low_lor, Z.land_lor_distr_l, <- (low_lor k (Z.land p _)) by done.
  f_equal. pose proof (Z.lor_ldiff_and (4 * k) f) as E. rewrite low_land, Z.lor_0_r in E by done.
  by rewrite <- Z.ldiff_land.
Qed.

Lemma state_add_writer s : 0 <= s < 2 ^ 31 -> __state_add_writer_flag s = s - 2 ^ 31.
Proof.
  intros Hs. unfold __state_add_writer_flag. change STATE_OWNED_BY_WRITER_FLAG with (Z.lnot (Z.ones 31)).
  pose proof (Z.add_lor_land s (Z.lnot (Z.ones 31))) as E. rewrite <- Z.ldiff_land in E.
  rewrite Z.ldiff_ones_r_low in E; [change (Z.lnot (Z.ones 31)) with (- 2 ^ 31) in *; lia|lia|].
  destruct (Z.eq_dec s 0) as [->|]; [done|]. apply Z.log2_lt_pow2; lia.
Qed.

Lemma state_clear_writer s : 0 <= s + 2 ^ 31 < 2 ^ 31 ->
  Z.land s (Z.lnot STATE_OWNED_BY_WRITER_FLAG) = s + 2 ^ 31.
Proof.
  intros Hs. change (Z.lnot STATE_OWNED_BY_WRITER_FLAG) with (Z.ones 31). rewrite Z.land_ones by done.
  rewrite <- (Z.mod_add s 1) by done. rewrite Z.mul_1_l. by apply Z.mod_small.
Qed.

(** * The invariant *)

Inductive wphase :=
| WRead (n c : Z)     (* holds [n] read locks, is in [c] read sections; idle if [n] is 0 *)
| WAcq                (* set the writer flag, has not stored its id yet *)
| WOwn (crit : bool)  (* owns the lock as the writer *)
| WRel.               (* cleared the id, about to clear the flag *)

Definition reads (φ : wphase) : Z := match φ with WRead n _ => n | _ => 0 end.
Definition read_sections (φ : wphase) : Z := match φ with WRead _ c => c | _ => 0 end.
Definition is_writer (φ : wphase) : bool := match φ with WRead _ _ => false | _ => true end.
Definition is_wowner (φ : wphase) : bool := match φ with WOwn _ => true | _ => false end.
Definition is_wcrit (φ : wphase) : bool := match φ with WOwn c => c | _ => false end.

Section rwlock.
Context {K : FutexKernel} (rw : nat) (csr csw bad : loc).

Abbreviation st := (rw_state rw).
Abbreviation wt := (rw_writer_tid rw).

Definition max_readers : Z := 2 ^ 29 - 1.

Record winv (m : mem) (g : list wphase) : Prop := mk_winv {
  wi_state : exists p, 0 <= p < 4 /\
    word m st = - 2 ^ 31 * cnt is_writer g + (4 * total reads g + p);
  wi_excl : cnt is_writer g = 0 \/ (cnt is_writer g = 1 /\ total reads g = 0);
  wi_max : total reads g <= max_readers;
  wi_sections : forall t φ, g !! t = Some φ -> 0 <= read_sections φ <= reads φ;
  wi_owner : forall t φ, g !! t = Some φ -> is_wowner φ = true -> word m wt = tid_of t;
  wi_noowner : cnt is_wowner g = 0 -> word m wt = 0;
  wi_csr : word m csr = total read_sections g;
  wi_csw : word m csw = cnt is_wcrit g;
  wi_bad : word m bad = 0;
  wi_len : Z.of_nat (length g) <= max_threads
}.

(** The places the invariant is not about. *)
Definition other (l : loc) : Prop := l <> st /\ l <> wt /\ l <> csr /\ l <> csw /\ l <> bad.

Lemma winv_word m g l v : other l -> winv m g -> winv (set_word m l v) g.
Proof using Type.
  intros (? & ? & ? & ? & ?) [].
  split; simpl; rewrite ?decide_False by congruence; try done.
Qed.

Lemma winv_waiters m g l sh q : other l -> winv m g -> winv (set_waiters m l sh q) g.
Proof using Type. intros _ []. by split. Qed.

#[export] Instance winv_proper : Proper (mem_equiv ==> eq ==> iff) winv.
Proof using Type.
  assert (forall m m' g, mem_equiv m m' -> winv m g -> winv m' g) as H.
  { intros m m' g [Hw _] []. by split; rewrite <- ?Hw. }
  intros m m' He g ? <-. split; apply H; [done|by symmetry].
Qed.

Lemma winv_nonneg m g t φ : winv m g -> g !! t = Some φ -> 0 <= reads φ.
Proof using Type. intros HI Hg. pose proof (wi_sections m g HI t φ Hg). lia. Qed.

(** What a thread sees of the state word: [W] the writer, [R] the readers, [p] the pending bits. *)
Definition wseen (φ : wphase) (W R p : Z) : Prop :=
  0 <= p < 4 /\ 0 <= R <= max_readers /\ (W = 0 \/ W = 1 /\ R = 0) /\
  (is_writer φ = true -> W = 1) /\ reads φ <= R.

Lemma winv_seen m g t φ :
  winv m g -> g !! t = Some φ ->
  exists p, word m st = - 2 ^ 31 * cnt is_writer g + (4 * total reads g + p) /\
    wseen φ (cnt is_writer g) (total reads g) p.
Proof using Type.
  intros HI Hg. destruct (wi_state m g HI) as (p & Hp & Hw). exists p. split; [done|].
  pose proof (fun t φ => winv_nonneg m g t φ HI) as Hnn.
  pose proof (wi_max m g HI). pose proof (wi_excl m g HI) as He. pose proof (total_nonneg reads g Hnn).
  split; [done|]. split; [done|]. split; [done|]. split; [|by eapply total_lookup].
  intros Hwr. pose proof (cnt_lookup is_writer g t φ Hg Hwr). lia.
Qed.

(** A step of thread [t]: it does not change the owner's id, or it is the writer's. *)
Lemma winv_step m g t φ φ' m' :
  winv m g -> g !! t = Some φ ->
  let W' := cnt is_writer g - b2z (is_writer φ) + b2z (is_writer φ') in
  let R' := total reads g - reads φ + reads φ' in
  (exists p, 0 <= p < 4 /\ word m' st = - 2 ^ 31 * W' + (4 * R' + p)) ->
  (W' = 0 \/ W' = 1 /\ R' = 0) -> R' <= max_readers ->
  0 <= read_sections φ' <= reads φ' ->
  (is_wowner φ' = is_wowner φ /\ word m' wt = word m wt \/
   is_writer φ = true /\ word m' wt = if is_wowner φ' then tid_of t else 0) ->
  word m' csr = word m csr - read_sections φ + read_sections φ' ->
  word m' csw = word m csw - b2z (is_wcrit φ) + b2z (is_wcrit φ') ->
  word m' bad = word m bad ->
  winv m' (<[t:=φ']> g).
Proof using Type.
  intros HI Hg W' R' Hst Hex Hmax Hsec Hown Hr Hw Hb. subst W' R'.
  assert (forall t' x, <[t:=φ']> g !! t' = Some x -> t' = t /\ x = φ' \/ t' <> t /\ g !! t' = Some x)
    as Hl.
  { intros t' x Hx. destruct (decide (t' = t)) as [->|Hne].
    - rewrite list_lookup_insert_eq in Hx by (by eapply lookup_lt_Some). injection Hx as <-. by left.
    - rewrite list_lookup_insert_ne in Hx by done. by right. }
  split; rewrite ?(cnt_insert _ _ _ _ _ Hg), ?(total_insert _ _ _ _ _ Hg), ?length_insert; try done.
  - intros t' x [[-> ->]|[_ Hx]]%Hl; [done|by eapply (wi_sections m g HI)].
  - intros t' x Hx Ho. destruct Hown as [[Eo Ew]|[Hwr Ew]], (Hl t' x Hx) as [[-> ->]|[Hne Hx']].
    + rewrite Ew. eapply (wi_owner m g HI); [done|congruence].
    + rewrite Ew. by eapply (wi_owner m g HI).
    + by rewrite Ew, Ho.
    + exfalso. apply Hne, (cnt_two is_writer g t' t x φ); try done; [|by destruct x].
      pose proof (wi_excl m g HI). lia.
  - intros Hc. destruct Hown as [[Eo Ew]|[Hwr Ew]].
    + rewrite Ew. apply (wi_noowner m g HI). rewrite Eo in Hc. lia.
    + rewrite Ew. destruct (is_wowner φ') eqn:Eo; [|done]. simpl in Hc.
      assert (0 <= cnt is_wowner g - b2z (is_wowner φ)); [|lia].
      pose proof (cnt_nonneg is_wowner (<[t:=WAcq]> g)) as Hn.
      rewrite (cnt_insert _ _ _ _ _ Hg) in Hn. simpl in Hn. lia.
  - rewrite Hr, (wi_csr m g HI). lia.
  - rewrite Hw, (wi_csw m g HI). lia.
  - rewrite Hb. apply HI.
  - apply HI.
Qed.

Context (Hdistinct : csr <> csw /\ csr <> bad /\ csw <> bad)
  (Hrw : csr.1 <> rw /\ csw.1 <> rw /\ bad.1 <> rw).

(** A memory in which only the place [l] of the lock was written. *)
Lemma client_words m (l : loc) v :
  l.1 = rw ->
  word (set_word m l v) csr = word m csr /\ word (set_word m l v) csw = word m csw /\
  word (set_word m l v) bad = word m bad.
Proof using Hrw.
  clear Hdistinct. intros <-. destruct Hrw as (H1 & H2 & H3).
  rewrite !word_set_word_ne; [done|by intros E; subst bad|by intros E; subst csw|by intros E; subst csr].
Qed.

(** A step that writes the state word. *)
Lemma winv_state_step m g t φ φ' v p :
  winv m g -> g !! t = Some φ -> 0 <= p < 4 ->
  let W' := cnt is_writer g - b2z (is_writer φ) + b2z (is_writer φ') in
  let R' := total reads g - reads φ + reads φ' in
  v = - 2 ^ 31 * W' + (4 * R' + p) ->
  (W' = 0 \/ W' = 1 /\ R' = 0) -> R' <= max_readers ->
  read_sections φ' = read_sections φ -> read_sections φ' <= reads φ' ->
  is_wowner φ' = is_wowner φ -> is_wcrit φ' = is_wcrit φ ->
  winv (set_word m st v) (<[t:=φ']> g).
Proof using All.
  intros HI Hg Hp W' R' Hv Hex Hmax Hsec Hle Ho Hc.
  destruct (client_words m st v eq_refl) as (E1 & E2 & E3).
  pose proof (wi_sections m g HI t φ Hg).
  apply (winv_step m g t φ φ' _ HI Hg); fold W' R'; try done; rewrite ?E1, ?E2, ?E3, ?Hsec, ?Hc; try lia.
  - exists p. split; [done|]. by rewrite word_set_word_eq.
  - left. split; [done|]. by rewrite word_set_word_ne.
Qed.

Lemma winv_read_acquire m g t n c p :
  winv m g -> g !! t = Some (WRead n c) -> 0 <= p < 4 ->
  word m st = - 2 ^ 31 * cnt is_writer g + (4 * total reads g + p) ->
  cnt is_writer g = 0 -> total reads g + 1 <= max_readers ->
  winv (set_word m st (word m st + 4)) (<[t:=WRead (n + 1) c]> g).
Proof using All.
  intros HI Hg Hp Hw HW HR. pose proof (wi_sections m g HI t _ Hg).
  apply (winv_state_step m g t (WRead n c) (WRead (n + 1) c) _ p HI Hg); simpl in *; try done; lia.
Qed.

Lemma winv_read_release m g t n c p :
  winv m g -> g !! t = Some (WRead n c) -> 0 <= p < 4 -> c < n ->
  word m st = - 2 ^ 31 * cnt is_writer g + (4 * total reads g + p) ->
  winv (set_word m st (word m st - 4)) (<[t:=WRead (n - 1) c]> g).
Proof using All.
  intros HI Hg Hp Hc Hw. destruct (winv_seen m g t _ HI Hg) as (p' & _ & _ & HR & HW & _ & Hn).
  pose proof (wi_sections m g HI t _ Hg). simpl in *.
  apply (winv_state_step m g t (WRead n c) (WRead (n - 1) c) _ p HI Hg); simpl in *; try done; lia.
Qed.

Lemma winv_write_acquire m g t p :
  winv m g -> g !! t = Some (WRead 0 0) -> 0 <= p < 4 ->
  word m st = p -> winv (set_word m st (p - 2 ^ 31)) (<[t:=WAcq]> g).
Proof using All.
  intros HI Hg Hp Hw. destruct (winv_seen m g t _ HI Hg) as (p' & Hw' & Hp' & HR & HW & _ & Hn).
  unfold max_readers in *.
  apply (winv_state_step m g t (WRead 0 0) WAcq _ p HI Hg); simpl in *; unfold max_readers; try done; lia.
Qed.

Lemma winv_write_release m g t p :
  winv m g -> g !! t = Some WRel -> 0 <= p < 4 ->
  word m st = - 2 ^ 31 + p -> winv (set_word m st p) (<[t:=WRead 0 0]> g).
Proof using All.
  intros HI Hg Hp Hw. destruct (winv_seen m g t _ HI Hg) as (p' & Hw' & Hp' & HR & HW & HW1 & Hn).
  specialize (HW1 eq_refl). unfold max_readers in *.
  apply (winv_state_step m g t WRel (WRead 0 0) _ p HI Hg); simpl in *; unfold max_readers; try done; lia.
Qed.

(** The pending bits. *)
Lemma winv_pending m g t φ k p p' :
  winv m g -> g !! t = Some φ -> word m st = 4 * k + p -> 0 <= p < 4 -> 0 <= p' < 4 ->
  winv (set_word m st (4 * k + p')) g.
Proof using All.
  intros HI Hg Hw Hp Hp'. rewrite <- (list_insert_id g t φ Hg).
  pose proof (wi_sections m g HI t φ Hg). destruct (wi_state m g HI) as (p1 & Hp1 & Hw1).
  pose proof (wi_excl m g HI). pose proof (wi_max m g HI).
  apply (winv_state_step m g t φ φ _ p' HI Hg); try done; lia.
Qed.

Lemma winv_owner_step m g t φ φ' v :
  winv m g -> g !! t = Some φ -> is_writer φ = true -> is_writer φ' = true ->
  is_wcrit φ = false -> is_wcrit φ' = false -> v = (if is_wowner φ' then tid_of t else 0) ->
  winv (set_word m wt v) (<[t:=φ']> g).
Proof using All.
  intros HI Hg Hφ Hφ' Hc Hc' Hv. destruct (client_words m wt v eq_refl) as (E1 & E2 & E3).
  destruct (wi_state m g HI) as (p & Hp & Hw). pose proof (wi_excl m g HI). pose proof (wi_max m g HI).
  assert (forall x, is_writer x = true -> reads x = 0 /\ read_sections x = 0) as Hz by (by intros []).
  destruct (Hz φ Hφ), (Hz φ' Hφ').
  apply (winv_step m g t φ φ' _ HI Hg); rewrite ?Hφ, ?Hφ', ?E1, ?E2, ?E3, ?Hc, ?Hc'; try done; try lia.
  - exists p. split; [done|]. rewrite word_set_word_ne by done. lia.
  - right. by rewrite word_set_word_eq.
Qed.

(** The client's sections. *)
Lemma winv_client_step m g t φ φ' l v :
  winv m g -> g !! t = Some φ -> is_writer φ' = is_writer φ -> reads φ' = reads φ ->
  is_wowner φ' = is_wowner φ -> 0 <= read_sections φ' <= reads φ' ->
  l = csr /\ v = word m csr - read_sections φ + read_sections φ' /\ is_wcrit φ' = is_wcrit φ \/
  l = csw /\ v = word m csw - b2z (is_wcrit φ) + b2z (is_wcrit φ') /\ read_sections φ' = read_sections φ ->
  winv (set_word m l v) (<[t:=φ']> g).
Proof using All.
  intros HI Hg Ew Er Eo Hs Hl. destruct (wi_state m g HI) as (p & Hp & Hw).
  pose proof (wi_excl m g HI). pose proof (wi_max m g HI). destruct Hdistinct as (D1 & D2 & D3).
  assert (l.1 <> rw) as Hlrw by (destruct Hrw as (? & ? & ?); by destruct Hl as [(-> & _)|(-> & _)]).
  apply (winv_step m g t φ φ' _ HI Hg); rewrite ?Ew, ?Er; try done; try lia.
  - exists p. split; [done|]. rewrite word_set_word_ne by (intros <-; done). lia.
  - left. split; [done|]. rewrite word_set_word_ne; [done|]. by intros <-.
  - destruct Hl as [(-> & -> & Ec)|(-> & -> & Ec)]; [by rewrite word_set_word_eq|].
    rewrite word_set_word_ne by done. lia.
  - destruct Hl as [(-> & -> & Ec)|(-> & -> & Ec)]; [|by rewrite word_set_word_eq].
    rewrite word_set_word_ne by done. rewrite Ec. lia.
  - destruct Hl as [(-> & _)|(-> & _)]; by rewrite word_set_word_ne by done.
Qed.

(** * The routines *)

(** Programs that touch other members of the lock. *)
Lemma wp_other {R} (p : prog R) t (Q : R -> wphase -> Prop) φ :
  within other p -> (forall r, Q r φ) -> wp winv p t Q φ.
Proof using All.
  apply (wp_within winv other); [intros; by apply winv_word|intros; by apply winv_waiters].
Qed.

Lemma other_member s : s <> "state" -> s <> "writer_tid" -> other (rw, s).
Proof using All.
  intros H1 H2. destruct Hrw as (R1 & R2 & R3). split; [by intros [= ->]|]. split; [by intros [= ->]|].
  repeat split; intros E; rewrite <- E in *; done.
Qed.

Lemma wp_wstate_load t (Q : Z -> wphase -> Prop) φ :
  (forall W R p, wseen φ W R p -> Q (- 2 ^ 31 * W + (4 * R + p)) φ) -> wp winv (atomic_load st) t Q φ.
Proof using All.
  intros HQ. apply (wp_load winv). intros m g HI Hg. exists φ. rewrite list_insert_id by done.
  destruct (winv_seen m g t φ HI Hg) as (p & -> & Hs). auto.
Qed.

Lemma wp_wtid_load t (Q : Z -> wphase -> Prop) φ :
  (forall v, (v =? tid_of t) = is_wowner φ -> Q v φ) -> wp winv (atomic_load wt) t Q φ.
Proof using All.
  intros HQ. apply (wp_load winv). intros m g HI Hg. exists φ. rewrite list_insert_id by done.
  split; [done|]. apply HQ. pose proof (wi_len m g HI) as Hlen.
  assert (Z.of_nat t < max_threads) as Ht by (apply lookup_lt_Some in Hg; lia).
  pose proof (tid_of_pos t Ht). destruct (is_wowner φ) eqn:Ho.
  { apply Z.eqb_eq. by eapply (wi_owner m g HI). }
  apply Z.eqb_neq. intros E. destruct (Z.eq_dec (cnt is_wowner g) 0) as [E0|E0].
  - rewrite (wi_noowner m g HI E0) in E. lia.
  - destruct (cnt_pos is_wowner g) as (t' & φ' & Hg' & Ho'); [pose proof (cnt_nonneg is_wowner g); lia|].
    rewrite (wi_owner m g HI t' φ' Hg' Ho') in E.
    apply tid_of_inj in E as <-; [congruence| |done]. apply lookup_lt_Some in Hg'. lia.
Qed.

Lemma seen_can_read φ W R p prefer :
  wseen φ W R p -> __can_acquire_read_lock (- 2 ^ 31 * W + (4 * R + p)) prefer = true -> W = 0.
Proof.
  unfold wseen, max_readers, __can_acquire_read_lock, __state_owned_by_writer. intros H.
  destruct (Z.ltb_spec (- 2 ^ 31 * W + (4 * R + p)) 0); simpl; [done|lia].
Qed.

(** What a word the reader has seen says: no writer, or a writer. *)
Definition rd_old (s : Z) : Prop :=
  exists W R p, 0 <= p < 4 /\ 0 <= R <= max_readers /\ (W = 0 \/ W = 1 /\ R = 0) /\
    s = - 2 ^ 31 * W + (4 * R + p).

Lemma seen_rd_old φ W R p : wseen φ W R p -> rd_old (- 2 ^ 31 * W + (4 * R + p)).
Proof. intros (Hp & HR & HW & _). by exists W, R, p. Qed.

Lemma read_overflow R p :
  0 <= p < 4 -> 0 <= R <= max_readers ->
  let new_state := wrapS 32 (4 * R + p + STATE_READER_COUNT_CHANGE_STEP) in
  (R = max_readers /\ __state_owned_by_readers new_state = false) \/
  (R + 1 <= max_readers /\ __state_owned_by_readers new_state = true /\ new_state = 4 * R + p + 4).
Proof.
  intros Hp HR new_state. unfold new_state, __state_owned_by_readers, wrapS, max_readers in *.
  change STATE_READER_COUNT_CHANGE_STEP with 4. change (2 ^ 32) with 4294967296.
  change (2 ^ (32 - 1)) with 2147483648. change (2 ^ 29 - 1) with 536870911 in *.
  destruct (Z.eq_dec R 536870911) as [->|Hne].
  - left. split; [done|]. apply Z.leb_gt. Z.div_mod_to_equations. lia.
  - right. split; [lia|]. rewrite Z.mod_small by lia. split; [apply Z.leb_le; lia|lia].
Qed.

(** tryrdlock by a thread that is not the writer. *)
Definition rd_acquired (n c : Z) (r : Z) (φ : wphase) : Prop :=
  φ = WRead (if r =? 0 then n + 1 else n) c /\ (r = 0 \/ r = EAGAIN \/ r = EBUSY).

Lemma wp_tryrdlock t n c : wp winv (__pthread_rwlock_tryrdlock rw) t (rd_acquired n c) (WRead n c).
Proof using All.
  apply wp_bind, wp_wstate_load. intros W R p Hs.
  apply (wp_loop winv (fun s φ => rd_old s /\ φ = WRead n c)); [by eauto using seen_rd_old|].
  clear W R p Hs. intros s φ [(W & R & p & Hp & HR & HW & ->) ->].
  apply wp_bind, wp_other; [by apply within_act, other_member|]. intros prefer.
  destruct (__can_acquire_read_lock _ _) eqn:Ecan; [|apply wp_ret; split; auto].
  assert (W = 0) as ->.
  { destruct HW as [|[-> ->]]; [done|]. unfold __can_acquire_read_lock, __state_owned_by_writer in Ecan.
    destruct (Z.ltb_spec (- 2 ^ 31 * 1 + (4 * 0 + p)) 0); [done|lia]. }
  cbv beta zeta. replace (- 2 ^ 31 * 0 + (4 * R + p)) with (4 * R + p) in * by lia.
  destruct (read_overflow R p Hp HR) as [[-> ->]|(HR1 & -> & ->)]; [apply wp_ret; split; auto|].
  apply wp_bind, wp_act. intros m g HI Hg [ok seen] m' [E H]. simpl in *. subst seen.
  destruct (winv_seen m g t _ HI Hg) as (p' & Hw & Hs).
  destruct H as [(-> & Hm & ->)|(-> & _ & ->)].
  - exists (WRead (n + 1) c). split; [|apply wp_ret; split; auto].
    rewrite <- Hm. destruct Hs as (Hp' & HR' & HW' & _). rewrite Hm in Hw. unfold max_readers in *.
    apply winv_read_acquire with (p := p'); try done; unfold max_readers; lia.
  - exists (WRead n c). rewrite list_insert_id by done. split; [done|]. apply wp_ret. split; [|done].
    rewrite Hw. by eapply seen_rd_old.
Qed.

Lemma other_lock : other (lock_state (rw_lock rw)) /\ other (lock_process_shared (rw_lock rw)).
Proof using All. split; by apply other_member. Qed.

Lemma within_increment32 l : other l -> within other (increment32 l).
Proof using Type. intros Hl. unfold increment32, atomic_load, atomic_store. within_tac. Qed.

Lemma within_decrement32 l : other l -> within other (decrement32 l).
Proof using Type. intros Hl. unfold decrement32, atomic_load, atomic_store. within_tac. Qed.

(** Waiting changes nothing but the pending bits. *)
Lemma wp_rwlock_wait flag count serial can rt ts t φ (Q : Z -> wphase -> Prop) :
  0 <= flag < 4 -> other count -> other serial -> (forall s, within other (can s)) ->
  (forall r, Q r φ) -> wp winv (rwlock_wait rw flag count serial can rt ts) t Q φ.
Proof using All.
  intros Hf Hcount Hserial Hcan HQ. destruct other_lock as [Hl1 Hl2].
  assert (forall f, (forall k p, 0 <= p < 4 -> exists p', 0 <= p' < 4 /\ f (4 * k + p) = 4 * k + p') ->
    forall Q' : Z -> wphase -> Prop, (forall r, Q' r φ) -> wp winv (act (Rmw st f)) t Q' φ) as Hrmw.
  { intros f Hp' Q' HQ'. apply wp_act. intros m g HI Hg x m' [-> ->]. exists φ.
    rewrite list_insert_id by done. split; [|done].
    destruct (wi_state m g HI) as (p & Hp & Hw).
    assert (word m st = 4 * (- 2 ^ 29 * cnt is_writer g + total reads g) + p) as Hw4 by lia.
    destruct (Hp' (- 2 ^ 29 * cnt is_writer g + total reads g) p Hp) as (p' & Hp1 & E).
    rewrite Hw4, E. by eapply winv_pending. }
  apply wp_bind, wp_other; [by apply within_Lock_lock|]. intros _.
  apply wp_bind, wp_other; [by apply within_increment32|]. intros _.
  apply wp_bind, Hrmw.
  { intros k p Hp. destruct (state_or k p flag Hp Hf) as [-> ?]. eauto. }
  intros old. apply wp_bind, wp_other; [by apply within_act|]. intros serial0.
  apply wp_bind, wp_other; [by apply within_Lock_unlock|]. intros _.
  apply wp_bind, wp_other; [done|]. intros c.
  apply wp_bind, wp_other.
  { destruct c; [done|]. apply within_bind; [by apply within_act, other_member|].
    intros. by apply within_futex_wait_ex. }
  intros fr. apply wp_bind, wp_other; [by apply within_Lock_lock|]. intros _.
  apply wp_bind, wp_other; [by apply within_decrement32|]. intros _.
  apply wp_bind, wp_other; [by apply within_act|]. intros n. apply wp_bind.
  apply wp_mono with (Q := fun _ φ' => φ' = φ).
  - intros _ φ' ->. apply wp_bind, wp_other; [by apply within_Lock_unlock|]. intros _. by apply wp_ret.
  - destruct (n =? 0); [|by apply wp_ret]. apply wp_bind, Hrmw; [|intros r; by apply wp_ret].
    intros k p Hp. destruct (state_clear k p flag Hp Hf) as (p' & E & Hp'). eauto.
Qed.

Lemma within_can_read s : within other (rwlock_can_read rw s).
Proof using All. apply within_bind; [by apply within_act, other_member|done]. Qed.

(** The results of a timed read lock by a thread that is not the writer: any but EDEADLK. *)
Lemma wp_timedrdlock t n c rt ts :
  wp winv (__pthread_rwlock_timedrdlock rw rt ts) t
    (fun r φ => φ = WRead (if r =? 0 then n + 1 else n) c) (WRead n c).
Proof using All.
  apply wp_bind, wp_wtid_load. intros v Hv. apply wp_bind, wp_tid. rewrite Hv. simpl is_wowner. cbv iota.
  apply (wp_loop winv (fun _ φ => φ = WRead n c)); [done|]. intros _ φ ->.
  apply wp_bind. apply wp_mono with (2 := wp_tryrdlock t n c). intros r φ [-> Hr].
  destruct Hr as [->|[->| ->]]; [by apply wp_ret..|]. simpl orb. cbv iota.
  apply wp_bind, wp_check_timespec. intros r. destruct (Z.eqb_spec r 0) as [->|Hr]; simpl negb; cbv iota.
  2: { apply wp_ret. by rewrite (proj2 (Z.eqb_neq _ _) Hr). }
  apply wp_bind, wp_wstate_load. intros W R p _.
  apply wp_bind, wp_other; [apply within_can_read|]. intros []; [by apply wp_ret|].
  apply wp_bind, wp_rwlock_wait; [done|by apply other_member..|apply within_can_read|].
  intros fr. apply wp_ret. by destruct (fr =? - ETIMEDOUT).
Qed.

Lemma wp_trywrlock t :
  wp winv (__pthread_rwlock_trywrlock rw) t
    (fun r φ => r = 0 /\ φ = WOwn false \/ r = EBUSY /\ φ = WRead 0 0) (WRead 0 0).
Proof using All.
  apply wp_bind, wp_wstate_load. intros W R p Hs.
  apply (wp_loop winv (fun s φ => rd_old s /\ φ = WRead 0 0)); [by eauto using seen_rd_old|].
  clear W R p Hs. intros s φ [(W & R & p & Hp & HR & HW & ->) ->].
  destruct (__can_acquire_write_lock _) eqn:Ecan; [|apply wp_ret; by right].
  assert (W = 0 /\ R = 0) as [-> ->].
  { unfold __can_acquire_write_lock, __state_owned_by_readers_or_writer in Ecan.
    change STATE_READER_COUNT_CHANGE_STEP with 4 in Ecan. unfold max_readers in *. lia. }
  replace (- 2 ^ 31 * 0 + (4 * 0 + p)) with p in * by lia. rewrite state_add_writer by lia.
  apply wp_bind, wp_act. intros m g HI Hg [ok seen] m' [E H]. simpl in *. subst seen.
  destruct H as [(-> & Hm & ->)|(-> & _ & ->)].
  - exists WAcq. split; [by apply winv_write_acquire|].
    apply wp_bind, wp_tid, wp_bind, wp_store. clear m g HI Hg Hm. intros m g HI Hg. exists (WOwn false).
    split; [by eapply (winv_owner_step m g t WAcq)|]. apply wp_ret. by left.
  - exists (WRead 0 0). rewrite list_insert_id by done. split; [done|]. apply wp_ret. split; [|done].
    destruct (winv_seen m g t _ HI Hg) as (p' & -> & Hs). by eapply seen_rd_old.
Qed.

Definition wr_acquired (r : Z) (φ : wphase) : Prop := φ = if r =? 0 then WOwn false else WRead 0 0.

Lemma wp_timedwrlock t rt ts :
  wp winv (__pthread_rwlock_timedwrlock rw rt ts) t wr_acquired (WRead 0 0).
Proof using All.
  apply wp_bind, wp_wtid_load. intros v Hv. apply wp_bind, wp_tid. rewrite Hv. simpl is_wowner. cbv iota.
  apply (wp_loop winv (fun _ φ => φ = WRead 0 0)); [done|]. intros _ φ ->.
  apply wp_bind. apply wp_mono with (2 := wp_trywrlock t).
  intros r φ [[-> ->]|[-> ->]]; [by apply wp_ret|]. change (EBUSY =? 0) with false. cbv iota.
  apply wp_bind, wp_check_timespec. intros r. destruct (Z.eqb_spec r 0) as [->|Hr]; simpl negb; cbv iota.
  2: { apply wp_ret. unfold wr_acquired. by rewrite (proj2 (Z.eqb_neq _ _) Hr). }
  apply wp_bind, wp_wstate_load. intros W R p _.
  destruct (__can_acquire_write_lock _); [by apply wp_ret|].
  apply wp_bind, wp_rwlock_wait; [done|by apply other_member..|done|].
  intros fr. apply wp_ret. by destruct (fr =? - ETIMEDOUT).
Qed.

(** The writer asks for the lock again: EBUSY from the try functions, EDEADLK from the others. *)
Lemma seen_writer crit W R p :
  wseen (WOwn crit) W R p -> - 2 ^ 31 * W + (4 * R + p) < 0.
Proof. unfold wseen, max_readers. intros (Hp & HR & HW & H1 & _). specialize (H1 eq_refl). lia. Qed.

Lemma wp_tryrdlock_own t crit :
  wp winv (__pthread_rwlock_tryrdlock rw) t (fun r φ => r = EBUSY /\ φ = WOwn crit) (WOwn crit).
Proof using All.
  apply wp_bind, wp_wstate_load. intros W R p Hs%seen_writer.
  apply (wp_loop winv (fun s φ => s < 0 /\ φ = WOwn crit)); [done|]. intros s φ [Hneg ->].
  apply wp_bind, wp_other; [by apply within_act, other_member|]. intros prefer.
  unfold __can_acquire_read_lock, __state_owned_by_writer.
  rewrite (proj2 (Z.ltb_lt s 0) Hneg). by apply wp_ret.
Qed.

Lemma wp_trywrlock_own t crit :
  wp winv (__pthread_rwlock_trywrlock rw) t (fun r φ => r = EBUSY /\ φ = WOwn crit) (WOwn crit).
Proof using All.
  apply wp_bind, wp_wstate_load. intros W R p Hs%seen_writer.
  apply (wp_loop winv (fun s φ => s < 0 /\ φ = WOwn crit)); [done|]. intros s φ [Hneg ->].
  unfold __can_acquire_write_lock, __state_owned_by_readers_or_writer.
  rewrite (proj2 (Z.ltb_lt s 0) Hneg). by apply wp_ret.
Qed.

Lemma wp_timed_own t crit rt ts :
  wp winv (__pthread_rwlock_timedrdlock rw rt ts) t (fun r φ => r = EDEADLK /\ φ = WOwn crit) (WOwn crit) /\
  wp winv (__pthread_rwlock_timedwrlock rw rt ts) t (fun r φ => r = EDEADLK /\ φ = WOwn crit) (WOwn crit).
Proof using All.
  split; apply wp_bind, wp_wtid_load; intros v Hv; apply wp_bind, wp_tid; rewrite Hv; by apply wp_ret.
Qed.

(** ** Unlocking *)

Lemma wp_wake_pending t φ : wp winv (rwlock_wake_pending rw) t (fun r φ' => r = 0 /\ φ' = φ) φ.
Proof using All.
  destruct other_lock as [Hl1 Hl2].
  apply wp_bind, wp_other; [by apply within_Lock_lock|]. intros _.
  apply wp_bind, wp_other; [by apply within_act, other_member|]. intros w.
  destruct (w =? 0); simpl negb; cbv iota.
  - apply wp_bind, wp_other; [by apply within_act, other_member|]. intros r.
    destruct (r =? 0); simpl negb; cbv iota.
    + apply wp_bind, wp_other; [by apply within_Lock_unlock|]. intros _. by apply wp_ret.
    + apply wp_bind, wp_other; [by apply within_increment32, other_member|]. intros _.
      apply wp_bind, wp_other; [by apply within_Lock_unlock|]. intros _.
      apply wp_bind, wp_other; [by apply within_act, other_member|]. intros sh.
      apply wp_bind, wp_other; [by apply within_futex_wake_ex, other_member|]. intros _. by apply wp_ret.
  - apply wp_bind, wp_other; [by apply within_increment32, other_member|]. intros _.
    apply wp_bind, wp_other; [by apply within_Lock_unlock|]. intros _.
    apply wp_bind, wp_other; [by apply within_act, other_member|]. intros sh.
    apply wp_bind, wp_other; [by apply within_futex_wake_ex, other_member|]. intros _. by apply wp_ret.
Qed.

Lemma wp_unlock_write t :
  wp winv (pthread_rwlock_unlock rw) t (fun r φ => r = 0 /\ φ = WRead 0 0) (WOwn false).
Proof using All.
  apply wp_bind, wp_wstate_load. intros W R p Hs%seen_writer.
  unfold __state_owned_by_writer. rewrite (proj2 (Z.ltb_lt _ 0) Hs).
  apply wp_bind, wp_wtid_load. intros v Hv. apply wp_bind, wp_tid. rewrite Hv. simpl negb. cbv iota.
  apply wp_bind, wp_store. intros m g HI Hg. exists WRel.
  split; [by eapply (winv_owner_step m g t (WOwn false))|].
  apply wp_bind, wp_act. clear m g HI Hg. intros m g HI Hg x m' [-> ->]. exists (WRead 0 0).
  destruct (winv_seen m g t _ HI Hg) as (p' & Hw & Hp' & HR & HW & H1 & _). specialize (H1 eq_refl).
  split.
  - rewrite state_clear_writer by lia. replace (word m st + 2 ^ 31) with p' by lia.
    apply winv_write_release; [done..|lia].
  - destruct (negb _); [by apply wp_ret|apply wp_wake_pending].
Qed.

Lemma wp_unlock_read t n c :
  c < n -> 0 <= c ->
  wp winv (pthread_rwlock_unlock rw) t (fun r φ => r = 0 /\ φ = WRead (n - 1) c) (WRead n c).
Proof using All.
  intros Hc Hc0. apply wp_bind, wp_wstate_load. intros W R p (Hp & HR & HW & _ & Hn). simpl in Hn.
  assert (W = 0) as -> by lia. unfold __state_owned_by_writer, __state_owned_by_readers.
  change STATE_READER_COUNT_CHANGE_STEP with 4.
  rewrite (proj2 (Z.ltb_ge _ 0)), (proj2 (Z.leb_le 4 _)) by lia.
  apply wp_bind, wp_act. intros m g HI Hg x m' [-> ->]. exists (WRead (n - 1) c). split.
  - destruct (winv_seen m g t _ HI Hg) as (p' & Hw & Hp' & HR' & HW' & _ & Hn'). simpl in Hn'.
    unfold max_readers in *. replace (wrapS 32 (word m st - 4)) with (word m st - 4).
    + by apply winv_read_release with (p := p').
    + unfold wrapS. change (2 ^ 32) with 4294967296. change (2 ^ (32 - 1)) with 2147483648.
      rewrite Z.mod_small; lia.
  - destruct (_ || _); [by apply wp_ret|apply wp_wake_pending].
Qed.

(** * Clients *)

Definition run_rd_call (ts : option timespec) (c : lock_call) : prog Z :=
  match c with
  | CallLock => pthread_rwlock_rdlock rw
  | CallTrylock => pthread_rwlock_tryrdlock rw
  | CallTimedlock realtime => __pthread_rwlock_timedrdlock rw realtime ts
  end.

Definition run_wr_call (ts : option timespec) (c : lock_call) : prog Z :=
  match c with
  | CallLock => pthread_rwlock_wrlock rw
  | CallTrylock => pthread_rwlock_trywrlock rw
  | CallTimedlock realtime => __pthread_rwlock_timedwrlock rw realtime ts
  end.

Lemma wp_rd_call ts call t n c :
  wp winv (run_rd_call ts call) t (fun r φ => φ = WRead (if r =? 0 then n + 1 else n) c) (WRead n c).
Proof using All.
  destruct call; simpl; [|apply wp_mono with (2 := wp_tryrdlock t n c); by intros r φ [-> _]
                         |apply wp_timedrdlock].
  apply wp_bind. apply wp_mono with (2 := wp_tryrdlock t n c). intros r φ [-> Hr].
  destruct (Z.eqb_spec r 0) as [->|]; [by apply wp_ret|apply wp_timedrdlock].
Qed.

Lemma wp_wr_call ts call t : wp winv (run_wr_call ts call) t wr_acquired (WRead 0 0).
Proof using All.
  assert (wp winv (__pthread_rwlock_trywrlock rw) t wr_acquired (WRead 0 0)) as Htry.
  { apply wp_mono with (2 := wp_trywrlock t). by intros r φ [[-> ->]|[-> ->]]. }
  destruct call; simpl; [|done|apply wp_timedwrlock].
  apply wp_bind. apply wp_mono with (2 := Htry). intros r φ ->.
  destruct (r =? 0); [by apply wp_ret|apply wp_timedwrlock].
Qed.

Definition writer_result (call : lock_call) : Z :=
  match call with CallTrylock => EBUSY | _ => EDEADLK end.

Lemma wp_call_own ts call (write : bool) t crit :
  wp winv (if write then run_wr_call ts call else run_rd_call ts call) t
    (fun r φ => r = writer_result call /\ φ = WOwn crit) (WOwn crit).
Proof using All.
  destruct write, call; simpl; try apply wp_tryrdlock_own; try apply wp_trywrlock_own;
    try (apply wp_timed_own); apply wp_bind.
  - apply wp_mono with (2 := wp_trywrlock_own t crit). intros r φ [-> ->]. apply wp_timed_own.
  - apply wp_mono with (2 := wp_tryrdlock_own t crit). intros r φ [-> ->]. apply wp_timed_own.
Qed.

(** The most general client: it takes the lock for reading any number of times, or for writing;
    as the writer it may ask again and is refused.  [n] is the number of its read locks, -1 for
    the writer. *)
Definition rw_client (ts : option timespec) : prog unit :=
  loop (fun n : Z =>
    go <- act Choose ;;
    write <- act Choose ;;
    call <- choose_lock_call ;;
    if n =? -1 then
      if (go : bool) then
        r <- (if (write : bool) then run_wr_call ts call else run_rd_call ts call) ;;
        expect bad (r =? writer_result call) ;;
        Ret (inl n)
      else
        act (Rmw csw (fun c => c - 1)) ;;
        r <- pthread_rwlock_unlock rw ;;
        expect bad (r =? 0) ;;
        Ret (inl 0)
    else if (go : bool) then
      if (write : bool) && (n =? 0) then
        r <- run_wr_call ts call ;;
        if r =? 0 then act (Rmw csw (fun c => c + 1)) ;; Ret (inl (-1)) else Ret (inl n)
      else
        r <- run_rd_call ts call ;;
        if r =? 0 then act (Rmw csr (fun c => c + 1)) ;; Ret (inl (n + 1)) else Ret (inl n)
    else if n =? 0 then Ret (inr tt)
    else
      act (Rmw csr (fun c => c - 1)) ;;
      r <- pthread_rwlock_unlock rw ;;
      expect bad (r =? 0) ;;
      Ret (inl (n - 1))) 0.

Definition rw_held (n : Z) (φ : wphase) : Prop :=
  n = -1 /\ φ = WOwn true \/ 0 <= n /\ φ = WRead n n.

Lemma wp_section l d t φ φ' (Q : Z -> wphase -> Prop) :
  (forall m g, winv m g -> g !! t = Some φ -> winv (set_word m l (word m l + d)) (<[t:=φ']> g)) ->
  (forall x, Q x φ') -> wp winv (act (Rmw l (fun c => c + d))) t Q φ.
Proof using All. intros H HQ. apply wp_act. intros m g HI Hg x m' [_ ->]. exists φ'. auto. Qed.

Lemma wp_rw_client ts t : wp winv (rw_client ts) t (fun _ φ => φ = WRead 0 0) (WRead 0 0).
Proof using All.
  apply (wp_loop winv rw_held); [by right|]. intros n φ Hn.
  apply wp_bind, wp_choose. intros go. apply wp_bind, wp_choose. intros write.
  apply wp_bind, wp_choose_lock_call. intros call. destruct Hn as [[-> ->]|[Hn ->]].
  - change (-1 =? -1) with true. cbv iota. destruct go.
    + apply wp_bind. apply wp_mono with (2 := wp_call_own ts call write t true). intros r φ [-> ->].
      apply wp_bind, wp_expect; [apply Z.eqb_refl|]. apply wp_ret. by left.
    + apply wp_bind, (wp_section csw (-1) t _ (WOwn false)).
      * intros m g HI Hg. apply (winv_client_step m g t (WOwn true)); try done; right; simpl; split; [done|split; [lia|done]].
      * intros _. apply wp_bind. apply wp_mono with (2 := wp_unlock_write t). intros r φ [-> ->].
        apply wp_bind, wp_expect; [done|]. apply wp_ret. by right.
  - rewrite (proj2 (Z.eqb_neq n (-1))) by lia. destruct go.
    + destruct (write && (n =? 0)) eqn:E.
      * assert (n = 0) as -> by lia. apply wp_bind. apply wp_mono with (2 := wp_wr_call ts call t).
        intros r φ ->. destruct (r =? 0); [|apply wp_ret; by right].
        apply wp_bind, (wp_section csw 1 t _ (WOwn true)); [|intros _; apply wp_ret; by left].
        intros m g HI Hg. apply (winv_client_step m g t (WOwn false)); try done.
        right. simpl. split; [done|split; [lia|done]].
      * apply wp_bind. apply wp_mono with (2 := wp_rd_call ts call t n n). intros r φ ->.
        destruct (r =? 0); [|apply wp_ret; by right].
        apply wp_bind, (wp_section csr 1 t _ (WRead (n + 1) (n + 1))); [|intros _; apply wp_ret; right; split; [lia|done]].
        intros m g HI Hg. apply (winv_client_step m g t (WRead (n + 1) n)); try done; simpl; [lia|].
        left. split; [done|split; [lia|done]].
    + destruct (Z.eqb_spec n 0) as [->|Hne]; [by apply wp_ret|].
      apply wp_bind, (wp_section csr (-1) t _ (WRead n (n - 1))).
      * intros m g HI Hg. apply (winv_client_step m g t (WRead n n)); try done; simpl; [lia|].
        left. split; [done|split; [lia|done]].
      * intros _. apply wp_bind. apply wp_mono with (2 := wp_unlock_read t n (n - 1) ltac:(lia) ltac:(lia)).
        intros r φ [-> ->]. apply wp_bind, wp_expect; [done|]. apply wp_ret. right. split; [lia|done].
Qed.

(** The start: the lock is free. *)
Definition rw_start (m : mem) : Prop :=
  word m st = 0 /\ word m wt = 0 /\ word m csr = 0 /\ word m csw = 0 /\ word m bad = 0.

Lemma rw_start_inv n m : Z.of_nat n <= max_threads -> rw_start m -> winv m (replicate n (WRead 0 0)).
Proof using All.
  intros Hn (H1 & H2 & H3 & H4 & H5).
  split; rewrite ?H1, ?H2, ?H3, ?H4, ?H5, ?length_replicate, ?total_replicate, ?cnt_replicate by done; try done.
  - by exists 0.
  - by left.
  - intros t φ [-> _]%lookup_replicate. done.
  - by intros t φ [-> _]%lookup_replicate.
Qed.

Lemma rw_client_inv ts n m c :
  Z.of_nat n <= max_threads -> rw_start m -> reachable (replicate n (rw_client ts), m) c ->
  exists g, winv c.2 g.
Proof using All.
  intros Hn Hm Hr.
  destruct (machine_inv winv (fun _ φ _ => φ = WRead 0 0) _ _ (replicate n (WRead 0 0)) Hr) as (g & HI & _);
    [by apply rw_start_inv| |by exists g].
  simpl. rewrite <- (length_replicate n (rw_client ts)) at 2.
  apply threads_ok_intro. intros t p [-> _]%lookup_replicate. apply wp_rw_client.
Qed.

Lemma winv_exclusion m g :
  winv m g -> 0 <= word m csw <= 1 /\ 0 <= word m csr /\ (word m csw = 1 -> word m csr = 0).
Proof using All.
  intros HI. pose proof (wi_excl m g HI) as He. rewrite (wi_csw m g HI), (wi_csr m g HI).
  assert (cnt is_wcrit g <= cnt is_writer g) as Hc.
  { clear. induction g as [|φ g IH]; simpl; [lia|]. destruct φ as [| |[]|]; simpl; lia. }
  assert (total read_sections g <= total reads g) as Hr.
  { pose proof (wi_sections m g HI) as H. clear - H. induction g as [|φ g IH]; simpl; [lia|].
    pose proof (H 0%nat φ eq_refl). enough (total read_sections g <= total reads g) by lia.
    apply IH. intros t x Hx. apply (H (S t) x Hx). }
  assert (0 <= total read_sections g) as H0.
  { apply total_nonneg. intros t x Hx. apply (wi_sections m g HI t x Hx). }
  pose proof (cnt_nonneg is_wcrit g). lia.
Qed.

End rwlock.

(** C18: exclusion of the read/write lock.  For threads that take it for reading, nested, or for
    writing, with the plain, try and timed functions on either clock, with either
    preference, in every interleaving: at most one writer is in its section and no reader
    is in one at the same time; every unlock by a holder gives 0, and a writer that asks
    again is refused, with EBUSY by the try functions and EDEADLK by the others. *)
Theorem rwlock_exclusion {K : FutexKernel} rw csr csw bad ts n m c :
  csr <> csw /\ csr <> bad /\ csw <> bad -> csr.1 <> rw /\ csw.1 <> rw /\ bad.1 <> rw ->
  Z.of_nat n <= max_threads -> rw_start rw csr csw bad m ->
  reachable (replicate n (rw_client rw csr csw bad ts), m) c ->
  0 <= word c.2 csw <= 1 /\ 0 <= word c.2 csr /\ (word c.2 csw = 1 -> word c.2 csr = 0) /\
  word c.2 bad = 0.
Proof.
  intros Hd Hrw Hn Hm Hr.
  destruct (rw_client_inv rw csr csw bad Hd Hrw ts n m c Hn Hm Hr) as (g & HI).
  pose proof (winv_exclusion rw csr csw bad Hd Hrw c.2 g HI) as (H1 & H2 & H3). split; [done|].
  split; [done|]. split; [done|apply HI].
Qed.

Definition ex_csr : loc := (1%nat, "readers").
Definition ex_csw : loc := (1%nat, "writers").
Definition ex_rwbad : loc := (1%nat, "bad").

(** Thread 0 is in its write section, thread 1 sleeps as a pending writer. *)
Definition ex_rw_run : machine :=
  run_schedule ex_clock (replicate 17 (0%nat, true) ++ replicate 60 (1%nat, true))
    (replicate 2 (rw_client 0 ex_csr ex_csw ex_rwbad None), ex_mem).

Lemma rwlock_exclusion_witness :
  waiters ex_rw_run.2 (rw_writer_serial 0) false = [1%nat] /\
  (0 <= word ex_rw_run.2 ex_csw <= 1 /\ 0 <= word ex_rw_run.2 ex_csr /\
   (word ex_rw_run.2 ex_csw = 1 -> word ex_rw_run.2 ex_csr = 0) /\ word ex_rw_run.2 ex_rwbad = 0).
Proof.
  split; [vm_compute; reflexivity|].
  apply (rwlock_exclusion (K := fifo_kernel) 0 ex_csr ex_csw ex_rwbad None 2 ex_mem ex_rw_run).
  - done.
  - done.
  - vm_compute. discriminate.
  - repeat split; done.
  - exact (run_schedule_reachable _ _ _).
Defined.

(** * A wake-up that is lost *)

(** Thread 0 writes, thread 1 waits to write until a time, thread 2 waits to read. *)
Definition ex_lost_threads : list (prog unit) :=
  [ pthread_rwlock_wrlock 0 ;; pthread_rwlock_unlock 0 ;; Ret tt;
    r <- pthread_rwlock_timedwrlock_monotonic_np 0 (Some (mk_timespec 1 0)) ;;
    if r =? 0 then pthread_rwlock_unlock 0 ;; Ret tt else Ret tt;
    pthread_rwlock_rdlock 0 ;; pthread_rwlock_unlock 0 ;; Ret tt ].

(** Thread 0 takes the lock; the others go to sleep; the time of thread 1 runs out; before it
    has counted itself out, thread 0 unlocks and wakes "the pending writer". *)
Definition ex_lost_asleep : machine :=
  run_schedule ex_clock
    (replicate 6 (0%nat, true) ++ replicate 100 (1%nat, true) ++ replicate 100 (2%nat, true))
    (ex_lost_threads, ex_mem).

Definition ex_lost : machine :=
  run_schedule ex_clock (replicate 100 (0%nat, true) ++ replicate 100 (1%nat, true))
    (quit_wait 1 ex_lost_asleep).

Lemma ex_lost_reachable : reachable (ex_lost_threads, ex_mem) ex_lost.
Proof.
  transitivity ex_lost_asleep; [exact (run_schedule_reachable _ _ _)|].
  transitivity (quit_wait 1 ex_lost_asleep); [exact (quit_wait_reachable _ _)|].
  exact (run_schedule_reachable _ _ _).
Qed.

(** C35: a timed writer can swallow the wake-up of the readers.  There is an execution in which
    the writer unlocks while a timed writer gives up: the unlock wakes only writers, there is
    none left in the queue, and in the end every thread has returned but a reader, which
    sleeps for good on a lock that is free for it. *)
Theorem rwlock_timeout_loses_wakeup :
  exists c, reachable (ex_lost_threads, ex_mem) c /\ quiescent c /\
    __can_acquire_read_lock (word c.2 (rw_state 0)) (truthy (word c.2 (rw_prefer 0))) = true /\
    exists p, c.1 !! 2%nat = Some p /\ asleep c.2 2 p = true.
Proof.
  exists ex_lost. split; [exact ex_lost_reachable|].
  destruct (stuck_sound 2 ex_lost) as [Hq Hp]; [vm_compute; reflexivity|].
  split; [exact Hq|]. split; [vm_compute; reflexivity|exact Hp].
Qed.
