(* ===== verification/Semaphore.v ===== *)
(** Semaphores: libc/bionic/semaphore.cpp.

    The count word holds a 31-bit value and the shared flag.  The theorem at the end says that
    tokens are neither lost nor made up, and that no thread sleeps while there is one. *)

From S2P Require Import Prelude Atomic Futex Lock.

(** * Definitions *)

Definition SEM_VALUE_MAX : Z := 0x3fffffff.
Definition SEMCOUNT_SHARED_MASK : Z := 0x00000001.
Abbreviation SEMCOUNT_VALUE_MASK := 0xfffffffe.
Definition SEMCOUNT_VALUE_SHIFT : Z := 1.

(** Arithmetic on [unsigned int]. *)
Definition SEMCOUNT_FROM_VALUE (val : Z) : Z :=
  Z.land (wrapU 32 (Z.shiftl val SEMCOUNT_VALUE_SHIFT)) SEMCOUNT_VALUE_MASK.
Definition SEMCOUNT_TO_VALUE (sval : Z) : Z := Z.shiftr (wrapS 32 sval) SEMCOUNT_VALUE_SHIFT.
Definition SEMCOUNT_ONE : Z := SEMCOUNT_FROM_VALUE 1.
Definition SEMCOUNT_MINUS_ONE : Z := SEMCOUNT_FROM_VALUE (wrapU 32 (Z.lnot 0)).
Definition SEMCOUNT_DECREMENT (sval : Z) : Z :=
  Z.land (wrapU 32 (sval - Z.shiftl 1 SEMCOUNT_VALUE_SHIFT)) SEMCOUNT_VALUE_MASK.
Definition SEMCOUNT_INCREMENT (sval : Z) : Z :=
  Z.land (wrapU 32 (sval + Z.shiftl 1 SEMCOUNT_VALUE_SHIFT)) SEMCOUNT_VALUE_MASK.

(** A semaphore is known by the place of its count. *)
Definition SEM_GET_SHARED (sem : loc) : prog Z :=
  c <- atomic_load sem ;; Ret (Z.land c SEMCOUNT_SHARED_MASK).

Definition fail (e : Z) : prog Z := act (SetErrno e) ;; Ret (-1).

Definition sem_init (sem : loc) (pshared value : Z) : prog Z :=
  if SEM_VALUE_MAX <? value then fail EINVAL else
  let count := SEMCOUNT_FROM_VALUE value in
  let count := if negb (pshared =? 0) then Z.lor count SEMCOUNT_SHARED_MASK else count in
  atomic_store sem count ;;
  Ret 0.

Definition sem_destroy : prog Z := Ret 0.

(** [SEM_FAILED] is the null pointer. *)
Definition sem_open : prog (option loc) := act (SetErrno ENOSYS) ;; Ret None.
Definition sem_close : prog Z := fail ENOSYS.
Definition sem_unlink : prog Z := fail ENOSYS.

Definition __sem_dec (sem : loc) : prog Z :=
  old_value <- atomic_load sem ;;
  let shared := Z.land old_value SEMCOUNT_SHARED_MASK in
  loop (fun old_value : Z =>
    if SEMCOUNT_TO_VALUE old_value <? 0 then Ret (inr (SEMCOUNT_TO_VALUE old_value)) else
    let2 ok, seen <- atomic_compare_exchange_weak sem old_value
                       (Z.lor (SEMCOUNT_DECREMENT old_value) shared) ;;
    Ret (if (ok : bool) then inr (SEMCOUNT_TO_VALUE old_value) else inl seen)) old_value.

Definition __sem_trydec (sem : loc) : prog Z :=
  old_value <- atomic_load sem ;;
  let shared := Z.land old_value SEMCOUNT_SHARED_MASK in
  loop (fun old_value : Z =>
    if SEMCOUNT_TO_VALUE old_value <=? 0 then Ret (inr (SEMCOUNT_TO_VALUE old_value)) else
    let2 ok, seen <- atomic_compare_exchange_weak sem old_value
                       (Z.lor (SEMCOUNT_DECREMENT old_value) shared) ;;
    Ret (if (ok : bool) then inr (SEMCOUNT_TO_VALUE old_value) else inl seen)) old_value.

Definition __sem_inc (sem : loc) : prog Z :=
  old_value <- atomic_load sem ;;
  let shared := Z.land old_value SEMCOUNT_SHARED_MASK in
  loop (fun old_value : Z =>
    if SEMCOUNT_TO_VALUE old_value =? SEM_VALUE_MAX then Ret (inr (SEMCOUNT_TO_VALUE old_value)) else
    let new_value := if SEMCOUNT_TO_VALUE old_value <? 0 then Z.lor SEMCOUNT_ONE shared
                     else Z.lor (SEMCOUNT_INCREMENT old_value) shared in
    let2 ok, seen <- atomic_compare_exchange_weak sem old_value new_value ;;
    Ret (if (ok : bool) then inr (SEMCOUNT_TO_VALUE old_value) else inl seen)) old_value.

(** [target_sdk] is [android_get_application_target_sdk_version()]. *)
Definition sem_wait (target_sdk : Z) (sem : loc) : prog Z :=
  shared <- SEM_GET_SHARED sem ;;
  loop (fun _ : unit =>
    v <- __sem_dec sem ;;
    if 0 <? v then Ret (inr 0) else
    result <- __futex_wait_ex sem (truthy shared) (Z.lor shared SEMCOUNT_MINUS_ONE) false None ;;
    if (24 <=? target_sdk) && (result =? - EINTR)
    then r <- fail EINTR ;; Ret (inr r)
    else Ret (inl tt)) tt.

Definition __sem_timedwait (sem : loc) (abs_timeout : option timespec) (use_realtime_clock : bool) : prog Z :=
  v <- __sem_trydec sem ;;
  if 0 <? v then Ret 0 else
  result <- check_timespec_p abs_timeout false ;;
  if negb (result =? 0) then fail result else
  shared <- SEM_GET_SHARED sem ;;
  loop (fun _ : unit =>
    v <- __sem_dec sem ;;
    if 0 <? v then Ret (inr 0) else
    result <- __futex_wait_ex sem (truthy shared) (Z.lor shared SEMCOUNT_MINUS_ONE)
                use_realtime_clock abs_timeout ;;
    if (result =? - ETIMEDOUT) || (result =? - EINTR)
    then r <- fail (- result) ;; Ret (inr r)
    else Ret (inl tt)) tt.

Definition sem_timedwait (sem : loc) (abs_timeout : option timespec) : prog Z :=
  __sem_timedwait sem abs_timeout true.

Definition sem_timedwait_monotonic_np (sem : loc) (abs_timeout : option timespec) : prog Z :=
  __sem_timedwait sem abs_timeout false.

Definition sem_clockwait (sem : loc) (clock : Z) (abs_timeout : option timespec) : prog Z :=
  if clock =? CLOCK_MONOTONIC then sem_timedwait_monotonic_np sem abs_timeout
  else if clock =? CLOCK_REALTIME then sem_timedwait sem abs_timeout
  else Ret EINVAL.

Definition sem_post (sem : loc) : prog Z :=
  shared <- SEM_GET_SHARED sem ;;
  old_value <- __sem_inc sem ;;
  if old_value <? 0 then __futex_wake_ex sem (truthy shared) INT_MAX ;; Ret 0
  else if old_value =? SEM_VALUE_MAX then fail EOVERFLOW
  else Ret 0.

Definition sem_trywait (sem : loc) : prog Z :=
  v <- __sem_trydec sem ;;
  if 0 <? v then Ret 0 else fail EAGAIN.

(** The result and the value stored through the pointer. *)
Definition sem_getvalue (sem : loc) : prog (Z * Z) :=
  c <- atomic_load sem ;;
  let val := SEMCOUNT_TO_VALUE c in
  let val := if val <? 0 then 0 else val in
  Ret (0, val).

(** * The count word *)

Section word.
Context (shared : Z) (Hshared : shared = 0 \/ shared = 1).

Definition sem_word (v : Z) : Z := wrapU 32 (2 * v + shared).

Lemma value_mask x : 0 <= x < 2 ^ 32 -> Z.land x SEMCOUNT_VALUE_MASK = 2 * (x / 2).
Proof using Type.
  intros Hx. change SEMCOUNT_VALUE_MASK with (Z.shiftl (Z.ones 31) 1). rewrite land_field by done.
  change (2 ^ 31) with 2147483648. change (2 ^ 1) with 2. change (2 ^ 32) with 4294967296 in Hx.
  Z.div_mod_to_equations. lia.
Qed.

Lemma lor_shared k : Z.lor (2 * k) shared = 2 * k + shared.
Proof using Hshared.
  rewrite Z.mul_comm. apply (lor_low_bits 1); [done|]. change (2 ^ 1) with 2. destruct Hshared as [-> | ->]; lia.
Qed.

Definition sem_value_ok (v : Z) : Prop := -1 <= v <= SEM_VALUE_MAX.

Lemma sem_word_eq v : sem_value_ok v -> sem_word v = if v <? 0 then 2 ^ 32 - 2 + shared else 2 * v + shared.
Proof using Hshared.
  unfold sem_value_ok, SEM_VALUE_MAX, sem_word, wrapU. intros Hv. change (2 ^ 32) with 4294967296.
  destruct (Z.ltb_spec v 0); [|rewrite Z.mod_small; lia].
  replace v with (-1) by lia. Z.div_mod_to_equations. lia.
Qed.

Lemma sem_to_value v : sem_value_ok v -> SEMCOUNT_TO_VALUE (sem_word v) = v.
Proof using Hshared.
  intros Hv. rewrite sem_word_eq by done. unfold sem_value_ok, SEM_VALUE_MAX in *.
  unfold SEMCOUNT_TO_VALUE. rewrite Z.shiftr_div_pow2 by done. unfold wrapS.
  change (2 ^ 32) with 4294967296. change (2 ^ (32 - 1)) with 2147483648.
  change (2 ^ SEMCOUNT_VALUE_SHIFT) with 2.
  destruct (Z.ltb_spec v 0); Z.div_mod_to_equations; lia.
Qed.

Lemma sem_word_shared v : Z.land (sem_word v) SEMCOUNT_SHARED_MASK = shared.
Proof using Hshared.
  change SEMCOUNT_SHARED_MASK with (Z.ones 1). rewrite Z.land_ones by done. unfold sem_word, wrapU.
  change (2 ^ 32) with 4294967296. change (2 ^ 1) with 2. Z.div_mod_to_equations. lia.
Qed.

Lemma sem_word_dec v :
  sem_value_ok v -> 0 <= v -> Z.lor (SEMCOUNT_DECREMENT (sem_word v)) shared = sem_word (v - 1).
Proof using Hshared.
  intros Hv H0. rewrite !sem_word_eq by (unfold sem_value_ok in *; lia).
  rewrite (proj2 (Z.ltb_ge v 0) H0). unfold SEMCOUNT_DECREMENT, sem_value_ok, SEM_VALUE_MAX in *.
  change (Z.shiftl 1 SEMCOUNT_VALUE_SHIFT) with 2.
  rewrite value_mask by (unfold wrapU; apply Z.mod_pos_bound; done). rewrite lor_shared. unfold wrapU.
  change (2 ^ 32) with 4294967296. destruct (Z.ltb_spec (v - 1) 0); Z.div_mod_to_equations; lia.
Qed.

Lemma sem_word_inc v :
  sem_value_ok v -> v < SEM_VALUE_MAX ->
  (if v <? 0 then Z.lor SEMCOUNT_ONE shared else Z.lor (SEMCOUNT_INCREMENT (sem_word v)) shared)
  = sem_word (Z.max v 0 + 1).
Proof using Hshared.
  intros Hv H0. unfold sem_value_ok, SEM_VALUE_MAX in *.
  rewrite !sem_word_eq by (unfold sem_value_ok, SEM_VALUE_MAX; lia).
  destruct (Z.ltb_spec v 0).
  - change SEMCOUNT_ONE with (2 * 1). rewrite lor_shared.
    replace (Z.max v 0 + 1) with 1 by lia. reflexivity.
  - unfold SEMCOUNT_INCREMENT. change (Z.shiftl 1 SEMCOUNT_VALUE_SHIFT) with 2.
    rewrite value_mask by (unfold wrapU; apply Z.mod_pos_bound; done). rewrite lor_shared. unfold wrapU.
    change (2 ^ 32) with 4294967296. destruct (Z.ltb_spec (Z.max v 0 + 1) 0); Z.div_mod_to_equations; lia.
Qed.

Lemma sem_word_minus_one : Z.lor shared SEMCOUNT_MINUS_ONE = sem_word (-1).
Proof using Hshared.
  rewrite sem_word_eq, Z.lor_comm by done. change SEMCOUNT_MINUS_ONE with (2 * 2147483647).
  rewrite lor_shared. done.
Qed.

Lemma sem_word_inj v v' : sem_value_ok v -> sem_value_ok v' -> sem_word v = sem_word v' -> v = v'.
Proof using Hshared. intros Hv Hv' E. by rewrite <- (sem_to_value v Hv), <- (sem_to_value v' Hv'), E. Qed.

End word.

(** * The invariant *)

(** Where a thread is. *)
Inductive sphase :=
| SIdle
| SQueued    (* inside the futex wait *)
| SPost      (* has announced a post, has not added the token *)
| SWake      (* added a token to a contended semaphore, about to wake everybody *)
| SGot.      (* took a token, has not counted it yet *)

Definition is_spost (φ : sphase) : bool := match φ with SPost => true | _ => false end.
Definition is_swake (φ : sphase) : bool := match φ with SWake => true | _ => false end.
Definition is_sgot (φ : sphase) : bool := match φ with SGot => true | _ => false end.

Section sem.
Context {K : FutexKernel} (sdk : Z) (sem waits posts : loc) (shared N : Z).
Context (Hshared : shared = 0 \/ shared = 1)
  (Hlocs : waits <> sem /\ posts <> sem /\ waits <> posts).

Abbreviation sh := (truthy shared).

(** [v] is the value; [N] tokens at the start. *)
Record sinv (v : Z) (m : mem) (g : list sphase) : Prop := mk_sinv {
  sv_value : sem_value_ok v;
  sv_word : word m sem = sem_word shared v;
  sv_tokens : Z.max v 0 =
    N + (word m posts - cnt is_spost g) - (word m waits + cnt is_sgot g);
  sv_others : forall l' sh', (l', sh') <> (sem, sh) -> waiters m l' sh' = [];
  sv_nodup : NoDup (waiters m sem sh);
  sv_queued : forall t, t ∈ waiters m sem sh -> g !! t = Some SQueued;
  sv_wake : waiters m sem sh <> [] -> v = -1 \/ 1 <= cnt is_swake g;
  sv_len : Z.of_nat (length g) <= INT_MAX
}.

Definition SInv (m : mem) (g : list sphase) : Prop := exists v, sinv v m g.

#[export] Instance SInv_proper : Proper (mem_equiv ==> eq ==> iff) SInv.
Proof using Type.
  assert (forall m m' g, mem_equiv m m' -> SInv m g -> SInv m' g) as H.
  { intros m m' g [Hw Hq] [v [H1 H2 H3 H4 H5 H6 H7 H8]]. exists v.
    split; rewrite <- ?Hw, <- ?Hq; try done. intros l' sh' Hne. rewrite <- Hq. auto. }
  intros m m' He g ? <-. split; apply H; [done|by symmetry].
Qed.

(** A step of thread [t] that leaves the queue alone. *)
Lemma sinv_step v m g t φ φ' v' m' :
  sinv v m g -> g !! t = Some φ -> φ <> SQueued ->
  sem_value_ok v' -> word m' sem = sem_word shared v' ->
  Z.max v' 0 - Z.max v 0 =
    (word m' posts - b2z (is_spost φ')) - (word m posts - b2z (is_spost φ))
    - ((word m' waits + b2z (is_sgot φ')) - (word m waits + b2z (is_sgot φ))) ->
  waiters m' = waiters m ->
  (v = -1 -> v' = -1 \/ is_swake φ' = true) -> (is_swake φ = true -> is_swake φ' = true) ->
  sinv v' m' (<[t:=φ']> g).
Proof using Type.
  intros [H1 H2 H3 H4 H5 H6 H7 H8] Hg Hφ Hv Hw Ht Hq Hwake Hkeep.
  split; rewrite ?(cnt_insert _ _ _ _ _ Hg), ?length_insert, ?Hq; try done; try lia.
  - intros t' Hin. rewrite list_lookup_insert_ne; [auto|]. intros ->. pose proof (H6 _ Hin). congruence.
  - intros Hne. destruct (H7 Hne) as [E|E].
    + destruct (Hwake E) as [->|E']; [by left|right]. rewrite E'.
      pose proof (cnt_nonneg is_swake (<[t:=SIdle]> g)) as Hn. rewrite (cnt_insert _ _ _ _ _ Hg) in Hn.
      simpl in *. lia.
    + right. destruct (is_swake φ) eqn:Es; [rewrite Hkeep by done|]; simpl; [lia|].
      destruct (is_swake φ'); simpl; lia.
Qed.

Lemma sinv_queue v m g t φ φ' q :
  sinv v m g -> g !! t = Some φ ->
  is_spost φ' = is_spost φ -> is_sgot φ' = is_sgot φ ->
  NoDup q -> (forall t', t' ∈ q -> t' <> t /\ t' ∈ waiters m sem sh \/ t' = t /\ φ' = SQueued) ->
  (q <> [] -> v = -1 \/ is_swake φ' = is_swake φ /\ 1 <= cnt is_swake g) ->
  sinv v (set_waiters m sem sh q) (<[t:=φ']> g).
Proof using Type.
  intros [H1 H2 H3 H4 H5 H6 H7 H8] Hg Ep Eg Hnd Hin Hne.
  split; simpl; rewrite ?(cnt_insert _ _ _ _ _ Hg), ?length_insert, ?decide_True by done; try done.
  - rewrite Ep, Eg. lia.
  - intros l' sh' Hne'. rewrite decide_False by (intros [-> ->]; done). auto.
  - intros t' Ht'. destruct (Hin t' Ht') as [[Hne' Hq]|[-> ->]].
    + rewrite list_lookup_insert_ne by done. auto.
    + apply list_lookup_insert_eq. by eapply lookup_lt_Some.
  - intros Hq. destruct (Hne Hq) as [->|[-> Hc]]; [by left|right; lia].
Qed.

Lemma sinv_not_queued v m g t φ : sinv v m g -> g !! t = Some φ -> φ <> SQueued -> t ∉ waiters m sem sh.
Proof using Type. intros HI Hg Hφ Hin. pose proof (sv_queued v m g HI t Hin). congruence. Qed.

Lemma sinv_enqueue m g t q :
  SInv m g -> g !! t = Some SIdle -> word m sem = sem_word shared (-1) ->
  q ≡ₚ t :: waiters m sem sh -> SInv (set_waiters m sem sh q) (<[t:=SQueued]> g).
Proof using All.
  intros [v HI] Hg Hw Hq. exists v. pose proof (sinv_not_queued v m g t _ HI Hg ltac:(done)) as Hni.
  assert (v = -1) as ->.
  { apply (sem_word_inj shared Hshared); [apply HI|done|]. rewrite <- Hw. symmetry. apply HI. }
  apply (sinv_queue _ m g t SIdle); try done; [|..|by left].
  - rewrite Hq. apply NoDup_cons. split; [done|apply HI].
  - intros t'. rewrite Hq, elem_of_cons. intros [->|Hin]; [by right|left]. split; [by intros ->|done].
Qed.

Lemma sinv_woken m g t :
  SInv m g -> g !! t = Some SQueued -> t ∉ waiters m sem sh -> SInv m (<[t:=SIdle]> g).
Proof using All.
  intros [v HI] Hg Hni. rewrite (mem_equiv_same_waiters m sem sh). exists v.
  apply (sinv_queue v m g t SQueued); try done; [apply HI|..].
  - intros t' Hin. left. split; [by intros ->|done].
  - intros Hne. destruct (sv_wake v m g HI Hne); auto.
Qed.

Lemma sinv_giveup m g t :
  SInv m g -> g !! t = Some SQueued -> t ∈ waiters m sem sh ->
  SInv (set_waiters m sem sh (filter (fun t' => t' <> t) (waiters m sem sh))) (<[t:=SIdle]> g).
Proof using All.
  intros [v HI] Hg Hin. exists v. apply (sinv_queue v m g t SQueued); try done; [apply NoDup_filter, HI|..].
  - intros t' [Hne Hin']%list_elem_of_filter. by left.
  - intros _. destruct (sv_wake v m g HI); auto. by destruct (waiters m sem sh); [apply not_elem_of_nil in Hin|].
Qed.

Lemma sinv_wake m g t q :
  SInv m g -> g !! t = Some SWake ->
  Z.of_nat (length (waiters m sem sh)) - Z.of_nat (length q)
    = Z.min INT_MAX (Z.of_nat (length (waiters m sem sh))) ->
  SInv (set_waiters m sem sh q) (<[t:=SIdle]> g).
Proof using All.
  intros [v HI] Hg Hlen. exists v.
  assert (Z.of_nat (length (waiters m sem sh)) <= Z.of_nat (length g)) as Hle.
  { enough (length (waiters m sem sh) <= length g)%nat by lia.
    rewrite <- (length_seq (length g) 0). apply submseteq_length, NoDup_submseteq; [apply HI|].
    intros t' Ht'. apply elem_of_seq. pose proof (sv_queued v m g HI t' Ht') as Hg'.
    apply lookup_lt_Some in Hg'. lia. }
  pose proof (sv_len v m g HI). assert (q = []) as -> by (destruct q; simpl in *; [done|lia]).
  apply (sinv_queue v m g t SWake); try done; [apply NoDup_nil_2|].
  intros t' Ht'. by apply not_elem_of_nil in Ht'.
Qed.

(** * The routines *)

Definition seen_word (s : Z) : Prop := exists v, sem_value_ok v /\ s = sem_word shared v.

Lemma wp_count_load t (Q : Z -> sphase -> Prop) φ :
  (forall v, sem_value_ok v -> Q (sem_word shared v) φ) -> wp SInv (atomic_load sem) t Q φ.
Proof using All.
  intros HQ. apply (wp_load SInv). intros m g [v HI] Hg. exists φ. rewrite list_insert_id by done.
  split; [by exists v|]. rewrite (sv_word v m g HI). apply HQ, HI.
Qed.

(** A compare-and-swap of the value from [v] to [v'], by a thread that goes from [φ] to [φ']. *)
Lemma wp_count_cas t φ φ' v v' (Q : bool * Z -> sphase -> Prop) :
  φ <> SQueued -> is_swake φ = false -> sem_value_ok v -> sem_value_ok v' ->
  Z.max v' 0 - Z.max v 0 = b2z (is_spost φ) - b2z (is_spost φ') + b2z (is_sgot φ) - b2z (is_sgot φ') ->
  (v = -1 -> is_swake φ' = true) ->
  (forall x, Q (true, x) φ') -> (forall v1, sem_value_ok v1 -> Q (false, sem_word shared v1) φ) ->
  wp SInv (atomic_compare_exchange_weak sem (sem_word shared v) (sem_word shared v')) t Q φ.
Proof using All.
  intros Hφ Hsw Hv Hv' Htok Hwake HQ HQ'. destruct Hlocs as (L1 & L2 & L3).
  apply wp_act. intros m g [v0 HI] Hg [ok seen] m' [E H]. simpl in *. subst seen.
  destruct H as [(-> & Hw & ->)|(-> & _ & ->)].
  - assert (v0 = v) as ->.
    { apply (sem_word_inj shared Hshared); [apply HI|done|]. by rewrite <- (sv_word v0 m g HI). }
    exists φ'. split; [|auto]. exists v'.
    apply (sinv_step v m g t φ φ' v'); try done; simpl;
      repeat first [rewrite decide_True by done | rewrite decide_False by congruence]; try done; try lia; auto.
    rewrite Hsw. done.
  - exists φ. rewrite list_insert_id by done. split; [by exists v0|].
    rewrite (sv_word v0 m g HI). apply HQ', HI.
Qed.

Definition took (r : Z) (φ : sphase) : Prop := φ = if 0 <? r then SGot else SIdle.

Lemma wp_dec t : wp SInv (__sem_dec sem) t took SIdle.
Proof using All.
  apply wp_bind, wp_count_load. intros v0 Hv0. cbv beta zeta. rewrite (sem_word_shared shared Hshared).
  apply (wp_loop SInv (fun s φ => seen_word s /\ φ = SIdle)); [by split; [exists v0|]|].
  clear v0 Hv0. intros s φ [(v & Hv & ->) ->]. rewrite (sem_to_value shared Hshared v Hv). unfold took.
  destruct (Z.ltb_spec v 0); [apply wp_ret; by rewrite (proj2 (Z.ltb_ge 0 v)) by lia|].
  rewrite (sem_word_dec shared Hshared v Hv) by done. apply wp_bind.
  apply (wp_count_cas t SIdle (if 0 <? v then SGot else SIdle) v (v - 1)); try done.
  - unfold sem_value_ok in *. lia.
  - destruct (Z.ltb_spec 0 v); simpl; lia.
  - intros ->. lia.
  - intros v1 Hv1. apply wp_ret. split; [by exists v1|done].
Qed.

Lemma wp_trydec t : wp SInv (__sem_trydec sem) t took SIdle.
Proof using All.
  apply wp_bind, wp_count_load. intros v0 Hv0. cbv beta zeta. rewrite (sem_word_shared shared Hshared).
  apply (wp_loop SInv (fun s φ => seen_word s /\ φ = SIdle)); [by split; [exists v0|]|].
  clear v0 Hv0. intros s φ [(v & Hv & ->) ->]. rewrite (sem_to_value shared Hshared v Hv). unfold took.
  destruct (Z.leb_spec v 0); [apply wp_ret; by rewrite (proj2 (Z.ltb_ge 0 v)) by lia|].
  rewrite (sem_word_dec shared Hshared v Hv) by lia. apply wp_bind.
  apply (wp_count_cas t SIdle SGot v (v - 1)); try done.
  - unfold sem_value_ok in *. lia.
  - simpl. lia.
  - intros ->. lia.
  - intros x. apply wp_ret. by rewrite (proj2 (Z.ltb_lt 0 v)).
  - intros v1 Hv1. apply wp_ret. split; [by exists v1|done].
Qed.

Lemma wp_inc t :
  wp SInv (__sem_inc sem) t
    (fun r φ => φ = if r <? 0 then SWake else if r =? SEM_VALUE_MAX then SPost else SIdle) SPost.
Proof using All.
  apply wp_bind, wp_count_load. intros v0 Hv0. cbv beta zeta. rewrite (sem_word_shared shared Hshared).
  apply (wp_loop SInv (fun s φ => seen_word s /\ φ = SPost)); [by split; [exists v0|]|].
  clear v0 Hv0. intros s φ [(v & Hv & ->) ->]. rewrite (sem_to_value shared Hshared v Hv).
  destruct (Z.eqb_spec v SEM_VALUE_MAX) as [->|Hne]; [by apply wp_ret|].
  cbv zeta. rewrite (sem_word_inc shared Hshared v Hv) by (unfold sem_value_ok in *; lia). apply wp_bind.
  apply (wp_count_cas t SPost (if v <? 0 then SWake else SIdle) v (Z.max v 0 + 1)); try done.
  - unfold sem_value_ok, SEM_VALUE_MAX in *. lia.
  - destruct (Z.ltb_spec v 0); simpl; lia.
  - by intros ->.
  - intros x. apply wp_ret. by rewrite (proj2 (Z.eqb_neq _ _) Hne).
  - intros v1 Hv1. apply wp_ret. split; [by exists v1|done].
Qed.

Lemma wp_get_shared t (Q : Z -> sphase -> Prop) φ : Q shared φ -> wp SInv (SEM_GET_SHARED sem) t Q φ.
Proof using All.
  intros HQ. apply wp_bind, wp_count_load. intros v Hv. apply wp_ret. by rewrite (sem_word_shared shared Hshared).
Qed.

Lemma wp_fail e t (Q : Z -> sphase -> Prop) φ : Q (-1) φ -> wp SInv (fail e) t Q φ.
Proof using All. intros HQ. apply wp_bind, (wp_set_errno SInv). by apply wp_ret. Qed.

(** The wait: back in the loop, or out of it. *)
Lemma wp_sem_futex rt ts t (Q : Z -> sphase -> Prop) :
  (forall r, Q r SIdle) ->
  wp SInv (__futex_wait_ex sem sh (Z.lor shared SEMCOUNT_MINUS_ONE) rt ts) t Q SIdle.
Proof using All.
  intros HQ. rewrite (sem_word_minus_one shared Hshared).
  apply (wp_futex_wait_ex SInv _ _ _ _ _ _ _ SIdle SQueued SIdle SIdle); auto.
  - intros m g q HI Hg Hw Hq. by apply sinv_enqueue.
  - intros m g HI Hg Hni. split; [by apply sinv_woken|auto].
  - intros m g HI Hg Hin. split; [by apply sinv_giveup|auto].
Qed.

(** What a wait leaves behind: 0 and a token, or another result and none. *)
Definition waited (r : Z) (φ : sphase) : Prop := φ = if r =? 0 then SGot else SIdle.

Lemma wp_sem_wait t : wp SInv (sem_wait sdk sem) t waited SIdle.
Proof using All.
  apply wp_bind, wp_get_shared. apply (wp_loop SInv (fun _ φ => φ = SIdle)); [done|]. intros _ φ ->.
  apply wp_bind. apply wp_mono with (2 := wp_dec t). intros r φ ->.
  destruct (0 <? r); [by apply wp_ret|]. apply wp_bind, wp_sem_futex. intros res.
  destruct (_ && _); [|by apply wp_ret]. apply wp_bind, wp_fail. by apply wp_ret.
Qed.

Lemma wp_sem_timedwait t ts rt : wp SInv (__sem_timedwait sem ts rt) t waited SIdle.
Proof using All.
  apply wp_bind. apply wp_mono with (2 := wp_trydec t). intros r φ ->.
  destruct (0 <? r); [by apply wp_ret|]. apply wp_bind, wp_check_timespec. intros res.
  destruct (res =? 0); simpl negb; cbv iota; [|by apply wp_fail].
  apply wp_bind, wp_get_shared. apply (wp_loop SInv (fun _ φ => φ = SIdle)); [done|]. intros _ φ ->.
  apply wp_bind. apply wp_mono with (2 := wp_dec t). intros r' φ ->.
  destruct (0 <? r'); [by apply wp_ret|]. apply wp_bind, wp_sem_futex. intros res'.
  destruct (_ || _); [|by apply wp_ret]. apply wp_bind, wp_fail. by apply wp_ret.
Qed.

Lemma wp_sem_trywait t : wp SInv (sem_trywait sem) t waited SIdle.
Proof using All.
  apply wp_bind. apply wp_mono with (2 := wp_trydec t). intros r φ ->.
  destruct (0 <? r); [by apply wp_ret|by apply wp_fail].
Qed.

Lemma wp_sem_post t : wp SInv (sem_post sem) t (fun r φ => φ = if r =? 0 then SIdle else SPost) SPost.
Proof using All.
  apply wp_bind, wp_get_shared, wp_bind. apply wp_mono with (2 := wp_inc t). intros r φ ->.
  destruct (r <? 0).
  - apply wp_bind, (wp_futex_wake_ex SInv _ _ _ _ _ SWake SIdle); [done| |intros x; by apply wp_ret].
    intros m g q HI Hg _ Hlen. by apply sinv_wake.
  - destruct (r =? SEM_VALUE_MAX); [by apply wp_fail|by apply wp_ret].
Qed.

(** * Clients *)

Definition run_wait_call (ts : option timespec) (c : lock_call) : prog Z :=
  match c with
  | CallLock => sem_wait sdk sem
  | CallTrylock => sem_trywait sem
  | CallTimedlock realtime => __sem_timedwait sem ts realtime
  end.

(** The most general client: it posts and waits as it likes.  It announces a post in [posts]
    before the call and takes the announcement back if the call fails; it counts a wait that
    succeeded in [waits]. *)
Definition sem_client (ts : option timespec) : prog unit :=
  loop (fun _ : unit =>
    go <- act Choose ;;
    post <- act Choose ;;
    if (go : bool) then
      if (post : bool) then
        act (Rmw posts (fun c => c + 1)) ;;
        r <- sem_post sem ;;
        if r =? 0 then Ret (inl tt) else act (Rmw posts (fun c => c + -1)) ;; Ret (inl tt)
      else
        call <- choose_lock_call ;;
        r <- run_wait_call ts call ;;
        if r =? 0 then act (Rmw waits (fun c => c + 1)) ;; Ret (inl tt) else Ret (inl tt)
    else Ret (inr tt)) tt.

Lemma wp_counter l d t φ φ' (Q : Z -> sphase -> Prop) :
  l = posts /\ d = b2z (is_spost φ') - b2z (is_spost φ) /\ is_sgot φ' = is_sgot φ \/
  l = waits /\ d = b2z (is_sgot φ) - b2z (is_sgot φ') /\ is_spost φ' = is_spost φ ->
  φ <> SQueued -> is_swake φ = false ->
  (forall x, Q x φ') -> wp SInv (act (Rmw l (fun c => c + d))) t Q φ.
Proof using All.
  intros Hl Hφ Hs HQ. destruct Hlocs as (L1 & L2 & L3). apply wp_act. intros m g [v HI] Hg x m' [_ ->].
  exists φ'. split; [|auto]. exists v. pose proof (sv_value v m g HI). pose proof (sv_word v m g HI).
  destruct Hl as [(-> & -> & E)|(-> & -> & E)];
    (apply (sinv_step v m g t φ φ' v); try done; simpl;
     repeat first [rewrite decide_True by done | rewrite decide_False by congruence]; try done; try lia;
     try (rewrite ?E; lia); try (by left); by rewrite Hs).
Qed.

Lemma wp_sem_client ts t : wp SInv (sem_client ts) t (fun _ φ => φ = SIdle) SIdle.
Proof using All.
  apply (wp_loop SInv (fun _ φ => φ = SIdle)); [done|]. intros _ φ ->.
  apply wp_bind, wp_choose. intros go. apply wp_bind, wp_choose. intros post.
  destruct go; [|by apply wp_ret]. destruct post.
  - apply wp_bind, (wp_counter posts 1 t SIdle SPost); [by left|done..|]. intros _.
    apply wp_bind. apply wp_mono with (2 := wp_sem_post t). intros r φ ->.
    destruct (r =? 0); [by apply wp_ret|].
    apply wp_bind, (wp_counter posts (-1) t SPost SIdle); [by left|done..|]. intros _. by apply wp_ret.
  - apply wp_bind, wp_choose_lock_call. intros call.
    apply wp_bind. apply wp_mono with (Q := waited).
    + intros r φ ->. destruct (r =? 0); [|by apply wp_ret].
      apply wp_bind, (wp_counter waits 1 t SGot SIdle); [by right|done..|]. intros _. by apply wp_ret.
    + destruct call; [apply wp_sem_wait|apply wp_sem_trywait|apply wp_sem_timedwait].
Qed.

Definition sem_start (m : mem) : Prop :=
  0 <= N <= SEM_VALUE_MAX /\ word m sem = sem_word shared N /\ word m waits = 0 /\ word m posts = 0 /\
  forall l sh', waiters m l sh' = [].

Lemma sem_client_inv ts n m c :
  Z.of_nat n <= INT_MAX -> sem_start m -> reachable (replicate n (sem_client ts), m) c ->
  exists g, SInv c.2 g /\ threads_ok SInv (fun _ φ _ => φ = SIdle) c.1 c.2 g.
Proof using All.
  intros Hn (HN & Hw & Hwt & Hp & Hq) Hr.
  apply (machine_inv SInv (fun _ φ _ => φ = SIdle) _ _ (replicate n SIdle) Hr); simpl.
  - exists N. split; rewrite ?Hwt, ?Hp, ?Hq, ?length_replicate, ?cnt_replicate by done; try done; try lia.
    + unfold sem_value_ok. lia.
    + apply NoDup_nil_2.
    + intros t Hin. by apply not_elem_of_nil in Hin.
  - rewrite <- (length_replicate n (sem_client ts)) at 2.
    apply threads_ok_intro. intros t p [-> _]%lookup_replicate. apply wp_sem_client.
Qed.

(** Nobody announced a post or took a token in secret when every thread has returned or sleeps. *)
Lemma sem_quiet c g :
  SInv c.2 g -> threads_ok SInv (fun _ φ _ => φ = SIdle) c.1 c.2 g -> quiescent c ->
  forall t p, c.1 !! t = Some p -> asleep c.2 t p = true ->
  N + word c.2 posts = word c.2 waits.
Proof using All.
  intros [v HI] [Hlen Hok] Hquiet.
  assert (forall t p, c.1 !! t = Some p -> asleep c.2 t p = true -> t ∈ waiters c.2 sem sh) as Has.
  { intros t p Hp Hs. unfold asleep in Hs.
    destruct (waiting_on p) as [[l' sh']|]; [|done]. apply bool_decide_eq_true in Hs.
    destruct (decide ((l', sh') = (sem, sh))) as [[= -> ->]|Hne]; [auto|].
    rewrite (sv_others v c.2 g HI l' sh' Hne) in Hs. by apply not_elem_of_nil in Hs. }
  assert (forall t φ, g !! t = Some φ -> φ = SIdle \/ φ = SQueued) as Hall.
  { intros t φ Hg. destruct (lookup_lt_is_Some_2 c.1 t) as [p Hp].
    { rewrite <- Hlen. by eapply lookup_lt_Some. }
    destruct (Hok t p Hp) as (φ' & Hg' & Hwp). replace φ' with φ in * by congruence.
    destruct (Hquiet t p Hp) as [Hf|Hs]; [left; by destruct p|right].
    pose proof (sv_queued v c.2 g HI t (Has t p Hp Hs)). congruence. }
  intros t p Hp Hs. pose proof (Has t p Hp Hs) as Hin.
  assert (forall P : sphase -> bool, P SIdle = false -> P SQueued = false -> cnt P g = 0) as H0.
  { intros P H1 H2. apply cnt_zero. intros t' φ' Hg'. by destruct (Hall t' φ' Hg') as [-> | ->]. }
  pose proof (sv_tokens v c.2 g HI) as Htok. rewrite !H0 in Htok by done.
  destruct (sv_wake v c.2 g HI) as [->|Hw]; [|lia|rewrite H0 in Hw by done; lia].
  intros E. rewrite E in Hin. by apply not_elem_of_nil in Hin.
Qed.

Lemma sinv_bound m g : SInv m g -> word m waits <= N + word m posts.
Proof using All.
  intros [v HI]. pose proof (sv_tokens v m g HI). pose proof (cnt_nonneg is_spost g).
  pose proof (cnt_nonneg is_sgot g). lia.
Qed.

End sem.

(** C25: semaphores.  Threads post and wait (plain, try, or timed on either clock) as they like
    on a semaphore that starts with [N] tokens.  In every interleaving the waits that have
    succeeded are at most [N] plus the posts that have started, and if every thread has
    returned or sleeps and some thread sleeps, they are exactly as many: no token is made
    up, none is lost, and nobody sleeps while there is one. *)
Theorem sem_correct {K : FutexKernel} sdk sem waits posts shared N ts n m c :
  shared = 0 \/ shared = 1 -> waits <> sem /\ posts <> sem /\ waits <> posts ->
  Z.of_nat n <= INT_MAX -> sem_start sem waits posts shared N m ->
  reachable (replicate n (sem_client sdk sem waits posts ts), m) c ->
  word c.2 waits <= N + word c.2 posts /\
  (quiescent c -> forall t p, c.1 !! t = Some p -> asleep c.2 t p = true ->
     word c.2 waits = N + word c.2 posts).
Proof.
  intros Hs Hl Hn Hm Hr.
  destruct (sem_client_inv sdk sem waits posts shared N Hs Hl ts n m c Hn Hm Hr) as (g & HI & Hok).
  split; [by eapply (sinv_bound sdk sem waits posts shared N)|]. intros Hq t p Hp Ha. symmetry.
  by eapply (sem_quiet sdk sem waits posts shared N Hs Hl c g).
Qed.

(** Threads 0 and 2 wait on an empty semaphore, thread 1 posts: thread 0 takes the token,
    thread 2 goes back to sleep. *)
Definition ex_sem : loc := (0%nat, "count").
Definition ex_waits : loc := (1%nat, "waits").
Definition ex_posts : loc := (1%nat, "posts").

Definition ex_sem_wait (t : nat) : list (nat * bool) :=
  [(t, true); (t, true); (t, false); (t, true); (t, false); (t, false)] ++ replicate 40 (t, false).

Definition ex_sem_run : machine :=
  run_schedule ex_clock
    (ex_sem_wait 0 ++ ex_sem_wait 2 ++ replicate 3 (1%nat, true) ++ replicate 20 (1%nat, false) ++
     replicate 40 (0%nat, false) ++ replicate 40 (2%nat, false))
    (replicate 3 (sem_client 30 ex_sem ex_waits ex_posts None), ex_mem).

Lemma sem_correct_witness :
  stuck 2 ex_sem_run = true /\ word ex_sem_run.2 ex_waits = 1 /\
  (word ex_sem_run.2 ex_waits <= 0 + word ex_sem_run.2 ex_posts /\
   (quiescent ex_sem_run -> forall t p, ex_sem_run.1 !! t = Some p -> asleep ex_sem_run.2 t p = true ->
      word ex_sem_run.2 ex_waits = 0 + word ex_sem_run.2 ex_posts)).
Proof.
  split; [vm_compute; reflexivity|]. split; [vm_compute; reflexivity|].
  apply (sem_correct (K := fifo_kernel) 30 ex_sem ex_waits ex_posts 0 0 None 3 ex_mem ex_sem_run).
  - by left.
  - done.
  - vm_compute. discriminate.
  - repeat split; done.
  - exact (run_schedule_reachable _ _ _).
Defined.
