(* ===== verification/WaitQueue.v ===== *)
(** The wait queue of one futex word, as an invariant the components share.

    A component that sleeps on a word keeps this promise: a thread is queued only in a phase
    that says so, and while somebody is queued either the reason to sleep still holds or some
    thread is on its way to wake the queue.  The lemmas below are the six ways a step can touch
    the promise. *)

From S2P Require Import Prelude Atomic Futex.

Section wait_queue.
Context {Φ : Type} (l : loc) (sh : bool) (queued waker : Φ -> bool).

(** [reason] says that the word still has the value the sleepers compared it with. *)
Record wait_queue (reason : Prop) (m : mem) (g : list Φ) : Prop := mk_wait_queue {
  wq_nodup : NoDup (waiters m l sh);
  wq_queued : forall t, t ∈ waiters m l sh -> exists φ, g !! t = Some φ /\ queued φ = true;
  wq_wake : waiters m l sh <> [] -> reason \/ 1 <= cnt waker g
}.

Lemma wq_equiv reason m m' g :
  waiters m' l sh = waiters m l sh -> wait_queue reason m g -> wait_queue reason m' g.
Proof. intros E [H1 H2 H3]. by split; rewrite E. Qed.

Lemma wq_empty reason m g : waiters m l sh = [] -> wait_queue reason m g.
Proof.
  intros E. split; rewrite E; [apply NoDup_nil_2| |done]. intros t H. by apply not_elem_of_nil in H.
Qed.

Lemma wq_not_queued reason m g t φ :
  wait_queue reason m g -> g !! t = Some φ -> queued φ = false -> t ∉ waiters m l sh.
Proof. intros [_ H _] Hg Hq Hin. destruct (H t Hin) as (φ' & Hg' & Hq'). congruence. Qed.

Lemma cnt_waker_insert g t φ φ' :
  g !! t = Some φ -> waker φ' = true -> 1 <= cnt waker (<[t:=φ']> g).
Proof.
  intros Hg Hw. rewrite (cnt_insert _ _ _ _ _ Hg), Hw.
  assert (b2z (waker φ) <= cnt waker g); [|simpl; lia].
  destruct (waker φ) eqn:E; simpl; [|apply cnt_nonneg]. by apply (cnt_lookup _ _ t φ).
Qed.

(** A step that leaves the queue alone. *)
Lemma wq_step (reason reason' : Prop) m m' g t φ φ' :
  wait_queue reason m g -> g !! t = Some φ -> queued φ = false ->
  waiters m' l sh = waiters m l sh ->
  (reason -> reason' \/ waker φ' = true) -> (waker φ = true -> waker φ' = true) ->
  wait_queue reason' m' (<[t:=φ']> g).
Proof.
  intros HI Hg Hq E Hr Hw. pose proof (wq_not_queued _ _ _ _ _ HI Hg Hq) as Hni.
  destruct HI as [H1 H2 H3]. split; rewrite E; [done|..].
  - intros t' Hin. destruct (H2 t' Hin) as (φ1 & Hg1 & Hq1). exists φ1. split; [|done].
    rewrite list_lookup_insert_ne; [done|]. by intros ->.
  - intros Hne. destruct (H3 Hne) as [Hr'|Hc].
    + destruct (Hr Hr') as [?|?]; [by left|right]. by eapply cnt_waker_insert.
    + right. destruct (waker φ) eqn:Ew; [eapply cnt_waker_insert; by auto|].
      rewrite (cnt_insert _ _ _ _ _ Hg), Ew. destruct (waker φ'); simpl; lia.
Qed.

(** A thread joins the queue, while the reason holds. *)
Lemma wq_enqueue (reason : Prop) m g t φ φ' q :
  wait_queue reason m g -> g !! t = Some φ -> queued φ = false -> queued φ' = true ->
  reason -> q ≡ₚ t :: waiters m l sh ->
  wait_queue reason (set_waiters m l sh q) (<[t:=φ']> g).
Proof.
  intros HI Hg Hq Hq' Hr E. pose proof (wq_not_queued _ _ _ _ _ HI Hg Hq) as Hni.
  destruct HI as [H1 H2 H3]. split; rewrite waiters_set_waiters_eq; [| |by left].
  - rewrite E. by apply NoDup_cons.
  - intros t'. rewrite E, elem_of_cons. intros [->|Hin].
    + exists φ'. split; [|done]. apply list_lookup_insert_eq. by eapply lookup_lt_Some.
    + rewrite list_lookup_insert_ne; [auto|]. by intros ->.
Qed.

Lemma wq_shrink (reason : Prop) m g t φ φ' q :
  wait_queue reason m g -> g !! t = Some φ -> waker φ = false -> t ∉ q -> sublist q (waiters m l sh) ->
  wait_queue reason (set_waiters m l sh q) (<[t:=φ']> g).
Proof.
  intros [H1 H2 H3] Hg Hw Hni Hsub. split; rewrite waiters_set_waiters_eq.
  - by eapply sublist_NoDup.
  - intros t' Hin. rewrite list_lookup_insert_ne by (by intros ->). apply H2. by eapply elem_of_sublist.
  - intros Hne. destruct H3 as [?|Hc]; [|by left|right].
    + intros E. rewrite E in Hsub. by apply sublist_nil_r in Hsub.
    + rewrite (cnt_insert _ _ _ _ _ Hg), Hw. destruct (waker φ'); simpl; lia.
Qed.

(** A thread comes back after a wake-up that took it from the queue. *)
Lemma wq_woken (reason : Prop) m g t φ φ' :
  wait_queue reason m g -> g !! t = Some φ -> waker φ = false -> t ∉ waiters m l sh ->
  wait_queue reason m (<[t:=φ']> g).
Proof.
  intros HI Hg Hw Hni. eapply (wq_equiv _ (set_waiters m l sh (waiters m l sh))).
  - by rewrite waiters_set_waiters_eq.
  - by eapply wq_shrink.
Qed.

(** A thread gives up: a signal, or a timeout. *)
Lemma wq_giveup (reason : Prop) m g t φ φ' :
  wait_queue reason m g -> g !! t = Some φ -> waker φ = false ->
  wait_queue reason (set_waiters m l sh (filter (fun t' => t' <> t) (waiters m l sh))) (<[t:=φ']> g).
Proof.
  intros HI Hg Hw. eapply wq_shrink; [done..| |apply sublist_filter].
  intros [Hne _]%list_elem_of_filter. done.
Qed.

(** The queued threads are among the threads in queued phases. *)
Lemma wq_length reason m g :
  wait_queue reason m g -> (length (waiters m l sh) <= length g)%nat.
Proof.
  intros [H1 H2 H3]. rewrite <- (length_seq (length g) 0). apply submseteq_length, NoDup_submseteq; [done|].
  intros t Ht. apply elem_of_seq. destruct (H2 t Ht) as (φ & Hg & _). apply lookup_lt_Some in Hg. lia.
Qed.

(** A wake-up that reaches everybody. *)
Lemma wq_wake_all (reason reason' : Prop) m g t φ φ' n q :
  wait_queue reason m g -> g !! t = Some φ -> queued φ = false -> Z.of_nat (length g) <= n + 1 ->
  Z.of_nat (length (waiters m l sh)) - Z.of_nat (length q) = Z.min n (Z.of_nat (length (waiters m l sh))) ->
  wait_queue reason' (set_waiters m l sh q) (<[t:=φ']> g).
Proof.
  intros HI Hg Hq Hn Hlen. apply wq_empty. rewrite waiters_set_waiters_eq.
  pose proof (wq_not_queued _ _ _ _ _ HI Hg Hq) as Hni.
  assert (S (length (waiters m l sh)) <= length g)%nat as Hle.
  { change (length (t :: waiters m l sh) <= length g)%nat. rewrite <- (length_seq (length g) 0).
    apply submseteq_length, NoDup_submseteq; [apply NoDup_cons; split; [done|apply HI]|].
    intros t' Ht'. apply elem_of_seq. apply elem_of_cons in Ht' as [->|Ht'].
    - apply lookup_lt_Some in Hg. lia.
    - destruct (wq_queued _ _ _ HI t' Ht') as (φ1 & Hg1 & _). apply lookup_lt_Some in Hg1. lia. }
  destruct q; simpl in *; [done|lia].
Qed.

End wait_queue.
