(* ===== verification/CondMonitor.v ===== *)
(** Condition variables under a mutex: no broadcast is lost.

    A monitor is a flag under a mutex and a condition variable: a thread waits until the flag is
    set, another sets it and broadcasts.  The proof puts the contract of the normal mutex
    (MutexNormal.v) and the protocol of the condition variable (Cond.v) side by side with the
    rule of Frame.v. *)

From S2P Require Import Prelude Atomic Futex Lock Mutex MutexNormal WaitQueue Frame Cond.

(** Where a thread is with respect to the condition variable; the number is the count of pulses
    at the time the thread read the state word. *)
Inductive cphase :=
| CIdle
| CRead                (* holds the mutex and has seen the flag down *)
| CLoaded (k : Z)      (* ... and has read the state word *)
| CCounted (k : Z)     (* is counted as a waiter, releases the mutex and goes to sleep *)
| CQueued              (* inside the futex wait *)
| CBack                (* woken, still counted *)
| CAnnounced           (* has announced a pulse *)
| CSet                 (* has raised the flag, owes a broadcast *)
| CPulse               (* owes a broadcast and has seen waiters *)
| CWake                (* has moved the counter, about to wake everybody *)
| CSignal.             (* has announced a signal, owes nothing *)

Definition is_counted (φ : cphase) : bool :=
  match φ with CCounted _ | CQueued | CBack => true | _ => false end.
Definition is_pending (φ : cphase) : bool := match φ with CSet | CPulse => true | _ => false end.
Definition is_announced (φ : cphase) : bool :=
  match φ with CAnnounced | CSet | CPulse | CSignal => true | _ => false end.
Definition is_cwake (φ : cphase) : bool := match φ with CWake => true | _ => false end.
Definition is_reading (φ : cphase) : bool := match φ with CRead | CLoaded _ => true | _ => false end.
Definition is_cqueued (φ : cphase) : bool := match φ with CQueued => true | _ => false end.
Definition pulse_seen (φ : cphase) : option Z :=
  match φ with CLoaded k | CCounted k => Some k | _ => None end.

(** The pulses that fit the counter. *)
Definition COND_PULSES : Z := 2 ^ 30.

Section monitor.
Context {K : FutexKernel} (sdk : Z) (cond mu : nat) (flag pulses : loc) (shared fl : Z).
Context (Hshared : shared = 0 \/ shared = MUTEX_SHARED_MASK) (Hfl : 0 <= fl < 4)
  (Hobj : cond <> mu /\ flag.1 <> mu /\ pulses.1 <> mu /\ flag.1 <> cond /\ pulses.1 <> cond /\ flag <> pulses).

Definition own (l : loc) : bool := (l.1 =? mu)%nat.
Definition mcs : loc := (mu, "critical").
Abbreviation state := (c_state cond).
Abbreviation csh := (COND_IS_SHARED fl).

(** The state word after [k] pulses. *)
Definition cond_word (k : Z) : Z := fl + 4 * (k mod COND_PULSES).

(** Someone will see to the sleepers. *)
Definition attended (m : mem) (g : list (phase * cphase)) : Prop :=
  word m flag = 0 \/ 1 <= cnt is_pending (snd <$> g).

Record cinv (k : Z) (m : mem) (g : list (phase * cphase)) : Prop := mk_cinv {
  ci_state : word m state = cond_word k;
  ci_pulses : 0 <= k /\ k + cnt is_announced (snd <$> g) <= word m pulses;
  ci_waiters : word m (c_waiters cond) = cnt is_counted (snd <$> g);
  ci_len : Z.of_nat (length g) <= INT_MAX;
  ci_reading : forall t φ, g !! t = Some φ -> is_reading φ.2 = true -> φ.1 = Own /\ word m flag = 0;
  ci_idle : forall t φ, g !! t = Some φ -> is_cqueued φ.2 = true -> φ.1 = Idle;
  ci_seen : forall t φ k0, g !! t = Some φ -> pulse_seen φ.2 = Some k0 -> 0 <= k0 <= k;
  ci_wait : forall t φ k0, g !! t = Some φ -> φ.2 = CCounted k0 -> k0 < k \/ attended m g;
  ci_queue : wait_queue state csh (fun φ : phase * cphase => is_cqueued φ.2) (fun _ => false) True m g;
  ci_sleep : word m pulses < COND_PULSES -> waiters m state csh <> [] ->
    attended m g \/ 1 <= cnt is_cwake (snd <$> g);
  ci_others : forall l sh, own l = false -> (l, sh) <> (state, csh) -> waiters m l sh = []
}.

Definition CInv (m : mem) (g : list (phase * cphase)) : Prop := exists k, cinv k m g.

#[export] Instance CInv_proper : Proper (mem_equiv ==> eq ==> iff) CInv.
Proof using Type.
  assert (forall m m' g, mem_equiv m m' -> CInv m g -> CInv m' g) as H.
  { intros m m' g [Hw Hq] (k & []). exists k.
    split; intros; unfold attended in *; rewrite <- ?Hw, <- ?Hq in *; eauto. by apply wq_equiv with m. }
  intros m m' He g ? <-. split; apply H; [done|by symmetry].
Qed.

Definition neutral (φ : cphase) : Prop := is_reading φ = false /\ is_cqueued φ = false.

Lemma snd_insert (g : list (phase * cphase)) t φ φ' :
  g !! t = Some φ -> (snd <$> g) !! t = Some φ.2 /\ snd <$> <[t:=φ']> g = <[t:=φ'.2]> (snd <$> g).
Proof using Type. intros Hg. by rewrite list_lookup_fmap, Hg, list_fmap_insert. Qed.

(** What the rule for the mutex asks of the condition variable. *)
Lemma CInv_phase m g t φ1 φ1' φ2 :
  neutral φ2 -> g !! t = Some (φ1, φ2) -> CInv m g -> CInv m (<[t:=(φ1', φ2)]> g).
Proof using Type.
  intros [N1 N2] Hg (k & HI). exists k. destruct (snd_insert g t _ (φ1', φ2) Hg) as [Hg2 E2].
  assert (snd <$> <[t:=(φ1', φ2)]> g = snd <$> g) as E by (rewrite E2; by apply list_insert_id).
  pose proof (wq_not_queued _ _ _ _ _ _ _ _ _ (ci_queue k m g HI) Hg N2) as Hni.
  destruct HI. split; unfold attended in *; rewrite ?E, ?length_insert; try done.
  - eapply (insert_all (fun t φ => is_reading φ.2 = true -> φ.1 = Own /\ word m flag = 0)); eauto. simpl. congruence.
  - eapply (insert_all (fun t φ => is_cqueued φ.2 = true -> φ.1 = Idle)); eauto. simpl. congruence.
  - intros t' φ k0. revert t' φ. eapply (insert_all (fun t φ => pulse_seen φ.2 = Some k0 -> 0 <= k0 <= k)); eauto.
  - intros t' φ k0. revert t' φ.
    eapply (insert_all (fun t φ => φ.2 = CCounted k0 -> k0 < k \/ word m flag = 0 \/ 1 <= cnt is_pending (snd <$> g))); eauto.
  - apply wq_step with (1 := ci_queue0) (2 := Hg); try done. by left.
Qed.

Lemma own_fields l : own l = true -> l <> state /\ l <> c_waiters cond /\ l <> flag /\ l <> pulses.
Proof using Hobj.
  unfold own. intros H%Nat.eqb_eq. destruct Hobj as (N1 & N2 & N3 & _). repeat split; intros ->; simpl in *; congruence.
Qed.

Lemma CInv_word m g l v : own l = true -> CInv m g -> CInv (set_word m l v) g.
Proof using Hobj.
  intros Hl (k & []). exists k. destruct (own_fields l Hl) as (N1 & N2 & N3 & N4).
  split; unfold attended in *; rewrite ?(word_set_word_ne m) by congruence; eauto.
  by apply wq_equiv with m.
Qed.

Lemma CInv_waiters m g l sh q : own l = true -> CInv m g -> CInv (set_waiters m l sh q) g.
Proof using Hobj.
  intros Hl (k & []). exists k. destruct (own_fields l Hl) as (N1 & _).
  assert (waiters (set_waiters m l sh q) state csh = waiters m state csh) as E
    by (apply waiters_set_waiters_ne; congruence).
  split; rewrite ?E; try done.
  - by apply wq_equiv with m.
  - intros l' sh' Hl' Hne. rewrite waiters_set_waiters_ne; [auto|]. intros [= -> ->]. congruence.
Qed.

(** A step of the condition variable that leaves its queue alone. *)
Lemma cinv_step k m g t φ φ' k' m' :
  cinv k m g -> g !! t = Some φ -> is_cqueued φ.2 = false -> is_cqueued φ'.2 = false ->
  waiters m' = waiters m -> word m' state = cond_word k' -> k <= k' ->
  word m' (c_waiters cond) - word m (c_waiters cond) = b2z (is_counted φ'.2) - b2z (is_counted φ.2) ->
  k' - k + b2z (is_announced φ'.2) - b2z (is_announced φ.2) <= word m' pulses - word m pulses ->
  word m pulses <= word m' pulses ->
  (forall t1 φ1, t1 <> t -> g !! t1 = Some φ1 -> is_reading φ1.2 = true -> word m flag = 0 -> word m' flag = 0) ->
  (is_reading φ'.2 = true -> φ'.1 = Own /\ word m' flag = 0) ->
  (forall k0, pulse_seen φ'.2 = Some k0 -> 0 <= k0 <= k') ->
  (forall k0, φ'.2 = CCounted k0 -> word m' flag = 0) ->
  (word m flag = 0 -> word m' flag = 0 \/ is_pending φ'.2 = true) ->
  (is_pending φ.2 = true -> is_pending φ'.2 = true \/ k < k' /\ is_cwake φ'.2 = true \/ word m (c_waiters cond) = 0) ->
  (is_cwake φ.2 = true -> is_cwake φ'.2 = true) ->
  cinv k' m' (<[t:=φ']> g).
Proof using All.
  intros HI Hg Hq Hq' Ew Hs Hk Hc Hp Hpm Hro Hr Hps Hcc Hf Hpend Hwk.
  destruct (snd_insert g t φ φ' Hg) as [Hg2 E2].
  assert (word m (c_waiters cond) <> 0 -> attended m g -> attended m' (<[t:=φ']> g) \/ k < k' /\ 1 <= cnt is_cwake (snd <$> <[t:=φ']> g)) as Hatt.
  { intros Hne [H0|H1]; unfold attended; rewrite E2.
    - left. destruct (Hf H0); [by left|right]. by eapply cnt_made.
    - destruct (is_pending φ.2) eqn:Ep.
      + destruct (Hpend eq_refl) as [?|[[? ?]|?]]; [left; right|right; split; [done|]|done]; by eapply cnt_made.
      + left. right. eapply cnt_kept; [done| |done]. by rewrite Ep. }
  assert (forall t1 φ1, g !! t1 = Some φ1 -> is_counted φ1.2 = true -> word m (c_waiters cond) <> 0) as Hcnt.
  { intros t1 φ1 H1 Hc1. rewrite (ci_waiters k m g HI). pose proof (cnt_lookup is_counted (snd <$> g) t1 φ1.2) as H.
    rewrite list_lookup_fmap, H1 in H. specialize (H eq_refl Hc1). lia. }
  destruct HI. split; rewrite ?E2, ?(cnt_insert _ _ _ _ _ Hg2), ?length_insert, ?Ew; try done; try lia.
  - eapply (insert_all (fun t φ => is_reading φ.2 = true -> φ.1 = Own /\ word m' flag = 0)); [done..|].
    intros t1 φ1 Hne H1 Hr1. destruct (ci_reading0 t1 φ1 H1 Hr1). split; [done|]. by eapply Hro.
  - eapply (insert_all (fun t φ => is_cqueued φ.2 = true -> φ.1 = Idle)); [done|congruence|]. eauto.
  - intros t1 φ1 k0. revert t1 φ1. eapply (insert_all (fun t φ => pulse_seen φ.2 = Some k0 -> 0 <= k0 <= k')); [done|auto|].
    intros t1 φ1 Hne H1 Hs1. specialize (ci_seen0 t1 φ1 k0 H1 Hs1). lia.
  - intros t1 φ1 k0. revert t1 φ1.
    eapply (insert_all (fun t φ1 => φ1.2 = CCounted k0 -> k0 < k' \/ attended m' (<[_:=φ']> g))); [done|..].
    + intros E. right. left. by eapply Hcc.
    + intros t1 φ1 Hne H1 E. destruct (ci_wait0 t1 φ1 k0 H1 E) as [?|Ha]; [left; lia|].
      destruct (Hatt (Hcnt t1 φ1 H1 ltac:(by rewrite E)) Ha) as [?|[? _]]; [by right|left].
      destruct (ci_seen0 t1 φ1 k0 H1 ltac:(by rewrite E)). lia.
  - apply wq_step with (1 := ci_queue0) (2 := Hg); try done; [by rewrite Ew|by left].
  - intros Hb Hne. destruct (waiters m state csh) as [|t1 q] eqn:Eq; [done|].
    destruct (wq_queued _ _ _ _ _ _ _ ci_queue0 t1) as (φ1 & H1 & Hq1); [rewrite Eq; by left|].
    rewrite <- (cnt_insert _ _ _ _ _ Hg2), <- E2. destruct (ci_sleep0 ltac:(lia) Hne) as [Ha|Hw].
    + destruct (Hatt (Hcnt t1 φ1 H1 ltac:(by destruct φ1.2)) Ha) as [?|[_ ?]]; [by left|by right].
    + right. rewrite E2. by eapply cnt_kept.
Qed.

(** The queue changes. *)
Lemma cinv_queue k m g t φ φ' q :
  cinv k m g -> g !! t = Some φ ->
  (is_counted φ'.2, is_announced φ'.2, is_pending φ'.2) = (is_counted φ.2, is_announced φ.2, is_pending φ.2) ->
  (is_cqueued φ'.2 = true -> φ'.1 = Idle) -> is_reading φ'.2 = false -> pulse_seen φ'.2 = None ->
  wait_queue state csh (fun φ : phase * cphase => is_cqueued φ.2) (fun _ => false) True
    (set_waiters m state csh q) (<[t:=φ']> g) ->
  (word m pulses < COND_PULSES -> q <> [] -> attended m g \/ 1 <= cnt is_cwake (snd <$> g) /\ is_cwake φ.2 = false) ->
  cinv k (set_waiters m state csh q) (<[t:=φ']> g).
Proof using All.
  intros HI Hg [= E1 E2' E3] Hid Hrd Hsn Hq Hs. destruct (snd_insert g t φ φ' Hg) as [Hg2 E2].
  assert (attended m g -> attended (set_waiters m state csh q) (<[t:=φ']> g)) as Hatt.
  { intros [?|Hp]; [by left|right]. rewrite E2. eapply cnt_kept; [done| |done]. by rewrite E3. }
  destruct HI. split; rewrite ?E2, ?(cnt_insert _ _ _ _ _ Hg2), ?length_insert, ?E1, ?E2'; try done; simpl; try lia.
  - eapply (insert_all (fun t φ => is_reading φ.2 = true -> φ.1 = Own /\ word m flag = 0)); [done|congruence|]. eauto.
  - eapply (insert_all (fun t φ => is_cqueued φ.2 = true -> φ.1 = Idle)); [done|done|]. eauto.
  - intros t1 φ1 k0. revert t1 φ1. eapply (insert_all (fun t φ => pulse_seen φ.2 = Some k0 -> 0 <= k0 <= k)); [done|congruence|]. eauto.
  - intros t1 φ1 k0. revert t1 φ1.
    eapply (insert_all (fun t φ1 => φ1.2 = CCounted k0 -> k0 < k \/ attended (set_waiters m state csh q) (<[_:=φ']> g))); [done|..].
    + intros E. by rewrite E in Hsn.
    + intros t1 φ1 Hne H1 E. destruct (ci_wait0 t1 φ1 k0 H1 E); [by left|right; auto].
  - rewrite decide_True by done. intros Hb Hne. destruct (Hs Hb Hne) as [?|[Hc Hw]]; [left; auto|right].
    rewrite Hw. destruct (is_cwake φ'.2); simpl; lia.
  - intros l sh Hl Hne. rewrite decide_False by (intros [-> ->]; done). auto.
Qed.

(** * Both components *)

Abbreviation MInv := (tinv (m_state mu) mcs (truthy shared) (normal_unlocked shared) (normal_locked shared)
  (normal_contended shared) no_const).
Abbreviation Both := (both own MInv CInv).

#[local] Existing Instance no_const_proper.

(** Steps of the condition variable leave the mutex alone. *)
Definition own_same (m m' : mem) : Prop :=
  forall l, own l = true -> word m' l = word m l /\ forall sh, waiters m' l sh = waiters m l sh.

Lemma both_step m g t φ φ' m' :
  MInv (view own m) (fst <$> g) -> g !! t = Some φ -> φ'.1 = φ.1 -> own_same m m' ->
  CInv m' (<[t:=φ']> g) -> Both m' (<[t:=φ']> g).
Proof using Type.
  intros HM Hg E Hs HC. split; [|done].
  rewrite list_fmap_insert, E, list_insert_id by (by rewrite list_lookup_fmap, Hg).
  assert (own (m_state mu) = true /\ own mcs = true) as [O1 O2] by (unfold own; simpl; by rewrite Nat.eqb_refl).
  destruct (Hs _ O1) as [W1 _], (Hs _ O2) as [W2 _].
  assert (forall l sh, waiters (view own m') l sh = waiters (view own m) l sh) as Hq.
  { intros l sh. simpl. destruct (own l) eqn:El; [|done]. by apply (Hs l El). }
  destruct HM. split; rewrite ?Hq; simpl word in *; rewrite ?W1, ?W2; try done.
  intros l' sh' Hne. rewrite Hq. auto.
Qed.

Lemma own_same_word m l v : own l = false -> own_same m (set_word m l v).
Proof using Type. intros Hl l' Hl'. split; [|done]. apply word_set_word_ne. congruence. Qed.

Lemma own_same_waiters m l sh q : own l = false -> own_same m (set_waiters m l sh q).
Proof using Type. intros Hl l' Hl'. split; [done|]. intros sh'. apply waiters_set_waiters_ne. congruence. Qed.

Lemma own_same_refl m : own_same m m.
Proof using Type. done. Qed.

Lemma not_own : own state = false /\ own (c_waiters cond) = false /\ own flag = false /\ own pulses = false.
Proof using Hobj. destruct Hobj as (N1 & N2 & N3 & _). unfold own. simpl. by rewrite !(proj2 (Nat.eqb_neq _ _)). Qed.

(** Two threads that hold the mutex are one. *)
Lemma owner_alone m (g : list (phase * cphase)) t t' φ φ' :
  MInv (view own m) (fst <$> g) -> g !! t = Some φ -> g !! t' = Some φ' -> φ.1 = Own -> φ'.1 = Own -> t = t'.
Proof using All.
  intros HM Hg Hg' E E'. apply (cnt_two is_own (fst <$> g) t t' Own Own); try done.
  - rewrite (ti_own _ _ _ _ _ _ _ _ _ HM). destruct (negb _); simpl; lia.
  - by rewrite list_lookup_fmap, Hg, <- E.
  - by rewrite list_lookup_fmap, Hg', <- E'.
Qed.

(** * The state word *)

Lemma cond_word_range k : 0 <= cond_word k < 2 ^ 32.
Proof using All.
  unfold cond_word, COND_PULSES. change (2 ^ 30) with 1073741824. change (2 ^ 32) with 4294967296.
  pose proof (Z.mod_pos_bound k 1073741824). lia.
Qed.

Lemma cond_word_step k : wrapU 32 (cond_word k + COND_COUNTER_STEP) = cond_word (k + 1).
Proof using All.
  unfold cond_word, COND_PULSES, wrapU. change (2 ^ 30) with 1073741824.
  change (2 ^ 32) with 4294967296. Z.div_mod_to_equations. lia.
Qed.

Lemma cond_word_shared k : COND_IS_SHARED (cond_word k) = csh.
Proof using All.
  unfold COND_IS_SHARED, cond_word. change 0x0001 with (Z.ones 1). rewrite !Z.land_ones by done.
  change (2 ^ 1) with 2. replace (fl + 4 * (k mod COND_PULSES)) with (fl + (2 * (k mod COND_PULSES)) * 2) by lia.
  by rewrite Z.mod_add.
Qed.

Lemma cond_word_inj k k' : 0 <= k <= k' -> k' < COND_PULSES -> cond_word k = cond_word k' -> k = k'.
Proof using All.
  unfold cond_word. intros Hk Hk' E. rewrite !(Z.mod_small) in E by lia. lia.
Qed.

(** * The steps *)

Lemma fields_differ :
  flag <> state /\ flag <> c_waiters cond /\ pulses <> state /\ pulses <> c_waiters cond /\ flag <> pulses /\
  state <> c_waiters cond.
Proof using Hobj.
  destruct Hobj as (_ & _ & _ & N1 & N2 & N3). repeat split; try done; intros ->; by destruct N1 || by destruct N2.
Qed.

Ltac here :=
  pose proof fields_differ as (? & ? & ? & ? & ? & ?);
  rewrite ?word_set_word_eq, ?word_set_word_ne by congruence.

(** An action on a word of the condition variable or of the client. *)
Lemma wp_both_rmw l f t φ1 φ2 (φ2' : Z -> cphase) (Q : Z -> phase * cphase -> Prop) :
  own l = false ->
  (forall m g k, MInv (view own m) (fst <$> g) -> cinv k m g -> g !! t = Some (φ1, φ2) ->
     CInv (set_word m l (f (word m l))) (<[t:=(φ1, φ2' (word m l))]> g) /\
     Q (word m l) (φ1, φ2' (word m l))) ->
  wp Both (act (Rmw l f)) t Q (φ1, φ2).
Proof using All.
  intros Hl H. apply wp_act. intros m g [HM (k & HC)] Hg x m' [-> ->].
  destruct (H m g k HM HC Hg) as [HC' HQ]. exists (φ1, φ2' (word m l)). split; [|done].
  apply (both_step m g t (φ1, φ2)); try done. by apply own_same_word.
Qed.

Lemma ci_range k m g : cinv k m g -> 0 <= word m (c_waiters cond) <= INT_MAX.
Proof using All.
  intros HI. rewrite (ci_waiters k m g HI). pose proof (cnt_nonneg is_counted (snd <$> g)).
  pose proof (cnt_bound is_counted (snd <$> g)) as Hb. rewrite length_fmap in Hb. pose proof (ci_len k m g HI). lia.
Qed.

(** The flag is read under the mutex; [leave] says whether the thread leaves whatever it reads. *)
Lemma wp_read_flag (leave : bool) t φ2 (Q : Z -> phase * cphase -> Prop) :
  φ2 = CIdle \/ φ2 = CRead ->
  (forall f, Q f (Own, if (f =? 0) && negb leave then CRead else CIdle)) ->
  wp Both (atomic_load flag) t Q (Own, φ2).
Proof using All.
  intros Hφ HQ. apply (wp_both_rmw flag _ t Own φ2 (fun f => if (f =? 0) && negb leave then CRead else CIdle)); [apply not_own|].
  intros m g k HM HC Hg. split; [|auto]. rewrite <- mem_equiv_same_word. exists k.
  pose proof (ci_state k m g HC). apply (cinv_step k m g t (Own, φ2)); try done;
    destruct Hφ as [-> | ->]; destruct (Z.eqb_spec (word m flag) 0) as [E|E]; destruct leave; simpl; try done; try lia; auto.
Qed.

Lemma wp_load_state t φ1 φ2 (Q : Z -> phase * cphase -> Prop) :
  is_cqueued φ2 = false -> is_reading φ2 = false -> pulse_seen φ2 = None \/ (exists k, φ2 = CCounted k) ->
  (forall k, Q (cond_word k) (φ1, φ2)) -> wp Both (atomic_load state) t Q (φ1, φ2).
Proof using All.
  intros H1 H2 H3 HQ. apply wp_act. intros m g [HM (k & HC)] Hg x m' [-> ->]. exists (φ1, φ2).
  rewrite list_insert_id by done. pose proof (ci_state k m g HC) as E. rewrite E. split; [|done].
  rewrite <- E, <- mem_equiv_same_word. split; [done|by exists k].
Qed.

Lemma wp_process_shared t φ1 φ2 (Q : bool -> phase * cphase -> Prop) :
  is_cqueued φ2 = false -> is_reading φ2 = false -> pulse_seen φ2 = None \/ (exists k, φ2 = CCounted k) ->
  Q csh (φ1, φ2) -> wp Both (process_shared cond) t Q (φ1, φ2).
Proof using All.
  intros H1 H2 H3 HQ. apply wp_bind, wp_load_state; [done..|]. intros k. apply wp_ret. by rewrite cond_word_shared.
Qed.

Lemma own_field f : own (mu, f) = true.
Proof using Type. apply Nat.eqb_refl. Qed.

(** The mutex, seen from the monitor. *)
Lemma wp_monitor_unlock t φ2 (Q : Z -> phase * cphase -> Prop) :
  neutral φ2 -> Q 0 (Idle, φ2) -> wp Both (pthread_mutex_unlock sdk mu) t Q (Own, φ2).
Proof using All.
  intros Hn HQ. apply wp_mono with (Q := fun r φ => (r = 0 /\ φ.1 = Idle) /\ φ.2 = φ2).
  - intros r [φ1 φ2'] [[-> E1] E2]. simpl in *. by subst.
  - apply (wp_frame own MInv CInv neutral CInv_phase CInv_word CInv_waiters (pthread_mutex_unlock sdk mu) t
      (fun r φ => r = 0 /\ φ = Idle)); [done|by apply within_pthread_mutex_unlock, own_field|].
    by apply wp_pthread_mutex_unlock.
Qed.

Lemma wp_monitor_lock t φ2 (Q : Z -> phase * cphase -> Prop) :
  neutral φ2 -> Q 0 (Own, φ2) -> wp Both (pthread_mutex_lock sdk mu) t Q (Idle, φ2).
Proof using All.
  intros Hn HQ. apply wp_mono with (Q := fun r φ => locked_within None r φ.1 /\ φ.2 = φ2).
  - intros r [φ1 φ2'] [[E1 E0] E2]. simpl in *. unfold acquired in E1. destruct E0 as [-> |E0]; [|by destruct r]. simpl in E1. by subst.
  - apply (wp_frame own MInv CInv neutral CInv_phase CInv_word CInv_waiters (pthread_mutex_lock sdk mu) t
      (locked_within None)); [done|by apply within_pthread_mutex_lock, own_field|].
    by apply wp_pthread_mutex_lock.
Qed.

(** * Waiting *)

Lemma wp_cond_load_read t (Q : Z -> phase * cphase -> Prop) :
  (forall k, Q (cond_word k) (Own, CLoaded k)) -> wp Both (atomic_load state) t Q (Own, CRead).
Proof using All.
  intros HQ. apply wp_act. intros m g [HM (k & HC)] Hg x m' [-> ->]. exists (Own, CLoaded k).
  pose proof (ci_state k m g HC) as E. split; [|by rewrite E].
  rewrite <- mem_equiv_same_word. apply (both_step m g t (Own, CRead)); try done. exists k.
  destruct (ci_reading k m g HC t _ Hg eq_refl) as [_ Hf]. pose proof (ci_pulses k m g HC).
  apply (cinv_step k m g t (Own, CRead)); simpl; try done; try lia; auto.
  intros k0 [= <-]. lia.
Qed.

Lemma wp_count_in t k (Q : Z -> phase * cphase -> Prop) :
  (forall x, Q x (Own, CCounted k)) -> wp Both (atomic_fetch_add 32 (c_waiters cond) 1) t Q (Own, CLoaded k).
Proof using All.
  intros HQ. apply (wp_both_rmw _ _ t Own (CLoaded k) (fun _ => CCounted k)); [apply not_own|].
  intros m g k' HM HC Hg. split; [|done]. exists k'. pose proof (ci_range k' m g HC) as Hr.
  destruct (ci_reading k' m g HC t _ Hg eq_refl) as [_ Hf]. pose proof (ci_seen k' m g HC t _ k Hg eq_refl).
  assert (wrapU 32 (word m (c_waiters cond) + 1) = word m (c_waiters cond) + 1) as ->
    by (unfold wrapU, INT_MAX in *; apply Z.mod_small; lia).
  apply (cinv_step k' m g t (Own, CLoaded k)); here; try (intros; here; by eauto); simpl; try done; try lia; auto.
  - by apply (ci_state k' m g HC).
  - by intros k0 [= <-].
Qed.

Lemma wp_count_out t φ2 (Q : Z -> phase * cphase -> Prop) :
  (exists k, φ2 = CCounted k) \/ φ2 = CBack ->
  (forall x, Q x (Idle, CIdle)) -> wp Both (atomic_fetch_sub 32 (c_waiters cond) 1) t Q (Idle, φ2).
Proof using All.
  intros Hφ HQ. apply (wp_both_rmw _ _ t Idle φ2 (fun _ => CIdle)); [apply not_own|].
  intros m g k' HM HC Hg. split; [|done]. exists k'. pose proof (ci_range k' m g HC) as Hr.
  assert (1 <= word m (c_waiters cond)) as H1.
  { rewrite (ci_waiters k' m g HC). destruct (snd_insert g t _ (Idle, CIdle) Hg) as [Hg2 _].
    apply (cnt_lookup _ _ t φ2); [done|]. by destruct Hφ as [[k ->]| ->]. }
  assert (wrapU 32 (word m (c_waiters cond) - 1) = word m (c_waiters cond) - 1) as ->
    by (unfold wrapU, INT_MAX in *; apply Z.mod_small; lia).
  destruct Hφ as [[k ->]| ->]; (apply (cinv_step k' m g t _ _ _ _ HC Hg); here; try (intros; here; by eauto); simpl; try done; try lia; auto;
    by apply (ci_state k' m g HC)).
Qed.

Lemma wp_cond_sleep k rt ts t (Q : Z -> phase * cphase -> Prop) :
  (forall r φ2, (exists k, φ2 = CCounted k) \/ φ2 = CBack -> Q r (Idle, φ2)) ->
  wp Both (__futex_wait_ex state csh (cond_word k) rt ts) t Q (Idle, CCounted k).
Proof using All.
  intros HQ. destruct not_own as (Ns & _).
  apply (wp_futex_wait_ex Both _ _ _ _ _ _ _ (Idle, CCounted k) (Idle, CQueued) (Idle, CBack) (Idle, CBack)); eauto.
  - intros m g q [HM (k' & HC)] Hg Hw Hq. apply (both_step m g t (Idle, CCounted k)); try done; [by apply own_same_waiters|].
    exists k'. apply (cinv_queue k' m g t (Idle, CCounted k)); try done.
    + by apply wq_enqueue with (1 := ci_queue k' m g HC) (2 := Hg).
    + intros Hb _. left. destruct (ci_wait k' m g HC t _ k Hg eq_refl) as [Hlt|]; [|done].
      pose proof (ci_pulses k' m g HC). pose proof (cnt_nonneg is_announced (snd <$> g)).
      pose proof (ci_seen k' m g HC t _ k Hg eq_refl). rewrite (ci_state k' m g HC) in Hw.
      assert (k = k') by (apply cond_word_inj; [lia|lia|done]). lia.
  - intros m g [HM (k' & HC)] Hg Hni. split; [|eauto]. rewrite (mem_equiv_same_waiters m state csh).
    apply (both_step m g t (Idle, CQueued)); try done; [by apply own_same_waiters|].
    exists k'. apply (cinv_queue k' m g t (Idle, CQueued)); try done.
    + by apply wq_shrink with (1 := ci_queue k' m g HC) (2 := Hg).
    + intros Hb Hne. destruct (ci_sleep k' m g HC Hb Hne); auto.
  - intros m g [HM (k' & HC)] Hg Hin. split; [|split; [|intros _]; apply HQ; by right].
    apply (both_step m g t (Idle, CQueued)); try done; [by apply own_same_waiters|].
    exists k'. apply (cinv_queue k' m g t (Idle, CQueued)); try done.
    + by apply wq_giveup with (1 := ci_queue k' m g HC) (2 := Hg).
    + intros Hb _. destruct (ci_sleep k' m g HC Hb); auto. intros E. rewrite E in Hin. by apply not_elem_of_nil in Hin.
Qed.

(** A wait gives the mutex back; an invalid timeout ends it at once. *)
Lemma wp_cond_timedwait rt ts t :
  wp Both (__pthread_cond_timedwait sdk cond mu rt ts) t
    (fun r φ => φ.1 = Own /\ (φ.2 = CIdle \/ φ.2 = CRead)) (Own, CRead).
Proof using All.
  apply wp_bind, wp_check_timespec. intros res. destruct (res =? 0); simpl negb; cbv iota; [|apply wp_ret; auto].
  apply wp_bind, wp_cond_load_read. intros k. apply wp_bind, wp_count_in. intros _.
  apply wp_bind, wp_monitor_unlock; [done|]. apply wp_bind, wp_process_shared; [done|done|eauto|].
  apply wp_bind, wp_cond_sleep. intros status φ2 Hφ. apply wp_bind, wp_count_out; [done|]. intros _.
  apply wp_bind, wp_monitor_lock; [done|]. apply wp_ret. auto.
Qed.

(** * Pulses *)

(** The wake-up of a pulse: of everybody by whoever owes it, or of some. *)
Lemma wp_cond_wake t n φ1 φ2 (Q : Z -> phase * cphase -> Prop) :
  φ2 = CWake /\ n = INT_MAX \/ φ2 = CIdle /\ 0 <= n -> (forall r, Q r (φ1, CIdle)) ->
  wp Both (__futex_wake_ex state csh n) t Q (φ1, φ2).
Proof using All.
  intros Hφ HQ. destruct not_own as (Ns & _).
  apply (wp_futex_wake_ex Both _ _ _ _ _ (φ1, φ2) (φ1, CIdle)); [unfold INT_MAX in *; lia| |auto].
  intros m g q [HM (k & HC)] Hg Hsub Hlen. apply (both_step m g t (φ1, φ2)); try done; [by apply own_same_waiters|].
  exists k. assert (is_cqueued φ2 = false) as Hq by (by destruct Hφ as [[-> _]|[-> _]]).
  pose proof (wq_not_queued _ _ _ _ _ _ _ _ _ (ci_queue k m g HC) Hg Hq) as Hni.
  apply (cinv_queue k m g t (φ1, φ2)); try done.
  - by destruct Hφ as [[-> _]|[-> _]].
  - apply wq_shrink with (1 := ci_queue k m g HC) (2 := Hg); try done. intros Hin. by apply Hni, (elem_of_sublist _ _ _ Hin).
  - intros Hb Hne. destruct Hφ as [[-> ->]|[-> _]].
    + exfalso. assert (q = []); [|done].
      pose proof (wq_length _ _ _ _ _ _ _ (ci_queue k m g HC)). pose proof (ci_len k m g HC).
      destruct q; [done|]. simpl in Hlen. lia.
    + destruct (ci_sleep k m g HC Hb); auto. intros E. rewrite E in Hsub. by apply sublist_nil_r in Hsub.
Qed.

Lemma wp_see_waiters t φ1 φ2 φ2' (Q : Z -> phase * cphase -> Prop) :
  φ2 = CSet /\ φ2' = CPulse \/ φ2 = CSignal /\ φ2' = CSignal ->
  (forall n, Q n (φ1, if n =? 0 then CIdle else φ2')) -> wp Both (atomic_load (c_waiters cond)) t Q (φ1, φ2).
Proof using All.
  intros Hφ HQ. apply (wp_both_rmw _ _ t φ1 φ2 (fun n => if n =? 0 then CIdle else φ2')); [apply not_own|].
  intros m g k HM HC Hg. split; [|done]. rewrite <- mem_equiv_same_word. exists k. pose proof (ci_state k m g HC).
  destruct Hφ as [[-> ->]|[-> ->]]; destruct (Z.eqb_spec (word m (c_waiters cond)) 0);
    (apply (cinv_step k m g t _ _ _ _ HC Hg); simpl; try done; try lia; auto).
Qed.

Lemma wp_move_counter t φ1 φ2 φ2' (Q : Z -> phase * cphase -> Prop) :
  φ2 = CPulse /\ φ2' = CWake \/ φ2 = CSignal /\ φ2' = CIdle ->
  (forall x, Q x (φ1, φ2')) -> wp Both (atomic_fetch_add 32 state COND_COUNTER_STEP) t Q (φ1, φ2).
Proof using All.
  intros Hφ HQ. apply (wp_both_rmw _ _ t φ1 φ2 (fun _ => φ2')); [apply not_own|].
  intros m g k HM HC Hg. split; [|done]. exists (k + 1). pose proof (ci_state k m g HC) as ->. rewrite cond_word_step.
  destruct Hφ as [[-> ->]|[-> ->]]; (apply (cinv_step k m g t _ _ _ _ HC Hg); here; try (intros; here; by eauto); simpl; try done; try lia; auto).
Qed.

Lemma wp_broadcast t φ1 : wp Both (pthread_cond_broadcast cond) t (fun _ φ => φ = (φ1, CIdle)) (φ1, CSet).
Proof using All.
  apply wp_bind, (wp_see_waiters t φ1 CSet CPulse); [auto|]. intros n. destruct (n =? 0); [by apply wp_ret|].
  apply wp_bind, (wp_move_counter t φ1 CPulse CWake); [auto|]. intros _.
  apply wp_bind, wp_process_shared; [done..|by left|]. apply wp_bind, wp_cond_wake; [auto|]. intros _. by apply wp_ret.
Qed.

Lemma wp_signal t φ1 : wp Both (pthread_cond_signal cond) t (fun _ φ => φ = (φ1, CIdle)) (φ1, CSignal).
Proof using All.
  apply wp_bind, (wp_see_waiters t φ1 CSignal CSignal); [auto|]. intros n. destruct (n =? 0); [by apply wp_ret|].
  apply wp_bind, (wp_move_counter t φ1 CSignal CIdle); [auto|]. intros _.
  apply wp_bind, wp_process_shared; [done..|by left|]. apply wp_bind, wp_cond_wake; [right; split; [done|lia]|].
  intros _. by apply wp_ret.
Qed.

(** * Clients *)

(** Waits until the flag is up, or until a wait fails or times out. *)
Definition monitor_await (ts : option timespec) (clock : Z) : prog unit :=
  pthread_mutex_lock sdk mu ;;
  loop (fun leave : bool =>
    f <- atomic_load flag ;;
    if negb (f =? 0) || leave then Ret (inr tt) else
    timed <- act Choose ;;
    r <- (if (timed : bool) then pthread_cond_clockwait sdk cond mu clock ts
          else pthread_cond_wait sdk cond mu) ;;
    Ret (inl (negb (r =? 0)))) false ;;
  pthread_mutex_unlock sdk mu ;;
  Ret tt.

(** Raises the flag and broadcasts, before or after it releases the mutex. *)
Definition monitor_raise : prog unit :=
  act (Rmw pulses (fun c => c + 1)) ;;
  pthread_mutex_lock sdk mu ;;
  atomic_store flag 1 ;;
  inside <- act Choose ;;
  if (inside : bool) then
    pthread_cond_broadcast cond ;; pthread_mutex_unlock sdk mu ;; Ret tt
  else
    pthread_mutex_unlock sdk mu ;; pthread_cond_broadcast cond ;; Ret tt.

Definition monitor_lower : prog unit :=
  pthread_mutex_lock sdk mu ;; atomic_store flag 0 ;; pthread_mutex_unlock sdk mu ;; Ret tt.

(** A signal to nobody in particular. *)
Definition monitor_signal : prog unit :=
  act (Rmw pulses (fun c => c + 1)) ;; pthread_cond_signal cond ;; Ret tt.

Definition monitor_client (ts : option timespec) (clock : Z) : prog unit :=
  loop (fun _ : unit =>
    go <- act Choose ;;
    c1 <- act Choose ;;
    c2 <- act Choose ;;
    if (go : bool) then
      (match (c1, c2) with
       | (true, true) => monitor_await ts clock
       | (true, false) => monitor_raise
       | (false, true) => monitor_lower
       | (false, false) => monitor_signal
       end) ;; Ret (inl tt)
    else Ret (inr tt)) tt.

Lemma wp_await ts clock t : wp Both (monitor_await ts clock) t (fun _ φ => φ = (Idle, CIdle)) (Idle, CIdle).
Proof using All.
  apply wp_bind, wp_monitor_lock; [done|]. apply wp_bind.
  apply (wp_loop Both (fun _ φ => φ.1 = Own /\ (φ.2 = CIdle \/ φ.2 = CRead))); [auto|].
  intros leave [φ1 φ2] [E Hφ]. simpl in E, Hφ. subst φ1. apply wp_bind, (wp_read_flag leave); [done|]. intros f.
  destruct (f =? 0), leave; simpl; try (apply wp_ret, wp_bind, wp_monitor_unlock; [done|]; by apply wp_ret).
  apply wp_bind, wp_choose. intros timed. apply wp_bind.
  apply wp_mono with (Q := fun r φ => φ.1 = Own /\ (φ.2 = CIdle \/ φ.2 = CRead)); [intros r φ Hφ'; by apply wp_ret|].
  destruct timed; [|apply wp_cond_timedwait]. unfold pthread_cond_clockwait.
  destruct (clock =? CLOCK_MONOTONIC); [apply wp_cond_timedwait|].
  destruct (clock =? CLOCK_REALTIME); [apply wp_cond_timedwait|]. apply wp_ret. auto.
Qed.

Lemma wp_announce t φ2 (Q : Z -> phase * cphase -> Prop) :
  φ2 = CAnnounced \/ φ2 = CSignal ->
  (forall x, Q x (Idle, φ2)) -> wp Both (act (Rmw pulses (fun c => c + 1))) t Q (Idle, CIdle).
Proof using All.
  intros Hφ HQ. apply (wp_both_rmw _ _ t Idle CIdle (fun _ => φ2)); [apply not_own|].
  intros m g k HM HC Hg. split; [|done]. exists k. pose proof (ci_state k m g HC).
  destruct Hφ as [-> | ->]; (apply (cinv_step k m g t _ _ _ _ HC Hg); here; try (intros; here; by eauto); simpl; try done; try lia; auto).
Qed.

(** Whoever holds the mutex may move the flag, and owes a broadcast after raising it. *)
Lemma wp_set_flag t v φ2 φ2' :
  v = 1 /\ φ2 = CAnnounced /\ φ2' = CSet \/ v = 0 /\ φ2 = CIdle /\ φ2' = CIdle ->
  wp Both (atomic_store flag v) t (fun _ φ => φ = (Own, φ2')) (Own, φ2).
Proof using All.
  intros Hv. apply wp_bind, (wp_both_rmw _ _ t Own φ2 (fun _ => φ2')); [apply not_own|].
  intros m g k HM HC Hg. split; [|by apply wp_ret]. exists k. pose proof (ci_state k m g HC).
  assert (forall t1 φ1, t1 <> t -> g !! t1 = Some φ1 -> is_reading φ1.2 = true -> False) as Halone.
  { intros t1 φ1 Hne H1 Hr. destruct (ci_reading k m g HC t1 φ1 H1 Hr) as [Ho _].
    apply Hne. by apply (owner_alone m g t1 t φ1 (Own, φ2)). }
  destruct Hv as [(-> & -> & ->)|(-> & -> & ->)];
    (apply (cinv_step k m g t _ _ _ _ HC Hg); here; simpl; try done; try lia; auto;
     intros ta φa Hna Ha Hra; by destruct (Halone ta φa Hna Ha Hra)).
Qed.

Lemma wp_raise t : wp Both monitor_raise t (fun _ φ => φ = (Idle, CIdle)) (Idle, CIdle).
Proof using All.
  apply wp_bind, (wp_announce t CAnnounced); [auto|]. intros _. apply wp_bind, wp_monitor_lock; [done|].
  apply wp_bind, wp_mono with (2 := wp_set_flag t 1 CAnnounced CSet ltac:(auto)). intros _ φ ->.
  apply wp_bind, wp_choose. intros []; apply wp_bind.
  - apply wp_mono with (2 := wp_broadcast t Own). intros _ φ ->. apply wp_bind, wp_monitor_unlock; [done|]. by apply wp_ret.
  - apply wp_monitor_unlock; [done|]. apply wp_bind, wp_mono with (2 := wp_broadcast t Idle). intros _ φ ->. by apply wp_ret.
Qed.

Lemma wp_lower t : wp Both monitor_lower t (fun _ φ => φ = (Idle, CIdle)) (Idle, CIdle).
Proof using All.
  apply wp_bind, wp_monitor_lock; [done|].
  apply wp_bind, wp_mono with (2 := wp_set_flag t 0 CIdle CIdle ltac:(auto)). intros _ φ ->.
  apply wp_bind, wp_monitor_unlock; [done|]. by apply wp_ret.
Qed.

Lemma wp_monitor_client ts clock t :
  wp Both (monitor_client ts clock) t (fun _ φ => φ = (Idle, CIdle)) (Idle, CIdle).
Proof using All.
  apply (wp_loop Both (fun _ φ => φ = (Idle, CIdle))); [done|]. intros _ φ ->.
  apply wp_bind, wp_choose. intros go. apply wp_bind, wp_choose. intros c1. apply wp_bind, wp_choose. intros c2.
  destruct go; [|by apply wp_ret]. apply wp_bind.
  apply wp_mono with (Q := fun _ φ => φ = (Idle, CIdle)); [intros _ φ ->; by apply wp_ret|].
  destruct c1, c2; [apply wp_await|apply wp_raise|apply wp_lower|].
  apply wp_bind, (wp_announce t CSignal); [auto|]. intros _.
  apply wp_bind, wp_mono with (2 := wp_signal t Idle). intros _ φ ->. by apply wp_ret.
Qed.

(** A free mutex, an initialized condition variable, no pulse yet. *)
Definition monitor_start (m : mem) : Prop :=
  word m (m_state mu) = normal_unlocked shared /\ word m mcs = 0 /\ word m state = fl /\
  word m (c_waiters cond) = 0 /\ word m pulses = 0 /\ forall l sh, waiters m l sh = [].

Lemma monitor_client_inv ts clock n m c :
  Z.of_nat n <= INT_MAX -> monitor_start m -> reachable (replicate n (monitor_client ts clock), m) c ->
  exists g, Both c.2 g /\ threads_ok Both (fun _ φ _ => φ = (Idle, CIdle)) c.1 c.2 g.
Proof using All.
  intros Hn (H1 & H2 & H3 & H4 & H5 & H6) Hr.
  apply (machine_inv Both (fun _ φ _ => φ = (Idle, CIdle)) _ _ (replicate n (Idle, CIdle)) Hr); simpl.
  - split.
    + rewrite fmap_replicate. split; simpl; rewrite ?H1, ?H2, ?cnt_replicate by done; try done; auto.
      * by rewrite Z.eqb_refl.
      * intros l sh _. destruct (own l); by rewrite ?H6.
      * rewrite H6. by destruct (own _); apply NoDup_nil_2.
      * intros t. rewrite H6. by destruct (own _); intros Hin%not_elem_of_nil.
      * rewrite H6. by destruct (own _).
    + exists 0. split; rewrite ?fmap_replicate, ?length_replicate, ?cnt_replicate, ?H3, ?H4, ?H5, ?H6 by done; try done.
      * unfold cond_word. rewrite Z.mod_0_l; [lia|done].
      * by intros t φ [-> _]%lookup_replicate.
      * by intros t φ [-> _]%lookup_replicate.
      * by intros t φ k0 [-> _]%lookup_replicate.
      * by intros t φ k0 [-> _]%lookup_replicate.
      * by apply wq_empty.
  - rewrite <- (length_replicate n (monitor_client ts clock)) at 2.
    apply threads_ok_intro. intros t p [-> _]%lookup_replicate. apply wp_monitor_client.
Qed.

(** When everything is quiet nobody sleeps on the mutex, and nobody on the condition variable
    unless the flag is down. *)
Lemma monitor_quiet c g :
  Both c.2 g -> threads_ok Both (fun _ φ _ => φ = (Idle, CIdle)) c.1 c.2 g -> quiescent c ->
  word c.2 pulses < COND_PULSES ->
  forall t p, c.1 !! t = Some p -> asleep c.2 t p = true -> t ∈ waiters c.2 state csh /\ word c.2 flag = 0.
Proof using All.
  intros [HM (k & HC)] [Hlen Hok] Hquiet Hb.
  assert (forall t p, c.1 !! t = Some p -> asleep c.2 t p = true ->
    t ∈ waiters (view own c.2) (m_state mu) (truthy shared) \/ t ∈ waiters c.2 state csh) as Has.
  { intros t p Hp Hs. unfold asleep in Hs. destruct (waiting_on p) as [[l' sh']|]; [|done]. apply bool_decide_eq_true in Hs.
    destruct (own l') eqn:El.
    - left. destruct (decide ((l', sh') = (m_state mu, truthy shared))) as [[= -> ->]|Hne]; [by simpl; rewrite El|].
      pose proof (ti_others _ _ _ _ _ _ _ _ _ HM l' sh' Hne) as E. simpl in E. rewrite El in E. rewrite E in Hs.
      by apply not_elem_of_nil in Hs.
    - right. destruct (decide ((l', sh') = (state, csh))) as [[= -> ->]|Hne]; [done|].
      rewrite (ci_others k c.2 g HC l' sh' El Hne) in Hs. by apply not_elem_of_nil in Hs. }
  assert (forall t φ, g !! t = Some φ -> φ = (Idle, CIdle) \/
    φ.1 = Queued /\ t ∈ waiters (view own c.2) (m_state mu) (truthy shared) \/ φ.1 = Idle /\ φ.2 = CQueued) as Hall.
  { intros t φ Hg. destruct (lookup_lt_is_Some_2 c.1 t) as [p Hp]; [rewrite <- Hlen; by eapply lookup_lt_Some|].
    destruct (Hok t p Hp) as (φ' & Hg' & Hwp). replace φ' with φ in * by congruence.
    destruct (Hquiet t p Hp) as [Hf|Hs]; [left; by destruct p|right]. destruct (Has t p Hp Hs) as [Hin|Hin]; [left|right].
    - pose proof (ti_queued _ _ _ _ _ _ _ _ _ HM t Hin) as Hq. rewrite list_lookup_fmap, Hg in Hq. simpl in Hq. by simplify_eq.
    - destruct (wq_queued _ _ _ _ _ _ _ (ci_queue k c.2 g HC) t Hin) as (φ1 & H1 & Hq1). replace φ1 with φ in * by congruence.
      split; [by apply (ci_idle k c.2 g HC t)|]. by destruct φ as [? []]. }
  assert (forall t φ1, (fst <$> g) !! t = Some φ1 -> φ1 = Idle) as Hidle.
  { destruct (normal_states_differ shared Hshared) as (D1 & D2 & D3). assert (m_state mu <> mcs) as D4 by done.
    apply (tinv_quiet _ _ _ _ _ _ D1 D2 D3 D4 no_const (no_const_word mu mcs) (no_const_waiters mu shared) _ _ HM).
    intros t φ1 H1. rewrite list_lookup_fmap in H1.
    destruct (g !! t) as [φ|] eqn:Hg; [|done]. simpl in H1. injection H1 as <-.
    destruct (Hall t φ Hg) as [->|[[-> ?]|[-> _]]]; auto. }
  intros t p Hp Hs. destruct (Has t p Hp Hs) as [Hin|Hin].
  { pose proof (ti_queued _ _ _ _ _ _ _ _ _ HM t Hin) as Hq. by specialize (Hidle t _ Hq). }
  split; [done|]. assert (forall P : cphase -> bool, P CIdle = false -> P CQueued = false -> cnt P (snd <$> g) = 0) as H0.
  { intros P E1 E2. apply cnt_zero. intros t' φ2 H2. rewrite list_lookup_fmap in H2.
    destruct (g !! t') as [φ|] eqn:Hg; [|done]. simpl in H2. injection H2 as <-.
    destruct (Hall t' φ Hg) as [->|[[E _]|[_ ->]]]; [done| |done]. exfalso.
    specialize (Hidle t' φ.1). rewrite list_lookup_fmap, Hg in Hidle. rewrite (Hidle eq_refl) in E. done. }
  destruct (ci_sleep k c.2 g HC Hb) as [[?|Hc]|Hc]; [|done|..].
  - intros E. rewrite E in Hin. by apply not_elem_of_nil in Hin.
  - rewrite H0 in Hc by done. lia.
  - rewrite H0 in Hc by done. lia.
Qed.

End monitor.

(** C19: no broadcast is lost.  Threads use a flag under a normal mutex with a condition variable,
    private or shared: they wait for the flag, with or without a timeout on either clock, raise
    it and broadcast before or after they release the mutex, lower it, and signal at random.
    In every interleaving with fewer than 2^30 pulses, if every thread has returned or sleeps,
    then whoever sleeps does so on the condition variable and the flag is down: no waiter
    misses the broadcast that follows the raising of the flag, and no waiter is left on the
    mutex. *)
Theorem monitor_no_lost_broadcast {K : FutexKernel} sdk cond mu flag pulses shared fl ts clock n m c :
  shared = 0 \/ shared = MUTEX_SHARED_MASK -> 0 <= fl < 4 ->
  cond <> mu /\ flag.1 <> mu /\ pulses.1 <> mu /\ flag.1 <> cond /\ pulses.1 <> cond /\ flag <> pulses ->
  Z.of_nat n <= INT_MAX -> monitor_start cond mu pulses shared fl m ->
  reachable (replicate n (monitor_client sdk cond mu flag pulses ts clock), m) c ->
  word c.2 pulses < COND_PULSES -> quiescent c ->
  forall t p, c.1 !! t = Some p -> asleep c.2 t p = true ->
  t ∈ waiters c.2 (c_state cond) (COND_IS_SHARED fl) /\ word c.2 flag = 0.
Proof.
  intros Hs Hfl Hobj Hn Hm Hr Hb Hq.
  destruct (monitor_client_inv sdk cond mu flag pulses shared fl Hs Hfl Hobj ts clock n m c Hn Hm Hr) as (g & HI & Hok).
  by apply (monitor_quiet sdk cond mu flag pulses shared fl Hs Hfl Hobj c g).
Qed.

Definition ex_monitor_client : prog unit :=
  monitor_client 30 5 0 (6%nat, "flag") (6%nat, "pulses") None CLOCK_REALTIME.

(** Thread 0 waits for the flag, which stays down; thread 1 stops at once. *)
Definition ex_monitor_asleep : machine :=
  run_schedule ex_clock (replicate 4 (0%nat, true) ++ replicate 40 (0%nat, false) ++ replicate 6 (1%nat, false))
    (replicate 2 ex_monitor_client, ex_mem).

Lemma ex_monitor_stuck : stuck 0 ex_monitor_asleep = true.
Proof. vm_compute. reflexivity. Qed.

Lemma monitor_no_lost_broadcast_witness :
  (0%nat ∈ waiters ex_monitor_asleep.2 (c_state 5) (COND_IS_SHARED 0)) /\
  word ex_monitor_asleep.2 (6%nat, "flag") = 0.
Proof.
  destruct (stuck_sound 0 ex_monitor_asleep ex_monitor_stuck) as (Hq & p & Hp & Hs).
  apply (monitor_no_lost_broadcast (K := fifo_kernel) 30 5 0 (6%nat, "flag") (6%nat, "pulses") 0 0 None CLOCK_REALTIME 2
           ex_mem ex_monitor_asleep) with (t := 0%nat) (p := p).
  - by left.
  - lia.
  - repeat split; discriminate.
  - vm_compute. discriminate.
  - repeat split.
  - exact (run_schedule_reachable _ _ _).
  - vm_compute. reflexivity.
  - exact Hq.
  - exact Hp.
  - exact Hs.
Defined.

(** Thread 1 raises the flag and broadcasts: thread 0 comes back. *)
Definition ex_monitor_woken : machine :=
  run_schedule ex_clock
    (replicate 3 (1%nat, true) ++ [(1%nat, false)] ++ replicate 40 (1%nat, false) ++ replicate 40 (0%nat, false))
    (run_schedule ex_clock (replicate 4 (0%nat, true) ++ replicate 40 (0%nat, false))
      (replicate 2 ex_monitor_client, ex_mem)).

Example ex_monitor_woken_done :
  forallb finished ex_monitor_woken.1 = true /\ word ex_monitor_woken.2 (6%nat, "flag") = 1.
Proof. vm_compute. split; reflexivity. Qed.
