(* ===== verification/Once.v ===== *)
(** One-time initialization: libc/bionic/pthread_once.cpp.

    The control word is 0 before the initialization, 1 while it is underway and 2 afterwards.
    The theorem at the end says that the routine runs once, that nobody returns before it has
    ended, and that nobody sleeps after it. *)

From S2P Require Import Prelude Atomic Futex WaitQueue.

(** * Definitions *)

Abbreviation ONCE_INITIALIZATION_NOT_YET_STARTED := 0.
Abbreviation ONCE_INITIALIZATION_UNDERWAY := 1.
Abbreviation ONCE_INITIALIZATION_COMPLETE := 2.

Definition pthread_once (once_control : loc) (init_routine : prog unit) : prog Z :=
  old_value <- atomic_load once_control ;;
  loop (fun old_value : Z =>
    if old_value =? ONCE_INITIALIZATION_COMPLETE then Ret (inr 0) else
    let2 ok, seen <- atomic_compare_exchange_weak once_control old_value ONCE_INITIALIZATION_UNDERWAY ;;
    if negb ok then Ret (inl seen) else
    if old_value =? ONCE_INITIALIZATION_NOT_YET_STARTED then
      init_routine ;;
      atomic_store once_control ONCE_INITIALIZATION_COMPLETE ;;
      __futex_wake_ex once_control false INT_MAX ;;
      Ret (inr 0)
    else
      __futex_wait_ex once_control false old_value false None ;;
      old_value <- atomic_load once_control ;;
      Ret (inl old_value)) old_value.

(** * The invariant *)

(** Where a thread is. *)
Inductive ophase :=
| OIdle
| OClaimed    (* took the initialization, has not begun the routine *)
| ORunning    (* in the routine *)
| OFinished   (* the routine has ended, the word does not say so yet *)
| OStored     (* the word says so, about to wake everybody *)
| OSeen       (* knows that the initialization is complete *)
| OQueued.    (* inside the futex wait *)

Definition is_active (φ : ophase) : bool :=
  match φ with OClaimed | ORunning | OFinished => true | _ => false end.
Definition is_ran (φ : ophase) : bool := match φ with ORunning | OFinished => true | _ => false end.
Definition is_finished (φ : ophase) : bool := match φ with OFinished => true | _ => false end.
Definition is_stored (φ : ophase) : bool := match φ with OStored => true | _ => false end.
Definition is_seen (φ : ophase) : bool := match φ with OStored | OSeen => true | _ => false end.
Definition is_oqueued (φ : ophase) : bool := match φ with OQueued => true | _ => false end.

Section once.
Context {K : FutexKernel} (once runs ends returned : loc) (P : loc -> Prop) (body : prog unit).
Context (Hlocs : NoDup [once; runs; ends; returned])
  (HP : forall l, P l -> l ∉ [once; runs; ends; returned])
  (Hbody : within P body).

(** [w] is the control word. *)
Record oinv (w : Z) (m : mem) (g : list ophase) : Prop := mk_oinv {
  oi_word : word m once = w /\ (w = 0 \/ w = 1 \/ w = 2);
  oi_active : cnt is_active g = b2z (w =? 1);
  oi_runs : word m runs = cnt is_ran g + b2z (w =? 2);
  oi_ends : word m ends = cnt is_finished g + b2z (w =? 2);
  oi_seen : forall t φ, g !! t = Some φ -> is_seen φ = true -> w = 2;
  oi_returned : word m returned <> 0 -> w = 2;
  oi_queue : wait_queue once false is_oqueued is_stored (w = 1) m g;
  oi_len : Z.of_nat (length g) <= INT_MAX
}.

Definition OInv (m : mem) (g : list ophase) : Prop := exists w, oinv w m g.

#[export] Instance OInv_proper : Proper (mem_equiv ==> eq ==> iff) OInv.
Proof using Type.
  assert (forall m m' g, mem_equiv m m' -> OInv m g -> OInv m' g) as H.
  { intros m m' g [Hw Hq] [w [H1 H2 H3 H4 H5 H6 H7 H8]]. exists w.
    split; rewrite <- ?Hw; try done. apply wq_equiv with (2 := H7). by rewrite Hq. }
  intros m m' He g ? <-. split; apply H; [done|by symmetry].
Qed.

Lemma OInv_word m g l v : P l -> OInv m g -> OInv (set_word m l v) g.
Proof using HP.
  intros Hl [w [H1 H2 H3 H4 H5 H6 H7 H8]]. exists w. pose proof (HP l Hl) as Hni.
  rewrite !not_elem_of_cons in Hni. destruct Hni as (N1 & N2 & N3 & N4 & _).
  split; rewrite ?(word_set_word_ne m) by congruence; try done.
  by apply wq_equiv with (2 := H7).
Qed.

Lemma OInv_waiters m g l sh q : P l -> OInv m g -> OInv (set_waiters m l sh q) g.
Proof using HP.
  intros Hl [w [H1 H2 H3 H4 H5 H6 H7 H8]]. exists w. split; try done.
  apply wq_equiv with (2 := H7). apply waiters_set_waiters_ne. intros [= <- _].
  apply (HP once Hl). by left.
Qed.

(** A step that leaves the queue alone; the deltas of the counters are those of the phases. *)
Lemma oinv_step w m g t φ φ' w' m' :
  oinv w m g -> g !! t = Some φ -> is_oqueued φ = false -> waiters m' = waiters m ->
  word m' once = w' -> (w' = 0 \/ w' = 1 \/ w' = 2) -> (w = 2 -> w' = 2) ->
  b2z (is_active φ') - b2z (is_active φ) = b2z (w' =? 1) - b2z (w =? 1) ->
  word m' runs - word m runs =
    b2z (is_ran φ') - b2z (is_ran φ) + b2z (w' =? 2) - b2z (w =? 2) ->
  word m' ends - word m ends =
    b2z (is_finished φ') - b2z (is_finished φ) + b2z (w' =? 2) - b2z (w =? 2) ->
  (is_seen φ' = true -> w' = 2) -> (word m' returned <> word m returned -> w' = 2) ->
  (w = 1 -> w' = 1 \/ is_stored φ' = true) -> (is_stored φ = true -> is_stored φ' = true) ->
  oinv w' m' (<[t:=φ']> g).
Proof using Type.
  intros [H1 H2 H3 H4 H5 H6 H7 H8] Hg Hq Ew Hw Hw' Hm Ha Hr He Hs Hret Hreason Hst.
  split; rewrite ?(cnt_insert _ _ _ _ _ Hg), ?length_insert; try done; try lia.
  - intros t' φ1 Hg1 Hs1. destruct (decide (t' = t)) as [->|Hne].
    + rewrite list_lookup_insert_eq in Hg1 by (by eapply lookup_lt_Some). simplify_eq. auto.
    + rewrite list_lookup_insert_ne in Hg1 by done. eauto.
  - apply wq_step with (1 := H7) (2 := Hg); auto. by rewrite Ew.
Qed.

(** The queue changes, the phase goes from one of [OIdle], [OQueued] and [OStored] to another
    of [OIdle], [OQueued] and [OSeen]. *)
Lemma oinv_queue w m g t φ φ' q :
  oinv w m g -> g !! t = Some φ ->
  is_active φ = false -> is_active φ' = false -> is_ran φ = false -> is_ran φ' = false ->
  is_finished φ = false -> is_finished φ' = false -> (is_seen φ' = true -> is_seen φ = true) ->
  wait_queue once false is_oqueued is_stored (w = 1) (set_waiters m once false q) (<[t:=φ']> g) ->
  oinv w (set_waiters m once false q) (<[t:=φ']> g).
Proof using Type.
  intros [H1 H2 H3 H4 H5 H6 H7 H8] Hg A1 A2 R1 R2 F1 F2 Hs Hq.
  split; rewrite ?(cnt_insert _ _ _ _ _ Hg), ?length_insert, ?A1, ?A2, ?R1, ?R2, ?F1, ?F2;
    simpl; try done; try lia.
  intros t' φ1 Hg1 Hs1. destruct (decide (t' = t)) as [->|Hne].
  - rewrite list_lookup_insert_eq in Hg1 by (by eapply lookup_lt_Some). simplify_eq. eauto.
  - rewrite list_lookup_insert_ne in Hg1 by done. eauto.
Qed.

(** * The routine *)

Ltac places := pose proof Hlocs as Hl; rewrite !NoDup_cons, !not_elem_of_cons in Hl; destruct_and!.
Ltac at_word := simpl; repeat first [rewrite decide_True by done | rewrite decide_False by done].

(** A value read from the control word; a thread that read 2 knows that it stays 2. *)
Definition once_read (s : Z) (φ : ophase) : Prop :=
  (s = 0 \/ s = 1) /\ φ = OIdle \/ s = 2 /\ φ = OSeen.

Lemma once_reads m g t :
  OInv m g -> g !! t = Some OIdle ->
  exists φ', OInv m (<[t:=φ']> g) /\ once_read (word m once) φ'.
Proof using Type.
  intros [w HI] Hg. destruct (oi_word w m g HI) as [E Hw].
  exists (if w =? 2 then OSeen else OIdle). split; [|rewrite E; unfold once_read; destruct Hw as [-> |[-> | ->]]; simpl; auto].
  exists w. apply (oinv_step w m g t OIdle); try done; destruct (Z.eqb_spec w 2); simpl; try done; try lia; auto.
Qed.

Lemma wp_once_load t (Q : Z -> ophase -> Prop) :
  (forall s φ, once_read s φ -> Q s φ) -> wp OInv (atomic_load once) t Q OIdle.
Proof using Type.
  intros HQ. apply (wp_load OInv). intros m g HI Hg.
  destruct (once_reads m g t HI Hg) as (φ' & HI' & Hr). eauto.
Qed.

Lemma wp_once_cas t s (Q : bool * Z -> ophase -> Prop) :
  s = 0 \/ s = 1 ->
  (forall x, Q (true, x) (if s =? 0 then OClaimed else OIdle)) ->
  (forall x φ, once_read x φ -> Q (false, x) φ) ->
  wp OInv (atomic_compare_exchange_weak once s 1) t Q OIdle.
Proof using Hlocs.
  intros Hs HQ HQ'. places. apply wp_act. intros m g HI Hg [ok seen] m' [E H']. simpl in E, H'. subst seen.
  destruct H' as [(-> & Hw & ->)|(-> & _ & ->)].
  - simpl in *. destruct HI as [w HI]. destruct (oi_word w m g HI) as [E _].
    assert (w = s) as -> by congruence.
    exists (if s =? 0 then OClaimed else OIdle). split; [|auto]. exists 1.
    apply (oinv_step s m g t OIdle); try done; at_word; try done; destruct Hs as [-> | ->]; simpl; try done; try lia; auto.
  - destruct (once_reads m g t HI Hg) as (φ' & HI' & Hr). simpl. eauto.
Qed.

(** The routine as the theorem observes it: its starts are counted in [runs] and its ends in
    [ends]; in between it does anything that does not touch the words of the invariant. *)
Definition observed : prog unit :=
  act (Rmw runs (fun c => c + 1)) ;; body ;; act (Rmw ends (fun c => c + 1)) ;; Ret tt.

Lemma wp_observed t : wp OInv observed t (fun _ φ => φ = OFinished) OClaimed.
Proof using All.
  places. apply wp_bind, wp_act. intros m g [w HI] Hg x m' [_ ->]. exists ORunning. split.
  { exists w. destruct (oi_word w m g HI) as [E Hw]. apply (oinv_step w m g t OClaimed); try done; at_word; try done; try lia; auto. }
  apply wp_bind, (wp_within OInv P OInv_word OInv_waiters); [done|]. intros _.
  clear x m g w HI Hg. apply wp_bind, wp_act. intros m g [w HI] Hg x m' [_ ->]. exists OFinished. split; [|by apply wp_ret].
  exists w. destruct (oi_word w m g HI) as [E Hw]. apply (oinv_step w m g t ORunning); try done; at_word; try done; try lia; auto.
Qed.

Lemma wp_once_store t : wp OInv (atomic_store once 2) t (fun _ φ => φ = OStored) OFinished.
Proof using Hlocs.
  places. apply (wp_store OInv). intros m g [w HI] Hg. exists OStored. split; [|done]. exists 2.
  assert (w = 1) as ->.
  { pose proof (oi_active w m g HI) as Ha. pose proof (cnt_lookup is_active g t _ Hg eq_refl).
    destruct (Z.eqb_spec w 1); simpl in *; [done|lia]. }
  apply (oinv_step 1 m g t OFinished); try done; at_word; try done; try lia; auto.
Qed.

Lemma wp_once_wake t (Q : Z -> ophase -> Prop) :
  (forall r, Q r OSeen) -> wp OInv (__futex_wake_ex once false INT_MAX) t Q OStored.
Proof using Type.
  intros HQ. apply (wp_futex_wake_ex OInv _ _ _ _ _ OStored OSeen); [done| |done].
  intros m g q [w HI] Hg _ Hlen. exists w. apply (oinv_queue w m g t OStored); try done.
  apply wq_wake_all with (1 := oi_queue w m g HI) (2 := Hg) (5 := Hlen); [done|].
  pose proof (oi_len w m g HI). lia.
Qed.

Lemma wp_once_wait t (Q : Z -> ophase -> Prop) :
  (forall r, Q r OIdle) -> wp OInv (__futex_wait_ex once false 1 false None) t Q OIdle.
Proof using Type.
  intros HQ. apply (wp_futex_wait_ex OInv _ _ _ _ _ _ _ OIdle OQueued OIdle OIdle); auto.
  - intros m g q [w HI] Hg Hw Hq. exists w. apply (oinv_queue w m g t OIdle); try done.
    apply wq_enqueue with (1 := oi_queue w m g HI) (2 := Hg); try done.
    destruct (oi_word w m g HI). congruence.
  - intros m g [w HI] Hg Hni. split; [|auto]. rewrite (mem_equiv_same_waiters m once false). exists w.
    apply (oinv_queue w m g t OQueued); try done.
    by apply wq_shrink with (1 := oi_queue w m g HI) (2 := Hg).
  - intros m g [w HI] Hg Hin. split; [|auto]. exists w. apply (oinv_queue w m g t OQueued); try done.
    by apply wq_giveup with (1 := oi_queue w m g HI) (2 := Hg).
Qed.

Lemma wp_pthread_once t : wp OInv (pthread_once once observed) t (fun r φ => r = 0 /\ φ = OSeen) OIdle.
Proof using All.
  apply wp_bind, wp_once_load. intros s0 φ0 H0. apply (wp_loop OInv once_read); [done|].
  clear s0 φ0 H0. intros s φ [[Hs ->]|[-> ->]]; [|by apply wp_ret].
  replace (s =? ONCE_INITIALIZATION_COMPLETE) with false by (destruct Hs as [-> | ->]; done). cbv iota.
  apply wp_bind, wp_once_cas; [done| |]; simpl negb; cbv iota; [|intros x φ Hx; by apply wp_ret].
  intros _. destruct Hs as [-> | ->]; simpl.
  - apply wp_bind. apply wp_mono with (2 := wp_observed t). intros _ φ ->.
    apply wp_bind. apply wp_mono with (2 := wp_once_store t). intros _ φ ->.
    apply wp_bind, wp_once_wake. intros _. by apply wp_ret.
  - apply wp_bind, wp_once_wait. intros _. apply wp_bind, wp_once_load. intros s φ Hs. by apply wp_ret.
Qed.

(** * Clients *)

(** The most general client calls [pthread_once] as often as it likes and counts the returns. *)
Definition once_client : prog unit :=
  loop (fun _ : unit =>
    go <- act Choose ;;
    if (go : bool) then
      r <- pthread_once once observed ;;
      act (Rmw returned (fun c => c + 1)) ;; Ret (inl tt)
    else Ret (inr tt)) tt.

Lemma wp_once_client t : wp OInv once_client t (fun _ φ => φ = OIdle) OIdle.
Proof using All.
  places. apply (wp_loop OInv (fun _ φ => φ = OIdle)); [done|]. intros _ φ ->.
  apply wp_bind, wp_choose. intros go. destruct go; [|by apply wp_ret].
  apply wp_bind. apply wp_mono with (2 := wp_pthread_once t). intros r φ [-> ->].
  apply wp_bind, wp_act. intros m g [w HI] Hg x m' [_ ->]. exists OIdle. split; [|by apply wp_ret].
  exists w. destruct (oi_word w m g HI) as [E Hw]. pose proof (oi_seen w m g HI t OSeen Hg eq_refl) as ->.
  apply (oinv_step 2 m g t OSeen); try done; at_word; try done; try lia; auto.
Qed.

Definition once_start (m : mem) : Prop :=
  word m once = 0 /\ word m runs = 0 /\ word m ends = 0 /\ word m returned = 0 /\
  waiters m once false = [].

Lemma once_client_inv n m c :
  Z.of_nat n <= INT_MAX -> once_start m -> reachable (replicate n once_client, m) c ->
  exists g, OInv c.2 g /\ threads_ok OInv (fun _ φ _ => φ = OIdle) c.1 c.2 g.
Proof using All.
  intros Hn (Hw & Hr & He & Hret & Hq) Hreach.
  apply (machine_inv OInv (fun _ φ _ => φ = OIdle) _ _ (replicate n OIdle) Hreach); simpl.
  - exists 0. split; rewrite ?Hw, ?Hr, ?He, ?Hret, ?cnt_replicate, ?length_replicate by done; try done; auto.
    + by intros t φ [-> _]%lookup_replicate.
    + by apply wq_empty.
  - rewrite <- (length_replicate n once_client) at 2.
    apply threads_ok_intro. intros t p [-> _]%lookup_replicate. apply wp_once_client.
Qed.

(** A thread that is queued while everything is quiet waits for a routine that sleeps. *)
Lemma once_quiet c g t :
  OInv c.2 g -> threads_ok OInv (fun _ φ _ => φ = OIdle) c.1 c.2 g -> quiescent c ->
  t ∈ waiters c.2 once false ->
  exists t' p', c.1 !! t' = Some p' /\ asleep c.2 t' p' = true /\ t' ∉ waiters c.2 once false.
Proof using Type.
  intros [w HI] [Hlen Hok] Hquiet Hin. destruct (oi_queue w c.2 g HI) as [_ Hq Hwake].
  assert (exists t' φ, g !! t' = Some φ /\ φ <> OIdle /\ is_oqueued φ = false) as (t' & φ & Hg & Hne & Hnq).
  { destruct Hwake as [->|Hc]; [intros E; rewrite E in Hin; by apply not_elem_of_nil in Hin|..].
    - destruct (cnt_pos is_active g) as (t' & φ & Hg & Ha); [by rewrite (oi_active 1 c.2 g HI)|].
      exists t', φ. by destruct φ.
    - apply cnt_pos in Hc as (t' & φ & Hg & Ha). exists t', φ. by destruct φ. }
  destruct (lookup_lt_is_Some_2 c.1 t') as [p' Hp']; [rewrite <- Hlen; by eapply lookup_lt_Some|].
  exists t', p'. split; [done|]. destruct (Hok t' p' Hp') as (φ' & Hg' & Hwp). split.
  - destruct (Hquiet t' p' Hp') as [Hf|Hs]; [|done]. destruct p'; [|done..]. unfold wpe in Hwp. congruence.
  - intros Hin'. destruct (Hq t' Hin') as (φ1 & Hg1 & Hq1). congruence.
Qed.

Lemma oinv_counts m g :
  OInv m g -> 0 <= word m ends <= word m runs /\ word m runs <= 1 /\ (word m returned <> 0 -> word m ends = 1).
Proof using Type.
  intros [w [H1 H2 H3 H4 H5 H6 H7 H8]].
  assert (cnt is_ran g <= cnt is_active g) by (apply cnt_mono; by intros []).
  assert (cnt is_finished g <= cnt is_ran g) by (apply cnt_mono; by intros []).
  pose proof (cnt_nonneg is_finished g). destruct H1 as [_ [-> |[-> | ->]]]; simpl in *; repeat split; try lia.
Qed.

End once.

(** C32: one-time initialization.  Any number of threads call [pthread_once] on one control word
    as often as they like, with a routine that does anything but touch the control word and the
    counters.  In every interleaving the routine has started at most once, and when any call has
    returned it has run to its end.  If every thread has returned or sleeps, a thread that
    sleeps on the control word waits for a thread that sleeps somewhere else, inside the routine:
    no wake-up is lost. *)
Theorem pthread_once_correct {K : FutexKernel} once runs ends returned P body n m c :
  NoDup [once; runs; ends; returned] ->
  (forall l, P l -> l ∉ [once; runs; ends; returned]) -> within P body ->
  Z.of_nat n <= INT_MAX -> once_start once runs ends returned m ->
  reachable (replicate n (once_client once runs ends returned body), m) c ->
  word c.2 ends <= word c.2 runs <= 1 /\
  (word c.2 returned <> 0 -> word c.2 ends = 1) /\
  (quiescent c -> forall t, t ∈ waiters c.2 once false ->
     exists t' p', c.1 !! t' = Some p' /\ asleep c.2 t' p' = true /\ t' ∉ waiters c.2 once false).
Proof.
  intros Hlocs HP Hbody Hn Hs Hr.
  destruct (once_client_inv once runs ends returned P body Hlocs HP Hbody n m c Hn Hs Hr) as (g & HI & Hok).
  destruct (oinv_counts once runs ends returned c.2 g HI) as ([H1 H2] & H3 & H4).
  repeat split; [done..|]. intros Hq t. by apply (once_quiet once runs ends returned c g).
Qed.

Definition ex_once_loc (f : string) : loc := (0%nat, f).
Definition ex_once_threads : list (prog unit) :=
  replicate 2 (once_client (ex_once_loc "once") (ex_once_loc "runs") (ex_once_loc "ends") (ex_once_loc "returned")
                 (atomic_store (ex_once_loc "data") 7)).
Definition ex_once_mem : mem := mk_mem (fun _ => 0) (fun _ _ => []) (fun _ => 0).

(** Thread 1 comes while thread 0 is in the routine, sleeps, and is woken. *)
Definition ex_once_run : machine :=
  run_schedule (fun _ => mk_timespec 0 0)
    (map (fun t => (t, true)) (repeat 0%nat 7 ++ repeat 1%nat 12 ++ repeat 0%nat 12 ++ repeat 1%nat 8))
    (ex_once_threads, ex_once_mem).

Lemma pthread_once_correct_witness :
  word ex_once_run.2 (ex_once_loc "ends") <= word ex_once_run.2 (ex_once_loc "runs") <= 1 /\
  (word ex_once_run.2 (ex_once_loc "returned") <> 0 -> word ex_once_run.2 (ex_once_loc "ends") = 1) /\
  (quiescent ex_once_run -> forall t, t ∈ waiters ex_once_run.2 (ex_once_loc "once") false ->
     exists t' p', ex_once_run.1 !! t' = Some p' /\ asleep ex_once_run.2 t' p' = true /\
       t' ∉ waiters ex_once_run.2 (ex_once_loc "once") false).
Proof.
  apply (pthread_once_correct (ex_once_loc "once") (ex_once_loc "runs") (ex_once_loc "ends")
           (ex_once_loc "returned") (fun l => l = ex_once_loc "data")
           (atomic_store (ex_once_loc "data") 7) 2 ex_once_mem).
  - apply (bool_decide_eq_true_1 _). vm_compute. reflexivity.
  - intros l ->. apply (bool_decide_eq_true_1 _). vm_compute. reflexivity.
  - apply within_bind; [by apply within_act|done].
  - vm_compute. discriminate.
  - repeat split.
  - exact (run_schedule_reachable _ _ _).
Defined.

Example ex_once_run_results :
  word ex_once_run.2 (ex_once_loc "returned") = 3 /\ word ex_once_run.2 (ex_once_loc "runs") = 1.
Proof. vm_compute. split; reflexivity. Qed.
