(* ===== verification/CxaGuard.v ===== *)
(** Guards of function-local statics: libc/bionic/__cxa_guard.cpp.

    The compiler calls [__cxa_guard_acquire] before it constructs a static object, and
    [__cxa_guard_release] or [__cxa_guard_abort] after it, when the constructor returned or
    threw.  The theorem at the end says that at most one thread constructs at a time, that the
    construction completes at most once, that whoever is told not to construct finds it
    completed, and that no wake-up is lost. *)

From S2P Require Import Prelude Atomic Futex WaitQueue.

(** * Definitions *)

Abbreviation CONSTRUCTION_NOT_YET_STARTED := 0.
Abbreviation CONSTRUCTION_COMPLETE := 1.
Abbreviation CONSTRUCTION_UNDERWAY_WITHOUT_WAITER := 0x100.
Abbreviation CONSTRUCTION_UNDERWAY_WITH_WAITER := 0x200.

(** A guard is known by the place of its [state]. *)
Definition __cxa_guard_acquire (gv : loc) : prog Z :=
  old_value <- atomic_load gv ;;
  loop (fun old_value : Z =>
    let wait :=
      __futex_wait_ex3 gv false CONSTRUCTION_UNDERWAY_WITH_WAITER ;;
      old_value <- atomic_load gv ;;
      Ret (inl old_value) in
    if old_value =? CONSTRUCTION_COMPLETE then Ret (inr 0)
    else if old_value =? CONSTRUCTION_NOT_YET_STARTED then
      let2 ok, seen <- atomic_compare_exchange_weak gv old_value CONSTRUCTION_UNDERWAY_WITHOUT_WAITER ;;
      if negb ok then Ret (inl seen) else Ret (inr 1)
    else if old_value =? CONSTRUCTION_UNDERWAY_WITHOUT_WAITER then
      let2 ok, seen <- atomic_compare_exchange_weak gv old_value CONSTRUCTION_UNDERWAY_WITH_WAITER ;;
      if negb ok then Ret (inl seen) else wait
    else wait) old_value.

Definition __cxa_guard_release (gv : loc) : prog unit :=
  old_value <- atomic_exchange gv CONSTRUCTION_COMPLETE ;;
  if old_value =? CONSTRUCTION_UNDERWAY_WITH_WAITER
  then __futex_wake_ex gv false INT_MAX ;; Ret tt
  else Ret tt.

Definition __cxa_guard_abort (gv : loc) : prog unit :=
  old_value <- atomic_exchange gv CONSTRUCTION_NOT_YET_STARTED ;;
  if old_value =? CONSTRUCTION_UNDERWAY_WITH_WAITER
  then __futex_wake_ex gv false INT_MAX ;; Ret tt
  else Ret tt.

(** * The invariant *)

(** Where a thread is. *)
Inductive gphase :=
| GIdle
| GClaimed    (* was told to construct *)
| GInside     (* in the constructor *)
| GOutside    (* the constructor has ended *)
| GBuilt      (* the object is there, the guard does not say so yet *)
| GWake       (* released or aborted a guard with waiters, about to wake everybody *)
| GSeen       (* knows that the construction is complete *)
| GQueued.    (* inside the futex wait *)

Definition g_active (φ : gphase) : bool :=
  match φ with GClaimed | GInside | GOutside | GBuilt => true | _ => false end.
Definition g_inside (φ : gphase) : bool := match φ with GInside => true | _ => false end.
Definition g_built (φ : gphase) : bool := match φ with GBuilt => true | _ => false end.
Definition g_wake (φ : gphase) : bool := match φ with GWake => true | _ => false end.
Definition g_seen (φ : gphase) : bool := match φ with GSeen => true | _ => false end.
Definition g_queued (φ : gphase) : bool := match φ with GQueued => true | _ => false end.

Definition underway (w : Z) : bool := (w =? 0x100) || (w =? 0x200).
Definition guard_value (w : Z) : Prop := w = 0 \/ w = 1 \/ w = 0x100 \/ w = 0x200.

Section guard.
Context {K : FutexKernel} (gv inside built skipped : loc) (P : loc -> Prop) (body : prog unit).
Context (Hlocs : NoDup [gv; inside; built; skipped])
  (HP : forall l, P l -> l ∉ [gv; inside; built; skipped])
  (Hbody : within P body).

Record ginv (w : Z) (m : mem) (g : list gphase) : Prop := mk_ginv {
  gi_word : word m gv = w;
  gi_value : guard_value w;
  gi_active : cnt g_active g = b2z (underway w);
  gi_inside : word m inside = cnt g_inside g;
  gi_built : word m built = cnt g_built g + b2z (w =? 1);
  gi_seen : forall t, g !! t = Some GSeen -> w = 1;
  gi_skipped : word m skipped <> 0 -> w = 1;
  gi_queue : wait_queue gv false g_queued g_wake (w = 0x200) m g;
  gi_len : Z.of_nat (length g) <= INT_MAX
}.

Definition GInv (m : mem) (g : list gphase) : Prop := exists w, ginv w m g.

#[export] Instance GInv_proper : Proper (mem_equiv ==> eq ==> iff) GInv.
Proof using Type.
  assert (forall m m' g, mem_equiv m m' -> GInv m g -> GInv m' g) as H.
  { intros m m' g [Hw Hq] [w []]. exists w. split; rewrite <- ?Hw; try done.
    by apply wq_equiv with m. }
  intros m m' He g ? <-. split; apply H; [done|by symmetry].
Qed.

Lemma GInv_word m g l v : P l -> GInv m g -> GInv (set_word m l v) g.
Proof using HP.
  intros Hl [w []]. exists w. pose proof (HP l Hl) as Hni.
  rewrite !not_elem_of_cons in Hni. destruct Hni as (N1 & N2 & N3 & N4 & _).
  split; rewrite ?(word_set_word_ne m) by congruence; try done. by apply wq_equiv with m.
Qed.

Lemma GInv_waiters m g l sh q : P l -> GInv m g -> GInv (set_waiters m l sh q) g.
Proof using HP.
  intros Hl [w []]. exists w. split; try done.
  apply wq_equiv with m; [|done]. apply waiters_set_waiters_ne. intros [= <- _].
  apply (HP gv Hl). by left.
Qed.

Lemma seen_insert w m g t φ φ' w' :
  ginv w m g -> g !! t = Some φ -> (w = 1 -> w' = 1) -> (g_seen φ' = true -> w' = 1) ->
  forall t', <[t:=φ']> g !! t' = Some GSeen -> w' = 1.
Proof using Type.
  intros HI Hg Hw Hs t' Hg'. destruct (decide (t' = t)) as [->|Hne].
  - rewrite list_lookup_insert_eq in Hg' by (by eapply lookup_lt_Some). simplify_eq. auto.
  - rewrite list_lookup_insert_ne in Hg' by done. apply Hw. by apply (gi_seen w m g HI t').
Qed.

(** A step that leaves the queue alone; a completed guard stays completed. *)
Lemma ginv_step w m g t φ φ' w' m' :
  ginv w m g -> g !! t = Some φ -> g_queued φ = false -> waiters m' = waiters m ->
  word m' gv = w' -> guard_value w' -> (w = 1 -> w' = 1) ->
  b2z (g_active φ') - b2z (g_active φ) = b2z (underway w') - b2z (underway w) ->
  word m' inside - word m inside = b2z (g_inside φ') - b2z (g_inside φ) ->
  word m' built - word m built = b2z (g_built φ') - b2z (g_built φ) + b2z (w' =? 1) - b2z (w =? 1) ->
  (g_seen φ' = true -> w' = 1) -> (word m' skipped <> word m skipped -> w' = 1) ->
  (w = 0x200 -> w' = 0x200 \/ g_wake φ' = true) -> (g_wake φ = true -> g_wake φ' = true) ->
  ginv w' m' (<[t:=φ']> g).
Proof using Type.
  intros HI Hg Hq Ew Hw Hw' Hm Ha Hin Hb Hs Hret Hreason Hst.
  pose proof (seen_insert w m g t φ φ' w' HI Hg Hm Hs). destruct HI.
  split; rewrite ?(cnt_insert _ _ _ _ _ Hg), ?length_insert; try done; try lia.
  apply (wq_step gv false g_queued g_wake (w = 0x200) (w' = 0x200) m m' g t φ φ'); try done. by rewrite Ew.
Qed.

(** The queue changes; the phases are among those with no claim to the construction. *)
Lemma ginv_queue w m g t φ φ' q :
  ginv w m g -> g !! t = Some φ -> g_active φ = false -> φ' = GIdle \/ φ' = GQueued ->
  wait_queue gv false g_queued g_wake (w = 0x200) (set_waiters m gv false q) (<[t:=φ']> g) ->
  ginv w (set_waiters m gv false q) (<[t:=φ']> g).
Proof using Type.
  intros HI Hg Ha Hφ Hq.
  assert (g_seen φ' = false) as Hs by (by destruct Hφ as [-> | ->]).
  pose proof (seen_insert w m g t φ φ' w HI Hg ltac:(done) ltac:(by rewrite Hs)). destruct HI.
  split; rewrite ?(cnt_insert _ _ _ _ _ Hg), ?length_insert; simpl; try done;
    destruct φ, Hφ as [-> | ->]; simpl in *; try done; lia.
Qed.

(** * The routines *)

Ltac places := pose proof Hlocs as Hl; rewrite !NoDup_cons, !not_elem_of_cons in Hl; destruct_and!.
Ltac at_word := simpl; repeat first [rewrite decide_True by done | rewrite decide_False by done].
Ltac gstep := at_word; try done; try lia; auto.

(** A value read from the guard; a thread that read 1 knows that it stays 1. *)
Definition guard_read (s : Z) (φ : gphase) : Prop :=
  guard_value s /\ φ = if s =? 1 then GSeen else GIdle.

Lemma guard_reads m g t :
  GInv m g -> g !! t = Some GIdle ->
  exists φ', GInv m (<[t:=φ']> g) /\ guard_read (word m gv) φ'.
Proof using Type.
  intros [w HI] Hg. pose proof (gi_word w m g HI) as E. pose proof (gi_value w m g HI) as Hw.
  exists (if w =? 1 then GSeen else GIdle). split; [|by rewrite E].
  exists w. apply (ginv_step w m g t GIdle); try done; destruct (Z.eqb_spec w 1); simpl; try done; try lia; auto.
Qed.

Lemma wp_guard_load t (Q : Z -> gphase -> Prop) :
  (forall s φ, guard_read s φ -> Q s φ) -> wp GInv (atomic_load gv) t Q GIdle.
Proof using Type.
  intros HQ. apply (wp_load GInv). intros m g HI Hg.
  destruct (guard_reads m g t HI Hg) as (φ' & HI' & Hr). eauto.
Qed.

Lemma wp_guard_cas t s d φ1 (Q : bool * Z -> gphase -> Prop) :
  s = 0 /\ d = 0x100 /\ φ1 = GClaimed \/ s = 0x100 /\ d = 0x200 /\ φ1 = GIdle ->
  (forall x, Q (true, x) φ1) -> (forall x φ, guard_read x φ -> Q (false, x) φ) ->
  wp GInv (atomic_compare_exchange_weak gv s d) t Q GIdle.
Proof using Hlocs.
  intros Hs HQ HQ'. places. apply wp_act. intros m g HI Hg [ok seen] m' [E H']. simpl in E, H'. subst seen.
  destruct H' as [(-> & Hw & ->)|(-> & _ & ->)].
  - destruct HI as [w HI]. pose proof (gi_word w m g HI). assert (w = s) as -> by congruence.
    exists φ1. split; [|auto]. exists d. unfold guard_value.
    destruct Hs as [(-> & -> & ->)|(-> & -> & ->)];
      (apply (ginv_step _ m g t _ _ _ _ HI Hg); unfold guard_value; gstep).
  - destruct (guard_reads m g t HI Hg) as (φ' & HI' & Hr). eauto.
Qed.

Lemma wp_guard_wait t (Q : Z -> gphase -> Prop) :
  (forall r, Q r GIdle) -> wp GInv (__futex_wait_ex3 gv false 0x200) t Q GIdle.
Proof using Type.
  intros HQ. apply (wp_futex_wait_ex3 GInv _ _ _ _ _ GIdle GQueued GIdle GIdle); auto.
  - intros m g q [w HI] Hg Hw Hq. exists w. apply (ginv_queue w m g t GIdle); auto.
    apply wq_enqueue with (1 := gi_queue w m g HI) (2 := Hg); try done.
    pose proof (gi_word w m g HI). congruence.
  - intros m g [w HI] Hg Hni. split; [|auto]. rewrite (mem_equiv_same_waiters m gv false). exists w.
    apply (ginv_queue w m g t GQueued); auto. by apply wq_shrink with (1 := gi_queue w m g HI) (2 := Hg).
  - intros m g [w HI] Hg Hin. split; [|auto]. exists w. apply (ginv_queue w m g t GQueued); auto.
    by apply wq_giveup with (1 := gi_queue w m g HI) (2 := Hg).
Qed.

(** 1 gives the caller the construction, 0 tells it that there is nothing to construct. *)
Lemma wp_acquire t :
  wp GInv (__cxa_guard_acquire gv) t
    (fun r φ => r = 1 /\ φ = GClaimed \/ r = 0 /\ φ = GSeen) GIdle.
Proof using Hlocs.
  apply wp_bind, wp_guard_load. intros s0 φ0 H0. apply (wp_loop GInv guard_read); [done|].
  clear s0 φ0 H0. intros s φ [Hs ->]. cbv zeta.
  assert (wp GInv (__futex_wait_ex3 gv false CONSTRUCTION_UNDERWAY_WITH_WAITER ;;
      old_value <- atomic_load gv ;; Ret (inl old_value)) t
      (fun (r : Z + Z) φ' => match r with inl s' => guard_read s' φ'
         | inr r => r = 1 /\ φ' = GClaimed \/ r = 0 /\ φ' = GSeen end) GIdle) as Hwait.
  { apply wp_bind, wp_guard_wait. intros _. apply wp_bind, wp_guard_load. intros s1 φ1 H1. by apply wp_ret. }
  destruct Hs as [-> |[-> |[-> | ->]]]; simpl.
  - apply wp_bind, (wp_guard_cas t 0 0x100 GClaimed); [auto|..]; intros; apply wp_ret; simpl; auto.
  - apply wp_ret. auto.
  - apply wp_bind, (wp_guard_cas t 0x100 0x200 GIdle); [auto|..]; simpl; [done|]. intros. by apply wp_ret.
  - done.
Qed.

(** The exchange of the word and the wake-up, for both ends of a construction. *)
Lemma wp_guard_end t v φ φ1 :
  v = 1 /\ φ = GBuilt \/ v = 0 /\ φ = GOutside -> φ1 = GIdle ->
  wp GInv (old_value <- atomic_exchange gv v ;;
           if old_value =? CONSTRUCTION_UNDERWAY_WITH_WAITER
           then __futex_wake_ex gv false INT_MAX ;; Ret tt else Ret tt) t (fun _ φ => φ = φ1) φ.
Proof using Hlocs.
  intros Hv ->. places. apply wp_bind, wp_act. intros m g [w HI] Hg x m' [-> ->].
  pose proof (gi_word w m g HI) as ->. pose proof (gi_active w m g HI) as Ha.
  assert (w = 0x100 \/ w = 0x200) as Hw.
  { pose proof (cnt_lookup g_active g t φ Hg ltac:(by destruct Hv as [[_ ->]|[_ ->]])) as Hc.
    destruct (gi_value w m g HI) as [-> |[-> |[-> | ->]]]; auto; simpl in *; lia. }
  exists (if w =? 0x200 then GWake else GIdle). split.
  - exists v. destruct Hv as [[-> ->]|[-> ->]], Hw as [-> | ->];
      (apply (ginv_step _ m g t _ _ _ _ HI Hg); unfold guard_value; gstep).
  - destruct Hw as [-> | ->]; simpl; [by apply wp_ret|]. apply wp_bind.
    apply (wp_futex_wake_ex GInv _ _ _ _ _ GWake GIdle); [done| |intros; by apply wp_ret].
    clear -Hlocs. intros m g q [w HI] Hg _ Hlen. exists w. apply (ginv_queue w m g t GWake); auto.
    apply wq_wake_all with (1 := gi_queue w m g HI) (2 := Hg) (5 := Hlen); [done|].
    pose proof (gi_len w m g HI). lia.
Qed.

Lemma wp_release t : wp GInv (__cxa_guard_release gv) t (fun _ φ => φ = GIdle) GBuilt.
Proof using Hlocs. apply wp_guard_end; auto. Qed.

Lemma wp_abort_guard t : wp GInv (__cxa_guard_abort gv) t (fun _ φ => φ = GIdle) GOutside.
Proof using Hlocs. apply wp_guard_end; auto. Qed.

(** * Clients *)

(** What the compiler makes of a static object: a constructor [body] that can end with an
    exception.  The client counts the threads inside the constructor, the completed
    constructions and the calls that found nothing to construct. *)
Definition guard_client : prog unit :=
  loop (fun _ : unit =>
    go <- act Choose ;;
    if (go : bool) then
      r <- __cxa_guard_acquire gv ;;
      if r =? 1 then
        act (Rmw inside (fun c => c + 1)) ;;
        body ;;
        act (Rmw inside (fun c => c + -1)) ;;
        throws <- act Choose ;;
        if (throws : bool) then __cxa_guard_abort gv ;; Ret (inl tt)
        else act (Rmw built (fun c => c + 1)) ;; __cxa_guard_release gv ;; Ret (inl tt)
      else act (Rmw skipped (fun c => c + 1)) ;; Ret (inl tt)
    else Ret (inr tt)) tt.

Lemma wp_guard_counter l d t φ φ' (Q : Z -> gphase -> Prop) :
  (l, d, φ, φ') ∈ [(inside, 1, GClaimed, GInside); (inside, -1, GInside, GOutside);
                   (built, 1, GOutside, GBuilt); (skipped, 1, GSeen, GIdle)] ->
  (forall x, Q x φ') -> wp GInv (act (Rmw l (fun c => c + d))) t Q φ.
Proof using Hlocs.
  intros Hin HQ. places. apply wp_act. intros m g [w HI] Hg x m' [_ ->]. exists φ'. split; [|done].
  exists w. pose proof (gi_word w m g HI) as E. pose proof (gi_value w m g HI) as Hw.
  rewrite !elem_of_cons, elem_of_nil in Hin.
  destruct Hin as [[= -> -> -> ->]|[[= -> -> -> ->]|[[= -> -> -> ->]|[[= -> -> -> ->]|[]]]]];
    try (pose proof (gi_seen w m g HI t Hg) as ->);
    (apply (ginv_step _ m g t _ _ _ _ HI Hg); gstep).
Qed.

Lemma wp_guard_client t : wp GInv guard_client t (fun _ φ => φ = GIdle) GIdle.
Proof using All.
  apply (wp_loop GInv (fun _ φ => φ = GIdle)); [done|]. intros _ φ ->.
  apply wp_bind, wp_choose. intros go. destruct go; [|by apply wp_ret].
  apply wp_bind. apply wp_mono with (2 := wp_acquire t). intros r φ [[-> ->]|[-> ->]]; simpl.
  - apply wp_bind, (wp_guard_counter _ _ _ _ GInside); [set_solver|]. intros _.
    apply wp_bind, (wp_within GInv P GInv_word GInv_waiters); [done|]. intros _.
    apply wp_bind, (wp_guard_counter _ _ _ _ GOutside); [set_solver|]. intros _.
    apply wp_bind, wp_choose. intros []; apply wp_bind.
    + apply wp_mono with (2 := wp_abort_guard t). intros _ φ ->. by apply wp_ret.
    + apply (wp_guard_counter _ _ _ _ GBuilt); [set_solver|]. intros _. apply wp_bind.
      apply wp_mono with (2 := wp_release t). intros _ φ ->. by apply wp_ret.
  - apply wp_bind, (wp_guard_counter _ _ _ _ GIdle); [set_solver|]. intros _. by apply wp_ret.
Qed.

Definition guard_start (m : mem) : Prop :=
  word m gv = 0 /\ word m inside = 0 /\ word m built = 0 /\ word m skipped = 0 /\
  waiters m gv false = [].

Lemma guard_client_inv n m c :
  Z.of_nat n <= INT_MAX -> guard_start m -> reachable (replicate n guard_client, m) c ->
  exists g, GInv c.2 g /\ threads_ok GInv (fun _ φ _ => φ = GIdle) c.1 c.2 g.
Proof using All.
  intros Hn (Hw & Hr & He & Hret & Hq) Hreach.
  apply (machine_inv GInv (fun _ φ _ => φ = GIdle) _ _ (replicate n GIdle) Hreach); simpl.
  - exists 0. unfold guard_value.
    split; rewrite ?Hw, ?Hr, ?He, ?Hret, ?cnt_replicate, ?length_replicate by done; try done.
    + by left.
    + by intros t [? _]%lookup_replicate.
    + by apply wq_empty.
  - rewrite <- (length_replicate n guard_client) at 2.
    apply threads_ok_intro. intros t p [-> _]%lookup_replicate. apply wp_guard_client.
Qed.

Lemma ginv_counts m g :
  GInv m g -> word m inside <= 1 /\ word m built <= 1 /\ (word m skipped <> 0 -> word m built = 1 /\ word m inside = 0).
Proof using Type.
  intros [w []].
  assert (cnt g_inside g + cnt g_built g <= cnt g_active g).
  { clear. induction g as [|φ g IH]; simpl; [done|]. destruct φ; simpl; lia. }
  pose proof (cnt_nonneg g_inside g). pose proof (cnt_nonneg g_built g).
  destruct gi_value0 as [-> |[-> |[-> | ->]]]; simpl in *; lia.
Qed.

(** A thread that is queued while everything is quiet waits for a constructor that sleeps. *)
Lemma guard_quiet c g t :
  GInv c.2 g -> threads_ok GInv (fun _ φ _ => φ = GIdle) c.1 c.2 g -> quiescent c ->
  t ∈ waiters c.2 gv false ->
  exists t' p', c.1 !! t' = Some p' /\ asleep c.2 t' p' = true /\ t' ∉ waiters c.2 gv false.
Proof using Type.
  intros [w HI] [Hlen Hok] Hquiet Hin. destruct (gi_queue w c.2 g HI) as [_ Hq Hwake].
  assert (exists t' φ, g !! t' = Some φ /\ φ <> GIdle /\ g_queued φ = false) as (t' & φ & Hg & Hne & Hnq).
  { destruct Hwake as [->|Hc]; [intros E; rewrite E in Hin; by apply not_elem_of_nil in Hin|..].
    - destruct (cnt_pos g_active g) as (t' & φ & Hg & Ha); [by rewrite (gi_active _ c.2 g HI)|].
      exists t', φ. by destruct φ.
    - apply cnt_pos in Hc as (t' & φ & Hg & Ha). exists t', φ. by destruct φ. }
  destruct (lookup_lt_is_Some_2 c.1 t') as [p' Hp']; [rewrite <- Hlen; by eapply lookup_lt_Some|].
  exists t', p'. split; [done|]. destruct (Hok t' p' Hp') as (φ' & Hg' & Hwp). split.
  - destruct (Hquiet t' p' Hp') as [Hf|Hs]; [|done]. destruct p'; [|done..]. unfold wpe in Hwp. congruence.
  - intros Hin'. destruct (Hq t' Hin') as (φ1 & Hg1 & Hq1). congruence.
Qed.

End guard.

(** C33: guards of static objects.  Any number of threads run the code the compiler emits for a
    static object whose constructor does anything but touch the guard and the counters, and
    can throw.  In every interleaving at most one thread is inside the constructor, the
    construction has completed at most once, and once a caller was told not to construct it has
    completed and nobody is inside the constructor.  If every thread has returned or sleeps, a
    thread that sleeps on the guard waits for a thread that sleeps somewhere else, inside the
    constructor. *)
Theorem cxa_guard_correct {K : FutexKernel} gv inside built skipped P body n m c :
  NoDup [gv; inside; built; skipped] ->
  (forall l, P l -> l ∉ [gv; inside; built; skipped]) -> within P body ->
  Z.of_nat n <= INT_MAX -> guard_start gv inside built skipped m ->
  reachable (replicate n (guard_client gv inside built skipped body), m) c ->
  word c.2 inside <= 1 /\ word c.2 built <= 1 /\
  (word c.2 skipped <> 0 -> word c.2 built = 1 /\ word c.2 inside = 0) /\
  (quiescent c -> forall t, t ∈ waiters c.2 gv false ->
     exists t' p', c.1 !! t' = Some p' /\ asleep c.2 t' p' = true /\ t' ∉ waiters c.2 gv false).
Proof.
  intros Hlocs HP Hbody Hn Hs Hr.
  destruct (guard_client_inv gv inside built skipped P body Hlocs HP Hbody n m c Hn Hs Hr) as (g & HI & Hok).
  destruct (ginv_counts gv inside built skipped c.2 g HI) as (H1 & H2 & H3).
  split; [done|]. split; [done|]. split; [done|].
  intros Hq t. by apply (guard_quiet gv inside built skipped c g).
Qed.

Definition ex_guard_loc (f : string) : loc := (0%nat, f).
Definition ex_guard_threads : list (prog unit) :=
  replicate 2 (guard_client (ex_guard_loc "guard") (ex_guard_loc "inside") (ex_guard_loc "built")
                 (ex_guard_loc "skipped") (atomic_store (ex_guard_loc "data") 7)).
Definition ex_guard_mem : mem := mk_mem (fun _ => 0) (fun _ _ => []) (fun _ => 0).

(** Thread 1 comes while thread 0 constructs, sleeps, and is woken. *)
Definition ex_guard_run : machine :=
  run_schedule (fun _ => mk_timespec 0 0)
    (map (pair 0%nat) (repeat true 7) ++ map (pair 1%nat) (repeat true 12) ++
     map (pair 0%nat) (repeat false 14) ++ map (pair 1%nat) (repeat true 8))
    (ex_guard_threads, ex_guard_mem).

Lemma cxa_guard_correct_witness :
  word ex_guard_run.2 (ex_guard_loc "inside") <= 1 /\ word ex_guard_run.2 (ex_guard_loc "built") <= 1 /\
  (word ex_guard_run.2 (ex_guard_loc "skipped") <> 0 ->
     word ex_guard_run.2 (ex_guard_loc "built") = 1 /\ word ex_guard_run.2 (ex_guard_loc "inside") = 0) /\
  (quiescent ex_guard_run -> forall t, t ∈ waiters ex_guard_run.2 (ex_guard_loc "guard") false ->
     exists t' p', ex_guard_run.1 !! t' = Some p' /\ asleep ex_guard_run.2 t' p' = true /\
       t' ∉ waiters ex_guard_run.2 (ex_guard_loc "guard") false).
Proof.
  apply (cxa_guard_correct (ex_guard_loc "guard") (ex_guard_loc "inside") (ex_guard_loc "built")
           (ex_guard_loc "skipped") (fun l => l = ex_guard_loc "data")
           (atomic_store (ex_guard_loc "data") 7) 2 ex_guard_mem).
  - apply (bool_decide_eq_true_1 _). vm_compute. reflexivity.
  - intros l ->. apply (bool_decide_eq_true_1 _). vm_compute. reflexivity.
  - apply within_bind; [by apply within_act|done].
  - vm_compute. discriminate.
  - repeat split.
  - exact (run_schedule_reachable _ _ _).
Defined.

Example ex_guard_run_results :
  word ex_guard_run.2 (ex_guard_loc "skipped") = 1 /\ word ex_guard_run.2 (ex_guard_loc "built") = 1.
Proof. vm_compute. split; reflexivity. Qed.
