(* ===== verification/Barrier.v ===== *)
(** Barriers: libc/bionic/pthread_barrier.cpp.

    A barrier goes through rounds.  In a round [init_count] threads enter, the last one opens
    the barrier, all leave, and the last one to leave closes it for the next round.  The
    theorem at the end says that nobody leaves a round before everybody has arrived, that each
    round has exactly one serial thread, and that no wake-up is lost. *)

From S2P Require Import Prelude Atomic Futex WaitQueue.

(** * Definitions *)

(** Attributes: the new attribute and the result. *)
Definition pthread_barrierattr_init : Z * Z := (0, 0).
Definition pthread_barrierattr_destroy : Z * Z := (0, 0).
(** The value stored through the pointer and the result. *)
Definition pthread_barrierattr_getpshared (attr : Z) : Z * Z :=
  (if truthy (Z.land attr 1) then PTHREAD_PROCESS_SHARED else PTHREAD_PROCESS_PRIVATE, 0).
Definition pthread_barrierattr_setpshared (attr pshared : Z) : Z * Z :=
  (if pshared =? PTHREAD_PROCESS_SHARED then Z.lor attr 1 else Z.land attr (Z.lnot 1), 0).

Abbreviation WAIT := 0.
Abbreviation RELEASE := 1.

Definition PTHREAD_BARRIER_SERIAL_THREAD : Z := -1.

(** The fields of [pthread_barrier_internal_t]. *)
Definition init_count (barrier : nat) : loc := (barrier, "init_count").
Definition b_state (barrier : nat) : loc := (barrier, "state").
Definition wait_count (barrier : nat) : loc := (barrier, "wait_count").
Definition b_pshared (barrier : nat) : loc := (barrier, "pshared").

Definition pthread_barrier_init (barrier : nat) (attr : option Z) (count : Z) : prog Z :=
  if count =? 0 then Ret EINVAL else
  atomic_store (init_count barrier) count ;;
  atomic_store (b_state barrier) WAIT ;;
  atomic_store (wait_count barrier) 0 ;;
  atomic_store (b_pshared barrier) (b2z false) ;;
  match attr with
  | Some a => if truthy (Z.land a 1) then atomic_store (b_pshared barrier) (b2z true) ;; Ret 0 else Ret 0
  | None => Ret 0
  end.

(** [while (atomic_load(&barrier->state) == v) __futex_wait_ex(&barrier->state, ..., v, ...)] *)
Definition barrier_sleep_while (barrier : nat) (v : Z) : prog unit :=
  loop (fun _ : unit =>
    s <- atomic_load (b_state barrier) ;;
    if s =? v then
      pshared <- atomic_load (b_pshared barrier) ;;
      __futex_wait_ex (b_state barrier) (truthy pshared) v false None ;;
      Ret (inl tt)
    else Ret (inr tt)) tt.

(** The compare-and-swap loop that counts the caller in: [None] is [return EINVAL]. *)
Definition barrier_enter (barrier : nat) : prog (option Z) :=
  prev_wait_count <- atomic_load (wait_count barrier) ;;
  loop (fun prev_wait_count : Z =>
    count <- atomic_load (init_count barrier) ;;
    if count <=? prev_wait_count then Ret (inr None) else
    let2 ok, seen <- atomic_compare_exchange_weak (wait_count barrier) prev_wait_count
                       (wrapU 32 (prev_wait_count + 1)) ;;
    Ret (if (ok : bool) then inr (Some prev_wait_count) else inl seen)) prev_wait_count.

(** The last thread to arrive opens the barrier, the others wait for it; the result of the call. *)
Definition barrier_pass (barrier : nat) (prev_wait_count : Z) : prog Z :=
  count <- atomic_load (init_count barrier) ;;
  if wrapU 32 (prev_wait_count + 1) =? count then
    if negb (prev_wait_count =? 0) then
      atomic_store (b_state barrier) RELEASE ;;
      pshared <- atomic_load (b_pshared barrier) ;;
      __futex_wake_ex (b_state barrier) (truthy pshared) (wrapS 32 prev_wait_count) ;;
      Ret PTHREAD_BARRIER_SERIAL_THREAD
    else Ret PTHREAD_BARRIER_SERIAL_THREAD
  else
    barrier_sleep_while barrier WAIT ;; Ret 0.

(** The last thread to leave closes the barrier. *)
Definition barrier_leave (barrier : nat) : prog unit :=
  old <- atomic_fetch_sub 32 (wait_count barrier) 1 ;;
  if old =? 1 then
    atomic_store (b_state barrier) WAIT ;;
    pshared <- atomic_load (b_pshared barrier) ;;
    count <- atomic_load (init_count barrier) ;;
    __futex_wake_ex (b_state barrier) (truthy pshared) (wrapS 32 count) ;;
    Ret tt
  else Ret tt.

Definition pthread_barrier_wait (barrier : nat) : prog Z :=
  barrier_sleep_while barrier RELEASE ;;
  entered <- barrier_enter barrier ;;
  match entered with
  | None => Ret EINVAL
  | Some prev_wait_count =>
      result <- barrier_pass barrier prev_wait_count ;;
      barrier_leave barrier ;;
      Ret result
  end.

Definition pthread_barrier_destroy (barrier : nat) : prog Z :=
  count <- atomic_load (init_count barrier) ;;
  if count =? 0 then Ret EINVAL else
  barrier_sleep_while barrier RELEASE ;;
  w <- atomic_load (wait_count barrier) ;;
  if negb (w =? 0) then Ret EBUSY else
  atomic_store (init_count barrier) 0 ;;
  Ret 0.

(** * The invariant *)

(** Where a thread is; the flag says whether it is the serial thread of its round. *)
Inductive bphase :=
| BOut                    (* not in the call *)
| BCalled                 (* arrived, has not seen the barrier closed *)
| BQueuedOut              (* sleeps until the previous round is over *)
| BReady                  (* has seen the barrier closed *)
| BEntered                (* counted in *)
| BQueuedIn               (* sleeps until the barrier opens *)
| BLast                   (* counted in as the last *)
| BLastWake               (* opened the barrier, about to wake the others *)
| BLeaving (serial : bool)    (* on its way out *)
| BCloser (serial : bool)     (* counted out as the last *)
| BCloserWake (serial : bool) (* closed the barrier, about to wake the others *)
| BDone (serial : bool).      (* counted out *)

Definition is_inside (φ : bphase) : bool :=
  match φ with BEntered | BQueuedIn | BLast | BLastWake | BLeaving _ => true | _ => false end.
Definition is_incall (φ : bphase) : bool := match φ with BOut => false | _ => true end.
Definition is_after (φ : bphase) : bool :=
  match φ with BCloser _ | BCloserWake _ | BDone _ => true | _ => false end.
Definition is_serial (φ : bphase) : bool :=
  match φ with
  | BLast | BLastWake => true
  | BLeaving s | BCloser s | BCloserWake s | BDone s => s
  | _ => false
  end.
Definition is_last (φ : bphase) : bool := match φ with BLast => true | _ => false end.
Definition is_closer (φ : bphase) : bool := match φ with BCloser _ => true | _ => false end.
Definition is_lastwake (φ : bphase) : bool := match φ with BLastWake => true | _ => false end.
Definition is_closerwake (φ : bphase) : bool := match φ with BCloserWake _ => true | _ => false end.
Definition is_bqueued (φ : bphase) : bool := match φ with BQueuedIn | BQueuedOut => true | _ => false end.
Definition is_bqueuedin (φ : bphase) : bool := match φ with BQueuedIn => true | _ => false end.

(** The stages of a round: threads enter; all are in and the barrier is not open yet; threads
    leave; all are out and the barrier is not closed yet. *)
Inductive stage := Fill | Full | Open | Empty.

Definition filling (st : stage) : bool := match st with Fill | Full => true | _ => false end.
Definition starting (st : stage) : bool := match st with Fill => true | _ => false end.

(** The phases a thread can be in. *)
Definition allowed (st : stage) (φ : bphase) : bool :=
  match st with
  | Fill => match φ with BLast | BLastWake | BLeaving _ | BCloser _ => false | _ => true end
  | Full => match φ with BEntered | BQueuedIn | BLast => true | _ => false end
  | Open => match φ with BLast | BReady | BCloser _ | BCloserWake _ => false | _ => true end
  | Empty => match φ with BReady | BCloserWake _ => false | _ => negb (is_inside φ) end
  end.

(** The rounds the thread has been counted out of, in round [r]. *)
Definition rounds_out (r : Z) (st : stage) (φ : bphase) : Z :=
  if is_inside φ || filling st then r else r + 1.

Definition arrived (t : nat) : loc := (t, "arrived").
Definition left (t : nat) : loc := (t, "left").

Section barrier.
Context {K : FutexKernel} (b : nat) (sh : bool) (n : Z) (Hn : 1 <= n <= INT_MAX).

Definition serial : loc := (b, "serial").
Definition errors : loc := (b, "errors").
Abbreviation state := (b_state b).

Definition stage_word (st : stage) : Z :=
  match st with Fill | Full => 0 | Open => 1 | Empty => if n =? 1 then 0 else 1 end.

Definition stage_counts (st : stage) (g : list bphase) : Prop :=
  match st with
  | Fill => cnt is_inside g < n
  | Full => cnt is_last g = 1
  | Open => 1 <= cnt is_inside g /\ n <> 1
  | Empty => cnt is_closer g = 1
  end.

Record binv (r : Z) (st : stage) (m : mem) (g : list bphase) : Prop := mk_binv {
  bi_init : word m (init_count b) = n;
  bi_pshared : word m (b_pshared b) = b2z sh;
  bi_len : Z.of_nat (length g) = n;
  bi_state : word m state = stage_word st;
  bi_count : word m (wait_count b) = cnt is_inside g;
  bi_allowed : forall t φ, g !! t = Some φ -> allowed st φ = true;
  bi_stage : stage_counts st g;
  bi_left : forall t φ, g !! t = Some φ -> word m (left t) = rounds_out r st φ - b2z (is_after φ);
  bi_arrived : forall t φ, g !! t = Some φ -> word m (arrived t) = word m (left t) + b2z (is_incall φ);
  bi_serial : word m serial + cnt is_serial g = r + b2z (negb (starting st));
  bi_queue : wait_queue state sh is_bqueued (fun _ => false) True m g;
  bi_in : forall t, t ∈ waiters m state sh -> g !! t = Some BQueuedIn ->
    filling st = true \/ 1 <= cnt is_lastwake g;
  bi_out : forall t, t ∈ waiters m state sh -> g !! t = Some BQueuedOut ->
    filling st = false \/ 1 <= cnt is_closerwake g;
  bi_errors : word m errors = 0;
  bi_others : forall l' sh', (l', sh') <> (state, sh) -> waiters m l' sh' = []
}.

Definition BInv (m : mem) (g : list bphase) : Prop := exists r st, binv r st m g.

#[export] Instance BInv_proper : Proper (mem_equiv ==> eq ==> iff) BInv.
Proof using Type.
  assert (forall m m' g, mem_equiv m m' -> BInv m g -> BInv m' g) as H.
  { intros m m' g [Hw Hq] (r & st & []). exists r, st. split; intros; rewrite <- ?Hw, <- ?Hq in *; eauto.
    by apply wq_equiv with m. }
  intros m m' He g ? <-. split; apply H; [done|by symmetry].
Qed.

(** A step that leaves the queue alone. *)
Lemma binv_step r st m g t φ φ' r' st' m' :
  binv r st m g -> g !! t = Some φ -> is_bqueued φ = false -> waiters m' = waiters m ->
  word m' (init_count b) = word m (init_count b) -> word m' (b_pshared b) = word m (b_pshared b) ->
  word m' errors = word m errors ->
  word m' state = stage_word st' ->
  word m' (wait_count b) = word m (wait_count b) + b2z (is_inside φ') - b2z (is_inside φ) ->
  allowed st' φ' = true ->
  (forall t1 φ1, t1 <> t -> g !! t1 = Some φ1 ->
     allowed st' φ1 = true /\ rounds_out r' st' φ1 = rounds_out r st φ1) ->
  stage_counts st' (<[t:=φ']> g) ->
  (forall t1, t1 <> t -> word m' (left t1) = word m (left t1) /\ word m' (arrived t1) = word m (arrived t1)) ->
  word m' (left t) = rounds_out r' st' φ' - b2z (is_after φ') ->
  word m' (arrived t) = word m' (left t) + b2z (is_incall φ') ->
  word m' serial - word m serial + b2z (is_serial φ') - b2z (is_serial φ)
    = r' - r + b2z (negb (starting st')) - b2z (negb (starting st)) ->
  (forall t1, t1 <> t -> g !! t1 = Some BQueuedIn -> filling st = true ->
     filling st' = true \/ is_lastwake φ' = true) ->
  (is_lastwake φ = true -> is_lastwake φ' = true) ->
  (filling st = false -> filling st' = false \/ is_closerwake φ' = true) ->
  (is_closerwake φ = true -> is_closerwake φ' = true) ->
  binv r' st' m' (<[t:=φ']> g).
Proof using All.
  intros [] Hg Hq Ew E1 E2 E0 E3 E4 A A' C W L R S I1 I2 O1 O2.
  pose proof (wq_not_queued _ _ _ _ _ _ _ _ _ bi_queue0 Hg Hq) as Hni.
  split; rewrite ?(cnt_insert _ _ _ _ _ Hg), ?length_insert, ?Ew; try done; try congruence; try lia.
  - eapply insert_all; [done..|]. intros t1 φ1 Hne H1. by destruct (A' t1 φ1 Hne H1).
  - eapply insert_all; [done..|]. intros t1 φ1 Hne H1. destruct (W t1 Hne) as [-> _], (A' t1 φ1 Hne H1) as [_ ->]. auto.
  - eapply insert_all; [done..|]. intros t1 φ1 Hne H1. destruct (W t1 Hne) as [-> ->]. auto.
  - eapply wq_step with (1 := bi_queue0) (2 := Hg); try done; [by rewrite Ew|by left].
  - intros t1 Hin Hg1. rewrite list_lookup_insert_ne in Hg1 by (by intros ->).
    destruct (bi_in0 t1 Hin Hg1) as [Hf|Hc]; [|right; rewrite <- (cnt_insert _ _ _ _ _ Hg); by eapply cnt_kept].
    destruct (I1 t1 ltac:(by intros ->) Hg1 Hf); [by left|right]. rewrite <- (cnt_insert _ _ _ _ _ Hg). by eapply cnt_made.
  - intros t1 Hin Hg1. rewrite list_lookup_insert_ne in Hg1 by (by intros ->).
    destruct (bi_out0 t1 Hin Hg1) as [Hf|Hc]; [|right; rewrite <- (cnt_insert _ _ _ _ _ Hg); by eapply cnt_kept].
    destruct (O1 Hf); [by left|right]. rewrite <- (cnt_insert _ _ _ _ _ Hg). by eapply cnt_made.
Qed.

(** The queue changes; to the rest of the invariant the two phases of the thread are the same. *)
Lemma binv_queue r st m g t φ φ' q :
  binv r st m g -> g !! t = Some φ ->
  (is_inside φ', is_incall φ', is_after φ', is_serial φ', is_last φ', is_closer φ')
    = (is_inside φ, is_incall φ, is_after φ, is_serial φ, is_last φ, is_closer φ) ->
  (allowed st φ = true -> allowed st φ' = true) ->
  wait_queue state sh is_bqueued (fun _ => false) True (set_waiters m state sh q) (<[t:=φ']> g) ->
  (forall t', t' ∈ q -> t' <> t /\ t' ∈ waiters m state sh \/
     t' = t /\ (φ' = BQueuedIn /\ filling st = true \/ φ' = BQueuedOut /\ filling st = false)) ->
  q = [] \/ is_lastwake φ = false /\ is_closerwake φ = false ->
  binv r st (set_waiters m state sh q) (<[t:=φ']> g).
Proof using All.
  intros HI Hg [= E1 E2 E3 E4 E5 E6] A Hq Hin Hw. destruct HI.
  split; rewrite ?(cnt_insert _ _ _ _ _ Hg), ?length_insert, ?waiters_set_waiters_eq, ?E1, ?E4; simpl; try done; try lia.
  - eapply insert_all; eauto.
  - destruct st; simpl in *; rewrite ?(cnt_insert _ _ _ _ _ Hg), ?E1, ?E5, ?E6; lia.
  - eapply insert_all; [done| |auto]. unfold rounds_out. rewrite E1, E3. by apply bi_left0.
  - eapply insert_all; [done| |auto]. rewrite E2. by apply bi_arrived0.
  - intros t' Ht' Hg'. destruct (Hin t' Ht') as [[Hne Hin']|[-> H]].
    + rewrite list_lookup_insert_ne in Hg' by done. destruct (bi_in0 t' Hin' Hg') as [?|Hc]; [by left|right].
      destruct Hw as [->|[Hw _]]; [by apply not_elem_of_nil in Ht'|]. rewrite Hw. destruct (is_lastwake φ'); simpl; lia.
    + rewrite list_lookup_insert_eq in Hg' by (by eapply lookup_lt_Some).
      injection Hg' as ->. left. by destruct H as [[? ?]|[? ?]].
  - intros t' Ht' Hg'. destruct (Hin t' Ht') as [[Hne Hin']|[-> H]].
    + rewrite list_lookup_insert_ne in Hg' by done. destruct (bi_out0 t' Hin' Hg') as [?|Hc]; [by left|right].
      destruct Hw as [->|[_ Hw]]; [by apply not_elem_of_nil in Ht'|]. rewrite Hw. destruct (is_closerwake φ'); simpl; lia.
    + rewrite list_lookup_insert_eq in Hg' by (by eapply lookup_lt_Some).
      injection Hg' as ->. left. by destruct H as [[? ?]|[? ?]].
  - intros l' sh' Hne. rewrite decide_False by (intros [-> ->]; done). auto.
Qed.

(** A step that changes only the phase of a thread. *)
Lemma binv_phase r st m g t φ φ' :
  binv r st m g -> g !! t = Some φ -> is_bqueued φ = false ->
  (is_inside φ', is_incall φ', is_after φ', is_serial φ', is_last φ', is_closer φ', is_lastwake φ', is_closerwake φ')
    = (is_inside φ, is_incall φ, is_after φ, is_serial φ, is_last φ, is_closer φ, is_lastwake φ, is_closerwake φ) ->
  allowed st φ' = true ->
  binv r st m (<[t:=φ']> g).
Proof using All.
  intros HI Hg Hq [= E1 E2 E3 E4 E5 E6 E7 E8] A.
  apply (binv_step r st m g t φ); try done; rewrite ?E1, ?E2, ?E3, ?E4, ?E7, ?E8; try done; try lia; auto.
  - by destruct HI.
  - split; [by apply (bi_allowed r st m g HI t1)|done].
  - destruct HI, st; simpl in *; rewrite ?(cnt_insert _ _ _ _ _ Hg), ?E1, ?E5, ?E6; lia.
  - unfold rounds_out. rewrite E1. by apply (bi_left r st m g HI).
  - by apply (bi_arrived r st m g HI).
Qed.

(** * The routines *)

Ltac here :=
  rewrite ?word_set_word_eq, ?word_set_word_ne
    by (unfold init_count, b_state, wait_count, b_pshared, left, arrived, serial, errors; congruence).

Lemma wp_binit t (Q : Z -> bphase -> Prop) φ : Q n φ -> wp BInv (atomic_load (init_count b)) t Q φ.
Proof using All.
  intros HQ. apply (wp_load BInv). intros m g HI Hg. exists φ. rewrite list_insert_id by done.
  split; [done|]. destruct HI as (r & st & []). by rewrite bi_init0.
Qed.

Lemma wp_bpshared t (Q : Z -> bphase -> Prop) φ : Q (b2z sh) φ -> wp BInv (atomic_load (b_pshared b)) t Q φ.
Proof using All.
  intros HQ. apply (wp_load BInv). intros m g HI Hg. exists φ. rewrite list_insert_id by done.
  split; [done|]. destruct HI as (r & st & []). by rewrite bi_pshared0.
Qed.

(** In the stage [Empty] of a barrier for one thread that thread closes the barrier. *)
Lemma empty_alone r m g t φ : binv r Empty m g -> n = 1 -> g !! t = Some φ -> is_closer φ = true.
Proof using All.
  intros HI H1 Hg. pose proof (bi_stage r Empty m g HI) as Hs. pose proof (bi_len r Empty m g HI) as Hl.
  apply (cnt_all is_closer g t φ); [|done]. simpl in Hs. lia.
Qed.

Lemma wp_barrier_futex t v φ φq (Q : Z -> bphase -> Prop) :
  v = 1 /\ φ = BCalled /\ φq = BQueuedOut \/ v = 0 /\ φ = BEntered /\ φq = BQueuedIn ->
  (forall x, Q x φ) -> wp BInv (__futex_wait_ex state sh v false None) t Q φ.
Proof using All.
  intros Hv HQ.
  assert (is_bqueued φ = false /\ is_bqueued φq = true /\ is_lastwake φq = false /\ is_closerwake φq = false /\
    is_lastwake φ = false /\ is_closerwake φ = false /\ (forall st, allowed st φ = allowed st φq) /\
    (is_inside φ, is_incall φ, is_after φ, is_serial φ, is_last φ, is_closer φ)
      = (is_inside φq, is_incall φq, is_after φq, is_serial φq, is_last φq, is_closer φq))
    as (N1 & N2 & N3 & N4 & N5 & N6 & N7 & N8)
    by (destruct Hv as [(-> & -> & ->)|(-> & -> & ->)]; repeat split; by intros []).
  apply (wp_futex_wait_ex BInv _ _ _ _ _ _ _ φ φq φ φ); auto.
  - intros m g q (r & st & HI) Hg Hw Hq. exists r, st. pose proof (bi_state r st m g HI) as Hs. rewrite Hw in Hs.
    pose proof (bi_allowed r st m g HI t φ Hg) as A. apply (binv_queue r st m g t φ); auto.
    + rewrite N7. done.
    + by apply wq_enqueue with (1 := bi_queue r st m g HI) (2 := Hg).
    + pose proof (wq_not_queued _ _ _ _ _ _ _ _ _ (bi_queue r st m g HI) Hg N1) as Hni.
      intros t'. rewrite Hq, elem_of_cons. intros [->|Hin]; [right|left; split; [by intros ->|done]]. split; [done|].
      destruct Hv as [(-> & -> & ->)|(-> & -> & ->)], st; auto; simpl in *; congruence.
  - intros m g (r & st & HI) Hg Hni. split; [|auto]. rewrite (mem_equiv_same_waiters m state sh). exists r, st.
    apply (binv_queue r st m g t φq); auto.
    + rewrite N7. done.
    + by apply wq_shrink with (1 := bi_queue r st m g HI) (2 := Hg).
    + intros t' Hin. left. split; [by intros ->|done].
  - intros m g (r & st & HI) Hg Hin. split; [|split; [done|by intros [? [=]]]]. exists r, st.
    apply (binv_queue r st m g t φq); auto.
    + rewrite N7. done.
    + by apply wq_giveup with (1 := bi_queue r st m g HI) (2 := Hg).
    + intros t' [Hne Hin']%list_elem_of_filter. by left.
Qed.

(** The loops that sleep while the state is [v]: the thread goes from [φ] to [φ'] when it reads
    the other value. *)
Lemma wp_sleep_while t v φ φ' :
  v = RELEASE /\ φ = BCalled /\ φ' = BReady \/ v = WAIT /\ φ = BEntered /\ φ' = BLeaving false ->
  wp BInv (barrier_sleep_while b v) t (fun _ φ1 => φ1 = φ') φ.
Proof using All.
  intros Hv. apply (wp_loop BInv (fun _ φ1 => φ1 = φ)); [done|]. intros _ φ1 ->.
  apply wp_bind, (wp_load BInv). intros m g (r & st & HI) Hg. pose proof (bi_state r st m g HI) as Hs.
  pose proof (bi_allowed r st m g HI t φ Hg) as A. rewrite Hs.
  destruct (Z.eqb_spec (stage_word st) v) as [E|E].
  - exists φ. rewrite list_insert_id by done. split; [by exists r, st|].
    apply wp_bind, wp_bpshared. rewrite truthy_b2z. apply wp_bind.
    apply (wp_barrier_futex t v φ (if v =? 1 then BQueuedOut else BQueuedIn)); [|intros; by apply wp_ret].
    destruct Hv as [(-> & -> & ->)|(-> & -> & ->)]; auto.
  - exists φ'. split; [|by apply wp_ret]. exists r, st. apply (binv_phase r st m g t φ); try done.
    + by destruct Hv as [(-> & -> & ->)|(-> & -> & ->)].
    + by destruct Hv as [(-> & -> & ->)|(-> & -> & ->)].
    + destruct Hv as [(-> & -> & ->)|(-> & -> & ->)], st; try done.
      simpl in E. destruct (Z.eqb_spec n 1) as [E1|E1]; [|done].
      pose proof (empty_alone r m g t _ HI E1 Hg). done.
Qed.

Lemma ready_fill r st m g t : binv r st m g -> g !! t = Some BReady -> st = Fill.
Proof using All. intros HI Hg. pose proof (bi_allowed r st m g HI t _ Hg). by destruct st. Qed.

Lemma count_range r m g :
  binv r Fill m g -> 0 <= word m (wait_count b) < n.
Proof using All.
  intros HI. pose proof (bi_stage r Fill m g HI) as Hs. simpl in Hs. rewrite (bi_count r Fill m g HI).
  pose proof (cnt_nonneg is_inside g). lia.
Qed.

(** The phase of a thread that found [prev] threads inside. *)
Definition entering (prev : Z) : bphase := if prev + 1 =? n then BLast else BEntered.

Lemma binv_enter r m g t :
  binv r Fill m g -> g !! t = Some BReady ->
  let prev := word m (wait_count b) in
  binv r (if prev + 1 =? n then Full else Fill) (set_word m (wait_count b) (wrapU 32 (prev + 1)))
    (<[t:=entering prev]> g).
Proof using All.
  intros HI Hg prev. pose proof (count_range r m g HI) as Hp. fold prev in Hp.
  pose proof (bi_count r Fill m g HI) as Hc. fold prev in Hc.
  pose proof (bi_left r Fill m g HI t _ Hg) as HL. pose proof (bi_arrived r Fill m g HI t _ Hg) as HA.
  assert (wrapU 32 (prev + 1) = prev + 1) as -> by (unfold wrapU, INT_MAX in *; apply Z.mod_small; lia).
  assert (cnt is_inside (<[t:=entering prev]> g) = prev + 1) as Hc'.
  { rewrite (cnt_insert _ _ _ _ _ Hg). unfold entering. destruct (prev + 1 =? n); simpl; lia. }
  apply (binv_step r Fill m g t BReady); try done; here; try done; try (by intros t1 Hne; here); fold prev;
    unfold entering in *; destruct (Z.eqb_spec (prev + 1) n) as [E|E]; simpl in *; try done; try lia.
  - by rewrite (bi_state r Fill m g HI).
  - by rewrite (bi_state r Fill m g HI).
  - intros t1 φ1 Hne H1. pose proof (bi_allowed r Fill m g HI t1 φ1 H1) as A.
    assert (is_inside φ1 = true) as Hin.
    { apply (cnt_all is_inside (<[t:=BLast]> g) t1); [|by rewrite list_lookup_insert_ne].
      rewrite length_insert, (bi_len r Fill m g HI). lia. }
    by destruct φ1.
  - intros t1 φ1 Hne H1. split; [by apply (bi_allowed r Fill m g HI t1)|done].
  - rewrite (cnt_insert _ _ _ _ _ Hg), (cnt_zero is_last g); [done|].
    intros t1 φ1 H1. pose proof (bi_allowed r Fill m g HI t1 φ1 H1). by destruct φ1.
Qed.

Lemma wp_enter t :
  wp BInv (barrier_enter b) t
    (fun r φ => exists prev, r = Some prev /\ 0 <= prev < n /\ φ = entering prev) BReady.
Proof using All.
  apply wp_bind, (wp_load BInv). intros m g (r & st & HI) Hg.
  pose proof (ready_fill r st m g t HI Hg) as ->. exists BReady. rewrite list_insert_id by done.
  split; [by exists r, Fill|].
  apply (wp_loop BInv (fun prev φ => 0 <= prev < n /\ φ = BReady)); [split; [by eapply count_range|done]|].
  clear m g r HI Hg. intros prev φ [Hp ->]. apply wp_bind, wp_binit.
  rewrite (proj2 (Z.leb_gt n prev)) by lia. apply wp_bind, wp_act.
  intros m g (r & st & HI) Hg [ok seen] m' [E H']. simpl in E, H'. subst seen.
  pose proof (ready_fill r st m g t HI Hg) as ->. destruct H' as [(-> & Hw & ->)|(-> & _ & ->)].
  - exists (entering prev). split; [|apply wp_ret; by exists prev]. rewrite <- Hw. eexists _, _. by apply binv_enter.
  - exists BReady. rewrite list_insert_id by done. split; [by exists r, Fill|]. apply wp_ret.
    split; [by eapply count_range|done].
Qed.

(** The last thread opens the barrier. *)
Lemma wp_open t :
  n <> 1 -> wp BInv (atomic_store state RELEASE) t (fun _ φ => φ = BLastWake) BLast.
Proof using All.
  intros H1. apply (wp_store BInv). intros m g (r & st & HI) Hg. exists BLastWake. split; [|done].
  assert (st = Full) as -> by (pose proof (bi_allowed r st m g HI t _ Hg); by destruct st).
  pose proof (bi_left r Full m g HI t _ Hg) as HL. pose proof (bi_arrived r Full m g HI t _ Hg) as HA.
  pose proof (bi_stage r Full m g HI) as Hs. exists r, Open.
  apply (binv_step r Full m g t BLast); try done; here; try (by intros t1 Hne; here); simpl in *; try done; try lia; auto.
  - intros t1 φ1 Hne Hg1. pose proof (bi_allowed r Full m g HI t1 φ1 Hg1) as A.
    destruct φ1; try done. destruct Hne. by apply (cnt_two is_last g t1 t BLast BLast); try lia.
  - split; [|done]. by eapply cnt_made.
Qed.

(** Whoever opened or closed the barrier wakes everybody. *)
Lemma wp_barrier_wake t k φ φ' (Q : Z -> bphase -> Prop) :
  φ = BLastWake /\ φ' = BLeaving true \/ (exists s, φ = BCloserWake s /\ φ' = BDone s) ->
  n - 1 <= k <= INT_MAX -> (forall x, Q x φ') -> wp BInv (__futex_wake_ex state sh k) t Q φ.
Proof using All.
  intros Hφ Hk HQ. apply (wp_futex_wake_ex BInv _ _ _ _ _ φ φ'); [lia| |done].
  intros m g q (r & st & HI) Hg Hsub Hlen. exists r, st.
  assert (wait_queue state sh is_bqueued (λ _ : bphase, false) True (set_waiters m state sh q) (<[t:=φ']> g)) as Hq.
  { apply wq_wake_all with (1 := bi_queue r st m g HI) (2 := Hg) (5 := Hlen).
    - by destruct Hφ as [[-> ->]|(s & -> & ->)].
    - rewrite (bi_len r st m g HI). lia. }
  assert (q = []) as ->.
  { destruct q as [|t' q]; [done|]. exfalso.
    destruct (wq_wake_all state sh is_bqueued (fun _ => false) True False m g t φ φ' k (t' :: q) (bi_queue r st m g HI) Hg)
      as [_ _ Hw]; [by destruct Hφ as [[-> ->]|(s & -> & ->)]|rewrite (bi_len r st m g HI); lia|done|].
    rewrite waiters_set_waiters_eq in Hw. destruct (Hw ltac:(done)) as [[]|Hc].
    rewrite (cnt_zero (fun _ => false)) in Hc; [lia|done]. }
  apply (binv_queue r st m g t φ); auto.
  - by destruct Hφ as [[-> ->]|(s & -> & ->)].
  - destruct Hφ as [[-> ->]|(s & -> & ->)], st; done.
  - intros t' Hin. by apply not_elem_of_nil in Hin.
Qed.

Lemma wp_pass t prev :
  0 <= prev < n ->
  wp BInv (barrier_pass b prev) t
    (fun r φ => exists s, r = (if (s : bool) then PTHREAD_BARRIER_SERIAL_THREAD else 0) /\
       (φ = BLeaving s \/ s = true /\ n = 1 /\ φ = BLast)) (entering prev).
Proof using All.
  intros Hp. apply wp_bind, wp_binit.
  assert (wrapU 32 (prev + 1) = prev + 1) as -> by (unfold wrapU, INT_MAX in *; apply Z.mod_small; lia).
  unfold entering. destruct (Z.eqb_spec (prev + 1) n) as [E|E].
  - destruct (Z.eqb_spec prev 0) as [E0|E0]; simpl negb; cbv iota.
    { apply wp_ret. exists true. split; [done|right]. repeat split. lia. }
    apply wp_bind. apply wp_mono with (2 := wp_open t ltac:(lia)). intros _ φ ->.
    apply wp_bind, wp_bpshared. rewrite truthy_b2z. apply wp_bind.
    assert (wrapS 32 prev = prev) as ->.
    { unfold wrapS, INT_MAX in *. change (2 ^ 32) with 4294967296. change (2 ^ (32 - 1)) with 2147483648.
      rewrite Z.mod_small; lia. }
    apply (wp_barrier_wake t _ BLastWake (BLeaving true)); [auto|lia|]. intros _. apply wp_ret. exists true. auto.
  - apply wp_bind, wp_mono with (2 := wp_sleep_while t WAIT BEntered (BLeaving false) ltac:(auto)).
    intros _ φ ->. apply wp_ret. exists false. auto.
Qed.

Lemma count_sub r st m g t φ :
  binv r st m g -> g !! t = Some φ -> is_inside φ = true ->
  1 <= word m (wait_count b) /\ wrapU 32 (word m (wait_count b) - 1) = word m (wait_count b) - 1.
Proof using All.
  intros HI Hg Hin. rewrite (bi_count r st m g HI). pose proof (cnt_lookup is_inside g t φ Hg Hin).
  pose proof (cnt_bound is_inside g) as Hb. rewrite (bi_len r st m g HI) in Hb.
  split; [done|]. unfold wrapU, INT_MAX in *. apply Z.mod_small. lia.
Qed.

(** A thread is counted out. *)
Lemma binv_leave r m g t s :
  binv r Open m g -> g !! t = Some (BLeaving s) ->
  let c := word m (wait_count b) in
  binv r (if c =? 1 then Empty else Open) (set_word m (wait_count b) (c - 1))
    (<[t:=if c =? 1 then BCloser s else BDone s]> g).
Proof using All.
  intros HI Hg c. pose proof (bi_count r Open m g HI) as Hc. fold c in Hc.
  pose proof (bi_left r Open m g HI t _ Hg) as HL. pose proof (bi_arrived r Open m g HI t _ Hg) as HA.
  pose proof (bi_stage r Open m g HI) as [Hs1 Hs2].
  apply (binv_step r Open m g t (BLeaving s)); try done; here; try done; try (by intros t1 Hne; here); fold c;
    destruct (Z.eqb_spec c 1) as [E|E]; simpl in *; try done; try lia; auto.
  - rewrite (bi_state r Open m g HI). simpl. by rewrite (proj2 (Z.eqb_neq n 1)).
  - by rewrite (bi_state r Open m g HI).
  - intros t1 φ1 Hne H1. pose proof (bi_allowed r Open m g HI t1 φ1 H1) as A.
    destruct (is_inside φ1) eqn:Ein.
    { destruct Hne. by apply (cnt_two is_inside g t1 t φ1 (BLeaving s)); try lia. }
    split; [by destruct φ1|]. unfold rounds_out. by rewrite Ein.
  - intros t1 φ1 Hne H1. split; [by apply (bi_allowed r Open m g HI t1)|done].
  - rewrite (cnt_insert _ _ _ _ _ Hg), (cnt_zero is_closer g); [done|].
    intros t1 φ1 H1. pose proof (bi_allowed r Open m g HI t1 φ1 H1). by destruct φ1.
  - rewrite (cnt_insert _ _ _ _ _ Hg). simpl. lia.
  - unfold rounds_out in *. simpl in *. lia.
  - unfold rounds_out in *. simpl in *. lia.
Qed.

(** The only thread of a barrier for one is counted out without opening the barrier. *)
Lemma binv_leave_alone r m g t :
  binv r Full m g -> g !! t = Some BLast -> n = 1 ->
  word m (wait_count b) = 1 /\ binv r Empty (set_word m (wait_count b) 0) (<[t:=BCloser true]> g).
Proof using All.
  intros HI Hg H1. pose proof (bi_count r Full m g HI) as Hc. pose proof (bi_len r Full m g HI) as Hlen.
  pose proof (bi_left r Full m g HI t _ Hg) as HL. pose proof (bi_arrived r Full m g HI t _ Hg) as HA.
  pose proof (cnt_bound is_inside g). pose proof (cnt_lookup is_inside g t _ Hg eq_refl).
  assert (t = 0%nat) as -> by (apply lookup_lt_Some in Hg; lia).
  assert (forall t1 φ1, t1 <> 0%nat -> g !! t1 = Some φ1 -> False) as Halone.
  { intros t1 φ1 Hne Ht1%lookup_lt_Some. lia. }
  split; [lia|]. apply (binv_step r Full m g 0 BLast); try done; here; try done; try (by intros t1 Hne; here);
    simpl in *; try done; try lia; auto.
  - rewrite (bi_state r Full m g HI), H1. done.
  - intros t1 φ1 Hne Hg1. by destruct (Halone t1 φ1 Hne Hg1).
  - rewrite (cnt_insert _ _ _ _ _ Hg), (cnt_zero is_closer g); [done|].
    intros t1 φ1 Hg1. pose proof (bi_allowed r Full m g HI t1 φ1 Hg1). by destruct φ1.
  - unfold rounds_out in *. simpl in *. lia.
  - intros t1 Hne Hg1. by destruct (Halone t1 _ Hne Hg1).
Qed.

(** The last thread to leave closes the barrier and the next round begins. *)
Lemma wp_close t s : wp BInv (atomic_store state WAIT) t (fun _ φ => φ = BCloserWake s) (BCloser s).
Proof using All.
  apply (wp_store BInv). intros m g (r & st & HI) Hg. exists (BCloserWake s). split; [|done].
  assert (st = Empty) as -> by (pose proof (bi_allowed r st m g HI t _ Hg); by destruct st).
  pose proof (bi_left r Empty m g HI t _ Hg) as HL. pose proof (bi_arrived r Empty m g HI t _ Hg) as HA.
  pose proof (bi_stage r Empty m g HI) as Hs. exists (r + 1), Fill.
  apply (binv_step r Empty m g t (BCloser s)); try done; here; try (by intros t1 Hne; here); simpl in *;
    unfold rounds_out in *; simpl in *; try done; try lia; auto.
  - intros t1 φ1 Hne Hg1. pose proof (bi_allowed r Empty m g HI t1 φ1 Hg1) as A.
    destruct φ1; try done. destruct Hne. by apply (cnt_two is_closer g t1 t (BCloser serial0) (BCloser s)); try lia.
  - rewrite (cnt_insert _ _ _ _ _ Hg), (cnt_zero is_inside g); [simpl; lia|].
    intros t1 φ1 H1. pose proof (bi_allowed r Empty m g HI t1 φ1 H1). by destruct φ1.
Qed.

Lemma wp_leave t s φ :
  φ = BLeaving s \/ s = true /\ n = 1 /\ φ = BLast ->
  wp BInv (barrier_leave b) t (fun _ φ' => φ' = BDone s) φ.
Proof using All.
  intros Hφ. apply wp_bind, wp_act. intros m g (r & st & HI) Hg x m' [-> ->].
  assert (is_inside φ = true) as Hin by (by destruct Hφ as [->|(_ & _ & ->)]).
  destruct (count_sub r st m g t φ HI Hg Hin) as [Hc ->].
  assert (wp BInv (atomic_store state WAIT ;; pshared <- atomic_load (b_pshared b) ;;
    count <- atomic_load (init_count b) ;; __futex_wake_ex state (truthy pshared) (wrapS 32 count) ;; Ret tt) t
    (fun _ φ' => φ' = BDone s) (BCloser s)) as Hclose.
  { apply wp_bind. apply wp_mono with (2 := wp_close t s). intros _ φ1 ->.
    apply wp_bind, wp_bpshared. rewrite truthy_b2z. apply wp_bind, wp_binit, wp_bind.
    assert (wrapS 32 n = n) as ->.
    { unfold wrapS, INT_MAX in *. change (2 ^ 32) with 4294967296. change (2 ^ (32 - 1)) with 2147483648.
      rewrite Z.mod_small; lia. }
    apply (wp_barrier_wake t n (BCloserWake s) (BDone s)); [eauto|lia|]. intros _. by apply wp_ret. }
  destruct Hφ as [->|(-> & H1 & ->)].
  - assert (st = Open) as -> by (pose proof (bi_allowed r st m g HI t _ Hg); by destruct st).
    exists (if word m (wait_count b) =? 1 then BCloser s else BDone s).
    split; [eexists _, _; by apply binv_leave|]. destruct (word m (wait_count b) =? 1); [done|by apply wp_ret].
  - assert (st = Full) as -> by (pose proof (bi_allowed r st m g HI t _ Hg); by destruct st).
    destruct (binv_leave_alone r m g t HI Hg H1) as [-> HI']. exists (BCloser true). split; [by eexists _, _|done].
Qed.

Lemma wp_barrier_wait t :
  wp BInv (pthread_barrier_wait b) t
    (fun r φ => exists s, r = (if (s : bool) then PTHREAD_BARRIER_SERIAL_THREAD else 0) /\ φ = BDone s) BCalled.
Proof using All.
  apply wp_bind, wp_mono with (2 := wp_sleep_while t RELEASE BCalled BReady ltac:(auto)). intros _ φ ->.
  apply wp_bind. apply wp_mono with (2 := wp_enter t). intros x φ (prev & -> & Hp & ->).
  apply wp_bind. apply wp_mono with (2 := wp_pass t prev Hp). intros r φ (s & -> & Hφ).
  apply wp_bind. apply wp_mono with (2 := wp_leave t s φ Hφ). intros _ φ' ->. apply wp_ret. by exists s.
Qed.

(** * Clients *)

(** Thread [t] calls [pthread_barrier_wait] as often as it likes.  It counts its arrivals and its
    departures; the serial results and the results that are errors are counted for all. *)
Definition barrier_client (t : nat) : prog unit :=
  loop (fun _ : unit =>
    go <- act Choose ;;
    if (go : bool) then
      act (Rmw (arrived t) (fun c => c + 1)) ;;
      r <- pthread_barrier_wait b ;;
      (if r =? PTHREAD_BARRIER_SERIAL_THREAD then act (Rmw serial (fun c => c + 1))
       else if r =? 0 then Ret 0 else act (Rmw errors (fun c => c + 1))) ;;
      act (Rmw (left t) (fun c => c + 1)) ;;
      Ret (inl tt)
    else Ret (inr tt)) tt.

Lemma wp_barrier_counter l t φ φ' (Q : Z -> bphase -> Prop) :
  (l, φ, φ') ∈ [(arrived t, BOut, BCalled); (serial, BDone true, BDone false); (left t, BDone false, BOut)] ->
  (forall x, Q x φ') -> wp BInv (act (Rmw l (fun c => c + 1))) t Q φ.
Proof using All.
  intros Hin HQ. apply wp_act. intros m g (r & st & HI) Hg x m' [_ ->]. exists φ'. split; [|done]. exists r, st.
  pose proof (bi_allowed r st m g HI t φ Hg) as A. pose proof (bi_left r st m g HI t φ Hg) as HL.
  pose proof (bi_arrived r st m g HI t φ Hg) as HA. pose proof (bi_state r st m g HI) as Hst.
  rewrite !elem_of_cons, elem_of_nil in Hin. unfold rounds_out in *.
  destruct Hin as [[= -> -> ->]|[[= -> -> ->]|[[= -> -> ->]|[]]]];
    (apply (binv_step r st m g t _ _ _ _ _ HI Hg); here; try done; try (by intros t1 Hne; here);
     try (by destruct st); try (by unfold rounds_out; simpl in *; lia); try (by auto);
     try (by intros t1 φ1 Hne H1; split; [apply (bi_allowed r st m g HI t1)|]);
     destruct HI; destruct st; simpl in *; rewrite ?(cnt_insert _ _ _ _ _ Hg); simpl; lia).
Qed.

Lemma wp_barrier_client t : wp BInv (barrier_client t) t (fun _ φ => φ = BOut) BOut.
Proof using All.
  apply (wp_loop BInv (fun _ φ => φ = BOut)); [done|]. intros _ φ ->.
  apply wp_bind, wp_choose. intros go. destruct go; [|by apply wp_ret].
  apply wp_bind, (wp_barrier_counter _ _ BOut BCalled); [rewrite !elem_of_cons; auto|]. intros _.
  apply wp_bind. apply wp_mono with (2 := wp_barrier_wait t). intros r φ (s & -> & ->).
  apply wp_bind. apply wp_mono with (Q := fun _ φ => φ = BDone false).
  - intros _ φ ->. apply wp_bind, (wp_barrier_counter _ _ _ BOut); [rewrite !elem_of_cons; auto|]. intros _. by apply wp_ret.
  - destruct s; simpl; [|by apply wp_ret]. apply (wp_barrier_counter _ _ _ (BDone false)); [rewrite !elem_of_cons; auto|done].
Qed.

(** What [pthread_barrier_init] leaves, and no call yet. *)
Definition barrier_start (m : mem) : Prop :=
  word m (init_count b) = n /\ word m state = WAIT /\ word m (wait_count b) = 0 /\
  word m (b_pshared b) = b2z sh /\ word m serial = 0 /\ word m errors = 0 /\
  (forall t, word m (left t) = 0 /\ word m (arrived t) = 0) /\ (forall l sh', waiters m l sh' = []).

Lemma barrier_client_inv m c :
  barrier_start m -> reachable (map barrier_client (seq 0 (Z.to_nat n)), m) c ->
  exists g, BInv c.2 g /\ threads_ok BInv (fun _ φ _ => φ = BOut) c.1 c.2 g.
Proof using All.
  intros (H1 & H2 & H3 & H4 & H5 & H6 & H7 & H8) Hreach.
  apply (machine_inv BInv (fun _ φ _ => φ = BOut) _ _ (replicate (Z.to_nat n) BOut) Hreach); simpl.
  - exists 0, Fill.
    split; rewrite ?H1, ?H2, ?H3, ?H4, ?H5, ?H6, ?H8, ?length_replicate, ?cnt_replicate by done; try done; try lia.
    + by intros t φ [-> _]%lookup_replicate.
    + simpl. rewrite cnt_replicate by done. lia.
    + intros t φ [-> _]%lookup_replicate. by destruct (H7 t) as [-> _].
    + intros t φ [-> _]%lookup_replicate. by destruct (H7 t) as [-> ->].
    + by apply wq_empty.
    + by intros t Hin%not_elem_of_nil.
    + by intros t Hin%not_elem_of_nil.
  - replace (Z.to_nat n) with (length (map barrier_client (seq 0 (Z.to_nat n)))) at 2
      by (rewrite length_map, length_seq; done).
    apply threads_ok_intro. intros t p Hp. apply list_lookup_fmap_Some in Hp as (t' & -> & Ht').
    apply lookup_seq in Ht' as [-> _]. apply wp_barrier_client.
Qed.

(** Nobody has left a round that somebody has not arrived at. *)
Lemma binv_rounds m g t t' :
  BInv m g -> (t < length g)%nat -> (t' < length g)%nat -> word m (left t) <= word m (arrived t').
Proof using All.
  intros (r & st & HI) [φ Hφ]%lookup_lt_is_Some_2 [φ' Hφ']%lookup_lt_is_Some_2.
  rewrite (bi_arrived r st m g HI t' φ' Hφ'), (bi_left r st m g HI t φ Hφ), (bi_left r st m g HI t' φ' Hφ').
  pose proof (bi_allowed r st m g HI t φ Hφ) as A. pose proof (bi_allowed r st m g HI t' φ' Hφ') as A'.
  unfold rounds_out. destruct st, φ, φ'; simpl in *; try done; lia.
Qed.

(** When every thread has returned, all have been through the same number of rounds. *)
Lemma binv_finished c g :
  BInv c.2 g -> threads_ok BInv (fun _ φ _ => φ = BOut) c.1 c.2 g ->
  (forall t p, c.1 !! t = Some p -> finished p = true) ->
  forall t, (t < length g)%nat -> word c.2 (left t) = word c.2 serial.
Proof using All.
  intros (r & st & HI) [Hlen Hok] Hfin.
  assert (forall t φ, g !! t = Some φ -> φ = BOut) as Hall.
  { intros t φ Hg. destruct (lookup_lt_is_Some_2 c.1 t) as [p Hp]; [rewrite <- Hlen; by eapply lookup_lt_Some|].
    destruct (Hok t p Hp) as (φ' & Hg' & Hwp). specialize (Hfin t p Hp). destruct p; [|done..].
    unfold wpe in Hwp. congruence. }
  assert (forall P : bphase -> bool, P BOut = false -> cnt P g = 0) as H0.
  { intros P HP. apply cnt_zero. intros t φ Hg. by rewrite (Hall t φ Hg). }
  pose proof (bi_stage r st c.2 g HI) as Hs. pose proof (bi_serial r st c.2 g HI) as Hser. rewrite H0 in Hser by done.
  assert (st = Fill) as -> by (destruct st; [done|..]; simpl in Hs; rewrite H0 in Hs by done; lia).
  intros t [φ Hg]%lookup_lt_is_Some_2. pose proof (Hall t φ Hg) as ->.
  rewrite (bi_left r Fill c.2 g HI t BOut Hg). simpl in *. unfold rounds_out. simpl. lia.
Qed.

(** If everything is quiet and somebody sleeps, somebody else has stopped calling. *)
Lemma barrier_quiet c g t p :
  BInv c.2 g -> threads_ok BInv (fun _ φ _ => φ = BOut) c.1 c.2 g -> quiescent c ->
  c.1 !! t = Some p -> asleep c.2 t p = true ->
  exists t' p', c.1 !! t' = Some p' /\ finished p' = true.
Proof using All.
  intros (r & st & HI) [Hlen Hok] Hquiet Hp Hs.
  assert (forall t p, c.1 !! t = Some p -> asleep c.2 t p = true -> t ∈ waiters c.2 state sh) as Has.
  { clear t p Hp Hs. intros t p Hp Hs. unfold asleep in Hs. destruct (waiting_on p) as [[l' sh']|]; [|done].
    apply bool_decide_eq_true in Hs. destruct (decide ((l', sh') = (state, sh))) as [[= -> ->]|Hne]; [auto|].
    rewrite (bi_others r st c.2 g HI l' sh' Hne) in Hs. by apply not_elem_of_nil in Hs. }
  destruct (decide (Exists (fun p => finished p = true) c.1)) as [Hex|Hno].
  { apply Exists_exists in Hex as (p' & Hin & Hf). apply list_elem_of_lookup in Hin as [t' Hp']. by exists t', p'. }
  exfalso. assert (forall t φ, g !! t = Some φ -> t ∈ waiters c.2 state sh /\ is_bqueued φ = true) as Hall.
  { intros t1 φ Hg. destruct (lookup_lt_is_Some_2 c.1 t1) as [p1 Hp1]; [rewrite <- Hlen; by eapply lookup_lt_Some|].
    assert (t1 ∈ waiters c.2 state sh) as Hin.
    { destruct (Hquiet t1 p1 Hp1) as [Hf|Hs1]; [|by eapply Has].
      destruct Hno. apply Exists_exists. exists p1. split; [by eapply list_elem_of_lookup_2|done]. }
    split; [done|]. destruct (wq_queued _ _ _ _ _ _ _ (bi_queue r st c.2 g HI) t1 Hin) as (φ' & Hg' & Hq). congruence. }
  assert (forall P : bphase -> bool, P BQueuedIn = false -> P BQueuedOut = false -> cnt P g = 0) as H0.
  { intros P H1 H2. apply cnt_zero. intros t1 φ Hg. destruct (Hall t1 φ Hg) as [_ Hq]. by destruct φ. }
  pose proof (bi_stage r st c.2 g HI) as Hst. destruct st; simpl in Hst.
  - assert (cnt is_inside g = Z.of_nat (length g)); [|rewrite (bi_len r Fill c.2 g HI) in *; lia].
    apply cnt_full. intros t1 φ Hg. destruct (Hall t1 φ Hg) as [Hin Hq]. destruct φ; try done.
    destruct (bi_out r Fill c.2 g HI t1 Hin Hg) as [?|Hc]; [done|]. rewrite H0 in Hc by done. lia.
  - rewrite H0 in Hst by done. lia.
  - destruct Hst as [Hc _]. apply cnt_pos in Hc as (t1 & φ & Hg & Hi). destruct (Hall t1 φ Hg) as [Hin Hq].
    destruct φ; try done. destruct (bi_in r Open c.2 g HI t1 Hin Hg) as [?|Hc]; [done|]. rewrite H0 in Hc by done. lia.
  - rewrite H0 in Hst by done. lia.
Qed.

End barrier.

(** C22: barriers.  [n] threads call [pthread_barrier_wait] as often as they like on a barrier
    initialized for [n].  In every interleaving no thread has left more rounds than any other
    has arrived at, and no call has failed.  If every thread has returned or sleeps and some
    thread sleeps, then some thread has stopped calling: no wake-up is lost.  When all have
    stopped, all have been through the same number of rounds, and exactly that many calls
    returned [PTHREAD_BARRIER_SERIAL_THREAD]. *)
Theorem barrier_correct {K : FutexKernel} b sh n m c :
  1 <= n <= INT_MAX -> barrier_start b sh n m ->
  reachable (map (barrier_client b) (seq 0 (Z.to_nat n)), m) c ->
  (forall t t', Z.of_nat t < n -> Z.of_nat t' < n -> word c.2 (left t) <= word c.2 (arrived t')) /\
  word c.2 (errors b) = 0 /\
  (quiescent c -> forall t p, c.1 !! t = Some p -> asleep c.2 t p = true ->
     exists t' p', c.1 !! t' = Some p' /\ finished p' = true) /\
  ((forall t p, c.1 !! t = Some p -> finished p = true) ->
     forall t, Z.of_nat t < n -> word c.2 (left t) = word c.2 (serial b)).
Proof.
  intros Hn Hs Hr. destruct (barrier_client_inv b sh n Hn m c Hs Hr) as (g & HI & Hok).
  assert (Z.of_nat (length g) = n) as Hlen by (by destruct HI as (r & st & [])).
  split; [|split; [|split]].
  - intros t t' Ht Ht'. apply (binv_rounds b sh n Hn c.2 g); [done|lia..].
  - by destruct HI as (r & st & []).
  - intros Hq t p Hp Ha. by apply (barrier_quiet b sh n Hn c g t p).
  - intros Hf t Ht. apply (binv_finished b sh n Hn c g); [done..|lia].
Qed.

Definition ex_barrier_mem : mem :=
  mk_mem (fun l => if decide (l = init_count 9) then 2 else 0) (fun _ _ => []) (fun _ => 0).

(** Thread 0 arrives and sleeps, thread 1 opens the barrier; both leave and stop. *)
Definition ex_barrier_run : machine :=
  run_schedule (fun _ => mk_timespec 0 0)
    (map (pair 0%nat) (repeat true 15) ++ map (pair 1%nat) (repeat true 16) ++
     map (pair 0%nat) (repeat false 20) ++ map (pair 1%nat) (repeat false 20))
    (map (barrier_client 9) (seq 0 2), ex_barrier_mem).

Lemma barrier_correct_witness :
  (forall t t', Z.of_nat t < 2 -> Z.of_nat t' < 2 ->
     word ex_barrier_run.2 (left t) <= word ex_barrier_run.2 (arrived t')) /\
  word ex_barrier_run.2 (errors 9) = 0 /\
  (quiescent ex_barrier_run -> forall t p, ex_barrier_run.1 !! t = Some p -> asleep ex_barrier_run.2 t p = true ->
     exists t' p', ex_barrier_run.1 !! t' = Some p' /\ finished p' = true) /\
  ((forall t p, ex_barrier_run.1 !! t = Some p -> finished p = true) ->
     forall t, Z.of_nat t < 2 -> word ex_barrier_run.2 (left t) = word ex_barrier_run.2 (serial 9)).
Proof.
  apply (barrier_correct 9 false 2 ex_barrier_mem).
  - unfold INT_MAX. lia.
  - repeat split; simpl; rewrite decide_False; try done; unfold left, arrived, init_count; congruence.
  - exact (run_schedule_reachable _ _ _).
Defined.

Example ex_barrier_run_results :
  word ex_barrier_run.2 (left 0) = 1 /\ word ex_barrier_run.2 (left 1) = 1 /\ word ex_barrier_run.2 (serial 9) = 1.
Proof. vm_compute. repeat split. Qed.

(** * Initialization and destruction *)

Lemma exec_barrier_sleep_while clock choice fuel t b v {R} (k : unit -> prog R) m :
  word m (b_state b) <> v ->
  exec clock choice (S (S fuel)) t (x <- barrier_sleep_while b v ;; k x) m
  = exec clock choice fuel t (k tt) (set_word m (b_state b) (word m (b_state b))).
Proof.
  intros Hw. lazy [exec bind loop act atomic_load barrier_sleep_while exec_action].
  by rewrite (proj2 (Z.eqb_neq _ _) Hw).
Qed.

(** The life of a barrier.  The sharing stored in an attribute is the one read back.
    [pthread_barrier_init] fails with EINVAL for a count of zero, and otherwise returns 0 and a
    barrier from which the theorem on [pthread_barrier_wait] starts.  On a barrier that is not
    in the middle of a release [pthread_barrier_destroy] returns: EINVAL if it was destroyed
    before, EBUSY if threads wait in it, and otherwise 0, after which the barrier is
    destroyed. *)
Theorem barrier_lifecycle clock choice b t m :
  (forall attr p, p = PTHREAD_PROCESS_PRIVATE \/ p = PTHREAD_PROCESS_SHARED ->
     (pthread_barrierattr_getpshared (pthread_barrierattr_setpshared attr p).1).1 = p) /\
  (forall attr, exec clock choice 20 t (pthread_barrier_init b attr 0) m = Done EINVAL m) /\
  (forall attr count, count <> 0 -> word m (serial b) = 0 -> word m (errors b) = 0 ->
     (forall t, word m (left t) = 0 /\ word m (arrived t) = 0) -> (forall l sh, waiters m l sh = []) ->
     exists m', exec clock choice 20 t (pthread_barrier_init b attr count) m = Done 0 m' /\
       barrier_start b (match attr with Some a => Z.odd a | None => false end) count m') /\
  (word m (b_state b) <> RELEASE -> exists m',
     exec clock choice 20 t (pthread_barrier_destroy b) m
     = Done (if word m (init_count b) =? 0 then EINVAL
             else if word m (wait_count b) =? 0 then 0 else EBUSY) m' /\
     word m' (init_count b) = if word m (wait_count b) =? 0 then 0 else word m (init_count b)).
Proof.
  assert (forall a, truthy (Z.land a 1) = Z.odd a) as Hodd.
  { intros a. change 1 with (Z.ones 1) at 1. rewrite Z.land_ones by done. change (2 ^ 1) with 2.
    rewrite Zmod_odd. by destruct (Z.odd a). }
  split; [|split; [done|split]].
  - intros attr p Hp. unfold pthread_barrierattr_getpshared, pthread_barrierattr_setpshared. cbn [fst].
    rewrite Hodd, <- Z.bit0_odd. destruct Hp as [-> | ->].
    + change (_ =? _) with false. cbv iota. by rewrite Z.land_spec, Bool.andb_comm.
    + change (_ =? _) with true. cbv iota. by rewrite Z.lor_spec, Bool.orb_comm.
  - intros attr count Hc Hs He Hlr Hq. unfold pthread_barrier_init. rewrite (proj2 (Z.eqb_neq _ _) Hc).
    destruct attr as [a|]; [rewrite Hodd; destruct (Z.odd a)|]; (eexists; split; [reflexivity|]);
      (split; [|repeat split]; rewrite ?word_set_word_eq;
       repeat (rewrite word_set_word_ne by (unfold init_count, b_state, wait_count, b_pshared, serial, errors, left, arrived; congruence));
       rewrite ?word_set_word_eq; try done; by apply Hlr).
  - intros Hst. unfold pthread_barrier_destroy. rewrite exec_load.
    destruct (Z.eqb_spec (word m (init_count b)) 0) as [E0|E0].
    { eexists. split; [reflexivity|]. rewrite word_set_word_eq. destruct (_ =? 0); congruence. }
    rewrite exec_barrier_sleep_while, exec_load by (by rewrite word_set_word_ne by done).
    rewrite !(word_set_word_ne _ _ (wait_count b)) by done.
    destruct (Z.eqb_spec (word m (wait_count b)) 0) as [E1|E1]; (eexists; split; [reflexivity|]).
    + by rewrite word_set_word_eq.
    + by rewrite !(word_set_word_ne _ _ (init_count b)), word_set_word_eq by done.
Qed.

Lemma barrier_lifecycle_witness :
  exists m', exec (fun _ => mk_timespec 0 0) true 20 0 (pthread_barrier_destroy 9) ex_barrier_mem = Done 0 m' /\
    word m' (init_count 9) = 0.
Proof.
  destruct (barrier_lifecycle (fun _ => mk_timespec 0 0) true 9 0 ex_barrier_mem) as (_ & _ & _ & H).
  apply H. vm_compute. discriminate.
Defined.
