(* ===== verification/Utf8.v ===== *)
(** Multibyte characters: libc/private/bionic_mbstate.h, libc/bionic/mbrtoc32.cpp, c32rtomb.cpp,
    mbrtoc16.cpp, c16rtomb.cpp and wchar.cpp.

    Strings are lists of byte values; a read outside the list has no result ([None]).  The
    functions are pure: they give the value returned, what they store through their pointer, the
    value of errno they set and the conversion state. *)

From S2P Require Import Prelude.

(** * Conversion states *)

(** [mbstate_t]: four bytes. *)
Record mbstate := mk_mbstate { seq0 : Z; seq1 : Z; seq2 : Z; seq3 : Z }.

Definition mbstate_init : mbstate := mk_mbstate 0 0 0 0.

Abbreviation __MB_ERR_ILLEGAL_SEQUENCE := (wrapU 64 (-1)).
Abbreviation __MB_ERR_INCOMPLETE_SEQUENCE := (wrapU 64 (-2)).
Definition __MB_IS_ERR (rv : Z) : bool :=
  (rv =? __MB_ERR_ILLEGAL_SEQUENCE) || (rv =? __MB_ERR_INCOMPLETE_SEQUENCE).

Definition mbstate_bytes_so_far (ps : mbstate) : Z :=
  if negb (seq2 ps =? 0) then 3 else if negb (seq1 ps =? 0) then 2
  else if negb (seq0 ps =? 0) then 1 else 0.

Definition mbstate_set_byte (ps : mbstate) (i : Z) (byte : Z) : option mbstate :=
  match i with
  | 0 => Some (mk_mbstate byte (seq1 ps) (seq2 ps) (seq3 ps))
  | 1 => Some (mk_mbstate (seq0 ps) byte (seq2 ps) (seq3 ps))
  | 2 => Some (mk_mbstate (seq0 ps) (seq1 ps) byte (seq3 ps))
  | 3 => Some (mk_mbstate (seq0 ps) (seq1 ps) (seq2 ps) byte)
  | _ => None
  end.

Definition mbstate_get_byte (ps : mbstate) (n : Z) : Z :=
  match n with 0 => seq0 ps | 1 => seq1 ps | 2 => seq2 ps | _ => seq3 ps end.

(** What a conversion gives. *)
Record mbres := mk_mbres {
  mb_ret : Z;            (* the value returned *)
  mb_out : option Z;     (* what is stored through a pointer that is not null *)
  mb_errno : option Z;   (* the value errno is set to *)
  mb_state : mbstate     (* the state after the call *)
}.

Definition mbstate_reset_and_return_illegal (e : Z) : mbres :=
  mk_mbres __MB_ERR_ILLEGAL_SEQUENCE None (Some e) mbstate_init.

Definition mbstate_reset_and_return (r : Z) (out : option Z) : mbres :=
  mk_mbres r out None mbstate_init.

Definition mbsinit (ps : mbstate) : bool :=
  (seq0 ps =? 0) && (seq1 ps =? 0) && (seq2 ps =? 0) && (seq3 ps =? 0).

(** * UTF-8 to UTF-32 *)

(** The length, the mask and the lower bound a first byte asks for. *)
Definition lead_byte (ch : Z) : option (Z * Z * Z) :=
  if Z.land ch 0x80 =? 0 then Some (1, 0x7f, 0)
  else if Z.land ch 0xe0 =? 0xc0 then Some (2, 0x1f, 0x80)
  else if Z.land ch 0xf0 =? 0xe0 then Some (3, 0x0f, 0x800)
  else if Z.land ch 0xf8 =? 0xf0 then Some (4, 0x07, 0x10000)
  else None.

(** The loop that fills in the state, [count] more times: [None] for a read or write out of
    range, [Some None] for a byte that cannot continue a sequence. *)
Fixpoint mbstate_fill (count : nat) (s : list Z) (at_byte : Z) (state : mbstate) : option (option mbstate) :=
  match count with
  | O => Some (Some state)
  | S count' =>
      match s with
      | [] => None
      | b :: s' =>
          if negb (mbsinit state) && negb (Z.land b 0xc0 =? 0x80) then Some None
          else match mbstate_set_byte state at_byte b with
               | Some state' => mbstate_fill count' s' (at_byte + 1) state'
               | None => None
               end
      end
  end.

(** The loop that puts the bits of bytes [i] to [length - 1] together, [count] more times. *)
Fixpoint decode_tail (count : nat) (i : Z) (state : mbstate) (c32 : Z) : Z :=
  match count with
  | O => c32
  | S count' =>
      decode_tail count' (i + 1) state
        (Z.lor (wrapU 32 (Z.shiftl c32 6)) (Z.land (mbstate_get_byte state i) 0x3f))
  end.

(** [s] is the string, [None] for a null pointer; [n] bytes of it may be read. *)
Definition mbrtoc32 (s : option (list Z)) (n : Z) (state : mbstate) : option mbres :=
  if negb (mbstate_get_byte state 3 =? 0) then Some (mbstate_reset_and_return_illegal EINVAL) else
  let '(s, n, store) := match s with None => ([0], 1, false) | Some s => (s, n, true) end in
  let out (c : Z) := if (store : bool) then Some c else None in
  if n =? 0 then Some (mk_mbres 0 None None state) else
  match s with
  | [] => None
  | first :: _ =>
      if mbsinit state && (Z.land first (Z.lnot 0x7f) =? 0) then
        Some (mk_mbres (if negb (first =? 0) then 1 else 0) (out first) None state)
      else
        let bytes_so_far := mbstate_bytes_so_far state in
        let ch := if 0 <? bytes_so_far then mbstate_get_byte state 0 else first in
        match lead_byte ch with
        | None => Some (mbstate_reset_and_return_illegal EILSEQ)
        | Some (length, mask, lower_bound) =>
            let bytes_wanted := wrapU 64 (length - bytes_so_far) in
            match mbstate_fill (Z.to_nat (Z.min bytes_wanted n)) s bytes_so_far state with
            | None => None
            | Some None => Some (mbstate_reset_and_return_illegal EILSEQ)
            | Some (Some state) =>
                if n <? bytes_wanted then Some (mk_mbres __MB_ERR_INCOMPLETE_SEQUENCE None None state) else
                let c32 := decode_tail (Z.to_nat (length - 1)) 1 state
                             (Z.land (mbstate_get_byte state 0) mask) in
                if c32 <? lower_bound then Some (mbstate_reset_and_return_illegal EILSEQ) else
                if ((0xd800 <=? c32) && (c32 <=? 0xdfff)) || (0x10ffff <? c32)
                then Some (mbstate_reset_and_return_illegal EILSEQ)
                else Some (mbstate_reset_and_return (if c32 =? 0 then 0 else bytes_wanted) (out c32))
            end
        end
  end.

(** * UTF-32 to UTF-8 *)

(** What an encoder gives: the value returned, the bytes stored, errno, the state. *)
Record encres := mk_encres { enc_ret : Z; enc_bytes : list Z; enc_errno : option Z; enc_state : mbstate }.

(** The loop that stores the continuation bytes, last first: the bytes and what is left. *)
Fixpoint encode_tail (count : nat) (c32 : Z) (acc : list Z) : Z * list Z :=
  match count with
  | O => (c32, acc)
  | S count' => encode_tail count' (Z.shiftr c32 6) (Z.lor (Z.land c32 0x3f) 0x80 :: acc)
  end.

(** [store] is false for a null pointer. *)
Definition c32rtomb (store : bool) (c32 : Z) (state : mbstate) : encres :=
  if negb store then mk_encres 1 [] None mbstate_init else
  if c32 =? 0 then mk_encres 1 [0] None mbstate_init else
  if negb (mbsinit state) then mk_encres __MB_ERR_ILLEGAL_SEQUENCE [] (Some EILSEQ) mbstate_init else
  if Z.land c32 (Z.lnot 0x7f) =? 0 then mk_encres 1 [c32] None state else
  match (if Z.land c32 (Z.lnot 0x7f) =? 0 then Some (0, 1)
         else if Z.land c32 (Z.lnot 0x7ff) =? 0 then Some (0xc0, 2)
         else if Z.land c32 (Z.lnot 0xffff) =? 0 then Some (0xe0, 3)
         else if Z.land c32 (Z.lnot 0x1fffff) =? 0 then Some (0xf0, 4)
         else None) with
  | None => mk_encres __MB_ERR_ILLEGAL_SEQUENCE [] (Some EILSEQ) state
  | Some (lead, length) =>
      let '(rest, tail) := encode_tail (Z.to_nat (length - 1)) c32 [] in
      mk_encres length (Z.lor (Z.land rest 0xff) lead :: tail) None state
  end.

(** * UTF-16 *)

Definition mbspartialc16 (state : mbstate) : bool := negb (mbstate_get_byte state 3 =? 0).

Definition begin_surrogate (c32 nconv : Z) (state : mbstate) : mbres :=
  let c32 := c32 - 0x10000 in
  let trail := Z.lor (Z.land c32 0x3ff) 0xdc00 in
  let state := mk_mbstate (Z.land trail 0x00ff) (Z.shiftr (Z.land trail 0xff00) 8)
                 (seq2 state) (Z.land nconv 0xff) in
  mk_mbres (wrapU 64 (-3)) (Some (Z.lor (Z.shiftr (Z.land c32 0xffc00) 10) 0xd800)) None state.

Definition finish_surrogate (state : mbstate) : mbres :=
  let trail := Z.lor (Z.shiftl (mbstate_get_byte state 1) 8) (mbstate_get_byte state 0) in
  mbstate_reset_and_return (mbstate_get_byte state 3) (Some trail).

Definition mbrtoc16 (s : option (list Z)) (n : Z) (state : mbstate) : option mbres :=
  if mbspartialc16 state then Some (finish_surrogate state) else
  match mbrtoc32 s n state with
  | None => None
  | Some r =>
      let nconv := mb_ret r in
      if __MB_IS_ERR nconv then Some r else
      if nconv =? 0 then Some (mbstate_reset_and_return nconv None) else
      match mb_out r with
      | None => None   (* c32 was not written *)
      | Some c32 =>
          if 0x10ffff <? c32 then Some (mbstate_reset_and_return_illegal EILSEQ) else
          if c32 <? 0x10000 then Some (mbstate_reset_and_return nconv (Some c32)) else
          Some (begin_surrogate c32 nconv (mb_state r))
      end
  end.

Definition is_high_surrogate (c16 : Z) : bool := (0xd800 <=? c16) && (c16 <? 0xdc00).
Definition is_low_surrogate (c16 : Z) : bool := (0xdc00 <=? c16) && (c16 <? 0xe000).

(** [private] is the static state that [c32rtomb] uses when it is given a null pointer; the
    result has the caller's state and the private state after the call. *)
Definition c16rtomb (store : bool) (c16 : Z) (state private : mbstate) : encres * mbstate :=
  if mbsinit state then
    if is_high_surrogate c16 then
      let c32 := wrapU 32 (Z.shiftl (Z.land c16 (Z.lnot 0xd800)) 10) in
      let state := mk_mbstate (seq0 state) (seq1 state) (Z.shiftr (Z.land c32 0x00ff00) 8)
                     (Z.shiftr (Z.land c32 0xff0000) 16) in
      (mk_encres 0 [] None state, private)
    else if is_low_surrogate c16 then
      (mk_encres __MB_ERR_ILLEGAL_SEQUENCE [] (Some EINVAL) mbstate_init, private)
    else (c32rtomb store c16 state, private)
  else
    if negb (is_low_surrogate c16) then
      (mk_encres __MB_ERR_ILLEGAL_SEQUENCE [] (Some EINVAL) mbstate_init, private)
    else
      let c32 := Z.lor (Z.lor (Z.shiftl (mbstate_get_byte state 3) 16) (Z.shiftl (mbstate_get_byte state 2) 8))
                   (Z.land c16 (Z.lnot 0xdc00)) + 0x10000 in
      let r := c32rtomb store c32 private in
      (mk_encres (enc_ret r) (enc_bytes r) (enc_errno r) mbstate_init, enc_state r).

(** * Strings: wchar.cpp *)

(** Our wchar_t is UTF-32. *)
Definition mbrtowc (s : option (list Z)) (n : Z) (state : mbstate) : option mbres := mbrtoc32 s n state.
Definition wcrtomb (store : bool) (wc : Z) (state : mbstate) : encres := c32rtomb store (wrapU 32 wc) state.

(** What a string conversion gives: the value returned, the elements stored, the offset by which
    the source pointer advances ([None] if it becomes null), errno and the state. *)
Record strres := mk_strres {
  str_ret : Z; str_out : list Z; str_src : option Z; str_errno : option Z; str_state : mbstate
}.

(** The loop of [mbsnrtowcs]: [measure] for a null [dst].  Every iteration reads a byte at an
    index that grows, so the length of the string bounds the number of iterations. *)
Fixpoint mbsnrtowcs_loop (fuel : nat) (measure : bool) (src : list Z) (nmc len i o : Z) (out : list Z)
    (state : mbstate) : option strres :=
  match fuel with
  | O => None
  | S fuel' =>
      let stop := if measure then Some 0 else None in
      let illegal off :=
        Some (mk_strres __MB_ERR_ILLEGAL_SEQUENCE out (if measure then Some 0 else Some off)
                (Some EILSEQ) mbstate_init) in
      if (i <? nmc) && (measure || (o <? len)) then
        match src !! Z.to_nat i with
        | None => None
        | Some b =>
            if b <? 0x80 then
              if b =? 0 then Some (mk_strres o (if measure then out else out ++ [b]) stop None mbstate_init)
              else mbsnrtowcs_loop fuel' measure src nmc len (i + 1) (o + 1)
                     (if measure then out else out ++ [b]) state
            else
              match mbrtowc (Some (drop (Z.to_nat i) src)) (nmc - i) state with
              | None => None
              | Some r =>
                  let out' := match mb_out r with
                              | Some c => if measure then out else out ++ [c]
                              | None => out
                              end in
                  if mb_ret r =? __MB_ERR_ILLEGAL_SEQUENCE then illegal i
                  else if mb_ret r =? __MB_ERR_INCOMPLETE_SEQUENCE then illegal nmc
                  else if mb_ret r =? 0 then Some (mk_strres o out' stop None mbstate_init)
                  else mbsnrtowcs_loop fuel' measure src nmc len (i + mb_ret r) (o + 1) out' (mb_state r)
              end
        end
      else Some (mk_strres o out (if measure then Some 0 else Some i) None mbstate_init)
  end.

Definition mbsnrtowcs (measure : bool) (src : list Z) (nmc len : Z) (state : mbstate) : option strres :=
  let go := mbsnrtowcs_loop (S (length src)) measure src nmc len 0 0 [] state in
  if (0 <? nmc) && (0 <? mbstate_bytes_so_far state) then
    match src with
    | [] => None
    | b :: _ => if b <? 0x80
                then Some (mk_strres __MB_ERR_ILLEGAL_SEQUENCE [] (Some 0) (Some EILSEQ) mbstate_init)
                else go
    end
  else go.

Definition SIZE_MAX : Z := 2 ^ 64 - 1.

Definition mbsrtowcs (measure : bool) (src : list Z) (len : Z) (state : mbstate) : option strres :=
  mbsnrtowcs measure src SIZE_MAX len state.

Definition MB_LEN_MAX : Z := 4.

(** The loops of [wcsnrtombs], over the wide characters from index [i] on. *)
Fixpoint wcsnrtombs_measure (ws : list Z) (nwc i o : Z) (state : mbstate) : option strres :=
  if i <? nwc then
    match ws with
    | [] => None
    | wc :: ws' =>
        if wrapU 32 wc <? 0x80 then
          if wc =? 0 then Some (mk_strres o [] (Some 0) None state)
          else wcsnrtombs_measure ws' nwc (i + 1) (o + 1) state
        else
          let r := wcrtomb true wc state in
          if enc_ret r =? __MB_ERR_ILLEGAL_SEQUENCE
          then Some (mk_strres (enc_ret r) [] (Some 0) (enc_errno r) (enc_state r))
          else wcsnrtombs_measure ws' nwc (i + 1) (o + enc_ret r) (enc_state r)
    end
  else Some (mk_strres o [] (Some 0) None state).

Fixpoint wcsnrtombs_convert (ws : list Z) (nwc len i o : Z) (out : list Z) (state : mbstate) : option strres :=
  if (i <? nwc) && (o <? len) then
    match ws with
    | [] => None
    | wc :: ws' =>
        if wrapU 32 wc <? 0x80 then
          if wc =? 0 then Some (mk_strres o (out ++ [wc]) None None state)
          else wcsnrtombs_convert ws' nwc len (i + 1) (o + 1) (out ++ [wc]) state
        else
          (* in place if there is room for any character, through a buffer otherwise *)
          let r := wcrtomb true wc state in
          if enc_ret r =? __MB_ERR_ILLEGAL_SEQUENCE
          then Some (mk_strres (enc_ret r) out (Some i) (enc_errno r) (enc_state r))
          else if negb (MB_LEN_MAX <=? len - o) && (len - o <? enc_ret r)
          then Some (mk_strres o out (Some i) None (enc_state r))
          else wcsnrtombs_convert ws' nwc len (i + 1) (o + enc_ret r) (out ++ enc_bytes r) (enc_state r)
    end
  else Some (mk_strres o out (Some i) None state).

Definition wcsnrtombs (measure : bool) (src : list Z) (nwc len : Z) (state : mbstate) : option strres :=
  if negb (mbsinit state)
  then Some (mk_strres __MB_ERR_ILLEGAL_SEQUENCE [] (Some 0) (Some EILSEQ) mbstate_init)
  else if measure then wcsnrtombs_measure src nwc 0 0 state
  else wcsnrtombs_convert src nwc len 0 0 [] state.

Definition wcsrtombs (measure : bool) (src : list Z) (len : Z) (state : mbstate) : option strres :=
  wcsnrtombs measure src SIZE_MAX len state.
