(* ===== verification/Utf8Correct.v ===== *)
(** The conversions of Utf8.v against the definition of UTF-8 in RFC 3629: the decoder accepts
    exactly the encodings of scalar values, whole or in pieces, and the encoder produces
    them. *)

From S2P Require Import Prelude Utf8.

(** * The reference *)

(** Unicode scalar values and their encodings. *)
Definition scalar (c : Z) : Prop := 0 <= c <= 0x10ffff /\ ~ (0xd800 <= c <= 0xdfff).

Definition utf8 (c : Z) : list Z :=
  if c <? 0x80 then [c]
  else if c <? 0x800 then [0xc0 + c / 64; 0x80 + c mod 64]
  else if c <? 0x10000 then [0xe0 + c / 4096; 0x80 + (c / 64) mod 64; 0x80 + c mod 64]
  else [0xf0 + c / 262144; 0x80 + (c / 4096) mod 64; 0x80 + (c / 64) mod 64; 0x80 + c mod 64].

Definition byte (b : Z) : Prop := 0 <= b < 256.
Definition cont (b : Z) : bool := (128 <=? b) && (b <? 192).

(** * Bytes *)

(** A property of bytes, checked for each of them. *)
Lemma byte_cases (P : Z -> bool) :
  forallb P (map Z.of_nat (seq 0 256)) = true -> forall b, byte b -> P b = true.
Proof.
  intros H b Hb. rewrite forallb_forall in H. apply H. apply in_map_iff. exists (Z.to_nat b).
  unfold byte in Hb. split; [lia|]. apply in_seq. lia.
Qed.

Lemma byte_cont b : byte b -> (Z.land b 0xc0 =? 0x80) = cont b.
Proof.
  intros Hb. apply eqb_true_iff. revert b Hb. apply (byte_cases (fun b => eqb (Z.land b 0xc0 =? 0x80) (cont b))).
  vm_compute. reflexivity.
Qed.

Lemma byte_ascii b : byte b -> (Z.land b (Z.lnot 0x7f) =? 0) = (b <? 128).
Proof.
  intros Hb. apply eqb_true_iff. revert b Hb.
  apply (byte_cases (fun b => eqb (Z.land b (Z.lnot 0x7f) =? 0) (b <? 128))). vm_compute. reflexivity.
Qed.

Definition lead_ref (b : Z) : option (Z * Z * Z) :=
  if b <? 128 then Some (1, 0x7f, 0) else if b <? 192 then None
  else if b <? 224 then Some (2, 0x1f, 0x80) else if b <? 240 then Some (3, 0x0f, 0x800)
  else if b <? 248 then Some (4, 0x07, 0x10000) else None.

Lemma byte_lead b : byte b -> lead_byte b = lead_ref b.
Proof.
  intros Hb. enough (bool_decide (lead_byte b = lead_ref b) = true) as H by (by apply bool_decide_eq_true in H).
  revert b Hb. apply (byte_cases (fun b => bool_decide (lead_byte b = lead_ref b))). vm_compute. reflexivity.
Qed.

Lemma land_mask k x : 0 <= k -> Z.land x (Z.ones k) = x mod 2 ^ k.
Proof. apply Z.land_ones. Qed.

(** Six more bits. *)
Lemma lor_bits c b : 0 <= c < 2 ^ 26 -> Z.lor (wrapU 32 (Z.shiftl c 6)) (Z.land b 0x3f) = 64 * c + b mod 64.
Proof.
  intros Hc. change 0x3f with (Z.ones 6). rewrite Z.land_ones by done. change (2 ^ 6) with 64.
  rewrite Z.shiftl_mul_pow2 by done. change (2 ^ 6) with 64. unfold wrapU.
  rewrite Z.mod_small by (change (2 ^ 32) with 4294967296; change (2 ^ 26) with 67108864 in Hc; lia).
  rewrite (lor_low_bits 6); [change (2 ^ 6) with 64; lia|done|by apply Z.mod_pos_bound].
Qed.

Lemma land_lnot_ones c k : 0 <= c -> 0 <= k -> (Z.land c (Z.lnot (Z.ones k)) =? 0) = (c <? 2 ^ k).
Proof.
  intros Hc Hk. rewrite <- Z.ldiff_land, Z.ldiff_ones_r by done.
  rewrite Z.shiftl_mul_pow2, Z.shiftr_div_pow2 by done.
  assert (0 < 2 ^ k) as Hp by (apply Z.pow_pos_nonneg; lia).
  destruct (Z.ltb_spec c (2 ^ k)) as [H|H].
  - by rewrite Z.div_small.
  - apply Z.eqb_neq. assert (1 <= c / 2 ^ k) by (apply Z.div_le_lower_bound; lia). nia.
Qed.

(** * The state as a list of bytes *)

Definition state_of (l : list Z) : mbstate := mk_mbstate (nth 0 l 0) (nth 1 l 0) (nth 2 l 0) (nth 3 l 0).

(** A sequence that has begun: a first byte for [L] bytes, followed by continuation bytes. *)
Definition begun (L : Z) (pre : list Z) : Prop :=
  exists b0 tl mask low, pre = b0 :: tl /\ byte b0 /\ lead_ref b0 = Some (L, mask, low) /\ 2 <= L /\
    Forall byte tl /\ forallb cont tl = true.

Lemma lead_ref_cases b L mask low :
  byte b -> lead_ref b = Some (L, mask, low) -> 2 <= L ->
  (L = 2 /\ mask = 0x1f /\ low = 0x80 /\ 192 <= b < 224) \/
  (L = 3 /\ mask = 0x0f /\ low = 0x800 /\ 224 <= b < 240) \/
  (L = 4 /\ mask = 0x07 /\ low = 0x10000 /\ 240 <= b < 248).
Proof.
  unfold lead_ref, byte. intros Hb H HL.
  destruct (Z.ltb_spec b 128); [injection H; lia|]. destruct (Z.ltb_spec b 192); [done|].
  destruct (Z.ltb_spec b 224); [injection H; lia|]. destruct (Z.ltb_spec b 240); [injection H; lia|].
  destruct (Z.ltb_spec b 248); [injection H; lia|done].
Qed.

Lemma lead_ref_long b L mask low : 128 <= b -> lead_ref b = Some (L, mask, low) -> 2 <= L.
Proof.
  unfold lead_ref. intros Hb. rewrite (proj2 (Z.ltb_ge b 128) Hb).
  destruct (b <? 192); [done|]. destruct (b <? 224); [intros [= <- _ _]; lia|].
  destruct (b <? 240); [intros [= <- _ _]; lia|]. destruct (b <? 248); [intros [= <- _ _]; lia|done].
Qed.

Lemma begun_head L pre : begun L pre -> exists b0 tl, pre = b0 :: tl /\ 192 <= b0 < 248.
Proof.
  intros (b0 & tl & mask & low & -> & Hb & Hl & HL & _). exists b0, tl. split; [done|].
  pose proof (lead_ref_cases b0 L mask low Hb Hl HL). lia.
Qed.

Lemma begun_not_init L pre : begun L pre -> mbsinit (state_of pre) = false.
Proof.
  intros (b0 & tl & -> & Hb)%begun_head. unfold mbsinit, state_of. simpl.
  by rewrite (proj2 (Z.eqb_neq b0 0)) by lia.
Qed.

Lemma state_of_set pre b :
  (length pre <= 3)%nat ->
  mbstate_set_byte (state_of pre) (Z.of_nat (length pre)) b = Some (state_of (pre ++ [b])).
Proof. intros H. do 4 (destruct pre as [|? pre]; [done|]). simpl in H. lia. Qed.

Lemma cont_pos b : cont b = true -> 128 <= b < 192.
Proof. unfold cont. lia. Qed.

Lemma begun_so_far L pre :
  begun L pre -> (length pre <= 3)%nat -> mbstate_bytes_so_far (state_of pre) = Z.of_nat (length pre).
Proof.
  intros Hb Hlen. destruct (begun_head L pre Hb) as (b0 & tl & -> & Hb0).
  destruct Hb as (? & ? & ? & ? & [= <- <-] & _ & _ & _ & _ & Hc).
  unfold mbstate_bytes_so_far, state_of.
  destruct tl as [|b1 [|b2 tl]]; simpl in *.
  - by rewrite (proj2 (Z.eqb_neq b0 0)) by lia.
  - apply andb_prop in Hc as [?%cont_pos _]. by rewrite (proj2 (Z.eqb_neq b1 0)) by lia.
  - apply andb_prop in Hc as [_ [?%cont_pos _]%andb_prop]. rewrite (proj2 (Z.eqb_neq b2 0)) by lia.
    destruct tl; [done|simpl in Hlen; lia].
Qed.

Lemma begun_snoc L pre b : begun L pre -> byte b -> cont b = true -> begun L (pre ++ [b]).
Proof.
  intros (b0 & tl & mask & low & -> & H1 & H2 & H3 & H4 & H5) Hb Hc.
  exists b0, (tl ++ [b]), mask, low. split; [done|]. split; [done|]. split; [done|]. split; [done|]. split.
  - apply Forall_app. auto.
  - rewrite forallb_app, H5. simpl. by rewrite Hc.
Qed.

(** The loop stores the bytes, or stops at one that does not continue the sequence. *)
Lemma fill_begun L count : forall pre s,
  begun L pre -> (length pre + count <= 4)%nat -> (count <= length s)%nat -> Forall byte s ->
  mbstate_fill count s (Z.of_nat (length pre)) (state_of pre)
  = Some (if forallb cont (take count s) then Some (state_of (pre ++ take count s)) else None).
Proof.
  induction count as [|count IH]; intros pre s Hp Hlen Hs Hb; simpl.
  - by rewrite take_0, app_nil_r.
  - destruct s as [|b s]; [simpl in Hs; lia|]. simpl. apply Forall_cons in Hb as [Hb Hbs].
    rewrite (begun_not_init L pre Hp), (byte_cont b Hb). simpl.
    destruct (cont b) eqn:Hc; simpl; [|done].
    rewrite state_of_set by lia.
    replace (Z.of_nat (length pre) + 1) with (Z.of_nat (length (pre ++ [b]))) by (rewrite length_app; simpl; lia).
    rewrite (IH (pre ++ [b]) s); [by rewrite <- app_assoc|by apply begun_snoc
      |rewrite length_app; simpl; lia|simpl in Hs; lia|done].
Qed.

(** From the start, the first byte is stored as it is. *)
Lemma fill_init count b s L mask low :
  byte b -> lead_ref b = Some (L, mask, low) -> 2 <= L -> (S count <= 4)%nat -> (count <= length s)%nat ->
  Forall byte s ->
  mbstate_fill (S count) (b :: s) 0 mbstate_init
  = Some (if forallb cont (take count s) then Some (state_of (b :: take count s)) else None).
Proof.
  intros Hb Hl HL Hc Hs Hbs. simpl.
  assert (begun L [b]) as Hbeg by (by exists b, [], mask, low).
  pose proof (fill_begun L count [b] s Hbeg ltac:(simpl; lia) Hs Hbs) as H. exact H.
Qed.

(** * Whole sequences *)

(** The bits of a sequence put together, and the smallest value its length is for. *)
Definition value (bs : list Z) : Z :=
  match bs with
  | [b0; b1] => 64 * (b0 mod 32) + b1 mod 64
  | [b0; b1; b2] => 64 * (64 * (b0 mod 16) + b1 mod 64) + b2 mod 64
  | [b0; b1; b2; b3] => 64 * (64 * (64 * (b0 mod 8) + b1 mod 64) + b2 mod 64) + b3 mod 64
  | _ => 0
  end.

Definition lower_bound (L : Z) : Z := if L =? 2 then 0x80 else if L =? 3 then 0x800 else 0x10000.

(** What the decoder does with a whole sequence, of which it has just read [r] bytes. *)
Definition finish (L : Z) (bs : list Z) (r : Z) : mbres :=
  if value bs <? lower_bound L then mbstate_reset_and_return_illegal EILSEQ
  else if ((0xd800 <=? value bs) && (value bs <=? 0xdfff)) || (0x10ffff <? value bs)
  then mbstate_reset_and_return_illegal EILSEQ
  else mbstate_reset_and_return (if value bs =? 0 then 0 else r) (Some (value bs)).

(** Bounds on sums of remainders. *)
Ltac bits := change (2 ^ 26) with 67108864; Z.div_mod_to_equations; lia.

Lemma decode_value L bs mask low b0 tl :
  bs = b0 :: tl -> byte b0 -> lead_ref b0 = Some (L, mask, low) -> 2 <= L -> Z.of_nat (length bs) = L ->
  decode_tail (Z.to_nat (L - 1)) 1 (state_of bs) (Z.land (mbstate_get_byte (state_of bs) 0) mask) = value bs
  /\ low = lower_bound L.
Proof.
  intros -> Hb Hl HL Hlen.
  destruct (lead_ref_cases b0 L mask low Hb Hl HL) as [(-> & -> & -> & _)|[(-> & -> & -> & _)|(-> & -> & -> & _)]];
    (split; [|done]).
  - destruct tl as [|b1 [|]]; simpl in Hlen; try lia. change (Z.to_nat (2 - 1)) with 1%nat. simpl.
    change 31 with (Z.ones 5). rewrite Z.land_ones by done. apply lor_bits. change (2 ^ 5) with 32. bits.
  - destruct tl as [|b1 [|b2 [|]]]; simpl in Hlen; try lia. change (Z.to_nat (3 - 1)) with 2%nat. simpl.
    change 15 with (Z.ones 4). rewrite Z.land_ones by done. change (2 ^ 4) with 16.
    rewrite (lor_bits (b0 mod 16) b1) by bits. apply lor_bits. bits.
  - destruct tl as [|b1 [|b2 [|b3 [|]]]]; simpl in Hlen; try lia. change (Z.to_nat (4 - 1)) with 3%nat. simpl.
    change 7 with (Z.ones 3). rewrite Z.land_ones by done. change (2 ^ 3) with 8.
    rewrite (lor_bits (b0 mod 8) b1) by bits. rewrite (lor_bits _ b2) by bits. apply lor_bits. bits.
Qed.

Lemma mbrtoc32_more L pre s n :
  begun L pre -> Z.of_nat (length pre) < L -> Forall byte s -> 1 <= n <= Z.of_nat (length s) ->
  let want := L - Z.of_nat (length pre) in
  let got := take (Z.to_nat (Z.min want n)) s in
  mbrtoc32 (Some s) n (state_of pre)
  = Some (if forallb cont got
          then if n <? want then mk_mbres __MB_ERR_INCOMPLETE_SEQUENCE None None (state_of (pre ++ got))
               else finish L (pre ++ got) want
          else mbstate_reset_and_return_illegal EILSEQ).
Proof.
  intros Hp Hlen Hs Hn want got. pose proof Hp as (b0 & tl & mask & low & E & Hb & Hl & HL & Htl & Hc).
  pose proof (lead_ref_cases b0 L mask low Hb Hl HL) as HL4.
  assert (length pre <= 3)%nat as Hp3 by lia.
  unfold mbrtoc32.
  assert (mbstate_get_byte (state_of pre) 3 = 0) as ->.
  { unfold state_of. simpl. apply nth_overflow. lia. }
  simpl negb. cbv iota. rewrite (proj2 (Z.eqb_neq n 0)) by lia.
  destruct s as [|first s']; [simpl in Hn; lia|].
  rewrite (begun_not_init L pre Hp), (begun_so_far L pre Hp Hp3), Bool.andb_false_l. cbv iota zeta.
  rewrite (proj2 (Z.ltb_lt 0 (Z.of_nat (length pre)))) by (rewrite E; simpl; lia).
  assert (mbstate_get_byte (state_of pre) 0 = b0) as -> by (by rewrite E).
  rewrite (byte_lead b0 Hb), Hl. fold want. unfold wrapU. rewrite (Z.mod_small want) by (unfold want; lia).
  rewrite (fill_begun L _ pre (first :: s') Hp) by (try done; unfold want; lia). fold got.
  destruct (forallb cont got) eqn:Eg; [|done]. destruct (Z.ltb_spec n want) as [|Hge]; [done|].
  assert (pre ++ got = b0 :: (tl ++ got)) as Ebs by (by rewrite E).
  assert (Z.of_nat (length (pre ++ got)) = L) as Elen.
  { rewrite length_app. unfold got. rewrite length_take. unfold want in *. lia. }
  destruct (decode_value L (pre ++ got) mask low b0 (tl ++ got) Ebs Hb Hl HL Elen) as [-> ->].
  unfold finish. destruct (value (pre ++ got) <? lower_bound L); [done|]. by case_match.
Qed.

Lemma mbrtoc32_first b s n L mask low :
  byte b -> lead_ref b = Some (L, mask, low) -> 2 <= L -> Forall byte s ->
  1 <= n <= Z.of_nat (length (b :: s)) ->
  let got := take (Z.to_nat (Z.min L n) - 1) s in
  mbrtoc32 (Some (b :: s)) n mbstate_init
  = Some (if forallb cont got
          then if n <? L then mk_mbres __MB_ERR_INCOMPLETE_SEQUENCE None None (state_of (b :: got))
               else finish L (b :: got) L
          else mbstate_reset_and_return_illegal EILSEQ).
Proof.
  intros Hb Hl HL Hs Hn got. pose proof (lead_ref_cases b L mask low Hb Hl HL) as HL4.
  unfold mbrtoc32. change (negb (mbstate_get_byte mbstate_init 3 =? 0)) with false. cbv iota. rewrite (proj2 (Z.eqb_neq n 0)) by lia.
  change (mbsinit mbstate_init) with true. rewrite (byte_ascii b Hb), (proj2 (Z.ltb_ge b 128)) by lia.
  change (mbstate_bytes_so_far mbstate_init) with 0. change (true && false) with false.
  change (0 <? 0) with false. cbv iota zeta.
  rewrite (byte_lead b Hb), Hl, Z.sub_0_r. unfold wrapU. rewrite (Z.mod_small L) by lia.
  simpl in Hn. replace (Z.to_nat (Z.min L n)) with (S (Z.to_nat (Z.min L n) - 1)) by lia.
  rewrite (fill_init _ b s L mask low) by (try done; lia). fold got.
  destruct (forallb cont got) eqn:Eg; [|done]. destruct (Z.ltb_spec n L) as [|Hge]; [done|].
  assert (Z.of_nat (length (b :: got)) = L) as Elen.
  { simpl. unfold got. rewrite length_take. lia. }
  destruct (decode_value L (b :: got) mask low b got eq_refl Hb Hl HL Elen) as [-> ->].
  unfold finish. destruct (value (b :: got) <? lower_bound L); [done|]. by case_match.
Qed.

(** * The reference and the bytes *)

Lemma utf8_small c : 0 <= c < 0x80 -> utf8 c = [c].
Proof. intros Hc. unfold utf8. by rewrite (proj2 (Z.ltb_lt c 0x80)) by lia. Qed.

(** The encoding of a larger value: its first byte, its length and its bits. *)
Lemma utf8_large c :
  0x80 <= c < 0x200000 ->
  exists b tl L mask low, utf8 c = b :: tl /\ byte b /\ lead_ref b = Some (L, mask, low) /\ 2 <= L <= 4 /\
    Forall byte tl /\ forallb cont tl = true /\ Z.of_nat (length (utf8 c)) = L /\ value (utf8 c) = c /\
    lower_bound L <= c.
Proof.
  intros Hc. unfold utf8, lead_ref, byte, cont, lower_bound. rewrite (proj2 (Z.ltb_ge c 0x80)) by lia.
  destruct (Z.ltb_spec c 0x800); [|destruct (Z.ltb_spec c 0x10000)].
  - exists (0xc0 + c / 64), [0x80 + c mod 64], 2, 0x1f, 0x80.
    assert (192 <= 0xc0 + c / 64 < 224) as H1 by (Z.div_mod_to_equations; lia).
    rewrite (proj2 (Z.ltb_ge _ 128)), (proj2 (Z.ltb_ge _ 192)), (proj2 (Z.ltb_lt _ 224)) by lia.
    repeat split; try lia; try (repeat constructor; Z.div_mod_to_equations; lia);
      simpl; Z.div_mod_to_equations; lia.
  - exists (0xe0 + c / 4096), [0x80 + (c / 64) mod 64; 0x80 + c mod 64], 3, 0x0f, 0x800.
    assert (224 <= 0xe0 + c / 4096 < 240) as H1 by (Z.div_mod_to_equations; lia).
    rewrite (proj2 (Z.ltb_ge _ 128)), (proj2 (Z.ltb_ge _ 192)), (proj2 (Z.ltb_ge _ 224)),
      (proj2 (Z.ltb_lt _ 240)) by lia.
    repeat split; try lia; try (repeat constructor; Z.div_mod_to_equations; lia);
      simpl; Z.div_mod_to_equations; lia.
  - exists (0xf0 + c / 262144), [0x80 + (c / 4096) mod 64; 0x80 + (c / 64) mod 64; 0x80 + c mod 64], 4, 0x07, 0x10000.
    assert (240 <= 0xf0 + c / 262144 < 248) as H1 by (Z.div_mod_to_equations; lia).
    rewrite (proj2 (Z.ltb_ge _ 128)), (proj2 (Z.ltb_ge _ 192)), (proj2 (Z.ltb_ge _ 224)),
      (proj2 (Z.ltb_ge _ 240)), (proj2 (Z.ltb_lt _ 248)) by lia.
    repeat split; try lia; try (repeat constructor; Z.div_mod_to_equations; lia);
      simpl; Z.div_mod_to_equations; lia.
Qed.

(** A sequence the decoder accepts is the encoding of its value. *)
Lemma value_utf8 b tl L mask low :
  byte b -> lead_ref b = Some (L, mask, low) -> 2 <= L -> Forall byte tl -> forallb cont tl = true ->
  Z.of_nat (length (b :: tl)) = L -> lower_bound L <= value (b :: tl) -> utf8 (value (b :: tl)) = b :: tl.
Proof.
  intros Hb Hl HL Htl Hc Hlen Hlow. unfold lower_bound in Hlow.
  destruct (lead_ref_cases b L mask low Hb Hl HL) as [(-> & _ & _ & Hr)|[(-> & _ & _ & Hr)|(-> & _ & _ & Hr)]].
  - destruct tl as [|b1 [|]]; simpl in Hlen; try lia. simpl in *. apply andb_prop in Hc as [C1%cont_pos _].
    unfold utf8. rewrite (proj2 (Z.ltb_ge _ 0x80)), (proj2 (Z.ltb_lt _ 0x800)) by (Z.div_mod_to_equations; lia).
    repeat f_equal; Z.div_mod_to_equations; lia.
  - destruct tl as [|b1 [|b2 [|]]]; simpl in Hlen; try lia. simpl in *.
    apply andb_prop in Hc as [C1%cont_pos [C2%cont_pos _]%andb_prop].
    unfold utf8. rewrite (proj2 (Z.ltb_ge _ 0x80)), (proj2 (Z.ltb_ge _ 0x800)), (proj2 (Z.ltb_lt _ 0x10000))
      by (Z.div_mod_to_equations; lia).
    repeat f_equal; Z.div_mod_to_equations; lia.
  - destruct tl as [|b1 [|b2 [|b3 [|]]]]; simpl in Hlen; try lia. simpl in *.
    apply andb_prop in Hc as [C1%cont_pos [C2%cont_pos [C3%cont_pos _]%andb_prop]%andb_prop].
    unfold utf8. rewrite (proj2 (Z.ltb_ge _ 0x80)), (proj2 (Z.ltb_ge _ 0x800)), (proj2 (Z.ltb_ge _ 0x10000))
      by (Z.div_mod_to_equations; lia).
    repeat f_equal; Z.div_mod_to_equations; lia.
Qed.

(** * The decoder *)

Lemma finish_ok c L bs r :
  scalar c -> 0x80 <= c -> value bs = c -> lower_bound L <= c ->
  finish L bs r = mbstate_reset_and_return r (Some c).
Proof.
  intros [Hc Hs] H80 Hv Hl. unfold finish. rewrite Hv, (proj2 (Z.ltb_ge c _)) by lia.
  replace (((0xd800 <=? c) && (c <=? 0xdfff)) || (0x10ffff <? c)) with false by lia.
  by rewrite (proj2 (Z.eqb_neq c 0)) by lia.
Qed.

Lemma finish_out L bs r c :
  mb_out (finish L bs r) = Some c -> c = value bs /\ lower_bound L <= c /\ (0 <= c -> scalar c).
Proof.
  unfold finish, scalar. destruct (Z.ltb_spec (value bs) (lower_bound L)); [done|].
  destruct (_ || _) eqn:E; [done|]. simpl. intros [= <-]. split; [done|]. split; [done|]. lia.
Qed.

Lemma value_nonneg bs : 0 <= value bs.
Proof. do 5 (destruct bs as [|? bs]; [simpl; Z.div_mod_to_equations; lia|]). done. Qed.

Lemma mbrtoc32_ascii b s n :
  byte b -> b < 128 -> n <> 0 ->
  mbrtoc32 (Some (b :: s)) n mbstate_init = Some (mk_mbres (if b =? 0 then 0 else 1) (Some b) None mbstate_init).
Proof.
  intros Hb Hlt Hn. unfold mbrtoc32. change (negb (mbstate_get_byte mbstate_init 3 =? 0)) with false. cbv iota.
  rewrite (proj2 (Z.eqb_neq n 0) Hn). change (mbsinit mbstate_init) with true.
  rewrite (byte_ascii b Hb), (proj2 (Z.ltb_lt b 128) Hlt). simpl. by destruct (b =? 0).
Qed.

Lemma mbrtoc32_bad_lead b s n :
  byte b -> lead_ref b = None -> n <> 0 ->
  mbrtoc32 (Some (b :: s)) n mbstate_init = Some (mbstate_reset_and_return_illegal EILSEQ).
Proof.
  intros Hb Hl Hn. unfold mbrtoc32. change (negb (mbstate_get_byte mbstate_init 3 =? 0)) with false. cbv iota.
  rewrite (proj2 (Z.eqb_neq n 0) Hn). change (mbsinit mbstate_init) with true.
  assert (128 <= b) by (unfold lead_ref in Hl; destruct (Z.ltb_spec b 128); [done|lia]).
  rewrite (byte_ascii b Hb), (proj2 (Z.ltb_ge b 128)) by done. simpl.
  by rewrite (byte_lead b Hb), Hl.
Qed.

(** Decoding an encoding that is followed by anything. *)
Lemma mbrtoc32_complete c rest n :
  scalar c -> Forall byte rest -> Z.of_nat (length (utf8 c)) <= n <= Z.of_nat (length (utf8 c ++ rest)) ->
  mbrtoc32 (Some (utf8 c ++ rest)) n mbstate_init
  = Some (mk_mbres (if c =? 0 then 0 else Z.of_nat (length (utf8 c))) (Some c) None mbstate_init).
Proof.
  intros Hc Hr Hn. destruct (Z.lt_ge_cases c 0x80) as [Hlt|Hge].
  - destruct Hc as [Hc _]. rewrite (utf8_small c) in * by lia. simpl in Hn.
    apply mbrtoc32_ascii; [unfold byte; lia|lia|lia].
  - destruct (utf8_large c) as (b & tl & L & mask & low & E & Hb & Hl & HL & Htl & Hcont & Hlen & Hv & Hlow);
      [destruct Hc; lia|].
    rewrite E in *. simpl app. rewrite (mbrtoc32_first b (tl ++ rest) n L mask low);
      [|done|done|lia|by apply Forall_app|simpl in *; lia].
    simpl in Hlen. replace (Z.to_nat (Z.min L n) - 1)%nat with (length tl) by (simpl in *; lia).
    rewrite take_app_length, Hcont. rewrite (proj2 (Z.ltb_ge n L)) by (simpl in *; lia).
    rewrite (finish_ok c) by done. rewrite (proj2 (Z.eqb_neq c 0)) by lia.
    unfold mbstate_reset_and_return. do 2 f_equal. simpl. lia.
Qed.

(** What the decoder accepts. *)
Lemma mbrtoc32_sound s r c :
  Forall byte s -> mbrtoc32 (Some s) (Z.of_nat (length s)) mbstate_init = Some r -> mb_out r = Some c ->
  scalar c /\ utf8 c `prefix_of` s.
Proof.
  intros Hs Hr Ho. destruct s as [|b s]; [vm_compute in Hr; by simplify_eq|].
  apply Forall_cons in Hs as [Hb Hs]. destruct (lead_ref b) as [[[L mask] low]|] eqn:Hl.
  2: { rewrite mbrtoc32_bad_lead in Hr by done. by simplify_eq. }
  destruct (Z.lt_ge_cases b 128) as [Hlt|Hge].
  { rewrite mbrtoc32_ascii in Hr by done. simplify_eq. simpl in Ho. simplify_eq. unfold byte in Hb.
    split; [unfold scalar; lia|]. rewrite utf8_small by lia. by exists s. }
  pose proof (lead_ref_long b L mask low Hge Hl) as HL.
  rewrite (mbrtoc32_first b s _ L mask low) in Hr by (try done; simpl; lia). simplify_eq.
  destruct (forallb cont _) eqn:Hcont; [|done]. destruct (Z.ltb_spec (Z.of_nat (length (b :: s))) L) as [|HnL]; [done|].
  apply finish_out in Ho as (-> & Hlow & Hsc). split; [by apply Hsc, value_nonneg|].
  pose proof (lead_ref_cases b L mask low Hb Hl HL) as HL4. simpl in HnL.
  rewrite (value_utf8 b _ L mask low); try done.
  - exists (drop (Z.to_nat (Z.min L (Z.of_nat (length (b :: s)))) - 1) s). simpl. by rewrite take_drop.
  - by apply Forall_take.
  - simpl. rewrite length_take. lia.
Qed.

(** C26: [mbrtoc32] decodes UTF-8 as RFC 3629 defines it.  On any string of bytes that is not
    empty it has a result, which means that it reads nothing outside the string; if the string
    begins with the encoding of a scalar value it gives that value and the length of the
    encoding (0 for the null character); and whenever it gives a value, that is a scalar value
    whose encoding the string begins with: no overlong form, no surrogate and no value above
    U+10FFFF is accepted. *)
Theorem mbrtoc32_correct s :
  Forall byte s -> s <> [] ->
  let decoded := mbrtoc32 (Some s) (Z.of_nat (length s)) mbstate_init in
  is_Some decoded /\
  (forall c, scalar c -> utf8 c `prefix_of` s ->
     decoded = Some (mk_mbres (if c =? 0 then 0 else Z.of_nat (length (utf8 c))) (Some c) None mbstate_init)) /\
  (forall r c, decoded = Some r -> mb_out r = Some c -> scalar c /\ utf8 c `prefix_of` s).
Proof.
  intros Hs Hne decoded. split; [|split].
  - destruct s as [|b s]; [done|]. apply Forall_cons in Hs as [Hb Hs]. unfold decoded.
    destruct (lead_ref b) as [[[L mask] low]|] eqn:Hl; [|rewrite mbrtoc32_bad_lead by done; eauto].
    destruct (Z.lt_ge_cases b 128) as [Hlt|Hge]; [rewrite mbrtoc32_ascii by done; eauto|].
    pose proof (lead_ref_long b L mask low Hge Hl) as HL.
    rewrite (mbrtoc32_first b s _ L mask low) by (try done; simpl; lia). eauto.
  - intros c Hc [rest ->]. apply Forall_app in Hs as [_ Hr]. unfold decoded.
    apply mbrtoc32_complete; [done|done|]. rewrite length_app. lia.
  - intros r c. by apply mbrtoc32_sound.
Qed.

Lemma mbrtoc32_correct_witness :
  let decoded := mbrtoc32 (Some [0xe2; 0x82; 0xac; 0x21]) 4 mbstate_init in
  is_Some decoded /\
  (forall c, scalar c -> utf8 c `prefix_of` [0xe2; 0x82; 0xac; 0x21] ->
     decoded = Some (mk_mbres (if c =? 0 then 0 else Z.of_nat (length (utf8 c))) (Some c) None mbstate_init)) /\
  (forall r c, decoded = Some r -> mb_out r = Some c -> scalar c /\ utf8 c `prefix_of` [0xe2; 0x82; 0xac; 0x21]).
Proof.
  apply (mbrtoc32_correct [0xe2; 0x82; 0xac; 0x21]); [|done].
  repeat constructor; unfold byte; lia.
Defined.

(** * Sequences in pieces *)

(** Feeds pieces of a sequence that are all incomplete. *)
Fixpoint feed (pieces : list (list Z)) (state : mbstate) : option mbstate :=
  match pieces with
  | [] => Some state
  | p :: ps =>
      match mbrtoc32 (Some p) (Z.of_nat (length p)) state with
      | Some r => if mb_ret r =? __MB_ERR_INCOMPLETE_SEQUENCE then feed ps (mb_state r) else None
      | None => None
      end
  end.

(** The part of an encoding that has been read: nothing, or a sequence that has begun. *)
Definition partial (L : Z) (pre : list Z) : Prop := pre = [] \/ begun L pre.

Lemma utf8_pieces c pre s post :
  scalar c -> utf8 c = pre ++ s ++ post -> s <> [] -> post <> [] ->
  exists L, Z.of_nat (length (utf8 c)) = L /\
    (partial L pre -> partial L (pre ++ s) /\
     mbrtoc32 (Some s) (Z.of_nat (length s)) (state_of pre)
     = Some (mk_mbres __MB_ERR_INCOMPLETE_SEQUENCE None None (state_of (pre ++ s)))).
Proof.
  intros Hc E Hs Hpost. assert (2 <= length (pre ++ s ++ post))%nat as Hlen2.
  { rewrite !length_app. destruct s, post; simpl; try done. lia. }
  destruct (Z.lt_ge_cases c 0x80) as [Hlt|Hge].
  { destruct Hc as [Hc _]. rewrite (utf8_small c) in E by lia. rewrite <- E in Hlen2. simpl in Hlen2. lia. }
  destruct (utf8_large c) as (b & tl & L & mask & low & E2 & Hb & Hl & HL & Htl & Hcont & Hlen & _);
    [destruct Hc; lia|].
  exists L. split; [done|]. rewrite E2 in E. rewrite E2, E, !length_app in Hlen.
  assert (0 < length s /\ 0 < length post)%nat as [Hs0 Hp0] by (destruct s, post; simpl; split; try done; lia).
  assert (Forall byte (b :: tl)) as Hbytes by (by constructor).
  rewrite E in Hbytes. apply Forall_app in Hbytes as [_ [Hbs _]%Forall_app].
  intros [->|Hp].
  - destruct s as [|b' s]; [done|]. injection E as <- E.
    apply Forall_cons in Hbs as [_ Hbs]. rewrite E, forallb_app in Hcont.
    apply andb_prop in Hcont as [Hcs _].
    split; [right; exists b, s, mask, low; refine (conj eq_refl (conj Hb (conj Hl (conj _ (conj Hbs Hcs))))); lia|].
    simpl app. change (state_of []) with mbstate_init.
    rewrite (mbrtoc32_first b s _ L mask low) by (try done; simpl; lia).
    rewrite take_ge by (simpl in *; lia). rewrite Hcs. by rewrite (proj2 (Z.ltb_lt _ L)) by (simpl in *; lia).
  - destruct (begun_head L pre Hp) as (b' & tl' & -> & _). injection E as <- E.
    rewrite E, !forallb_app in Hcont. apply andb_prop in Hcont as [_ [Hcs _]%andb_prop].
    split.
    + right. destruct Hp as (b0 & tl0 & mask0 & low0 & [= <- <-] & P1 & P2 & P3 & P4 & P5).
      exists b, (tl' ++ s), mask0, low0. refine (conj eq_refl (conj P1 (conj P2 (conj P3 (conj _ _))))).
      { by apply Forall_app. }
      by rewrite forallb_app, P5.
    + rewrite (mbrtoc32_more L (b :: tl') s) by (try done; simpl in *; lia).
      rewrite take_ge by (simpl in *; lia). rewrite Hcs. by rewrite (proj2 (Z.ltb_lt _ _)) by (simpl in *; lia).
Qed.

Lemma feed_pieces c pieces : forall pre last,
  scalar c -> Forall (fun p => p <> []) pieces -> last <> [] -> utf8 c = pre ++ concat pieces ++ last ->
  partial (Z.of_nat (length (utf8 c))) pre ->
  feed pieces (state_of pre) = Some (state_of (pre ++ concat pieces)) /\
  partial (Z.of_nat (length (utf8 c))) (pre ++ concat pieces).
Proof.
  induction pieces as [|p ps IH]; intros pre last Hc Hps Hlast E Hpre; simpl in *.
  - rewrite app_nil_r. done.
  - apply Forall_cons in Hps as [Hp Hps]. rewrite <- app_assoc in E.
    destruct (utf8_pieces c pre p (concat ps ++ last) Hc E Hp) as (L & <- & H).
    { by destruct (concat ps), last. }
    destruct (H Hpre) as [Hpre' ->]. simpl. rewrite app_assoc. apply (IH (pre ++ p) last); try done.
    by rewrite <- app_assoc.
Qed.

(** Decoding is restartable.  However the encoding of a scalar value is cut into pieces,
    [mbrtoc32] answers "incomplete" to all but the last and gives the value at the last one,
    with the length of that piece, and the state is initial again. *)
Theorem mbrtoc32_restartable c pieces last rest :
  scalar c -> Forall (fun p => p <> []) pieces -> last <> [] -> Forall byte rest ->
  concat pieces ++ last = utf8 c ->
  exists state, feed pieces mbstate_init = Some state /\
    mbrtoc32 (Some (last ++ rest)) (Z.of_nat (length (last ++ rest))) state
    = Some (mk_mbres (if c =? 0 then 0 else Z.of_nat (length last)) (Some c) None mbstate_init).
Proof.
  intros Hc Hps Hlast Hrest E.
  destruct (feed_pieces c pieces [] last Hc Hps Hlast (eq_sym E) (or_introl eq_refl)) as [Hf Hp].
  exists (state_of (concat pieces)). split; [exact Hf|]. simpl in Hp. destruct Hp as [E0|Hp].
  - rewrite E0 in *. simpl in E. rewrite E. apply (mbrtoc32_complete c rest); [done|done|]. rewrite length_app. lia.
  - destruct (Z.lt_ge_cases c 0x80) as [Hlt|Hge].
    { destruct (begun_head _ _ Hp) as (b & tl & Ep & Hb). rewrite (utf8_small c), Ep in E by (destruct Hc; lia).
      destruct tl, last; simplify_eq. }
    destruct (utf8_large c) as (b & tl & L & mask & low & E2 & Hb & Hl & HL & Htl & Hcont & Hlen & Hv & Hlow);
      [destruct Hc; lia|].
    assert (Forall byte (concat pieces ++ last)) as Hbytes by (rewrite E, E2; by constructor).
    apply Forall_app in Hbytes as [_ Hbl]. rewrite Hlen in Hp.
    assert (0 < length last)%nat by (destruct last; [done|simpl; lia]).
    assert (Z.of_nat (length (concat pieces)) + Z.of_nat (length last) = L) as Hsum
      by (rewrite <- Hlen, <- E, length_app; lia).
    rewrite (mbrtoc32_more L (concat pieces) (last ++ rest));
      [|done|lia|by apply Forall_app|rewrite length_app; lia].
    rewrite length_app.
    replace (Z.to_nat (Z.min (L - Z.of_nat (length (concat pieces))) (Z.of_nat (length last + length rest))))
      with (length last) by lia.
    rewrite take_app_length. assert (forallb cont last = true) as ->.
    { destruct (begun_head _ _ Hp) as (b' & tl' & Ep & _). rewrite Ep, E2 in E. injection E as <- E.
      rewrite <- E, forallb_app in Hcont. by apply andb_prop in Hcont as [_ ?]. }
    rewrite (proj2 (Z.ltb_ge _ _)) by lia. rewrite E, (finish_ok c) by done.
    rewrite (proj2 (Z.eqb_neq c 0)) by lia. unfold mbstate_reset_and_return. do 2 f_equal. lia.
Qed.

Lemma mbrtoc32_restartable_witness :
  exists state, feed [[0xf0]; [0x9f; 0x98]] mbstate_init = Some state /\
    mbrtoc32 (Some ([0x80] ++ [0x21])) 2 state
    = Some (mk_mbres (if 0x1f600 =? 0 then 0 else 1) (Some 0x1f600) None mbstate_init).
Proof.
  apply (mbrtoc32_restartable 0x1f600 [[0xf0]; [0x9f; 0x98]] [0x80] [0x21]).
  - unfold scalar. lia.
  - by repeat constructor.
  - done.
  - repeat constructor; unfold byte; lia.
  - reflexivity.
Defined.

(** * The encoder *)

(** A property of the numbers below [n], checked for each of them. *)
Lemma below_cases (n : nat) (P : Z -> bool) :
  forallb P (map Z.of_nat (seq 0 n)) = true -> forall x, 0 <= x < Z.of_nat n -> P x = true.
Proof.
  intros H x Hx. rewrite forallb_forall in H. apply H. apply in_map_iff. exists (Z.to_nat x).
  split; [lia|]. apply in_seq. lia.
Qed.

Lemma tail_byte c : Z.lor (Z.land c 0x3f) 0x80 = 0x80 + c mod 64.
Proof.
  change 0x3f with (Z.ones 6). rewrite Z.land_ones by done. change (2 ^ 6) with 64.
  apply Z.eqb_eq. apply (below_cases 64 (fun x => Z.lor x 128 =? 128 + x)); [vm_compute; reflexivity|].
  apply Z.mod_pos_bound. lia.
Qed.

Lemma first_byte r lead (n : nat) :
  forallb (fun x => Z.lor (Z.land x 0xff) lead =? lead + x) (map Z.of_nat (seq 0 n)) = true ->
  0 <= r < Z.of_nat n -> Z.lor (Z.land r 0xff) lead = lead + r.
Proof. intros H Hr. apply Z.eqb_eq. by apply (below_cases n (fun x => Z.lor (Z.land x 0xff) lead =? lead + x)). Qed.

Lemma shiftr_6 c : Z.shiftr c 6 = c / 64.
Proof. by rewrite Z.shiftr_div_pow2. Qed.

Lemma c32rtomb_utf8 c :
  0 < c < 0x200000 ->
  c32rtomb true c mbstate_init = mk_encres (Z.of_nat (length (utf8 c))) (utf8 c) None mbstate_init.
Proof.
  intros Hc. unfold c32rtomb. change (mbsinit mbstate_init) with true. simpl negb. cbv iota.
  rewrite (proj2 (Z.eqb_neq c 0)) by lia.
  change 0x7f with (Z.ones 7). change 0x7ff with (Z.ones 11). change 0xffff with (Z.ones 16).
  change 0x1fffff with (Z.ones 21). rewrite !land_lnot_ones by lia.
  change (2 ^ 7) with 0x80. change (2 ^ 11) with 0x800. change (2 ^ 16) with 0x10000.
  change (2 ^ 21) with 0x200000. unfold utf8.
  destruct (Z.ltb_spec c 0x80); [done|]. destruct (Z.ltb_spec c 0x800); [|destruct (Z.ltb_spec c 0x10000)].
  - simpl. rewrite tail_byte, shiftr_6, (first_byte _ _ 32); [done|vm_compute; reflexivity|Z.div_mod_to_equations; lia].
  - simpl. rewrite !tail_byte, !shiftr_6, (first_byte _ _ 16), Z.div_div;
      [done|lia..|vm_compute; reflexivity|rewrite Z.div_div by lia; Z.div_mod_to_equations; lia].
  - rewrite (proj2 (Z.ltb_lt c 0x200000)) by lia. simpl.
    rewrite !tail_byte, !shiftr_6, !Z.div_div by lia. simpl.
    rewrite (first_byte _ _ 8); [done|vm_compute; reflexivity|Z.div_mod_to_equations; lia].
Qed.

(** [c32rtomb] and [mbrtoc32] are inverse to each other.  Every scalar value is encoded, as
    RFC 3629 defines it, and what is encoded decodes to it, consuming exactly the bytes
    stored. *)
Theorem utf8_roundtrip c :
  scalar c ->
  let e := c32rtomb true c mbstate_init in
  enc_bytes e = utf8 c /\ enc_ret e = Z.of_nat (length (utf8 c)) /\ enc_errno e = None /\
  mbrtoc32 (Some (enc_bytes e)) (enc_ret e) (enc_state e)
  = Some (mk_mbres (if c =? 0 then 0 else enc_ret e) (Some c) None mbstate_init).
Proof.
  intros Hc e. destruct (Z.eq_dec c 0) as [->|Hne]; [repeat split|].
  unfold e. rewrite c32rtomb_utf8 by (destruct Hc; lia). simpl. repeat split.
  rewrite <- (app_nil_r (utf8 c)) at 1. apply mbrtoc32_complete; [done|by constructor|]. rewrite length_app. simpl. lia.
Qed.

Lemma utf8_roundtrip_witness :
  let e := c32rtomb true 0x20ac mbstate_init in
  enc_bytes e = utf8 0x20ac /\ enc_ret e = Z.of_nat (length (utf8 0x20ac)) /\ enc_errno e = None /\
  mbrtoc32 (Some (enc_bytes e)) (enc_ret e) (enc_state e)
  = Some (mk_mbres (if 0x20ac =? 0 then 0 else enc_ret e) (Some 0x20ac) None mbstate_init).
Proof. apply (utf8_roundtrip 0x20ac). unfold scalar. lia. Defined.

(** The encoder accepts more than the decoder.  A surrogate, or a value from 0x110000 to
    0x1fffff, is encoded without an error, and the decoder then refuses the bytes with
    EILSEQ. *)
Theorem c32rtomb_accepts_non_scalars c :
  (0xd800 <= c <= 0xdfff) \/ (0x110000 <= c < 0x200000) ->
  let e := c32rtomb true c mbstate_init in
  enc_errno e = None /\ 3 <= enc_ret e <= 4 /\
  mbrtoc32 (Some (enc_bytes e)) (enc_ret e) mbstate_init = Some (mbstate_reset_and_return_illegal EILSEQ).
Proof.
  intros Hc e. unfold e. rewrite c32rtomb_utf8 by lia. simpl. split; [done|].
  destruct (utf8_large c) as (b & tl & L & mask & low & E & Hb & Hl & HL & Htl & Hcont & Hlen & Hv & Hlow); [lia|].
  split.
  { unfold utf8. rewrite (proj2 (Z.ltb_ge c 0x80)), (proj2 (Z.ltb_ge c 0x800)) by lia.
    destruct (c <? 0x10000); simpl; lia. }
  rewrite Hlen, E in *. simpl in Hlen. rewrite (mbrtoc32_first b tl L L mask low) by (try done; simpl; lia).
  rewrite take_ge by lia. rewrite Hcont, (proj2 (Z.ltb_ge L L)) by lia. unfold finish. rewrite Hv.
  rewrite (proj2 (Z.ltb_ge c _)) by lia.
  replace (((0xd800 <=? c) && (c <=? 0xdfff)) || (0x10ffff <? c)) with true by lia. done.
Qed.

Lemma c32rtomb_accepts_non_scalars_witness :
  let e := c32rtomb true 0xd800 mbstate_init in
  enc_errno e = None /\ 3 <= enc_ret e <= 4 /\
  mbrtoc32 (Some (enc_bytes e)) (enc_ret e) mbstate_init = Some (mbstate_reset_and_return_illegal EILSEQ).
Proof. apply (c32rtomb_accepts_non_scalars 0xd800). lia. Defined.

(** * UTF-16 *)

(** The surrogate pair of a supplementary character. *)
Definition high_of (c : Z) : Z := 0xd800 + (c - 0x10000) / 1024.
Definition low_of (c : Z) : Z := 0xdc00 + (c - 0x10000) mod 1024.

Lemma pair_bounds c :
  0x10000 <= c <= 0x10ffff ->
  0 <= (c - 0x10000) / 1024 < 1024 /\ 0 <= (c - 0x10000) mod 1024 < 1024 /\
  c = 1024 * ((c - 0x10000) / 1024) + (c - 0x10000) mod 1024 + 0x10000.
Proof. intros Hc. Z.div_mod_to_equations; lia. Qed.

Lemma lor_low h l : 0 <= l < 1024 -> Z.lor (1024 * h) l = 1024 * h + l.
Proof. intros Hl. rewrite Z.mul_comm. by apply (lor_low_bits 10). Qed.

(** The state between the halves of a pair. *)
Definition half_state (h : Z) : mbstate :=
  let c32 := wrapU 32 (Z.shiftl h 10) in
  mk_mbstate 0 0 (Z.shiftr (Z.land c32 0x00ff00) 8) (Z.shiftr (Z.land c32 0xff0000) 16).

Lemma c16rtomb_high h priv :
  0 <= h < 1024 -> c16rtomb true (0xd800 + h) mbstate_init priv = (mk_encres 0 [] None (half_state h), priv).
Proof.
  intros Hh. unfold c16rtomb. change (mbsinit mbstate_init) with true. cbv iota.
  unfold is_high_surrogate. replace ((0xd800 <=? 0xd800 + h) && (0xd800 + h <? 0xdc00)) with true by lia.
  cbv iota zeta. replace (Z.land (0xd800 + h) (Z.lnot 0xd800)) with h; [done|].
  symmetry. apply Z.eqb_eq.
  apply (below_cases 1024 (fun h => Z.land (0xd800 + h) (Z.lnot 0xd800) =? h)); [vm_compute; reflexivity|lia].
Qed.

Lemma half_state_bits h :
  0 <= h < 1024 ->
  Z.lor (Z.shiftl (mbstate_get_byte (half_state h) 3) 16) (Z.shiftl (mbstate_get_byte (half_state h) 2) 8)
  = 1024 * h /\ mbsinit (half_state h) = (h =? 0).
Proof.
  intros Hh. rewrite <- Z.eqb_eq, <- (eqb_true_iff (mbsinit _)). apply andb_true_iff.
  apply (below_cases 1024 (fun h =>
    (Z.lor (Z.shiftl (mbstate_get_byte (half_state h) 3) 16) (Z.shiftl (mbstate_get_byte (half_state h) 2) 8)
     =? 1024 * h) && eqb (mbsinit (half_state h)) (h =? 0))); [vm_compute; reflexivity|lia].
Qed.

Lemma low_bits l : 0 <= l < 1024 -> Z.land (0xdc00 + l) (Z.lnot 0xdc00) = l.
Proof.
  intros Hl. apply Z.eqb_eq.
  apply (below_cases 1024 (fun l => Z.land (0xdc00 + l) (Z.lnot 0xdc00) =? l)); [vm_compute; reflexivity|lia].
Qed.

(** [c16rtomb] encodes surrogate pairs.  For every character from U+10400 to U+10FFFF the
    call with the first half stores nothing and returns 0, and the call with the second half
    stores the UTF-8 encoding of the character and returns its length. *)
Theorem c16rtomb_pairs c :
  0x10400 <= c <= 0x10ffff ->
  exists state,
    c16rtomb true (high_of c) mbstate_init mbstate_init = (mk_encres 0 [] None state, mbstate_init) /\
    c16rtomb true (low_of c) state mbstate_init
    = (mk_encres 4 (utf8 c) None mbstate_init, mbstate_init).
Proof.
  intros Hc. destruct (pair_bounds c) as (Hh & Hl & E); [lia|].
  exists (half_state ((c - 0x10000) / 1024)). unfold high_of, low_of. split; [by apply c16rtomb_high|].
  destruct (half_state_bits _ Hh) as [Hbits Hinit]. unfold c16rtomb.
  rewrite Hinit, (proj2 (Z.eqb_neq _ 0)) by (Z.div_mod_to_equations; lia). unfold is_low_surrogate.
  replace ((0xdc00 <=? 0xdc00 + (c - 0x10000) mod 1024) && (0xdc00 + (c - 0x10000) mod 1024 <? 0xe000))
    with true by lia.
  simpl negb. cbv iota zeta. rewrite Hbits, low_bits, lor_low, <- E by done.
  rewrite c32rtomb_utf8 by lia. simpl. repeat f_equal. unfold utf8.
  by rewrite (proj2 (Z.ltb_ge c 0x80)), (proj2 (Z.ltb_ge c 0x800)), (proj2 (Z.ltb_ge c 0x10000)) by lia.
Qed.

Lemma c16rtomb_pairs_witness :
  exists state,
    c16rtomb true (high_of 0x1f600) mbstate_init mbstate_init = (mk_encres 0 [] None state, mbstate_init) /\
    c16rtomb true (low_of 0x1f600) state mbstate_init
    = (mk_encres 4 (utf8 0x1f600) None mbstate_init, mbstate_init).
Proof. apply (c16rtomb_pairs 0x1f600). lia. Defined.

(** C34: the first 1024 supplementary characters cannot be encoded from UTF-16.  Their first half
    is 0xD800, whose ten bits are zero; the state it leaves is the initial state, and the
    second half is refused with EINVAL. *)
Theorem c16rtomb_loses_d800 c :
  0x10000 <= c < 0x10400 ->
  high_of c = 0xd800 /\
  c16rtomb true (high_of c) mbstate_init mbstate_init = (mk_encres 0 [] None mbstate_init, mbstate_init) /\
  c16rtomb true (low_of c) mbstate_init mbstate_init
  = (mk_encres __MB_ERR_ILLEGAL_SEQUENCE [] (Some EINVAL) mbstate_init, mbstate_init).
Proof.
  intros Hc. destruct (pair_bounds c) as (Hh & Hl & E); [lia|].
  assert ((c - 0x10000) / 1024 = 0) as E0 by (Z.div_mod_to_equations; lia).
  unfold high_of, low_of. rewrite E0. split; [done|]. split; [reflexivity|].
  unfold c16rtomb. change (mbsinit mbstate_init) with true. cbv iota. unfold is_high_surrogate, is_low_surrogate.
  replace ((0xd800 <=? 0xdc00 + (c - 0x10000) mod 1024) && (0xdc00 + (c - 0x10000) mod 1024 <? 0xdc00)) with false by lia.
  by replace ((0xdc00 <=? 0xdc00 + (c - 0x10000) mod 1024) && (0xdc00 + (c - 0x10000) mod 1024 <? 0xe000)) with true by lia.
Qed.

Lemma c16rtomb_loses_d800_witness :
  high_of 0x10000 = 0xd800 /\
  c16rtomb true (high_of 0x10000) mbstate_init mbstate_init = (mk_encres 0 [] None mbstate_init, mbstate_init) /\
  c16rtomb true (low_of 0x10000) mbstate_init mbstate_init
  = (mk_encres __MB_ERR_ILLEGAL_SEQUENCE [] (Some EINVAL) mbstate_init, mbstate_init).
Proof. apply (c16rtomb_loses_d800 0x10000). lia. Defined.

Lemma begin_surrogate_bits c :
  0x10000 <= c <= 0x10ffff ->
  begin_surrogate c 4 mbstate_init
  = mk_mbres (wrapU 64 (-3)) (Some (high_of c)) None
      (mk_mbstate (low_of c mod 256) (low_of c / 256) 0 4).
Proof.
  intros Hc. destruct (pair_bounds c Hc) as (Hh & Hl & E). unfold begin_surrogate, high_of, low_of.
  change 0x3ff with (Z.ones 10). rewrite Z.land_ones by done. change (2 ^ 10) with 1024.
  set (l := (c - 0x10000) mod 1024) in *.
  assert (Z.lor l 0xdc00 = 0xdc00 + l) as ->.
  { apply Z.eqb_eq. apply (below_cases 1024 (fun l => Z.lor l 0xdc00 =? 0xdc00 + l)); [vm_compute; reflexivity|lia]. }
  change 0xffc00 with (Z.shiftl (Z.ones 10) 10). rewrite land_field by done. change (2 ^ 10) with 1024.
  rewrite Z.shiftr_div_pow2 by done. change (2 ^ 10) with 1024. rewrite Z.div_mul, Z.mod_small by lia.
  set (h := (c - 0x10000) / 1024) in *.
  assert (Z.lor h 0xd800 = 0xd800 + h) as ->.
  { apply Z.eqb_eq. apply (below_cases 1024 (fun h => Z.lor h 0xd800 =? 0xd800 + h)); [vm_compute; reflexivity|lia]. }
  change 0x00ff with (Z.ones 8). rewrite Z.land_ones by done. change (2 ^ 8) with 256.
  change 0xff00 with (Z.shiftl (Z.ones 8) 8). rewrite land_field, Z.shiftr_div_pow2 by done. change (2 ^ 8) with 256.
  rewrite Z.div_mul, (Z.mod_small ((0xdc00 + l) / 256)) by (Z.div_mod_to_equations; lia). done.
Qed.

(** [mbrtoc16] decodes UTF-8 to UTF-16.  For the encoding of a scalar value other than the
    null character, followed by anything: below U+10000 one call gives the value and the length
    of the encoding; from U+10000 on the first call gives the high surrogate and -3, and the
    next call, whatever it is given, the low surrogate and 4. *)
Theorem mbrtoc16_correct c rest s' n' :
  scalar c -> c <> 0 -> Forall byte rest ->
  let s := utf8 c ++ rest in
  (c < 0x10000 -> mbrtoc16 (Some s) (Z.of_nat (length s)) mbstate_init
     = Some (mk_mbres (Z.of_nat (length (utf8 c))) (Some c) None mbstate_init)) /\
  (0x10000 <= c -> exists state,
     mbrtoc16 (Some s) (Z.of_nat (length s)) mbstate_init
     = Some (mk_mbres (wrapU 64 (-3)) (Some (high_of c)) None state) /\
     mbrtoc16 s' n' state = Some (mk_mbres 4 (Some (low_of c)) None mbstate_init)).
Proof.
  intros Hc Hne Hr s. unfold mbrtoc16. change (mbspartialc16 mbstate_init) with false. cbv iota.
  unfold s. rewrite mbrtoc32_complete by (try done; rewrite length_app; lia). simpl mb_ret. simpl mb_out. simpl mb_state.
  rewrite (proj2 (Z.eqb_neq c 0)) by done. destruct Hc as [Hc Hs].
  assert (1 <= Z.of_nat (length (utf8 c)) <= 4) as Hlen by (unfold utf8; repeat case_match; simpl; lia).
  assert (__MB_IS_ERR (Z.of_nat (length (utf8 c))) = false) as ->.
  { unfold __MB_IS_ERR.
    change (wrapU 64 (-1)) with 18446744073709551615. change (wrapU 64 (-2)) with 18446744073709551614. lia. }
  rewrite (proj2 (Z.eqb_neq _ 0)) by lia. rewrite (proj2 (Z.ltb_ge 0x10ffff c)) by lia.
  split; intros Hlt; [by rewrite (proj2 (Z.ltb_lt c 0x10000))|].
  rewrite (proj2 (Z.ltb_ge c 0x10000)) by done.
  assert (Z.of_nat (length (utf8 c)) = 4) as ->.
  { unfold utf8. rewrite (proj2 (Z.ltb_ge c 0x80)), (proj2 (Z.ltb_ge c 0x800)), (proj2 (Z.ltb_ge c 0x10000)) by lia. done. }
  rewrite begin_surrogate_bits by lia. eexists. split; [reflexivity|].
  unfold mbspartialc16. simpl. unfold finish_surrogate, mbstate_reset_and_return. simpl. repeat f_equal.
  destruct (pair_bounds c) as (_ & Hl & _); [lia|]. unfold low_of. apply Z.eqb_eq.
  apply (below_cases 1024 (fun l => Z.lor (Z.shiftl ((0xdc00 + l) / 256) 8) ((0xdc00 + l) mod 256) =? 0xdc00 + l));
    [vm_compute; reflexivity|lia].
Qed.

Lemma mbrtoc16_correct_witness :
  let s := utf8 0x1f600 ++ [0x21] in
  (0x1f600 < 0x10000 -> mbrtoc16 (Some s) (Z.of_nat (length s)) mbstate_init
     = Some (mk_mbres (Z.of_nat (length (utf8 0x1f600))) (Some 0x1f600) None mbstate_init)) /\
  (0x10000 <= 0x1f600 -> exists state,
     mbrtoc16 (Some s) (Z.of_nat (length s)) mbstate_init
     = Some (mk_mbres (wrapU 64 (-3)) (Some (high_of 0x1f600)) None state) /\
     mbrtoc16 (Some [0x21]) 1 state = Some (mk_mbres 4 (Some (low_of 0x1f600)) None mbstate_init)).
Proof.
  apply (mbrtoc16_correct 0x1f600 [0x21] (Some [0x21]) 1).
  - unfold scalar. lia.
  - done.
  - repeat constructor; unfold byte; lia.
Defined.
