(* ===== verification/Result.v ===== *)
(** Results of sequential code that can abort.

    A call ends with a result ([Ok]), ends the process with a message ([Fatal]), or does something
    C gives no meaning to, such as an access outside an array ([Fault]). *)

From S2P Require Import Prelude.

Inductive result (A : Type) :=
| Ok (a : A)
| Fatal
| Fault.

Arguments Ok {A} a.
Arguments Fatal {A}.
Arguments Fault {A}.

Definition obind {A B} (x : result A) (f : A -> result B) : result B :=
  match x with Ok a => f a | Fatal => Fatal | Fault => Fault end.

Definition omap_ok {A B} (f : A -> B) (x : result A) : result B :=
  match x with Ok a => Ok (f a) | Fatal => Fatal | Fault => Fault end.

(** A function whose only failure is an access outside an array. *)
Definition run {A} (x : option A) : result A :=
  match x with Some a => Ok a | None => Fault end.

(** An element of an array. *)
Definition at_ {A} (l : list A) (i : nat) : result A := run (l !! i).

Declare Scope result_scope.
Notation "x <-- e ;; k" := (obind e (fun x => k))
  (at level 100, e at next level, right associativity) : result_scope.
Open Scope result_scope.
