(* ===== verification/Ctype.v ===== *)
(** Character classification: libc/include/bits/ctype_inlines.h, with the table of
    libc/upstream-openbsd/lib/libc/gen/ctype_.c.

    Most predicates compare ranges; [isalnum] and [ispunct] look into a table.  The theorem says
    that the two ways agree, for every argument the C standard allows. *)

From S2P Require Import Prelude.

(** * Definitions *)

Abbreviation _CTYPE_U := 0x01.
Abbreviation _CTYPE_L := 0x02.
Abbreviation _CTYPE_D := 0x04.
Abbreviation _CTYPE_S := 0x08.
Abbreviation _CTYPE_P := 0x10.
Abbreviation _CTYPE_C := 0x20.
Abbreviation _CTYPE_X := 0x40.
Abbreviation _CTYPE_B := 0x80.
Abbreviation _CTYPE_N := _CTYPE_D.

(** One entry for EOF and one for each [unsigned char]; an entry is a [char], so [_CTYPE_B] is
    negative.  The entries from 0x80 on are zero. *)
Definition _C_ctype_ : list Z :=
  [0;
   _CTYPE_C; _CTYPE_C; _CTYPE_C; _CTYPE_C; _CTYPE_C; _CTYPE_C; _CTYPE_C; _CTYPE_C;
   _CTYPE_C; Z.lor _CTYPE_C _CTYPE_S; Z.lor _CTYPE_C _CTYPE_S; Z.lor _CTYPE_C _CTYPE_S; Z.lor _CTYPE_C _CTYPE_S; Z.lor _CTYPE_C _CTYPE_S; _CTYPE_C; _CTYPE_C;
   _CTYPE_C; _CTYPE_C; _CTYPE_C; _CTYPE_C; _CTYPE_C; _CTYPE_C; _CTYPE_C; _CTYPE_C;
   _CTYPE_C; _CTYPE_C; _CTYPE_C; _CTYPE_C; _CTYPE_C; _CTYPE_C; _CTYPE_C; _CTYPE_C;
   Z.lor _CTYPE_S (wrapS 8 _CTYPE_B); _CTYPE_P; _CTYPE_P; _CTYPE_P; _CTYPE_P; _CTYPE_P; _CTYPE_P; _CTYPE_P;
   _CTYPE_P; _CTYPE_P; _CTYPE_P; _CTYPE_P; _CTYPE_P; _CTYPE_P; _CTYPE_P; _CTYPE_P;
   _CTYPE_N; _CTYPE_N; _CTYPE_N; _CTYPE_N; _CTYPE_N; _CTYPE_N; _CTYPE_N; _CTYPE_N;
   _CTYPE_N; _CTYPE_N; _CTYPE_P; _CTYPE_P; _CTYPE_P; _CTYPE_P; _CTYPE_P; _CTYPE_P;
   _CTYPE_P; Z.lor _CTYPE_U _CTYPE_X; Z.lor _CTYPE_U _CTYPE_X; Z.lor _CTYPE_U _CTYPE_X; Z.lor _CTYPE_U _CTYPE_X; Z.lor _CTYPE_U _CTYPE_X; Z.lor _CTYPE_U _CTYPE_X; _CTYPE_U;
   _CTYPE_U; _CTYPE_U; _CTYPE_U; _CTYPE_U; _CTYPE_U; _CTYPE_U; _CTYPE_U; _CTYPE_U;
   _CTYPE_U; _CTYPE_U; _CTYPE_U; _CTYPE_U; _CTYPE_U; _CTYPE_U; _CTYPE_U; _CTYPE_U;
   _CTYPE_U; _CTYPE_U; _CTYPE_U; _CTYPE_P; _CTYPE_P; _CTYPE_P; _CTYPE_P; _CTYPE_P;
   _CTYPE_P; Z.lor _CTYPE_L _CTYPE_X; Z.lor _CTYPE_L _CTYPE_X; Z.lor _CTYPE_L _CTYPE_X; Z.lor _CTYPE_L _CTYPE_X; Z.lor _CTYPE_L _CTYPE_X; Z.lor _CTYPE_L _CTYPE_X; _CTYPE_L;
   _CTYPE_L; _CTYPE_L; _CTYPE_L; _CTYPE_L; _CTYPE_L; _CTYPE_L; _CTYPE_L; _CTYPE_L;
   _CTYPE_L; _CTYPE_L; _CTYPE_L; _CTYPE_L; _CTYPE_L; _CTYPE_L; _CTYPE_L; _CTYPE_L;
   _CTYPE_L; _CTYPE_L; _CTYPE_L; _CTYPE_P; _CTYPE_P; _CTYPE_P; _CTYPE_P; _CTYPE_C] ++ repeat 0 128.

(** The table lookup [_ctype_[__ch + 1] & mask]; [None] is a read outside the table. *)
Definition ctype_lookup (ch mask : Z) : option bool :=
  if ch + 1 <? 0 then None else
  match _C_ctype_ !! Z.to_nat (ch + 1) with
  | Some entry => Some (truthy (Z.land entry mask))
  | None => None
  end.

Definition isalnum (ch : Z) : option bool := ctype_lookup ch (Z.lor (Z.lor _CTYPE_U _CTYPE_L) _CTYPE_N).
Definition isalpha (ch : Z) : bool := (65 <=? ch) && (ch <=? 90) || (97 <=? ch) && (ch <=? 122).
Definition isblank (ch : Z) : bool := (ch =? 32) || (ch =? 9).
Definition iscntrl (ch : Z) : bool := (wrapU 32 ch <? 32) || (ch =? 0x7f).
Definition isdigit (ch : Z) : bool := (48 <=? ch) && (ch <=? 57).
Definition isgraph (ch : Z) : bool := (33 <=? ch) && (ch <=? 126).
Definition islower (ch : Z) : bool := (97 <=? ch) && (ch <=? 122).
Definition isprint (ch : Z) : bool := (32 <=? ch) && (ch <=? 126).
Definition ispunct (ch : Z) : option bool := ctype_lookup ch _CTYPE_P.
Definition isspace (ch : Z) : bool := (ch =? 32) || (9 <=? ch) && (ch <=? 13).
Definition isupper (ch : Z) : bool := (65 <=? ch) && (ch <=? 90).
Definition isxdigit (ch : Z) : bool :=
  (48 <=? ch) && (ch <=? 57) || (97 <=? ch) && (ch <=? 102) || (65 <=? ch) && (ch <=? 70).
Definition _tolower (ch : Z) : Z := Z.lor ch 0x20.
Definition tolower (ch : Z) : Z := if (65 <=? ch) && (ch <=? 90) then _tolower ch else ch.
Definition _toupper (ch : Z) : Z := Z.lxor ch 0x20.
Definition toupper (ch : Z) : Z := if (97 <=? ch) && (ch <=? 122) then _toupper ch else ch.
Definition isascii (ch : Z) : bool := wrapU 32 ch <? 0x80.
Definition toascii (ch : Z) : Z := Z.land ch 0x7f.

(** * The classes partition the characters *)

(** What the C standard says of the C locale, by one character. *)
Definition classes_ok (ch : Z) : bool :=
  bool_decide (isalnum ch = Some (isalpha ch || isdigit ch)) &&
  bool_decide (ispunct ch = Some (isgraph ch && negb (isalpha ch || isdigit ch))) &&
  eqb (isalpha ch) (isupper ch || islower ch) && negb (isupper ch && islower ch) &&
  eqb (isprint ch) (isgraph ch || (ch =? 32)) &&
  implb (isblank ch) (isspace ch) && implb (isxdigit ch) (isalpha ch || isdigit ch) &&
  implb (0 <=? ch) (eqb (isascii ch) (isprint ch || iscntrl ch)) && negb (isprint ch && iscntrl ch) &&
  (if isupper ch then islower (tolower ch) && (toupper (tolower ch) =? ch) else tolower ch =? ch) &&
  (if islower ch then isupper (toupper ch) && (tolower (toupper ch) =? ch) else toupper ch =? ch) &&
  isascii (toascii ch).

Lemma all_classes_ok : forallb (fun n => classes_ok (Z.of_nat n - 1)) (seq 0 257) = true.
Proof. vm_compute. reflexivity. Qed.

(** The classification of characters.  For EOF and every [unsigned char] the table lookups
    stay inside the table and agree with the ranges: [isalnum] is letter or digit, [ispunct] is
    graphic and neither.  Letters are upper or lower case and not both, printable is graphic or
    space, every ASCII character is printable or control and not both, and [tolower] and
    [toupper] are inverse to each other on letters and leave the rest alone. *)
Theorem ctype_correct ch :
  -1 <= ch <= 255 ->
  isalnum ch = Some (isalpha ch || isdigit ch) /\
  ispunct ch = Some (isgraph ch && negb (isalpha ch || isdigit ch)) /\
  classes_ok ch = true.
Proof.
  intros Hch. assert (classes_ok ch = true) as H.
  { pose proof all_classes_ok as Hall. rewrite forallb_forall in Hall.
    specialize (Hall (Z.to_nat (ch + 1))). rewrite in_seq in Hall.
    replace (Z.of_nat (Z.to_nat (ch + 1)) - 1) with ch in Hall by lia. apply Hall. lia. }
  split; [|split]; [..|done]; unfold classes_ok in H; rewrite !andb_true_iff in H; destruct_and!;
    by eapply bool_decide_eq_true_1.
Qed.

Lemma ctype_correct_witness :
  isalnum 95 = Some (isalpha 95 || isdigit 95) /\
  ispunct 95 = Some (isgraph 95 && negb (isalpha 95 || isdigit 95)) /\ classes_ok 95 = true.
Proof. apply (ctype_correct 95). lia. Defined.
