(* ===== verification/StrTol.v ===== *)
(** Integers from strings: libc/bionic/strtol.cpp.

    [StrToI] and [StrToU] are the two templates behind strtol, strtoul and their kin.  A C string
    is a list of characters with its terminator; a read outside the list is [None].  The theorems
    say that the templates read the string as the C standard describes it, clamp the number to
    the type and report ERANGE, without an overflow on the way and without a read past the
    terminator. *)

From S2P Require Import Prelude Ctype.

(** * Definitions *)

(** The result, the index stored through [endptr], the errno value if one was set. *)
Record strto := mk_strto { st_value : Z; st_end : Z; st_errno : option Z }.

(** [do { c = *s++; } while (isspace(c));] *)
Fixpoint skip_space (fuel : nat) (buf : list Z) (s : nat) : option (Z * nat) :=
  match fuel with
  | O => None
  | S fuel =>
      match buf !! s with
      | None => None
      | Some c => if isspace c then skip_space fuel buf (S s) else Some (c, S s)
      end
  end.

(** The sign, the next character and the pointer behind it. *)
Definition read_sign (buf : list Z) (c : Z) (s : nat) : option (bool * Z * nat) :=
  if c =? 45 then match buf !! s with Some c => Some (true, c, S s) | None => None end
  else if c =? 43 then match buf !! s with Some c => Some (false, c, S s) | None => None end
  else Some (false, c, s).

(** The prefix [0x], and the base it or a leading zero stands for; [&&] reads no further than it
    must. *)
Definition read_prefix (buf : list Z) (base c : Z) (s : nat) : option (Z * Z * nat) :=
  let no_prefix := Some (if base =? 0 then (if c =? 48 then 8 else 10) else base, c, s) in
  if ((base =? 0) || (base =? 16)) && (c =? 48) then
    match buf !! s with
    | None => None
    | Some c0 =>
        if (c0 =? 120) || (c0 =? 88) then
          match buf !! S s with
          | None => None
          | Some c1 => if isxdigit c1 then Some (16, c1, S (S s)) else no_prefix
          end
        else no_prefix
    end
  else no_prefix.

(** The value of a digit. *)
Definition digit_of (c : Z) : option Z :=
  if isdigit c then Some (c - 48)
  else if isalpha c then Some (c - (if isupper c then 65 - 10 else 97 - 10))
  else None.

(** The loop over the digits.  [over] is the test for the next digit being one too many, [push]
    appends a digit, [limit] is the value after an overflow. *)
Fixpoint digits_loop (over : Z -> Z -> bool) (push : Z -> Z -> Z) (limit base : Z)
    (fuel : nat) (buf : list Z) (c : Z) (s : nat) (any acc : Z) (err : option Z)
    : option (Z * Z * option Z * nat) :=
  match fuel with
  | O => None
  | S fuel =>
      match digit_of c with
      | None => Some (any, acc, err, s)
      | Some d =>
          if base <=? d then Some (any, acc, err, s) else
          match buf !! s with
          | None => None
          | Some c' =>
              let next := digits_loop over push limit base fuel buf c' (S s) in
              if any <? 0 then next any acc err
              else if over acc d then next (-1) limit (Some ERANGE)
              else next 1 (push acc d) err
          end
      end
  end.

Definition bad_base (base : Z) : bool := (base <? 0) || (base =? 1) || (36 <? base).

(** White space, sign and prefix: the sign, the base, the first digit and the pointer. *)
Definition read_head (buf : list Z) (base : Z) : option (bool * Z * Z * nat) :=
  match skip_space (S (length buf)) buf 0 with
  | None => None
  | Some (c, s) =>
      match read_sign buf c s with
      | None => None
      | Some (neg, c, s) =>
          match read_prefix buf base c s with
          | None => None
          | Some (base, c, s) => Some (neg, base, c, s)
          end
      end
  end.

Definition end_index (any : Z) (s : nat) : Z := if truthy any then Z.of_nat s - 1 else 0.

(** [T] is a signed type of [w] bits. *)
Definition StrToI (w Min Max : Z) (buf : list Z) (base : Z) : option strto :=
  if bad_base base then Some (mk_strto 0 0 (Some EINVAL)) else
  match read_head buf base with
  | None => None
  | Some (neg, base, c, s) =>
      let cutoff := Z.quot Min base in
      let cutlim := - Z.rem Min base in
      match digits_loop (fun acc d => (acc <? cutoff) || (acc =? cutoff) && (cutlim <? d))
              (fun acc d => wrapS w (wrapS w (acc * base) - d)) Min base
              (S (length buf)) buf c s 0 0 None with
      | None => None
      | Some (any, acc, err, s) =>
          let e := end_index any s in
          if (neg : bool) then Some (mk_strto acc e err)
          else if acc =? Min then Some (mk_strto Max e (Some ERANGE))
          else Some (mk_strto (wrapS w (- acc)) e err)
      end
  end.

(** [T] is an unsigned type of [w] bits. *)
Definition StrToU (w Max : Z) (buf : list Z) (base : Z) : option strto :=
  if bad_base base then Some (mk_strto 0 0 (Some EINVAL)) else
  match read_head buf base with
  | None => None
  | Some (neg, base, c, s) =>
      let cutoff := Z.quot Max base in
      let cutlim := Z.rem Max base in
      match digits_loop (fun acc d => (cutoff <? acc) || (acc =? cutoff) && (cutlim <? d))
              (fun acc d => wrapU w (wrapU w (acc * base) + d)) Max base
              (S (length buf)) buf c s 0 0 None with
      | None => None
      | Some (any, acc, err, s) =>
          let acc := if neg && (0 <? any) then wrapU w (- acc) else acc in
          Some (mk_strto acc (end_index any s) err)
      end
  end.

(** The instances, where long, long long and intmax_t have 64 bits. *)
Abbreviation LONG_MIN := (- 2 ^ 63).
Abbreviation LONG_MAX := (2 ^ 63 - 1).
Abbreviation ULONG_MAX := (2 ^ 64 - 1).

Definition strtoimax (buf : list Z) (base : Z) : option strto := StrToI 64 LONG_MIN LONG_MAX buf base.
Definition strtol (buf : list Z) (base : Z) : option strto := StrToI 64 LONG_MIN LONG_MAX buf base.
Definition strtoll (buf : list Z) (base : Z) : option strto := StrToI 64 LONG_MIN LONG_MAX buf base.
Definition strtoul (buf : list Z) (base : Z) : option strto := StrToU 64 ULONG_MAX buf base.
Definition strtoull (buf : list Z) (base : Z) : option strto := StrToU 64 ULONG_MAX buf base.
Definition strtoumax (buf : list Z) (base : Z) : option strto := StrToU 64 ULONG_MAX buf base.

Definition atoi (buf : list Z) : option Z := option_map (fun r => wrapS 32 (st_value r)) (strtol buf 10).
Definition atol (buf : list Z) : option Z := option_map st_value (strtol buf 10).
Definition atoll (buf : list Z) : option Z := option_map st_value (strtoll buf 10).

(** * The reading of a string, by the C standard *)

(** White space. *)
Fixpoint drop_space (str : list Z) : list Z :=
  match str with c :: str' => if isspace c then drop_space str' else str | [] => [] end.

(** The optional sign. *)
Definition split_sign (str : list Z) : bool * list Z :=
  match str with
  | c :: str' => if c =? 45 then (true, str') else if c =? 43 then (false, str') else (false, str)
  | [] => (false, [])
  end.

(** The base, and the rest of the string after a prefix. *)
Definition split_prefix (base : Z) (str : list Z) : Z * list Z :=
  let base0 := if base =? 0 then (match str with 48 :: _ => 8 | _ => 10 end) else base in
  match str with
  | 48 :: x :: c :: str' =>
      if ((base =? 0) || (base =? 16)) && ((x =? 120) || (x =? 88)) && isxdigit c
      then (16, c :: str') else (base0, str)
  | _ => (base0, str)
  end.

(** The longest sequence of digits of the base. *)
Fixpoint digits (base : Z) (str : list Z) : list Z :=
  match str with
  | c :: str' =>
      match digit_of c with
      | Some d => if d <? base then d :: digits base str' else []
      | None => []
      end
  | [] => []
  end.

Definition number (base : Z) (ds : list Z) : Z := fold_left (fun n d => n * base + d) ds 0.

(** The sign, the digits and the number of characters up to the end of the digits. *)
Definition subject (str : list Z) (base : Z) : bool * Z * list Z * Z :=
  let '(neg, str2) := split_sign (drop_space str) in
  let '(base', str3) := split_prefix base str2 in
  let ds := digits base' str3 in
  (neg, base', ds, Z.of_nat (length str) - Z.of_nat (length str3) + Z.of_nat (length ds)).

Definition strtol_spec (Min Max : Z) (str : list Z) (base : Z) : strto :=
  let '(neg, base', ds, e) := subject str base in
  let v := if (neg : bool) then - number base' ds else number base' ds in
  let e := match ds with [] => 0 | _ => e end in
  if v <? Min then mk_strto Min e (Some ERANGE)
  else if Max <? v then mk_strto Max e (Some ERANGE)
  else mk_strto v e None.

(** A number that fits is negated in the type if it has a minus sign. *)
Definition strtoul_spec (Max : Z) (str : list Z) (base : Z) : strto :=
  let '(neg, base', ds, e) := subject str base in
  let v := number base' ds in
  let e := match ds with [] => 0 | _ => e end in
  if Max <? v then mk_strto Max e (Some ERANGE)
  else mk_strto (if (neg : bool) then (- v) mod (Max + 1) else v) e None.

(** * The scan of the head *)

Lemma split_prefix_other base r : hd 0 r <> 48 -> split_prefix base r = (if base =? 0 then 10 else base, r).
Proof.
  intros Hc. destruct r as [|x r]; [done|]. simpl in *.
  unfold split_prefix. destruct x as [|p|p]; try done. repeat (destruct p as [p|p|]; try done).
Qed.

Section scan.
Context (buf post : list Z).

(** The scan has read [c], the first character of [r] or the terminator, and [s] points behind
    it. *)
Definition scanned (r : list Z) (c : Z) (s : nat) : Prop :=
  exists pre, buf = pre ++ r ++ 0 :: post /\ s = S (length pre) /\ c = hd 0 r.

Lemma scanned_next x r c s : scanned (x :: r) c s -> exists c', buf !! s = Some c' /\ scanned r c' (S s).
Proof.
  intros (pre & E & -> & ->). exists (hd 0 r). split.
  - rewrite E, lookup_app_r by lia. replace (S (length pre) - length pre)%nat with 1%nat by lia. by destruct r.
  - exists (pre ++ [x]). rewrite E, <- app_assoc, length_app. simpl. repeat split. lia.
Qed.

Lemma skip_space_spec fuel pre r :
  buf = pre ++ r ++ 0 :: post -> (length r < fuel)%nat ->
  exists c s, skip_space fuel buf (length pre) = Some (c, s) /\ scanned (drop_space r) c s.
Proof.
  revert pre r. induction fuel as [|fuel IH]; intros pre r E Hf; [lia|].
  simpl. rewrite E, lookup_app_r, Nat.sub_diag by lia. destruct r as [|x r]; simpl in *.
  - exists 0, (S (length pre)). split; [done|]. by exists pre.
  - destruct (isspace x).
    + destruct (IH (pre ++ [x]) r) as (c & s & H & Hs); [by rewrite E, <- app_assoc|lia|].
      exists c, s. rewrite length_app in H. simpl in H. rewrite Nat.add_comm in H. simpl in H.
      rewrite E in H. done.
    + exists x, (S (length pre)). split; [done|]. by exists pre.
Qed.

Lemma scanned_char r c s : scanned r c s -> c <> 0 -> exists r', r = c :: r'.
Proof. intros (pre & E & -> & ->). destruct r as [|x r]; [done|]. by exists r. Qed.

Lemma read_sign_spec r c s :
  scanned r c s ->
  exists c' s', read_sign buf c s = Some ((split_sign r).1, c', s') /\ scanned (split_sign r).2 c' s'.
Proof.
  intros Hs. unfold read_sign. destruct (Z.eqb_spec c 45) as [->|N1]; [|destruct (Z.eqb_spec c 43) as [->|N2]].
  - destruct (scanned_char r 45 s Hs) as [r' ->]; [done|]. destruct (scanned_next _ _ _ _ Hs) as (c' & -> & Hs').
    by exists c', (S s).
  - destruct (scanned_char r 43 s Hs) as [r' ->]; [done|]. destruct (scanned_next _ _ _ _ Hs) as (c' & -> & Hs').
    by exists c', (S s).
  - exists c, s. pose proof Hs as (pre & _ & _ & E). destruct r as [|x r]; [done|]. simpl in *. subst x.
    by rewrite (proj2 (Z.eqb_neq _ _) N1), (proj2 (Z.eqb_neq _ _) N2).
Qed.

Lemma split_prefix_zero base r :
  split_prefix base (48 :: r)
  = match r with
    | x :: c :: r' =>
        if ((base =? 0) || (base =? 16)) && ((x =? 120) || (x =? 88)) && isxdigit c
        then (16, c :: r') else (if base =? 0 then 8 else base, 48 :: r)
    | _ => (if base =? 0 then 8 else base, 48 :: r)
    end.
Proof. by destruct r as [|x [|c r]]. Qed.

Lemma read_prefix_spec base r c s :
  scanned r c s ->
  exists c' s', read_prefix buf base c s = Some ((split_prefix base r).1, c', s') /\
    scanned (split_prefix base r).2 c' s'.
Proof.
  intros Hs. unfold read_prefix. destruct (Z.eqb_spec c 48) as [->|Hc].
  2: { pose proof Hs as (pre & _ & _ & ->). rewrite andb_false_r, (split_prefix_other base r Hc). by exists (hd 0 r), s. }
  rewrite andb_true_r. destruct (scanned_char r 48 s Hs) as [r' ->]; [done|].
  rewrite split_prefix_zero. destruct (scanned_next _ _ _ _ Hs) as (c0 & E0 & Hs0). rewrite E0.
  destruct ((base =? 0) || (base =? 16)).
  2: { exists 48, s. by destruct r' as [|x [|c1 r1]]. }
  pose proof Hs0 as (pre0 & _ & _ & Ec0).
  destruct r' as [|x r1]; simpl in Ec0; subst c0; [by exists 48, s|].
  destruct (scanned_next _ _ _ _ Hs0) as (c1 & E1 & Hs1). rewrite E1.
  pose proof Hs1 as (pre1 & _ & _ & Ec1).
  destruct ((x =? 120) || (x =? 88)); simpl andb; cbv iota.
  - destruct r1 as [|c2 r2]; simpl in Ec1; subst c1; [by exists 48, s|].
    destruct (isxdigit c2); [|by exists 48, s]. by exists c2, (S (S s)).
  - destruct r1 as [|c2 r2]; by exists 48, s.
Qed.

End scan.

Lemma read_head_spec str post base :
  let buf := str ++ 0 :: post in
  exists c s, read_head buf base
    = Some ((split_sign (drop_space str)).1, (split_prefix base (split_sign (drop_space str)).2).1, c, s) /\
    scanned buf post (split_prefix base (split_sign (drop_space str)).2).2 c s.
Proof.
  intros buf. unfold read_head.
  destruct (skip_space_spec buf post (S (length buf)) [] str) as (c & s & E & Hs); [done|unfold buf; rewrite length_app; lia|].
  change (length []) with 0%nat in E. rewrite E.
  destruct (read_sign_spec buf post _ _ _ Hs) as (c1 & s1 & -> & Hs1).
  destruct (read_prefix_spec buf post base _ _ _ Hs1) as (c2 & s2 & -> & Hs2). by exists c2, s2.
Qed.

(** * The digits *)

Lemma digit_of_nonneg c d : digit_of c = Some d -> 0 <= d.
Proof.
  unfold digit_of, isdigit, isalpha, isupper. intros H. repeat case_match; simplify_eq; lia.
Qed.

Section loop.
Context (buf post : list Z) (over : Z -> Z -> bool) (push : Z -> Z -> Z) (limit base M : Z) (enc : Z -> Z).
Context (Hbase : 2 <= base)
  (Hover : forall V d, 0 <= V <= M -> 0 <= d < base -> over (enc V) d = (M <? V * base + d))
  (Hpush : forall V d, 0 <= V -> 0 <= d < base -> V * base + d <= M -> push (enc V) d = enc (V * base + d)).

(** The variables of the loop after digits with the value [V], if there were [n] of them. *)
Definition loop_state (any acc : Z) (err : option Z) (V : Z) (n : nat) : Prop :=
  if M <? V then any = -1 /\ acc = limit /\ err = Some ERANGE
  else acc = enc V /\ err = None /\ any = if (n =? 0)%nat then 0 else 1.

Lemma digits_loop_spec fuel r c s any acc err V n :
  scanned buf post r c s -> (length r < fuel)%nat -> 0 <= V -> loop_state any acc err V n ->
  exists any' acc' err',
    digits_loop over push limit base fuel buf c s any acc err
    = Some (any', acc', err', (s + length (digits base r))%nat) /\
    loop_state any' acc' err' (fold_left (fun n d => n * base + d) (digits base r) V)
      (n + length (digits base r))%nat.
Proof using Hbase Hover Hpush.
  revert r c s any acc err V n. induction fuel as [|fuel IH]; intros r c s any acc err V n Hs Hf HV Hst; [lia|].
  assert (digits base r = [] -> exists any' acc' err', Some (any, acc, err, s)
    = Some (any', acc', err', (s + length (digits base r))%nat) /\
    loop_state any' acc' err' (fold_left (fun n d => n * base + d) (digits base r) V)
      (n + length (digits base r))%nat) as Hstop.
  { intros ->. exists any, acc, err. rewrite !Nat.add_0_r. done. }
  pose proof Hs as (pre & _ & _ & Ec). simpl.
  destruct (digit_of c) as [d|] eqn:Ed.
  2: { apply Hstop. destruct r as [|x r]; [done|]. simpl in *. subst x. by rewrite Ed. }
  destruct r as [|x r]; [subst c; done|]. simpl in Ec. subst x. simpl digits in Hstop |- *. rewrite Ed in Hstop |- *.
  destruct (Z.leb_spec base d) as [Hd|Hd].
  { rewrite (proj2 (Z.ltb_ge d base)) in Hstop |- * by done. by apply Hstop. }
  rewrite (proj2 (Z.ltb_lt d base)) by done. pose proof (digit_of_nonneg c d Ed) as Hd0.
  destruct (scanned_next _ _ _ _ _ _ Hs) as (c' & -> & Hs'). simpl length in *.
  assert (forall any1 acc1 err1, loop_state any1 acc1 err1 (V * base + d) (S n) ->
    exists any' acc' err', digits_loop over push limit base fuel buf c' (S s) any1 acc1 err1
    = Some (any', acc', err', (s + S (length (digits base r)))%nat) /\
    loop_state any' acc' err' (fold_left (fun n d => n * base + d) (digits base r) (V * base + d))
      (n + S (length (digits base r)))%nat) as Hgo.
  { intros any1 acc1 err1 H1. replace (s + S (length (digits base r)))%nat with (S s + length (digits base r))%nat by lia.
    replace (n + S (length (digits base r)))%nat with (S n + length (digits base r))%nat by lia.
    apply IH; [done|lia|nia|done]. }
  clear IH Hstop. unfold loop_state in Hst. destruct (Z.ltb_spec M V) as [HM|HM].
  - destruct Hst as (-> & -> & ->). simpl. apply Hgo. unfold loop_state. rewrite (proj2 (Z.ltb_lt _ _)) by nia. done.
  - destruct Hst as (-> & -> & ->). replace ((if (n =? 0)%nat then 0 else 1) <? 0) with false by (by destruct (n =? 0)%nat).
    rewrite Hover by lia. destruct (Z.ltb_spec M (V * base + d)) as [HM'|HM']; apply Hgo; unfold loop_state.
    + by rewrite (proj2 (Z.ltb_lt _ _)).
    + rewrite (proj2 (Z.ltb_ge _ _)), Hpush by lia. done.
Qed.

End loop.

(** The test of the code against the value of the digits. *)
Lemma cut_spec M base V d :
  0 <= V <= M -> 2 <= base -> 0 <= d < base ->
  (M / base <? V) || (V =? M / base) && (M mod base <? d) = (M <? V * base + d).
Proof.
  intros HV Hb Hd. pose proof (Z.div_mod M base ltac:(lia)). pose proof (Z.mod_pos_bound M base ltac:(lia)).
  destruct (Z.ltb_spec (M / base) V); simpl.
  - symmetry. apply Z.ltb_lt. nia.
  - destruct (Z.eqb_spec V (M / base)) as [->|]; simpl.
    + destruct (Z.ltb_spec (M mod base) d), (Z.ltb_spec M (M / base * base + d)); try done; nia.
    + symmetry. apply Z.ltb_ge. nia.
Qed.

Lemma number_nonneg base ds V : 2 <= base -> 0 <= V -> Forall (fun d => 0 <= d) ds -> 0 <= fold_left (fun n d => n * base + d) ds V.
Proof.
  intros Hb HV Hds. revert V HV. induction Hds as [|d ds Hd _ IH]; intros V HV; simpl; [done|]. apply IH. nia.
Qed.

Lemma digits_nonneg base r : Forall (fun d => 0 <= d) (digits base r).
Proof.
  induction r as [|c r IH]; simpl; [constructor|]. destruct (digit_of c) as [d|] eqn:E; [|constructor].
  destruct (d <? base); [|constructor]. constructor; [by eapply digit_of_nonneg|done].
Qed.

Lemma split_prefix_base base r :
  bad_base base = false -> 2 <= (split_prefix base r).1.
Proof.
  intros Hb. unfold bad_base in Hb. assert (2 <= (if base =? 0 then 10 else base) /\ 2 <= (if base =? 0 then 8 else base)) as [H1 H2].
  { rewrite !orb_false_iff in Hb. destruct Hb as [[B0 B1] B2]. apply Z.ltb_ge in B0, B2. apply Z.eqb_neq in B1.
    destruct (Z.eqb_spec base 0); lia. }
  destruct r as [|x r]; [done|]. destruct (Z.eqb_spec x 48) as [->|Hx].
  - rewrite split_prefix_zero. destruct r as [|y [|c r]]; try done. destruct (_ && _); [simpl; lia|done].
  - by rewrite (split_prefix_other base (x :: r)).
Qed.

Section results.
Context (str post : list Z) (base : Z) (Hbase : bad_base base = false).

Abbreviation buf := (str ++ 0 :: post).
Abbreviation neg := (split_sign (drop_space str)).1.
Abbreviation base' := (split_prefix base (split_sign (drop_space str)).2).1.
Abbreviation ds := (digits base' (split_prefix base (split_sign (drop_space str)).2).2).

Lemma subject_eq :
  subject str base = (neg, base', ds, Z.of_nat (length str)
    - Z.of_nat (length (split_prefix base (split_sign (drop_space str)).2).2) + Z.of_nat (length ds)).
Proof using Type. unfold subject. destruct (split_sign _) as [n r2]. simpl. by destruct (split_prefix base r2). Qed.

(** What the head and the loop over the digits leave, for either template. *)
Lemma parse_spec over push limit M enc :
  0 <= M -> enc 0 = 0 ->
  (forall V d, 0 <= V <= M -> 0 <= d < base' -> over (enc V) d = (M <? V * base' + d)) ->
  (forall V d, 0 <= V -> 0 <= d < base' -> V * base' + d <= M -> push (enc V) d = enc (V * base' + d)) ->
  exists c s any acc err s',
    read_head buf base = Some (neg, base', c, s) /\
    digits_loop over push limit base' (S (length buf)) buf c s 0 0 None = Some (any, acc, err, s') /\
    loop_state limit M enc any acc err (number base' ds) (length ds) /\
    end_index any s' = match ds with [] => 0 | _ => (subject str base).2 end.
Proof using Hbase.
  intros HM H0 Hover Hpush. destruct (read_head_spec str post base) as (c & s & Eh & Hs).
  pose proof (split_prefix_base base (split_sign (drop_space str)).2 Hbase) as Hb.
  destruct Hs as (pre & E & -> & Ec) eqn:Hs'. clear Hs'.
  assert (length str = length pre + length (split_prefix base (split_sign (drop_space str)).2).2)%nat as Hlen.
  { apply (f_equal length) in E. rewrite !length_app in E. simpl in E. lia. }
  destruct (digits_loop_spec buf post over push limit base' M enc Hb Hover Hpush (S (length buf))
    (split_prefix base (split_sign (drop_space str)).2).2 c (S (length pre)) 0 0 None 0 0)
    as (any & acc & err & El & Hst).
  - by exists pre.
  - rewrite length_app. simpl. lia.
  - done.
  - unfold loop_state. rewrite (proj2 (Z.ltb_ge M 0)) by done. by rewrite H0.
  - simpl in Hst. exists c, (S (length pre)), any, acc, err. eexists. split; [done|]. split; [exact El|]. split; [done|].
    rewrite subject_eq. simpl snd. unfold loop_state in Hst. fold (number base' ds) in Hst. unfold end_index.
    destruct ds as [|d ds'] eqn:Eds.
    + unfold number in Hst. simpl in Hst. rewrite (proj2 (Z.ltb_ge M 0)) in Hst by done. destruct Hst as (_ & _ & ->). done.
    + assert (truthy any = true) as -> by (destruct (M <? _); destruct Hst as (? & ? & ?); by subst any).
      lia.
Qed.

Lemma number_ds_nonneg : 0 <= number base' ds.
Proof using Hbase. apply number_nonneg; [by apply split_prefix_base|done|apply digits_nonneg]. Qed.

Lemma StrToI_spec w :
  1 <= w ->
  StrToI w (- 2 ^ (w - 1)) (2 ^ (w - 1) - 1) buf base
  = Some (strtol_spec (- 2 ^ (w - 1)) (2 ^ (w - 1) - 1) str base).
Proof using Hbase.
  intros Hw. set (M := 2 ^ (w - 1)). assert (0 < M) as HM by (apply Z.pow_pos_nonneg; lia).
  pose proof (split_prefix_base base (split_sign (drop_space str)).2 Hbase) as Hb. pose proof number_ds_nonneg as HN.
  assert (Z.quot (- M) base' = - (M / base')) as Hq by (rewrite Z.quot_opp_l, Z.quot_div_nonneg; lia).
  assert (- Z.rem (- M) base' = M mod base') as Hr by (rewrite Z.rem_opp_l, Z.rem_mod_nonneg; lia).
  destruct (parse_spec (fun acc d => (acc <? Z.quot (- M) base') || (acc =? Z.quot (- M) base') && (- Z.rem (- M) base' <? d))
    (fun acc d => wrapS w (wrapS w (acc * base') - d)) (- M) M Z.opp)
    as (c & s & any & acc & err & s' & Eh & El & Hst & Ee); [lia|done|..].
  - intros V d HV Hd. rewrite Hq, Hr, <- (cut_spec M base' V d) by lia. f_equal; [|f_equal];
      apply eq_true_iff_eq; rewrite ?Z.ltb_lt, ?Z.eqb_eq; lia.
  - intros V d HV Hd HMd. rewrite (wrapS_small w (- V * base')), wrapS_small; fold M; nia.
  - unfold StrToI, strtol_spec. rewrite Hbase, Eh, El, Ee. rewrite subject_eq in *. simpl snd in *.
    unfold loop_state in Hst. set (e := match ds with [] => 0 | _ => _ end).
    destruct (Z.ltb_spec M (number base' ds)) as [Hov|Hov]; destruct Hst as (Ha & Her & Hn); subst.
    + destruct neg.
      * by rewrite (proj2 (Z.ltb_lt _ _)) by lia.
      * rewrite Z.eqb_refl, (proj2 (Z.ltb_ge _ _)), (proj2 (Z.ltb_lt _ _)) by lia. done.
    + destruct neg.
      * by rewrite !(proj2 (Z.ltb_ge _ _)) by lia.
      * rewrite (proj2 (Z.ltb_ge _ (- M))) by lia. destruct (Z.eqb_spec (- number base' ds) (- M)).
        -- by rewrite (proj2 (Z.ltb_lt _ _)) by lia.
        -- rewrite (proj2 (Z.ltb_ge _ _)), Z.opp_involutive, wrapS_small by (fold M; lia). done.
Qed.

Lemma StrToU_spec w :
  1 <= w -> StrToU w (2 ^ w - 1) buf base = Some (strtoul_spec (2 ^ w - 1) str base).
Proof using Hbase.
  intros Hw. set (M := 2 ^ w - 1). assert (0 < 2 ^ w) as HM by (apply Z.pow_pos_nonneg; lia).
  pose proof (split_prefix_base base (split_sign (drop_space str)).2 Hbase) as Hb. pose proof number_ds_nonneg as HN.
  assert (Z.quot M base' = M / base') as Hq by (rewrite Z.quot_div_nonneg; lia).
  assert (Z.rem M base' = M mod base') as Hr by (rewrite Z.rem_mod_nonneg; lia).
  assert (forall x, 0 <= x <= M -> wrapU w x = x) as Hwrap by (intros x Hx; unfold wrapU; apply Z.mod_small; lia).
  destruct (parse_spec (fun acc d => (Z.quot M base' <? acc) || (acc =? Z.quot M base') && (Z.rem M base' <? d))
    (fun acc d => wrapU w (wrapU w (acc * base') + d)) M M (fun V => V))
    as (c & s & any & acc & err & s' & Eh & El & Hst & Ee); [lia|done|..].
  - intros V d HV Hd. by rewrite Hq, Hr, <- (cut_spec M base' V d) by lia.
  - intros V d HV Hd HMd. rewrite (Hwrap (V * base')), Hwrap; nia.
  - unfold StrToU, strtoul_spec. rewrite Hbase, Eh, El, Ee. rewrite subject_eq in *. simpl snd in *.
    unfold loop_state in Hst. set (e := match ds with [] => 0 | _ => _ end).
    destruct (Z.ltb_spec M (number base' ds)) as [Hov|Hov]; destruct Hst as (Ha & Her & Hn); subst.
    + simpl. by rewrite andb_false_r.
    + replace (M + 1) with (2 ^ w) by lia. destruct neg; [|done]. destruct ds as [|d ds'] eqn:Eds; simpl.
      * unfold number. simpl. by rewrite Z.mod_0_l by lia.
      * done.
Qed.

End results.

(** Strtol and its kin.  For every string, base and signed type of [w] bits the call returns,
    reading nothing past the terminator.  A base that is neither 0 nor from 2 to 36 gives 0 and
    EINVAL.  Otherwise the call skips white space, takes a sign and a prefix, and reads the
    longest sequence of digits of the base: the result is the number, clamped to the type with
    ERANGE, and the end is behind the digits, or the start of the string if there are none. *)
Theorem StrToI_correct w str post base :
  1 <= w ->
  StrToI w (- 2 ^ (w - 1)) (2 ^ (w - 1) - 1) (str ++ 0 :: post) base
  = Some (if bad_base base then mk_strto 0 0 (Some EINVAL)
          else strtol_spec (- 2 ^ (w - 1)) (2 ^ (w - 1) - 1) str base).
Proof.
  intros Hw. destruct (bad_base base) eqn:Hb; [unfold StrToI; by rewrite Hb|]. by apply StrToI_spec.
Qed.

(** "  -0x7fz" in base 0. *)
Lemma StrToI_correct_witness :
  StrToI 64 (- 2 ^ (64 - 1)) (2 ^ (64 - 1) - 1) ([32; 32; 45; 48; 120; 55; 102; 122] ++ 0 :: []) 0
  = Some (mk_strto (-127) 7 None).
Proof. exact (StrToI_correct 64 [32; 32; 45; 48; 120; 55; 102; 122] [] 0 ltac:(lia)). Defined.

(** Strtoul and its kin.  As for the signed types, except that a number too large for the type
    gives the largest value and ERANGE whatever the sign, and that a number that fits is
    negated modulo 2^[w] if it has a minus sign. *)
Theorem StrToU_correct w str post base :
  1 <= w ->
  StrToU w (2 ^ w - 1) (str ++ 0 :: post) base
  = Some (if bad_base base then mk_strto 0 0 (Some EINVAL) else strtoul_spec (2 ^ w - 1) str base).
Proof.
  intros Hw. destruct (bad_base base) eqn:Hb; [unfold StrToU; by rewrite Hb|]. by apply StrToU_spec.
Qed.

(** "-1" in base 10. *)
Lemma StrToU_correct_witness :
  StrToU 64 (2 ^ 64 - 1) ([45; 49] ++ 0 :: []) 10 = Some (mk_strto (2 ^ 64 - 1) 2 None).
Proof. exact (StrToU_correct 64 [45; 49] [] 10 ltac:(lia)). Defined.
