(* ===== verification/CString.v ===== *)
(** String functions of the C library: upstream-openbsd/lib/libc/string.

    A pointer into a character array that is only read is the list of the bytes from there to the
    end of the array; a pointer that is written through is such a list too, and the function
    returns the new contents.  Bytes are 0 to 255.  A read or a write past the end of an array is
    [None], so that a theorem that gives a [Some] also says that the function stays inside its
    arrays.  The arrays read and written are distinct objects, as the C standard asks.

    The theorems compare the functions with list operations: lexicographic order, longest
    prefixes, first and last occurrences, and explicit contents of the written arrays. *)

From S2P Require Import Prelude Ctype.

(** * Definitions *)

Fixpoint strlen (str : list Z) : option nat :=
  match str with
  | [] => None
  | c :: str => if c =? 0 then Some O else S <$> strlen str
  end.

(** ** Comparison *)

Fixpoint strcmp (s1 s2 : list Z) : option Z :=
  match s1, s2 with
  | c1 :: s1, c2 :: s2 =>
      if c1 =? c2 then (if c1 =? 0 then Some 0 else strcmp s1 s2) else Some (c1 - c2)
  | _, _ => None
  end.

Fixpoint strncmp (s1 s2 : list Z) (n : nat) {struct n} : option Z :=
  match n with
  | O => Some 0
  | S n =>
      match s1, s2 with
      | c1 :: s1, c2 :: s2 =>
          if c1 =? c2 then (if c1 =? 0 then Some 0 else strncmp s1 s2 n) else Some (c1 - c2)
      | _, _ => None
      end
  end.

Definition charmap : list Z :=
  [0; 1; 2; 3; 4; 5; 6; 7; 8; 9; 10; 11; 12; 13; 14; 15;
   16; 17; 18; 19; 20; 21; 22; 23; 24; 25; 26; 27; 28; 29; 30; 31;
   32; 33; 34; 35; 36; 37; 38; 39; 40; 41; 42; 43; 44; 45; 46; 47;
   48; 49; 50; 51; 52; 53; 54; 55; 56; 57; 58; 59; 60; 61; 62; 63;
   64; 97; 98; 99; 100; 101; 102; 103; 104; 105; 106; 107; 108; 109; 110; 111;
   112; 113; 114; 115; 116; 117; 118; 119; 120; 121; 122; 91; 92; 93; 94; 95;
   96; 97; 98; 99; 100; 101; 102; 103; 104; 105; 106; 107; 108; 109; 110; 111;
   112; 113; 114; 115; 116; 117; 118; 119; 120; 121; 122; 123; 124; 125; 126; 127;
   128; 129; 130; 131; 132; 133; 134; 135; 136; 137; 138; 139; 140; 141; 142; 143;
   144; 145; 146; 147; 148; 149; 150; 151; 152; 153; 154; 155; 156; 157; 158; 159;
   160; 161; 162; 163; 164; 165; 166; 167; 168; 169; 170; 171; 172; 173; 174; 175;
   176; 177; 178; 179; 180; 181; 182; 183; 184; 185; 186; 187; 188; 189; 190; 191;
   192; 193; 194; 195; 196; 197; 198; 199; 200; 201; 202; 203; 204; 205; 206; 207;
   208; 209; 210; 211; 212; 213; 214; 215; 216; 217; 218; 219; 220; 221; 222; 223;
   224; 225; 226; 227; 228; 229; 230; 231; 232; 233; 234; 235; 236; 237; 238; 239;
   240; 241; 242; 243; 244; 245; 246; 247; 248; 249; 250; 251; 252; 253; 254; 255].

Fixpoint strcasecmp (us1 us2 : list Z) : option Z :=
  match us1, us2 with
  | c1 :: us1, c2 :: us2 =>
      match charmap !! Z.to_nat c1, charmap !! Z.to_nat c2 with
      | Some m1, Some m2 =>
          if m1 =? m2 then (if c1 =? 0 then Some 0 else strcasecmp us1 us2) else Some (m1 - m2)
      | _, _ => None
      end
  | _, _ => None
  end.

Fixpoint strncasecmp (us1 us2 : list Z) (n : nat) {struct n} : option Z :=
  match n with
  | O => Some 0
  | S n =>
      match us1, us2 with
      | c1 :: us1, c2 :: us2 =>
          match charmap !! Z.to_nat c1, charmap !! Z.to_nat c2 with
          | Some m1, Some m2 =>
              if m1 =? m2 then (if c1 =? 0 then Some 0 else strncasecmp us1 us2 n)
              else Some (m1 - m2)
          | _, _ => None
          end
      | _, _ => None
      end
  end.

(** ** Searching; a returned pointer is an index, a null pointer is [None] *)

(** [for (spanp = s2; ( sc = *spanp++ ) != 0;) if (sc == c) ...]: whether the body's jump is
    taken. *)
Fixpoint span_in (c : Z) (spanp : list Z) : option bool :=
  match spanp with
  | [] => None
  | sc :: spanp => if sc =? 0 then Some false else if sc =? c then Some true else span_in c spanp
  end.

(** [do { if ((sc = *spanp++) == c) ... } while (sc != 0)] *)
Fixpoint cspan_in (c : Z) (spanp : list Z) : option bool :=
  match spanp with
  | [] => None
  | sc :: spanp => if sc =? c then Some true else if sc =? 0 then Some false else cspan_in c spanp
  end.

Fixpoint strspn (s1 s2 : list Z) : option nat :=
  match s1 with
  | [] => None
  | c :: s1 =>
      match span_in c s2 with
      | None => None
      | Some true => S <$> strspn s1 s2
      | Some false => Some O
      end
  end.

Fixpoint strcspn (s1 s2 : list Z) : option nat :=
  match s1 with
  | [] => None
  | c :: s1 =>
      match cspan_in c s2 with
      | None => None
      | Some true => Some O
      | Some false => S <$> strcspn s1 s2
      end
  end.

Fixpoint strpbrk (s1 s2 : list Z) : option (option nat) :=
  match s1 with
  | [] => None
  | c :: s1 =>
      if c =? 0 then Some None
      else match span_in c s2 with
           | None => None
           | Some true => Some (Some O)
           | Some false => option_map (option_map S) (strpbrk s1 s2)
           end
  end.

Fixpoint memchr (p : list Z) (c : Z) (n : nat) {struct n} : option (option nat) :=
  match n with
  | O => Some None
  | S n =>
      match p with
      | [] => None
      | x :: p => if x =? wrapU 8 c then Some (Some O) else option_map (option_map S) (memchr p c n)
      end
  end.

Fixpoint memrchr (s : list Z) (c : Z) (n : nat) : option (option nat) :=
  match n with
  | O => Some None
  | S n =>
      match s !! n with
      | None => None
      | Some x => if x =? wrapU 8 c then Some (Some n) else memrchr s c n
      end
  end.

(** ** Copying *)

(** [*d = c]; the contents from [d] on. *)
Definition put (d : list Z) (c : Z) : option (list Z) :=
  match d with [] => None | _ :: d => Some (c :: d) end.

Fixpoint strcpy (to from : list Z) : option (list Z) :=
  match from, to with
  | c :: from, _ :: to => if c =? 0 then Some (c :: to) else cons c <$> strcpy to from
  | _, _ => None
  end.

(** The array and the index of the terminator. *)
Fixpoint stpcpy (to from : list Z) : option (list Z * nat) :=
  match from, to with
  | c :: from, _ :: to =>
      if c =? 0 then Some (c :: to, O)
      else match stpcpy to from with Some (to, i) => Some (c :: to, S i) | None => None end
  | _, _ => None
  end.

Fixpoint strcat (s append : list Z) : option (list Z) :=
  match s with
  | [] => None
  | c :: s' => if c =? 0 then strcpy s append else cons c <$> strcat s' append
  end.

(** [while (--n != 0) *d++ = 0;] with [n] zeros to write. *)
Fixpoint pad (d : list Z) (n : nat) {struct n} : option (list Z) :=
  match n, d with
  | O, _ => Some d
  | S n, _ :: d => cons 0 <$> pad d n
  | S _, [] => None
  end.

Fixpoint strncpy (d s : list Z) (n : nat) {struct n} : option (list Z) :=
  match n with
  | O => Some d
  | S n =>
      match s, d with
      | c :: s, _ :: d => if c =? 0 then cons 0 <$> pad d n else cons c <$> strncpy d s n
      | _, _ => None
      end
  end.

(** The array and the index returned. *)
Fixpoint stpncpy (d s : list Z) (n : nat) {struct n} : option (list Z * nat) :=
  match n with
  | O => Some (d, O)
  | S n =>
      match s, d with
      | c :: s, _ :: d =>
          if c =? 0 then match pad d n with Some d => Some (0 :: d, O) | None => None end
          else match stpncpy d s n with Some (d, i) => Some (c :: d, S i) | None => None end
      | _, _ => None
      end
  end.

(** The second loop of strncat and the store that follows it. *)
Fixpoint strncat_copy (d s : list Z) (n : nat) {struct n} : option (list Z) :=
  match n with
  | O => put d 0
  | S n =>
      match s, d with
      | c :: s, _ :: d => if c =? 0 then put (c :: d) 0 else cons c <$> strncat_copy d s n
      | _, _ => None
      end
  end.

(** The first loop: [while ( *d != 0 ) d++;] *)
Fixpoint strncat_end (d s : list Z) (n : nat) : option (list Z) :=
  match d with
  | [] => None
  | c :: d' => if c =? 0 then strncat_copy d s n else cons c <$> strncat_end d' s n
  end.

Definition strncat (dst src : list Z) (n : nat) : option (list Z) :=
  match n with O => Some dst | S _ => strncat_end dst src n end.

(** The loop of strlcpy with [nleft] bytes left besides the one for the terminator, and what
    follows it: the array and the number of bytes read before the terminator of [src]. *)
Fixpoint strlcpy_copy (dst src : list Z) (nleft : nat) {struct nleft} : option (list Z * nat) :=
  match nleft with
  | O => match put dst 0, strlen src with Some dst, Some k => Some (dst, k) | _, _ => None end
  | S nleft =>
      match src, dst with
      | c :: src, _ :: dst =>
          if c =? 0 then Some (c :: dst, O)
          else match strlcpy_copy dst src nleft with
               | Some (dst, k) => Some (c :: dst, S k)
               | None => None
               end
      | _, _ => None
      end
  end.

Definition strlcpy (dst src : list Z) (dsize : nat) : option (list Z * nat) :=
  match dsize with
  | O => match strlen src with Some k => Some (dst, k) | None => None end
  | S nleft => strlcpy_copy dst src nleft
  end.

(** The loop over [src] with room for [n] more bytes, and the final store: the array and the
    length of [src]. *)
Fixpoint strlcat_append (dst src : list Z) (n : nat) : option (list Z * nat) :=
  match src with
  | [] => None
  | c :: src =>
      if c =? 0 then match put dst 0 with Some dst => Some (dst, O) | None => None end
      else match n, dst with
           | O, _ => match strlcat_append dst src O with
                     | Some (dst, k) => Some (dst, S k)
                     | None => None
                     end
           | S n, _ :: dst => match strlcat_append dst src n with
                              | Some (dst, k) => Some (c :: dst, S k)
                              | None => None
                              end
           | S _, [] => None
           end
  end.

(** The loop that finds the end of [dst], with [n] bytes of it left. *)
Fixpoint strlcat (dst src : list Z) (n : nat) {struct n} : option (list Z * nat) :=
  match n with
  | O => match strlen src with Some k => Some (dst, k) | None => None end
  | S n =>
      match dst with
      | [] => None
      | c :: dst' =>
          if c =? 0 then strlcat_append dst src n
          else match strlcat dst' src n with
               | Some (dst', k) => Some (c :: dst', S k)
               | None => None
               end
      end
  end.

(** The array and the index returned. *)
Fixpoint memccpy (tp fp : list Z) (c : Z) (n : nat) {struct n} : option (list Z * option nat) :=
  match n with
  | O => Some (tp, None)
  | S n =>
      match fp, tp with
      | x :: fp, _ :: tp =>
          if x =? wrapU 8 c then Some (x :: tp, Some 1%nat)
          else match memccpy tp fp c n with
               | Some (tp, r) => Some (x :: tp, S <$> r)
               | None => None
               end
      | _, _ => None
      end
  end.

(** * Specification *)

(** The characters of a C string: bytes other than the terminator. *)
Abbreviation cstring := (Forall (fun c => 0 < c < 256)).

(** Lexicographic order, a proper prefix being smaller. *)
Fixpoint lex (a b : list Z) : comparison :=
  match a, b with
  | [], [] => Eq
  | [], _ :: _ => Lt
  | _ :: _, [] => Gt
  | x :: a, y :: b => match x ?= y with Eq => lex a b | r => r end
  end.

(** [i] is the first index of [l] whose element satisfies [P], or there is none. *)
Definition first_index (P : Z -> Prop) (l : list Z) (r : option nat) : Prop :=
  match r with
  | Some i => (exists x, l !! i = Some x /\ P x) /\ forall j x, (j < i)%nat -> l !! j = Some x -> ~ P x
  | None => forall j x, l !! j = Some x -> ~ P x
  end.

(** The same for the last one. *)
Definition last_index (P : Z -> Prop) (l : list Z) (r : option nat) : Prop :=
  match r with
  | Some i => (exists x, l !! i = Some x /\ P x) /\ forall j x, (i < j)%nat -> l !! j = Some x -> ~ P x
  | None => forall j x, l !! j = Some x -> ~ P x
  end.

(** * Lengths and comparisons *)

Lemma strlen_cstring s t : cstring s -> strlen (s ++ 0 :: t) = Some (length s).
Proof.
  induction 1 as [|c s Hc Hs IH]; cbn; [done|].
  rewrite (proj2 (Z.eqb_neq c 0)) by lia. by rewrite IH.
Qed.

Lemma diff_compare x y r : x <> y -> (x - y ?= 0) = match x ?= y with Eq => r | c => c end.
Proof. intros. rewrite (Z.compare_sub x y). destruct (x - y ?= 0) eqn:E; [|done..]. apply Z.compare_eq in E. lia. Qed.

Lemma strncmp_cstring s1 t1 s2 t2 n : cstring s1 -> cstring s2 ->
  exists d, strncmp (s1 ++ 0 :: t1) (s2 ++ 0 :: t2) n = Some d /\ (d ?= 0) = lex (take n s1) (take n s2).
Proof.
  intros H1. revert s2 n. induction H1 as [|c1 s1 Hc1 Hs1 IH]; intros s2 [|n] H2; try by exists 0.
  all: destruct H2 as [|c2 s2 Hc2 Hs2]; cbn [strncmp app lex firstn]; try by exists 0.
  - rewrite (proj2 (Z.eqb_neq 0 c2)) by lia. exists (0 - c2). split; [done|]. apply Z.compare_lt_iff. lia.
  - rewrite (proj2 (Z.eqb_neq c1 0)) by lia. exists (c1 - 0). split; [done|]. apply Z.compare_gt_iff. lia.
  - destruct (Z.eqb_spec c1 c2) as [->|Hne].
    + rewrite (proj2 (Z.eqb_neq c2 0)) by lia. rewrite Z.compare_refl. by apply IH.
    + exists (c1 - c2). split; [done|]. by apply diff_compare.
Qed.

(** strcmp is strncmp with a bound that is not reached. *)
Lemma strcmp_strncmp s1 s2 n : (length s1 < n)%nat -> strcmp s1 s2 = strncmp s1 s2 n.
Proof.
  revert s2 n. induction s1 as [|c1 s1 IH]; intros s2 [|n] Hn; cbn in Hn; try lia; [done|].
  destruct s2 as [|c2 s2]; [done|]. cbn [strcmp strncmp]. rewrite (IH s2 n); [done|lia].
Qed.

Lemma lex_eq x y : lex x y = Eq <-> x = y.
Proof.
  revert y. induction x as [|a x IH]; intros [|b y]; cbn; try (split; congruence).
  destruct (Z.compare_spec a b) as [->|H|H]; [rewrite IH|..]; split; try congruence; intros [= -> _]; lia.
Qed.

Lemma strcmp_cstring s1 t1 s2 t2 : cstring s1 -> cstring s2 ->
  exists d, strcmp (s1 ++ 0 :: t1) (s2 ++ 0 :: t2) = Some d /\ (d ?= 0) = lex s1 s2.
Proof.
  intros H1 H2. set (n := S (length (s1 ++ 0 :: t1) + length s2)).
  destruct (strncmp_cstring s1 t1 s2 t2 n H1 H2) as (d & Hd & Hl). exists d.
  rewrite (strcmp_strncmp _ _ n); [|subst n; lia]. rewrite !take_ge in Hl; [done|..]; subst n; rewrite ?length_app; lia.
Qed.

(** Strlen, strcmp and strncmp on terminated strings, whatever follows the terminator: strlen
    counts the characters, strcmp orders strings lexicographically by unsigned bytes, strncmp
    orders their first [n] characters.  None of them reads past a terminator. *)
Theorem string_compare_correct s1 t1 s2 t2 n : cstring s1 -> cstring s2 ->
  strlen (s1 ++ 0 :: t1) = Some (length s1) /\
  (exists d, strcmp (s1 ++ 0 :: t1) (s2 ++ 0 :: t2) = Some d /\ (d ?= 0) = lex s1 s2) /\
  (exists d, strncmp (s1 ++ 0 :: t1) (s2 ++ 0 :: t2) n = Some d /\
             (d ?= 0) = lex (take n s1) (take n s2)).
Proof. intros H1 H2. split_and!; [by apply strlen_cstring|by apply strcmp_cstring|by apply strncmp_cstring]. Qed.

Lemma string_compare_correct_witness :
  strlen [97; 98; 0; 7] = Some 2%nat /\
  (exists d, strcmp [97; 98; 0; 7] [97; 200; 0] = Some d /\ (d ?= 0) = Lt) /\
  (exists d, strncmp [97; 98; 0; 7] [97; 200; 0] 1 = Some d /\ (d ?= 0) = Eq).
Proof.
  apply (string_compare_correct [97; 98] [7] [97; 200] [] 1); repeat constructor; lia.
Defined.

(** ** Without regard to case *)

Lemma charmap_tolower c : 0 <= c < 256 -> charmap !! Z.to_nat c = Some (tolower c).
Proof.
  intros Hc.
  assert (forallb (fun i => bool_decide (charmap !! i = Some (tolower (Z.of_nat i)))) (seq 0 256) = true) as H
    by (vm_compute; reflexivity).
  rewrite forallb_forall in H. specialize (H (Z.to_nat c)). rewrite bool_decide_eq_true, Z2Nat.id in H by lia.
  apply H, in_seq. lia.
Qed.

Lemma tolower_char c : 0 < c < 256 -> 0 < tolower c < 256.
Proof.
  intros Hc. unfold tolower, _tolower. destruct (Z.leb_spec 65 c), (Z.leb_spec c 90); cbn; try lia.
  assert (0 <= Z.lor c 32) by (apply Z.lor_nonneg; lia).
  assert (Z.log2 (Z.lor c 32) < 8); [|split; [|apply Z.log2_lt_cancel; cbn; lia]].
  - rewrite Z.log2_lor by lia. pose proof (Z.log2_le_mono c 90 ltac:(lia)). cbn in *. lia.
  - destruct (Z.eq_dec (Z.lor c 32) 0) as [E|]; [|lia]. apply Z.lor_eq_0_iff in E. lia.
Qed.

Lemma strncasecmp_strncmp s1 s2 n :
  Forall (fun c => 0 <= c < 256) s1 -> Forall (fun c => 0 <= c < 256) s2 ->
  strncasecmp s1 s2 n = strncmp (map tolower s1) (map tolower s2) n.
Proof.
  intros H1. revert s2 n. induction H1 as [|c1 s1 Hc1 Hs1 IH]; intros s2 [|n] H2; try done.
  destruct H2 as [|c2 s2 Hc2 Hs2]; [done|].
  cbn [strncasecmp strncmp map]. rewrite !charmap_tolower by done.
  destruct (tolower c1 =? tolower c2); [|done]. rewrite IH by done.
  destruct (Z.eqb_spec c1 0) as [->|Hne]; [done|].
  destruct (Z.eqb_spec (tolower c1) 0) as [E|]; [|done].
  pose proof (tolower_char c1 ltac:(lia)). lia.
Qed.

Lemma strcasecmp_strncasecmp s1 s2 n : (length s1 < n)%nat -> strcasecmp s1 s2 = strncasecmp s1 s2 n.
Proof.
  revert s2 n. induction s1 as [|c1 s1 IH]; intros s2 [|n] Hn; cbn in Hn; try lia; [done|].
  destruct s2 as [|c2 s2]; [done|]. cbn [strcasecmp strncasecmp]. rewrite (IH s2 n); [done|lia].
Qed.

Lemma cstring_tolower s : cstring s -> cstring (map tolower s).
Proof. intros H. apply Forall_map. eapply Forall_impl; [exact H|]. intros c. apply tolower_char. Qed.

Lemma cstring_bytes s t : cstring s -> Forall (fun c => 0 <= c < 256) t -> Forall (fun c => 0 <= c < 256) (s ++ 0 :: t).
Proof.
  intros H Ht. apply Forall_app. split; [eapply Forall_impl; [exact H|]; cbn; lia|]. constructor; [lia|done].
Qed.

(** Strcasecmp and strncasecmp order strings as strcmp and strncmp order their images under
    tolower: the table in strcasecmp.c and the function in ctype agree on all bytes. *)
Theorem strcasecmp_correct s1 t1 s2 t2 n : cstring s1 -> cstring s2 ->
  Forall (fun c => 0 <= c < 256) t1 -> Forall (fun c => 0 <= c < 256) t2 ->
  (exists d, strcasecmp (s1 ++ 0 :: t1) (s2 ++ 0 :: t2) = Some d /\
             (d ?= 0) = lex (map tolower s1) (map tolower s2)) /\
  (exists d, strncasecmp (s1 ++ 0 :: t1) (s2 ++ 0 :: t2) n = Some d /\
             (d ?= 0) = lex (take n (map tolower s1)) (take n (map tolower s2))).
Proof.
  intros H1 H2 Ht1 Ht2. pose proof (cstring_bytes s1 t1 H1 Ht1). pose proof (cstring_bytes s2 t2 H2 Ht2).
  apply cstring_tolower in H1, H2. split.
  - rewrite (strcasecmp_strncasecmp _ _ (S (length (map tolower (s1 ++ 0 :: t1))))) by (rewrite length_map; lia).
    rewrite strncasecmp_strncmp by done. rewrite <- strcmp_strncmp by lia.
    rewrite !map_app. by apply strcmp_cstring.
  - rewrite strncasecmp_strncmp by done. rewrite !map_app. by apply strncmp_cstring.
Qed.

Lemma strcasecmp_correct_witness :
  (exists d, strcasecmp [65; 98; 0] [97; 66; 0] = Some d /\ (d ?= 0) = Eq) /\
  (exists d, strncasecmp [65; 98; 0] [97; 66; 0] 9 = Some d /\ (d ?= 0) = Eq).
Proof. apply (strcasecmp_correct [65; 98] [] [97; 66] [] 9); repeat constructor; lia. Defined.

(** * Searches *)

Lemma first_index_here (P : Z -> Prop) x l : P x -> first_index P (x :: l) (Some O).
Proof. intros Hx. split; [by exists x|]. intros j y Hj. lia. Qed.

Lemma first_index_next (P : Z -> Prop) x l r : ~ P x -> first_index P l r -> first_index P (x :: l) (S <$> r).
Proof.
  intros Hx. destruct r as [i|]; cbn.
  - intros [Hi Hlt]. split; [done|]. intros [|j] y Hj; cbn; [by intros [= <-]|]. apply Hlt. lia.
  - intros Hn [|j] y; cbn; [by intros [= <-]|]. apply Hn.
Qed.

Lemma span_in_cstring c s t : cstring s -> span_in c (s ++ 0 :: t) = Some (bool_decide (c ∈ s)).
Proof.
  induction 1 as [|x s Hx Hs IH]; cbn [span_in app].
  - by rewrite bool_decide_eq_false_2 by apply not_elem_of_nil.
  - rewrite (proj2 (Z.eqb_neq x 0)) by lia. destruct (Z.eqb_spec x c) as [->|Hne].
    + rewrite bool_decide_eq_true_2; [done|constructor].
    + rewrite IH. f_equal. apply bool_decide_ext. rewrite elem_of_cons.
      split; [by right|intros [?|?]; [congruence|done]].
Qed.

Lemma cspan_in_cstring c s t : cstring s -> cspan_in c (s ++ 0 :: t) = Some (bool_decide (c = 0 \/ c ∈ s)).
Proof.
  induction 1 as [|x s Hx Hs IH]; cbn [cspan_in app].
  - destruct (Z.eqb_spec 0 c) as [<-|Hne]; [by rewrite bool_decide_eq_true_2 by auto|].
    rewrite Z.eqb_refl, bool_decide_eq_false_2; [done|]. intros [->|[]%elem_of_nil]. done.
  - destruct (Z.eqb_spec x c) as [->|Hne].
    + rewrite bool_decide_eq_true_2; [done|]. right. constructor.
    + rewrite (proj2 (Z.eqb_neq x 0)) by lia. rewrite IH. f_equal. apply bool_decide_ext.
      rewrite elem_of_cons. split; [intros [?|?]; auto|intros [?|[?|?]]; [auto|congruence|auto]].
Qed.

Lemma zero_not_in s : cstring s -> 0 ∉ s.
Proof. intros H E. rewrite Forall_forall in H. specialize (H _ E). lia. Qed.

Lemma strspn_cstring s1 t1 s2 t2 : cstring s1 -> cstring s2 ->
  exists k, strspn (s1 ++ 0 :: t1) (s2 ++ 0 :: t2) = Some k /\ first_index (fun c => c ∉ s2) (s1 ++ [0]) (Some k).
Proof.
  intros H1 H2. induction H1 as [|c s1 Hc Hs IH]; cbn [app strspn]; rewrite span_in_cstring by done.
  - rewrite bool_decide_eq_false_2 by by apply zero_not_in. exists O. split; [done|].
    by apply first_index_here, zero_not_in.
  - case_bool_decide as Hin.
    + destruct IH as (k & -> & Hk). exists (S k). split; [done|]. apply (first_index_next _ _ _ (Some k)); [by intros Hn; apply Hn|done].
    + exists O. split; [done|]. by apply first_index_here.
Qed.

Lemma strcspn_cstring s1 t1 s2 t2 : cstring s1 -> cstring s2 ->
  exists k, strcspn (s1 ++ 0 :: t1) (s2 ++ 0 :: t2) = Some k /\ first_index (fun c => c = 0 \/ c ∈ s2) (s1 ++ [0]) (Some k).
Proof.
  intros H1 H2. induction H1 as [|c s1 Hc Hs IH]; cbn [app strcspn]; rewrite cspan_in_cstring by done.
  - rewrite bool_decide_eq_true_2 by auto. exists O. split; [done|]. apply first_index_here. auto.
  - case_bool_decide as Hin.
    + exists O. split; [done|]. by apply first_index_here.
    + destruct IH as (k & -> & Hk). exists (S k). split; [done|]. by apply (first_index_next _ _ _ (Some k)).
Qed.

Lemma strpbrk_cstring s1 t1 s2 t2 : cstring s1 -> cstring s2 ->
  exists r, strpbrk (s1 ++ 0 :: t1) (s2 ++ 0 :: t2) = Some r /\ first_index (fun c => c ∈ s2) s1 r.
Proof.
  intros H1 H2. induction H1 as [|c s1 Hc Hs IH]; cbn [app strpbrk].
  - exists None. split; [done|]. intros j x. by rewrite lookup_nil.
  - rewrite (proj2 (Z.eqb_neq c 0)) by lia. rewrite span_in_cstring by done. case_bool_decide as Hin.
    + exists (Some O). split; [done|]. by apply first_index_here.
    + destruct IH as (r & -> & Hk). exists (S <$> r). split; [done|]. by apply first_index_next.
Qed.

(** Strspn gives the length of the longest prefix of [s1] made of characters of [s2], strcspn
    of the longest prefix without any, strpbrk the first character of [s1] that is in [s2] or a
    null pointer when there is none. *)
Theorem string_span_correct s1 t1 s2 t2 : cstring s1 -> cstring s2 ->
  (exists k, strspn (s1 ++ 0 :: t1) (s2 ++ 0 :: t2) = Some k /\
             first_index (fun c => c ∉ s2) (s1 ++ [0]) (Some k)) /\
  (exists k, strcspn (s1 ++ 0 :: t1) (s2 ++ 0 :: t2) = Some k /\
             first_index (fun c => c = 0 \/ c ∈ s2) (s1 ++ [0]) (Some k)) /\
  (exists r, strpbrk (s1 ++ 0 :: t1) (s2 ++ 0 :: t2) = Some r /\ first_index (fun c => c ∈ s2) s1 r).
Proof. intros. split_and!; [by apply strspn_cstring|by apply strcspn_cstring|by apply strpbrk_cstring]. Qed.

Lemma string_span_correct_witness :
  (exists k, strspn [97; 98; 97; 99; 0] [98; 97; 0] = Some k /\
             first_index (fun c => c ∉ [98; 97]) [97; 98; 97; 99; 0] (Some k)) /\
  (exists k, strcspn [97; 98; 97; 99; 0] [98; 97; 0] = Some k /\
             first_index (fun c => c = 0 \/ c ∈ [98; 97]) [97; 98; 97; 99; 0] (Some k)) /\
  (exists r, strpbrk [97; 98; 97; 99; 0] [98; 97; 0] = Some r /\
             first_index (fun c => c ∈ [98; 97]) [97; 98; 97; 99] r).
Proof. apply (string_span_correct [97; 98; 97; 99] [] [98; 97] []); repeat constructor; lia. Defined.

Lemma memchr_first p c n : (n <= length p)%nat ->
  exists r, memchr p c n = Some r /\ first_index (fun x => x = wrapU 8 c) (take n p) r.
Proof.
  revert p. induction n as [|n IH]; intros p Hn.
  - exists None. split; [done|]. intros j x. by rewrite take_0, lookup_nil.
  - destruct p as [|x p]; cbn [memchr length firstn] in *; [lia|]. destruct (Z.eqb_spec x (wrapU 8 c)) as [->|Hne].
    + exists (Some O). split; [done|]. by apply first_index_here.
    + destruct (IH p) as (r & -> & Hr); [lia|]. exists (S <$> r). split; [done|]. by apply first_index_next.
Qed.

(** memchr may be given a bound larger than the array when the byte is there. *)
Lemma memchr_found p c n i : p !! i = Some (wrapU 8 c) -> (i < n)%nat ->
  exists k, memchr p c n = Some (Some k) /\ (k <= i)%nat.
Proof.
  revert p i. induction n as [|n IH]; intros p i Hi Hn; [lia|].
  destruct p as [|x p]; [by rewrite lookup_nil in Hi|]. cbn [memchr].
  destruct (Z.eqb_spec x (wrapU 8 c)) as [->|Hne]; [by exists O; split; [|lia]|].
  destruct i as [|i]; cbn in Hi; [congruence|]. destruct (IH p i Hi) as (k & -> & Hk); [lia|].
  exists (S k). split; [done|lia].
Qed.

Lemma memrchr_last s c n : (n <= length s)%nat ->
  exists r, memrchr s c n = Some r /\ last_index (fun x => x = wrapU 8 c) (take n s) r.
Proof.
  induction n as [|n IH]; intros Hn.
  - exists None. split; [done|]. intros j x. by rewrite take_0, lookup_nil.
  - cbn [memrchr]. destruct (lookup_lt_is_Some_2 s n) as [x Hx]; [lia|]. rewrite Hx.
    assert (forall j y, take (S n) s !! j = Some y -> (j < n)%nat /\ take n s !! j = Some y \/ j = n /\ y = x) as Hsplit.
    { intros j y Hy. rewrite lookup_take_Some in Hy. destruct Hy as [Hy Hj].
      destruct (Nat.eq_dec j n) as [->|]; [right; split; congruence|left; split; [lia|]].
      apply lookup_take_Some. split; [done|lia]. }
    destruct (Z.eqb_spec x (wrapU 8 c)) as [->|Hne].
    + exists (Some n). split; [done|]. split; [eexists; split; [apply lookup_take_Some; split; [done|lia]|done]|].
      intros j y Hj Hy. destruct (Hsplit j y Hy) as [[??]|[??]]; lia.
    + destruct IH as (r & -> & Hr); [lia|]. exists r. split; [done|]. destruct r as [i|]; cbn in *.
      * destruct Hr as [(y & Hy & ->) Hlt]. split.
        { exists (wrapU 8 c). split; [|done]. rewrite lookup_take_Some in Hy |- *. split; [tauto|lia]. }
        intros j y Hj Hjy. destruct (Hsplit j y Hjy) as [[??]|[? ->]]; [by eapply Hlt|done].
      * intros j y Hjy. destruct (Hsplit j y Hjy) as [[??]|[? ->]]; [by eapply Hr|done].
Qed.

Lemma memccpy_memchr tp fp c n : (n <= length fp)%nat -> (n <= length tp)%nat ->
  memccpy tp fp c n =
    match memchr fp c n with
    | Some (Some i) => Some (take (S i) fp ++ drop (S i) tp, Some (S i))
    | Some None => Some (take n fp ++ drop n tp, None)
    | None => None
    end.
Proof.
  revert tp fp. induction n as [|n IH]; intros tp fp Hf Ht; [done|].
  destruct fp as [|x fp]; cbn [length] in Hf; [lia|]. destruct tp as [|y tp]; cbn [length] in Ht; [lia|].
  cbn [memccpy memchr]. destruct (x =? wrapU 8 c); [done|]. rewrite IH by lia.
  by destruct (memchr fp c n) as [[]|].
Qed.

(** Memchr gives the first and memrchr the last of the first [n] bytes equal to [c] converted
    to an unsigned char, and both a null pointer when there is none; memchr does not look at the
    bytes behind the one it finds.  memccpy copies up to and including the byte memchr finds, or
    all [n] bytes. *)
Theorem memchr_correct s c n i dst : (n <= length s)%nat -> (n <= length dst)%nat ->
  (exists r, memchr s c n = Some r /\ first_index (fun x => x = wrapU 8 c) (take n s) r /\
     let k := match r with Some i => S i | None => n end in
     memccpy dst s c n = Some (take k s ++ drop k dst, S <$> r)) /\
  (exists r, memrchr s c n = Some r /\ last_index (fun x => x = wrapU 8 c) (take n s) r) /\
  (s !! i = Some (wrapU 8 c) -> forall n', (i < n')%nat ->
     exists k, memchr s c n' = Some (Some k) /\ (k <= i)%nat).
Proof.
  intros Hn Hd. destruct (memchr_first s c n Hn) as (r & Hr & Hi).
  split_and!; [|by apply memrchr_last|intros; by eapply memchr_found].
  exists r. split_and!; [done..|]. rewrite memccpy_memchr, Hr by done. by destruct r.
Qed.

Lemma memchr_correct_witness :
  (exists r, memchr [1; 2; 1] 257 2 = Some r /\ first_index (fun x => x = wrapU 8 257) [1; 2] r /\
     let k := match r with Some i => S i | None => 2%nat end in
     memccpy [7; 7] [1; 2; 1] 257 2 = Some (take k [1; 2; 1] ++ drop k [7; 7], S <$> r)) /\
  (exists r, memrchr [1; 2; 1] 257 2 = Some r /\ last_index (fun x => x = wrapU 8 257) [1; 2] r) /\
  (exists k, memchr [1; 2; 1] 257 99 = Some (Some k) /\ (k <= 2)%nat).
Proof.
  destruct (memchr_correct [1; 2; 1] 257 2 2 [7; 7]) as (H1 & H2 & H3); [cbn; lia|cbn; lia|].
  split; [exact H1|]. split; [exact H2|]. apply H3; [reflexivity|lia].
Defined.

(** * Copies *)

(** One character of a string on the way: it is not the terminator. *)
Ltac next_char := rewrite (proj2 (Z.eqb_neq _ 0)) by lia.

Lemma stpcpy_cstring dst s t : cstring s ->
  stpcpy dst (s ++ 0 :: t) =
    if (length s <? length dst)%nat then Some (s ++ 0 :: drop (S (length s)) dst, length s) else None.
Proof.
  intros H. revert dst. induction H as [|c s Hc Hs IH]; intros [|x dst]; try done.
  cbn [stpcpy app length drop]. next_char. rewrite IH. change (S ?a <? S ?b)%nat with (a <? b)%nat.
  by destruct (length s <? length dst)%nat.
Qed.

Lemma strcpy_stpcpy dst src : strcpy dst src = fst <$> stpcpy dst src.
Proof.
  revert dst. induction src as [|c src IH]; intros [|x dst]; try done. cbn [strcpy stpcpy].
  destruct (c =? 0); [done|]. rewrite IH. by destruct (stpcpy dst src) as [[]|].
Qed.

Lemma strcat_cstring d r s t : cstring d ->
  strcat (d ++ 0 :: r) (s ++ 0 :: t) = app d <$> strcpy (0 :: r) (s ++ 0 :: t).
Proof.
  induction 1 as [|c d Hc Hd IH].
  - cbn [app strcat]. rewrite Z.eqb_refl. by destruct (strcpy _ _).
  - cbn [app strcat]. next_char. rewrite IH. by destruct (strcpy _ _).
Qed.

Lemma pad_zeros d n : (n <= length d)%nat -> pad d n = Some (replicate n 0 ++ drop n d).
Proof.
  revert d. induction n as [|n IH]; intros d Hn; [done|].
  destruct d as [|x d]; cbn [length] in Hn; [lia|]. cbn [pad]. by rewrite IH by lia.
Qed.

Lemma stpncpy_cstring d s t n : cstring s -> (n <= length d)%nat ->
  stpncpy d (s ++ 0 :: t) n = Some (take n s ++ replicate (n - length s) 0 ++ drop n d, (n `min` length s)%nat).
Proof.
  intros H. revert d n. induction H as [|c s Hc Hs IH]; intros d [|n] Hn; try done.
  - destruct d as [|x d]; cbn [length] in Hn; [lia|]. cbn [stpncpy app]. rewrite Z.eqb_refl.
    by rewrite pad_zeros by lia.
  - destruct d as [|x d]; cbn [length] in Hn; [lia|]. cbn [stpncpy app]. next_char. by rewrite IH by lia.
Qed.

Lemma strncpy_stpncpy d s n : strncpy d s n = fst <$> stpncpy d s n.
Proof.
  revert d s. induction n as [|n IH]; intros d s; [done|]. cbn [strncpy stpncpy].
  destruct s as [|c s]; [done|]. destruct d as [|x d]; [done|]. destruct (c =? 0).
  - by destruct (pad d n).
  - rewrite IH. by destruct (stpncpy d s n) as [[]|].
Qed.

Lemma strncat_copy_cstring d s t n : cstring s -> (n `min` length s < length d)%nat ->
  strncat_copy d (s ++ 0 :: t) n = Some (take n s ++ 0 :: drop (S (n `min` length s)) d).
Proof.
  intros H. revert d n. induction H as [|c s Hc Hs IH]; intros d n Hn.
  - destruct d as [|x d]; cbn [length] in Hn; [lia|]. by destruct n as [|n].
  - destruct d as [|x d]; cbn [length] in Hn; [lia|]. destruct n as [|n]; [done|].
    cbn [strncat_copy app]. next_char. rewrite IH by lia. done.
Qed.

Lemma strncat_cstring d r s t n : cstring d -> cstring s -> (n `min` length s <= length r)%nat ->
  strncat (d ++ 0 :: r) (s ++ 0 :: t) n = Some (d ++ take n s ++ 0 :: drop (n `min` length s) r).
Proof.
  intros Hd Hs Hr. destruct n as [|n']; [done|]. unfold strncat. set (n := S n') in *. clearbody n.
  induction Hd as [|c d Hc Hd IH].
  - cbn [app strncat_end]. rewrite Z.eqb_refl, strncat_copy_cstring; [done|done|]. cbn [length]. lia.
  - cbn [app strncat_end]. next_char. by rewrite IH.
Qed.

(** The copying functions of C89 and POSIX.  With enough room strcpy and stpcpy write the
    string and its terminator and leave the rest of the array alone; without, they run past the
    end of it.  strcat does the same behind the string already there.  strncpy and stpncpy write
    exactly [n] bytes, padding with zeros and leaving out the terminator when it does not fit;
    strncat appends at most [n] characters and always a terminator.  stpcpy and stpncpy return the
    end of what they copied. *)
Theorem string_copy_correct s t d r dst n : cstring s -> cstring d ->
  (n <= length dst)%nat -> (n `min` length s <= length r)%nat ->
  strcpy dst (s ++ 0 :: t) =
    (if (length s <? length dst)%nat then Some (s ++ 0 :: drop (S (length s)) dst) else None) /\
  stpcpy dst (s ++ 0 :: t) =
    (if (length s <? length dst)%nat then Some (s ++ 0 :: drop (S (length s)) dst, length s) else None) /\
  strcat (d ++ 0 :: r) (s ++ 0 :: t) =
    (if (length s <=? length r)%nat then Some (d ++ s ++ 0 :: drop (length s) r) else None) /\
  strncpy dst (s ++ 0 :: t) n = Some (take n s ++ replicate (n - length s) 0 ++ drop n dst) /\
  stpncpy dst (s ++ 0 :: t) n =
    Some (take n s ++ replicate (n - length s) 0 ++ drop n dst, (n `min` length s)%nat) /\
  strncat (d ++ 0 :: r) (s ++ 0 :: t) n = Some (d ++ take n s ++ 0 :: drop (n `min` length s) r).
Proof.
  intros Hs Hd Hn Hr. rewrite strcat_cstring, strncpy_stpncpy, !strcpy_stpcpy by done.
  rewrite !stpcpy_cstring, stpncpy_cstring, strncat_cstring by done.
  change (length (0 :: r)) with (S (length r)). change (length s <? S (length r))%nat with (length s <=? length r)%nat.
  split_and!; try done; by destruct (_ <=? _)%nat || by destruct (_ <? _)%nat.
Qed.

Lemma string_copy_correct_witness :
  strcpy [7; 7; 7; 7] [97; 98; 0] = Some [97; 98; 0; 7] /\
  stpcpy [7; 7; 7; 7] [97; 98; 0] = Some ([97; 98; 0; 7], 2%nat) /\
  strcat [99; 0; 7] [97; 98; 0] = None /\
  strncpy [7; 7; 7; 7] [97; 98; 0] 1 = Some [97; 7; 7; 7] /\
  stpncpy [7; 7; 7; 7] [97; 98; 0] 1 = Some ([97; 7; 7; 7], 1%nat) /\
  strncat [99; 0; 7] [97; 98; 0] 1 = Some [99; 97; 0].
Proof.
  apply (string_copy_correct [97; 98] [] [99] [7] [7; 7; 7; 7] 1);
    [repeat constructor; lia|repeat constructor; lia|cbn; lia|cbn; lia].
Defined.

Lemma strlcpy_copy_cstring dst s t n : cstring s -> (n < length dst)%nat ->
  strlcpy_copy dst (s ++ 0 :: t) n = Some (take n s ++ 0 :: drop (S (n `min` length s)) dst, length s).
Proof.
  intros H. revert dst n. induction H as [|c s Hc Hs IH]; intros dst n Hn.
  - destruct dst as [|x dst]; cbn [length] in Hn; [lia|]. by destruct n as [|n].
  - destruct dst as [|x dst]; cbn [length] in Hn; [lia|]. destruct n as [|n]; cbn [strlcpy_copy app].
    + change (c :: s ++ 0 :: t) with ((c :: s) ++ 0 :: t). rewrite strlen_cstring by by constructor. done.
    + next_char. rewrite IH by lia. done.
Qed.

Lemma strlcat_append_cstring dst s t n : cstring s -> (n < length dst)%nat ->
  strlcat_append dst (s ++ 0 :: t) n = Some (take n s ++ 0 :: drop (S (n `min` length s)) dst, length s).
Proof.
  intros H. revert dst n. induction H as [|c s Hc Hs IH]; intros dst n Hn.
  - destruct dst as [|x dst]; cbn [length] in Hn; [lia|]. by destruct n as [|n].
  - cbn [strlcat_append app]. next_char. destruct n as [|n].
    + rewrite IH by lia. done.
    + destruct dst as [|x dst]; cbn [length] in Hn; [lia|]. rewrite IH by lia. done.
Qed.

Lemma strlcat_short d r s t n : cstring d -> cstring s ->
  (length d < n)%nat -> (n <= length d + S (length r))%nat ->
  strlcat (d ++ 0 :: r) (s ++ 0 :: t) n =
    Some (d ++ take (n - length d - 1) s ++ 0 :: drop ((n - length d - 1) `min` length s) r,
          (length d + length s)%nat).
Proof.
  intros Hd Hs. revert n. induction Hd as [|c d Hc Hd IH]; intros [|n] Hn Hr; cbn [length] in *; try lia.
  - cbn [strlcat app]. rewrite Z.eqb_refl, strlcat_append_cstring by (cbn [length]; done || lia).
    by rewrite Nat.sub_0_r, Nat.sub_1_r.
  - cbn [strlcat app]. next_char. rewrite IH by lia. done.
Qed.

Lemma strlcat_full d r s t n : cstring d -> cstring s -> (n <= length d)%nat ->
  strlcat (d ++ r) (s ++ 0 :: t) n = Some (d ++ r, (n + length s)%nat).
Proof.
  intros Hd Hs. revert n. induction Hd as [|c d Hc Hd IH]; intros [|n] Hn; cbn [length] in *; try lia.
  - cbn [strlcat]. by rewrite strlen_cstring.
  - cbn [strlcat]. by rewrite strlen_cstring.
  - cbn [strlcat app]. next_char. rewrite IH by lia. done.
Qed.

(** Strlcpy and strlcat never write outside the first [dsize] bytes and always terminate the
    result if there is room for a terminator: strlcpy keeps the first [dsize - 1] characters and
    returns the length of the source; strlcat appends as many characters as fit and returns the
    length of the string it tried to make.  A destination without terminator in its first [dsize]
    bytes is left alone. *)
Theorem strl_correct s t d r dst n : cstring s -> cstring d -> (n <= length dst)%nat ->
  strlcpy dst (s ++ 0 :: t) n =
    Some (match n with
          | O => dst
          | S k => take k s ++ 0 :: drop (S (k `min` length s)) dst
          end, length s) /\
  ((length d < n <= length d + S (length r))%nat ->
   strlcat (d ++ 0 :: r) (s ++ 0 :: t) n =
     Some (d ++ take (n - length d - 1) s ++ 0 :: drop ((n - length d - 1) `min` length s) r,
           (length d + length s)%nat)) /\
  ((n <= length d)%nat -> strlcat (d ++ r) (s ++ 0 :: t) n = Some (d ++ r, (n + length s)%nat)).
Proof.
  intros Hs Hd Hn. split_and!.
  - destruct n as [|k]; cbn [strlcpy]; [by rewrite strlen_cstring|]. by apply strlcpy_copy_cstring.
  - intros [??]. by apply strlcat_short.
  - by apply strlcat_full.
Qed.

Lemma strl_correct_witness :
  strlcpy [7; 7; 7; 7] [97; 98; 99; 0] 3 = Some ([97; 98; 0; 7], 3%nat) /\
  strlcat [100; 0; 7; 7] [97; 98; 99; 0] 3 = Some ([100; 97; 0; 7], 4%nat).
Proof.
  destruct (strl_correct [97; 98; 99] [] [100] [7; 7] [7; 7; 7; 7] 3) as (H1 & H2 & _);
    [repeat constructor; lia|repeat constructor; lia|cbn; lia|].
  split; [exact H1|]. apply H2. cbn; lia.
Defined.
