(* ===== verification/Sort.v ===== *)
(** Sorting and binary search: libc/upstream-freebsd/lib/libc/stdlib/qsort.c and
    libc/upstream-netbsd/lib/libc/stdlib/bsearch.c.

    An array of elements is a list and a pointer is the index of the element it points to, so that
    [pm + es] is [S pm].  A function returns [None] when it would touch memory outside the array.
    qsort compares and exchanges through a comparison function of the caller, of which the
    theorems on memory and termination assume nothing and the theorems on the order what the C
    standard asks for. *)

From stdpp Require Import sorting.
From S2P Require Import Prelude.

(** * Definitions *)

(** The byte by byte exchange of two blocks; [None] outside the memory. *)
Fixpoint swapfunc (m : list Z) (a b es : nat) : option (list Z) :=
  match es with
  | O => Some m
  | S es =>
      match m !! a, m !! b with
      | Some t, Some y => swapfunc (<[b:=t]> (<[a:=y]> m)) (S a) (S b) es
      | _, _ => None
      end
  end.

Section qsort.
Context {A : Type} (cmp : A -> A -> Z).

(** Two elements of the array, compared and exchanged. *)
Definition CMP (l : list A) (i j : nat) : option Z :=
  match l !! i, l !! j with Some x, Some y => Some (cmp x y) | _, _ => None end.

Definition swap (l : list A) (i j : nat) : option (list A) :=
  match l !! i, l !! j with Some x, Some y => Some (<[j:=x]> (<[i:=y]> l)) | _, _ => None end.

Fixpoint vecswap (l : list A) (i j n : nat) : option (list A) :=
  match n with
  | O => Some l
  | S n => l' ← swap l i j; vecswap l' (S i) (S j) n
  end.

Definition med3 (l : list A) (a b c : nat) : option nat :=
  ab ← CMP l a b;
  bc ← CMP l b c;
  if ab <? 0 then
    if bc <? 0 then Some b else ac ← CMP l a c; Some (if ac <? 0 then c else a)
  else
    if bc >? 0 then Some b else ac ← CMP l a c; Some (if ac <? 0 then a else c).

(** The inner loop of the insertion sort: [k] elements before [a + k]. *)
Fixpoint sift (l : list A) (a k : nat) : option (list A) :=
  match k with
  | O => Some l
  | S k' =>
      r ← CMP l (a + k') (a + k);
      if r >? 0 then l' ← swap l (a + k) (a + k'); sift l' a k' else Some l
  end.

(** The outer loop, from element [k], [todo] elements. *)
Fixpoint insertion_loop (l : list A) (a k todo : nat) : option (list A) :=
  match todo with
  | O => Some l
  | S todo => l' ← sift l a k; insertion_loop l' a (S k) todo
  end.

Definition insertion_sort (l : list A) (a n : nat) : option (list A) := insertion_loop l a 1 (n - 1).

Definition choose_pivot (l : list A) (a n : nat) : option nat :=
  let pm := (a + n / 2)%nat in
  if (7 <? n)%nat then
    let pl := a in
    let pn := (a + (n - 1))%nat in
    if (40 <? n)%nat then
      let d := (n / 8)%nat in
      pl ← med3 l pl (pl + d) (pl + 2 * d);
      pm ← med3 l (pm - d) pm (pm + d);
      pn ← med3 l (pn - 2 * d) (pn - d) pn;
      med3 l pl pm pn
    else med3 l pl pm pn
  else Some pm.

(** The variables of the partition. *)
Record part := mk_part { arr : list A; pa : nat; pb : nat; pc : nat; pd : nat; swap_cnt : bool }.

(** Moving [pb] up past the elements that are not greater than the pivot at [a]. *)
Fixpoint scan_up (fuel a : nat) (s : part) : option part :=
  match fuel with
  | O => None
  | S fuel =>
      if (pb s <=? pc s)%nat then
        cmp_result ← CMP (arr s) (pb s) a;
        if cmp_result <=? 0 then
          if cmp_result =? 0 then
            l ← swap (arr s) (pa s) (pb s);
            scan_up fuel a (mk_part l (S (pa s)) (S (pb s)) (pc s) (pd s) true)
          else scan_up fuel a (mk_part (arr s) (pa s) (S (pb s)) (pc s) (pd s) (swap_cnt s))
        else Some s
      else Some s
  end.

(** Moving [pc] down past the elements that are not smaller. *)
Fixpoint scan_down (fuel a : nat) (s : part) : option part :=
  match fuel with
  | O => None
  | S fuel =>
      if (pb s <=? pc s)%nat then
        cmp_result ← CMP (arr s) (pc s) a;
        if cmp_result >=? 0 then
          if cmp_result =? 0 then
            l ← swap (arr s) (pc s) (pd s);
            scan_down fuel a (mk_part l (pa s) (pb s) (pc s - 1) (pd s - 1) true)
          else scan_down fuel a (mk_part (arr s) (pa s) (pb s) (pc s - 1) (pd s) (swap_cnt s))
        else Some s
      else Some s
  end.

Fixpoint partition (fuel a : nat) (s : part) : option part :=
  match fuel with
  | O => None
  | S fuel' =>
      s ← scan_up fuel a s;
      s ← scan_down fuel a s;
      if (pc s <? pb s)%nat then Some s else
      l ← swap (arr s) (pb s) (pc s);
      partition fuel' a (mk_part l (pa s) (S (pb s)) (pc s - 1) (pd s) true)
  end.

(** [qsort depth fuel l a n] sorts the [n] elements at [a] with at most [depth] nested calls,
    each of which goes through its loop at most [fuel] times. *)
Fixpoint qsort_at (depth : nat) : nat -> list A -> nat -> nat -> option (list A) :=
  match depth with
  | O => fun _ _ _ _ => None
  | S depth =>
      fix loop (fuel : nat) (l : list A) (a n : nat) : option (list A) :=
        match fuel with
        | O => None
        | S fuel =>
            if (n <? 7)%nat then insertion_sort l a n else
            pm ← choose_pivot l a n;
            l ← swap l a pm;
            s ← partition n a (mk_part l (a + 1) (a + 1) (a + (n - 1)) (a + (n - 1)) false);
            if negb (swap_cnt s) then insertion_sort (arr s) a n else
            let pn := (a + n)%nat in
            let d1 := Nat.min (pa s - a) (pb s - pa s) in
            l ← vecswap (arr s) a (pb s - d1) d1;
            let d1 := Nat.min (pd s - pc s) (pn - pd s - 1) in
            l ← vecswap l (pb s) (pn - d1) d1;
            let d1 := (pb s - pa s)%nat in
            let d2 := (pd s - pc s)%nat in
            if (d1 <=? d2)%nat then
              l ← (if (1 <? d1)%nat then qsort_at depth d1 l a d1 else Some l);
              if (1 <? d2)%nat then loop fuel l (pn - d2)%nat d2 else Some l
            else
              l ← (if (1 <? d2)%nat then qsort_at depth d2 l (pn - d2)%nat d2 else Some l);
              if (1 <? d1)%nat then loop fuel l a d1 else Some l
        end
  end.

(** The call on a whole array, with a stack of [depth] frames. *)
Definition qsort (depth : nat) (l : list A) : option (list A) := qsort_at depth (S (length l)) l 0 (length l).

(** The loop of bsearch; [key_cmp p] is the comparison of the key with an element. *)
Fixpoint bsearch_loop (fuel : nat) (key_cmp : A -> Z) (l : list A) (base lim : nat) : option (option nat) :=
  match fuel with
  | O => None
  | S fuel =>
      if (lim =? 0)%nat then Some None else
      let p := (base + lim / 2)%nat in
      match l !! p with
      | None => None
      | Some x =>
          let cmp := key_cmp x in
          if cmp =? 0 then Some (Some p)
          else if cmp >? 0 then bsearch_loop fuel key_cmp l (p + 1) ((lim - 1) / 2)
          else bsearch_loop fuel key_cmp l base (lim / 2)
      end
  end.

Definition bsearch (key_cmp : A -> Z) (base0 : list A) (nmemb : nat) : option (option nat) :=
  bsearch_loop (S nmemb) key_cmp base0 0 nmemb.

End qsort.

(** * Specification *)

(** What the C standard asks of a comparison function: the sign changes when the arguments are
    exchanged, and not being greater is transitive. *)
Class Comparator {A : Type} (cmp : A -> A -> Z) : Prop := {
  cmp_flip x y : Z.sgn (cmp y x) = - Z.sgn (cmp x y);
  cmp_trans x y z : cmp x y <= 0 -> cmp y z <= 0 -> cmp x z <= 0
}.

(** The [n] elements at [a] are in order. *)
Definition ordered {A : Type} (cmp : A -> A -> Z) (a n : nat) (l : list A) : Prop :=
  forall i j x y, (a <= i < j)%nat -> (j < a + n)%nat -> l !! i = Some x -> l !! j = Some y -> cmp x y <= 0.

(** Every one of them satisfies [P]. *)
Definition all_in {A : Type} (P : A -> Prop) (a n : nat) (l : list A) : Prop :=
  forall i x, (a <= i < a + n)%nat -> l !! i = Some x -> P x.

(** [l'] is [l] with the [n] elements at [a] rearranged. *)
Record rearr {A : Type} (a n : nat) (l l' : list A) : Prop := mk_rearr {
  rearr_perm : l' ≡ₚ l;
  rearr_out : forall i, (i < a \/ a + n <= i)%nat -> l' !! i = l !! i
}.

(** * Rearrangements *)

Section rearrangements.
Context {A : Type}.
Implicit Types (l : list A) (P : A -> Prop).

Lemma rearr_refl a n l : rearr a n l l.
Proof. by split. Qed.

Lemma rearr_trans a n l1 l2 l3 : rearr a n l1 l2 -> rearr a n l2 l3 -> rearr a n l1 l3.
Proof. intros [H1 H2] [H3 H4]. split; [by etrans|]. intros i Hi. by rewrite H4, H2. Qed.

Lemma rearr_weaken a n a' n' l l' : (a <= a')%nat -> (a' + n' <= a + n)%nat -> rearr a' n' l l' -> rearr a n l l'.
Proof. intros H1 H2 [H3 H4]. split; [done|]. intros i Hi. apply H4. lia. Qed.

Lemma rearr_length a n l l' : rearr a n l l' -> length l' = length l.
Proof. intros [H _]. by rewrite H. Qed.

Lemma all_in_seg P a n l : all_in P a n l <-> Forall P (take n (drop a l)).
Proof.
  rewrite Forall_lookup. split.
  - intros H i x Hx. apply lookup_take_Some in Hx as [Hx Hi]. rewrite lookup_drop in Hx. apply (H (a + i)%nat); [lia|done].
  - intros H i x Hi Hx. apply (H (i - a)%nat). apply lookup_take_Some. rewrite lookup_drop.
    split; [|lia]. by replace (a + (i - a))%nat with i by lia.
Qed.

Lemma segments a n l : l = take a l ++ take n (drop a l) ++ drop (a + n) l.
Proof. by rewrite <- drop_drop, !take_drop. Qed.

Lemma rearr_seg a n l l' : rearr a n l l' -> take n (drop a l') ≡ₚ take n (drop a l).
Proof.
  intros [Hp Ho]. rewrite (segments a n l), (segments a n l') in Hp.
  assert (take a l' = take a l) as E1.
  { apply list_eq. intros i. destruct (decide (i < a)%nat); [|by rewrite !lookup_take_ge by lia].
    rewrite !lookup_take_lt by done. apply Ho. by left. }
  assert (drop (a + n) l' = drop (a + n) l) as E2.
  { apply list_eq. intros i. rewrite !lookup_drop. apply Ho. lia. }
  rewrite E1, E2 in Hp. by apply Permutation_app_inv_l, Permutation_app_inv_r in Hp.
Qed.

Lemma rearr_all a n l l' P : rearr a n l l' -> all_in P a n l -> all_in P a n l'.
Proof. intros H. rewrite !all_in_seg. by rewrite (rearr_seg a n l l' H). Qed.

(** Elements outside are where they were. *)
Lemma all_in_out a n a' n' l l' P : rearr a n l l' -> (a' + n' <= a \/ a + n <= a')%nat ->
  all_in P a' n' l -> all_in P a' n' l'.
Proof. intros [_ Ho] Hd H i x Hi Hx. rewrite Ho in Hx by lia. by apply (H i). Qed.

Lemma all_in_sub P a n a' n' l : all_in P a n l -> (a <= a')%nat -> (a' + n' <= a + n)%nat -> all_in P a' n' l.
Proof. intros H H1 H2 i x Hi. apply H. lia. Qed.

Lemma all_in_mono P P' a n l : (forall x, P x -> P' x) -> all_in P a n l -> all_in P' a n l.
Proof. intros H1 H2 i x Hi Hx. eauto. Qed.

(** * Exchanges *)

(** The transposition of two indices. *)
Definition tr (i j k : nat) : nat := if decide (k = i) then j else if decide (k = j) then i else k.

Lemma swap_spec l i j : (i < length l)%nat -> (j < length l)%nat ->
  exists l', swap l i j = Some l' /\ l' ≡ₚ l /\ forall k, l' !! k = l !! tr i j k.
Proof.
  intros Hi Hj. destruct (lookup_lt_is_Some_2 l i Hi) as [x Hx]. destruct (lookup_lt_is_Some_2 l j Hj) as [y Hy].
  unfold swap. rewrite Hx, Hy. exists (<[j:=x]> (<[i:=y]> l)). split; [done|].
  assert (forall k, <[j:=x]> (<[i:=y]> l) !! k = l !! tr i j k) as Hl.
  { intros k. unfold tr. destruct (decide (k = j)) as [->|Hkj].
    - rewrite list_lookup_insert_eq by (by rewrite length_insert). destruct (decide (j = i)) as [->|]; congruence.
    - rewrite list_lookup_insert_ne by congruence. destruct (decide (k = i)) as [->|Hki].
      + by rewrite list_lookup_insert_eq.
      + by rewrite list_lookup_insert_ne by congruence. }
  split; [|done]. apply Permutation_inj. split; [by rewrite !length_insert|].
  exists (tr i j). split.
  - intros p q. unfold tr. repeat case_decide; congruence.
  - done.
Qed.

Lemma swap_rearr l i j l' a n : l' ≡ₚ l -> (forall k, l' !! k = l !! tr i j k) ->
  (a <= i < a + n)%nat -> (a <= j < a + n)%nat -> rearr a n l l'.
Proof.
  intros Hp Hl Hi Hj. split; [done|]. intros k Hk. rewrite Hl. unfold tr. by repeat case_decide; try lia.
Qed.

End rearrangements.

(** * Insertion sort *)

Section proofs.
Context {A : Type} (cmp : A -> A -> Z).
Implicit Types (l : list A).

Lemma CMP_spec l i j : (i < length l)%nat -> (j < length l)%nat ->
  exists x y, l !! i = Some x /\ l !! j = Some y /\ CMP cmp l i j = Some (cmp x y).
Proof.
  intros Hi Hj. destruct (lookup_lt_is_Some_2 l i Hi) as [x Hx]. destruct (lookup_lt_is_Some_2 l j Hj) as [y Hy].
  exists x, y. unfold CMP. by rewrite Hx, Hy.
Qed.

Lemma cmp_gt_le {H : Comparator cmp} x y : cmp x y > 0 -> cmp y x <= 0.
Proof. intros Hc. pose proof (cmp_flip x y). lia. Qed.

(** Elements [a] to [a + n] are in order but for the one at [a + k], which is not greater than
    those after it. *)
Definition but_one (a k n : nat) (l : list A) : Prop :=
  (forall i j x y, (a <= i < j)%nat -> (j <= a + n)%nat -> i <> (a + k)%nat -> j <> (a + k)%nat ->
     l !! i = Some x -> l !! j = Some y -> cmp x y <= 0) /\
  (forall j x y, (a + k < j <= a + n)%nat -> l !! (a + k)%nat = Some x -> l !! j = Some y -> cmp x y <= 0).

Lemma but_one_done {H : Comparator cmp} a k n l : but_one a k n l ->
  (forall k' x y, k = S k' -> l !! (a + k')%nat = Some x -> l !! (a + k)%nat = Some y -> cmp x y <= 0) ->
  (a + n < length l)%nat -> (k <= n)%nat -> ordered cmp a (S n) l.
Proof.
  intros [H1 H2] Hk Hlen Hkn i j x y Hij Hj Hx Hy. destruct (decide (i = (a + k)%nat)) as [->|Hi].
  { apply (H2 j); [lia|done..]. }
  destruct (decide (j = (a + k)%nat)) as [->|Hj']; [|apply (H1 i j); [lia|lia|done..]].
  destruct k as [|k']; [lia|]. destruct (lookup_lt_is_Some_2 l (a + k')%nat) as [z Hz]; [lia|].
  assert (cmp z y <= 0) as Hzy by (by apply (Hk k')).
  destruct (decide (i = (a + k')%nat)) as [->|Hi']; [congruence|].
  apply (cmp_trans x z); [|done]. apply (H1 i (a + k')%nat); [lia..|done|done].
Qed.

Lemma but_one_swap {H : Comparator cmp} a k n l l' x y : but_one a (S k) n l -> (S k <= n)%nat ->
  l !! (a + k)%nat = Some x -> l !! (a + S k)%nat = Some y -> cmp x y > 0 ->
  (forall i, l' !! i = l !! tr (a + S k) (a + k) i) -> but_one a k n l'.
Proof.
  intros [H1 H2] Hkn Hx Hy Hgt Hl. split.
  - intros i j u v Hij Hj Hi' Hj'. rewrite !Hl. unfold tr. repeat case_decide; try lia; intros Hu Hv.
    + apply (H1 (a + k)%nat j); [lia..|done|done].
    + apply (H1 i (a + k)%nat); [lia..|done|done].
    + apply (H1 i j); [lia..|done|done].
  - intros j u v Hj. rewrite !Hl. unfold tr. repeat case_decide; try lia; intros Hu Hv.
    + simplify_eq. by apply cmp_gt_le.
    + apply (H2 j); [lia|done..].
Qed.

Lemma sift_spec l a k n : (k <= n)%nat -> (a + n < length l)%nat ->
  exists l', sift cmp l a k = Some l' /\ rearr a (S n) l l' /\
    (Comparator cmp -> but_one a k n l -> ordered cmp a (S n) l').
Proof.
  revert l. induction k as [|k IH]; intros l Hk Hlen; simpl.
  { exists l. split; [done|]. split; [apply rearr_refl|]. intros Hc Hb. by apply (but_one_done a 0 n). }
  destruct (CMP_spec l (a + k) (a + S k)) as (x & y & Hx & Hy & ->); [lia..|]. simpl.
  destruct (Z.gtb_spec (cmp x y) 0) as [Hgt|Hle].
  - destruct (swap_spec l (a + S k) (a + k)) as (l1 & -> & Hp & Hl1); [lia..|]. simpl.
    assert (rearr a (S n) l l1) as Hr by (apply (swap_rearr l _ _ _ _ _ Hp Hl1); lia).
    destruct (IH l1) as (l' & -> & Hr' & Ho); [lia|by rewrite (rearr_length _ _ _ _ Hr)|].
    exists l'. split; [done|]. split; [by eapply rearr_trans|]. intros Hc Hb. apply Ho; [done|].
    by apply (but_one_swap a k n l l1 x y); try lia.
  - exists l. split; [done|]. split; [apply rearr_refl|]. intros Hc Hb. apply (but_one_done a (S k) n); [done| |done|done].
    intros k' u v [= <-] Hu Hv. by simplify_eq.
Qed.

Lemma insertion_loop_spec l a k todo : (0 < k)%nat -> (a + k + todo <= length l)%nat ->
  exists l', insertion_loop cmp l a k todo = Some l' /\ rearr a (k + todo) l l' /\
    (Comparator cmp -> ordered cmp a k l -> ordered cmp a (k + todo) l').
Proof.
  revert l k. induction todo as [|todo IH]; intros l k Hk Hlen; simpl.
  { exists l. rewrite Nat.add_0_r. split; [done|]. split; [apply rearr_refl|done]. }
  destruct (sift_spec l a k k) as (l1 & -> & Hr & Ho); [lia..|]. simpl.
  destruct (IH l1 (S k)) as (l' & -> & Hr' & Ho'); [lia|rewrite (rearr_length _ _ _ _ Hr); lia|].
  exists l'. rewrite Nat.add_succ_r. split; [done|]. split.
  - apply (rearr_trans _ _ _ l1); [|done]. apply (rearr_weaken _ _ a (S k)); [lia..|done].
  - intros Hc H1. apply Ho'; [done|]. apply Ho; [done|]. split; [|intros; lia].
    intros i j x y Hij Hj Hi' Hj'. apply H1; lia.
Qed.

Lemma insertion_sort_spec l a n : (a + n <= length l)%nat ->
  exists l', insertion_sort cmp l a n = Some l' /\ rearr a n l l' /\ (Comparator cmp -> ordered cmp a n l').
Proof.
  intros Hlen. unfold insertion_sort. destruct n as [|n].
  - exists l. split; [done|]. split; [apply rearr_refl|]. intros _ i j x y Hij Hj. lia.
  - destruct (insertion_loop_spec l a 1 (S n - 1)) as (l' & H1 & H2 & H3); [lia..|].
    replace (1 + (S n - 1))%nat with (S n) in * by lia. exists l'. split; [done|]. split; [done|].
    intros Hc. apply H3; [done|]. intros i j x y Hij Hj. lia.
Qed.

(** * Exchanging blocks *)

(** Where the elements of two blocks of [n] at [i] and [j] come from. *)
Definition tr_blocks (i j n k : nat) : nat :=
  if decide (i <= k < i + n)%nat then (j + (k - i))%nat
  else if decide (j <= k < j + n)%nat then (i + (k - j))%nat else k.

Lemma vecswap_spec l i j n : (i + n <= j)%nat -> (j + n <= length l)%nat ->
  exists l', vecswap l i j n = Some l' /\ l' ≡ₚ l /\ forall k, l' !! k = l !! tr_blocks i j n k.
Proof.
  revert l i j. induction n as [|n IH]; intros l i j Hij Hlen; simpl.
  { exists l. split; [done|]. split; [done|]. intros k. unfold tr_blocks. by repeat case_decide; try lia. }
  destruct (swap_spec l i j) as (l1 & -> & Hp & Hl1); [lia..|]. simpl.
  destruct (IH l1 (S i) (S j)) as (l' & -> & Hp' & Hl'); [lia|rewrite Hp; lia|].
  exists l'. split; [done|]. split; [by etrans|]. intros k. rewrite Hl', Hl1. f_equal.
  unfold tr_blocks, tr. repeat case_decide; lia.
Qed.

(** * The pivot *)

Lemma med3_spec l a b c : (a < length l)%nat -> (b < length l)%nat -> (c < length l)%nat ->
  exists p, med3 cmp l a b c = Some p /\ (p = a \/ p = b \/ p = c).
Proof.
  intros Ha Hb Hc. unfold med3.
  destruct (CMP_spec l a b) as (x & y & _ & _ & ->); [done..|]. simpl.
  destruct (CMP_spec l b c) as (y' & z & _ & _ & ->); [done..|]. simpl.
  destruct (CMP_spec l a c) as (x' & z' & _ & _ & ->); [done..|]. simpl.
  destruct (_ <? 0); [destruct (_ <? 0)|destruct (_ >? 0)]; try destruct (_ <? 0); eauto.
Qed.

Lemma choose_pivot_spec l a n : (7 <= n)%nat -> (a + n <= length l)%nat ->
  exists p, choose_pivot cmp l a n = Some p /\ (a <= p < a + n)%nat.
Proof.
  intros Hn Hlen. assert (n / 2 < n)%nat by (apply Nat.div_lt; lia).
  unfold choose_pivot. destruct (Nat.ltb_spec 7 n); [|exists (a + n / 2)%nat; split; [done|lia]].
  destruct (Nat.ltb_spec 40 n) as [H40|].
  - assert (8 * (n / 8) <= n)%nat by (apply Nat.Div0.mul_div_le).
    assert (n / 8 <= n / 2)%nat by (apply Nat.div_le_compat_l; lia).
    assert (n / 2 + n / 8 < n)%nat.
    { assert (2 * (n / 2) <= n)%nat by (apply Nat.Div0.mul_div_le). lia. }
    destruct (med3_spec l a (a + n / 8) (a + 2 * (n / 8))) as (p1 & -> & A1); [lia..|]. cbn [mbind option_bind].
    destruct (med3_spec l (a + n / 2 - n / 8) (a + n / 2) (a + n / 2 + n / 8)) as (p2 & -> & A2); [lia..|]. cbn [mbind option_bind].
    destruct (med3_spec l (a + (n - 1) - 2 * (n / 8)) (a + (n - 1) - n / 8) (a + (n - 1))) as (p3 & E3 & A3); [lia..|].
    rewrite E3. cbn [mbind option_bind].
    destruct (med3_spec l p1 p2 p3) as (p & -> & A4); [lia..|]. exists p. split; [done|]. lia.
  - destruct (med3_spec l a (a + n / 2) (a + (n - 1))) as (p & -> & Hp); [lia..|]. exists p. split; [done|]. lia.
Qed.

(** * The partition *)

(** Elements before [pa] and after [pd] are equal to the pivot [v], those from [pa] to [pb] are
    smaller, those from [pc] to [pd] greater. *)
Definition placed (v : A) (s : @part A) (k : nat) (x : A) : Prop :=
  ((k < pa s)%nat -> cmp x v = 0) /\ ((pa s <= k < pb s)%nat -> cmp x v < 0) /\
  ((pc s < k <= pd s)%nat -> cmp x v > 0) /\ ((pd s < k)%nat -> cmp x v = 0).

Record pinv (a n : nat) (v : A) (s : @part A) : Prop := mk_pinv {
  pi_len : (a + n <= length (arr s))%nat;
  pi_bounds : (a < pa s <= pb s)%nat /\ (pb s <= pc s + 1)%nat /\ (pc s <= pd s < a + n)%nat;
  pi_pivot : arr s !! a = Some v;
  pi_placed : forall k x, (a < k < a + n)%nat -> arr s !! k = Some x -> placed v s k x
}.

(** A step that moves the pointers and exchanges two elements. *)
Lemma pinv_swap a n v s l i j pa' pb' pc' pd' sc :
  pinv a n v s -> (a < i < a + n)%nat -> (a < j < a + n)%nat -> l ≡ₚ arr s -> (forall k, l !! k = arr s !! tr i j k) ->
  (a < pa' <= pb')%nat -> (pb' <= pc' + 1)%nat -> (pc' <= pd' < a + n)%nat ->
  (forall k x, (a < k < a + n)%nat -> arr s !! tr i j k = Some x -> placed v s (tr i j k) x ->
     placed v (mk_part l pa' pb' pc' pd' sc) k x) ->
  pinv a n v (mk_part l pa' pb' pc' pd' sc) /\ rearr (a + 1) (n - 1) (arr s) l.
Proof.
  intros [H1 H2 H3 H4] Hi Hj Hp Hl Hb1 Hb2 Hb3 Hpl. split.
  - split; simpl; [by rewrite Hp|done| |].
    + rewrite Hl. unfold tr. by repeat case_decide; try lia.
    + intros k x Hk. rewrite Hl. intros Hx. apply Hpl; [done|done|]. apply H4; [|done].
      unfold tr. repeat case_decide; lia.
  - apply (swap_rearr (arr s) i j); [done|done|lia|lia].
Qed.

Lemma pinv_move a n v s pb' pc' :
  pinv a n v s -> (pa s <= pb')%nat -> (pb' <= pc' + 1)%nat -> (pc' <= pd s)%nat ->
  (forall k x, (a < k < a + n)%nat -> arr s !! k = Some x -> placed v s k x ->
     placed v (mk_part (arr s) (pa s) pb' pc' (pd s) (swap_cnt s)) k x) ->
  pinv a n v (mk_part (arr s) (pa s) pb' pc' (pd s) (swap_cnt s)).
Proof. intros [H1 H2 H3 H4] Hb1 Hb2 Hb3 Hpl. split; simpl; [done|lia|done|]. intros k x Hk Hx. auto. Qed.

(** What a scan of the partition guarantees. *)
Definition scanned (a n : nat) (v : A) (s s' : part) : Prop :=
  pinv a n v s' /\ rearr (a + 1) (n - 1) (arr s) (arr s') /\
  (pb s <= pb s')%nat /\ (pc s' <= pc s)%nat.

Lemma scan_up_spec fuel a n v s : pinv a n v s -> (pc s + 1 < fuel + pb s)%nat ->
  exists s', scan_up cmp fuel a s = Some s' /\ scanned a n v s s' /\ pc s' = pc s /\
    ((pb s' <= pc s')%nat -> exists x, arr s' !! pb s' = Some x /\ cmp x v > 0).
Proof.
  revert s. induction fuel as [|fuel IH]; intros s Hs Hf.
  { destruct (pi_bounds _ _ _ _ Hs). lia. }
  cbn [scan_up]. destruct (pi_bounds _ _ _ _ Hs) as (B1 & B2 & B3). pose proof (pi_len _ _ _ _ Hs) as Hlen.
  destruct (Nat.leb_spec (pb s) (pc s)) as [Hle|Hgt].
  2: { exists s. split; [done|]. split; [|split; [done|lia]]. split; [done|]. split; [apply rearr_refl|lia]. }
  destruct (CMP_spec (arr s) (pb s) a) as (x & v' & Hx & Hv & ->); [lia..|].
  rewrite (pi_pivot _ _ _ _ Hs) in Hv. injection Hv as <-. cbn [mbind option_bind].
  destruct (Z.leb_spec (cmp x v) 0) as [Hle0|Hgt0].
  2: { exists s. split; [done|]. split; [|split; [done|]].
       - split; [done|]. split; [apply rearr_refl|lia].
       - intros _. exists x. split; [done|lia]. }
  destruct (Z.eqb_spec (cmp x v) 0) as [E0|N0].
  - destruct (swap_spec (arr s) (pa s) (pb s)) as (l & -> & Hp & Hl); [lia..|]. cbn [mbind option_bind].
    destruct (pinv_swap a n v s l (pa s) (pb s) (S (pa s)) (S (pb s)) (pc s) (pd s) true Hs) as [Hs' Hr]; try done; try lia.
    { intros k y Hk Hy. unfold placed. simpl. unfold tr in *. repeat case_decide; simplify_eq; lia. }
    destruct (IH _ Hs') as (s' & -> & (P1 & P2 & P3 & P4) & P5 & P6); [simpl; lia|]. simpl in *.
    exists s'. split; [done|]. split; [|done]. split; [done|]. split; [by eapply rearr_trans|lia].
  - destruct (IH (mk_part (arr s) (pa s) (S (pb s)) (pc s) (pd s) (swap_cnt s))) as (s' & -> & (P1 & P2 & P3 & P4) & P5 & P6).
    { apply pinv_move; [done|lia..|]. intros k y Hk Hy. unfold placed. simpl.
      destruct (decide (k = pb s)) as [->|]; [simplify_eq|]; lia. }
    { simpl. lia. }
    simpl in *. exists s'. split; [done|]. split; [|done]. split; [done|]. split; [done|lia].
Qed.

Lemma scan_down_spec fuel a n v s : pinv a n v s -> (pc s + 1 < fuel + pb s)%nat ->
  exists s', scan_down cmp fuel a s = Some s' /\ scanned a n v s s' /\ pb s' = pb s /\
    ((pb s' <= pc s')%nat -> arr s' !! pb s = arr s !! pb s /\ exists x, arr s' !! pc s' = Some x /\ cmp x v < 0).
Proof.
  revert s. induction fuel as [|fuel IH]; intros s Hs Hf.
  { destruct (pi_bounds _ _ _ _ Hs). lia. }
  cbn [scan_down]. destruct (pi_bounds _ _ _ _ Hs) as (B1 & B2 & B3). pose proof (pi_len _ _ _ _ Hs) as Hlen.
  destruct (Nat.leb_spec (pb s) (pc s)) as [Hle|Hgt].
  2: { exists s. split; [done|]. split; [|split; [done|lia]]. split; [done|]. split; [apply rearr_refl|lia]. }
  destruct (CMP_spec (arr s) (pc s) a) as (x & v' & Hx & Hv & ->); [lia..|].
  rewrite (pi_pivot _ _ _ _ Hs) in Hv. injection Hv as <-. cbn [mbind option_bind].
  destruct (Z.geb_spec (cmp x v) 0) as [Hge0|Hlt0].
  2: { exists s. split; [done|]. split; [|split; [done|]].
       - split; [done|]. split; [apply rearr_refl|lia].
       - intros _. split; [done|]. exists x. split; [done|lia]. }
  destruct (Z.eqb_spec (cmp x v) 0) as [E0|N0].
  - destruct (swap_spec (arr s) (pc s) (pd s)) as (l & -> & Hp & Hl); [lia..|]. cbn [mbind option_bind].
    destruct (pinv_swap a n v s l (pc s) (pd s) (pa s) (pb s) (pc s - 1) (pd s - 1) true Hs) as [Hs' Hr]; try done; try lia.
    { assert (forall y, arr s !! pd s = Some y -> pc s = pd s -> cmp y v = 0) as Hsame
        by (intros y Hy Ep; rewrite <- Ep in Hy; congruence).
      intros k y Hk Hy. unfold placed. simpl. unfold tr in *.
      repeat case_decide; try pose proof (Hsame _ Hy); simplify_eq; lia. }
    destruct (IH _ Hs') as (s' & -> & (P1 & P2 & P3 & P4) & P5 & P6); [simpl; lia|]. simpl in *.
    exists s'. split; [done|]. split; [|split; [done|]].
    + split; [done|]. split; [by eapply rearr_trans|lia].
    + intros Hle'. destruct (P6 Hle') as [-> Hx']. split; [|done]. rewrite Hl. unfold tr. by repeat case_decide; try lia.
  - destruct (IH (mk_part (arr s) (pa s) (pb s) (pc s - 1) (pd s) (swap_cnt s))) as (s' & -> & (P1 & P2 & P3 & P4) & P5 & P6).
    { apply pinv_move; [done|lia..|]. intros k y Hk Hy. unfold placed. simpl.
      destruct (decide (k = pc s)) as [->|]; [simplify_eq|]; lia. }
    { simpl. lia. }
    simpl in *. exists s'. split; [done|]. split; [|done]. split; [done|]. split; [done|lia].
Qed.

Lemma partition_spec fuel a n v s : pinv a n v s -> (pc s + 1 < fuel + pb s)%nat ->
  exists s', partition cmp fuel a s = Some s' /\ pinv a n v s' /\ pb s' = (pc s' + 1)%nat /\
    rearr (a + 1) (n - 1) (arr s) (arr s').
Proof.
  revert s. induction fuel as [|fuel IH]; intros s Hs Hf.
  { destruct (pi_bounds _ _ _ _ Hs). lia. }
  cbn [partition].
  destruct (scan_up_spec (S fuel) a n v s Hs Hf) as (s1 & -> & (U1 & U2 & U3 & U4) & U5 & U6). cbn [mbind option_bind].
  destruct (scan_down_spec (S fuel) a n v s1 U1) as (s2 & -> & (D1 & D2 & D3 & D4) & D5 & D6); [lia|]. cbn [mbind option_bind].
  destruct (pi_bounds _ _ _ _ D1) as (B1 & B2 & B3). pose proof (pi_len _ _ _ _ D1) as Hlen.
  destruct (Nat.ltb_spec (pc s2) (pb s2)) as [Hlt|Hge].
  { exists s2. split; [done|]. split; [done|]. split; [lia|]. by eapply rearr_trans. }
  destruct (U6 ltac:(lia)) as (x & Hx & Hgt). destruct (D6 Hge) as (E & y & Hy & Hlt). rewrite Hx in E.
  assert (pb s2 <> pc s2) as Hne by (intros Epc; rewrite <- Epc, D5 in Hy; simplify_eq; lia).
  rewrite <- D5 in E.
  destruct (swap_spec (arr s2) (pb s2) (pc s2)) as (l & -> & Hp & Hl); [lia..|]. cbn [mbind option_bind].
  destruct (pinv_swap a n v s2 l (pb s2) (pc s2) (pa s2) (S (pb s2)) (pc s2 - 1) (pd s2) true D1) as [Hs' Hr]; try done; try lia.
  { intros k z Hk Hz. unfold placed. simpl. unfold tr in *. repeat case_decide; simplify_eq; lia. }
  destruct (IH _ Hs') as (s' & -> & P1 & P2 & P3); [simpl; lia|]. exists s'. split; [done|]. split; [done|].
  split; [done|]. eapply rearr_trans; [exact U2|]. eapply rearr_trans; [exact D2|]. by eapply rearr_trans.
Qed.

(** * The whole *)

(** Exchanging the ends of two adjacent groups exchanges the groups. *)
Lemma rotate_spec l i p q j : (i + p + q <= length l)%nat -> j = (i + p + q - Nat.min p q)%nat ->
  exists l', vecswap l i j (Nat.min p q) = Some l' /\ rearr i (p + q) l l' /\
    forall P Q, all_in P i p l -> all_in Q (i + p) q l -> all_in Q i q l' /\ all_in P (i + q) p l'.
Proof.
  intros Hlen ->. destruct (vecswap_spec l i (i + p + q - Nat.min p q) (Nat.min p q)) as (l' & -> & Hp & Hl); [lia..|].
  exists l'. split; [done|]. split.
  - split; [done|]. intros k Hk. rewrite Hl. unfold tr_blocks. by repeat case_decide; try lia.
  - intros P Q HP HQ. split; intros k x Hk; rewrite Hl; unfold tr_blocks.
    + repeat case_decide; try lia; apply HQ; lia.
    + repeat case_decide; try lia; apply HP; lia.
Qed.

(** The exchanges that bring the elements equal to the pivot to the middle. *)
Lemma regroup_spec a n v s : pinv a n v s -> pb s = (pc s + 1)%nat ->
  exists l1 l2,
    vecswap (arr s) a (pb s - Nat.min (pa s - a) (pb s - pa s)) (Nat.min (pa s - a) (pb s - pa s)) = Some l1 /\
    vecswap l1 (pb s) (a + n - Nat.min (pd s - pc s) (a + n - pd s - 1)) (Nat.min (pd s - pc s) (a + n - pd s - 1)) = Some l2 /\
    rearr a n (arr s) l2 /\
    (cmp v v = 0 ->
      all_in (fun x => cmp x v < 0) a (pb s - pa s) l2 /\
      all_in (fun x => cmp x v = 0) (a + (pb s - pa s)) (n - (pb s - pa s) - (pd s - pc s)) l2 /\
      all_in (fun x => cmp x v > 0) (a + n - (pd s - pc s)) (pd s - pc s) l2).
Proof.
  intros [H1 (B1 & B2 & B3) H3 H4] Hpb.
  destruct (rotate_spec (arr s) a (pa s - a) (pb s - pa s) (pb s - Nat.min (pa s - a) (pb s - pa s)))
    as (l1 & E1 & R1 & G1); [lia..|].
  destruct (rotate_spec l1 (pb s) (pd s - pc s) (a + n - pd s - 1) (a + n - Nat.min (pd s - pc s) (a + n - pd s - 1)))
    as (l2 & E2 & R2 & G2); [rewrite (rearr_length _ _ _ _ R1); lia|lia|].
  exists l1, l2. split; [done|]. split; [done|]. split.
  { apply (rearr_trans _ _ _ l1); [eapply rearr_weaken; [| |exact R1]|eapply rearr_weaken; [| |exact R2]]; lia. }
  intros Hvv.
  destruct (G1 (fun x => cmp x v = 0) (fun x => cmp x v < 0)) as [Z1 Z2].
  { intros k x Hk Hx. destruct (decide (k = a)) as [->|]; [congruence|]. destruct (H4 k x ltac:(lia) Hx) as (Q1 & Q2 & Q3 & Q4). lia. }
  { intros k x Hk Hx. destruct (H4 k x ltac:(lia) Hx) as (Q1 & Q2 & Q3 & Q4). lia. }
  destruct (G2 (fun x => cmp x v > 0) (fun x => cmp x v = 0)) as [Z3 Z4].
  { eapply all_in_out; [exact R1|lia|]. intros k x Hk Hx. destruct (H4 k x ltac:(lia) Hx) as (Q1 & Q2 & Q3 & Q4). lia. }
  { eapply all_in_out; [exact R1|lia|]. intros k x Hk Hx. destruct (H4 k x ltac:(lia) Hx) as (Q1 & Q2 & Q3 & Q4). lia. }
  split; [|split].
  - eapply all_in_out; [exact R2|lia|done].
  - intros k x Hk Hx. destruct (decide (k < pb s)%nat).
    + rewrite (rearr_out _ _ _ _ R2) in Hx by lia. apply (Z2 k); [lia|done].
    + apply (Z3 k); [lia|done].
  - eapply all_in_sub; [exact Z4|lia|lia].
Qed.

(** Three groups in order. *)
Lemma ordered_groups {H : Comparator cmp} l a n d1 d2 v : (d1 + d2 <= n)%nat ->
  ordered cmp a d1 l -> ordered cmp (a + n - d2) d2 l ->
  all_in (fun x => cmp x v < 0) a d1 l -> all_in (fun x => cmp x v = 0) (a + d1) (n - d1 - d2) l ->
  all_in (fun x => cmp x v > 0) (a + n - d2) d2 l -> ordered cmp a n l.
Proof.
  intros Hd O1 O2 G1 G2 G3 i j x y Hij Hj Hx Hy.
  destruct (decide (j < a + d1)%nat) as [Hj1|Hj1]; [apply (O1 i j); [lia..|done|done]|].
  destruct (decide (a + n - d2 <= i)%nat) as [Hi2|Hi2]; [apply (O2 i j); [lia..|done|done]|].
  apply (cmp_trans x v).
  - destruct (decide (i < a + d1)%nat); [pose proof (G1 i x ltac:(lia) Hx)|pose proof (G2 i x ltac:(lia) Hx)]; simpl in *; lia.
  - pose proof (cmp_flip y v). destruct (decide (j < a + n - d2)%nat);
      [pose proof (G2 j y ltac:(lia) Hy)|pose proof (G3 j y ltac:(lia) Hy)]; simpl in *; lia.
Qed.

(** The call that sorts a group, skipped for a group of one element or none. *)
Definition sorts (r : option (list A)) (l : list A) (a n : nat) : Prop :=
  exists l', r = Some l' /\ rearr a n l l' /\ (Comparator cmp -> ordered cmp a n l').

Lemma sorts_group (r : option (list A)) l a d : ((1 < d)%nat -> sorts r l a d) ->
  sorts (if (1 <? d)%nat then r else Some l) l a d.
Proof.
  intros H. destruct (Nat.ltb_spec 1 d) as [Hd|Hd]; [auto|]. exists l. split; [done|]. split; [apply rearr_refl|].
  intros _ i j x y Hij Hj. lia.
Qed.

(** Sorting the two outer groups, one after the other. *)
Lemma sorts_groups l a n d1 d2 v (r1 r2 : list A -> option (list A)) : (d1 + d2 <= n)%nat ->
  (Comparator cmp -> all_in (fun x => cmp x v < 0) a d1 l /\
    all_in (fun x => cmp x v = 0) (a + d1) (n - d1 - d2) l /\ all_in (fun x => cmp x v > 0) (a + n - d2) d2 l) ->
  (forall l', length l' = length l -> sorts (r1 l') l' a d1) ->
  (forall l', length l' = length l -> sorts (r2 l') l' (a + n - d2) d2) ->
  sorts (l' ← r1 l; r2 l') l a n /\ sorts (l' ← r2 l; r1 l') l a n.
Proof.
  intros Hd HG S1 S2.
  assert (forall l', rearr a d1 l l' -> rearr a n l l') as W1 by (intros l'; apply rearr_weaken; lia).
  assert (forall l1 l2, rearr (a + n - d2) d2 l1 l2 -> rearr a n l1 l2) as W2 by (intros l1 l2; apply rearr_weaken; lia).
  assert (forall l1 l2, rearr a d1 l1 l2 -> rearr a n l1 l2) as W1' by (intros l1 l2; apply rearr_weaken; lia).
  split.
  - destruct (S1 l eq_refl) as (l1 & -> & R1 & O1). cbn [mbind option_bind].
    destruct (S2 l1) as (l2 & -> & R2 & O2); [by eapply rearr_length|]. exists l2. split; [done|].
    split; [by eapply rearr_trans; eauto|]. intros Hc. destruct (HG Hc) as (G1 & G2 & G3).
    apply (ordered_groups l2 a n d1 d2 v Hd); auto.
    + intros i j x y Hij Hj. rewrite !(rearr_out _ _ _ _ R2) by lia. apply O1; auto.
    + eapply all_in_out; [exact R2|lia|]. by eapply rearr_all.
    + eapply all_in_out; [exact R2|lia|]. eapply all_in_out; [exact R1|lia|done].
    + eapply rearr_all; [exact R2|]. eapply all_in_out; [exact R1|lia|done].
  - destruct (S2 l eq_refl) as (l1 & -> & R1 & O1). cbn [mbind option_bind].
    destruct (S1 l1) as (l2 & -> & R2 & O2); [by eapply rearr_length|]. exists l2. split; [done|].
    split; [by eapply rearr_trans; eauto|]. intros Hc. destruct (HG Hc) as (G1 & G2 & G3).
    apply (ordered_groups l2 a n d1 d2 v Hd); auto.
    + intros i j x y Hij Hj. rewrite !(rearr_out _ _ _ _ R2) by lia. apply O1; auto.
    + eapply rearr_all; [exact R2|]. eapply all_in_out; [exact R1|lia|done].
    + eapply all_in_out; [exact R2|lia|]. eapply all_in_out; [exact R1|lia|done].
    + eapply all_in_out; [exact R2|lia|]. by eapply rearr_all.
Qed.

Lemma sorts_trans r l l1 a n : rearr a n l l1 -> sorts r l1 a n -> sorts r l a n.
Proof. intros R (l' & -> & R' & O). exists l'. split; [done|]. split; [by eapply rearr_trans|done]. Qed.

Lemma cmp_refl {H : Comparator cmp} x : cmp x x = 0.
Proof. pose proof (cmp_flip x x). lia. Qed.

(** The partition of [n] elements around a pivot. *)
Lemma partition_call l a n : (7 <= n)%nat -> (a + n <= length l)%nat ->
  exists p l0 v s, choose_pivot cmp l a n = Some p /\ swap l a p = Some l0 /\
    partition cmp n a (mk_part l0 (a + 1) (a + 1) (a + (n - 1)) (a + (n - 1)) false) = Some s /\
    pinv a n v s /\ pb s = (pc s + 1)%nat /\ rearr a n l (arr s).
Proof.
  intros Hn Hlen. destruct (choose_pivot_spec l a n Hn Hlen) as (p & Ep & Hp).
  destruct (swap_spec l a p) as (l0 & E0 & Hp0 & Hl0); [lia..|].
  destruct (lookup_lt_is_Some_2 l0 a) as [v Hv]; [rewrite Hp0; lia|].
  destruct (partition_spec n a n v (mk_part l0 (a + 1) (a + 1) (a + (n - 1)) (a + (n - 1)) false)) as (s & Es & P1 & P2 & P3).
  { split; simpl; [by rewrite Hp0|lia|done|]. intros k x Hk _. unfold placed. simpl. lia. }
  { simpl. lia. }
  exists p, l0, v, s. split; [done|]. split; [done|]. split; [done|]. split; [done|]. split; [done|].
  apply (rearr_trans _ _ _ l0); [apply (swap_rearr l _ _ _ _ _ Hp0 Hl0); lia|].
  apply (rearr_weaken _ _ (a + 1) (n - 1)); [lia..|done].
Qed.

Lemma qsort_at_spec depth fuel l a n : (n <= fuel)%nat -> (0 < fuel)%nat -> (0 < depth)%nat -> (n < 2 ^ depth)%nat ->
  (a + n <= length l)%nat -> sorts (qsort_at cmp depth fuel l a n) l a n.
Proof.
  revert fuel l a n. induction depth as [|depth IHd]; [lia|]. intros fuel.
  induction fuel as [|fuel IHf]; [lia|]. intros l a n Hf _ _ Hd Hlen. cbn [qsort_at].
  destruct (Nat.ltb_spec n 7) as [|H7].
  { destruct (insertion_sort_spec l a n Hlen) as (l' & Hl'). by exists l'. }
  destruct (partition_call l a n H7 Hlen) as (p & l0 & v & s & -> & E0 & Es & Hs & Hpb & R).
  cbn [mbind option_bind]. rewrite E0. cbn [mbind option_bind]. rewrite Es. cbn [mbind option_bind].
  apply (sorts_trans _ _ (arr s)); [done|]. destruct (pi_bounds _ _ _ _ Hs) as (B1 & B2 & B3).
  destruct (swap_cnt s); cbn [negb].
  2: { destruct (insertion_sort_spec (arr s) a n (pi_len _ _ _ _ Hs)) as (l' & Hl'). by exists l'. }
  destruct (regroup_spec a n v s Hs Hpb) as (l1 & l2 & E1 & E2 & R2 & G). cbv zeta.
  rewrite E1. cbn [mbind option_bind]. rewrite E2. cbn [mbind option_bind].
  apply (sorts_trans _ _ l2); [done|].
  assert (a + n <= length l2)%nat as Hlen2 by (rewrite (rearr_length _ _ _ _ R2); apply Hs).
  set (d1 := (pb s - pa s)%nat) in *. set (d2 := (pd s - pc s)%nat) in *. assert (d1 + d2 < n)%nat as Hdd by lia.
  assert (forall d a' l', (1 < d)%nat -> (2 * d < n)%nat -> (a' + d <= length l')%nat ->
    sorts (qsort_at cmp depth d l' a' d) l' a' d) as Hrec.
  { intros d a' l' H1 H2 H3. apply IHd; [lia|lia| |simpl in Hd; lia|done].
    destruct depth; [simpl in Hd; lia|lia]. }
  destruct (Nat.leb_spec d1 d2) as [Hle|Hgt].
  - refine (proj1 (sorts_groups l2 a n d1 d2 v (fun l => if (1 <? d1)%nat then qsort_at cmp depth d1 l a d1 else Some l)
      (fun l => if (1 <? d2)%nat then qsort_at cmp (S depth) fuel l (a + n - d2) d2 else Some l) _ _ _ _));
      [lia|intros Hc; by apply G, cmp_refl|..]; intros l' Hl'; apply sorts_group; intros Hd1; [apply Hrec|apply IHf]; lia.
  - refine (proj2 (sorts_groups l2 a n d1 d2 v (fun l => if (1 <? d1)%nat then qsort_at cmp (S depth) fuel l a d1 else Some l)
      (fun l => if (1 <? d2)%nat then qsort_at cmp depth d2 l (a + n - d2) d2 else Some l) _ _ _ _));
      [lia|intros Hc; by apply G, cmp_refl|..]; intros l' Hl'; apply sorts_group; intros Hd1; [apply IHf|apply Hrec]; lia.
Qed.

(** * Binary search *)

(** The elements greater than the key come last, those smaller first. *)
Definition searchable (key_cmp : A -> Z) (l : list A) : Prop :=
  forall i j x y, (i < j)%nat -> l !! i = Some x -> l !! j = Some y -> Z.sgn (key_cmp y) <= Z.sgn (key_cmp x).

Definition found (key_cmp : A -> Z) (l : list A) (r : option nat) : Prop :=
  match r with
  | Some p => exists x, l !! p = Some x /\ key_cmp x = 0
  | None => forall x, x ∈ l -> key_cmp x <> 0
  end.

(** The search looks among [lim] elements from [base] on; those before are too small, those after
    too great. *)
Lemma bsearch_loop_spec (key_cmp : A -> Z) l f base lim : searchable key_cmp l ->
  (lim < 2 ^ f)%nat -> (base + lim <= length l)%nat ->
  (forall i x, (i < base)%nat -> l !! i = Some x -> key_cmp x > 0) ->
  (forall i x, (base + lim <= i)%nat -> l !! i = Some x -> key_cmp x < 0) ->
  exists r, bsearch_loop (S f) key_cmp l base lim = Some r /\ found key_cmp l r.
Proof.
  intros Hs. revert base lim. induction f as [|f IH]; intros base lim Hf Hlen Hlo Hhi.
  all: cbn [bsearch_loop]; destruct (Nat.eqb_spec lim 0) as [->|Hne].
  1,3: exists None; split; [done|]; intros x Hx; apply list_elem_of_lookup in Hx as [i Hx];
    destruct (decide (i < base)%nat) as [Hi|Hi]; [pose proof (Hlo i x Hi Hx)|pose proof (Hhi i x ltac:(lia) Hx)]; lia.
  { simpl in Hf. lia. }
  assert (lim / 2 < lim)%nat by (apply Nat.div_lt; lia).
  pose proof (Nat.div_mod_eq lim 2). pose proof (Nat.mod_upper_bound lim 2 ltac:(done)).
  pose proof (Nat.div_mod_eq (lim - 1) 2). pose proof (Nat.mod_upper_bound (lim - 1) 2 ltac:(done)).
  rewrite Nat.pow_succ_r' in Hf.
  destruct (lookup_lt_is_Some_2 l (base + lim / 2)) as [x Hx]; [lia|]. rewrite Hx.
  destruct (Z.eqb_spec (key_cmp x) 0) as [E|N]; [exists (Some (base + lim / 2)%nat); split; [done|by exists x]|].
  destruct (Z.gtb_spec (key_cmp x) 0) as [Hgt|Hle].
  - apply IH; [lia|lia| |intros i y Hi; apply Hhi; lia].
    intros i y Hi Hy. destruct (decide (i = base + lim / 2)%nat) as [->|]; [simplify_eq; lia|].
    pose proof (Hs i (base + lim / 2)%nat y x ltac:(lia) Hy Hx). lia.
  - apply IH; [lia|lia|done|]. intros i y Hi Hy.
    destruct (decide (i = base + lim / 2)%nat) as [->|]; [simplify_eq; lia|].
    pose proof (Hs (base + lim / 2)%nat i x y ltac:(lia) Hx Hy). lia.
Qed.

Lemma bsearch_loop_mono (key_cmp : A -> Z) l f f' base lim r :
  bsearch_loop f key_cmp l base lim = Some r -> (f <= f')%nat -> bsearch_loop f' key_cmp l base lim = Some r.
Proof.
  revert f' base lim. induction f as [|f IH]; intros f' base lim H Hf; [done|]. destruct f' as [|f']; [lia|].
  cbn [bsearch_loop] in *. destruct (lim =? 0)%nat; [done|]. destruct (l !! _); [|done].
  destruct (_ =? 0); [done|]. destruct (_ >? 0); apply IH; (done || lia).
Qed.

Lemma bsearch_spec (key_cmp : A -> Z) l : searchable key_cmp l ->
  exists r, bsearch key_cmp l (length l) = Some r /\ found key_cmp l r /\
    bsearch_loop (S (S (Nat.log2 (length l)))) key_cmp l 0 (length l) = Some r.
Proof.
  intros Hs. assert (forall f, (length l < 2 ^ f)%nat ->
    exists r, bsearch_loop (S f) key_cmp l 0 (length l) = Some r /\ found key_cmp l r) as H.
  { intros f Hf. apply (bsearch_loop_spec key_cmp l f 0 (length l) Hs Hf); [done|lia|].
    intros i x Hi Hx. apply lookup_lt_Some in Hx. lia. }
  destruct (H (S (Nat.log2 (length l)))) as (r & E & Hr).
  { destruct (length l) as [|n]; [simpl; lia|]. apply Nat.log2_spec. lia. }
  destruct (H (length l)) as (r' & E' & Hr'); [apply Nat.pow_gt_lin_r; lia|].
  assert (r' = r) as ->; [|by exists r]. destruct (Nat.le_ge_cases (S (S (Nat.log2 (length l)))) (S (length l))) as [Hle|Hle].
  - pose proof (bsearch_loop_mono _ _ _ _ _ _ _ E Hle). congruence.
  - pose proof (bsearch_loop_mono _ _ _ _ _ _ _ E' Hle). congruence.
Qed.

Lemma ordered_searchable {H : Comparator cmp} key l : ordered cmp 0 (length l) l -> searchable (cmp key) l.
Proof.
  intros Ho i j x y Hij Hx Hy. assert (cmp x y <= 0) as Hxy.
  { apply (Ho i j); [lia| |done|done]. apply lookup_lt_Some in Hy. lia. }
  pose proof (cmp_trans key x y). pose proof (cmp_trans y key x). pose proof (cmp_trans x y key).
  pose proof (cmp_flip x y). pose proof (cmp_flip key x). pose proof (cmp_flip key y). lia.
Qed.

Lemma ordered_sorted l : ordered cmp 0 (length l) l <-> StronglySorted (fun x y => cmp x y <= 0) l.
Proof.
  induction l as [|x l IH]; [split; [constructor|intros _ i j y z Hij Hj; simpl in Hj; lia]|]. split.
  - intros H. constructor.
    + apply IH. intros i j y z Hij Hj Hy Hz. apply (H (S i) (S j)); simpl; [lia|lia|done|done].
    + apply Forall_lookup. intros i y Hy. apply (H 0%nat (S i)); [lia| |done|done]. apply lookup_lt_Some in Hy. simpl. lia.
  - intros H. inversion H as [|? ? H1 H2]; subst. intros [|i] [|j] y z Hij Hj Hy Hz; simplify_eq/=; try lia.
    + rewrite Forall_lookup in H2. by apply (H2 j).
    + apply (proj2 IH H1 i j); [lia..|done|done].
Qed.

End proofs.

(** * The exchange of elements as an exchange of bytes *)

(** On disjoint blocks of bytes, and on a block and itself, swapfunc exchanges the blocks. *)
Lemma swapfunc_vecswap m a b es : swapfunc m a b es = vecswap m a b es.
Proof.
  revert m a b. induction es as [|es IH]; intros m a b; [done|]. simpl. unfold swap.
  destruct (m !! a), (m !! b); simpl; auto.
Qed.

(** swapfunc at two elements of [es] bytes is [swap] on the elements. *)
Lemma swapfunc_elements (l l' : list (list Z)) es i j : Forall (fun x => length x = es) l -> (i < j)%nat ->
  swap l i j = Some l' -> swapfunc (mjoin l) (i * es) (j * es) es = Some (mjoin l').
Proof.
  intros Hes Hij Hsw. assert ((i < length l)%nat /\ (j < length l)%nat) as [Hi Hj].
  { unfold swap in Hsw. destruct (l !! i) eqn:Ei, (l !! j) eqn:Ej; simplify_eq.
    split; by eapply lookup_lt_Some. }
  destruct (swap_spec l i j Hi Hj) as (l1 & E & Hp & Hl). rewrite E in Hsw. injection Hsw as <-.
  assert (forall L : list (list Z), Forall (fun x => length x = es) L -> length (mjoin L) = (length L * es)%nat) as Hlen.
  { intros L HL. rewrite length_join. induction HL as [|x L Hx _ IH]; [done|]. csimpl. rewrite Hx, IH. lia. }
  assert (Forall (fun x => length x = es) l1) as Hes1 by (by rewrite Hp).
  assert (S j * es <= length l * es)%nat by (apply Nat.mul_le_mono_r; lia).
  assert (S i * es <= j * es)%nat by (apply Nat.mul_le_mono_r; lia).
  rewrite swapfunc_vecswap. destruct (vecswap_spec (mjoin l) (i * es) (j * es) es) as (m' & -> & Hpm & Hm);
    [simpl in *; lia|rewrite Hlen by done; simpl in *; lia|]. f_equal. apply list_eq. intros k. rewrite Hm.
  destruct (decide (k < length l * es)%nat) as [Hk|Hk].
  - assert (es <> 0)%nat as Hnz by (intros ->; lia).
    pose proof (Nat.div_mod_eq k es) as Ek. pose proof (Nat.mod_upper_bound k es Hnz) as Hr.
    assert (forall (L : list (list Z)) q r, Forall (fun x => length x = es) L -> (r < es)%nat ->
      mjoin L !! (q * es + r)%nat = (x ← L !! q; x !! r)) as Hat.
    { intros L q r HL Hr'. apply option_eq. intros x. rewrite (join_lookup_Some_same_length' es L q r x HL Hr').
      rewrite bind_Some. done. }
    revert Ek Hr. generalize (k / es)%nat (k `mod` es)%nat. intros q r Ek Hr.
    replace k with (q * es + r)%nat by lia. clear Ek Hk.
    rewrite (Hat l1 q r Hes1 Hr), Hl. rewrite <- (Hat l _ r Hes Hr). f_equal. unfold tr_blocks, tr.
    assert (forall p, (p * es <= q * es + r < p * es + es)%nat <-> q = p) as Hiff.
    { intros p. split; [|intros ->; lia]. intros [A1 A2].
      assert (q < p -> S q * es <= p * es)%nat by (intros; apply Nat.mul_le_mono_r; lia).
      assert (p < q -> S p * es <= q * es)%nat by (intros; apply Nat.mul_le_mono_r; lia).
      simpl in *. lia. }
    pose proof (Hiff i) as Hqi. pose proof (Hiff j) as Hqj.
    repeat case_decide; subst; try lia; tauto.
  - rewrite !lookup_ge_None_2; [done|rewrite Hlen, Hp by done; lia|].
    rewrite Hlen by done. unfold tr_blocks. repeat case_decide; simpl in *; lia.
Qed.

(** * Sorting images of elements *)

(** Sorting the images of some elements, by a comparison of the images, is sorting the elements. *)
Section image.
Context {A B : Type} (f : B -> A) (cmp : A -> A -> Z).

Definition images (l : list B) : list A := f <$> l.
Definition cmp_image (x y : B) : Z := cmp (f x) (f y).

Lemma CMP_image l i j : CMP cmp (images l) i j = CMP cmp_image l i j.
Proof. unfold CMP, images. rewrite !list_lookup_fmap. by destruct (l !! i), (l !! j). Qed.

Lemma swap_image (l : list B) i j : swap (images l) i j = images <$> swap l i j.
Proof. unfold swap, images. rewrite !list_lookup_fmap. destruct (l !! i), (l !! j); cbn [fmap option_fmap option_map]; try done. by rewrite !list_fmap_insert. Qed.

Lemma vecswap_image n : forall (l : list B) i j, vecswap (images l) i j n = images <$> vecswap l i j n.
Proof. induction n as [|n IH]; intros l i j; [done|]. cbn [vecswap]. rewrite swap_image. destruct (swap l i j); cbn [fmap option_fmap option_map mbind option_bind]; [apply IH|done]. Qed.

Lemma med3_image l a b c : med3 cmp (images l) a b c = med3 cmp_image l a b c.
Proof. unfold med3. by rewrite !CMP_image. Qed.

Lemma sift_image a k : forall l, sift cmp (images l) a k = images <$> sift cmp_image l a k.
Proof.
  induction k as [|k IH]; intros l; [done|]. cbn [sift]. rewrite CMP_image. destruct (CMP cmp_image l _ _) as [r|]; cbn [fmap option_fmap option_map mbind option_bind]; [|done]. destruct (r >? 0); [|done].
  rewrite swap_image. destruct (swap l _ _); cbn [fmap option_fmap option_map mbind option_bind]; [apply IH|done].
Qed.

Lemma insertion_image l a n : insertion_sort cmp (images l) a n = images <$> insertion_sort cmp_image l a n.
Proof.
  unfold insertion_sort. generalize 1%nat, (n - 1)%nat. intros k todo. revert l k. induction todo as [|todo IH]; intros l k; [done|]. cbn [insertion_loop].
  rewrite sift_image. destruct (sift cmp_image l a k); cbn [fmap option_fmap option_map mbind option_bind]; [apply IH|done].
Qed.

Lemma choose_pivot_image l a n : choose_pivot cmp (images l) a n = choose_pivot cmp_image l a n.
Proof.
  unfold choose_pivot. destruct (7 <? n)%nat; [|done]. destruct (40 <? n)%nat; rewrite !med3_image; [|done].
  destruct (med3 cmp_image l a _ _); cbn [fmap option_fmap option_map mbind option_bind]; [|done]. destruct (med3 cmp_image l _ (a + n / 2) _); cbn [fmap option_fmap option_map mbind option_bind]; [|done]. destruct (med3 cmp_image l _ _ (a + (n - 1))); cbn [fmap option_fmap option_map mbind option_bind]; [|done]. apply med3_image.
Qed.

Definition part_image (s : @part B) : @part A := mk_part (images (arr s)) (pa s) (pb s) (pc s) (pd s) (swap_cnt s).

Lemma scan_up_image fuel a : forall s, scan_up cmp fuel a (part_image s) = part_image <$> scan_up cmp_image fuel a s.
Proof.
  induction fuel as [|fuel IH]; intros s; [done|]. cbn [scan_up part_image arr pa pb pc pd swap_cnt]. destruct (pb s <=? pc s)%nat; [|done]. rewrite CMP_image.
  destruct (CMP cmp_image (arr s) (pb s) a) as [r|]; cbn [fmap option_fmap option_map mbind option_bind]; [|done]. destruct (r <=? 0); [|done]. destruct (r =? 0); [|apply (IH (mk_part (arr s) _ _ _ _ _))].
  rewrite swap_image. destruct (swap (arr s) (pa s) (pb s)) as [l|]; cbn [fmap option_fmap option_map mbind option_bind]; [apply (IH (mk_part l _ _ _ _ _))|done].
Qed.

Lemma scan_down_image fuel a : forall s, scan_down cmp fuel a (part_image s) = part_image <$> scan_down cmp_image fuel a s.
Proof.
  induction fuel as [|fuel IH]; intros s; [done|]. cbn [scan_down part_image arr pa pb pc pd swap_cnt]. destruct (pb s <=? pc s)%nat; [|done]. rewrite CMP_image.
  destruct (CMP cmp_image (arr s) (pc s) a) as [r|]; cbn [fmap option_fmap option_map mbind option_bind]; [|done]. destruct (r >=? 0); [|done]. destruct (r =? 0); [|apply (IH (mk_part (arr s) _ _ _ _ _))].
  rewrite swap_image. destruct (swap (arr s) (pc s) (pd s)) as [l|]; cbn [fmap option_fmap option_map mbind option_bind]; [apply (IH (mk_part l _ _ _ _ _))|done].
Qed.

Lemma partition_image fuel a : forall s, partition cmp fuel a (part_image s) = part_image <$> partition cmp_image fuel a s.
Proof.
  induction fuel as [|fuel IH]; intros s; [done|]. cbn [partition]. rewrite scan_up_image. destruct (scan_up cmp_image (S fuel) a s) as [s1|]; cbn [fmap option_fmap option_map mbind option_bind]; [|done].
  rewrite scan_down_image. destruct (scan_down cmp_image (S fuel) a s1) as [s2|]; cbn [fmap option_fmap option_map mbind option_bind]; [|done]. cbn [part_image arr pa pb pc pd]. destruct (pc s2 <? pb s2)%nat; [done|].
  rewrite swap_image. destruct (swap (arr s2) (pb s2) (pc s2)) as [l|]; cbn [fmap option_fmap option_map mbind option_bind]; [apply (IH (mk_part l _ _ _ _ _))|done].
Qed.

Lemma qsort_at_image depth : forall fuel l a n, qsort_at cmp depth fuel (images l) a n = images <$> qsort_at cmp_image depth fuel l a n.
Proof.
  induction depth as [|depth IHd]; intros fuel; [done|]. induction fuel as [|fuel IH]; intros l a n; [done|]. cbn [qsort_at]. destruct (n <? 7)%nat; [apply insertion_image|].
  rewrite choose_pivot_image. destruct (choose_pivot cmp_image l a n) as [pm|]; cbn [mbind option_bind]; [|done]. rewrite swap_image. destruct (swap l a pm) as [l1|]; cbn [fmap option_fmap option_map mbind option_bind]; [|done].
  pose proof (partition_image n a (mk_part l1 (a + 1) (a + 1) (a + (n - 1)) (a + (n - 1)) false)) as Hp. unfold part_image at 1 in Hp. cbn [arr pa pb pc pd swap_cnt] in Hp. rewrite Hp. clear Hp.
  destruct (partition cmp_image n a _) as [s|]; cbn [fmap option_fmap option_map mbind option_bind]; [|done]. cbn [part_image arr pa pb pc pd swap_cnt]. destruct (negb (swap_cnt s)); [apply insertion_image|].
  rewrite vecswap_image. destruct (vecswap (arr s) _ _ _) as [l2|]; cbn [fmap option_fmap option_map mbind option_bind]; [|done].
  rewrite vecswap_image. destruct (vecswap l2 _ _ _) as [l3|]; cbn [fmap option_fmap option_map mbind option_bind]; [|done].
  destruct (_ <=? _)%nat.
  - destruct (1 <? pb s - pa s)%nat; [rewrite IHd; destruct (qsort_at cmp_image depth _ l3 _ _) as [l4|]; cbn [fmap option_fmap option_map mbind option_bind]; [|done]|cbn [mbind option_bind]]; (destruct (1 <? pd s - pc s)%nat; [apply IH|done]).
  - destruct (1 <? pd s - pc s)%nat; [rewrite IHd; destruct (qsort_at cmp_image depth _ l3 _ _) as [l4|]; cbn [fmap option_fmap option_map mbind option_bind]; [|done]|cbn [mbind option_bind]]; (destruct (1 <? pb s - pa s)%nat; [apply IH|done]).
Qed.

Lemma qsort_image depth l : qsort cmp depth (images l) = images <$> qsort cmp_image depth l.
Proof. unfold qsort. replace (length (images l)) with (length l) by (unfold images; by rewrite length_fmap). apply qsort_at_image. Qed.
End image.

(** A comparison function that is as the C standard asks on the elements of the array only. *)
Lemma qsort_on {A : Type} (cmp : A -> A -> Z) (P : A -> Prop) l depth :
  (forall x y, P x -> P y -> Z.sgn (cmp y x) = - Z.sgn (cmp x y)) -> (forall x y z, P x -> P y -> P z -> cmp x y <= 0 -> cmp y z <= 0 -> cmp x z <= 0) ->
  Forall P l -> (0 < depth)%nat -> (length l < 2 ^ depth)%nat ->
  exists l', qsort cmp depth l = Some l' /\ l' ≡ₚ l /\ StronglySorted (fun x y => cmp x y <= 0) l'.
Proof.
  intros Hflip Htrans HP Hd Hl. set (f := @proj1_sig A P). assert (exists k : list (sig P), l = images f k) as [k ->].
  { clear Hl. induction HP as [|x l Hx HP [k ->]]; [by exists []|]. by exists ((x ↾ Hx) :: k). }
  assert (Comparator (cmp_image f cmp)) as Hc. { split; [intros [x Hx] [y Hy]; by apply Hflip|intros [x Hx] [y Hy] [z Hz]; by apply Htrans]. }
  unfold images in Hl. rewrite length_fmap in Hl. destruct (qsort_at_spec (cmp_image f cmp) depth (S (length k)) k 0 (length k)) as (k' & E & R & O); [lia..|].
  exists (images f k'). rewrite qsort_image. change (qsort (cmp_image f cmp) depth k = Some k') in E. rewrite E. split; [done|]. split; [unfold images; apply fmap_Permutation, R|].
  unfold images. assert (StronglySorted (fun x y => cmp_image f cmp x y <= 0) k') as Hs by (apply ordered_sorted; rewrite (rearr_length _ _ _ _ R); by apply O).
  clear -Hs. induction Hs as [|x k' Hs IH Hx]; [constructor|]. rewrite fmap_cons. constructor; [done|]. by apply Forall_fmap.
Qed.

(** * Theorems *)

(** C27: qsort with a comparison function as the C standard describes it leaves the array a sorted
    permutation of what it was, with a stack of any [depth] frames such that the array has fewer
    than 2^depth elements. *)
Theorem qsort_sorts {A : Type} (cmp : A -> A -> Z) {Hc : Comparator cmp} (l : list A) depth :
  (0 < depth)%nat -> (length l < 2 ^ depth)%nat ->
  exists l', qsort cmp depth l = Some l' /\ l' ≡ₚ l /\ StronglySorted (fun x y => cmp x y <= 0) l'.
Proof.
  intros Hd Hl. destruct (qsort_at_spec cmp depth (S (length l)) l 0 (length l)) as (l' & E & R & O); [lia..|].
  exists l'. split; [done|]. split; [apply R|]. apply ordered_sorted. rewrite (rearr_length _ _ _ _ R). auto.
Qed.

#[local] Instance sub_comparator : Comparator Z.sub.
Proof. split; lia. Qed.

(** Fifty elements, enough for the median of three medians. *)
Definition ex_array : list Z := (fun i => (37 * Z.of_nat i) mod 23) <$> seq 0 50.

Lemma qsort_sorts_witness :
  exists l', qsort Z.sub 6 ex_array = Some l' /\ l' ≡ₚ ex_array /\ StronglySorted (fun x y => x - y <= 0) l'.
Proof. apply (qsort_sorts Z.sub ex_array 6); vm_compute; repeat constructor. Defined.

(** Whatever the comparison function returns, qsort reads and writes only elements of the
    array, returns, and leaves a permutation of it; it never has more than log2 n + 1 calls on the
    stack. *)
Theorem qsort_total {A : Type} (cmp : A -> A -> Z) (l : list A) :
  exists l', qsort cmp (S (Nat.log2 (length l))) l = Some l' /\ l' ≡ₚ l.
Proof.
  destruct (qsort_at_spec cmp (S (Nat.log2 (length l))) (S (length l)) l 0 (length l)) as (l' & E & R & _); [lia..| |lia|].
  - destruct (length l) as [|n]; [simpl; lia|]. apply Nat.log2_spec. lia.
  - exists l'. split; [done|]. apply R.
Qed.

(** Bsearch on an array that qsort has sorted finds an element equal to the key if there is
    one, and otherwise returns a null pointer; it makes at most log2 n + 1 comparisons. *)
Theorem sort_and_search {A : Type} (cmp : A -> A -> Z) {Hc : Comparator cmp} (l l' : list A) depth key :
  (0 < depth)%nat -> (length l < 2 ^ depth)%nat -> qsort cmp depth l = Some l' ->
  exists r, bsearch (cmp key) l' (length l') = Some r /\
    bsearch_loop (S (S (Nat.log2 (length l')))) (cmp key) l' 0 (length l') = Some r /\
    match r with
    | Some p => exists x, l' !! p = Some x /\ x ∈ l /\ cmp key x = 0
    | None => forall x, x ∈ l -> cmp key x <> 0
    end.
Proof.
  intros Hd Hl Hq. destruct (qsort_at_spec cmp depth (S (length l)) l 0 (length l)) as (l1 & E & R & O); [lia..|].
  unfold qsort in Hq. rewrite E in Hq. injection Hq as <-. pose proof (rearr_perm _ _ _ _ R) as Hp.
  destruct (bsearch_spec (cmp key) l1) as (r & E1 & Hf & E2).
  { apply (ordered_searchable cmp).
    rewrite (rearr_length _ _ _ _ R). auto. }
  exists r. split; [done|]. split; [done|]. destruct r as [p|]; simpl in Hf.
  - destruct Hf as (x & Hx & Hk). exists x. split; [done|]. split; [|done]. rewrite <- Hp. by eapply list_elem_of_lookup_2.
  - intros x Hx. apply Hf. by rewrite Hp.
Qed.

Lemma sort_and_search_witness :
  exists r, bsearch (Z.sub 5) [1; 3; 5; 8] 4 = Some r /\
    bsearch_loop 4 (Z.sub 5) [1; 3; 5; 8] 0 4 = Some r /\
    match r with
    | Some p => exists x, [1; 3; 5; 8] !! p = Some x /\ x ∈ [8; 5; 1; 3] /\ 5 - x = 0
    | None => forall x, x ∈ [8; 5; 1; 3] -> 5 - x <> 0
    end.
Proof.
  apply (sort_and_search Z.sub [8; 5; 1; 3] [1; 3; 5; 8] 3 5); [repeat constructor|repeat constructor|].
  vm_compute. reflexivity.
Defined.
