(* ===== verification/StrTok.v ===== *)
(** Cutting strings into tokens: strsep, strtok_r and strtok of
    upstream-openbsd/lib/libc/string.

    The functions write terminators into the string they cut, so that the string is one array
    [buf] and the pointers into it are indices.  The theorems are about the loop every caller of
    these functions writes: the tokens it gets are the fields of the string, for strtok the
    non-empty ones, and the loop ends. *)

From S2P Require Import Prelude CString.

(** * Definitions *)

(** The loop of strsep, from index [s] on: the index of the first delimiter or terminator and the
    character there. *)
Fixpoint strsep_loop (l delim : list Z) (s : nat) : option (nat * Z) :=
  match l with
  | [] => None
  | c :: l =>
      match cspan_in c delim with
      | None => None
      | Some true => Some (s, c)
      | Some false => strsep_loop l delim (S s)
      end
  end.

(** The array, [*stringp] and the result. *)
Definition strsep (buf : list Z) (stringp : option nat) (delim : list Z)
    : option (list Z * option nat * option nat) :=
  match stringp with
  | None => Some (buf, None, None)
  | Some tok =>
      match strsep_loop (drop tok buf) delim tok with
      | None => None
      | Some (i, c) =>
          if c =? 0 then Some (buf, None, Some tok)
          else Some (<[i := 0]> buf, Some (S i), Some tok)
      end
  end.

(** The first loop of strtok_r: the index of the first character that is no delimiter, and the
    character. *)
Fixpoint strtok_skip (l delim : list Z) (s : nat) : option (nat * Z) :=
  match l with
  | [] => None
  | c :: l =>
      match span_in c delim with
      | None => None
      | Some true => strtok_skip l delim (S s)
      | Some false => Some (s, c)
      end
  end.

(** The array, [*last] and the result. *)
Definition strtok_r (buf : list Z) (s : option nat) (delim : list Z) (last : option nat)
    : option (list Z * option nat * option nat) :=
  match (match s with Some s => Some s | None => last end) with
  | None => Some (buf, last, None)
  | Some s =>
      match strtok_skip (drop s buf) delim s with
      | None => None
      | Some (tok, c) =>
          if c =? 0 then Some (buf, None, None)
          else match strsep_loop (drop (S tok) buf) delim (S tok) with
               | None => None
               | Some (i, c) =>
                   if c =? 0 then Some (buf, None, Some tok)
                   else Some (<[i := 0]> buf, Some (S i), Some tok)
               end
      end
  end.

(** strtok keeps [last] in a static variable, here the second component of the state. *)
Definition strtok (buf : list Z) (s : option nat) (delim : list Z) (last : option nat)
    : option (list Z * option nat * option nat) := strtok_r buf s delim last.

(** * The callers' loops *)

(** [while ((tok = strsep(&p, delim)) != NULL) ...] *)
Fixpoint strsep_all (fuel : nat) (buf : list Z) (p : option nat) (delim : list Z) : option (list Z * list nat) :=
  match fuel with
  | O => None
  | S fuel =>
      match strsep buf p delim with
      | None => None
      | Some (buf, _, None) => Some (buf, [])
      | Some (buf, p, Some tok) =>
          match strsep_all fuel buf p delim with Some (buf, toks) => Some (buf, tok :: toks) | None => None end
      end
  end.

(** [for (tok = strtok(s, delim); tok != NULL; tok = strtok(NULL, delim)) ...] *)
Fixpoint strtok_all (fuel : nat) (buf : list Z) (s : option nat) (delim : list Z) (last : option nat)
    : option (list Z * list nat) :=
  match fuel with
  | O => None
  | S fuel =>
      match strtok buf s delim last with
      | None => None
      | Some (buf, _, None) => Some (buf, [])
      | Some (buf, last, Some tok) =>
          match strtok_all fuel buf None delim last with
          | Some (buf, toks) => Some (buf, tok :: toks)
          | None => None
          end
      end
  end.

(** * Specification *)

(** The fields of a string: the maximal pieces without delimiter, empty ones included. *)
Fixpoint fields (delim s : list Z) : list (list Z) :=
  match s with
  | [] => [[]]
  | c :: s =>
      if bool_decide (c ∈ delim) then [] :: fields delim s
      else match fields delim s with f :: fs => (c :: f) :: fs | [] => [[c]] end
  end.

(** The string that starts at index [i] of the array. *)
Fixpoint until_nul (l : list Z) : list Z :=
  match l with [] => [] | c :: l => if c =? 0 then [] else c :: until_nul l end.

Definition string_at (buf : list Z) (i : nat) : list Z := until_nul (drop i buf).

(** * Lemmas *)

Abbreviation no_delim delim := (Forall (fun c => c ∉ delim)).

Lemma fields_clean (delim f : list Z) : no_delim delim f -> fields delim f = [f].
Proof. induction 1 as [|c f Hc Hf IH]; cbn; [done|]. by rewrite bool_decide_eq_false_2, IH. Qed.

Lemma fields_cut (delim f : list Z) c s : no_delim delim f -> c ∈ delim -> fields delim (f ++ c :: s) = f :: fields delim s.
Proof.
  intros Hf Hc. induction Hf as [|x f Hx Hf IH]; cbn [app fields].
  - by rewrite bool_decide_eq_true_2.
  - by rewrite bool_decide_eq_false_2, IH.
Qed.

(** A string begins with a field, which is all of it or is followed by a delimiter. *)
Lemma first_field (delim s : list Z) : exists f, no_delim delim f /\ (s = f \/ exists c s2, c ∈ delim /\ s = f ++ c :: s2).
Proof.
  induction s as [|x s (f & Hf & IH)]; [exists []; auto|].
  destruct (decide (x ∈ delim)) as [Hx|Hx].
  - exists []. split; [done|]. right. by exists x, s.
  - exists (x :: f). split; [by constructor|]. destruct IH as [->|(c & s2 & Hc & ->)]; [by left|right]. by exists c, s2.
Qed.

Lemma until_nul_cstring f t : cstring f -> until_nul (f ++ 0 :: t) = f.
Proof. induction 1 as [|c f Hc Hf IH]; cbn [app until_nul]; [done|]. next_char. by rewrite IH. Qed.

Lemma string_at_app pre f t : cstring f -> string_at (pre ++ f ++ 0 :: t) (length pre) = f.
Proof. intros. unfold string_at. rewrite drop_app_length. by apply until_nul_cstring. Qed.

Lemma strsep_loop_field (f : list Z) c l (delim : list Z) td n : cstring delim -> cstring f -> no_delim delim f -> c = 0 \/ c ∈ delim ->
  strsep_loop (f ++ c :: l) (delim ++ 0 :: td) n = Some ((n + length f)%nat, c).
Proof.
  intros Hd Hf Hn Hc. revert n. induction Hf as [|x f Hx Hf IH]; intros n; cbn [app strsep_loop length].
  - rewrite cspan_in_cstring, bool_decide_eq_true_2 by done. by rewrite Nat.add_0_r.
  - inversion Hn as [|?? Hxd Hfd]; subst. rewrite cspan_in_cstring, bool_decide_eq_false_2 by (done || (intros [?|?]; [lia|done])).
    rewrite IH by done. do 2 f_equal. lia.
Qed.

Lemma insert_between (pre f : list Z) c l : <[(length pre + length f)%nat := 0]> (pre ++ f ++ c :: l) = pre ++ f ++ 0 :: l.
Proof. rewrite insert_app_r, <- (Nat.add_0_r (length f)), insert_app_r. done. Qed.

Lemma cstring_cut f c s : cstring (f ++ c :: s) -> cstring f /\ 0 < c < 256 /\ cstring s.
Proof. intros H. apply Forall_app in H as [Hf H]. inversion H. auto. Qed.

(** One call of strsep. *)
Lemma strsep_step (pre f l : list Z) c (delim : list Z) td : cstring delim -> cstring f -> no_delim delim f -> c = 0 \/ c ∈ delim ->
  strsep (pre ++ f ++ c :: l) (Some (length pre)) (delim ++ 0 :: td) =
    if c =? 0 then Some (pre ++ f ++ c :: l, None, Some (length pre))
    else Some ((pre ++ f ++ [0]) ++ l, Some (length (pre ++ f ++ [0])), Some (length pre)).
Proof.
  intros Hd Hf Hn Hc. unfold strsep. rewrite drop_app_length, strsep_loop_field by done.
  destruct (c =? 0); [done|]. rewrite insert_between, <- !app_assoc, !length_app. cbn. do 3 f_equal. f_equal. lia.
Qed.

(** The loop that calls strsep until it returns a null pointer gets the fields of the string,
    empty ones included, in order, as terminated strings inside the array, and ends after as many
    calls as there are characters; nothing outside the string is written. *)
Theorem strsep_correct delim td pre s t fuel : cstring delim -> cstring s -> (length s + 1 < fuel)%nat ->
  exists buf toks,
    strsep_all fuel (pre ++ s ++ 0 :: t) (Some (length pre)) (delim ++ 0 :: td) = Some (buf, toks) /\
    (exists s', buf = pre ++ s' ++ 0 :: t /\ length s' = length s) /\ string_at buf <$> toks = fields delim s.
Proof.
  intros Hd. revert pre s. induction fuel as [|fuel IH]; intros pre s Hs Hfuel; [lia|].
  destruct (first_field delim s) as (f & Hf & [->|(c & s2 & Hc & ->)]).
  - cbn [strsep_all]. rewrite strsep_step by (done || by left). cbn.
    destruct fuel as [|fuel]; [lia|]. cbn. eexists _, _. split; [done|]. split; [by exists f|].
    cbn. by rewrite string_at_app, fields_clean.
  - destruct (cstring_cut _ _ _ Hs) as (Hcf & Hcc & Hcs). rewrite length_app in Hfuel. cbn in Hfuel.
    cbn [strsep_all]. rewrite <- app_assoc. cbn [app]. rewrite strsep_step by (done || by right).
    rewrite (proj2 (Z.eqb_neq c 0)) by lia.
    destruct (IH (pre ++ f ++ [0]) s2 Hcs) as (buf & toks & -> & (s' & -> & Hl) & Ht); [lia|].
    eexists _, _. split; [done|]. rewrite <- !app_assoc in *. cbn [app] in *. split.
    + exists (f ++ 0 :: s'). rewrite <- app_assoc. split; [done|]. rewrite !length_app. cbn. lia.
    + cbn [fmap list_fmap]. by rewrite string_at_app, fields_cut, <- Ht.
Qed.

Lemma strsep_correct_witness : exists buf toks,
  strsep_all 9 [97; 58; 58; 98; 0] (Some O) [58; 0] = Some (buf, toks) /\
  (exists s', buf = s' ++ [0] /\ length s' = 4%nat) /\ string_at buf <$> toks = [[97]; []; [98]].
Proof. apply (strsep_correct [58] [] [] [97; 58; 58; 98] [] 9); [repeat constructor; lia|repeat constructor; lia|cbn; lia]. Defined.

(** ** strtok *)

Definition tokens (delim s : list Z) : list (list Z) := filter (fun f => f <> []) (fields delim s).

Lemma tokens_skip (delim ds s : list Z) : Forall (fun c => c ∈ delim) ds -> tokens delim (ds ++ s) = tokens delim s.
Proof.
  induction 1 as [|c ds Hc Hds IH]; [done|]. unfold tokens in *. cbn [app fields].
  rewrite bool_decide_eq_true_2 by done. by rewrite filter_cons_False by auto.
Qed.

Lemma tokens_cut (delim f : list Z) c s : no_delim delim f -> f <> [] -> c ∈ delim ->
  tokens delim (f ++ c :: s) = f :: tokens delim s.
Proof. intros. unfold tokens. rewrite fields_cut by done. by rewrite filter_cons_True. Qed.

Lemma tokens_clean (delim f : list Z) : no_delim delim f -> f <> [] -> tokens delim f = [f].
Proof. intros. unfold tokens. rewrite fields_clean by done. by rewrite filter_cons_True. Qed.

(** A string begins with delimiters, then ends or goes on with a token. *)
Lemma skip_delims (delim s : list Z) : exists ds s1, s = ds ++ s1 /\ Forall (fun c => c ∈ delim) ds /\
  (s1 = [] \/ exists c s2, s1 = c :: s2 /\ c ∉ delim).
Proof.
  induction s as [|x s (ds & s1 & -> & Hds & IH)]; [exists [], []; auto|].
  destruct (decide (x ∈ delim)) as [Hx|Hx].
  - exists (x :: ds), s1. split; [done|]. split; [by constructor|done].
  - exists [], (x :: ds ++ s1). split; [done|]. split; [done|]. right. eauto.
Qed.

Lemma strtok_skip_delims (ds l delim : list Z) td c n : cstring delim -> Forall (fun c => c ∈ delim) ds -> c ∉ delim ->
  strtok_skip (ds ++ c :: l) (delim ++ 0 :: td) n = Some ((n + length ds)%nat, c).
Proof.
  intros Hd Hds Hc. revert n. induction Hds as [|x ds Hx Hds IH]; intros n; cbn [app strtok_skip length].
  - rewrite span_in_cstring, bool_decide_eq_false_2 by done. by rewrite Nat.add_0_r.
  - rewrite span_in_cstring, bool_decide_eq_true_2, IH by done. do 2 f_equal. lia.
Qed.

(** One call that finds a token, and one that finds none. *)
Lemma strtok_step (pre ds f l : list Z) c (delim : list Z) td s last :
  cstring delim -> Forall (fun c => c ∈ delim) ds -> cstring f -> no_delim delim f -> f <> [] -> c = 0 \/ c ∈ delim ->
  (match s with Some s => Some s | None => last end) = Some (length pre) ->
  strtok_r (pre ++ ds ++ f ++ c :: l) s (delim ++ 0 :: td) last =
    if c =? 0 then Some ((pre ++ ds) ++ f ++ c :: l, None, Some (length (pre ++ ds)))
    else Some ((pre ++ ds ++ f ++ [0]) ++ l, Some (length (pre ++ ds ++ f ++ [0])), Some (length (pre ++ ds))).
Proof.
  intros Hd Hds Hf Hn Hne Hc Hp. unfold strtok_r. rewrite Hp. destruct f as [|x f]; [done|].
  inversion Hf as [|?? Hx Hf']; inversion Hn as [|?? Hxd Hn']; subst.
  rewrite drop_app_length. cbn [app]. rewrite strtok_skip_delims by done. rewrite (proj2 (Z.eqb_neq x 0)) by lia.
  replace (pre ++ ds ++ x :: f ++ c :: l) with ((pre ++ ds ++ [x]) ++ f ++ c :: l) by by rewrite <- !app_assoc.
  replace (S (length pre + length ds)) with (length (pre ++ ds ++ [x])) by (rewrite !length_app; cbn; lia).
  rewrite drop_app_length, strsep_loop_field, insert_between by done.
  rewrite <- !app_assoc, !length_app. cbn [app length]. destruct (c =? 0); [done|].
  rewrite <- (app_assoc f), length_app. cbn [app length].
  replace (S (length pre + (length ds + 1) + length f)) with (length pre + (length ds + S (length f + 1)))%nat by lia. done.
Qed.

Lemma strtok_end (pre ds l : list Z) (delim : list Z) td s last :
  cstring delim -> Forall (fun c => c ∈ delim) ds ->
  (match s with Some s => Some s | None => last end) = Some (length pre) ->
  strtok_r (pre ++ ds ++ 0 :: l) s (delim ++ 0 :: td) last = Some (pre ++ ds ++ 0 :: l, None, None).
Proof.
  intros Hd Hds Hp. unfold strtok_r. rewrite Hp, drop_app_length, strtok_skip_delims by (done || by apply zero_not_in). done.
Qed.

Lemma strtok_all_tokens delim td fuel pre s0 t p last : cstring delim -> cstring s0 -> (length s0 + 1 < fuel)%nat ->
  (match p with Some s => Some s | None => last end) = Some (length pre) ->
  exists buf toks,
    strtok_all fuel (pre ++ s0 ++ 0 :: t) p (delim ++ 0 :: td) last = Some (buf, toks) /\
    (exists s', buf = pre ++ s' ++ 0 :: t /\ length s' = length s0) /\ string_at buf <$> toks = tokens delim s0.
Proof.
  intros Hd. revert pre s0 p last. induction fuel as [|fuel IH]; intros pre s0 p last Hs Hfuel Hp; [lia|].
  destruct (skip_delims delim s0) as (ds & s1 & -> & Hds & Hs1). rewrite tokens_skip, length_app in * by done.
  apply Forall_app in Hs as [_ Hs]. cbn [strtok_all]. unfold strtok. destruct Hs1 as [->|(x & s2 & -> & Hx)].
  { rewrite app_nil_r, strtok_end by done. eexists _, _. split; [done|]. split; [by exists ds; rewrite Nat.add_0_r|done]. }
  destruct (first_field delim (x :: s2)) as (f & Hf & Hs2). assert (f <> []) as Hne.
  { intros ->. destruct Hs2 as [?|(c & s3 & Hc & [= -> ->])]; done. }
  destruct Hs2 as [Es|(c & s3 & Hc & Es)]; rewrite Es in *; clear Es.
  - rewrite <- app_assoc, strtok_step by (done || by left). cbn. destruct fuel as [|fuel]; [lia|]. cbn.
    eexists _, _. split; [done|]. split.
    + exists (ds ++ f). rewrite <- !app_assoc, length_app. done.
    + cbn. by rewrite string_at_app, tokens_clean.
  - destruct (cstring_cut _ _ _ Hs) as (Hcf & Hcc & Hcs). rewrite length_app in Hfuel. cbn in Hfuel.
    rewrite <- !app_assoc. cbn [app]. rewrite strtok_step by (done || by right). rewrite (proj2 (Z.eqb_neq c 0)) by lia.
    destruct (IH (pre ++ ds ++ f ++ [0]) s3 None (Some (length (pre ++ ds ++ f ++ [0])))) as (buf & toks & -> & (s' & -> & Hl) & Ht);
      [done|lia|done|].
    eexists _, _. split; [done|]. rewrite <- !app_assoc in *. cbn [app] in *. split.
    + exists (ds ++ f ++ 0 :: s'). rewrite <- !app_assoc. split; [done|]. rewrite !length_app. cbn. lia.
    + cbn [fmap list_fmap]. rewrite (app_assoc pre ds), string_at_app, tokens_cut by done. f_equal. rewrite <- Ht.
      by rewrite <- app_assoc.
Qed.

(** The loop that calls strtok first with the string and then with a null pointer gets exactly
    the non-empty fields of the string, in order, and ends; nothing outside the string is
    written. *)
Theorem strtok_correct delim td pre s t last fuel : cstring delim -> cstring s -> (length s + 1 < fuel)%nat ->
  exists buf toks,
    strtok_all fuel (pre ++ s ++ 0 :: t) (Some (length pre)) (delim ++ 0 :: td) last = Some (buf, toks) /\
    (exists s', buf = pre ++ s' ++ 0 :: t /\ length s' = length s) /\
    string_at buf <$> toks = filter (fun f => f <> []) (fields delim s).
Proof. intros. by apply strtok_all_tokens. Qed.

Lemma strtok_correct_witness : exists buf toks,
  strtok_all 9 [58; 97; 58; 58; 98; 0] (Some O) [58; 0] None = Some (buf, toks) /\
  (exists s', buf = s' ++ [0] /\ length s' = 5%nat) /\ string_at buf <$> toks = [[97]; [98]].
Proof. apply (strtok_correct [58] [] [] [58; 97; 58; 58; 98] [] None 9); [repeat constructor; lia|repeat constructor; lia|cbn; lia]. Defined.
