(* ===== verification/Fortify.v ===== *)
(** The checked string functions: libc/bionic/fortify.cpp, libc/private/bionic_fortify.h,
    strchr and strrchr, which are defined by them, and the fd_set operations of sys/select.h.

    The compiler replaces a call of a string function by a call of the checked version and passes
    the size of the array it knows, or [SIZE_MAX] if it knows none.  Arrays are lists as in
    [CString].  A call ends with a result ([Ok]), in [__fortify_fatal] ([Fatal]), or with an
    access outside an array ([Fault]).

    The theorems say that a checked function never writes outside an array of the size it is told,
    that it aborts exactly when the unchecked function would overrun that size, and that it is the
    unchecked function otherwise. *)

From S2P Require Import Prelude Result Ctype CString.

Definition SIZE_MAX : Z := 2 ^ 64 - 1.
Definition SSIZE_MAX : Z := 2 ^ 63 - 1.
Abbreviation __BIONIC_FORTIFY_UNKNOWN_SIZE := SIZE_MAX.

(** A [size_t] that counts bytes. *)
Abbreviation sz := Z.of_nat.

(** * bionic_fortify.h *)

Abbreviation FD_SETSIZE := 1024.
Abbreviation NFDBITS := 64.
Abbreviation sizeof_fd_set := (FD_SETSIZE / 8).
Definition sizeof_pollfd : Z := 8.

Definition __check_fd_set (fd set_size : Z) : result unit :=
  if fd <? 0 then Fatal
  else if FD_SETSIZE <=? fd then Fatal
  else if set_size <? sizeof_fd_set then Fatal
  else Ok tt.

Definition __check_pollfd_array (fds_size fd_count : Z) : result unit :=
  let pollfd_array_length := fds_size / sizeof_pollfd in
  if pollfd_array_length <? fd_count then Fatal else Ok tt.

Definition __check_count (value : Z) : result unit :=
  if SSIZE_MAX <? value then Fatal else Ok tt.

Definition __check_buffer_access (claim actual : Z) : result unit :=
  if actual <? claim then Fatal else Ok tt.

(** * Searching *)

Fixpoint __strchr_chk (p : list Z) (ch s_len : Z) : result (option nat) :=
  if s_len =? 0 then Fatal
  else match p with
       | [] => Fault
       | c :: p =>
           if c =? wrapU 8 ch then Ok (Some O)
           else if c =? 0 then Ok None
           else omap_ok (option_map S) (__strchr_chk p ch (s_len - 1))
       end.

Definition strchr (p : list Z) (ch : Z) : result (option nat) :=
  __strchr_chk p ch __BIONIC_FORTIFY_UNKNOWN_SIZE.

(** [at_] is the index of [p] in the string, [save] the pointer of that name. *)
Fixpoint strrchr_loop (p : list Z) (ch s_len : Z) (at_ : nat) (save : option nat) : result (option nat) :=
  if s_len =? 0 then Fatal
  else match p with
       | [] => Fault
       | c :: p =>
           let save := if c =? wrapU 8 ch then Some at_ else save in
           if c =? 0 then Ok save else strrchr_loop p ch (s_len - 1) (S at_) save
       end.

Definition __strrchr_chk (p : list Z) (ch s_len : Z) : result (option nat) :=
  strrchr_loop p ch s_len O None.

Definition strrchr (p : list Z) (ch : Z) : result (option nat) :=
  __strrchr_chk p ch __BIONIC_FORTIFY_UNKNOWN_SIZE.

Definition __memchr_chk (s : list Z) (c : Z) (n : nat) (actual_size : Z) : result (option nat) :=
  _ <-- __check_buffer_access (sz n) actual_size ;; run (memchr s c n).

Definition __memrchr_chk (s : list Z) (c : Z) (n : nat) (actual_size : Z) : result (option nat) :=
  _ <-- __check_buffer_access (sz n) actual_size ;; run (memrchr s c n).

Definition __strlen_chk (s : list Z) (s_len : Z) : result nat :=
  ret <-- run (strlen s) ;; if s_len <=? sz ret then Fatal else Ok ret.

(** * Copying *)

(** [size_t] addition. *)
Definition __strcpy_chk (dst src : list Z) (dst_len : Z) : result (list Z) :=
  n <-- run (strlen src) ;;
  _ <-- __check_buffer_access (wrapU 64 (sz n + 1)) dst_len ;; run (strcpy dst src).

Definition __stpcpy_chk (dst src : list Z) (dst_len : Z) : result (list Z * nat) :=
  n <-- run (strlen src) ;;
  _ <-- __check_buffer_access (wrapU 64 (sz n + 1)) dst_len ;; run (stpcpy dst src).

Definition __strncpy_chk (dst src : list Z) (len : nat) (dst_len : Z) : result (list Z) :=
  _ <-- __check_buffer_access (sz len) dst_len ;; run (strncpy dst src len).

Definition __stpncpy_chk (dst src : list Z) (len : nat) (dst_len : Z) : result (list Z * nat) :=
  _ <-- __check_buffer_access (sz len) dst_len ;; run (stpncpy dst src len).

(** The loop of [__strncpy_chk2] and [__stpncpy_chk2]; [copied] is [s - src]. *)
Fixpoint strncpy_chk2_loop (d s : list Z) (n : nat) (copied src_len : Z) {struct n} : result (list Z) :=
  match n with
  | O => Ok d
  | S n =>
      if src_len <=? copied then Fatal
      else match s, d with
           | c :: s, _ :: d =>
               if c =? 0 then omap_ok (cons 0) (run (pad d n))
               else omap_ok (cons c) (strncpy_chk2_loop d s n (copied + 1) src_len)
           | _, _ => Fault
           end
  end.

(** Both return [dst]. *)
Definition __strncpy_chk2 (dst src : list Z) (n : nat) (dst_len src_len : Z) : result (list Z) :=
  _ <-- __check_buffer_access (sz n) dst_len ;; strncpy_chk2_loop dst src n 0 src_len.

Definition __stpncpy_chk2 (dst src : list Z) (n : nat) (dst_len src_len : Z) : result (list Z * nat) :=
  _ <-- __check_buffer_access (sz n) dst_len ;;
  omap_ok (fun d => (d, O)) (strncpy_chk2_loop dst src n 0 src_len).

Definition __strlcpy_chk (dst src : list Z) (supplied_size : nat) (dst_len_from_compiler : Z)
    : result (list Z * nat) :=
  _ <-- __check_buffer_access (sz supplied_size) dst_len_from_compiler ;; run (strlcpy dst src supplied_size).

Definition __strlcat_chk (dst src : list Z) (supplied_size : nat) (dst_len_from_compiler : Z)
    : result (list Z * nat) :=
  _ <-- __check_buffer_access (sz supplied_size) dst_len_from_compiler ;; run (strlcat dst src supplied_size).

(** [while (( *dst++ = *src++ ) != 0) ...], from the end of the string at [dst]. *)
Fixpoint strcat_chk_loop (d src : list Z) (dst_buf_size : Z) {struct src} : result (list Z) :=
  match src, d with
  | c :: src, _ :: d =>
      if c =? 0 then Ok (c :: d)
      else if dst_buf_size - 1 =? 0 then Fatal
      else omap_ok (cons c) (strcat_chk_loop d src (dst_buf_size - 1))
  | _, _ => Fault
  end.

Definition __strcat_chk (dst src : list Z) (dst_buf_size : Z) : result (list Z) :=
  dst_len <-- __strlen_chk dst dst_buf_size ;;
  omap_ok (app (take dst_len dst)) (strcat_chk_loop (drop dst_len dst) src (dst_buf_size - sz dst_len)).

(** The loop with [S len] characters left to copy, and the store that follows it. *)
Fixpoint strncat_chk_loop (d src : list Z) (len : nat) (dst_buf_size : Z) {struct src} : result (list Z) :=
  match src with
  | [] => Fault
  | c :: src =>
      if c =? 0 then run (put d 0)
      else match d with
           | [] => Fault
           | _ :: d =>
               if dst_buf_size - 1 =? 0 then Fatal
               else match len with
                    | O => omap_ok (cons c) (run (put d 0))
                    | S len => omap_ok (cons c) (strncat_chk_loop d src len (dst_buf_size - 1))
                    end
           end
  end.

Definition __strncat_chk (dst src : list Z) (len : nat) (dst_buf_size : Z) : result (list Z) :=
  match len with
  | O => Ok dst
  | S len =>
      dst_len <-- __strlen_chk dst dst_buf_size ;;
      omap_ok (app (take dst_len dst))
        (strncat_chk_loop (drop dst_len dst) src len (dst_buf_size - sz dst_len))
  end.

(** * fd_set: an array of 64-bit words *)

Definition __FDELT (fd : Z) : nat := Z.to_nat (fd / NFDBITS).
Definition __FDMASK (fd : Z) : Z := Z.shiftl 1 (fd mod NFDBITS).

Definition __FD_CLR (fd : Z) (set : list Z) : result (list Z) :=
  w <-- run (set !! __FDELT fd) ;; Ok (<[__FDELT fd := Z.land w (wrapU 64 (Z.lnot (__FDMASK fd)))]> set).

Definition __FD_SET (fd : Z) (set : list Z) : result (list Z) :=
  w <-- run (set !! __FDELT fd) ;; Ok (<[__FDELT fd := Z.lor w (__FDMASK fd)]> set).

Definition __FD_ISSET (fd : Z) (set : list Z) : result bool :=
  w <-- run (set !! __FDELT fd) ;; Ok (negb (Z.land w (__FDMASK fd) =? 0)).

Definition FD_ZERO (set : list Z) : list Z := replicate (Z.to_nat (sizeof_fd_set / 8)) 0.

Definition __FD_CLR_chk (fd : Z) (set : list Z) (set_size : Z) : result (list Z) :=
  _ <-- __check_fd_set fd set_size ;; __FD_CLR fd set.

Definition __FD_SET_chk (fd : Z) (set : list Z) (set_size : Z) : result (list Z) :=
  _ <-- __check_fd_set fd set_size ;; __FD_SET fd set.

Definition __FD_ISSET_chk (fd : Z) (set : list Z) (set_size : Z) : result bool :=
  _ <-- __check_fd_set fd set_size ;; __FD_ISSET fd set.

(** * Searches *)

Lemma check_buffer_access_eq {A} claim actual (k : result A) :
  (_ <-- __check_buffer_access claim actual ;; k) = if claim <=? actual then k else Fatal.
Proof. unfold __check_buffer_access. rewrite Z.ltb_antisym. by destruct (claim <=? actual). Qed.

Lemma first_index_exists (P : Z -> Prop) `{!forall x, Decision (P x)} l : exists r, first_index P l r.
Proof.
  induction l as [|x l [r IH]]; [exists None; intros j x; by rewrite lookup_nil|].
  destruct (decide (P x)); [exists (Some O); by apply first_index_here|].
  exists (S <$> r). by apply first_index_next.
Qed.

Lemma first_index_cons_inv (P : Z -> Prop) `{!forall x, Decision (P x)} x l r : first_index P (x :: l) r ->
  (P x /\ r = Some O) \/ (~ P x /\ exists r', r = S <$> r' /\ first_index P l r').
Proof.
  destruct r as [[|i]|]; cbn.
  - intros [(y & [= <-] & Hy) _]. auto.
  - intros [Hi Hlt]. right. split; [apply (Hlt O); [lia|done]|]. exists (Some i). split; [done|].
    split; [done|]. intros j y Hj Hy. apply (Hlt (S j)); [lia|done].
  - intros Hn. right. split; [by apply (Hn O)|]. exists None. split; [done|]. intros j. apply (Hn (S j)).
Qed.

(** What a search that looks at the bytes one after the other has to read: the byte it looks for
    or the terminator. *)
Definition search_reads (s : list Z) (r : option nat) : nat :=
  match r with Some i => i | None => length s end.

Lemma strchr_chk_cstring s t ch s_len r : cstring s -> 0 <= s_len ->
  first_index (fun x => x = wrapU 8 ch) (s ++ [0]) r ->
  __strchr_chk (s ++ 0 :: t) ch s_len = if sz (search_reads s r) <? s_len then Ok r else Fatal.
Proof.
  intros Hs. revert s_len r. induction Hs as [|c s Hc Hs IH]; intros s_len r Hl Hr;
    apply first_index_cons_inv in Hr; [|apply _| |apply _]; cbn [app __strchr_chk].
  - destruct (Z.eqb_spec s_len 0) as [->|].
    { rewrite (proj2 (Z.ltb_ge _ _)) by lia. done. }
    destruct Hr as [[E ->]|(Hne & r' & -> & Hr')].
    + rewrite E, Z.eqb_refl, (proj2 (Z.ltb_lt _ _)) by (cbn; lia). done.
    + rewrite (proj2 (Z.eqb_neq _ _)) by done. destruct r' as [i|].
      { destruct Hr' as [(x & Hx & _) _]. by rewrite lookup_nil in Hx. }
      by rewrite (proj2 (Z.ltb_lt _ _)) by (cbn; lia).
  - destruct (Z.eqb_spec s_len 0) as [->|].
    { rewrite (proj2 (Z.ltb_ge _ _)) by lia. done. }
    destruct Hr as [[E ->]|(Hne & r' & -> & Hr')].
    + rewrite E, Z.eqb_refl, (proj2 (Z.ltb_lt _ _)) by (cbn; lia). done.
    + rewrite (proj2 (Z.eqb_neq _ (wrapU 8 ch))) by done. next_char. rewrite (IH _ r') by (done || lia).
      assert (sz (search_reads (c :: s) (S <$> r')) = 1 + sz (search_reads s r')) as -> by (destruct r'; cbn; lia).
      destruct (Z.ltb_spec (sz (search_reads s r')) (s_len - 1)).
      * by rewrite (proj2 (Z.ltb_lt _ _)) by lia.
      * by rewrite (proj2 (Z.ltb_ge _ _)) by lia.
Qed.

(** The last occurrence, given the one seen before. *)
Lemma last_index_cons (P : Z -> Prop) x l r : last_index P l r ->
  last_index P (x :: l) (match r with Some i => Some (S i) | None => None end) \/ r = None.
Proof.
  destruct r as [i|]; [left|by right]. destruct H as [Hi Hlt]. split; [done|].
  intros [|j] y Hj Hy; [lia|]. apply (Hlt j); [lia|done].
Qed.

Lemma strrchr_loop_cstring s t ch : cstring s ->
  exists r, last_index (fun x => x = wrapU 8 ch) (s ++ [0]) r /\ forall s_len n save, 0 <= s_len ->
    strrchr_loop (s ++ 0 :: t) ch s_len n save =
      if sz (length s) <? s_len then Ok (match r with Some i => Some (n + i)%nat | None => save end) else Fatal.
Proof.
  induction 1 as [|c s Hc Hs (r & Hr & IH)]; cbn [app strrchr_loop length].
  - destruct (Z.eqb_spec 0 (wrapU 8 ch)) as [E|E].
    + exists (Some O). split; [split; [by exists 0|intros [|j] x Hj Hx; [lia|done]]|].
      intros. destruct (Z.eqb_spec s_len 0) as [->|]; [done|]. by rewrite (proj2 (Z.ltb_lt _ _)), Nat.add_0_r by lia.
    + exists None. split; [intros [|j] x; [intros [= <-]; done|done]|].
      intros. destruct (Z.eqb_spec s_len 0) as [->|]; [done|]. by rewrite (proj2 (Z.ltb_lt _ _)) by lia.
  - exists (match r with Some i => Some (S i) | None => if c =? wrapU 8 ch then Some O else None end). split.
    + destruct r as [i|]; [by destruct (last_index_cons _ c _ _ Hr)|].
      destruct (Z.eqb_spec c (wrapU 8 ch)) as [E|E].
      * split; [by exists c|]. intros [|j] x Hj Hx; [lia|]. by apply (Hr j).
      * intros [|j] x Hx; [by injection Hx as <-|]. by apply (Hr j).
    + intros s_len n save Hl.
      destruct (Z.eqb_spec s_len 0) as [->|Hne]; [by rewrite (proj2 (Z.ltb_ge _ _)) by lia|].
      next_char. rewrite IH by lia.
      replace (sz (S (length s)) <? s_len) with (sz (length s) <? s_len - 1)
        by (destruct (Z.ltb_spec (sz (length s)) (s_len - 1)); symmetry; [apply Z.ltb_lt|apply Z.ltb_ge]; lia).
      destruct (sz (length s) <? s_len - 1); [|done]. f_equal.
      destruct r as [i|]; [f_equal; lia|]. destruct (c =? wrapU 8 ch); [f_equal; lia|done].
Qed.

(** Strchr and strrchr find the first and the last occurrence of a byte in a string, its
    terminator included.  The checked versions do the same and abort exactly when that needs a byte
    beyond the size they are told. *)
Theorem strchr_correct s t ch s_len : cstring s -> 0 <= s_len -> sz (length s) < SIZE_MAX ->
  (exists r, first_index (fun x => x = wrapU 8 ch) (s ++ [0]) r /\
     strchr (s ++ 0 :: t) ch = Ok r /\
     __strchr_chk (s ++ 0 :: t) ch s_len = if sz (search_reads s r) <? s_len then Ok r else Fatal) /\
  (exists r, last_index (fun x => x = wrapU 8 ch) (s ++ [0]) r /\
     strrchr (s ++ 0 :: t) ch = Ok r /\
     __strrchr_chk (s ++ 0 :: t) ch s_len = if sz (length s) <? s_len then Ok r else Fatal).
Proof.
  intros Hs Hl Hm. split.
  - destruct (first_index_exists (fun x => x = wrapU 8 ch) (s ++ [0])) as [r Hr]. exists r.
    split_and!; [done| |by apply strchr_chk_cstring]. unfold strchr. rewrite (strchr_chk_cstring _ _ _ _ r) by done.
    rewrite (proj2 (Z.ltb_lt _ _)); [done|]. destruct r as [i|]; [|done]. cbn.
    destruct Hr as [(x & Hx & _) _]. apply lookup_lt_Some in Hx. rewrite length_app in Hx. cbn in Hx. lia.
  - unfold strrchr, __strrchr_chk. destruct (strrchr_loop_cstring s t ch Hs) as (r & Hr & He).
    exists r. rewrite !He by done. rewrite (proj2 (Z.ltb_lt _ __BIONIC_FORTIFY_UNKNOWN_SIZE)) by done.
    by destruct r.
Qed.

Lemma strchr_correct_witness :
  (exists r, first_index (fun x => x = wrapU 8 46) [97; 46; 98; 46; 0] r /\
     strchr [97; 46; 98; 46; 0] 46 = Ok r /\
     __strchr_chk [97; 46; 98; 46; 0] 46 1 = if sz (search_reads [97; 46; 98; 46] r) <? 1 then Ok r else Fatal) /\
  (exists r, last_index (fun x => x = wrapU 8 46) [97; 46; 98; 46; 0] r /\
     strrchr [97; 46; 98; 46; 0] 46 = Ok r /\
     __strrchr_chk [97; 46; 98; 46; 0] 46 1 = if sz 4 <? 1 then Ok r else Fatal).
Proof. apply (strchr_correct [97; 46; 98; 46] [] 46 1); [repeat constructor; lia|lia|reflexivity]. Defined.

(** * Copies *)

Lemma omap_ok_run {A B} (f : A -> B) x : omap_ok f (run x) = run (f <$> x).
Proof. by destruct x. Qed.

Lemma omap_ok_id {A} (f : A -> A) (x : result A) : (forall a, f a = a) -> omap_ok f x = x.
Proof. intros H. destruct x; cbn; by rewrite ?H. Qed.

Lemma strcat_chk_loop_cstring d s t k : cstring s -> 0 < k ->
  (sz (length s) < k -> strcat_chk_loop d (s ++ 0 :: t) k = run (strcpy d (s ++ 0 :: t))) /\
  (k <= sz (length s) -> k <= sz (length d) -> strcat_chk_loop d (s ++ 0 :: t) k = Fatal).
Proof.
  intros Hs. revert d k. induction Hs as [|c s Hc Hs IH]; intros d k Hk.
  - split; [|cbn; lia]. intros _. by destruct d.
  - destruct d as [|x d]; [split; [done|cbn; lia]|]. cbn [app strcat_chk_loop strcpy length]. next_char.
    destruct (Z.eqb_spec (k - 1) 0) as [E|E]; [split; [lia|done]|].
    destruct (IH d (k - 1)) as [IH1 IH2]; [lia|]. split; intros.
    + rewrite IH1 by lia. by rewrite omap_ok_run.
    + by rewrite IH2 by lia.
Qed.

Lemma strncat_chk_loop_cstring d s t n k : cstring s -> 0 < k ->
  (sz (S n `min` length s) < k -> strncat_chk_loop d (s ++ 0 :: t) n k = run (strncat_copy d (s ++ 0 :: t) (S n))) /\
  (k <= sz (S n `min` length s) -> k <= sz (length d) -> strncat_chk_loop d (s ++ 0 :: t) n k = Fatal).
Proof.
  intros Hs. revert d n k. induction Hs as [|c s Hc Hs IH]; intros d n k Hk.
  - split; [|cbn; lia]. intros _. by destruct d.
  - cbn [app strncat_chk_loop strncat_copy length].
    destruct d as [|x d]; next_char; [split; [done|cbn [length]; lia]|]. cbn [length].
    destruct (Z.eqb_spec (k - 1) 0) as [E|E]; [split; [lia|done]|].
    destruct n as [|n]; [split; [by rewrite omap_ok_run|lia]|].
    destruct (IH d n (k - 1)) as [IH1 IH2]; [lia|]. split; intros.
    + rewrite IH1 by lia. by rewrite omap_ok_run.
    + by rewrite IH2 by lia.
Qed.

Lemma strncat_end_cstring d r s n : cstring d ->
  strncat_end (d ++ 0 :: r) s n = app d <$> strncat_copy (0 :: r) s n.
Proof.
  induction 1 as [|c d Hc Hd IH]; cbn [app strncat_end].
  - rewrite Z.eqb_refl. by destruct (strncat_copy _ _ _).
  - next_char. rewrite IH. by destruct (strncat_copy _ _ _).
Qed.

Lemma strlen_chk_cstring s t k : cstring s ->
  __strlen_chk (s ++ 0 :: t) k = if sz (length s) <? k then Ok (length s) else Fatal.
Proof. intros Hs. unfold __strlen_chk. rewrite strlen_cstring by done. cbn. rewrite Z.ltb_antisym. by destruct (k <=? _). Qed.

(** The checked concatenations against the unchecked ones. *)
Lemma strcat_chk_cstring d r s t k : cstring d -> cstring s ->
  (sz (length d + length s) < k -> __strcat_chk (d ++ 0 :: r) (s ++ 0 :: t) k = run (strcat (d ++ 0 :: r) (s ++ 0 :: t))) /\
  (k <= sz (length d + length s) -> k <= sz (length (d ++ 0 :: r)) -> __strcat_chk (d ++ 0 :: r) (s ++ 0 :: t) k = Fatal).
Proof.
  intros Hd Hs. unfold __strcat_chk. rewrite strlen_chk_cstring by done. destruct (Z.ltb_spec (sz (length d)) k) as [Hk|Hk].
  - cbn [obind]. rewrite take_app_length, drop_app_length, length_app.
    destruct (strcat_chk_loop_cstring (0 :: r) s t (k - sz (length d)) Hs) as [H1 H2]; [lia|]. split; intros.
    + rewrite H1 by lia. rewrite strcat_cstring by done. by rewrite omap_ok_run.
    + by rewrite H2 by lia.
  - split; [lia|done].
Qed.

Lemma strncat_chk_cstring d r s t n k : cstring d -> cstring s -> n <> O ->
  (sz (length d + n `min` length s) < k ->
     __strncat_chk (d ++ 0 :: r) (s ++ 0 :: t) n k = run (strncat (d ++ 0 :: r) (s ++ 0 :: t) n)) /\
  (k <= sz (length d + n `min` length s) -> k <= sz (length (d ++ 0 :: r)) ->
     __strncat_chk (d ++ 0 :: r) (s ++ 0 :: t) n k = Fatal).
Proof.
  intros Hd Hs Hn. destruct n as [|n]; [done|]. unfold __strncat_chk, strncat. rewrite strlen_chk_cstring by done.
  destruct (Z.ltb_spec (sz (length d)) k) as [Hk|Hk].
  - cbn [obind]. rewrite take_app_length, drop_app_length, length_app.
    destruct (strncat_chk_loop_cstring (0 :: r) s t n (k - sz (length d)) Hs) as [H1 H2]; [lia|]. split; intros.
    + rewrite H1 by lia. rewrite strncat_end_cstring by done. by rewrite omap_ok_run.
    + by rewrite H2 by lia.
  - split; [lia|done].
Qed.

Lemma strncpy_chk2_cstring d s t n copied src_len : cstring s -> copied <= src_len ->
  (sz n <= src_len - copied \/ sz (length s) < src_len - copied ->
     strncpy_chk2_loop d (s ++ 0 :: t) n copied src_len = run (strncpy d (s ++ 0 :: t) n)) /\
  (src_len - copied < sz n -> src_len - copied <= sz (length s) -> src_len - copied <= sz (length d) ->
     strncpy_chk2_loop d (s ++ 0 :: t) n copied src_len = Fatal).
Proof.
  intros Hs. revert d n copied. induction Hs as [|c s Hc Hs IH]; intros d [|n] copied Hle0;
    cbn [app strncpy_chk2_loop strncpy length].
  - by split; [|lia].
  - destruct (Z.leb_spec src_len copied) as [Hle|Hle]; split; intros; [lia|done| |lia].
    destruct d as [|x d]; [done|]. rewrite Z.eqb_refl. by rewrite omap_ok_run.
  - split; [done|lia].
  - destruct (Z.leb_spec src_len copied) as [Hle|Hle]; [split; [lia|done]|].
    destruct d as [|x d]; [split; [done|cbn [length]; lia]|]. next_char. cbn [length].
    destruct (IH d n (copied + 1)) as [IH1 IH2]; [lia|]. split; intros.
    + rewrite IH1 by lia. by rewrite omap_ok_run.
    + by rewrite IH2 by lia.
Qed.

(** C30: the checked copying functions are the unchecked ones when the bytes they write fit the size
    the compiler passed (and, for [__strncpy_chk2], the bytes they read fit the other one), and
    abort otherwise.  For the functions that check while they copy, an abort needs the passed sizes
    not to exceed the arrays; with a larger one the fault comes first. *)
Theorem fortify_equivalence s t d r dst n k k' : cstring s -> cstring d -> sz (length s) < SIZE_MAX ->
  0 <= k' ->
  let src := s ++ 0 :: t in
  __strcpy_chk dst src k = (if sz (length s) + 1 <=? k then run (strcpy dst src) else Fatal) /\
  __stpcpy_chk dst src k = (if sz (length s) + 1 <=? k then run (stpcpy dst src) else Fatal) /\
  __strncpy_chk dst src n k = (if sz n <=? k then run (strncpy dst src n) else Fatal) /\
  __stpncpy_chk dst src n k = (if sz n <=? k then run (stpncpy dst src n) else Fatal) /\
  __strlcpy_chk dst src n k = (if sz n <=? k then run (strlcpy dst src n) else Fatal) /\
  __strlcat_chk dst src n k = (if sz n <=? k then run (strlcat dst src n) else Fatal) /\
  (sz n <= k -> (sz n <= k' \/ sz (length s) < k') -> __strncpy_chk2 dst src n k k' = run (strncpy dst src n)) /\
  (k < sz n \/ k' < sz n /\ k' <= sz (length s) /\ k' <= sz (length dst) -> __strncpy_chk2 dst src n k k' = Fatal) /\
  (sz (length d + length s) < k -> __strcat_chk (d ++ 0 :: r) src k = run (strcat (d ++ 0 :: r) src)) /\
  (k <= sz (length d + length s) -> k <= sz (length (d ++ 0 :: r)) -> __strcat_chk (d ++ 0 :: r) src k = Fatal) /\
  (n <> O -> sz (length d + n `min` length s) < k ->
     __strncat_chk (d ++ 0 :: r) src n k = run (strncat (d ++ 0 :: r) src n)) /\
  (n <> O -> k <= sz (length d + n `min` length s) -> k <= sz (length (d ++ 0 :: r)) ->
     __strncat_chk (d ++ 0 :: r) src n k = Fatal).
Proof.
  intros Hs Hd Hm Hk' src. unfold __strcpy_chk, __stpcpy_chk, __strncpy_chk, __stpncpy_chk, __strlcpy_chk,
    __strlcat_chk, __strncpy_chk2. subst src. rewrite strlen_cstring by done. cbn [run obind].
  unfold SIZE_MAX in Hm. unfold wrapU. rewrite Z.mod_small by lia. rewrite !check_buffer_access_eq.
  destruct (strncpy_chk2_cstring dst s t n 0 k' Hs Hk') as [H1 H2].
  split_and!; try done.
  - intros Hn Hk. rewrite (proj2 (Z.leb_le _ _)) by done. apply H1. lia.
  - intros Hk. destruct (Z.leb_spec (sz n) k); [|done]. apply H2; lia.
  - by apply strcat_chk_cstring.
  - by apply strcat_chk_cstring.
  - intros. by apply strncat_chk_cstring.
  - intros. by apply strncat_chk_cstring.
Qed.

Lemma fortify_equivalence_witness :
  __strcpy_chk [7; 7] [97; 98; 0] 2 = Fatal /\
  __strcat_chk [100; 0; 7] [97; 98; 0] 3 = Fatal /\
  __strncat_chk [100; 0; 7] [97; 98; 0] 1 3 = run (strncat [100; 0; 7] [97; 98; 0] 1).
Proof.
  destruct (fortify_equivalence [97; 98] [] [100] [7] [7; 7] 1 2 2) as (H1 & _);
    [repeat constructor; lia|repeat constructor; lia|reflexivity|lia|].
  destruct (fortify_equivalence [97; 98] [] [100] [7] [7; 7] 1 3 2) as (_ & _ & _ & _ & _ & _ & _ & _ & _ & H2 & H3 & _);
    [repeat constructor; lia|repeat constructor; lia|reflexivity|lia|].
  split; [exact H1|]. split; [apply H2; cbn; lia|apply H3; [done|cbn; lia]].
Defined.

(** The copying functions do not fault when they fit. *)
Lemma run_some {A} (x : option A) a : x = Some a -> run x <> Fault.
Proof. by intros ->. Qed.

Lemma strlcat_no_fault dst s t n : cstring s -> Forall (fun c => 0 <= c < 256) dst -> (n <= length dst)%nat ->
  run (strlcat dst (s ++ 0 :: t) n) <> Fault.
Proof.
  intros Hs Hd Hn. revert n Hn. induction Hd as [|c dst Hc Hd IH]; intros [|n] Hn; cbn [length] in Hn; [|lia|..].
  - cbn. by rewrite strlen_cstring.
  - cbn. by rewrite strlen_cstring.
  - cbn [strlcat]. destruct (Z.eqb_spec c 0).
    + rewrite strlcat_append_cstring; [done|done|]. cbn [length]. lia.
    + specialize (IH n ltac:(lia)). by destruct (strlcat dst (s ++ 0 :: t) n) as [[]|].
Qed.

Lemma strlcpy_no_fault dst s t n : cstring s -> (n <= length dst)%nat -> run (strlcpy dst (s ++ 0 :: t) n) <> Fault.
Proof.
  intros Hs Hn. destruct n as [|n]; cbn [strlcpy]; [by rewrite strlen_cstring|].
  rewrite strlcpy_copy_cstring; [done|done|lia].
Qed.

Lemma strncpy_no_fault dst s t n : cstring s -> (n <= length dst)%nat ->
  run (strncpy dst (s ++ 0 :: t) n) <> Fault /\ run (stpncpy dst (s ++ 0 :: t) n) <> Fault.
Proof. intros Hs Hn. by rewrite strncpy_stpncpy, stpncpy_cstring. Qed.

Lemma strcpy_no_fault dst s t : cstring s -> (length s < length dst)%nat ->
  run (strcpy dst (s ++ 0 :: t)) <> Fault /\ run (stpcpy dst (s ++ 0 :: t)) <> Fault.
Proof. intros Hs Hn. rewrite strcpy_stpcpy, stpcpy_cstring by done. by rewrite (proj2 (Nat.ltb_lt _ _)). Qed.

Lemma strncpy_chk2_no_fault dst s t n k k' : cstring s -> k <= sz (length dst) ->
  0 <= k' <= sz (length (s ++ 0 :: t)) -> __strncpy_chk2 dst (s ++ 0 :: t) n k k' <> Fault.
Proof.
  intros Hs Hk Hk'. unfold __strncpy_chk2. rewrite check_buffer_access_eq. destruct (Z.leb_spec (sz n) k); [|done].
  destruct (strncpy_chk2_cstring dst s t n 0 k' Hs) as [H1 H2]; [lia|].
  destruct (decide (sz n <= k' - 0 \/ sz (length s) < k' - 0)).
  - rewrite H1 by done. apply strncpy_no_fault; [done|lia].
  - by rewrite H2 by lia.
Qed.

Lemma strcat_chk_no_fault d r s t n k : cstring d -> cstring s -> k <= sz (length (d ++ 0 :: r)) ->
  __strcat_chk (d ++ 0 :: r) (s ++ 0 :: t) k <> Fault /\ __strncat_chk (d ++ 0 :: r) (s ++ 0 :: t) n k <> Fault.
Proof.
  intros Hd Hs Hk. split.
  - destruct (strcat_chk_cstring d r s t k Hd Hs) as [H1 H2].
    destruct (decide (sz (length d + length s) < k)) as [Hlt|]; [rewrite H1 by done|by rewrite H2 by lia].
    rewrite length_app in Hk. cbn [length] in Hk. rewrite strcat_cstring, strcpy_stpcpy, stpcpy_cstring by done.
    cbn [length]. by rewrite (proj2 (Nat.ltb_lt _ _)) by lia.
  - destruct (decide (n = O)) as [->|Hn]; [done|].
    destruct (strncat_chk_cstring d r s t n k Hd Hs Hn) as [H1 H2].
    destruct (decide (sz (length d + n `min` length s) < k)) as [Hlt|]; [rewrite H1 by done|by rewrite H2 by lia].
    rewrite length_app in Hk. cbn [length] in Hk. by rewrite strncat_cstring by (done || lia).
Qed.

(** Told sizes that do not exceed the arrays, no checked copying function reads or writes
    outside its arrays, whatever lengths the strings have and whatever length is asked for. *)
Theorem fortify_no_overrun s t d r dst n k : cstring s -> cstring d -> sz (length s) < SIZE_MAX ->
  Forall (fun c => 0 <= c < 256) dst ->
  k <= sz (length dst) ->
  let src := s ++ 0 :: t in
  __strcpy_chk dst src k <> Fault /\ __stpcpy_chk dst src k <> Fault /\
  __strncpy_chk dst src n k <> Fault /\ __stpncpy_chk dst src n k <> Fault /\
  __strlcpy_chk dst src n k <> Fault /\ __strlcat_chk dst src n k <> Fault /\
  (forall k', 0 <= k' <= sz (length src) -> __strncpy_chk2 dst src n k k' <> Fault) /\
  (forall k', k' <= sz (length (d ++ 0 :: r)) ->
     __strcat_chk (d ++ 0 :: r) src k' <> Fault /\ __strncat_chk (d ++ 0 :: r) src n k' <> Fault).
Proof.
  intros Hs Hd Hm Hb Hk src. unfold SIZE_MAX in Hm. subst src.
  split_and!; [..|intros; by apply strncpy_chk2_no_fault|intros; by apply strcat_chk_no_fault].
  all: unfold __strcpy_chk, __stpcpy_chk, __strncpy_chk, __stpncpy_chk, __strlcpy_chk, __strlcat_chk.
  all: rewrite ?strlen_cstring by done; cbn [run obind]; unfold wrapU; rewrite ?Z.mod_small by lia.
  all: rewrite check_buffer_access_eq; match goal with |- context [?x <=? ?y] => destruct (Z.leb_spec x y) end; [|done].
  - apply strcpy_no_fault; [done|lia].
  - apply strcpy_no_fault; [done|lia].
  - apply strncpy_no_fault; [done|lia].
  - apply strncpy_no_fault; [done|lia].
  - apply strlcpy_no_fault; [done|lia].
  - apply strlcat_no_fault; [done|done|lia].
Qed.

Lemma fortify_no_overrun_witness :
  __strcpy_chk [7; 7] [97; 98; 0] 2 <> Fault /\ __strncpy_chk2 [7; 7] [97; 98; 0] 9 2 1 <> Fault /\
  __strcat_chk [100; 0; 7] [97; 98; 0] 3 <> Fault.
Proof.
  destruct (fortify_no_overrun [97; 98] [] [100] [7] [7; 7] 9 2) as (H1 & _ & _ & _ & _ & _ & H2 & H3);
    [repeat constructor; lia|repeat constructor; lia|reflexivity|repeat constructor; lia|cbn; lia|].
  split; [exact H1|]. split; [apply H2; cbn; lia|apply H3; cbn; lia].
Defined.

(** [__stpncpy_chk2] copies as stpncpy does but returns the start of the array, where stpncpy
    returns the end of what it copied. *)
Theorem stpncpy_chk2_returns_start dst s t n k k' : cstring s ->
  (0 < n <= length dst)%nat -> sz n <= k -> sz (length s) < k' -> s <> [] ->
  exists dst', __stpncpy_chk2 dst (s ++ 0 :: t) n k k' = Ok (dst', O) /\
    exists i, stpncpy dst (s ++ 0 :: t) n = Some (dst', i) /\ (0 < i)%nat.
Proof.
  intros Hs Hn Hk Hk' Hne. unfold __stpncpy_chk2. rewrite check_buffer_access_eq, (proj2 (Z.leb_le _ _)) by lia.
  destruct (strncpy_chk2_cstring dst s t n 0 k' Hs) as [H1 _]; [lia|]. rewrite H1 by lia.
  rewrite strncpy_stpncpy, stpncpy_cstring by (done || lia). eexists. split; [done|].
  eexists. split; [done|]. destruct s; [done|]. cbn [length]. lia.
Qed.

Lemma stpncpy_chk2_returns_start_witness :
  exists dst', __stpncpy_chk2 [7; 7; 7] [97; 98; 0] 3 3 3 = Ok (dst', O) /\
    exists i, stpncpy [7; 7; 7] [97; 98; 0] 3 = Some (dst', i) /\ (0 < i)%nat.
Proof.
  apply (stpncpy_chk2_returns_start [7; 7; 7] [97; 98] [] 3 3 3);
    [repeat constructor; lia|cbn; lia|cbn; lia|cbn; lia|discriminate].
Defined.

(** * fd_set *)

Lemma testbit_mask b j : 0 <= b -> 0 <= j -> Z.testbit (Z.shiftl 1 b) j = (j =? b).
Proof.
  intros. rewrite Z.shiftl_1_l. destruct (Z.eqb_spec j b) as [->|]; [by apply Z.pow2_bits_true|by apply Z.pow2_bits_false].
Qed.

(** The descriptor [fd] is in [set]. *)
Definition fd_in (fd : Z) (set : list Z) : bool :=
  match set !! __FDELT fd with Some w => Z.testbit w (fd mod 64) | None => false end.

Lemma fdelt_range fd : 0 <= fd < FD_SETSIZE -> (__FDELT fd < 16)%nat.
Proof.
  intros H. unfold __FDELT in *.
  assert (0 <= fd / 64 < 16) by (split; [apply Z.div_pos; lia|apply Z.div_lt_upper_bound; lia]). lia.
Qed.

Lemma fdelt_same fd fd' : 0 <= fd -> 0 <= fd' -> __FDELT fd = __FDELT fd' -> fd mod 64 = fd' mod 64 -> fd = fd'.
Proof.
  intros H H' E Em. unfold __FDELT in E. apply Z2Nat.inj in E; [|apply Z.div_pos; lia|apply Z.div_pos; lia].
  rewrite (Z.div_mod fd 64), (Z.div_mod fd' 64) by lia. lia.
Qed.

Lemma fd_isset_in fd set : 0 <= fd < FD_SETSIZE -> length set = 16%nat -> __FD_ISSET fd set = Ok (fd_in fd set).
Proof.
  intros Hfd Hlen. unfold __FD_ISSET, fd_in.
  destruct (lookup_lt_is_Some_2 set (__FDELT fd)) as [w ->]; [rewrite Hlen; by apply fdelt_range|].
  cbn [run obind]. f_equal. unfold __FDMASK. pose proof (Z.mod_pos_bound fd 64 ltac:(lia)).
  destruct (Z.testbit w (fd mod 64)) eqn:Hw.
  - destruct (Z.eqb_spec (Z.land w (Z.shiftl 1 (fd mod 64))) 0) as [E|]; [|done].
    apply (f_equal (fun z => Z.testbit z (fd mod 64))) in E.
    rewrite Z.land_spec, Hw, testbit_mask, Z.eqb_refl, Z.bits_0 in E by lia. done.
  - rewrite (proj2 (Z.eqb_eq _ _)); [done|]. apply Z.bits_inj'. intros j Hj. rewrite Z.land_spec, testbit_mask, Z.bits_0 by lia.
    destruct (Z.eqb_spec j (fd mod 64)) as [->|]; [by rewrite Hw|by rewrite andb_false_r].
Qed.

(** Changing one bit of one word. *)
Lemma fd_in_update fd fd' set w w' b : 0 <= fd -> 0 <= fd' -> set !! __FDELT fd = Some w ->
  (forall j, 0 <= j < 64 -> Z.testbit w' j = if j =? fd mod 64 then b else Z.testbit w j) ->
  fd_in fd' (<[__FDELT fd := w']> set) = if fd' =? fd then b else fd_in fd' set.
Proof.
  intros H H' Hw Hb. unfold fd_in. pose proof (Z.mod_pos_bound fd' 64 ltac:(lia)).
  destruct (decide (__FDELT fd' = __FDELT fd)) as [E|E].
  - rewrite E, list_lookup_insert_eq, Hb, Hw by (done || by eapply lookup_lt_Some).
    destruct (Z.eqb_spec (fd' mod 64) (fd mod 64)) as [Em|Em].
    + rewrite (fdelt_same fd' fd) by done. by rewrite Z.eqb_refl.
    + rewrite (proj2 (Z.eqb_neq fd' fd)); [done|]. by intros ->.
  - rewrite list_lookup_insert_ne by done. rewrite (proj2 (Z.eqb_neq fd' fd)); [done|]. by intros ->.
Qed.

Lemma check_fd_set_eq {A} fd size (k : result A) :
  (_ <-- __check_fd_set fd size ;; k) =
    if (0 <=? fd) && (fd <? FD_SETSIZE) && (sizeof_fd_set <=? size) then k else Fatal.
Proof.
  unfold __check_fd_set.
  destruct (Z.ltb_spec fd 0), (Z.leb_spec 0 fd), (Z.leb_spec FD_SETSIZE fd), (Z.ltb_spec fd FD_SETSIZE),
    (Z.ltb_spec size sizeof_fd_set), (Z.leb_spec sizeof_fd_set size); done || lia.
Qed.

(** On a set of 1024 descriptors FD_ZERO empties the set, FD_SET adds and FD_CLR removes one
    descriptor and no other, FD_ISSET tells whether it is there, and all three abort on a
    descriptor outside 0 to 1023 or a set that is too small, so that none reaches outside the
    set. *)
Theorem fd_set_correct fd fd' set size : length set = 16%nat -> 0 <= fd' < FD_SETSIZE ->
  let fits := (0 <=? fd) && (fd <? FD_SETSIZE) && (sizeof_fd_set <=? size) in
  fd_in fd' (FD_ZERO set) = false /\ length (FD_ZERO set) = 16%nat /\
  __FD_ISSET_chk fd set size = (if fits then Ok (fd_in fd set) else Fatal) /\
  (fits = false -> __FD_SET_chk fd set size = Fatal /\ __FD_CLR_chk fd set size = Fatal) /\
  (fits = true -> exists set1 set2,
     __FD_SET_chk fd set size = Ok set1 /\ length set1 = 16%nat /\
     fd_in fd' set1 = (if fd' =? fd then true else fd_in fd' set) /\
     __FD_CLR_chk fd set size = Ok set2 /\ length set2 = 16%nat /\
     fd_in fd' set2 = (if fd' =? fd then false else fd_in fd' set)).
Proof.
  intros Hlen Hfd' fits. unfold __FD_ISSET_chk, __FD_SET_chk, __FD_CLR_chk. rewrite !check_fd_set_eq. fold fits.
  split_and!; [| |destruct fits eqn:Hf; [|done]|by intros ->|].
  - unfold fd_in, FD_ZERO. rewrite lookup_replicate_2; [apply Z.bits_0|]. by apply fdelt_range.
  - done.
  - apply fd_isset_in; [subst fits; lia|done].
  - intros Hf. rewrite Hf. assert (0 <= fd < FD_SETSIZE) as Hfd by (subst fits; lia).
    destruct (lookup_lt_is_Some_2 set (__FDELT fd)) as [w Hw]; [rewrite Hlen; by apply fdelt_range|].
    pose proof (Z.mod_pos_bound fd 64 ltac:(lia)).
    unfold __FD_SET, __FD_CLR. rewrite Hw. cbn [run obind].
    exists (<[__FDELT fd := Z.lor w (__FDMASK fd)]> set),
      (<[__FDELT fd := Z.land w (wrapU 64 (Z.lnot (__FDMASK fd)))]> set).
    rewrite !length_insert. split_and!; try done.
    + apply (fd_in_update fd fd' set w); [lia|lia|done|]. intros j Hj. unfold __FDMASK.
      rewrite Z.lor_spec, testbit_mask by lia. destruct (j =? _); by rewrite ?orb_true_r, ?orb_false_r.
    + apply (fd_in_update fd fd' set w); [lia|lia|done|]. intros j Hj. unfold __FDMASK, wrapU.
      rewrite Z.land_spec, Z.mod_pow2_bits_low, Z.lnot_spec, testbit_mask by lia.
      destruct (j =? _); cbn; by rewrite ?andb_true_r, ?andb_false_r.
Qed.

Lemma fd_set_correct_witness : exists set1 set2,
  __FD_SET_chk 70 (replicate 16 0) 128 = Ok set1 /\ fd_in 70 set1 = true /\
  __FD_CLR_chk 70 (replicate 16 0) 128 = Ok set2 /\ fd_in 70 set2 = false.
Proof.
  destruct (fd_set_correct 70 70 (replicate 16 0) 128) as (_ & _ & _ & _ & H); [reflexivity|split; [lia|reflexivity]|].
  destruct H as (s1 & s2 & H1 & _ & H2 & H3 & _ & H4); [reflexivity|].
  exists s1, s2. split; [exact H1|]. split; [exact H2|]. split; [exact H3|exact H4].
Defined.
