(* ===== verification/TwoWay.v ===== *)
(** Words, their periods and their maximal suffixes.

    The combinatorics behind two-way string matching: the loop of strstr.c and memmem.c that
    computes a maximal suffix with its least period keeps an invariant ([max_suffix_inv]), and the
    shorter of the maximal suffixes for the two orders of the alphabet begins at a critical
    position ([critical]): every repetition around it is a period of the whole word.  Crochemore
    and Perrin, Two-way string-matching, JACM 38(3), 1991. *)

From S2P Require Import Prelude.

Open Scope nat_scope.

Section word.
Context (x : nat -> Z).

(** The letters from [a] to [e] repeat after [p]. *)
Definition periodic (a e p : nat) : Prop := forall i, a <= i -> i + p < e -> x i = x (i + p).

(** The word at [t] comes before the word at [a], by a letter that is before [e]. *)
Definition precedes (e t a : nat) : Prop :=
  exists j, t + j < e /\ a + j < e /\ (forall i, i < j -> x (t + i) = x (a + i)) /\ (x (t + j) < x (a + j))%Z.

(** The word of length [p] at [a] comes after each of its proper suffixes, none of which is a
    prefix of it. *)
Definition primitive (a p : nat) : Prop := forall q, 0 < q < p -> precedes (a + p) (a + q) a.

(** The word from [t] to [e] is a prefix of the word at [a]. *)
Definition prefix_at (e t a : nat) : Prop := forall i, t + i < e -> x (t + i) = x (a + i).

(** A repetition of length [r] around position [a] of a word of length [l]. *)
Definition repetition (l a r : nat) : Prop := forall i, i < a -> a <= i + r -> i + r < l -> x i = x (i + r).

(** [a] begins the greatest suffix of the word of length [l]. *)
Definition max_suffix_at (l a : nat) : Prop :=
  a < l /\ (forall t, t < a -> precedes l t a) /\
  (forall t, a < t < l -> precedes l t a \/ prefix_at l t a).

(** ** The loop that finds the greatest suffix *)

(** The suffix begins at [a]; its period is [p]; the comparison has come to [a + k - 1] and
    [b + k - 1], a whole number of periods apart. *)
Record max_suffix_inv (l a b k p : nat) : Prop := mk_inv {
  inv_k : 1 <= k <= p;
  inv_ab : exists m, b = a + S m * p;
  inv_l : b + k <= S l;
  inv_periodic : periodic a (b + k - 1) p;
  inv_primitive : primitive a p;
  inv_before : forall t, t < a -> precedes l t a
}.

Lemma precedes_weaken e e' t a : e <= e' -> precedes e t a -> precedes e' t a.
Proof. intros He (j & H1 & H2 & H). exists j. split_and!; [lia|lia|apply H..]. Qed.

Lemma precedes_trans e t a b : precedes e t a -> precedes e a b -> precedes e t b.
Proof.
  intros (j & Htj & Haj & Hj & Hlt) (j' & Haj' & Hbj' & Hj' & Hlt').
  destruct (Nat.lt_trichotomy j j') as [H|[->|H]].
  - exists j. split_and!; [lia|lia|..].
    + intros i Hi. rewrite Hj, Hj' by lia. done.
    + rewrite <-Hj' by lia. done.
  - exists j'. split_and!; [lia|lia|..].
    + intros i Hi. rewrite Hj, Hj' by lia. done.
    + lia.
  - exists j'. split_and!; [lia|lia|..].
    + intros i Hi. rewrite Hj, Hj' by lia. done.
    + rewrite Hj by lia. done.
Qed.

(** Going back a number of periods. *)
Lemma periodic_mul a e p m i : periodic a e p -> a <= i -> i + m * p < e -> x (i + m * p) = x i.
Proof.
  intros Hp Ha. induction m as [|m IH]; intros He; simpl in *; [f_equal; lia|].
  replace (i + (p + m * p)) with (i + m * p + p) by lia. rewrite <-Hp by lia. apply IH. lia.
Qed.

Lemma inv_init l : 1 <= l -> max_suffix_inv l 0 1 1 1.
Proof. intros Hl. constructor; [lia|exists 0; lia|lia|intros i ? ?; lia|intros q ?; lia|intros t ?; lia]. Qed.

Section step.
Context (l a b k p : nat) (I : max_suffix_inv l a b k p) (Hl : b + k - 1 < l).

Lemma inv_p : 1 <= p /\ a + p <= b.
Proof using I Hl. destruct (inv_k _ _ _ _ _ I), (inv_ab _ _ _ _ _ I) as [m ->]. simpl. lia. Qed.

Lemma periodic_extend : x (a + k - 1) = x (b + k - 1) -> periodic a (b + k) p.
Proof using I Hl.
  intros E i Hi He. destruct (decide (i + p = b + k - 1)) as [H|]; [|apply (inv_periodic _ _ _ _ _ I); lia].
  rewrite H, <-E. destruct (inv_ab _ _ _ _ _ I) as [m Hb]. pose proof (inv_k _ _ _ _ _ I).
  replace i with (a + k - 1 + m * p) by (simpl in Hb; lia).
  apply (periodic_mul a (b + k - 1) p); [apply (inv_periodic _ _ _ _ _ I)|lia|simpl in Hb; lia].
Qed.

Lemma step_same : x (a + k - 1) = x (b + k - 1) -> k <> p -> max_suffix_inv l a b (k + 1) p.
Proof using I Hl.
  intros E Hk. destruct I. constructor; [lia|done|lia| |done|done].
  replace (b + (k + 1) - 1) with (b + k) by lia. by apply periodic_extend.
Qed.

Lemma step_period : x (a + k - 1) = x (b + k - 1) -> k = p -> max_suffix_inv l a (b + p) 1 p.
Proof using I Hl.
  intros E Hk. destruct I. constructor; [lia| |lia| |done|done].
  - destruct inv_ab0 as [m ->]. exists (S m). simpl. lia.
  - replace (b + p + 1 - 1) with (b + k) by lia. by apply periodic_extend.
Qed.

(** The comparison of a suffix of the part with period [p] with its beginning: a remainder [r]
    of the position decides. *)
Lemma periodic_suffix t : a < t -> t < b + k - 1 ->
  (exists m, t = a + m * p) \/ precedes (b + k - 1) t a \/
  (exists r m, t = a + m * p + r /\ 0 < r < p /\ b + k - 1 - t < p - r /\
     (forall i, t + i < b + k - 1 -> x (t + i) = x (a + i)) /\
     (x (a + r + (b + k - 1 - t)) <= x (a + (b + k - 1 - t)))%Z).
Proof using I Hl.
  intros Hat Ht. pose proof inv_p as [Hp _]. set (m := (t - a) / p). set (r := (t - a) mod p).
  pose proof (Nat.div_mod (t - a) p ltac:(lia)) as Hdm. pose proof (Nat.mod_upper_bound (t - a) p ltac:(lia)) as Hr.
  fold m r in Hdm, Hr. assert (Htm : t = a + m * p + r) by lia.
  destruct (decide (r = 0)) as [Hr0|Hr0]; [left; exists m; lia|]. right.
  assert (Hper : forall i, a + r + i < a + p -> t + i < b + k - 1 -> x (t + i) = x (a + r + i)).
  { intros i Hi He. rewrite Htm. replace (a + m * p + r + i) with (a + r + i + m * p) by lia.
    apply (periodic_mul a (b + k - 1) p); [apply (inv_periodic _ _ _ _ _ I)|lia|lia]. }
  destruct (inv_primitive _ _ _ _ _ I r ltac:(lia)) as (j & Hj1 & Hj2 & Hagree & Hlt).
  destruct (decide (t + j < b + k - 1)) as [Hin|Hout].
  - left. exists j. split_and!; [lia|lia|..].
    + intros i Hi. rewrite Hper by lia. apply Hagree. lia.
    + rewrite Hper by lia. done.
  - right. exists r, m. split_and!; [done|lia|lia|lia|..].
    + intros i Hi. rewrite Hper by lia. apply Hagree. lia.
    + destruct (decide (j = b + k - 1 - t)) as [<-|]; [lia|]. rewrite Hagree by lia. lia.
Qed.

(** A smaller letter: the whole part is the new period. *)
Lemma step_smaller : (x (b + k - 1) < x (a + k - 1))%Z -> max_suffix_inv l a (b + k) 1 (b + k - a).
Proof using I Hl.
  intros Hlt. pose proof inv_p as [Hp Hab]. pose proof (inv_k _ _ _ _ _ I) as Hk.
  constructor; [lia|exists 0; lia|lia|intros i ? ?; lia| |apply (inv_before _ _ _ _ _ I)].
  intros q Hq. replace (a + (b + k - a)) with (b + k) by lia.
  destruct (decide (a + q = b + k - 1)) as [Hlast|Hlast].
  { exists 0. rewrite !Nat.add_0_r. split_and!; [lia|lia|intros i ?; lia|]. rewrite Hlast.
    destruct (decide (k = 1)) as [->|]; [by replace (a + 1 - 1) with a in Hlt by lia|].
    assert (Hle : (x (a + k - 1) <= x a)%Z).
    { destruct (inv_primitive _ _ _ _ _ I (k - 1) ltac:(lia)) as (j & _ & _ & Hagree & Hj).
      destruct j as [|j].
      - rewrite !Nat.add_0_r in Hj. replace (a + (k - 1)) with (a + k - 1) in Hj by lia. lia.
      - specialize (Hagree 0 ltac:(lia)). rewrite !Nat.add_0_r in Hagree.
        replace (a + (k - 1)) with (a + k - 1) in Hagree by lia. lia. }
    lia. }
  destruct (periodic_suffix (a + q) ltac:(lia) ltac:(lia)) as [[m Hm]|[H|(r & m & Hm & Hr & Hshort & Hagree & Hle)]].
  - (* a whole number of periods *)
    exists (b + k - 1 - (a + q)). split_and!; [lia|lia|..].
    + intros i Hi. replace (a + q + i) with (a + i + m * p) by lia.
      apply (periodic_mul a (b + k - 1) p); [apply (inv_periodic _ _ _ _ _ I)|lia|lia].
    + replace (a + q + (b + k - 1 - (a + q))) with (b + k - 1) by lia.
      destruct (inv_ab _ _ _ _ _ I) as [m' Hb]. simpl in Hb.
      assert (Hmm : m <= S m') by (destruct (decide (m <= S m')); [done|]; exfalso; nia).
      replace (a + (b + k - 1 - (a + q))) with (a + k - 1 + (S m' - m) * p) by nia.
      rewrite (periodic_mul a (b + k - 1) p); [done|apply (inv_periodic _ _ _ _ _ I)|lia|]. nia.
  - apply (precedes_weaken (b + k - 1)); [lia|done].
  - exists (b + k - 1 - (a + q)). split_and!; [lia|lia|intros i Hi; apply Hagree; lia|].
    replace (a + q + (b + k - 1 - (a + q))) with (b + k - 1) by lia.
    (* the position lies in the last, unfinished period *)
    destruct (inv_ab _ _ _ _ _ I) as [m' Hb]. simpl in Hb.
    assert (Hmm : m = S m') by nia. subst m. replace (a + r + (b + k - 1 - (a + q))) with (a + k - 1) in Hle by (simpl in *; lia).
    lia.
Qed.

(** A greater letter: the suffix at [b] is greater. *)
Lemma step_greater : (x (a + k - 1) < x (b + k - 1))%Z -> max_suffix_inv l b (b + 1) 1 1.
Proof using I Hl.
  intros Hlt. pose proof inv_p as [Hp Hab]. pose proof (inv_k _ _ _ _ _ I) as Hk.
  constructor; [lia|exists 0; lia|lia|intros i ? ?; lia|intros q ?; lia|].
  destruct (inv_ab _ _ _ _ _ I) as [m' Hb]. simpl in Hb.
  assert (Hb' : forall i, i < k - 1 -> x (b + i) = x (a + i)).
  { intros i Hi. replace (b + i) with (a + i + S m' * p) by (simpl; lia).
    apply (periodic_mul a (b + k - 1) p); [apply (inv_periodic _ _ _ _ _ I)|lia|simpl; lia]. }
  assert (Hbig : precedes l a b).
  { exists (k - 1). split_and!; [lia|lia|intros i Hi; by rewrite Hb'|].
    replace (a + (k - 1)) with (a + k - 1) by lia. by replace (b + (k - 1)) with (b + k - 1) by lia. }
  intros t Ht. destruct (Nat.lt_trichotomy t a) as [Hta|[->|Hta]]; [|done|].
  { apply (precedes_trans l t a b); [by apply (inv_before _ _ _ _ _ I)|done]. }
  destruct (periodic_suffix t Hta ltac:(lia)) as [[m Hm]|[H|(r & m & Hm & Hr & Hshort & Hagree & Hle)]].
  - exists (k - 1). assert (m <= m') by nia. split_and!; [nia|lia|..].
    + intros i Hi. rewrite Hb' by lia. replace (t + i) with (a + i + m * p) by lia.
      apply (periodic_mul a (b + k - 1) p); [apply (inv_periodic _ _ _ _ _ I)|lia|nia].
    + replace (t + (k - 1)) with (a + k - 1 + m * p) by lia. replace (b + (k - 1)) with (b + k - 1) by lia.
      rewrite (periodic_mul a (b + k - 1) p); [done|apply (inv_periodic _ _ _ _ _ I)|lia|nia].
  - apply (precedes_trans l t a b); [|done]. apply (precedes_weaken (b + k - 1)); [lia|done].
  - exfalso. assert (m <= m') by nia. assert (m * p <= m' * p) by (by apply Nat.mul_le_mono_r). lia.
Qed.
End step.

(** ** What the loop has found *)

Section found.
Context (l a b k p : nat) (I : max_suffix_inv l a b k p) (Hend : b + k - 1 = l).

Lemma found_bounds : 1 <= p /\ a + p <= l /\ a < l.
Proof using I Hend. destruct (inv_k _ _ _ _ _ I), (inv_ab _ _ _ _ _ I) as [m ->]. simpl in *. lia. Qed.

Lemma found_periodic : periodic a l p.
Proof using I Hend. rewrite <-Hend. apply (inv_periodic _ _ _ _ _ I). Qed.

(** The period is the least one. *)
Lemma found_least q : 1 <= q -> periodic a l q -> p <= q.
Proof using I Hend.
  intros Hq Hper. destruct (decide (p <= q)) as [|Hlt]; [done|]. pose proof found_bounds.
  destruct (inv_primitive _ _ _ _ _ I q ltac:(lia)) as (j & H1 & H2 & _ & Hj).
  pose proof (Hper (a + j) ltac:(lia) ltac:(lia)) as E. replace (a + j + q) with (a + q + j) in E by lia. lia.
Qed.

Lemma found_max_suffix : max_suffix_at l a.
Proof using I Hend.
  pose proof found_bounds as (Hp & Hap & Hal). split_and!; [done|apply (inv_before _ _ _ _ _ I)|].
  intros t Ht. set (m := (t - a) / p). set (r := (t - a) mod p).
  pose proof (Nat.div_mod (t - a) p ltac:(lia)) as Hdm. pose proof (Nat.mod_upper_bound (t - a) p ltac:(lia)) as Hr.
  fold m r in Hdm, Hr. assert (Htm : t = a + r + m * p) by lia.
  assert (Hper : forall i, t + i < l -> x (t + i) = x (a + r + i)).
  { intros i Hi. replace (t + i) with (a + r + i + m * p) by lia.
    apply (periodic_mul a l p); [apply found_periodic|lia|lia]. }
  destruct (decide (r = 0)) as [Hr0|Hr0].
  { right. intros i Hi. rewrite Hper by lia. f_equal. lia. }
  destruct (inv_primitive _ _ _ _ _ I r ltac:(lia)) as (j & Hj1 & Hj2 & Hagree & Hlt).
  destruct (decide (t + j < l)) as [Hin|Hout].
  - left. exists j. split_and!; [lia|lia|..].
    + intros i Hi. rewrite Hper by lia. apply Hagree. lia.
    + by rewrite Hper by lia.
  - right. intros i Hi. rewrite Hper by lia. apply Hagree. lia.
Qed.
End found.

(** ** Critical positions *)

Section critical.
Context (l a r : nat) (Hmax : max_suffix_at l a) (Hr : 1 <= r) (Hrep : repetition l a r).

(** A repetition around the beginning of the greatest suffix reaches past the beginning of the word. *)
Lemma repetition_long : a < r.
Proof using Hmax Hr Hrep.
  destruct (decide (a < r)) as [|Hle]; [done|]. exfalso. destruct Hmax as (Hal & Hbefore & Hafter).
  destruct (Hbefore (a - r) ltac:(lia)) as (j & Hj1 & Hj2 & Hagree & Hlt).
  destruct (decide (j < r)) as [Hjr|Hjr].
  { pose proof (Hrep (a - r + j) ltac:(lia) ltac:(lia) ltac:(lia)) as E.
    replace (a - r + j + r) with (a + j) in E by lia. lia. }
  assert (Hsame : forall i, i < j - r -> x (a + i) = x (a + r + i)).
  { intros i Hi. specialize (Hagree (r + i) ltac:(lia)). replace (a - r + (r + i)) with (a + i) in Hagree by lia.
    by replace (a + (r + i)) with (a + r + i) in Hagree by lia. }
  assert (Hgt : (x (a + (j - r)) < x (a + r + (j - r)))%Z).
  { replace (a - r + j) with (a + (j - r)) in Hlt by lia. by replace (a + j) with (a + r + (j - r)) in Hlt by lia. }
  destruct (Hafter (a + r) ltac:(lia)) as [(j' & H1 & H2 & Hagree' & Hlt')|Hpre].
  - destruct (Nat.lt_trichotomy j' (j - r)) as [H|[H|H]].
    + rewrite Hsame in Hlt' by lia. lia.
    + rewrite H in Hlt'. lia.
    + rewrite Hagree' in Hgt by lia. lia.
  - rewrite Hpre in Hgt by lia. lia.
Qed.
End critical.
End word.

(** The position at which the shorter of the two greatest suffixes begins is critical: a repetition
    around it is a period of the word. *)
Lemma critical (x : nat -> Z) l a a' r :
  max_suffix_at x l a -> max_suffix_at (fun i => - x i)%Z l a' -> a' <= a -> 1 <= r -> repetition x l a r ->
  a < r /\ periodic x 0 l r.
Proof.
  intros Hmax Hmax' Ha Hr Hrep. pose proof (repetition_long x l a r Hmax Hr Hrep) as Hlong. split; [done|].
  intros i _ Hi. destruct (decide (i < a)) as [Hia|Hia]; [apply Hrep; lia|].
  destruct Hmax as (Hal & _ & Hafter). destruct (Hafter (a + r) ltac:(lia)) as [(j & Hj1 & Hj2 & Hagree & Hlt)|Hpre].
  2: { specialize (Hpre (i - a) ltac:(lia)). replace (a + r + (i - a)) with (i + r) in Hpre by lia.
       replace (a + (i - a)) with i in Hpre by lia. done. }
  exfalso. destruct Hmax' as (_ & _ & Hafter'). set (d := a - a'). set (t := a + r - d).
  assert (Hd : forall i, i < d -> x (t + i) = x (a' + i)).
  { intros i' Hi'. rewrite (Hrep (a' + i')) by lia. f_equal. lia. }
  assert (Hd' : forall i, i < j -> x (t + (d + i)) = x (a' + (d + i))).
  { intros i' Hi'. replace (t + (d + i')) with (a + r + i') by lia. rewrite Hagree by lia. f_equal. lia. }
  assert (Hall : forall i, i < d + j -> x (t + i) = x (a' + i)).
  { intros i' Hi'. destruct (decide (i' < d)) as [|]; [by apply Hd|].
    replace i' with (d + (i' - d)) by lia. apply Hd'. lia. }
  assert (Hlt' : Z.lt (x (t + (d + j))) (x (a' + (d + j)))).
  { replace (t + (d + j)) with (a + r + j) by lia. by replace (a' + (d + j)) with (a + j) by lia. }
  destruct (Hafter' t ltac:(lia)) as [(j' & H1 & H2 & Hagree' & Hgt)|Hpre].
  - destruct (Nat.lt_trichotomy j' (d + j)) as [H|[H|H]].
    + rewrite Hall in Hgt by lia. lia.
    + rewrite H in Hgt. lia.
    + specialize (Hagree' (d + j) H). cbv beta in Hagree'. lia.
  - specialize (Hpre (d + j) ltac:(lia)). cbv beta in Hpre. lia.
Qed.

(** If the least period [p] of the critical suffix is not one of the word, the word has no period as
    short as the suffix. *)
Lemma critical_period x l a p s :
  (forall r, 1 <= r -> repetition x l a r -> periodic x 0 l r) -> 1 <= p -> periodic x a l p ->
  (forall q, 1 <= q -> periodic x a l q -> p <= q) ->
  1 <= s -> a + s <= l -> periodic x 0 l s -> periodic x 0 l p.
Proof.
  intros Hcrit Hp Hper Hleast Hs Hsl Hperiod.
  assert (Hps : p <= s) by (apply Hleast; [done|]; intros i ? ?; apply Hperiod; lia).
  set (m := s / p). set (c := s mod p). pose proof (Nat.div_mod s p ltac:(lia)) as Hdm.
  pose proof (Nat.mod_upper_bound s p ltac:(lia)) as Hc. fold m c in Hdm, Hc.
  destruct (decide (c = 0)) as [Hc0|Hc0].
  - apply Hcrit; [done|]. intros i Hi Hai Hip. assert (1 <= m) by (destruct m; lia).
    rewrite (Hperiod i) by lia. replace (i + s) with (i + p + (m - 1) * p) by (destruct m; simpl; lia).
    apply (periodic_mul x a l p); [done|lia|]. destruct m; simpl; lia.
  - exfalso. assert (Hpc : periodic x 0 l c).
    { apply Hcrit; [lia|]. intros i Hi Hai Hic. rewrite (Hperiod i) by lia.
      replace (i + s) with (i + c + m * p) by lia. apply (periodic_mul x a l p); [done|lia|lia]. }
    assert (p <= c); [|lia]. apply Hleast; [lia|]. intros i ? ?. apply Hpc; lia.
Qed.
