(* ===== verification/StrStr.v ===== *)
(** Searching for a string in a string: strstr and memmem of upstream-openbsd/lib/libc/string.

    Both use a sliding window for needles of up to four bytes and two-way matching, with a table of
    shifts by the last byte, for longer ones.  Haystack and needle are lists; a pointer into the
    haystack is an index.  Sizes are numbers of 64 bits; ip and ms, which begin as -1, wrap around.

    The theorems say that the functions return the first occurrence, or none when there is none,
    without an access outside the arrays; TwoWay.v has the combinatorics. *)

From S2P Require Import Prelude Result CString StrTok Fortify TwoWay.

Open Scope Z_scope.

(** * Definitions *)

(** A byte at a distance from a pointer. *)
Definition rd {A} (l : list A) (i : Z) : result A := if i <? 0 then Fault else at_ l (Z.to_nat i).

(** memcmp, which is in assembly: the difference of the first bytes that differ. *)
Fixpoint memcmp (s1 s2 : list Z) (n : nat) {struct n} : option Z :=
  match n with
  | O => Some 0
  | S n => match s1, s2 with
           | x :: s1, y :: s2 => if x =? y then memcmp s1 s2 n else Some (x - y)
           | _, _ => None
           end
  end.

(** ** Short needles *)

(** The window after one more byte. *)
Definition next2 (hw c : Z) : Z := wrapU 16 (Z.lor (Z.shiftl hw 8) c).
Definition next3 (hw c : Z) : Z := wrapU 32 (Z.shiftl (Z.lor hw c) 8).
Definition next4 (hw c : Z) : Z := wrapU 32 (Z.lor (Z.shiftl hw 8) c).

Definition word2 (l : list Z) (i : Z) : result Z :=
  a <-- rd l i ;; b <-- rd l (i + 1) ;; Ok (wrapU 16 (Z.lor (Z.shiftl a 8) b)).

Definition word3 (l : list Z) (i : Z) : result Z :=
  a <-- rd l i ;; b <-- rd l (i + 1) ;; c <-- rd l (i + 2) ;;
  Ok (wrapU 32 (Z.lor (Z.lor (Z.shiftl a 24) (Z.shiftl b 16)) (Z.shiftl c 8))).

Definition word4 (l : list Z) (i : Z) : result Z :=
  a <-- rd l i ;; b <-- rd l (i + 1) ;; c <-- rd l (i + 2) ;; d <-- rd l (i + 3) ;;
  Ok (wrapU 32 (Z.lor (Z.lor (Z.lor (Z.shiftl a 24) (Z.shiftl b 16)) (Z.shiftl c 8)) d)).

(** The loops: [last] is the distance from the beginning of the window to its last byte. *)
Fixpoint window_strstr (fuel : nat) (next : Z -> Z -> Z) (last : Z) (hay : list Z) (h nw hw : Z) : result (option Z) :=
  match fuel with
  | O => Fault
  | S fuel =>
      c <-- rd hay h ;;
      if c =? 0 then Ok None
      else if hw =? nw then Ok (Some (h - last))
      else c <-- rd hay (h + 1) ;; window_strstr fuel next last hay (h + 1) nw (next hw c)
  end.

Definition twobyte_strstr (fuel : nat) (hay : list Z) (h : Z) (n : list Z) : result (option Z) :=
  nw <-- word2 n 0 ;; hw <-- word2 hay h ;; window_strstr fuel next2 1 hay (h + 1) nw hw.

Definition threebyte_strstr (fuel : nat) (hay : list Z) (h : Z) (n : list Z) : result (option Z) :=
  nw <-- word3 n 0 ;; hw <-- word3 hay h ;; window_strstr fuel next3 2 hay (h + 2) nw hw.

Definition fourbyte_strstr (fuel : nat) (hay : list Z) (h : Z) (n : list Z) : result (option Z) :=
  nw <-- word4 n 0 ;; hw <-- word4 hay h ;; window_strstr fuel next4 3 hay (h + 3) nw hw.

(** [k] bytes are left behind the window. *)
Fixpoint window_memmem (k : nat) (next : Z -> Z -> Z) (len : Z) (hay : list Z) (h nw hw : Z) : result (option Z) :=
  match k with
  | O => Ok (if hw =? nw then Some (h - len) else None)
  | S k =>
      if hw =? nw then Ok (Some (h - len))
      else c <-- rd hay h ;; window_memmem k next len hay (h + 1) nw (next hw c)
  end.

Definition twobyte_memmem (hay : list Z) (h k : Z) (n : list Z) : result (option Z) :=
  nw <-- word2 n 0 ;; hw <-- word2 hay h ;; window_memmem (Z.to_nat (k - 2)) next2 2 hay (h + 2) nw hw.

Definition threebyte_memmem (hay : list Z) (h k : Z) (n : list Z) : result (option Z) :=
  nw <-- word3 n 0 ;; hw <-- word3 hay h ;; window_memmem (Z.to_nat (k - 3)) next3 3 hay (h + 3) nw hw.

Definition fourbyte_memmem (hay : list Z) (h k : Z) (n : list Z) : result (option Z) :=
  nw <-- word4 n 0 ;; hw <-- word4 hay h ;; window_memmem (Z.to_nat (k - 4)) next4 4 hay (h + 4) nw hw.

(** ** The tables of two-way matching *)

(** A set of bytes, four words of 64 bits; and where each of them is last in the needle.  A place
    that has not been written is [None]. *)
Record tables := mk_tables { byteset : list Z; shift : list (option Z) }.

Definition no_tables : tables := mk_tables (replicate 4 0) (replicate 256 None).

Definition table_add (t : tables) (c i : Z) : result tables :=
  w <-- rd (byteset t) (c / 64) ;;
  Ok (mk_tables (<[Z.to_nat (c / 64) := Z.lor w (Z.shiftl 1 (c mod 64))]> (byteset t))
                (<[Z.to_nat c := Some (i + 1)]> (shift t))).

Definition table_has (t : tables) (c : Z) : result bool :=
  w <-- rd (byteset t) (c / 64) ;; Ok (truthy (Z.land w (Z.shiftl 1 (c mod 64)))).

Definition table_shift (t : tables) (c : Z) : result Z := s <-- rd (shift t) c ;; run s.

(** The loop of strstr also finds the length of the needle, and stops at the end of the haystack. *)
Fixpoint fill_strstr (fuel : nat) (hay : list Z) (h : Z) (n : list Z) (l : Z) (t : tables) : result (Z * tables) :=
  match fuel with
  | O => Fault
  | S fuel =>
      c <-- rd n l ;;
      if c =? 0 then Ok (l, t) else
      d <-- rd hay (h + l) ;;
      if d =? 0 then Ok (l, t) else
      t <-- table_add t c l ;; fill_strstr fuel hay h n (l + 1) t
  end.

Fixpoint fill_memmem (todo : nat) (n : list Z) (i : Z) (t : tables) : result tables :=
  match todo with
  | O => Ok t
  | S todo => c <-- rd n i ;; t <-- table_add t c i ;; fill_memmem todo n (i + 1) t
  end.

(** The loop that computes a maximal suffix: its beginning, less one, and its period. *)
Fixpoint max_suffix (fuel : nat) (opposite : bool) (n : list Z) (l ip jp k p : Z) : result (Z * Z) :=
  match fuel with
  | O => Fault
  | S fuel =>
      if jp + k <? l then
        a <-- rd n (wrapU 64 (ip + k)) ;;
        b <-- rd n (jp + k) ;;
        if a =? b then
          if k =? p then max_suffix fuel opposite n l ip (jp + p) 1 p
          else max_suffix fuel opposite n l ip jp (k + 1) p
        else if (if opposite then a <? b else a >? b) then
          let jp := jp + k in max_suffix fuel opposite n l ip jp 1 (wrapU 64 (jp - ip))
        else max_suffix fuel opposite n l jp (jp + 1) 1 1
      else Ok (ip, p)
  end.

(** The position ms, the shift p and the memory mem0. *)
Definition factorize (n : list Z) (l : Z) : result (Z * Z * Z) :=
  let fuel := Z.to_nat (3 * l + 3) in
  r0 <-- max_suffix fuel false n l (wrapU 64 (-1)) 0 1 1 ;;
  let '(ms, p0) := r0 in
  r1 <-- max_suffix fuel true n l (wrapU 64 (-1)) 0 1 1 ;;
  let '(ip, p) := r1 in
  let '(ms, p) := if wrapU 64 (ip + 1) >? wrapU 64 (ms + 1) then (ip, p) else (ms, p0) in
  d <-- run (memcmp n (drop (Z.to_nat p) n) (Z.to_nat (wrapU 64 (ms + 1)))) ;;
  if negb (d =? 0) then Ok (ms, wrapU 64 (Z.max ms (wrapU 64 (l - ms - 1)) + 1), 0)
  else Ok (ms, p, l - p).

(** The loops that compare the halves of the needle.  The right half is compared up to the end of
    the needle, which strstr sees by its terminator; the flag is true at a difference. *)
Fixpoint right_strstr (fuel : nat) (n hay : list Z) (h k : Z) : result (Z * bool) :=
  match fuel with
  | O => Fault
  | S fuel =>
      a <-- rd n k ;;
      if a =? 0 then Ok (k, false) else
      b <-- rd hay (h + k) ;;
      if a =? b then right_strstr fuel n hay h (k + 1) else Ok (k, true)
  end.

Fixpoint right_memmem (fuel : nat) (n hay : list Z) (l h k : Z) : result (Z * bool) :=
  match fuel with
  | O => Fault
  | S fuel =>
      if k <? l then
        a <-- rd n k ;; b <-- rd hay (h + k) ;;
        if a =? b then right_memmem fuel n hay l h (k + 1) else Ok (k, true)
      else Ok (k, false)
  end.

Fixpoint left_half (fuel : nat) (n hay : list Z) (h mem k : Z) : result Z :=
  match fuel with
  | O => Fault
  | S fuel =>
      if k >? mem then
        a <-- rd n (k - 1) ;; b <-- rd hay (h + k - 1) ;;
        if a =? b then left_half fuel n hay h mem (k - 1) else Ok k
      else Ok k
  end.

(** One turn of the search, from the test of the last byte: the new h and mem, or the result. *)
Definition twoway_step (right_half : Z -> Z -> result (Z * bool)) (n hay : list Z) (l ms p mem0 : Z) (t : tables)
    (h mem : Z) : result (Z * Z + Z) :=
  c <-- rd hay (h + l - 1) ;;
  present <-- table_has t c ;;
  if negb present then Ok (inl (h + l, 0)) else
  s <-- table_shift t c ;;
  let k := wrapU 64 (l - s) in
  if negb (k =? 0) then Ok (inl (h + (if k <? mem then mem else k), 0)) else
  r <-- right_half h (Z.max (wrapU 64 (ms + 1)) mem) ;;
  let '(k, differs) := r in
  if differs : bool then Ok (inl (h + wrapU 64 (k - ms), 0)) else
  k <-- left_half (Z.to_nat l + 1) n hay h mem (wrapU 64 (ms + 1)) ;;
  if k <=? mem then Ok (inr h) else Ok (inl (h + p, mem0)).

Fixpoint twoway_memmem_loop (fuel : nat) (hay : list Z) (z : Z) (n : list Z) (l ms p mem0 : Z) (t : tables) (h mem : Z)
    : result (option Z) :=
  match fuel with
  | O => Fault
  | S fuel =>
      if wrapU 64 (z - h) <? l then Ok None else
      r <-- twoway_step (right_memmem (Z.to_nat l + 1) n hay l) n hay l ms p mem0 t h mem ;;
      match r with
      | inl (h, mem) => twoway_memmem_loop fuel hay z n l ms p mem0 t h mem
      | inr h => Ok (Some h)
      end
  end.

Definition twoway_memmem (hay : list Z) (h z : Z) (n : list Z) (l : Z) : result (option Z) :=
  t <-- fill_memmem (Z.to_nat l) n 0 no_tables ;;
  f <-- factorize n l ;;
  let '(ms, p, mem0) := f in
  twoway_memmem_loop (Z.to_nat (z - h) + 1) hay z n l ms p mem0 t h 0.

(** The pointer z to the part of the haystack that is known to have no terminator; [None] when
    less than a needle is left. *)
Definition grow_haystack (hay : list Z) (l h z : Z) : result (option Z) :=
  if wrapU 64 (z - h) <? l then
    let grow := Z.lor l 63 in
    z2 <-- run (memchr (drop (Z.to_nat z) hay) 0 (Z.to_nat grow)) ;;
    match z2 with
    | Some d => let z := z + Z.of_nat d in Ok (if wrapU 64 (z - h) <? l then None else Some z)
    | None => Ok (Some (z + grow))
    end
  else Ok (Some z).

Fixpoint twoway_strstr_loop (fuel : nat) (hay : list Z) (n : list Z) (l ms p mem0 : Z) (t : tables) (z h mem : Z)
    : result (option Z) :=
  match fuel with
  | O => Fault
  | S fuel =>
      z <-- grow_haystack hay l h z ;;
      match z with
      | None => Ok None
      | Some z =>
          r <-- twoway_step (right_strstr (Z.to_nat l + 1) n hay) n hay l ms p mem0 t h mem ;;
          match r with
          | inl (h, mem) => twoway_strstr_loop fuel hay n l ms p mem0 t z h mem
          | inr h => Ok (Some h)
          end
      end
  end.

Definition twoway_strstr (hay : list Z) (h : Z) (n : list Z) : result (option Z) :=
  r <-- fill_strstr (length n + 1) hay h n 0 no_tables ;;
  let '(l, t) := r in
  c <-- rd n l ;;
  if negb (c =? 0) then Ok None else
  f <-- factorize n l ;;
  let '(ms, p, mem0) := f in
  twoway_strstr_loop (length hay + 1) hay n l ms p mem0 t h h 0.

(** ** The functions *)

Definition strstr (hay n : list Z) : result (option Z) :=
  n0 <-- rd n 0 ;;
  if n0 =? 0 then Ok (Some 0) else
  h <-- strchr hay n0 ;;
  match h with
  | None => Ok None
  | Some h =>
      let h := Z.of_nat h in
      n1 <-- rd n 1 ;; if n1 =? 0 then Ok (Some h) else
      h1 <-- rd hay (h + 1) ;; if h1 =? 0 then Ok None else
      n2 <-- rd n 2 ;; if n2 =? 0 then twobyte_strstr (length hay) hay h n else
      h2 <-- rd hay (h + 2) ;; if h2 =? 0 then Ok None else
      n3 <-- rd n 3 ;; if n3 =? 0 then threebyte_strstr (length hay) hay h n else
      h3 <-- rd hay (h + 3) ;; if h3 =? 0 then Ok None else
      n4 <-- rd n 4 ;; if n4 =? 0 then fourbyte_strstr (length hay) hay h n else
      twoway_strstr hay h n
  end.

Definition memmem (hay : list Z) (k : Z) (n : list Z) (l : Z) : result (option Z) :=
  if l =? 0 then Ok (Some 0) else
  if k <? l then Ok None else
  n0 <-- rd n 0 ;;
  h <-- run (memchr hay n0 (Z.to_nat k)) ;;
  match h with
  | None => Ok None
  | Some h =>
      let h := Z.of_nat h in
      if l =? 1 then Ok (Some h) else
      let k := k - h in
      if k <? l then Ok None else
      if l =? 2 then twobyte_memmem hay h k n else
      if l =? 3 then threebyte_memmem hay h k n else
      if l =? 4 then fourbyte_memmem hay h k n else
      twoway_memmem hay h (h + k) n l
  end.

(** * Specification *)

(** The needle is in the haystack at an index. *)
Definition occurs (hay n : list Z) (i : nat) : Prop := exists s t, hay = s ++ n ++ t /\ length s = i.

(** What a search has to return. *)
Definition first_match (hay n : list Z) (r : option Z) : Prop :=
  match r with
  | Some i => exists j, i = Z.of_nat j /\ occurs hay n j /\ forall j', (j' < j)%nat -> ~ occurs hay n j'
  | None => forall j, ~ occurs hay n j
  end.

Lemma occurs_lookup hay n i :
  occurs hay n i <-> (i + length n <= length hay)%nat /\ forall k, (k < length n)%nat -> hay !!! (i + k)%nat = n !!! k.
Proof.
  split.
  - intros (s & t & -> & <-). split; [rewrite !length_app; lia|]. intros k Hk.
    rewrite lookup_total_app_r by lia. replace (length s + k - length s)%nat with k by lia. by rewrite lookup_total_app_l.
  - intros [Hl Hk]. exists (take i hay), (drop (i + length n) hay). split; [|rewrite length_take; lia].
    rewrite <-(take_drop i hay) at 1. f_equal. rewrite <-(take_drop (length n) (drop i hay)), drop_drop. f_equal.
    apply list_eq_same_length with (n := length n); [done|rewrite length_take, length_drop; lia|].
    intros k a b Hlt Ha Hb. rewrite lookup_take_lt, lookup_drop in Ha by done.
    specialize (Hk k Hlt). apply list_lookup_total_correct in Ha, Hb. congruence.
Qed.

(** * Machine words *)

Lemma wrapU_add_l w x y : wrapU w (wrapU w x + y) = wrapU w (x + y).
Proof. unfold wrapU. apply Zplus_mod_idemp_l. Qed.

Lemma wrapU_sub_r w x y : wrapU w (x - wrapU w y) = wrapU w (x - y).
Proof. unfold wrapU. apply Zminus_mod_idemp_r. Qed.

Lemma rd_lookup (l : list Z) i : (i < length l)%nat -> rd l (Z.of_nat i) = Ok (l !!! i).
Proof.
  intros Hi. unfold rd, at_. destruct (Z.ltb_spec (Z.of_nat i) 0); [lia|].
  rewrite Nat2Z.id, (list_lookup_lookup_total_lt l i Hi). done.
Qed.

Lemma rd_lookup_Z (l : list Z) i : 0 <= i < Z.of_nat (length l) -> rd l i = Ok (l !!! Z.to_nat i).
Proof. intros Hi. rewrite <-(rd_lookup l (Z.to_nat i)) by lia. f_equal. lia. Qed.

Lemma memcmp_spec s1 s2 n : (n <= length s1)%nat -> (n <= length s2)%nat ->
  exists d, memcmp s1 s2 n = Some d /\ (d = 0 <-> forall i, (i < n)%nat -> s1 !!! i = s2 !!! i).
Proof.
  revert s1 s2. induction n as [|n IH]; intros s1 s2 H1 H2; [exists 0; split; [done|]; split; [intros _ i ?; lia|done]|].
  destruct s1 as [|a s1], s2 as [|b s2]; simpl in *; try lia. destruct (Z.eqb_spec a b) as [->|Hne].
  - destruct (IH s1 s2) as (d & -> & Hd); [lia..|]. exists d. split; [done|]. rewrite Hd. split.
    + intros H [|i] Hi; [done|]. apply H. lia.
    + intros H i Hi. apply (H (S i)). lia.
  - exists (a - b). split; [done|]. split; [lia|]. intros H. specialize (H 0%nat ltac:(lia)). done.
Qed.

(** * The tables *)

Definition in_set (t : tables) (c : Z) : bool := Z.testbit (byteset t !!! Z.to_nat (c / 64)) (c mod 64).

Definition tables_wf (t : tables) : Prop := length (byteset t) = 4%nat /\ length (shift t) = 256%nat.

Lemma table_has_spec t c : tables_wf t -> 0 <= c < 256 -> table_has t c = Ok (in_set t c).
Proof.
  intros [Hb _] Hc. unfold table_has, in_set.
  assert (Hd : 0 <= c / 64 < 4) by (split; [apply Z.div_pos|apply Z.div_lt_upper_bound]; lia).
  rewrite rd_lookup_Z by lia.
  cbn [obind]. rewrite Z.shiftl_1_l, testbit_truthy; [done|]. apply Z.mod_pos_bound. lia.
Qed.

Lemma table_add_spec t c i : tables_wf t -> 0 <= c < 256 -> exists t', table_add t c i = Ok t' /\ tables_wf t' /\
  shift t' = <[Z.to_nat c := Some (i + 1)]> (shift t) /\
  forall c', 0 <= c' < 256 -> in_set t' c' = (c' =? c) || in_set t c'.
Proof.
  intros [Hb Hs] Hc. unfold table_add. assert (Hd : 0 <= c / 64 < 4) by (split; [apply Z.div_pos|apply Z.div_lt_upper_bound]; lia).
  rewrite rd_lookup_Z by lia. cbn [obind]. eexists. split; [done|].
  split_and!; [split; cbn [byteset shift]; by rewrite length_insert|done|]. intros c' Hc'. unfold in_set. cbn [byteset].
  pose proof (Z.mod_pos_bound c 64 ltac:(lia)). pose proof (Z.mod_pos_bound c' 64 ltac:(lia)).
  assert (0 <= c' / 64) by (apply Z.div_pos; lia).
  pose proof (Z.div_mod c 64 ltac:(lia)). pose proof (Z.div_mod c' 64 ltac:(lia)).
  destruct (Z.eqb_spec (c' / 64) (c / 64)) as [E|E].
  - rewrite E, list_lookup_total_insert_eq by lia. rewrite Z.lor_spec, Z.shiftl_1_l, Z.pow2_bits_eqb by lia.
    rewrite orb_comm. f_equal. destruct (Z.eqb_spec (c mod 64) (c' mod 64)), (Z.eqb_spec c' c); try done; lia.
  - rewrite list_lookup_total_insert_ne by lia. destruct (Z.eqb_spec c' c); [congruence|done].
Qed.

(** * The needle *)

Section needle.
Context (N u : list Z).
Context (Hlen : Z.of_nat (length N) < 2 ^ 63).

Local Abbreviation n := (N ++ u).
Local Abbreviation l := (length N).
Local Abbreviation x := (fun i : nat => N !!! i).

Lemma rd_needle i : (i < l)%nat -> rd n (Z.of_nat i) = Ok (N !!! i).
Proof. intros Hi. rewrite rd_lookup by (rewrite length_app; lia). by rewrite lookup_total_app_l. Qed.

Lemma rd_needle_Z i : 0 <= i < Z.of_nat l -> rd n i = Ok (N !!! Z.to_nat i).
Proof. intros Hi. rewrite <-(rd_needle (Z.to_nat i)) by lia. f_equal. lia. Qed.

(** The order in which the loop compares letters. *)
Definition signed (opposite : bool) (i : nat) : Z := if opposite then - N !!! i else N !!! i.

Lemma signed_eq opposite i j : signed opposite i = signed opposite j <-> N !!! i = N !!! j.
Proof. unfold signed. destruct opposite; lia. Qed.

Lemma max_suffix_spec opposite fuel a b k p : max_suffix_inv (signed opposite) l a b k p ->
  (2 * l + 3 <= fuel + (a + b + k))%nat ->
  exists a' b' k' p', max_suffix fuel opposite n (Z.of_nat l) (wrapU 64 (Z.of_nat a - 1)) (Z.of_nat b - 1) (Z.of_nat k) (Z.of_nat p)
    = Ok (wrapU 64 (Z.of_nat a' - 1), Z.of_nat p') /\
    max_suffix_inv (signed opposite) l a' b' k' p' /\ (b' + k' - 1 = l)%nat.
Proof using Hlen.
  revert a b k p. induction fuel as [|fuel IH]; intros a b k p I Hf.
  { exfalso. pose proof (inv_l _ _ _ _ _ _ I). destruct (inv_ab _ _ _ _ _ _ I) as [m Hm].
    pose proof (inv_k _ _ _ _ _ _ I). simpl in Hm. lia. }
  pose proof (inv_l _ _ _ _ _ _ I) as Hl. pose proof (inv_k _ _ _ _ _ _ I) as Hk.
  destruct (inv_ab _ _ _ _ _ _ I) as [m Hm]. assert (Hab : (a + p <= b)%nat) by (subst b; simpl; lia).
  cbn [max_suffix].
  destruct (Z.ltb_spec (Z.of_nat b - 1 + Z.of_nat k) (Z.of_nat l)) as [Hlt|Hge].
  2: { exists a, b, k, p. split_and!; [done|done|lia]. }
  rewrite wrapU_add_l, wrapU_small by lia. rewrite !rd_needle_Z by lia. cbn [obind].
  replace (Z.to_nat (Z.of_nat a - 1 + Z.of_nat k)) with (a + k - 1)%nat by lia.
  replace (Z.to_nat (Z.of_nat b - 1 + Z.of_nat k)) with (b + k - 1)%nat by lia.
  assert (Hbk : (b + k - 1 < l)%nat) by lia.
  destruct (Z.eqb_spec (N !!! (a + k - 1)%nat) (N !!! (b + k - 1)%nat)) as [E|Hne].
  - apply (signed_eq opposite) in E. destruct (Z.eqb_spec (Z.of_nat k) (Z.of_nat p)) as [Ekp|Ekp].
    + replace (Z.of_nat b - 1 + Z.of_nat p) with (Z.of_nat (b + p) - 1) by lia. change 1 with (Z.of_nat 1) at 3.
      apply IH; [|lia]. by apply (step_period _ l a b k p); [..|lia].
    + replace (Z.of_nat k + 1) with (Z.of_nat (k + 1)) by lia. apply IH; [|lia].
      apply (step_same _ l a b k p); [done..|lia].
  - destruct (if opposite then _ else _) eqn:Ecmp.
    + replace (Z.of_nat b - 1 + Z.of_nat k) with (Z.of_nat (b + k) - 1) by lia.
      rewrite wrapU_sub_r, (wrapU_small 64 (Z.of_nat (b + k) - 1 - (Z.of_nat a - 1))) by lia.
      replace (Z.of_nat (b + k) - 1 - (Z.of_nat a - 1)) with (Z.of_nat (b + k - a)) by lia. change 1 with (Z.of_nat 1) at 3.
      apply IH; [|lia]. apply (step_smaller _ l a b k p); [done..|]. unfold signed. destruct opposite; lia.
    + destruct (IH b (b + 1) 1 1)%nat as (a' & b' & k' & p' & E & H); [|lia|].
      { apply (step_greater _ l a b k p); [done..|]. unfold signed. destruct opposite; lia. }
      rewrite (wrapU_small 64 (Z.of_nat b - 1)) in E by lia.
      replace (Z.of_nat (b + 1) - 1) with (Z.of_nat b - 1 + 1) in E by lia. eauto 10.
Qed.

(** What the search relies on: position [a] is critical; a shift by [p] misses nothing when the right
    half matches; and if the needle is remembered, [p] is a period of it. *)
Record factorization (a p mem0 : nat) : Prop := {
  fact_a : (a < l)%nat;
  fact_p : (1 <= p <= l)%nat;
  fact_critical : forall r, (1 <= r)%nat -> repetition x l a r -> (a < r)%nat /\ periodic x 0 l r;
  fact_shift : forall r, (1 <= r)%nat -> repetition x l a r -> (p <= r)%nat;
  fact_mem : mem0 = 0%nat \/ mem0 = (l - p)%nat /\ periodic x 0 l p /\ (a < p)%nat
}.

(** The suffix that was chosen. *)
Record chosen (a p : nat) : Prop := {
  chosen_a : (a < l)%nat;
  chosen_p : (1 <= p)%nat /\ (a + p <= l)%nat;
  chosen_critical : forall r, (1 <= r)%nat -> repetition x l a r -> (a < r)%nat /\ periodic x 0 l r;
  chosen_periodic : periodic x a l p;
  chosen_least : forall q, (1 <= q)%nat -> periodic x a l q -> (p <= q)%nat
}.

Lemma periodic_signed opposite a e p : periodic (signed opposite) a e p <-> periodic x a e p.
Proof.
  split; intros H i Hi He; [apply (proj1 (signed_eq opposite _ _))|apply (proj2 (signed_eq opposite _ _))]; by apply H.
Qed.

Lemma repetition_signed opposite a r : repetition (signed opposite) l a r <-> repetition x l a r.
Proof.
  split; intros H i H1 H2 H3; [apply (proj1 (signed_eq opposite _ _))|apply (proj2 (signed_eq opposite _ _))]; by apply H.
Qed.

Lemma max_suffix_signed opposite a :
  max_suffix_at (signed (negb opposite)) l a -> max_suffix_at (fun i => - signed opposite i) l a.
Proof.
  assert (E : forall i, signed (negb opposite) i = - signed opposite i) by (intros i; unfold signed; destruct opposite; simpl; lia).
  assert (Hp : forall t, precedes (signed (negb opposite)) l t a -> precedes (fun i => - signed opposite i) l t a).
  { intros t (j & H1 & H2 & H3 & H4). exists j. rewrite !E in H4. split_and!; [done|done| |done].
    intros i Hi. rewrite <-!E. by apply H3. }
  intros (Ha & Hb & Hc). split_and!; [done|by auto|]. intros t Ht. destruct (Hc t Ht) as [H|H]; [by left; apply Hp|].
  right. intros i Hi. rewrite <-!E. by apply H.
Qed.

Lemma choose_suffix opposite a b k p a' b' k' p' :
  max_suffix_inv (signed opposite) l a b k p -> (b + k - 1 = l)%nat ->
  max_suffix_inv (signed (negb opposite)) l a' b' k' p' -> (b' + k' - 1 = l)%nat ->
  (a' <= a)%nat -> chosen a p.
Proof.
  intros I He I' He' Ha. pose proof (found_bounds _ _ _ _ _ _ I He). constructor; [lia|lia|..].
  - intros r Hr Hrep. apply (repetition_signed opposite) in Hrep.
    destruct (critical (signed opposite) l a a' r) as [H1 H2]; [|..|done|done|].
    + by apply (found_max_suffix _ _ _ _ _ _ I).
    + apply max_suffix_signed. by apply (found_max_suffix _ _ _ _ _ _ I').
    + done.
    + split; [done|]. by apply periodic_signed in H2.
  - apply (periodic_signed opposite). by apply (found_periodic _ _ _ _ _ _ I).
  - intros q Hq Hper. apply (found_least _ _ _ _ _ _ I He); [done|]. by apply periodic_signed.
Qed.

Lemma periodic_repetition a p : periodic x 0 l p -> repetition x l a p.
Proof. intros H i _ _ Hi. apply H; lia. Qed.

Lemma factorization_periodic a p : chosen a p -> periodic x 0 l p -> factorization a p (l - p).
Proof.
  intros [Ha Hp Hc Hper Hleast] Hper0. constructor; [done|lia|done|..].
  - intros r Hr Hrep. apply Hleast; [done|]. destruct (Hc r Hr Hrep) as [_ H]. intros i ? ?. apply H; lia.
  - right. split_and!; [done..|]. apply Hc; [lia|]. by apply periodic_repetition.
Qed.

Lemma factorization_other a p : chosen a p -> ~ periodic x 0 l p -> (1 <= a)%nat ->
  factorization a (max (a - 1) (l - a) + 1) 0.
Proof.
  intros [Ha Hp Hc Hper Hleast] Hnot H1. constructor; [done|lia|done| |by left].
  intros r Hr Hrep. destruct (Hc r Hr Hrep) as [Har Hperiod].
  destruct (decide (a + r <= l)%nat) as [Hle|]; [|lia]. exfalso. apply Hnot.
  apply (critical_period x l a p r); [|lia|done|done|done|done|done]. intros r' Hr' Hrep'. by apply Hc.
Qed.

Lemma factorize_spec : (1 <= l)%nat -> exists a p mem0,
  factorize n (Z.of_nat l) = Ok (wrapU 64 (Z.of_nat a - 1), Z.of_nat p, Z.of_nat mem0) /\ factorization a p mem0.
Proof using Hlen.
  intros Hl. unfold factorize.
  destruct (max_suffix_spec false (Z.to_nat (3 * Z.of_nat l + 3)) 0 1 1 1 ltac:(by apply inv_init) ltac:(lia))
    as (a0 & b0 & k0 & p0 & E0 & I0 & He0).
  destruct (max_suffix_spec true (Z.to_nat (3 * Z.of_nat l + 3)) 0 1 1 1 ltac:(by apply inv_init) ltac:(lia))
    as (a1 & b1 & k1 & p1 & E1 & I1 & He1).
  change (Z.of_nat 0 - 1) with (-1) in E0, E1. change (Z.of_nat 1 - 1) with 0 in E0, E1. change (Z.of_nat 1) with 1 in E0, E1.
  rewrite E0. cbn [obind]. rewrite E1. cbn [obind]. rewrite !wrapU_add_l, !Z.sub_add.
  pose proof (found_bounds _ _ _ _ _ _ I0 He0) as B0. pose proof (found_bounds _ _ _ _ _ _ I1 He1) as B1.
  rewrite !wrapU_small by lia.
  set (sel := if Z.of_nat a1 >? Z.of_nat a0 then _ else _).
  assert (Hsel : exists a p, sel = (wrapU 64 (Z.of_nat a - 1), Z.of_nat p) /\ chosen a p).
  { subst sel. destruct (Z.gtb_spec (Z.of_nat a1) (Z.of_nat a0)).
    - exists a1, p1. split; [done|]. by apply (choose_suffix true a1 b1 k1 p1 a0 b0 k0 p0); [..|lia].
    - exists a0, p0. split; [done|]. by apply (choose_suffix false a0 b0 k0 p0 a1 b1 k1 p1); [..|lia]. }
  clearbody sel. destruct Hsel as (a & p & -> & Hc). pose proof (chosen_a _ _ Hc). pose proof (chosen_p _ _ Hc).
  rewrite wrapU_add_l, Z.sub_add, wrapU_small, !Nat2Z.id by lia.
  destruct (memcmp_spec n (drop p n) a) as (d & -> & Hd); [rewrite ?length_drop, length_app; lia..|]. cbn [run obind].
  assert (Hd' : d = 0 <-> periodic x 0 l p).
  { rewrite Hd. split.
    - intros H' i _ Hi. destruct (decide (i < a)%nat) as [Hia|Hia]; [|apply (chosen_periodic _ _ Hc); lia].
      specialize (H' i Hia). rewrite lookup_total_drop, !lookup_total_app_l in H' by lia. rewrite H'. f_equal. lia.
    - intros H' i Hi. rewrite lookup_total_drop, !lookup_total_app_l by lia. rewrite (H' i) by lia. f_equal. lia. }
  destruct (Z.eqb_spec d 0) as [Ed|Ed]; cbn [negb].
  - exists a, p, (l - p)%nat. split; [do 2 f_equal; lia|]. apply factorization_periodic; [done|by apply Hd'].
  - assert (1 <= a)%nat. { destruct a; [|lia]. exfalso. apply Ed, Hd. intros i ?. lia. }
    exists a, (max (a - 1) (l - a) + 1)%nat, 0%nat. split.
    + rewrite (wrapU_small 64 (Z.of_nat a - 1)), (wrapU_small 64 (Z.of_nat l - _ - 1)), wrapU_small by lia.
      do 3 f_equal. lia.
    + apply (factorization_other a p); [done| |done]. by rewrite <-Hd'.
Qed.

(** The tables after the first [m] bytes of the needle. *)
Definition tables_for (m : nat) (t : tables) : Prop :=
  tables_wf t /\ forall c, 0 <= c < 256 ->
    if in_set t c then exists i, (i < m)%nat /\ N !!! i = c /\ (forall j, (i < j < m)%nat -> N !!! j <> c) /\
                                 table_shift t c = Ok (Z.of_nat i + 1)
    else forall i, (i < m)%nat -> N !!! i <> c.

Context (Hbytes : Forall (fun c => 0 <= c < 256) N).

Lemma needle_byte i : (i < l)%nat -> 0 <= N !!! i < 256.
Proof using Hbytes. intros Hi. apply (Forall_lookup_1 _ _ i _ Hbytes). by apply list_lookup_lookup_total_lt. Qed.

Lemma tables_for_none : tables_for 0 no_tables.
Proof.
  split; [done|]. intros c Hc. assert (in_set no_tables c = false) as ->; [|intros i ?; lia].
  unfold in_set, no_tables. cbn [byteset]. assert (c / 64 < 4) by (apply Z.div_lt_upper_bound; lia).
  rewrite lookup_total_replicate_2 by lia. apply Z.bits_0.
Qed.

Lemma tables_for_add t m : tables_for m t -> (m < l)%nat ->
  exists t', table_add t (N !!! m) (Z.of_nat m) = Ok t' /\ tables_for (S m) t'.
Proof using Hbytes.
  intros [Hwf Hfor] Hm. pose proof (needle_byte m Hm) as Hc.
  destruct (table_add_spec t (N !!! m) (Z.of_nat m) Hwf Hc) as (t' & E & Hwf' & Hshift & Hset).
  exists t'. split; [done|]. split; [done|]. intros c Hc'. rewrite Hset by done.
  assert (Htab : forall i, (forall j, (i < j < S m)%nat -> N !!! j <> c) -> (i < S m)%nat -> N !!! i = c ->
     (i = m \/ table_shift t c = Ok (Z.of_nat i + 1) /\ c <> N !!! m) -> table_shift t' c = Ok (Z.of_nat i + 1)).
  { intros i _ _ Ec Hi. unfold table_shift, rd, at_ in *. destruct (Z.ltb_spec c 0); [lia|]. rewrite Hshift.
    destruct Hi as [->|[Hi Hne]].
    - rewrite <-Ec. rewrite list_lookup_insert_eq; [done|]. destruct Hwf as [_ ->]. lia.
    - rewrite list_lookup_insert_ne by lia. done. }
  destruct (Z.eqb_spec c (N !!! m)) as [Ec|Ec]; cbn [orb].
  - exists m. split_and!; [lia|done|intros j ?; lia|]. apply Htab; [intros j ?; lia|lia|done|by left].
  - specialize (Hfor c Hc'). destruct (in_set t c).
    + destruct Hfor as (i & Hi & Ei & Hlast & Hsh).
      assert (forall j, (i < j < S m)%nat -> N !!! j <> c).
      { intros j Hj. destruct (decide (j = m)) as [->|]; [congruence|]. apply Hlast. lia. }
      exists i. split_and!; [lia|done|done|]. apply Htab; [done|lia|done|by right].
    + intros i Hi. destruct (decide (i = m)) as [->|]; [congruence|]. apply Hfor. lia.
Qed.

Lemma fill_memmem_spec todo m t : tables_for m t -> (todo + m = l)%nat ->
  exists t', fill_memmem todo n (Z.of_nat m) t = Ok t' /\ tables_for l t'.
Proof using Hbytes.
  revert m t. induction todo as [|todo IH]; intros m t Ht Hm; simpl.
  { exists t. split; [done|]. by replace l with m by lia. }
  rewrite rd_needle by lia. cbn [obind]. destruct (tables_for_add t m Ht) as (t' & -> & Ht'); [lia|]. cbn [obind].
  replace (Z.of_nat m + 1) with (Z.of_nat (S m)) by lia. apply IH; [done|lia].
Qed.
End needle.

(** * The search *)

Section search.
Context (N u hay : list Z) (L : nat) (a p mem0 : nat) (t : tables).
Context (Hlen : Z.of_nat (length N) < 2 ^ 63) (HL : (L <= length hay)%nat) (Hhay : Z.of_nat (length hay) < 2 ^ 63).
Context (Hbytes : Forall (fun c => 0 <= c < 256) hay).
Context (Hf : factorization N a p mem0) (Ht : tables_for N (length N) t).

Local Abbreviation n := (N ++ u).
Local Abbreviation l := (length N).
Local Abbreviation x := (fun i : nat => N !!! i).
Local Abbreviation y := (fun i : nat => hay !!! i).

Definition occ (h : nat) : Prop := (h + l <= L)%nat /\ forall i, (i < l)%nat -> hay !!! (h + i)%nat = N !!! i.

(** What is remembered of the comparison before the last shift. *)
Definition mem_ok (h mem : nat) : Prop :=
  mem = 0%nat \/ mem = mem0 /\ mem0 <> 0%nat /\ forall i, (i < mem)%nat -> hay !!! (h + i)%nat = N !!! i.

Definition right_ok (right_half : Z -> Z -> result (Z * bool)) : Prop :=
  forall h k, (h + l <= L)%nat -> (k <= l)%nat -> exists k' differs,
    right_half (Z.of_nat h) (Z.of_nat k) = Ok (Z.of_nat k', differs) /\ (k <= k' <= l)%nat /\
    (forall i, (k <= i < k')%nat -> hay !!! (h + i)%nat = N !!! i) /\
    if differs : bool then (k' < l)%nat /\ hay !!! (h + k')%nat <> N !!! k' else k' = l.

Lemma rd_hay i : (i < L)%nat -> rd hay (Z.of_nat i) = Ok (hay !!! i).
Proof. intros Hi. apply rd_lookup. lia. Qed.

Lemma rd_hay_Z i : 0 <= i < Z.of_nat L -> rd hay i = Ok (hay !!! Z.to_nat i).
Proof. intros Hi. apply rd_lookup_Z. lia. Qed.

Lemma hay_byte i : (i < L)%nat -> 0 <= hay !!! i < 256.
Proof.
  intros Hi. apply (Forall_lookup_1 _ _ i _ Hbytes). apply list_lookup_lookup_total_lt. lia.
Qed.

(** ** The shifts miss nothing *)

(** An occurrence [s] further on makes the part that matches repeat. *)
Lemma shifted h s i : occ (h + s) -> (s <= i < s + l)%nat -> hay !!! (h + i)%nat = N !!! (i - s)%nat.
Proof.
  intros [_ Ho] Hi. rewrite <-(Ho (i - s)%nat) by lia. f_equal; lia.
Qed.

(** The last byte is not in the needle, or further to the left. *)
Lemma shift_absent h s : (forall i, (i < l)%nat -> N !!! i <> hay !!! (h + l - 1)%nat) ->
  (s < l)%nat -> ~ occ (h + s).
Proof.
  intros Hno Hs Ho. apply (Hno (l - 1 - s)%nat); [lia|]. symmetry.
  rewrite <-(Nat.add_sub_assoc h l 1) by lia. rewrite (shifted h s) by (done || lia). f_equal; lia.
Qed.

Lemma shift_table h s i : (i < l)%nat -> (forall j, (i < j < l)%nat -> N !!! j <> hay !!! (h + l - 1)%nat) ->
  (s < l - 1 - i)%nat -> ~ occ (h + s).
Proof.
  intros Hi Hlast Hs Ho. apply (Hlast (l - 1 - s)%nat); [lia|]. symmetry.
  rewrite <-(Nat.add_sub_assoc h l 1) by lia. rewrite (shifted h s) by (done || lia). f_equal; lia.
Qed.

(** With a remembered prefix a mismatch of the last byte allows a shift by its length. *)
Lemma shift_mem h mem s : mem_ok h mem -> hay !!! (h + l - 1)%nat <> N !!! (l - 1)%nat ->
  (1 <= s < mem)%nat -> ~ occ (h + s).
Proof.
  intros [->|(-> & Hne & Hm)] Hdiff Hs Ho; [lia|].
  destruct (fact_mem _ _ _ _ Hf) as [|(Emem & Hper & Hap)]; [lia|]. pose proof (fact_p _ _ _ _ Hf).
  apply Hdiff. rewrite <-(Nat.add_sub_assoc h l 1), (shifted h s) by (done || lia).
  pose proof (Hper (l - 1 - s - p)%nat ltac:(lia) ltac:(lia)) as E1.
  pose proof (Hper (l - 1 - p)%nat ltac:(lia) ltac:(lia)) as E2. simpl in E1, E2.
  replace (l - 1 - s - p + p)%nat with (l - 1 - s)%nat in E1 by lia.
  replace (l - 1 - p + p)%nat with (l - 1)%nat in E2 by lia. rewrite <-E1, <-E2.
  rewrite <-(Hm (l - 1 - p)%nat), (shifted h s) by (done || lia). f_equal; lia.
Qed.

(** A difference in the right half. *)
Lemma shift_right h k s : (a <= k < l)%nat -> (forall i, (a <= i < k)%nat -> hay !!! (h + i)%nat = N !!! i) ->
  hay !!! (h + k)%nat <> N !!! k -> (1 <= s <= k - a)%nat -> ~ occ (h + s).
Proof.
  intros Hk Hright Hdiff Hs Ho. destruct (fact_critical _ _ _ _ Hf s) as [_ Hper]; [lia|..].
  { intros i Hi Hai Hil. simpl. rewrite <-(Hright (i + s)%nat) by lia. rewrite (shifted h s) by (done || lia). f_equal; lia. }
  apply Hdiff. rewrite (shifted h s) by (done || lia). rewrite (Hper (k - s)%nat) by lia. f_equal; lia.
Qed.

(** A difference in the left half. *)
Lemma shift_left h s : (forall i, (a <= i < l)%nat -> hay !!! (h + i)%nat = N !!! i) ->
  (1 <= s < p)%nat -> ~ occ (h + s).
Proof.
  intros Hright Hs Ho. pose proof (fact_shift _ _ _ _ Hf s) as Hshift. pose proof (fact_p _ _ _ _ Hf).
  assert (p <= s)%nat; [|lia]. apply Hshift; [lia|].
  intros i Hi Hai Hil. simpl. rewrite <-(Hright (i + s)%nat) by lia. rewrite (shifted h s) by (done || lia). f_equal; lia.
Qed.

Lemma left_half_spec fuel h mem k : (h + l <= L)%nat -> (mem <= k <= l)%nat -> (k - mem < fuel)%nat ->
  exists k', left_half fuel n hay (Z.of_nat h) (Z.of_nat mem) (Z.of_nat k) = Ok (Z.of_nat k') /\ (mem <= k' <= k)%nat /\
    (forall i, (k' <= i < k)%nat -> hay !!! (h + i)%nat = N !!! i) /\
    ((mem < k')%nat -> hay !!! (h + (k' - 1))%nat <> N !!! (k' - 1)%nat).
Proof.
  revert k. induction fuel as [|fuel IH]; intros k Hh Hk Hfuel; [lia|]. simpl.
  destruct (Z.gtb_spec (Z.of_nat k) (Z.of_nat mem)).
  2: { exists k. split_and!; [done|lia|lia|intros i ?; lia|lia]. }
  replace (Z.of_nat k - 1) with (Z.of_nat (k - 1)) by lia.
  replace (Z.of_nat h + Z.of_nat k - 1) with (Z.of_nat (h + (k - 1))) by lia.
  rewrite rd_needle, rd_hay by lia. cbn [obind]. destruct (Z.eqb_spec (N !!! (k - 1)%nat) (hay !!! (h + (k - 1))%nat)) as [E|E].
  - destruct (IH (k - 1)%nat) as (k' & Hk' & Hr & Hall & Hne); [lia..|]. exists k'. split_and!; [done|lia|lia| |done].
    intros i Hi. destruct (decide (i = k - 1)%nat) as [->|]; [done|]. apply Hall. lia.
  - exists k. split_and!; [done|lia|lia|intros i ?; lia|congruence].
Qed.

(** The turn goes on from [h'] with [mem'], and nothing is missed on the way. *)
Definition advances (h h' mem' : nat) : Prop :=
  (h < h' <= h + l)%nat /\ mem_ok h' mem' /\ forall j, (h <= j < h')%nat -> ~ occ j.

Lemma advance_by h s : (1 <= s <= l)%nat -> (forall s', (s' < s)%nat -> ~ occ (h + s')) -> advances h (h + s) 0.
Proof.
  intros Hs Hno. split_and!; [lia|lia|by left|]. intros j Hj. replace j with (h + (j - h))%nat by lia. apply Hno. lia.
Qed.

Lemma mem_lt h mem : mem_ok h mem -> (mem < l)%nat.
Proof.
  pose proof (fact_a _ _ _ _ Hf). pose proof (fact_p _ _ _ _ Hf).
  intros [->|(-> & Hne & _)]; [lia|]. destruct (fact_mem _ _ _ _ Hf) as [|(-> & _)]; lia.
Qed.

(** Both halves match up to a remembered prefix. *)
Lemma halves_match h mem k : mem_ok h mem -> (h + l <= L)%nat -> (k <= mem)%nat ->
  (forall i, (k <= i < a)%nat -> hay !!! (h + i)%nat = N !!! i) ->
  (forall i, (Nat.max a mem <= i < l)%nat -> hay !!! (h + i)%nat = N !!! i) -> occ h.
Proof.
  intros Hmem Hh Hk Hleft Hright. split; [done|]. intros i Hi.
  destruct (decide (i < mem)%nat) as [Him|].
  - destruct Hmem as [->|(-> & _ & Hm)]; [lia|by apply Hm].
  - destruct (decide (i < a)%nat); [apply Hleft; lia|apply Hright; lia].
Qed.

Lemma right_matches h mem k : mem_ok h mem -> (a <= k)%nat ->
  (forall i, (Nat.max a mem <= i < k)%nat -> hay !!! (h + i)%nat = N !!! i) ->
  forall i, (a <= i < k)%nat -> hay !!! (h + i)%nat = N !!! i.
Proof.
  intros Hmem Hk Hright i Hi. destruct (decide (i < mem)%nat) as [Him|].
  - destruct Hmem as [->|(-> & _ & Hm)]; [lia|by apply Hm].
  - apply Hright. lia.
Qed.

(** After a shift by the period the beginning of the needle matches. *)
Lemma remember h : (forall i, (a <= i < l)%nat -> hay !!! (h + i)%nat = N !!! i) -> mem_ok (h + p) mem0.
Proof.
  intros Hright. destruct (decide (mem0 = 0%nat)) as [|Hne]; [by left|]. right. split_and!; [done..|].
  destruct (fact_mem _ _ _ _ Hf) as [|(Emem & Hper & Hap)]; [done|]. intros i Hi.
  rewrite (Hper i) by lia. rewrite <-(Hright (i + p)%nat) by lia. f_equal. lia.
Qed.

Lemma twoway_step_spec right_half h mem : right_ok right_half -> (h + l <= L)%nat -> mem_ok h mem -> exists r,
  twoway_step right_half n hay (Z.of_nat l) (wrapU 64 (Z.of_nat a - 1)) (Z.of_nat p) (Z.of_nat mem0) t (Z.of_nat h) (Z.of_nat mem) = Ok r /\
  match r with
  | inr i => i = Z.of_nat h /\ occ h
  | inl (h', mem') => exists h1 m1, h' = Z.of_nat h1 /\ mem' = Z.of_nat m1 /\ advances h h1 m1
  end.
Proof.
  intros Hright Hh Hmem. pose proof (fact_a _ _ _ _ Hf) as Ha. pose proof (fact_p _ _ _ _ Hf) as Hp.
  pose proof (mem_lt _ _ Hmem) as Hml. unfold twoway_step.
  replace (Z.of_nat h + Z.of_nat l - 1) with (Z.of_nat (h + l - 1)) by lia. rewrite rd_hay by lia. cbn [obind].
  set (c := hay !!! (h + l - 1)%nat). assert (Hc : 0 <= c < 256) by (apply hay_byte; lia).
  destruct Ht as [Hwf Htab]. rewrite table_has_spec by done. cbn [obind]. specialize (Htab c Hc).
  destruct (in_set t c); cbn [negb].
  2: { eexists. split; [done|]. exists (h + l)%nat, 0%nat. split_and!; [lia|done|]. apply advance_by; [lia|].
       intros s Hs. by apply shift_absent. }
  destruct Htab as (i & Hi & Ei & Hlast & ->). cbn [obind].
  replace (Z.of_nat l - (Z.of_nat i + 1)) with (Z.of_nat (l - 1 - i)) by lia. rewrite wrapU_small by lia.
  destruct (Z.eqb_spec (Z.of_nat (l - 1 - i)) 0) as [E0|E0]; cbn [negb].
  2: { eexists. split; [done|].
       exists (h + (if (l - 1 - i <? mem)%nat then mem else l - 1 - i))%nat, 0%nat. split_and!; [|done|].
       { destruct (Z.ltb_spec (Z.of_nat (l - 1 - i)) (Z.of_nat mem)), (Nat.ltb_spec (l - 1 - i) mem); lia. }
       assert (Hd : c <> N !!! (l - 1)%nat) by (intros E; apply (Hlast (l - 1)%nat); [lia|done]).
       assert (Hsh : forall s, (s < l - 1 - i)%nat -> ~ occ (h + s)) by (intros s Hs; by apply (shift_table h s i)).
       destruct (Nat.ltb_spec (l - 1 - i) mem); apply advance_by; [lia| |lia|done].
       intros s Hs. destruct (decide (s < l - 1 - i)%nat); [by apply Hsh|]. by apply (shift_mem h mem); [..|lia]. }
  rewrite wrapU_add_l, Z.sub_add, (wrapU_small 64 (Z.of_nat a)) by lia.
  replace (Z.max (Z.of_nat a) (Z.of_nat mem)) with (Z.of_nat (Nat.max a mem)) by lia.
  destruct (Hright h (Nat.max a mem)) as (k & differs & -> & Hk & Hall & Hdiff); [lia..|]. cbn [obind].
  destruct differs.
  - destruct Hdiff as [Hkl Hne]. eexists. split; [done|]. exists (h + (k - a + 1))%nat, 0%nat.
    split_and!; [rewrite wrapU_sub_r, wrapU_small; lia|done|]. apply advance_by; [lia|].
    intros s Hs. destruct (decide (s = 0)%nat) as [->|].
    { intros [_ Ho]. apply Hne. rewrite <-(Ho k) by lia. f_equal. lia. }
    apply (shift_right h k); [lia| |done|lia]. by apply (right_matches h mem k); [|lia|].
  - subst k. pose proof (right_matches h mem l Hmem ltac:(lia) Hall) as Hr.
    destruct (decide (mem <= a)%nat) as [Hma|Hma].
    + destruct (left_half_spec (Z.to_nat (Z.of_nat l) + 1) h mem a) as (k & -> & Hk' & Hleft & Hne); [lia..|]. cbn [obind].
      destruct (Z.leb_spec (Z.of_nat k) (Z.of_nat mem)).
      * eexists. split; [done|]. split; [done|]. by apply (halves_match h mem k); [..|lia| |].
      * eexists. split; [done|]. exists (h + p)%nat, mem0. split_and!; [lia|done|]. split_and!; [lia|lia|by apply remember|].
        intros j Hj. destruct (decide (j = h)) as [->|].
        { intros [_ Ho]. apply Hne; [lia|]. apply Ho. lia. }
        replace j with (h + (j - h))%nat by lia. apply shift_left; [done|lia].
    + destruct (Z.to_nat (Z.of_nat l) + 1)%nat as [|fuel] eqn:Efuel; [lia|]. simpl.
      destruct (Z.gtb_spec (Z.of_nat a) (Z.of_nat mem)); [lia|]. cbn [obind].
      rewrite (proj2 (Z.leb_le _ _)) by lia. eexists. split; [done|]. split; [done|].
      apply (halves_match h mem a); [done|done|lia|intros ? ?; lia|done].
Qed.

(** ** The loops *)

(** The first occurrence from [h] on. *)
Definition first_occ (h : nat) (r : option Z) : Prop :=
  match r with
  | Some i => exists j, i = Z.of_nat j /\ occ j /\ forall j', (h <= j' < j)%nat -> ~ occ j'
  | None => forall j, (h <= j)%nat -> ~ occ j
  end.

Lemma first_occ_skip h h' r : (h <= h')%nat -> (forall j, (h <= j < h')%nat -> ~ occ j) -> first_occ h' r -> first_occ h r.
Proof.
  clear Hlen HL Hhay Hbytes Hf Ht. intros Hle Hno. destruct r as [i|]; simpl.
  - intros (j & -> & Ho & Hbefore). exists j. split_and!; [done..|]. intros j' Hj'.
    destruct (decide (j' < h')%nat); [apply Hno; lia|apply Hbefore; lia].
  - intros Hall j Hj. destruct (decide (j < h')%nat); [apply Hno; lia|apply Hall; lia].
Qed.

Lemma too_short h : (L < h + l)%nat -> first_occ h None.
Proof. intros Hs j Hj [Ho _]. clear - Hs Hj Ho. lia. Qed.

Lemma right_memmem_spec fuel h k : (h + l <= L)%nat -> (k <= l)%nat -> (l - k < fuel)%nat -> exists k' differs,
  right_memmem fuel n hay (Z.of_nat l) (Z.of_nat h) (Z.of_nat k) = Ok (Z.of_nat k', differs) /\ (k <= k' <= l)%nat /\
  (forall i, (k <= i < k')%nat -> hay !!! (h + i)%nat = N !!! i) /\
  if differs : bool then (k' < l)%nat /\ hay !!! (h + k')%nat <> N !!! k' else k' = l.
Proof.
  revert k. induction fuel as [|fuel IH]; intros k Hh Hk Hfuel; [lia|]. simpl.
  destruct (Z.ltb_spec (Z.of_nat k) (Z.of_nat l)).
  2: { exists k, false. split_and!; [done|lia|lia|intros i ?; lia|lia]. }
  replace (Z.of_nat h + Z.of_nat k) with (Z.of_nat (h + k)) by lia. rewrite rd_needle, rd_hay by lia. cbn [obind].
  destruct (Z.eqb_spec (N !!! k) (hay !!! (h + k)%nat)) as [E|E].
  - replace (Z.of_nat k + 1) with (Z.of_nat (S k)) by lia. destruct (IH (S k)) as (k' & d & Hk' & Hr & Hall & Hd); [lia..|].
    exists k', d. split_and!; [done|lia|lia| |done]. intros i Hi. destruct (decide (i = k)) as [->|]; [done|]. apply Hall. lia.
  - exists k, true. split_and!; [done|lia|lia|intros i ?; lia|lia|congruence].
Qed.

Lemma twoway_memmem_loop_spec fuel h mem : (h <= L)%nat -> mem_ok h mem -> (L - h < fuel)%nat -> exists r,
  twoway_memmem_loop fuel hay (Z.of_nat L) n (Z.of_nat l) (wrapU 64 (Z.of_nat a - 1)) (Z.of_nat p) (Z.of_nat mem0) t
    (Z.of_nat h) (Z.of_nat mem) = Ok r /\ first_occ h r.
Proof.
  revert h mem. induction fuel as [|fuel IH]; intros h mem Hh Hmem Hfuel; [lia|]. cbn [twoway_memmem_loop].
  rewrite (wrapU_small 64 (Z.of_nat L - Z.of_nat h)) by lia. destruct (Z.ltb_spec (Z.of_nat L - Z.of_nat h) (Z.of_nat l)).
  { exists None. split; [done|]. apply too_short. lia. }
  destruct (twoway_step_spec (right_memmem (Z.to_nat (Z.of_nat l) + 1) n hay (Z.of_nat l)) h mem) as (r & -> & Hr); [|lia|done|].
  { intros h' k' ? ?. apply right_memmem_spec; lia. }
  cbn [obind]. destruct r as [[h' mem']|i].
  - destruct Hr as (h1 & m1 & -> & -> & Hadv & Hm & Hno). destruct (IH h1 m1) as (r & Hr & Hocc); [lia|done|lia|].
    exists r. split; [done|]. apply (first_occ_skip h h1); [lia|done|done].
  - destruct Hr as [-> Ho]. exists (Some (Z.of_nat h)). split; [done|]. exists h. split_and!; [done..|]. intros j ?. lia.
Qed.
End search.

(** The search of memmem. *)
Lemma twoway_memmem_spec N u hay L h : Z.of_nat (length N) < 2 ^ 63 -> (L <= length hay)%nat ->
  Z.of_nat (length hay) < 2 ^ 63 -> Forall (fun c => 0 <= c < 256) N -> Forall (fun c => 0 <= c < 256) hay ->
  (1 <= length N)%nat -> (h <= L)%nat ->
  exists r, twoway_memmem hay (Z.of_nat h) (Z.of_nat L) (N ++ u) (Z.of_nat (length N)) = Ok r /\ first_occ N hay L h r.
Proof.
  intros Hlen HL Hhay HbN Hb Hl Hh. unfold twoway_memmem. rewrite Nat2Z.id.
  destruct (fill_memmem_spec N u HbN (length N) 0 no_tables (tables_for_none N) ltac:(lia)) as (t & E & Ht).
  change (Z.of_nat 0) with 0 in E. rewrite E. cbn [obind].
  destruct (factorize_spec N u Hlen Hl) as (a & p & mem0 & -> & Hf). cbn [obind].
  apply (twoway_memmem_loop_spec N u hay L a p mem0 t) with (mem := 0%nat); try done; [by left|lia].
Qed.

(** * Strings *)

Lemma cstring_nonzero s i : cstring s -> (i < length s)%nat -> 0 < s !!! i < 256.
Proof. intros Hs Hi. apply (Forall_lookup_1 _ _ i _ Hs). by apply list_lookup_lookup_total_lt. Qed.

Lemma terminator (s t : list Z) : (s ++ 0 :: t) !!! length s = 0.
Proof. by rewrite lookup_total_app_r, Nat.sub_diag by lia. Qed.

Lemma memchr_zero s t g : cstring s ->
  memchr (s ++ 0 :: t) 0 g = Some (if (length s <? g)%nat then Some (length s) else None).
Proof.
  intros Hs. revert g. induction Hs as [|c s Hc Hs IH]; intros [|g]; try done. cbn [app memchr length].
  change (wrapU 8 0) with 0. destruct (Z.eqb_spec c 0); [lia|]. rewrite IH. cbn [option_map].
  destruct (Nat.ltb_spec (length s) g), (Nat.ltb_spec (S (length s)) (S g)); done || lia.
Qed.

Lemma rd_terminator (v w : list Z) : rd (v ++ 0 :: w) (Z.of_nat (length v)) = Ok 0.
Proof. rewrite rd_lookup by (rewrite length_app; simpl; lia). by rewrite terminator. Qed.

Lemma rd_string (v w : list Z) i : cstring v -> (i <= length v)%nat ->
  exists c, rd (v ++ 0 :: w) (Z.of_nat i) = Ok c /\ (c = 0 <-> i = length v) /\ ((i < length v)%nat -> c = v !!! i).
Proof.
  intros Hv Hi. destruct (decide (i = length v)) as [->|].
  - exists 0. rewrite rd_terminator. split_and!; [done..|lia].
  - exists (v !!! i). rewrite rd_needle by lia. pose proof (cstring_nonzero v i Hv ltac:(lia)). split_and!; [done|lia|done].
Qed.

Section strings.
Context (s t0 N u : list Z) (Hs : cstring s) (HN : cstring N).
Context (Hlen : Z.of_nat (length N) < 2 ^ 63) (Hhay : Z.of_nat (length (s ++ 0 :: t0)) < 2 ^ 63).
Context (Hbytes : Forall (fun c => 0 <= c < 256) (s ++ 0 :: t0)).

Local Abbreviation hay := (s ++ 0 :: t0).
Local Abbreviation n := (N ++ 0 :: u).
Local Abbreviation l := (length N).
Local Abbreviation L := (length s).

Lemma L_hay : (L <= length hay)%nat.
Proof. rewrite length_app. lia. Qed.

Lemma right_strstr_spec fuel h k : (h + l <= L)%nat -> (k <= l)%nat -> (l - k < fuel)%nat -> exists k' differs,
  right_strstr fuel n hay (Z.of_nat h) (Z.of_nat k) = Ok (Z.of_nat k', differs) /\ (k <= k' <= l)%nat /\
  (forall i, (k <= i < k')%nat -> hay !!! (h + i)%nat = N !!! i) /\
  if differs : bool then (k' < l)%nat /\ hay !!! (h + k')%nat <> N !!! k' else k' = l.
Proof.
  revert k. induction fuel as [|fuel IH]; intros k Hh Hk Hfuel; [lia|]. cbn [right_strstr].
  destruct (rd_string N u k HN Hk) as (c & -> & Hz & Hc). cbn [obind]. destruct (Z.eqb_spec c 0) as [E0|E0].
  { apply Hz in E0 as ->. exists l, false. split_and!; [done|lia|lia|intros i ?; lia|done]. }
  assert (k < l)%nat by (destruct (decide (k = l)); [by destruct E0; apply Hz|lia]). rewrite Hc by lia.
  replace (Z.of_nat h + Z.of_nat k) with (Z.of_nat (h + k)) by lia.
  rewrite rd_lookup by (pose proof L_hay; lia). cbn [obind].
  destruct (Z.eqb_spec (N !!! k) (hay !!! (h + k)%nat)) as [E|E].
  - replace (Z.of_nat k + 1) with (Z.of_nat (S k)) by lia. destruct (IH (S k)) as (k' & d & Hk' & Hr & Hall & Hd); [lia..|].
    exists k', d. split_and!; [done|lia|lia| |done]. intros i Hi. destruct (decide (i = k)) as [->|]; [done|]. apply Hall. lia.
  - exists k, true. split_and!; [done|lia|lia|intros i ?; lia|lia|congruence].
Qed.

Lemma grow_haystack_spec h z : (1 <= l)%nat -> (h <= z <= L)%nat -> exists r,
  grow_haystack hay (Z.of_nat l) (Z.of_nat h) (Z.of_nat z) = Ok r /\
  match r with None => (L < h + l)%nat | Some z' => exists z1, z' = Z.of_nat z1 /\ (z <= z1 <= L)%nat /\ (h + l <= z1)%nat end.
Proof.
  intros Hl Hz. pose proof L_hay. unfold grow_haystack. rewrite (wrapU_small 64 (Z.of_nat z - Z.of_nat h)) by lia.
  destruct (Z.ltb_spec (Z.of_nat z - Z.of_nat h) (Z.of_nat l)).
  2: { eexists. split; [done|]. exists z. split_and!; [done|lia..]. }
  rewrite Nat2Z.id, drop_app_le by lia. rewrite memchr_zero by (by apply Forall_drop). rewrite length_drop. cbn [run obind].
  pose proof (lor_ge (Z.of_nat l) 63 ltac:(lia) ltac:(lia)) as Hge.
  destruct (Nat.ltb_spec (L - z) (Z.to_nat (Z.lor (Z.of_nat l) 63))).
  - rewrite wrapU_small by lia. eexists. split; [done|].
    destruct (Z.ltb_spec (Z.of_nat z + Z.of_nat (L - z) - Z.of_nat h) (Z.of_nat l)); [lia|].
    exists L. split_and!; [lia..|lia].
  - eexists. split; [done|]. exists (z + Z.to_nat (Z.lor (Z.of_nat l) 63))%nat. split_and!; lia.
Qed.

Section loop.
Context (a p mem0 : nat) (t : tables) (Hf : factorization N a p mem0) (Ht : tables_for N l t) (Hl : (1 <= l)%nat).

Lemma twoway_strstr_loop_spec fuel z h mem : (h <= z <= L)%nat -> mem_ok N hay mem0 h mem -> (L - h < fuel)%nat -> exists r,
  twoway_strstr_loop fuel hay n (Z.of_nat l) (wrapU 64 (Z.of_nat a - 1)) (Z.of_nat p) (Z.of_nat mem0) t
    (Z.of_nat z) (Z.of_nat h) (Z.of_nat mem) = Ok r /\ first_occ N hay L h r.
Proof.
  revert z h mem. induction fuel as [|fuel IH]; intros z h mem Hz Hmem Hfuel; [lia|]. cbn [twoway_strstr_loop].
  destruct (grow_haystack_spec h z Hl Hz) as ([z'|] & -> & Hr); cbn [obind].
  2: { exists None. split; [done|]. by apply too_short. }
  destruct Hr as (z1 & -> & Hz1 & Hh). pose proof L_hay.
  destruct (twoway_step_spec N (0 :: u) hay L a p mem0 t Hlen L_hay Hhay Hbytes Hf Ht
              (right_strstr (Z.to_nat (Z.of_nat l) + 1) n hay) h mem) as (r & -> & Hr); [|lia|done|].
  { intros h' k' ? ?. apply right_strstr_spec; lia. }
  cbn [obind]. destruct r as [[h' mem']|i].
  - destruct Hr as (h1 & m1 & -> & -> & Hadv & Hm & Hno). destruct (IH z1 h1 m1) as (r & Hr & Hocc); [lia|done|lia|].
    exists r. split; [done|]. apply (first_occ_skip N hay L h h1); [lia|done|done].
  - destruct Hr as [-> Ho]. exists (Some (Z.of_nat h)). split; [done|]. exists h. split_and!; [done..|]. intros j ?. lia.
Qed.
End loop.

Lemma fill_strstr_spec fuel h m t : (h <= L)%nat -> (m <= l)%nat -> (h + m <= L)%nat -> (l - m < fuel)%nat -> tables_for N m t ->
  exists m' t', fill_strstr fuel hay (Z.of_nat h) n (Z.of_nat m) t = Ok (Z.of_nat m', t') /\ tables_for N m' t' /\
    (m' = l \/ (m' < l)%nat /\ (h + m' = L)%nat).
Proof.
  revert m t. induction fuel as [|fuel IH]; intros m t Hh Hm HhL Hfuel Ht; [lia|]. cbn [fill_strstr].
  destruct (rd_string N u m HN Hm) as (c & -> & Hz & Hc). cbn [obind]. destruct (Z.eqb_spec c 0) as [E0|E0].
  { apply Hz in E0. exists m, t. split_and!; [done..|by left]. }
  assert (m < l)%nat by (destruct (decide (m = l)); [by destruct E0; apply Hz|lia]). rewrite Hc by lia.
  replace (Z.of_nat h + Z.of_nat m) with (Z.of_nat (h + m)) by lia.
  destruct (rd_string s t0 (h + m) Hs HhL) as (d & -> & Hzd & _). cbn [obind]. destruct (Z.eqb_spec d 0) as [E1|E1].
  { apply Hzd in E1. exists m, t. split_and!; [done..|right; lia]. }
  destruct (tables_for_add N ltac:(eapply Forall_impl; [exact HN|simpl; lia]) t m Ht) as (t' & -> & Ht'); [lia|]. cbn [obind].
  replace (Z.of_nat m + 1) with (Z.of_nat (S m)) by lia.
  apply IH; [done|lia| |lia|done]. destruct (decide (h + m = L)%nat); [by destruct E1; apply Hzd|lia].
Qed.

Lemma twoway_strstr_spec h : (1 <= l)%nat -> (h <= L)%nat ->
  exists r, twoway_strstr hay (Z.of_nat h) n = Ok r /\ first_occ N hay L h r.
Proof.
  intros Hl Hh. unfold twoway_strstr.
  destruct (fill_strstr_spec (length n + 1) h 0 no_tables) as (m & t & E & Ht & Hm); [lia|lia|lia| |apply tables_for_none|].
  { rewrite length_app. lia. }
  change (Z.of_nat 0) with 0 in E. rewrite E. cbn [obind]. destruct Hm as [->|[Hm HhL]].
  - rewrite rd_terminator. cbn [obind]. destruct (factorize_spec N (0 :: u) Hlen Hl) as (a & p & mem0 & -> & Hf). cbn [obind negb Z.eqb].
    apply (twoway_strstr_loop_spec a p mem0 t Hf Ht Hl) with (mem := 0%nat); [lia|by left|]. rewrite length_app. lia.
  - destruct (rd_string N u m HN ltac:(lia)) as (c & -> & Hz & _). cbn [obind].
    destruct (Z.eqb_spec c 0) as [E0|]; [apply Hz in E0; lia|]. cbn [negb]. exists None. split; [done|]. apply too_short. lia.
Qed.
End strings.

(** * Short needles *)

Definition enc2 (l : list Z) (i : nat) : Z := l !!! i * 2 ^ 8 + l !!! (i + 1)%nat.
Definition enc3 (l : list Z) (i : nat) : Z := (l !!! i * 2 ^ 16 + l !!! (i + 1)%nat * 2 ^ 8 + l !!! (i + 2)%nat) * 2 ^ 8.
Definition enc4 (l : list Z) (i : nat) : Z :=
  l !!! i * 2 ^ 24 + l !!! (i + 1)%nat * 2 ^ 16 + l !!! (i + 2)%nat * 2 ^ 8 + l !!! (i + 3)%nat.

Lemma lor_shift8 h c : 0 <= c < 256 -> Z.lor (Z.shiftl h 8) c = h * 2 ^ 8 + c.
Proof. intros Hc. rewrite Z.shiftl_mul_pow2 by lia. apply lor_low_bits; lia. Qed.

Lemma lor_aligned h c : 0 <= c < 256 -> Z.lor (h * 2 ^ 8) c = h * 2 ^ 8 + c.
Proof. intros Hc. apply lor_low_bits; lia. Qed.

Lemma wrapU_drop w m q r : 0 < m -> 0 <= r < m -> 2 ^ w = m -> wrapU w (q * m + r) = r.
Proof. intros Hm Hr E. unfold wrapU. rewrite E, Z.add_comm, Z.mod_add by lia. by apply Z.mod_small. Qed.

Lemma next2_spec a b c : 0 <= b < 256 -> 0 <= c < 256 -> next2 (a * 2 ^ 8 + b) c = b * 2 ^ 8 + c.
Proof.
  intros Hb Hc. unfold next2. rewrite lor_shift8 by done.
  replace ((a * 2 ^ 8 + b) * 2 ^ 8 + c) with (a * 65536 + (b * 2 ^ 8 + c)) by lia. apply wrapU_drop; lia.
Qed.

Lemma next3_spec a b c d : 0 <= b < 256 -> 0 <= c < 256 -> 0 <= d < 256 ->
  next3 ((a * 2 ^ 16 + b * 2 ^ 8 + c) * 2 ^ 8) d = (b * 2 ^ 16 + c * 2 ^ 8 + d) * 2 ^ 8.
Proof.
  intros Hb Hc Hd. unfold next3. rewrite lor_aligned, Z.shiftl_mul_pow2 by lia.
  replace (((a * 2 ^ 16 + b * 2 ^ 8 + c) * 2 ^ 8 + d) * 2 ^ 8)
    with (a * 4294967296 + (b * 2 ^ 16 + c * 2 ^ 8 + d) * 2 ^ 8) by lia. apply wrapU_drop; lia.
Qed.

Lemma next4_spec a b c d e : 0 <= b < 256 -> 0 <= c < 256 -> 0 <= d < 256 -> 0 <= e < 256 ->
  next4 (a * 2 ^ 24 + b * 2 ^ 16 + c * 2 ^ 8 + d) e = b * 2 ^ 24 + c * 2 ^ 16 + d * 2 ^ 8 + e.
Proof.
  intros Hb Hc Hd He. unfold next4. rewrite lor_shift8 by done.
  replace ((a * 2 ^ 24 + b * 2 ^ 16 + c * 2 ^ 8 + d) * 2 ^ 8 + e)
    with (a * 4294967296 + (b * 2 ^ 24 + c * 2 ^ 16 + d * 2 ^ 8 + e)) by lia. apply wrapU_drop; lia.
Qed.

Lemma byte_at l i : Forall (fun c => 0 <= c < 256) l -> (i < length l)%nat -> 0 <= l !!! i < 256.
Proof. intros Hl Hi. apply (Forall_lookup_1 _ _ i _ Hl). by apply list_lookup_lookup_total_lt. Qed.

Lemma word2_spec l v i : Forall (fun c => 0 <= c < 256) l -> (i + 2 <= length l)%nat ->
  word2 (l ++ v) (Z.of_nat i) = Ok (enc2 l i).
Proof.
  intros Hl Hi. unfold word2. replace (Z.of_nat i + 1) with (Z.of_nat (i + 1)) by lia. rewrite !rd_needle by lia. cbn [obind].
  pose proof (byte_at l i Hl). pose proof (byte_at l (i + 1) Hl). rewrite lor_shift8, wrapU_small by lia. done.
Qed.

Lemma word3_spec l v i : Forall (fun c => 0 <= c < 256) l -> (i + 3 <= length l)%nat ->
  word3 (l ++ v) (Z.of_nat i) = Ok (enc3 l i).
Proof.
  intros Hl Hi. unfold word3. replace (Z.of_nat i + 1) with (Z.of_nat (i + 1)) by lia.
  replace (Z.of_nat i + 2) with (Z.of_nat (i + 2)) by lia. rewrite !rd_needle by lia. cbn [obind].
  pose proof (byte_at l i Hl). pose proof (byte_at l (i + 1) Hl). pose proof (byte_at l (i + 2) Hl).
  rewrite !Z.shiftl_mul_pow2, (lor_low_bits 24) by lia.
  replace (l !!! i * 2 ^ 24 + l !!! (i + 1)%nat * 2 ^ 16) with ((l !!! i * 2 ^ 8 + l !!! (i + 1)%nat) * 2 ^ 16) by lia.
  rewrite (lor_low_bits 16), wrapU_small by lia. unfold enc3. f_equal. lia.
Qed.

Lemma word4_spec l v i : Forall (fun c => 0 <= c < 256) l -> (i + 4 <= length l)%nat ->
  word4 (l ++ v) (Z.of_nat i) = Ok (enc4 l i).
Proof.
  intros Hl Hi. unfold word4. replace (Z.of_nat i + 1) with (Z.of_nat (i + 1)) by lia.
  replace (Z.of_nat i + 2) with (Z.of_nat (i + 2)) by lia. replace (Z.of_nat i + 3) with (Z.of_nat (i + 3)) by lia.
  rewrite !rd_needle by lia. cbn [obind].
  pose proof (byte_at l i Hl). pose proof (byte_at l (i + 1) Hl). pose proof (byte_at l (i + 2) Hl). pose proof (byte_at l (i + 3) Hl).
  rewrite !Z.shiftl_mul_pow2, (lor_low_bits 24) by lia.
  replace (l !!! i * 2 ^ 24 + l !!! (i + 1)%nat * 2 ^ 16) with ((l !!! i * 2 ^ 8 + l !!! (i + 1)%nat) * 2 ^ 16) by lia.
  rewrite (lor_low_bits 16) by lia.
  replace ((l !!! i * 2 ^ 8 + l !!! (i + 1)%nat) * 2 ^ 16 + l !!! (i + 2)%nat * 2 ^ 8)
    with ((l !!! i * 2 ^ 16 + l !!! (i + 1)%nat * 2 ^ 8 + l !!! (i + 2)%nat) * 2 ^ 8) by lia.
  rewrite (lor_low_bits 8), wrapU_small by lia. unfold enc4. f_equal. lia.
Qed.

(** A window of [m] bytes and its code. *)
Record window (m : nat) (next : Z -> Z -> Z) (enc : list Z -> nat -> Z) : Prop := {
  window_pos : (1 <= m)%nat;
  window_next : forall l i, Forall (fun c => 0 <= c < 256) l -> (i + m < length l)%nat ->
    next (enc l i) (l !!! (i + m)%nat) = enc l (i + 1)%nat;
  window_inj : forall l l' i, Forall (fun c => 0 <= c < 256) l -> Forall (fun c => 0 <= c < 256) l' ->
    (i + m <= length l)%nat -> (m <= length l')%nat ->
    (enc l i = enc l' 0%nat <-> forall k, (k < m)%nat -> l !!! (i + k)%nat = l' !!! k)
}.

(** The bytes of a window are its letters. *)
Ltac window_bytes l i m Hl :=
  lazymatch m with
  | O => idtac
  | S ?m => pose proof (byte_at l (i + m)%nat Hl ltac:(lia)); window_bytes l i m Hl
  end.

Lemma window2 : window 2 next2 enc2.
Proof.
  constructor; [lia|..].
  - intros l i Hl Hi. unfold enc2. window_bytes l i 3%nat Hl. rewrite next2_spec by lia. by rewrite <-Nat.add_assoc.
  - intros l l' i Hl Hl' Hi Hl2. unfold enc2. window_bytes l i 2%nat Hl. window_bytes l' 0%nat 2%nat Hl'.
    rewrite ?Nat.add_0_r in *. simpl Nat.add in *. split.
    + intros E [|[|k]] Hk; rewrite ?Nat.add_0_r; lia.
    + intros E. pose proof (E 0%nat ltac:(lia)) as E0. pose proof (E 1%nat ltac:(lia)). rewrite Nat.add_0_r in E0. congruence.
Qed.

Lemma window3 : window 3 next3 enc3.
Proof.
  constructor; [lia|..].
  - intros l i Hl Hi. unfold enc3. window_bytes l i 4%nat Hl. rewrite next3_spec by lia. by rewrite <-!Nat.add_assoc.
  - intros l l' i Hl Hl' Hi Hl2. unfold enc3. window_bytes l i 3%nat Hl. window_bytes l' 0%nat 3%nat Hl'.
    rewrite ?Nat.add_0_r in *. simpl Nat.add in *. split.
    + intros E [|[|[|k]]] Hk; rewrite ?Nat.add_0_r; lia.
    + intros E. pose proof (E 0%nat ltac:(lia)) as E0. pose proof (E 1%nat ltac:(lia)). pose proof (E 2%nat ltac:(lia)).
      rewrite Nat.add_0_r in E0. congruence.
Qed.

Lemma window4 : window 4 next4 enc4.
Proof.
  constructor; [lia|..].
  - intros l i Hl Hi. unfold enc4. window_bytes l i 5%nat Hl. rewrite next4_spec by lia. by rewrite <-!Nat.add_assoc.
  - intros l l' i Hl Hl' Hi Hl2. unfold enc4. window_bytes l i 4%nat Hl. window_bytes l' 0%nat 4%nat Hl'.
    rewrite ?Nat.add_0_r in *. simpl Nat.add in *. split.
    + intros E [|[|[|[|k]]]] Hk; rewrite ?Nat.add_0_r; lia.
    + intros E. pose proof (E 0%nat ltac:(lia)) as E0. pose proof (E 1%nat ltac:(lia)). pose proof (E 2%nat ltac:(lia)).
      pose proof (E 3%nat ltac:(lia)). rewrite Nat.add_0_r in E0. congruence.
Qed.

Section window.
Context (m : nat) (next : Z -> Z -> Z) (enc : list Z -> nat -> Z) (W : window m next enc).
Context (N hay : list Z) (L : nat) (Hm : length N = m) (HL : (L <= length hay)%nat).
Context (HbN : Forall (fun c => 0 <= c < 256) N) (Hb : Forall (fun c => 0 <= c < 256) hay).

Lemma window_occ i : (i + m <= L)%nat -> enc hay i = enc N 0%nat <-> occ N hay L i.
Proof.
  intros Hi. rewrite (window_inj _ _ _ W) by (done || lia). unfold occ. rewrite Hm. split; [by split|by intros [_ H]].
Qed.

Lemma not_here i r : (i + m <= L)%nat -> enc hay i <> enc N 0%nat -> first_occ N hay L (i + 1) r -> first_occ N hay L i r.
Proof.
  intros Hi Hne. apply first_occ_skip; [lia|]. intros j Hj. replace j with i by lia. by rewrite <-window_occ.
Qed.

Lemma here i : (i + m <= L)%nat -> enc hay i = enc N 0%nat -> first_occ N hay L i (Some (Z.of_nat i)).
Proof. intros Hi He. exists i. split_and!; [done|by apply window_occ|]. intros j Hj. lia. Qed.

Lemma window_memmem_spec k i : (i + m + k = L)%nat -> exists r,
  window_memmem k next (Z.of_nat m) hay (Z.of_nat (i + m)) (enc N 0%nat) (enc hay i) = Ok r /\ first_occ N hay L i r.
Proof.
  revert i. induction k as [|k IH]; intros i Hi; cbn [window_memmem];
    replace (Z.of_nat (i + m) - Z.of_nat m) with (Z.of_nat i) by lia.
  - eexists. split; [done|]. destruct (Z.eqb_spec (enc hay i) (enc N 0%nat)) as [E|E]; [apply here; [lia|done]|].
    apply not_here; [lia|done|]. apply too_short. lia.
  - destruct (Z.eqb_spec (enc hay i) (enc N 0%nat)) as [E|E]; [eexists; split; [done|]; apply here; [lia|done]|].
    rewrite rd_lookup by lia. cbn [obind]. rewrite (window_next _ _ _ W) by (done || lia).
    replace (Z.of_nat (i + m) + 1) with (Z.of_nat (i + 1 + m)) by lia.
    destruct (IH (i + 1)%nat) as (r & Hr & Hocc); [lia|]. exists r. split; [done|]. apply not_here; [lia|done..].
Qed.

Lemma window_strstr_spec s t0 fuel i : cstring s -> hay = s ++ 0 :: t0 -> L = length s ->
  (i + (m - 1) <= L)%nat -> (L - i < fuel)%nat -> exists r,
  window_strstr fuel next (Z.of_nat (m - 1)) hay (Z.of_nat (i + (m - 1))) (enc N 0%nat) (enc hay i) = Ok r /\ first_occ N hay L i r.
Proof.
  intros Hs Ehay EL. pose proof (window_pos _ _ _ W). revert i. induction fuel as [|fuel IH]; intros i Hi Hfuel; [lia|].
  cbn [window_strstr]. destruct (rd_string s t0 (i + (m - 1))%nat Hs) as (c & Hc & Hz & _); [lia|].
  rewrite <-Ehay in Hc. rewrite Hc. cbn [obind]. destruct (Z.eqb_spec c 0) as [E0|E0].
  { apply Hz in E0. exists None. split; [done|]. apply too_short. lia. }
  assert (i + m <= L)%nat. { destruct (decide (i + (m - 1) = length s)%nat); [by destruct E0; apply Hz|lia]. }
  replace (Z.of_nat (i + (m - 1)) - Z.of_nat (m - 1)) with (Z.of_nat i) by lia.
  destruct (Z.eqb_spec (enc hay i) (enc N 0%nat)) as [E|E]; [eexists; split; [done|]; apply here; [lia|done]|].
  replace (Z.of_nat (i + (m - 1)) + 1) with (Z.of_nat (i + m)) by lia.
  assert (i + m < length hay)%nat by (rewrite Ehay, length_app; simpl; lia).
  rewrite rd_lookup by done. cbn [obind]. rewrite (window_next _ _ _ W) by done.
  replace (i + m)%nat with (i + 1 + (m - 1))%nat by lia.
  destruct (IH (i + 1)%nat) as (r & Hr & Hocc); [lia..|]. exists r. split; [done|]. apply not_here; [lia|done..].
Qed.
End window.

(** * The functions *)

Lemma occ_occurs hay v N i : occ N (hay ++ v) (length hay) i <-> occurs hay N i.
Proof.
  rewrite occurs_lookup. unfold occ. split; intros [Hl H]; (split; [done|]); intros k Hk; specialize (H k Hk).
  - by rewrite lookup_total_app_l in H by lia.
  - by rewrite lookup_total_app_l by lia.
Qed.

Lemma first_match_occ hay v N r : first_occ N (hay ++ v) (length hay) 0 r -> first_match hay N r.
Proof.
  destruct r as [i|]; simpl.
  - intros (j & -> & Ho & Hno). exists j. split_and!; [done|by apply occ_occurs in Ho|].
    intros j' Hj' Ho'. apply (Hno j'); [lia|]. by apply occ_occurs.
  - intros Hno j Ho. apply (Hno j); [lia|]. by apply occ_occurs.
Qed.

(** The search may begin at the first byte of the needle. *)
Lemma start_at N hay L h r : (1 <= length N)%nat -> (forall j, (j < h)%nat -> (j < L)%nat -> hay !!! j <> N !!! 0%nat) ->
  first_occ N hay L h r -> first_occ N hay L 0 r.
Proof.
  intros Hl Hno. apply first_occ_skip; [lia|]. intros j Hj [Hle Ho]. apply (Hno j); [lia..|].
  rewrite <-(Ho 0%nat) by lia. f_equal. lia.
Qed.

Lemma one_byte N hay L h : length N = 1%nat -> (h < L)%nat -> hay !!! h = N !!! 0%nat -> first_occ N hay L h (Some (Z.of_nat h)).
Proof.
  intros Hl Hh E. exists h. split_and!; [done| |intros j ?; lia]. split; [lia|].
  intros i Hi. replace i with 0%nat by lia. by rewrite Nat.add_0_r.
Qed.

(** The first byte of the needle is nowhere. *)
Lemma no_first_byte N hay L : (1 <= length N)%nat -> (forall j, (j < L)%nat -> hay !!! j <> N !!! 0%nat) -> first_occ N hay L 0 None.
Proof. intros Hl Hno j _ [Hle Ho]. apply (Hno j); [lia|]. rewrite <-(Ho 0%nat) by lia. f_equal. lia. Qed.

Lemma empty_needle hay : first_match hay [] (Some 0).
Proof. exists 0%nat. split_and!; [done| |intros; lia]. by exists [], hay. Qed.

Lemma memmem_from N u hay L h : (2 <= length N)%nat -> (L <= length hay)%nat -> (h <= L)%nat ->
  Z.of_nat (length N) < 2 ^ 63 -> Z.of_nat (length hay) < 2 ^ 63 ->
  Forall (fun c => 0 <= c < 256) N -> Forall (fun c => 0 <= c < 256) hay ->
  let k := Z.of_nat L - Z.of_nat h in let l := Z.of_nat (length N) in
  exists r, (if k <? l then Ok None
             else if l =? 2 then twobyte_memmem hay (Z.of_nat h) k (N ++ u)
             else if l =? 3 then threebyte_memmem hay (Z.of_nat h) k (N ++ u)
             else if l =? 4 then fourbyte_memmem hay (Z.of_nat h) k (N ++ u)
             else twoway_memmem hay (Z.of_nat h) (Z.of_nat h + k) (N ++ u) l) = Ok r /\ first_occ N hay L h r.
Proof.
  intros Hl HL Hh HlN Hlh HbN Hb k l. subst k l.
  destruct (Z.ltb_spec (Z.of_nat L - Z.of_nat h) (Z.of_nat (length N))).
  { exists None. split; [done|]. apply too_short. lia. }
  assert (Hwin : forall m next enc, window m next enc -> length N = m -> exists r,
    window_memmem (Z.to_nat (Z.of_nat L - Z.of_nat h - Z.of_nat m)) next (Z.of_nat m) hay (Z.of_nat h + Z.of_nat m) (enc N 0%nat) (enc hay h)
      = Ok r /\ first_occ N hay L h r).
  { intros m next enc W Hm. rewrite <-Nat2Z.inj_add. apply window_memmem_spec; [done..|lia]. }
  destruct (Z.eqb_spec (Z.of_nat (length N)) 2) as [E|E2].
  { unfold twobyte_memmem. change 0 with (Z.of_nat 0) at 1. rewrite (word2_spec N u 0) by (done || lia). cbn [obind].
    pose proof (word2_spec hay [] h) as Hw. rewrite app_nil_r in Hw. rewrite Hw by (done || lia). apply (Hwin 2%nat _ _ window2). lia. }
  destruct (Z.eqb_spec (Z.of_nat (length N)) 3) as [E|E3].
  { unfold threebyte_memmem. change 0 with (Z.of_nat 0) at 1. rewrite (word3_spec N u 0) by (done || lia). cbn [obind].
    pose proof (word3_spec hay [] h) as Hw. rewrite app_nil_r in Hw. rewrite Hw by (done || lia). apply (Hwin 3%nat _ _ window3). lia. }
  destruct (Z.eqb_spec (Z.of_nat (length N)) 4) as [E|E4].
  { unfold fourbyte_memmem. change 0 with (Z.of_nat 0) at 1. rewrite (word4_spec N u 0) by (done || lia). cbn [obind].
    pose proof (word4_spec hay [] h) as Hw. rewrite app_nil_r in Hw. rewrite Hw by (done || lia). apply (Hwin 4%nat _ _ window4). lia. }
  replace (Z.of_nat h + (Z.of_nat L - Z.of_nat h)) with (Z.of_nat L) by lia. by apply twoway_memmem_spec; [..|lia|].
Qed.

(** Memmem returns the first occurrence of the needle in the haystack, or none when there is
    none, whatever bytes the two have, and reads nothing outside them: the window for needles of
    up to four bytes, and two-way matching with its table of shifts and its memory for longer ones,
    skip no occurrence. *)
Theorem memmem_correct hay v N u :
  Forall (fun c => 0 <= c < 256) (hay ++ v) -> Forall (fun c => 0 <= c < 256) N ->
  Z.of_nat (length (hay ++ v)) < 2 ^ 63 -> Z.of_nat (length N) < 2 ^ 63 ->
  exists r, memmem (hay ++ v) (Z.of_nat (length hay)) (N ++ u) (Z.of_nat (length N)) = Ok r /\ first_match hay N r.
Proof.
  intros Hb HbN Hlh HlN. unfold memmem. destruct (Z.eqb_spec (Z.of_nat (length N)) 0) as [E|E].
  { exists (Some 0). split; [done|]. destruct N; [apply empty_needle|simpl in E; lia]. }
  destruct (Z.ltb_spec (Z.of_nat (length hay)) (Z.of_nat (length N))).
  { exists None. split; [done|]. apply (first_match_occ hay v). apply too_short. lia. }
  change 0 with (Z.of_nat 0) at 1. rewrite rd_needle by lia. cbn [obind]. rewrite Nat2Z.id.
  assert (HL : (length hay <= length (hay ++ v))%nat) by (rewrite length_app; lia).
  destruct (memchr_first (hay ++ v) (N !!! 0%nat) (length hay) HL) as (r & -> & Hr). cbn [run obind].
  rewrite take_app_length in Hr. rewrite wrapU_small in Hr by (apply byte_at; [done|lia]).
  assert (Hlook : forall j, (j < length hay)%nat -> hay !! j = Some ((hay ++ v) !!! j)).
  { intros j Hj. rewrite lookup_total_app_l by done. by apply list_lookup_lookup_total_lt. }
  destruct r as [h|].
  2: { exists None. split; [done|]. apply (first_match_occ hay v), no_first_byte; [lia|]. intros j Hj. by apply (Hr j), Hlook. }
  destruct Hr as [(c & Hc & Ec) Hbefore]. pose proof (lookup_lt_Some _ _ _ Hc) as Hh.
  assert (Hstart : forall r, first_occ N (hay ++ v) (length hay) h r -> first_match hay N r).
  { intros r Hr. apply (first_match_occ hay v), (start_at _ _ _ h); [lia| |done]. intros j Hj HjL. by apply (Hbefore j _ Hj), Hlook. }
  destruct (Z.eqb_spec (Z.of_nat (length N)) 1) as [E1|E1].
  { exists (Some (Z.of_nat h)). split; [done|]. apply Hstart, one_byte; [lia|done|].
    rewrite Hlook in Hc by done. congruence. }
  destruct (memmem_from N u (hay ++ v) (length hay) h) as (r & -> & Hr); [lia|done|lia|done..|].
  exists r. split; [done|]. by apply Hstart.
Qed.

Section from.
Context (s t0 N u : list Z) (h : nat) (Hl : (2 <= length N)%nat) (Hh : (h < length s)%nat) (Hs : cstring s) (HN : cstring N).
Context (HlN : Z.of_nat (length N) < 2 ^ 63) (Hlh : Z.of_nat (length (s ++ 0 :: t0)) < 2 ^ 63).
Context (Hb : Forall (fun c => 0 <= c < 256) (s ++ 0 :: t0)).

Local Abbreviation hay := (s ++ 0 :: t0).
Local Abbreviation n := (N ++ 0 :: u).
Local Abbreviation found r := (first_occ N hay (length s) h r).

Lemma needle_bytes : Forall (fun c => 0 <= c < 256) N.
Proof. eapply Forall_impl; [exact HN|simpl; lia]. Qed.

Lemma hay_length : (length s < length hay)%nat.
Proof. rewrite length_app. simpl. lia. Qed.

Lemma window_from m next enc : window m next enc -> length N = m -> (h + (m - 1) <= length s)%nat -> exists r,
  window_strstr (length hay) next (Z.of_nat (m - 1)) hay (Z.of_nat h + Z.of_nat (m - 1)) (enc N 0%nat) (enc hay h) = Ok r /\ found r.
Proof.
  intros W Hm Hle. pose proof hay_length. rewrite <-Nat2Z.inj_add.
  apply (window_strstr_spec m next enc W) with (s := s) (t0 := t0); try done; [lia|apply needle_bytes|lia].
Qed.

(** Looking ahead in the haystack: at its end there is no room for the needle. *)
Lemma haystack_at j (k : Z -> result (option Z)) : (h + j <= length s)%nat -> (j < length N)%nat ->
  ((h + j < length s)%nat -> forall c, exists r, k c = Ok r /\ found r) ->
  exists r, (c <-- rd hay (Z.of_nat h + Z.of_nat j) ;; if c =? 0 then Ok None else k c) = Ok r /\ found r.
Proof.
  intros Hj HjN Hk. destruct (rd_string s t0 (h + j)%nat Hs Hj) as (c & Hc & Hz & _).
  rewrite Nat2Z.inj_add in Hc. rewrite Hc. cbn [obind]. destruct (Z.eqb_spec c 0) as [E|E].
  - exists None. split; [done|]. apply Hz in E. apply too_short. lia.
  - apply Hk. destruct (decide (h + j = length s)%nat); [by destruct E; apply Hz|lia].
Qed.

(** Looking for the end of the needle. *)
Lemma needle_at j (yes : result (option Z)) (no : Z -> result (option Z)) : (j <= length N)%nat ->
  (length N = j -> exists r, yes = Ok r /\ found r) -> ((j < length N)%nat -> forall c, exists r, no c = Ok r /\ found r) ->
  exists r, (c <-- rd n (Z.of_nat j) ;; if c =? 0 then yes else no c) = Ok r /\ found r.
Proof.
  intros Hj Hyes Hno. destruct (rd_string N u j HN Hj) as (c & -> & Hz & _). cbn [obind].
  destruct (Z.eqb_spec c 0) as [E|E]; [apply Hyes; symmetry; by apply Hz|].
  apply Hno. destruct (decide (j = length N)); [by destruct E; apply Hz|lia].
Qed.

(** The window or two-way matching, from the first byte of the needle. *)
Lemma strstr_from : exists r,
  (h1 <-- rd hay (Z.of_nat h + 1) ;; if h1 =? 0 then Ok None else
   n2 <-- rd n 2 ;; if n2 =? 0 then twobyte_strstr (length hay) hay (Z.of_nat h) n else
   h2 <-- rd hay (Z.of_nat h + 2) ;; if h2 =? 0 then Ok None else
   n3 <-- rd n 3 ;; if n3 =? 0 then threebyte_strstr (length hay) hay (Z.of_nat h) n else
   h3 <-- rd hay (Z.of_nat h + 3) ;; if h3 =? 0 then Ok None else
   n4 <-- rd n 4 ;; if n4 =? 0 then fourbyte_strstr (length hay) hay (Z.of_nat h) n else
   twoway_strstr hay (Z.of_nat h) n) = Ok r /\ found r.
Proof.
  pose proof needle_bytes. pose proof hay_length.
  apply (haystack_at 1); [lia..|]. intros H1 _. apply (needle_at 2); [lia|intros E|intros E2 _].
  { unfold twobyte_strstr. rewrite (word2_spec N _ 0) by (done || lia). cbn [obind].
    pose proof (word2_spec hay [] h) as Hw. rewrite app_nil_r in Hw. rewrite Hw by (done || lia).
    apply (window_from 2 _ _ window2); lia. }
  apply (haystack_at 2); [lia..|]. intros H2 _. apply (needle_at 3); [lia|intros E|intros E3 _].
  { unfold threebyte_strstr. rewrite (word3_spec N _ 0) by (done || lia). cbn [obind].
    pose proof (word3_spec hay [] h) as Hw. rewrite app_nil_r in Hw. rewrite Hw by (done || lia).
    apply (window_from 3 _ _ window3); lia. }
  apply (haystack_at 3); [lia..|]. intros H3 _. apply (needle_at 4); [lia|intros E|intros E4 _].
  { unfold fourbyte_strstr. rewrite (word4_spec N _ 0) by (done || lia). cbn [obind].
    pose proof (word4_spec hay [] h) as Hw. rewrite app_nil_r in Hw. rewrite Hw by (done || lia).
    apply (window_from 4 _ _ window4); lia. }
  apply twoway_strstr_spec; done || lia.
Qed.
End from.

Lemma strstr_first s t N u : cstring s -> cstring N -> Forall (fun c => 0 <= c < 256) t ->
  Z.of_nat (length (s ++ 0 :: t)) < 2 ^ 63 -> Z.of_nat (length N) < 2 ^ 63 ->
  exists r, strstr (s ++ 0 :: t) (N ++ 0 :: u) = Ok r /\ first_match s N r.
Proof.
  intros Hs HN Ht Hlh HlN. pose proof (cstring_bytes s t Hs Ht) as Hb. unfold strstr.
  destruct N as [|n0 N']; [exists (Some 0); split; [done|apply empty_needle]|]. set (N := n0 :: N') in *.
  change (rd (N ++ 0 :: u) 0) with (Ok n0). cbn [obind]. assert (Hn0 : 0 < n0 < 256) by (by inversion HN).
  destruct (Z.eqb_spec n0 0); [lia|].
  destruct (strchr_correct s t n0 1 Hs ltac:(lia)) as [(r & Hr & -> & _) _].
  { rewrite length_app in Hlh. unfold SIZE_MAX. lia. }
  cbn [obind]. rewrite wrapU_small in Hr by lia.
  assert (Hlook : forall j, (j < length s)%nat -> (s ++ [0]) !! j = Some ((s ++ 0 :: t) !!! j)).
  { intros j Hj. rewrite lookup_total_app_l, lookup_app_l by done. by apply list_lookup_lookup_total_lt. }
  destruct r as [h|].
  2: { exists None. split; [done|]. apply (first_match_occ s (0 :: t)), no_first_byte; [simpl; lia|].
       intros j Hj. by apply (Hr j), Hlook. }
  destruct Hr as [(c & Hc & Ec) Hbefore]. subst c.
  assert (Hh : (h < length s)%nat).
  { pose proof (lookup_lt_Some _ _ _ Hc) as Hlt. rewrite length_app in Hlt. simpl in Hlt.
    destruct (decide (h = length s)) as [->|]; [|lia]. rewrite list_lookup_middle in Hc by done. injection Hc. lia. }
  assert (Hstart : forall r, first_occ N (s ++ 0 :: t) (length s) h r -> first_match s N r).
  { intros r Hr. apply (first_match_occ s (0 :: t)), (start_at _ _ _ h); [simpl; lia| |done].
    intros j Hj HjL. by apply (Hbefore j _ Hj), Hlook. }
  destruct (rd_string N u 1 HN ltac:(simpl; lia)) as (n1 & E1 & Hz & _). change (Z.of_nat 1) with 1 in E1. rewrite E1. cbn [obind].
  destruct (Z.eqb_spec n1 0) as [E|E].
  { exists (Some (Z.of_nat h)). split; [done|]. apply Hstart, one_byte; [symmetry; by apply Hz|done|].
    rewrite Hlook in Hc by done. by injection Hc. }
  destruct (strstr_from s t N u h) as (r & -> & Hr); try done; [|by exists r; split; [|apply Hstart]].
  destruct (decide (1 = length N)%nat); [by destruct E; apply Hz|subst N; simpl in *; lia].
Qed.

(** C8: strstr returns the first occurrence of one string in another, or none when there is none,
    and reads nothing past the terminators: the window for needles of up to four bytes, and two-way
    matching, which looks for the end of the haystack only as far as it needs it, skip no
    occurrence. *)
Theorem strstr_correct s t N u : cstring s -> cstring N -> Forall (fun c => 0 <= c < 256) t ->
  Z.of_nat (length (s ++ 0 :: t)) < 2 ^ 63 -> Z.of_nat (length N) < 2 ^ 63 ->
  exists r, strstr (s ++ 0 :: t) (N ++ 0 :: u) = Ok r /\ first_match s N r.
Proof. apply strstr_first. Qed.

Lemma memmem_correct_witness :
  let hay := [1; 2; 1; 1; 2; 1; 2; 1; 1; 2; 1; 1; 2; 0; 5] in
  let needle := [1; 2; 1; 1; 2; 1; 1] in
  memmem (hay ++ [7]) 15 (needle ++ []) 7 = Ok (Some 5) /\
  exists r, memmem (hay ++ [7]) 15 (needle ++ []) 7 = Ok r /\ first_match hay needle r.
Proof.
  split; [vm_compute; done|].
  apply (memmem_correct [1; 2; 1; 1; 2; 1; 2; 1; 1; 2; 1; 1; 2; 0; 5] [7] [1; 2; 1; 1; 2; 1; 1] []);
    try (repeat constructor; lia); simpl; lia.
Defined.

Lemma strstr_correct_witness :
  let hay := [97; 98; 97; 97; 98; 97; 98; 97; 97; 98; 97; 97; 98] in
  let needle := [97; 98; 97; 97; 98; 97; 97] in
  strstr (hay ++ [0]) (needle ++ [0]) = Ok (Some 5) /\
  exists r, strstr (hay ++ [0]) (needle ++ [0]) = Ok r /\ first_match hay needle r.
Proof.
  split; [vm_compute; done|].
  apply (strstr_correct [97; 98; 97; 97; 98; 97; 98; 97; 97; 98; 97; 97; 98] [] [97; 98; 97; 97; 98; 97; 97] []);
    try (repeat constructor; lia); simpl; lia.
Defined.
