(* ===== verification/PropArea.v ===== *)
(** The area of system properties: libc/system_properties/prop_area.cpp, prop_info.cpp and their
    headers.

    A property area is a block of shared memory with a header and [data_], an array of bytes in
    which objects are placed one behind the other and never freed.  The model keeps [bytes_used_]
    and the objects by their offset in [data_]: nodes of the tree ([prop_bt]), properties
    ([prop_info]) and the long values of properties.  Pointers inside the area are offsets, 0 for
    none; a C++ pointer is [Some] offset or [None].  Strings are lists with their terminator as in
    [CString]; the parameters [namelen] and [valuelen], unsigned ints in the code, are below 2^32, and a
    length that is converted to one is cut off.  Using an offset at which there is no object of the right
    kind is a [Fault].

    Nodes are made in memory that has never been used since the file was made, so that the fields
    the constructor of [prop_bt] leaves alone are 0. *)

From stdpp Require Import gmap.
From S2P Require Import Prelude Result CString Fortify.

Abbreviation PA_SIZE := (128 * 1024).
Definition sizeof_prop_area : Z := 128.
Definition sizeof_prop_bt : Z := 20.
Definition sizeof_prop_info : Z := 96.

(** * Objects *)

Record prop_bt := mk_bt {
  bt_namelen : Z;
  bt_prop : Z;
  bt_left : Z;
  bt_right : Z;
  bt_children : Z;
  bt_name : list Z }.

(** The union in [prop_info]. *)
Inductive pi_union :=
| PValue (value : list Z)
| PLong (error_message : list Z) (offset : Z).

Record prop_info := mk_info { pi_serial : Z; pi_union_ : pi_union; pi_name : list Z }.

Inductive obj :=
| OBt (b : prop_bt)
| OInfo (i : prop_info)
| OChars (l : list Z).

Record prop_area := mk_area { bytes_used_ : Z; data_ : gmap Z obj }.

Definition store (a : prop_area) (off : Z) (o : obj) : prop_area :=
  mk_area (bytes_used_ a) (<[off := o]> (data_ a)).

Definition kLongFlag : Z := Z.shiftl 1 16.
Abbreviation kLongLegacyError := (chars "Must use __system_property_read_callback() to read").

Abbreviation UINT_MAX := (2 ^ 32 - 1).

(** A length as a [uint32_t]. *)
Definition u32 (n : nat) : nat := Z.to_nat (wrapU 32 (sz n)).

(** memcpy of [n] bytes from [src]. *)
Definition memcpy_from (src : list Z) (n : nat) : result (list Z) :=
  if (n <=? length src)%nat then Ok (take n src) else Fault.

(** The two constructors of [prop_info]. *)
Definition prop_info_short (name : list Z) (namelen : nat) (value : list Z) (valuelen : nat) : result prop_info :=
  n <-- memcpy_from name namelen ;;
  v <-- memcpy_from value valuelen ;;
  Ok (mk_info (wrapU 32 (Z.shiftl (sz valuelen) 24)) (PValue (v ++ [0])) (n ++ [0])).

Definition prop_info_long (name : list Z) (namelen : nat) (long_offset : Z) : result prop_info :=
  n <-- memcpy_from name namelen ;;
  let error_value_len := sz (length kLongLegacyError) in
  Ok (mk_info (Z.lor (Z.shiftl error_value_len 24) kLongFlag)
        (PLong (kLongLegacyError ++ [0]) long_offset) (n ++ [0])).

Definition is_long (i : prop_info) : bool := truthy (Z.land (pi_serial i) kLongFlag).

(** * Operations *)

Definition __BIONIC_ALIGN (value alignment : Z) : Z := Z.land (value + alignment - 1) (Z.lnot (alignment - 1)).

(** The constructor of [prop_area]: the root node, and behind it the dirty backup area. *)
Definition prop_area_new : prop_area :=
  mk_area (sizeof_prop_bt + __BIONIC_ALIGN PROP_VALUE_MAX 4) {[ 0 := OBt (mk_bt 0 0 0 0 0 []) ]}.

Definition dirty_backup_area : Z := sizeof_prop_bt.

Definition bt_at (a : prop_area) (p : Z) : result prop_bt :=
  match data_ a !! p with Some (OBt b) => Ok b | _ => Fault end.

Definition info_at (a : prop_area) (p : Z) : result prop_info :=
  match data_ a !! p with Some (OInfo i) => Ok i | _ => Fault end.

(** [prop_info::long_value], an offset from the address of the object. *)
Definition long_value (a : prop_area) (p offset : Z) : result (list Z) :=
  match data_ a !! (p + offset) with Some (OChars l) => Ok l | _ => Fault end.

(** The name and the value of the property at [p], as the reader of a read-only property gets
    them. *)
Definition read_property (a : prop_area) (p : Z) : result (list Z * list Z) :=
  i <-- info_at a p ;;
  match is_long i, pi_union_ i with
  | true, PLong _ offset => v <-- long_value a p offset ;; Ok (pi_name i, v)
  | false, PValue v => Ok (pi_name i, v)
  | _, _ => Fault
  end.

Section area.
(** [prop_area::pa_data_size_] *)
Context (pa_data_size_ : Z).

Definition allocate_obj (a : prop_area) (size : Z) : option (prop_area * Z) :=
  let aligned := __BIONIC_ALIGN size 4 in
  if pa_data_size_ <? bytes_used_ a + aligned then None
  else Some (mk_area (wrapU 32 (bytes_used_ a + aligned)) (data_ a), bytes_used_ a).

Definition new_prop_bt (a : prop_area) (name : list Z) (namelen : nat) : result (prop_area * option Z) :=
  match allocate_obj a (sizeof_prop_bt + sz namelen + 1) with
  | None => Ok (a, None)
  | Some (a, off) =>
      n <-- memcpy_from name namelen ;;
      Ok (store a off (OBt (mk_bt (sz namelen) 0 0 0 0 (n ++ [0]))), Some off)
  end.

Definition new_prop_info (a : prop_area) (name : list Z) (namelen : nat) (value : list Z) (valuelen : nat)
    : result (prop_area * option Z) :=
  match allocate_obj a (sizeof_prop_info + sz namelen + 1) with
  | None => Ok (a, None)
  | Some (a, new_offset) =>
      if PROP_VALUE_MAX <=? sz valuelen then
        match allocate_obj a (wrapU 32 (sz valuelen + 1)) with
        | None => Ok (a, None)
        | Some (a, long_value_offset) =>
            (* the value and its terminator are written, whatever has been allocated *)
            if wrapU 32 (sz valuelen + 1) <? sz valuelen + 1 then Fault else
            v <-- memcpy_from value valuelen ;;
            let a := store a long_value_offset (OChars (v ++ [0])) in
            i <-- prop_info_long name namelen (wrapU 32 (long_value_offset - new_offset)) ;;
            Ok (store a new_offset (OInfo i), Some new_offset)
        end
      else
        i <-- prop_info_short name namelen value valuelen ;;
        Ok (store a new_offset (OInfo i), Some new_offset)
  end.

Definition to_prop_obj (off : Z) : option Z := if pa_data_size_ <? off then None else Some off.

Definition root_node : option Z := to_prop_obj 0.

Definition cmp_prop_name (one : list Z) (one_len : Z) (two : list Z) (two_len : Z) : result Z :=
  if one_len <? two_len then Ok (-1)
  else if two_len <? one_len then Ok 1
  else run (strncmp one two (Z.to_nat one_len)).

Fixpoint find_prop_bt (fuel : nat) (a : prop_area) (current : option Z) (name : list Z) (namelen : nat)
    (alloc_if_needed : bool) : result (prop_area * option Z) :=
  match fuel, current with
  | O, _ => Fault
  | S _, None => Ok (a, None)
  | S fuel, Some cur =>
      b <-- bt_at a cur ;;
      ret <-- cmp_prop_name name (sz namelen) (bt_name b) (bt_namelen b) ;;
      if ret =? 0 then Ok (a, Some cur)
      else if ret <? 0 then
        if negb (bt_left b =? 0) then
          find_prop_bt fuel a (to_prop_obj (bt_left b)) name namelen alloc_if_needed
        else if negb alloc_if_needed then Ok (a, None)
        else
          r <-- new_prop_bt a name namelen ;;
          match r with
          | (a, None) => Ok (a, None)
          | (a, Some new_offset) =>
              Ok (store a cur (OBt (mk_bt (bt_namelen b) (bt_prop b) new_offset (bt_right b)
                                      (bt_children b) (bt_name b))), Some new_offset)
          end
      else
        if negb (bt_right b =? 0) then
          find_prop_bt fuel a (to_prop_obj (bt_right b)) name namelen alloc_if_needed
        else if negb alloc_if_needed then Ok (a, None)
        else
          r <-- new_prop_bt a name namelen ;;
          match r with
          | (a, None) => Ok (a, None)
          | (a, Some new_offset) =>
              Ok (store a cur (OBt (mk_bt (bt_namelen b) (bt_prop b) (bt_left b) new_offset
                                      (bt_children b) (bt_name b))), Some new_offset)
          end
  end.

(** Each turn of the loop moves to an object that was made later: the offsets are multiples of 4
    below [bytes_used_]. *)
Definition area_fuel (a : prop_area) : nat := S (Z.to_nat (bytes_used_ a)).

(** The loop of [find_property]: the node for the name. *)
Fixpoint find_node (fuel : nat) (a : prop_area) (current : Z) (remaining_name : list Z)
    (alloc_if_needed : bool) : result (prop_area * option Z) :=
  match fuel with
  | O => Fault
  | S fuel =>
      sep <-- strchr remaining_name 46 ;;
      substr_size <-- match sep with Some i => Ok (u32 i) | None => omap_ok u32 (run (strlen remaining_name)) end ;;
      if (substr_size =? 0)%nat then Ok (a, None)
      else
        b <-- bt_at a current ;;
        r <-- (if negb (bt_children b =? 0) then Ok (a, to_prop_obj (bt_children b))
               else if alloc_if_needed then
                 r <-- new_prop_bt a remaining_name substr_size ;;
                 match r with
                 | (a, None) => Ok (a, None)
                 | (a, Some new_offset) =>
                     Ok (store a current (OBt (mk_bt (bt_namelen b) (bt_prop b) (bt_left b) (bt_right b)
                                                 new_offset (bt_name b))), Some new_offset)
                 end
               else Ok (a, None)) ;;
        match r with
        | (a, None) => Ok (a, None)
        | (a, Some root) =>
            r <-- find_prop_bt (area_fuel a) a (Some root) remaining_name substr_size alloc_if_needed ;;
            match r with
            | (a, None) => Ok (a, None)
            | (a, Some current) =>
                match sep with
                | None => Ok (a, Some current)
                | Some i => find_node fuel a current (drop (S i) remaining_name) alloc_if_needed
                end
            end
        end
  end.

Definition find_property (a : prop_area) (trie : option Z) (name : list Z) (namelen : nat)
    (value : list Z) (valuelen : nat) (alloc_if_needed : bool) : result (prop_area * option Z) :=
  match trie with
  | None => Ok (a, None)
  | Some trie =>
      r <-- find_node (S (length name)) a trie name alloc_if_needed ;;
      match r with
      | (a, None) => Ok (a, None)
      | (a, Some current) =>
          b <-- bt_at a current ;;
          if negb (bt_prop b =? 0) then Ok (a, to_prop_obj (bt_prop b))
          else if alloc_if_needed then
            r <-- new_prop_info a name namelen value valuelen ;;
            match r with
            | (a, None) => Ok (a, None)
            | (a, Some new_offset) =>
                Ok (store a current (OBt (mk_bt (bt_namelen b) new_offset (bt_left b) (bt_right b)
                                            (bt_children b) (bt_name b))), Some new_offset)
            end
          else Ok (a, None)
      end
  end.

(** The properties passed to [propfn], in order, and the result.  The results of the inner calls
    are booleans converted to [int]. *)
Fixpoint foreach_property (fuel : nat) (a : prop_area) (trie : option Z) : result (list Z * bool) :=
  match fuel, trie with
  | O, _ => Fault
  | S _, None => Ok ([], false)
  | S fuel, Some p =>
      b <-- bt_at a p ;;
      l <-- (if bt_left b =? 0 then Ok ([], true) else foreach_property fuel a (to_prop_obj (bt_left b))) ;;
      if b2z (snd l) <? 0 then Ok (fst l, false)
      else
        i <-- (if bt_prop b =? 0 then Ok (Some [])
               else Ok (option_map (fun q => [q]) (to_prop_obj (bt_prop b)))) ;;
        match i with
        | None => Ok (fst l, false)
        | Some i =>
            c <-- (if bt_children b =? 0 then Ok ([], true)
                   else foreach_property fuel a (to_prop_obj (bt_children b))) ;;
            if b2z (snd c) <? 0 then Ok (fst l ++ i ++ fst c, false)
            else
              r <-- (if bt_right b =? 0 then Ok ([], true)
                     else foreach_property fuel a (to_prop_obj (bt_right b))) ;;
              if b2z (snd r) <? 0 then Ok (fst l ++ i ++ fst c ++ fst r, false)
              else Ok (fst l ++ i ++ fst c ++ fst r, true)
        end
  end.

Definition find (a : prop_area) (name : list Z) : result (option Z) :=
  n <-- run (strlen name) ;;
  omap_ok snd (find_property a root_node name (u32 n) [] O false).

Definition add (a : prop_area) (name : list Z) (namelen : nat) (value : list Z) (valuelen : nat)
    : result (prop_area * bool) :=
  omap_ok (fun r => (fst r, match snd r with Some _ => true | None => false end))
    (find_property a root_node name namelen value valuelen true).

Definition foreach (a : prop_area) : result (list Z * bool) := foreach_property (area_fuel a) a root_node.
End area.
