(* ===== verification/PropTree.v ===== *)
(** The trees a property area holds.

    The nodes of an area form a tree of search trees: the siblings of a level are a binary search
    tree ordered by [name_cmp], and each of them has the tree of its children.  [tree] is that
    structure as a datatype, [repr] says which tree the objects of an area form, and the lemmas
    say how lookups and the updates the code makes act on the tree.  A property is found by the
    fields of its name between the dots. *)

From stdpp Require Import gmap.
From S2P Require Import Prelude Result CString StrTok Fortify PropArea.

(** * Trees *)

(** A property: where it is, its name and its value. *)
Record entry := mk_entry { e_off : Z; e_name : list Z; e_value : list Z }.

Inductive tree :=
| Leaf
| Node (off : Z) (nm : list Z) (e : option entry) (l r c : tree).

(** The order of [cmp_prop_name]: by length first. *)
Definition name_cmp (x y : list Z) : comparison :=
  match Nat.compare (length x) (length y) with Eq => lex x y | o => o end.

Fixpoint nodes (t : tree) : list Z :=
  match t with Leaf => [] | Node off _ _ l r c => off :: nodes l ++ nodes r ++ nodes c end.

Fixpoint names (t : tree) : list (list Z) :=
  match t with Leaf => [] | Node _ nm _ l r _ => nm :: names l ++ names r end.

(** The node of name [s] among the siblings. *)
Fixpoint sub (s : list Z) (t : tree) : option (Z * option entry * tree) :=
  match t with
  | Leaf => None
  | Node off nm e l r c =>
      match name_cmp s nm with Lt => sub s l | Gt => sub s r | Eq => Some (off, e, c) end
  end.

(** A new node of name [s] at offset [x], where a search for [s] ends. *)
Fixpoint ins (s : list Z) (x : Z) (t : tree) : tree :=
  match t with
  | Leaf => Node x s None Leaf Leaf Leaf
  | Node off nm e l r c =>
      match name_cmp s nm with
      | Lt => Node off nm e (ins s x l) r c
      | Gt => Node off nm e l (ins s x r) c
      | Eq => t
      end
  end.

(** The node of name [s] gets the property and the children [f] makes of its own. *)
Fixpoint upd (s : list Z) (f : option entry * tree -> option entry * tree) (t : tree) : tree :=
  match t with
  | Leaf => Leaf
  | Node off nm e l r c =>
      match name_cmp s nm with
      | Lt => Node off nm e (upd s f l) r c
      | Gt => Node off nm e l (upd s f r) c
      | Eq => Node off nm (fst (f (e, c))) l r (snd (f (e, c)))
      end
  end.

(** The offset and the property of the node for a path. *)
Fixpoint lookup_path (fs : list (list Z)) (t : tree) : option (Z * option entry) :=
  match fs with
  | [] => None
  | s :: fs =>
      match sub s t with
      | None => None
      | Some (off, e, c) => match fs with [] => Some (off, e) | _ => lookup_path fs c end
      end
  end.

Definition lookup_entry (fs : list (list Z)) (t : tree) : option entry :=
  match lookup_path fs t with Some (_, e) => e | None => None end.

(** The node for a path gets a property. *)
Fixpoint set_entry (fs : list (list Z)) (e' : entry) (t : tree) : tree :=
  match fs with
  | [] => t
  | s :: fs =>
      upd s (fun ec => match fs with
                       | [] => (Some e', snd ec)
                       | _ => (fst ec, set_entry fs e' (snd ec))
                       end) t
  end.

(** Siblings are ordered, names are C strings without dot and not empty. *)
Fixpoint tree_ok (t : tree) : Prop :=
  match t with
  | Leaf => True
  | Node _ nm _ l r c =>
      (cstring nm /\ nm <> [] /\ no_delim [46] nm) /\
      (forall x, x ∈ names l -> name_cmp x nm = Lt) /\ (forall x, x ∈ names r -> name_cmp x nm = Gt) /\
      tree_ok l /\ tree_ok r /\ tree_ok c
  end.

(** ** The order *)

Lemma name_cmp_eq x y : name_cmp x y = Eq <-> x = y.
Proof.
  unfold name_cmp. destruct (Nat.compare_spec (length x) (length y)) as [E|H|H].
  - apply lex_eq.
  - split; [done|]. intros ->. lia.
  - split; [done|]. intros ->. lia.
Qed.

Lemma name_cmp_refl x : name_cmp x x = Eq.
Proof. by apply name_cmp_eq. Qed.

Lemma name_cmp_nil x : x <> [] -> name_cmp [] x = Lt.
Proof. by destruct x. Qed.

(** ** Lookups after updates *)

Lemma sub_ins s x t s' : sub s t = None -> sub s' (ins s x t) = if decide (s' = s) then Some (x, None, Leaf) else sub s' t.
Proof.
  induction t as [|off nm e l IHl r IHr c _]; cbn [sub ins].
  - intros _. destruct (decide (s' = s)) as [->|Hne]; [by rewrite name_cmp_refl|].
    destruct (name_cmp s' s) eqn:E; [|done..]. by apply name_cmp_eq in E.
  - destruct (name_cmp s nm) eqn:E; [done| |]; intros Hn; cbn [sub]; destruct (name_cmp s' nm) eqn:E'; auto.
    all: destruct (decide (s' = s)) as [->|]; congruence.
Qed.

Lemma sub_upd s f t s' : sub s' (upd s f t) =
  if decide (s' = s) then (match sub s t with Some (off, e, c) => Some (off, fst (f (e, c)), snd (f (e, c))) | None => None end)
  else sub s' t.
Proof.
  induction t as [|off nm e l IHl r IHr c _]; cbn [sub upd].
  - by destruct (decide (s' = s)).
  - destruct (name_cmp s nm) eqn:E; cbn [sub]; destruct (name_cmp s' nm) eqn:E'; auto.
    all: try (destruct (decide (s' = s)) as [->|]; congruence).
    apply name_cmp_eq in E as ->. apply name_cmp_eq in E' as ->. by rewrite decide_True.
Qed.

Lemma sub_none_names s t : sub s t = None -> tree_ok t -> s ∉ names t.
Proof.
  induction t as [|off nm e l IHl r IHr c _]; cbn; [by intros _ _ ?%elem_of_nil|].
  intros Hs (_ & Hl & Hr & Hokl & Hokr & _). rewrite elem_of_cons, elem_of_app.
  intros [->|[H|H]]; [by rewrite name_cmp_refl in Hs| |].
  - rewrite (Hl _ H) in Hs. by apply IHl.
  - rewrite (Hr _ H) in Hs. by apply IHr.
Qed.

Lemma names_ins s x t s' : s' ∈ names (ins s x t) -> s' = s \/ s' ∈ names t.
Proof.
  induction t as [|off nm e l IHl r IHr c _]; cbn [ins names].
  - rewrite list_elem_of_singleton. auto.
  - destruct (name_cmp s nm); cbn [names]; rewrite !elem_of_cons, !elem_of_app; intros [->|[H|H]]; auto.
    + destruct (IHl H); auto.
    + destruct (IHr H); auto.
Qed.

Lemma names_upd s f t : names (upd s f t) = names t.
Proof.
  induction t as [|off nm e l IHl r IHr c _]; [done|]. cbn [upd].
  destruct (name_cmp s nm); cbn [names]; by rewrite ?IHl, ?IHr.
Qed.

Lemma tree_ok_ins s x t : cstring s -> s <> [] -> no_delim [46] s -> tree_ok t -> tree_ok (ins s x t).
Proof.
  intros Hs Hne Hd. induction t as [|off nm e l IHl r IHr c _]; cbn [ins].
  - intros _. cbn. split_and!; try done; intros ? H; by rewrite elem_of_nil in H.
  - intros (Hn & Hl & Hr & Hokl & Hokr & Hokc). destruct (name_cmp s nm) eqn:E; cbn [tree_ok]; split_and!; auto; try apply Hn.
    + intros y [->|Hy]%names_ins; auto.
    + intros y [->|Hy]%names_ins; auto.
Qed.

Lemma tree_ok_upd s f t : tree_ok t ->
  (forall off e c, sub s t = Some (off, e, c) -> tree_ok (snd (f (e, c)))) -> tree_ok (upd s f t).
Proof.
  induction t as [|off nm e l IHl r IHr c _]; [done|]. cbn [upd sub].
  intros (Hn & Hl & Hr & Hokl & Hokr & Hokc) Hf.
  destruct (name_cmp s nm) eqn:E; cbn [tree_ok]; rewrite ?names_upd; split_and!; try apply Hn; auto. by eapply Hf.
Qed.

Lemma tree_ok_sub s t off e c : tree_ok t -> sub s t = Some (off, e, c) -> tree_ok c.
Proof.
  induction t as [|o nm e' l IHl r IHr c' _]; [done|]. cbn. intros (_ & _ & _ & Hl & Hr & Hc).
  destruct (name_cmp s nm); [by intros [= _ _ ->]|auto|auto].
Qed.

Lemma sub_nil t : tree_ok t -> sub [] t = None.
Proof.
  induction t as [|off nm e l IHl r IHr c _]; [done|]. cbn. intros ((_ & Hne & _) & _ & _ & Hl & _).
  rewrite name_cmp_nil by done. auto.
Qed.

(** ** The nodes after updates *)

Lemma nodes_ins s x t : sub s t = None -> nodes (ins s x t) ≡ₚ x :: nodes t.
Proof.
  induction t as [|off nm e l IHl r IHr c _]; cbn [sub ins nodes]; [done|].
  destruct (name_cmp s nm); [done| |]; intros H; cbn [nodes].
  - rewrite (IHl H). cbn. constructor.
  - rewrite (IHr H). cbn. rewrite <- Permutation_middle. constructor.
Qed.

Lemma perm_left {A} (rest c r c' : list A) : (rest ++ c) ++ r ++ c' ≡ₚ (rest ++ r ++ c') ++ c.
Proof. rewrite <- !app_assoc. f_equiv. rewrite Permutation_app_swap_app. f_equiv. apply Permutation_app_comm. Qed.

Lemma perm_right {A} (rest c l c' : list A) : l ++ (rest ++ c) ++ c' ≡ₚ (rest ++ l ++ c') ++ c.
Proof. rewrite <- !app_assoc, Permutation_app_swap_app. do 2 f_equiv. apply Permutation_app_comm. Qed.

Lemma nodes_upd s t off e c : sub s t = Some (off, e, c) -> exists rest, nodes t ≡ₚ rest ++ nodes c /\ off ∈ rest /\
  forall f, nodes (upd s f t) ≡ₚ rest ++ nodes (snd (f (e, c))).
Proof.
  induction t as [|o nm e' l IHl r IHr c' _]; cbn [sub upd nodes]; [done|].
  destruct (name_cmp s nm); [intros [= -> -> ->]|intros H|intros H].
  - exists (off :: nodes l ++ nodes r). cbn. rewrite <- app_assoc. split_and!; [done|constructor|].
    intros f. by rewrite <- app_assoc.
  - destruct (IHl H) as (rest & Hl & Ho & Hf). exists (o :: rest ++ nodes r ++ nodes c'). cbn. split_and!.
    + by rewrite Hl, perm_left.
    + by apply elem_of_cons; right; apply elem_of_app; left.
    + intros f. cbn. by rewrite (Hf f), perm_left.
  - destruct (IHr H) as (rest & Hr & Ho & Hf). exists (o :: rest ++ nodes l ++ nodes c'). cbn. split_and!.
    + by rewrite Hr, perm_right.
    + by apply elem_of_cons; right; apply elem_of_app; left.
    + intros f. cbn. by rewrite (Hf f), perm_right.
Qed.

(** * The tree an area holds *)

(** The property [e] is in the area. *)
Definition entry_ok (a : prop_area) (e : entry) : Prop :=
  0 < e_off e /\ read_property a (e_off e) = Ok (e_name e ++ [0], e_value e ++ [0]).

(** The objects from offset [p] on form the tree [t]. *)
Fixpoint repr (a : prop_area) (p : Z) (t : tree) : Prop :=
  match t with
  | Leaf => p = 0
  | Node off nm e l r c =>
      p = off /\ 0 < off /\ exists po lo ro co,
        data_ a !! off = Some (OBt (mk_bt (sz (length nm)) po lo ro co (nm ++ [0]))) /\
        repr a lo l /\ repr a ro r /\ repr a co c /\
        match e with None => po = 0 | Some e => po = e_off e /\ entry_ok a e end
  end.

(** [a'] comes from [a] by changing nodes at offsets in [D] and making new objects. *)
Definition ext (D : list Z) (a a' : prop_area) : Prop :=
  forall p o, data_ a !! p = Some o -> p ∉ D \/ (forall b, o <> OBt b) -> data_ a' !! p = Some o.

Lemma ext_refl D a : ext D a a.
Proof. by intros p o Hp _. Qed.

Lemma ext_trans D D' a a' a'' : ext D a a' -> ext D' a' a'' ->
  (forall p, p ∈ D' -> p ∈ D \/ data_ a !! p = None) -> ext D a a''.
Proof.
  intros H1 H2 Hd p o Hp Ho. apply H2; [by apply H1|]. destruct Ho as [Ho|Ho]; [left|by right].
  intros Hin. destruct (Hd _ Hin); [done|congruence].
Qed.

Lemma ext_mono D D' a a' : ext D a a' -> (forall p, p ∈ D -> p ∈ D') -> ext D' a a'.
Proof. intros H Hd p o Hp Ho. apply H; [done|]. destruct Ho as [Ho|Ho]; [left|by right]. intros Hin. by apply Ho, Hd. Qed.

Lemma ext_read D a a' p x : ext D a a' -> read_property a p = Ok x -> read_property a' p = Ok x.
Proof.
  intros He. unfold read_property, info_at, long_value.
  destruct (data_ a !! p) as [[b|i|l]|] eqn:Hp; try done. rewrite (He _ _ Hp) by (right; done). cbn [obind].
  destruct (is_long i), (pi_union_ i) as [v|m o]; try done.
  destruct (data_ a !! (p + o)) as [[b|i'|l]|] eqn:Hl; try done. by rewrite (He _ _ Hl) by (right; done).
Qed.

Lemma ext_entry D a a' e : ext D a a' -> entry_ok a e -> entry_ok a' e.
Proof. intros He [H1 H2]. split; [done|]. by eapply ext_read. Qed.

Lemma ext_repr D a a' t p : ext D a a' -> (forall x, x ∈ nodes t -> x ∉ D) -> repr a p t -> repr a' p t.
Proof.
  intros He. revert p. induction t as [|off nm e l IHl r IHr c IHc]; [done|]. cbn [nodes repr].
  intros p Hd (-> & Hoff & po & lo & ro & co & Hb & Hl & Hr & Hc & Hpo).
  split; [done|]. split; [done|]. exists po, lo, ro, co. split_and!.
  - apply He; [done|]. left. apply Hd. constructor.
  - apply IHl; [|done]. intros x Hx. apply Hd. rewrite elem_of_cons, !elem_of_app. auto.
  - apply IHr; [|done]. intros x Hx. apply Hd. rewrite elem_of_cons, !elem_of_app. auto.
  - apply IHc; [|done]. intros x Hx. apply Hd. rewrite elem_of_cons, !elem_of_app. auto.
  - destruct e as [e|]; [|done]. destruct Hpo as [-> Hpo]. split; [done|]. by eapply ext_entry.
Qed.

(** The nodes of a tree are node objects at positive offsets. *)
Lemma repr_node a p t x : repr a p t -> x ∈ nodes t -> 0 < x /\ exists b, data_ a !! x = Some (OBt b).
Proof.
  revert p. induction t as [|off nm e l IHl r IHr c IHc]; cbn [nodes repr]; [by intros p _ ?%elem_of_nil|].
  intros p (-> & Hoff & po & lo & ro & co & Hb & Hl & Hr & Hc & Hpo).
  rewrite elem_of_cons, !elem_of_app. intros [->|[H|[H|H]]]; eauto.
Qed.

Lemma repr_root a p t : repr a p t -> p <> 0 -> exists nm e l r c, t = Node p nm e l r c.
Proof. destruct t as [|off nm e l r c]; cbn; [done|]. intros (-> & _) _. by exists nm, e, l, r, c. Qed.

Definition prop_repr (a : prop_area) (po : Z) (e : option entry) : Prop :=
  match e with None => po = 0 | Some e => po = e_off e /\ entry_ok a e end.

Lemma nodes_sub s t x e c : sub s t = Some (x, e, c) -> x ∈ nodes t /\ forall y, y ∈ nodes c -> y ∈ nodes t.
Proof.
  intros H. destruct (nodes_upd _ _ _ _ _ H) as (rest & Hp & Hx & _).
  split; [rewrite Hp; apply elem_of_app; auto|]. intros y Hy. rewrite Hp. apply elem_of_app. auto.
Qed.

Lemma repr_sub a p t s x e c : repr a p t -> sub s t = Some (x, e, c) -> exists po lo ro co,
  data_ a !! x = Some (OBt (mk_bt (sz (length s)) po lo ro co (s ++ [0]))) /\ repr a co c /\ prop_repr a po e.
Proof.
  revert p. induction t as [|off nm e' l IHl r IHr c' IHc]; cbn [sub repr]; [done|].
  intros p (-> & Hoff & po & lo & ro & co & Hb & Hl & Hr & Hc & Hpo).
  destruct (name_cmp s nm) eqn:E; [|eauto..]. apply name_cmp_eq in E as <-. intros [= -> -> ->]. by exists po, lo, ro, co.
Qed.

Lemma repr_upd a a' p t s f x e c n po lo ro co nm po' co' :
  repr a p t -> NoDup (nodes t) -> sub s t = Some (x, e, c) ->
  data_ a !! x = Some (OBt (mk_bt n po lo ro co nm)) ->
  ext (x :: nodes c) a a' -> data_ a' !! x = Some (OBt (mk_bt n po' lo ro co' nm)) ->
  repr a' co' (snd (f (e, c))) -> prop_repr a' po' (fst (f (e, c))) ->
  repr a' p (upd s f t).
Proof.
  intros Hrep Hnd Hsub Hx He Hx' Hc' Hp'. revert p Hrep Hnd Hsub.
  induction t as [|off nm0 e0 l IHl r IHr c0 IHc]; cbn [sub upd nodes]; [done|].
  intros p Hrep. pose proof Hrep as (-> & Hoff & po0 & lo0 & ro0 & co0 & Hb & Hl & Hr & Hc & Hpo).
  rewrite NoDup_cons, !NoDup_app, elem_of_app, elem_of_app. intros (Hno & Hdl & Hlr & Hdr & Hrc & Hdc) Hsub.
  destruct (name_cmp s nm0) eqn:E.
  - injection Hsub as -> -> ->. assert (po0 = po /\ lo0 = lo /\ ro0 = ro /\ co0 = co /\ n = sz (length nm0) /\ nm = nm0 ++ [0])
      as (-> & -> & -> & -> & -> & ->) by (split_and!; congruence).
    cbn [repr]. split; [done|]. split; [done|]. exists po', lo, ro, co'. split_and!; [done| | |done|done].
    + eapply ext_repr; [done| |done]. intros y Hy. rewrite elem_of_cons. intros [->|Hin]; [tauto|].
      apply (Hlr y Hy). apply elem_of_app. auto.
    + eapply ext_repr; [done| |done]. intros y Hy. rewrite elem_of_cons. intros [->|Hin]; [tauto|]. by apply (Hrc y).
  - destruct (nodes_sub _ _ _ _ _ Hsub) as [Hxl Hcl]. cbn [repr]. split; [done|]. split; [done|].
    exists po0, lo0, ro0, co0. split_and!.
    + apply He; [done|]. left. rewrite elem_of_cons. intros [->|Hin]; [tauto|]. apply Hcl in Hin. tauto.
    + by apply IHl.
    + eapply ext_repr; [done| |done]. intros y Hy. rewrite elem_of_cons. intros Hin.
      apply (Hlr y); [destruct Hin as [->|Hin]; auto|]. apply elem_of_app. auto.
    + eapply ext_repr; [done| |done]. intros y Hy. rewrite elem_of_cons. intros Hin.
      apply (Hlr y); [destruct Hin as [->|Hin]; auto|]. apply elem_of_app. auto.
    + destruct e0; [|done]. destruct Hpo as [-> Hpo]. split; [done|]. by eapply ext_entry.
  - destruct (nodes_sub _ _ _ _ _ Hsub) as [Hxl Hcl]. cbn [repr]. split; [done|]. split; [done|].
    exists po0, lo0, ro0, co0. split_and!.
    + apply He; [done|]. left. rewrite elem_of_cons. intros [->|Hin]; [tauto|]. apply Hcl in Hin. tauto.
    + eapply ext_repr; [done| |done]. intros y Hy. rewrite elem_of_cons. intros Hin.
      apply (Hlr y Hy). apply elem_of_app. left. destruct Hin as [->|Hin]; auto.
    + by apply IHr.
    + eapply ext_repr; [done| |done]. intros y Hy. rewrite elem_of_cons. intros Hin.
      apply (Hrc y); [|done]. destruct Hin as [->|Hin]; auto.
    + destruct e0; [|done]. destruct Hpo as [-> Hpo]. split; [done|]. by eapply ext_entry.
Qed.

(** ** Properties after updates *)

Lemma lookup_path_nil_tree fs : lookup_path fs Leaf = None.
Proof. by destruct fs. Qed.

Lemma lookup_entry_set fs e' t fs' : lookup_path fs t <> None ->
  lookup_entry fs' (set_entry fs e' t) = if decide (fs' = fs) then Some e' else lookup_entry fs' t.
Proof.
  revert t fs'. induction fs as [|s fs IH]; intros t fs' Hp; [done|]. cbn [lookup_path] in Hp.
  destruct (sub s t) as [[[x e] c]|] eqn:Hs; [|done]. unfold lookup_entry. destruct fs' as [|s' fs']; [by rewrite decide_False|].
  cbn [lookup_path set_entry]. rewrite sub_upd, Hs. destruct (decide (s' = s)) as [->|Hne].
  - rewrite Hs. destruct fs as [|f fs]; cbn [fst snd].
    + destruct fs' as [|f' fs']; [by rewrite decide_True|]. by rewrite decide_False.
    + destruct fs' as [|f' fs']; [by rewrite decide_False|]. specialize (IH c (f' :: fs') Hp). unfold lookup_entry in IH. rewrite IH.
      destruct (decide (f' :: fs' = f :: fs)) as [E|E]; [by rewrite decide_True by congruence|by rewrite decide_False by congruence].
  - by rewrite decide_False by congruence.
Qed.

Lemma nodes_set fs e' t : nodes (set_entry fs e' t) ≡ₚ nodes t.
Proof.
  revert t. induction fs as [|s fs IH]; intros t; [done|]. cbn [set_entry].
  destruct (sub s t) as [[[x e] c]|] eqn:Hs.
  - destruct (nodes_upd _ _ _ _ _ Hs) as (rest & Hp & _ & Hf). rewrite Hf, Hp. f_equiv.
    destruct fs as [|f fs]; cbn [fst snd]; [done|apply IH].
  - replace (upd s _ t) with t; [done|]. revert Hs. generalize (fun ec : option entry * tree =>
      match fs with [] => (Some e', snd ec) | _ :: _ => (fst ec, set_entry fs e' (snd ec)) end). intros g.
    induction t as [|off nm e l IHl r IHr c _]; cbn; [done|]. destruct (name_cmp s nm); [done| |]; intros H; f_equal; auto.
Qed.

Lemma tree_ok_set fs e' t : tree_ok t -> tree_ok (set_entry fs e' t).
Proof.
  revert t. induction fs as [|s fs IH]; intros t Hok; [done|]. cbn [set_entry]. apply tree_ok_upd; [done|].
  intros off e c Hs. pose proof (tree_ok_sub _ _ _ _ _ Hok Hs). destruct fs; cbn [fst snd]; auto.
Qed.

Lemma repr_set fs e' a a' p t y e b po : repr a p t -> NoDup (nodes t) -> lookup_path fs t = Some (y, e) ->
  data_ a !! y = Some (OBt b) -> ext [y] a a' ->
  data_ a' !! y = Some (OBt (mk_bt (bt_namelen b) po (bt_left b) (bt_right b) (bt_children b) (bt_name b))) ->
  prop_repr a' po (Some e') -> repr a' p (set_entry fs e' t).
Proof.
  intros Hr Hnd Hp Hy He Hy' Hpo. revert p t Hr Hnd Hp. induction fs as [|s fs IH]; intros p t Hr Hnd Hp; [done|].
  cbn [lookup_path] in Hp. destruct (sub s t) as [[[x ex] c]|] eqn:Hs; [|done]. cbn [set_entry].
  destruct (repr_sub _ _ _ _ _ _ _ Hr Hs) as (px & lo & ro & co & Hx & Hcx & Hpx).
  destruct (nodes_upd _ _ _ _ _ Hs) as (rest & Hperm & Hxr & _). pose proof Hnd as Hnd'. rewrite Hperm, NoDup_app in Hnd'.
  destruct Hnd' as (Hnr & Hdis & Hnc). destruct fs as [|f fs].
  - injection Hp as -> ->. assert (b = mk_bt (sz (length s)) px lo ro co (s ++ [0])) as -> by congruence. cbn in Hy'.
    eapply (repr_upd a a' p t s _ y e c); try done; cbn [fst snd].
    + eapply ext_mono; [done|]. intros z ->%list_elem_of_singleton. constructor.
    + eapply ext_repr; [done| |done]. intros z Hz ->%list_elem_of_singleton. by apply (Hdis y).
  - assert (y ∈ nodes c) as Hyc.
    { clear -Hp. revert c Hp. generalize (f :: fs). intros gs. induction gs as [|g gs IH]; intros c; [done|]. cbn.
      destruct (sub g c) as [[[z ez] cz]|] eqn:Hs; [|done]. destruct (nodes_sub _ _ _ _ _ Hs) as [Hz Hsub].
      destruct gs; [by intros [= -> ->]|]. intros H. by apply Hsub, IH. }
    eapply (repr_upd a a' p t s _ x ex c); try done; cbn [fst snd].
    + eapply ext_mono; [done|]. intros z ->%list_elem_of_singleton. apply elem_of_cons. auto.
    + apply He; [done|]. left. intros ->%list_elem_of_singleton. by apply (Hdis y).
    + by apply IH.
    + destruct ex; [|done]. destruct Hpx as [-> Hpx]. split; [done|]. by eapply ext_entry.
Qed.

(** * Names *)

Fixpoint join (fs : list (list Z)) : list Z :=
  match fs with [] => [] | [f] => f | f :: fs => f ++ 46 :: join fs end.

Lemma join_cons f fs : fs <> [] -> join (f :: fs) = f ++ 46 :: join fs.
Proof. by destruct fs. Qed.

Lemma join_fields s : join (fields [46] s) = s.
Proof.
  induction s as [|c s IH]; [done|]. cbn [fields]. case_bool_decide as Hc.
  - apply list_elem_of_singleton in Hc as ->. rewrite join_cons, IH; [done|]. by destruct s; cbn; repeat case_match.
  - destruct (fields [46] s) as [|f fs] eqn:E; [by rewrite <- IH|]. rewrite <- IH.
    destruct fs; [done|]. by rewrite (join_cons (c :: f)), (join_cons f) by done.
Qed.

(** * Enumeration *)

(** The properties of a tree with their paths, in the order in which [foreach_property] visits
    them. *)
Fixpoint entries (t : tree) : list (list (list Z) * entry) :=
  match t with
  | Leaf => []
  | Node _ nm e l r c =>
      entries l ++ (match e with Some e => [([nm], e)] | None => [] end) ++
      ((fun pe => (nm :: fst pe, snd pe)) <$> entries c) ++ entries r
  end.

Lemma lookup_entry_node s fs off nm e l r c : lookup_entry (s :: fs) (Node off nm e l r c) =
  match name_cmp s nm with
  | Lt => lookup_entry (s :: fs) l
  | Gt => lookup_entry (s :: fs) r
  | Eq => match fs with [] => e | _ => lookup_entry fs c end
  end.
Proof. unfold lookup_entry. cbn [lookup_path sub]. destruct (name_cmp s nm); try done. by destruct fs. Qed.

Lemma elem_of_entry (s : list Z) (fs : list (list Z)) e0 (nm : list Z) (e : option entry) :
  (s :: fs, e0) ∈ (match e with Some e => [([nm], e)] | None => [] end) <-> s = nm /\ fs = [] /\ e = Some e0.
Proof.
  destruct e as [e|].
  - rewrite list_elem_of_singleton. split; [by intros [= -> -> ->]|]. by intros (-> & -> & [= ->]).
  - rewrite elem_of_nil. split; [done|]. by intros (_ & _ & ?).
Qed.

Lemma elem_of_under (s : list Z) fs e0 nm (l : list (list (list Z) * entry)) :
  (s :: fs, e0) ∈ ((fun pe => (nm :: fst pe, snd pe)) <$> l) <-> s = nm /\ (fs, e0) ∈ l.
Proof.
  rewrite list_elem_of_fmap. split.
  - intros ([fs' e'] & [= -> -> ->] & H). done.
  - intros [-> H]. by exists (fs, e0).
Qed.

Lemma entries_path fs e0 t : (fs, e0) ∈ entries t -> exists s fs', fs = s :: fs' /\ s ∈ names t.
Proof.
  induction t as [|off nm e l IHl r IHr c _]; cbn [entries names]; [by intros ?%elem_of_nil|].
  rewrite !elem_of_app. intros [H|[H|[H|H]]].
  - destruct (IHl H) as (s & fs' & -> & Hs). exists s, fs'. split; [done|]. apply elem_of_cons. right. apply elem_of_app. auto.
  - destruct e as [e|]; [|by apply elem_of_nil in H]. apply list_elem_of_singleton in H as [= -> ->]. exists nm, []. split; [done|constructor].
  - apply list_elem_of_fmap in H as ([fs' e'] & [= -> ->] & _). exists nm, fs'. split; [done|constructor].
  - destruct (IHr H) as (s & fs' & -> & Hs). exists s, fs'. split; [done|]. apply elem_of_cons. right. apply elem_of_app. auto.
Qed.

Lemma entries_lookup fs e0 t : tree_ok t -> (fs, e0) ∈ entries t <-> lookup_entry fs t = Some e0.
Proof.
  revert fs. induction t as [|off nm e l IHl r IHr c IHc]; intros fs.
  { intros _. cbn. rewrite elem_of_nil. split; [done|]. unfold lookup_entry. by rewrite lookup_path_nil_tree. }
  intros (_ & Hl & Hr & Hokl & Hokr & Hokc). destruct fs as [|s fs].
  { split; [|done]. intros H. by apply entries_path in H as (? & ? & ? & _). }
  rewrite lookup_entry_node. cbn [entries]. rewrite !elem_of_app, elem_of_entry, elem_of_under, (IHl _ Hokl), (IHr _ Hokr), (IHc _ Hokc).
  assert (forall t, tree_ok t -> (forall fs, (fs, e0) ∈ entries t <-> lookup_entry fs t = Some e0) ->
            lookup_entry (s :: fs) t = Some e0 -> s ∈ names t) as Hin.
  { intros t _ Hiff H. apply Hiff, entries_path in H as (s' & fs' & [= <- <-] & ?). done. }
  destruct (name_cmp s nm) eqn:E.
  - apply name_cmp_eq in E as ->. split.
    + intros [H|[(_ & -> & ?)|[[_ H]|H]]]; [|done| |].
      * apply (Hin l Hokl (fun fs => IHl fs Hokl)), Hl in H. by rewrite name_cmp_refl in H.
      * destruct fs; [|done]. by unfold lookup_entry in H.
      * apply (Hin r Hokr (fun fs => IHr fs Hokr)), Hr in H. by rewrite name_cmp_refl in H.
    + destruct fs; [by intros ->; right; left|]. intros H. right; right; left. done.
  - split; [|auto]. intros [H|[(-> & _)|[[-> _]|H]]]; [done|by rewrite name_cmp_refl in E..|].
    apply (Hin r Hokr (fun fs => IHr fs Hokr)), Hr in H. congruence.
  - split; [|auto]. intros [H|[(-> & _)|[[-> _]|H]]]; [|by rewrite name_cmp_refl in E..|done].
    apply (Hin l Hokl (fun fs => IHl fs Hokl)), Hl in H. congruence.
Qed.

Lemma entries_nodup t : tree_ok t -> NoDup (fst <$> entries t).
Proof.
  assert (forall t fs, fs ∈ fst <$> entries t -> exists s fs', fs = s :: fs' /\ s ∈ names t) as Hhead.
  { intros t0 fs ([fs' e] & -> & H)%list_elem_of_fmap. by eapply entries_path. }
  assert (forall nm e c fs, fs ∈ fst <$> (match e with Some e => [([nm], e)] | None => [] end) ++
            ((fun pe => (nm :: fst pe, snd pe)) <$> entries c) -> exists fs', fs = nm :: fs') as Hmid.
  { intros nm e c fs ([fs' e'] & -> & [H|H]%elem_of_app)%list_elem_of_fmap.
    - destruct e; [|by apply elem_of_nil in H]. apply list_elem_of_singleton in H as [= -> ->]. by exists [].
    - apply list_elem_of_fmap in H as ([fs0 e0] & [= -> ->] & _). by exists fs0. }
  induction t as [|off nm e l IHl r IHr c IHc]; [constructor|].
  intros (_ & Hl & Hr & Hokl & Hokr & Hokc). cbn [entries]. rewrite (app_assoc _ _ (entries r)), !fmap_app, <- fmap_app.
  rewrite !NoDup_app. split_and!; auto.
  - intros fs H1 H2. apply Hhead in H1 as (s & fs' & -> & Hs). apply elem_of_app in H2 as [H2|H2].
    + apply Hmid in H2 as (fs2 & [= -> _]). apply Hl in Hs. by rewrite name_cmp_refl in Hs.
    + apply Hhead in H2 as (s2 & fs2 & [= <- _] & H2). apply Hl in Hs. apply Hr in H2. congruence.
  - rewrite fmap_app. apply NoDup_app. split_and!.
    + destruct e; cbn; [apply NoDup_singleton|constructor].
    + intros fs H1 H2. destruct e as [e|]; [|by apply elem_of_nil in H1]. apply list_elem_of_singleton in H1 as ->.
      apply list_elem_of_fmap in H2 as ([fs' e'] & H2 & H3). cbn in H2. subst fs'.
      apply list_elem_of_fmap in H3 as ([fs0 e0] & [= <- _] & H3). by apply entries_path in H3 as (? & ? & ? & _).
    + rewrite <- list_fmap_compose. rewrite (list_fmap_ext _ (cons nm ∘ fst)) by done. rewrite list_fmap_compose.
      apply NoDup_fmap; [by intros ?? [=]|auto].
  - intros fs H1 H2. apply Hmid in H1 as (fs' & ->). apply Hhead in H2 as (s & fs2 & [= <- _] & Hs).
    apply Hr in Hs. by rewrite name_cmp_refl in Hs.
Qed.
