(* ===== verification/PropAreaCorrect.v ===== *)
(** Property areas are finite maps.

    [area_wf] is the invariant of the allocator, [holds] relates an area to the tree it holds, and
    [stores] to the map from names to values it stands for.  The theorems say that the operations
    of [PropArea] act on an area as the operations of a finite map act on that map, within the
    room there is. *)

From stdpp Require Import gmap.
From S2P Require Import Prelude Result CString StrTok Fortify PropArea PropTree.

(** * The allocator *)

Definition obj_size (o : obj) : Z :=
  match o with
  | OBt b => sizeof_prop_bt + sz (length (bt_name b))
  | OInfo i => sizeof_prop_info + sz (length (pi_name i))
  | OChars l => sz (length l)
  end.

(** The offset behind the root node and the dirty backup area. *)
Definition first_free : Z := 112.

Section wf.
Context (D : Z).

(** The objects lie one behind the other inside the used part of the area, which is inside the
    area, and behind the dirty backup area except for the root. *)
Record area_wf (a : prop_area) : Prop := mk_wf {
  wf_used : first_free <= bytes_used_ a <= D;
  wf_align : bytes_used_ a mod 4 = 0;
  wf_obj p o : data_ a !! p = Some o ->
    p mod 4 = 0 /\ 0 < obj_size o /\ p + obj_size o <= bytes_used_ a /\ (p = 0 /\ obj_size o <= dirty_backup_area \/ first_free <= p);
  wf_disjoint p q o o' : data_ a !! p = Some o -> data_ a !! q = Some o' -> p < q -> p + obj_size o <= q }.

Lemma align_4 v : 0 <= v -> __BIONIC_ALIGN v 4 = 4 * ((v + 3) / 4).
Proof.
  intros Hv. unfold __BIONIC_ALIGN. replace (v + 4 - 1) with (v + 3) by lia. change (4 - 1) with (Z.ones 2).
  rewrite <- Z.ldiff_land, Z.ldiff_ones_r, Z.shiftl_mul_pow2, Z.shiftr_div_pow2 by lia. change (2 ^ 2) with 4. lia.
Qed.

Lemma align_bound v : 0 <= v -> v <= __BIONIC_ALIGN v 4 < v + 4 /\ __BIONIC_ALIGN v 4 mod 4 = 0.
Proof.
  intros Hv. rewrite align_4 by done. pose proof (Z.div_mod (v + 3) 4 ltac:(lia)).
  pose proof (Z.mod_pos_bound (v + 3) 4 ltac:(lia)). split; [lia|]. rewrite Z.mul_comm. by apply Z.mod_mul.
Qed.

Lemma wf_below a p o : area_wf a -> data_ a !! p = Some o -> 0 <= p < bytes_used_ a.
Proof.
  intros W Hp. destruct (wf_obj _ W _ _ Hp) as (_ & ? & ? & [[-> _]|?]); unfold first_free in *; lia.
Qed.

Lemma fresh_none a p : area_wf a -> bytes_used_ a <= p -> data_ a !! p = None.
Proof.
  intros W Hle. destruct (data_ a !! p) as [o|] eqn:E; [|done]. pose proof (wf_below _ _ _ W E). lia.
Qed.

(** More room is used. *)
Lemma wf_grow a al : area_wf a -> 0 <= al -> al mod 4 = 0 -> bytes_used_ a + al <= D ->
  area_wf (mk_area (bytes_used_ a + al) (data_ a)).
Proof.
  intros W H0 Hal Hd. pose proof (wf_used _ W). split; cbn.
  - lia.
  - rewrite Z.add_mod, (wf_align _ W), Hal by lia. done.
  - intros p o Hp. destruct (wf_obj _ W _ _ Hp) as (? & ? & ? & ?). split_and!; [done..|lia|done].
  - apply (wf_disjoint _ W).
Qed.

(** An object is put where there is none. *)
Lemma wf_store a off o : area_wf a -> off mod 4 = 0 -> first_free <= off -> 0 < obj_size o ->
  off + obj_size o <= bytes_used_ a ->
  (forall p o', data_ a !! p = Some o' -> p + obj_size o' <= off \/ off + obj_size o <= p) ->
  area_wf (store a off o).
Proof.
  intros W Ho Hf Hpos Hu Hdis. split; cbn.
  - apply W.
  - apply W.
  - intros p o'. destruct (decide (p = off)) as [->|Hne].
    + rewrite lookup_insert_eq. intros [= <-]. auto.
    + rewrite lookup_insert_ne by done. apply W.
  - intros p q o1 o2. destruct (decide (p = off)) as [->|Hne], (decide (q = off)) as [->|Hne'];
      rewrite ?lookup_insert_eq, ?lookup_insert_ne by done.
    + lia.
    + intros [= <-] Hq Hlt. destruct (Hdis _ _ Hq) as [H|H]; [|done]. destruct (wf_obj _ W _ _ Hq) as (_ & ? & _). lia.
    + intros Hp [= <-] Hlt. destruct (Hdis _ _ Hp) as [H|H]; [done|]. lia.
    + apply (wf_disjoint _ W).
Qed.

(** A node is changed. *)
Lemma wf_store_bt a off b b' : area_wf a -> data_ a !! off = Some (OBt b) -> bt_name b' = bt_name b ->
  area_wf (store a off (OBt b')).
Proof.
  intros W Hb Hn. assert (obj_size (OBt b') = obj_size (OBt b)) as Hs by (cbn; by rewrite Hn).
  assert (forall p o, <[off := OBt b']> (data_ a) !! p = Some o -> exists o', data_ a !! p = Some o' /\ obj_size o' = obj_size o) as Ho.
  { intros p o. destruct (decide (p = off)) as [->|Hne]; [rewrite lookup_insert_eq|rewrite lookup_insert_ne by done].
    - intros [= <-]. by exists (OBt b).
    - intros Hp. by exists o. }
  split; cbn [store data_ bytes_used_].
  - apply W.
  - apply W.
  - intros p o (o' & Hp & <-)%Ho. by apply W.
  - intros p q o o' (o1 & Hp & <-)%Ho (o2 & Hq & _)%Ho. by eapply wf_disjoint.
Qed.

(** A new object in new room. *)
Lemma wf_store_new a al o : area_wf a -> al mod 4 = 0 -> 0 < obj_size o <= al -> bytes_used_ a + al <= D ->
  area_wf (store (mk_area (bytes_used_ a + al) (data_ a)) (bytes_used_ a) o).
Proof.
  intros W Hal Hs Hd. apply wf_store; cbn; [apply wf_grow; (done || lia)|apply W|apply W|lia|lia|].
  intros p o' Hp. left. by apply (wf_obj _ W) in Hp as (_ & _ & ? & _).
Qed.

Lemma ext_grow Ds a n o : area_wf a -> ext Ds a (store (mk_area n (data_ a)) (bytes_used_ a) o).
Proof. intros W p o' Hp _. cbn. rewrite lookup_insert_ne; [done|]. intros <-. by rewrite fresh_none in Hp. Qed.

Lemma ext_store_bt a off b b' : data_ a !! off = Some (OBt b) -> ext [off] a (store a off (OBt b')).
Proof.
  intros Hb p o Hp Ho. cbn. rewrite lookup_insert_ne; [done|]. intros <-. destruct Ho as [Ho|Ho].
  - apply Ho. constructor.
  - apply (Ho b). congruence.
Qed.

Context (D_small : D < 2 ^ 32).

Lemma allocate_obj_eq a size : area_wf a -> 0 <= size ->
  allocate_obj D a size =
    if D <? bytes_used_ a + __BIONIC_ALIGN size 4 then None
    else Some (mk_area (bytes_used_ a + __BIONIC_ALIGN size 4) (data_ a), bytes_used_ a).
Proof using D_small.
  intros W Hs. unfold allocate_obj. destruct (Z.ltb_spec D (bytes_used_ a + __BIONIC_ALIGN size 4)); [done|].
  pose proof (align_bound size Hs). pose proof (wf_used _ W). unfold first_free in *.
  unfold wrapU. by rewrite Z.mod_small by lia.
Qed.

Lemma to_prop_obj_in a p o : area_wf a -> data_ a !! p = Some o -> to_prop_obj D p = Some p.
Proof.
  intros W Hp. pose proof (wf_below _ _ _ W Hp). pose proof (wf_used _ W). unfold to_prop_obj.
  by rewrite (proj2 (Z.ltb_ge _ _)) by lia.
Qed.

(** The room a node needs. *)
Definition bt_room (n : nat) : Z := __BIONIC_ALIGN (sizeof_prop_bt + sz n + 1) 4.

Lemma new_prop_bt_spec a s rest : area_wf a ->
  (new_prop_bt D a (s ++ rest) (length s) = Ok (a, None) /\ D < bytes_used_ a + bt_room (length s)) \/
  exists a', new_prop_bt D a (s ++ rest) (length s) = Ok (a', Some (bytes_used_ a)) /\
    area_wf a' /\ ext [] a a' /\ bytes_used_ a' = bytes_used_ a + bt_room (length s) /\
    data_ a' !! bytes_used_ a = Some (OBt (mk_bt (sz (length s)) 0 0 0 0 (s ++ [0]))).
Proof using D_small.
  intros W. unfold new_prop_bt, memcpy_from. rewrite allocate_obj_eq by (done || (unfold sizeof_prop_bt; lia)).
  fold (bt_room (length s)). destruct (Z.ltb_spec D (bytes_used_ a + bt_room (length s))) as [Hlt|Hge]; [by left|right].
  rewrite (proj2 (Nat.leb_le _ _)) by (rewrite length_app; lia). cbn [obind]. rewrite take_app_length.
  pose proof (align_bound (sizeof_prop_bt + sz (length s) + 1) ltac:(unfold sizeof_prop_bt; lia)) as Hal. fold (bt_room (length s)) in Hal.
  eexists. split; [done|]. split_and!.
  - apply wf_store_new; [done|apply Hal| |done]. cbn. rewrite length_app. cbn. unfold sizeof_prop_bt in *. lia.
  - by apply ext_grow.
  - done.
  - cbn. by rewrite lookup_insert_eq.
Qed.

(** * Search among siblings *)

Lemma strncmp_same s r1 nm r2 : cstring s -> length s = length nm ->
  exists d, strncmp (s ++ r1) (nm ++ r2) (length s) = Some d /\ (d ?= 0) = lex s nm.
Proof.
  intros Hs. revert nm. induction Hs as [|c s Hc Hs IH]; intros [|c' nm] Hl; cbn [length] in Hl; try lia; [by exists 0|].
  cbn [strncmp app length lex]. destruct (Z.eqb_spec c c') as [->|Hne].
  - next_char. rewrite Z.compare_refl. apply IH. lia.
  - exists (c - c'). split; [done|]. by apply diff_compare.
Qed.

Lemma cmp_prop_name_spec s rest nm : cstring s ->
  exists d, cmp_prop_name (s ++ rest) (sz (length s)) (nm ++ [0]) (sz (length nm)) = Ok d /\ (d ?= 0) = name_cmp s nm.
Proof.
  intros Hs. unfold cmp_prop_name, name_cmp. destruct (Nat.compare_spec (length s) (length nm)) as [E|H|H].
  - rewrite E, Z.ltb_irrefl, Nat2Z.id. destruct (strncmp_same s rest nm [0] Hs E) as (d & Hd & Hl).
    rewrite E in Hd. rewrite Hd. by exists d.
  - rewrite (proj2 (Z.ltb_lt _ _)) by lia. by exists (-1).
  - rewrite (proj2 (Z.ltb_ge _ _)), (proj2 (Z.ltb_lt _ _)) by lia. by exists 1.
Qed.

(** One turn of the loop at the node [b] of name [nm]. *)
Lemma find_prop_bt_turn fuel a p b s rest nm alloc : cstring s ->
  data_ a !! p = Some (OBt b) -> bt_name b = nm ++ [0] -> bt_namelen b = sz (length nm) ->
  exists left right, find_prop_bt D (S fuel) a (Some p) (s ++ rest) (length s) alloc =
    (match name_cmp s nm with Eq => Ok (a, Some p) | Lt => left | Gt => right end) /\
    left = (if negb (bt_left b =? 0) then find_prop_bt D fuel a (to_prop_obj D (bt_left b)) (s ++ rest) (length s) alloc
            else if negb alloc then Ok (a, None)
            else r <-- new_prop_bt D a (s ++ rest) (length s) ;;
                 match r with
                 | (a, None) => Ok (a, None)
                 | (a, Some x) =>
                     Ok (store a p (OBt (mk_bt (bt_namelen b) (bt_prop b) x (bt_right b) (bt_children b) (bt_name b))), Some x)
                 end) /\
    right = (if negb (bt_right b =? 0) then find_prop_bt D fuel a (to_prop_obj D (bt_right b)) (s ++ rest) (length s) alloc
            else if negb alloc then Ok (a, None)
            else r <-- new_prop_bt D a (s ++ rest) (length s) ;;
                 match r with
                 | (a, None) => Ok (a, None)
                 | (a, Some x) =>
                     Ok (store a p (OBt (mk_bt (bt_namelen b) (bt_prop b) (bt_left b) x (bt_children b) (bt_name b))), Some x)
                 end).
Proof.
  intros Hs Hb Hn Hl. eexists _, _. split; [|split; reflexivity].
  cbn [find_prop_bt]. unfold bt_at. rewrite Hb. cbn [obind]. rewrite Hn, Hl.
  destruct (cmp_prop_name_spec s rest nm Hs) as (d & -> & Hd). cbn [obind].
  destruct (Z.eqb_spec d 0) as [->|Hne]; [by rewrite <- Hd|].
  destruct (Z.ltb_spec d 0) as [H|H]; rewrite <- Hd; [by rewrite (proj2 (Z.compare_lt_iff _ _))|].
  by rewrite (proj2 (Z.compare_gt_iff _ _)) by lia.
Qed.

(** The search finds what is in the tree, and without allocation nothing else. *)
Lemma find_prop_bt_sub fuel a p t s rest alloc : area_wf a -> repr a p t -> p <> 0 -> cstring s ->
  (length (nodes t) < fuel)%nat -> alloc = false \/ sub s t <> None ->
  find_prop_bt D fuel a (Some p) (s ++ rest) (length s) alloc =
    Ok (a, match sub s t with Some (x, _, _) => Some x | None => None end).
Proof.
  intros W Hr Hp Hs. revert p fuel Hr Hp. induction t as [|off nm e l IHl r IHr c _]; intros p fuel; cbn [repr nodes sub length].
  { by intros ->. }
  intros (-> & Hoff & po & lo & ro & co & Hb & Hl & Hrr & Hc & Hpo) _ Hfuel Hal. destruct fuel as [|fuel]; [lia|].
  rewrite !length_app in Hfuel.
  destruct (find_prop_bt_turn fuel a off _ s rest nm alloc Hs Hb eq_refl eq_refl) as (lft & rgt & -> & -> & ->).
  cbn [bt_left bt_right].
  destruct (name_cmp s nm) eqn:E; [done|..].
  - destruct (Z.eqb_spec lo 0) as [->|Hlo]; cbn [negb].
    + destruct l as [|? ? ? ? ? ?]; [|destruct Hl as (-> & ? & _); lia]. destruct Hal as [->|]; done.
    + destruct (repr_root _ _ _ Hl Hlo) as (?&?&?&?&?& ->). destruct (repr_node _ _ _ lo Hl) as [_ [b' Hb']]; [constructor|].
      rewrite (to_prop_obj_in _ _ _ W Hb'). apply IHl; (done || lia).
  - destruct (Z.eqb_spec ro 0) as [->|Hro]; cbn [negb].
    + destruct r as [|? ? ? ? ? ?]; [|destruct Hrr as (-> & ? & _); lia]. destruct Hal as [->|]; done.
    + destruct (repr_root _ _ _ Hrr Hro) as (?&?&?&?&?& ->). destruct (repr_node _ _ _ ro Hrr) as [_ [b' Hb']]; [constructor|].
      rewrite (to_prop_obj_in _ _ _ W Hb'). apply IHr; (done || lia).
Qed.

(** A new node is hung into the node at [p]. *)
Lemma hang_node a p b b' s rest : area_wf a -> data_ a !! p = Some (OBt b) -> (forall x, bt_name (b' x) = bt_name b) ->
  let r := (r <-- new_prop_bt D a (s ++ rest) (length s) ;;
            match r with (a, None) => Ok (a, None) | (a, Some x) => Ok (store a p (OBt (b' x)), Some x) end) in
  (r = Ok (a, None) /\ D < bytes_used_ a + bt_room (length s)) \/
  exists a', r = Ok (a', Some (bytes_used_ a)) /\ area_wf a' /\ ext [p] a a' /\
    bytes_used_ a' = bytes_used_ a + bt_room (length s) /\
    data_ a' !! p = Some (OBt (b' (bytes_used_ a))) /\
    repr a' (bytes_used_ a) (Node (bytes_used_ a) s None Leaf Leaf Leaf).
Proof using D_small.
  intros W Hb Hn r. subst r. destruct (new_prop_bt_spec a s rest W) as [[-> H]|(a1 & -> & W1 & He & Hu & Hd)]; [by left|right].
  cbn [obind]. eexists. split; [done|]. assert (data_ a1 !! p = Some (OBt b)) as Hb1.
  { apply He; [done|]. left. apply not_elem_of_nil. }
  pose proof (wf_below _ _ _ W Hb). split_and!.
  - by eapply wf_store_bt.
  - eapply ext_trans; [|by eapply ext_store_bt|auto]. eapply ext_mono; [done|]. by intros ? ?%elem_of_nil.
  - done.
  - cbn. by rewrite lookup_insert_eq.
  - cbn. pose proof (wf_used _ W). unfold first_free in *. split; [done|]. split; [lia|].
    exists 0, 0, 0, 0. split_and!; try done. by rewrite lookup_insert_ne by lia.
Qed.

(** A node whose left and right trees are known in [a'], the rest of it in [a]. *)
Lemma node_frame a a' Ds off nm e po lo ro co l r c : ext Ds a a' -> 0 < off ->
  data_ a' !! off = Some (OBt (mk_bt (sz (length nm)) po lo ro co (nm ++ [0]))) ->
  repr a' lo l -> repr a' ro r -> repr a co c -> (forall y, y ∈ nodes c -> y ∉ Ds) -> prop_repr a po e ->
  repr a' off (Node off nm e l r c).
Proof.
  intros He Ho Hb Hl Hr Hc Hd Hpo. cbn [repr]. split; [done|]. split; [done|]. exists po, lo, ro, co.
  split_and!; try done; [by eapply ext_repr|]. destruct e; [|done]. destruct Hpo as [-> Hpo]. split; [done|]. by eapply ext_entry.
Qed.

Lemma find_prop_bt_ins fuel a p t s rest : area_wf a -> repr a p t -> NoDup (nodes t) -> p <> 0 -> cstring s ->
  (length (nodes t) < fuel)%nat -> sub s t = None ->
  let r := find_prop_bt D fuel a (Some p) (s ++ rest) (length s) true in
  (r = Ok (a, None) /\ D < bytes_used_ a + bt_room (length s)) \/
  exists a', r = Ok (a', Some (bytes_used_ a)) /\ area_wf a' /\ ext (nodes t) a a' /\
    bytes_used_ a' = bytes_used_ a + bt_room (length s) /\ repr a' p (ins s (bytes_used_ a) t).
Proof using D_small.
  intros W Hr Hnd Hp Hs. revert p fuel Hr Hnd Hp.
  induction t as [|off nm e l IHl r IHr c _]; intros p fuel; cbn [repr nodes sub ins length].
  { by intros ->. }
  intros (-> & Hoff & po & lo & ro & co & Hb & Hl & Hrr & Hc & Hpo) Hnd _ Hfuel Hsub. destruct fuel as [|fuel]; [lia|].
  rewrite !length_app in Hfuel.
  rewrite NoDup_cons, !NoDup_app, elem_of_app, elem_of_app in Hnd. destruct Hnd as (Hno & Hdl & Hlr & Hdr & Hrc & Hdc).
  destruct (find_prop_bt_turn fuel a off _ s rest nm true Hs Hb eq_refl eq_refl) as (lft & rgt & -> & -> & ->).
  cbn [bt_left bt_right bt_namelen bt_prop bt_children bt_name negb].
  destruct (name_cmp s nm) eqn:E; [done|..].
  - destruct (Z.eqb_spec lo 0) as [->|Hlo]; cbn [negb].
    + destruct l as [|]; [|destruct Hl as (-> & ? & _); lia].
      destruct (hang_node a off _ (fun x => mk_bt (sz (length nm)) po x ro co (nm ++ [0])) s rest W Hb) as
        [[-> H]|(a' & -> & W' & He & Hu & Hoff' & Hnew)]; [done|by left|right]. exists a'. split_and!; try done.
      * eapply ext_mono; [done|]. intros y ->%list_elem_of_singleton. constructor.
      * assert (forall y, y ∈ nodes r \/ y ∈ nodes c -> y ∉ [off]) as Hf by (intros y Hy ->%list_elem_of_singleton; tauto).
        eapply (node_frame a); try done; [|auto]. eapply ext_repr; [done| |done]. auto.
    + destruct (repr_root _ _ _ Hl Hlo) as (?&?&?&?&?& El). destruct (repr_node _ _ _ lo Hl) as [_ [b' Hb']]; [rewrite El; constructor|].
      rewrite (to_prop_obj_in _ _ _ W Hb').
      destruct (IHl lo fuel Hl Hdl Hlo) as [[-> H]|(a' & -> & W' & He & Hu & Hrep)]; [lia|done|by left|right].
      exists a'. split_and!; try done.
      * eapply ext_mono; [done|]. intros y Hy. rewrite elem_of_cons, !elem_of_app. auto.
      * assert (forall y, y ∈ nodes r \/ y ∈ nodes c -> y ∉ nodes l) as Hf by (intros y Hy Hin; apply (Hlr y Hin), elem_of_app; auto).
        eapply (node_frame a); try done; [apply He; [done|]; left; tauto| |auto]. eapply ext_repr; [done| |done]. auto.
  - destruct (Z.eqb_spec ro 0) as [->|Hro]; cbn [negb].
    + destruct r as [|]; [|destruct Hrr as (-> & ? & _); lia].
      destruct (hang_node a off _ (fun x => mk_bt (sz (length nm)) po lo x co (nm ++ [0])) s rest W Hb) as
        [[-> H]|(a' & -> & W' & He & Hu & Hoff' & Hnew)]; [done|by left|right]. exists a'. split_and!; try done.
      * eapply ext_mono; [done|]. intros y ->%list_elem_of_singleton. constructor.
      * assert (forall y, y ∈ nodes l \/ y ∈ nodes c -> y ∉ [off]) as Hf by (intros y Hy ->%list_elem_of_singleton; tauto).
        eapply (node_frame a); try done; [|auto]. eapply ext_repr; [done| |done]. auto.
    + destruct (repr_root _ _ _ Hrr Hro) as (?&?&?&?&?& El). destruct (repr_node _ _ _ ro Hrr) as [_ [b' Hb']]; [rewrite El; constructor|].
      rewrite (to_prop_obj_in _ _ _ W Hb').
      destruct (IHr ro fuel Hrr Hdr Hro) as [[-> H]|(a' & -> & W' & He & Hu & Hrep)]; [lia|done|by left|right].
      exists a'. split_and!; try done.
      * eapply ext_mono; [done|]. intros y Hy. rewrite elem_of_cons, !elem_of_app. auto.
      * assert (forall y, y ∈ nodes c -> y ∉ nodes r) as Hf by (intros y Hy Hin; by apply (Hrc y Hin)).
        eapply (node_frame a); try done; [apply He; [done|]; left; tauto|]. eapply ext_repr; [done| |done].
        intros y Hy Hin. apply (Hlr y Hy), elem_of_app; auto.
Qed.

(** * The loop over the fields of a name *)

Lemma nodup_bounded (l : list Z) n : NoDup l -> (forall x, x ∈ l -> 0 <= x < n) -> (length l <= Z.to_nat n)%nat.
Proof.
  intros Hnd Hb. assert (l ⊆+ seqZ 0 n) as H.
  { apply NoDup_submseteq; [done|]. intros x Hx. apply elem_of_seqZ. specialize (Hb x Hx). lia. }
  apply submseteq_length in H. by rewrite length_seqZ in H.
Qed.

Lemma nodes_fuel a p t : area_wf a -> repr a p t -> NoDup (nodes t) -> (length (nodes t) < area_fuel a)%nat.
Proof.
  intros W Hr Hnd. unfold area_fuel. apply Nat.lt_succ_r, nodup_bounded; [done|].
  intros x Hx. destruct (repr_node _ _ _ _ Hr Hx) as [_ [b Hb]]. by eapply wf_below.
Qed.

Lemma u32_small n : sz n < 2 ^ 32 -> u32 n = n.
Proof. intros H. unfold u32. rewrite wrapU_small by lia. lia. Qed.

(** The dot that ends the first field. *)
Lemma strchr_dot s t f : cstring s -> sz (length s) < SIZE_MAX -> no_delim [46] f ->
  (s = f -> strchr (s ++ 0 :: t) 46 = Ok None) /\
  (forall s2, s = f ++ 46 :: s2 -> strchr (s ++ 0 :: t) 46 = Ok (Some (length f))).
Proof.
  intros Hs Hl Hf.
  assert (forall j x, f !! j = Some x -> x <> 46) as Hd.
  { intros j x Hj ->. rewrite Forall_lookup in Hf. by apply (Hf _ _ Hj), list_elem_of_singleton. }
  split; [intros ->|intros s2 ->]; unfold strchr.
  - rewrite (strchr_chk_cstring _ _ _ _ None); [by rewrite (proj2 (Z.ltb_lt _ _))|done|done|].
    intros j x. rewrite lookup_app. destruct (f !! j) eqn:E; [intros [= <-]; by eapply Hd|].
    destruct (j - length f)%nat as [|k]; [by intros [= <-]|done].
  - rewrite (strchr_chk_cstring _ _ _ _ (Some (length f))).
    + rewrite (proj2 (Z.ltb_lt _ _)); [done|]. cbn. rewrite length_app in Hl. lia.
    + done.
    + done.
    + split; [exists 46; split; [rewrite <- app_assoc; cbn [app]; by apply list_lookup_middle|done]|].
      intros j x Hj. rewrite <- app_assoc, lookup_app_l by done. apply Hd.
Qed.

Lemma lookup_path_cons f fs t : lookup_path (f :: fs) t =
  match sub f t with
  | None => None
  | Some (off, e, c) => match fs with [] => Some (off, e) | _ => lookup_path fs c end
  end.
Proof. done. Qed.

Lemma fields_not_nil d s : fields d s <> [].
Proof. destruct s as [|c s]; cbn; [done|]. destruct (bool_decide _); [done|]. by destruct (fields d s). Qed.

(** The first field of a name and the rest, as the code cuts them. *)
Lemma cut_name s t fuel : cstring s -> sz (length s) < 2 ^ 32 -> (length s < S fuel)%nat ->
  exists f k sep fs, cstring f /\ no_delim [46] f /\ s ++ 0 :: t = f ++ k /\ fields [46] s = f :: fs /\
    strchr (s ++ 0 :: t) 46 = Ok sep /\
    match sep with Some i => Ok (u32 i) | None => omap_ok u32 (run (strlen (s ++ 0 :: t))) end = Ok (length f) /\
    (sep = None /\ fs = [] \/
     sep = Some (length f) /\ exists s2, fs = fields [46] s2 /\ drop (S (length f)) (s ++ 0 :: t) = s2 ++ 0 :: t /\
       cstring s2 /\ sz (length s2) < 2 ^ 32 /\ (length s2 < fuel)%nat).
Proof.
  intros Hs Hl Hfuel. assert (sz (length s) < SIZE_MAX) as Hl' by (unfold SIZE_MAX; lia).
  destruct (first_field [46] s) as (f & Hf & [->|(c & s2 & Hc & ->)]).
  - exists f, (0 :: t), None, []. split_and!; try done; [by apply fields_clean|by apply (strchr_dot f t f)| |auto].
    rewrite strlen_cstring by done. cbn. by rewrite u32_small.
  - apply list_elem_of_singleton in Hc as ->. destruct (cstring_cut _ _ _ Hs) as (Hcf & _ & Hcs).
    exists f, (46 :: s2 ++ 0 :: t), (Some (length f)), (fields [46] s2). split_and!; try done.
    + by rewrite <- app_assoc.
    + apply fields_cut; [done|]. by apply list_elem_of_singleton.
    + by eapply (strchr_dot _ t f Hs Hl' Hf).
    + rewrite u32_small; [done|]. rewrite length_app in Hl. lia.
    + right. split; [done|]. rewrite length_app in *. cbn [length] in *. exists s2. split_and!; try done; [|lia..].
      rewrite <- app_assoc. cbn [app]. by rewrite drop_app_ge, Nat.sub_succ_l, Nat.sub_diag by lia.
Qed.

Lemma find_node_read fuel a cur b c s t : area_wf a -> data_ a !! cur = Some (OBt b) -> repr a (bt_children b) c ->
  NoDup (nodes c) -> tree_ok c -> cstring s -> sz (length s) < 2 ^ 32 -> (length s < fuel)%nat ->
  find_node D fuel a cur (s ++ 0 :: t) false =
    Ok (a, match lookup_path (fields [46] s) c with Some (x, _) => Some x | None => None end).
Proof.
  intros W. revert cur b c s. induction fuel as [|fuel IH]; intros cur b c s Hb Hr Hnd Hok Hs Hl Hfuel; [lia|].
  destruct (cut_name s t fuel Hs Hl Hfuel) as (f & k & sep & fs & Hf & Hfd & Hk & -> & Hsepeq & Hlen & Hsep).
  cbn [find_node]. rewrite Hsepeq.
  cbn [obind]. rewrite Hlen. cbn [obind]. rewrite lookup_path_cons. destruct f as [|x f]; [by rewrite sub_nil|].
  set (f' := x :: f) in *. change (length f' =? 0)%nat with false. cbn [negb].
  unfold bt_at. rewrite Hb. cbn [obind]. destruct (Z.eqb_spec (bt_children b) 0) as [E|E]; cbn [negb obind].
  { destruct c as [|]; [done|]. destruct Hr as (? & ? & _). lia. }
  destruct (repr_root _ _ _ Hr E) as (?&?&?&?&?& Ec). destruct (repr_node _ _ _ (bt_children b) Hr) as [_ [b' Hb']]; [rewrite Ec; constructor|].
  rewrite (to_prop_obj_in _ _ _ W Hb'). cbn [obind]. rewrite Hk.
  rewrite (find_prop_bt_sub _ _ _ c) by (done || (by eapply nodes_fuel) || by left). rewrite <- Hk. cbn [obind].
  destruct (sub f' c) as [[[y e] cy]|] eqn:Hsub; [|done].
  destruct Hsep as [[-> ->]|[-> (s2 & -> & -> & Hs2 & Hl2 & Hf2)]]; [done|].
  destruct (repr_sub _ _ _ _ _ _ _ Hr Hsub) as (po & lo & ro & co & Hy & Hcy & _).
  rewrite (IH _ _ cy s2 Hy); try done.
  - pose proof (fields_not_nil [46] s2). by destruct (fields [46] s2).
  - destruct (nodes_upd _ _ _ _ _ Hsub) as (rest & Hp & _). rewrite Hp in Hnd. by apply NoDup_app in Hnd as (_ & _ & ?).
  - by eapply tree_ok_sub.
Qed.

(** ** With allocation *)

Definition set_children (b : prop_bt) (co : Z) : prop_bt :=
  mk_bt (bt_namelen b) (bt_prop b) (bt_left b) (bt_right b) co (bt_name b).

(** The node [b] at [cur] with the tree [c] of its children. *)
Record at_node (a : prop_area) (cur : Z) (b : prop_bt) (c : tree) : Prop := mk_at_node {
  an_wf : area_wf a;
  an_bt : data_ a !! cur = Some (OBt b);
  an_repr : repr a (bt_children b) c;
  an_nodup : NoDup (cur :: nodes c);
  an_ok : tree_ok c }.

(** From [a] to [a'] nodes were added below [cur], and no property. *)
Record grown (a : prop_area) (cur : Z) (b : prop_bt) (c : tree) (a' : prop_area) (b' : prop_bt) (c' : tree) : Prop := mk_grown {
  gr_node : at_node a' cur b' c';
  gr_b : b' = set_children b (bt_children b');
  gr_ext : ext (cur :: nodes c) a a';
  gr_used : bytes_used_ a <= bytes_used_ a';
  gr_new x : x ∈ nodes c' -> x ∈ nodes c \/ bytes_used_ a <= x;
  gr_same fs : lookup_entry fs c' = lookup_entry fs c;
  gr_path fs ye : lookup_path fs c = Some ye -> lookup_path fs c' = Some ye }.

Lemma grown_refl a cur b c : at_node a cur b c -> grown a cur b c a b c.
Proof. intros H. split; try done; [by destruct b|apply ext_refl|auto]. Qed.

Lemma grown_trans a cur b c a1 b1 c1 a2 b2 c2 : area_wf a ->
  grown a cur b c a1 b1 c1 -> grown a1 cur b1 c1 a2 b2 c2 -> grown a cur b c a2 b2 c2.
Proof.
  intros W [N1 B1 E1 U1 X1 S1 P1] [N2 B2 E2 U2 X2 S2 P2]. split; try done.
  - rewrite B2, B1. done.
  - eapply ext_trans; [done..|]. intros p. rewrite !elem_of_cons. intros [->|H]; [auto|].
    destruct (X1 _ H); [auto|]. right. by apply fresh_none.
  - lia.
  - intros x H. destruct (X2 _ H) as [H'|H']; [auto|]. right. lia.
  - intros fs. by rewrite S2.
  - auto.
Qed.

Lemma lookup_entry_ins f x c fs : sub f c = None -> lookup_entry fs (ins f x c) = lookup_entry fs c.
Proof.
  intros Hn. unfold lookup_entry. destruct fs as [|s fs]; [done|]. rewrite !lookup_path_cons, sub_ins by done.
  destruct (decide (s = f)) as [->|]; [|done]. rewrite Hn. by destruct fs.
Qed.

Lemma lookup_path_ins f x c fs ye : sub f c = None -> lookup_path fs c = Some ye -> lookup_path fs (ins f x c) = Some ye.
Proof.
  intros Hn. destruct fs as [|s fs]; [done|]. rewrite !lookup_path_cons, sub_ins by done.
  destruct (decide (s = f)) as [->|]; [|done]. by rewrite Hn.
Qed.

Lemma lookup_path_upd f c y e cy cy' fs ye : sub f c = Some (y, e, cy) ->
  (forall fs ye, lookup_path fs cy = Some ye -> lookup_path fs cy' = Some ye) ->
  lookup_path fs c = Some ye -> lookup_path fs (upd f (fun ec => (fst ec, cy')) c) = Some ye.
Proof.
  intros Hs Hp. destruct fs as [|s fs]; [done|]. rewrite !lookup_path_cons, sub_upd.
  destruct (decide (s = f)) as [->|]; [|done]. rewrite Hs. cbn [fst snd]. destruct fs as [|s' fs]; [done|]. apply Hp.
Qed.

Lemma lookup_entry_upd f c y e cy cy' fs : sub f c = Some (y, e, cy) ->
  (forall fs, lookup_entry fs cy' = lookup_entry fs cy) ->
  lookup_entry fs (upd f (fun ec => (fst ec, cy')) c) = lookup_entry fs c.
Proof.
  intros Hs Hsame. unfold lookup_entry. destruct fs as [|s fs]; [done|]. rewrite !lookup_path_cons, sub_upd.
  destruct (decide (s = f)) as [->|]; [|done]. rewrite Hs. cbn [fst snd]. destruct fs as [|s' fs]; [done|]. apply Hsame.
Qed.

Lemma at_node_ins a a' cur b co c f : at_node a cur b c -> cstring f -> f <> [] -> no_delim [46] f -> sub f c = None ->
  area_wf a' -> ext (cur :: nodes c) a a' -> bytes_used_ a <= bytes_used_ a' ->
  data_ a' !! cur = Some (OBt (set_children b co)) -> repr a' co (ins f (bytes_used_ a) c) ->
  grown a cur b c a' (set_children b co) (ins f (bytes_used_ a) c).
Proof.
  intros [W Hb Hr Hnd Hok] Hf Hne Hd Hn W' He Hu Hb' Hr'. split; try done.
  - split; try done; [|by apply tree_ok_ins]. rewrite nodes_ins by done. rewrite NoDup_cons in Hnd |- *.
    destruct Hnd as [Hc Hnd]. pose proof (wf_below _ _ _ W Hb). split.
    + rewrite elem_of_cons. intros [->|H']; [lia|done].
    + apply NoDup_cons. split; [|done]. intros Hin. destruct (repr_node _ _ _ _ Hr Hin) as [_ [b0 Hb0]].
      pose proof (wf_below _ _ _ W Hb0). lia.
  - intros x. rewrite nodes_ins by done. rewrite elem_of_cons. intros [->|H]; [right; lia|auto].
  - intros fs. by apply lookup_entry_ins.
  - intros fs ye. by apply lookup_path_ins.
Qed.

(** The step at one level: the first node of an empty tree or the search among the siblings. *)
Lemma level_alloc a cur b c f k : at_node a cur b c -> cstring f -> f <> [] -> no_delim [46] f ->
  exists a1 b1 c1 res,
    (r <-- (if negb (bt_children b =? 0) then Ok (a, to_prop_obj D (bt_children b))
            else r <-- new_prop_bt D a (f ++ k) (length f) ;;
                 match r with
                 | (a, None) => Ok (a, None)
                 | (a, Some x) => Ok (store a cur (OBt (set_children b x)), Some x)
                 end) ;;
     match r with
     | (a, None) => Ok (a, None)
     | (a, Some root) => find_prop_bt D (area_fuel a) a (Some root) (f ++ k) (length f) true
     end) = Ok (a1, res) /\
    grown a cur b c a1 b1 c1 /\ bytes_used_ a1 <= bytes_used_ a + bt_room (length f) /\
    match res with
    | Some y => exists e cy, sub f c1 = Some (y, e, cy)
    | None => D < bytes_used_ a + bt_room (length f) /\ sub f c = None
    end.
Proof using D_small.
  intros N Hf Hne Hd. pose proof N as [W Hb Hr Hnd Hok]. pose proof (proj1 (NoDup_cons _ _) Hnd) as [Hcn Hndc].
  assert (0 <= bt_room (length f)) as Hroom.
  { pose proof (align_bound (sizeof_prop_bt + sz (length f) + 1) ltac:(unfold sizeof_prop_bt; lia)).
    unfold bt_room, sizeof_prop_bt in *. lia. }
  destruct (Z.eqb_spec (bt_children b) 0) as [E|E]; cbn [negb obind].
  - destruct c as [|]; [|destruct Hr as (? & ? & _); lia].
    destruct (hang_node a cur b (set_children b) f k W Hb) as [[-> H]|(a' & -> & W' & He & Hu & Hb' & Hnew)]; [done| |].
    + exists a, b, Leaf, None. cbn. split_and!; [done|by apply grown_refl|lia|done|done].
    + cbn [obind]. pose proof (wf_used _ W). unfold first_free in *.
      rewrite (find_prop_bt_sub _ a' _ (Node (bytes_used_ a) f None Leaf Leaf Leaf)); try done.
      * cbn [sub]. rewrite name_cmp_refl. exists a', (set_children b (bytes_used_ a)), (ins f (bytes_used_ a) Leaf), (Some (bytes_used_ a)).
        split_and!; [done| |lia|exists None, Leaf; cbn; by rewrite name_cmp_refl].
        apply at_node_ins; try done; lia.
      * lia.
      * unfold area_fuel. cbn. lia.
      * right. cbn. by rewrite name_cmp_refl.
  - destruct (repr_root _ _ _ Hr E) as (?&?&?&?&?& Ec).
    destruct (repr_node _ _ _ (bt_children b) Hr) as [_ [b' Hb']]; [rewrite Ec; constructor|].
    rewrite (to_prop_obj_in _ _ _ W Hb'). cbn [obind]. destruct (sub f c) as [[[y e] cy]|] eqn:Hsub.
    + rewrite (find_prop_bt_sub _ _ _ c) by (done || (by eapply nodes_fuel) || (right; congruence)). rewrite Hsub.
      exists a, b, c, (Some y). split_and!; [done|by apply grown_refl|lia|by exists e, cy].
    + destruct (find_prop_bt_ins (area_fuel a) a (bt_children b) c f k W Hr) as [[-> H]|(a' & -> & W' & He & Hu & Hrep)];
        try done; [by eapply nodes_fuel| |].
      * exists a, b, c, None. split_and!; [done|by apply grown_refl|lia|done|done].
      * exists a', b, (ins f (bytes_used_ a) c), (Some (bytes_used_ a)). split_and!; [done| |lia|].
        -- replace b with (set_children b (bt_children b)) at 2 by by destruct b.
           apply at_node_ins; try done; [eapply ext_mono; [done|intros y Hy; apply elem_of_cons; auto]|lia|].
           destruct b; apply He; [done|by left].
        -- rewrite sub_ins by done. rewrite decide_True by done. eauto.
Qed.

(** The node of a field, with the tree of its children. *)
Lemma at_node_sub a cur b c f y e cy : at_node a cur b c -> sub f c = Some (y, e, cy) ->
  exists b', at_node a y b' cy /\ prop_repr a (bt_prop b') e.
Proof.
  intros [W Hb Hr Hnd Hok] Hs. destruct (repr_sub _ _ _ _ _ _ _ Hr Hs) as (po & lo & ro & co & Hy & Hcy & Hpo).
  exists (mk_bt (sz (length f)) po lo ro co (f ++ [0])). split; [|done]. split; try done; [|by eapply tree_ok_sub].
  destruct (nodes_upd _ _ _ _ _ Hs) as (rest & Hp & Hyr & _). rewrite NoDup_cons, Hp, NoDup_app in Hnd.
  destruct Hnd as (_ & Hnr & Hd & Hnc). apply NoDup_cons. split; [|done]. by apply Hd.
Qed.

(** Growth below one of the children is growth below the node. *)
Lemma grown_sub a cur b c f y by_ e cy a' by' cy' : at_node a cur b c -> sub f c = Some (y, e, cy) ->
  data_ a !! y = Some (OBt by_) -> grown a y by_ cy a' by' cy' ->
  grown a cur b c a' b (upd f (fun ec => (fst ec, cy')) c).
Proof.
  intros [W Hb Hr Hnd Hok] Hs Hy [[W' Hy' Hcy' Hnd' Hok'] B E U X S P].
  destruct (repr_sub _ _ _ _ _ _ _ Hr Hs) as (po & lo & ro & co & Hy0 & Hcy & Hpo).
  assert (by_ = mk_bt (sz (length f)) po lo ro co (f ++ [0])) as -> by congruence.
  destruct (nodes_upd _ _ _ _ _ Hs) as (rest & Hp & Hyr & Hpu). specialize (Hpu (fun ec => (fst ec, cy'))). cbn [snd] in Hpu.
  assert (forall x, x ∈ y :: nodes cy -> x ∈ nodes c) as Hsub.
  { intros x. rewrite Hp, elem_of_cons, elem_of_app. intros [->|?]; auto. }
  rewrite NoDup_cons in Hnd. destruct Hnd as [Hcn Hnd].
  assert (data_ a' !! cur = Some (OBt b)) as Hb' by (apply E; [done|]; left; auto).
  assert (forall x, x ∈ nodes cy' -> x ∈ nodes cy \/ ((x ∉ nodes c) /\ x <> cur)) as Hnew.
  { intros x Hx. destruct (X x Hx) as [?|Hge]; [auto|right]. split.
    - intros Hin. destruct (repr_node _ _ _ _ Hr Hin) as [_ [b0 Hb0]]. pose proof (wf_below _ _ _ W Hb0). lia.
    - pose proof (wf_below _ _ _ W Hb). lia. }
  rewrite Hp, NoDup_app in Hnd. destruct Hnd as (Hnr & Hdr & Hnc). split; try done.
  - split; try done.
    + rewrite B in Hy'. cbn in Hy'. eapply (repr_upd a a' _ c f _ y e cy); try done.
      * rewrite Hp. apply NoDup_app. auto.
      * destruct e; [|done]. destruct Hpo as [-> Hpo]. split; [done|]. by eapply ext_entry.
    + rewrite Hpu. rewrite NoDup_cons, NoDup_app, elem_of_app. rewrite Hp, elem_of_app in Hcn. apply NoDup_cons in Hnd' as [_ Hnd'].
      split_and!; try done.
      * intros [?|Hin]; [tauto|]. destruct (Hnew _ Hin) as [?|[_ ?]]; tauto.
      * intros x Hx Hin. destruct (Hnew _ Hin) as [?|[Hnin _]]; [by apply (Hdr x)|]. apply Hnin. rewrite Hp. apply elem_of_app; auto.
    + apply tree_ok_upd; [done|]. intros. done.
  - by destruct b.
  - eapply ext_mono; [done|]. intros x Hx. apply elem_of_cons. auto.
  - intros x. rewrite Hpu, elem_of_app. intros [?|Hx]; [left; rewrite Hp; apply elem_of_app; auto|].
    destruct (X x Hx); [left; rewrite Hp; apply elem_of_app; auto|auto].
  - intros fs. by eapply lookup_entry_upd.
  - intros fs ye. by eapply lookup_path_upd.
Qed.

(** The room the nodes of a path need. *)
Fixpoint path_room (fs : list (list Z)) : Z :=
  match fs with [] => 0 | f :: fs => bt_room (length f) + path_room fs end.

Lemma bt_room_pos n : 0 <= bt_room n.
Proof.
  pose proof (align_bound (sizeof_prop_bt + sz n + 1) ltac:(unfold sizeof_prop_bt; lia)). unfold bt_room, sizeof_prop_bt in *. lia.
Qed.

Lemma path_room_pos fs : 0 <= path_room fs.
Proof. induction fs as [|f fs IH]; cbn; [lia|]. pose proof (bt_room_pos (length f)). lia. Qed.

Lemma find_node_alloc fuel a cur b c s t : at_node a cur b c ->
  cstring s -> sz (length s) < 2 ^ 32 -> (length s < fuel)%nat ->
  exists a' b' c' res, find_node D fuel a cur (s ++ 0 :: t) true = Ok (a', res) /\
    grown a cur b c a' b' c' /\ bytes_used_ a' <= bytes_used_ a + path_room (fields [46] s) /\
    match res with
    | Some y => exists e, lookup_path (fields [46] s) c' = Some (y, e)
    | None => lookup_path (fields [46] s) c = None /\
        ([] ∈ fields [46] s \/ D < bytes_used_ a + path_room (fields [46] s))
    end.
Proof using D_small.
  revert a cur b c s. induction fuel as [|fuel IH]; intros a cur b c s N Hs Hl Hfuel; [lia|].
  destruct (cut_name s t fuel Hs Hl Hfuel) as (f & k & sep & fs & Hf & Hfd & Hk & -> & Hsepeq & Hlen & Hsep).
  pose proof (path_room_pos fs) as Hroom. pose proof (bt_room_pos (length f)) as Hroomf. cbn [path_room].
  cbn [find_node]. rewrite Hsepeq. cbn [obind]. rewrite Hlen. cbn [obind].
  destruct (decide (f = [])) as [->|Hne].
  { exists a, b, c, None. split_and!; [done|by apply grown_refl|lia| |left; constructor].
    by rewrite lookup_path_cons, sub_nil by apply N. }
  rewrite (proj2 (Nat.eqb_neq _ _)) by by destruct f. unfold bt_at. rewrite (an_bt _ _ _ _ N). cbn [obind].
  destruct (level_alloc a cur b c f k N Hf Hne Hfd) as (a1 & b1 & c1 & res & Hlev & G & Hu & Hres).
  rewrite <- Hk in Hlev. unfold set_children in Hlev.
  match type of Hlev with obind ?e _ = _ => destruct e as [[a0 root]| |]; try done end. cbn [obind] in *.
  destruct root as [root|].
  2:{ injection Hlev as -> <-. destruct Hres as [Hres Hn]. exists a1, b1, c1, None.
      split_and!; [done|done|lia|by rewrite lookup_path_cons, Hn|right; lia]. }
  rewrite Hlev. cbn [obind]. destruct res as [y|].
  2:{ destruct Hres as [Hres Hn]. exists a1, b1, c1, None.
      split_and!; [done|done|lia|by rewrite lookup_path_cons, Hn|right; lia]. }
  destruct Hres as (e & cy & Hsub). destruct Hsep as [[-> ->]|[-> (s2 & -> & -> & Hs2 & Hl2 & Hf2)]].
  - exists a1, b1, c1, (Some y). split_and!; [done|done|lia|]. rewrite lookup_path_cons, Hsub. eauto.
  - destruct (at_node_sub _ _ _ _ _ _ _ _ (gr_node _ _ _ _ _ _ _ G) Hsub) as (by_ & Ny & _).
    destruct (IH a1 y by_ cy s2 Ny Hs2 Hl2 Hf2) as (a2 & by2 & cy2 & res & -> & Gy & Hu2 & Hres2).
    exists a2, b1, (upd f (fun ec => (fst ec, cy2)) c1), res. split_and!; [done| |lia|].
    + eapply grown_trans; [apply N|exact G|]. eapply grown_sub; [apply G|done|apply Ny|done].
    + destruct res as [y'|].
      * destruct Hres2 as (e' & Hres2). exists e'. rewrite lookup_path_cons, sub_upd, decide_True, Hsub by done. cbn [snd].
        pose proof (fields_not_nil [46] s2). by destruct (fields [46] s2).
      * destruct Hres2 as [Hn Hres2]. split; [|destruct Hres2 as [?|?]; [left; apply elem_of_cons; auto|right; lia]].
        destruct (lookup_path (f :: fields [46] s2) c) as [ye|] eqn:Hp; [|done]. apply (gr_path _ _ _ _ _ _ _ G) in Hp.
        rewrite lookup_path_cons, Hsub in Hp. pose proof (fields_not_nil [46] s2). destruct (fields [46] s2); congruence.
Qed.

(** * New properties *)

Lemma short_serial n : 0 <= n -> Z.land (wrapU 32 (Z.shiftl n 24)) kLongFlag = 0.
Proof.
  intros Hn. apply Z.bits_inj'. intros j Hj. unfold kLongFlag, wrapU. rewrite Z.land_spec, testbit_mask, Z.bits_0 by lia.
  destruct (Z.eqb_spec j 16) as [->|]; [|by rewrite andb_false_r].
  by rewrite Z.mod_pow2_bits_low, Z.shiftl_spec_low by lia.
Qed.

Definition info_size_room (n : nat) : Z := __BIONIC_ALIGN (sizeof_prop_info + sz n + 1) 4.
Definition long_room (n : nat) : Z := if PROP_VALUE_MAX <=? sz n then __BIONIC_ALIGN (sz n + 1) 4 else 0.

(** The room a property needs besides its nodes. *)
Definition info_room (name value : list Z) : Z := info_size_room (length name) + long_room (length value).

Lemma new_prop_info_short_spec a nm t v vt : area_wf a -> sz (length v) < PROP_VALUE_MAX ->
  let r := new_prop_info D a (nm ++ t) (length nm) (v ++ vt) (length v) in
  (r = Ok (a, None) /\ D < bytes_used_ a + info_room nm v) \/
  exists a', r = Ok (a', Some (bytes_used_ a)) /\ area_wf a' /\ ext [] a a' /\
    bytes_used_ a' = bytes_used_ a + info_room nm v /\ entry_ok a' (mk_entry (bytes_used_ a) nm v).
Proof using D_small.
  intros W Hv r. subst r. unfold new_prop_info, info_room, long_room. rewrite (proj2 (Z.leb_gt _ _)), Z.add_0_r by done.
  rewrite allocate_obj_eq by (done || (unfold sizeof_prop_info; lia)). fold (info_size_room (length nm)).
  destruct (Z.ltb_spec D (bytes_used_ a + info_size_room (length nm))) as [Hlt|Hge]; [by left|right].
  unfold prop_info_short, memcpy_from. rewrite !(proj2 (Nat.leb_le _ _)) by (rewrite length_app; lia).
  cbn [obind]. rewrite !take_app_length.
  pose proof (align_bound (sizeof_prop_info + sz (length nm) + 1) ltac:(unfold sizeof_prop_info; lia)) as Hal.
  fold (info_size_room (length nm)) in Hal. eexists. split; [done|]. split_and!.
  - apply wf_store_new; [done|apply Hal| |done]. cbn. rewrite length_app. cbn. unfold sizeof_prop_info in *. lia.
  - by apply ext_grow.
  - done.
  - pose proof (wf_used _ W). unfold first_free in *. split; [cbn; lia|]. cbn [e_off e_name e_value].
    unfold read_property, info_at. cbn [store data_]. rewrite lookup_insert_eq. cbn [obind].
    unfold is_long. cbn [pi_serial pi_union_ pi_name]. by rewrite short_serial by lia.
Qed.

Lemma new_prop_info_long_spec a nm t v vt : area_wf a -> PROP_VALUE_MAX <= sz (length v) < UINT_MAX ->
  let r := new_prop_info D a (nm ++ t) (length nm) (v ++ vt) (length v) in
  exists a', area_wf a' /\ ext [] a a' /\ bytes_used_ a <= bytes_used_ a' /\
    ((r = Ok (a', None) /\ D < bytes_used_ a + info_room nm v) \/
     (r = Ok (a', Some (bytes_used_ a)) /\ bytes_used_ a' = bytes_used_ a + info_room nm v /\
      entry_ok a' (mk_entry (bytes_used_ a) nm v))).
Proof using D_small.
  intros W Hv r. subst r. unfold new_prop_info, info_room, long_room. rewrite (proj2 (Z.leb_le _ _)) by lia.
  rewrite (wrapU_small 32 (sz (length v) + 1)), Z.ltb_irrefl by lia.
  rewrite allocate_obj_eq by (done || (unfold sizeof_prop_info; lia)). fold (info_size_room (length nm)).
  pose proof (align_bound (sizeof_prop_info + sz (length nm) + 1) ltac:(unfold sizeof_prop_info; lia)) as Hal.
  fold (info_size_room (length nm)) in Hal. pose proof (align_bound (sz (length v) + 1) ltac:(lia)) as Hall.
  pose proof (wf_used _ W) as Hus. unfold first_free, sizeof_prop_info in *.
  destruct (Z.ltb_spec D (bytes_used_ a + info_size_room (length nm))) as [Hlt|Hge].
  { exists a. split_and!; [done|apply ext_refl|lia|left; split; [done|lia]]. }
  set (a1 := mk_area (bytes_used_ a + info_size_room (length nm)) (data_ a)).
  assert (area_wf a1) as W1 by (apply wf_grow; (done || lia || apply Hal)).
  rewrite allocate_obj_eq by (done || lia). cbn [bytes_used_ a1].
  set (al2 := __BIONIC_ALIGN (sz (length v) + 1) 4) in *. set (al1 := info_size_room (length nm)) in *.
  destruct (Z.ltb_spec D (bytes_used_ a + al1 + al2)) as [Hlt|Hge2].
  { exists a1. split_and!; [done|by intros p o Hp _|cbn; lia|left; split; [done|lia]]. }
  unfold prop_info_long, memcpy_from. rewrite !(proj2 (Nat.leb_le _ _)) by (rewrite length_app; lia).
  cbn [obind]. rewrite !take_app_length.
  assert (area_wf (store (mk_area (bytes_used_ a1 + al2) (data_ a1)) (bytes_used_ a1) (OChars (v ++ [0])))) as W2.
  { apply wf_store_new; [done|apply Hall| |cbn; lia]. cbn. rewrite length_app. cbn. lia. }
  eexists. split_and!; [| | |right; split_and!; [done| |]].
  - apply wf_store; [exact W2|apply W|unfold first_free; lia| |cbn; rewrite length_app; cbn; unfold sizeof_prop_info in *; lia|].
    + cbn. unfold sizeof_prop_info. lia.
    + intros p o'. cbn [store data_ a1 bytes_used_]. destruct (decide (p = bytes_used_ a + al1)) as [->|Hne].
      * intros _. right. cbn. rewrite length_app. cbn. unfold sizeof_prop_info. lia.
      * rewrite lookup_insert_ne by done. intros Hp. left. by apply (wf_obj _ W) in Hp as (_ & _ & ? & _).
  - intros p o Hp _. pose proof (wf_below _ _ _ W Hp). cbn. rewrite !lookup_insert_ne by lia. done.
  - cbn. lia.
  - cbn. lia.
  - split; [cbn; lia|]. cbn [e_off e_name e_value]. unfold read_property, info_at, long_value. cbn [store data_ a1].
    rewrite lookup_insert_eq. cbn [obind]. cbn [pi_union_ pi_name]. replace (is_long _) with true by reflexivity. cbn [bytes_used_].
    unfold wrapU. rewrite Z.mod_small by lia.
    replace (bytes_used_ a + (bytes_used_ a + al1 - bytes_used_ a)) with (bytes_used_ a + al1) by lia.
    rewrite lookup_insert_ne by lia. by rewrite lookup_insert_eq.
Qed.

(** A value of 2^32 - 1 bytes is copied to an object of no bytes. *)
Lemma value_size_wraps a nm t v vt : area_wf a -> sz (length v) = UINT_MAX -> bytes_used_ a + info_size_room (length nm) <= D ->
  new_prop_info D a (nm ++ t) (length nm) (v ++ vt) (length v) = Fault.
Proof using D_small.
  intros W Hv Hd. unfold new_prop_info. rewrite allocate_obj_eq by (done || (unfold sizeof_prop_info; lia)). fold (info_size_room (length nm)).
  rewrite (proj2 (Z.ltb_ge D _)), (proj2 (Z.leb_le _ _)), Hv by (rewrite ?Hv; done || lia). change (wrapU 32 (UINT_MAX + 1)) with 0.
  unfold allocate_obj. change (__BIONIC_ALIGN 0 4) with 0. cbn [bytes_used_]. rewrite Z.add_0_r, (proj2 (Z.ltb_ge D _)) by lia. done.
Qed.

Lemma new_prop_info_spec a nm t v vt : area_wf a -> sz (length v) < UINT_MAX ->
  let r := new_prop_info D a (nm ++ t) (length nm) (v ++ vt) (length v) in
  exists a', area_wf a' /\ ext [] a a' /\ bytes_used_ a <= bytes_used_ a' /\
    ((r = Ok (a', None) /\ D < bytes_used_ a + info_room nm v) \/
     (r = Ok (a', Some (bytes_used_ a)) /\ entry_ok a' (mk_entry (bytes_used_ a) nm v))).
Proof using D_small.
  intros W Hmax r. destruct (Z.leb_spec PROP_VALUE_MAX (sz (length v))) as [Hv|Hv].
  - destruct (new_prop_info_long_spec a nm t v vt W (conj Hv Hmax)) as (a' & W' & He & Hu & [?|(? & _ & ?)]); exists a'; split_and!; auto.
  - destruct (new_prop_info_short_spec a nm t v vt W Hv) as [[Hr Hd]|(a' & Hr & W' & He & Hu & Hok)].
    + exists a. split_and!; [done|apply ext_refl|lia|auto].
    + exists a'. split_and!; try done; [|auto]. rewrite Hu. unfold info_room, long_room.
      rewrite (proj2 (Z.leb_gt _ _)) by done.
      pose proof (align_bound (sizeof_prop_info + sz (length nm) + 1) ltac:(unfold sizeof_prop_info; lia)).
      unfold info_size_room, sizeof_prop_info in *. lia.
Qed.

(** * Areas and maps *)

(** The area holds the tree [c] below its root node, and every property is at the path of its
    name. *)
Record holds (a : prop_area) (c : tree) : Prop := mk_holds {
  ho_root : exists co, at_node a 0 (mk_bt 0 0 0 0 co []) c;
  ho_name fs e : lookup_entry fs c = Some e -> cstring (e_name e) /\ fs = fields [46] (e_name e) }.

(** The area stands for the map [M] from names to values. *)
Definition stores (a : prop_area) (M : gmap (list Z) (list Z)) : Prop :=
  exists c, holds a c /\ forall nm v, M !! nm = Some v <-> exists e, lookup_entry (fields [46] nm) c = Some e /\ e_value e = v /\ e_name e = nm.

Lemma lookup_name a c nm e : holds a c -> lookup_entry (fields [46] nm) c = Some e -> e_name e = nm.
Proof.
  intros H He. destruct (ho_name _ _ H _ _ He) as [_ Hf]. rewrite <- (join_fields nm), Hf. symmetry. apply join_fields.
Qed.

(** The node at the end of a path. *)
Lemma at_node_path a cur b c fs y e : at_node a cur b c -> lookup_path fs c = Some (y, e) ->
  exists b' c', at_node a y b' c' /\ prop_repr a (bt_prop b') e.
Proof.
  revert cur b c. induction fs as [|f fs IH]; intros cur b c N Hp; [done|]. rewrite lookup_path_cons in Hp.
  destruct (sub f c) as [[[x ex] cx]|] eqn:Hs; [|done]. destruct (at_node_sub _ _ _ _ _ _ _ _ N Hs) as (bx & Nx & Hpx).
  destruct fs; [injection Hp as <- <-; eauto|eauto].
Qed.

Lemma root_zero : D >= 0 -> root_node D = Some 0.
Proof. intros. unfold root_node, to_prop_obj. by rewrite (proj2 (Z.ltb_ge _ _)) by lia. Qed.

Lemma area_size a : area_wf a -> D >= 0.
Proof. intros W. pose proof (wf_used _ W). unfold first_free in *. lia. Qed.

Lemma find_holds a c nm t : holds a c -> cstring nm -> sz (length nm) < 2 ^ 32 ->
  find D a (nm ++ 0 :: t) = Ok (e_off <$> lookup_entry (fields [46] nm) c).
Proof.
  intros [(co & N) _] Hnm Hl. pose proof N as [W Hb Hr Hnd Hok]. apply NoDup_cons in Hnd as [_ Hnd].
  unfold find, find_property. rewrite strlen_cstring by done. cbn [run obind].
  rewrite root_zero by by eapply area_size. rewrite (find_node_read _ a 0 _ c nm t) by (done || (rewrite length_app; cbn; lia)).
  cbn [obind]. unfold lookup_entry. destruct (lookup_path (fields [46] nm) c) as [[y e]|] eqn:Hp; [|done].
  destruct (at_node_path _ _ _ _ _ _ _ N Hp) as (b & cy & Ny & Hpy). unfold bt_at. rewrite (an_bt _ _ _ _ Ny). cbn [obind].
  destruct e as [e|]; cbn in Hpy.
  - destruct Hpy as [Hpy [Hpos Hrd]]. rewrite Hpy, (proj2 (Z.eqb_neq (e_off e) 0)) by lia. cbn.
    unfold read_property, info_at in Hrd. destruct (data_ a !! e_off e) eqn:Ho; [|done].
    by rewrite (to_prop_obj_in _ _ _ W Ho).
  - by rewrite Hpy.
Qed.

Lemma info_room_pos nm v : 0 <= info_room nm v.
Proof.
  pose proof (align_bound (sizeof_prop_info + sz (length nm) + 1) ltac:(unfold sizeof_prop_info; lia)).
  pose proof (align_bound (sz (length v) + 1) ltac:(lia)).
  unfold info_room, info_size_room, long_room, sizeof_prop_info in *. destruct (_ <=? _); lia.
Qed.

(** New objects leave the tree alone. *)
Lemma holds_ext a a' c : holds a c -> area_wf a' -> ext [] a a' -> holds a' c.
Proof.
  intros [(co & [W Hb Hr Hnd Hok]) Hn] W' He. split; [|done]. exists co. split; try done.
  - apply He; [done|]. left. apply not_elem_of_nil.
  - eapply ext_repr; [done| |done]. intros x _. apply not_elem_of_nil.
Qed.

Lemma lookup_path_nodes fs c y e : lookup_path fs c = Some (y, e) -> y ∈ nodes c.
Proof.
  revert c. induction fs as [|f fs IH]; intros c; [done|]. rewrite lookup_path_cons.
  destruct (sub f c) as [[[x ex] cx]|] eqn:Hs; [|done]. destruct (nodes_sub _ _ _ _ _ Hs) as [Hx Hsub].
  destruct fs; [by intros [= -> ->]|]. intros H. by apply Hsub, IH.
Qed.

(** The node of a name gets a new property. *)
Lemma holds_set a a2 c nm y b e : holds a c -> cstring nm -> lookup_path (fields [46] nm) c = Some (y, None) ->
  data_ a !! y = Some (OBt b) -> area_wf a2 -> ext [] a a2 -> entry_ok a2 e -> e_name e = nm ->
  let a3 := store a2 y (OBt (mk_bt (bt_namelen b) (e_off e) (bt_left b) (bt_right b) (bt_children b) (bt_name b))) in
  holds a3 (set_entry (fields [46] nm) e c) /\ ext [y] a2 a3.
Proof.
  intros H Hnm Hp Hy W2 He Hok En a3. assert (data_ a2 !! y = Some (OBt b)) as Hy2.
  { apply He; [done|]. left. apply not_elem_of_nil. }
  assert (ext [y] a2 a3) as He3 by by eapply ext_store_bt. split; [|done].
  destruct (holds_ext _ _ _ H W2 He) as [(co & [_ Hb Hr Hnd Hok2]) Hn]. split.
  - exists co. pose proof (lookup_path_nodes _ _ _ _ Hp) as Hyn. apply NoDup_cons in Hnd as [Hc0 Hnd]. split.
    + by eapply wf_store_bt.
    + apply He3; [done|]. left. by intros <-%list_elem_of_singleton.
    + eapply (repr_set _ _ a2); try done; [cbn; by rewrite lookup_insert_eq|]. split; [done|]. by eapply ext_entry.
    + rewrite nodes_set. by apply NoDup_cons.
    + by apply tree_ok_set.
  - intros fs e0. rewrite lookup_entry_set by congruence. destruct (decide (fs = fields [46] nm)) as [->|]; [|apply Hn].
    intros [= <-]. by rewrite En.
Qed.

(** The three ways add can end. *)
Lemma add_holds a c nm t v vt : holds a c -> cstring nm -> sz (length nm) < 2 ^ 32 -> sz (length v) < UINT_MAX ->
  exists a' c' ok, add D a (nm ++ 0 :: t) (length nm) (v ++ vt) (length v) = Ok (a', ok) /\ holds a' c' /\
    (forall p x, read_property a p = Ok x -> read_property a' p = Ok x) /\
    match lookup_entry (fields [46] nm) c, ok with
    | Some e, ok => ok = true /\ forall fs, lookup_entry fs c' = lookup_entry fs c
    | None, false => (forall fs, lookup_entry fs c' = lookup_entry fs c) /\
        ([] ∈ fields [46] nm \/ D < bytes_used_ a + path_room (fields [46] nm) + info_room nm v)
    | None, true => exists off, forall fs,
        lookup_entry fs c' = if decide (fs = fields [46] nm) then Some (mk_entry off nm v) else lookup_entry fs c
    end.
Proof using D_small.
  intros [(co & N) Hname] Hnm Hl Hv. unfold add, find_property. rewrite root_zero by (eapply area_size, N).
  destruct (find_node_alloc (S (length (nm ++ 0 :: t))) a 0 _ c nm t N Hnm Hl) as (a1 & b1 & c1 & res & -> & G & Hu & Hres);
    [rewrite length_app; cbn; lia|]. cbn [obind].
  pose proof (gr_same _ _ _ _ _ _ _ G) as Hsame. pose proof (gr_node _ _ _ _ _ _ _ G) as N1.
  assert (forall p x, read_property a p = Ok x -> read_property a1 p = Ok x) as Hread1.
  { intros p x. apply (ext_read _ _ _ _ _ (gr_ext _ _ _ _ _ _ _ G)). }
  assert (holds a1 c1) as H1.
  { split; [exists (bt_children b1); by rewrite (gr_b _ _ _ _ _ _ _ G) in N1|]. intros fs e. rewrite Hsame. apply Hname. }
  destruct res as [y|].
  2:{ destruct Hres as [Hn Hres]. exists a1, c1, false. cbn. split_and!; [done|done|done|]. unfold lookup_entry at 1. rewrite Hn.
      split; [done|]. destruct Hres as [?|?]; [auto|right]. pose proof (info_room_pos nm v). lia. }
  destruct Hres as (e & Hp). destruct (at_node_path _ _ _ _ _ _ _ N1 Hp) as (by_ & cy & Ny & Hpy).
  assert (lookup_entry (fields [46] nm) c = e) as -> by (rewrite <- Hsame; unfold lookup_entry; by rewrite Hp).
  unfold bt_at. rewrite (an_bt _ _ _ _ Ny). cbn [obind]. destruct e as [e|]; cbn in Hpy.
  - destruct Hpy as [Hpy [Hpos Hrd]]. rewrite Hpy, (proj2 (Z.eqb_neq (e_off e) 0)) by lia. cbn [negb].
    unfold read_property, info_at in Hrd. destruct (data_ a1 !! e_off e) eqn:Ho; [|done].
    rewrite (to_prop_obj_in _ _ _ (an_wf _ _ _ _ N1) Ho). by exists a1, c1, true.
  - rewrite Hpy. cbn [negb Z.eqb].
    destruct (new_prop_info_spec a1 nm (0 :: t) v vt (an_wf _ _ _ _ N1) Hv) as (a2 & W2 & He2 & Hu2 & Hr).
    destruct Hr as [[-> Hd]|[-> Hok]]; cbn [obind].
    + exists a2, c1, false. split_and!; [done| |intros p x Hx; by eapply ext_read, Hread1|done|right; lia].
      by eapply holds_ext.
    + set (a3 := store a2 y _). exists a3, (set_entry (fields [46] nm) (mk_entry (bytes_used_ a1) nm v) c1), true.
      destruct (holds_set a1 a2 c1 nm y by_ (mk_entry (bytes_used_ a1) nm v) H1 Hnm) as [H3 Hext]; try done; [apply Ny|].
      split_and!; [done|done|intros p x Hx; eapply ext_read; [exact Hext|]; by eapply ext_read, Hread1|]. exists (bytes_used_ a1). intros fs.
      rewrite lookup_entry_set by congruence. by rewrite Hsame.
Qed.

(** * Enumeration *)

Lemma info_in_area a e : area_wf a -> entry_ok a e -> to_prop_obj D (e_off e) = Some (e_off e).
Proof.
  intros W [_ Hrd]. unfold read_property, info_at in Hrd. destruct (data_ a !! e_off e) eqn:Ho; [|done].
  by rewrite (to_prop_obj_in _ _ _ W Ho).
Qed.

(** A subtree of a node, empty or not. *)
Lemma foreach_child fuel a p t : area_wf a -> repr a p t ->
  (p <> 0 -> foreach_property D fuel a (Some p) = Ok (e_off ∘ snd <$> entries t, true)) ->
  (if p =? 0 then Ok ([], true) else foreach_property D fuel a (to_prop_obj D p)) = Ok (e_off ∘ snd <$> entries t, true).
Proof.
  intros W Hr H. destruct (Z.eqb_spec p 0) as [->|Hp].
  - destruct t as [|]; [done|]. destruct Hr as (? & ? & _). lia.
  - destruct (repr_root _ _ _ Hr Hp) as (?&?&?&?&?& Et). destruct (repr_node _ _ _ p Hr) as [_ [b Hb]]; [rewrite Et; constructor|].
    rewrite (to_prop_obj_in _ _ _ W Hb). auto.
Qed.

Lemma foreach_property_spec fuel a p t : area_wf a -> repr a p t -> p <> 0 -> (length (nodes t) < fuel)%nat ->
  foreach_property D fuel a (Some p) = Ok (e_off ∘ snd <$> entries t, true).
Proof.
  intros W. revert p fuel. induction t as [|off nm e l IHl r IHr c IHc]; intros p fuel; cbn [repr nodes length]; [by intros ->|].
  intros (-> & Hoff & po & lo & ro & co & Hb & Hl & Hr & Hc & Hpo) _ Hfuel. destruct fuel as [|fuel]; [lia|].
  rewrite !length_app in Hfuel. cbn [foreach_property]. unfold bt_at. rewrite Hb. cbn [obind bt_left bt_right bt_prop bt_children].
  rewrite (foreach_child fuel a lo l W Hl) by (intros; apply IHl; (done || lia)). cbn [obind fst snd b2z Z.ltb Z.compare].
  assert ((if po =? 0 then Ok (Some []) else Ok (option_map (fun q => [q]) (to_prop_obj D po))) =
    Ok (Some (e_off ∘ snd <$> match e with Some e => [([nm], e)] | None => [] end))) as ->.
  { destruct e as [e|]; [|by rewrite Hpo]. destruct Hpo as [-> Hok]. rewrite (proj2 (Z.eqb_neq _ _)) by (destruct Hok; lia).
    by rewrite (info_in_area a). }
  cbn [obind]. rewrite (foreach_child fuel a co c W Hc) by (intros; apply IHc; (done || lia)).
  cbn [obind fst snd b2z Z.ltb Z.compare]. rewrite (foreach_child fuel a ro r W Hr) by (intros; apply IHr; (done || lia)).
  cbn [obind fst snd b2z Z.ltb Z.compare entries]. rewrite !fmap_app. do 5 f_equal. by rewrite <- list_fmap_compose.
Qed.

Lemma foreach_holds a c : holds a c -> foreach D a = Ok (e_off ∘ snd <$> entries c, true).
Proof.
  intros [(co & [W Hb Hr Hnd Hok]) _]. unfold foreach. rewrite root_zero by by eapply area_size.
  assert (length (0%Z :: nodes c) <= Z.to_nat (bytes_used_ a))%nat as Hfuel.
  { apply nodup_bounded; [done|]. intros x. rewrite elem_of_cons. intros [->|Hx]; [by eapply wf_below|].
    destruct (repr_node _ _ _ _ Hr Hx) as [_ [b Hx']]. by eapply wf_below. }
  unfold area_fuel. cbn [length] in Hfuel.
  cbn [foreach_property]. unfold bt_at. rewrite Hb. cbn [obind bt_left bt_right bt_prop bt_children Z.eqb fst snd b2z Z.ltb Z.compare].
  rewrite (foreach_child _ a co c W Hr).
  - cbn [obind fst snd b2z Z.ltb Z.compare]. by rewrite app_nil_r.
  - intros Hco. by apply foreach_property_spec.
Qed.

(** * The theorems *)

Lemma new_holds : first_free <= D -> holds prop_area_new Leaf.
Proof.
  intros Hd. split; [exists 0|intros fs e; unfold lookup_entry; by rewrite lookup_path_nil_tree].
  assert (bytes_used_ prop_area_new = first_free) as Hu by reflexivity. split; [|done|done|cbn; apply NoDup_singleton|done].
  split.
  - rewrite Hu. lia.
  - by rewrite Hu.
  - intros p o. rewrite Hu. cbn. rewrite lookup_singleton_Some. intros [<- <-]. cbn.
    unfold first_free, dirty_backup_area, sizeof_prop_bt. split_and!; [done|lia|lia|left; lia].
  - intros p q o o'. cbn. rewrite !lookup_singleton_Some. intros [<- _] [<- _]. lia.
Qed.

Lemma stores_lookup (a : prop_area) (M : gmap (list Z) (list Z)) (c : tree) nm : holds a c ->
  (forall nm v, M !! nm = Some v <-> exists e, lookup_entry (fields [46] nm) c = Some e /\ e_value e = v /\ e_name e = nm) ->
  M !! nm = e_value <$> lookup_entry (fields [46] nm) c.
Proof.
  intros H HM. destruct (lookup_entry (fields [46] nm) c) as [e|] eqn:E; cbn.
  - apply HM. exists e. split_and!; try done. by eapply lookup_name.
  - apply eq_None_not_Some. intros [v Hv]. apply HM in Hv as (e & He & _). congruence.
Qed.

Lemma stores_intro (a : prop_area) (c : tree) (M : gmap (list Z) (list Z)) : holds a c ->
  (forall nm, M !! nm = e_value <$> lookup_entry (fields [46] nm) c) -> stores a M.
Proof.
  intros H HM. exists c. split; [done|]. intros nm v. rewrite HM. split.
  - destruct (lookup_entry _ _) as [e|] eqn:E; [|done]. intros [= <-]. exists e. split_and!; try done. by eapply lookup_name.
  - intros (e & -> & <- & _). done.
Qed.

Lemma fields_inj x y : fields [46] x = fields [46] y -> x = y.
Proof. intros H. by rewrite <- (join_fields x), H, join_fields. Qed.

Lemma entry_readable a c fs e : holds a c -> lookup_entry fs c = Some e -> entry_ok a e.
Proof.
  intros [(co & N) _] He. unfold lookup_entry in He. destruct (lookup_path fs c) as [[y e']|] eqn:Hp; [|done]. subst e'.
  destruct (at_node_path _ _ _ _ _ _ _ N Hp) as (b & cy & _ & _ & ?). done.
Qed.

Lemma find_stores a M nm t : stores a M -> cstring nm -> sz (length nm) < 2 ^ 32 ->
  exists r, find D a (nm ++ 0 :: t) = Ok r /\
    match r with
    | Some p => exists v, M !! nm = Some v /\ read_property a p = Ok (nm ++ [0], v ++ [0])
    | None => M !! nm = None
    end.
Proof.
  intros (c & H & HM) Hnm Hl. eexists. split; [by apply find_holds|]. rewrite (stores_lookup _ _ _ _ H HM).
  destruct (lookup_entry (fields [46] nm) c) as [e|] eqn:E; cbn; [|done]. exists (e_value e). split; [done|].
  destruct (entry_readable _ _ _ _ H E) as [_ Hr]. by rewrite (lookup_name _ _ _ _ H E) in Hr.
Qed.

(** Adding to a map: a name that is there keeps its value. *)
Definition map_add (M : gmap (list Z) (list Z)) (nm v : list Z) : gmap (list Z) (list Z) :=
  match M !! nm with Some _ => M | None => <[nm := v]> M end.

Lemma add_stores a M nm t v vt : stores a M -> cstring nm -> sz (length nm) < 2 ^ 32 -> sz (length v) < UINT_MAX ->
  exists a' ok, add D a (nm ++ 0 :: t) (length nm) (v ++ vt) (length v) = Ok (a', ok) /\ area_wf a' /\
    stores a' (if ok then map_add M nm v else M) /\
    (forall p x, read_property a p = Ok x -> read_property a' p = Ok x) /\
    (ok = false -> M !! nm = None /\
       ([] ∈ fields [46] nm \/ D < bytes_used_ a + path_room (fields [46] nm) + info_room nm v)).
Proof using D_small.
  intros (c & H & HM) Hnm Hl Hv. destruct (add_holds a c nm t v vt H Hnm Hl Hv) as (a' & c' & ok & -> & H' & Hread & Hres).
  exists a', ok. split; [done|]. split; [destruct H' as [(co & N) _]; apply N|].
  pose proof (fun nm => stores_lookup _ _ _ nm H HM) as HM'. unfold map_add. rewrite HM'.
  destruct (lookup_entry (fields [46] nm) c) as [e|] eqn:E; cbn.
  - destruct Hres as [-> Hsame]. split_and!; [|done|done]. apply (stores_intro _ c'); [done|]. intros. by rewrite HM', Hsame.
  - destruct ok.
    + destruct Hres as (off & Hres). split_and!; [|done|done]. apply (stores_intro _ c'); [done|]. intros nm'. rewrite Hres.
      destruct (decide (nm' = nm)) as [->|Hne]; [by rewrite lookup_insert_eq, decide_True|].
      rewrite lookup_insert_ne, decide_False by (done || intros ?%fields_inj; done). apply HM'.
    + destruct Hres as [Hsame Hwhy]. split_and!; [|done|done]. apply (stores_intro _ c'); [done|]. intros. by rewrite HM', Hsame.
Qed.

Lemma foreach_stores a M : stores a M -> exists ps l, foreach D a = Ok (ps, true) /\ l ≡ₚ map_to_list M /\
  Forall2 (fun p nv => read_property a p = Ok (fst nv ++ [0], snd nv ++ [0])) ps l.
Proof.
  intros (c & H & HM). pose proof H as [(co & N) Hn]. pose proof (an_ok _ _ _ _ N) as Hok.
  eexists _, ((fun pe : list (list Z) * entry => (e_name (snd pe), e_value (snd pe))) <$> entries c).
  split; [by apply foreach_holds|]. split.
  - apply NoDup_Permutation; [|apply NoDup_map_to_list|].
    + apply (NoDup_fmap_1 (fields [46] ∘ fst)). rewrite <- list_fmap_compose.
      rewrite (list_fmap_ext _ fst); [by apply (entries_nodup c)|]. intros i [fs e] He%list_elem_of_lookup_2. cbn.
      apply entries_lookup in He; [|done]. by destruct (Hn _ _ He) as [_ <-].
    + intros [nm v]. rewrite elem_of_map_to_list, HM, list_elem_of_fmap. split.
      * intros ([fs e] & [= -> ->] & He). apply entries_lookup in He; [|done]. exists e. cbn.
        destruct (Hn _ _ He) as [_ Hfs]. by rewrite <- Hfs.
      * intros (e & He & <- & <-). exists (fields [46] (e_name e), e). split; [done|]. by apply entries_lookup.
  - apply Forall2_fmap, Forall_Forall2_diag, Forall_forall. intros [fs e] He. apply entries_lookup in He; [|done]. cbn.
    by destruct (entry_readable _ _ _ _ H He).
Qed.
End wf.

Lemma new_stores D : first_free <= D -> stores D prop_area_new ∅.
Proof.
  intros Hd. apply (stores_intro _ _ Leaf); [by apply new_holds|]. intros nm. rewrite lookup_empty.
  unfold lookup_entry. by rewrite lookup_path_nil_tree.
Qed.

(** C1: a property area implements a finite map from names to values, for names whose length fits an unsigned int and values
    whose length does with the terminator.  [stores D a M] says that the
    area [a], of [D] bytes, stands for the map [M].  [find] returns the property of that name, with
    its value, if there is one in [M], and a null pointer otherwise.  [add] returns true and the
    area then stands for [M] with the name added, a name that is already there keeping its value;
    or it returns false, the area stands for [M] as before, and the name has an empty field or
    there was no room for it.  Properties found before an [add] can be read through the old pointer
    after it.  [foreach] visits every property of [M] once. *)
Theorem prop_area_refines_map D a M nm t v vt : D < 2 ^ 32 -> stores D a M ->
  cstring nm -> sz (length nm) < 2 ^ 32 -> sz (length v) < UINT_MAX ->
  (exists r, find D a (nm ++ 0 :: t) = Ok r /\
     match r with
     | Some p => exists v, M !! nm = Some v /\ read_property a p = Ok (nm ++ [0], v ++ [0])
     | None => M !! nm = None
     end) /\
  (exists a' ok, add D a (nm ++ 0 :: t) (length nm) (v ++ vt) (length v) = Ok (a', ok) /\
     stores D a' (if ok then map_add M nm v else M) /\
     (forall p x, read_property a p = Ok x -> read_property a' p = Ok x) /\
     (ok = false -> M !! nm = None /\
        ([] ∈ fields [46] nm \/ D < bytes_used_ a + path_room (fields [46] nm) + info_room nm v))) /\
  (exists ps l, foreach D a = Ok (ps, true) /\ l ≡ₚ map_to_list M /\
     Forall2 (fun p nv => read_property a p = Ok (fst nv ++ [0], snd nv ++ [0])) ps l).
Proof.
  intros HD H Hnm Hl Hv. split_and!; [by apply find_stores| |by apply foreach_stores].
  destruct (add_stores D HD a M nm t v vt H Hnm Hl Hv) as (a' & ok & ? & _ & ? & ? & ?). by exists a', ok.
Qed.

Lemma prop_area_refines_map_witness :
  (exists r, find 130944 prop_area_new (chars "ro.x" ++ [0]) = Ok r /\
     match r with
     | Some p => exists v, (∅ : gmap (list Z) (list Z)) !! chars "ro.x" = Some v /\
         read_property prop_area_new p = Ok (chars "ro.x" ++ [0], v ++ [0])
     | None => (∅ : gmap (list Z) (list Z)) !! chars "ro.x" = None
     end) /\
  (exists a' ok, add 130944 prop_area_new (chars "ro.x" ++ [0]) 4 (chars "1" ++ [0]) 1 = Ok (a', ok) /\
     stores 130944 a' (if ok then map_add ∅ (chars "ro.x") (chars "1") else ∅)).
Proof.
  destruct (prop_area_refines_map 130944 prop_area_new ∅ (chars "ro.x") [] (chars "1") [0]) as (H1 & H2 & _).
  - reflexivity.
  - apply new_stores. unfold first_free. lia.
  - cbn. repeat constructor; lia.
  - reflexivity.
  - reflexivity.
  - split; [exact H1|]. destruct H2 as (a' & ok & Ha & Hs & _). exists a', ok. split; [exact Ha|exact Hs].
Defined.

(** ** Sequences of additions *)

(** The names and values are added one after the other; the results of the calls. *)
Fixpoint run_adds (D : Z) (a : prop_area) (ops : list (list Z * list Z)) : result (prop_area * list bool) :=
  match ops with
  | [] => Ok (a, [])
  | (nm, v) :: ops =>
      r <-- add D a (nm ++ [0]) (length nm) (v ++ [0]) (length v) ;;
      omap_ok (fun q => (fst q, snd r :: snd q)) (run_adds D (fst r) ops)
  end.

Fixpoint map_adds (M : gmap (list Z) (list Z)) (ops : list (list Z * list Z)) (oks : list bool) : gmap (list Z) (list Z) :=
  match ops, oks with
  | (nm, v) :: ops, ok :: oks => map_adds (if ok then map_add M nm v else M) ops oks
  | _, _ => M
  end.

Lemma run_adds_stores D a M ops : D < 2 ^ 32 -> area_wf D a -> stores D a M ->
  Forall (fun nv : list Z * list Z => cstring (fst nv) /\ sz (length (fst nv)) < 2 ^ 32 /\ sz (length (snd nv)) < UINT_MAX) ops ->
  exists a' oks, run_adds D a ops = Ok (a', oks) /\ length oks = length ops /\ area_wf D a' /\ stores D a' (map_adds M ops oks).
Proof.
  intros HD W H Hops. revert a M W H. induction Hops as [|[nm v] ops (Hnm & Hl & Hv) Hops IH]; intros a M W H.
  - by exists a, [].
  - destruct (add_stores D HD a M nm [] v [0] H Hnm Hl Hv) as (a1 & ok & Ha & W1 & H1 & _).
    destruct (IH a1 _ W1 H1) as (a' & oks & Hr & Hlen & W' & H'). exists a', (ok :: oks).
    cbn [run_adds]. rewrite Ha. cbn [obind fst]. rewrite Hr. cbn. split_and!; [done|lia|done|done].
Qed.

(** C31: in every area made by a sequence of additions from a new one, of names whose length fits an unsigned int and values
    whose length does with the terminator, no call faults, the objects
    are aligned, lie inside the used part of the area, outside the dirty backup area and do not
    overlap, and the area stands for the map of the additions that succeeded. *)
Theorem prop_area_invariant D ops : first_free <= D < 2 ^ 32 ->
  Forall (fun nv : list Z * list Z => cstring (fst nv) /\ sz (length (fst nv)) < 2 ^ 32 /\ sz (length (snd nv)) < UINT_MAX) ops ->
  exists a oks, run_adds D prop_area_new ops = Ok (a, oks) /\ length oks = length ops /\
    area_wf D a /\ stores D a (map_adds ∅ ops oks).
Proof.
  intros HD Hops. apply run_adds_stores; [lia| |apply new_stores; lia|done].
  destruct (new_holds D) as [(co & N) _]; [lia|]. apply N.
Qed.

Lemma prop_area_invariant_witness :
  exists a oks, run_adds 130944 prop_area_new [(chars "ro.secure", chars "1"); (chars "net.dns", chars "8.8.8.8")] = Ok (a, oks) /\
    length oks = 2%nat /\ area_wf 130944 a /\
    stores 130944 a (map_adds ∅ [(chars "ro.secure", chars "1"); (chars "net.dns", chars "8.8.8.8")] oks).
Proof.
  apply (prop_area_invariant 130944 [(chars "ro.secure", chars "1"); (chars "net.dns", chars "8.8.8.8")]).
  - unfold first_free. lia.
  - repeat constructor; cbn; try lia.
Defined.

(** The additions of the example succeed, and the properties are there. *)
Example prop_area_example :
  match run_adds 130944 prop_area_new
          [(chars "ro.secure", chars "1"); (chars "net.dns", chars "8.8.8.8"); (chars "ro.secure", chars "0"); (chars "a..b", [])] with
  | Ok (a, oks) => oks = [true; true; true; false] /\
      find 130944 a (chars "ro.secure" ++ [0]) = Ok (Some 164) /\
      read_property a 164 = Ok (chars "ro.secure" ++ [0], chars "1" ++ [0]) /\
      find 130944 a (chars "ro" ++ [0]) = Ok None
  | _ => False
  end.
Proof. vm_compute. done. Qed.
