(* ===== verification/PropSeq.v ===== *)
(** Updating and reading a property: libc/system_properties/system_properties.cpp.

    A property lives in memory shared by all processes.  One process updates it and any number
    read it without a lock: the serial number of a property is odd while its value is being
    overwritten, and then the old value is in the dirty backup area of the property area.  The
    memory is that of [Atomic], one word per byte, so that a copy is a sequence of steps others
    can interleave with.  The theorem at the end says that a read returns a value the property
    had at some moment of the read, whole, with its serial number. *)

From stdpp Require Import pretty.
From S2P Require Import Prelude Atomic Futex WaitQueue.

(** * Definitions *)

(** The areas a process has mapped (contexts.h): the area of a name and the area whose serial
    number counts all changes. *)
Class Contexts := {
  GetPropAreaForName : list Z -> option nat;
  GetSerialPropArea : option nat
}.

Definition SERIAL_DIRTY (serial : Z) : bool := truthy (Z.land serial 1).
Definition SERIAL_VALUE_LEN (serial : Z) : Z := Z.shiftr serial 24.

(** Byte [i] of an array. *)
Definition byte (o : nat) (f : string) (i : nat) : loc := (o, f +:+ pretty i).

(** The fields of a property, of an area, and the buffer of a thread. *)
Definition pi_serial (pi : nat) : loc := (pi, "serial").
Definition pi_value (pi : nat) : nat -> loc := byte pi "value".
Definition pa_serial (pa : nat) : loc := (pa, "area_serial").
Definition dirty_backup_area (pa : nat) : nat -> loc := byte pa "backup".

Section operations.
Context {Ctx : Contexts} (initialized_ : bool) (pi_name : nat -> list Z).

(** memcpy, byte after byte from byte [i]. *)
Fixpoint memcpy_loop (dst src : nat -> loc) (i n : nat) : prog unit :=
  match n with
  | O => Ret tt
  | S n =>
      x <- atomic_load (src i) ;;
      atomic_store (dst i) x ;;
      memcpy_loop dst src (S i) n
  end.

Definition memcpy (dst src : nat -> loc) (n : nat) : prog unit := memcpy_loop dst src 0 n.

(** strlcpy from the string [src] of the caller, with room for [nleft] bytes and a null. *)
Fixpoint strlcpy_loop (dst : nat -> loc) (src : list Z) (i nleft : nat) {struct nleft} : prog unit :=
  match nleft, src with
  | O, _ => atomic_store (dst i) 0
  | S nleft, c :: src =>
      atomic_store (dst i) c ;;
      if c =? 0 then Ret tt else strlcpy_loop dst src (S i) nleft
  | S _, [] => abort
  end.

Definition ReadMutablePropertyValue (pi : nat) (value : nat -> loc) : prog Z :=
  new_serial <- atomic_load (pi_serial pi) ;;
  loop (fun serial : Z =>
    let len := Z.to_nat (SERIAL_VALUE_LEN serial) in
    (if SERIAL_DIRTY serial then
       match GetPropAreaForName (pi_name pi) with
       | None => abort
       | Some pa => memcpy value (dirty_backup_area pa) (len + 1)
       end
     else memcpy value (pi_value pi) (len + 1)) ;;
    new_serial <- atomic_load (pi_serial pi) ;;
    if serial =? new_serial then Ret (inr serial) else Ret (inl new_serial)) new_serial.

Definition Update (pi : nat) (value : list Z) (len : nat) : prog Z :=
  if PROP_VALUE_MAX <=? Z.of_nat len then Ret (-1) else
  if negb initialized_ then Ret (-1) else
  match GetSerialPropArea with
  | None => Ret (-1)
  | Some serial_pa =>
      match GetPropAreaForName (pi_name pi) with
      | None => Ret (-1)
      | Some pa =>
          serial <- atomic_load (pi_serial pi) ;;
          let old_len := Z.to_nat (SERIAL_VALUE_LEN serial) in
          memcpy (dirty_backup_area pa) (pi_value pi) (old_len + 1) ;;
          let serial := Z.lor serial 1 in
          atomic_store (pi_serial pi) serial ;;
          strlcpy_loop (pi_value pi) value 0 len ;;
          atomic_store (pi_serial pi)
            (Z.lor (wrapU 32 (Z.shiftl (Z.of_nat len) 24)) (Z.land (wrapU 32 (serial + 1)) 0xffffff)) ;;
          __futex_wake (pi_serial pi) INT_MAX ;;
          s <- atomic_load (pa_serial serial_pa) ;;
          atomic_store (pa_serial serial_pa) (wrapU 32 (s + 1)) ;;
          __futex_wake (pa_serial serial_pa) INT_MAX ;;
          Ret 0
      end
  end.

(** The result and the new serial number. *)
Definition Wait (pi : option nat) (old_serial : Z) (relative_timeout : option timespec) : prog (bool * option Z) :=
  let wait_on serial_ptr :=
    loop (fun _ : unit =>
      rc <- __futex_wait serial_ptr old_serial relative_timeout ;;
      if negb (rc =? 0) && (rc =? - ETIMEDOUT) then Ret (inr (false, None)) else
      new_serial <- atomic_load serial_ptr ;;
      if new_serial =? old_serial then Ret (inl tt) else Ret (inr (true, Some new_serial))) tt in
  match pi with
  | None =>
      (* -1 as a bool is true *)
      if negb initialized_ then Ret (true, None) else
      match GetSerialPropArea with
      | None => Ret (true, None)
      | Some serial_pa => wait_on (pa_serial serial_pa)
      end
  | Some pi => wait_on (pi_serial pi)
  end.

Definition WaitAny (old_serial : Z) : prog Z :=
  let2 _, new_serial <- Wait None old_serial None ;;
  match new_serial with
  | Some new_serial => Ret new_serial
  | None => abort    (* an uninitialized variable *)
  end.

Definition AreaSerial : prog Z :=
  if negb initialized_ then Ret (wrapU 32 (-1)) else
  match GetSerialPropArea with
  | None => Ret (wrapU 32 (-1))
  | Some pa => atomic_load (pa_serial pa)
  end.

End operations.

(** * A writer, readers and waiters *)

(** The value in the buffer of thread [t] and what it remembers. *)
Definition buffer (t : nat) : nat -> loc := byte t "buf".
Definition seen (t : nat) (f : string) : loc := (t, f).

Inductive client := Reader (pi : nat) | Waiter (pi : nat).

Section system.
Context {Ctx : Contexts} (initialized_ : bool) (pi_name : nat -> list Z).

(** A thread that reads a property once and notes the serial number before, during and after. *)
Definition reader (t pi : nat) : prog unit :=
  before <- atomic_load (pi_serial pi) ;;
  atomic_store (seen t "before") before ;;
  serial <- ReadMutablePropertyValue pi_name pi (buffer t) ;;
  atomic_store (seen t "result") serial ;;
  after <- atomic_load (pi_serial pi) ;;
  atomic_store (seen t "after") after ;;
  atomic_store (seen t "done") 1.

(** A thread that waits for a property to change. *)
Definition waiter (t pi : nat) : prog unit :=
  old <- atomic_load (pi_serial pi) ;;
  atomic_store (seen t "old") old ;;
  Wait initialized_ (Some pi) old None ;;
  Ret tt.

Definition client_prog (t : nat) (c : client) : prog unit :=
  match c with Reader pi => reader t pi | Waiter pi => waiter t pi end.

(** The process that makes all the updates. *)
Fixpoint writer (ups : list (nat * list Z)) : prog unit :=
  match ups with
  | [] => Ret tt
  | (pi, v) :: ups => Update initialized_ pi_name pi (v ++ [0]) (length v) ;; writer ups
  end.

Definition system (ups : list (nat * list Z)) (clients : list client) : list (prog unit) :=
  writer ups :: imap (fun i c => client_prog (S i) c) clients.

End system.

(** * Specification *)

(** The values a property has had. *)
Definition history (init : nat -> list Z) (ups : list (nat * list Z)) (pi : nat) : list (list Z) :=
  init pi :: (filter (fun u => u.1 = pi) ups).*2.

(** The part of a serial number that counts, and the number of updates it stands for. *)
Definition count_of (serial : Z) : Z := serial mod 2 ^ 24.
Definition version (serial : Z) : nat := Z.to_nat (count_of serial / 2).

Definition bytes_at (m : mem) (f : nat -> loc) (l : list Z) : Prop :=
  forall j x, l !! j = Some x -> word m (f j) = x.

(** A C string that fits a property. *)
Definition prop_string (v : list Z) : Prop :=
  Forall (fun c => 0 < c < 256) v /\ Z.of_nat (length v) < PROP_VALUE_MAX.

Definition encode (v : list Z) (count : Z) : Z := Z.of_nat (length v) * 2 ^ 24 + count.

(** The memory when the properties have just been added. *)
Definition initial (init : nat -> list Z) (m : mem) : Prop :=
  (forall pi, word m (pi_serial pi) = encode (init pi) 0 /\ bytes_at m (pi_value pi) (init pi ++ [0])) /\
  (forall t, word m (seen t "done") = 0) /\
  (forall l sh, waiters m l sh = []).

(** What a read of thread [t] delivered: a version of the property, whole. *)
Definition delivered (init : nat -> list Z) (ups : list (nat * list Z)) (m : mem) (t pi : nat) : Prop :=
  exists v, let serial := word m (seen t "result") in
    history init ups pi !! version serial = Some v /\
    bytes_at m (buffer t) (v ++ [0]) /\ SERIAL_VALUE_LEN serial = Z.of_nat (length v) /\
    (version (word m (seen t "before")) <= version serial <= version (word m (seen t "after")))%nat.

(** * Serial numbers *)

Lemma count_encode v c : 0 <= c < 2 ^ 24 -> count_of (encode v c) = c.
Proof.
  intros H. unfold count_of, encode. rewrite Z.add_comm, Z.mod_add by lia. by apply Z.mod_small.
Qed.

Lemma len_encode v c : 0 <= c < 2 ^ 24 -> SERIAL_VALUE_LEN (encode v c) = Z.of_nat (length v).
Proof.
  intros H. unfold SERIAL_VALUE_LEN, encode. rewrite Z.shiftr_div_pow2, Z.div_add_l, Z.div_small by lia. lia.
Qed.

Lemma dirty_encode v c : SERIAL_DIRTY (encode v c) = Z.odd c.
Proof.
  unfold SERIAL_DIRTY, encode. rewrite land_1.
  replace (Z.of_nat (length v) * 2 ^ 24 + c) with (c + (Z.of_nat (length v) * 2 ^ 23) * 2) by lia.
  rewrite Z.mod_add by lia. rewrite Zmod_odd. by destruct (Z.odd c).
Qed.

Lemma dirty_set v k : Z.lor (encode v (2 * k)) 1 = encode v (2 * k + 1).
Proof.
  unfold encode. replace (Z.of_nat (length v) * 2 ^ 24 + 2 * k)
    with ((Z.of_nat (length v) * 2 ^ 23 + k) * 2 ^ 1) by lia.
  rewrite (lor_low_bits 1) by (try done; lia). lia.
Qed.

Lemma new_serial_encode v v' k : Z.of_nat (length v) < PROP_VALUE_MAX -> Z.of_nat (length v') < PROP_VALUE_MAX ->
  0 <= k < 2 ^ 23 - 1 ->
  Z.lor (wrapU 32 (Z.shiftl (Z.of_nat (length v')) 24))
    (Z.land (wrapU 32 (encode v (2 * k + 1) + 1)) 0xffffff) = encode v' (2 * (k + 1)).
Proof.
  unfold encode, wrapU. intros Hv Hv' Hk. change 0xffffff with (Z.ones 24).
  rewrite Z.land_ones, Z.shiftl_mul_pow2, !(Z.mod_small _ (2 ^ 32)) by lia.
  replace (Z.of_nat (length v) * 2 ^ 24 + (2 * k + 1) + 1)
    with (2 * (k + 1) + Z.of_nat (length v) * 2 ^ 24) by lia.
  rewrite Z.mod_add, Z.mod_small by lia. rewrite lor_low_bits by lia. lia.
Qed.

Lemma version_encode v c : 0 <= c < 2 ^ 24 -> version (encode v c) = Z.to_nat (c / 2).
Proof. intros H. unfold version. by rewrite count_encode. Qed.

Lemma version_mono s s' : count_of s <= count_of s' -> (version s <= version s')%nat.
Proof. intros H. unfold version. apply Z2Nat.inj_le; [..|by apply Z.div_le_mono; lia]; apply Z.div_pos; try lia; apply Z.mod_pos_bound; lia. Qed.

(** * Locations *)

Lemma byte_inj o f i o' i' : byte o f i = byte o' f i' -> o = o' /\ i = i'.
Proof. unfold byte. intros [= -> H]. apply (inj (String.append f)) in H. split; [done|]. by apply (inj pretty) in H. Qed.

Lemma pi_serial_ne p q : p <> q -> pi_serial p <> pi_serial q.
Proof. intros H [= E]. done. Qed.

(** The words of the property service, and those of thread [t]. *)
Definition shared_loc (l : loc) : Prop :=
  exists o, l = pi_serial o \/ l = pa_serial o \/ (exists i, l = pi_value o i) \/ exists i, l = dirty_backup_area o i.

Definition private_loc (t : nat) (l : loc) : Prop :=
  (exists f, l = seen t f /\ In f ["before"; "result"; "after"; "done"; "old"]) \/ exists i, l = buffer t i.

Lemma private_not_shared t l : private_loc t l -> ~ shared_loc l.
Proof.
  intros [(f & -> & Hf)|[i ->]] (o & [H|[H|[[j H]|[j H]]]]); try discriminate H;
    repeat destruct Hf as [<-|Hf]; try discriminate H; done.
Qed.

Lemma private_inj t t' l : private_loc t l -> private_loc t' l -> t = t'.
Proof. intros [(f & -> & _)|[i ->]] [(f' & [=] & _)|[i' [=]]]; congruence. Qed.

(** * Bytes in memory *)

Lemma bytes_at_ext m m' f l :
  (forall j, word m' (f j) = word m (f j)) -> bytes_at m f l -> bytes_at m' f l.
Proof. intros E H j x Hx. rewrite E. by apply H. Qed.

Lemma bytes_at_set m f l k x : (forall j, f j <> k) -> bytes_at m f l -> bytes_at (set_word m k x) f l.
Proof. intros Hne. apply bytes_at_ext. intros j. by apply word_set_word_ne. Qed.

Lemma bytes_at_snoc m o n l i x :
  bytes_at m (byte o n) (take i l) -> l !! i = Some x ->
  bytes_at (set_word m (byte o n i) x) (byte o n) (take (S i) l).
Proof.
  intros H Hx j y Hy. apply lookup_take_Some in Hy as [Hy Hj]. destruct (decide (j = i)) as [->|Hne].
  - rewrite word_set_word_eq. congruence.
  - rewrite word_set_word_ne by (intros [_ E]%byte_inj; done). apply H, lookup_take_Some. split; [done|lia].
Qed.

Lemma bytes_at_take m f l : bytes_at m f (take (length l) l) -> bytes_at m f l.
Proof. by rewrite take_ge by done. Qed.

(** * Versions of a property *)

Section versions.
Context (init : nat -> list Z) (ups : list (nat * list Z)).
Implicit Types (pi d : nat) (v : list Z).

(** The number of updates of [pi] among the first [d], and the value after them. *)
Definition ver (d pi : nat) : nat := length (filter (fun u : nat * list Z => u.1 = pi) (take d ups)).
Definition cur (d pi : nat) : list Z := default [] (last (history init (take d ups) pi)).

Lemma ver_le d pi : (ver d pi <= length ups)%nat.
Proof.
  unfold ver. pose proof (length_filter (fun u : nat * list Z => u.1 = pi) (take d ups)).
  rewrite length_take in *. lia.
Qed.

Lemma last_history l pi : is_Some (last (history init l pi)).
Proof. destruct (last (history init l pi)) eqn:E; [done|]. by apply last_None in E. Qed.

Lemma history_cur d pi : history init ups pi !! ver d pi = Some (cur d pi).
Proof.
  unfold cur. rewrite <- (take_drop d ups) at 1. unfold history at 1. rewrite filter_app, fmap_app.
  destruct (last_history (take d ups) pi) as [v E]. rewrite E. cbn [default from_option].
  rewrite app_comm_cons. apply lookup_app_l_Some. rewrite last_lookup in E. unfold history in E. simpl in E.
  by rewrite length_fmap in E.
Qed.

Lemma history_step d pi q v : ups !! d = Some (q, v) ->
  history init (take (S d) ups) pi = history init (take d ups) pi ++ (if decide (q = pi) then [v] else []).
Proof.
  intros H. rewrite (take_S_r _ _ _ H). unfold history. rewrite filter_app, fmap_app. simpl. f_equal. f_equal.
  unfold filter, list_filter. simpl. by destruct (decide (q = pi)).
Qed.

Lemma ver_step d pi q v : ups !! d = Some (q, v) ->
  ver (S d) pi = (if decide (q = pi) then S (ver d pi) else ver d pi).
Proof.
  intros H. pose proof (f_equal length (history_step d pi q v H)) as E. unfold history in E.
  rewrite length_app in E. simpl in E. rewrite !length_fmap in E. unfold ver.
  destruct (decide (q = pi)); simpl in E; lia.
Qed.

Lemma cur_step d pi q v : ups !! d = Some (q, v) ->
  cur (S d) pi = (if decide (q = pi) then v else cur d pi).
Proof.
  intros H. unfold cur. rewrite (history_step d pi q v H). destruct (decide (q = pi)); [by rewrite last_snoc|by rewrite app_nil_r].
Qed.

Context (Hinit : forall pi, prop_string (init pi)) (Hups : Forall (fun u : nat * list Z => prop_string u.2) ups).

Lemma history_ok pi k v : history init ups pi !! k = Some v -> prop_string v.
Proof using Hinit Hups.
  intros H. destruct k as [|k]; simpl in H; [by simplify_eq|].
  apply list_lookup_fmap_Some in H as ([q w] & -> & H). apply list_elem_of_lookup_2, list_elem_of_filter in H as [_ H].
  rewrite Forall_forall in Hups. by apply (Hups (q, w)).
Qed.

Lemma cur_ok d pi : prop_string (cur d pi).
Proof using Hinit Hups. eapply history_ok, history_cur. Qed.

End versions.

(** * The invariant of reads *)

(** Where the writer is after [d] updates. *)
Inductive wstate :=
| WIdle
| WCopy (pi i : nat)                   (* [i] bytes of the value saved *)
| WWrite (pi : nat) (v : list Z) (i : nat).   (* [i] bytes of the new value written *)

(** Where a reader is; [s] is the serial number it works with and [v] the value that goes with it. *)
Inductive rstate :=
| RStart
| RLoaded (b : Z)        (* the serial number before the call *)
| RBegun
| RCopy (s : Z) (v : list Z) (i : nat)          (* [i] bytes copied *)
| RHold (s : Z) (v : list Z) (i : nat) (x : Z)  (* and byte [i] is [x] *)
| RGot (s : Z) (v : list Z)
| RSaved (s : Z) (v : list Z)
| RAfter (s : Z) (v : list Z) (a : Z)    (* the serial number after the call *)
| RNoted (s : Z) (v : list Z)
| RDone.

Inductive sphase := PW (d : nat) (ws : wstate) | PR (rs : rstate).

Section reads.
Context {K : FutexKernel} {Ctx : Contexts} (pi_name : nat -> list Z) (area : nat -> nat).
Context (init : nat -> list Z) (ups : list (nat * list Z)) (clients : list client).
Context (Harea : forall pi, GetPropAreaForName (pi_name pi) = Some (area pi)).
Context (Hinit : forall pi, prop_string (init pi)) (Hups : Forall (fun u : nat * list Z => prop_string u.2) ups).
Context (Hfew : Z.of_nat (length ups) < 2 ^ 23).

Abbreviation ver := (ver ups).
Abbreviation cur := (cur init ups).
Abbreviation serial m pi := (word m (pi_serial pi)).

Definition clean (d : nat) (m : mem) (pi : nat) : Prop :=
  serial m pi = encode (cur d pi) (2 * Z.of_nat (ver d pi)) /\ bytes_at m (pi_value pi) (cur d pi ++ [0]).

Definition writer_ok (d : nat) (ws : wstate) (m : mem) : Prop :=
  match ws with
  | WIdle => forall pi, clean d m pi
  | WCopy q i =>
      (forall pi, clean d m pi) /\ bytes_at m (dirty_backup_area (area q)) (take i (cur d q ++ [0]))
  | WWrite q v i =>
      (forall pi, pi <> q -> clean d m pi) /\
      serial m q = encode (cur d q) (2 * Z.of_nat (ver d q) + 1) /\
      bytes_at m (dirty_backup_area (area q)) (cur d q ++ [0]) /\
      bytes_at m (pi_value q) (take i (v ++ [0]))
  end.

(** [s] is a serial number [pi] can have, with the value [v]. *)
Definition good (pi : nat) (s : Z) (v : list Z) : Prop :=
  s = encode v (count_of s) /\ history init ups pi !! version s = Some v.

Definition reading (m : mem) (t pi : nat) (s : Z) (v : list Z) : Prop :=
  word m (seen t "done") = 0 /\ good pi s v /\
  count_of (word m (seen t "before")) <= count_of s <= count_of (serial m pi).

Definition reader_ok (m : mem) (t pi : nat) (rs : rstate) : Prop :=
  match rs with
  | RStart => word m (seen t "done") = 0
  | RLoaded b => word m (seen t "done") = 0 /\ count_of b <= count_of (serial m pi)
  | RBegun => word m (seen t "done") = 0 /\ count_of (word m (seen t "before")) <= count_of (serial m pi)
  | RCopy s v i =>
      reading m t pi s v /\ (serial m pi = s -> bytes_at m (buffer t) (take i (v ++ [0])))
  | RHold s v i x =>
      reading m t pi s v /\
      (serial m pi = s -> bytes_at m (buffer t) (take i (v ++ [0])) /\ (v ++ [0]) !! i = Some x)
  | RGot s v => reading m t pi s v /\ bytes_at m (buffer t) (v ++ [0])
  | RSaved s v =>
      reading m t pi s v /\ bytes_at m (buffer t) (v ++ [0]) /\ word m (seen t "result") = s
  | RAfter s v a =>
      reading m t pi s v /\ bytes_at m (buffer t) (v ++ [0]) /\ word m (seen t "result") = s /\ count_of s <= count_of a
  | RNoted s v =>
      reading m t pi s v /\ bytes_at m (buffer t) (v ++ [0]) /\ word m (seen t "result") = s /\
      count_of s <= count_of (word m (seen t "after"))
  | RDone => delivered init ups m t pi
  end.

Definition SInv (m : mem) (g : list sphase) : Prop :=
  (exists d ws, g !! 0%nat = Some (PW d ws) /\ writer_ok d ws m) /\
  forall i pi φ, clients !! i = Some (Reader pi) -> g !! S i = Some φ ->
    exists rs, φ = PR rs /\ reader_ok m (S i) pi rs.

(** * What the parts of the invariant depend on *)

Lemma writer_ok_ext d ws m m' :
  (forall l, shared_loc l -> word m' l = word m l) -> writer_ok d ws m -> writer_ok d ws m'.
Proof using Type.
  intros E. assert (forall pi, serial m' pi = serial m pi) as Es by (intros pi; apply E; exists pi; auto).
  assert (forall pi j, word m' (pi_value pi j) = word m (pi_value pi j)) as Ev by (intros; apply E; exists pi; eauto).
  assert (forall a j, word m' (dirty_backup_area a j) = word m (dirty_backup_area a j)) as Eb
    by (intros a j; apply E; exists a; eauto 6).
  assert (forall pi, clean d m pi -> clean d m' pi) as Hc.
  { intros pi [H1 H2]. split; [by rewrite Es|]. eapply bytes_at_ext; eauto. }
  destruct ws as [|q i|q v i]; simpl.
  - auto.
  - intros [H1 H2]. split; [auto|]. eapply bytes_at_ext; eauto.
  - intros (H1 & H2 & H3 & H4). split; [auto|]. split; [by rewrite Es|]. split; eapply bytes_at_ext; eauto.
Qed.

Lemma reader_ok_ext m m' t pi rs :
  (forall l, private_loc t l -> word m' l = word m l) ->
  serial m' pi = serial m pi \/ count_of (serial m pi) < count_of (serial m' pi) ->
  reader_ok m t pi rs -> reader_ok m' t pi rs.
Proof using Type.
  intros E Hs. assert (forall j, word m' (buffer t j) = word m (buffer t j)) as Eb by (intros; apply E; right; eauto).
  assert (forall f, In f ["before"; "result"; "after"; "done"; "old"] -> word m' (seen t f) = word m (seen t f)) as Ef
    by (intros; apply E; left; eauto).
  assert (count_of (serial m pi) <= count_of (serial m' pi)) as Hle by (destruct Hs as [->|]; lia).
  assert (forall s v, reading m t pi s v -> reading m' t pi s v) as Hr.
  { intros s v (H1 & H2 & H3). unfold reading. rewrite !Ef by (simpl; tauto). split; [done|]. split; [done|lia]. }
  assert (forall s v, reading m t pi s v -> serial m' pi = s -> serial m pi = s) as Hsame.
  { intros s v (_ & _ & H) <-. destruct Hs as [->|]; [done|lia]. }
  destruct rs; simpl; rewrite ?Ef by (simpl; tauto); try done.
  - lia.
  - lia.
  - intros [H1 H2]. split; [auto|]. intros H3. eapply bytes_at_ext; eauto.
  - intros [H1 H2]. split; [auto|]. intros H3. destruct H2 as [H2 H4]; [eauto|]. split; [|done]. eapply bytes_at_ext; eauto.
  - intros [H1 H2]. split; [auto|]. eapply bytes_at_ext; eauto.
  - intros (H1 & H2 & H3). split; [auto|]. split; [eapply bytes_at_ext; eauto|done].
  - intros (H1 & H2 & H3). split; [auto|]. split; [eapply bytes_at_ext; eauto|done].
  - intros (H1 & H2 & H3). split; [auto|]. split; [eapply bytes_at_ext; eauto|done].
  - unfold delivered. rewrite !Ef by (simpl; tauto). intros (v & H1 & H2 & H3). exists v.
    split; [done|]. split; [eapply bytes_at_ext; eauto|done].
Qed.

Lemma SInv_ext m m' g : (forall l, word m' l = word m l) -> SInv m g -> SInv m' g.
Proof using Type.
  intros E [(d & ws & Hg & Hw) Hr]. split.
  - exists d, ws. split; [done|]. eapply writer_ok_ext; eauto.
  - intros i pi φ Hc Hg'. destruct (Hr i pi φ Hc Hg') as (rs & -> & H). exists rs. split; [done|].
    eapply reader_ok_ext; eauto.
Qed.

#[export] Instance SInv_proper : Proper (mem_equiv ==> eq ==> iff) SInv.
Proof using Type.
  intros m m' [Hw _] g ? <-. split; apply SInv_ext; intros l; by rewrite Hw.
Qed.

(** The serial number of a property is one it can have, and the value that goes with it is in
    one of the two places. *)
Lemma serial_good d ws m pi : writer_ok d ws m ->
  exists v, good pi (serial m pi) v /\
    bytes_at m (if SERIAL_DIRTY (serial m pi) then dirty_backup_area (area pi) else pi_value pi) (v ++ [0]).
Proof using Hfew.
  intros Hw. pose proof (ver_le ups d pi) as Hle. exists (cur d pi).
  assert (forall c, c = 2 * Z.of_nat (ver d pi) \/ c = 2 * Z.of_nat (ver d pi) + 1 ->
    good pi (encode (cur d pi) c) (cur d pi)) as Hgood.
  { intros c Hc. assert (0 <= c < 2 ^ 24) as Hb by lia. unfold good. rewrite count_encode, version_encode by done.
    split; [done|]. rewrite <- (Z.div_unique c 2 (Z.of_nat (ver d pi)) (c - 2 * Z.of_nat (ver d pi))) by lia.
    rewrite Nat2Z.id. apply history_cur. }
  assert (clean d m pi -> good pi (serial m pi) (cur d pi) /\
    bytes_at m (if SERIAL_DIRTY (serial m pi) then dirty_backup_area (area pi) else pi_value pi) (cur d pi ++ [0])) as Hc.
  { intros [-> Hb]. split; [auto|]. by rewrite dirty_encode, Z.odd_mul. }
  destruct ws as [|q i|q v i]; simpl in Hw; [by apply Hc|by apply Hc, Hw|].
  destruct (decide (pi = q)) as [->|Hne]; [|by apply Hc, Hw]. destruct Hw as (_ & -> & Hb & _).
  split; [auto|]. by rewrite dirty_encode, Z.odd_add, Z.odd_mul.
Qed.

(** * Steps *)

Lemma SInv_client m m' g i φ : SInv m g -> is_Some (g !! S i) ->
  (forall l, ~ private_loc (S i) l -> word m' l = word m l) ->
  (forall pi, clients !! i = Some (Reader pi) -> exists rs, φ = PR rs /\ reader_ok m' (S i) pi rs) ->
  SInv m' (<[S i:=φ]> g).
Proof using Type.
  intros [(d & ws & Hg & Hw) Hr] Hi E Hφ.
  assert (forall l, shared_loc l -> word m' l = word m l) as Es.
  { intros l Hl. apply E. intros Hp. by apply private_not_shared in Hp. }
  split.
  - exists d, ws. rewrite list_lookup_insert_ne by done. split; [done|]. eapply writer_ok_ext; eauto.
  - intros j pi φ' Hc Hg'. destruct (decide (j = i)) as [->|Hne].
    + rewrite list_lookup_insert_eq in Hg' by (by apply lookup_lt_is_Some). simplify_eq. auto.
    + rewrite list_lookup_insert_ne in Hg' by congruence. destruct (Hr j pi φ' Hc Hg') as (rs & -> & H).
      exists rs. split; [done|]. apply (reader_ok_ext m); [|left; apply Es; exists pi; auto|done].
      intros l Hl. apply E. intros Hl'. pose proof (private_inj _ _ _ Hl Hl'). congruence.
Qed.

Lemma SInv_writer m m' g d ws d' ws' : SInv m g -> g !! 0%nat = Some (PW d ws) ->
  (forall t l, private_loc t l -> word m' l = word m l) ->
  (forall pi, serial m' pi = serial m pi \/ count_of (serial m pi) < count_of (serial m' pi)) ->
  writer_ok d' ws' m' -> SInv m' (<[0%nat:=PW d' ws']> g).
Proof using Type.
  intros [_ Hr] Hg E Hs Hw. split.
  - exists d', ws'. split; [|done]. apply list_lookup_insert_eq. by eapply lookup_lt_Some.
  - intros j pi φ Hc Hg'. rewrite list_lookup_insert_ne in Hg' by done.
    destruct (Hr j pi φ Hc Hg') as (rs & -> & H). exists rs. split; [done|]. apply (reader_ok_ext m); [apply E|apply Hs|done].
Qed.

Lemma SInv_writer_ok m g d ws : SInv m g -> g !! 0%nat = Some (PW d ws) -> writer_ok d ws m.
Proof using Type. intros [(d' & ws' & Hg & Hw) _] Hg'. by simplify_eq. Qed.

(** * Readers *)

Section reader.
Context (i pi : nat) (Hi : clients !! i = Some (Reader pi)).

Lemma own_loc l x m l' : private_loc (S i) l -> ~ private_loc (S i) l' -> word (set_word m l x) l' = word m l'.
Proof using Type. intros H H'. apply word_set_word_ne. congruence. Qed.

(** A load and a store of the reader. *)
Lemma wp_reader_load l rs (Q : Z -> sphase -> Prop) :
  (forall m d ws, writer_ok d ws m -> reader_ok m (S i) pi rs ->
     exists rs', reader_ok m (S i) pi rs' /\ Q (word m l) (PR rs')) ->
  wp SInv (atomic_load l) (S i) Q (PR rs).
Proof using Hi.
  intros H. apply (wp_load SInv). intros m g HI Hg. 
  pose proof HI as [(d & ws & Hg0 & Hw) Hr].
  destruct (Hr i pi _ Hi Hg) as (rs0 & E0 & Hok). injection E0 as <-. destruct (H m d ws Hw Hok) as (rs' & Hok' & HQ).
  exists (PR rs'). split; [|done]. apply (SInv_client m); [done..|by intros pi' Hi'; simplify_eq; eauto].
Qed.

Lemma wp_reader_store l x rs rs' (Q : unit -> sphase -> Prop) :
  private_loc (S i) l ->
  (forall m, reader_ok m (S i) pi rs -> reader_ok (set_word m l x) (S i) pi rs') ->
  Q tt (PR rs') -> wp SInv (atomic_store l x) (S i) Q (PR rs).
Proof using Hi.
  intros Hl H HQ. apply (wp_store SInv). intros m g HI Hg. pose proof HI as [_ Hr].
  destruct (Hr i pi _ Hi Hg) as (rs0 & E0 & Hok). injection E0 as <-. exists (PR rs'). split; [|done].
  apply (SInv_client m); [done..|by intros l'; apply own_loc|intros pi' Hi'; simplify_eq; eauto].
Qed.

(** The copy, from the place the serial number names. *)
Lemma wp_reader_copy s v n j (Q : unit -> sphase -> Prop) :
  (j + n = length v + 1)%nat -> Q tt (PR (RCopy s v (length v + 1))) ->
  wp SInv (memcpy_loop (buffer (S i)) (if SERIAL_DIRTY s then dirty_backup_area (area pi) else pi_value pi) j n)
    (S i) Q (PR (RCopy s v j)).
Proof using Hi Hfew.
  intros Hj HQ. revert j Hj. induction n as [|n IH]; intros j Hj; simpl.
  { apply wp_ret. by replace j with (length v + 1)%nat by lia. }
  apply wp_bind, wp_reader_load. intros m d ws Hw [Hr Hb].
  set (src := if SERIAL_DIRTY s then dirty_backup_area (area pi) else pi_value pi) in *.
  exists (RHold s v j (word m (src j))). split.
  - split; [done|]. intros Hs. split; [auto|].
    destruct (serial_good d ws m pi Hw) as (v' & [Es Hv'] & Hbytes).
    destruct Hr as (_ & [Es' Hv] & _). rewrite Hs in Hbytes, Hv'. assert (v' = v) as -> by congruence.
    destruct (lookup_lt_is_Some_2 (v ++ [0]) j) as [x Hx]; [rewrite length_app; simpl; lia|].
    by rewrite Hx, <- (Hbytes j x Hx).
  - apply wp_bind, (wp_reader_store _ _ _ (RCopy s v (S j))); [right; by exists j| |apply IH; lia].
    intros m' [(R1 & R2 & R3) Hb']. unfold reader_ok, reading.
    rewrite !(word_set_word_ne m') by discriminate. split; [done|].
    intros Hs. destruct (Hb' Hs) as [Hb1 Hx]. by apply bytes_at_snoc.
Qed.

Lemma wp_ReadMutablePropertyValue (Q : Z -> sphase -> Prop) :
  (forall s v, Q s (PR (RGot s v))) ->
  wp SInv (ReadMutablePropertyValue pi_name pi (buffer (S i))) (S i) Q (PR RBegun).
Proof using Hi Hfew Harea.
  intros HQ. set (J := fun (s : Z) (φ : sphase) => exists v, good pi s v /\ φ = PR (RCopy s v 0)).
  assert (forall m d ws, writer_ok d ws m -> word m (seen (S i) "done") = 0 ->
    count_of (word m (seen (S i) "before")) <= count_of (serial m pi) ->
    exists rs', reader_ok m (S i) pi rs' /\ J (serial m pi) (PR rs')) as Hnew.
  { intros m d ws Hw Hd Hle. destruct (serial_good d ws m pi Hw) as (v & Hv & _).
    exists (RCopy (serial m pi) v 0). split; [|by exists v]. split; [done|]. by intros _ j x Hx. }
  apply wp_bind, wp_reader_load. intros m d ws Hw [Hd Hle].
  destruct (Hnew m d ws Hw Hd Hle) as (rs' & Hok & HJ). exists rs'. split; [done|].
  apply (wp_loop SInv J); [done|]. clear m d ws Hw Hd Hle rs' Hok HJ. intros s φ (v & Hv & ->).
  assert (Z.to_nat (SERIAL_VALUE_LEN s) = length v) as ->.
  { rewrite (proj1 Hv), len_encode; [lia|]. apply Z.mod_pos_bound. lia. }
  rewrite Harea. apply wp_bind. unfold memcpy.
  assert (wp SInv (memcpy_loop (buffer (S i)) (if SERIAL_DIRTY s then dirty_backup_area (area pi) else pi_value pi)
    0 (length v + 1)) (S i) (fun _ φ => φ = PR (RCopy s v (length v + 1))) (PR (RCopy s v 0))) as Hcopy
    by (by apply wp_reader_copy).
  assert (forall b, SERIAL_DIRTY s = b -> wp SInv (if b then memcpy_loop (buffer (S i)) (dirty_backup_area (area pi)) 0 (length v + 1)
    else memcpy_loop (buffer (S i)) (pi_value pi) 0 (length v + 1)) (S i) (fun _ φ => φ = PR (RCopy s v (length v + 1)))
    (PR (RCopy s v 0))) as Hbr by (by intros [] E; rewrite E in Hcopy).
  eapply wp_mono; [|by apply Hbr]. intros _ φ ->. apply wp_bind, wp_reader_load.
  intros m d ws Hw [Hr Hb]. destruct (Z.eqb_spec s (serial m pi)) as [E|Hne].
  - exists (RGot s v). split; [|by apply wp_ret]. split; [done|]. apply bytes_at_take.
    rewrite length_app. by apply Hb.
  - destruct Hr as (Hd & _ & Hle). destruct (Hnew m d ws Hw Hd) as (rs' & Hok & HJ); [lia|].
    exists rs'. split; [done|]. by apply wp_ret.
Qed.

Lemma wp_reader : wp SInv (reader pi_name (S i) pi) (S i) (fun _ φ => exists rs, φ = PR rs) (PR RStart).
Proof using Hi Hfew Harea.
  assert (forall f, In f ["before"; "result"; "after"; "done"; "old"] -> private_loc (S i) (seen (S i) f)) as Hf
    by (intros f H; left; by exists f).
  assert (forall m k x l, (forall j, buffer (S i) j <> k) -> bytes_at m (buffer (S i)) l ->
    bytes_at (set_word m k x) (buffer (S i)) l) as Hbuf by (intros; by apply bytes_at_set).
  apply wp_bind, wp_reader_load. intros m d ws _ Hd. exists (RLoaded (serial m pi)).
  split; [by split|]. generalize (serial m pi). clear m d ws Hd. intros b.
  apply wp_bind, (wp_reader_store _ _ _ RBegun); [apply Hf; simpl; tauto|..].
  { intros m. unfold reader_ok. by rewrite word_set_word_eq, !(word_set_word_ne m) by discriminate. }
  apply wp_bind, wp_ReadMutablePropertyValue. intros s v.
  apply wp_bind, (wp_reader_store _ _ _ (RSaved s v)); [apply Hf; simpl; tauto|..].
  { intros m [Hr Hb]. unfold reader_ok, reading. rewrite word_set_word_eq, !(word_set_word_ne m) by discriminate.
    split; [done|]. split; [by apply Hbuf|done]. }
  apply wp_bind, wp_reader_load. intros m d ws _ (Hr & Hb & He). exists (RAfter s v (serial m pi)).
  split; [split; [done|]; split; [done|]; split; [done|]; apply Hr|].
  generalize (serial m pi). clear m d ws Hr Hb He. intros a.
  apply wp_bind, (wp_reader_store _ _ _ (RNoted s v)); [apply Hf; simpl; tauto|..].
  { intros m (Hr & Hb & He). unfold reader_ok, reading. rewrite word_set_word_eq, !(word_set_word_ne m) by discriminate.
    split; [done|]. split; [by apply Hbuf|done]. }
  apply (wp_reader_store _ _ _ RDone); [apply Hf; simpl; tauto| |by exists RDone].
  intros m ((_ & [Es Hv] & Hle) & Hb & He & Ha). unfold reader_ok, delivered. exists v.
  rewrite !(word_set_word_ne m) by discriminate. rewrite He. split; [done|]. split; [by apply Hbuf|].
  split; [rewrite Es; apply len_encode, Z.mod_pos_bound; lia|].
  split; apply version_mono; lia.
Qed.

End reader.

(** * Futex calls and waiters *)

Lemma wp_futex_wait_any l v ts t (Q : Z -> sphase -> Prop) φ :
  (forall r, Q r φ) -> wp SInv (__futex_wait l v ts) t Q φ.
Proof using Type.
  intros HQ. apply (wp_futex SInv). intros e.
  apply (wpe_futex_wait_call SInv l true v _ t Q φ φ φ φ e); [done|..]; intros m g;
    intros; rewrite list_insert_id by done; repeat split; auto; by apply (SInv_ext m).
Qed.

Lemma wp_futex_wake_any l n t (Q : Z -> sphase -> Prop) φ :
  0 <= n -> (forall r, Q r φ) -> wp SInv (__futex_wake l n) t Q φ.
Proof using Type.
  intros Hn HQ. apply (wp_futex_wake_ex SInv l true n t Q φ φ Hn); [|done].
  intros m g q HI Hg _ _. rewrite list_insert_id by done. by apply (SInv_ext m).
Qed.

Lemma wp_any_load l t (Q : Z -> sphase -> Prop) φ : (forall x, Q x φ) -> wp SInv (atomic_load l) t Q φ.
Proof using Type. intros HQ. apply (wp_load SInv). intros m g HI Hg. exists φ. by rewrite list_insert_id. Qed.

Lemma wp_waiter b i pi : clients !! i = Some (Waiter pi) ->
  wp SInv (waiter b (S i) pi) (S i) (fun _ φ => exists rs, φ = PR rs) (PR RStart).
Proof using Type.
  intros Hi. apply wp_bind, wp_any_load. intros old. apply wp_bind, (wp_store SInv). intros m g HI Hg.
  exists (PR RStart). split.
  { apply (SInv_client m); [done..| |by intros pi' Hi'; simplify_eq].
    intros l Hl. apply word_set_word_ne. intros ->. apply Hl. left. exists "old". split; [done|]. simpl. tauto. }
  apply wp_bind, (wp_loop SInv (fun _ φ => φ = PR RStart)); [done|]. intros _ φ ->.
  apply wp_bind, wp_futex_wait_any. intros rc. destruct (_ && _); [apply wp_ret, wp_ret; eauto|].
  apply wp_bind, wp_any_load. intros x. destruct (x =? old); [by apply wp_ret|apply wp_ret, wp_ret; eauto].
Qed.

(** * The writer *)

Lemma wp_writer_load l d ws d' ws' (Q : Z -> sphase -> Prop) :
  (forall m, writer_ok d ws m -> writer_ok d' ws' m /\ Q (word m l) (PW d' ws')) ->
  wp SInv (atomic_load l) 0 Q (PW d ws).
Proof using Type.
  intros H. apply (wp_load SInv). intros m g HI Hg. destruct (H m) as [Hw HQ]; [by eapply SInv_writer_ok|].
  exists (PW d' ws'). split; [|done]. apply (SInv_writer m _ _ d ws); auto.
Qed.

Lemma wp_writer_store l x d ws d' ws' (Q : unit -> sphase -> Prop) : shared_loc l ->
  (forall m, writer_ok d ws m -> writer_ok d' ws' (set_word m l x) /\
     forall pi, serial (set_word m l x) pi = serial m pi \/ count_of (serial m pi) < count_of (serial (set_word m l x) pi)) ->
  Q tt (PW d' ws') -> wp SInv (atomic_store l x) 0 Q (PW d ws).
Proof using Type.
  intros Hl H HQ. apply (wp_store SInv). intros m g HI Hg. destruct (H m) as [Hw Hs]; [by eapply SInv_writer_ok|].
  exists (PW d' ws'). split; [|done]. apply (SInv_writer m _ _ d ws); [done..| |done|done].
  intros t l' Hp. apply word_set_word_ne. intros ->. by eapply private_not_shared.
Qed.

(** A store that changes no byte of a value and no serial number. *)
Lemma clean_set d m pi l x :
  l <> pi_serial pi -> (forall j, pi_value pi j <> l) -> clean d m pi -> clean d (set_word m l x) pi.
Proof using Type.
  intros H1 H2 [H3 H4]. split; [by rewrite word_set_word_ne|by apply bytes_at_set].
Qed.

(** Saving the old value. *)
Lemma wp_writer_save d q n j (Q : unit -> sphase -> Prop) :
  (j + n = length (cur d q) + 1)%nat -> Q tt (PW d (WCopy q (length (cur d q) + 1))) ->
  wp SInv (memcpy_loop (dirty_backup_area (area q)) (pi_value q) j n) 0 Q (PW d (WCopy q j)).
Proof using Type.
  intros Hj HQ. revert j Hj. induction n as [|n IH]; intros j Hj; simpl.
  { apply wp_ret. by replace j with (length (cur d q) + 1)%nat by lia. }
  destruct (lookup_lt_is_Some_2 (cur d q ++ [0]) j) as [x Hx]; [rewrite length_app; simpl; lia|].
  apply wp_bind, (wp_writer_load _ _ _ d (WCopy q j)). intros m Hw. split; [done|].
  destruct Hw as [Hw _]. rewrite (proj2 (Hw q) j x Hx).
  apply wp_bind, (wp_writer_store _ _ _ _ d (WCopy q (S j))); [exists (area q); eauto 6| |apply IH; lia].
  intros m' [Hc Hb]. split; [split|].
  - intros pi. apply clean_set; [discriminate..|done].
  - by apply bytes_at_snoc.
  - intros pi. left. by rewrite word_set_word_ne.
Qed.

(** Writing the new value. *)
Lemma wp_writer_byte d q v j x (Q : unit -> sphase -> Prop) :
  (v ++ [0]) !! j = Some x -> Q tt (PW d (WWrite q v (S j))) ->
  wp SInv (atomic_store (pi_value q j) x) 0 Q (PW d (WWrite q v j)).
Proof using Type.
  intros Hx HQ. apply (wp_writer_store _ _ _ _ d (WWrite q v (S j))); [exists q; eauto| |done].
  intros m (Hc & Hs & Hb & Hv). split; [split; [|split; [|split]]|].
  - intros pi Hne. apply clean_set; [discriminate| |auto]. intros k [E _]%byte_inj. done.
  - by rewrite word_set_word_ne.
  - apply bytes_at_set; [discriminate|done].
  - by apply bytes_at_snoc.
  - intros pi. left. by rewrite word_set_word_ne.
Qed.

Lemma wp_writer_write d q pre v (Q : unit -> sphase -> Prop) : Forall (fun c => 0 < c < 256) v ->
  Q tt (PW d (WWrite q (pre ++ v) (length (pre ++ v) + 1))) ->
  wp SInv (strlcpy_loop (pi_value q) (v ++ [0]) (length pre) (length v)) 0 Q
    (PW d (WWrite q (pre ++ v) (length pre))).
Proof using Type.
  revert pre. induction v as [|c v IH]; intros pre Hv HQ.
  - apply wp_writer_byte; [by rewrite app_nil_r, lookup_app_r, Nat.sub_diag|].
    rewrite app_nil_r in *. by rewrite Nat.add_1_r in HQ.
  - inversion_clear Hv. cbn [strlcpy_loop length app].
    apply wp_bind, wp_writer_byte; [by rewrite <- app_assoc, lookup_app_r, Nat.sub_diag|].
    destruct (Z.eqb_spec c 0); [lia|]. specialize (IH (pre ++ [c])).
    rewrite <- app_assoc in IH.
    replace (length (pre ++ [c])) with (S (length pre)) in IH by (rewrite length_app; simpl; lia). by apply IH.
Qed.

Lemma ver_next d q v : ups !! d = Some (q, v) -> Z.of_nat (ver d q) < 2 ^ 23 - 1.
Proof using Hfew init.
  intros H. pose proof (ver_le ups (S d) q) as Hle. rewrite (ver_step init ups d q q v H), decide_True in Hle by done. lia.
Qed.

Lemma wp_Update sa d q v : GetSerialPropArea = Some sa -> ups !! d = Some (q, v) ->
  wp SInv (Update true pi_name q (v ++ [0]) (length v)) 0 (fun r φ => r = 0 /\ φ = PW (S d) WIdle) (PW d WIdle).
Proof using Harea Hinit Hups Hfew.
  intros Hsa Hd. assert (prop_string v) as [Hv Hlen]
    by (rewrite Forall_forall in Hups; eapply (Hups (q, v)), list_elem_of_lookup_2, Hd).
  pose proof (cur_ok init ups Hinit Hups d q) as [Hcv Hclen]. pose proof (ver_next d q v Hd) as Hver.
  unfold Update. destruct (Z.leb_spec PROP_VALUE_MAX (Z.of_nat (length v))); [lia|]. cbn [negb]. rewrite Hsa, Harea.
  apply wp_bind, (wp_writer_load _ _ _ d (WCopy q 0)). intros m Hw. split; [by split|].
  destruct (Hw q) as [-> _]. clear m Hw. rewrite len_encode, Nat2Z.id by lia.
  apply wp_bind, wp_writer_save; [done|]. rewrite dirty_set.
  apply wp_bind, (wp_writer_store _ _ _ _ d (WWrite q v 0)); [exists q; auto|..].
  { intros m [Hc Hb]. split; [split; [|split; [|split]]|].
    - intros pi Hne. apply clean_set; [by apply pi_serial_ne|discriminate|done].
    - by rewrite word_set_word_eq.
    - apply bytes_at_set; [discriminate|]. apply bytes_at_take. by rewrite length_app.
    - by intros j x Hx.
    - intros pi. destruct (decide (pi = q)) as [->|Hne]; [right|left; by rewrite word_set_word_ne by (by apply pi_serial_ne)].
      rewrite word_set_word_eq, (proj1 (Hc q)), !count_encode by lia. lia. }
  apply wp_bind, (wp_writer_write d q [] v); [done|].
  rewrite new_serial_encode by (done || lia).
  apply wp_bind, (wp_writer_store _ _ _ _ (S d) WIdle); [exists q; auto|..].
  { intros m (Hc & Hs & Hb & Hval). split.
    - intros pi. unfold clean. rewrite (cur_step init ups d pi q v Hd), (ver_step init ups d pi q v Hd).
      destruct (decide (q = pi)) as [<-|Hne].
      + split; [rewrite word_set_word_eq; f_equal; lia|]. apply bytes_at_set; [discriminate|].
        apply bytes_at_take. by rewrite length_app.
      + apply (clean_set d m); [by apply pi_serial_ne|discriminate|auto].
    - intros pi. destruct (decide (pi = q)) as [->|Hne]; [right|left; by rewrite word_set_word_ne by (by apply pi_serial_ne)].
      rewrite word_set_word_eq, Hs, !count_encode by lia. lia. }
  apply wp_bind, wp_futex_wake_any; [done|]. intros _. apply wp_bind, wp_any_load. intros s.
  apply wp_bind, (wp_writer_store _ _ _ _ (S d) WIdle); [exists sa; auto|..].
  { intros m Hc. split; [|intros pi; left; by rewrite word_set_word_ne].
    intros pi. apply clean_set; [discriminate..|done]. }
  apply wp_bind, wp_futex_wake_any; [done|]. intros _. by apply wp_ret.
Qed.

Lemma wp_writer sa : GetSerialPropArea = Some sa -> forall l d, drop d ups = l -> (d <= length ups)%nat ->
  wp SInv (writer true pi_name l) 0 (fun _ φ => φ = PW (length ups) WIdle) (PW d WIdle).
Proof using Harea Hinit Hups Hfew.
  intros Hsa l. induction l as [|[q v] l IH]; intros d Hd Hle; simpl.
  - apply wp_ret. apply (f_equal length) in Hd. rewrite length_drop in Hd. simpl in Hd. do 2 f_equal. lia.
  - assert (ups !! d = Some (q, v)) as Hq by (by rewrite <- (Nat.add_0_r d), <- lookup_drop, Hd).
    apply wp_bind. eapply wp_mono; [|by apply (wp_Update sa d q v)]. intros r φ [_ ->].
    apply IH; [|by apply lookup_lt_Some in Hq]. by rewrite (drop_S _ _ _ Hq) in Hd; simplify_eq.
Qed.

Definition start : list sphase := PW 0 WIdle :: replicate (length clients) (PR RStart).

Lemma SInv_initial m : initial init m -> SInv m start.
Proof using Type.
  intros (Hp & Hd & _). split.
  - exists 0%nat, WIdle. split; [done|]. intros pi. destruct (Hp pi) as [H1 H2]. by split.
  - intros i pi φ _ Hg. simpl in Hg. apply lookup_replicate in Hg as [-> _]. exists RStart. split; [done|]. apply Hd.
Qed.

Lemma system_ok sa m : GetSerialPropArea = Some sa ->
  threads_ok SInv (fun _ φ _ => forall d ws, φ = PW d ws -> d = length ups /\ ws = WIdle)
    (system true pi_name ups clients) m start.
Proof using Harea Hinit Hups Hfew.
  intros Hsa. split; [by simpl; rewrite length_replicate, length_imap|]. intros [|i] p Hp; simpl in Hp.
  - simplify_eq. exists (PW 0 WIdle). split; [done|].
    eapply wp_mono; [|by apply (wp_writer sa); [..|lia]]. by intros _ φ -> d ws [= <- <-].
  - rewrite list_lookup_imap in Hp. destruct (clients !! i) as [c|] eqn:Hc; simplify_eq/=.
    exists (PR RStart). split; [apply lookup_replicate_2; by eapply lookup_lt_Some|].
    destruct c as [pi|pi]; simpl.
    + eapply wp_mono; [|by apply (wp_reader i pi)]. by intros _ φ [rs ->] d ws.
    + eapply wp_mono; [|by apply wp_waiter]. by intros _ φ [rs ->] d ws.
Qed.

End reads.

(** * The invariant of waits *)

(** Where a thread is, as far as the queues of the serial numbers are concerned. *)
Inductive qphase :=
| QOther
| QChange (pi : nat)              (* changing [pi], has not woken its waiters *)
| QWait (o : Z)                   (* noted the serial number [o] *)
| QAsleep (pi : nat) (o : Z).     (* inside the futex wait on [pi] *)

Definition asleep_on (pi : nat) (φ : qphase) : bool :=
  match φ with QAsleep pi' _ => bool_decide (pi' = pi) | _ => false end.

Definition noted (φ : qphase) : option Z :=
  match φ with QWait o | QAsleep _ o => Some o | _ => None end.

Section waits.
Context {K : FutexKernel} {Ctx : Contexts} (pi_name : nat -> list Z).

Record QInv (m : mem) (g : list qphase) : Prop := mk_QInv {
  qi_len : Z.of_nat (length g) <= INT_MAX;
  qi_queue : forall pi, wait_queue (pi_serial pi) true (asleep_on pi) (fun _ => false) True m g;
  qi_same : forall pi t, t ∈ waiters m (pi_serial pi) true ->
    g !! 0%nat = Some (QChange pi) \/ word m (seen t "old") = word m (pi_serial pi);
  qi_noted : forall t φ o, g !! t = Some φ -> noted φ = Some o -> word m (seen t "old") = o;
  qi_empty : forall l sh, (forall pi, (l, sh) <> (pi_serial pi, true)) -> waiters m l sh = []
}.

#[export] Instance QInv_proper : Proper (mem_equiv ==> eq ==> iff) QInv.
Proof using Type.
  assert (forall m m' g, mem_equiv m m' -> QInv m g -> QInv m' g) as H.
  { intros m m' g [Hw Hq] [H1 H2 H3 H4 H5]. split; intros; rewrite <- ?Hw in *; rewrite <- ?Hq in *; eauto.
    apply (wq_equiv _ _ _ _ _ m); [by rewrite Hq|done]. }
  intros m m' He g ? <-. split; apply H; [done|by symmetry].
Qed.

(** A step that touches no queue and changes the phase of [t]. *)
Lemma QInv_step m m' g t φ φ' : QInv m g -> g !! t = Some φ ->
  (forall l sh, waiters m' l sh = waiters m l sh) ->
  (forall t', t' <> t -> word m' (seen t' "old") = word m (seen t' "old")) ->
  (forall o, noted φ' = Some o -> word m' (seen t "old") = o) ->
  (forall pi, asleep_on pi φ = false) ->
  (forall pi, word m' (pi_serial pi) = word m (pi_serial pi) \/ t = 0%nat /\ φ' = QChange pi) ->
  (forall pi, t = 0%nat -> φ = QChange pi -> φ' = QChange pi) ->
  QInv m' (<[t:=φ']> g).
Proof using Type.
  intros [H1 H2 H3 H4 H5] Hg Ew Ho Hn Hφ Hs Hc. split.
  - by rewrite length_insert.
  - intros pi. eapply wq_step with (1 := H2 pi) (2 := Hg); auto.
  - intros pi t'. rewrite Ew. intros Hin. destruct (decide (t' = t)) as [->|Hne].
    + destruct (wq_not_queued _ _ _ _ _ _ _ _ _ (H2 pi) Hg (Hφ pi) Hin).
    + rewrite Ho by done. destruct (decide (t = 0%nat)) as [->|Hne0].
      * rewrite list_lookup_insert_eq by (by eapply lookup_lt_Some). destruct (Hs pi) as [->|[_ ->]]; [|by left].
        destruct (H3 pi t' Hin) as [E|E]; [|by right]. left. f_equal. apply Hc; [done|congruence].
      * rewrite list_lookup_insert_ne by congruence. destruct (Hs pi) as [->|[? _]]; [|done]. auto.
  - intros t' φ1 o. destruct (decide (t' = t)) as [->|Hne].
    + rewrite list_lookup_insert_eq by (by eapply lookup_lt_Some). intros [= <-]. auto.
    + rewrite list_lookup_insert_ne, Ho by congruence. eauto.
  - intros l sh Hl. rewrite Ew. auto.
Qed.

(** A step that changes the queue of [pi]. *)
Lemma QInv_queue m g t φ φ' pi q : QInv m g -> g !! t = Some φ ->
  wait_queue (pi_serial pi) true (asleep_on pi) (fun _ => false) True (set_waiters m (pi_serial pi) true q) (<[t:=φ']> g) ->
  (forall pi', pi' <> pi -> asleep_on pi' φ = false) ->
  (forall t', t' ∈ q -> t' ∈ waiters m (pi_serial pi) true \/
     t' = t /\ word m (seen t "old") = word m (pi_serial pi)) ->
  (forall o, noted φ' = Some o -> noted φ = Some o) ->
  (t = 0%nat -> forall pi', φ = QChange pi' -> pi' = pi /\ q = []) ->
  QInv (set_waiters m (pi_serial pi) true q) (<[t:=φ']> g).
Proof using Type.
  intros [H1 H2 H3 H4 H5] Hg Hwq Hφ Hq Hn Hc.
  assert (forall pi', pi' <> pi ->
    waiters (set_waiters m (pi_serial pi) true q) (pi_serial pi') true = waiters m (pi_serial pi') true) as Ew
    by (intros pi' Hne; apply waiters_set_waiters_ne; by intros [= E]).
  split.
  - by rewrite length_insert.
  - intros pi'. destruct (decide (pi' = pi)) as [->|Hne]; [done|].
    eapply wq_step with (1 := H2 pi') (2 := Hg); auto.
  - intros pi' t' Hin. change (word (set_waiters m (pi_serial pi) true q)) with (word m).
    destruct (decide (pi' = pi)) as [->|Hne].
    + rewrite waiters_set_waiters_eq in Hin. destruct (Hq t' Hin) as [Hin'|[-> ?]]; [|by right].
      destruct (H3 pi t' Hin') as [E|E]; [|by right]. destruct (decide (t = 0%nat)) as [->|Hne0].
      * destruct (Hc eq_refl pi) as [_ ->]; [congruence|]. by apply not_elem_of_nil in Hin.
      * left. by rewrite list_lookup_insert_ne by congruence.
    + rewrite (Ew pi' Hne) in Hin. destruct (H3 pi' t' Hin) as [E|E]; [|by right].
      destruct (decide (t = 0%nat)) as [->|Hne0]; [destruct (Hc eq_refl pi') as [? _]; congruence|].
      left. by rewrite list_lookup_insert_ne by congruence.
  - intros t' φ1 o. destruct (decide (t' = t)) as [->|Hne].
    + rewrite list_lookup_insert_eq by (by eapply lookup_lt_Some). intros [= <-] Ho. apply (H4 t φ o Hg). auto.
    + rewrite list_lookup_insert_ne by congruence. apply H4.
  - intros l sh Hl. rewrite waiters_set_waiters_ne by (by apply not_eq_sym; intros E; apply (Hl pi)). auto.
Qed.

(** * Steps of the threads *)

Lemma wpq_load l t (Q : Z -> qphase -> Prop) φ : (forall x, Q x φ) -> wp QInv (atomic_load l) t Q φ.
Proof using Type. intros HQ. apply (wp_load QInv). intros m g HI Hg. exists φ. by rewrite list_insert_id. Qed.

(** A store to a word that is neither a serial number nor a note of a waiter. *)
Lemma wpq_store l x t (Q : unit -> qphase -> Prop) φ :
  (forall pi, l <> pi_serial pi) -> (forall t', l <> seen t' "old") -> (forall pi, asleep_on pi φ = false) ->
  Q tt φ -> wp QInv (atomic_store l x) t Q φ.
Proof using Type.
  intros H1 H2 H3 HQ. apply (wp_store QInv). intros m g HI Hg. exists φ. split; [|done].
  apply (QInv_step m _ g t φ); try done.
  - intros t' _. by rewrite word_set_word_ne by congruence.
  - intros o Ho. rewrite word_set_word_ne by congruence. by eapply qi_noted.
  - intros pi. left. by rewrite word_set_word_ne by congruence.
Qed.

Lemma wpq_memcpy dst src i n t (Q : unit -> qphase -> Prop) φ :
  (forall j pi, dst j <> pi_serial pi) -> (forall j t', dst j <> seen t' "old") ->
  (forall pi, asleep_on pi φ = false) -> Q tt φ -> wp QInv (memcpy_loop dst src i n) t Q φ.
Proof using Type.
  intros H1 H2 H3 HQ. revert i. induction n as [|n IH]; intros i; simpl; [by apply wp_ret|].
  apply wp_bind, wpq_load. intros x. apply wp_bind, wpq_store; auto.
Qed.

Lemma wpq_strlcpy dst src i n t (Q : unit -> qphase -> Prop) φ :
  (forall j pi, dst j <> pi_serial pi) -> (forall j t', dst j <> seen t' "old") ->
  (forall pi, asleep_on pi φ = false) -> Q tt φ -> wp QInv (strlcpy_loop dst src i n) t Q φ.
Proof using Type.
  intros H1 H2 H3 HQ. revert i src. induction n as [|n IH]; intros i src; simpl; [by apply wpq_store|].
  destruct src as [|c src]; [apply wp_abort|]. apply wp_bind, wpq_store; auto.
  destruct (c =? 0); [by apply wp_ret|apply IH].
Qed.

Lemma wpq_reader i pi : wp QInv (reader pi_name (S i) pi) (S i) (fun _ φ => φ = QOther) QOther.
Proof using Type.
  assert (forall f x (Q : unit -> qphase -> Prop), f <> "serial" -> f <> "old" -> Q tt QOther ->
    wp QInv (atomic_store (seen (S i) f) x) (S i) Q QOther) as Hst.
  { intros f x Q H1 H2 HQ. apply wpq_store; try done; intros ? [=]; congruence. }
  apply wp_bind, wpq_load. intros b. apply wp_bind, Hst; [done..|].
  apply wp_bind. unfold ReadMutablePropertyValue. apply wp_bind, wpq_load. intros s.
  apply (wp_loop QInv (fun _ φ => φ = QOther)); [done|]. clear s. intros s φ ->. apply wp_bind.
  assert (forall src n (Q : unit -> qphase -> Prop), Q tt QOther -> wp QInv (memcpy (buffer (S i)) src n) (S i) Q QOther) as Hcp
    by (intros; by apply wpq_memcpy).
  assert (forall (Q : unit -> qphase -> Prop), Q tt QOther ->
    wp QInv (if SERIAL_DIRTY s then
       match GetPropAreaForName (pi_name pi) with
       | None => abort
       | Some pa => memcpy (buffer (S i)) (dirty_backup_area pa) (Z.to_nat (SERIAL_VALUE_LEN s) + 1)
       end
     else memcpy (buffer (S i)) (pi_value pi) (Z.to_nat (SERIAL_VALUE_LEN s) + 1)) (S i) Q QOther) as Hbr.
  { intros Q HQ. destruct (SERIAL_DIRTY s); [|by apply Hcp].
    destruct (GetPropAreaForName (pi_name pi)); [by apply Hcp|apply wp_abort]. }
  apply Hbr. apply wp_bind, wpq_load. intros s'. destruct (s =? s'); apply wp_ret; [|done].
  apply wp_bind, Hst; [done..|]. apply wp_bind, wpq_load. intros a. apply wp_bind, Hst; [done..|].
  by apply Hst.
Qed.

Lemma wpq_wait i pi o (Q : Z -> qphase -> Prop) : (forall r, Q r (QWait o)) ->
  wp QInv (__futex_wait (pi_serial pi) o None) (S i) Q (QWait o).
Proof using Type.
  intros HQ. apply (wp_futex QInv). intros e.
  apply (wpe_futex_wait_call QInv (pi_serial pi) true o _ (S i) Q _ (QAsleep pi o) (QWait o) (QWait o) e); [done|..].
  - intros m g q HI Hg Hv Hq. apply (QInv_queue m g (S i) (QWait o)); try done.
    + eapply wq_enqueue; [apply HI|done|done| |done|done]. simpl. by rewrite bool_decide_true.
    + intros t' Hin. rewrite Hq in Hin. apply elem_of_cons in Hin as [->|Hin]; [right|by left].
      split; [done|]. rewrite Hv. by apply (qi_noted m g HI _ _ _ Hg).
  - intros m g HI Hg Hni. split; [|done].
    rewrite (mem_equiv_same_waiters m (pi_serial pi) true). apply (QInv_queue m g (S i) (QAsleep pi o)); try done.
    + eapply wq_shrink; [apply HI|done..].
    + intros pi' Hne. simpl. rewrite bool_decide_false; congruence.
    + auto.
  - intros m g HI Hg Hin. split; [|done]. apply (QInv_queue m g (S i) (QAsleep pi o)); try done.
    + eapply wq_giveup; [apply HI|done..].
    + intros pi' Hne. simpl. rewrite bool_decide_false; congruence.
    + intros t' [_ Hin']%list_elem_of_filter. by left.
Qed.

Lemma wpq_waiter i pi : wp QInv (waiter true (S i) pi) (S i) (fun _ φ => forall pi, φ <> QChange pi) QOther.
Proof using Type.
  apply wp_bind, wpq_load. intros old. apply wp_bind, (wp_store QInv). intros m g HI Hg.
  exists (QWait old). split.
  { apply (QInv_step m _ g (S i) QOther); try done.
    - intros t' Hne. apply word_set_word_ne. by intros [= E].
    - intros o [= <-]. apply word_set_word_eq.
    - intros pi'. left. by apply word_set_word_ne. }
  apply wp_bind, (wp_loop QInv (fun _ φ => φ = QWait old)); [done|]. intros _ φ ->.
  apply wp_bind, wpq_wait. intros rc. destruct (_ && _); [by apply wp_ret, wp_ret|].
  apply wp_bind, wpq_load. intros x. destruct (x =? old); [by apply wp_ret|by apply wp_ret, wp_ret].
Qed.

Lemma wpq_store_serial pi x φ (Q : unit -> qphase -> Prop) :
  φ = QOther \/ φ = QChange pi -> Q tt (QChange pi) ->
  wp QInv (atomic_store (pi_serial pi) x) 0 Q φ.
Proof using Type.
  intros Hφ HQ. apply (wp_store QInv). intros m g HI Hg. exists (QChange pi). split; [|done].
  apply (QInv_step m _ g 0 φ); try done.
  - intros t' _. by apply word_set_word_ne.
  - by destruct Hφ as [-> | ->].
  - intros pi'. destruct (decide (pi' = pi)) as [->|Hne]; [by right|left].
    by apply word_set_word_ne, pi_serial_ne.
  - intros pi' _ ->. destruct Hφ as [|]; congruence.
Qed.

Lemma wpq_wake pi (Q : Z -> qphase -> Prop) : (forall r, Q r QOther) ->
  wp QInv (__futex_wake (pi_serial pi) INT_MAX) 0 Q (QChange pi).
Proof using Type.
  intros HQ. apply (wp_futex_wake_ex QInv (pi_serial pi) true INT_MAX 0 Q _ QOther); [done| |done].
  intros m g q HI Hg Hsub Hlen. assert (q = []) as ->.
  { pose proof (wq_length _ _ _ _ _ _ _ (qi_queue m g HI pi)) as Hl. pose proof (qi_len m g HI).
    destruct q; [done|]. simpl in Hlen. lia. }
  apply (QInv_queue m g 0 (QChange pi)); try done.
  - apply wq_empty. apply waiters_set_waiters_eq.
  - intros t' Hin. by apply not_elem_of_nil in Hin.
  - intros _ pi' [= <-]. done.
Qed.

Lemma wpq_wake_area pa n (Q : Z -> qphase -> Prop) φ : 0 <= n -> (forall r, Q r φ) ->
  wp QInv (__futex_wake (pa_serial pa) n) 0 Q φ.
Proof using Type.
  intros Hn HQ. apply (wp_futex_wake_ex QInv (pa_serial pa) true n 0 Q φ φ Hn); [|done].
  intros m g q HI Hg Hsub _. rewrite list_insert_id by done.
  pose proof (qi_empty m g HI (pa_serial pa) true ltac:(discriminate)) as E. rewrite E in Hsub.
  apply sublist_nil_r in Hsub as ->. rewrite <- E. by rewrite <- mem_equiv_same_waiters.
Qed.

Lemma wpq_writer ups : wp QInv (writer true pi_name ups) 0 (fun _ φ => forall pi, φ <> QChange pi) QOther.
Proof using Type.
  induction ups as [|[q v] ups IH]; [by apply wp_ret|]. cbn [writer]. apply wp_bind.
  eapply (wp_mono QInv _ 0%nat (fun _ φ => φ = QOther)); [by intros _ φ ->|].
  unfold Update. destruct (_ <=? _); [by apply wp_ret|]. cbn [negb].
  destruct GetSerialPropArea as [sa|]; [|by apply wp_ret].
  destruct (GetPropAreaForName (pi_name q)) as [pa|]; [|by apply wp_ret].
  apply wp_bind, wpq_load. intros s. apply wp_bind, wpq_memcpy; [done..|].
  apply wp_bind, wpq_store_serial; [by left|]. apply wp_bind, wpq_strlcpy; [done..|].
  apply wp_bind, wpq_store_serial; [by right|]. apply wp_bind, wpq_wake. intros _.
  apply wp_bind, wpq_load. intros x. apply wp_bind, wpq_store; [done..|].
  apply wp_bind, wpq_wake_area; [done|]. intros _. by apply wp_ret.
Qed.

End waits.

(** * Theorems *)

(** C2: one process makes any sequence of fewer than 2^23 updates of properties while any number
    of threads read and wait.  In every interleaving of the single byte accesses, a read that has
    returned delivered, whole and with its terminator, a value of the history of the property,
    with the serial number of that value, and the value is one the property had between the
    call and the return.  When the writer has finished, every property holds the last value it
    was given. *)
Theorem property_reads_consistent {K : FutexKernel} {Ctx : Contexts} pi_name area sa init ups clients m0 c :
  (forall pi, GetPropAreaForName (pi_name pi) = Some (area pi)) -> GetSerialPropArea = Some sa ->
  (forall pi, prop_string (init pi)) -> Forall (fun u => prop_string u.2) ups ->
  Z.of_nat (length ups) < 2 ^ 23 -> initial init m0 ->
  reachable (system true pi_name ups clients, m0) c ->
  (forall i pi, clients !! i = Some (Reader pi) -> word c.2 (seen (S i) "done") <> 0 ->
     delivered init ups c.2 (S i) pi) /\
  (c.1 !! 0%nat = Some (Ret tt) -> forall pi v, last (history init ups pi) = Some v ->
     version (word c.2 (pi_serial pi)) = pred (length (history init ups pi)) /\
     SERIAL_DIRTY (word c.2 (pi_serial pi)) = false /\ bytes_at c.2 (pi_value pi) (v ++ [0])).
Proof.
  intros Harea Hsa Hinit Hups Hfew Hm Hr.
  destruct (machine_inv (SInv area init ups clients) _ _ _ _ Hr (SInv_initial area init ups clients m0 Hm)
    (system_ok pi_name area init ups clients Harea Hinit Hups Hfew sa m0 Hsa)) as (g & [Hw Hrd] & Hlen & Hok).
  split.
  - intros i pi Hi Hd. destruct (lookup_lt_is_Some_2 g (S i)) as [φ Hφ].
    { rewrite Hlen, (reachable_length _ _ Hr). simpl. rewrite length_imap. apply lookup_lt_Some in Hi. lia. }
    destruct (Hrd i pi φ Hi Hφ) as (rs & -> & H). destruct rs; simpl in H; try done; exfalso; apply Hd, H.
  - intros Hp pi v Hv. destruct (Hok 0%nat _ Hp) as (φ & Hg & Hpost). destruct Hw as (d & ws & Hg' & Hw).
    destruct (Hpost d ws) as [-> ->]; [congruence|]. destruct (Hw pi) as [Es Hb].
    assert (cur init ups (length ups) pi = v) as Ev by (unfold cur; by rewrite take_ge, Hv).
    pose proof (ver_le ups (length ups) pi) as Hle. rewrite Ev in *.
    rewrite Es, dirty_encode, Z.odd_mul, version_encode by lia. repeat split; [|done].
    rewrite Z.mul_comm, Z.div_mul, Nat2Z.id by done. unfold ver. rewrite take_ge by done.
    simpl. by rewrite length_fmap.
Qed.

(** A property that is 1 and becomes 23, a reader that comes while the value is being
    overwritten and has to start again, and a waiter. *)
#[local] Instance ex_contexts : Contexts :=
  {| GetPropAreaForName := fun _ => Some 0%nat; GetSerialPropArea := Some 0%nat |}.
Definition ex_name (pi : nat) : list Z := [97].
Definition ex_init (pi : nat) : list Z := [49].
Definition ex_updates : list (nat * list Z) := [(0%nat, [50; 51])].
Definition ex_clients : list client := [Reader 0; Waiter 0].
Definition ex_prop_mem : mem :=
  mk_mem (fun l => if decide (l.2 = "serial") then 2 ^ 24 else if decide (l.2 = "value0") then 49 else 0)
    (fun _ _ => []) (fun _ => 0).
Definition ex_prop_run (sched : list nat) : machine :=
  run_schedule (fun _ => mk_timespec 0 0) (map (fun t => (t, true)) sched)
    (system true ex_name ex_updates ex_clients, ex_prop_mem).
Definition ex_schedule : list nat :=
  repeat 2%nat 8 ++ repeat 0%nat 7 ++ repeat 1%nat 4 ++ repeat 0%nat 60 ++ repeat 1%nat 60 ++ repeat 2%nat 20.

Lemma ex_prop_initial : initial ex_init ex_prop_mem.
Proof.
  split; [|done]. intros pi. split; [done|]. intros [|[|j]] x Hx; simplify_eq/=; [|done].
  vm_compute. reflexivity.
Qed.

Lemma property_reads_consistent_witness :
  delivered ex_init ex_updates (ex_prop_run ex_schedule).2 1 0 /\
  bytes_at (ex_prop_run ex_schedule).2 (pi_value 0) [50; 51; 0].
Proof.
  destruct (property_reads_consistent ex_name (fun _ => 0%nat) 0 ex_init ex_updates ex_clients ex_prop_mem
    (ex_prop_run ex_schedule)) as [H1 H2].
  - done.
  - done.
  - intros pi. split; [repeat constructor|reflexivity].
  - repeat constructor.
  - reflexivity.
  - apply ex_prop_initial.
  - exact (run_schedule_reachable _ _ _).
  - split.
    + apply (H1 0%nat 0%nat); [reflexivity|]. vm_compute. discriminate.
    + apply (H2 ltac:(vm_compute; reflexivity) 0%nat [50; 51] eq_refl).
Defined.

(** C36: when every thread has returned or sleeps, a thread that sleeps in Wait sleeps on a serial
    number that is still the one it was called with: no update is slept through, also one that is
    made between the two stores of the serial number. *)
Theorem property_wait_misses_nothing {K : FutexKernel} {Ctx : Contexts} pi_name ups clients m0 c t pi :
  Z.of_nat (length clients) < INT_MAX -> (forall l sh, waiters m0 l sh = []) ->
  reachable (system true pi_name ups clients, m0) c -> quiescent c ->
  t ∈ waiters c.2 (pi_serial pi) true -> word c.2 (seen t "old") = word c.2 (pi_serial pi).
Proof.
  intros Hn Hw Hr Hq Hin.
  assert (QInv m0 (replicate (length (system true pi_name ups clients)) QOther)) as HI0.
  { split; auto.
    - rewrite length_replicate. simpl. rewrite length_imap. lia.
    - intros pi'. by apply wq_empty.
    - intros pi' t'. rewrite Hw. intros Hin'. by apply not_elem_of_nil in Hin'.
    - intros t' φ o Hg. apply lookup_replicate in Hg as [-> _]. done. }
  destruct (machine_inv QInv (fun _ φ _ => forall pi, φ <> QChange pi) _ _ _ Hr HI0) as (g & HI & Hlen & Hok).
  { apply threads_ok_intro. intros [|i] p Hp; simpl in Hp; simplify_eq; [apply wpq_writer|].
    rewrite list_lookup_imap in Hp. destruct (clients !! i) as [[pi'|pi']|]; simplify_eq/=; [|apply wpq_waiter].
    eapply wp_mono; [|apply wpq_reader]. by intros _ φ ->. }
  destruct (qi_same _ _ HI pi t Hin) as [Hg|]; [|done]. exfalso.
  destruct (lookup_lt_is_Some_2 c.1 0) as [p Hp]; [rewrite <- Hlen; by eapply lookup_lt_Some|].
  destruct (Hok 0%nat p Hp) as (φ & Hφ & Hwp). destruct (Hq 0%nat p Hp) as [Hf|Hs].
  - destruct p; [|done..]. by apply (Hwp pi); congruence.
  - unfold asleep in Hs. destruct (waiting_on p) as [[l sh]|]; [|done]. apply bool_decide_eq_true in Hs.
    destruct (decide ((l, sh) = (pi_serial l.1, true))) as [[= El ->]|Hne].
    + rewrite El in Hs. destruct (wq_queued _ _ _ _ _ _ _ (qi_queue _ _ HI l.1) 0%nat Hs) as (φ' & Hφ' & Ha).
      by simplify_eq.
    + rewrite (qi_empty _ _ HI l sh) in Hs; [by apply not_elem_of_nil in Hs|].
      intros pi' [= -> ->]. done.
Qed.

(** The waiter comes after the update and sleeps. *)
Definition ex_late : list nat := repeat 0%nat 60 ++ repeat 2%nat 8 ++ repeat 1%nat 60.

Lemma property_wait_misses_nothing_witness :
  2%nat ∈ waiters (ex_prop_run ex_late).2 (pi_serial 0) true /\
  word (ex_prop_run ex_late).2 (seen 2 "old") = word (ex_prop_run ex_late).2 (pi_serial 0).
Proof.
  assert (2%nat ∈ waiters (ex_prop_run ex_late).2 (pi_serial 0) true) as Hin
    by (apply (bool_decide_eq_true_1 _); vm_compute; reflexivity).
  split; [exact Hin|].
  apply (property_wait_misses_nothing ex_name ex_updates ex_clients ex_prop_mem (ex_prop_run ex_late) 2 0).
  - reflexivity.
  - done.
  - exact (run_schedule_reachable _ _ _).
  - refine (proj1 (stuck_sound 2 _ _)). vm_compute. reflexivity.
  - exact Hin.
Defined.
