(* ===== verification/LinkerReloc.v ===== *)
(** Packed relocations: linker/linker_sleb128.h, linker/linker_reloc_iterators.h and
    soinfo::relocate_relr of linker/linker.cpp, for 64-bit targets (with addends).

    A library has its relocations as a sequence of signed LEB128 numbers (APS2) or as addresses and
    bitmaps (RELR).  The decoders are translated here; the encodings are given as specifications,
    and the theorems say that the linker applies exactly the relocations that were encoded. *)

From S2P Require Import Prelude Result.

(** * Definitions *)

(** The loop of [pop_front]: value, shift, last byte and the bytes left.  A shift by the width of
    the type or more has no meaning in C. *)
Fixpoint pop_front_loop (bytes : list Z) (value shift : Z) : result (Z * Z * Z * list Z) :=
  match bytes with
  | [] => Fatal
  | byte :: rest =>
      if 64 <=? shift then Fault else
      let value := Z.lor value (wrapU 64 (Z.shiftl (Z.land byte 127) shift)) in
      let shift := shift + 7 in
      if truthy (Z.land byte 128) then pop_front_loop rest value shift else Ok (value, shift, byte, rest)
  end.

Definition pop_front (bytes : list Z) : result (Z * list Z) :=
  r <-- pop_front_loop bytes 0 0 ;;
  let '(value, shift, byte, rest) := r in
  Ok (if (shift <? 64) && truthy (Z.land byte 64)
      then Z.lor value (wrapU 64 (- Z.shiftl 1 shift)) else value, rest).

Abbreviation RELOCATION_GROUPED_BY_INFO_FLAG := 1.
Abbreviation RELOCATION_GROUPED_BY_OFFSET_DELTA_FLAG := 2.
Abbreviation RELOCATION_GROUPED_BY_ADDEND_FLAG := 4.
Abbreviation RELOCATION_GROUP_HAS_ADDEND_FLAG := 8.

Record rel_t := mk_rel { r_offset : Z; r_info : Z; r_addend : Z }.

Section packed.
Context {St : Type} (callback : rel_t -> St -> St * bool).

(** The loop over the relocations of a group. *)
Fixpoint group_loop (group_size : nat) (group_flags group_flags_reloc group_r_offset_delta : Z)
    (bytes : list Z) (reloc : rel_t) (s : St) : result (list Z * rel_t * St * bool) :=
  match group_size with
  | O => Ok (bytes, reloc, s, true)
  | S group_size =>
      o <-- (if truthy (Z.land group_flags RELOCATION_GROUPED_BY_OFFSET_DELTA_FLAG)
             then Ok (group_r_offset_delta, bytes) else pop_front bytes) ;;
      let reloc := mk_rel (wrapU 64 (r_offset reloc + o.1)) (r_info reloc) (r_addend reloc) in
      i <-- (if Z.land group_flags RELOCATION_GROUPED_BY_INFO_FLAG =? 0
             then pop_front o.2 else Ok (r_info reloc, o.2)) ;;
      let reloc := mk_rel (r_offset reloc) i.1 (r_addend reloc) in
      a <-- (if group_flags_reloc =? RELOCATION_GROUP_HAS_ADDEND_FLAG then
               p <-- pop_front i.2 ;; Ok (wrapS 64 (r_addend reloc + p.1), p.2)
             else Ok (r_addend reloc, i.2)) ;;
      let reloc := mk_rel (r_offset reloc) (r_info reloc) a.1 in
      let '(s, ok) := callback reloc s in
      if negb ok then Ok (a.2, reloc, s, false)
      else group_loop group_size group_flags group_flags_reloc group_r_offset_delta a.2 reloc s
  end.

(** The loop over the groups; every group takes at least one byte, so the bytes are fuel. *)
Fixpoint groups_loop (fuel : nat) (idx num_relocs : Z) (bytes : list Z) (reloc : rel_t) (s : St)
    : result (St * bool) :=
  if num_relocs <=? idx then Ok (s, true) else
  match fuel with
  | O => Fault
  | S fuel =>
      g <-- pop_front bytes ;;
      let group_size := g.1 in
      f <-- pop_front g.2 ;;
      let group_flags := f.1 in
      d <-- (if truthy (Z.land group_flags RELOCATION_GROUPED_BY_OFFSET_DELTA_FLAG)
             then pop_front f.2 else Ok (0, f.2)) ;;
      i <-- (if truthy (Z.land group_flags RELOCATION_GROUPED_BY_INFO_FLAG)
             then pop_front d.2 else Ok (r_info reloc, d.2)) ;;
      let group_flags_reloc := Z.land group_flags
        (Z.lor RELOCATION_GROUP_HAS_ADDEND_FLAG RELOCATION_GROUPED_BY_ADDEND_FLAG) in
      a <-- (if group_flags_reloc =? RELOCATION_GROUP_HAS_ADDEND_FLAG then Ok (r_addend reloc, i.2)
             else if group_flags_reloc =? Z.lor RELOCATION_GROUP_HAS_ADDEND_FLAG RELOCATION_GROUPED_BY_ADDEND_FLAG
             then p <-- pop_front i.2 ;; Ok (wrapS 64 (r_addend reloc + p.1), p.2)
             else Ok (0, i.2)) ;;
      r <-- group_loop (Z.to_nat group_size) group_flags group_flags_reloc d.1 a.2
              (mk_rel (r_offset reloc) i.1 a.1) s ;;
      let '(bytes, reloc, s, ok) := r in
      if negb ok then Ok (s, false)
      else groups_loop fuel (wrapU 64 (idx + group_size)) num_relocs bytes reloc s
  end.

Definition for_all_packed_relocs (bytes : list Z) (s : St) : result (St * bool) :=
  n <-- pop_front bytes ;;
  o <-- pop_front n.2 ;;
  groups_loop (length bytes) 0 n.1 o.2 (mk_rel o.1 0 0) s.

End packed.

(** ** RELR *)

(** The words of the library in memory, by address. *)
Definition words : Type := Z -> Z.

Definition set_at (m : words) (a v : Z) : words := fun a' => if a' =? a then v else m a'.

Definition apply_relr_reloc (load_bias : Z) (m : words) (offset : Z) : words :=
  let address := wrapU 64 (offset + load_bias) in
  set_at m address (wrapU 64 (m address + load_bias)).

(** The loop over the bits of an odd entry; an entry has 64 bits. *)
Fixpoint relr_bitmap (fuel : nat) (load_bias entry offset : Z) (m : words) : words :=
  match fuel with
  | O => m
  | S fuel =>
      if entry =? 0 then m else
      let entry := Z.shiftr entry 1 in
      let m := if truthy (Z.land entry 1) then apply_relr_reloc load_bias m offset else m in
      relr_bitmap fuel load_bias entry (wrapU 64 (offset + 8)) m
  end.

Fixpoint relocate_relr_loop (load_bias : Z) (relr : list Z) (base : Z) (m : words) : words :=
  match relr with
  | [] => m
  | entry :: relr =>
      if Z.land entry 1 =? 0 then
        relocate_relr_loop load_bias relr (wrapU 64 (entry + 8)) (apply_relr_reloc load_bias m entry)
      else
        relocate_relr_loop load_bias relr (wrapU 64 (base + (8 * 8 - 1) * 8))
          (relr_bitmap 64 load_bias entry base m)
  end.

Definition relocate_relr (load_bias : Z) (relr : list Z) (m : words) : words :=
  relocate_relr_loop load_bias relr 0 m.

(** * Specification of the encodings *)

(** The digits of a LEB128 number, and the number a sequence of bytes stands for: the last byte
    carries the sign in bit 6. *)
Fixpoint leb_digits (bytes : list Z) : Z :=
  match bytes with
  | [] => 0
  | b :: bytes => b mod 128 + 128 * leb_digits bytes
  end.

Definition sleb_value (cont : list Z) (last : Z) : Z :=
  leb_digits (cont ++ [last]) - (if Z.testbit last 6 then 2 ^ (7 * (Z.of_nat (length cont) + 1)) else 0).

(** The shortest encoding. *)
Fixpoint sleb128 (fuel : nat) (z : Z) : list Z :=
  match fuel with
  | O => []
  | S fuel =>
      let byte := z mod 128 in
      let z := z / 128 in
      if ((z =? 0) && negb (Z.testbit byte 6)) || ((z =? -1) && Z.testbit byte 6) then [byte]
      else byte + 128 :: sleb128 fuel z
  end.

(** Ten bytes are enough for 64 bits. *)
Definition sleb (z : Z) : list Z := sleb128 10 z.

(** * Signed LEB128 *)

Lemma land_7bits b : Z.land b 127 = b mod 128.
Proof. change 127 with (Z.ones 7). by rewrite Z.land_ones. Qed.

Lemma leb_digits_app l b : leb_digits (l ++ [b]) = leb_digits l + 2 ^ (7 * Z.of_nat (length l)) * (b mod 128).
Proof.
  induction l as [|x l IH]; cbn [app leb_digits length]; [rewrite Z.mul_0_r; lia|].
  rewrite IH, Nat2Z.inj_succ, Z.mul_succ_r, Z.pow_add_r by lia. change (2 ^ 7) with 128. lia.
Qed.

Lemma leb_digits_bound l : 0 <= leb_digits l < 2 ^ (7 * Z.of_nat (length l)).
Proof.
  induction l as [|x l IH]; cbn [leb_digits length]; [lia|].
  pose proof (Z.mod_pos_bound x 128 ltac:(lia)). rewrite Nat2Z.inj_succ, Z.mul_succ_r, Z.pow_add_r by lia.
  change (2 ^ 7) with 128. lia.
Qed.

(** Adding seven bits at [shift]. *)
Lemma lor_digits v d shift : 0 <= shift < 64 -> 0 <= v < 2 ^ shift -> 0 <= d ->
  Z.lor v (wrapU 64 (Z.shiftl d shift)) = wrapU 64 (v + 2 ^ shift * d).
Proof.
  intros Hs Hv Hd. rewrite (Z.mul_comm _ d). unfold wrapU. rewrite Z.shiftl_mul_pow2 by lia.
  assert (2 ^ 64 = 2 ^ (64 - shift) * 2 ^ shift) as E by (rewrite <- Z.pow_add_r by lia; f_equal; lia).
  assert (0 < 2 ^ shift) by lia. assert (0 < 2 ^ (64 - shift)) by (apply Z.pow_pos_nonneg; lia).
  rewrite E, Z.mul_mod_distr_r by lia. rewrite Z.lor_comm, lor_low_bits by lia.
  apply (Z.mod_unique_pos _ _ (d / 2 ^ (64 - shift))).
  - pose proof (Z.mod_pos_bound d (2 ^ (64 - shift)) ltac:(lia)). nia.
  - pose proof (Z.div_mod d (2 ^ (64 - shift)) ltac:(lia)). nia.
Qed.

Lemma high_bit b : truthy (Z.land b 128) = Z.testbit b 7.
Proof.
  change 128 with (Z.shiftl (Z.ones 1) 7). rewrite land_field by done. unfold truthy.
  rewrite <- Z.shiftr_div_pow2, <- Z.bit0_mod by done. rewrite Z.shiftr_spec by done.
  change (0 + 7) with 7. by destruct (Z.testbit b 7).
Qed.

Lemma sign_bit b : truthy (Z.land b 64) = Z.testbit b 6.
Proof.
  change 64 with (Z.shiftl (Z.ones 1) 6). rewrite land_field by done. unfold truthy.
  rewrite <- Z.shiftr_div_pow2, <- Z.bit0_mod by done. rewrite Z.shiftr_spec by done.
  change (0 + 6) with 6. by destruct (Z.testbit b 6).
Qed.

Lemma pop_front_loop_spec pre cont last rest :
  Forall (fun b => Z.testbit b 7 = true) cont -> Z.testbit last 7 = false ->
  (length pre + length cont < 10)%nat ->
  pop_front_loop (cont ++ last :: rest) (leb_digits pre) (7 * Z.of_nat (length pre)) =
  Ok (wrapU 64 (leb_digits (pre ++ cont ++ [last])), 7 * (Z.of_nat (length (pre ++ cont)) + 1), last, rest).
Proof.
  intros Hc Hl. revert pre. induction Hc as [|b cont Hb Hc IH]; intros pre Hlen; simpl in Hlen.
  all: cbn [app pop_front_loop]; destruct (Z.leb_spec 64 (7 * Z.of_nat (length pre))) as [|Hs]; [lia|].
  all: rewrite lor_digits; [|lia|apply leb_digits_bound|rewrite land_7bits; apply Z.mod_pos_bound; lia].
  all: rewrite land_7bits, high_bit, <- leb_digits_app.
  - rewrite Hl, app_nil_r. repeat f_equal. lia.
  - rewrite Hb. replace (7 * Z.of_nat (length pre) + 7) with (7 * Z.of_nat (length (pre ++ [b])))
      by (rewrite length_app; simpl; lia).
    assert (length (pre ++ [b]) <= 9)%nat as H9 by (rewrite length_app; simpl; lia).
    replace (wrapU 64 (leb_digits (pre ++ [b]))) with (leb_digits (pre ++ [b])).
    + rewrite IH by (rewrite length_app; simpl; lia). by rewrite <- !app_assoc.
    + symmetry. apply Z.mod_small. pose proof (leb_digits_bound (pre ++ [b])) as H.
      assert (2 ^ (7 * Z.of_nat (length (pre ++ [b]))) <= 2 ^ 64) by (apply Z.pow_le_mono_r; lia). lia.
Qed.

(** A number of at most ten bytes is decoded. *)
Lemma pop_front_value cont last rest :
  Forall (fun b => Z.testbit b 7 = true) cont -> Z.testbit last 7 = false -> (length cont < 10)%nat ->
  pop_front (cont ++ last :: rest) = Ok (wrapU 64 (sleb_value cont last), rest).
Proof.
  intros Hc Hl Hlen. unfold pop_front.
  rewrite (pop_front_loop_spec [] cont last rest Hc Hl Hlen : pop_front_loop _ 0 0 = _).
  cbn [obind app]. rewrite sign_bit. unfold sleb_value. set (v := leb_digits (cont ++ [last])).
  assert (0 <= v < 2 ^ (7 * (Z.of_nat (length cont) + 1))) as Hv.
  { pose proof (leb_digits_bound (cont ++ [last])) as H. rewrite length_app in H. simpl in H.
    replace (Z.of_nat (length cont) + 1) with (Z.of_nat (length cont + 1)) by lia. done. }
  set (shift := 7 * (Z.of_nat (length cont) + 1)) in *. destruct (Z.testbit last 6).
  - rewrite andb_true_r. destruct (Z.ltb_spec shift 64) as [Hs|Hs].
    + f_equal. f_equal. assert (2 ^ shift <= 2 ^ 63) by (apply Z.pow_le_mono_r; lia).
      unfold wrapU at 1. rewrite (Z.mod_small v) by lia.
      assert (0 < 2 ^ shift) by lia.
      assert (2 ^ 64 = 2 ^ (64 - shift) * 2 ^ shift) as E by (rewrite <- Z.pow_add_r by lia; f_equal; lia).
      assert (wrapU 64 (- Z.shiftl 1 shift) = (2 ^ (64 - shift) - 1) * 2 ^ shift) as ->.
      { rewrite Z.shiftl_mul_pow2 by lia. symmetry. apply (Z.mod_unique_pos _ _ (-1)); nia. }
      rewrite Z.lor_comm, lor_low_bits by lia. apply (Z.mod_unique_pos _ _ (-1)); nia.
    + f_equal. f_equal. unfold wrapU. replace shift with ((shift - 64) + 64) by lia.
      rewrite Z.pow_add_r by lia. symmetry.
      replace (v - 2 ^ (shift - 64) * 2 ^ 64) with (v + (- 2 ^ (shift - 64)) * 2 ^ 64) by lia.
      apply Z.mod_add. done.
  - rewrite andb_false_r, Z.sub_0_r. done.
Qed.

Lemma testbit_6 b : 0 <= b < 128 -> Z.testbit b 6 = (64 <=? b).
Proof.
  intros Hb. apply Bool.eq_true_iff_eq. rewrite Z.testbit_true, Z.leb_le by done. change (2 ^ 6) with 64.
  destruct (Z.lt_ge_cases b 64).
  - rewrite Z.div_small by lia. change (0 mod 2) with 0. lia.
  - rewrite <- (Z.div_unique b 64 1 (b - 64)) by lia. change (1 mod 2) with 1. lia.
Qed.

Lemma testbit_7 b : 0 <= b < 128 -> Z.testbit b 7 = false /\ Z.testbit (b + 128) 7 = true.
Proof.
  intros Hb. split.
  - apply Z.testbit_false; [done|]. by rewrite Z.div_small.
  - apply Z.testbit_true; [done|]. change (2 ^ 7) with 128. by rewrite <- (Z.div_unique (b + 128) 128 1 b) by lia.
Qed.

(** The encoding ends when seven bits are enough. *)
Lemma sleb_end z :
  ((z / 128 =? 0) && negb (Z.testbit (z mod 128) 6)) || ((z / 128 =? -1) && Z.testbit (z mod 128) 6) = true <->
  -64 <= z < 64.
Proof.
  pose proof (Z.mod_pos_bound z 128 ltac:(lia)) as Hm. pose proof (Z.div_mod z 128 ltac:(lia)) as Ez.
  rewrite testbit_6 by done. lia.
Qed.

Lemma sleb_last z : -64 <= z < 64 -> sleb_value [] (z mod 128) = z.
Proof.
  intros Hz. pose proof (Z.mod_pos_bound z 128 ltac:(lia)) as Hm. pose proof (Z.div_mod z 128 ltac:(lia)) as Ez.
  unfold sleb_value. cbn [app leb_digits length]. rewrite testbit_6, Z.mod_mod by lia.
  change (2 ^ (7 * (Z.of_nat 0 + 1))) with 128. destruct (Z.leb_spec 64 (z mod 128)); lia.
Qed.

Lemma sleb_cons z cont last : sleb_value cont last = z / 128 -> sleb_value (z mod 128 + 128 :: cont) last = z.
Proof.
  unfold sleb_value. cbn [app leb_digits length]. intros E.
  replace ((z mod 128 + 128) mod 128) with (z mod 128) by (rewrite <- Z.add_mod_idemp_r, Z.add_0_r, Z.mod_mod by done; done).
  rewrite Nat2Z.inj_succ. unfold Z.succ. rewrite (Z.mul_add_distr_l 7 (_ + 1)), Z.pow_add_r by lia.
  change (2 ^ (7 * 1)) with 128. pose proof (Z.div_mod z 128 ltac:(lia)). destruct (Z.testbit last 6); lia.
Qed.

Lemma sleb128_spec fuel z : - 2 ^ (7 * Z.of_nat fuel + 6) <= z < 2 ^ (7 * Z.of_nat fuel + 6) ->
  exists cont last, sleb128 (S fuel) z = cont ++ [last] /\ Forall (fun b => Z.testbit b 7 = true) cont /\
    Z.testbit last 7 = false /\ (length cont <= fuel)%nat /\ sleb_value cont last = z.
Proof.
  revert z. induction fuel as [|fuel IH]; intros z Hz; pose proof (Z.mod_pos_bound z 128 ltac:(lia)) as Hm.
  all: assert (-64 <= z < 64 -> exists cont last, [z mod 128] = cont ++ [last] /\
    Forall (fun b => Z.testbit b 7 = true) cont /\ Z.testbit last 7 = false /\ (length cont <= 0)%nat /\
    sleb_value cont last = z) as Hend
    by (intros H; exists [], (z mod 128); split_and!; [done|constructor|by apply testbit_7|done|by apply sleb_last]).
  - cbn [sleb128]. rewrite (proj2 (sleb_end z)) by (simpl in Hz; lia). apply Hend. simpl in Hz. lia.
  - cbn [sleb128]. destruct (_ || _) eqn:E.
    + apply sleb_end in E. destruct (Hend E) as (cont & last & H1 & H2 & H3 & H4 & H5).
      exists cont, last. split_and!; [done..|lia|done].
    + destruct (IH (z / 128)) as (cont & last & H1 & H2 & H3 & H4 & H5).
      { rewrite Nat2Z.inj_succ in Hz. replace (7 * Z.succ (Z.of_nat fuel) + 6) with (7 + (7 * Z.of_nat fuel + 6)) in Hz by lia.
        rewrite Z.pow_add_r in Hz by lia. change (2 ^ 7) with 128 in Hz.
        pose proof (Z.div_mod z 128 ltac:(lia)). nia. }
      cbn [sleb128] in H1. rewrite H1. exists (z mod 128 + 128 :: cont), last. split_and!; [done| |done|simpl; lia|by apply sleb_cons].
      constructor; [by apply testbit_7|done].
Qed.

(** The number comes back modulo 2^64. *)
Lemma pop_front_sleb z rest : - 2 ^ 69 <= z < 2 ^ 69 -> pop_front (sleb z ++ rest) = Ok (wrapU 64 z, rest).
Proof.
  intros Hz. destruct (sleb128_spec 9 z Hz) as (cont & last & E & H1 & H2 & H3 & H4).
  unfold sleb. rewrite E, <- app_assoc. simpl. rewrite pop_front_value by (done || lia). by rewrite H4.
Qed.

(** * Packed relocations *)

(** The format: a group gives the offset delta and the info once or for every relocation, and the
    addend not at all, for every relocation, or once. *)
Inductive addends := NoAddend | EachAddend | OneAddend (a : Z).
Record entry := mk_entry { e_offset : Z; e_info : Z; e_addend : Z }.
Record group := mk_group { g_delta : option Z; g_info : option Z; g_addends : addends; g_entries : list entry }.

Definition g_flags (g : group) : Z :=
  match g_info g with Some _ => 1 | None => 0 end + match g_delta g with Some _ => 2 | None => 0 end +
  match g_addends g with NoAddend => 0 | EachAddend => 8 | OneAddend _ => 12 end.

Definition encode_option (o : option Z) : list Z := match o with Some z => sleb z | None => [] end.

Definition encode_entry (g : group) (e : entry) : list Z :=
  match g_delta g with Some _ => [] | None => sleb (e_offset e) end ++
  match g_info g with Some _ => [] | None => sleb (e_info e) end ++
  match g_addends g with EachAddend => sleb (e_addend e) | _ => [] end.

Definition encode_group (g : group) : list Z :=
  sleb (Z.of_nat (length (g_entries g))) ++ sleb (g_flags g) ++ encode_option (g_delta g) ++
  encode_option (g_info g) ++ match g_addends g with OneAddend a => sleb a | _ => [] end ++
  mjoin (encode_entry g <$> g_entries g).

Definition total (gs : list group) : nat := sum_list (length ∘ g_entries <$> gs).

Definition encode_relocs (offset : Z) (gs : list group) : list Z :=
  sleb (Z.of_nat (total gs)) ++ sleb offset ++ mjoin (encode_group <$> gs).

(** The relocations a group stands for, after the relocation [r]. *)
Definition begin_group (g : group) (r : rel_t) : rel_t :=
  mk_rel (r_offset r) (match g_info g with Some i => wrapU 64 i | None => r_info r end)
    (match g_addends g with
     | NoAddend => 0 | EachAddend => r_addend r | OneAddend a => wrapS 64 (r_addend r + a)
     end).

Definition next_reloc (g : group) (r : rel_t) (e : entry) : rel_t :=
  mk_rel (wrapU 64 (r_offset r + default (e_offset e) (g_delta g)))
    (match g_info g with Some _ => r_info r | None => wrapU 64 (e_info e) end)
    (match g_addends g with EachAddend => wrapS 64 (r_addend r + e_addend e) | _ => r_addend r end).

Fixpoint group_relocs (g : group) (r : rel_t) (es : list entry) : list rel_t * rel_t :=
  match es with
  | [] => ([], r)
  | e :: es => let r := next_reloc g r e in let '(l, r') := group_relocs g r es in (r :: l, r')
  end.

Fixpoint all_relocs (r : rel_t) (gs : list group) : list rel_t :=
  match gs with
  | [] => []
  | g :: gs => let '(l, r') := group_relocs g (begin_group g r) (g_entries g) in l ++ all_relocs r' gs
  end.

(** The callback on one relocation after the other, until it returns false. *)
Fixpoint call_all {St} (callback : rel_t -> St -> St * bool) (l : list rel_t) (s : St) : St * bool :=
  match l with
  | [] => (s, true)
  | r :: l => let '(s', ok) := callback r s in if ok then call_all callback l s' else (s', false)
  end.

(** Numbers of 64 bits, signed or unsigned. *)
Definition fits (z : Z) : Prop := - 2 ^ 63 <= z < 2 ^ 64.

Definition entry_ok (e : entry) : Prop := fits (e_offset e) /\ fits (e_info e) /\ fits (e_addend e).

Definition group_ok (g : group) : Prop :=
  (forall d, g_delta g = Some d -> fits d) /\ (forall i, g_info g = Some i -> fits i) /\
  (forall a, g_addends g = OneAddend a -> fits a) /\ Forall entry_ok (g_entries g) /\ g_entries g <> [].

Lemma pop_front_fits z rest : fits z -> pop_front (sleb z ++ rest) = Ok (wrapU 64 z, rest).
Proof. unfold fits. intros H. apply pop_front_sleb. lia. Qed.

Lemma wrapU_idemp w x y : wrapU w (x + wrapU w y) = wrapU w (x + y).
Proof. unfold wrapU. destruct (Z.eq_dec (2 ^ w) 0) as [->|H]; [by rewrite !Z.mod_0_r|]. by rewrite Z.add_mod_idemp_r. Qed.

Lemma wrapS_idemp w x y : wrapS w (x + wrapU w y) = wrapS w (x + y).
Proof.
  unfold wrapS, wrapU. destruct (Z.eq_dec (2 ^ w) 0) as [->|H]; [by rewrite !Z.mod_0_r|].
  replace (x + y mod 2 ^ w + 2 ^ (w - 1)) with (x + 2 ^ (w - 1) + y mod 2 ^ w) by lia.
  rewrite Z.add_mod_idemp_r by done. do 2 f_equal. lia.
Qed.

Definition addend_flags (g : group) : Z :=
  match g_addends g with NoAddend => 0 | EachAddend => 8 | OneAddend _ => 12 end.

Lemma flag_delta g : truthy (Z.land (g_flags g) RELOCATION_GROUPED_BY_OFFSET_DELTA_FLAG) =
  match g_delta g with Some _ => true | None => false end.
Proof. unfold g_flags. by destruct (g_delta g), (g_info g), (g_addends g). Qed.

Lemma flag_info g : truthy (Z.land (g_flags g) RELOCATION_GROUPED_BY_INFO_FLAG) =
  match g_info g with Some _ => true | None => false end.
Proof. unfold g_flags. by destruct (g_delta g), (g_info g), (g_addends g). Qed.

Lemma flag_addends g :
  Z.land (g_flags g) (Z.lor RELOCATION_GROUP_HAS_ADDEND_FLAG RELOCATION_GROUPED_BY_ADDEND_FLAG) = addend_flags g.
Proof. unfold g_flags, addend_flags. by destruct (g_delta g), (g_info g), (g_addends g). Qed.

Lemma fits_flags g : fits (g_flags g) /\ wrapU 64 (g_flags g) = g_flags g.
Proof. unfold g_flags, fits. destruct (g_delta g), (g_info g), (g_addends g); (split; [lia|done]). Qed.

Section callbacks.
Context {St : Type} (callback : rel_t -> St -> St * bool).

(** One relocation of a group. *)
Lemma group_loop_cons g n e rest r s : entry_ok e ->
  group_loop callback (S n) (g_flags g) (addend_flags g) (wrapU 64 (default 0 (g_delta g)))
    (encode_entry g e ++ rest) r s =
  let r' := next_reloc g r e in
  let '(s', ok) := callback r' s in
  if negb ok then Ok (rest, r', s', false)
  else group_loop callback n (g_flags g) (addend_flags g) (wrapU 64 (default 0 (g_delta g))) rest r' s'.
Proof.
  intros (H1 & H2 & H3). cbn [group_loop]. rewrite flag_delta. unfold encode_entry. rewrite <- !app_assoc.
  assert ((if match g_delta g with Some _ => true | None => false end
    then Ok (wrapU 64 (default 0 (g_delta g)),
       match g_delta g with Some _ => [] | None => sleb (e_offset e) end ++
       match g_info g with Some _ => [] | None => sleb (e_info e) end ++
       match g_addends g with EachAddend => sleb (e_addend e) | _ => [] end ++ rest)
    else pop_front (match g_delta g with Some _ => [] | None => sleb (e_offset e) end ++
       match g_info g with Some _ => [] | None => sleb (e_info e) end ++
       match g_addends g with EachAddend => sleb (e_addend e) | _ => [] end ++ rest)) =
    Ok (wrapU 64 (default (e_offset e) (g_delta g)),
       match g_info g with Some _ => [] | None => sleb (e_info e) end ++
       match g_addends g with EachAddend => sleb (e_addend e) | _ => [] end ++ rest)) as ->
    by (destruct (g_delta g); [done|by apply pop_front_fits]).
  cbn [obind fst snd r_info r_offset r_addend]. rewrite wrapU_idemp.
  rewrite <- (negb_involutive (Z.land _ _ =? 0)).
  replace (negb (Z.land (g_flags g) RELOCATION_GROUPED_BY_INFO_FLAG =? 0)) with
    (match g_info g with Some _ => true | None => false end) by (symmetry; apply flag_info).
  assert ((if negb match g_info g with Some _ => true | None => false end
    then pop_front (match g_info g with Some _ => [] | None => sleb (e_info e) end ++
       match g_addends g with EachAddend => sleb (e_addend e) | _ => [] end ++ rest)
    else Ok (r_info r, match g_info g with Some _ => [] | None => sleb (e_info e) end ++
       match g_addends g with EachAddend => sleb (e_addend e) | _ => [] end ++ rest)) =
    Ok (match g_info g with Some _ => r_info r | None => wrapU 64 (e_info e) end,
       match g_addends g with EachAddend => sleb (e_addend e) | _ => [] end ++ rest)) as ->
    by (destruct (g_info g); [done|by apply pop_front_fits]).
  cbn [obind fst snd r_info r_offset r_addend].
  assert ((if addend_flags g =? RELOCATION_GROUP_HAS_ADDEND_FLAG then
      p <-- pop_front (match g_addends g with EachAddend => sleb (e_addend e) | _ => [] end ++ rest) ;;
      Ok (wrapS 64 (r_addend r + p.1), p.2)
    else Ok (r_addend r, match g_addends g with EachAddend => sleb (e_addend e) | _ => [] end ++ rest)) =
    Ok (match g_addends g with EachAddend => wrapS 64 (r_addend r + e_addend e) | _ => r_addend r end, rest)) as ->.
  { unfold addend_flags. destruct (g_addends g); [done| |done]. cbn [Z.eqb].
    rewrite pop_front_fits by done. cbn [obind fst snd]. by rewrite wrapS_idemp. }
  done.
Qed.

Lemma group_loop_spec g es rest r s : Forall entry_ok es ->
  exists b r', group_loop callback (length es) (g_flags g) (addend_flags g) (wrapU 64 (default 0 (g_delta g)))
      (mjoin (encode_entry g <$> es) ++ rest) r s =
    Ok (b, r', (call_all callback (group_relocs g r es).1 s).1, (call_all callback (group_relocs g r es).1 s).2) /\
    ((call_all callback (group_relocs g r es).1 s).2 = true -> b = rest /\ r' = (group_relocs g r es).2).
Proof.
  intros H. revert r s. induction H as [|e es He Hes IH]; intros r s.
  { exists rest, r. done. }
  cbn [length fmap list_fmap mjoin list_join group_relocs]. rewrite <- app_assoc, group_loop_cons by done. cbv zeta.
  destruct (group_relocs g (next_reloc g r e) es) as [l r1] eqn:Eg. cbn [fst snd call_all].
  destruct (callback (next_reloc g r e) s) as [s' [|]]; cbn [negb fst snd].
  - destruct (IH (next_reloc g r e) s') as (b & r' & E & Hb). rewrite Eg in *. exists b, r'. done.
  - eexists _, _. split; [done|]. done.
Qed.

Lemma call_all_app l l' s : call_all callback (l ++ l') s =
  let '(s', ok) := call_all callback l s in if ok then call_all callback l' s' else (s', false).
Proof.
  revert s. induction l as [|r l IH]; intros s; simpl; [done|]. destruct (callback r s) as [s' [|]]; [apply IH|done].
Qed.

(** The head of a group. *)
Lemma groups_loop_cons fuel idx num g rest r s : group_ok g -> idx < num ->
  idx + Z.of_nat (length (g_entries g)) < 2 ^ 64 -> 0 <= idx ->
  groups_loop callback (S fuel) idx num (encode_group g ++ rest) r s =
  (r' <-- group_loop callback (length (g_entries g)) (g_flags g) (addend_flags g) (wrapU 64 (default 0 (g_delta g)))
            (mjoin (encode_entry g <$> g_entries g) ++ rest) (begin_group g r) s ;;
   let '(bytes, reloc, s, ok) := r' in
   if negb ok then Ok (s, false)
   else groups_loop callback fuel (idx + Z.of_nat (length (g_entries g))) num bytes reloc s).
Proof.
  intros (H1 & H2 & H3 & _ & _) Hidx Hsum H0. cbn [groups_loop]. destruct (Z.leb_spec num idx); [lia|].
  unfold encode_group. rewrite <- !app_assoc.
  rewrite pop_front_fits by (unfold fits; lia). cbn [obind fst snd].
  destruct (fits_flags g) as [Hf Ef]. rewrite pop_front_fits by done. cbn [obind fst snd]. rewrite Ef, flag_delta, flag_info, flag_addends.
  rewrite (wrapU_small 64 (Z.of_nat _)), Nat2Z.id, (wrapU_small 64 (idx + _)) by lia.
  set (tl := mjoin (encode_entry g <$> g_entries g) ++ rest).
  set (one := match g_addends g with OneAddend a => sleb a | _ => [] end).
  assert ((if match g_delta g with Some _ => true | None => false end
     then pop_front (encode_option (g_delta g) ++ encode_option (g_info g) ++ one ++ tl)
     else Ok (0, encode_option (g_delta g) ++ encode_option (g_info g) ++ one ++ tl)) =
     Ok (wrapU 64 (default 0 (g_delta g)), encode_option (g_info g) ++ one ++ tl)) as ->
    by (destruct (g_delta g); [apply pop_front_fits; auto|done]).
  cbn [obind fst snd].
  assert ((if match g_info g with Some _ => true | None => false end
     then pop_front (encode_option (g_info g) ++ one ++ tl)
     else Ok (r_info r, encode_option (g_info g) ++ one ++ tl)) =
     Ok (match g_info g with Some i => wrapU 64 i | None => r_info r end, one ++ tl)) as ->
    by (destruct (g_info g); [apply pop_front_fits; auto|done]).
  cbn [obind fst snd].
  assert ((if addend_flags g =? RELOCATION_GROUP_HAS_ADDEND_FLAG then Ok (r_addend r, one ++ tl)
     else if addend_flags g =? Z.lor RELOCATION_GROUP_HAS_ADDEND_FLAG RELOCATION_GROUPED_BY_ADDEND_FLAG
     then p <-- pop_front (one ++ tl) ;; Ok (wrapS 64 (r_addend r + p.1), p.2) else Ok (0, one ++ tl)) =
     Ok (match g_addends g with
         | NoAddend => 0 | EachAddend => r_addend r | OneAddend a => wrapS 64 (r_addend r + a)
         end, tl)) as ->; [|done].
  unfold addend_flags, one. destruct (g_addends g) as [| |a]; [done..|]. cbn -[pop_front wrapS sleb].
  rewrite pop_front_fits by auto. cbn [obind fst snd]. by rewrite wrapS_idemp.
Qed.

Lemma groups_loop_spec gs fuel idx num rest r s : Forall group_ok gs -> (length gs <= fuel)%nat ->
  idx + Z.of_nat (total gs) = num -> 0 <= idx -> num < 2 ^ 64 ->
  groups_loop callback fuel idx num (mjoin (encode_group <$> gs) ++ rest) r s = Ok (call_all callback (all_relocs r gs) s).
Proof.
  intros H. revert fuel idx r s. induction H as [|g gs Hg Hgs IH]; intros fuel idx r s Hf Hi H0 Hn.
  { unfold total in Hi. simpl in Hi. destruct fuel; cbn [groups_loop]; destruct (Z.leb_spec num idx); (done || lia). }
  destruct fuel as [|fuel]; [simpl in Hf; lia|].
  assert (total (g :: gs) = length (g_entries g) + total gs)%nat as Et by done. rewrite Et in Hi.
  assert (0 < length (g_entries g))%nat by (destruct Hg as (_ & _ & _ & _ & Hne); destruct (g_entries g); [done|simpl; lia]).
  change (mjoin (encode_group <$> g :: gs)) with (encode_group g ++ mjoin (encode_group <$> gs)).
  cbn [all_relocs]. rewrite <- app_assoc, groups_loop_cons by (done || lia).
  destruct (group_loop_spec g (g_entries g) (mjoin (encode_group <$> gs) ++ rest) (begin_group g r) s) as (b & r' & E & Hb);
    [apply Hg|]. rewrite E. cbn [obind].
  destruct (group_relocs g (begin_group g r) (g_entries g)) as [l r1]. cbn [fst snd] in *. rewrite call_all_app.
  destruct (call_all callback l s) as [s' [|]]; cbn [fst snd negb] in *; [|done].
  destruct (Hb eq_refl) as [-> ->]. simpl in Hf. apply IH; lia.
Qed.

End callbacks.

Lemma sleb_nonempty z : (1 <= length (sleb z))%nat.
Proof. unfold sleb. cbn [sleb128]. destruct (_ || _); simpl; lia. Qed.

Lemma length_encode_groups gs : (length gs <= length (mjoin (encode_group <$> gs)))%nat.
Proof.
  induction gs as [|g gs IH]; [done|].
  change (mjoin (encode_group <$> g :: gs)) with (encode_group g ++ mjoin (encode_group <$> gs)).
  cbn [length]. rewrite length_app.
  unfold encode_group at 1. rewrite length_app. pose proof (sleb_nonempty (Z.of_nat (length (g_entries g)))). lia.
Qed.

(** * RELR *)

(** The format: an even entry is an offset, an odd one a bitmap of the 63 words that follow.
    [relr_bits n off l] takes from [l] the offsets that are next among [n] words from [off] on. *)
Fixpoint relr_bits (n : nat) (off : Z) (l : list Z) : Z * list Z :=
  match n with
  | O => (0, l)
  | S n =>
      match l with
      | [] => (0, [])
      | x :: l' =>
          if x =? off then let '(v, rest) := relr_bits n (wrapU 64 (off + 8)) l' in (1 + 2 * v, rest)
          else let '(v, rest) := relr_bits n (wrapU 64 (off + 8)) l in (2 * v, rest)
      end
  end.

(** [base] is the word after the last one an entry spoke of. *)
Fixpoint relr_encode (fuel : nat) (base : option Z) (l : list Z) : list Z :=
  match fuel, l with
  | S fuel, x :: l' =>
      match base with
      | None => x :: relr_encode fuel (Some (wrapU 64 (x + 8))) l'
      | Some b =>
          let '(v, rest) := relr_bits 63 b l in
          if v =? 0 then x :: relr_encode fuel (Some (wrapU 64 (x + 8))) l'
          else 1 + 2 * v :: relr_encode fuel (Some (wrapU 64 (b + 504))) rest
      end
  | _, _ => []
  end.

Definition relr (l : list Z) : list Z := relr_encode (length l) None l.

Section relr.
Context (load_bias : Z).

Lemma relr_bits_spec n off l v rest : relr_bits n off l = (v, rest) ->
  exists l1, l = l1 ++ rest /\ 0 <= v /\ (v = 0 <-> l1 = []) /\
    forall fuel e m, (n < fuel)%nat -> e <> 0 -> Z.shiftr e 1 = v ->
      relr_bitmap fuel load_bias e off m = fold_left (apply_relr_reloc load_bias) l1 m.
Proof.
  revert off l v rest. induction n as [|n IH]; intros off l v rest E; cbn [relr_bits] in E.
  - injection E as <- <-. exists []. split_and!; [done|done|done|].
    intros [|[|fuel]] e m Hf He Ev; [lia| |]; cbn [relr_bitmap]; destruct (Z.eqb_spec e 0); [done| |done|]; by rewrite Ev.
  - destruct l as [|x l].
    { injection E as <- <-. exists []. split_and!; [done|done|done|].
      intros [|[|fuel]] e m Hf He Ev; [lia|lia|]. cbn [relr_bitmap]. destruct (Z.eqb_spec e 0); [done|]. by rewrite Ev. }
    destruct (Z.eqb_spec x off) as [->|Hne].
    + destruct (relr_bits n (wrapU 64 (off + 8)) l) as [v' rest'] eqn:E'. injection E as <- <-.
      destruct (IH _ _ _ _ E') as (l1 & -> & H1 & H2 & H3). exists (off :: l1). split_and!; [done|lia|split; [lia|done]|].
      intros [|fuel] e m Hf He Ev; [lia|]. cbn [relr_bitmap fold_left]. destruct (Z.eqb_spec e 0); [done|].
      rewrite Ev, land_1. replace ((1 + 2 * v') mod 2) with 1 by (rewrite Z.mul_comm, Z_mod_plus_full; done).
      apply H3; [lia|lia|]. rewrite Z.shiftr_div_pow2 by done. symmetry. apply (Z.div_unique _ _ _ 1); lia.
    + destruct (relr_bits n (wrapU 64 (off + 8)) (x :: l)) as [v' rest'] eqn:E'. injection E as <- <-.
      destruct (IH _ _ _ _ E') as (l1 & El & H1 & H2 & H3). exists l1. split_and!; [done|lia|rewrite <- H2; lia|].
      intros [|fuel] e m Hf He Ev; [lia|]. cbn [relr_bitmap]. destruct (Z.eqb_spec e 0); [done|].
      rewrite Ev, land_1, Z.mul_comm, Z.mod_mul by done. cbn [truthy negb Z.eqb].
      destruct (decide (v' = 0)) as [->|Hv'].
      * rewrite (proj1 H2 eq_refl). destruct fuel; [lia|done].
      * apply H3; [lia|lia|]. rewrite Z.shiftr_div_pow2 by done. apply Z.div_mul. done.
Qed.

Lemma relr_encode_spec fuel base b l m : (length l <= fuel)%nat -> Forall (fun x => Z.even x = true) l ->
  (forall b', base = Some b' -> b' = b) ->
  relocate_relr_loop load_bias (relr_encode fuel base l) b m = fold_left (apply_relr_reloc load_bias) l m.
Proof.
  revert base b l m. induction fuel as [|fuel IH]; intros base b l m Hf He Hb; [destruct l; [done|simpl in Hf; lia]|].
  destruct l as [|x l]; [done|]. inversion He as [|? ? Hx Hl]; subst. simpl in Hf.
  assert (relocate_relr_loop load_bias (x :: relr_encode fuel (Some (wrapU 64 (x + 8))) l) b m =
    fold_left (apply_relr_reloc load_bias) (x :: l) m) as Haddr.
  { cbn [relocate_relr_loop fold_left]. rewrite land_1, Zmod_even, Hx. cbn [Z.eqb].
    apply IH; [lia|done|]. by intros b' [= <-]. }
  cbn [relr_encode]. destruct base as [b'|]; [|done]. rewrite (Hb b' eq_refl) in *.
  destruct (relr_bits 63 b (x :: l)) as [v rest] eqn:E. destruct (Z.eqb_spec v 0) as [|Hv]; [done|].
  destruct (relr_bits_spec _ _ _ _ _ E) as (l1 & El & H1 & H2 & H3).
  cbn [relocate_relr_loop]. replace (Z.land (1 + 2 * v) 1 =? 0) with false
    by (rewrite land_1, Z.mul_comm, Z_mod_plus_full; done).
  rewrite H3; [|lia|lia|rewrite Z.shiftr_div_pow2 by done; symmetry; apply (Z.div_unique _ _ _ 1); lia].
  rewrite El, fold_left_app. apply IH.
  - assert (l1 <> []) by (by rewrite <- H2). destruct l1; [done|]. apply (f_equal length) in El.
    simpl in El. rewrite length_app in El. lia.
  - rewrite El in He. by apply Forall_app in He as [_ ?].
  - by intros b'' [= <-].
Qed.

(** Applying the relocations of a list adds the bias once for every occurrence. *)
Lemma fold_relocs l m a : 0 <= m a < 2 ^ 64 ->
  fold_left (apply_relr_reloc load_bias) l m a =
  wrapU 64 (m a + load_bias * Z.of_nat (length (filter (fun x => wrapU 64 (x + load_bias) = a) l))).
Proof.
  revert m. induction l as [|x l IH]; intros m Hm; cbn [fold_left].
  { rewrite filter_nil. simpl. rewrite Z.mul_0_r, Z.add_0_r. symmetry. by apply wrapU_small. }
  rewrite IH by (unfold apply_relr_reloc, set_at; destruct (Z.eqb_spec a (wrapU 64 (x + load_bias))); [apply Z.mod_pos_bound|]; done).
  rewrite filter_cons. unfold apply_relr_reloc, set_at.
  destruct (Z.eqb_spec a (wrapU 64 (x + load_bias))) as [->|Hne].
  - rewrite decide_True by done. cbn [length]. rewrite Z.add_comm, wrapU_idemp. f_equal. lia.
  - rewrite decide_False by congruence. done.
Qed.

End relr.

(** * Theorems *)

(** C28: the decoder of packed relocations calls the callback with exactly the relocations that
    were encoded, in order, until the callback returns false; any grouping of offsets, infos and
    addends is understood, and every number of at most ten bytes is read with its sign, also one
    that is not in its shortest form. *)
Theorem packed_relocs_roundtrip {St : Type} (callback : rel_t -> St -> St * bool) offset gs rest s cont last :
  Forall group_ok gs -> fits offset -> Z.of_nat (total gs) < 2 ^ 64 ->
  Forall (fun b => Z.testbit b 7 = true) cont -> Z.testbit last 7 = false -> (length cont < 10)%nat ->
  for_all_packed_relocs callback (encode_relocs offset gs ++ rest) s =
    Ok (call_all callback (all_relocs (mk_rel (wrapU 64 offset) 0 0) gs) s) /\
  pop_front (cont ++ last :: rest) = Ok (wrapU 64 (sleb_value cont last), rest).
Proof.
  intros Hg Ho Ht Hc Hl Hlen. split; [|by apply pop_front_value].
  unfold for_all_packed_relocs, encode_relocs. rewrite <- !app_assoc.
  rewrite pop_front_fits by (unfold fits; lia). cbn [obind fst snd].
  rewrite pop_front_fits by done. cbn [obind fst snd]. rewrite (wrapU_small 64 (Z.of_nat _)) by lia.
  apply groups_loop_spec; [done| |lia|lia|done].
  rewrite !length_app. pose proof (length_encode_groups gs). lia.
Qed.

(** Two relative relocations eight bytes apart with their own addends, and one with a symbol. *)
Definition ex_groups : list group :=
  [mk_group (Some 8) (Some 1027) EachAddend [mk_entry 0 0 4096; mk_entry 0 0 (-64)];
   mk_group None None NoAddend [mk_entry 16 (5 * 2 ^ 32 + 1025) 0]].

Lemma packed_relocs_roundtrip_witness :
  for_all_packed_relocs (fun r l => (l ++ [r], true)) (encode_relocs 65536 ex_groups ++ [7]) [] =
    Ok ([mk_rel 65544 1027 4096; mk_rel 65552 1027 4032; mk_rel 65568 (5 * 2 ^ 32 + 1025) 0], true) /\
  pop_front ([255; 255] ++ 127 :: [7]) = Ok (2 ^ 64 - 1, [7]).
Proof.
  destruct (packed_relocs_roundtrip (fun r l => (l ++ [r], true)) 65536 ex_groups [7] [] [255; 255] 127) as [H1 H2].
  - unfold ex_groups, group_ok, entry_ok, fits. repeat (apply Forall_cons; split); [..|by apply Forall_nil];
      (split; [intros d Hd|split; [intros d Hd|split; [intros d Hd|split; [|discriminate]]]]); simplify_eq/=; try lia;
      repeat (apply Forall_cons; split); try apply Forall_nil_2; simpl; lia.
  - split; [discriminate|reflexivity].
  - reflexivity.
  - repeat constructor.
  - reflexivity.
  - repeat constructor.
  - rewrite H1, H2. split; vm_compute; reflexivity.
Defined.

(** Given the RELR encoding of a list of even offsets, with bitmaps for the words that come
    within 63 words of the last one, relocate_relr adds the bias to exactly the words of the list, once for every occurrence, and leaves the
    others alone. *)
Theorem relr_roundtrip load_bias l m a :
  Forall (fun x => Z.even x = true) l -> 0 <= m a < 2 ^ 64 ->
  relocate_relr load_bias (relr l) m a =
  wrapU 64 (m a + load_bias * Z.of_nat (length (filter (fun x => wrapU 64 (x + load_bias) = a) l))).
Proof.
  intros He Hm. unfold relocate_relr, relr. rewrite relr_encode_spec by done. by apply fold_relocs.
Qed.

Lemma relr_roundtrip_witness :
  relr [8; 16; 32; 1024] = [8; 11; 1024] /\
  relocate_relr 4096 (relr [8; 16; 32; 1024]) (fun _ => 100) 4112 =
  wrapU 64 (100 + 4096 * Z.of_nat (length (filter (fun x => wrapU 64 (x + 4096) = 4112) [8; 16; 32; 1024]))).
Proof.
  split; [vm_compute; reflexivity|].
  apply (relr_roundtrip 4096 [8; 16; 32; 1024] (fun _ => 100) 4112); [repeat constructor|split; [discriminate|reflexivity]].
Defined.
