(* ===== verification/LinkerLookup.v ===== *)
(** Symbol lookup in the dynamic linker: soinfo_do_lookup, gnu_lookup and elf_lookup of
    linker/linker_soinfo.cpp, with the hash functions, the version checks and the list of
    libraries to search, for 64-bit targets.

    A library is a record of the tables the linker reads from its image.  The theorems say that a
    search by hash, through the Bloom filter, the buckets and the chains, is a linear search of
    the symbol tables of the libraries in order, when the hash tables have the form the static
    linker gives them. *)

From S2P Require Import Prelude Result CString StrTok.

(** * Definitions *)

Abbreviation kVersymNotNeeded := 0.
Abbreviation kVersymGlobal := 1.
Abbreviation kVersymHiddenBit := 0x8000.

Abbreviation VER_FLG_BASE := 1.
Abbreviation STB_GLOBAL := 1.
Abbreviation STB_WEAK := 2.
Abbreviation SHN_UNDEF := 0.
Abbreviation kBloomMaskBits := 64.

Record sym := mk_sym { st_name : nat; st_info : Z; st_shndx : Z }.

(** An entry of the table of versions a library defines, and a version that is asked for. *)
Record verdef := mk_verdef {
  vd_version : Z; vd_flags : Z; vd_cnt : Z; vd_ndx : Z; vd_hash : Z; vda_name : nat
}.
Record version_info := mk_version_info { vi_hash : Z; vi_name : list Z }.

(** [gnu_chain] begins with the symbol [gnu_symndx]; the pointer the linker keeps is moved back by
    as many elements. *)
Record soinfo := mk_soinfo {
  strtab : list Z; symtab : list sym; versym : option (list Z); verdefs : list verdef;
  is_gnu_hash : bool;
  gnu_nbucket : Z; gnu_maskwords : Z; gnu_shift2 : Z;
  gnu_bloom_filter : list Z; gnu_bucket : list nat; gnu_symndx : nat; gnu_chain : list Z;
  nbucket : Z; bucket : list nat; chain : list nat
}.

(** ** Hash functions *)

Fixpoint gnu_hash_loop (h : Z) (name_bytes : list Z) : Z :=
  match name_bytes with
  | [] => h
  | c :: name_bytes => gnu_hash_loop (wrapU 32 (h + (wrapU 32 (Z.shiftl h 5) + c))) name_bytes
  end.

(** The hash and the length of a name, both as [uint32_t]. *)
Definition calculate_gnu_hash_simple (name : list Z) : Z * nat :=
  (gnu_hash_loop 5381 name, Z.to_nat (wrapU 32 (Z.of_nat (length name)))).

Fixpoint elf_hash_loop (h : Z) (name_bytes : list Z) : Z :=
  match name_bytes with
  | [] => h
  | c :: name_bytes =>
      let h := wrapU 32 (wrapU 32 (Z.shiftl h 4) + c) in
      let g := Z.land h 0xf0000000 in
      let h := Z.lxor h g in
      elf_hash_loop (Z.lxor h (Z.shiftr g 24)) name_bytes
  end.

Definition calculate_elf_hash (name : list Z) : Z := elf_hash_loop 0 name.

(** ** Versions *)

Definition get_string (si : soinfo) (index : nat) : result (list Z) :=
  if (length (strtab si) <=? index)%nat then Fatal else Ok (drop index (strtab si)).

(** for_each_verdef with a function that can stop the loop; [None] is an invalid table. *)
Fixpoint for_each_verdef {St : Type} (functor : verdef -> St -> result (St * bool)) (vs : list verdef) (s : St)
    : result (option St) :=
  match vs with
  | [] => Ok (Some s)
  | v :: vs =>
      if negb (vd_version v =? 1) then Ok None
      else if truthy (Z.land (vd_flags v) VER_FLG_BASE) then for_each_verdef functor vs s
      else if vd_cnt v =? 0 then Ok None
      else r <-- functor v s ;; if r.2 : bool then Ok (Some r.1) else for_each_verdef functor vs r.1
  end.

Definition find_verdef_version_index (si : soinfo) (vi : option version_info) : result Z :=
  match vi with
  | None => Ok kVersymNotNeeded
  | Some vi =>
      r <-- for_each_verdef (fun v result =>
              if vd_hash v =? vi_hash vi then
                name <-- get_string si (vda_name v) ;;
                d <-- run (strcmp (vi_name vi ++ [0]) name) ;;
                Ok (if d =? 0 then (vd_ndx v, true) else (result, false))
              else Ok (result, false)) (verdefs si) kVersymGlobal ;;
      match r with Some result => Ok result | None => Fatal end
  end.

Definition check_symbol_version (ver_table : option (list Z)) (sym_idx : nat) (verneed : Z) : result bool :=
  match ver_table with
  | None => Ok true
  | Some ver_table =>
      verdef <-- at_ ver_table sym_idx ;;
      Ok (if verneed =? kVersymNotNeeded then negb (truthy (Z.land verdef kVersymHiddenBit))
          else verneed =? Z.land verdef (Z.lnot kVersymHiddenBit))
  end.

Definition is_symbol_global_and_defined (s : sym) : bool :=
  let bind := Z.shiftr (st_info s) 4 in
  if (bind =? STB_GLOBAL) || (bind =? STB_WEAK) then negb (st_shndx s =? SHN_UNDEF) else false.

(** ** The tables of one library *)

Definition chain_at (si : soinfo) (n : nat) : result Z :=
  if (n <? gnu_symndx si)%nat then Fault else at_ (gnu_chain si) (n - gnu_symndx si).

(** The Bloom filter, and the first symbol of the bucket. *)
Definition bloom_test (si : soinfo) (hash : Z) : result bool :=
  let word_num := Z.land (hash / kBloomMaskBits) (gnu_maskwords si) in
  bloom_word <-- at_ (gnu_bloom_filter si) (Z.to_nat word_num) ;;
  let h1 := hash mod kBloomMaskBits in
  if 32 <=? gnu_shift2 si then Fault else
  let h2 := Z.shiftr hash (gnu_shift2 si) mod kBloomMaskBits in
  Ok (Z.land (Z.land 1 (Z.shiftr bloom_word h1)) (Z.shiftr bloom_word h2) =? 1).

Definition gnu_first (si : soinfo) (hash : Z) : result nat :=
  if gnu_nbucket si =? 0 then Fault else at_ (gnu_bucket si) (Z.to_nat (hash mod gnu_nbucket si)).

(** The test of a symbol by strcmp, after the test of its hash. *)
Definition symbol_matches (si : soinfo) (name : list Z) (verneed : Z) (n : nat) : result bool :=
  ok <-- check_symbol_version (versym si) n verneed ;;
  if negb ok then Ok false else
  s <-- at_ (symtab si) n ;;
  str <-- get_string si (st_name s) ;;
  d <-- run (strcmp str (name ++ [0])) ;;
  Ok ((d =? 0) && is_symbol_global_and_defined s).

Fixpoint gnu_lookup_loop (fuel : nat) (si : soinfo) (name : list Z) (hash verneed : Z) (n : nat)
    : result (option nat) :=
  match fuel with
  | O => Fault
  | S fuel =>
      chain_value <-- chain_at si n ;;
      found <-- (if Z.shiftr (Z.lxor chain_value hash) 1 =? 0 then symbol_matches si name verneed n
                 else Ok false) ;;
      if found : bool then Ok (Some n)
      else if Z.land chain_value 1 =? 0 then gnu_lookup_loop fuel si name hash verneed (S n)
      else Ok None
  end.

Definition gnu_lookup (si : soinfo) (name : list Z) (vi : option version_info) : result (option nat) :=
  let hash := (calculate_gnu_hash_simple name).1 in
  maybe <-- bloom_test si hash ;;
  if negb maybe then Ok None else
  n <-- gnu_first si hash ;;
  if (n =? 0)%nat then Ok None else
  verneed <-- find_verdef_version_index si vi ;;
  gnu_lookup_loop (length (gnu_chain si)) si name hash verneed n.

Fixpoint elf_lookup_loop (fuel : nat) (si : soinfo) (name : list Z) (verneed : Z) (n : nat)
    : result (option nat) :=
  if (n =? 0)%nat then Ok None else
  match fuel with
  | O => Fault
  | S fuel =>
      found <-- symbol_matches si name verneed n ;;
      if found : bool then Ok (Some n) else
      next <-- at_ (chain si) n ;;
      elf_lookup_loop fuel si name verneed next
  end.

Definition elf_lookup (si : soinfo) (name : list Z) (vi : option version_info) : result (option nat) :=
  let hash := calculate_elf_hash name in
  verneed <-- find_verdef_version_index si vi ;;
  if nbucket si =? 0 then Fault else
  n <-- at_ (bucket si) (Z.to_nat (hash mod nbucket si)) ;;
  elf_lookup_loop (length (chain si)) si name verneed n.

Definition find_symbol_by_name (si : soinfo) (name : list Z) (vi : option version_info) : result (option nat) :=
  if is_gnu_hash si then gnu_lookup si name vi else elf_lookup si name vi.

(** ** The libraries in order *)

(** The test of a symbol by memcmp, with the bound on the string table.  The bound is computed as a [size_t], the size for
    memcmp as a [uint32_t]. *)
Definition symbol_matches_fast (si : soinfo) (name : list Z) (name_len : nat) (verneed : Z) (n : nat) : result bool :=
  ok <-- check_symbol_version (versym si) n verneed ;;
  if negb ok then Ok false else
  s <-- at_ (symtab si) n ;;
  if negb (st_name s + name_len + 1 <=? length (strtab si))%nat then Ok false else
  let size := Z.to_nat (wrapU 32 (Z.of_nat name_len + 1)) in
  Ok (bool_decide (take size (drop (st_name s) (strtab si)) = take size (name ++ [0])) &&
      is_symbol_global_and_defined s).

(** The chain of one library; the version is looked up when the first hash matches. *)
Fixpoint do_lookup_chain (fuel : nat) (si : soinfo) (name : list Z) (name_len : nat) (hash : Z)
    (vi : option version_info) (verneed : Z) (calculated_verneed : bool) (sym_idx : nat) : result (option nat) :=
  match fuel with
  | O => Fault
  | S fuel =>
      chain_value <-- chain_at si sym_idx ;;
      r <-- (if Z.shiftr chain_value 1 =? Z.shiftr hash 1 then
               v <-- (match vi with
                      | Some _ => if calculated_verneed then Ok (verneed, calculated_verneed) else
                                  v <-- find_verdef_version_index si vi ;; Ok (v, true)
                      | None => Ok (verneed, calculated_verneed)
                      end) ;;
               found <-- symbol_matches_fast si name name_len v.1 sym_idx ;;
               Ok (found, v.1, v.2)
             else Ok (false, verneed, calculated_verneed)) ;;
      let '(found, verneed, calculated_verneed) := r in
      if found : bool then Ok (Some sym_idx)
      else if Z.land chain_value 1 =? 0 then
        do_lookup_chain fuel si name name_len hash vi verneed calculated_verneed (S sym_idx)
      else Ok None
  end.

Definition needs_sysv_lookup (lib : option soinfo) : bool :=
  match lib with Some si => negb (is_gnu_hash si) | None => false end.

(** The loop over the libraries, general or for libraries that all have the newer hash table. *)
Fixpoint do_lookup_loop (IsGeneral : bool) (name : list Z) (hash : Z) (name_len : nat) (vi : option version_info)
    (libs : list (option soinfo)) : result (option (soinfo * nat)) :=
  match libs with
  | [] => Ok None
  | None :: _ => Fault
  | Some si :: libs =>
      if IsGeneral && needs_sysv_lookup (Some si) then
        r <-- find_symbol_by_name si name vi ;;
        match r with Some n => Ok (Some (si, n)) | None => do_lookup_loop IsGeneral name hash name_len vi libs end
      else
        if negb (is_gnu_hash si) then Fault else    (* gnu_bloom_filter_ is null *)
        maybe <-- bloom_test si hash ;;
        if negb maybe then do_lookup_loop IsGeneral name hash name_len vi libs else
        sym_idx <-- gnu_first si hash ;;
        if (sym_idx =? 0)%nat then do_lookup_loop IsGeneral name hash name_len vi libs else
        r <-- do_lookup_chain (length (gnu_chain si)) si name name_len hash vi kVersymNotNeeded false sym_idx ;;
        match r with Some n => Ok (Some (si, n)) | None => do_lookup_loop IsGeneral name hash name_len vi libs end
  end.

Definition soinfo_do_lookup_impl (IsGeneral : bool) (name : list Z) (vi : option version_info)
    (libs : list (option soinfo)) : result (option (soinfo * nat)) :=
  let '(hash, name_len) := calculate_gnu_hash_simple name in
  do_lookup_loop IsGeneral name hash name_len vi libs.

(** The list of libraries to search.  [begin_] is an index of [libs_], or [None] for the address of
    [sole_lib_]; the first element of [libs_] is kept for a library with DT_SYMBOLIC. *)
Record SymbolLookupList := mk_list {
  libs_ : list (option soinfo); sole_lib_ : option soinfo; begin_ : option nat; slow_path_count_ : Z
}.

Definition lookup_list_of_one (tracing : bool) (si : soinfo) : SymbolLookupList :=
  mk_list [] (Some si) None (b2z tracing + b2z (needs_sysv_lookup (Some si))).

(** One step of the loops over the groups. *)
Definition push_lib (l : list (option soinfo) * Z) (si : soinfo) : list (option soinfo) * Z :=
  (l.1 ++ [Some si], l.2 + b2z (needs_sysv_lookup (Some si))).

Definition lookup_list_of_groups (tracing : bool) (global_group local_group : list soinfo) : SymbolLookupList :=
  let l := fold_left push_lib global_group ([None], b2z tracing) in
  let l := fold_left push_lib local_group l in
  mk_list l.1 None (Some 1%nat) l.2.

Definition set_dt_symbolic_lib (l : SymbolLookupList) (lib : option soinfo) : result SymbolLookupList :=
  match libs_ l with
  | [] => Fatal
  | old :: libs =>
      let slow_path_count := slow_path_count_ l - b2z (needs_sysv_lookup old) in
      Ok (mk_list (lib :: libs) (sole_lib_ l) (Some (match lib with Some _ => 0%nat | None => 1%nat end))
            (slow_path_count + b2z (needs_sysv_lookup lib)))
  end.

(** The libraries from begin() to end(). *)
Definition lookup_range (l : SymbolLookupList) : list (option soinfo) :=
  match begin_ l with None => [sole_lib_ l] | Some i => drop i (libs_ l) end.

Definition needs_slow_path (l : SymbolLookupList) : bool := slow_path_count_ l >? 0.

Definition soinfo_do_lookup (name : list Z) (vi : option version_info) (l : SymbolLookupList)
    : result (option (soinfo * nat)) :=
  if needs_slow_path l then soinfo_do_lookup_impl true name vi (lookup_range l)
  else soinfo_do_lookup_impl false name vi (lookup_range l).

(** * Specification *)

(** The string that begins at an index of the string table. *)
Definition name_at (si : soinfo) (index : nat) : list Z := until_nul (drop index (strtab si)).

(** A search for a version: the first version of the library with its name, or the global one. *)
Definition is_version (si : soinfo) (vi : version_info) (v : verdef) : bool :=
  negb (Z.testbit (vd_flags v) 0) && (vd_hash v =? vi_hash vi) && bool_decide (name_at si (vda_name v) = vi_name vi).

Definition version_wanted (si : soinfo) (vi : option version_info) : Z :=
  match vi with
  | None => kVersymNotNeeded
  | Some vi => match List.find (is_version si vi) (verdefs si) with Some v => vd_ndx v | None => kVersymGlobal end
  end.

(** A version index has 15 bits and a bit that hides the symbol from a search without a version. *)
Definition version_visible (si : soinfo) (verneed : Z) (n : nat) : bool :=
  match versym si with
  | None => true
  | Some t => match t !! n with
              | Some v => if verneed =? kVersymNotNeeded then negb (Z.testbit v 15) else v mod 2 ^ 15 =? verneed
              | None => false
              end
  end.

(** The symbol [n] of a library answers to a name. *)
Definition provides (si : soinfo) (name : list Z) (vi : option version_info) (n : nat) : bool :=
  match symtab si !! n with
  | Some s => bool_decide (name_at si (st_name s) = name) && version_visible si (version_wanted si vi) n &&
              is_symbol_global_and_defined s
  | None => false
  end.

(** What a search of the libraries in order finds: the first library with an answer, and in a
    library with the newer hash table the first symbol that answers. *)
Definition resolves (libs : list soinfo) (name : list Z) (vi : option version_info) (r : option (soinfo * nat)) : Prop :=
  match r with
  | Some (si, n) =>
      exists before after, libs = before ++ si :: after /\ provides si name vi n = true /\
        (forall lib m, lib ∈ before -> provides lib name vi m = false) /\
        (is_gnu_hash si = true -> forall m, (m < n)%nat -> provides si name vi m = false)
  | None => forall lib m, lib ∈ libs -> provides lib name vi m = false
  end.

(** The lists the linker makes: the library with DT_SYMBOLIC that is searched first, and the others. *)
Inductive lookup_list (tracing : bool) : SymbolLookupList -> option soinfo -> list soinfo -> Prop :=
| list_one si : lookup_list tracing (lookup_list_of_one tracing si) None [si]
| list_groups global local :
    lookup_list tracing (lookup_list_of_groups tracing global local) None (global ++ local)
| list_symbolic l old libs lib l' :
    lookup_list tracing l old libs -> set_dt_symbolic_lib l lib = Ok l' -> lookup_list tracing l' lib libs.

(** The tables of a library.  The string table ends with a zero, the indices are inside it, and the
    versions are valid. *)
Definition strtab_ok (si : soinfo) : Prop :=
  last (strtab si) = Some 0 /\ Forall (fun c => 0 <= c < 256) (strtab si) /\
  Forall (fun s => (st_name s < length (strtab si))%nat) (symtab si).

Definition versions_ok (si : soinfo) : Prop :=
  Forall (fun v => vd_version v = 1 /\ (vd_cnt v <> 0 \/ Z.testbit (vd_flags v) 0 = true) /\
                   (vda_name v < length (strtab si))%nat) (verdefs si) /\
  match versym si with
  | None => True
  | Some t => length t = length (symtab si) /\ Forall (fun v => 0 <= v < 2 ^ 16) t
  end.

(** A name whose length, with the terminator, fits a [uint32_t]. *)
Definition name_fits (name : list Z) : Prop := Z.of_nat (length name) < 2 ^ 32 - 1.

Definition gnu_hash (name : list Z) : Z := (calculate_gnu_hash_simple name).1.

Definition symbol_hash (si : soinfo) (n : nat) : Z :=
  match symtab si !! n with Some s => gnu_hash (name_at si (st_name s)) | None => 0 end.

Definition symbol_bucket (si : soinfo) (n : nat) : Z := symbol_hash si n mod gnu_nbucket si.

(** The symbols of the newer hash table, the end of a bucket, and its first symbol. *)
Definition hashed (si : soinfo) : list nat := seq (gnu_symndx si) (length (gnu_chain si)).

Definition ends_bucket (si : soinfo) (n : nat) : bool :=
  (S n =? length (symtab si))%nat || negb (symbol_bucket si (S n) =? symbol_bucket si n).

Definition first_of_bucket (si : soinfo) (b : nat) : nat :=
  match List.find (fun n => symbol_bucket si n =? Z.of_nat b) (hashed si) with Some n => n | None => 0 end.

(** The newer hash table as a static linker writes it: the symbols from [gnu_symndx] on, ordered by
    bucket; the chain has the hash of each of them, its lowest bit replaced by a mark at the end of
    the bucket; and the Bloom filter has the bits of each hash.  No symbol before [gnu_symndx] is a
    definition. *)
Record gnu_hash_ok (si : soinfo) : Prop := {
  gnu_sizes : 0 < gnu_nbucket si /\ 0 <= gnu_shift2 si < 32 /\ 0 <= gnu_maskwords si /\
    length (gnu_bloom_filter si) = S (Z.to_nat (gnu_maskwords si)) /\
    (0 < gnu_symndx si)%nat /\ (gnu_symndx si + length (gnu_chain si) = length (symtab si))%nat;
  gnu_undefined : Forall (fun s => is_symbol_global_and_defined s = false) (take (gnu_symndx si) (symtab si));
  gnu_ordered : Forall (fun n => Forall (fun m => (n <= m)%nat -> symbol_bucket si n <= symbol_bucket si m) (hashed si))
                  (hashed si);
  gnu_chains : gnu_chain si = (fun n => Z.shiftl (Z.shiftr (symbol_hash si n) 1) 1 + b2z (ends_bucket si n)) <$> hashed si;
  gnu_buckets : gnu_bucket si = first_of_bucket si <$> seq 0 (Z.to_nat (gnu_nbucket si));
  gnu_bloom : Forall (fun n => bloom_test si (symbol_hash si n) = Ok true) (hashed si)
}.

(** The older hash table: the chain of a bucket, from its first symbol to a zero. *)
Fixpoint sysv_chain (fuel : nat) (si : soinfo) (n : nat) : option (list nat) :=
  if (n =? 0)%nat then Some [] else
  match fuel with
  | O => None
  | S fuel => next ← chain si !! n; l ← sysv_chain fuel si next; Some (n :: l)
  end.

(** Every chain ends, has symbols of the table, and has each definition whose hash is of the bucket. *)
Record sysv_hash_ok (si : soinfo) : Prop := {
  sysv_sizes : 0 < nbucket si /\ length (chain si) = length (symtab si) /\ length (bucket si) = Z.to_nat (nbucket si);
  sysv_null : forall s, symtab si !! 0%nat = Some s -> is_symbol_global_and_defined s = false;
  sysv_chains : forall b first, bucket si !! b = Some first -> exists l,
    sysv_chain (length (chain si)) si first = Some l /\
    forall n s, symtab si !! n = Some s -> n <> 0%nat ->
      calculate_elf_hash (name_at si (st_name s)) mod nbucket si = Z.of_nat b -> n ∈ l
}.

Definition lib_ok (si : soinfo) : Prop :=
  strtab_ok si /\ versions_ok si /\ if is_gnu_hash si then gnu_hash_ok si else sysv_hash_ok si.

(** * Strings *)

Lemma until_nul_split l : 0 ∈ l -> Forall (fun c => 0 <= c < 256) l ->
  exists t, l = until_nul l ++ 0 :: t /\ cstring (until_nul l).
Proof.
  induction l as [|c l IH]; intros Hin Hb; [by apply elem_of_nil in Hin|].
  apply Forall_cons in Hb as [Hc Hb]. simpl. destruct (Z.eqb_spec c 0) as [->|Hne].
  - exists l. split; [done|]. constructor.
  - apply elem_of_cons in Hin as [|Hin]; [done|]. destruct (IH Hin Hb) as (t & Hl & Hs).
    exists t. split; [simpl; congruence|]. constructor; [lia|done].
Qed.

Lemma strtab_split si p : strtab_ok si -> (p < length (strtab si))%nat ->
  exists t, drop p (strtab si) = name_at si p ++ 0 :: t /\ cstring (name_at si p).
Proof.
  intros (Hlast & Hb & _) Hp. apply until_nul_split; [|by apply Forall_drop].
  apply last_Some in Hlast as [l Hl]. rewrite Hl in Hp |- *. rewrite length_app in Hp. simpl in Hp.
  rewrite drop_app_le by lia. apply elem_of_app. right. by apply list_elem_of_singleton.
Qed.

Lemma strcmp_eq s1 t1 s2 t2 : cstring s1 -> cstring s2 ->
  exists d, strcmp (s1 ++ 0 :: t1) (s2 ++ 0 :: t2) = Some d /\ (d =? 0) = bool_decide (s1 = s2).
Proof.
  intros H1 H2. destruct (strcmp_cstring s1 t1 s2 t2 H1 H2) as (d & Hd & Hl). exists d. split; [done|].
  apply eq_bool_prop_intro. rewrite Z.eqb_compare, Hl. rewrite bool_decide_spec, <-lex_eq.
  destruct (lex s1 s2); naive_solver.
Qed.

(** * Versions *)

Lemma clear_hidden v : 0 <= v < 2 ^ 16 -> Z.land v (Z.lnot kVersymHiddenBit) = v mod 2 ^ 15.
Proof.
  intros Hv. change kVersymHiddenBit with (2 ^ 15). apply Z.bits_inj_iff'. intros i Hi.
  rewrite Z.land_spec, Z.lnot_spec, Z.pow2_bits_eqb by lia.
  destruct (Z.lt_ge_cases i 15) as [Hl|Hg].
  - rewrite Z.mod_pow2_bits_low, (proj2 (Z.eqb_neq 15 i)) by lia. by rewrite andb_true_r.
  - rewrite Z.mod_pow2_bits_high by lia. destruct (Z.eqb_spec 15 i) as [<-|]; [by rewrite andb_false_r|].
    rewrite <-(Z.mod_small v (2 ^ 16)), Z.mod_pow2_bits_high by lia. done.
Qed.

Lemma check_symbol_version_spec si verneed n : versions_ok si -> (n < length (symtab si))%nat ->
  check_symbol_version (versym si) n verneed = Ok (version_visible si verneed n).
Proof.
  intros [_ Hv] Hn. unfold check_symbol_version, version_visible, at_. destruct (versym si) as [t|]; [|done].
  destruct Hv as [Hl Hv]. destruct (lookup_lt_is_Some_2 t n) as [v E]; [lia|].
  rewrite E. simpl. rewrite Forall_lookup in Hv. specialize (Hv n v E).
  change kVersymHiddenBit with (2 ^ 15) at 1. rewrite testbit_truthy, clear_hidden by lia.
  by rewrite (Z.eqb_sym verneed (v mod 2 ^ 15)).
Qed.

Lemma for_each_verdef_spec si vi vs : strtab_ok si -> cstring (vi_name vi) ->
  Forall (fun v => vd_version v = 1 /\ (vd_cnt v <> 0 \/ Z.testbit (vd_flags v) 0 = true) /\
                   (vda_name v < length (strtab si))%nat) vs ->
  for_each_verdef (fun v result =>
    if vd_hash v =? vi_hash vi then
      name <-- get_string si (vda_name v) ;;
      d <-- run (strcmp (vi_name vi ++ [0]) name) ;;
      Ok (if d =? 0 then (vd_ndx v, true) else (result, false))
    else Ok (result, false)) vs kVersymGlobal
  = Ok (Some (match List.find (is_version si vi) vs with Some v => vd_ndx v | None => kVersymGlobal end)).
Proof.
  intros Hs Hc. induction 1 as [|v vs (Hver & Hcnt & Hp) _ IH]; [done|].
  cbn [for_each_verdef List.find]. unfold is_version at 1. rewrite Hver. cbn [negb Z.eqb Pos.eqb].
  change VER_FLG_BASE with (2 ^ 0). rewrite testbit_truthy by lia.
  destruct (Z.testbit (vd_flags v) 0) eqn:Hbase; cbn [negb andb]; [apply IH|].
  rewrite (proj2 (Z.eqb_neq (vd_cnt v) 0)) by (destruct Hcnt; congruence).
  destruct (vd_hash v =? vi_hash vi); cbn [obind andb snd fst]; [|apply IH].
  unfold get_string. destruct (Nat.leb_spec (length (strtab si)) (vda_name v)); [lia|]. cbn [obind].
  destruct (strtab_split si (vda_name v)) as (t & -> & Hn); [done..|].
  destruct (strcmp_eq (vi_name vi) [] (name_at si (vda_name v)) t Hc Hn) as (d & -> & Hd). cbn [run obind].
  rewrite Hd, (bool_decide_ext (name_at si (vda_name v) = vi_name vi) (vi_name vi = name_at si (vda_name v)))
    by (split; congruence).
  destruct (bool_decide _); cbn [obind snd fst]; [done|apply IH].
Qed.

Definition version_name_ok (vi : option version_info) : Prop :=
  match vi with Some vi => cstring (vi_name vi) | None => True end.

Lemma find_verdef_version_index_spec si vi : strtab_ok si -> versions_ok si -> version_name_ok vi ->
  find_verdef_version_index si vi = Ok (version_wanted si vi).
Proof.
  intros Hs [Hv _] Hn. destruct vi as [vi|]; [|done]. unfold find_verdef_version_index.
  by rewrite for_each_verdef_spec.
Qed.

(** * One symbol *)

Section Symbol.
  Context (si : soinfo) (name : list Z) (vi : option version_info).
  Context (Hs : strtab_ok si) (Hv : versions_ok si) (Hname : cstring name).

Lemma symbol_matches_spec n : (n < length (symtab si))%nat ->
  symbol_matches si name (version_wanted si vi) n = Ok (provides si name vi n).
Proof.
  intros Hn. unfold symbol_matches, provides. rewrite check_symbol_version_spec by done. cbn [obind].
  destruct (lookup_lt_is_Some_2 _ _ Hn) as [s E]. unfold at_. rewrite E.
  destruct (version_visible _ _ n); cbn [negb]; [|by rewrite andb_false_r]. cbn [run obind].
  assert (Hp : (st_name s < length (strtab si))%nat) by (destruct Hs as (_ & _ & Hs'); by apply (Forall_lookup_1 _ _ _ _ Hs' E)).
  unfold get_string. destruct (Nat.leb_spec (length (strtab si)) (st_name s)); [lia|]. cbn [obind].
  destruct (strtab_split si (st_name s)) as (t & -> & Hc); [done..|].
  destruct (strcmp_eq _ t name [] Hc Hname) as (d & -> & Hd). cbn [run obind]. by rewrite Hd, andb_true_r.
Qed.

Lemma prefix_is_name p t : drop p (strtab si) = name_at si p ++ 0 :: t -> cstring (name_at si p) ->
  (p + length name + 1 <=? length (strtab si))%nat &&
    bool_decide (take (length name + 1) (drop p (strtab si)) = take (length name + 1) (name ++ [0]))
  = bool_decide (name_at si p = name).
Proof using Hname.
  intros Hd Hc. rewrite (take_ge (name ++ [0])) by (rewrite length_app; simpl; lia).
  destruct (decide (name_at si p = name)) as [He|Hne].
  - rewrite (bool_decide_true (name_at si p = name)) by done. apply andb_true_iff.
    pose proof (f_equal length Hd) as Hl. rewrite length_drop, length_app, He in Hl. simpl in Hl.
    split; [apply Nat.leb_le; lia|]. apply bool_decide_eq_true. rewrite Hd, He.
    change (name ++ 0 :: t) with (name ++ ([0] ++ t)). rewrite app_assoc, take_app_length'; [done|].
    by rewrite length_app.
  - rewrite (bool_decide_false (name_at si p = name)) by done. apply andb_false_iff. right.
    apply bool_decide_eq_false. intros He. apply Hne. unfold name_at.
    rewrite <-(take_drop (length name + 1) (drop p (strtab si))), He, <-app_assoc. by apply until_nul_cstring.
Qed.

Lemma symbol_matches_fast_spec n : name_fits name -> (n < length (symtab si))%nat ->
  symbol_matches_fast si name (length name) (version_wanted si vi) n = Ok (provides si name vi n).
Proof.
  intros Hfit Hn. unfold symbol_matches_fast, provides. rewrite check_symbol_version_spec by done. cbn [obind].
  assert (Z.to_nat (wrapU 32 (Z.of_nat (length name) + 1)) = (length name + 1)%nat) as -> by (unfold name_fits in Hfit; rewrite wrapU_small by lia; lia).
  destruct (lookup_lt_is_Some_2 _ _ Hn) as [s E]. unfold at_. rewrite E.
  destruct (version_visible _ _ n); cbn [negb]; [|by rewrite andb_false_r]. cbn [run obind].
  assert (Hp : (st_name s < length (strtab si))%nat) by (destruct Hs as (_ & _ & Hs'); by apply (Forall_lookup_1 _ _ _ _ Hs' E)).
  destruct (strtab_split si (st_name s)) as (t & Hd & Hc); [done..|].
  rewrite <-(prefix_is_name _ t) by done. rewrite andb_true_r.
  destruct (_ <=? _)%nat; done.
Qed.
End Symbol.

(** * The newer hash table *)

Lemma gnu_hash_nonneg name : 0 <= gnu_hash name.
Proof.
  unfold gnu_hash, calculate_gnu_hash_simple, fst. assert (H : 0 <= 5381) by lia. revert H. generalize 5381.
  induction name as [|c name IH]; intros h Hh; simpl; [done|]. apply IH. apply Z.mod_pos_bound. lia.
Qed.

Lemma chain_bits x e :
  let c := Z.shiftl (Z.shiftr x 1) 1 + b2z e in Z.land c 1 = b2z e /\ Z.shiftr c 1 = Z.shiftr x 1.
Proof.
  intros c. subst c. rewrite land_1, Z.shiftl_mul_pow2, !Z.shiftr_div_pow2 by lia.
  change (2 ^ 1) with 2. rewrite Z.add_comm, Z.mod_add, Z.div_add by lia. by destruct e.
Qed.

Lemma xor_matches c h : (Z.shiftr (Z.lxor c h) 1 =? 0) = (Z.shiftr c 1 =? Z.shiftr h 1).
Proof.
  rewrite Z.shiftr_lxor. apply eq_bool_prop_intro. rewrite !Is_true_true, !Z.eqb_eq. apply Z.lxor_eq_0_iff.
Qed.

Lemma find_seq_least f i n k : List.find f (seq i n) = Some k -> forall m, (i <= m < k)%nat -> f m = false.
Proof.
  revert i. induction n as [|n IH]; intros i; simpl; [done|]. destruct (f i) eqn:E.
  - intros [= ->] m Hm. lia.
  - intros H m Hm. destruct (decide (m = i)) as [->|]; [done|]. apply (IH (S i)); [done|lia].
Qed.

Section Gnu.
  Context (si : soinfo) (name : list Z) (vi : option version_info).
  Context (Hs : strtab_ok si) (Hv : versions_ok si) (Hname : cstring name) (Hvi : version_name_ok vi).
  Context (Hg : gnu_hash_ok si).

Lemma elem_hashed n : n ∈ hashed si <-> (gnu_symndx si <= n < length (symtab si))%nat.
Proof using Hg. unfold hashed. rewrite elem_of_seq. destruct (gnu_sizes _ Hg) as (_ & _ & _ & _ & _ & <-). done. Qed.

Lemma chain_at_spec n : n ∈ hashed si -> exists c,
  chain_at si n = Ok c /\ Z.land c 1 = b2z (ends_bucket si n) /\ Z.shiftr c 1 = Z.shiftr (symbol_hash si n) 1.
Proof using Hg.
  intros Hn. exists (Z.shiftl (Z.shiftr (symbol_hash si n) 1) 1 + b2z (ends_bucket si n)).
  split; [|apply chain_bits]. unfold hashed in Hn. apply elem_of_seq in Hn.
  unfold chain_at, at_. destruct (Nat.ltb_spec n (gnu_symndx si)); [lia|].
  rewrite (gnu_chains _ Hg), list_lookup_fmap. unfold hashed. rewrite lookup_seq_lt by lia. simpl.
  by replace (gnu_symndx si + (n - gnu_symndx si))%nat with n by lia.
Qed.

Lemma chain_at_hashed n c : chain_at si n = Ok c -> n ∈ hashed si.
Proof using Hg.
  unfold chain_at, at_. destruct (Nat.ltb_spec n (gnu_symndx si)); [done|].
  destruct (gnu_chain si !! _) eqn:E; [|done]. intros _. apply lookup_lt_Some in E. apply elem_of_seq. lia.
Qed.

Lemma provides_hashed n : provides si name vi n = true -> n ∈ hashed si /\ symbol_hash si n = gnu_hash name.
Proof using Hg.
  unfold provides. destruct (symtab si !! n) as [s|] eqn:E; [|done]. intros Hp.
  apply andb_true_iff in Hp as [[Hn _]%andb_true_iff Hd]. apply bool_decide_eq_true in Hn. split.
  - apply elem_hashed. split; [|by eapply lookup_lt_Some].
    destruct (Nat.le_gt_cases (gnu_symndx si) n) as [|Hlt]; [done|].
    assert (Ht : take (gnu_symndx si) (symtab si) !! n = Some s) by by rewrite lookup_take_lt.
    pose proof (Forall_lookup_1 _ _ _ _ (gnu_undefined _ Hg) Ht). simpl in *. congruence.
  - unfold symbol_hash. by rewrite E, Hn.
Qed.

Lemma provides_bucket n : provides si name vi n = true -> symbol_bucket si n = gnu_hash name mod gnu_nbucket si.
Proof using Hg. intros [_ H]%provides_hashed. unfold symbol_bucket. by rewrite H. Qed.

Lemma hash_filters n c : n ∈ hashed si -> chain_at si n = Ok c ->
  (Z.shiftr c 1 =? Z.shiftr (gnu_hash name) 1) = false -> provides si name vi n = false.
Proof using Hg.
  intros Hn Hc Hne. destruct (provides si name vi n) eqn:E; [|done]. apply provides_hashed in E as [_ Hh].
  destruct (chain_at_spec n Hn) as (c' & Hc' & _ & Hsh). rewrite Hc in Hc'. injection Hc' as <-.
  rewrite Hsh, Hh, Z.eqb_refl in Hne. done.
Qed.

(** The least symbol from [n] on that answers. *)
Definition first_from (n : nat) (r : option nat) : Prop :=
  match r with
  | Some m => (n <= m)%nat /\ provides si name vi m = true /\ forall k, (n <= k < m)%nat -> provides si name vi k = false
  | None => forall k, (n <= k)%nat -> provides si name vi k = false
  end.

Lemma first_from_here n : provides si name vi n = true -> first_from n (Some n).
Proof. intros H. split_and!; [lia|done|]. intros k Hk. lia. Qed.

Lemma first_from_next n n' r : (n <= n')%nat -> (forall k, (n <= k < n')%nat -> provides si name vi k = false) ->
  first_from n' r -> first_from n r.
Proof.
  intros Hle Hn. destruct r as [m|]; simpl.
  - intros (Hm & Hp & Hk). split_and!; [lia|done|]. intros k Hkm.
    destruct (Nat.lt_ge_cases k n'); [apply Hn; lia|apply Hk; lia].
  - intros Hk k Hkn. destruct (Nat.lt_ge_cases k n'); [apply Hn; lia|by apply Hk].
Qed.

(** Past the end of a bucket there is no symbol of the bucket. *)
Lemma bucket_ends n k : n ∈ hashed si -> ends_bucket si n = true -> (n < k)%nat ->
  symbol_bucket si n = gnu_hash name mod gnu_nbucket si -> provides si name vi k = false.
Proof using Hg.
  intros Hn He Hk Hb. destruct (provides si name vi k) eqn:E; [|done].
  pose proof (provides_bucket _ E) as Hbk. apply provides_hashed in E as [Hkh _].
  pose proof Hn as Hn'. pose proof Hkh as Hkh'. apply elem_hashed in Hn', Hkh'.
  unfold ends_bucket in He. destruct (Nat.eqb_spec (S n) (length (symtab si))); [lia|].
  simpl in He. apply negb_true_iff, Z.eqb_neq in He.
  assert (HSn : S n ∈ hashed si) by (apply elem_hashed; lia).
  pose proof (gnu_ordered _ Hg) as Hord. rewrite Forall_forall in Hord.
  pose proof (proj1 (Forall_forall _ _) (Hord n Hn) (S n) HSn).
  pose proof (proj1 (Forall_forall _ _) (Hord (S n) HSn) k Hkh). simpl in *. lia.
Qed.

Lemma gnu_lookup_loop_spec fuel n : n ∈ hashed si -> (length (symtab si) - n <= fuel)%nat ->
  symbol_bucket si n = gnu_hash name mod gnu_nbucket si ->
  exists r, gnu_lookup_loop fuel si name (gnu_hash name) (version_wanted si vi) n = Ok r /\ first_from n r.
Proof using Hs Hv Hname Hg.
  revert n. induction fuel as [|fuel IH]; intros n Hn Hf Hb; pose proof Hn as Hr; apply elem_hashed in Hr; [lia|].
  simpl. destruct (chain_at_spec n Hn) as (c & Hc & Hlow & _). rewrite Hc. cbn [obind]. rewrite xor_matches.
  assert (Hfound : (if Z.shiftr c 1 =? Z.shiftr (gnu_hash name) 1
                    then symbol_matches si name (version_wanted si vi) n else Ok false) = Ok (provides si name vi n)).
  { destruct (_ =? _) eqn:E; [apply symbol_matches_spec; [done..|lia]|]. by rewrite (hash_filters n c Hn Hc E). }
  rewrite Hfound. cbn [obind]. destruct (provides si name vi n) eqn:E.
  { exists (Some n). split; [done|]. by apply first_from_here. }
  rewrite Hlow. destruct (ends_bucket si n) eqn:He; cbn [b2z Z.eqb].
  - exists None. split; [done|]. intros k Hk. destruct (decide (k = n)) as [->|]; [done|].
    apply (bucket_ends n); [done..|lia|done].
  - pose proof He as He'. unfold ends_bucket in He'. apply orb_false_iff in He' as [Hlast Hsame].
    apply Nat.eqb_neq in Hlast. apply negb_false_iff, Z.eqb_eq in Hsame.
    destruct (IH (S n)) as (r & Hr' & Hfirst); [apply elem_hashed; lia|lia|congruence|].
    exists r. split; [done|]. apply (first_from_next n (S n)); [lia| |done]. intros k Hk. by replace k with n by lia.
Qed.

(** The loop that looks the version up on demand and compares with memcmp is the loop of gnu_lookup. *)
Lemma do_lookup_chain_eq fuel n verneed (calculated : bool) : name_fits name ->
  (if calculated then verneed = version_wanted si vi else verneed = kVersymNotNeeded) ->
  do_lookup_chain fuel si name (length name) (gnu_hash name) vi verneed calculated n
  = gnu_lookup_loop fuel si name (gnu_hash name) (version_wanted si vi) n.
Proof using Hs Hv Hname Hvi Hg.
  intros Hfit. revert n verneed calculated. induction fuel as [|fuel IH]; intros n verneed calculated Hver; [done|]. simpl.
  destruct (chain_at si n) as [c| |] eqn:Hc; [|done..]. cbn [obind]. rewrite xor_matches.
  pose proof (chain_at_hashed _ _ Hc) as Hn. apply elem_hashed in Hn as [_ Hn].
  destruct (_ =? _).
  - match goal with |- obind (obind ?x _) _ = _ => set (v := x) end.
    assert (Hv' : exists b, v = Ok (version_wanted si vi, b) /\ (if b then True else version_wanted si vi = kVersymNotNeeded)).
    { subst v. destruct vi as [vi'|] eqn:Evi.
      - exists true. destruct calculated; [by subst|]. by rewrite find_verdef_version_index_spec by done.
      - exists calculated. split; [|by destruct calculated]. by destruct calculated; subst. }
    destruct Hv' as (b & -> & Hb). cbn [obind fst snd]. rewrite symbol_matches_fast_spec, symbol_matches_spec by done.
    cbn [obind]. destruct (provides si name vi n); [done|]. destruct (_ =? 0); [|done]. apply IH. by destruct b.
  - cbn [obind]. destruct (_ =? 0); [|done]. by apply IH.
Qed.

Lemma bloom_test_total h : 0 <= h -> exists b, bloom_test si h = Ok b.
Proof using Hg.
  intros Hh. destruct (gnu_sizes _ Hg) as (_ & Hsh & Hm & Hl & _). unfold bloom_test, at_.
  pose proof (land_le (h / kBloomMaskBits) (gnu_maskwords si)) as Hub.
  assert (0 <= h / kBloomMaskBits) by (apply Z.div_pos; lia).
  assert (0 <= Z.land (h / kBloomMaskBits) (gnu_maskwords si)) by (apply Z.land_nonneg; lia).
  destruct (lookup_lt_is_Some_2 (gnu_bloom_filter si) (Z.to_nat (Z.land (h / kBloomMaskBits) (gnu_maskwords si)))) as [w ->]; [lia|].
  cbn [run obind]. destruct (Z.leb_spec 32 (gnu_shift2 si)); [lia|]. eauto.
Qed.

Lemma gnu_first_spec : exists k, gnu_first si (gnu_hash name) = Ok k /\
  (k = 0%nat -> forall n, provides si name vi n = false) /\
  (k <> 0%nat -> k ∈ hashed si /\ symbol_bucket si k = gnu_hash name mod gnu_nbucket si /\
               forall n, (n < k)%nat -> provides si name vi n = false).
Proof using Hg.
  destruct (gnu_sizes _ Hg) as (Hnb & _ & _ & _ & Hx & _).
  pose proof (Z.mod_pos_bound (gnu_hash name) (gnu_nbucket si) Hnb) as Hm.
  set (b := Z.to_nat (gnu_hash name mod gnu_nbucket si)). exists (first_of_bucket si b).
  split.
  { unfold gnu_first, at_. destruct (Z.eqb_spec (gnu_nbucket si) 0); [lia|]. fold b.
    rewrite (gnu_buckets _ Hg), list_lookup_fmap, lookup_seq_lt by lia. done. }
  assert (Hb : Z.of_nat b = gnu_hash name mod gnu_nbucket si) by lia.
  unfold first_of_bucket. destruct (List.find _ _) as [k|] eqn:E.
  - pose proof (List.find_some _ _ E) as [Hin Hk]. apply Z.eqb_eq in Hk.
    apply list_elem_of_In, elem_hashed in Hin as Hin'. split; [lia|]. intros _. split_and!; [by apply elem_hashed|congruence|].
    intros n Hn. destruct (provides si name vi n) eqn:Hp; [|done].
    pose proof (provides_bucket _ Hp) as Hbn. apply provides_hashed in Hp as [Hnh _].
    apply elem_hashed in Hnh. pose proof (find_seq_least _ _ _ _ E n ltac:(lia)) as Hne. simpl in Hne.
    apply Z.eqb_neq in Hne. congruence.
  - split; [|done]. intros _ n. destruct (provides si name vi n) eqn:Hp; [|done].
    pose proof (provides_bucket _ Hp) as Hbn. apply provides_hashed in Hp as [Hnh _].
    apply list_elem_of_In in Hnh. pose proof (List.find_none _ _ E _ Hnh) as Hne. simpl in Hne.
    apply Z.eqb_neq in Hne. congruence.
Qed.

(** The three ways a search of the table can go. *)
Lemma gnu_search :
  (bloom_test si (gnu_hash name) = Ok false /\ first_from 0 None) \/
  (bloom_test si (gnu_hash name) = Ok true /\ exists k, gnu_first si (gnu_hash name) = Ok k /\
     if (k =? 0)%nat then first_from 0 None else exists r,
       gnu_lookup_loop (length (gnu_chain si)) si name (gnu_hash name) (version_wanted si vi) k = Ok r /\
       first_from 0 r).
Proof using Hs Hv Hname Hg.
  destruct (bloom_test_total _ (gnu_hash_nonneg name)) as [[] Hb].
  - right. split; [done|]. destruct gnu_first_spec as (k & Hk & Hzero & Hpos). exists k. split; [done|].
    destruct (Nat.eqb_spec k 0) as [->|Hne]; [intros n _; by apply Hzero|].
    destruct (Hpos Hne) as (Hh & Hbucket & Hbefore).
    destruct (gnu_lookup_loop_spec (length (gnu_chain si)) k) as (r & Hr & Hfirst); [done| |done|].
    { apply elem_hashed in Hh. destruct (gnu_sizes _ Hg) as (_ & _ & _ & _ & _ & Hl). lia. }
    exists r. split; [done|]. apply (first_from_next 0 k); [lia| |done]. intros m Hm. apply Hbefore. lia.
  - left. split; [done|]. intros n _. destruct (provides si name vi n) eqn:Hp; [|done].
    apply provides_hashed in Hp as [Hh Heq].
    pose proof (proj1 (Forall_forall _ _) (gnu_bloom _ Hg) n Hh) as Hbn. simpl in Hbn. rewrite Heq in Hbn. congruence.
Qed.

Lemma gnu_lookup_spec : exists r, gnu_lookup si name vi = Ok r /\ first_from 0 r.
Proof using Hs Hv Hname Hvi Hg.
  unfold gnu_lookup. fold (gnu_hash name). destruct gnu_search as [[-> Hn]|[-> (k & -> & Hk)]]; cbn [obind negb].
  - by exists None.
  - destruct (k =? 0)%nat; [by exists None|]. rewrite find_verdef_version_index_spec by done. apply Hk.
Qed.
End Gnu.

(** * The older hash table *)

Section Sysv.
  Context (si : soinfo) (name : list Z) (vi : option version_info).
  Context (Hs : strtab_ok si) (Hv : versions_ok si) (Hname : cstring name) (Hvi : version_name_ok vi).
  Context (Hg : sysv_hash_ok si).

Lemma elf_lookup_loop_spec fuel n l : sysv_chain fuel si n = Some l -> exists r,
  elf_lookup_loop fuel si name (version_wanted si vi) n = Ok r /\
  match r with Some m => provides si name vi m = true | None => forall m, m ∈ l -> provides si name vi m = false end.
Proof using Hs Hv Hname Hg.
  revert n l. induction fuel as [|fuel IH]; intros n l; simpl; destruct (n =? 0)%nat; [|done| |].
  1, 2: intros [= <-]; exists None; split; [done|]; intros m Hm; by apply elem_of_nil in Hm.
  unfold at_. destruct (chain si !! n) as [next|] eqn:En; [|done]. cbn [mbind option_bind].
  destruct (sysv_chain fuel si next) as [l'|] eqn:El; [|done]. intros [= <-].
  rewrite symbol_matches_spec; [|done..|].
  2: { apply lookup_lt_Some in En. destruct (sysv_sizes _ Hg) as (_ & <- & _). done. }
  cbn [obind]. destruct (provides si name vi n) eqn:E; [by exists (Some n)|]. cbn [run obind].
  destruct (IH next l' El) as (r & Hr & Hspec). exists r. split; [done|].
  destruct r as [m|]; [done|]. intros m [->|Hm]%elem_of_cons; [done|by apply Hspec].
Qed.

Lemma elf_lookup_spec : exists r, elf_lookup si name vi = Ok r /\
  match r with Some m => provides si name vi m = true | None => forall m, provides si name vi m = false end.
Proof using Hs Hv Hname Hvi Hg.
  unfold elf_lookup. rewrite find_verdef_version_index_spec by done. cbn [obind].
  destruct (sysv_sizes _ Hg) as (Hnb & _ & Hb). destruct (Z.eqb_spec (nbucket si) 0); [lia|].
  pose proof (Z.mod_pos_bound (calculate_elf_hash name) (nbucket si) Hnb) as Hm.
  set (b := Z.to_nat (calculate_elf_hash name mod nbucket si)).
  destruct (lookup_lt_is_Some_2 (bucket si) b) as [first Hfirst]; [lia|]. unfold at_. rewrite Hfirst. cbn [run obind].
  destruct (sysv_chains _ Hg b first Hfirst) as (l & Hl & Hin).
  destruct (elf_lookup_loop_spec _ _ _ Hl) as (r & Hr & Hspec). exists r. split; [done|].
  destruct r as [m|]; [done|]. intros m. destruct (provides si name vi m) eqn:Hp; [|done].
  rewrite <-Hp. apply Hspec. unfold provides in Hp. destruct (symtab si !! m) as [s|] eqn:E; [|done].
  apply andb_true_iff in Hp as [[Hn _]%andb_true_iff Hd]. apply bool_decide_eq_true in Hn.
  apply (Hin m s E); [|rewrite Hn; lia]. intros ->. rewrite (sysv_null _ Hg s E) in Hd. done.
Qed.
End Sysv.

(** * The libraries in order *)

Lemma resolves_here si libs name vi n : provides si name vi n = true ->
  (is_gnu_hash si = true -> forall m, (m < n)%nat -> provides si name vi m = false) ->
  resolves (si :: libs) name vi (Some (si, n)).
Proof. intros Hp Hm. exists [], libs. split_and!; [done..| |done]. intros lib m H. by apply elem_of_nil in H. Qed.

Lemma resolves_next si libs name vi r : (forall m, provides si name vi m = false) ->
  resolves libs name vi r -> resolves (si :: libs) name vi r.
Proof.
  intros Hsi. destruct r as [[si' n]|]; simpl.
  - intros (before & after & -> & Hp & Hb & Hm). exists (si :: before), after. split_and!; [done..| |done].
    intros lib m [->|H]%elem_of_cons; [done|by apply Hb].
  - intros H lib m [->|Hin]%elem_of_cons; [done|by apply H].
Qed.

Lemma do_lookup_loop_spec (IsGeneral : bool) name vi libs : cstring name -> name_fits name -> version_name_ok vi -> Forall lib_ok libs ->
  (IsGeneral = false -> Forall (fun si => is_gnu_hash si = true) libs) ->
  exists r, do_lookup_loop IsGeneral name (gnu_hash name) (length name) vi (Some <$> libs) = Ok r /\
            resolves libs name vi r.
Proof.
  intros Hname Hfit Hvi. induction 1 as [|si libs (Hs & Hv & Hok) Hlibs IH]; intros Hgen.
  { exists None. split; [done|]. intros lib m H. by apply elem_of_nil in H. }
  destruct IH as (rest & Hrest & Hspec); [intros E; by apply Hgen in E as [_ ?]%Forall_cons|].
  rewrite fmap_cons. cbn [do_lookup_loop needs_sysv_lookup].
  destruct (is_gnu_hash si) eqn:Eg; cbn [negb].
  - rewrite andb_false_r. destruct (gnu_search si name vi Hs Hv Hname Hok) as [[-> Hn]|[-> (k & -> & Hk)]]; cbn [obind negb].
    { exists rest. split; [done|]. apply resolves_next; [|done]. intros m. apply Hn. lia. }
    destruct (k =? 0)%nat.
    { exists rest. split; [done|]. apply resolves_next; [|done]. intros m. apply Hk. lia. }
    rewrite do_lookup_chain_eq by done. destruct Hk as (r & -> & Hr). cbn [obind]. destruct r as [n|].
    + exists (Some (si, n)). split; [done|]. destruct Hr as (_ & Hp & Hm). apply resolves_here; [done|].
      intros _ m Hlt. apply Hm. lia.
    + exists rest. split; [done|]. apply resolves_next; [|done]. intros m. apply Hr. lia.
  - destruct IsGeneral; cbn [andb]; [|specialize (Hgen eq_refl); apply Forall_cons in Hgen as [? _]; congruence].
    unfold find_symbol_by_name. rewrite Eg. destruct (elf_lookup_spec si name vi Hs Hv Hname Hvi Hok) as ([n|] & -> & Hr); cbn [obind].
    + exists (Some (si, n)). split; [done|]. apply resolves_here; [done|]. congruence.
    + exists rest. split; [done|]. by apply resolves_next.
Qed.

Lemma push_libs libs l c :
  fold_left push_lib libs (l, c) = (l ++ (Some <$> libs), c + cnt needs_sysv_lookup (Some <$> libs)).
Proof.
  revert l c. induction libs as [|si libs IH]; intros l c; simpl; [by rewrite app_nil_r, Z.add_0_r|].
  unfold push_lib at 2. cbn [fst snd]. rewrite IH, <-app_assoc. f_equal. apply eq_sym, Z.add_assoc.
Qed.

Lemma cnt_option lib : cnt needs_sysv_lookup (Some <$> option_list lib) = b2z (needs_sysv_lookup lib).
Proof. destruct lib; simpl; lia. Qed.

(** slow_path_count_ counts the libraries that need the older lookup. *)
Lemma lookup_list_inv tracing l first libs : lookup_list tracing l first libs ->
  let order := Some <$> (option_list first ++ libs) in
  lookup_range l = order /\ slow_path_count_ l = b2z tracing + cnt needs_sysv_lookup order /\
  (libs_ l = [] \/ libs_ l = first :: (Some <$> libs)).
Proof.
  induction 1 as [si|global local|l old libs lib l' Hl IH Hset]; simpl.
  - split_and!; [done|lia|by left].
  - unfold lookup_list_of_groups. rewrite !push_libs. simpl. rewrite fmap_app. split_and!; [done| |by right].
    rewrite cnt_app. lia.
  - destruct IH as (_ & Hc & [E|E]); unfold set_dt_symbolic_lib in Hset; rewrite E in Hset; [done|].
    injection Hset as <-. unfold lookup_range. simpl. rewrite Hc. split_and!.
    + by destruct lib.
    + rewrite !fmap_app, !cnt_app, !cnt_option. lia.
    + by right.
Qed.

(** C3: for every name shorter than 2^32 - 1 bytes and every list of libraries the linker makes, with or without a library with DT_SYMBOLIC in
    front and with or without tracing, soinfo_do_lookup returns, and what it returns is the answer
    of a linear search of the symbol tables in the order of the list: the first library that has a
    global or weak definition of the name with the version asked for, and in a library with the
    newer hash table the first such symbol.  The Bloom filter, the buckets, the chains, the version
    that is looked up on demand and the comparison with memcmp skip nothing and add nothing, and
    the path for lists without the older tables is taken only for such lists. *)
Theorem symbol_lookup_correct tracing l first libs name vi :
  lookup_list tracing l first libs -> Forall lib_ok (option_list first ++ libs) ->
  cstring name -> name_fits name -> version_name_ok vi ->
  exists r, soinfo_do_lookup name vi l = Ok r /\ resolves (option_list first ++ libs) name vi r.
Proof.
  intros Hl Hok Hname Hfit Hvi. destruct (lookup_list_inv _ _ _ _ Hl) as (Hr & Hc & _).
  unfold soinfo_do_lookup, soinfo_do_lookup_impl, needs_slow_path, calculate_gnu_hash_simple.
  rewrite Hr, wrapU_small, Nat2Z.id by (unfold name_fits in Hfit; lia). simpl. fold (gnu_hash name).
  destruct (Z.gtb_spec (slow_path_count_ l) 0).
  - apply do_lookup_loop_spec; done.
  - apply do_lookup_loop_spec; [done..|]. intros _. rewrite Hc in *.
    pose proof (cnt_nonneg needs_sysv_lookup (Some <$> (option_list first ++ libs))).
    apply Forall_lookup. intros i si Hi. apply negb_false_iff.
    apply (cnt_zero_lookup needs_sysv_lookup (Some <$> (option_list first ++ libs)) i (Some si)).
    + destruct tracing; simpl b2z in *; lia.
    + by rewrite list_lookup_fmap, Hi.
Qed.

(** ** An example *)

(** The strings "foo", "bar" and "V1". *)
Definition example_strtab : list Z := [0; 102; 111; 111; 0; 98; 97; 114; 0; 86; 49; 0].

(** A library with the newer hash table, "bar", a hidden version of "foo" and its default. *)
Definition example_gnu : soinfo := {|
  strtab := example_strtab;
  symtab := [mk_sym 0 0 0; mk_sym 5 16 7; mk_sym 1 16 7; mk_sym 1 32 7];
  versym := Some [0; 1; 0x8002; 3];
  verdefs := [mk_verdef 1 1 1 1 0 5; mk_verdef 1 0 1 2 1425 9; mk_verdef 1 0 1 3 99 1];
  is_gnu_hash := true; gnu_nbucket := 2; gnu_maskwords := 1; gnu_shift2 := 5;
  gnu_bloom_filter := [2 ^ 5 + 2 ^ 9 + 2 ^ 28 + 2 ^ 58; 0];
  gnu_bucket := [1; 2]%nat; gnu_symndx := 1; gnu_chain := [193487035; 193491848; 193491849];
  nbucket := 0; bucket := []; chain := [] |}.

(** A library with the older hash table and "bar". *)
Definition example_sysv : soinfo := {|
  strtab := example_strtab; symtab := [mk_sym 0 0 0; mk_sym 5 16 7]; versym := None; verdefs := [];
  is_gnu_hash := false; gnu_nbucket := 0; gnu_maskwords := 0; gnu_shift2 := 0;
  gnu_bloom_filter := []; gnu_bucket := []; gnu_symndx := 0; gnu_chain := [];
  nbucket := 1; bucket := [1]%nat; chain := [0; 0]%nat |}.

Lemma example_strtab_ok si : strtab si = example_strtab ->
  forallb (fun s => (st_name s <? 12)%nat) (symtab si) = true -> strtab_ok si.
Proof.
  intros E H. unfold strtab_ok. rewrite E. split_and!; [done|repeat constructor; lia|].
  apply Forall_forall. intros s Hs.
  apply Is_true_true, forallb_True in H. rewrite Forall_forall in H. specialize (H s Hs).
  apply Is_true_true, Nat.ltb_lt in H. done.
Qed.

Lemma example_gnu_ok : lib_ok example_gnu.
Proof.
  split_and!; [by apply example_strtab_ok|..].
  - split; [|split; [done|repeat constructor; lia]].
    repeat constructor; simpl; try lia; try (by left); by right.
  - constructor.
    + simpl. split_and!; done || lia.
    + by repeat constructor.
    + apply (bool_decide_unpack _). vm_compute. done.
    + vm_compute. done.
    + vm_compute. done.
    + repeat constructor.
Qed.

Lemma example_sysv_ok : lib_ok example_sysv.
Proof.
  split_and!; [by apply example_strtab_ok|by repeat constructor|].
  constructor; [by simpl|by intros s [= <-]|].
  intros [|b] first; [|done]. intros [= <-]. exists [1%nat]. split; [done|].
  intros [|[|n]] s; [done|by left|done].
Qed.

Lemma symbol_lookup_correct_witness :
  let l := lookup_list_of_groups false [example_sysv] [example_gnu] in
  let foo := [102; 111; 111] in
  let vi := Some (mk_version_info 1425 [86; 49]) in
  soinfo_do_lookup foo vi l = Ok (Some (example_gnu, 2%nat)) /\
  soinfo_do_lookup foo None l = Ok (Some (example_gnu, 3%nat)) /\
  exists r, soinfo_do_lookup foo vi l = Ok r /\ resolves [example_sysv; example_gnu] foo vi r.
Proof.
  split_and!; [vm_compute; done..|].
  apply (symbol_lookup_correct false (lookup_list_of_groups false [example_sysv] [example_gnu]) None
           [example_sysv; example_gnu]).
  - apply (list_groups false [example_sysv] [example_gnu]).
  - constructor; [apply example_sysv_ok|]. constructor; [apply example_gnu_ok|constructor].
  - repeat constructor; lia.
  - reflexivity.
  - repeat constructor; lia.
Defined.
