(* ===== verification/LinkerUtils.v ===== *)
(** Paths in the linker: linker/linker_utils.cpp.

    Paths are C strings, lists with their terminator; a std::string is the list without it.  The
    theorems describe the normal form of a path by its components, say that a normalized path goes
    nowhere up, and say where the path of a library inside a zip file is cut. *)

From S2P Require Import Prelude Result CString StrTok Fortify StrStr.

(** * Definitions *)

Definition SLASH : Z := 47.
Definition DOT : Z := 46.

(** The buffer of normalize_path has [len] bytes; [out] are those written, the last one first. *)
Definition put_out (len : nat) (out : list Z) (c : Z) : result (list Z) :=
  if (length out <? len)%nat then Ok (c :: out) else Fault.

(** [while (out_ptr > buf && *--out_ptr != '/')] *)
Fixpoint back (out : list Z) : list Z :=
  match out with [] => [] | c :: out => if c =? SLASH then out else back out end.

Fixpoint normalize_loop (fuel len : nat) (in_ptr out : list Z) : result (list Z) :=
  match fuel with
  | O => Fault
  | S fuel =>
      c0 <-- at_ in_ptr 0 ;;
      if c0 =? 0 then Ok out else
      let copy := out <-- put_out len out c0 ;; normalize_loop fuel len (drop 1 in_ptr) out in
      if c0 =? SLASH then
        c1 <-- at_ in_ptr 1 ;;
        if c1 =? DOT then
          c2 <-- at_ in_ptr 2 ;;
          if c2 =? SLASH then normalize_loop fuel len (drop 2 in_ptr) out
          else if c2 =? DOT then
            c3 <-- at_ in_ptr 3 ;;
            if (c3 =? SLASH) || (c3 =? 0) then
              let out := back out in
              if c3 =? 0 then out <-- put_out len out SLASH ;; normalize_loop fuel len (drop 3 in_ptr) out
              else normalize_loop fuel len (drop 3 in_ptr) out
            else copy
          else copy
        else if c1 =? SLASH then normalize_loop fuel len (drop 1 in_ptr) out
        else copy
      else copy
  end.

(** [None] for false. *)
Definition normalize_path (path : list Z) : result (option (list Z)) :=
  c <-- at_ path 0 ;;
  if negb (c =? SLASH) then Ok None else
  n <-- run (strlen path) ;;
  let len := (n + 1)%nat in
  out <-- normalize_loop (length path) len path [] ;;
  out <-- put_out len out 0 ;;
  Ok (Some (until_nul (rev out))).

Definition dirname (path : list Z) : result (list Z) :=
  last_slash <-- strrchr path SLASH ;;
  match last_slash with
  | Some O => Ok [SLASH]
  | None => Ok [DOT]
  | Some n => Ok (take n path)
  end.

Definition file_is_under_dir (file dir : list Z) : result bool :=
  let needle := dir ++ [0] in
  let haystack := file ++ [0] in
  needle_len <-- run (strlen needle) ;;
  d <-- run (strncmp haystack needle needle_len) ;;
  if negb (d =? 0) then Ok false else
  c <-- at_ haystack needle_len ;; Ok (c =? SLASH).

Definition file_is_in_dir (file dir : list Z) : result bool :=
  let needle := dir ++ [0] in
  let haystack := file ++ [0] in
  needle_len <-- run (strlen needle) ;;
  d <-- run (strncmp haystack needle needle_len) ;;
  if negb (d =? 0) then Ok false else
  c <-- at_ haystack needle_len ;;
  if negb (c =? SLASH) then Ok false else
  s <-- strchr (drop (needle_len + 1) haystack) SLASH ;; Ok (match s with None => true | Some _ => false end).

Abbreviation kZipFileSeparator := [33; 47].

(** The paths of the file and of the entry; [buf] is the array on the stack. *)
Definition parse_zip_path (buf input_path : list Z) : result (option (list Z * list Z)) :=
  normalized <-- normalize_path input_path ;;
  match normalized with
  | None => Ok None
  | Some normalized_path =>
      let path := normalized_path ++ [0] in
      separator <-- strstr path (kZipFileSeparator ++ [0]) ;;
      match separator with
      | None => Ok None
      | Some separator =>
          r <-- run (strlcpy buf path 512) ;;
          if (512 <=? r.2)%nat then Ok None else
          let i := Z.to_nat separator in
          if (i <? length r.1)%nat then
            let buf := <[i := 0]> r.1 in
            Ok (Some (until_nul buf, until_nul (drop (i + 2) buf)))
          else Fault
      end
  end.

(** ** Substitution of parameters *)

(** [str.substr(pos, len)] and [str.replace(pos, len, by)], for [pos] within the string. *)
Definition substr (str : list Z) (pos len : nat) : list Z := take len (drop pos str).
Definition replace (str : list Z) (pos len : nat) (by_ : list Z) : list Z := take pos str ++ by_ ++ drop (pos + len) str.

Definition DOLLAR : Z := 36.

(** The index of the next dollar sign. *)
Fixpoint find_dollar (s : list Z) (pos : nat) : option nat :=
  match s with [] => None | c :: s => if c =? DOLLAR then Some pos else find_dollar s (S pos) end.

(** The loop over the parameters: the new string and position, before [++pos], which undoes the -1. *)
Fixpoint try_params (params : list (list Z * list Z)) (str : list Z) (pos : nat) : list Z * Z :=
  match params with
  | [] => (str, Z.of_nat pos)
  | (token, replacement) :: params =>
      if bool_decide (substr str (pos + 1) (length token) = token) then
        (replace str pos (length token + 1) replacement, wrapU 64 (Z.of_nat pos + wrapU 64 (Z.of_nat (length replacement) - 1)))
      else if bool_decide (substr str (pos + 1) (length token + 2) = [123] ++ token ++ [125]) then
        (replace str pos (length token + 3) replacement, wrapU 64 (Z.of_nat pos + wrapU 64 (Z.of_nat (length replacement) - 1)))
      else try_params params str pos
  end.

Fixpoint format_loop (fuel : nat) (params : list (list Z * list Z)) (str : list Z) (pos : nat) : result (list Z) :=
  match fuel with
  | O => Fault
  | S fuel =>
      if (pos <? length str)%nat then
        match find_dollar (drop pos str) pos with
        | None => Ok str
        | Some pos => let '(str, pos) := try_params params str pos in format_loop fuel params str (Z.to_nat (wrapU 64 (pos + 1)))
        end
      else Ok str
  end.

Definition format_string (str : list Z) (params : list (list Z * list Z)) : result (list Z) :=
  format_loop (length str + 1) params str 0.

(** * Specification *)

(** The components of a path are the fields between slashes.  An empty component and a dot are
    left out and two dots remove the component before them; but the last component stays, as a
    trailing slash if it is empty or two dots.  [stack] has the components so far, the last first. *)
Fixpoint resolve (stack comps : list (list Z)) : list (list Z) :=
  match comps with
  | [] => stack
  | [c] => if bool_decide (c = [DOT; DOT]) then [] :: tail stack else c :: stack
  | c :: comps =>
      resolve (if bool_decide (c = [] \/ c = [DOT]) then stack
               else if bool_decide (c = [DOT; DOT]) then tail stack else c :: stack) comps
  end.

(** The bytes of a path, the last one first. *)
Fixpoint out_of (stack : list (list Z)) : list Z :=
  match stack with [] => [] | c :: stack => rev c ++ SLASH :: out_of stack end.

Definition normal_form (rest : list Z) : list (list Z) := resolve [] (fields [SLASH] rest).

Definition render (stack : list (list Z)) : list Z := rev (out_of stack).

(** The expansion of parameters: each dollar sign that is followed by the name of a parameter, or by
    the name in braces, is replaced, and the replacement is not looked at again. *)
Fixpoint match_param (params : list (list Z * list Z)) (s : list Z) : option (list Z * nat) :=
  match params with
  | [] => None
  | (token, replacement) :: params =>
      if bool_decide (take (length token) s = token) then Some (replacement, length token)
      else if bool_decide (take (length token + 2) s = [123] ++ token ++ [125]) then Some (replacement, (length token + 2)%nat)
      else match_param params s
  end.

Fixpoint expand (fuel : nat) (params : list (list Z * list Z)) (s : list Z) : list Z :=
  match fuel, s with
  | S fuel, c :: s =>
      if c =? DOLLAR then
        match match_param params s with
        | Some (replacement, k) => replacement ++ expand fuel params (drop k s)
        | None => c :: expand fuel params s
        end
      else c :: expand fuel params s
  | _, _ => []
  end.

(** * Normal forms *)

Lemma back_component c stack : no_delim [SLASH] c -> back (rev c ++ SLASH :: out_of stack) = out_of stack.
Proof.
  intros Hc. apply Forall_rev in Hc. induction Hc as [|x c' Hx Hc' IH]; [done|]. simpl.
  destruct (Z.eqb_spec x SLASH) as [->|]; [|done]. destruct Hx. by left.
Qed.

Lemma back_out stack : Forall (no_delim [SLASH]) stack -> back (out_of stack) = out_of (tail stack).
Proof. destruct 1 as [|c stack Hc Hs]; [done|]. simpl. by apply back_component. Qed.

Lemma out_of_tail stack : (length (out_of (tail stack)) <= length (out_of stack))%nat.
Proof. destruct stack as [|c stack]; simpl; [lia|]. rewrite length_app. simpl. lia. Qed.

(** Bytes that are no slash are copied. *)
Lemma copy_bytes w fuel len in_ptr out : cstring w -> no_delim [SLASH] w -> (length w + length out <= len)%nat ->
  normalize_loop (length w + fuel) len (w ++ in_ptr) out = normalize_loop fuel len in_ptr (rev w ++ out).
Proof.
  intros Hw Hs. revert out. induction Hw as [|c w Hc Hw IH]; intros out Hl; [done|].
  apply Forall_cons in Hs as [Hns Hs]. simpl in Hl. cbn [length Nat.add normalize_loop app]. unfold at_. cbn [lookup list_lookup run obind].
  destruct (Z.eqb_spec c 0); [lia|]. destruct (Z.eqb_spec c SLASH) as [->|]; [destruct Hns; by left|].
  unfold put_out. destruct (Nat.ltb_spec (length out) len); [|lia]. cbn [obind drop]. rewrite IH by (done || (simpl; lia)).
  f_equal. simpl. by rewrite <-app_assoc.
Qed.

(** A component that is copied with its slash. *)
Lemma copy_component c rest fuel len out : cstring c -> no_delim [SLASH] c ->
  (hd 1 rest = 0 \/ hd 1 rest = SLASH) -> c <> [DOT; DOT] -> (hd 1 rest = SLASH -> c <> [] /\ c <> [DOT]) ->
  (S (length c) + length out <= len)%nat ->
  normalize_loop (S (length c) + fuel) len (SLASH :: c ++ rest) out = normalize_loop fuel len rest (rev c ++ SLASH :: out).
Proof.
  intros Hc Hs Hend Hdd Hnext Hl. destruct rest as [|r rest]; [simpl in Hend; destruct Hend; discriminate|]. simpl in Hend, Hnext.
  assert (Hcopy : (o <-- put_out len out SLASH ;; normalize_loop (length c + fuel) len (c ++ r :: rest) o)
                  = normalize_loop fuel len (r :: rest) (rev c ++ SLASH :: out)).
  { unfold put_out. destruct (Nat.ltb_spec (length out) len); [|simpl in Hl; lia]. cbn [obind]. apply copy_bytes; [done..|]. simpl in *. lia. }
  rewrite <-Hcopy. cbn [Nat.add normalize_loop]. unfold at_. cbn [lookup list_lookup run obind drop].
  change (SLASH =? 0) with false. change (SLASH =? SLASH) with true. cbv iota.
  destruct c as [|c1 c].
  { cbn [app lookup list_lookup run obind]. destruct Hend as [->| ->]; [done|]. by destruct Hnext. }
  apply Forall_cons in Hc as [Hc1 Hc]. apply Forall_cons in Hs as [Hs1 Hs]. cbn [app lookup list_lookup run obind].
  destruct (Z.eqb_spec c1 DOT) as [->|]; [|destruct (Z.eqb_spec c1 SLASH) as [->|]; [by destruct Hs1; left|done]].
  destruct c as [|c2 c].
  { cbn [app lookup list_lookup run obind]. destruct Hend as [->| ->]; [done|]. by destruct Hnext. }
  apply Forall_cons in Hc as [Hc2 Hc]. apply Forall_cons in Hs as [Hs2 Hs]. cbn [app lookup list_lookup run obind].
  destruct (Z.eqb_spec c2 SLASH) as [->|]; [by destruct Hs2; left|]. destruct (Z.eqb_spec c2 DOT) as [->|]; [|done].
  destruct c as [|c3 c]; [done|].
  apply Forall_cons in Hc as [Hc3 Hc]. apply Forall_cons in Hs as [Hs3 Hs]. cbn [app lookup list_lookup run obind].
  destruct (Z.eqb_spec c3 SLASH) as [->|]; [by destruct Hs3; left|]. destruct (Z.eqb_spec c3 0); [lia|done].
Qed.

Lemma loop_end fuel len out : (1 <= fuel)%nat -> normalize_loop fuel len [0] out = Ok out.
Proof. intros Hf. destruct fuel; [lia|done]. Qed.

(** The last component. *)
Lemma last_component c stack fuel len : cstring c -> no_delim [SLASH] c -> Forall (no_delim [SLASH]) stack ->
  (length c + 2 <= fuel)%nat -> (length (out_of stack) + S (length c) < len)%nat ->
  normalize_loop fuel len (SLASH :: c ++ [0]) (out_of stack) = Ok (out_of (resolve stack [c])) /\
  (length (out_of (resolve stack [c])) < len)%nat.
Proof.
  intros Hc Hs Hst Hf Hl. pose proof (out_of_tail stack). simpl. case_bool_decide as Ec.
  - subst c. destruct fuel as [|[|fuel]]; [simpl in Hf; lia..|]. cbn [normalize_loop app]. unfold at_.
    cbn [lookup list_lookup run obind drop]. change (SLASH =? 0) with false. change (SLASH =? SLASH) with true.
    change (DOT =? DOT) with true. change (DOT =? SLASH) with false. change (0 =? SLASH) with false. change (0 =? 0) with true.
    cbv iota. cbn [orb]. rewrite back_out by done. unfold put_out. simpl in Hl.
    destruct (Nat.ltb_spec (length (out_of (tail stack))) len); [|lia]. cbn [obind].
    split; [done|simpl; lia].
  - replace fuel with (S (length c) + (fuel - S (length c)))%nat by lia.
    rewrite copy_component; [|done..|by left|done|done|lia]. rewrite loop_end by lia. split; [done|].
    simpl. rewrite length_app, length_rev. simpl. lia.
Qed.

(** A component before a slash. *)
Lemma next_component c rest stack fuel len : cstring c -> no_delim [SLASH] c -> Forall (no_delim [SLASH]) stack ->
  (length (out_of stack) + S (length c) < len)%nat -> (S (length c) <= fuel)%nat ->
  let stack' := if bool_decide (c = [] \/ c = [DOT]) then stack
                else if bool_decide (c = [DOT; DOT]) then tail stack else c :: stack in
  exists fuel', (fuel - S (length c) <= fuel')%nat /\ (length (out_of stack') <= length (out_of stack) + S (length c))%nat /\
    normalize_loop fuel len (SLASH :: c ++ SLASH :: rest) (out_of stack) = normalize_loop fuel' len (SLASH :: rest) (out_of stack') /\
    Forall (no_delim [SLASH]) stack'.
Proof.
  intros Hc Hs Hst Hl Hf stack'. subst stack'. pose proof (out_of_tail stack). destruct fuel as [|fuel]; [lia|].
  case_bool_decide as E1; [|case_bool_decide as E2].
  - exists fuel. split_and!; [lia|lia| |done]. by destruct E1 as [->| ->].
  - subst c. exists fuel. split_and!; [simpl; lia|simpl; lia| |by apply Forall_tail].
    cbn [normalize_loop app]. unfold at_. cbn [lookup list_lookup run obind drop]. change (SLASH =? 0) with false.
    change (SLASH =? SLASH) with true. change (DOT =? DOT) with true. change (DOT =? SLASH) with false. cbv iota. cbn [orb].
    by rewrite back_out.
  - exists (fuel - length c)%nat. split_and!; [lia| | |by constructor].
    + simpl. rewrite length_app, length_rev. simpl. lia.
    + replace (S fuel) with (S (length c) + (fuel - length c))%nat by lia.
      apply copy_component; [done..|by right|done|naive_solver|lia].
Qed.

Lemma fields_nonempty delim s : fields delim s <> [].
Proof.
  destruct s as [|x s]; cbn [fields]; [done|]. destruct (bool_decide _); [done|]. by destruct (fields delim s).
Qed.

Lemma normalize_loop_spec m rest stack fuel len : (length rest <= m)%nat -> cstring rest -> Forall (no_delim [SLASH]) stack ->
  (length rest + 2 <= fuel)%nat -> (length (out_of stack) + S (length rest) < len)%nat ->
  normalize_loop fuel len (SLASH :: rest ++ [0]) (out_of stack) = Ok (out_of (resolve stack (fields [SLASH] rest))) /\
  (length (out_of (resolve stack (fields [SLASH] rest))) < len)%nat.
Proof.
  revert rest stack fuel. induction m as [|m IH]; intros rest stack fuel Hm Hr Hst Hf Hl;
    destruct (first_field [SLASH] rest) as (c & Hs & [->|(d & s2 & Hd & ->)]).
  1, 3: rewrite fields_clean by done; by apply last_component.
  - rewrite length_app in Hm. simpl in Hm. lia.
  - apply list_elem_of_singleton in Hd as ->. rewrite fields_cut by (done || by left).
    rewrite length_app in Hm, Hf, Hl. simpl in Hm, Hf, Hl.
    apply cstring_cut in Hr as (Hc & _ & Hs2). rewrite <-app_assoc. cbn [app].
    destruct (next_component c (s2 ++ [0]) stack fuel len) as (fuel' & Hf' & Hl' & -> & Hst'); [done..|lia|lia|].
    assert (E : forall st, resolve st (c :: fields [SLASH] s2) = resolve (if bool_decide (c = [] \/ c = [DOT]) then st
              else if bool_decide (c = [DOT; DOT]) then tail st else c :: st) (fields [SLASH] s2)).
    { intros st. destruct (fields [SLASH] s2) as [|f fs] eqn:Ef; [|done]. by destruct (fields_nonempty [SLASH] s2). }
    rewrite E. apply IH; [lia|done|done|lia|lia].
Qed.

(** * Components of a normal form *)

(** The last component of a normal form may be empty or a dot; none is two dots. *)
Definition clean (stack : list (list Z)) : Prop :=
  Forall (fun c => c <> [DOT; DOT]) stack /\ Forall (fun c => c <> [] /\ c <> [DOT]) (tail stack).

Lemma resolve_clean stack comps : Forall (fun c => c <> [] /\ c <> [DOT] /\ c <> [DOT; DOT]) stack -> clean (resolve stack comps).
Proof.
  revert stack. induction comps as [|c [|c' comps] IH]; intros stack Hs.
  - split; simpl; [|apply Forall_tail]; eapply Forall_impl; [exact Hs| |exact Hs|]; by intros ? (? & ? & ?).
  - simpl. case_bool_decide as E; split; simpl.
    + constructor; [done|]. apply Forall_tail. eapply Forall_impl; [exact Hs|by intros ? (? & ? & ?)].
    + apply Forall_tail. eapply Forall_impl; [exact Hs|by intros ? (? & ? & ?)].
    + constructor; [done|]. eapply Forall_impl; [exact Hs|by intros ? (? & ? & ?)].
    + eapply Forall_impl; [exact Hs|by intros ? (? & ? & ?)].
  - cbn [resolve]. apply IH. case_bool_decide as E1; [done|]. case_bool_decide as E2; [by apply Forall_tail|].
    constructor; [naive_solver|done].
Qed.


Lemma resolve_all (P : list Z -> Prop) stack comps : P [] -> Forall P stack -> Forall P comps -> Forall P (resolve stack comps).
Proof.
  intros H0 Hs Hc. revert stack Hs. induction Hc as [|c [|c' comps] Hc Hcs IH]; intros stack Hs; [done| |].
  - simpl. case_bool_decide; constructor; [done|by apply Forall_tail|done|done].
  - cbn [resolve]. apply IH. case_bool_decide; [done|]. case_bool_decide; [by apply Forall_tail|by constructor].
Qed.

Lemma fields_cstring delim s : cstring s -> Forall cstring (fields delim s).
Proof.
  induction 1 as [|c s Hc Hs IH]; cbn [fields]; [by repeat constructor|]. destruct (bool_decide _); [constructor; [constructor|done]|].
  destruct IH as [|f fs Hf Hfs]; constructor; [by apply Forall_singleton|constructor|by constructor|done].
Qed.

Lemma out_of_cstring stack : Forall cstring stack -> cstring (out_of stack).
Proof.
  induction 1 as [|c stack Hc Hs IH]; simpl; [constructor|]. apply Forall_app. split; [by apply Forall_rev|]. constructor; [|done].
  unfold SLASH. lia.
Qed.

Lemma render_cstring rest : cstring rest -> cstring (render (normal_form rest)).
Proof.
  intros Hr. apply Forall_rev, out_of_cstring, resolve_all; [constructor|constructor|by apply fields_cstring].
Qed.

Lemma normalize_path_spec rest : cstring rest ->
  normalize_path (SLASH :: rest ++ [0]) = Ok (Some (render (normal_form rest))).
Proof.
  intros Hr. unfold normalize_path. unfold at_ at 1. cbn [lookup list_lookup run obind]. change (SLASH =? SLASH) with true. cbn [negb].
  assert (Hp : cstring (SLASH :: rest)) by (constructor; [unfold SLASH; lia|done]).
  change (SLASH :: rest ++ [0]) with ((SLASH :: rest) ++ 0 :: []) at 1. rewrite strlen_cstring by done. cbn [run obind].
  destruct (normalize_loop_spec (length rest) rest [] (length (SLASH :: rest ++ [0])) (length (SLASH :: rest) + 1))
    as [E Hlen]; [done|done|constructor|cbn [length]; rewrite length_app; simpl; lia|simpl; lia|].
  cbn [out_of] in E. rewrite E. cbn [obind]. unfold put_out. fold (normal_form rest) in *.
  destruct (Nat.ltb_spec (length (out_of (normal_form rest))) (length (SLASH :: rest) + 1)); [|lia]. cbn [obind rev].
  rewrite until_nul_cstring; [done|]. by apply render_cstring.
Qed.

(** Normalize_path refuses a path that does not begin with a slash.  For any other it returns the
    normal form of its components, within its buffer and without reading past the terminator, and
    the normal form has no component of two dots and, before the last, no empty one and no dot. *)
Theorem normalize_path_correct path : cstring path ->
  match path with
  | c :: rest =>
      if c =? SLASH then normalize_path (path ++ [0]) = Ok (Some (render (normal_form rest))) /\ clean (normal_form rest)
      else normalize_path (path ++ [0]) = Ok None
  | [] => normalize_path (path ++ [0]) = Ok None
  end.
Proof.
  intros Hp. destruct path as [|c rest]; [done|]. apply Forall_cons in Hp as [Hc Hr]. destruct (Z.eqb_spec c SLASH) as [->|Hne].
  - split; [by apply normalize_path_spec|]. apply resolve_clean. constructor.
  - unfold normalize_path, at_. cbn [app lookup list_lookup run obind]. by rewrite (proj2 (Z.eqb_neq c SLASH)).
Qed.

Lemma normalize_path_correct_witness :
  normalize_path ([47; 97; 47; 46; 47; 47; 98; 47; 46; 46; 47; 99; 47; 46; 46] ++ [0]) = Ok (Some [47; 97; 47]) /\
  render (normal_form [97; 47; 46; 47; 47; 98; 47; 46; 46; 47; 99; 47; 46; 46]) = [47; 97; 47].
Proof.
  split; [|vm_compute; done].
  destruct (normalize_path_correct [47; 97; 47; 46; 47; 47; 98; 47; 46; 46; 47; 99; 47; 46; 46]) as [-> _];
    [repeat constructor; lia|vm_compute; done].
Defined.

(** * Directories *)

Lemma strncmp_prefix file dir : cstring file -> cstring dir ->
  exists d, strncmp (file ++ [0]) (dir ++ [0]) (length dir) = Some d /\ (d = 0 <-> exists rest, file = dir ++ rest).
Proof.
  intros Hf Hd. destruct (strncmp_cstring file [] dir [] (length dir) Hf Hd) as (d & Hs & Hl). exists d. split; [done|].
  rewrite (take_ge dir) in Hl by done. rewrite <-Z.compare_eq_iff, Hl, lex_eq. split.
  - intros E. exists (drop (length dir) file). rewrite <-E at 1. symmetry. apply take_drop.
  - intros [rest ->]. apply take_app_length.
Qed.

Lemma under_dir_spec file dir : cstring file -> cstring dir -> exists b, file_is_under_dir file dir = Ok b /\
  (b = true <-> exists rest, file = dir ++ SLASH :: rest).
Proof.
  intros Hf Hd. unfold file_is_under_dir. rewrite strlen_cstring by done. cbn [run obind].
  destruct (strncmp_prefix file dir Hf Hd) as (d & -> & Hpre). cbn [run obind].
  destruct (Z.eqb_spec d 0) as [E|E]; cbn [negb].
  - apply Hpre in E as [rest ->]. unfold at_. rewrite <-app_assoc, lookup_app_r, Nat.sub_diag by lia.
    destruct rest as [|c rest]; cbn [app lookup list_lookup run obind]; eexists; (split; [done|]).
    + split; [done|]. intros [r Hr]. apply (f_equal length) in Hr. rewrite !length_app in Hr. simpl in Hr. lia.
    + rewrite Z.eqb_eq. split; [intros ->; by exists rest|]. intros [r Hr]. by simplify_list_eq.
  - eexists. split; [done|]. split; [done|]. intros [rest ->]. destruct E. apply Hpre. by exists (SLASH :: rest).
Qed.

Lemma in_dir_spec file dir : cstring file -> cstring dir -> Z.of_nat (length file) < 2 ^ 63 -> exists b, file_is_in_dir file dir = Ok b /\
  (b = true <-> exists rest, file = dir ++ SLASH :: rest /\ no_delim [SLASH] rest).
Proof.
  intros Hf Hd Hlen. unfold file_is_in_dir. rewrite strlen_cstring by done. cbn [run obind].
  destruct (strncmp_prefix file dir Hf Hd) as (d & -> & Hpre). cbn [run obind].
  destruct (Z.eqb_spec d 0) as [E|E]; cbn [negb].
  2: { eexists. split; [done|]. split; [done|]. intros (rest & -> & _). destruct E. apply Hpre. by exists (SLASH :: rest). }
  apply Hpre in E as [rest ->]. unfold at_. rewrite <-app_assoc, lookup_app_r, Nat.sub_diag by lia.
  destruct rest as [|c rest]; cbn [app lookup list_lookup run obind].
  { eexists. split; [done|]. split; [done|]. intros (r & Hr & _). apply (f_equal length) in Hr.
    rewrite !length_app in Hr. simpl in Hr. lia. }
  destruct (Z.eqb_spec c SLASH) as [->|Hne]; cbn [negb].
  2: { eexists. split; [done|]. split; [done|]. intros (r & Hr & _). by simplify_list_eq. }
  replace (drop (length dir + 1) (dir ++ SLASH :: rest ++ [0])) with (rest ++ [0])
    by (rewrite drop_app_ge by lia; by replace (length dir + 1 - length dir)%nat with 1%nat by lia).
  apply Forall_app in Hf as [_ [_ Hr]%Forall_cons].
  destruct (strchr_correct rest [] SLASH 1 Hr ltac:(lia)) as [(r & Hfi & -> & _) _].
  { rewrite length_app in Hlen. simpl in Hlen. unfold SIZE_MAX. lia. }
  cbn [obind]. eexists. split; [done|]. change (wrapU 8 SLASH) with SLASH in Hfi. destruct r as [i|].
  - split; [done|]. intros (r & Hr' & Hno). simplify_list_eq. destruct Hfi as [(x & Hx & ->) _].
    exfalso. apply lookup_app_Some in Hx as [Hx|[_ Hx]].
    + apply (Forall_lookup_1 _ _ _ _ Hno Hx). by left.
    + apply list_lookup_singleton_Some in Hx as [_ Hx]. discriminate.
  - split; [|done]. intros _. exists rest. split; [done|]. apply Forall_lookup. intros i x Hx Hin.
    apply list_elem_of_singleton in Hin as ->. apply (Hfi i SLASH); [|done]. by apply lookup_app_l_Some.
Qed.

(** * Zip paths *)

Lemma render_length rest : cstring rest -> (length (render (normal_form rest)) <= length rest + 1)%nat.
Proof.
  intros Hr. destruct (normalize_loop_spec (length rest) rest [] (length rest + 2) (length rest + 2)) as [_ Hl];
    [done|done|constructor|lia|simpl; lia|]. unfold render. rewrite length_rev. fold (normal_form rest) in Hl. lia.
Qed.

Lemma occurs_split hay n i : occurs hay n i -> hay = take i hay ++ n ++ drop (i + length n) hay.
Proof.
  intros (s & t & -> & <-). rewrite take_app_length. f_equal. rewrite <-length_app, app_assoc, drop_app_length. done.
Qed.

(** Parse_zip_path cuts a path at the first exclamation mark before a slash of its normal form.
    It fails when the path is not absolute, when its normal form has no such place, and when the
    normal form does not fit the 512 bytes of its buffer. *)
Theorem parse_zip_path_correct buf rest : cstring rest -> length buf = 512%nat -> Z.of_nat (length rest) < 2 ^ 62 ->
  let path := render (normal_form rest) in
  exists r, parse_zip_path buf (SLASH :: rest ++ [0]) = Ok r /\
    match r with
    | Some (zip, entry) => path = zip ++ [33; SLASH] ++ entry /\ (length path < 512)%nat /\
        forall j, (j < length zip)%nat -> ~ occurs path [33; SLASH] j
    | None => (forall j, ~ occurs path [33; SLASH] j) \/ (512 <= length path)%nat
    end.
Proof.
  intros Hr Hbuf Hlen path. unfold parse_zip_path. rewrite normalize_path_spec by done. cbn [obind]. fold path.
  pose proof (render_cstring rest Hr) as Hp. fold path in Hp. pose proof (render_length rest Hr) as Hpl. fold path in Hpl.
  destruct (strstr_first path [] kZipFileSeparator [] Hp) as (r & -> & Hm);
    [repeat constructor; lia|constructor|rewrite length_app; simpl; lia|simpl; lia|]. cbn [obind].
  destruct r as [sep|]; [|exists None; split; [done|by left]]. destruct Hm as (i & -> & Ho & Hfirst).
  unfold strlcpy. cbn [Nat.eqb]. rewrite strlcpy_copy_cstring by (done || lia). cbn [run obind fst snd].
  destruct (Nat.leb_spec 512 (length path)); [exists None; split; [done|by right]|]. rewrite Nat2Z.id.
  apply occurs_split in Ho. set (zip := take i path) in *. set (entry := drop _ path) in Ho.
  assert (Hi : i = length zip).
  { subst zip. rewrite length_take. apply (f_equal length) in Ho. rewrite !length_app, length_take in Ho. simpl in Ho. lia. }
  rewrite (take_ge path) by lia. clearbody zip entry path. subst i. change kZipFileSeparator with [33; SLASH] in *.
  set (X := drop _ buf). clearbody X. subst path. apply Forall_app in Hp as [Hz [_ [_ He]%Forall_cons]%Forall_cons].
  rewrite <-!app_assoc. cbn [app].
  destruct (Nat.ltb_spec (length zip) (length (zip ++ 33 :: SLASH :: entry ++ 0 :: X))); [|rewrite length_app in *; simpl in *; lia].
  rewrite insert_app_r_alt, Nat.sub_diag by lia. cbn [insert list_insert]. rewrite until_nul_cstring by done.
  rewrite drop_app_ge by lia. replace (length zip + 2 - length zip)%nat with 2%nat by lia.
  change (drop 2 (0 :: SLASH :: entry ++ 0 :: X)) with (entry ++ 0 :: X). rewrite until_nul_cstring by done.
  eexists. split; [done|]. split_and!; [done|done|done].
Qed.

Lemma parse_zip_path_correct_witness :
  parse_zip_path (replicate 512 7) ([47; 97; 46; 122; 33; 47; 46; 47; 98] ++ [0]) = Ok (Some ([47; 97; 46; 122], [98])) /\
  exists r, parse_zip_path (replicate 512 7) ([47; 97; 46; 122; 33; 47; 46; 47; 98] ++ [0]) = Ok r /\ r <> None.
Proof.
  split; [vm_compute; done|].
  destruct (parse_zip_path_correct (replicate 512 7) [97; 46; 122; 33; 47; 46; 47; 98]) as (r & Hr & Hspec);
    [repeat constructor; lia|done|simpl; lia|].
  exists r. split; [exact Hr|]. intros ->. vm_compute in Hr. discriminate.
Defined.

(** * Parameters *)

Lemma expand_enough params f f' s : (length s <= f)%nat -> (length s <= f')%nat -> expand f params s = expand f' params s.
Proof.
  revert f' s. induction f as [|f IH]; intros [|f'] [|c s] Hf Hf'; simpl in *; try done; try lia.
  destruct (c =? DOLLAR); [|by rewrite (IH f') by lia]. destruct (match_param params s) as [[r k]|]; [|by rewrite (IH f') by lia].
  f_equal. apply IH; rewrite length_drop; lia.
Qed.

Lemma expand_plain params pre s : Forall (fun c => c <> DOLLAR) pre ->
  expand (length (pre ++ s)) params (pre ++ s) = pre ++ expand (length s) params s.
Proof.
  induction 1 as [|c pre Hc Hp IH]; [done|]. simpl. destruct (Z.eqb_spec c DOLLAR); [done|]. by rewrite IH.
Qed.

Lemma find_dollar_spec s pos :
  match find_dollar s pos with
  | Some i => exists pre rest, s = pre ++ DOLLAR :: rest /\ Forall (fun c => c <> DOLLAR) pre /\ i = (pos + length pre)%nat
  | None => Forall (fun c => c <> DOLLAR) s
  end.
Proof.
  revert pos. induction s as [|c s IH]; intros pos; simpl; [constructor|]. destruct (Z.eqb_spec c DOLLAR) as [->|Hne].
  - exists [], s. split_and!; [done|constructor|simpl; lia].
  - specialize (IH (S pos)). destruct (find_dollar s (S pos)); [|by constructor].
    destruct IH as (pre & rest & -> & Hp & ->). exists (c :: pre), rest. split_and!; [done|by constructor|simpl; lia].
Qed.

Lemma drop_after (d : list Z) k rest : drop (length d + k) (d ++ DOLLAR :: rest) = drop k (DOLLAR :: rest).
Proof. rewrite drop_app_ge by lia. f_equal. lia. Qed.

Lemma try_params_spec params d rest :
  try_params params (d ++ DOLLAR :: rest) (length d) =
  match match_param params rest with
  | Some (r, k) => (d ++ r ++ drop k rest, wrapU 64 (Z.of_nat (length d) + wrapU 64 (Z.of_nat (length r) - 1)))
  | None => (d ++ DOLLAR :: rest, Z.of_nat (length d))
  end.
Proof.
  induction params as [|[token r] params IH]; [done|]. cbn [try_params match_param]. unfold substr, replace.
  rewrite drop_after. change (drop 1 (DOLLAR :: rest)) with rest. rewrite !take_app_length, IH.
  destruct (bool_decide (take (length token) rest = token)).
  - rewrite drop_after, Nat.add_1_r. done.
  - destruct (bool_decide (take (length token + 2) rest = _)); [|done]. rewrite drop_after.
    by replace (length token + 3)%nat with (S (length token + 2)) by lia.
Qed.

Lemma format_loop_spec params fuel d rest : (length rest < fuel)%nat ->
  Z.of_nat (length (d ++ expand (length rest) params rest)) < 2 ^ 64 ->
  format_loop fuel params (d ++ rest) (length d) = Ok (d ++ expand (length rest) params rest).
Proof.
  revert d rest. induction fuel as [|fuel IH]; intros d rest Hf Hl; [lia|]. cbn [format_loop].
  destruct (Nat.ltb_spec (length d) (length (d ++ rest))) as [Hlt|Hge].
  2: { rewrite length_app in Hge. by destruct rest; [|simpl in Hge; lia]. }
  rewrite drop_app_length. pose proof (find_dollar_spec rest (length d)) as Hd. destruct (find_dollar rest (length d)) as [i|].
  2: { pose proof (expand_plain params rest [] Hd) as E. rewrite app_nil_r in E. by rewrite E, app_nil_r. }
  destruct Hd as (pre & rest' & -> & Hp & ->). rewrite expand_plain in Hl |- * by done. rewrite length_app in Hf. simpl in Hf.
  replace (length d + length pre)%nat with (length (d ++ pre)) by by rewrite length_app.
  rewrite app_assoc in Hl |- *. rewrite app_assoc, try_params_spec. cbn [length expand] in Hl |- *.
  change (DOLLAR =? DOLLAR) with true in *. cbv iota in Hl |- *.
  destruct (match_param params rest') as [[r k]|].
  - rewrite !wrapU_add_l. rewrite (Z.add_comm _ (wrapU 64 _)), <-Z.add_assoc, wrapU_add_l.
    rewrite !length_app in Hl. rewrite wrapU_small by (rewrite length_app; lia).
    replace (Z.to_nat _) with (length ((d ++ pre) ++ r)) by (rewrite !length_app; lia).
    rewrite (expand_enough params _ (length (drop k rest'))) in Hl |- * by (rewrite ?length_drop; lia).
    rewrite (app_assoc (d ++ pre) r), IH; [by rewrite <-app_assoc|rewrite length_drop; lia|].
    rewrite !length_app. lia.
  - rewrite wrapU_small by (rewrite !length_app in *; simpl in Hl; lia).
    replace (Z.to_nat _) with (length ((d ++ pre) ++ [DOLLAR])) by (rewrite !length_app; simpl; lia).
    change (DOLLAR :: rest') with ([DOLLAR] ++ rest'). rewrite (app_assoc (d ++ pre)), IH; [by rewrite <-app_assoc|lia|].
    rewrite !length_app in *. simpl in *. lia.
Qed.

(** Format_string replaces, from left to right, each dollar sign followed by the name of a
    parameter, bare or in braces, by the value of the first such parameter, does not look at what it
    has put in, and leaves the rest as it is. *)
Theorem format_string_correct str params :
  Z.of_nat (length (expand (length str) params str)) < 2 ^ 64 ->
  format_string str params = Ok (expand (length str) params str).
Proof. intros Hl. apply (format_loop_spec params _ []); [lia|done]. Qed.

Lemma format_string_correct_witness :
  format_string [47; 36; 76; 47; 36; 123; 76; 125; 36] [([76], [36; 76; 49])] = Ok [47; 36; 76; 49; 47; 36; 76; 49; 36].
Proof. apply (format_string_correct [47; 36; 76; 47; 36; 123; 76; 125; 36] [([76], [36; 76; 49])]). vm_compute. done. Defined.
