(* ===== verification/Hashmap.v ===== *)
(** Hash maps: hashmap.cpp of libcutils (src/libcutils-android12-release).

    A bucket is the list of the entries that are linked from it.  The keys are pointers, hashed and
    compared by functions of the caller; the values are pointers, [None] for NULL.  The outcome of
    each allocation is an argument.  The lock of a map is for its users and is not modelled.

    The theorem says that a map implements a finite map from the contents of keys to values, through
    any sequence of calls, whether allocations succeed or not. *)

From stdpp Require Import gmap.
From S2P Require Import Prelude Result.

Section hashmap.
Context {K : Type} `{EqDecision K} {V : Type}.
Context (hash : K -> Z) (equals : K -> K -> bool).

(** * Definitions *)

Record Entry := mk_entry { key : K; entry_hash : Z; value : option V }.

Record Hashmap := mk_hashmap { buckets : list (list Entry); bucketCount : Z; size : Z }.

(** calloc also fails when the size of the array does not fit a size_t. *)
Definition calloc_buckets (memory : bool) (count : Z) : option (list (list Entry)) :=
  if memory && (count * 8 <? 2 ^ 64) then Some (replicate (Z.to_nat count) []) else None.

Fixpoint bucket_count_loop (fuel : nat) (minimumBucketCount bucketCount : Z) : result Z :=
  match fuel with
  | O => Fault
  | S fuel =>
      if bucketCount <=? minimumBucketCount
      then bucket_count_loop fuel minimumBucketCount (wrapU 64 (Z.shiftl bucketCount 1))
      else Ok bucketCount
  end.

Definition hashmapCreate (memory memory_buckets : bool) (initialCapacity : Z) : result (option Hashmap) :=
  if negb memory then Ok None else
  let minimumBucketCount := wrapU 64 (initialCapacity * 4) / 3 in
  bucketCount <-- bucket_count_loop 65 minimumBucketCount 1 ;;
  match calloc_buckets memory_buckets bucketCount with
  | None => Ok None
  | Some buckets => Ok (Some (mk_hashmap buckets bucketCount 0))
  end.

(** Arithmetic on int wraps around here. *)
Definition hashKey (key : K) : Z :=
  let h := hash key in
  let h := wrapS 32 (h + Z.lnot (wrapS 32 (Z.shiftl h 9))) in
  let h := wrapS 32 (Z.lxor (wrapU 32 h) (Z.shiftr (wrapU 32 h) 14)) in
  let h := wrapS 32 (h + wrapS 32 (Z.shiftl h 4)) in
  wrapS 32 (Z.lxor (wrapU 32 h) (Z.shiftr (wrapU 32 h) 10)).

Definition calculateIndex (bucketCount hash : Z) : Z := Z.land (wrapU 64 hash) (wrapU 64 (bucketCount - 1)).

(** The loop over a chain: its entries are linked at the front of the new buckets. *)
Fixpoint move_chain (newBucketCount : Z) (entry : list Entry) (newBuckets : list (list Entry)) : result (list (list Entry)) :=
  match entry with
  | [] => Ok newBuckets
  | e :: next =>
      let index := Z.to_nat (calculateIndex newBucketCount (entry_hash e)) in
      b <-- at_ newBuckets index ;;
      move_chain newBucketCount next (<[index := e :: b]> newBuckets)
  end.

Fixpoint move_buckets (newBucketCount : Z) (old newBuckets : list (list Entry)) : result (list (list Entry)) :=
  match old with
  | [] => Ok newBuckets
  | entry :: old => newBuckets <-- move_chain newBucketCount entry newBuckets ;; move_buckets newBucketCount old newBuckets
  end.

Definition expandIfNecessary (memory : bool) (map : Hashmap) : result Hashmap :=
  if size map >? wrapU 64 (bucketCount map * 3) / 4 then
    let newBucketCount := wrapU 64 (Z.shiftl (bucketCount map) 1) in
    match calloc_buckets memory newBucketCount with
    | None => Ok map
    | Some newBuckets =>
        newBuckets <-- move_buckets newBucketCount (buckets map) newBuckets ;;
        Ok (mk_hashmap newBuckets newBucketCount (size map))
    end
  else Ok map.

Definition equalKeys (keyA : K) (hashA : Z) (keyB : K) (hashB : Z) : bool :=
  if decide (keyA = keyB) then true else if negb (hashA =? hashB) then false else equals keyA keyB.

Inductive put_result := Added | NoMemory | Replaced (oldValue : option V).

(** The loop of hashmapPut along a chain. *)
Fixpoint put_loop (memory : bool) (p : list Entry) (k : K) (h : Z) (v : option V) : list Entry * put_result :=
  match p with
  | [] => if memory then ([mk_entry k h v], Added) else ([], NoMemory)
  | current :: next =>
      if equalKeys (key current) (entry_hash current) k h
      then (mk_entry (key current) (entry_hash current) v :: next, Replaced (value current))
      else let '(next, r) := put_loop memory next k h v in (current :: next, r)
  end.

(** The new map and the old value; the flag is set when errno is. *)
Definition hashmapPut (memory memory_buckets : bool) (map : Hashmap) (k : K) (v : option V)
    : result (Hashmap * option V * bool) :=
  let h := hashKey k in
  let index := Z.to_nat (calculateIndex (bucketCount map) h) in
  p <-- at_ (buckets map) index ;;
  let '(p, r) := put_loop memory p k h v in
  let map := mk_hashmap (<[index := p]> (buckets map)) (bucketCount map) (size map) in
  match r with
  | NoMemory => Ok (map, None, true)
  | Added =>
      map <-- expandIfNecessary memory_buckets (mk_hashmap (buckets map) (bucketCount map) (wrapU 64 (size map + 1))) ;;
      Ok (map, None, false)
  | Replaced oldValue => Ok (map, oldValue, false)
  end.

Fixpoint get_loop (entry : list Entry) (k : K) (h : Z) : option V :=
  match entry with
  | [] => None
  | e :: next => if equalKeys (key e) (entry_hash e) k h then value e else get_loop next k h
  end.

Definition hashmapGet (map : Hashmap) (k : K) : result (option V) :=
  let h := hashKey k in
  let index := Z.to_nat (calculateIndex (bucketCount map) h) in
  entry <-- at_ (buckets map) index ;; Ok (get_loop entry k h).

(** The chain without the entry, and its value. *)
Fixpoint remove_loop (p : list Entry) (k : K) (h : Z) : list Entry * option (option V) :=
  match p with
  | [] => ([], None)
  | current :: next =>
      if equalKeys (key current) (entry_hash current) k h then (next, Some (value current))
      else let '(next, r) := remove_loop next k h in (current :: next, r)
  end.

Definition hashmapRemove (map : Hashmap) (k : K) : result (Hashmap * option V) :=
  let h := hashKey k in
  let index := Z.to_nat (calculateIndex (bucketCount map) h) in
  p <-- at_ (buckets map) index ;;
  let '(p, r) := remove_loop p k h in
  let buckets := <[index := p]> (buckets map) in
  match r with
  | Some v => Ok (mk_hashmap buckets (bucketCount map) (wrapU 64 (size map - 1)), v)
  | None => Ok (mk_hashmap buckets (bucketCount map) (size map), None)
  end.

(** The callback gets key, value and a context, which it changes, and says whether to go on. *)
Fixpoint foreach_chain {St} (callback : K -> option V -> St -> St * bool) (entry : list Entry) (s : St) : St * bool :=
  match entry with
  | [] => (s, true)
  | e :: next => let '(s, more) := callback (key e) (value e) s in if more : bool then foreach_chain callback next s else (s, false)
  end.

Fixpoint foreach_buckets {St} (callback : K -> option V -> St -> St * bool) (bs : list (list Entry)) (s : St) : St :=
  match bs with
  | [] => s
  | b :: bs => let '(s, more) := foreach_chain callback b s in if more : bool then foreach_buckets callback bs s else s
  end.

Definition hashmapForEach {St} (map : Hashmap) (callback : K -> option V -> St -> St * bool) (s : St) : St :=
  foreach_buckets callback (buckets map) s.
End hashmap.

Arguments Entry : clear implicits.
Arguments Hashmap : clear implicits.
Arguments put_result : clear implicits.

(** * Specification *)

(** What hash and equals promise: keys have contents, equals compares them, and keys with the same
    contents have the same hash. *)
Class Hashing {K C : Type} (hash : K -> Z) (equals : K -> K -> bool) (content : K -> C) : Prop := {
  equals_content k1 k2 : equals k1 k2 = true <-> content k1 = content k2;
  hash_content k1 k2 : content k1 = content k2 -> hash k1 = hash k2
}.

Section spec.
Context {K V C : Type} `{EqDecision K} `{Countable C}.
Context (hash : K -> Z) (equals : K -> K -> bool) (content : K -> C) `{!Hashing hash equals content}.

Definition entries (map : Hashmap K V) : list (Entry K V) := mjoin (buckets map).

Definition binding (e : Entry K V) : C * option V := (content (key e), value e).

(** The finite map a hash map stands for. *)
Definition denote (map : Hashmap K V) : gmap C (option V) := list_to_map (binding <$> entries map).

(** Every entry is in the bucket of its hash, no two have keys with the same contents, and the size is
    their number. *)
Record hashmap_ok (map : Hashmap K V) : Prop := {
  ok_count : exists k, 0 <= k < 61 /\ bucketCount map = 2 ^ k;
  ok_length : length (buckets map) = Z.to_nat (bucketCount map);
  ok_hash : Forall (fun e => entry_hash e = hashKey hash (key e)) (entries map);
  ok_index : forall i b e, buckets map !! i = Some b -> e ∈ b -> i = Z.to_nat (calculateIndex (bucketCount map) (entry_hash e));
  ok_keys : NoDup ((fun e => content (key e)) <$> entries map);
  ok_size : size map = Z.of_nat (length (entries map))
}.

(** * Keys and indices *)

Lemma hashKey_content k1 k2 : content k1 = content k2 -> hashKey hash k1 = hashKey hash k2.
Proof using Type*. intros E. unfold hashKey. by rewrite (hash_content (hash:=hash) (equals:=equals) k1 k2 E). Qed.

Lemma equalKeys_content k1 k2 :
  equalKeys equals k1 (hashKey hash k1) k2 (hashKey hash k2) = bool_decide (content k1 = content k2).
Proof using Type*.
  unfold equalKeys. destruct (decide (k1 = k2)) as [->|]; [by rewrite bool_decide_eq_true_2|].
  destruct (Z.eqb_spec (hashKey hash k1) (hashKey hash k2)) as [E|E]; cbn [negb].
  - apply eq_bool_prop_intro. rewrite bool_decide_spec, Is_true_true. apply equals_content.
  - rewrite bool_decide_eq_false_2; [done|]. intros Hc. by apply E, hashKey_content.
Qed.

Lemma index_bound k h : 0 <= k < 64 -> 0 <= calculateIndex (2 ^ k) h < 2 ^ k.
Proof.
  intros Hk. unfold calculateIndex. assert (0 < 2 ^ k <= 2 ^ 63) by (split; [lia|apply Z.pow_le_mono_r; lia]).
  rewrite (wrapU_small 64 (2 ^ k - 1)) by lia. replace (2 ^ k - 1) with (Z.ones k) by (rewrite Z.ones_equiv; lia). rewrite Z.land_ones by lia. apply Z.mod_pos_bound. lia.
Qed.

Section map.
Context (map : Hashmap K V) (Hok : hashmap_ok map).

Lemma bucket_at k : exists b, buckets map !! Z.to_nat (calculateIndex (bucketCount map) (hashKey hash k)) = Some b.
Proof using Hok.
  apply lookup_lt_is_Some_2. rewrite (ok_length _ Hok). destruct (ok_count _ Hok) as (n & Hn & ->).
  pose proof (index_bound n (hashKey hash k) ltac:(lia)). lia.
Qed.

Lemma entry_in_bucket e i b : buckets map !! i = Some b -> e ∈ b -> e ∈ entries map.
Proof. intros Hb He. apply list_elem_of_join. exists b. split; [done|]. by eapply list_elem_of_lookup_2. Qed.

(** An entry with the contents of a key is in the bucket of the key. *)
Lemma entry_bucket e k b : e ∈ entries map -> content (key e) = content k ->
  buckets map !! Z.to_nat (calculateIndex (bucketCount map) (hashKey hash k)) = Some b -> e ∈ b.
Proof using Type* Hok.
  intros He Hc Hb. apply list_elem_of_join in He as (b' & He & Hb'). apply list_elem_of_lookup_1 in Hb' as (i & Hi).
  pose proof (ok_index _ Hok i b' e Hi He) as Ei. pose proof (ok_hash _ Hok) as Hh. rewrite Forall_forall in Hh.
  rewrite (Hh e) in Ei by (by apply (entry_in_bucket e i b')). rewrite (hashKey_content _ k Hc) in Ei. congruence.
Qed.

Lemma denote_lookup c v : denote map !! c = Some v <-> exists e, e ∈ entries map /\ content (key e) = c /\ value e = v.
Proof using Hok.
  unfold denote. rewrite <-elem_of_list_to_map.
  - rewrite list_elem_of_fmap. unfold binding. split; [intros (e & [= -> ->] & He); eauto|].
    intros (e & He & <- & <-). eauto.
  - rewrite <-list_fmap_compose. apply (ok_keys _ Hok).
Qed.
End map.

(** * Chains *)

Lemma join_insert {A} (l : list (list A)) i p : l !! i = Some p ->
  exists rest, mjoin l ≡ₚ p ++ rest /\ forall p', mjoin (<[i := p']> l) ≡ₚ p' ++ rest.
Proof.
  intros Hi. exists (mjoin (take i l) ++ mjoin (drop (S i) l)).
  assert (Hp : forall p', mjoin (take i l ++ p' :: drop (S i) l) ≡ₚ p' ++ mjoin (take i l) ++ mjoin (drop (S i) l)).
  { intros p'. rewrite join_app. simpl. by rewrite Permutation_app_swap_app. }
  split; [rewrite <-(take_drop_middle l i p Hi) at 1; apply Hp|].
  intros p'. rewrite insert_take_drop by (by eapply lookup_lt_Some). apply Hp.
Qed.

Definition hashed_in (bc : Z) (i : nat) (b : list (Entry K V)) : Prop :=
  forall e, e ∈ b -> entry_hash e = hashKey hash (key e) /\ i = Z.to_nat (calculateIndex bc (entry_hash e)).

(** The entry of a key in a chain, if there is one. *)
Lemma chain_split (b : list (Entry K V)) k :
  (forall e, e ∈ b -> content (key e) <> content k) \/
  exists b1 e b2, b = b1 ++ e :: b2 /\ content (key e) = content k /\ forall e, e ∈ b1 -> content (key e) <> content k.
Proof.
  induction b as [|e b IH]; [left; intros e He; by apply elem_of_nil in He|].
  destruct (decide (content (key e) = content k)) as [E|E].
  - right. exists [], e, b. split_and!; [done..|]. intros e' He. by apply elem_of_nil in He.
  - destruct IH as [IH|(b1 & e' & b2 & -> & He & Hb)].
    + left. intros e' [->|He]%elem_of_cons; [done|by apply IH].
    + right. exists (e :: b1), e', b2. split_and!; [done..|]. intros e'' [->|H'']%elem_of_cons; [done|by apply Hb].
Qed.

Lemma equal_entry bc i b e k : hashed_in bc i b -> e ∈ b ->
  equalKeys equals (key e) (entry_hash e) k (hashKey hash k) = bool_decide (content (key e) = content k).
Proof using Type*. intros Hb He. destruct (Hb e He) as [-> _]. apply equalKeys_content. Qed.

Lemma hashed_in_cons bc i e b : hashed_in bc i (e :: b) -> hashed_in bc i b.
Proof. intros Hb e' He. apply Hb. by right. Qed.

Section chain.
Context (bc : Z) (i : nat) (k : K).

Lemma loops_absent b v memory : hashed_in bc i b -> (forall e, e ∈ b -> content (key e) <> content k) ->
  get_loop equals b k (hashKey hash k) = None /\ remove_loop equals b k (hashKey hash k) = (b, None) /\
  put_loop equals memory b k (hashKey hash k) v =
    if memory then (b ++ [mk_entry k (hashKey hash k) v], Added) else (b, NoMemory).
Proof using Type*.
  induction b as [|e b IH]; intros Hb Hno; [by destruct memory|]. cbn [get_loop remove_loop put_loop].
  rewrite (equal_entry bc i (e :: b)) by (done || by left).
  rewrite (bool_decide_eq_false_2 (content (key e) = content k)) by (apply Hno; by left).
  destruct IH as (-> & -> & ->); [by apply hashed_in_cons in Hb|intros e' He; apply Hno; by right|].
  by destruct memory.
Qed.

Lemma loops_present b1 e b2 v memory : hashed_in bc i (b1 ++ e :: b2) -> content (key e) = content k ->
  (forall e, e ∈ b1 -> content (key e) <> content k) ->
  get_loop equals (b1 ++ e :: b2) k (hashKey hash k) = value e /\
  remove_loop equals (b1 ++ e :: b2) k (hashKey hash k) = (b1 ++ b2, Some (value e)) /\
  put_loop equals memory (b1 ++ e :: b2) k (hashKey hash k) v =
    (b1 ++ mk_entry (key e) (entry_hash e) v :: b2, Replaced (value e)).
Proof using Type*.
  intros Hb Hc Hno. induction b1 as [|e1 b1 IH]; cbn [app get_loop remove_loop put_loop].
  - rewrite (equal_entry bc i ([] ++ e :: b2)) by (done || by left). by rewrite (bool_decide_eq_true_2 _ Hc).
  - rewrite (equal_entry bc i ((e1 :: b1) ++ e :: b2)) by (done || by left).
    rewrite (bool_decide_eq_false_2 (content (key e1) = content k)) by (apply Hno; by left).
    destruct IH as (-> & -> & ->); [by apply hashed_in_cons in Hb|intros e' He; apply Hno; by right|done].
Qed.
End chain.

(** * The invariant *)

(** The same entries in any order stand for the same map. *)
Lemma denote_perm map l : NoDup ((fun e => content (key e)) <$> entries map) -> entries map ≡ₚ l ->
  denote map = list_to_map (binding <$> l).
Proof.
  intros Hnd Hp. apply list_to_map_proper; [by rewrite <-list_fmap_compose|by apply fmap_Permutation].
Qed.

Lemma bucket_hashed map i b : hashmap_ok map -> buckets map !! i = Some b -> hashed_in (bucketCount map) i b.
Proof.
  intros Hok Hb e He. split; [|by eapply (ok_index _ Hok)]. pose proof (ok_hash _ Hok) as Hh. rewrite Forall_forall in Hh.
  apply Hh. by apply (entry_in_bucket map e i b).
Qed.

(** A map after the change of one bucket. *)
Lemma ok_insert map i p p' sz : hashmap_ok map -> buckets map !! i = Some p -> hashed_in (bucketCount map) i p' ->
  let map' := mk_hashmap (<[i := p']> (buckets map)) (bucketCount map) sz in
  NoDup ((fun e => content (key e)) <$> entries map') -> sz = Z.of_nat (length (entries map')) -> hashmap_ok map'.
Proof.
  intros Hok Hp Hp' map' Hnd Hsz. pose proof (lookup_lt_Some _ _ _ Hp) as Hi.
  assert (Hall : forall j b, buckets map' !! j = Some b -> hashed_in (bucketCount map) j b).
  { intros j b Hb. cbn in Hb. apply list_lookup_insert_Some in Hb as [(<- & <- & _)|(_ & Hb)]; [done|by apply bucket_hashed]. }
  constructor; [apply (ok_count _ Hok)|cbn; by rewrite length_insert, (ok_length _ Hok)|..|done|done].
  - apply Forall_forall. intros e He. apply list_elem_of_join in He as (b & He & Hb).
    apply list_elem_of_lookup_1 in Hb as (j & Hj). by apply (Hall j b Hj).
  - intros j b e Hb He. by apply (Hall j b Hb).
Qed.

(** ** Growth *)

Definition well_placed (bc : Z) (bs : list (list (Entry K V))) : Prop := forall i b, bs !! i = Some b -> hashed_in bc i b.

Lemma move_chain_spec n chain bs : 0 <= n < 64 -> length bs = Z.to_nat (2 ^ n) -> well_placed (2 ^ n) bs ->
  Forall (fun e => entry_hash e = hashKey hash (key e)) chain ->
  exists bs', move_chain (2 ^ n) chain bs = Ok bs' /\ length bs' = length bs /\ well_placed (2 ^ n) bs' /\
    mjoin bs' ≡ₚ chain ++ mjoin bs.
Proof.
  intros Hn Hlen Hw Hc. revert bs Hlen Hw. induction Hc as [|e chain He Hc IH]; intros bs Hlen Hw; [by exists bs|].
  cbn [move_chain]. set (i := Z.to_nat (calculateIndex (2 ^ n) (entry_hash e))). unfold at_.
  pose proof (index_bound n (entry_hash e) Hn) as Hi. destruct (lookup_lt_is_Some_2 bs i) as [b Hb]; [lia|].
  rewrite Hb. cbn [run obind]. destruct (join_insert bs i b Hb) as (rest & Hrest & Hins).
  destruct (IH (<[i := e :: b]> bs)) as (bs' & -> & Hl & Hw' & Hp); [by rewrite length_insert|..].
  - intros j b' Hb' e' He'. apply list_lookup_insert_Some in Hb' as [(<- & <- & _)|(_ & Hb')]; [|by apply (Hw j b')].
    apply elem_of_cons in He' as [->|He']; [done|by apply (Hw i b)].
  - exists bs'. split_and!; [done|by rewrite Hl, length_insert|done|]. rewrite Hp, Hins, Hrest. simpl.
    by rewrite <-Permutation_middle.
Qed.

Lemma move_buckets_spec n old bs : 0 <= n < 64 -> length bs = Z.to_nat (2 ^ n) -> well_placed (2 ^ n) bs ->
  Forall (fun e => entry_hash e = hashKey hash (key e)) (mjoin old) ->
  exists bs', move_buckets (2 ^ n) old bs = Ok bs' /\ length bs' = length bs /\ well_placed (2 ^ n) bs' /\
    mjoin bs' ≡ₚ mjoin old ++ mjoin bs.
Proof.
  intros Hn. revert bs. induction old as [|b old IH]; intros bs Hlen Hw Ho; [by exists bs|]. cbn [move_buckets].
  apply Forall_app in Ho as [Hb Ho]. destruct (move_chain_spec n b bs Hn Hlen Hw Hb) as (bs1 & -> & Hl1 & Hw1 & Hp1). cbn [obind].
  destruct (IH bs1) as (bs' & -> & Hl & Hw' & Hp); [congruence|done|done|]. exists bs'. split_and!; [done|congruence|done|].
  rewrite Hp, Hp1. simpl. by rewrite <-app_assoc, Permutation_app_swap_app.
Qed.

Lemma replicate_placed bc n : well_placed bc (replicate n []).
Proof. intros i b Hb e He. apply lookup_replicate in Hb as [-> _]. by apply elem_of_nil in He. Qed.

Lemma join_replicate {A} n : mjoin (replicate n ([] : list A)) = [].
Proof. by induction n. Qed.

Lemma expand_spec memory map : hashmap_ok map -> exists map',
  expandIfNecessary memory map = Ok map' /\ hashmap_ok map' /\ denote map' = denote map /\ size map' = size map.
Proof.
  intros Hok. unfold expandIfNecessary. destruct (_ >? _); [|by exists map]. destruct (ok_count _ Hok) as (n & Hn & En).
  rewrite En. assert (E2 : wrapU 64 (Z.shiftl (2 ^ n) 1) = 2 ^ (n + 1)).
  { rewrite Z.shiftl_mul_pow2, <-Z.pow_add_r by lia. apply wrapU_small. split; [lia|]. apply Z.pow_lt_mono_r; lia. }
  rewrite E2. unfold calloc_buckets. destruct (memory && _) eqn:Ec; [|by exists map].
  apply andb_true_iff in Ec as [_ Ec]. apply Z.ltb_lt in Ec.
  assert (n + 1 < 61).
  { apply Z.nle_gt. intros Hge. pose proof (Z.pow_le_mono_r 2 61 (n + 1) ltac:(lia) Hge) as Hle. lia. }
  destruct (move_buckets_spec (n + 1) (buckets map) (replicate (Z.to_nat (2 ^ (n + 1))) [])) as (bs & -> & Hl & Hw & Hp);
    [lia|apply length_replicate|apply replicate_placed|apply (ok_hash _ Hok)|]. cbn [obind].
  rewrite join_replicate, app_nil_r in Hp. rewrite length_replicate in Hl.
  assert (Hnd : NoDup ((fun e => content (key e)) <$> mjoin bs)) by (rewrite Hp; apply (ok_keys _ Hok)).
  eexists. split; [done|]. split_and!; [|by apply denote_perm|done].
  constructor; cbn; [by exists (n + 1); split; [lia|]|done|..|done|].
  - unfold entries. cbn. rewrite Hp. apply (ok_hash _ Hok).
  - intros i b e Hb He. by apply (Hw i b).
  - rewrite (ok_size _ Hok). f_equal. unfold entries. cbn. by rewrite Hp.
Qed.

(** * The operations *)

Definition contents (l : list (Entry K V)) : list C := (fun e => content (key e)) <$> l.

Lemma contents_absent (l : list (Entry K V)) c : (forall e, e ∈ l -> content (key e) <> c) -> c ∉ contents l.
Proof. intros Hno Hin. apply list_elem_of_fmap in Hin as (e & -> & He). by apply (Hno e). Qed.

Lemma list_to_map_absent (l : list (Entry K V)) c : c ∉ contents l ->
  (list_to_map (binding <$> l) : gmap C (option V)) !! c = None.
Proof. intros Hn. apply not_elem_of_list_to_map_1. by rewrite <-list_fmap_compose. Qed.

Section operations.
Context (map : Hashmap K V) (k : K) (Hok : hashmap_ok map) (Hsize : size map < 2 ^ 64 - 1).

Local Abbreviation c := (content k).
Local Abbreviation idx := (Z.to_nat (calculateIndex (bucketCount map) (hashKey hash k))).

(** The map whose bucket of the key is [p'], where the other buckets hold [rest]. *)
Definition rest_of (rest : list (Entry K V)) : Prop :=
  forall p' sz, hashed_in (bucketCount map) idx p' -> NoDup (contents (p' ++ rest)) -> sz = Z.of_nat (length (p' ++ rest)) ->
  let map' := mk_hashmap (<[idx := p']> (buckets map)) (bucketCount map) sz in
  hashmap_ok map' /\ denote map' = list_to_map (binding <$> p' ++ rest).

Lemma bucket_rest : exists p rest, buckets map !! idx = Some p /\ hashed_in (bucketCount map) idx p /\
  entries map ≡ₚ p ++ rest /\ rest_of rest.
Proof using Type* Hok.
  destruct (bucket_at map Hok k) as [p Hp]. destruct (join_insert _ _ _ Hp) as (rest & Hrest & Hins).
  exists p, rest. split_and!; [done|by apply bucket_hashed|done|]. intros p' sz Hp' Hnd Hsz map'.
  assert (He : entries map' ≡ₚ p' ++ rest) by apply Hins. unfold contents in Hnd. rewrite <-He in Hnd.
  split; [|by apply denote_perm]. apply (ok_insert map idx p); [done..|]. subst sz. f_equal. by rewrite <-He.
Qed.

(** The key has no entry, or it has one in its bucket. *)
Lemma key_cases p rest : buckets map !! idx = Some p -> entries map ≡ₚ p ++ rest ->
  denote map = list_to_map (binding <$> p ++ rest) /\ NoDup (contents (p ++ rest)) /\ size map = Z.of_nat (length (p ++ rest)) /\
  ((forall e, e ∈ p -> content (key e) <> c) /\ (c ∉ contents (p ++ rest)) /\ denote map !! c = None \/
   exists b1 e b2, p = b1 ++ e :: b2 /\ content (key e) = c /\ (forall e, e ∈ b1 -> content (key e) <> c) /\
     denote map !! c = Some (value e)).
Proof using Type* Hok.
  intros Hp Hrest. pose proof (ok_keys _ Hok) as Hnd.
  split_and!; [by apply denote_perm|unfold contents; by rewrite <-Hrest|rewrite (ok_size _ Hok); f_equal; by rewrite <-Hrest|].
  destruct (chain_split p k) as [Hno|(b1 & e & b2 & -> & Hc & Hno)].
  - left. assert (Hall : forall e, e ∈ p ++ rest -> content (key e) <> c).
    { intros e He Ec. apply (Hno e); [|done]. apply (entry_bucket map Hok e k p); [by rewrite Hrest|done..]. }
    split_and!; [done|by apply contents_absent|]. rewrite (denote_perm map (p ++ rest)) by done.
    by apply list_to_map_absent, contents_absent.
  - right. exists b1, e, b2. split_and!; [done..|]. apply (denote_lookup map Hok). exists e. split_and!; [|done..].
    rewrite Hrest. apply elem_of_app; left. apply elem_of_app; right. by left.
Qed.

(** The entries with one that is in the middle taken to the front. *)
Lemma present_perm b1 (e : Entry K V) b2 rest : NoDup (contents ((b1 ++ e :: b2) ++ rest)) ->
  NoDup (contents ((b1 ++ b2) ++ rest)) /\ (content (key e) ∉ contents ((b1 ++ b2) ++ rest)) /\
  forall e', content (key e') = content (key e) -> NoDup (contents ((b1 ++ e' :: b2) ++ rest)) /\
    list_to_map (M := gmap C (option V)) (binding <$> (b1 ++ e' :: b2) ++ rest) =
      <[content (key e) := value e']> (list_to_map (binding <$> (b1 ++ b2) ++ rest)).
Proof.
  assert (Hp : forall e', (b1 ++ e' :: b2) ++ rest ≡ₚ e' :: (b1 ++ b2) ++ rest).
  { intros e'. by rewrite <-Permutation_middle. }
  unfold contents. rewrite Hp. simpl. intros [Hn Hnd]%NoDup_cons. split_and!; [done..|].
  intros e' He'. assert (Hnd' : NoDup (contents ((b1 ++ e' :: b2) ++ rest))).
  { unfold contents. rewrite Hp. simpl. apply NoDup_cons. by rewrite He'. }
  split; [done|]. rewrite (list_to_map_proper _ (binding <$> e' :: (b1 ++ b2) ++ rest)).
  - simpl. by rewrite He'.
  - by rewrite <-list_fmap_compose.
  - by rewrite Hp.
Qed.

Lemma hashmapGet_spec : hashmapGet hash equals map k = Ok (mjoin (denote map !! c)).
Proof using Type* Hok.
  destruct bucket_rest as (p & rest & Hp & Hb & Hrest & _). unfold hashmapGet, at_. rewrite Hp. cbn [run obind]. f_equal.
  destruct (key_cases p rest Hp Hrest) as (_ & _ & _ & [(Hno & _ & ->)|(b1 & e & b2 & -> & Hc & Hno & ->)]).
  - by destruct (loops_absent (bucketCount map) idx k p None true Hb Hno) as (-> & _).
  - by destruct (loops_present (bucketCount map) idx k b1 e b2 None true Hb Hc Hno) as (-> & _).
Qed.

Lemma hashmapRemove_spec : exists map', hashmapRemove hash equals map k = Ok (map', mjoin (denote map !! c)) /\
  hashmap_ok map' /\ denote map' = delete c (denote map).
Proof using Type* Hok Hsize.
  destruct bucket_rest as (p & rest & Hp & Hb & Hrest & Hnew). unfold hashmapRemove, at_. rewrite Hp. cbn [run obind].
  destruct (key_cases p rest Hp Hrest) as (Hd & Hnd & Hsz & [(Hno & Hnc & Ed)|(b1 & e & b2 & -> & Hc & Hno & Ed)]); rewrite Ed.
  - destruct (loops_absent (bucketCount map) idx k p None true Hb Hno) as (_ & -> & _). eexists. split; [done|].
    destruct (Hnew p (size map)) as [? ->]; [done..|]. split; [done|]. by rewrite Hd, delete_id by (by apply list_to_map_absent).
  - destruct (loops_present (bucketCount map) idx k b1 e b2 None true Hb Hc Hno) as (_ & -> & _). eexists. split; [done|].
    destruct (present_perm _ _ _ _ Hnd) as (Hnd' & Hnc & Hrep). rewrite !length_app in Hsz. cbn [length] in Hsz.
    destruct (Hnew (b1 ++ b2) (wrapU 64 (size map - 1))) as [? ->]; [|done| |].
    + intros e' He'. apply Hb. apply elem_of_app in He' as [?|?]; apply elem_of_app; [by left|right; by right].
    + rewrite wrapU_small by lia. rewrite !length_app. lia.
    + split; [done|]. rewrite Hd. destruct (Hrep e) as [_ ->]; [done|]. rewrite <-Hc. rewrite delete_insert_id; [done|].
      by apply list_to_map_absent.
Qed.

Lemma hashmapPut_spec memory memory_buckets v :
  let added := bool_decide (is_Some (denote map !! c)) || memory in
  exists map', hashmapPut hash equals memory memory_buckets map k v = Ok (map', mjoin (denote map !! c), negb added) /\
  hashmap_ok map' /\ denote map' = if added then <[c := v]> (denote map) else denote map.
Proof using Type* Hok Hsize.
  destruct bucket_rest as (p & rest & Hp & Hb & Hrest & Hnew). unfold hashmapPut, at_. rewrite Hp. cbn [run obind].
  destruct (key_cases p rest Hp Hrest) as (Hd & Hnd & Hsz & [(Hno & Hnc & Ed)|(b1 & e & b2 & -> & Hc & Hno & Ed)]); rewrite Ed.
  - destruct (loops_absent (bucketCount map) idx k p v memory Hb Hno) as (_ & _ & ->).
    rewrite bool_decide_eq_false_2 by (by intros [? ?]). cbn [orb]. destruct memory.
    + cbn [buckets bucketCount size]. destruct (present_perm p (mk_entry k (hashKey hash k) v) [] rest) as (_ & _ & Hrep).
      { unfold contents. rewrite <-app_assoc. cbn [app]. rewrite <-Permutation_middle. simpl. by apply NoDup_cons. }
      destruct (Hrep (mk_entry k (hashKey hash k) v)) as [Hnd' Hd']; [done|].
      destruct (Hnew (p ++ [mk_entry k (hashKey hash k) v]) (wrapU 64 (size map + 1))) as [Hok' Ed']; [|done| |].
      * intros e' He'. apply elem_of_app in He' as [?| ->%list_elem_of_singleton]; [by apply Hb|cbn [entry_hash key]; split; reflexivity].
      * rewrite wrapU_small by lia. rewrite Hsz, !length_app. cbn [length]. lia.
      * destruct (expand_spec memory_buckets _ Hok') as (map' & -> & Hok'' & Ed'' & _). eexists. split; [done|].
        split; [done|]. rewrite Ed'', Ed', Hd', Hd. cbn. by rewrite app_nil_r.
    + cbn. eexists. split; [done|]. destruct (Hnew p (size map)) as [? ->]; done.
  - destruct (loops_present (bucketCount map) idx k b1 e b2 v memory Hb Hc Hno) as (_ & _ & ->).
    rewrite bool_decide_eq_true_2 by eauto. cbn. eexists. split; [done|].
    destruct (present_perm _ _ _ _ Hnd) as (Hnd' & Hnc & Hrep).
    destruct (Hrep (mk_entry (key e) (entry_hash e) v)) as [Hnd2 Hd2]; [done|].
    destruct (Hnew (b1 ++ mk_entry (key e) (entry_hash e) v :: b2) (size map)) as [? ->]; [|done| |].
    + intros e' He'. apply elem_of_app in He' as [He'|[->|He']%elem_of_cons]; [apply Hb; apply elem_of_app; by left| |].
      * apply (Hb e). apply elem_of_app; right; by left.
      * apply Hb. apply elem_of_app; right; by right.
    + rewrite Hsz, !length_app. done.
    + split; [done|]. rewrite Hd2, Hd. destruct (Hrep e) as [_ ->]; [done|]. cbn [value]. by rewrite Hc, insert_insert_eq.
Qed.
End operations.

Lemma bucket_count_spec fuel n minimum : 0 <= n < 64 -> minimum < 2 ^ 63 -> 64 - n <= Z.of_nat fuel ->
  exists m, n <= m < 64 /\ bucket_count_loop fuel minimum (2 ^ n) = Ok (2 ^ m) /\ (m = n \/ 2 ^ m <= 2 * minimum).
Proof.
  revert n. induction fuel as [|fuel IH]; intros n Hn Hmin Hf; [lia|]. cbn [bucket_count_loop].
  destruct (Z.leb_spec (2 ^ n) minimum) as [Hle|Hgt]; [|by exists n; split_and!; [lia..|done|left]].
  assert (n < 63) by (apply Z.nle_gt; intros Hge; pose proof (Z.pow_le_mono_r 2 63 n ltac:(lia) Hge); lia).
  rewrite Z.shiftl_mul_pow2, <-Z.pow_add_r by lia.
  rewrite wrapU_small by (split; [lia|apply Z.pow_lt_mono_r; lia]).
  destruct (IH (n + 1)) as (m & Hm & E & Hmm); [lia..|]. exists m. split_and!; [lia..|done|]. right.
  destruct Hmm as [->|]; [|done]. rewrite Z.pow_add_r by lia. lia.
Qed.

Lemma hashmapCreate_spec memory memory_buckets initialCapacity : exists r,
  hashmapCreate memory memory_buckets initialCapacity = Ok r /\
  match r with
  | Some map => hashmap_ok map /\ denote map = ∅ /\ size map = 0
  | None => memory = false \/ memory_buckets = false \/ 2 ^ 61 <= wrapU 64 (initialCapacity * 4) / 3 * 2
  end.
Proof.
  unfold hashmapCreate. destruct memory; cbn [negb]; [|eexists; split; [done|by left]].
  assert (wrapU 64 (initialCapacity * 4) / 3 < 2 ^ 63) as Hmin.
  { pose proof (Z.mod_pos_bound (initialCapacity * 4) (2 ^ 64) ltac:(lia)). unfold wrapU. apply Z.div_lt_upper_bound; lia. }
  set (minimum := wrapU 64 (initialCapacity * 4) / 3) in *. clearbody minimum.
  destruct (bucket_count_spec 65 0 minimum ltac:(lia) Hmin ltac:(lia)) as (n & Hn & E & Hmm).
  change (2 ^ 0) with 1 in E. rewrite E. cbn [obind]. unfold calloc_buckets.
  destruct memory_buckets; cbn [andb]; [|eexists; split; [done|by right; left]].
  destruct (Z.ltb_spec (2 ^ n * 8) (2 ^ 64)) as [Hlt|Hge]; eexists; (split; [done|]).
  - assert (Hnil : entries (mk_hashmap (replicate (Z.to_nat (2 ^ n)) []) (2 ^ n) 0) = []) by apply join_replicate.
    assert (n < 61).
    { apply Z.nle_gt. intros Hle. pose proof (Z.pow_le_mono_r 2 61 n ltac:(lia) Hle). lia. }
    split_and!; [|unfold denote; by rewrite Hnil|done]. constructor; rewrite ?Hnil; cbn; [by exists n; split; [lia|]| |done| |by constructor|done].
    + apply length_replicate.
    + intros i b e Hb He. apply lookup_replicate in Hb as [-> _]. by apply elem_of_nil in He.
  - right; right. destruct Hmm as [->|Hmm]; [cbn in Hge; lia|]. lia.
Qed.

(** ** Iteration *)

(** The callback applied along a list of keys and values until it returns false. *)
Fixpoint visit {St} (callback : K -> option V -> St -> St * bool) (l : list (Entry K V)) (s : St) : St :=
  match l with
  | [] => s
  | e :: l => let '(s, more) := callback (key e) (value e) s in if more : bool then visit callback l s else s
  end.

Lemma foreach_visit {St} (callback : K -> option V -> St -> St * bool) bs s :
  foreach_buckets callback bs s = visit callback (mjoin bs) s.
Proof.
  revert s. induction bs as [|b bs IH]; intros s; [done|]. simpl. revert s. induction b as [|e b IHb]; intros s; simpl; [apply IH|].
  destruct (callback (key e) (value e) s) as [s' [|]]; [apply IHb|done].
Qed.

Lemma entries_bindings map : hashmap_ok map -> binding <$> entries map ≡ₚ map_to_list (denote map).
Proof. intros Hok. unfold denote. rewrite map_to_list_to_map; [done|]. rewrite <-list_fmap_compose. apply (ok_keys _ Hok). Qed.

Lemma size_denote map : hashmap_ok map -> size map = Z.of_nat (base.size (denote map)).
Proof.
  intros Hok. rewrite (ok_size _ Hok), <-length_map_to_list, <-(entries_bindings map Hok), length_fmap. done.
Qed.

(** * Sequences of operations *)

(** The flags say whether the allocations of hashmapPut succeed. *)
Inductive op := Put (memory memory_buckets : bool) (k : K) (v : option V) | Get (k : K) | Remove (k : K).

Inductive answer := PutAnswer (old : option V) (no_memory : bool) | GetAnswer (v : option V) | RemoveAnswer (v : option V).

Fixpoint run_ops (map : Hashmap K V) (ops : list op) : result (Hashmap K V * list answer) :=
  match ops with
  | [] => Ok (map, [])
  | o :: ops =>
      r <-- match o with
            | Put memory memory_buckets k v =>
                r <-- hashmapPut hash equals memory memory_buckets map k v ;;
                let '(map, old, e) := r in Ok (map, PutAnswer old e)
            | Get k => v <-- hashmapGet hash equals map k ;; Ok (map, GetAnswer v)
            | Remove k => r <-- hashmapRemove hash equals map k ;; Ok (fst r, RemoveAnswer (snd r))
            end ;;
      rs <-- run_ops (fst r) ops ;; Ok (fst rs, snd r :: snd rs)
  end.

(** What the operations do on a finite map: a value is absent when the key is, or when NULL is stored. *)
Definition map_op (m : gmap C (option V)) (o : op) : gmap C (option V) * answer :=
  match o with
  | Put memory _ k v =>
      let added := bool_decide (is_Some (m !! content k)) || memory in
      (if added then <[content k := v]> m else m, PutAnswer (mjoin (m !! content k)) (negb added))
  | Get k => (m, GetAnswer (mjoin (m !! content k)))
  | Remove k => (delete (content k) m, RemoveAnswer (mjoin (m !! content k)))
  end.

Fixpoint map_ops (m : gmap C (option V)) (ops : list op) : gmap C (option V) * list answer :=
  match ops with
  | [] => (m, [])
  | o :: ops => let '(m, a) := map_op m o in let '(m, l) := map_ops m ops in (m, a :: l)
  end.

Lemma map_op_size m o : (base.size (map_op m o).1 <= S (base.size m))%nat.
Proof.
  destruct o as [memory mb k v|k|k]; cbn; [|lia|].
  - destruct (_ || _); [|lia]. rewrite map_size_insert. destruct (m !! content k); cbn; lia.
  - rewrite map_size_delete. destruct (m !! content k); cbn; lia.
Qed.

Lemma run_ops_refine ops map : hashmap_ok map -> size map + Z.of_nat (length ops) < 2 ^ 64 ->
  exists map', run_ops map ops = Ok (map', (map_ops (denote map) ops).2) /\ hashmap_ok map' /\
    denote map' = (map_ops (denote map) ops).1.
Proof using Type*.
  revert map. induction ops as [|o ops IH]; intros map Hok Hsize; [by exists map|]. cbn [length] in Hsize.
  assert (Hstep : exists map', hashmap_ok map' /\ denote map' = (map_op (denote map) o).1 /\
    forall k, run_ops map (o :: ops) = k ->
      (rs <-- run_ops map' ops ;; Ok (fst rs, (map_op (denote map) o).2 :: snd rs)) = k).
  { destruct o as [memory mb k v|k|k]; cbn [run_ops map_op].
    - destruct (hashmapPut_spec map k Hok ltac:(lia) memory mb v) as (map' & -> & Hok' & Hd). exists map'. by split_and!.
    - rewrite (hashmapGet_spec map k Hok) by lia. by exists map.
    - destruct (hashmapRemove_spec map k Hok ltac:(lia)) as (map' & -> & Hok' & Hd). exists map'. by split_and!. }
  destruct Hstep as (map1 & Hok1 & Hd1 & Hrun). rewrite <-(Hrun _ eq_refl).
  pose proof (map_op_size (denote map) o) as Hs. rewrite (size_denote map Hok) in Hsize.
  destruct (IH map1 Hok1) as (map' & -> & Hok' & Hd'); [rewrite (size_denote map1 Hok1), Hd1; lia|].
  exists map'. cbn [obind]. rewrite Hd1 in *. cbn [map_ops]. destruct (map_op _ o) as [m a]. cbn [fst snd] in *.
  by destruct (map_ops m ops).
Qed.

(** C4: a hash map made by hashmapCreate and used by any sequence of hashmapPut, hashmapGet and hashmapRemove
    behaves like a finite map from the contents of keys: every operation returns what the finite map's does, also
    when an allocation fails (hashmapPut of a new key then changes nothing and reports it, a failed growth is not
    noticed), the size is the number of bindings, and hashmapForEach visits every binding once, until the callback
    stops it. hashmapCreate returns (its loop ends), and fails only for want of memory. *)
Theorem hashmap_refines_map memory memory_buckets initialCapacity ops : Z.of_nat (length ops) < 2 ^ 64 ->
  exists r, hashmapCreate memory memory_buckets initialCapacity = Ok r /\
  match r with
  | None => memory = false \/ memory_buckets = false \/ 2 ^ 61 <= wrapU 64 (initialCapacity * 4) / 3 * 2
  | Some map => exists map', run_ops map ops = Ok (map', snd (map_ops ∅ ops)) /\
      let m := fst (map_ops ∅ ops) in
      size map' = Z.of_nat (base.size m) /\
      exists l, binding <$> l ≡ₚ map_to_list m /\
        forall St (callback : K -> option V -> St -> St * bool) s, hashmapForEach map' callback s = visit callback l s
  end.
Proof using Type*.
  intros Hops. destruct (hashmapCreate_spec memory memory_buckets initialCapacity) as (r & -> & Hr). exists r. split; [done|].
  destruct r as [map|]; [|done]. destruct Hr as (Hok & Hd & Hs).
  destruct (run_ops_refine ops map Hok) as (map' & -> & Hok' & Hd'); [lia|]. rewrite Hd in Hd' |- *. exists map'. split; [done|].
  cbv zeta. rewrite <-Hd'. split; [by apply size_denote|]. exists (entries map'). split; [by apply entries_bindings|].
  intros St callback s. apply foreach_visit.
Qed.
End spec.

(** * Keys made of bytes *)

(** The bytes are values of char. *)
Definition hashmapHash (key : list Z) : Z :=
  fold_left (fun h data => wrapS 32 (h * 31 + data)) key (wrapS 32 (Z.of_nat (length key))).

(** A key is an address and the bytes there; equal bytes at different addresses are the same key. *)
#[export] Instance bytes_hashing : Hashing (fun k : Z * list Z => hashmapHash (snd k)) (fun k1 k2 => bool_decide (snd k1 = snd k2)) snd.
Proof. split; [intros k1 k2; apply bool_decide_eq_true|intros k1 k2 Hk; cbv beta in *; by rewrite Hk]. Qed.

Definition example_ops : list (op (K := Z * list Z) (V := Z)) :=
  [Put true true (100, [97; 98]) (Some 1); Put true true (200, [97]) (Some 2); Put false true (300, [99]) (Some 3);
   Put true true (400, [97; 98]) (Some 4); Get (500, [97; 98]); Remove (600, [97]); Get (200, [97])].

Lemma hashmap_refines_map_witness :
  snd (map_ops snd ∅ example_ops) =
    [PutAnswer None false; PutAnswer None false; PutAnswer None true; PutAnswer (Some 1) false; GetAnswer (Some 4);
     RemoveAnswer (Some 2); GetAnswer None] /\
  exists map map', hashmapCreate true true 0 = Ok (Some map) /\
    run_ops (fun k => hashmapHash (snd k)) (fun k1 k2 => bool_decide (snd k1 = snd k2)) map example_ops =
      Ok (map', snd (map_ops snd ∅ example_ops)) /\ size map' = 1.
Proof.
  split; [vm_compute; reflexivity|].
  destruct (hashmap_refines_map (fun k : Z * list Z => hashmapHash (snd k)) (fun k1 k2 => bool_decide (snd k1 = snd k2)) snd
    true true 0 example_ops) as (r & Hr & Hm); [vm_compute; reflexivity|].
  destruct r as [map|]; [|vm_compute in Hr; discriminate Hr]. destruct Hm as (map' & Hrun & Hsize & _).
  exists map, map'. split; [exact Hr|]. split; [exact Hrun|]. rewrite Hsize. vm_compute. reflexivity.
Defined.
