(* ===== verification/JeUtil.v ===== *)
(** Bit operations of the memory allocator: jemalloc's util.h (finding set bits, rounding up to a power of
    two), for 64-bit targets. *)
From S2P Require Import Prelude.
From Stdlib Require Import ZArith Lia.

Local Open Scope Z_scope.

(** ** Definitions *)

(** The builtin behind ffs_lu: one more than the index of the lowest bit that is set, and 0 for 0. *)
Fixpoint ffs_from (n : nat) (i bitmap : Z) : Z :=
  match n with
  | O => 0
  | S n => if Z.testbit bitmap i then i + 1 else ffs_from n (i + 1) bitmap
  end.

Definition ffs_lu (bitmap : Z) : Z := ffs_from 64 0 bitmap.

(** The statements x |= x >> 1, ..., x |= x >> 32 of pow2_ceil_u64 and lg_floor. *)
Definition smear (x : Z) : Z :=
  let x := Z.lor x (Z.shiftr x 1) in
  let x := Z.lor x (Z.shiftr x 2) in
  let x := Z.lor x (Z.shiftr x 4) in
  let x := Z.lor x (Z.shiftr x 8) in
  let x := Z.lor x (Z.shiftr x 16) in
  Z.lor x (Z.shiftr x 32).

Definition pow2_ceil_u64 (x : Z) : Z := wrapU 64 (smear (wrapU 64 (x - 1)) + 1).

(** The portable version. *)
Definition lg_floor (x : Z) : Z :=
  let x := smear x in
  if x =? 2 ^ 64 - 1 then 63 else ffs_lu (wrapU 64 (x + 1)) - 2.

(** ** The lowest bit *)

Lemma ffs_from_spec n i x : 0 <= i ->
  (ffs_from n i x = 0 /\ forall j, i <= j < i + Z.of_nat n -> Z.testbit x j = false) \/
  exists k, i <= k < i + Z.of_nat n /\ ffs_from n i x = k + 1 /\ Z.testbit x k = true /\ forall j, i <= j < k -> Z.testbit x j = false.
Proof.
  revert i. induction n as [|n IH]; intros i Hi; [left; split; [done|lia]|]. cbn [ffs_from].
  destruct (Z.testbit x i) eqn:E; [right; exists i; split_and!; [lia..|done|lia]|].
  assert (Hj : forall j, j = i -> Z.testbit x j = false) by (by intros j ->).
  destruct (IH (i + 1) ltac:(lia)) as [[-> Hno]|(k & Hk & -> & Hb & Hno)].
  - left. split; [done|]. intros j Hj'. destruct (Z.eq_dec j i); [by apply Hj|apply Hno; lia].
  - right. exists k. split_and!; [lia..|done|]. intros j Hj'. destruct (Z.eq_dec j i); [by apply Hj|apply Hno; lia].
Qed.

(** A word that is not 0 has a lowest bit, and ffs_lu finds it. *)
Lemma ffs_lu_spec x : 0 < x < 2 ^ 64 ->
  exists k, 0 <= k < 64 /\ ffs_lu x = k + 1 /\ Z.testbit x k = true /\ forall j, 0 <= j < k -> Z.testbit x j = false.
Proof.
  intros Hx. destruct (ffs_from_spec 64 0 x ltac:(lia)) as [[_ Hno]|Hk]; [|done].
  pose proof (Z.log2_lt_pow2 x 64 ltac:(lia)) as Hl. pose proof (Z.log2_nonneg x). pose proof (Z.bit_log2 x ltac:(lia)) as Hb.
  rewrite Hno in Hb by lia. done.
Qed.

Lemma ffs_lu_0 : ffs_lu 0 = 0.
Proof. reflexivity. Qed.

Lemma ffs_lu_pow2 k : 0 <= k < 64 -> ffs_lu (2 ^ k) = k + 1.
Proof.
  intros Hk. destruct (ffs_lu_spec (2 ^ k)) as (m & Hm & -> & Hb & _).
  - split; [lia|]. apply Z.pow_lt_mono_r; lia.
  - rewrite Z.pow2_bits_eqb in Hb by lia. lia.
Qed.

(** ** Smearing *)

(** The bits of [y] within [n] of the highest bit [l] are set. *)
Definition smeared (l n y : Z) : Prop := 0 <= y < 2 ^ (l + 1) /\ forall i, 0 <= i <= l -> l - n < i -> Z.testbit y i = true.

Lemma smeared_step l n y : 0 <= l -> 0 <= n -> smeared l n y -> smeared l (2 * n) (Z.lor y (Z.shiftr y n)).
Proof.
  intros Hl Hn [Hy Hb]. assert (Hs : 0 <= Z.shiftr y n) by (apply Z.shiftr_nonneg; lia).
  assert (Hy' : forall i, l + 1 <= i -> Z.testbit y i = false) by (apply Z.bounded_iff_bits_nonneg; lia).
  assert (0 <= Z.lor y (Z.shiftr y n)) by (apply Z.lor_nonneg; lia).
  split; [split; [done|]|].
  - apply Z.bounded_iff_bits_nonneg; [lia..|]. intros i Hi. rewrite Z.lor_spec, Z.shiftr_spec, !Hy' by lia. done.
  - intros i Hi Hin. rewrite Z.lor_spec, Z.shiftr_spec by lia. destruct (decide (l - n < i)); [by rewrite Hb by lia|].
    rewrite (Hb (i + n)) by lia. apply orb_true_r.
Qed.

Lemma smear_spec x : 0 < x < 2 ^ 64 -> smear x = 2 ^ (Z.log2 x + 1) - 1.
Proof.
  intros Hx. pose proof (Z.log2_nonneg x). pose proof (proj1 (Z.log2_lt_pow2 x 64 ltac:(lia)) ltac:(lia)).
  assert (H1 : smeared (Z.log2 x) 1 x).
  { split; [pose proof (Z.log2_spec x ltac:(lia)); lia|]. intros i Hi Hin. replace i with (Z.log2 x) by lia. apply Z.bit_log2. lia. }
  do 6 (apply smeared_step in H1; [|lia..]). cbn [Z.mul] in H1. destruct H1 as [Hb Ht]. unfold smear. cbv zeta.
  rewrite Z.sub_1_r, <-Z.ones_equiv.
  apply Z.bits_inj'. intros i Hi. destruct (decide (i <= Z.log2 x)).
  - rewrite Z.ones_spec_low by lia. apply Ht; lia.
  - rewrite Z.ones_spec_high by lia.
    apply (proj1 (Z.bounded_iff_bits_nonneg (Z.log2 x + 1) _ ltac:(lia) (proj1 Hb)) (proj2 Hb)). lia.
Qed.

(** lg_floor is the binary logarithm. *)
Lemma lg_floor_spec x : 0 < x < 2 ^ 64 -> lg_floor x = Z.log2 x.
Proof.
  intros Hx. unfold lg_floor. rewrite smear_spec by done. pose proof (Z.log2_nonneg x).
  pose proof (proj1 (Z.log2_lt_pow2 x 64 ltac:(lia)) ltac:(lia)) as Hl.
  assert (Hp : 2 ^ (Z.log2 x + 1) <= 2 ^ 64) by (apply Z.pow_le_mono_r; lia).
  destruct (Z.eqb_spec (2 ^ (Z.log2 x + 1) - 1) (2 ^ 64 - 1)) as [E|E].
  - assert (E' : 2 ^ (Z.log2 x + 1) = 2 ^ 64) by lia. apply Z.pow_inj_r in E'; lia.
  - replace (2 ^ (Z.log2 x + 1) - 1 + 1) with (2 ^ (Z.log2 x + 1)) by lia. rewrite wrapU_small by lia.
    rewrite ffs_lu_pow2; [lia|]. assert (Z.log2 x + 1 <> 64) by (intros E'; rewrite E' in E; lia). lia.
Qed.

(** pow2_ceil_u64 is the smallest power of two that is not less. *)
Lemma pow2_ceil_spec x : 0 < x <= 2 ^ 63 -> pow2_ceil_u64 x = 2 ^ Z.log2_up x.
Proof.
  intros Hx. unfold pow2_ceil_u64. rewrite (wrapU_small 64 (x - 1)) by lia.
  destruct (decide (x = 1)) as [->|]; [reflexivity|]. rewrite smear_spec by lia. rewrite Z.log2_up_eqn by lia. unfold Z.succ.
  replace (Z.pred x) with (x - 1) by lia. rewrite Z.sub_add. apply wrapU_small. split; [lia|].
  apply Z.pow_lt_mono_r; [lia..|]. pose proof (proj1 (Z.log2_lt_pow2 (x - 1) 63 ltac:(lia)) ltac:(lia)). lia.
Qed.

(** ** Masks *)

Lemma land_pow2_mask a n : 0 <= n -> Z.land a (Z.shiftl 1 n - 1) = a mod 2 ^ n.
Proof.
  intros Hn. rewrite Z.shiftl_mul_pow2, Z.mul_1_l by lia. replace (2 ^ n - 1) with (Z.ones n) by (rewrite Z.ones_equiv; lia).
  by apply Z.land_ones.
Qed.
