(* ===== verification/JeSizes.v ===== *)
(** Size classes of the memory allocator: the table of size classes of jemalloc's size_classes.h, its lookup tables
    in jemalloc.c, and the conversions between sizes, page sizes and indices of classes of jemalloc_internal.h, for
    64-bit targets with pages of 4096 bytes, a quantum of 16 and a smallest class of 8 bytes. *)
From S2P Require Import Prelude JeUtil.
From Stdlib Require Import ZArith Lia.

Local Open Scope Z_scope.

(** * Definitions *)

Abbreviation LG_TINY_MIN := 3.
Abbreviation LG_QUANTUM := 4.
Abbreviation LG_PAGE := 12.
Abbreviation LG_SIZE_CLASS_GROUP := 2.
Abbreviation NTBINS := 1.
Abbreviation NSIZES := 232.
Abbreviation NPSIZES := 199.
Abbreviation LG_TINY_MAXCLASS := 3.
Abbreviation LOOKUP_MAXCLASS := (Z.shiftl 1 11 + Z.shiftl 4 9).
Abbreviation SMALL_MAXCLASS := (Z.shiftl 1 13 + Z.shiftl 3 11).
Abbreviation LARGE_MINCLASS := (Z.shiftl 1 14).
Abbreviation HUGE_MAXCLASS := (Z.shiftl 1 62 + Z.shiftl 3 60).
Abbreviation PAGE := (Z.shiftl 1 LG_PAGE).

Record size_class := SC {
  sc_index : Z; sc_lg_grp : Z; sc_lg_delta : Z; sc_ndelta : Z; sc_psz : bool; sc_bin : bool; sc_lg_delta_lookup : option Z
}.

Definition SIZE_CLASSES : list size_class := [
  SC 0 3 3 0 false true (Some 3); SC 1 3 3 1 false true (Some 3); SC 2 4 4 1 false true (Some 4);
  SC 3 4 4 2 false true (Some 4); SC 4 4 4 3 false true (Some 4); SC 5 6 4 1 false true (Some 4);
  SC 6 6 4 2 false true (Some 4); SC 7 6 4 3 false true (Some 4); SC 8 6 4 4 false true (Some 4);
  SC 9 7 5 1 false true (Some 5); SC 10 7 5 2 false true (Some 5); SC 11 7 5 3 false true (Some 5);
  SC 12 7 5 4 false true (Some 5); SC 13 8 6 1 false true (Some 6); SC 14 8 6 2 false true (Some 6);
  SC 15 8 6 3 false true (Some 6); SC 16 8 6 4 false true (Some 6); SC 17 9 7 1 false true (Some 7);
  SC 18 9 7 2 false true (Some 7); SC 19 9 7 3 false true (Some 7); SC 20 9 7 4 false true (Some 7);
  SC 21 10 8 1 false true (Some 8); SC 22 10 8 2 false true (Some 8); SC 23 10 8 3 false true (Some 8);
  SC 24 10 8 4 false true (Some 8); SC 25 11 9 1 false true (Some 9); SC 26 11 9 2 false true (Some 9);
  SC 27 11 9 3 false true (Some 9); SC 28 11 9 4 true true (Some 9); SC 29 12 10 1 false true None;
  SC 30 12 10 2 false true None; SC 31 12 10 3 false true None; SC 32 12 10 4 true true None;
  SC 33 13 11 1 false true None; SC 34 13 11 2 true true None; SC 35 13 11 3 false true None;
  SC 36 13 11 4 true false None; SC 37 14 12 1 true false None; SC 38 14 12 2 true false None;
  SC 39 14 12 3 true false None; SC 40 14 12 4 true false None; SC 41 15 13 1 true false None;
  SC 42 15 13 2 true false None; SC 43 15 13 3 true false None; SC 44 15 13 4 true false None;
  SC 45 16 14 1 true false None; SC 46 16 14 2 true false None; SC 47 16 14 3 true false None;
  SC 48 16 14 4 true false None; SC 49 17 15 1 true false None; SC 50 17 15 2 true false None;
  SC 51 17 15 3 true false None; SC 52 17 15 4 true false None; SC 53 18 16 1 true false None;
  SC 54 18 16 2 true false None; SC 55 18 16 3 true false None; SC 56 18 16 4 true false None;
  SC 57 19 17 1 true false None; SC 58 19 17 2 true false None; SC 59 19 17 3 true false None;
  SC 60 19 17 4 true false None; SC 61 20 18 1 true false None; SC 62 20 18 2 true false None;
  SC 63 20 18 3 true false None; SC 64 20 18 4 true false None; SC 65 21 19 1 true false None;
  SC 66 21 19 2 true false None; SC 67 21 19 3 true false None; SC 68 21 19 4 true false None;
  SC 69 22 20 1 true false None; SC 70 22 20 2 true false None; SC 71 22 20 3 true false None;
  SC 72 22 20 4 true false None; SC 73 23 21 1 true false None; SC 74 23 21 2 true false None;
  SC 75 23 21 3 true false None; SC 76 23 21 4 true false None; SC 77 24 22 1 true false None;
  SC 78 24 22 2 true false None; SC 79 24 22 3 true false None; SC 80 24 22 4 true false None;
  SC 81 25 23 1 true false None; SC 82 25 23 2 true false None; SC 83 25 23 3 true false None;
  SC 84 25 23 4 true false None; SC 85 26 24 1 true false None; SC 86 26 24 2 true false None;
  SC 87 26 24 3 true false None; SC 88 26 24 4 true false None; SC 89 27 25 1 true false None;
  SC 90 27 25 2 true false None; SC 91 27 25 3 true false None; SC 92 27 25 4 true false None;
  SC 93 28 26 1 true false None; SC 94 28 26 2 true false None; SC 95 28 26 3 true false None;
  SC 96 28 26 4 true false None; SC 97 29 27 1 true false None; SC 98 29 27 2 true false None;
  SC 99 29 27 3 true false None; SC 100 29 27 4 true false None; SC 101 30 28 1 true false None;
  SC 102 30 28 2 true false None; SC 103 30 28 3 true false None; SC 104 30 28 4 true false None;
  SC 105 31 29 1 true false None; SC 106 31 29 2 true false None; SC 107 31 29 3 true false None;
  SC 108 31 29 4 true false None; SC 109 32 30 1 true false None; SC 110 32 30 2 true false None;
  SC 111 32 30 3 true false None; SC 112 32 30 4 true false None; SC 113 33 31 1 true false None;
  SC 114 33 31 2 true false None; SC 115 33 31 3 true false None; SC 116 33 31 4 true false None;
  SC 117 34 32 1 true false None; SC 118 34 32 2 true false None; SC 119 34 32 3 true false None;
  SC 120 34 32 4 true false None; SC 121 35 33 1 true false None; SC 122 35 33 2 true false None;
  SC 123 35 33 3 true false None; SC 124 35 33 4 true false None; SC 125 36 34 1 true false None;
  SC 126 36 34 2 true false None; SC 127 36 34 3 true false None; SC 128 36 34 4 true false None;
  SC 129 37 35 1 true false None; SC 130 37 35 2 true false None; SC 131 37 35 3 true false None;
  SC 132 37 35 4 true false None; SC 133 38 36 1 true false None; SC 134 38 36 2 true false None;
  SC 135 38 36 3 true false None; SC 136 38 36 4 true false None; SC 137 39 37 1 true false None;
  SC 138 39 37 2 true false None; SC 139 39 37 3 true false None; SC 140 39 37 4 true false None;
  SC 141 40 38 1 true false None; SC 142 40 38 2 true false None; SC 143 40 38 3 true false None;
  SC 144 40 38 4 true false None; SC 145 41 39 1 true false None; SC 146 41 39 2 true false None;
  SC 147 41 39 3 true false None; SC 148 41 39 4 true false None; SC 149 42 40 1 true false None;
  SC 150 42 40 2 true false None; SC 151 42 40 3 true false None; SC 152 42 40 4 true false None;
  SC 153 43 41 1 true false None; SC 154 43 41 2 true false None; SC 155 43 41 3 true false None;
  SC 156 43 41 4 true false None; SC 157 44 42 1 true false None; SC 158 44 42 2 true false None;
  SC 159 44 42 3 true false None; SC 160 44 42 4 true false None; SC 161 45 43 1 true false None;
  SC 162 45 43 2 true false None; SC 163 45 43 3 true false None; SC 164 45 43 4 true false None;
  SC 165 46 44 1 true false None; SC 166 46 44 2 true false None; SC 167 46 44 3 true false None;
  SC 168 46 44 4 true false None; SC 169 47 45 1 true false None; SC 170 47 45 2 true false None;
  SC 171 47 45 3 true false None; SC 172 47 45 4 true false None; SC 173 48 46 1 true false None;
  SC 174 48 46 2 true false None; SC 175 48 46 3 true false None; SC 176 48 46 4 true false None;
  SC 177 49 47 1 true false None; SC 178 49 47 2 true false None; SC 179 49 47 3 true false None;
  SC 180 49 47 4 true false None; SC 181 50 48 1 true false None; SC 182 50 48 2 true false None;
  SC 183 50 48 3 true false None; SC 184 50 48 4 true false None; SC 185 51 49 1 true false None;
  SC 186 51 49 2 true false None; SC 187 51 49 3 true false None; SC 188 51 49 4 true false None;
  SC 189 52 50 1 true false None; SC 190 52 50 2 true false None; SC 191 52 50 3 true false None;
  SC 192 52 50 4 true false None; SC 193 53 51 1 true false None; SC 194 53 51 2 true false None;
  SC 195 53 51 3 true false None; SC 196 53 51 4 true false None; SC 197 54 52 1 true false None;
  SC 198 54 52 2 true false None; SC 199 54 52 3 true false None; SC 200 54 52 4 true false None;
  SC 201 55 53 1 true false None; SC 202 55 53 2 true false None; SC 203 55 53 3 true false None;
  SC 204 55 53 4 true false None; SC 205 56 54 1 true false None; SC 206 56 54 2 true false None;
  SC 207 56 54 3 true false None; SC 208 56 54 4 true false None; SC 209 57 55 1 true false None;
  SC 210 57 55 2 true false None; SC 211 57 55 3 true false None; SC 212 57 55 4 true false None;
  SC 213 58 56 1 true false None; SC 214 58 56 2 true false None; SC 215 58 56 3 true false None;
  SC 216 58 56 4 true false None; SC 217 59 57 1 true false None; SC 218 59 57 2 true false None;
  SC 219 59 57 3 true false None; SC 220 59 57 4 true false None; SC 221 60 58 1 true false None;
  SC 222 60 58 2 true false None; SC 223 60 58 3 true false None; SC 224 60 58 4 true false None;
  SC 225 61 59 1 true false None; SC 226 61 59 2 true false None; SC 227 61 59 3 true false None;
  SC 228 61 59 4 true false None; SC 229 62 60 1 true false None; SC 230 62 60 2 true false None;
  SC 231 62 60 3 true false None].

Definition sc_size (c : size_class) : Z := Z.shiftl 1 (sc_lg_grp c) + Z.shiftl (sc_ndelta c) (sc_lg_delta c).

Definition pind2sz_tab : list Z := sc_size <$> filter (fun c => sc_psz c = true) SIZE_CLASSES.

Definition index2size_tab : list Z := sc_size <$> SIZE_CLASSES.

(** A class fills as many entries as its distance from the class before it has multiples of the smallest class. *)
Definition size2index_tab : list Z :=
  SIZE_CLASSES ≫= fun c =>
    match sc_lg_delta_lookup c with
    | Some lg_delta => replicate (Nat.pow 2 (Z.to_nat (lg_delta - LG_TINY_MIN))) (sc_index c)
    | None => []
    end.

(** The block that psz2ind and size2index_compute share, with LG_PAGE or LG_QUANTUM for [lg]. *)
Definition class_index (lg size : Z) : Z :=
  let x := lg_floor (wrapU 64 (wrapU 64 (Z.shiftl size 1) - 1)) in
  let shift := if x <? LG_SIZE_CLASS_GROUP + lg then 0 else x - (LG_SIZE_CLASS_GROUP + lg) in
  let grp := Z.shiftl shift LG_SIZE_CLASS_GROUP in
  let lg_delta := if x <? LG_SIZE_CLASS_GROUP + lg + 1 then lg else x - LG_SIZE_CLASS_GROUP - 1 in
  let delta_inverse_mask := wrapU 64 (Z.shiftl (-1) lg_delta) in
  let mod_ := Z.land (Z.shiftr (Z.land (wrapU 64 (size - 1)) delta_inverse_mask) lg_delta) (Z.shiftl 1 LG_SIZE_CLASS_GROUP - 1) in
  grp + mod_.

(** The block of pind2sz_compute and index2size_compute. *)
Definition class_size (lg index : Z) : Z :=
  let grp := Z.shiftr index LG_SIZE_CLASS_GROUP in
  let mod_ := Z.land index (Z.shiftl 1 LG_SIZE_CLASS_GROUP - 1) in
  let grp_size_mask := wrapU 64 (Z.lnot (b2z (truthy grp) - 1)) in
  let grp_size := Z.land (wrapU 64 (Z.shiftl (Z.shiftl 1 (lg + (LG_SIZE_CLASS_GROUP - 1))) grp)) grp_size_mask in
  let shift := if grp =? 0 then 1 else grp in
  let lg_delta := shift + (lg - 1) in
  let mod_size := wrapU 64 (Z.shiftl (mod_ + 1) lg_delta) in
  wrapU 64 (grp_size + mod_size).

(** The block of psz2u and s2u_compute. *)
Definition class_round (lg size : Z) : Z :=
  let x := lg_floor (wrapU 64 (wrapU 64 (Z.shiftl size 1) - 1)) in
  let lg_delta := if x <? LG_SIZE_CLASS_GROUP + lg + 1 then lg else x - LG_SIZE_CLASS_GROUP - 1 in
  let delta := Z.shiftl 1 lg_delta in
  let delta_mask := delta - 1 in
  Z.land (wrapU 64 (size + delta_mask)) (Z.lnot delta_mask).

Definition psz2ind (psz : Z) : Z := if psz >? HUGE_MAXCLASS then NPSIZES else class_index LG_PAGE psz.

Definition pind2sz_compute (pind : Z) : Z := class_size LG_PAGE pind.

Definition pind2sz (pind : Z) : option Z := pind2sz_tab !! Z.to_nat pind.

Definition psz2u (psz : Z) : Z := if psz >? HUGE_MAXCLASS then 0 else class_round LG_PAGE psz.

Definition size2index_compute (size : Z) : Z :=
  if size >? HUGE_MAXCLASS then NSIZES
  else if size <=? Z.shiftl 1 LG_TINY_MAXCLASS then
    let lg_tmin := LG_TINY_MAXCLASS - NTBINS + 1 in
    let lg_ceil := lg_floor (pow2_ceil_u64 size) in
    if lg_ceil <? lg_tmin then 0 else lg_ceil - lg_tmin
  else NTBINS + class_index LG_QUANTUM size.

Definition size2index_lookup (size : Z) : option Z := size2index_tab !! Z.to_nat (Z.shiftr (size - 1) LG_TINY_MIN).

Definition size2index (size : Z) : option Z :=
  if size <=? LOOKUP_MAXCLASS then size2index_lookup size else Some (size2index_compute size).

Definition index2size_compute (index : Z) : Z :=
  if index <? NTBINS then Z.shiftl 1 (LG_TINY_MAXCLASS - NTBINS + 1 + index)
  else class_size LG_QUANTUM (index - NTBINS).

(** Also index2size_lookup. *)
Definition index2size (index : Z) : option Z := index2size_tab !! Z.to_nat index.

Definition s2u_compute (size : Z) : Z :=
  if size >? HUGE_MAXCLASS then 0
  else if size <=? Z.shiftl 1 LG_TINY_MAXCLASS then
    let lg_tmin := LG_TINY_MAXCLASS - NTBINS + 1 in
    let lg_ceil := lg_floor (pow2_ceil_u64 size) in
    if lg_ceil <? lg_tmin then Z.shiftl 1 lg_tmin else Z.shiftl 1 lg_ceil
  else class_round LG_QUANTUM size.

Definition s2u (size : Z) : option Z :=
  if size <=? LOOKUP_MAXCLASS then size2index_lookup size ≫= index2size else Some (s2u_compute size).

(** ALIGNMENT_CEILING, and with PAGE and chunksize for the alignment PAGE_CEILING and CHUNK_CEILING. *)
Definition ALIGNMENT_CEILING (s alignment : Z) : Z :=
  Z.land (wrapU 64 (s + (alignment - 1))) (wrapU 64 (Z.lnot alignment + 1)).

(** The end of sa2u, for huge classes. *)
Definition sa2u_huge (chunksize : Z) (size alignment : Z) : option Z :=
  if alignment >? HUGE_MAXCLASS then Some 0 else
  let alignment := ALIGNMENT_CEILING alignment chunksize in
  let finish usize := if wrapU 64 (usize + alignment - PAGE) <? usize then Some 0 else Some usize in
  if size <=? chunksize then finish chunksize
  else usize ← s2u size; if usize <? size then Some 0 else finish usize.

(** The bounds on large classes, runs and chunks are variables that are set when the allocator starts. *)
Definition sa2u (large_maxclass chunksize large_pad arena_maxrun : Z) (size alignment : Z) : option Z :=
  let large :=
    if (size <=? large_maxclass) && (alignment <? chunksize) then
      let alignment := ALIGNMENT_CEILING alignment PAGE in
      usize ← (if size <=? LARGE_MINCLASS then Some LARGE_MINCLASS else s2u size);
      if wrapU 64 (usize + large_pad + alignment - PAGE) <=? arena_maxrun then Some usize
      else sa2u_huge chunksize size alignment
    else sa2u_huge chunksize size alignment in
  if (size <=? SMALL_MAXCLASS) && (alignment <? PAGE) then
    usize ← s2u (ALIGNMENT_CEILING size alignment);
    if usize <? LARGE_MINCLASS then Some usize else large
  else large.

(** * The blocks as arithmetic *)

(** Clearing the low bits. *)
Lemma land_lnot_mask a n : 0 <= n -> Z.land a (Z.lnot (Z.shiftl 1 n - 1)) = a / 2 ^ n * 2 ^ n.
Proof.
  intros Hn. rewrite Z.shiftl_mul_pow2, Z.mul_1_l by lia. replace (2 ^ n - 1) with (Z.ones n) by (rewrite Z.ones_equiv; lia).
  rewrite <-Z.ldiff_land, Z.ldiff_ones_r by lia. by rewrite Z.shiftl_mul_pow2, Z.shiftr_div_pow2 by lia.
Qed.

Lemma land_inverse_mask a n : 0 <= a < 2 ^ 64 -> 0 <= n <= 64 ->
  Z.shiftr (Z.land a (wrapU 64 (Z.shiftl (-1) n))) n = a / 2 ^ n.
Proof.
  intros Ha Hn. rewrite <-Z.shiftr_div_pow2 by lia. apply Z.bits_inj'. intros i Hi.
  rewrite !Z.shiftr_spec, Z.land_spec by lia. unfold wrapU. destruct (decide (i + n < 64)).
  - rewrite Z.mod_pow2_bits_low, Z.shiftl_spec, Z.bits_m1 by lia. apply andb_true_r.
  - replace (Z.testbit a (i + n)) with false; [done|]. symmetry.
    apply (proj1 (Z.bounded_iff_bits_nonneg 64 a ltac:(lia) ltac:(lia))); lia.
Qed.

(** The distance of a class from the class before it, as a power of two. *)
Definition delta_of (lg size : Z) : Z := Z.max lg (Z.log2 (2 * size - 1) - 3).

Lemma huge_max size : size <= HUGE_MAXCLASS -> size <= 7 * 2 ^ 60.
Proof. done. Qed.

Section block.
Context (lg size : Z) (Hlg : 0 <= lg <= 12) (Hsize : 0 < size <= HUGE_MAXCLASS).

Local Abbreviation x := (Z.log2 (2 * size - 1)).
Local Abbreviation d := (delta_of lg size).

Lemma doubled : lg_floor (wrapU 64 (wrapU 64 (Z.shiftl size 1) - 1)) = x.
Proof using Hsize.
  pose proof (huge_max size (proj2 Hsize)). rewrite Z.shiftl_mul_pow2 by lia. rewrite (wrapU_small 64 (size * 2 ^ 1)) by lia. rewrite wrapU_small by lia.
  replace (size * 2 ^ 1 - 1) with (2 * size - 1) by lia. apply lg_floor_spec. lia.
Qed.

Lemma x_bounds : 0 <= x <= 63 /\ 2 ^ x <= 2 * size - 1 < 2 ^ (x + 1).
Proof using Hsize.
  pose proof (huge_max size (proj2 Hsize)). split; [|apply Z.log2_spec; lia]. split; [apply Z.log2_nonneg|].
  pose proof (proj1 (Z.log2_lt_pow2 (2 * size - 1) 64 ltac:(lia)) ltac:(lia)). lia.
Qed.

(** The quotient is below 4 in the first group, and between 4 and 7 in the others. *)
Lemma quotient_cases :
  (x <= lg + 2 /\ d = lg /\ 0 <= (size - 1) / 2 ^ d < 4) \/
  (lg + 3 <= x /\ d = x - 3 /\ 4 <= (size - 1) / 2 ^ d < 8).
Proof using Hsize Hlg.
  destruct x_bounds as [Hx [Hlo Hhi]]. unfold delta_of. destruct (decide (x <= lg + 2)) as [Hle|Hgt].
  - left. rewrite Z.max_l by lia. split_and!; [lia..|apply Z.div_pos; lia|]. apply Z.div_lt_upper_bound; [lia|].
    assert (2 ^ (x + 1) <= 2 ^ (lg + 3)) by (apply Z.pow_le_mono_r; lia).
    replace (2 ^ (lg + 3)) with (2 ^ lg * 8) in * by (rewrite Z.pow_add_r by lia; lia). lia.
  - right. rewrite Z.max_r by lia. split_and!; [lia..| |].
    + apply Z.div_le_lower_bound; [lia|]. replace (2 ^ x) with (2 ^ (x - 3) * 8) in Hlo by (rewrite <-(Z.pow_add_r 2 _ 3) by lia; f_equal; lia). lia.
    + apply Z.div_lt_upper_bound; [lia|]. replace (2 ^ (x + 1)) with (2 ^ (x - 3) * 16) in Hhi by (rewrite <-(Z.pow_add_r 2 _ 4) by lia; f_equal; lia). lia.
Qed.

Lemma delta_bounds : lg <= d <= 60.
Proof using Hsize Hlg. destruct x_bounds as [Hx _]. unfold delta_of. lia. Qed.

Lemma delta_if : (if x <? LG_SIZE_CLASS_GROUP + lg + 1 then lg else x - LG_SIZE_CLASS_GROUP - 1) = d.
Proof. clear Hsize Hlg. unfold delta_of. destruct (Z.ltb_spec x (2 + lg + 1)); lia. Qed.

Lemma class_index_eq :
  class_index lg size = 4 * Z.max 0 (x - 2 - lg) + ((size - 1) / 2 ^ d) mod 4.
Proof using Hsize Hlg.
  unfold class_index. rewrite doubled. cbv zeta. rewrite delta_if. pose proof delta_bounds. pose proof (huge_max size (proj2 Hsize)).
  rewrite (wrapU_small 64 (size - 1)), land_inverse_mask, land_pow2_mask by lia.
  rewrite Z.shiftl_mul_pow2 by lia. destruct (Z.ltb_spec x (2 + lg)); f_equal; lia.
Qed.

Lemma class_round_eq : class_round lg size = ((size - 1) / 2 ^ d + 1) * 2 ^ d.
Proof using Hsize Hlg.
  unfold class_round. rewrite doubled. cbv zeta. rewrite delta_if. pose proof delta_bounds. rewrite land_lnot_mask by lia.
  assert (2 ^ d <= 2 ^ 60) by (apply Z.pow_le_mono_r; lia). pose proof (huge_max size (proj2 Hsize)).
  rewrite Z.shiftl_mul_pow2, Z.mul_1_l by lia. rewrite wrapU_small by lia. f_equal.
  replace (size + (2 ^ d - 1)) with (size - 1 + 1 * 2 ^ d) by lia. apply Z.div_add. lia.
Qed.

(** Rounding up: the class is at least the size, and the class before it, at distance 2^d, is less. *)
Lemma class_round_bounds : size <= class_round lg size < size + 2 ^ d /\ (2 ^ d | class_round lg size).
Proof using Hsize Hlg.
  rewrite class_round_eq. pose proof delta_bounds. split; [|by exists ((size - 1) / 2 ^ d + 1)].
  pose proof (Z.mul_div_le (size - 1) (2 ^ d) ltac:(lia)). pose proof (Z.mul_succ_div_gt (size - 1) (2 ^ d) ltac:(lia)). lia.
Qed.
End block.

Lemma class_size_eq lg k : 0 <= lg <= 12 -> 0 <= k < 4 * (62 - lg) ->
  class_size lg k = (if k / 4 =? 0 then 0 else 2 ^ (lg + 1 + k / 4)) + (k mod 4 + 1) * 2 ^ (Z.max 1 (k / 4) + lg - 1).
Proof.
  intros Hlg Hk. unfold class_size. rewrite Z.shiftr_div_pow2, land_pow2_mask by lia. change (2 ^ 2) with 4. cbv zeta.
  pose proof (Z.mod_pos_bound k 4 ltac:(lia)) as Hm. assert (Hg : 0 <= k / 4 < 62 - lg) by (split; [apply Z.div_pos; lia|apply Z.div_lt_upper_bound; lia]).
  set (g := k / 4) in *. set (m := k mod 4) in *. clearbody g m.
  rewrite (Z.shiftl_mul_pow2 1), (Z.shiftl_mul_pow2 _ g), (Z.shiftl_mul_pow2 (m + 1)) by (try destruct (Z.eqb_spec g 0); lia).
  rewrite Z.mul_1_l, <-Z.pow_add_r by lia. rewrite (wrapU_small 64 (2 ^ _)) by (split; [lia|apply Z.pow_lt_mono_r; lia]).
  assert (E : (if g =? 0 then 1 else g) + (lg - 1) = Z.max 1 g + lg - 1) by (destruct (Z.eqb_spec g 0); lia). rewrite E.
  assert (Hd : 2 ^ (Z.max 1 g + lg - 1) <= 2 ^ 60) by (apply Z.pow_le_mono_r; lia).
  rewrite (wrapU_small 64 ((m + 1) * _)) by nia. destruct (Z.eqb_spec g 0) as [->|Hg0].
  - cbn [b2z truthy negb Z.eqb]. change (wrapU 64 (Z.lnot (0 - 1))) with 0. rewrite Z.land_0_r, Z.add_0_l.
    apply wrapU_small. nia.
  - assert (Ht : truthy g = true) by (unfold truthy; destruct (Z.eqb_spec g 0); [lia|done]). rewrite Ht.
    change (wrapU 64 (Z.lnot (b2z true - 1))) with (Z.ones 64). rewrite Z.land_ones by lia.
    replace (lg + (2 - 1) + g) with (lg + 1 + g) by lia.
    assert (Hp : 2 ^ (lg + 1 + g) <= 2 ^ 62) by (apply Z.pow_le_mono_r; lia).
    rewrite Z.mod_small by lia. apply wrapU_small.
    assert (Hs : 2 ^ (lg + 1 + g) = 4 * 2 ^ (Z.max 1 g + lg - 1)).
    { rewrite Z.max_r by lia. rewrite <-(Z.pow_add_r 2 2) by lia. f_equal. lia. }
    nia.
Qed.

Lemma class_size_index lg size : 0 <= lg <= 12 -> 0 < size <= HUGE_MAXCLASS ->
  0 <= class_index lg size < 4 * (62 - lg) - 1 /\
  class_size lg (class_index lg size) = class_round lg size /\
  Z.max 1 (class_index lg size / 4) + lg - 1 = delta_of lg size.
Proof.
  intros Hlg Hsize. rewrite class_round_eq, class_index_eq by done.
  pose proof (x_bounds size Hsize) as [Hx _]. pose proof (huge_max size (proj2 Hsize)) as Hmax.
  destruct (quotient_cases lg size Hlg Hsize) as [(Hc & Hd & Hq)|(Hc & Hd & Hq)].
  - set (q := (size - 1) / 2 ^ delta_of lg size) in *. clearbody q.
    rewrite Z.max_l, (Z.mod_small q) by lia. rewrite Hd. replace (4 * 0 + q) with q by lia.
    rewrite class_size_eq by lia. rewrite Z.div_small, (Z.mod_small q) by lia. cbn [Z.eqb]. rewrite Z.add_0_l. 
    split_and!; [lia..| |lia]. f_equal. f_equal. lia.
  - assert (Hq7 : Z.log2 (2 * size - 1) = 63 -> (size - 1) / 2 ^ delta_of lg size < 7).
    { intros E. rewrite Hd, E. apply Z.div_lt_upper_bound; lia. }
    set (q := (size - 1) / 2 ^ delta_of lg size) in *. clearbody q. rewrite Hd. set (x := Z.log2 (2 * size - 1)) in *. clearbody x.
    rewrite Z.max_r by lia. replace (q mod 4) with (q - 4) by (apply (Z.mod_unique q 4 1); lia).
    assert (Ed : (4 * (x - 2 - lg) + (q - 4)) / 4 = x - 2 - lg) by (symmetry; apply (Z.div_unique _ 4 _ (q - 4)); lia).
    assert (Em : (4 * (x - 2 - lg) + (q - 4)) mod 4 = q - 4) by (symmetry; apply (Z.mod_unique _ 4 (x - 2 - lg)); lia).
    split_and!; [lia..| |lia]. rewrite class_size_eq, Ed, Em by lia. destruct (Z.eqb_spec (x - 2 - lg) 0); [lia|].
    rewrite Z.max_r by lia. replace (x - 2 - lg + lg - 1) with (x - 3) by lia.
    replace (lg + 1 + (x - 2 - lg)) with (2 + (x - 3)) by lia. rewrite Z.pow_add_r by lia. lia.
Qed.

(** * The tables *)

Lemma index2size_table k : 0 <= k < NSIZES -> index2size k = Some (index2size_compute k).
Proof. revert k. apply (all_below (fun k => index2size k = Some (index2size_compute k)) 232). vm_compute. reflexivity. Qed.

Lemma pind2sz_table k : 0 <= k < NPSIZES -> pind2sz k = Some (pind2sz_compute k).
Proof. revert k. apply (all_below (fun k => pind2sz k = Some (pind2sz_compute k)) 199). vm_compute. reflexivity. Qed.

Lemma pind2sz_pages k : 0 <= k < NPSIZES -> pind2sz_compute k mod PAGE = 0.
Proof. revert k. apply (all_below (fun k => pind2sz_compute k mod PAGE = 0) 199). vm_compute. reflexivity. Qed.

Lemma size2index_table size : 0 < size <= LOOKUP_MAXCLASS -> size2index_lookup size = Some (size2index_compute size).
Proof.
  intros Hsize. replace size with (size - 1 + 1) by lia. change LOOKUP_MAXCLASS with 4096 in Hsize. assert (Hk : 0 <= size - 1 < 4096) by lia.
  revert Hk. generalize (size - 1). apply (all_below (fun k => size2index_lookup (k + 1) = Some (size2index_compute (k + 1))) 4096). vm_compute. reflexivity.
Qed.

Lemma tiny_classes size : 0 < size <= 8 -> size2index_compute size = 0 /\ s2u_compute size = 8.
Proof.
  intros Hsize. replace size with (size - 1 + 1) by lia. assert (Hk : 0 <= size - 1 < 8) by lia.
  revert Hk. generalize (size - 1). apply (all_below (fun k => size2index_compute (k + 1) = 0 /\ s2u_compute (k + 1) = 8) 8). vm_compute. reflexivity.
Qed.

Lemma quantum_steps k : 0 <= k < 230 -> class_size LG_QUANTUM (k + 1) = class_size LG_QUANTUM k + 2 ^ (Z.max 1 ((k + 1) / 4) + LG_QUANTUM - 1).
Proof. revert k. apply (all_below (fun k => class_size LG_QUANTUM (k + 1) = class_size LG_QUANTUM k + 2 ^ (Z.max 1 ((k + 1) / 4) + LG_QUANTUM - 1)) 230). vm_compute. reflexivity. Qed.

Lemma page_steps k : 0 <= k < 198 -> class_size LG_PAGE (k + 1) = class_size LG_PAGE k + 2 ^ (Z.max 1 ((k + 1) / 4) + LG_PAGE - 1).
Proof. revert k. apply (all_below (fun k => class_size LG_PAGE (k + 1) = class_size LG_PAGE k + 2 ^ (Z.max 1 ((k + 1) / 4) + LG_PAGE - 1)) 198). vm_compute. reflexivity. Qed.

(** * Correctness *)

Lemma index2size_grows k : 0 <= k < 231 -> index2size_compute k < index2size_compute (k + 1).
Proof.
  intros Hk. unfold index2size_compute. destruct (Z.ltb_spec (k + 1) 1); [lia|]. destruct (Z.ltb_spec k 1).
  - replace k with 0 by lia. reflexivity.
  - replace (k + 1 - 1) with (k - 1 + 1) by lia. rewrite quantum_steps by lia. lia.
Qed.

Lemma pind2sz_class k : pind2sz_compute k = class_size LG_PAGE k.
Proof. reflexivity. Qed.

Lemma pind2sz_grows k : 0 <= k < 198 -> pind2sz_compute k < pind2sz_compute (k + 1).
Proof. intros Hk. rewrite !pind2sz_class, page_steps by lia. lia. Qed.

(** The class before the class of a size is less than the size. *)
Lemma class_before lg size : 0 <= lg <= 12 -> 0 < size <= HUGE_MAXCLASS -> 0 < class_index lg size ->
  class_size lg (class_index lg size) = class_size lg (class_index lg size - 1) + 2 ^ (Z.max 1 (class_index lg size / 4) + lg - 1) ->
  class_size lg (class_index lg size - 1) < size.
Proof.
  intros Hlg Hsize _ Hstep. destruct (class_size_index lg size Hlg Hsize) as (_ & E & Ed). rewrite E, Ed in Hstep.
  pose proof (class_round_bounds lg size Hlg Hsize) as [? _]. lia.
Qed.

Lemma delta_small lg size : 0 <= lg <= 12 -> 0 < size <= HUGE_MAXCLASS -> 2 ^ delta_of lg size <= Z.max (2 ^ lg) (size / 4).
Proof.
  intros Hlg Hsize. pose proof (delta_bounds lg size Hlg Hsize).
  destruct (quotient_cases lg size Hlg Hsize) as [(_ & -> & _)|(_ & _ & Hq)]; [lia|].
  pose proof (Z.mul_div_le (size - 1) (2 ^ delta_of lg size) ltac:(lia)). apply Z.max_le_iff. right.
  apply Z.div_le_lower_bound; [lia|]. nia.
Qed.

(** What is shown of the class of a size: index, size, bounds on the neighbours. *)
Lemma size_class_of size : 0 < size <= HUGE_MAXCLASS ->
  let i := size2index_compute size in
  0 <= i < NSIZES /\ s2u_compute size = index2size_compute i /\ size <= index2size_compute i /\
  (0 < i -> index2size_compute (i - 1) < size) /\ s2u_compute size - size < Z.max 16 (size / 4).
Proof.
  intros Hsize i. destruct (decide (size <= 8)) as [Hle|Hgt].
  - destruct (tiny_classes size ltac:(lia)) as [E1 E2]. unfold i. rewrite E1, E2.
    change (index2size_compute 0) with 8. split_and!; lia.
  - assert (Hi : i = 1 + class_index LG_QUANTUM size).
    { unfold i, size2index_compute. destruct (Z.gtb_spec size HUGE_MAXCLASS); [lia|]. change (Z.shiftl 1 3) with 8.
      destruct (Z.leb_spec size 8); [lia|done]. }
    assert (Hu : s2u_compute size = class_round LG_QUANTUM size).
    { unfold s2u_compute. destruct (Z.gtb_spec size HUGE_MAXCLASS); [lia|]. change (Z.shiftl 1 3) with 8.
      destruct (Z.leb_spec size 8); [lia|done]. }
    destruct (class_size_index LG_QUANTUM size ltac:(lia) Hsize) as (Hr & E & Ed). rewrite Hu, Hi. clearbody i. subst i.
    pose proof (class_round_bounds LG_QUANTUM size ltac:(lia) Hsize) as [Hb _].
    assert (Hc : index2size_compute (1 + class_index LG_QUANTUM size) = class_round LG_QUANTUM size).
    { unfold index2size_compute. destruct (Z.ltb_spec (1 + class_index LG_QUANTUM size) 1); [lia|]. rewrite <-E. f_equal. lia. }
    rewrite Hc. split_and!; [lia..| |].
    + intros _. unfold index2size_compute. destruct (Z.ltb_spec (1 + class_index LG_QUANTUM size - 1) 1).
      { replace (class_index LG_QUANTUM size) with 0 by lia. change (Z.shiftl 1 _) with 8. lia. }
      replace (1 + class_index LG_QUANTUM size - 1 - 1) with (class_index LG_QUANTUM size - 1) by lia.
      apply class_before; [lia|done|lia|]. pose proof (quantum_steps (class_index LG_QUANTUM size - 1) ltac:(lia)) as Hs.
      by rewrite Z.sub_add in Hs.
    + pose proof (delta_small LG_QUANTUM size ltac:(lia) Hsize) as Hd. change (2 ^ 4) with 16 in Hd. lia.
Qed.

Lemma size2index_eq size : 0 < size -> size2index size = Some (size2index_compute size).
Proof.
  intros Hsize. unfold size2index. destruct (Z.leb_spec size LOOKUP_MAXCLASS); [|done]. by apply size2index_table.
Qed.

Lemma s2u_eq size : 0 < size -> s2u size = Some (s2u_compute size).
Proof.
  intros Hsize. unfold s2u. destruct (Z.leb_spec size LOOKUP_MAXCLASS) as [Hle|]; [|done].
  rewrite size2index_table by done. cbn [mbind option_bind]. assert (size <= HUGE_MAXCLASS) by (apply (Z.le_trans _ _ _ Hle); done).
  destruct (size_class_of size) as (Hi & -> & _); [done|]. by apply index2size_table.
Qed.

(** The sizes of [n] classes, of which [f] is the [k]-th, and the smallest class that is not less than a size. *)
Definition least_class (f : Z -> option Z) (n size i u : Z) : Prop :=
  0 <= i < n /\ f i = Some u /\ size <= u /\ forall j v, 0 <= j < i -> f j = Some v -> v < size.

Lemma least_class_of (f : Z -> option Z) (g : Z -> Z) n size i :
  (forall k, 0 <= k < n -> f k = Some (g k)) -> (forall k, 0 <= k < n - 1 -> g k < g (k + 1)) ->
  0 <= i < n -> size <= g i -> (0 < i -> g (i - 1) < size) -> least_class f n size i (g i).
Proof.
  intros Hf Hg Hi Hsize Hprev. split_and!; [lia..|by apply Hf|done|]. intros j v Hj Hv. rewrite Hf in Hv by lia. injection Hv as <-.
  pose proof (ladder g (n - 1) j (i - 1) Hg ltac:(lia) ltac:(lia)). specialize (Hprev ltac:(lia)). lia.
Qed.

(** The class of a size that is a class is the class itself. *)
Lemma least_class_self (f : Z -> option Z) (g : Z -> Z) n k i u :
  (forall k, 0 <= k < n -> f k = Some (g k)) -> (forall k, 0 <= k < n - 1 -> g k < g (k + 1)) ->
  0 <= k < n -> least_class f n (g k) i u -> i = k.
Proof.
  intros Hf Hg Hk (Hi & Hu & Hle & Hprev). rewrite Hf in Hu by lia. injection Hu as <-.
  destruct (Z.lt_total i k) as [Hlt|[->|Hgt]]; [|done|].
  - pose proof (ladder g (n - 1) (i + 1) k Hg ltac:(lia) ltac:(lia)). specialize (Hg i ltac:(lia)). lia.
  - specialize (Hprev k (g k) ltac:(lia)). rewrite Hf in Hprev by lia. specialize (Hprev eq_refl). lia.
Qed.

Lemma size_least size : 0 < size <= HUGE_MAXCLASS -> exists i u,
  size2index size = Some i /\ s2u size = Some u /\ least_class index2size NSIZES size i u /\ u - size < Z.max 16 (size / 4).
Proof.
  intros Hsize. destruct (size_class_of size Hsize) as (Hi & Hu & Hle & Hprev & Hw).
  exists (size2index_compute size), (s2u_compute size). rewrite size2index_eq, s2u_eq by lia. split_and!; [done..| |done].
  rewrite Hu. apply least_class_of; [apply index2size_table|apply index2size_grows|lia|done|done].
Qed.

Lemma page_least psz : 0 < psz <= HUGE_MAXCLASS -> least_class pind2sz NPSIZES psz (psz2ind psz) (psz2u psz).
Proof.
  intros Hpsz. destruct (class_size_index LG_PAGE psz ltac:(lia) Hpsz) as (Hr & E & _).
  pose proof (class_round_bounds LG_PAGE psz ltac:(lia) Hpsz) as [Hb _].
  unfold psz2ind, psz2u. destruct (Z.gtb_spec psz HUGE_MAXCLASS); [lia|]. rewrite <-E, <-pind2sz_class.
  apply (least_class_of pind2sz pind2sz_compute); [apply pind2sz_table|apply pind2sz_grows|lia|rewrite pind2sz_class, E; lia|].
  intros Hpos. rewrite pind2sz_class. apply class_before; [lia|done|done|]. pose proof (page_steps (class_index LG_PAGE psz - 1) ltac:(lia)) as Hs.
  by rewrite Z.sub_add in Hs.
Qed.


(** ** Alignment *)

Lemma land_wrapU a m : 0 <= a < 2 ^ 64 -> Z.land a (wrapU 64 m) = Z.land a m.
Proof.
  intros Ha. unfold wrapU. rewrite <-!Z.land_ones, Z.land_assoc, (Z.land_comm _ (Z.ones 64)), Z.land_assoc by lia. f_equal.
  rewrite Z.land_comm, Z.land_ones by lia. apply Z.mod_small. lia.
Qed.

Lemma ALIGNMENT_CEILING_spec s a : 0 <= s -> 0 <= a -> s + 2 ^ a <= 2 ^ 64 ->
  ALIGNMENT_CEILING s (2 ^ a) = (s + 2 ^ a - 1) / 2 ^ a * 2 ^ a /\
  s <= ALIGNMENT_CEILING s (2 ^ a) < s + 2 ^ a /\ (2 ^ a | ALIGNMENT_CEILING s (2 ^ a)).
Proof.
  intros Hs Ha Hb. assert (E : ALIGNMENT_CEILING s (2 ^ a) = (s + 2 ^ a - 1) / 2 ^ a * 2 ^ a).
  { unfold ALIGNMENT_CEILING. rewrite (wrapU_small 64 (s + _)) by lia. rewrite land_wrapU by lia.
    rewrite <-land_lnot_mask by lia. rewrite Z.shiftl_mul_pow2, Z.mul_1_l by lia. f_equal; [lia|]. unfold Z.lnot. lia. }
  rewrite E. split_and!; [done|..|by exists ((s + 2 ^ a - 1) / 2 ^ a)].
  - pose proof (Z.mul_succ_div_gt (s + 2 ^ a - 1) (2 ^ a) ltac:(lia)). lia.
  - pose proof (Z.mul_div_le (s + 2 ^ a - 1) (2 ^ a) ltac:(lia)). lia.
Qed.

(** A multiple of a power of two is rounded up to a multiple of it. *)
Lemma s2u_multiple size a : 0 <= a <= 12 -> 0 < size <= HUGE_MAXCLASS -> (2 ^ a | size) -> (2 ^ a | s2u_compute size).
Proof.
  intros Ha Hsize Hd. unfold s2u_compute. destruct (Z.gtb_spec size HUGE_MAXCLASS); [lia|]. change (Z.shiftl 1 3) with 8.
  destruct (Z.leb_spec size 8) as [Hle|Hgt].
  - assert (a <= 3).
    { apply Z.divide_pos_le in Hd; [|lia]. apply Z.nlt_ge. intros Hlt. pose proof (Z.pow_le_mono_r 2 4 a ltac:(lia) ltac:(lia)). lia. }
    pose proof (tiny_classes size ltac:(lia)) as [_ Ht]. unfold s2u_compute in Ht. destruct (Z.gtb_spec size HUGE_MAXCLASS); [lia|].
    change (Z.shiftl 1 3) with 8 in Ht. destruct (Z.leb_spec size 8); [|lia]. rewrite Ht. exists (2 ^ (3 - a)).
    rewrite <-Z.pow_add_r by lia. replace (3 - a + a) with 3 by lia. done.
  - pose proof (delta_bounds LG_QUANTUM size ltac:(lia) Hsize) as Hb. destruct (class_round_bounds LG_QUANTUM size ltac:(lia) Hsize) as [Hr Hdd].
    set (d := delta_of LG_QUANTUM size) in *. destruct (decide (a <= d)).
    + apply Z.divide_trans with (2 ^ d); [|done]. exists (2 ^ (d - a)). rewrite <-Z.pow_add_r by lia. f_equal. lia.
    + assert (class_round LG_QUANTUM size = size) as ->; [|done].
      assert (Hds : (2 ^ d | size)).
      { apply Z.divide_trans with (2 ^ a); [|done]. exists (2 ^ (a - d)). rewrite <-Z.pow_add_r by lia. f_equal. lia. }
      pose proof (Z.divide_sub_r _ _ _ Hdd Hds) as Hz. destruct (decide (class_round LG_QUANTUM size - size = 0)); [lia|].
      apply Z.divide_pos_le in Hz; lia.
Qed.

Lemma pow2_class c : 3 <= c <= 62 -> s2u_compute (2 ^ c) = 2 ^ c.
Proof.
  intros Hc. replace c with (c - 3 + 3) by lia. assert (Hk : 0 <= c - 3 < 60) by lia. revert Hk. generalize (c - 3).
  apply (all_below (fun k => s2u_compute (2 ^ (k + 3)) = 2 ^ (k + 3)) 60). vm_compute. reflexivity.
Qed.

Lemma s2u_class size : 0 < size <= HUGE_MAXCLASS -> size <= s2u_compute size <= HUGE_MAXCLASS /\ exists i, index2size i = Some (s2u_compute size).
Proof.
  intros Hsize. destruct (size_class_of size Hsize) as (Hi & -> & Hle & _). split; [|eexists; by apply index2size_table].
  split; [done|]. pose proof (ladder index2size_compute 231 (size2index_compute size) 231 index2size_grows ltac:(lia) ltac:(lia)) as H1.
  by change (index2size_compute 231) with HUGE_MAXCLASS in H1.
Qed.

Section sa2u.
Context (large_maxclass chunksize large_pad arena_maxrun c size a : Z).
Context (Hchunk : chunksize = 2 ^ c) (Hc : 14 < c <= 62) (Hlarge : large_maxclass < chunksize) (Hpad : 0 <= large_pad <= PAGE).
Context (Hsize : 0 < size < 2 ^ 64) (Ha : 0 <= a < 64).

Lemma c_bounds : 2 ^ 15 <= 2 ^ c <= 2 ^ 62.
Proof using Hc. split; apply Z.pow_le_mono_r; lia. Qed.

Lemma pow2_huge b : 0 <= b < 64 -> HUGE_MAXCLASS < 2 ^ b <-> b = 63.
Proof using.
  clear. intros Hb. change HUGE_MAXCLASS with (7 * 2 ^ 60). split; [|intros ->; done]. intros Hlt.
  destruct (decide (b = 63)); [done|]. pose proof (Z.pow_le_mono_r 2 b 62 ltac:(lia) ltac:(lia)). lia.
Qed.

(** The greater of two powers of two. *)
Lemma ceiling_pow2 b b' : 0 <= b <= 63 -> 0 <= b' <= 62 -> ALIGNMENT_CEILING (2 ^ b) (2 ^ b') = 2 ^ Z.max b b'.
Proof using.
  clear. intros Hb Hb'. assert (2 ^ b <= 2 ^ 63 /\ 2 ^ b' <= 2 ^ 62) by (split; apply Z.pow_le_mono_r; lia).
  destruct (ALIGNMENT_CEILING_spec (2 ^ b) b') as (_ & Hr & Hd); [lia..|].
  destruct (decide (b <= b')) as [Hle|Hgt].
  - rewrite Z.max_r by lia. destruct Hd as [k Hk]. rewrite Hk in *. pose proof (Z.pow_le_mono_r 2 b b' ltac:(lia) Hle).
    assert (0 < k < 2) by nia. replace k with 1 by lia. lia.
  - rewrite Z.max_l by lia. assert (Hd' : (2 ^ b' | 2 ^ b)).
    { exists (2 ^ (b - b')). rewrite <-Z.pow_add_r by lia. f_equal. lia. }
    pose proof (Z.divide_sub_r _ _ _ Hd Hd') as Hz. destruct (decide (ALIGNMENT_CEILING (2 ^ b) (2 ^ b') - 2 ^ b = 0)); [lia|].
    apply Z.divide_pos_le in Hz; lia.
Qed.

Lemma sa2u_huge_spec b : 0 <= b < 64 -> exists u, sa2u_huge chunksize size (2 ^ b) = Some u /\
  (u = 0 <-> HUGE_MAXCLASS < size \/ HUGE_MAXCLASS < 2 ^ b) /\
  (u <> 0 -> size <= u /\ chunksize <= u /\ exists i, index2size i = Some u).
Proof using Hchunk Hc Hsize.
  intros Hb. pose proof c_bounds. unfold sa2u_huge. rewrite Hchunk. destruct (Z.gtb_spec (2 ^ b) HUGE_MAXCLASS) as [Hgt|Hle].
  { exists 0. split_and!; [done|split; [by right|done]|done]. }
  assert (Hb62 : b <= 62) by (pose proof (pow2_huge b Hb); lia). rewrite ceiling_pow2 by lia.
  assert (Hm : 2 ^ 15 <= 2 ^ Z.max b c <= 2 ^ 62) by (split; apply Z.pow_le_mono_r; lia).
  assert (Hfin : forall usize, 0 < usize <= HUGE_MAXCLASS -> (wrapU 64 (usize + 2 ^ Z.max b c - PAGE) <? usize) = false).
  { intros usize Hu. pose proof (huge_max usize (proj2 Hu)). change PAGE with 4096. rewrite wrapU_small by lia. lia. }
  destruct (Z.leb_spec size (2 ^ c)) as [Hsc|Hsc]; cbn [mbind option_bind].
  - assert (2 ^ c <= HUGE_MAXCLASS) by (change HUGE_MAXCLASS with (7 * 2 ^ 60); lia).
    rewrite Hfin by lia. exists (2 ^ c). split_and!; [done|lia|]. intros _. split_and!; [lia..|].
    rewrite <-(pow2_class c) by lia. apply s2u_class. lia.
  - rewrite s2u_eq by lia. cbn [mbind option_bind]. destruct (decide (size <= HUGE_MAXCLASS)) as [Hs|Hs].
    + destruct (s2u_class size) as [Hu Hi]; [lia|]. destruct (Z.ltb_spec (s2u_compute size) size); [lia|]. rewrite Hfin by lia.
      exists (s2u_compute size). split_and!; [done|lia|]. intros _. split_and!; [lia..|done].
    + assert (s2u_compute size = 0) as -> by (unfold s2u_compute; destruct (Z.gtb_spec size HUGE_MAXCLASS); [done|lia]).
      destruct (Z.ltb_spec 0 size); [|lia]. exists 0. split_and!; [done|lia|done].
Qed.

(** What sa2u promises of a usable size [u] for an alignment [2 ^ b]. *)
Definition aligned_class (b u : Z) : Prop :=
  (u = 0 <-> HUGE_MAXCLASS < size \/ HUGE_MAXCLASS < 2 ^ b) /\
  (u <> 0 -> size <= u /\ (exists i, index2size i = Some u) /\ (u < LARGE_MINCLASS -> (2 ^ b | u)) /\
    (LARGE_MINCLASS <= u < chunksize -> u + large_pad + 2 ^ Z.max b LG_PAGE - PAGE <= arena_maxrun)).

Lemma sa2u_huge_aligned b b' : 0 <= b < 64 -> b' = b \/ b' = Z.max b LG_PAGE ->
  exists u, sa2u_huge chunksize size (2 ^ b') = Some u /\ aligned_class b u.
Proof using Hchunk Hc Hsize.
  intros Hb Hb'. pose proof c_bounds. destruct (sa2u_huge_spec b' ltac:(lia)) as (u & -> & Hz & Hnz). exists u. split; [done|]. split.
  - rewrite Hz, !pow2_huge by lia. lia.
  - intros Hu. destruct (Hnz Hu) as (? & ? & ?). change LARGE_MINCLASS with (2 ^ 14). split_and!; [done..| |]; intros; lia.
Qed.

Lemma sa2u_large_aligned :
  exists u, (if (size <=? large_maxclass) && (2 ^ a <? chunksize) then
      usize ← (if size <=? LARGE_MINCLASS then Some LARGE_MINCLASS else s2u size);
      if wrapU 64 (usize + large_pad + ALIGNMENT_CEILING (2 ^ a) PAGE - PAGE) <=? arena_maxrun then Some usize
      else sa2u_huge chunksize size (ALIGNMENT_CEILING (2 ^ a) PAGE)
    else sa2u_huge chunksize size (2 ^ a)) = Some u /\ aligned_class a u.
Proof using Hchunk Hc Hlarge Hpad Hsize Ha.
  pose proof c_bounds as Hcb. destruct (_ && _) eqn:E; [|apply sa2u_huge_aligned; lia]. apply andb_true_iff in E as [E1 E2].
  change PAGE with (2 ^ 12) in *. rewrite ceiling_pow2 by lia.
  assert (Hac : a < c) by (apply (Z.pow_lt_mono_r_iff 2); lia).
  assert (Hsz : size <= HUGE_MAXCLASS) by (change HUGE_MAXCLASS with (7 * 2 ^ 60); lia).
  assert (Hu : exists usize, (if size <=? LARGE_MINCLASS then Some LARGE_MINCLASS else s2u size) = Some usize /\
    size <= usize <= HUGE_MAXCLASS /\ LARGE_MINCLASS <= usize /\ exists i, index2size i = Some usize).
  { destruct (Z.leb_spec size LARGE_MINCLASS) as [Hl|Hl].
    - exists (2 ^ 14). split_and!; [done..|]. rewrite <-(pow2_class 14) by lia. by apply s2u_class.
    - rewrite s2u_eq by lia. destruct (s2u_class size) as [Hr Hi]; [lia|]. exists (s2u_compute size). split_and!; [done|lia..|done]. }
  destruct Hu as (usize & -> & Hr & Hmin & Hi). cbn [mbind option_bind].
  assert (Hm : 2 ^ 12 <= 2 ^ Z.max a 12 <= 2 ^ 62) by (split; apply Z.pow_le_mono_r; lia).
  pose proof (huge_max usize (proj2 Hr)). rewrite wrapU_small by lia.
  destruct (Z.leb_spec (usize + large_pad + 2 ^ Z.max a 12 - 2 ^ 12) arena_maxrun) as [Hrun|]; [|apply sa2u_huge_aligned; lia].
  exists usize. split; [done|]. split; [rewrite pow2_huge by lia; lia|]. intros _. split_and!; [lia|done|lia|intros _; done].
Qed.

(** Sa2u, the usable size for a size and an alignment, is 0 exactly when one of them exceeds the greatest class, and
    otherwise a size class that holds the size; a small one is a multiple of the alignment, and a large one leaves a run
    room for the padding that aligns it. *)
Theorem sa2u_correct : exists u,
  sa2u large_maxclass chunksize large_pad arena_maxrun size (2 ^ a) = Some u /\ aligned_class a u.
Proof using Hchunk Hc Hlarge Hpad Hsize Ha.
  unfold sa2u. cbv zeta. destruct (_ && (2 ^ a <? PAGE)) eqn:E; [|apply sa2u_large_aligned]. apply andb_true_iff in E as [E1 E2].
  change PAGE with (2 ^ 12) in E2. change SMALL_MAXCLASS with 14336 in E1.
  assert (Ha12 : a < 12) by (apply (Z.pow_lt_mono_r_iff 2); lia).
  destruct (ALIGNMENT_CEILING_spec size a) as (_ & Hr & Hd); [lia..|]. set (s := ALIGNMENT_CEILING size (2 ^ a)) in *. clearbody s.
  assert (Hs : 0 < s <= HUGE_MAXCLASS) by (change HUGE_MAXCLASS with (7 * 2 ^ 60); lia).
  rewrite (s2u_eq s) by lia. pose proof sa2u_large_aligned as Hla. cbn [mbind option_bind] in Hla |- *.
  destruct (Z.ltb_spec (s2u_compute s) LARGE_MINCLASS) as [Hl|]; [|exact Hla].
  destruct (s2u_class s Hs) as [Hu Hi]. exists (s2u_compute s). split; [done|]. split.
  - rewrite pow2_huge by lia. change HUGE_MAXCLASS with (7 * 2 ^ 60) in *. lia.
  - intros _. split_and!; [lia|done|intros _; apply s2u_multiple; [lia|done|done]|lia].
Qed.
End sa2u.

(** Chunks of 2 MiB; 48 bytes aligned to 64. *)
Lemma sa2u_correct_witness :
  sa2u 1835008 (2 ^ 21) 4096 2093056 48 (2 ^ 6) = Some 64 /\
  exists u, sa2u 1835008 (2 ^ 21) 4096 2093056 48 (2 ^ 6) = Some u /\ aligned_class (2 ^ 21) 4096 2093056 48 6 u.
Proof. split; [vm_compute; reflexivity|]. apply (sa2u_correct 1835008 (2 ^ 21) 4096 2093056 21 48 6); [reflexivity|lia|lia|split; vm_compute; discriminate|lia|lia]. Defined.
