(* ===== verification/JeBitmap.v ===== *)
(** Bitmaps of the memory allocator: jemalloc's bitmap.h and bitmap.c, which record the free regions of a run.  A bitmap
    is an array of groups of bits; where runs can have many regions it is a tree, in which a bit of a group says whether
    a group of the level below has a bit that is set.  Both configurations are modelled (USE_TREE), and groups of any
    power of two of bits up to 64; the largest bitmap and the array of levels that goes with it are parameters, and an
    assertion that fails is a fault.  A bit of the interface is set when its bit in the array is not. *)
From S2P Require Import Prelude Result JeUtil.
From Stdlib Require Import ZArith Lia.

Local Open Scope Z_scope.

(** * Definitions *)

Record bitmap_info := mk_info { nbits : Z; nlevels : nat; levels : list Z; ngroups : Z }.

Section bitmap.
Context (USE_TREE : bool) (LG_BITMAP_GROUP_NBITS LG_SIZEOF_BITMAP LG_BITMAP_MAXBITS : Z).

Local Abbreviation BITMAP_GROUP_NBITS := (Z.shiftl 1 LG_BITMAP_GROUP_NBITS).
Local Abbreviation BITMAP_GROUP_NBITS_MASK := (BITMAP_GROUP_NBITS - 1).

Definition BITMAP_BITS2GROUPS (nbits : Z) : Z := Z.shiftr (nbits + BITMAP_GROUP_NBITS_MASK) LG_BITMAP_GROUP_NBITS.

(** The groups of so many levels, which the source writes out up to four. *)
Fixpoint BITMAP_GROUPS_LEVEL (levels : nat) (nbits : Z) : Z :=
  match levels with
  | O => 0
  | S levels => BITMAP_BITS2GROUPS nbits + BITMAP_GROUPS_LEVEL levels (BITMAP_BITS2GROUPS nbits)
  end.

(** As many levels as LG_BITMAP_MAXBITS takes, LG_BITMAP_GROUP_NBITS for each.  With more than four the source does not compile. *)
Definition BITMAP_GROUPS_MAX : Z :=
  BITMAP_GROUPS_LEVEL (Z.to_nat ((LG_BITMAP_MAXBITS + LG_BITMAP_GROUP_NBITS - 1) / LG_BITMAP_GROUP_NBITS)) (Z.shiftl 1 LG_BITMAP_MAXBITS).

Definition BITMAP_MAX_LEVELS : Z := LG_BITMAP_MAXBITS / LG_SIZEOF_BITMAP + b2z (truthy (LG_BITMAP_MAXBITS mod LG_SIZEOF_BITMAP)).

(** The offsets of the levels from [i] on, of which the level below starts at [group_offset] and has [group_count] groups.
    The array of levels has BITMAP_MAX_LEVELS + 1 elements. *)
Fixpoint levels_loop (fuel i : nat) (group_offset group_count : Z) : result (list Z) :=
  match fuel with
  | O => Fault
  | S fuel =>
      let next := group_offset + group_count in
      if group_count >? 1 then
        if Z.of_nat i <? BITMAP_MAX_LEVELS
        then l <-- levels_loop fuel (S i) next (BITMAP_BITS2GROUPS group_count) ;; Ok (next :: l)
        else Fault
      else if Z.of_nat i <? BITMAP_MAX_LEVELS + 1 then Ok [next] else Fault
  end.

Definition bitmap_info_init (nbits : Z) : result bitmap_info :=
  if negb ((0 <? nbits) && (nbits <=? Z.shiftl 1 LG_BITMAP_MAXBITS)) then Fault else
  let group_count := BITMAP_BITS2GROUPS nbits in
  if USE_TREE then
    l <-- levels_loop 64 1 0 group_count ;;
    if default 0 (last l) <=? BITMAP_GROUPS_MAX then Ok (mk_info nbits (length l) (0 :: l) 0) else Fault
  else Ok (mk_info nbits 0 [] group_count).

Definition bitmap_info_ngroups (binfo : bitmap_info) : result Z :=
  if USE_TREE then at_ (levels binfo) (nlevels binfo) else Ok (ngroups binfo).

(** The unused bits of the last group of a level, whose index is [last], are cleared. *)
Definition clear_extra (bitmap : list Z) (last count : Z) : result (list Z) :=
  let extra := Z.land (BITMAP_GROUP_NBITS - Z.land count BITMAP_GROUP_NBITS_MASK) BITMAP_GROUP_NBITS_MASK in
  if truthy extra then
    g <-- at_ bitmap (Z.to_nat last) ;; Ok (<[Z.to_nat last := Z.shiftr g extra]> bitmap)
  else Ok bitmap.

Fixpoint init_loop (n i : nat) (binfo : bitmap_info) (bitmap : list Z) : result (list Z) :=
  match n with
  | O => Ok bitmap
  | S n =>
      o <-- at_ (levels binfo) i ;;
      o1 <-- at_ (levels binfo) (i - 1) ;;
      o2 <-- at_ (levels binfo) (i + 1) ;;
      bitmap <-- clear_extra bitmap (o2 - 1) (o - o1) ;;
      init_loop n (S i) binfo bitmap
  end.

(** The bitmap that memset leaves, with all bits set, is trimmed. *)
Definition bitmap_init (binfo : bitmap_info) : result (list Z) :=
  n <-- bitmap_info_ngroups binfo ;;
  let bitmap := replicate (Z.to_nat n) (2 ^ BITMAP_GROUP_NBITS - 1) in
  if USE_TREE then
    o <-- at_ (levels binfo) 1 ;;
    bitmap <-- clear_extra bitmap (o - 1) (nbits binfo) ;;
    init_loop (nlevels binfo - 1) 1 binfo bitmap
  else clear_extra bitmap (ngroups binfo - 1) (nbits binfo).

Fixpoint full_loop (n i : nat) (bitmap : list Z) : result bool :=
  match n with
  | O => Ok true
  | S n => g <-- at_ bitmap i ;; if negb (g =? 0) then Ok false else full_loop n (S i) bitmap
  end.

Definition bitmap_full (bitmap : list Z) (binfo : bitmap_info) : result bool :=
  if USE_TREE then
    o <-- at_ (levels binfo) (nlevels binfo) ;;
    rg <-- at_ bitmap (Z.to_nat (o - 1)) ;; Ok (rg =? 0)
  else full_loop (Z.to_nat (ngroups binfo)) 0 bitmap.

Local Abbreviation group_bit bit := (Z.shiftl 1 (Z.land bit BITMAP_GROUP_NBITS_MASK)).

Definition bitmap_get (bitmap : list Z) (bit : Z) : result bool :=
  let goff := Z.shiftr bit LG_BITMAP_GROUP_NBITS in
  g <-- at_ bitmap (Z.to_nat goff) ;; Ok (negb (truthy (Z.land g (group_bit bit)))).

(** The loops of bitmap_set and bitmap_unset, which pass a change of a group on to the levels above; they end when the
    group, after or before the change, is not 0. *)
Fixpoint propagate_loop (setting : bool) (n i : nat) (binfo : bitmap_info) (goff : Z) (bitmap : list Z) : result (list Z) :=
  match n with
  | O => Ok bitmap
  | S n =>
      let bit := goff in
      let goff := Z.shiftr bit LG_BITMAP_GROUP_NBITS in
      o <-- at_ (levels binfo) i ;;
      g <-- at_ bitmap (Z.to_nat (o + goff)) ;;
      let g' := Z.lxor g (group_bit bit) in
      let bitmap := <[Z.to_nat (o + goff) := g']> bitmap in
      if negb ((if setting then g' else g) =? 0) then Ok bitmap else propagate_loop setting n (S i) binfo goff bitmap
  end.

Definition bitmap_set (bitmap : list Z) (binfo : bitmap_info) (bit : Z) : result (list Z) :=
  let goff := Z.shiftr bit LG_BITMAP_GROUP_NBITS in
  g <-- at_ bitmap (Z.to_nat goff) ;;
  let g := Z.lxor g (group_bit bit) in
  let bitmap := <[Z.to_nat goff := g]> bitmap in
  if USE_TREE && (g =? 0) then propagate_loop true (nlevels binfo - 1) 1 binfo goff bitmap else Ok bitmap.

Fixpoint sfu_tree (i : nat) (binfo : bitmap_info) (bitmap : list Z) (bit : Z) : result Z :=
  match i with
  | O => Ok bit
  | S i =>
      o <-- at_ (levels binfo) i ;;
      g <-- at_ bitmap (Z.to_nat (o + bit)) ;;
      sfu_tree i binfo bitmap (Z.shiftl bit LG_BITMAP_GROUP_NBITS + (ffs_lu g - 1))
  end.

Fixpoint sfu_flat (fuel i : nat) (bitmap : list Z) : result Z :=
  match fuel with
  | O => Fault
  | S fuel =>
      g <-- at_ bitmap i ;;
      let bit := ffs_lu g in
      if bit =? 0 then sfu_flat fuel (S i) bitmap else Ok (Z.shiftl (Z.of_nat i) LG_BITMAP_GROUP_NBITS + (bit - 1))
  end.

(** The root is the one group of its level, so that the first step is the others' with bit 0. *)
Definition bitmap_sfu (bitmap : list Z) (binfo : bitmap_info) : result (list Z * Z) :=
  bit <-- (if USE_TREE then sfu_tree (nlevels binfo) binfo bitmap 0 else sfu_flat (S (length bitmap)) 0 bitmap) ;;
  bitmap <-- bitmap_set bitmap binfo bit ;; Ok (bitmap, bit).

Definition bitmap_unset (bitmap : list Z) (binfo : bitmap_info) (bit : Z) : result (list Z) :=
  let goff := Z.shiftr bit LG_BITMAP_GROUP_NBITS in
  g <-- at_ bitmap (Z.to_nat goff) ;;
  let propagate := g =? 0 in
  let g := Z.lxor g (group_bit bit) in
  let bitmap := <[Z.to_nat goff := g]> bitmap in
  if USE_TREE && propagate then propagate_loop false (nlevels binfo - 1) 1 binfo goff bitmap else Ok bitmap.
End bitmap.

(** * Geometry *)

Section geometry.
Context (lg : Z) (Hlg : 0 < lg <= 6) (nb : Z) (Hnb : 0 < nb).

Local Abbreviation N := (2 ^ lg).

(** The number of bits of a level, which is the number of groups of the level below. *)
Fixpoint count (i : nat) : Z := match i with O => nb | S i => BITMAP_BITS2GROUPS lg (count i) end.

Fixpoint offset (i : nat) : Z := match i with O => 0 | S i => offset i + count (S i) end.

Lemma N_bounds : 2 <= N <= 64.
Proof using Hlg. split; [apply (Z.pow_le_mono_r 2 1)|apply (Z.pow_le_mono_r 2 _ 6)]; lia. Qed.

Lemma groups_spec m : 0 < m -> 0 < BITMAP_BITS2GROUPS lg m /\ m <= N * BITMAP_BITS2GROUPS lg m < m + N.
Proof using Hlg.
  intros Hm. pose proof N_bounds. unfold BITMAP_BITS2GROUPS. rewrite Z.shiftr_div_pow2, Z.shiftl_mul_pow2, Z.mul_1_l by lia.
  pose proof (Z.mul_div_le (m + (N - 1)) N ltac:(lia)). pose proof (Z.mul_succ_div_gt (m + (N - 1)) N ltac:(lia)).
  split_and!; [apply Z.div_str_pos|..]; lia.
Qed.

Lemma count_pos i : 0 < count i.
Proof using Hlg Hnb. induction i as [|i IH]; [done|]. apply groups_spec, IH. Qed.

Lemma count_step i : count i <= N * count (S i) < count i + N.
Proof using Hlg Hnb. apply groups_spec, count_pos. Qed.

Lemma offset_mono i j : (i <= j)%nat -> offset i <= offset j.
Proof using Hlg Hnb.
  intros Hij. induction Hij as [|j _ IH]; [lia|]. cbn [offset]. pose proof (count_pos (S j)). lia.
Qed.

Lemma offset_nonneg i : 0 <= offset i.
Proof using Hlg Hnb. apply (offset_mono 0 i). lia. Qed.

(** Different groups are at different places. *)
Lemma offset_inj i i' g g' : 0 <= g < count (S i) -> 0 <= g' < count (S i') -> offset i + g = offset i' + g' -> i = i' /\ g = g'.
Proof using Hlg Hnb.
  intros Hg Hg' E. destruct (Nat.lt_total i i') as [Hlt|[->|Hlt]]; [|lia|].
  - pose proof (offset_mono (S i) i' ltac:(lia)) as Hm. cbn [offset] in Hm. lia.
  - pose proof (offset_mono (S i') i ltac:(lia)) as Hm. cbn [offset] in Hm. lia.
Qed.

(** The bit [b] of a level is in the group [b / N]. *)
Lemma group_of i b : 0 <= b < count i -> 0 <= b / N < count (S i).
Proof using Hlg Hnb.
  intros Hb. pose proof N_bounds. pose proof (count_step i). split; [apply Z.div_pos; lia|apply Z.div_lt_upper_bound; lia].
Qed.

(** Each level takes LG_BITMAP_GROUP_NBITS off the logarithm. *)
Lemma count_bound M i : 0 <= M -> nb <= 2 ^ M -> count i <= 2 ^ Z.max 0 (M - lg * Z.of_nat i).
Proof using Hlg Hnb.
  intros HM Hmax. pose proof N_bounds. induction i as [|i IH]; [cbn [count]; by replace (Z.max _ _) with M by lia|].
  pose proof (count_step i) as Hs. set (k := Z.max 0 (M - lg * Z.of_nat i)) in *. apply Z.nlt_ge. intros Hlt.
  destruct (decide (lg <= k)) as [Hk|Hk].
  - replace k with (lg + Z.max 0 (M - lg * Z.of_nat (S i))) in IH by lia. rewrite Z.pow_add_r in IH by lia. nia.
  - assert (2 ^ k <= N) by (apply Z.pow_le_mono_r; lia). assert (0 < 2 ^ Z.max 0 (M - lg * Z.of_nat (S i))) by lia. nia.
Qed.

Lemma count_room M i : 0 <= M -> nb <= 2 ^ M -> 1 < count i -> lg * Z.of_nat i < M.
Proof using Hlg Hnb.
  intros HM Hmax Hc. pose proof (count_bound M i HM Hmax) as Hb. apply Z.nle_gt. intros Hle.
  rewrite Z.max_l in Hb by lia. lia.
Qed.

Lemma groups_level_offset k i : BITMAP_GROUPS_LEVEL lg k (count i) = offset (i + k) - offset i.
Proof.
  revert i. induction k as [|k IH]; intros i; cbn [BITMAP_GROUPS_LEVEL]; [rewrite Nat.add_0_r; lia|].
  change (BITMAP_BITS2GROUPS lg (count i)) with (count (S i)). rewrite IH.
  replace (S i + k)%nat with (i + S k)%nat by lia. cbn [offset]. lia.
Qed.

Lemma levels_loop_spec s M fuel i : 0 < s <= lg -> 0 < M -> nb <= 2 ^ M -> M - lg * (Z.of_nat i + 1) < Z.of_nat fuel -> (0 < fuel)%nat ->
  Z.of_nat i < BITMAP_MAX_LEVELS s M ->
  exists n, levels_loop lg s M fuel (S i) (offset i) (count (S i)) = Ok (offset <$> seq (S i) (S n)) /\ count (S (i + n)) = 1 /\
    forall j, (i <= j < i + n)%nat -> 1 < count (S j).
Proof using Hlg Hnb.
  intros Hs HM Hmax. revert i. induction fuel as [|fuel IH]; intros i Hk Hf Hi; [lia|]. cbn [levels_loop].
  pose proof (count_pos (S i)) as Hp. destruct (Z.gtb_spec (count (S i)) 1) as [Hgt|Hle].
  - pose proof (count_room M (S i) ltac:(lia) Hmax Hgt) as Hroom.
    assert (Hlev : Z.of_nat (S i) < BITMAP_MAX_LEVELS s M).
    { unfold BITMAP_MAX_LEVELS, truthy in *. pose proof (Z.div_mod M s ltac:(lia)). pose proof (Z.mod_pos_bound M s ltac:(lia)).
      destruct (Z.eqb_spec (M mod s) 0); cbn [negb b2z] in *; nia. }
    rewrite (proj2 (Z.ltb_lt _ _) Hlev). destruct (IH (S i)) as (n & E & Ht & Hj); [lia|lia|done|]. exists (S n).
    change (offset i + count (S i)) with (offset (S i)). change (BITMAP_BITS2GROUPS lg (count (S i))) with (count (S (S i))).
    rewrite E. cbn [obind]. split_and!; [done|by replace (i + S n)%nat with (S i + n)%nat by lia|].
    intros j Hij. destruct (decide (j = i)) as [->|]; [lia|apply Hj; lia].
  - rewrite (proj2 (Z.ltb_lt _ _)) by lia. exists 0%nat. split_and!; [done|rewrite Nat.add_0_r; lia|lia].
Qed.
End geometry.

Lemma groups_mono lg m m' : 0 < lg -> m <= m' -> BITMAP_BITS2GROUPS lg m <= BITMAP_BITS2GROUPS lg m'.
Proof. intros Hlg Hm. unfold BITMAP_BITS2GROUPS. rewrite !Z.shiftr_div_pow2 by lia. apply Z.div_le_mono; lia. Qed.

Lemma count_mono lg m m' i : 0 < lg -> m <= m' -> count lg m i <= count lg m' i.
Proof. intros Hlg Hm. induction i as [|i IH]; [done|]. cbn [count]. by apply groups_mono. Qed.

Lemma offset_mono_bits lg m m' i : 0 < lg -> m <= m' -> offset lg m i <= offset lg m' i.
Proof.
  intros Hlg Hm. induction i as [|i IH]; [done|]. cbn [offset]. pose proof (count_mono lg m m' (S i) Hlg Hm). lia.
Qed.

(** The levels of a bitmap that is not too big fit in BITMAP_GROUPS_MAX groups. *)
Lemma groups_max lg nb M n : 0 < lg <= 6 -> 0 < nb <= 2 ^ M -> 0 < M ->
  (forall j, (j < n)%nat -> 1 < count lg nb (S j)) -> offset lg nb (S n) <= BITMAP_GROUPS_MAX lg M.
Proof.
  intros Hlg Hnb HM Hn. unfold BITMAP_GROUPS_MAX. rewrite Z.shiftl_mul_pow2, Z.mul_1_l by lia.
  set (k := Z.to_nat _). change (2 ^ M) with (count lg (2 ^ M) 0) at 1. rewrite groups_level_offset.
  change (offset lg (2 ^ M) 0) with 0. rewrite Nat.add_0_l, Z.sub_0_r. transitivity (offset lg (2 ^ M) (S n)); [apply offset_mono_bits; lia|]. apply offset_mono; [done|lia|].
  assert (lg * Z.of_nat n < M).
  { destruct n as [|n]; [lia|]. apply (count_room lg ltac:(done) nb ltac:(lia)); [lia|lia|]. apply Hn. lia. }
  assert (Z.of_nat n + 1 <= (M + lg - 1) / lg) by (apply Z.div_le_lower_bound; lia). lia.
Qed.

(** * The invariant *)

Section invariant.
Context (lg : Z) (Hlg : 0 < lg <= 6) (nb : Z) (Hnb : 0 < nb) (nl : nat).

Local Abbreviation N := (2 ^ lg).
Local Abbreviation cnt := (count lg nb).
Local Abbreviation off := (offset lg nb).

(** Group [g] of level [i]; bit [b] of level [i]. *)
Definition word (bm : list Z) (i : nat) (g : Z) : Z := default 0 (bm !! Z.to_nat (off i + g)).

Definition bit (bm : list Z) (i : nat) (b : Z) : bool := Z.testbit (word bm i (b / N)) (b mod N).

(** The groups are words whose unused bits are clear, and a bit of a level says whether the group below it is not 0, for
    all groups but one. *)
Record tree_ok (exception : nat * Z) (bm : list Z) : Prop := {
  tree_length : Z.of_nat (length bm) = off nl;
  tree_words : forall i g, (i < nl)%nat -> 0 <= g < cnt (S i) -> 0 <= word bm i g < 2 ^ N;
  tree_unused : forall i b, (i < nl)%nat -> cnt i <= b < N * cnt (S i) -> bit bm i b = false;
  tree_links : forall i g, (S i < nl)%nat -> 0 <= g < cnt (S i) -> (i, g) <> exception -> bit bm (S i) g = negb (word bm i g =? 0)
}.

Lemma word_index i g : (i < nl)%nat -> 0 <= g < cnt (S i) -> 0 <= off i + g < off nl.
Proof using Hlg Hnb.
  intros Hi Hg. pose proof (offset_nonneg lg Hlg nb Hnb i). pose proof (offset_mono lg Hlg nb Hnb (S i) nl ltac:(lia)) as Hm.
  cbn [offset] in Hm. lia.
Qed.

Lemma word_at bm i g : Z.of_nat (length bm) = off nl -> (i < nl)%nat -> 0 <= g < cnt (S i) ->
  at_ bm (Z.to_nat (off i + g)) = Ok (word bm i g).
Proof using Hlg Hnb.
  intros Hl Hi Hg. pose proof (word_index i g Hi Hg). unfold at_, word.
  destruct (lookup_lt_is_Some_2 bm (Z.to_nat (off i + g))) as [w ->]; [lia|done].
Qed.

Lemma word_insert bm i g w i' g' : Z.of_nat (length bm) = off nl -> (i < nl)%nat -> (i' < nl)%nat -> 0 <= g < cnt (S i) -> 0 <= g' < cnt (S i') ->
  word (<[Z.to_nat (off i + g) := w]> bm) i' g' = if decide (i = i' /\ g = g') then w else word bm i' g'.
Proof using Hlg Hnb.
  intros Hl Hi Hi' Hg Hg'. pose proof (word_index i g Hi Hg). pose proof (word_index i' g' Hi' Hg'). unfold word.
  destruct (decide (i = i' /\ g = g')) as [[<- <-]|Hne].
  - rewrite list_lookup_insert_eq by lia. done.
  - rewrite list_lookup_insert_ne; [done|]. intros E. apply Hne. apply (offset_inj lg Hlg nb Hnb); [done..|lia].
Qed.

(** ** Changing one bit *)

Definition flip (bm : list Z) (i : nat) (b : Z) : list Z :=
  <[Z.to_nat (off i + b / N) := Z.lxor (word bm i (b / N)) (2 ^ (b mod N))]> bm.

Section flip.
Context (bm : list Z) (i : nat) (b : Z) (Hl : Z.of_nat (length bm) = off nl) (Hi : (i < nl)%nat) (Hb : 0 <= b < cnt i).

Lemma flip_length : Z.of_nat (length (flip bm i b)) = off nl.
Proof using Hl. unfold flip. by rewrite length_insert. Qed.

Lemma flip_word i' g : (i' < nl)%nat -> 0 <= g < cnt (S i') ->
  word (flip bm i b) i' g = if decide (i = i' /\ b / N = g) then Z.lxor (word bm i (b / N)) (2 ^ (b mod N)) else word bm i' g.
Proof using Hlg Hnb Hl Hi Hb.
  intros Hi' Hg. unfold flip. apply word_insert; [done..| |done]. by apply (group_of lg Hlg nb Hnb).
Qed.

Lemma flip_bit i' b' : (i' < nl)%nat -> 0 <= b' < N * cnt (S i') ->
  bit (flip bm i b) i' b' = if decide (i = i' /\ b = b') then negb (bit bm i b) else bit bm i' b'.
Proof using Hlg Hnb Hl Hi Hb.
  intros Hi' Hb'. pose proof (N_bounds lg Hlg). pose proof (Z.mod_pos_bound b N ltac:(lia)). pose proof (Z.mod_pos_bound b' N ltac:(lia)).
  unfold bit. rewrite flip_word by (done || (split; [apply Z.div_pos; lia|apply Z.div_lt_upper_bound; lia])).
  destruct (decide (i = i' /\ b / N = b' / N)) as [[<- E]|Hne].
  - rewrite Z.lxor_spec, Z.pow2_bits_eqb by lia. destruct (decide (i = i /\ b = b')) as [[_ <-]|Hne].
    + rewrite Z.eqb_refl. by destruct (Z.testbit _ _).
    + rewrite <-E. destruct (Z.eqb_spec (b mod N) (b' mod N)) as [E'|]; [|by rewrite xorb_false_r].
      exfalso. apply Hne. split; [done|]. rewrite (Z.div_mod b N), (Z.div_mod b' N) by lia. congruence.
  - destruct (decide (i = i' /\ b = b')) as [[<- <-]|]; [by exfalso; apply Hne|done].
Qed.

Lemma flip_range : 0 <= word bm i (b / N) < 2 ^ N -> 0 <= word (flip bm i b) i (b / N) < 2 ^ N.
Proof using Hlg Hnb Hl Hi Hb.
  intros Hw. pose proof (N_bounds lg Hlg). pose proof (Z.mod_pos_bound b N ltac:(lia)).
  rewrite flip_word by (done || by apply (group_of lg Hlg nb Hnb)). destruct (decide _) as [_|Hn]; [|by exfalso; apply Hn].
  assert (0 <= 2 ^ (b mod N) < 2 ^ N) by (split; [lia|apply Z.pow_lt_mono_r; lia]).
  assert (0 <= Z.lxor (word bm i (b / N)) (2 ^ (b mod N))) by (apply Z.lxor_nonneg; lia). split; [done|].
  apply Z.bounded_iff_bits_nonneg; [lia|done|]. intros k Hk. rewrite Z.lxor_spec, Z.pow2_bits_false by lia. rewrite xorb_false_r.
  apply (proj1 (Z.bounded_iff_bits_nonneg N _ ltac:(lia) (proj1 Hw)) (proj2 Hw)). done.
Qed.
End flip.

Definition none : nat * Z := (nl, 0).

Lemma tree_exception exc bm : tree_ok exc bm -> (forall i g, exc = (i, g) -> (S i < nl)%nat -> 0 <= g < cnt (S i) -> bit bm (S i) g = negb (word bm i g =? 0)) ->
  tree_ok none bm.
Proof.
  intros [Hl Hw Hu Hk] He. split; [done..|]. intros i g Hi Hg _. destruct (decide ((i, g) = exc)) as [E|E]; [by apply He|by apply Hk].
Qed.

(** The link above a bit that is changed becomes the exception, when the link below it was. *)
Lemma flip_tree exc bm i b : tree_ok exc bm -> (i < nl)%nat -> 0 <= b < cnt i ->
  (match i with O => exc = none | S i0 => exc = (i0, b) /\ bit bm i b = (word bm i0 b =? 0) end) ->
  tree_ok (i, b / N) (flip bm i b).
Proof using Hlg Hnb.
  intros [Hl Hw Hu Hk] Hi Hb He. pose proof (group_of lg Hlg nb Hnb i b Hb) as Hg. pose proof (count_step lg Hlg nb Hnb i) as Hc.
  split; [by apply flip_length|..].
  - intros i' g Hi' Hg'. destruct (decide (i = i' /\ b / N = g)) as [[<- <-]|Hne]; [by apply flip_range, Hw|].
    rewrite (flip_word bm i b) by done. rewrite decide_False by done. by apply Hw.
  - intros i' b' Hi' Hb'. pose proof (count_pos lg Hlg nb Hnb i'). rewrite flip_bit by (done || lia). rewrite decide_False by (intros [<- <-]; lia). by apply Hu.
  - intros i' g Hi' Hg' Hne. pose proof (count_step lg Hlg nb Hnb (S i')). rewrite flip_bit by (done || lia). rewrite (flip_word bm i b) by (done || lia).
    rewrite (decide_False (P := i = i' /\ b / N = g)) by (intros [<- <-]; done).
    destruct (decide (i = S i' /\ b = g)) as [[-> ->]|Hn].
    + destruct He as [_ ->]. done.
    + apply Hk; [done..|]. destruct i as [|i0]; [subst exc; intros [= -> ->]; lia|]. destruct He as [-> _]. intros [= -> ->]. by apply Hn.
Qed.

(** A word with a bit is not 0. *)
Lemma bit_word bm i b : bit bm i b = true -> (word bm i (b / N) =? 0) = false.
Proof. unfold bit. intros Hb. destruct (Z.eqb_spec (word bm i (b / N)) 0) as [E|]; [|done]. rewrite E, Z.bits_0 in Hb. done. Qed.

Lemma group_bit_eq b : 0 <= b -> Z.shiftl 1 (Z.land b (Z.shiftl 1 lg - 1)) = 2 ^ (b mod N).
Proof using Hlg.
  intros Hb. rewrite land_pow2_mask by lia. pose proof (N_bounds lg Hlg). pose proof (Z.mod_pos_bound b N ltac:(lia)).
  rewrite Z.shiftl_mul_pow2 by lia. lia.
Qed.

(** After a change of a bit, the words that hold it: one of them is not 0. *)
Lemma flip_cases bm i b : Z.of_nat (length bm) = off nl -> (i < nl)%nat -> 0 <= b < cnt i ->
  if bit bm i b then (word bm i (b / N) =? 0) = false else (word (flip bm i b) i (b / N) =? 0) = false.
Proof using Hlg Hnb.
  intros Hl Hi Hb. destruct (bit bm i b) eqn:E; [by apply bit_word|]. apply bit_word. pose proof (count_step lg Hlg nb Hnb i).
  rewrite flip_bit by (done || lia). rewrite decide_True by done. by rewrite E.
Qed.

Section propagate.
Context (binfo : bitmap_info) (Hlevels : forall i, (i <= nl)%nat -> at_ (levels binfo) i = Ok (off i)).

Lemma propagate_spec setting n i goff bm : nl = (S i + n)%nat -> tree_ok (i, goff) bm -> 0 <= goff < cnt (S i) ->
  (word bm i goff =? 0) = setting -> ((S i < nl)%nat -> bit bm (S i) goff = setting) ->
  exists bm', propagate_loop lg setting n (S i) binfo goff bm = Ok bm' /\ tree_ok none bm' /\
    forall b, 0 <= b < N * cnt 1 -> bit bm' 0 b = bit bm 0 b.
Proof using Hlg Hnb Hlevels.
  revert i goff bm. induction n as [|n IH]; intros i goff bm Hn Hok Hgoff Hset Hbit.
  { exists bm. split_and!; [done| |done]. apply (tree_exception _ _ Hok). intros i' g [= -> ->]. lia. }
  specialize (Hbit ltac:(lia)). pose proof (tree_length _ _ Hok) as Hl. pose proof (group_of lg Hlg nb Hnb (S i) goff Hgoff) as Hg.
  cbn [propagate_loop]. rewrite Hlevels by lia. cbn [obind]. rewrite Z.shiftr_div_pow2, group_bit_eq by lia.
  rewrite word_at by (done || lia). cbn [obind].
  fold (flip bm (S i) goff). set (bm1 := flip bm (S i) goff).
  assert (Hok1 : tree_ok (S i, goff / N) bm1) by (apply (flip_tree (i, goff)); [done|lia|done|by rewrite Hset]).
  assert (Ew : word bm1 (S i) (goff / N) = Z.lxor (word bm (S i) (goff / N)) (2 ^ (goff mod N))).
  { unfold bm1. rewrite flip_word by (done || lia). by rewrite decide_True. }
  rewrite <-Ew. pose proof (flip_cases bm (S i) goff Hl ltac:(lia) Hgoff) as Hc. rewrite Hbit in Hc. fold bm1 in Hc.
  assert (Hup : (S (S i) < nl)%nat -> bit bm1 (S (S i)) (goff / N) = negb (word bm (S i) (goff / N) =? 0)).
  { intros Hi. pose proof (count_step lg Hlg nb Hnb (S (S i))). unfold bm1. rewrite flip_bit by (done || lia).
    rewrite decide_False by lia. apply (tree_links _ _ Hok); [done..|]. intros [= E _]. lia. }
  assert (H0 : forall b, 0 <= b < N * cnt 1 -> bit bm1 0 b = bit bm 0 b).
  { intros b Hb. unfold bm1. rewrite flip_bit by (done || lia). rewrite decide_False by (intros [? _]; lia). done. }
  destruct (negb ((if setting then word bm1 (S i) (goff / N) else word bm (S i) (goff / N)) =? 0)) eqn:Estop.
  - exists bm1. split_and!; [done| |done]. apply (tree_exception _ _ Hok1). intros i' g [= <- <-] Hi' _.
    rewrite Hup by done. destruct setting; [rewrite Hc|rewrite Hc]; by rewrite Estop.
  - apply negb_false_iff in Estop. destruct (IH (S i) (goff / N) bm1) as (bm' & E & Hok' & H0'); [lia|done|done|..].
    + destruct setting; [done|exact Hc].
    + intros Hi. rewrite Hup by done. destruct setting; [by rewrite Hc|by rewrite Estop].
    + exists bm'. split_and!; [done..|]. intros b Hb. by rewrite H0', H0.
Qed.
End propagate.

(** ** The lowest bit of a group *)

Lemma word_bit exc bm i g : tree_ok exc bm -> (i < nl)%nat -> 0 <= g < cnt (S i) -> word bm i g <> 0 ->
  let b := g * N + (ffs_lu (word bm i g) - 1) in
  ffs_lu (word bm i g) <> 0 /\ 0 <= b < cnt i /\ bit bm i b = true /\ forall b', g * N <= b' < b -> bit bm i b' = false.
Proof using Hlg Hnb.
  intros Hok Hi Hg Hw. pose proof (N_bounds lg Hlg) as HN. pose proof (tree_words _ _ Hok i g Hi Hg) as Hr.
  assert (2 ^ N <= 2 ^ 64) by (apply Z.pow_le_mono_r; lia).
  destruct (ffs_lu_spec (word bm i g)) as (k & Hk & E & Hb & Hno); [lia|]. rewrite E. replace (k + 1 - 1) with k by lia. cbv zeta.
  assert (HkN : k < N).
  { apply Z.nle_gt. intros Hge. rewrite (proj1 (Z.bounded_iff_bits_nonneg N (word bm i g) ltac:(lia) ltac:(lia))) in Hb; [done|lia|lia]. }
  assert (Hbit : forall k', 0 <= k' < N -> bit bm i (g * N + k') = Z.testbit (word bm i g) k').
  { intros k' Hk'. unfold bit. rewrite (Z.div_add_l g N k'), Z.div_small, Z.add_0_r by lia. f_equal.
    rewrite Z.add_comm, Z.mod_add, Z.mod_small by lia. done. }
  split_and!; [lia|nia|..].
  - apply Z.nle_gt. intros Hge. rewrite <-Hbit in Hb by lia. rewrite (tree_unused _ _ Hok) in Hb; [done|done|nia].
  - by rewrite Hbit by lia.
  - intros b' Hb'. replace b' with (g * N + (b' - g * N)) by lia. rewrite Hbit by lia. apply Hno. lia.
Qed.

(** The first group that is not 0 has the first bit of its level. *)
Lemma first_bit bm i g : tree_ok none bm -> (i < nl)%nat -> 0 <= g < cnt (S i) -> word bm i g <> 0 ->
  (forall g', 0 <= g' < g -> word bm i g' = 0) ->
  let b := g * N + (ffs_lu (word bm i g) - 1) in
  0 <= b < cnt i /\ bit bm i b = true /\ forall b', 0 <= b' < b -> bit bm i b' = false.
Proof using Hlg Hnb.
  intros Hok Hi Hg Hw Hprev. destruct (word_bit _ _ _ _ Hok Hi Hg Hw) as (Hf & Hb & Hbit & Hno). split_and!; [lia..|done|].
  intros b' Hb'. destruct (decide (g * N <= b')) as [Hge|Hlt]; [apply Hno; lia|]. pose proof (N_bounds lg Hlg).
  unfold bit. rewrite Hprev; [apply Z.bits_0|]. split; [apply Z.div_pos; lia|apply Z.div_lt_upper_bound; lia].
Qed.

(** What a bit of a level stands for: itself, or a group of the level below that is not 0. *)
Definition item (bm : list Z) (i : nat) (b : Z) : bool :=
  match i with O => bit bm 0 b | S i => negb (word bm i b =? 0) end.

Lemma item_bit bm i b : tree_ok none bm -> (i < nl)%nat -> 0 <= b < cnt i -> item bm i b = bit bm i b.
Proof.
  intros Hok Hi Hb. destruct i as [|i]; [done|]. symmetry. apply (tree_links _ _ Hok); [done..|]. intros [= -> _]. lia.
Qed.

Definition first_item (bm : list Z) (i : nat) (b : Z) : Prop :=
  0 <= b < cnt i /\ item bm i b = true /\ forall b', 0 <= b' < b -> item bm i b' = false.

Lemma sfu_tree_spec binfo bm i b : tree_ok none bm -> (forall i, (i <= nl)%nat -> at_ (levels binfo) i = Ok (off i)) ->
  (i <= nl)%nat -> first_item bm i b ->
  exists b', sfu_tree lg i binfo bm b = Ok b' /\ first_item bm 0 b'.
Proof using Hlg Hnb.
  intros Hok Hlevels. revert b. induction i as [|i IH]; intros b Hi Hb; [by exists b|]. destruct Hb as (Hb & Hit & Hno).
  cbn [item] in Hit, Hno. apply negb_true_iff, Z.eqb_neq in Hit. cbn [sfu_tree]. rewrite Hlevels by lia. cbn [obind].
  rewrite word_at by (done || lia || apply (tree_length _ _ Hok)). cbn [obind]. rewrite Z.shiftl_mul_pow2 by lia.
  destruct (first_bit bm i b Hok ltac:(lia) Hb Hit) as (Hb' & Hbit & Hno').
  { intros g' Hg'. specialize (Hno g' Hg'). by apply negb_false_iff, Z.eqb_eq in Hno. }
  apply IH; [lia|]. split_and!; [lia..|by rewrite item_bit by (done || lia)|].
  intros b' Hb''. rewrite item_bit by (done || lia). by apply Hno'.
Qed.

(** A level has nothing set when the level below has not. *)
Lemma empty_down bm i : tree_ok none bm -> (i < nl)%nat ->
  (forall b, 0 <= b < cnt (S i) -> item bm (S i) b = false) <-> (forall b, 0 <= b < cnt i -> item bm i b = false).
Proof using Hlg Hnb.
  intros Hok Hi. split; intros H b Hb.
  - rewrite item_bit by done. pose proof (group_of lg Hlg nb Hnb i b Hb) as Hg. specialize (H _ Hg). cbn [item] in H.
    apply negb_false_iff, Z.eqb_eq in H. unfold bit. rewrite H. apply Z.bits_0.
  - cbn [item]. apply negb_false_iff, Z.eqb_eq. destruct (decide (word bm i b = 0)) as [|Hw]; [done|].
    destruct (word_bit _ _ _ _ Hok Hi Hb Hw) as (_ & Hr & Hbit & _). rewrite <-item_bit, H in Hbit by done. done.
Qed.

Lemma empty_all bm i : tree_ok none bm -> (i <= nl)%nat ->
  (forall b, 0 <= b < cnt i -> item bm i b = false) <-> (forall b, 0 <= b < nb -> bit bm 0 b = false).
Proof using Hlg Hnb. intros Hok. induction i as [|i IH]; intros Hi; [done|]. rewrite empty_down by (done || lia). apply IH. lia. Qed.
End invariant.

(** * The operations *)

Section operations.
Context (USE_TREE : bool) (lg : Z) (Hlg : 0 < lg <= 6) (nb : Z) (Hnb : 0 < nb) (nl : nat) (binfo : bitmap_info).

Local Abbreviation N := (2 ^ lg).
Local Abbreviation cnt := (count lg nb).
Local Abbreviation off := (offset lg nb).
Local Abbreviation ok := (tree_ok lg nb nl (none nl)).
Local Abbreviation bit := (bit lg nb).
Local Abbreviation word := (word lg nb).

(** The description of a bitmap; a flat one is a tree of one level, which may have more than one group. *)
Record info_ok : Prop := {
  info_nbits : nbits binfo = nb;
  info_pos : (0 < nl)%nat;
  info_shape : if USE_TREE then nlevels binfo = nl /\ cnt nl = 1 else nl = 1%nat /\ ngroups binfo = cnt 1;
  info_levels : if USE_TREE then forall i, (i <= nl)%nat -> at_ (levels binfo) i = Ok (off i) else True
}.

Context (Hinfo : info_ok).

Lemma word_at_0 bm b : ok bm -> 0 <= b < nb -> at_ bm (Z.to_nat (b / N)) = Ok (word bm 0 (b / N)).
Proof using Hlg Hnb Hinfo.
  intros Hok Hb. apply (word_at lg Hlg nb Hnb nl bm 0 (b / N)); [apply (tree_length _ _ _ _ _ Hok)|apply Hinfo|].
  by apply (group_of lg Hlg nb Hnb 0).
Qed.

Lemma bitmap_get_spec bm b : ok bm -> 0 <= b < nb -> bitmap_get lg bm b = Ok (negb (bit bm 0 b)).
Proof using Hlg Hnb Hinfo.
  intros Hok Hb. unfold bitmap_get. rewrite Z.shiftr_div_pow2, (group_bit_eq lg Hlg) by lia. rewrite word_at_0 by done. cbn [obind].
  do 2 f_equal. pose proof (N_bounds lg Hlg). apply testbit_truthy. apply Z.mod_pos_bound. lia.
Qed.

(** bitmap_set and bitmap_unset, which differ in when they pass the change on. *)
Lemma change_spec setting bm b : ok bm -> 0 <= b < nb -> bit bm 0 b = setting ->
  exists bm', (if setting then bitmap_set USE_TREE lg bm binfo b else bitmap_unset USE_TREE lg bm binfo b) = Ok bm' /\ ok bm' /\
    forall b', 0 <= b' < nb -> bit bm' 0 b' = if decide (b = b') then negb setting else bit bm 0 b'.
Proof using Hlg Hnb Hinfo.
  intros Hok Hb Hbit. pose proof (tree_length _ _ _ _ _ Hok) as Hl. pose proof (info_pos Hinfo) as Hpos.
  pose proof (group_of lg Hlg nb Hnb 0 b Hb) as Hg. pose proof (count_step lg Hlg nb Hnb 0) as Hc. change (cnt 0) with nb in Hc.
  set (bm1 := flip lg nb bm 0 b).
  assert (Hok1 : tree_ok lg nb nl (0%nat, b / N) bm1) by (by apply (flip_tree lg Hlg nb Hnb nl (none nl))).
  assert (Hb1 : forall b', 0 <= b' < N * cnt 1 -> bit bm1 0 b' = if decide (b = b') then negb setting else bit bm 0 b').
  { intros b' Hb'. unfold bm1. rewrite (flip_bit lg Hlg nb Hnb nl) by done. rewrite Hbit.
    destruct (decide (b = b')), (decide (0%nat = 0%nat /\ b = b')); tauto || done. }
  assert (Ew : word bm1 0 (b / N) = Z.lxor (word bm 0 (b / N)) (2 ^ (b mod N))).
  { unfold bm1. rewrite (flip_word lg Hlg nb Hnb nl) by done. by rewrite decide_True. }
  pose proof (flip_cases lg Hlg nb Hnb nl bm 0 b Hl Hpos Hb) as Hcase. rewrite Hbit in Hcase. fold bm1 in Hcase.
  assert (Hup : (1 < nl)%nat -> bit bm1 1 (b / N) = negb (word bm 0 (b / N) =? 0)).
  { intros Hi. pose proof (count_step lg Hlg nb Hnb 1). unfold bm1. rewrite (flip_bit lg Hlg nb Hnb nl) by (done || lia).
    rewrite decide_False by lia. apply (tree_links _ _ _ _ _ Hok); [done..|]. intros [= E _]. lia. }
  set (stop := negb ((if setting then word bm1 0 (b / N) else word bm 0 (b / N)) =? 0)).
  assert (Hrun : (if setting then bitmap_set USE_TREE lg bm binfo b else bitmap_unset USE_TREE lg bm binfo b) =
    if USE_TREE && negb stop then propagate_loop lg setting (nlevels binfo - 1) 1 binfo (b / N) bm1 else Ok bm1).
  { unfold bitmap_set, bitmap_unset. rewrite Z.shiftr_div_pow2, (group_bit_eq lg Hlg) by lia. rewrite !word_at_0 by done. cbn [obind].
    unfold stop. rewrite negb_involutive, Ew. by destruct setting. }
  rewrite Hrun. pose proof (info_shape Hinfo) as Hshape. pose proof (info_levels Hinfo) as Hlevels.
  assert (Hend : USE_TREE = false \/ stop = true -> ok bm1).
  { intros He. apply (tree_exception lg nb nl _ _ Hok1). intros i g [= <- <-] Hi _. destruct He as [->|Estop]; [lia|].
    rewrite Hup by done. unfold stop in Estop. destruct setting; by rewrite Hcase, Estop. }
  assert (Hsame : forall b', 0 <= b' < nb -> bit bm1 0 b' = if decide (b = b') then negb setting else bit bm 0 b').
  { intros b' Hb'. apply Hb1. lia. }
  destruct USE_TREE; cbn [andb]; [|exists bm1; split_and!; [done|apply Hend; by left|done]].
  destruct stop eqn:Estop; cbn [negb]; [exists bm1; split_and!; [done|apply Hend; by right|done]|].
  destruct Hshape as [-> _]. apply negb_false_iff in Estop.
  destruct (propagate_spec lg Hlg nb Hnb nl binfo Hlevels setting (nl - 1) 0 (b / N) bm1) as (bm' & E & Hok' & H0);
    [lia|done|done|by destruct setting|intros Hi; rewrite Hup by done; by destruct setting; rewrite ?Hcase, ?Estop|].
  exists bm'. split_and!; [done..|]. intros b' Hb'. rewrite H0 by lia. by apply Hsame.
Qed.

Lemma flat_word bm g : ok bm -> nl = 1%nat -> 0 <= g < cnt 1 -> at_ bm (Z.to_nat g) = Ok (word bm 0 g).
Proof using Hlg Hnb.
  intros Hok Hn Hg. apply (word_at lg Hlg nb Hnb nl bm 0 g); [apply (tree_length _ _ _ _ _ Hok)|lia|done].
Qed.

Lemma full_loop_spec bm n i : ok bm -> nl = 1%nat -> Z.of_nat (i + n) = cnt 1 ->
  exists r, full_loop n i bm = Ok r /\ (r = true <-> forall g, Z.of_nat i <= g < cnt 1 -> word bm 0 g = 0).
Proof using Hlg Hnb.
  intros Hok Hn. revert i. induction n as [|n IH]; intros i Hi.
  { exists true. split; [done|]. split; [|done]. intros _ g Hg. lia. }
  cbn [full_loop]. pose proof (flat_word bm (Z.of_nat i) Hok Hn ltac:(lia)) as E. rewrite Nat2Z.id in E. rewrite E. cbn [obind].
  destruct (Z.eqb_spec (word bm 0 (Z.of_nat i)) 0) as [Ez|Hnz]; cbn [negb].
  - destruct (IH (S i) ltac:(lia)) as (r & -> & Hr). exists r. split; [done|]. rewrite Hr. split; intros H g Hg; [|apply H; lia].
    destruct (decide (g = Z.of_nat i)) as [->|]; [done|apply H; lia].
  - exists false. split; [done|]. split; [done|]. intros H. by rewrite H in Hnz by lia.
Qed.

Lemma bitmap_full_spec bm : ok bm -> exists r, bitmap_full USE_TREE bm binfo = Ok r /\ (r = true <-> forall b, 0 <= b < nb -> bit bm 0 b = false).
Proof using Hlg Hnb Hinfo.
  intros Hok. pose proof (info_shape Hinfo) as Hshape. pose proof (info_levels Hinfo) as Hlevels. pose proof (info_pos Hinfo).
  unfold bitmap_full. destruct USE_TREE.
  - destruct Hshape as [-> Htop]. rewrite Hlevels by lia. cbn [obind].
    pose proof (empty_all lg Hlg nb Hnb nl bm nl Hok ltac:(lia)) as Hall. destruct nl as [|n]; [lia|]. cbn [offset item] in Hall |- *. rewrite Htop in *.
    replace (off n + 1 - 1) with (off n + 0) by lia.
    rewrite (word_at lg Hlg nb Hnb (S n)) by (apply (tree_length _ _ _ _ _ Hok) || lia). cbn [obind].
    eexists. split; [done|]. rewrite <-Hall. split.
    + intros Ez b Hb. replace b with 0 by lia. by rewrite Ez.
    + intros H0. specialize (H0 0 ltac:(lia)). by apply negb_false_iff in H0.
  - destruct Hshape as [Hn ->]. pose proof (count_pos lg Hlg nb Hnb 1).
    destruct (full_loop_spec bm (Z.to_nat (cnt 1)) 0 Hok Hn ltac:(lia)) as (r & -> & Hr). exists r. split; [done|]. rewrite Hr.
    rewrite <-(empty_all lg Hlg nb Hnb nl bm 1 Hok ltac:(lia)). cbn [item].
    split; intros Hz g Hg; [rewrite Hz by lia; done|]. specialize (Hz g Hg). by apply negb_false_iff, Z.eqb_eq in Hz.
Qed.

Lemma sfu_flat_spec bm fuel i : ok bm -> nl = 1%nat -> (forall g, 0 <= g < Z.of_nat i -> word bm 0 g = 0) ->
  (exists b, 0 <= b < nb /\ bit bm 0 b = true) -> cnt 1 < Z.of_nat (i + fuel) ->
  exists b, sfu_flat lg fuel i bm = Ok b /\ first_item lg nb bm 0 b.
Proof using Hlg Hnb.
  intros Hok Hn Hprev (b0 & Hb0 & Hbit0). revert i Hprev. induction fuel as [|fuel IH]; intros i Hprev Hf.
  { pose proof (group_of lg Hlg nb Hnb 0 b0 Hb0) as Hg. apply bit_word in Hbit0. rewrite Hprev in Hbit0 by lia. done. }
  assert (Hi : Z.of_nat i < cnt 1).
  { apply Z.nle_gt. intros Hge. pose proof (group_of lg Hlg nb Hnb 0 b0 Hb0) as Hg. apply bit_word in Hbit0. rewrite Hprev in Hbit0 by lia. done. }
  cbn [sfu_flat]. pose proof (flat_word bm (Z.of_nat i) Hok Hn ltac:(lia)) as E. rewrite Nat2Z.id in E. rewrite E. cbn [obind].
  destruct (decide (word bm 0 (Z.of_nat i) = 0)) as [Ez|Hnz].
  - rewrite Ez, ffs_lu_0. cbn [Z.eqb]. apply IH; [|lia]. intros g Hg. destruct (decide (g = Z.of_nat i)) as [->|]; [done|apply Hprev; lia].
  - destruct (word_bit lg Hlg nb Hnb nl _ bm 0 (Z.of_nat i) Hok ltac:(lia) ltac:(lia) Hnz) as (Hf0 & _).
    destruct (Z.eqb_spec (ffs_lu (word bm 0 (Z.of_nat i))) 0) as [|_]; [done|]. rewrite Z.shiftl_mul_pow2 by lia. eexists. split; [done|].
    apply (first_bit lg Hlg nb Hnb nl); [done|lia|lia|done|done].
Qed.

Lemma bitmap_sfu_spec bm : ok bm -> (exists b, 0 <= b < nb /\ bit bm 0 b = true) ->
  exists b bm', bitmap_sfu USE_TREE lg bm binfo = Ok (bm', b) /\ first_item lg nb bm 0 b /\ ok bm' /\
    forall b', 0 <= b' < nb -> bit bm' 0 b' = if decide (b = b') then false else bit bm 0 b'.
Proof using Hlg Hnb Hinfo.
  intros Hok Hsome. pose proof (info_shape Hinfo) as Hshape. pose proof (info_levels Hinfo) as Hlevels. pose proof (info_pos Hinfo) as Hpos.
  assert (Hfind : exists b, (if USE_TREE then sfu_tree lg (nlevels binfo) binfo bm 0 else sfu_flat lg (S (length bm)) 0 bm) = Ok b /\ first_item lg nb bm 0 b).
  { destruct USE_TREE.
    - destruct Hshape as [-> Htop]. apply (sfu_tree_spec lg Hlg nb Hnb nl); [done|done|lia|]. split_and!; [lia..| |lia].
      apply not_false_is_true. intros H0. destruct Hsome as (b0 & Hb0 & Hbit0).
      rewrite (proj1 (empty_all lg Hlg nb Hnb nl bm nl Hok ltac:(lia))) in Hbit0; [done| |done]. intros b Hb. by replace b with 0 by lia.
    - destruct Hshape as [Hn _]. apply sfu_flat_spec; [done|done|lia|done|]. pose proof (tree_length _ _ _ _ _ Hok) as Hl.
      rewrite Hn in Hl. cbn [offset] in Hl. lia. }
  destruct Hfind as (b & Hrun & Hfirst). pose proof Hfirst as (Hb & Hit & _). unfold bitmap_sfu. rewrite Hrun. cbn [obind].
  destruct (change_spec true bm b Hok Hb Hit) as (bm' & -> & Hok' & Hbits). exists b, bm'. by split_and!.
Qed.

(** ** Initialization *)

(** A group of a level all of whose bits are set. *)
Definition trimmed (j : nat) (g : Z) : Z := Z.ones (Z.min N (cnt j - g * N)).

Lemma extra_spec j : Z.land (Z.shiftl 1 lg - Z.land (cnt j) (Z.shiftl 1 lg - 1)) (Z.shiftl 1 lg - 1) = N * cnt (S j) - cnt j.
Proof using Hlg Hnb.
  pose proof (N_bounds lg Hlg). rewrite !land_pow2_mask, Z.shiftl_mul_pow2, Z.mul_1_l by lia. pose proof (count_step lg Hlg nb Hnb j) as Hs.
  pose proof (Z.mod_pos_bound (cnt j) N ltac:(lia)) as Hm. symmetry.
  apply (Z.mod_unique _ N (1 + cnt j / N - cnt (S j))); [lia|]. pose proof (Z.div_mod (cnt j) N ltac:(lia)). lia.
Qed.

Lemma clear_extra_spec bm j : Z.of_nat (length bm) = off nl -> (j < nl)%nat -> (forall g, 0 <= g < cnt (S j) -> word bm j g = Z.ones N) ->
  exists bm', clear_extra lg bm (off (S j) - 1) (cnt j) = Ok bm' /\ Z.of_nat (length bm') = off nl /\
    (forall g, 0 <= g < cnt (S j) -> word bm' j g = trimmed j g) /\
    forall i g, (i < nl)%nat -> i <> j -> 0 <= g < cnt (S i) -> word bm' i g = word bm i g.
Proof using Hlg Hnb.
  intros Hl Hj Hones. pose proof (N_bounds lg Hlg). pose proof (count_step lg Hlg nb Hnb j) as Hs. pose proof (count_pos lg Hlg nb Hnb (S j)) as Hp.
  unfold clear_extra. rewrite extra_spec. cbn [offset]. replace (off j + cnt (S j) - 1) with (off j + (cnt (S j) - 1)) by lia.
  assert (Hlast : forall g, 0 <= g < cnt (S j) - 1 -> trimmed j g = Z.ones N) by (intros g Hg; unfold trimmed; f_equal; nia).
  unfold truthy. destruct (Z.eqb_spec (N * cnt (S j) - cnt j) 0) as [Ez|Hnz]; cbn [negb].
  - exists bm. split_and!; [done..| |done]. intros g Hg. rewrite Hones by done. unfold trimmed. f_equal. nia.
  - rewrite (word_at lg Hlg nb Hnb nl) by (done || lia). cbn [obind]. eexists. split; [done|]. split_and!; [by rewrite length_insert|..].
    + intros g Hg. rewrite (word_insert lg Hlg nb Hnb nl) by (done || lia). destruct (decide _) as [[_ Eg]|Hne].
      * rewrite Hones by lia. unfold trimmed. rewrite Z.shiftr_div_pow2, Z.ones_div_pow2 by lia. f_equal. subst g. nia.
      * rewrite Hones by done. symmetry. apply Hlast. lia.
    + intros i g Hi Hij Hg. rewrite (word_insert lg Hlg nb Hnb nl) by (done || lia). rewrite decide_False by (intros [? _]; done). done.
Qed.

(** The levels below [i] are trimmed, the others are not. *)
Definition trimmed_below (i : nat) (bm : list Z) : Prop :=
  Z.of_nat (length bm) = off nl /\
  forall j g, (j < nl)%nat -> 0 <= g < cnt (S j) -> word bm j g = if decide (j < i)%nat then trimmed j g else Z.ones N.

Lemma trim_level bm j : (j < nl)%nat -> trimmed_below j bm ->
  exists bm', clear_extra lg bm (off (S j) - 1) (cnt j) = Ok bm' /\ trimmed_below (S j) bm'.
Proof using Hlg Hnb.
  intros Hj [Hl Hw]. destruct (clear_extra_spec bm j Hl Hj) as (bm' & E & Hl' & Hj' & Hother).
  { intros g Hg. rewrite Hw by done. by rewrite decide_False by lia. }
  exists bm'. split; [done|]. split; [done|]. intros i g Hi Hg. destruct (decide (i = j)) as [->|Hne].
  - rewrite decide_True by lia. by apply Hj'.
  - rewrite Hother, Hw by done. destruct (decide (i < j)%nat), (decide (i < S j)%nat); lia || done.
Qed.

Lemma init_loop_spec n i bm : USE_TREE = true -> nl = (i + n)%nat -> (0 < i)%nat -> trimmed_below i bm ->
  exists bm', init_loop lg n i binfo bm = Ok bm' /\ trimmed_below nl bm'.
Proof using Hlg Hnb Hinfo.
  intros Htree. pose proof (info_levels Hinfo) as Hlevels. rewrite Htree in Hlevels. revert i bm.
  induction n as [|n IH]; intros i bm Hn Hi Hbm; [exists bm; by replace nl with i by lia|].
  cbn [init_loop]. rewrite !Hlevels by lia. cbn [obind]. rewrite (Nat.add_1_r i).
  assert (Ec : off i - off (i - 1) = cnt i) by (destruct i as [|i]; [lia|]; cbn [offset]; rewrite Nat.sub_1_r; cbn [Nat.pred]; lia).
  rewrite Ec. destruct (trim_level bm i ltac:(lia) Hbm) as (bm1 & -> & Hbm1). cbn [obind]. apply IH; [lia|lia|done].
Qed.

(** A bitmap all of whose levels are trimmed has all bits set and is well-formed. *)
Lemma trimmed_ok bm : trimmed_below nl bm -> ok bm /\ forall b, 0 <= b < nb -> bit bm 0 b = true.
Proof using Hlg Hnb Hinfo.
  intros [Hl Hw]. pose proof (N_bounds lg Hlg) as HN. pose proof (info_pos Hinfo) as Hpos.
  assert (Hw' : forall j g, (j < nl)%nat -> 0 <= g < cnt (S j) -> word bm j g = trimmed j g).
  { intros j g Hj Hg. rewrite Hw by done. by rewrite decide_True. }
  assert (Hsz : forall j g, 0 <= g < cnt (S j) -> 0 < Z.min N (cnt j - g * N) <= N).
  { intros j g Hg. pose proof (count_step lg Hlg nb Hnb j). nia. }
  assert (Hbit : forall j b, (j < nl)%nat -> 0 <= b < N * cnt (S j) -> bit bm j b = bool_decide (b < cnt j)).
  { intros j b Hj Hb. unfold JeBitmap.bit. assert (0 <= b / N < cnt (S j)) by (split; [apply Z.div_pos; lia|apply Z.div_lt_upper_bound; lia]).
    pose proof (Hsz j (b / N) ltac:(done)). rewrite Hw' by done. unfold trimmed. pose proof (Z.mod_pos_bound b N ltac:(lia)). pose proof (Z.div_mod b N ltac:(lia)).
    case_bool_decide; [apply Z.ones_spec_low|apply Z.ones_spec_high]; lia. }
  split; [split; [done|..]|].
  - intros j g Hj Hg. rewrite Hw' by done. unfold trimmed. rewrite Z.ones_equiv. specialize (Hsz j g Hg).
    assert (0 < 2 ^ Z.min N (cnt j - g * N) <= 2 ^ N) by (split; [lia|apply Z.pow_le_mono_r; lia]). lia.
  - intros j b Hj Hb. pose proof (count_pos lg Hlg nb Hnb j). rewrite Hbit by (done || lia). apply bool_decide_eq_false_2. lia.
  - intros j g Hj Hg _. pose proof (count_step lg Hlg nb Hnb (S j)). rewrite Hbit by (done || lia). rewrite bool_decide_eq_true_2 by lia.
    rewrite Hw' by (done || lia). unfold trimmed. rewrite Z.ones_equiv. specialize (Hsz j g Hg).
    assert (2 ^ 1 <= 2 ^ Z.min N (cnt j - g * N)) by (apply Z.pow_le_mono_r; lia).
    destruct (Z.eqb_spec (Z.pred (2 ^ Z.min N (cnt j - g * N))) 0); [lia|done].
  - intros b Hb. pose proof (count_step lg Hlg nb Hnb 0) as Hc. change (cnt 0) with nb in Hc. rewrite Hbit by (done || lia).
    apply bool_decide_eq_true_2. apply Hb.
Qed.

Lemma bitmap_init_spec : exists bm, bitmap_init USE_TREE lg binfo = Ok bm /\ ok bm /\ forall b, 0 <= b < nb -> bit bm 0 b = true.
Proof using Hlg Hnb Hinfo.
  pose proof (info_shape Hinfo) as Hshape. pose proof (info_levels Hinfo) as Hlevels. pose proof (info_pos Hinfo) as Hpos.
  pose proof (offset_nonneg lg Hlg nb Hnb nl) as Hoff.
  assert (Hgroups : bitmap_info_ngroups USE_TREE binfo = Ok (off nl)).
  { unfold bitmap_info_ngroups. destruct USE_TREE; [destruct Hshape as [-> _]; by apply Hlevels|]. destruct Hshape as [-> ->]. done. }
  unfold bitmap_init. rewrite Hgroups. cbn [obind]. rewrite Z.shiftl_mul_pow2, Z.mul_1_l by lia.
  assert (Hstart : trimmed_below 0 (replicate (Z.to_nat (off nl)) (2 ^ N - 1))).
  { split; [rewrite length_replicate; lia|]. intros j g Hj Hg. pose proof (word_index lg Hlg nb Hnb nl j g Hj Hg).
    rewrite decide_False by lia. unfold JeBitmap.word. rewrite lookup_replicate_2 by lia. rewrite Z.ones_equiv. cbn. lia. }
  destruct (trim_level _ 0 Hpos Hstart) as (bm1 & E1 & Hbm1). change (cnt 0) with nb in E1. rewrite (info_nbits Hinfo).
  destruct USE_TREE eqn:Htree.
  - rewrite Hlevels by lia. cbn [obind]. rewrite E1. cbn [obind]. destruct Hshape as [-> _].
    destruct (init_loop_spec (nl - 1) 1 bm1) as (bm & -> & Hbm); [done|lia|lia|done|]. exists bm. split; [done|]. by apply trimmed_ok.
  - destruct Hshape as [Hn ->]. change (off 1) with (0 + cnt 1) in E1. rewrite Z.add_0_l in E1. rewrite E1. exists bm1. split; [done|].
    apply trimmed_ok. by rewrite Hn.
Qed.

(** * Bitmaps as lists of bits *)

Definition represents (s : list bool) (bm : list Z) : Prop :=
  ok bm /\ Z.of_nat (length s) = nb /\ forall b, 0 <= b < nb -> s !! Z.to_nat b = Some (negb (bit bm 0 b)).

Lemma represents_change s bm bm' b x : represents s bm -> ok bm' -> 0 <= b < nb ->
  (forall b', 0 <= b' < nb -> bit bm' 0 b' = if decide (b = b') then negb x else bit bm 0 b') ->
  represents (<[Z.to_nat b := x]> s) bm'.
Proof.
  intros (_ & Hlen & Hs) Hok' Hb Hbits. split_and!; [done|by rewrite length_insert|]. intros b' Hb'. rewrite Hbits by done.
  destruct (decide (b = b')) as [<-|Hne]; [rewrite list_lookup_insert_eq by lia; by rewrite negb_involutive|].
  rewrite list_lookup_insert_ne by lia. by apply Hs.
Qed.
End operations.

Inductive bitmap_op := Set_ (b : Z) | Unset (b : Z) | Get (b : Z) | Full | SetFirstUnset.
Inductive bitmap_answer := Done | Answer (r : bool) | Bit (b : Z).

(** The operations on a list of bits, with no result where the code's assertions would fail. *)
Definition bits_op (s : list bool) (o : bitmap_op) : option (list bool * bitmap_answer) :=
  match o with
  | Set_ b => if decide (0 <= b /\ s !! Z.to_nat b = Some false) then Some (<[Z.to_nat b := true]> s, Done) else None
  | Unset b => if decide (0 <= b /\ s !! Z.to_nat b = Some true) then Some (<[Z.to_nat b := false]> s, Done) else None
  | Get b => if decide (0 <= b) then x ← s !! Z.to_nat b; Some (s, Answer x) else None
  | Full => Some (s, Answer (forallb id s))
  | SetFirstUnset => i ← list_find (fun x => x = false) s; Some (<[fst i := true]> s, Bit (Z.of_nat (fst i)))
  end.

Fixpoint bits_ops (s : list bool) (ops : list bitmap_op) : option (list bool * list bitmap_answer) :=
  match ops with
  | [] => Some (s, [])
  | o :: ops => r ← bits_op s o; rs ← bits_ops (fst r) ops; Some (fst rs, snd r :: snd rs)
  end.

Definition run_op (USE_TREE : bool) (lg : Z) (binfo : bitmap_info) (bm : list Z) (o : bitmap_op) : result (list Z * bitmap_answer) :=
  match o with
  | Set_ b => bm <-- bitmap_set USE_TREE lg bm binfo b ;; Ok (bm, Done)
  | Unset b => bm <-- bitmap_unset USE_TREE lg bm binfo b ;; Ok (bm, Done)
  | Get b => r <-- bitmap_get lg bm b ;; Ok (bm, Answer r)
  | Full => r <-- bitmap_full USE_TREE bm binfo ;; Ok (bm, Answer r)
  | SetFirstUnset => r <-- bitmap_sfu USE_TREE lg bm binfo ;; Ok (fst r, Bit (snd r))
  end.

Fixpoint run_ops (USE_TREE : bool) (lg : Z) (binfo : bitmap_info) (bm : list Z) (ops : list bitmap_op) : result (list Z * list bitmap_answer) :=
  match ops with
  | [] => Ok (bm, [])
  | o :: ops => r <-- run_op USE_TREE lg binfo bm o ;; rs <-- run_ops USE_TREE lg binfo (fst r) ops ;; Ok (fst rs, snd r :: snd rs)
  end.

Section refinement.
Context (USE_TREE : bool) (lg : Z) (Hlg : 0 < lg <= 6) (nb M : Z) (HM : 0 < M <= 63) (Hnb : 0 < nb <= 2 ^ M).
Context (ls : Z) (Hls : 0 < ls <= lg).

Lemma bitmap_info_init_spec : exists nl binfo, bitmap_info_init USE_TREE lg ls M nb = Ok binfo /\ info_ok USE_TREE lg nb nl binfo.
Proof using Hlg Hnb Hls HM.
  unfold bitmap_info_init. rewrite Z.shiftl_mul_pow2, Z.mul_1_l by lia.
  rewrite (proj2 (Z.ltb_lt _ _)), (proj2 (Z.leb_le _ _)) by lia. cbn [andb negb]. destruct USE_TREE.
  - destruct (levels_loop_spec lg Hlg nb ltac:(lia) ls M 64 0) as (n & E & Htop & Hn); [done|lia|lia|lia|lia|..].
    { unfold BITMAP_MAX_LEVELS, truthy. pose proof (Z.div_mod M ls ltac:(lia)). pose proof (Z.div_pos M ls ltac:(lia) ltac:(lia)).
      destruct (Z.eqb_spec (M mod ls) 0); cbn [negb b2z]; nia. }
    cbn [offset count] in E. rewrite E. cbn [obind].
    assert (last (offset lg nb <$> seq 1 (S n)) = Some (offset lg nb (S n))) as ->
      by (rewrite seq_S, fmap_app; cbn [fmap list_fmap Nat.add]; apply last_snoc).
    cbn [default].
    rewrite (proj2 (Z.leb_le _ _)) by (apply groups_max; [done|done|lia|intros j Hj; apply Hn; lia]).
    exists (S n). eexists. split; [done|].
    split; cbn [nbits nlevels levels ngroups]; [done|lia|split; [by rewrite length_fmap, length_seq|done]|].
    intros i Hi. change (0 :: (offset lg nb <$> seq 1 (S n))) with (offset lg nb <$> seq 0 (S (S n))).
    unfold at_. rewrite list_lookup_fmap, lookup_seq_lt by lia. done.
  - exists 1%nat. eexists. split; [done|]. split; cbn; [done|lia|done|done].
Qed.

Section state.
Context (nl : nat) (binfo : bitmap_info) (Hinfo : info_ok USE_TREE lg nb nl binfo).

Lemma run_op_refines s bm o s' a : represents lg nb nl s bm -> bits_op s o = Some (s', a) ->
  exists bm', run_op USE_TREE lg binfo bm o = Ok (bm', a) /\ represents lg nb nl s' bm'.
Proof using HM Hlg Hnb Hinfo.
  intros Hrep Ho. pose proof Hrep as (Hok & Hlen & Hs).
  assert (Hin : forall b x, 0 <= b -> s !! Z.to_nat b = Some x -> 0 <= b < nb /\ bit lg nb bm 0 b = negb x).
  { intros b x Hb Hx. pose proof (lookup_lt_Some _ _ _ Hx). assert (Hb' : 0 <= b < nb) by lia. split; [done|].
    rewrite Hs in Hx by done. injection Hx as <-. by rewrite negb_involutive. }
  destruct o as [b|b|b| |]; cbn [bits_op run_op] in *.
  - destruct (decide _) as [[Hb Hx]|]; [|done]. injection Ho as <- <-. destruct (Hin b _ Hb Hx) as [Hb' Hbit].
    destruct (change_spec USE_TREE lg Hlg nb ltac:(lia) nl binfo Hinfo true bm b Hok Hb' Hbit) as (bm' & -> & Hok' & Hbits).
    exists bm'. split; [done|]. by apply (represents_change lg nb nl s bm).
  - destruct (decide _) as [[Hb Hx]|]; [|done]. injection Ho as <- <-. destruct (Hin b _ Hb Hx) as [Hb' Hbit].
    destruct (change_spec USE_TREE lg Hlg nb ltac:(lia) nl binfo Hinfo false bm b Hok Hb' Hbit) as (bm' & -> & Hok' & Hbits).
    exists bm'. split; [done|]. by apply (represents_change lg nb nl s bm).
  - destruct (decide _) as [Hb|]; [|done]. destruct (s !! Z.to_nat b) as [x|] eqn:Hx; [|done]. injection Ho as <- <-.
    destruct (Hin b x Hb Hx) as [Hb' Hbit]. rewrite (bitmap_get_spec USE_TREE lg Hlg nb ltac:(lia) nl binfo Hinfo) by done.
    rewrite Hbit, negb_involutive. by exists bm.
  - injection Ho as <- <-. destruct (bitmap_full_spec USE_TREE lg Hlg nb ltac:(lia) nl binfo Hinfo bm Hok) as (r & -> & Hr).
    exists bm. split; [|done]. cbn [obind]. do 3 f_equal. apply eq_true_iff_eq. rewrite Hr, forallb_forall. split.
    + intros H0 x Hx. apply list_elem_of_In, list_elem_of_lookup_1 in Hx as [i Hi]. pose proof (lookup_lt_Some _ _ _ Hi).
      specialize (Hs (Z.of_nat i) ltac:(lia)). rewrite Nat2Z.id, Hi, H0 in Hs by lia. by injection Hs as ->.
    + intros Hall b Hb. specialize (Hs b Hb). apply list_elem_of_lookup_2, list_elem_of_In, Hall in Hs. by apply negb_true_iff.
  - destruct (list_find _ s) as [[i x]|] eqn:Hf; [|done]. injection Ho as <- <-. apply list_find_Some in Hf as (Hi & -> & Hprev).
    destruct (Hin (Z.of_nat i) false) as [Hb Hbit]; [lia|by rewrite Nat2Z.id|].
    destruct (bitmap_sfu_spec USE_TREE lg Hlg nb ltac:(lia) nl binfo Hinfo bm Hok) as (b & bm' & -> & (Hb' & Hit & Hno) & Hok' & Hbits);
      [by exists (Z.of_nat i)|].
    assert (b = Z.of_nat i) as ->.
    { cbn [item] in Hit, Hno. destruct (Z.lt_total b (Z.of_nat i)) as [Hlt|[->|Hgt]]; [|done|rewrite Hno in Hbit by lia; done].
      exfalso. specialize (Hs b Hb'). apply Hprev in Hs; [|lia]. by rewrite Hit in Hs. }
    exists bm'. split; [done|]. cbn [fst]. replace i with (Z.to_nat (Z.of_nat i)) at 1 by lia. by apply (represents_change lg nb nl s bm).
Qed.

Lemma run_ops_refines ops s bm s' l : represents lg nb nl s bm -> bits_ops s ops = Some (s', l) ->
  exists bm', run_ops USE_TREE lg binfo bm ops = Ok (bm', l).
Proof using HM Hlg Hnb Hinfo.
  revert s bm l. induction ops as [|o ops IH]; intros s bm l Hrep Hops; cbn [bits_ops run_ops] in *; [injection Hops as <- <-; by exists bm|].
  destruct (bits_op s o) as [[s1 a]|] eqn:Ho; [|done]. cbn in Hops.
  destruct (bits_ops s1 ops) as [[s2 l2]|] eqn:Hops2; [|done]. cbn in Hops. injection Hops as <- <-.
  destruct (run_op_refines s bm o s1 a Hrep Ho) as (bm1 & -> & Hrep1). cbn [obind fst].
  destruct (IH s1 bm1 l2 Hrep1 Hops2) as (bm' & ->). by exists bm'.
Qed.
End state.

(** C14: a bitmap of any size up to the maximum, as a tree or flat, is initialised with no assertion failing and its
    levels inside their array, and behaves like a list of bits that are clear at first: bitmap_get,
    bitmap_set and bitmap_unset, bitmap_full, and bitmap_sfu, which sets the first clear bit and returns its index,
    stay inside the array and answer what the list does, in any sequence in which no assertion fails. *)
Theorem bitmap_refines_bits ops s l : bits_ops (replicate (Z.to_nat nb) false) ops = Some (s, l) ->
  exists binfo bm bm', bitmap_info_init USE_TREE lg ls M nb = Ok binfo /\ bitmap_init USE_TREE lg binfo = Ok bm /\
    run_ops USE_TREE lg binfo bm ops = Ok (bm', l).
Proof using Hlg Hnb Hls HM.
  intros Hops. destruct bitmap_info_init_spec as (nl & binfo & Hinit & Hinfo).
  destruct (bitmap_init_spec USE_TREE lg Hlg nb ltac:(lia) nl binfo Hinfo) as (bm & Hbm & Hok & Hbits).
  destruct (run_ops_refines nl binfo Hinfo ops (replicate (Z.to_nat nb) false) bm s l) as (bm' & Hrun); [|done|by exists binfo, bm, bm'].
  split_and!; [done|rewrite length_replicate; lia|]. intros b Hb. rewrite lookup_replicate_2 by lia. by rewrite Hbits.
Qed.
End refinement.

(** A tree of three levels of groups of two bits over five bits, in a configuration for at most eight. *)
Lemma bitmap_refines_bits_witness : exists binfo bm bm', bitmap_info_init true 1 1 3 5 = Ok binfo /\ bitmap_init true 1 binfo = Ok bm /\
  run_ops true 1 binfo bm [SetFirstUnset; Set_ 2; SetFirstUnset; Full; Unset 0; Get 2; SetFirstUnset] =
    Ok (bm', [Bit 0; Done; Bit 1; Answer false; Done; Answer true; Bit 0]).
Proof.
  apply (bitmap_refines_bits true 1 ltac:(lia) 5 3 ltac:(lia) ltac:(lia) 1 ltac:(lia) _ [true; true; true; false; false]). vm_compute. reflexivity.
Defined.
