(* ===== verification/LocalTime.v ===== *)
(** Calendar time: timesub, time2sub, time1 and the functions over them of tzcode/localtime.c, for a 64-bit time_t.
    Arithmetic on int wraps around where the source does not check it.  The abbreviations of time zones are left out,
    and the zone of Greenwich is a parameter. *)
From S2P Require Import Prelude Result.
From Stdlib Require Import ZArith Lia.

Local Open Scope Z_scope.

(** * Definitions *)

Abbreviation INT_MIN := (- 2 ^ 31).
Abbreviation time_t_min := (- 2 ^ 63).
Abbreviation time_t_max := (2 ^ 63 - 1).
Abbreviation SECSPERMIN := 60.
Abbreviation SECSPERHOUR := 3600.
Abbreviation SECSPERDAY := 86400.
Abbreviation DAYSPERNYEAR := 365.
Abbreviation DAYSPERLYEAR := 366.
Abbreviation MONSPERYEAR := 12.
Abbreviation EPOCH_YEAR := 1970.
Abbreviation EPOCH_WDAY := 4.
Abbreviation TM_YEAR_BASE := 1900.

Record tm := mk_tm {
  tm_sec : Z; tm_min : Z; tm_hour : Z; tm_mday : Z; tm_mon : Z; tm_year : Z; tm_wday : Z; tm_yday : Z; tm_isdst : Z; tm_gmtoff : Z
}.

Record ttinfo := mk_ttinfo { tt_gmtoff : Z; tt_isdst : bool }.
Record lsinfo := mk_lsinfo { ls_trans : Z; ls_corr : Z }.

(** The counts of the struct are the lengths of the lists. *)
Record state := mk_state { types : list nat; ttis : list ttinfo; lsis : list lsinfo }.

Definition isleap (y : Z) : bool := (Z.rem y 4 =? 0) && (negb (Z.rem y 100 =? 0) || (Z.rem y 400 =? 0)).

Definition mon_lengths (leap : bool) : list Z := [31; if leap then 29 else 28; 31; 30; 31; 30; 31; 31; 30; 31; 30; 31].

Definition year_lengths (leap : bool) : Z := if leap then DAYSPERLYEAR else DAYSPERNYEAR.

(** increment_overflow32 too: INT_FAST32_MAX is INT_MAX.  There is no value when the sum overflows. *)
Definition increment_overflow (i j : Z) : option Z :=
  if (if 0 <=? i then INT_MAX - i <? j else j <? INT_MIN - i) then None else Some (i + j).

Definition increment_overflow_time (t j : Z) : option Z :=
  if negb (if j <? 0 then time_t_min - j <=? t else t <=? time_t_max - j) then None else Some (t + j).

(** Also normalize_overflow32. *)
Definition normalize_overflow (tens units base : Z) : option (Z * Z) :=
  let tensdelta := if 0 <=? units then units / base else -1 - (-1 - units) / base in
  tens ← increment_overflow tens tensdelta; Some (tens, units - tensdelta * base).

Definition leaps_thru_end_of (y : Z) : Z :=
  let leaps y := y / 4 - y / 100 + y / 400 in
  if 0 <=? y then leaps y else - (leaps (- (y + 1)) + 1).

(** The correction for leap seconds, and whether the time is in one.  hit is a bool, which the loop that counts
    consecutive leap seconds leaves true. *)
Fixpoint leap_loop (lsis : list lsinfo) (i : nat) (t : Z) : result (Z * bool) :=
  match i with
  | O => Ok (0, false)
  | S i =>
      lp <-- at_ lsis i ;;
      if ls_trans lp <=? t then
        hit <-- (if t =? ls_trans lp then
                   if (i =? 0)%nat && (0 <? ls_corr lp) then Ok true else
                   match i with
                   | O => Fault
                   | S j => prev <-- at_ lsis j ;; Ok (ls_corr prev <? ls_corr lp)
                   end
                 else Ok false) ;;
        Ok (ls_corr lp, hit)
      else leap_loop lsis i t
  end.

(** No value when the year does not fit an int. *)
Fixpoint year_loop (fuel : nat) (tdays y : Z) : result (option (Z * Z)) :=
  match fuel with
  | O => Fault
  | S fuel =>
      if (tdays <? 0) || (year_lengths (isleap y) <=? tdays) then
        let tdelta := Z.quot tdays DAYSPERLYEAR in
        if negb ((INT_MIN <=? tdelta) && (tdelta <=? INT_MAX)) then Ok None else
        let idelta := if tdelta =? 0 then if tdays <? 0 then -1 else 1 else tdelta in
        match increment_overflow y idelta with
        | None => Ok None
        | Some newy =>
            let leapdays := leaps_thru_end_of (wrapS 32 (newy - 1)) - leaps_thru_end_of (wrapS 32 (y - 1)) in
            year_loop fuel (tdays - (newy - y) * DAYSPERNYEAR - leapdays) newy
        end
      else Ok (Some (tdays, y))
  end.

(** A signed result that has to fit its type; what an overflow does is undefined. *)
Definition fits (lo hi z : Z) : result Z := if (lo <=? z) && (z <=? hi) then Ok z else Fault.

(** The two loops that bring the seconds into a day: idays is an int. *)
Fixpoint rem_loop (fuel : nat) (rem idays : Z) : result (Z * Z) :=
  match fuel with
  | O => Fault
  | S fuel =>
      if rem <? 0 then idays <-- fits INT_MIN INT_MAX (idays - 1) ;; rem_loop fuel (rem + SECSPERDAY) idays
      else if SECSPERDAY <=? rem then idays <-- fits INT_MIN INT_MAX (idays + 1) ;; rem_loop fuel (rem - SECSPERDAY) idays
      else Ok (rem, idays)
  end.

(** The two loops that bring the days into a year. *)
Fixpoint days_loop (fuel : nat) (idays y : Z) : result (option (Z * Z)) :=
  match fuel with
  | O => Fault
  | S fuel =>
      if idays <? 0 then
        match increment_overflow y (-1) with
        | None => Ok None
        | Some y => days_loop fuel (idays + year_lengths (isleap y)) y
        end
      else if year_lengths (isleap y) <=? idays then
        match increment_overflow y 1 with
        | None => Ok None
        | Some y' => days_loop fuel (idays - year_lengths (isleap y)) y'
        end
      else Ok (Some (idays, y))
  end.

Fixpoint month_loop (ip : list Z) (mon idays : Z) : result (Z * Z) :=
  match ip with
  | [] => Fault
  | l :: ip => if l <=? idays then month_loop ip (mon + 1) (idays - l) else Ok (mon, idays)
  end.

Definition set_year (tmp : tm) (y : Z) : tm :=
  mk_tm (tm_sec tmp) (tm_min tmp) (tm_hour tmp) (tm_mday tmp) (tm_mon tmp) y (tm_wday tmp) (tm_yday tmp) (tm_isdst tmp) (tm_gmtoff tmp).

(** The new contents of [*tmp], and whether the result is not NULL.  The variable rem is an int_fast64_t, with the range of
    time_t. *)
Definition timesub (t offset : Z) (sp : state) (tmp : tm) : result (tm * bool) :=
  c <-- leap_loop (lsis sp) (length (lsis sp)) t ;;
  let '(corr, hit) := c in
  r <-- year_loop 100 (Z.quot t SECSPERDAY) EPOCH_YEAR ;;
  match r with
  | None => Ok (tmp, false)
  | Some (tdays, y) =>
      d <-- fits time_t_min time_t_max (offset - corr) ;;
      rem <-- fits time_t_min time_t_max (Z.rem t SECSPERDAY + d) ;;
      r <-- rem_loop (Z.to_nat (Z.abs rem / SECSPERDAY + 2)) rem tdays ;;
      let '(rem, idays) := r in
      r <-- days_loop (Z.to_nat (Z.abs idays / DAYSPERNYEAR + 2)) idays y ;;
      match r with
      | None => Ok (tmp, false)
      | Some (idays, y) =>
          match increment_overflow y (- TM_YEAR_BASE) with
          | None => Ok (set_year tmp y, false)
          | Some year =>
              let wday := EPOCH_WDAY + Z.rem (wrapS 32 (y - EPOCH_YEAR)) 7 * Z.rem DAYSPERNYEAR 7 +
                leaps_thru_end_of (wrapS 32 (y - 1)) - leaps_thru_end_of (EPOCH_YEAR - 1) + idays in
              let wday := Z.rem wday 7 in
              let wday := if wday <? 0 then wday + 7 else wday in
              let hour := Z.quot rem SECSPERHOUR in
              let rem := Z.rem rem SECSPERHOUR in
              m <-- month_loop (mon_lengths (isleap y)) 0 idays ;;
              let '(mon, mday) := m in
              Ok (mk_tm (Z.rem rem SECSPERMIN + b2z hit) (Z.quot rem SECSPERMIN) hour (mday + 1) mon year wday idays 0 offset, true)
          end
      end
  end.

(** The functions below take gmtsub or another function of its type, with the state and the offset applied. *)
Abbreviation tm_function := (Z -> tm -> result (tm * bool)).

Definition gmtsub (gmtptr : state) (offset : Z) : tm_function := fun t tmp => timesub t offset gmtptr tmp.

Definition tmcomp (a b : tm) : Z :=
  if negb (tm_year a =? tm_year b) then if tm_year a <? tm_year b then -1 else 1
  else if negb (tm_mon a =? tm_mon b) then tm_mon a - tm_mon b
  else if negb (tm_mday a =? tm_mday b) then tm_mday a - tm_mday b
  else if negb (tm_hour a =? tm_hour b) then tm_hour a - tm_hour b
  else if negb (tm_min a =? tm_min b) then tm_min a - tm_min b
  else tm_sec a - tm_sec b.

(** ** time2sub *)

(** The two loops that bring the day of the month near a year; a month after February belongs to the year after. *)
Fixpoint mday_loop (fuel : nat) (y mon mday : Z) : result (option (Z * Z)) :=
  match fuel with
  | O => Fault
  | S fuel =>
      if mday <=? 0 then
        match increment_overflow y (-1) with
        | None => Ok None
        | Some y => mday_loop fuel y mon (mday + year_lengths (isleap (y + b2z (1 <? mon))))
        end
      else if DAYSPERLYEAR <? mday then
        match increment_overflow y 1 with
        | None => Ok None
        | Some y' => mday_loop fuel y' mon (mday - year_lengths (isleap (y + b2z (1 <? mon))))
        end
      else Ok (Some (y, mday))
  end.

Fixpoint mon_loop (fuel : nat) (y mon mday : Z) : result (option (Z * Z * Z)) :=
  match fuel with
  | O => Fault
  | S fuel =>
      i <-- at_ (mon_lengths (isleap y)) (Z.to_nat mon) ;;
      if mday <=? i then Ok (Some (y, mon, mday))
      else if MONSPERYEAR <=? mon + 1 then
        match increment_overflow y 1 with
        | None => Ok None
        | Some y => mon_loop fuel y 0 (mday - i)
        end
      else mon_loop fuel y (mon + 1) (mday - i)
  end.

(** The beginning of time2sub: the fields in range, but for the seconds, if this is possible. *)
Definition normalize (tmp : tm) (do_norm_secs : bool) : result (option tm) :=
  match (if do_norm_secs then normalize_overflow (tm_min tmp) (tm_sec tmp) SECSPERMIN else Some (tm_min tmp, tm_sec tmp)) with
  | None => Ok None
  | Some (min, sec) =>
  match normalize_overflow (tm_hour tmp) min 60 with
  | None => Ok None
  | Some (hour, min) =>
  match normalize_overflow (tm_mday tmp) hour 24 with
  | None => Ok None
  | Some (mday, hour) =>
  match normalize_overflow (tm_year tmp) (tm_mon tmp) MONSPERYEAR with
  | None => Ok None
  | Some (y, mon) =>
  match increment_overflow y TM_YEAR_BASE with
  | None => Ok None
  | Some y =>
      r <-- mday_loop (Z.to_nat (Z.abs mday / DAYSPERNYEAR + 2)) y mon mday ;;
      match r with
      | None => Ok None
      | Some (y, mday) =>
          r <-- mon_loop 14 y mon mday ;;
          match r with
          | None => Ok None
          | Some (y, mon, mday) =>
              match increment_overflow y (- TM_YEAR_BASE) with
              | None => Ok None
              | Some y => Ok (Some (mk_tm sec min hour mday mon y (tm_wday tmp) (tm_yday tmp) (tm_isdst tmp) (tm_gmtoff tmp)))
              end
          end
      end
  end end end end end.

(** The seconds to search for, and those to add to the time that is found. *)
Definition split_seconds (yourtm : tm) : option (Z * Z) :=
  if (0 <=? tm_sec yourtm) && (tm_sec yourtm <? SECSPERMIN) then Some (tm_sec yourtm, 0)
  else if tm_year yourtm + TM_YEAR_BASE <? EPOCH_YEAR then
    saved ← increment_overflow (tm_sec yourtm) (1 - SECSPERMIN); Some (SECSPERMIN - 1, saved)
  else Some (0, tm_sec yourtm).

Definition set_sec (tmp : tm) (sec : Z) : tm :=
  mk_tm sec (tm_min tmp) (tm_hour tmp) (tm_mday tmp) (tm_mon tmp) (tm_year tmp) (tm_wday tmp) (tm_yday tmp) (tm_isdst tmp) (tm_gmtoff tmp).

(** The binary search: a time whose fields are [yourtm]'s, and its fields. *)
Fixpoint search (fuel : nat) (funcp : tm_function) (yourtm : tm) (lo hi : Z) : result (option (Z * tm)) :=
  match fuel with
  | O => Fault
  | S fuel =>
      let t := Z.quot lo 2 + Z.quot hi 2 in
      let t := if t <? lo then lo else if hi <? t then hi else t in
      r <-- funcp t yourtm ;;
      let '(mytm, ok) := r in
      let dir := if negb ok then if 0 <? t then 1 else -1 else tmcomp mytm yourtm in
      if negb (dir =? 0) then
        match (if t =? lo then if t =? time_t_max then None else Some (t + 1, lo + 1, hi)
               else if t =? hi then if t =? time_t_min then None else Some (t - 1, lo, hi - 1)
               else Some (t, lo, hi)) with
        | None => Ok None
        | Some (t, lo, hi) =>
            if hi <? lo then Ok None
            else if 0 <? dir then search fuel funcp yourtm lo t
            else search fuel funcp yourtm t hi
        end
      else Ok (Some (t, mytm))
  end.

(** A second guess, from the offset in [yourtm]. *)
Definition try_gmtoff (funcp : tm_function) (yourtm mytm : tm) (t : Z) : result (Z * tm) :=
  if negb (tm_gmtoff mytm =? tm_gmtoff yourtm) &&
     (if tm_gmtoff yourtm <? 0
      then (- SECSPERDAY <=? tm_gmtoff yourtm) && (tm_gmtoff mytm <=? INT_MAX + tm_gmtoff yourtm)
      else (tm_gmtoff yourtm <=? SECSPERDAY) && (INT_MIN + tm_gmtoff yourtm <=? tm_gmtoff mytm)) then
    match increment_overflow_time t (tm_gmtoff mytm - tm_gmtoff yourtm) with
    | None => Ok (t, mytm)
    | Some altt =>
        r <-- funcp altt yourtm ;;
        let '(alttm, ok) := r in
        if ok && (tm_isdst alttm =? tm_isdst mytm) && (tm_gmtoff alttm =? tm_gmtoff yourtm) && (tmcomp alttm yourtm =? 0)
        then Ok (altt, alttm) else Ok (t, mytm)
    end
  else Ok (t, mytm).

(** The differences of offsets that the hunt for the right type adds to the time, in order. *)
Definition hunt_offsets (sp : state) (isdst : Z) : list Z :=
  rev (ttis sp) ≫= fun ti =>
    if negb (b2z (tt_isdst ti) =? isdst) then []
    else rev (ttis sp) ≫= fun tj => if b2z (tt_isdst tj) =? isdst then [] else [tt_gmtoff tj - tt_gmtoff ti].

Fixpoint hunt (funcp : tm_function) (yourtm : tm) (t : Z) (offsets : list Z) : result (option Z) :=
  match offsets with
  | [] => Ok None
  | o :: offsets =>
      let newt := wrapS 64 (t + o) in
      r <-- funcp newt yourtm ;;
      let '(mytm, ok) := r in
      if ok && (tmcomp mytm yourtm =? 0) && (tm_isdst mytm =? tm_isdst yourtm) then Ok (Some newt)
      else hunt funcp yourtm t offsets
  end.

Abbreviation WRONG := (-1).

(** The time, whether it is okay, and the new contents of [*tmp]. *)
Definition time2sub (tmp : tm) (funcp : tm_function) (sp : state) (do_norm_secs : bool) : result (Z * bool * tm) :=
  r <-- normalize tmp do_norm_secs ;;
  match r with
  | None => Ok (WRONG, false, tmp)
  | Some yourtm =>
  match split_seconds yourtm with
  | None => Ok (WRONG, false, tmp)
  | Some (sec, saved_seconds) =>
      let yourtm := set_sec yourtm sec in
      r <-- search 70 funcp yourtm time_t_min time_t_max ;;
      match r with
      | None => Ok (WRONG, false, tmp)
      | Some (t, mytm) =>
          r <-- try_gmtoff funcp yourtm mytm t ;;
          let '(t, mytm) := r in
          r <-- (if (tm_isdst yourtm <? 0) || (tm_isdst mytm =? tm_isdst yourtm) then Ok (Some t)
                 else hunt funcp yourtm t (hunt_offsets sp (tm_isdst yourtm))) ;;
          match r with
          | None => Ok (WRONG, false, tmp)
          | Some t =>
              let newt := wrapS 64 (t + saved_seconds) in
              if negb (Bool.eqb (newt <? t) (saved_seconds <? 0)) then Ok (WRONG, false, tmp)
              else r <-- funcp newt tmp ;; Ok (newt, snd r, fst r)
          end
      end
  end end.

Definition time2 (tmp : tm) (funcp : tm_function) (sp : state) : result (Z * bool * tm) :=
  r <-- time2sub tmp funcp sp false ;;
  let '(t, okay, tmp) := r in
  if okay then Ok (t, okay, tmp) else time2sub tmp funcp sp true.

(** The types that occur, the latest first. *)
Definition seen_types (sp : state) : list nat :=
  fold_left (fun seen ty => if decide (ty ∈ seen) then seen else seen ++ [ty]) (rev (types sp)) [].

Definition shift_tm (tmp : tm) (secs isdst : Z) : tm :=
  mk_tm (wrapS 32 (tm_sec tmp + secs)) (tm_min tmp) (tm_hour tmp) (tm_mday tmp) (tm_mon tmp) (tm_year tmp) (tm_wday tmp) (tm_yday tmp) isdst (tm_gmtoff tmp).

(** The two nested loops of time1, over the pairs of types that differ. *)
Fixpoint time1_loop (tmp : tm) (funcp : tm_function) (sp : state) (pairs : list (nat * nat)) : result (Z * tm) :=
  match pairs with
  | [] => Ok (WRONG, tmp)
  | (samei, otheri) :: pairs =>
      same <-- at_ (ttis sp) samei ;;
      other <-- at_ (ttis sp) otheri ;;
      if negb (b2z (tt_isdst same) =? tm_isdst tmp) || (b2z (tt_isdst other) =? tm_isdst tmp) then time1_loop tmp funcp sp pairs else
      let secs := tt_gmtoff other - tt_gmtoff same in
      r <-- time2 (shift_tm tmp secs (b2z (tm_isdst tmp =? 0))) funcp sp ;;
      let '(t, okay, tmp) := r in
      if okay then Ok (t, tmp) else time1_loop (shift_tm tmp (- secs) (b2z (tm_isdst tmp =? 0))) funcp sp pairs
  end.

Definition set_isdst (tmp : tm) (isdst : Z) : tm :=
  mk_tm (tm_sec tmp) (tm_min tmp) (tm_hour tmp) (tm_mday tmp) (tm_mon tmp) (tm_year tmp) (tm_wday tmp) (tm_yday tmp) isdst (tm_gmtoff tmp).

Definition time1 (tmp : tm) (funcp : tm_function) (sp : state) : result (Z * tm) :=
  let tmp := if 1 <? tm_isdst tmp then set_isdst tmp 1 else tmp in
  r <-- time2 tmp funcp sp ;;
  let '(t, okay, tmp) := r in
  if okay then Ok (t, tmp)
  else if tm_isdst tmp <? 0 then Ok (t, tmp)
  else time1_loop tmp funcp sp (seen_types sp ≫= fun samei => (samei,.) <$> seen_types sp).

Definition timeoff (gmtptr : state) (tmp : tm) (offset : Z) : result (Z * tm) :=
  time1 (set_isdst tmp 0) (gmtsub gmtptr offset) gmtptr.

Definition timegm (gmtptr : state) (tmp : tm) : result (Z * tm) := timeoff gmtptr tmp 0.

(** * The calendar *)

(** The years divisible by 4, less those divisible by 100, more those divisible by 400, up to a year. *)
Definition leap_years (y : Z) : Z := y / 4 - y / 100 + y / 400.

Lemma leaps_thru_end_of_eq y : leaps_thru_end_of y = leap_years y.
Proof. unfold leaps_thru_end_of, leap_years. destruct (Z.leb_spec 0 y); [done|]. Z.to_euclidean_division_equations. lia. Qed.

Lemma isleap_mod y : isleap y = (y mod 4 =? 0) && (negb (y mod 100 =? 0) || (y mod 400 =? 0)).
Proof.
  unfold isleap. assert (E : forall n, 0 < n -> (Z.rem y n =? 0) = (y mod n =? 0)).
  { intros n Hn. apply eq_true_iff_eq. rewrite !Z.eqb_eq. rewrite Z.rem_divide, Z.mod_divide by lia. done. }
  by rewrite !E by lia.
Qed.

Lemma leap_years_step y : leap_years y = leap_years (y - 1) + b2z (isleap y).
Proof.
  rewrite isleap_mod. unfold leap_years.
  destruct (Z.eqb_spec (y mod 4) 0), (Z.eqb_spec (y mod 100) 0), (Z.eqb_spec (y mod 400) 0); cbn [andb orb negb b2z];
    Z.to_euclidean_division_equations; lia.
Qed.

(** The day on which a year starts, from the epoch. *)
Definition year_start (y : Z) : Z := DAYSPERNYEAR * (y - EPOCH_YEAR) + (leap_years (y - 1) - leap_years (EPOCH_YEAR - 1)).

Lemma year_start_epoch : year_start EPOCH_YEAR = 0.
Proof. reflexivity. Qed.

Lemma year_start_succ y : year_start (y + 1) = year_start y + year_lengths (isleap y).
Proof.
  unfold year_start, year_lengths. replace (y + 1 - 1) with y by lia. rewrite (leap_years_step y). destruct (isleap y); cbn [b2z]; lia.
Qed.

Lemma year_lengths_bounds b : 365 <= year_lengths b <= 366.
Proof. destruct b; cbn; lia. Qed.

Lemma year_start_bounds y k : 0 <= k -> 365 * k <= year_start (y + k) - year_start y <= 366 * k.
Proof.
  intros Hk. rewrite <-(Z2Nat.id k) by done. induction (Z.to_nat k) as [|n IH]; [rewrite Z.add_0_r; lia|].
  replace (y + Z.of_nat (S n)) with (y + Z.of_nat n + 1) by lia. rewrite year_start_succ.
  pose proof (year_lengths_bounds (isleap (y + Z.of_nat n))). lia.
Qed.

Lemma year_start_mono y y' : y <= y' -> year_start y <= year_start y'.
Proof. intros H. pose proof (year_start_bounds y (y' - y) ltac:(lia)) as Hb. replace (y + (y' - y)) with y' in Hb by lia. lia. Qed.

(** A day is in one year. *)
Definition in_year (d y : Z) : Prop := year_start y <= d < year_start (y + 1).

Lemma in_year_lt d d' y y' : in_year d y -> in_year d' y' -> y < y' -> d < d'.
Proof. intros [_ H1] [H2 _] Hlt. pose proof (year_start_mono (y + 1) y' ltac:(lia)). lia. Qed.

Lemma in_year_unique d y y' : in_year d y -> in_year d y' -> y = y'.
Proof.
  intros H H'. destruct (Z.lt_total y y') as [Hlt|[E|Hlt]]; [|done|].
  - pose proof (in_year_lt d d y y' H H' Hlt). lia.
  - pose proof (in_year_lt d d y' y H' H Hlt). lia.
Qed.

Lemma in_year_exists d : exists y, in_year d y.
Proof.
  unfold in_year. assert (Hup : forall n y, year_start y <= d < year_start y + Z.of_nat n -> exists y, year_start y <= d < year_start (y + 1)).
  { induction n as [|n IH]; intros y Hy; [lia|]. pose proof (year_lengths_bounds (isleap y)). pose proof (year_start_succ y).
    destruct (decide (d < year_start (y + 1))); [exists y; lia|]. apply (IH (y + 1)). lia. }
  pose proof (year_start_bounds (EPOCH_YEAR - Z.abs d) (Z.abs d) ltac:(lia)) as Hb.
  replace (EPOCH_YEAR - Z.abs d + Z.abs d) with EPOCH_YEAR in Hb by lia. rewrite year_start_epoch in Hb.
  apply (Hup (Z.to_nat (d - year_start (EPOCH_YEAR - Z.abs d) + 1)) (EPOCH_YEAR - Z.abs d)). lia.
Qed.

(** * The loops of timesub *)

Lemma increment_overflow_eq i j : INT_MIN <= i <= INT_MAX -> INT_MIN <= j <= INT_MAX ->
  increment_overflow i j = if decide (INT_MIN <= i + j <= INT_MAX) then Some (i + j) else None.
Proof.
  intros Hi Hj. unfold increment_overflow, INT_MAX in *.
  destruct (decide _), (Z.leb_spec 0 i), (Z.ltb_spec (2147483647 - i) j), (Z.ltb_spec j (INT_MIN - i)); lia || done.
Qed.

(** The years by which the loop over years moves. *)
Definition year_delta (tdays : Z) : Z :=
  let tdelta := Z.quot tdays DAYSPERLYEAR in if tdelta =? 0 then if tdays <? 0 then -1 else 1 else tdelta.

(** Less than a leap year away: the next round is the last. *)
Lemma year_delta_small tdays y : Z.abs tdays < 366 -> tdays < 0 \/ year_lengths (isleap y) <= tdays ->
  0 <= tdays - (year_start (y + year_delta tdays) - year_start y) < year_lengths (isleap (y + year_delta tdays)).
Proof.
  intros Hs Hout. unfold year_delta. rewrite (proj2 (Z.quot_small_iff tdays 366 ltac:(lia)) ltac:(lia)). cbn [Z.eqb].
  pose proof (year_lengths_bounds (isleap y)). destruct (Z.ltb_spec tdays 0).
  - pose proof (year_start_succ (y + -1)) as E. replace (y + -1 + 1) with y in E by lia.
    pose proof (year_lengths_bounds (isleap (y + -1))). lia.
  - rewrite year_start_succ. pose proof (year_lengths_bounds (isleap (y + 1))). lia.
Qed.

(** Farther away: the loop does not go too far, and what is left is about the 366th part. *)
Lemma year_delta_large tdays y : 366 <= Z.abs tdays ->
  let left := tdays - (year_start (y + year_delta tdays) - year_start y) in
  (0 < tdays -> 0 < year_delta tdays /\ 0 <= left) /\ (tdays < 0 -> year_delta tdays < 0 /\ left <= 0) /\
  Z.abs left <= Z.abs tdays / 366 + Z.abs tdays mod 366.
Proof.
  intros Hl. assert (Hd : year_delta tdays = Z.quot tdays 366).
  { unfold year_delta. destruct (Z.eqb_spec (Z.quot tdays 366) 0) as [E|]; [|done]. apply Z.quot_small_iff in E; lia. }
  cbv zeta. rewrite Hd. destruct (decide (0 < tdays)) as [Hpos|Hneg].
  - pose proof (year_start_bounds y (Z.quot tdays 366) ltac:(apply Z.quot_pos; lia)) as Hb. rewrite (Z.abs_eq tdays) in * by lia.
    rewrite Z.quot_div_nonneg in * by lia. pose proof (Z.div_mod tdays 366 ltac:(lia)). pose proof (Z.mod_pos_bound tdays 366 ltac:(lia)).
    assert (0 < tdays / 366) by (apply Z.div_str_pos; lia). lia.
  - assert (Eq : Z.quot tdays 366 = - (Z.abs tdays / 366)).
    { rewrite <-(Z.opp_involutive tdays) at 1. rewrite Z.quot_opp_l, Z.quot_div_nonneg by lia. do 2 f_equal. lia. }
    rewrite Eq. pose proof (year_start_bounds (y + - (Z.abs tdays / 366)) (Z.abs tdays / 366) ltac:(apply Z.div_pos; lia)) as Hb.
    replace (y + - (Z.abs tdays / 366) + Z.abs tdays / 366) with y in Hb by lia.
    pose proof (Z.div_mod (Z.abs tdays) 366 ltac:(lia)). pose proof (Z.mod_pos_bound (Z.abs tdays) 366 ltac:(lia)).
    assert (0 < Z.abs tdays / 366) by (apply Z.div_str_pos; lia). lia.
Qed.

(** Enough fuel for a number of days. *)
Definition year_fuel (fuel : nat) (n : Z) : Prop :=
  n < 366 /\ (2 <= fuel)%nat \/ n < 368 /\ (3 <= fuel)%nat \/ exists j : nat, n < 1098 * 2 ^ Z.of_nat j /\ (j + 4 <= fuel)%nat.

Lemma year_fuel_step fuel n m : year_fuel (S fuel) n -> 366 <= n -> 0 <= m <= n / 366 + n mod 366 -> year_fuel fuel m.
Proof.
  intros Hf Hn Hm. pose proof (Z.div_mod n 366 ltac:(lia)). pose proof (Z.mod_pos_bound n 366 ltac:(lia)).
  assert (0 < n / 366) by (apply Z.div_str_pos; lia).
  destruct Hf as [[? ?]|[[? ?]|(j & Hj & Hf)]]; [lia|left; lia|].
  destruct (decide (n < 1098)) as [Hlt|Hge]; [right; left; lia|]. right; right. destruct j as [|j].
  - cbn in Hj. lia.
  - exists j. split; [|lia]. rewrite Nat2Z.inj_succ, Z.pow_succ_r in Hj by lia. lia.
Qed.

(** In the least year that fits an int there is no way back. *)
Lemma year_loop_min fuel tdays : (0 < fuel)%nat -> tdays < 0 -> year_loop fuel tdays INT_MIN = Ok None.
Proof.
  intros Hf Ht. destruct fuel as [|fuel]; [lia|]. cbn [year_loop]. destruct (Z.ltb_spec tdays 0); [|lia]. cbn [orb].
  destruct (_ && _) eqn:E; [|done]. cbn [negb]. apply andb_true_iff in E as [E1 E2].
  assert (Hq : Z.quot tdays 366 <= 0) by (Z.to_euclidean_division_equations; lia).
  rewrite increment_overflow_eq; [|unfold INT_MAX; lia|destruct (Z.eqb_spec (Z.quot tdays 366) 0); unfold INT_MAX in *; lia].
  rewrite decide_False; [done|]. destruct (Z.eqb_spec (Z.quot tdays 366) 0); lia.
Qed.

Section year_loop.
Context (tdays y Y : Z).

(** The year to find is on the side of the next guess. *)
Lemma year_delta_side : in_year (year_start y + tdays) Y -> tdays < 0 \/ year_lengths (isleap y) <= tdays ->
  (0 < tdays -> 0 < year_delta tdays /\ y + year_delta tdays <= Y) /\
  (tdays < 0 -> year_delta tdays < 0 /\ Y <= y + year_delta tdays).
Proof.
  intros HY Hout. destruct (decide (Z.abs tdays < 366)) as [Hs|Hl].
  - pose proof (year_delta_small tdays y Hs Hout) as Hr. assert (HY' : in_year (year_start y + tdays) (y + year_delta tdays)).
    { unfold in_year. rewrite year_start_succ. lia. }
    pose proof (in_year_unique _ _ _ HY HY'). unfold year_delta in *.
    rewrite (proj2 (Z.quot_small_iff tdays 366 ltac:(lia)) ltac:(lia)) in *. cbn [Z.eqb] in *. destruct (Z.ltb_spec tdays 0); lia.
  - pose proof (year_delta_large tdays y ltac:(lia)) as (Hp & Hn & _). cbv zeta in *. split.
    + intros Ht. destruct (Hp Ht) as [? Hleft]. split; [done|]. apply Z.nlt_ge. intros Hlt.
      pose proof (year_start_mono (Y + 1) (y + year_delta tdays) ltac:(lia)). destruct HY. lia.
    + intros Ht. destruct (Hn Ht) as [? Hleft]. split; [done|]. apply Z.nlt_ge. intros Hlt.
      pose proof (year_start_mono (y + year_delta tdays + 1) Y ltac:(lia)). pose proof (year_start_succ (y + year_delta tdays)).
      pose proof (year_lengths_bounds (isleap (y + year_delta tdays))). destruct HY. lia.
Qed.

(** A number of days too great for an int of years is too great. *)
Lemma year_delta_far : in_year (year_start y + tdays) Y -> (0 < tdays -> EPOCH_YEAR <= y) -> (tdays < 0 -> y <= EPOCH_YEAR) ->
  tdays < 0 \/ year_lengths (isleap y) <= tdays -> ~ (INT_MIN <= Z.quot tdays 366 <= INT_MAX) -> ~ (INT_MIN < Y <= INT_MAX).
Proof.
  intros HY Hpos Hneg Hout Hq HYr. destruct (year_delta_side HY Hout) as [Hp Hn]. unfold INT_MAX in *.
  assert (Hd : year_delta tdays = Z.quot tdays 366) by (unfold year_delta; destruct (Z.eqb_spec (Z.quot tdays 366) 0); lia).
  pose proof (year_lengths_bounds (isleap y)). destruct (decide (0 < tdays)) as [Ht|Ht]; [lia|].
  assert (Hy : year_start y <= 0) by (rewrite <-year_start_epoch; apply year_start_mono; lia).
  pose proof (year_start_mono (INT_MIN + 1) Y ltac:(lia)) as Hm. destruct HY as [HY _].
  assert (Ec : year_start (INT_MIN + 1) = -784353015467) by (vm_compute; reflexivity). rewrite Ec in Hm.
  assert (Z.quot tdays 366 < INT_MIN) by lia. assert (tdays < 366 * INT_MIN) by (Z.to_euclidean_division_equations; lia). lia.
Qed.
End year_loop.

Lemma year_loop_done fuel tdays y : (0 < fuel)%nat -> 0 <= tdays < year_lengths (isleap y) -> year_loop fuel tdays y = Ok (Some (tdays, y)).
Proof.
  intros Hf Ht. destruct fuel as [|fuel]; [lia|]. cbn [year_loop].
  destruct (Z.ltb_spec tdays 0), (Z.leb_spec (year_lengths (isleap y)) tdays); lia || done.
Qed.

(** The value of the loop after one round, where the year fits. *)
Lemma year_loop_next fuel tdays y : INT_MIN < y <= INT_MAX -> INT_MIN <= y + year_delta tdays <= INT_MAX -> (0 < fuel)%nat ->
  tdays - (year_start (y + year_delta tdays) - year_start y) < 366 \/ y + year_delta tdays <> INT_MIN ->
  year_loop fuel (tdays - (y + year_delta tdays - y) * DAYSPERNYEAR -
    (leaps_thru_end_of (wrapS 32 (y + year_delta tdays - 1)) - leaps_thru_end_of (wrapS 32 (y - 1)))) (y + year_delta tdays) =
  if decide (y + year_delta tdays = INT_MIN) then Ok None
  else year_loop fuel (tdays - (year_start (y + year_delta tdays) - year_start y)) (y + year_delta tdays).
Proof.
  intros Hy Hnew Hf Hleft. unfold INT_MAX in *. rewrite (wrapS_small 32 (y - 1)) by lia. rewrite !leaps_thru_end_of_eq.
  unfold year_start in *. destruct (decide (y + year_delta tdays = INT_MIN)) as [E|E].
  - rewrite E in *. change (wrapS 32 (INT_MIN - 1)) with 2147483647. change (leap_years 2147483647) with 520764784.
    change (leap_years (INT_MIN - 1)) with (-520764786) in Hleft. apply year_loop_min; [done|]. lia.
  - rewrite (wrapS_small 32 (y + year_delta tdays - 1)) by lia. f_equal. lia.
Qed.

Lemma year_loop_spec fuel tdays y Y : in_year (year_start y + tdays) Y -> year_fuel fuel (Z.abs tdays) ->
  INT_MIN < y <= INT_MAX -> (0 < tdays -> EPOCH_YEAR <= y) -> (tdays < 0 -> y <= EPOCH_YEAR) ->
  year_loop fuel tdays y = Ok (if decide (INT_MIN < Y <= INT_MAX) then Some (year_start y + tdays - year_start Y, Y) else None).
Proof.
  revert tdays y. induction fuel as [|fuel IH]; intros tdays y HY Hf Hy Hpos Hneg.
  { destruct Hf as [[_ ?]|[[_ ?]|(j & _ & ?)]]; lia. }
  assert (Hfuel : (0 < fuel)%nat) by (destruct Hf as [[_ ?]|[[_ ?]|(j & _ & ?)]]; lia).
  destruct (decide (0 <= tdays < year_lengths (isleap y))) as [Hin|Hout].
  { assert (in_year (year_start y + tdays) y) as HY' by (unfold in_year; rewrite year_start_succ; lia).
    rewrite (in_year_unique _ _ _ HY HY'). rewrite decide_True by lia. rewrite year_loop_done by (done || lia). do 3 f_equal. lia. }
  assert (Hout' : tdays < 0 \/ year_lengths (isleap y) <= tdays) by lia.
  cbn [year_loop]. replace ((tdays <? 0) || (year_lengths (isleap y) <=? tdays)) with true by lia.
  destruct (_ && _) eqn:Eq; cbn [negb].
  2:{ rewrite decide_False; [done|]. apply (year_delta_far tdays y Y HY Hpos Hneg Hout'). unfold INT_MAX in *. lia. }
  fold (year_delta tdays). destruct (year_delta_side tdays y Y HY Hout') as [Hp Hn].
  assert (Hd : INT_MIN <= year_delta tdays <= INT_MAX).
  { unfold year_delta, INT_MAX in *. destruct (Z.eqb_spec (Z.quot tdays 366) 0), (Z.ltb_spec tdays 0); lia. }
  pose proof (year_lengths_bounds (isleap y)) as Hlen.
  rewrite increment_overflow_eq by lia. destruct (decide (INT_MIN <= y + year_delta tdays <= INT_MAX)) as [Hr|Hr].
  2:{ rewrite decide_False; [done|]. lia. }
  set (newy := y + year_delta tdays) in *. set (left := tdays - (year_start newy - year_start y)).
  assert (HY' : in_year (year_start newy + left) Y) by (replace (year_start newy + left) with (year_start y + tdays) by lia; done).
  pose proof (year_lengths_bounds (isleap newy)) as Hnlen.
  destruct (decide (Z.abs tdays < 366)) as [Hs|Hl].
  - pose proof (year_delta_small tdays y Hs Hout') as Hsm. fold newy in Hsm. fold left in Hsm.
    assert (Y = newy) as -> by (apply (in_year_unique _ _ _ HY'); unfold in_year; rewrite year_start_succ; lia).
    pose proof (year_loop_next fuel tdays y Hy Hr Hfuel) as Hnext. fold newy in Hnext. fold left in Hnext. rewrite Hnext by lia.
    destruct (decide (newy = INT_MIN)) as [E|E]; [by rewrite decide_False by lia|].
    rewrite year_loop_done by done. rewrite decide_True by lia. unfold left. do 3 f_equal. lia.
  - pose proof (year_delta_large tdays y ltac:(lia)) as (Hlp & Hln & Habs). cbv zeta in Hlp, Hln, Habs. fold newy left in Hlp, Hln, Habs.
    pose proof (year_loop_next fuel tdays y Hy Hr Hfuel) as Hnext. fold newy in Hnext. fold left in Hnext. rewrite Hnext by lia.
    destruct (decide (newy = INT_MIN)) as [E|E]; [by rewrite decide_False by lia|].
    rewrite IH; [|done|apply (year_fuel_step fuel (Z.abs tdays)); [done|lia|lia]|lia|lia|lia].
    destruct (decide _); [|done]. unfold left. do 3 f_equal. lia.
Qed.

Lemma fits_ok lo hi z : lo <= z <= hi -> fits lo hi z = Ok z.
Proof. intros. unfold fits. by rewrite (proj2 (Z.leb_le _ _)), (proj2 (Z.leb_le _ _)) by lia. Qed.

Lemma rem_loop_spec fuel rem idays : Z.abs (rem / SECSPERDAY) < Z.of_nat fuel ->
  Z.abs idays + Z.abs (rem / SECSPERDAY) <= INT_MAX ->
  rem_loop fuel rem idays = Ok (rem mod SECSPERDAY, idays + rem / SECSPERDAY).
Proof.
  revert rem idays. induction fuel as [|fuel IH]; intros rem idays Hf Hi; [lia|]. assert (EM : INT_MAX = 2147483647) by done. cbn [rem_loop].
  destruct (Z.ltb_spec rem 0) as [Hneg|Hpos]; [|destruct (Z.leb_spec 86400 rem) as [Hge|Hlt]].
  - replace (rem + 86400) with (rem + 1 * 86400) by lia.
    assert (rem / 86400 < 0) by (apply Z.div_lt_upper_bound; lia).
    rewrite fits_ok by lia. cbn [obind].
    rewrite IH, Z.mod_add, Z.div_add by (rewrite ?Z.div_add by lia; lia). do 2 f_equal. lia.
  - replace (rem - 86400) with (rem + (-1) * 86400) by lia.
    assert (0 < rem / 86400) by (apply Z.div_str_pos; lia).
    rewrite fits_ok by lia. cbn [obind].
    rewrite IH, Z.mod_add, Z.div_add by (rewrite ?Z.div_add by lia; lia). do 2 f_equal. lia.
  - rewrite Z.mod_small, Z.div_small by lia. do 2 f_equal. lia.
Qed.

Lemma days_loop_spec fuel idays y Y : in_year (year_start y + idays) Y -> Z.abs (Y - y) < Z.of_nat fuel -> INT_MIN <= y <= INT_MAX ->
  days_loop fuel idays y = Ok (if decide (INT_MIN <= Y <= INT_MAX) then Some (year_start y + idays - year_start Y, Y) else None).
Proof.
  revert idays y. induction fuel as [|fuel IH]; intros idays y HY Hf Hy; [lia|]. cbn [days_loop].
  destruct (Z.ltb_spec idays 0) as [Hneg|Hpos]; [|destruct (Z.leb_spec (year_lengths (isleap y)) idays) as [Hge|Hlt]].
  - assert (Y < y).
    { apply Z.nle_gt. intros Hle. pose proof (year_start_mono y Y Hle). destruct HY. lia. }
    rewrite increment_overflow_eq by (unfold INT_MAX in *; lia). destruct (decide (INT_MIN <= y + -1 <= INT_MAX)).
    + pose proof (year_start_succ (y + -1)) as E. replace (y + -1 + 1) with y in E by lia.
      rewrite IH; [|replace (year_start (y + -1) + (idays + year_lengths (isleap (y + -1)))) with (year_start y + idays) by lia; done|lia|lia].
      destruct (decide _); [|done]. do 3 f_equal. lia.
    + rewrite decide_False by lia. done.
  - pose proof (year_start_succ y) as E. assert (y < Y).
    { apply Z.nle_gt. intros Hle. pose proof (year_start_mono (Y + 1) (y + 1) ltac:(lia)). destruct HY. lia. }
    rewrite increment_overflow_eq by (unfold INT_MAX in *; lia). destruct (decide (INT_MIN <= y + 1 <= INT_MAX)).
    + rewrite IH; [|replace (year_start (y + 1) + (idays - year_lengths (isleap y))) with (year_start y + idays) by lia; done|lia|lia].
      destruct (decide _); [|done]. do 3 f_equal. lia.
    + rewrite decide_False by lia. done.
  - assert (HY' : in_year (year_start y + idays) y) by (unfold in_year; rewrite year_start_succ; lia).
    rewrite (in_year_unique _ _ _ HY HY'), decide_True by done. do 3 f_equal. lia.
Qed.

(** The days of a year before a month. *)
Definition month_start (leap : bool) (mon : Z) : Z := fold_right Z.add 0 (take (Z.to_nat mon) (mon_lengths leap)).

Definition month_length (leap : bool) (mon : Z) : Z := default 0 (mon_lengths leap !! Z.to_nat mon).

Definition month_ok (leap : bool) (yday : Z) : bool :=
  match month_loop (mon_lengths leap) 0 yday with
  | Ok (mon, mday) => bool_decide (0 <= mon < 12 /\ yday = month_start leap mon + mday /\ 0 <= mday < month_length leap mon)
  | _ => false
  end.

Lemma month_loop_spec leap yday : 0 <= yday < year_lengths leap ->
  exists mon mday, month_loop (mon_lengths leap) 0 yday = Ok (mon, mday) /\ 0 <= mon < 12 /\
    yday = month_start leap mon + mday /\ 0 <= mday < month_length leap mon.
Proof.
  intros Hy. assert (H : month_ok leap yday = true).
  { destruct leap; [apply (all_below (fun k => month_ok true k = true) 366)|apply (all_below (fun k => month_ok false k = true) 365)];
      (done || vm_compute; reflexivity). }
  unfold month_ok in H. destruct (month_loop _ _ _) as [[mon mday]| |]; [|done|done]. apply bool_decide_eq_true in H. by exists mon, mday.
Qed.

(** * Broken-down time *)

(** The day of a broken-down time, and its second, counted from the epoch. *)
Definition days_of (a : tm) : Z :=
  year_start (tm_year a + TM_YEAR_BASE) + month_start (isleap (tm_year a + TM_YEAR_BASE)) (tm_mon a) + (tm_mday a - 1).

Definition secs_of (a : tm) : Z := days_of a * SECSPERDAY + tm_hour a * SECSPERHOUR + tm_min a * SECSPERMIN + tm_sec a.

(** The fields by which times are compared are in their ranges. *)
Record valid_tm (a : tm) : Prop := {
  valid_sec : 0 <= tm_sec a < 60;
  valid_min : 0 <= tm_min a < 60;
  valid_hour : 0 <= tm_hour a < 24;
  valid_mon : 0 <= tm_mon a < 12;
  valid_mday : 1 <= tm_mday a <= month_length (isleap (tm_year a + TM_YEAR_BASE)) (tm_mon a);
  valid_year : INT_MIN <= tm_year a <= INT_MAX
}.

(** The fields that follow from the date. *)
Definition derived_fields (a : tm) : Prop :=
  tm_yday a = days_of a - year_start (tm_year a + TM_YEAR_BASE) /\ 0 <= tm_wday a < 7 /\
  (INT_MIN + EPOCH_YEAR <= tm_year a + TM_YEAR_BASE -> tm_wday a = (days_of a + EPOCH_WDAY) mod 7).

Lemma rem_mod a : (if Z.rem a 7 <? 0 then Z.rem a 7 + 7 else Z.rem a 7) = a mod 7.
Proof. destruct (Z.ltb_spec (Z.rem a 7) 0); Z.to_euclidean_division_equations; lia. Qed.

Lemma wday_eq x l i : (EPOCH_WDAY + Z.rem x 7 * Z.rem DAYSPERNYEAR 7 + l + i) mod 7 = (DAYSPERNYEAR * x + l + i + EPOCH_WDAY) mod 7.
Proof.
  change (Z.rem 365 7) with 1. pose proof (Z.quot_rem' x 7) as E. replace (365 * x + l + i + 4) with (4 + Z.rem x 7 * 1 + l + i + (Z.quot x 7 + 52 * x) * 7) by lia.
  by rewrite Z.mod_add.
Qed.

Lemma year_distance d y Y : in_year (year_start y + d) Y -> Z.abs (Y - y) < Z.abs d / DAYSPERNYEAR + 2.
Proof.
  intros [H1 H2]. pose proof (Z.mul_succ_div_gt (Z.abs d) 365 ltac:(lia)). destruct (decide (y <= Y)).
  - pose proof (year_start_bounds y (Y - y) ltac:(lia)) as Hb. replace (y + (Y - y)) with Y in Hb by lia. lia.
  - pose proof (year_start_bounds (Y + 1) (y - Y - 1) ltac:(lia)) as Hb. replace (Y + 1 + (y - Y - 1)) with y in Hb by lia. lia.
Qed.

(** The fields of the day [d] of year [Y] and the second [r] of the day. *)
Lemma fields_spec d r Y mon mday wday offset : 0 <= r < SECSPERDAY -> INT_MIN <= Y + - TM_YEAR_BASE <= INT_MAX ->
  0 <= mon < 12 -> 0 <= mday < month_length (isleap Y) mon -> d - year_start Y = month_start (isleap Y) mon + mday -> 0 <= wday < 7 ->
  (INT_MIN + EPOCH_YEAR <= Y -> wday = (d + EPOCH_WDAY) mod 7) ->
  let a := mk_tm (Z.rem (Z.rem r SECSPERHOUR) SECSPERMIN) (Z.quot (Z.rem r SECSPERHOUR) SECSPERMIN) (Z.quot r SECSPERHOUR)
    (mday + 1) mon (Y + - TM_YEAR_BASE) wday (d - year_start Y) 0 offset in
  valid_tm a /\ derived_fields a /\ secs_of a = d * SECSPERDAY + r.
Proof.
  intros Hr HY Hmon Hmday Ed Hw Hwday a. assert (Ey : Y + - (1900) + 1900 = Y) by lia.
  assert (Eday : days_of a = d) by (unfold days_of; cbn; rewrite Ey; lia).
  assert (Hs : 0 <= Z.rem r 3600 < 3600) by (apply Z.rem_bound_pos; lia).
  assert (Hs' : 0 <= Z.rem (Z.rem r 3600) 60 < 60) by (apply Z.rem_bound_pos; lia).
  pose proof (Z.quot_rem' r 3600) as E1. pose proof (Z.quot_rem' (Z.rem r 3600) 60) as E2. split_and!.
  - split; cbn; [lia|lia|lia|done|rewrite Ey; lia|done].
  - split_and!; cbn; rewrite ?Ey, ?Eday; [done|lia..|]. intros H. by apply Hwday.
  - unfold secs_of. rewrite Eday. cbn. lia.
Qed.

(** The fields of a time with an offset and the correction for leap seconds. *)
Lemma timesub_leap t offset sp tmp Yd Y corr hit : leap_loop (lsis sp) (length (lsis sp)) t = Ok (corr, hit) ->
  time_t_min <= t <= time_t_max -> Z.abs (offset - corr) <= 2 ^ 32 -> in_year (Z.quot t SECSPERDAY) Yd -> in_year ((t + offset - corr) / SECSPERDAY) Y ->
  exists r, timesub t offset sp tmp = Ok (r, bool_decide (INT_MIN < Yd <= INT_MAX /\ INT_MIN + TM_YEAR_BASE <= Y <= INT_MAX)) /\
    (INT_MIN < Yd <= INT_MAX -> INT_MIN + TM_YEAR_BASE <= Y <= INT_MAX ->
     exists r0, r = set_sec r0 (tm_sec r0 + b2z hit) /\ valid_tm r0 /\ derived_fields r0 /\ secs_of r0 = t + offset - corr /\ tm_isdst r0 = 0 /\ tm_gmtoff r0 = offset).
Proof.
  intros Hleap Ht Hoff HYd HY. assert (EM : INT_MAX = 2147483647) by done. unfold timesub. rewrite Hleap. cbn [obind].
  assert (Hq : Z.abs (Z.quot t 86400) < 1098 * 2 ^ Z.of_nat 37).
  { change (Z.of_nat 37) with 37. pose proof (Z.quot_rem' t 86400). pose proof (Z.rem_bound_abs t 86400 ltac:(lia)). lia. }
  rewrite (year_loop_spec 100 _ EPOCH_YEAR Yd); [|by rewrite year_start_epoch|right; right; exists 37%nat; split; [done|lia]|lia|lia|lia].
  cbn [obind]. destruct (decide (INT_MIN < Yd <= INT_MAX)) as [Hd|Hd].
  2:{ exists tmp. rewrite bool_decide_eq_false_2 by tauto. split; [done|]. intros; lia. }
  pose proof (Z.rem_bound_abs t 86400 ltac:(lia)) as Hrt. rewrite fits_ok by lia. cbn [obind]. rewrite fits_ok by lia. cbn [obind].
  set (rem := Z.rem t 86400 + (offset - corr)). set (D := Z.quot t 86400) in *. rewrite year_start_epoch, Z.add_0_l.
  assert (Et : t + offset - corr = D * 86400 + rem) by (pose proof (Z.quot_rem' t 86400); unfold rem, D; lia).
  rewrite Et in HY. rewrite Z.div_add_l in HY by lia.
  rewrite rem_loop_spec.
  2:{ pose proof (Z.mul_succ_div_gt (Z.abs rem) 86400 ltac:(lia)). pose proof (Z.mul_div_le rem 86400 ltac:(lia)).
      pose proof (Z.mul_succ_div_gt rem 86400 ltac:(lia)). assert (0 <= Z.abs rem / 86400) by (apply Z.div_pos; lia). lia. }
  2:{ unfold in_year in HYd. rewrite year_start_succ in HYd. pose proof (Z.mul_div_le rem 86400 ltac:(lia)).
      pose proof (Z.mul_succ_div_gt rem 86400 ltac:(lia)). assert (Z.abs rem <= 2 ^ 32 + 86400) by (unfold rem; lia).
      destruct (isleap Yd); cbn in HYd; lia. }
  cbn [obind]. set (idays := D - year_start Yd + rem / 86400).
  assert (HY' : in_year (year_start Yd + idays) Y) by (unfold idays; replace (year_start Yd + (D - year_start Yd + rem / 86400)) with (D + rem / 86400) by lia; done).
  rewrite (days_loop_spec _ idays Yd Y HY'); [|pose proof (year_distance _ _ _ HY'); lia|lia]. cbn [obind].
  replace (year_start Yd + idays - year_start Y) with (D + rem / 86400 - year_start Y) by (unfold idays; lia).
  destruct (decide (INT_MIN <= Y <= INT_MAX)) as [Hy|Hy].
  2:{ exists tmp. rewrite bool_decide_eq_false_2 by lia. split; [done|]. intros; lia. }
  rewrite increment_overflow_eq by lia. destruct (decide (INT_MIN <= Y + - TM_YEAR_BASE <= INT_MAX)) as [Hy'|Hy'].
  2:{ exists (set_year tmp Y). rewrite bool_decide_eq_false_2 by lia. split; [done|]. intros; lia. }
  destruct (month_loop_spec (isleap Y) (D + rem / 86400 - year_start Y)) as (mon & mday & -> & Hmon & Eyday & Hmday).
  { unfold in_year in HY. rewrite year_start_succ in HY. lia. }
  cbn [obind]. eexists. rewrite bool_decide_eq_true_2 by lia. split; [done|]. intros _ _. rewrite Et.
  set (wday := EPOCH_WDAY + Z.rem (wrapS 32 (Y - EPOCH_YEAR)) 7 * Z.rem DAYSPERNYEAR 7 + leaps_thru_end_of (wrapS 32 (Y - 1)) -
      leaps_thru_end_of (EPOCH_YEAR - 1) + (D + rem / 86400 - year_start Y)).
  destruct (fields_spec (D + rem / 86400) (rem mod 86400) Y mon mday (if Z.rem wday 7 <? 0 then Z.rem wday 7 + 7 else Z.rem wday 7) offset)
    as (Hv & Hf & Hsecs); [apply Z.mod_pos_bound; lia|lia|done|done|done|rewrite rem_mod; apply Z.mod_pos_bound; lia|..].
  - intros Hlow. unfold wday. rewrite rem_mod, !leaps_thru_end_of_eq, !wrapS_small by lia. rewrite <-Z.add_sub_assoc, wday_eq. f_equal.
    unfold year_start. lia.
  - match type of Hv with valid_tm ?a => exists a end. split_and!; [reflexivity|exact Hv|exact Hf|rewrite Hsecs; pose proof (Z.div_mod rem 86400 ltac:(lia)); lia|done|done].
Qed.

Lemma timesub_spec t offset sp tmp Yd Y : lsis sp = [] -> time_t_min <= t <= time_t_max -> Z.abs offset <= 2 ^ 32 ->
  in_year (Z.quot t SECSPERDAY) Yd -> in_year ((t + offset) / SECSPERDAY) Y ->
  exists r, timesub t offset sp tmp = Ok (r, bool_decide (INT_MIN < Yd <= INT_MAX /\ INT_MIN + TM_YEAR_BASE <= Y <= INT_MAX)) /\
    (INT_MIN < Yd <= INT_MAX -> INT_MIN + TM_YEAR_BASE <= Y <= INT_MAX ->
     valid_tm r /\ derived_fields r /\ secs_of r = t + offset /\ tm_isdst r = 0 /\ tm_gmtoff r = offset).
Proof.
  intros Hsp Ht Ho HYd HY. destruct (timesub_leap t offset sp tmp Yd Y 0 false) as (r & E & Hr); [by rewrite Hsp|done|by rewrite Z.sub_0_r|done|by rewrite Z.sub_0_r|].
  exists r. split; [done|]. intros H1 H2. destruct (Hr H1 H2) as (r0 & -> & Hv & Hf & Hs & Hrest). rewrite Z.sub_0_r in Hs.
  replace (set_sec r0 (tm_sec r0 + b2z false)) with r0; [done|]. destruct r0. unfold set_sec. cbn. f_equal. lia.
Qed.

(** ** Order *)

Lemma month_start_succ leap mon : 0 <= mon < 12 ->
  month_start leap (mon + 1) = month_start leap mon + month_length leap mon /\ 0 < month_length leap mon.
Proof.
  revert mon. destruct leap;
    [apply (all_below (fun mon => month_start true (mon + 1) = month_start true mon + month_length true mon /\ 0 < month_length true mon) 12)
    |apply (all_below (fun mon => month_start false (mon + 1) = month_start false mon + month_length false mon /\ 0 < month_length false mon) 12)];
    vm_compute; reflexivity.
Qed.

Lemma month_start_mono leap mon mon' : 0 <= mon <= mon' -> mon' <= 12 -> month_start leap mon <= month_start leap mon'.
Proof. intros H. apply (ladder (month_start leap) 12); [|done]. intros k Hk. pose proof (month_start_succ leap k Hk). lia. Qed.

Lemma month_start_year leap : month_start leap 0 = 0 /\ month_start leap 12 = year_lengths leap.
Proof. by destruct leap. Qed.

Lemma days_in_year a : valid_tm a -> in_year (days_of a) (tm_year a + TM_YEAR_BASE).
Proof.
  intros Ha. pose proof (valid_mon _ Ha) as Hm. pose proof (valid_mday _ Ha) as Hd. set (leap := isleap (tm_year a + 1900)) in *.
  pose proof (month_start_succ leap _ Hm). pose proof (month_start_mono leap 0 (tm_mon a) ltac:(lia) ltac:(lia)).
  pose proof (month_start_mono leap (tm_mon a + 1) 12 ltac:(lia) ltac:(lia)). pose proof (month_start_year leap).
  unfold in_year, days_of. rewrite year_start_succ. fold leap. lia.
Qed.

Lemma day_lt a b : valid_tm a -> valid_tm b ->
  tm_year a < tm_year b \/ tm_year a = tm_year b /\ (tm_mon a < tm_mon b \/ tm_mon a = tm_mon b /\ tm_mday a < tm_mday b) ->
  days_of a < days_of b.
Proof.
  intros Ha Hb [Hlt|(Ey & [Hlt|[Em Hlt]])].
  - eapply in_year_lt; [by apply days_in_year..|lia].
  - pose proof (valid_mon _ Ha) as Hm. pose proof (valid_mday _ Ha) as Hd. pose proof (valid_mday _ Hb) as Hd'. pose proof (valid_mon _ Hb).
    unfold days_of. rewrite <-Ey in *. set (leap := isleap (tm_year a + 1900)) in *. pose proof (month_start_succ leap _ Hm).
    pose proof (month_start_mono leap (tm_mon a + 1) (tm_mon b) ltac:(lia) ltac:(lia)). lia.
  - unfold days_of. rewrite Ey, Em. lia.
Qed.

Lemma second_lt a b : valid_tm a -> valid_tm b -> tmcomp a b < 0 -> secs_of a < secs_of b.
Proof.
  intros Ha Hb. pose proof (day_lt a b Ha Hb) as Hday. unfold tmcomp.
  pose proof (valid_sec _ Ha). pose proof (valid_min _ Ha). pose proof (valid_hour _ Ha).
  pose proof (valid_sec _ Hb). pose proof (valid_min _ Hb). pose proof (valid_hour _ Hb). unfold secs_of.
  destruct (Z.eqb_spec (tm_year a) (tm_year b)); cbn [negb]; [|destruct (Z.ltb_spec (tm_year a) (tm_year b)); lia].
  destruct (Z.eqb_spec (tm_mon a) (tm_mon b)); cbn [negb]; [|lia].
  destruct (Z.eqb_spec (tm_mday a) (tm_mday b)); cbn [negb]; [|lia].
  assert (days_of a = days_of b) by (unfold days_of; congruence).
  destruct (Z.eqb_spec (tm_hour a) (tm_hour b)); cbn [negb]; [|lia].
  destruct (Z.eqb_spec (tm_min a) (tm_min b)); cbn [negb]; lia.
Qed.

Lemma tmcomp_opp a b : Z.sgn (tmcomp b a) = - Z.sgn (tmcomp a b).
Proof.
  unfold tmcomp. destruct (Z.eqb_spec (tm_year a) (tm_year b)), (Z.eqb_spec (tm_year b) (tm_year a)); cbn [negb]; try lia.
  2:{ destruct (Z.ltb_spec (tm_year a) (tm_year b)), (Z.ltb_spec (tm_year b) (tm_year a)); cbn; lia. }
  destruct (Z.eqb_spec (tm_mon a) (tm_mon b)), (Z.eqb_spec (tm_mon b) (tm_mon a)); cbn [negb]; try lia.
  destruct (Z.eqb_spec (tm_mday a) (tm_mday b)), (Z.eqb_spec (tm_mday b) (tm_mday a)); cbn [negb]; try lia.
  destruct (Z.eqb_spec (tm_hour a) (tm_hour b)), (Z.eqb_spec (tm_hour b) (tm_hour a)); cbn [negb]; try lia.
  destruct (Z.eqb_spec (tm_min a) (tm_min b)), (Z.eqb_spec (tm_min b) (tm_min a)); cbn [negb]; lia.
Qed.

Lemma tmcomp_0 a b : tmcomp a b = 0 -> secs_of a = secs_of b.
Proof.
  unfold tmcomp, secs_of, days_of. destruct (Z.eqb_spec (tm_year a) (tm_year b)) as [->|]; cbn [negb]; [|destruct (_ <? _); lia].
  destruct (Z.eqb_spec (tm_mon a) (tm_mon b)) as [->|]; cbn [negb]; [|lia].
  destruct (Z.eqb_spec (tm_mday a) (tm_mday b)) as [->|]; cbn [negb]; [|lia].
  destruct (Z.eqb_spec (tm_hour a) (tm_hour b)) as [->|]; cbn [negb]; [|lia].
  destruct (Z.eqb_spec (tm_min a) (tm_min b)) as [->|]; cbn [negb]; lia.
Qed.

(** tmcomp compares times as their seconds. *)
Lemma tmcomp_sign a b : valid_tm a -> valid_tm b -> Z.sgn (tmcomp a b) = Z.sgn (secs_of a - secs_of b).
Proof.
  intros Ha Hb. pose proof (tmcomp_opp a b). destruct (Z.lt_total (tmcomp a b) 0) as [Hlt|[E|Hgt]].
  - pose proof (second_lt a b Ha Hb Hlt). lia.
  - pose proof (tmcomp_0 a b E). lia.
  - pose proof (second_lt b a Hb Ha ltac:(lia)). lia.
Qed.

(** * gmtime *)

(** A time whose year the functions can represent. *)
Definition representable (t : Z) : Prop :=
  exists Y, in_year (t / SECSPERDAY) Y /\ INT_MIN + TM_YEAR_BASE <= Y <= INT_MAX.

Lemma gmtsub_spec sp t tmp : lsis sp = [] -> time_t_min <= t <= time_t_max ->
  exists r ok, gmtsub sp 0 t tmp = Ok (r, ok) /\ (ok = true <-> representable t) /\
    (ok = true -> valid_tm r /\ derived_fields r /\ secs_of r = t /\ tm_isdst r = 0 /\ tm_gmtoff r = 0).
Proof.
  intros Hsp Ht. destruct (in_year_exists (Z.quot t 86400)) as [Yd HYd]. destruct (in_year_exists (t / 86400)) as [Y HY].
  destruct (timesub_spec t 0 sp tmp Yd Y Hsp Ht ltac:(done) HYd) as (r & E & Hr); [by rewrite Z.add_0_r|].
  assert (Hrep : representable t <-> INT_MIN + 1900 <= Y <= INT_MAX).
  { split; [|by exists Y]. intros (Y' & HY' & Hr'). by rewrite (in_year_unique _ _ _ HY HY'). }
  assert (Hd : INT_MIN + 1900 <= Y <= INT_MAX -> INT_MIN < Yd <= INT_MAX).
  { intros HYr. unfold INT_MAX in *. destruct (decide (0 <= t)) as [Hpos|Hneg].
    - rewrite Z.quot_div_nonneg in HYd by lia. rewrite (in_year_unique _ _ _ HYd HY). lia.
    - assert (Hle : t / 86400 <= Z.quot t 86400 <= 0) by (Z.to_euclidean_division_equations; lia). split.
      + apply Z.nle_gt. intros Hle'. pose proof (in_year_lt _ _ _ _ HYd HY ltac:(lia)). lia.
      + assert (Yd <= 1970); [|lia]. apply Z.nlt_ge. intros Hlt. pose proof (year_start_mono 1971 Yd ltac:(lia)) as Hm.
        change (year_start 1971) with 365 in Hm. destruct HYd. lia. }
  exists r, (bool_decide (INT_MIN < Yd <= INT_MAX /\ INT_MIN + 1900 <= Y <= INT_MAX)). split; [exact E|].
  rewrite Z.add_0_r in Hr. split; [|intros Hb; apply bool_decide_eq_true in Hb as [H1 H2]; by apply Hr].
  rewrite Hrep, bool_decide_eq_true. tauto.
Qed.

(** * The binary search *)

Definition search_fuel (fuel : nat) (n : Z) : Prop :=
  n + 1 <= Z.of_nat fuel \/ exists k : nat, n <= 2 ^ Z.of_nat k + 2 /\ (k + 4 <= fuel)%nat.

Lemma search_fuel_step fuel n m : 0 < n -> search_fuel (S fuel) n -> m <= n / 2 + 1 -> m < n -> search_fuel fuel m.
Proof.
  intros Hn Hf Hm Hlt. destruct Hf as [Hf|(k & Hk & Hf)]; [left; lia|]. destruct k as [|k].
  - left. cbn in Hk. lia.
  - right. exists k. split; [|lia]. rewrite Nat2Z.inj_succ, Z.pow_succ_r in Hk by lia. Z.to_euclidean_division_equations. lia.
Qed.

(** The middle of an interval. *)
Definition middle (lo hi : Z) : Z := let t := Z.quot lo 2 + Z.quot hi 2 in if t <? lo then lo else if hi <? t then hi else t.

Lemma middle_spec lo hi : lo <= hi -> lo <= middle lo hi <= hi /\
  (lo < middle lo hi < hi -> middle lo hi - lo <= (hi - lo) / 2 + 1 /\ hi - middle lo hi <= (hi - lo) / 2 + 1) /\
  (2 < hi - lo -> lo < middle lo hi < hi).
Proof.
  intros Hle. unfold middle. assert (H2 : lo + hi - 2 <= 2 * (Z.quot lo 2 + Z.quot hi 2) <= lo + hi + 2).
  { Z.to_euclidean_division_equations. lia. }
  destruct (Z.ltb_spec (Z.quot lo 2 + Z.quot hi 2) lo); [lia|]. destruct (Z.ltb_spec hi (Z.quot lo 2 + Z.quot hi 2)); [lia|].
  set (m := Z.quot lo 2 + Z.quot hi 2) in *. clearbody m. Z.to_euclidean_division_equations. lia.
Qed.

Section search.
Context (funcp : tm_function) (yourtm : tm) (T : Z).

(** The direction the search takes at a time. *)
Definition direction (t : Z) (r : tm * bool) : Z := if negb (snd r) then if 0 <? t then 1 else -1 else tmcomp (fst r) yourtm.

Context (Hfun : forall t, time_t_min <= t <= time_t_max -> exists r, funcp t yourtm = Ok r /\ Z.sgn (direction t r) = Z.sgn (t - T) /\ (t = T -> snd r = true)).

Lemma search_spec fuel lo hi : time_t_min <= lo <= T -> T <= hi <= time_t_max -> search_fuel fuel (hi - lo) ->
  exists r, search fuel funcp yourtm lo hi = Ok (Some (T, r)) /\ funcp T yourtm = Ok (r, true).
Proof using Hfun.
  revert lo hi. induction fuel as [|fuel IH]; intros lo hi Hlo Hhi Hf.
  { destruct Hf as [Hf|(k & _ & Hf)]; lia. }
  cbn [search]. fold (middle lo hi). pose proof (middle_spec lo hi ltac:(lia)) as (Hm & Hhalf & Hin). set (t := middle lo hi) in *. clearbody t.
  destruct (Hfun t ltac:(lia)) as ([mytm ok] & E & Hdir & Hok). rewrite E. cbn [obind].
  change (if negb ok then if 0 <? t then 1 else -1 else tmcomp mytm yourtm) with (direction t (mytm, ok)).
  set (dir := direction t (mytm, ok)) in *. clearbody dir. destruct (Z.eqb_spec dir 0) as [E0|Hne]; cbn [negb].
  { assert (t = T) as -> by lia. exists mytm. cbn [snd] in Hok. by rewrite E, Hok. }
  destruct (decide (lo < t < hi)) as [Hmid|Hend].
  - destruct (Z.eqb_spec t lo); [lia|]. destruct (Z.eqb_spec t hi); [lia|]. destruct (Z.ltb_spec hi lo); [lia|].
    destruct (Z.ltb_spec 0 dir); apply IH; try lia; (apply (search_fuel_step fuel (hi - lo)); [lia|done|lia|lia]).
  - assert (Hsmall : hi - lo <= 2) by lia.
    assert (Hstep : forall n, 0 <= n < hi - lo -> search_fuel fuel n).
    { intros n Hn. apply (search_fuel_step fuel (hi - lo)); [lia|done|Z.to_euclidean_division_equations; lia|lia]. }
    destruct (Z.eqb_spec t lo) as [El|Hl].
    + destruct (Z.eqb_spec t time_t_max); [lia|]. destruct (Z.ltb_spec hi (lo + 1)); [lia|].
      destruct (Z.ltb_spec 0 dir); [lia|]. apply IH; [lia|lia|apply Hstep; lia].
    + destruct (Z.eqb_spec t hi); [|lia]. destruct (Z.eqb_spec t time_t_min); [lia|]. destruct (Z.ltb_spec (hi - 1) lo); [lia|].
      destruct (Z.ltb_spec 0 dir); [|lia]. apply IH; [lia|lia|apply Hstep; lia].
Qed.
End search.

(** * Normalization *)

Lemma normalize_overflow_eq tens units base : 0 < base ->
  normalize_overflow tens units base = tens ← increment_overflow tens (units / base); Some (tens, units mod base).
Proof.
  intros Hb. unfold normalize_overflow. assert (E : (if 0 <=? units then units / base else -1 - (-1 - units) / base) = units / base).
  { destruct (Z.leb_spec 0 units); [done|]. pose proof (Z.div_mod units base ltac:(lia)). pose proof (Z.mod_pos_bound units base ltac:(lia)).
    assert ((-1 - units) / base = - (units / base) - 1); [|lia]. symmetry.
    apply (Z.div_unique _ _ _ (base - 1 - units mod base)); lia. }
  rewrite E. destruct (increment_overflow _ _); [|done]. cbn. rewrite Z.mod_eq by lia. do 2 f_equal. lia.
Qed.

(** The day of a year, a month and a day of the month that need not be in the month. *)
Definition day_of (y mon mday : Z) : Z := year_start y + month_start (isleap y) mon + (mday - 1).

Lemma month_start_leap leap mon : 0 <= mon < 12 -> month_start leap mon = month_start false mon + b2z (leap && (1 <? mon)).
Proof.
  revert mon. destruct leap; [|intros mon Hm; cbn; lia].
  apply (all_below (fun mon => month_start true mon = month_start false mon + b2z (true && (1 <? mon))) 12). vm_compute. reflexivity.
Qed.

Lemma month_start_bounds leap mon : 0 <= mon < 12 -> 0 <= month_start leap mon <= year_lengths leap - 28.
Proof.
  revert mon. destruct leap; [apply (all_below (fun mon => 0 <= month_start true mon <= year_lengths true - 28) 12)
    |apply (all_below (fun mon => 0 <= month_start false mon <= year_lengths false - 28) 12)]; vm_compute; reflexivity.
Qed.

Lemma month_length_bounds leap mon : 0 <= mon < 12 -> 28 <= month_length leap mon <= 31.
Proof.
  revert mon. destruct leap; [apply (all_below (fun mon => 28 <= month_length true mon <= 31) 12)
    |apply (all_below (fun mon => 28 <= month_length false mon <= 31) 12)]; vm_compute; reflexivity.
Qed.

(** From a day to the same day a year later. *)
Lemma day_of_year y mon mday : 0 <= mon < 12 ->
  day_of (y + 1) mon mday = day_of y mon mday + year_lengths (isleap (y + b2z (1 <? mon))).
Proof.
  intros Hm. unfold day_of. rewrite year_start_succ, (month_start_leap (isleap y) mon Hm), (month_start_leap (isleap (y + 1)) mon Hm). unfold year_lengths.
  destruct (1 <? mon); cbn [b2z]; rewrite ?Z.add_0_r; destruct (isleap y), (isleap (y + 1)); cbn; lia.
Qed.

Section normalize_loops.
Context (d Y : Z) (HY : in_year d Y) (HYr : INT_MIN + TM_YEAR_BASE <= Y <= INT_MAX).

Definition mday_fuel (mday : Z) : Z := if mday <=? 0 then - mday / DAYSPERNYEAR + 2 else if mday <=? 366 then 1 else mday / DAYSPERNYEAR + 1.

Lemma mday_loop_spec fuel y mon mday : 0 <= mon < 12 -> day_of y mon mday = d -> INT_MIN <= y <= INT_MAX -> mday_fuel mday <= Z.of_nat fuel ->
  exists y' mday', mday_loop fuel y mon mday = Ok (Some (y', mday')) /\ day_of y' mon mday' = d /\ 1 <= mday' <= 366 /\ INT_MIN <= y' <= INT_MAX.
Proof using HY HYr.
  intros Hm. revert y mday. induction fuel as [|fuel IH]; intros y mday Hd Hy Hf.
  { unfold mday_fuel in Hf. destruct (Z.leb_spec mday 0); [pose proof (Z.div_pos (- mday) 365 ltac:(lia)); lia|].
    destruct (Z.leb_spec mday 366); [lia|]. pose proof (Z.div_pos mday 365 ltac:(lia)). lia. }
  pose proof (month_start_bounds (isleap y) mon Hm) as Hms. pose proof (year_start_succ y) as Hs.
  cbn [mday_loop]. destruct (Z.leb_spec mday 0) as [Hle|Hgt]; [|destruct (Z.ltb_spec 366 mday) as [Hgt'|Hle']].
  - assert (Hlow : Y <= y).
    { apply Z.nlt_ge. intros Hlt. pose proof (year_start_mono (y + 1) Y ltac:(lia)). destruct HY. unfold day_of in Hd. lia. }
    rewrite increment_overflow_eq by (unfold INT_MAX in *; lia). rewrite decide_True by (unfold INT_MAX in *; lia).
    pose proof (day_of_year (y + -1) mon mday Hm) as E. replace (y + -1 + 1) with y in E by lia.
    pose proof (year_lengths_bounds (isleap (y + -1 + b2z (1 <? mon)))) as Hl.
    apply IH; [unfold day_of in *; lia|unfold INT_MAX in *; lia|]. unfold mday_fuel in *.
    destruct (Z.leb_spec mday 0); [|lia]. pose proof (Z.div_pos (- mday) 365 ltac:(lia)).
    destruct (Z.leb_spec (mday + year_lengths (isleap (y + -1 + b2z (1 <? mon)))) 0); [|destruct (Z.leb_spec (mday + year_lengths (isleap (y + -1 + b2z (1 <? mon)))) 366); lia].
    pose proof (Z.div_le_mono (- (mday + year_lengths (isleap (y + -1 + b2z (1 <? mon))))) (- mday + (-1) * 365) 365 ltac:(lia) ltac:(lia)) as Hdiv.
    rewrite Z.div_add in Hdiv by lia. lia.
  - pose proof (year_lengths_bounds (isleap y)).
    assert (Hhigh : y + 1 <= Y).
    { apply Z.nlt_ge. intros Hlt. pose proof (year_start_mono (Y + 1) (y + 1) ltac:(lia)). destruct HY. unfold day_of in Hd. lia. }
    rewrite increment_overflow_eq by (unfold INT_MAX in *; lia). rewrite decide_True by (unfold INT_MAX in *; lia).
    pose proof (day_of_year y mon mday Hm) as E. pose proof (year_lengths_bounds (isleap (y + b2z (1 <? mon)))) as Hl.
    apply IH; [unfold day_of in *; lia|unfold INT_MAX in *; lia|]. unfold mday_fuel in *.
    destruct (Z.leb_spec mday 0); [lia|]. destruct (Z.leb_spec mday 366); [lia|].
    assert (1 <= mday / 365) by (apply Z.div_le_lower_bound; lia).
    destruct (Z.leb_spec (mday - year_lengths (isleap (y + b2z (1 <? mon)))) 0); [lia|].
    destruct (Z.leb_spec (mday - year_lengths (isleap (y + b2z (1 <? mon)))) 366); [lia|].
    pose proof (Z.div_le_mono (mday - year_lengths (isleap (y + b2z (1 <? mon)))) (mday + (-1) * 365) 365 ltac:(lia) ltac:(lia)) as Hdiv.
    rewrite Z.div_add in Hdiv by lia. lia.
  - exists y, mday. split_and!; done || lia.
Qed.

Lemma mon_loop_spec fuel y mon mday : 0 <= mon < 12 -> day_of y mon mday = d -> INT_MIN <= y <= INT_MAX -> 1 <= mday <= 28 * Z.of_nat fuel ->
  exists mon' mday', mon_loop fuel y mon mday = Ok (Some (Y, mon', mday')) /\ day_of Y mon' mday' = d /\ 0 <= mon' < 12 /\ 1 <= mday' <= month_length (isleap Y) mon'.
Proof using HY HYr.
  revert y mon mday. induction fuel as [|fuel IH]; intros y mon mday Hm Hd Hy Hf; [lia|]. cbn [mon_loop].
  assert (El : at_ (mon_lengths (isleap y)) (Z.to_nat mon) = Ok (month_length (isleap y) mon)).
  { unfold at_, month_length. destruct (lookup_lt_is_Some_2 (mon_lengths (isleap y)) (Z.to_nat mon)) as [x ->]; [cbn; lia|done]. }
  rewrite El. cbn [obind]. pose proof (month_length_bounds (isleap y) mon Hm) as Hl. pose proof (month_start_succ (isleap y) mon Hm) as [Es _].
  pose proof (month_start_year (isleap y)) as [E0 E12]. pose proof (year_start_succ y) as Hys. unfold day_of in *.
  destruct (Z.leb_spec mday (month_length (isleap y) mon)) as [Hle|Hgt].
  - pose proof (month_start_mono (isleap y) 0 mon ltac:(lia) ltac:(lia)). pose proof (month_start_mono (isleap y) (mon + 1) 12 ltac:(lia) ltac:(lia)).
    assert (Y = y) as -> by (apply (in_year_unique _ _ _ HY); unfold in_year; lia). exists mon, mday. split_and!; [done..|lia|lia|lia|lia].
  - destruct (Z.leb_spec 12 (mon + 1)) as [Hdec|Hdec].
    + assert (mon = 11) as -> by lia. change (11 + 1) with 12 in Es.
      assert (y + 1 <= Y).
      { apply Z.nlt_ge. intros Hlt. pose proof (year_start_mono (Y + 1) (y + 1) ltac:(lia)). destruct HY. lia. }
      rewrite increment_overflow_eq by (unfold INT_MAX in *; lia). rewrite decide_True by (unfold INT_MAX in *; lia).
      apply IH; [lia| |unfold INT_MAX in *; lia|lia]. pose proof (month_start_year (isleap (y + 1))) as [E0' _]. lia.
    + apply IH; [lia|lia|done|lia].
Qed.
End normalize_loops.

(** The second that fields outside their ranges stand for. *)
Definition time_of_fields (a : tm) : Z :=
  day_of (tm_year a + TM_YEAR_BASE + tm_mon a / 12) (tm_mon a mod 12) (tm_mday a) * SECSPERDAY +
  tm_hour a * SECSPERHOUR + tm_min a * SECSPERMIN + tm_sec a.

(** Fields that are ints, and that can be carried over into the next one. *)
Record int_fields (a : tm) : Prop := {
  int_sec : INT_MIN + SECSPERMIN <= tm_sec a <= INT_MAX;
  int_min : - 2 ^ 30 <= tm_min a <= 2 ^ 30;
  int_hour : - 2 ^ 30 <= tm_hour a <= 2 ^ 30;
  int_mday : - 2 ^ 30 <= tm_mday a <= 2 ^ 30;
  int_mon : INT_MIN <= tm_mon a <= INT_MAX;
  int_year : INT_MIN <= tm_year a <= INT_MAX;
  int_year_mon : INT_MIN + TM_YEAR_BASE <= tm_year a + TM_YEAR_BASE + tm_mon a / 12 <= INT_MAX
}.

Lemma mday_fuel_bound mday : mday_fuel mday <= Z.abs mday / DAYSPERNYEAR + 2.
Proof.
  unfold mday_fuel. pose proof (Z.div_pos (Z.abs mday) 365 ltac:(lia)). destruct (Z.leb_spec mday 0); [rewrite Z.abs_neq by lia; lia|].
  destruct (Z.leb_spec mday 366); [lia|]. rewrite Z.abs_eq by lia. lia.
Qed.

Lemma normalize_spec a : int_fields a -> representable (time_of_fields a - tm_sec a) ->
  exists a', normalize a false = Ok (Some a') /\ tm_sec a' = tm_sec a /\ tm_isdst a' = tm_isdst a /\
    forall s, 0 <= s < 60 -> valid_tm (set_sec a' s) /\ secs_of (set_sec a' s) = time_of_fields a - tm_sec a + s.
Proof.
  intros [Hsec Hmin Hhour Hmday Hmon Hyear Hym] (Y & HY & HYr). unfold INT_MAX in *. unfold normalize.
  assert (Hdiv : forall x b, 0 < b -> x = b * (x / b) + x mod b /\ 0 <= x mod b < b).
  { intros x b Hb. split; [apply Z.div_mod; lia|by apply Z.mod_pos_bound]. }
  pose proof (Hdiv (tm_min a) 60 ltac:(lia)) as [E1 R1]. rewrite normalize_overflow_eq, increment_overflow_eq by (unfold INT_MAX; lia).
  rewrite decide_True by (unfold INT_MAX; lia). cbn [mbind option_bind]. set (hour := tm_hour a + tm_min a / 60).
  pose proof (Hdiv hour 24 ltac:(lia)) as [E2 R2]. rewrite normalize_overflow_eq, increment_overflow_eq by (unfold INT_MAX; lia).
  rewrite decide_True by (unfold INT_MAX; lia). cbn [mbind option_bind]. set (mday := tm_mday a + hour / 24).
  pose proof (Hdiv (tm_mon a) 12 ltac:(lia)) as [E3 R3]. rewrite normalize_overflow_eq, increment_overflow_eq by (unfold INT_MAX; lia).
  rewrite decide_True by (unfold INT_MAX; lia). cbn [mbind option_bind].
  rewrite increment_overflow_eq by (unfold INT_MAX; lia). rewrite decide_True by (unfold INT_MAX; lia).
  set (y := tm_year a + tm_mon a / 12 + 1900). set (mon := tm_mon a mod 12) in *.
  assert (Et : time_of_fields a - tm_sec a = day_of y mon mday * 86400 + ((hour mod 24) * 3600 + (tm_min a mod 60) * 60)).
  { unfold time_of_fields. replace (tm_year a + 1900 + tm_mon a / 12) with y by (unfold y; lia). fold mon. unfold day_of, mday. lia. }
  set (d := day_of y mon mday) in *.
  rewrite Et in HY. rewrite Z.div_add_l, Z.div_small, Z.add_0_r in HY by lia.
  destruct (mday_loop_spec d Y HY HYr (Z.to_nat (Z.abs mday / 365 + 2)) y mon mday R3 eq_refl) as (y' & mday' & -> & Hd' & Hmd' & Hy');
    [unfold y, INT_MAX; lia|pose proof (mday_fuel_bound mday); pose proof (Z.div_pos (Z.abs mday) 365 ltac:(lia)); lia|]. cbn [obind].
  destruct (mon_loop_spec d Y HY HYr 14 y' mon mday' R3 Hd' Hy') as (mon' & mday'' & -> & Hd'' & Hm'' & Hmd''); [lia|]. cbn [obind].
  rewrite increment_overflow_eq by (unfold INT_MAX; lia). rewrite decide_True by (unfold INT_MAX; lia).
  eexists. split; [done|]. split_and!; [done|done|]. intros s Hs. assert (EY : Y + - TM_YEAR_BASE + TM_YEAR_BASE = Y) by lia. split.
  - split; cbn; [lia|lia|lia|done|by rewrite EY|unfold INT_MAX; lia].
  - unfold secs_of, days_of. cbn [tm_sec tm_min tm_hour tm_mday tm_mon tm_year set_sec]. rewrite EY, Et.
    change (year_start Y + month_start (isleap Y) mon' + (mday'' - 1)) with (day_of Y mon' mday''). rewrite Hd''. lia.
Qed.

(** * timegm *)

Lemma representable_bounds t : representable t -> - 2 ^ 57 <= t <= 2 ^ 57.
Proof.
  intros (Y & [H1 H2] & Hr). unfold INT_MAX in *. pose proof (year_start_mono (INT_MIN + 1900) Y ltac:(lia)) as Hlo.
  pose proof (year_start_mono (Y + 1) (2 ^ 31) ltac:(lia)) as Hhi.
  assert (Elo : year_start (INT_MIN + 1900) = -784352321872) by (vm_compute; reflexivity).
  assert (Ehi : year_start (2 ^ 31) = 784351576777) by (vm_compute; reflexivity). rewrite Elo in Hlo. rewrite Ehi in Hhi.
  pose proof (Z.mul_div_le t 86400 ltac:(lia)). pose proof (Z.mul_succ_div_gt t 86400 ltac:(lia)). lia.
Qed.

(** A time that is not representable is on the same side of all that are, and of the epoch. *)
Lemma not_representable t T : representable T -> ~ representable t -> Z.sgn (if 0 <? t then 1 else -1) = Z.sgn (t - T).
Proof.
  intros (Y & HY & Hr) Hn. destruct (in_year_exists (t / 86400)) as [Yt HYt]. unfold INT_MAX in *.
  assert (Hout : Yt < INT_MIN + 1900 \/ 2147483647 < Yt).
  { destruct (decide (Yt < INT_MIN + 1900)); [by left|]. right. apply Z.nle_gt. intros Hle. apply Hn. exists Yt. unfold INT_MAX. split; [done|lia]. }
  assert (H0 : in_year 0 1970) by (split; vm_compute; done).
  pose proof (Z.mul_div_le t 86400 ltac:(lia)). pose proof (Z.mul_succ_div_gt t 86400 ltac:(lia)).
  pose proof (Z.mul_div_le T 86400 ltac:(lia)). pose proof (Z.mul_succ_div_gt T 86400 ltac:(lia)).
  destruct Hout as [Hlow|Hhigh].
  - pose proof (in_year_lt _ _ _ _ HYt HY ltac:(lia)). pose proof (in_year_lt _ _ _ _ HYt H0 ltac:(lia)).
    destruct (Z.ltb_spec 0 t); cbn; lia.
  - pose proof (in_year_lt _ _ _ _ HY HYt ltac:(lia)). pose proof (in_year_lt _ _ _ _ H0 HYt ltac:(lia)).
    destruct (Z.ltb_spec 0 t); cbn; lia.
Qed.

Lemma secs_day a : valid_tm a -> secs_of a / SECSPERDAY = days_of a.
Proof.
  intros Ha. unfold secs_of. pose proof (valid_sec _ Ha). pose proof (valid_min _ Ha). pose proof (valid_hour _ Ha).
  symmetry. apply (Z.div_unique _ _ _ (tm_hour a * 3600 + tm_min a * 60 + tm_sec a)); lia.
Qed.

Section timegm.
Context (gmt : state) (Hgmt : lsis gmt = []).

Lemma search_gmt yourtm : valid_tm yourtm -> representable (secs_of yourtm) ->
  exists r, search 70 (gmtsub gmt 0) yourtm time_t_min time_t_max = Ok (Some (secs_of yourtm, r)) /\ tm_isdst r = 0 /\ tm_gmtoff r = 0.
Proof using Hgmt.
  intros Hv Hrep. pose proof (representable_bounds _ Hrep) as Hb.
  destruct (search_spec (gmtsub gmt 0) yourtm (secs_of yourtm)) with (fuel := 70%nat) (lo := time_t_min) (hi := time_t_max) as (r & E & Er); [|lia|lia|..].
  - intros t Ht. destruct (gmtsub_spec gmt t yourtm Hgmt Ht) as (r & ok & E & Hok & Hr). exists (r, ok). split; [done|]. unfold direction.
    cbn [fst snd]. destruct ok; cbn [negb].
    + destruct (Hr eq_refl) as (Hvr & _ & Hs & _). rewrite tmcomp_sign, Hs by done. done.
    + split; [|by intros ->; apply Hok]. apply not_representable; [done|]. by intros Ht'%Hok.
  - right. exists 64%nat. split; [change (Z.of_nat 64) with 64; lia|lia].
  - exists r. split; [done|]. destruct (gmtsub_spec gmt (secs_of yourtm) yourtm Hgmt ltac:(lia)) as (r' & ok & E' & _ & Hr).
    rewrite Er in E'. injection E' as <- <-. destruct (Hr eq_refl) as (_ & _ & _ & H1 & H2). done.
Qed.

(** The offset in the fields is not the one of the zone, and is not taken. *)
Lemma try_gmtoff_gmt yourtm mytm t : time_t_min <= t <= time_t_max -> tm_gmtoff mytm = 0 ->
  try_gmtoff (gmtsub gmt 0) yourtm mytm t = Ok (t, mytm).
Proof using Hgmt.
  intros Ht Hoff. unfold try_gmtoff. destruct (_ && _) eqn:E; [|done]. apply andb_true_iff in E as [E _].
  apply negb_true_iff, Z.eqb_neq in E. destruct (increment_overflow_time t _) as [altt|] eqn:Ei; [|done].
  assert (Halt : time_t_min <= altt <= time_t_max).
  { unfold increment_overflow_time in Ei. destruct (negb _) eqn:En; [done|]. injection Ei as <-. apply negb_false_iff in En.
    destruct (Z.ltb_spec (tm_gmtoff mytm - tm_gmtoff yourtm) 0); lia. }
  destruct (gmtsub_spec gmt altt yourtm Hgmt Halt) as (r & ok & -> & _ & Hr). cbn [obind]. destruct ok; [|done].
  destruct (Hr eq_refl) as (_ & _ & _ & _ & Hg). rewrite Hg, <-Hoff. destruct (Z.eqb_spec (tm_gmtoff mytm) (tm_gmtoff yourtm)); [done|].
  by rewrite andb_false_r.
Qed.

Lemma split_seconds_spec a : int_fields a -> forall yourtm, tm_sec yourtm = tm_sec a ->
  exists sec saved, split_seconds yourtm = Some (sec, saved) /\ 0 <= sec < 60 /\ sec + saved = tm_sec a /\ INT_MIN <= saved <= INT_MAX.
Proof.
  intros Ha yourtm E. pose proof (int_sec _ Ha) as Hs. unfold split_seconds, INT_MAX in *. rewrite E.
  destruct (_ && _) eqn:Er; [exists (tm_sec a), 0; split_and!; [done|lia..]|].
  destruct (Z.ltb_spec (tm_year yourtm + TM_YEAR_BASE) EPOCH_YEAR); [|exists 0, (tm_sec a); split_and!; [done|lia..]].
  rewrite increment_overflow_eq by (unfold INT_MAX; lia). rewrite decide_True by (unfold INT_MAX; lia). cbn.
  exists 59, (tm_sec a + -59). split_and!; [done|lia..].
Qed.

Lemma time2sub_spec a : int_fields a -> tm_isdst a = 0 -> representable (time_of_fields a - tm_sec a) -> representable (time_of_fields a) ->
  exists r, time2sub a (gmtsub gmt 0) gmt false = Ok (time_of_fields a, true, r) /\ gmtsub gmt 0 (time_of_fields a) a = Ok (r, true).
Proof using Hgmt.
  intros Ha Hdst Hrep0 Hrep. unfold time2sub. destruct (normalize_spec a Ha Hrep0) as (a' & -> & Es & Ed & Hn). cbn [obind].
  destruct (split_seconds_spec a Ha a' Es) as (sec & saved & -> & Hsec & Esum & Hsaved).
  destruct (Hn sec Hsec) as [Hv Hsecs].
  assert (Hrep' : representable (secs_of (set_sec a' sec))).
  { destruct Hrep0 as (Y & HY & HYr). exists Y. split; [|done]. destruct (Hn 0 ltac:(lia)) as [Hv0 Hs0]. rewrite Z.add_0_r in Hs0.
    rewrite <-Hs0, secs_day in HY by done. by rewrite secs_day. }
  destruct (search_gmt (set_sec a' sec) Hv Hrep') as (mytm & -> & Hd & Hg). cbn [obind]. pose proof (representable_bounds _ Hrep') as Hb.
  rewrite try_gmtoff_gmt by (done || lia). cbn [obind].
  replace (tm_isdst (set_sec a' sec)) with 0 by (cbn; congruence). rewrite Hd. cbn [Z.ltb Z.compare Z.eqb orb obind].
  rewrite Hsecs. pose proof (representable_bounds _ Hrep) as Hb'. rewrite Hsecs in Hb.
  replace (time_of_fields a - tm_sec a + sec + saved) with (time_of_fields a) by lia.
  rewrite wrapS_small by lia.
  replace (Bool.eqb (time_of_fields a <? time_of_fields a - tm_sec a + sec) (saved <? 0)) with true by (symmetry; apply Bool.eqb_true_iff; lia).
  cbn [negb]. destruct (gmtsub_spec gmt (time_of_fields a) a Hgmt ltac:(lia)) as (r & ok & E & Hok & _). rewrite E. cbn [obind fst snd].
  rewrite (proj2 Hok Hrep) in *. by exists r.
Qed.

(** The result does not depend on what was in [*tmp]. *)
Lemma gmtsub_tmp t tmp tmp' r : gmtsub gmt 0 t tmp = Ok (r, true) -> gmtsub gmt 0 t tmp' = Ok (r, true).
Proof.
  unfold gmtsub, timesub. destruct (leap_loop _ _ _) as [[corr hit]| |]; [|done|done]. cbn [obind].
  destruct (year_loop _ _ _) as [[[tdays y]|]| |]; [|done|done|done]. cbn [obind].
  destruct (fits _ _ _) as [d| |]; [|done|done]. cbn [obind]. destruct (fits _ _ _) as [rem0| |]; [|done|done]. cbn [obind].
  destruct (rem_loop _ _ _) as [[rem idays]| |]; [|done|done]. cbn [obind].
  destruct (days_loop _ _ _) as [[[idays' y']|]| |]; [|done|done|done]. cbn [obind]. by destruct (increment_overflow _ _).
Qed.
End timegm.

(** * Theorems *)

(** A table whose first leap second is positive; the code reads before the table otherwise. *)
Definition leaps_ok (l : list lsinfo) : Prop := match l with [] => True | lp :: _ => 0 < ls_corr lp end.

Lemma leap_loop_total l i t : leaps_ok l -> (i <= length l)%nat -> exists c, leap_loop l i t = Ok c.
Proof.
  intros Hok. induction i as [|i IH]; intros Hi; [by eexists|]. cbn [leap_loop]. unfold at_.
  destruct (lookup_lt_is_Some_2 l i) as [lp Elp]; [lia|]. rewrite Elp. cbn [run obind].
  destruct (ls_trans lp <=? t); [|apply IH; lia]. destruct (t =? ls_trans lp); [|by eexists].
  destruct i as [|j]; cbn [Nat.eqb andb].
  - destruct l as [|lp' l]; [done|]. cbn in Elp, Hok. injection Elp as ->. destruct (Z.ltb_spec 0 (ls_corr lp)); [by eexists|lia].
  - destruct (lookup_lt_is_Some_2 l j) as [prev ->]; [lia|]. by eexists.
Qed.

(** The corrections of a table are those of the file, which has them in 32 bits. *)
Definition corrections_fit (l : list lsinfo) : Prop := Forall (fun lp => INT_MIN <= ls_corr lp <= INT_MAX) l.

Lemma leap_loop_corr l i t corr hit : corrections_fit l -> leap_loop l i t = Ok (corr, hit) -> INT_MIN <= corr <= INT_MAX.
Proof.
  intros Hl. induction i as [|i IH]; cbn [leap_loop]; [intros; simplify_eq; done|].
  unfold at_. destruct (l !! i) as [lp|] eqn:E; cbn [run obind]; [|done].
  destruct (ls_trans lp <=? t); [|done]. intros H. destruct (if t =? ls_trans lp then _ else _) in H; cbn [obind] in H; [|done|done]. injection H as <- <-.
  by apply (proj1 (Forall_lookup _ _) Hl i).
Qed.



(** Gmtime of any time returns a date exactly when its year is between INT_MIN + 1900 and INT_MAX; the date is the
    one of the Gregorian calendar, with leap years by the rule of 4, 100 and 400, that is that many seconds after
    1970-01-01 00:00:00, and its day of the year and day of the week are right (the latter but for the first seventy
    of the years that fit, where the code overflows). *)
Theorem gmtime_correct gmt t tmp : lsis gmt = [] -> time_t_min <= t <= time_t_max ->
  exists r ok, gmtsub gmt 0 t tmp = Ok (r, ok) /\ (ok = true <-> representable t) /\
    (ok = true -> valid_tm r /\ derived_fields r /\ secs_of r = t /\ tm_isdst r = 0 /\ tm_gmtoff r = 0).
Proof. apply gmtsub_spec. Qed.

Definition example_gmt : state := mk_state [] [mk_ttinfo 0 false] [].
Definition blank : tm := mk_tm 0 0 0 0 0 0 0 0 0 0.

Lemma gmtime_correct_witness :
  gmtsub example_gmt 0 951782400 blank = Ok (mk_tm 0 0 0 29 1 100 2 59 0 0, true) /\
  exists r ok, gmtsub example_gmt 0 951782400 blank = Ok (r, ok) /\ (ok = true <-> representable 951782400) /\
    (ok = true -> valid_tm r /\ derived_fields r /\ secs_of r = 951782400 /\ tm_isdst r = 0 /\ tm_gmtoff r = 0).
Proof. split; [vm_compute; reflexivity|]. apply gmtime_correct; [reflexivity|lia]. Defined.

Lemma timegm_spec gmt a : lsis gmt = [] -> int_fields a -> representable (time_of_fields a - tm_sec a) -> representable (time_of_fields a) ->
  exists r, timegm gmt a = Ok (time_of_fields a, r) /\ gmtsub gmt 0 (time_of_fields a) a = Ok (r, true).
Proof.
  intros Hgmt Ha Hrep0 Hrep. unfold timegm, timeoff, time1. cbn [tm_isdst set_isdst]. change (1 <? 0) with false. cbv iota.
  assert (Ha' : int_fields (set_isdst a 0)) by (destruct Ha; by split).
  destruct (time2sub_spec gmt Hgmt (set_isdst a 0) Ha' eq_refl Hrep0 Hrep) as (r & E & Er). unfold time2. rewrite E. cbn [obind].
  exists r. split; [done|]. by apply (gmtsub_tmp gmt _ (set_isdst a 0)).
Qed.

(** C15: timegm of fields outside their ranges (any seconds, months and years that are ints, minutes, hours and days up to
    2^30) returns the second the fields stand for when each is carried over into the next, and sets the fields to the
    date of that second; the years must fit, before and after the seconds are added. *)
Theorem timegm_correct gmt a : lsis gmt = [] -> int_fields a ->
  representable (time_of_fields a - tm_sec a) -> representable (time_of_fields a) ->
  exists r, timegm gmt a = Ok (time_of_fields a, r) /\ valid_tm r /\ derived_fields r /\ secs_of r = time_of_fields a.
Proof.
  intros Hgmt Ha Hrep0 Hrep. destruct (timegm_spec gmt a Hgmt Ha Hrep0 Hrep) as (r & E & Er). exists r. split; [done|].
  destruct (gmtsub_spec gmt (time_of_fields a) a Hgmt) as (r' & ok & E' & _ & Hr); [pose proof (representable_bounds _ Hrep); lia|].
  rewrite Er in E'. injection E' as <- <-. destruct (Hr eq_refl) as (Hv & Hd & Hs & _). done.
Qed.

Lemma representable_2020 : forall t, year_start 2020 * SECSPERDAY <= t < year_start 2021 * SECSPERDAY -> representable t.
Proof.
  intros t Ht. exists 2020. split; [|unfold INT_MAX; lia]. unfold in_year. change (2020 + 1) with 2021.
  split; [apply Z.div_le_lower_bound; lia|apply Z.div_lt_upper_bound; lia].
Qed.

(** The 45th of the 15th month of 2019, at 30:70:100. *)
Lemma timegm_correct_witness :
  timegm example_gmt (mk_tm 100 70 30 45 14 119 0 0 0 7) = Ok (1586934700, mk_tm 40 11 7 15 3 120 3 105 0 0) /\
  exists r, timegm example_gmt (mk_tm 100 70 30 45 14 119 0 0 0 7) = Ok (1586934700, r) /\ valid_tm r /\ derived_fields r /\ secs_of r = 1586934700.
Proof.
  split; [vm_compute; reflexivity|]. apply (timegm_correct example_gmt (mk_tm 100 70 30 45 14 119 0 0 0 7)); [reflexivity| |apply representable_2020; vm_compute; split; [discriminate|reflexivity]..].
  split; vm_compute; split; discriminate.
Defined.

(** Timegm undoes gmtime: the fields that gmtime reports for a time are turned back into the time, and are left as
    they are. *)
Theorem timegm_gmtime gmt t tmp r : lsis gmt = [] -> time_t_min <= t <= time_t_max -> gmtsub gmt 0 t tmp = Ok (r, true) ->
  timegm gmt r = Ok (t, r).
Proof.
  intros Hgmt Ht E. destruct (gmtsub_spec gmt t tmp Hgmt Ht) as (r' & ok & E' & Hok & Hr). rewrite E in E'. injection E' as <- <-.
  destruct (Hr eq_refl) as (Hv & _ & Hs & _). pose proof (proj1 Hok eq_refl) as Hrep. destruct Hrep as (Y & HY & HYr).
  rewrite <-Hs, secs_day in HY by done. pose proof (in_year_unique _ _ _ HY (days_in_year r Hv)) as ->.
  pose proof Hv as [H1 H2 H3 H4 H5 H6]. pose proof (month_length_bounds (isleap (tm_year r + 1900)) (tm_mon r) H4) as Hl.
  assert (Et : time_of_fields r = t).
  { rewrite <-Hs. unfold time_of_fields, secs_of. rewrite Z.div_small, Z.mod_small, Z.add_0_r by lia. done. }
  assert (Hi : int_fields r) by (unfold INT_MAX in *; split; unfold INT_MAX; rewrite ?(Z.div_small (tm_mon r) 12), ?Z.add_0_r by lia; lia).
  destruct (timegm_spec gmt r Hgmt Hi) as (r' & E1 & E2); rewrite ?Et in *.
  - exists (tm_year r + 1900). split; [|done]. replace ((t - tm_sec r) / 86400) with (days_of r); [by apply days_in_year|].
    rewrite <-Hs. unfold secs_of. apply (Z.div_unique _ _ _ (tm_hour r * 3600 + tm_min r * 60)); lia.
  - by apply Hok.
  - pose proof (gmtsub_tmp gmt t tmp r r E) as E3. rewrite E3 in E2. injection E2 as <-. done.
Qed.

Lemma timegm_gmtime_witness : timegm example_gmt (mk_tm 59 59 23 31 11 69 3 364 0 0) = Ok (-1, mk_tm 59 59 23 31 11 69 3 364 0 0).
Proof. apply (timegm_gmtime example_gmt (-1) blank); [reflexivity|lia|vm_compute; reflexivity]. Defined.
