(* ===== verification/PthreadKey.v ===== *)
(** Thread-specific data: libc/bionic/pthread_key.cpp.

    A key is a slot of a table that all threads share; each thread has an array of values, one per
    slot.  Creating a key must make its value null in every thread, but a thread cannot write to the
    array of another.  The slot has a sequence number instead, odd while the key exists, and a value
    counts only if it was stored under the present number.

    The specification is a table that is cleared when a key is created.  The theorem says that
    the calls of any number of threads, in any interleaving, can be put in one order that explains
    all their results by the specification, and in which a call that has returned before another is made is
    before it. *)

From stdpp Require Import pretty countable.
From S2P Require Import Prelude Atomic.

(** * Definitions *)

Abbreviation PTHREAD_DESTRUCTOR_ITERATIONS := 4.
Abbreviation BIONIC_PTHREAD_KEY_COUNT := 130%nat.
Abbreviation SEQ_KEY_IN_USE_BIT := 0.
Abbreviation SEQ_INCREMENT_STEP := 1.

(** The fields of [key_map[i]], and those of [key_data[i]] of the thread [self]. *)
Definition key_map_seq (i : nat) : loc := (i, "key_map.seq").
Definition key_map_destructor (i : nat) : loc := (i, "key_map.key_destructor").
Definition key_data_seq (self i : nat) : loc := (self, "key_data.seq." +:+ pretty i).
Definition key_data_data (self i : nat) : loc := (self, "key_data.data." +:+ pretty i).

Definition SeqOfKeyInUse (seq : Z) : bool := truthy (Z.land seq (Z.shiftl 1 SEQ_KEY_IN_USE_BIT)).

Definition KEY_VALID_FLAG : Z := wrapS 32 (Z.shiftl 1 31).

Definition KeyInValidRange (key : Z) : bool := key <? Z.lor KEY_VALID_FLAG (Z.of_nat BIONIC_PTHREAD_KEY_COUNT).

(** [key &= ~KEY_VALID_FLAG], as an index. *)
Definition key_index (key : Z) : nat := Z.to_nat (Z.land key (Z.lnot KEY_VALID_FLAG)).

Definition pthread_key_create (key : loc) (key_destructor : Z) : prog Z :=
  loop (fun i : nat =>
    if negb (i <? BIONIC_PTHREAD_KEY_COUNT)%nat then Ret (inr EAGAIN) else
    seq <- atomic_load (key_map_seq i) ;;
    taken <- loop (fun seq : Z =>
      if SeqOfKeyInUse seq then Ret (inr false) else
      let2 ok, seen <- atomic_compare_exchange_weak (key_map_seq i) seq (wrapU 64 (seq + SEQ_INCREMENT_STEP)) ;;
      if negb ok then Ret (inl seen) else
      atomic_store (key_map_destructor i) key_destructor ;;
      atomic_store key (wrapS 32 (Z.lor (Z.of_nat i) KEY_VALID_FLAG)) ;;
      Ret (inr true)) seq ;;
    if (taken : bool) then Ret (inr 0) else Ret (inl (S i))) 0%nat.

Definition pthread_key_delete (key : Z) : prog Z :=
  if negb (KeyInValidRange key) then Ret EINVAL else
  let i := key_index key in
  seq <- atomic_load (key_map_seq i) ;;
  if SeqOfKeyInUse seq then
    let2 ok, seen <- atomic_compare_exchange_strong (key_map_seq i) seq (wrapU 64 (seq + SEQ_INCREMENT_STEP)) ;;
    if ok : bool then Ret 0 else Ret EINVAL
  else Ret EINVAL.

Definition pthread_getspecific (self : nat) (key : Z) : prog Z :=
  if negb (KeyInValidRange key) then Ret 0 else
  let i := key_index key in
  seq <- atomic_load (key_map_seq i) ;;
  current <-
    (if SeqOfKeyInUse seq then data_seq <- atomic_load (key_data_seq self i) ;; Ret (data_seq =? seq) else Ret false) ;;
  if current : bool then atomic_load (key_data_data self i) else
  atomic_store (key_data_data self i) 0 ;;
  Ret 0.

Definition pthread_setspecific (self : nat) (key ptr : Z) : prog Z :=
  if negb (KeyInValidRange key) then Ret EINVAL else
  let i := key_index key in
  seq <- atomic_load (key_map_seq i) ;;
  if SeqOfKeyInUse seq then
    atomic_store (key_data_seq self i) seq ;;
    atomic_store (key_data_data self i) ptr ;;
    Ret 0
  else Ret EINVAL.

(** The body of the loop over the slots in pthread_key_clean_all: was a destructor called?
    [call d v] is the call of the destructor [d] with [v]. *)
Definition clean_key (call : Z -> Z -> prog unit) (self i : nat) : prog bool :=
  seq <- atomic_load (key_map_seq i) ;;
  if negb (SeqOfKeyInUse seq) then Ret false else
  data_seq <- atomic_load (key_data_seq self i) ;;
  if negb (seq =? data_seq) then Ret false else
  data <- atomic_load (key_data_data self i) ;;
  if data =? 0 then Ret false else
  key_destructor <- atomic_load (key_map_destructor i) ;;
  if key_destructor =? 0 then Ret false else
  again <- atomic_load (key_map_seq i) ;;
  if negb (again =? seq) then Ret false else
  data <- atomic_load (key_data_data self i) ;;
  atomic_store (key_data_data self i) 0 ;;
  call key_destructor data ;;
  Ret true.

Definition clean_round (call : Z -> Z -> prog unit) (self : nat) : prog Z :=
  loop (fun s : nat * Z =>
    let '(i, called_destructor_count) := s in
    if (i <? BIONIC_PTHREAD_KEY_COUNT)%nat then
      called <- clean_key call self i ;;
      Ret (inl (S i, wrapU 64 (called_destructor_count + b2z called)))
    else Ret (inr called_destructor_count)) (0%nat, 0).

Definition pthread_key_clean_all (call : Z -> Z -> prog unit) (self : nat) : prog unit :=
  loop (fun rounds : Z =>
    if 0 <? rounds then
      called_destructor_count <- clean_round call self ;;
      if called_destructor_count =? 0 then Ret (inr tt) else Ret (inl (rounds - 1))
    else Ret (inr tt)) PTHREAD_DESTRUCTOR_ITERATIONS.

(** * Specification *)

Inductive request :=
| KeyCreate (key_destructor : Z)
| KeyDelete (key : Z)
| GetSpecific (key : Z)
| SetSpecific (key ptr : Z).

(** Which slots are keys, and the value of each thread in each slot. *)
Record keys := mk_keys { live : nat -> bool; value : nat -> nat -> Z }.

Definition no_keys : keys := mk_keys (fun _ => false) (fun _ _ => 0).

Definition key_of (i : nat) : Z := - 2 ^ 31 + Z.of_nat i.

Definition slot_of (key : Z) : option nat :=
  if (- 2 ^ 31 <=? key) && (key <? key_of BIONIC_PTHREAD_KEY_COUNT) then Some (Z.to_nat (key + 2 ^ 31)) else None.

(** A call of thread [t] that returns [r]; there is no state if it must not.  The result of a
    creation is the key, or EAGAIN. *)
Definition spec_step (t : nat) (q : request) (r : Z) (st : keys) : option keys :=
  match q with
  | KeyCreate _ =>
      if r =? EAGAIN then Some st else
      i ← slot_of r;
      if live st i then None else
      Some (mk_keys (fun i' => if decide (i' = i) then true else live st i')
              (fun t' i' => if decide (i' = i) then 0 else value st t' i'))
  | KeyDelete key =>
      match slot_of key with
      | Some i =>
          if live st i then
            if r =? 0 then Some (mk_keys (fun i' => if decide (i' = i) then false else live st i') (value st)) else None
          else if r =? EINVAL then Some st else None
      | None => if r =? EINVAL then Some st else None
      end
  | GetSpecific key =>
      if r =? match slot_of key with Some i => if live st i then value st t i else 0 | None => 0 end then Some st else None
  | SetSpecific key ptr =>
      match slot_of key with
      | Some i =>
          if live st i then
            if r =? 0 then
              Some (mk_keys (live st) (fun t' i' => if decide (t' = t /\ i' = i) then ptr else value st t' i'))
            else None
          else if r =? EINVAL then Some st else None
      | None => if r =? EINVAL then Some st else None
      end
  end.

(** The calls of all threads in one order. *)
Definition event : Type := (nat * (request * Z))%type.

Fixpoint spec_run (st : keys) (tr : list event) : option keys :=
  match tr with
  | [] => Some st
  | (t, (q, r)) :: tr => st ← spec_step t q r st; spec_run st tr
  end.

Fixpoint events_of (t : nat) (tr : list event) : list (request * Z) :=
  match tr with
  | [] => []
  | (t', e) :: tr => if decide (t' = t) then e :: events_of t tr else events_of t tr
  end.

(** * Clients *)

(** Calls and returns, in the order in which they happen; of a return the result. *)
Definition hevent : Type := (nat * option Z)%type.

(** The history, encoded in one word. *)
Definition key_history : loc := (0%nat, "history").

Definition history_of (w : Z) : list hevent := match w with Zpos p => default [] (decode p) | _ => [] end.

Definition note (e : hevent) (w : Z) : Z := Z.pos (encode (history_of w ++ [e])).

Definition history (m : mem) : list hevent := history_of (word m key_history).

(** How many calls a thread has made, and the results of those that have returned. *)
Fixpoint calls_of (t : nat) (h : list hevent) : nat :=
  match h with
  | [] => O
  | (t', o) :: h => if decide (t' = t /\ o = None) then S (calls_of t h) else calls_of t h
  end.

Fixpoint returns_of (t : nat) (h : list hevent) : list Z :=
  match h with
  | [] => []
  | (t', o) :: h =>
      match o with
      | Some r => if decide (t' = t) then r :: returns_of t h else returns_of t h
      | None => returns_of t h
      end
  end.

(** A thread makes its calls one after the other and notes when it makes them and what they return. *)
Definition key_var (self : nat) : loc := (self, "key").

Definition key_call (self : nat) (q : request) : prog Z :=
  match q with
  | KeyCreate d =>
      r <- pthread_key_create (key_var self) d ;;
      if r =? 0 then atomic_load (key_var self) else Ret r
  | KeyDelete key => pthread_key_delete key
  | GetSpecific key => pthread_getspecific self key
  | SetSpecific key ptr => pthread_setspecific self key ptr
  end.

Fixpoint key_client (self : nat) (qs : list request) : prog unit :=
  match qs with
  | [] => Ret tt
  | q :: qs =>
      act (Rmw key_history (note (self, None))) ;;
      r <- key_call self q ;;
      act (Rmw key_history (note (self, Some r))) ;;
      key_client self qs
  end.

(** Real time: what had returned when the call of [t] after [tr1] was made is in [tr1]. *)
Definition after_calls (h : list hevent) (t : nat) (tr1 : list event) : Prop :=
  forall h1 h2, h = h1 ++ (t, None) :: h2 -> calls_of t h1 = length (events_of t tr1) ->
  forall u, (length (returns_of u h1) <= length (events_of u tr1))%nat.

Definition real_time (h : list hevent) (tr : list event) : Prop :=
  forall tr1 t e tr2, tr = tr1 ++ (t, e) :: tr2 -> after_calls h t tr1.

(** Keys are ints. *)
Definition int_key (q : request) : Prop :=
  match q with
  | KeyCreate _ => True
  | KeyDelete key | GetSpecific key | SetSpecific key _ => - 2 ^ 31 <= key <= INT_MAX
  end.

(** * Keys and sequence numbers *)

Lemma in_use_odd s : SeqOfKeyInUse s = Z.odd s.
Proof. unfold SeqOfKeyInUse. change (Z.shiftl 1 0) with (2 ^ 0). by rewrite testbit_truthy, Z.bit0_odd. Qed.

Lemma odd_succ s : Z.odd (s + 1) = negb (Z.odd s).
Proof. by rewrite Z.odd_add, xorb_true_r. Qed.

Lemma key_of_slot i : (i < BIONIC_PTHREAD_KEY_COUNT)%nat -> wrapS 32 (Z.lor (Z.of_nat i) KEY_VALID_FLAG) = key_of i.
Proof.
  intros Hi. change KEY_VALID_FLAG with (-1 * 2 ^ 31). rewrite Z.lor_comm, lor_low_bits by lia.
  rewrite wrapS_small by lia. unfold key_of. lia.
Qed.

Lemma slot_of_key i : (i < BIONIC_PTHREAD_KEY_COUNT)%nat -> slot_of (key_of i) = Some i.
Proof.
  intros Hi. unfold slot_of, key_of. rewrite (proj2 (Z.leb_le _ _)), (proj2 (Z.ltb_lt _ _)) by lia. cbn [andb].
  f_equal. lia.
Qed.

Lemma slot_of_valid key : - 2 ^ 31 <= key ->
  slot_of key = (if KeyInValidRange key then Some (key_index key) else None) /\
  (KeyInValidRange key = true -> (key_index key < BIONIC_PTHREAD_KEY_COUNT)%nat).
Proof.
  intros Hk. unfold slot_of, KeyInValidRange. change (Z.lor KEY_VALID_FLAG _) with (key_of BIONIC_PTHREAD_KEY_COUNT).
  rewrite (proj2 (Z.leb_le _ _)) by lia. cbn [andb]. destruct (Z.ltb_spec key (key_of BIONIC_PTHREAD_KEY_COUNT)) as [Hlt|]; [|done].
  unfold key_of in Hlt. unfold key_index. change (Z.lnot KEY_VALID_FLAG) with (Z.ones 31). rewrite Z.land_ones by lia.
  replace (key mod 2 ^ 31) with (key + 2 ^ 31) by (apply (Z.mod_unique_pos _ _ (-1)); lia).
  split; [done|lia].
Qed.

(** * The specification on sequences of calls *)

Lemma spec_run_app st tr1 tr2 : spec_run st (tr1 ++ tr2) = st ← spec_run st tr1; spec_run st tr2.
Proof.
  revert st. induction tr1 as [|[t [q r]] tr1 IH]; intros st; simpl; [done|].
  destruct (spec_step t q r st) as [st1|]; simpl; [apply IH|done].
Qed.

Lemma events_of_app t tr1 tr2 : events_of t (tr1 ++ tr2) = events_of t tr1 ++ events_of t tr2.
Proof. induction tr1 as [|[t' e] tr1 IH]; simpl; [done|]. rewrite IH. by case_decide. Qed.

(** ** Histories *)

Lemma history_note m x : history (set_word m key_history (note x (word m key_history))) = history m ++ [x].
Proof. unfold history. rewrite word_set_word_eq. unfold note. cbn [history_of]. by rewrite decode_encode. Qed.

Lemma calls_of_app t h1 h2 : calls_of t (h1 ++ h2) = (calls_of t h1 + calls_of t h2)%nat.
Proof. induction h1 as [|[t' o] h1 IH]; simpl; [done|]. rewrite IH. by case_decide. Qed.

Lemma returns_of_app t h1 h2 : returns_of t (h1 ++ h2) = returns_of t h1 ++ returns_of t h2.
Proof. induction h1 as [|[t' [r|]] h1 IH]; simpl; [done| |done]. rewrite IH. by case_decide. Qed.

Lemma snoc_split {A} (l l1 l2 : list A) x y : l ++ [x] = l1 ++ y :: l2 ->
  (l1 = l /\ x = y /\ l2 = []) \/ exists l2', l2 = l2' ++ [x] /\ l = l1 ++ y :: l2'.
Proof.
  destruct l2 as [|z l2' _] using rev_ind.
  - intros [-> [= ->]]%app_inj_tail. by left.
  - rewrite app_comm_cons, app_assoc. intros [-> ->]%app_inj_tail. right. by exists l2'.
Qed.

Lemma after_calls_all h t tr : (forall u, (length (returns_of u h) <= length (events_of u tr))%nat) -> after_calls h t tr.
Proof.
  intros H h1 h2 -> _ u. specialize (H u). rewrite returns_of_app, length_app in H. lia.
Qed.

Lemma after_calls_note h t tr x :
  after_calls h t tr -> (x = (t, None) -> calls_of t h <> length (events_of t tr)) -> after_calls (h ++ [x]) t tr.
Proof.
  intros H Hx h1 h2 [(-> & -> & ->)|(h2' & -> & ->)]%snoc_split Hc; [by destruct (Hx eq_refl)|]. by apply (H h1 h2').
Qed.

(** Another thread's call is put in. *)
Lemma after_calls_grow h t tr tr' : after_calls h t tr -> events_of t tr' = events_of t tr ->
  (forall u, (length (events_of u tr) <= length (events_of u tr'))%nat) -> after_calls h t tr'.
Proof. intros H Ht Hu h1 h2 Hh Hc u. rewrite Ht in Hc. specialize (H h1 h2 Hh Hc u). specialize (Hu u). lia. Qed.

Lemma events_of_insert u tr1 tr2 x : (length (events_of u (tr1 ++ tr2)) <= length (events_of u (tr1 ++ x :: tr2)))%nat.
Proof. rewrite !events_of_app, !length_app. destruct x as [t e]. simpl. case_decide; simpl; lia. Qed.

(** At some time after the call of [t] was made the slot [i] was not a key. *)
Definition was_dead (h : list hevent) (t i : nat) (tr : list event) : Prop :=
  exists tr1 tr2 st1, tr = tr1 ++ tr2 /\ events_of t tr2 = [] /\ spec_run no_keys tr1 = Some st1 /\ live st1 i = false /\
    after_calls h t tr1.

Lemma was_dead_app h t i tr t' e : t' <> t -> was_dead h t i tr -> was_dead h t i (tr ++ [(t', e)]).
Proof.
  intros Hne (tr1 & tr2 & st1 & -> & H2 & H1 & Hd). exists tr1, (tr2 ++ [(t', e)]), st1.
  rewrite <-app_assoc, events_of_app, H2. simpl. by rewrite decide_False.
Qed.

Lemma was_dead_note h t i tr t' o : t' <> t -> was_dead h t i tr -> was_dead (h ++ [(t', o)]) t i tr.
Proof.
  intros Hne (tr1 & tr2 & st1 & -> & H2 & H1 & Hd & Ha). exists tr1, tr2, st1. split_and!; try done.
  apply after_calls_note; [done|]. by intros [= -> _].
Qed.

(** A call without effect can be put in at an earlier time. *)
Lemma spec_run_insert tr1 tr2 t q r st1 :
  spec_run no_keys tr1 = Some st1 -> spec_step t q r st1 = Some st1 ->
  spec_run no_keys (tr1 ++ (t, (q, r)) :: tr2) = spec_run no_keys (tr1 ++ tr2).
Proof. intros H1 Hs. rewrite !spec_run_app, H1. simpl. by rewrite Hs. Qed.

Lemma was_dead_insert h t i tr1 tr2 t' q r st1 :
  t' <> t -> spec_run no_keys tr1 = Some st1 -> spec_step t' q r st1 = Some st1 ->
  was_dead h t i (tr1 ++ tr2) -> was_dead h t i (tr1 ++ (t', (q, r)) :: tr2).
Proof.
  intros Hne H1 Hs (u1 & u2 & st2 & E & Hu & Hr & Hd & Ha). apply app_eq_inv in E as [(k & -> & ->)|(k & -> & ->)].
  - exists u1, (k ++ (t', (q, r)) :: tr2), st2. rewrite <-app_assoc. rewrite events_of_app in Hu |- *. simpl.
    by rewrite decide_False.
  - exists (tr1 ++ (t', (q, r)) :: k), u2, st2. rewrite <-app_assoc.
    rewrite (spec_run_insert tr1 k t' q r st1) by done. split_and!; try done.
    apply (after_calls_grow h t (tr1 ++ k)); [done| |intros u; apply events_of_insert].
    rewrite !events_of_app. simpl. by rewrite decide_False.
Qed.

(** A call put in where it may be leaves the order in real time. *)
Lemma real_time_insert h tr1 tr2 t e :
  real_time h (tr1 ++ tr2) -> events_of t tr2 = [] -> after_calls h t tr1 -> real_time h (tr1 ++ (t, e) :: tr2).
Proof.
  intros H Ht Ha u1 t' e' u2 E. apply app_eq_inv in E as [(k & -> & E)|(k & -> & E)].
  - destruct k as [|x k]; simpl in E.
    + injection E as -> -> ->. by rewrite app_nil_r in Ha.
    + injection E as <- ->. apply (H u1 t' e' (k ++ tr2)). by rewrite <-app_assoc.
  - destruct k as [|x k]; simpl in E.
    + injection E as <- <- <-. by rewrite app_nil_r.
    + injection E as <- ->. assert (t' <> t) as Hne.
      { intros ->. rewrite events_of_app in Ht. simpl in Ht. rewrite decide_True in Ht by done. by destruct (events_of t k). }
      apply (after_calls_grow h t' (tr1 ++ k)); [|rewrite !events_of_app; simpl; by rewrite decide_False|intros u; apply events_of_insert].
      apply (H (tr1 ++ k) t' e' u2). by rewrite <-app_assoc.
Qed.

(** * The invariant *)

(** The words that belong to a thread. *)
Inductive own (t : nat) : loc -> Prop :=
| own_seq i : own t (key_data_seq t i)
| own_data i : own t (key_data_data t i)
| own_var : own t (key_var t).
#[local] Hint Constructors own : core.

Lemma own_thread t l : own t l -> l.1 = t.
Proof. by destruct 1. Qed.

Lemma own_not_shared t l i : own t l -> l <> key_map_seq i /\ l <> key_map_destructor i.
Proof. destruct 1; split; intros [=]. Qed.

Lemma own_not_history t l : own t l -> l <> key_history.
Proof. destruct 1; intros [=]. Qed.

Lemma pretty_suffix_inj (f : string) (i j : nat) : f +:+ pretty i = f +:+ pretty j -> i = j.
Proof. intros H. apply (inj (String.append f)) in H. by apply (inj pretty) in H. Qed.

(** What a thread is in the middle of. *)
Inductive pending :=
| Ready
| Writing (stored : bool) (i : nat) (s v : Z)
    (* setspecific has read [s]; has it stored [s]?  [v] is still to be stored *)
| Reading (i : nat) (s r : Z)   (* getspecific has read [s], which is odd, and will return [r] *)
| Fetching (i : nat) (r : Z)    (* getspecific has found the present number and will read [r] *)
| Clearing (i : nat) (s : Z)    (* getspecific has read [s] and found an old value *)
| Deleting (i : nat) (s : Z)    (* delete has read [s], which is odd *)
| Created (key : Z).            (* create has stored [key] *)

Record kphase := mk_kphase {
  k_log : list (request * Z);   (* the calls that have taken effect *)
  k_left : Z;                   (* how many have not *)
  k_calls : nat;                (* how many calls are made *)
  k_returned : nat;             (* how many have returned *)
  k_pending : pending
}.

(** The number and the value that thread [t] holds for slot [i], or is about to. *)
Definition tls (m : mem) (t : nat) (p : pending) (i : nat) : Z * Z :=
  match p with
  | Writing _ j s v =>
      if decide (i = j) then (s, v) else (word m (key_data_seq t i), word m (key_data_data t i))
  | _ => (word m (key_data_seq t i), word m (key_data_data t i))
  end.

Definition pending_ok (m : mem) (tr : list event) (t : nat) (p : pending) : Prop :=
  match p with
  | Ready => True
  | Writing stored i s _ => (i < BIONIC_PTHREAD_KEY_COUNT)%nat /\ (stored = true -> word m (key_data_seq t i) = s)
  | Reading i s r =>
      (i < BIONIC_PTHREAD_KEY_COUNT)%nat /\ word m (key_data_seq t i) <= s <= word m (key_map_seq i) /\
      r = if word m (key_data_seq t i) =? s then word m (key_data_data t i) else 0
  | Fetching i r => word m (key_data_data t i) = r
  | Clearing i s =>
      (i < BIONIC_PTHREAD_KEY_COUNT)%nat /\ word m (key_data_seq t i) <= s <= word m (key_map_seq i) /\
      (Z.odd s = true -> word m (key_data_seq t i) < s)
  | Deleting i s =>
      (i < BIONIC_PTHREAD_KEY_COUNT)%nat /\ Z.odd s = true /\ (word m (key_map_seq i) = s \/ was_dead (history m) t i tr)
  | Created key => word m (key_var t) = key
  end.

Section keys.
Context {K : FutexKernel} (requests : list (list request)).
Context (Hkeys : forall qs q, qs ∈ requests -> q ∈ qs -> int_key q)
  (Hfew : total (fun qs => Z.of_nat (length qs)) requests < 2 ^ 64).

(** A value counts only under the present number. *)
Definition tls_ok (m : mem) (st : keys) (t : nat) (p : pending) : Prop :=
  forall i, (i < BIONIC_PTHREAD_KEY_COUNT)%nat ->
    (tls m t p i).1 <= word m (key_map_seq i) /\
    (live st i = true ->
      value st t i = if (tls m t p i).1 =? word m (key_map_seq i) then (tls m t p i).2 else 0).

Record thread_ok (m : mem) (tr : list event) (st : keys) (t : nat) (φ : kphase) : Prop := mk_thread_ok {
  tk_log : events_of t tr = k_log φ;
  tk_prefix : exists qs, requests !! t = Some qs /\ (fst <$> k_log φ) `prefix_of` qs /\
    k_left φ = Z.of_nat (length qs) - Z.of_nat (length (k_log φ));
  tk_tls : tls_ok m st t (k_pending φ);
  tk_pending : pending_ok m tr t (k_pending φ);
  tk_calls : calls_of t (history m) = k_calls φ /\ (length (k_log φ) <= k_calls φ)%nat;
  tk_returns : returns_of t (history m) = take (k_returned φ) (snd <$> k_log φ) /\ (k_returned φ <= length (k_log φ))%nat
}.

Record kinv (m : mem) (g : list kphase) (tr : list event) (st : keys) : Prop := mk_kinv {
  ki_run : spec_run no_keys tr = Some st;
  ki_seq : forall i, (i < BIONIC_PTHREAD_KEY_COUNT)%nat ->
    live st i = Z.odd (word m (key_map_seq i)) /\ 0 <= word m (key_map_seq i) <= Z.of_nat (length tr);
  ki_few : Z.of_nat (length tr) + total k_left g < 2 ^ 64;
  ki_threads : forall t φ, g !! t = Some φ -> thread_ok m tr st t φ;
  ki_order : real_time (history m) tr;
  ki_returns : forall u, (length (returns_of u (history m)) <= length (events_of u tr))%nat
}.

Definition KInv (m : mem) (g : list kphase) : Prop := exists tr st, kinv m g tr st.

Lemma history_same m m' : word m' key_history = word m key_history -> history m' = history m.
Proof using Type. unfold history. by intros ->. Qed.

Lemma thread_ok_ext m m' tr st t φ :
  (forall l, own t l -> word m' l = word m l) -> (forall i, word m' (key_map_seq i) = word m (key_map_seq i)) ->
  history m' = history m -> thread_ok m tr st t φ -> thread_ok m' tr st t φ.
Proof using Type.
  intros Ho Hs Hh [H1 H2 H3 H4 H5 H6].
  assert (Htls : forall i, tls m' t (k_pending φ) i = tls m t (k_pending φ) i)
    by (intros i; unfold tls; destruct (k_pending φ); rewrite ?Ho by auto; done).
  split; rewrite ?Hh; [done..| | |done|done].
  - intros i Hi. rewrite Htls, Hs. by apply H3.
  - destruct (k_pending φ); simpl in *; rewrite ?Hs, ?Hh, ?Ho by auto; done.
Qed.

#[export] Instance KInv_proper : Proper (mem_equiv ==> eq ==> iff) KInv.
Proof using Type.
  assert (forall m m' g, mem_equiv m m' -> KInv m g -> KInv m' g) as H.
  { intros m m' g [Hw _] (tr & st & [H1 H2 H3 H4 H5 H6]). assert (history m' = history m) as Hh by (apply history_same; by rewrite Hw).
    exists tr, st. split; rewrite ?Hh; [done| |done| |done|done].
    - intros i Hi. rewrite <-Hw. by apply H2.
    - intros t φ Hg. apply (thread_ok_ext m); auto. }
  intros m m' He g ? <-. split; apply H; [done|by symmetry].
Qed.

(** A step on the words of the thread itself. *)
Lemma kinv_private m m' g tr st t φ φ' :
  kinv m g tr st -> g !! t = Some φ ->
  (forall i, word m' (key_map_seq i) = word m (key_map_seq i)) ->
  (forall t' l, t' <> t -> own t' l -> word m' l = word m l) -> history m' = history m ->
  k_left φ' = k_left φ -> thread_ok m' tr st t φ' -> kinv m' (<[t:=φ']> g) tr st.
Proof using Type.
  intros [H1 H2 H3 H4 H5 H6] Hg Hs Ho Hh Hl Ht. split; rewrite ?Hh; [done| | | |done|done].
  - intros i Hi. rewrite Hs. by apply H2.
  - rewrite (total_insert _ _ _ _ _ Hg). lia.
  - apply (insert_all (thread_ok m' tr st) g t φ); [done..|]. intros t' φ1 Hne Hg'. apply (thread_ok_ext m); eauto.
Qed.

(** A call or a return is noted. *)
Lemma kinv_note m g tr st t o φ φ' :
  let m' := set_word m key_history (note (t, o) (word m key_history)) in
  kinv m g tr st -> g !! t = Some φ ->
  (o = None -> (length (events_of t tr) <= calls_of t (history m))%nat) ->
  (is_Some o -> (length (returns_of t (history m)) < length (events_of t tr))%nat) ->
  k_left φ' = k_left φ -> thread_ok m' tr st t φ' -> kinv m' (<[t:=φ']> g) tr st.
Proof using Type.
  intros m' [H1 H2 H3 H4 H5 H6] Hg Hcall Hret Hl Ht.
  assert (Hh : history m' = history m ++ [(t, o)]) by apply history_note.
  assert (Hw : forall l, l <> key_history -> word m' l = word m l) by (intros l Hne; by apply word_set_word_ne).
  assert (Hseq : forall i, word m' (key_map_seq i) = word m (key_map_seq i)) by (intros i; apply Hw; intros [=]).
  split; rewrite ?Hh; [done| | | | |].
  - intros i Hi. rewrite Hseq. by apply H2.
  - rewrite (total_insert _ _ _ _ _ Hg). lia.
  - apply (insert_all (thread_ok m' tr st) g t φ); [done..|]. intros t' φ1 Hne Hg'. destruct (H4 t' φ1 Hg') as [L1 L2 L3 L4 L5 L6].
    assert (Ho : forall l, own t' l -> word m' l = word m l) by (intros l Hown; by apply Hw, (own_not_history t')).
    split; [done|done| | | |].
    + intros i Hi. assert (tls m' t' (k_pending φ1) i = tls m t' (k_pending φ1) i) as ->
        by (unfold tls; destruct (k_pending φ1); rewrite ?Ho by auto; done). rewrite Hseq. by apply L3.
    + destruct (k_pending φ1); simpl in *; rewrite ?Hseq, ?Hh, ?Ho by auto; try done.
      destruct L4 as (? & ? & L4). split_and!; try done. destruct L4 as [?|L4]; [by left|right]. by apply was_dead_note.
    + rewrite Hh, calls_of_app. simpl. rewrite decide_False by (intros [-> _]; done). by rewrite Nat.add_0_r.
    + rewrite Hh, returns_of_app. simpl. destruct o; rewrite ?decide_False by congruence; by rewrite app_nil_r.
  - intros tr1 t' e tr2 E. apply after_calls_note; [by apply (H5 tr1 t' e tr2)|]. intros [= <- ->].
    specialize (Hcall eq_refl). rewrite E, events_of_app, length_app in Hcall. simpl in Hcall. rewrite decide_True in Hcall by done.
    simpl in Hcall. lia.
  - intros u. rewrite returns_of_app, length_app. simpl. specialize (H6 u). destruct o as [r|]; simpl; [|lia].
    case_decide as E; [subst u; specialize (Hret ltac:(by eexists))|]; simpl; lia.
Qed.

(** A call takes effect: what its thread may do to the slots. *)
Record effect (t : nat) (q : request) (r : Z) (m m' : mem) (st st' : keys) : Prop := mk_effect {
  ef_step : spec_step t q r st = Some st';
  ef_own : forall t' l, own t' l -> word m' l = word m l;
  ef_history : history m' = history m;
  ef_slot : forall i, (i < BIONIC_PTHREAD_KEY_COUNT)%nat ->
    (word m' (key_map_seq i) = word m (key_map_seq i) /\ live st' i = live st i /\
       forall t', t' <> t -> value st' t' i = value st t' i) \/
    (word m' (key_map_seq i) = word m (key_map_seq i) + 1 /\ live st' i = negb (live st i) /\
       (live st' i = true -> forall t', value st' t' i = 0))
}.

Lemma effect_tls t q r m m' st st' t' p :
  effect t q r m m' st st' -> t' <> t -> tls_ok m st t' p -> tls_ok m' st' t' p.
Proof using Type.
  intros [_ Ho _ Hs] Hne H i Hi. destruct (H i Hi) as [Hle Hv].
  assert (Htls : tls m' t' p i = tls m t' p i) by (unfold tls; destruct p; rewrite ?(Ho t') by auto; done).
  rewrite Htls. destruct (Hs i Hi) as [(-> & -> & ->)|(-> & _ & Hz)]; [done..|]. split; [lia|]. intros Hl.
  rewrite Hz by done. destruct (Z.eqb_spec (tls m t' p i).1 (word m (key_map_seq i) + 1)); [lia|done].
Qed.

Lemma effect_pending t q r m m' tr st st' t' p :
  effect t q r m m' st st' -> t' <> t -> spec_run no_keys tr = Some st ->
  (forall i, (i < BIONIC_PTHREAD_KEY_COUNT)%nat -> live st i = Z.odd (word m (key_map_seq i))) ->
  (forall u, (length (returns_of u (history m)) <= length (events_of u tr))%nat) ->
  pending_ok m tr t' p -> pending_ok m' (tr ++ [(t, (q, r))]) t' p.
Proof using Type.
  intros [Hstep Ho Hh Hs] Hne Hrun Hlive Hret H. destruct p as [|stored i s v|i s r'|i r'|i s|i s|key]; simpl in *;
    rewrite ?Hh, ?(Ho t' (key_data_seq _ _)), ?(Ho t' (key_data_data _ _)), ?(Ho t' (key_var _)) by auto;
    [done|done| |done| | |done].
  - destruct H as (Hi & Hle & ->). split_and!; [done|lia| |done]. destruct (Hs i Hi) as [(-> & _)|(-> & _)]; lia.
  - destruct H as (Hi & Hle & Hlt). split_and!; [done|lia| |done]. destruct (Hs i Hi) as [(-> & _)|(-> & _)]; lia.
  - destruct H as (Hi & Hodd & H). split_and!; [done..|]. destruct H as [E|Hd]; [|right; by apply was_dead_app].
    destruct (Hs i Hi) as [(-> & _)|(_ & Hl & _)]; [by left|right].
    exists (tr ++ [(t, (q, r))]), [], st'. rewrite app_nil_r, spec_run_app, Hrun. simpl. rewrite Hstep.
    split_and!; try done; [by rewrite Hl, Hlive, E, Hodd|]. apply after_calls_all. intros u. specialize (Hret u).
    rewrite events_of_app, length_app. lia.
Qed.

Lemma kinv_append m m' g tr st st' t φ φ' q r :
  kinv m g tr st -> g !! t = Some φ -> effect t q r m m' st st' ->
  k_left φ' = k_left φ - 1 -> thread_ok m' (tr ++ [(t, (q, r))]) st' t φ' ->
  kinv m' (<[t:=φ']> g) (tr ++ [(t, (q, r))]) st'.
Proof using Type.
  intros [H1 H2 H3 H4 H5 H6] Hg He Hl Ht. pose proof He as [Hstep Ho Hh Hs]. split; rewrite ?Hh.
  - rewrite spec_run_app, H1. simpl. by rewrite Hstep.
  - intros i Hi. rewrite length_app. simpl. destruct (H2 i Hi) as [E Hb].
    destruct (Hs i Hi) as [(-> & -> & _)|(-> & -> & _)]; [split; [done|lia]|]. rewrite odd_succ, E. split; [done|lia].
  - rewrite length_app, (total_insert _ _ _ _ _ Hg). simpl. lia.
  - apply (insert_all (thread_ok m' _ st') g t φ); [done..|]. intros t' φ1 Hne Hg'. destruct (H4 t' φ1 Hg') as [L1 L2 L3 L4 L5 L6].
    split; rewrite ?Hh; [|done|..|done|done].
    + rewrite events_of_app. simpl. rewrite decide_False by done. by rewrite app_nil_r.
    + by apply (effect_tls t q r m m' st).
    + apply (effect_pending t q r m m' tr st st'); try done. intros i Hi. by apply H2.
  - intros tr1 t' e tr2 [(-> & [= <- <-] & ->)|(tr2' & -> & ->)]%snoc_split; [by apply after_calls_all|by apply (H5 tr1 t' e tr2')].
  - intros u. specialize (H6 u). rewrite events_of_app, length_app. lia.
Qed.

(** The call that thread [t] makes next. *)
Definition next (t : nat) (φ : kphase) (q : request) : Prop :=
  (length (k_log φ) < k_calls φ)%nat /\ exists qs, requests !! t = Some qs /\ qs !! length (k_log φ) = Some q.

Definition effected (φ : kphase) (q : request) (r : Z) (p : pending) : kphase :=
  mk_kphase (k_log φ ++ [(q, r)]) (k_left φ - 1) (k_calls φ) (k_returned φ) p.

Lemma thread_ok_effected m m' tr tr' st st' t φ q r p :
  thread_ok m tr st t φ -> next t φ q -> history m' = history m ->
  events_of t tr' = events_of t tr ++ [(q, r)] -> tls_ok m' st' t p -> pending_ok m' tr' t p ->
  thread_ok m' tr' st' t (effected φ q r p).
Proof using Type.
  intros [H1 (qs & Hqs & Hpre & Hl) H3 H4 [H5 H5'] [H6 H6']] (Hc & qs' & Hqs' & Hq) Hh Htr Htls Hp. simplify_eq.
  split; simpl; rewrite ?Hh; [|..|done|done| |].
  - by rewrite Htr, H1.
  - exists qs. split; [done|]. rewrite fmap_app, length_app. simpl. split; [|lia].
    destruct Hpre as [k ->]. rewrite <-(length_fmap fst), lookup_app_r, Nat.sub_diag in Hq by lia.
    destruct k as [|q' k]; simplify_eq/=. exists k. by rewrite <-app_assoc.
  - rewrite length_app. simpl. split; [done|lia].
  - rewrite fmap_app, take_app_le, length_app by (rewrite length_fmap; lia). simpl. split; [done|lia].
Qed.

(** The number changes no more than the table allows. *)
Lemma next_left m tr st t φ q : thread_ok m tr st t φ -> next t φ q -> 1 <= k_left φ.
Proof using Type.
  intros H (_ & qs & Hqs & Hq). destruct (tk_prefix m tr st t φ H) as (qs' & Hqs' & _ & ->). simplify_eq.
  apply lookup_lt_Some in Hq. lia.
Qed.

Lemma seq_succ m g tr st t φ q i :
  kinv m g tr st -> g !! t = Some φ -> next t φ q -> (i < BIONIC_PTHREAD_KEY_COUNT)%nat ->
  wrapU 64 (word m (key_map_seq i) + 1) = word m (key_map_seq i) + 1.
Proof using Type.
  intros HI Hg Hn Hi. destruct (ki_seq m g tr st HI i Hi) as [_ Hb]. pose proof (ki_few m g tr st HI).
  pose proof (next_left m tr st t φ q (ki_threads m g tr st HI t φ Hg) Hn) as H1.
  assert (k_left φ <= total k_left g).
  { apply (total_lookup k_left g t); [|done]. intros t' φ' Hg'. destruct (tk_prefix _ _ _ _ _ (ki_threads m g tr st HI t' φ' Hg')) as (qs & _ & Hp & ->).
    apply prefix_length in Hp. rewrite length_fmap in Hp. lia. }
  apply wrapU_small. lia.
Qed.

(** The slot was deleted by another thread: the call took effect right after that. *)
Lemma kinv_insert m g tr st t φ key i s :
  kinv m g tr st -> g !! t = Some φ -> next t φ (KeyDelete key) -> slot_of key = Some i -> was_dead (history m) t i tr ->
  k_pending φ = Deleting i s -> KInv m (<[t:=effected φ (KeyDelete key) EINVAL Ready]> g).
Proof using Type.
  intros [H1 H2 H3 H4 H5 H6] Hg Hn Hi (tr1 & tr2 & st1 & -> & Htr2 & Hrun & Hd & Ha) Hp.
  assert (Hs : spec_step t (KeyDelete key) EINVAL st1 = Some st1) by (simpl; by rewrite Hi, Hd).
  pose proof (H4 t φ Hg) as Ht. exists (tr1 ++ (t, (KeyDelete key, EINVAL)) :: tr2), st. split.
  - by rewrite (spec_run_insert tr1 tr2 t _ _ st1).
  - intros j Hj. destruct (H2 j Hj). rewrite !length_app in *. simpl. split; [done|lia].
  - rewrite (total_insert _ _ _ _ _ Hg), !length_app in *. simpl. lia.
  - apply (insert_all (thread_ok m _ st) g t φ); [done| |].
    + apply (thread_ok_effected m m (tr1 ++ tr2) _ st); try done.
      * rewrite !events_of_app, Htr2. simpl. rewrite decide_True, Htr2 by done. by rewrite app_nil_r.
      * pose proof (tk_tls _ _ _ _ _ Ht) as Htls. by rewrite Hp in Htls.
    + intros t' φ1 Hne Hg'. destruct (H4 t' φ1 Hg') as [L1 L2 L3 L4 L5 L6]. split; try done.
      * rewrite <-L1, !events_of_app. simpl. by rewrite decide_False.
      * destruct (k_pending φ1); try done. destruct L4 as (? & ? & L4). split_and!; try done.
        destruct L4 as [?|L4]; [by left|right]. by apply (was_dead_insert _ _ _ _ _ _ _ _ st1).
  - by apply real_time_insert.
  - intros u. etrans; [apply H6|apply events_of_insert].
Qed.

(** * Steps of a thread *)

Lemma own_set m t l v : own t l ->
  history (set_word m l v) = history m /\ (forall i, word (set_word m l v) (key_map_seq i) = word m (key_map_seq i)) /\
  (forall t' l', t' <> t -> own t' l' -> word (set_word m l v) l' = word m l').
Proof using Type.
  intros Hl. split; [apply history_same, word_set_word_ne; by apply not_eq_sym, (own_not_history t)|].
  split; [intros i|intros t' l' Hne Hl']; apply word_set_word_ne.
  - destruct (own_not_shared t l i Hl). congruence.
  - intros ->. apply own_thread in Hl. by apply own_thread in Hl' as <-.
Qed.

Definition at_pending (φ : kphase) (p : pending) : kphase := mk_kphase (k_log φ) (k_left φ) (k_calls φ) (k_returned φ) p.

Lemma thread_ok_pending m m' tr st t φ p :
  thread_ok m tr st t φ -> history m' = history m ->
  tls_ok m' st t p -> pending_ok m' tr t p -> thread_ok m' tr st t (at_pending φ p).
Proof using Type.
  intros [H1 H2 H3 H4 H5 H6] Hh Htls Hp. by split; simpl; rewrite ?Hh.
Qed.

(** A store to a word of the thread, and a load. *)
Lemma wp_own_store l v t φ p (Q : unit -> kphase -> Prop) :
  own t l ->
  (forall m tr st, thread_ok m tr st t φ ->
     (forall i, (i < BIONIC_PTHREAD_KEY_COUNT)%nat -> live st i = Z.odd (word m (key_map_seq i))) ->
     tls_ok (set_word m l v) st t p /\ pending_ok (set_word m l v) tr t p) ->
  Q tt (at_pending φ p) -> wp KInv (atomic_store l v) t Q φ.
Proof using Type.
  intros Hl H HQ. apply (wp_store KInv). intros m g (tr & st & HI) Hg. exists (at_pending φ p). split; [|done].
  exists tr, st. destruct (own_set m t l v Hl) as (O0 & O1 & O2). pose proof (ki_threads m g tr st HI t φ Hg) as Ht.
  destruct (H m tr st Ht) as [H1 H2]; [intros i Hi; by apply (ki_seq m g tr st HI)|].
  apply (kinv_private m _ g tr st t φ); try done. by apply (thread_ok_pending m).
Qed.

Lemma wp_own_load l t φ (Q : Z -> kphase -> Prop) :
  (forall m tr st, thread_ok m tr st t φ ->
     exists p, tls_ok m st t p /\ pending_ok m tr t p /\ Q (word m l) (at_pending φ p)) ->
  wp KInv (atomic_load l) t Q φ.
Proof using Type.
  intros H. apply (wp_load KInv). intros m g (tr & st & HI) Hg. pose proof (ki_threads m g tr st HI t φ Hg) as Ht.
  destruct (H m tr st Ht) as (p & H1 & H2 & HQ). exists (at_pending φ p). split; [|done]. exists tr, st.
  apply (kinv_private m m g tr st t φ); try done. by apply (thread_ok_pending m).
Qed.

(** The number of a slot is read.  The call takes effect at that moment, or later. *)
Lemma kinv_read m g tr st t φ q r st' p :
  kinv m g tr st -> g !! t = Some φ -> next t φ q -> spec_step t q r st = Some st' ->
  (forall i, live st' i = live st i) -> (forall t' i, t' <> t -> value st' t' i = value st t' i) ->
  tls_ok m st' t p -> pending_ok m (tr ++ [(t, (q, r))]) t p ->
  KInv m (<[t:=effected φ q r p]> g).
Proof using Type.
  intros HI Hg Hn Hs Hl Hv Htls Hp. exists (tr ++ [(t, (q, r))]), st'.
  apply (kinv_append m m g tr st st' t φ); try done.
  - split; [done..|]. intros i Hi. left. split_and!; [done|apply Hl|]. intros t' Hne. by apply Hv.
  - apply (thread_ok_effected m m tr _ st); try done; [by apply (ki_threads m g tr st HI)|].
    rewrite events_of_app. simpl. by rewrite decide_True.
Qed.

(** What a call leaves behind: it has taken effect, or it can at any time. *)
Definition answered (t : nat) (φ : kphase) (q : request) (r : Z) (φ' : kphase) : Prop :=
  φ' = effected φ q r Ready \/ φ' = φ /\ forall st, spec_step t q r st = Some st.

Lemma tls_ok_ready m tr st t φ : thread_ok m tr st t φ -> k_pending φ = Ready -> tls_ok m st t Ready.
Proof using Type. intros H Hp. pose proof (tk_tls m tr st t φ H). by rewrite Hp in *. Qed.

(** The arrays of a thread. *)
Lemma set_data m t i v j :
  word (set_word m (key_data_data t i) v) (key_data_seq t j) = word m (key_data_seq t j) /\
  word (set_word m (key_data_data t i) v) (key_data_data t j) = (if decide (j = i) then v else word m (key_data_data t j)) /\
  word (set_word m (key_data_data t i) v) (key_map_seq j) = word m (key_map_seq j).
Proof using Type.
  split_and!; [apply word_set_word_ne; intros [=]| |apply word_set_word_ne; intros [=]].
  destruct (decide (j = i)) as [->|Hne]; [apply word_set_word_eq|apply word_set_word_ne].
  intros [= E]. by apply pretty_suffix_inj in E.
Qed.

Lemma set_seq m t i v j :
  word (set_word m (key_data_seq t i) v) (key_data_data t j) = word m (key_data_data t j) /\
  word (set_word m (key_data_seq t i) v) (key_data_seq t j) = (if decide (j = i) then v else word m (key_data_seq t j)) /\
  word (set_word m (key_data_seq t i) v) (key_map_seq j) = word m (key_map_seq j).
Proof using Type.
  split_and!; [apply word_set_word_ne; intros [=]| |apply word_set_word_ne; intros [=]].
  destruct (decide (j = i)) as [->|Hne]; [apply word_set_word_eq|apply word_set_word_ne].
  intros [= E]. by apply pretty_suffix_inj in E.
Qed.

(** * The calls *)

Lemma wp_clearing t φ q i s :
  wp KInv (atomic_store (key_data_data t i) 0 ;; Ret 0) t (answered t φ q) (effected φ q 0 (Clearing i s)).
Proof using Type.
  apply wp_bind, (wp_own_store _ _ _ _ Ready); [auto| |apply wp_ret; by left].
  intros m tr st Ht Hlive. split; [|done]. destruct (tk_pending _ _ _ _ _ Ht) as (Hi & Hle & Hlt).
  pose proof (tk_tls _ _ _ _ _ Ht) as Htls. intros j Hj. destruct (Htls j Hj) as [H1 H2]. cbn [tls fst snd k_pending effected] in *.
  destruct (set_data m t i 0 j) as (-> & -> & ->). split; [done|]. intros Hl. rewrite (H2 Hl).
  destruct (decide (j = i)) as [->|]; [|done]. destruct (Z.eqb_spec (word m (key_data_seq t i)) (word m (key_map_seq i))) as [E|]; [|done].
  rewrite (Hlive i Hi) in Hl. replace s with (word m (key_map_seq i)) in Hlt by lia. specialize (Hlt Hl). lia.
Qed.

Lemma wp_reading t φ q r i s : Z.odd s = true ->
  wp KInv
    (current <- (data_seq <- atomic_load (key_data_seq t i) ;; Ret (data_seq =? s)) ;;
     if current : bool then atomic_load (key_data_data t i) else atomic_store (key_data_data t i) 0 ;; Ret 0)
    t (answered t φ q) (effected φ q r (Reading i s r)).
Proof using Type.
  intros Hodd. apply wp_bind, wp_bind, wp_own_load. intros m tr st Ht.
  destruct (tk_pending _ _ _ _ _ Ht) as (Hi & Hle & Er). cbn [k_pending effected] in *.
  destruct (Z.eqb_spec (word m (key_data_seq t i)) s) as [E|E].
  - exists (Fetching i r). split_and!; [exact (tk_tls _ _ _ _ _ Ht)|done|]. apply wp_ret.
    apply wp_own_load. clear m tr st Ht Hle Er E. intros m tr st Ht. exists Ready.
    split_and!; [exact (tk_tls _ _ _ _ _ Ht)|done|]. left. cbn [at_pending effected k_log k_left k_calls k_returned].
    pose proof (tk_pending _ _ _ _ _ Ht) as Hp. simpl in Hp. by rewrite Hp.
  - exists (Clearing i s). split_and!; [exact (tk_tls _ _ _ _ _ Ht)|split_and!; [done|lia..]|]. apply wp_ret.
    subst r. exact (wp_clearing t φ q i s).
Qed.

Lemma wp_getspecific t φ key :
  - 2 ^ 31 <= key -> k_pending φ = Ready -> next t φ (GetSpecific key) ->
  wp KInv (pthread_getspecific t key) t (answered t φ (GetSpecific key)) φ.
Proof using Type.
  intros Hk Hp Hn. unfold pthread_getspecific. destruct (slot_of_valid key Hk) as [Hs Hv].
  destruct (KeyInValidRange key); cbn [negb]; [|apply wp_ret; right; split; [done|]; intros st; simpl; by rewrite Hs].
  specialize (Hv eq_refl). set (i := key_index key) in *. clearbody i. apply wp_bind, (wp_load KInv). intros m g (tr & st & HI) Hg.
  pose proof (ki_threads m g tr st HI t φ Hg) as Ht. pose proof (tls_ok_ready m tr st t φ Ht Hp) as Htls.
  destruct (ki_seq m g tr st HI i Hv) as [Hl _]. destruct (Htls i Hv) as [Hle Hval]. cbn [tls fst snd] in Hle, Hval.
  rewrite in_use_odd. destruct (Z.odd (word m (key_map_seq i))) eqn:Hodd; rewrite Hl in Hval.
  - eexists. split; [|by apply (wp_reading t φ (GetSpecific key) (value st t i))].
    apply (kinv_read m g tr st t φ _ _ st); try done; [|by split_and!; [..|apply Hval]].
    simpl. by rewrite Hs, Hl, Z.eqb_refl.
  - eexists. split; [|by apply wp_bind, wp_ret, (wp_clearing t φ (GetSpecific key) i (word m (key_map_seq i)))].
    apply (kinv_read m g tr st t φ _ _ st); try done.
    + simpl. by rewrite Hs, Hl.
    + split_and!; [done..|]. by rewrite Hodd.
Qed.

(** Storing the number and the value. *)
Lemma wp_writing t φ q i s v :
  wp KInv (atomic_store (key_data_seq t i) s ;; atomic_store (key_data_data t i) v ;; Ret 0) t (answered t φ q)
    (effected φ q 0 (Writing false i s v)).
Proof using Type.
  apply wp_bind, (wp_own_store _ _ _ _ (Writing true i s v)); [auto| |].
  { intros m tr st Ht _. destruct (tk_pending _ _ _ _ _ Ht) as (Hi & _). split; [|split; [done|intros _; apply word_set_word_eq]].
    intros j Hj. destruct (tk_tls _ _ _ _ _ Ht j Hj) as [H1 H2]. cbn [tls k_pending effected] in *.
    destruct (set_seq m t i s j) as (-> & -> & ->). by destruct (decide (j = i)). }
  apply wp_bind, (wp_own_store _ _ _ _ Ready); [auto| |apply wp_ret; by left].
  intros m tr st Ht _. destruct (tk_pending _ _ _ _ _ Ht) as (Hi & Hs). specialize (Hs eq_refl). split; [|done].
  intros j Hj. destruct (tk_tls _ _ _ _ _ Ht j Hj) as [H1 H2]. cbn [tls k_pending at_pending] in *.
  destruct (set_data m t i v j) as (-> & -> & ->). destruct (decide (j = i)) as [->|]; [|done]. by rewrite Hs.
Qed.

Lemma wp_setspecific t φ key ptr :
  - 2 ^ 31 <= key -> k_pending φ = Ready -> next t φ (SetSpecific key ptr) ->
  wp KInv (pthread_setspecific t key ptr) t (answered t φ (SetSpecific key ptr)) φ.
Proof using Type.
  intros Hk Hp Hn. unfold pthread_setspecific. destruct (slot_of_valid key Hk) as [Hs Hv].
  destruct (KeyInValidRange key); cbn [negb]; [|apply wp_ret; right; split; [done|]; intros st; simpl; by rewrite Hs].
  specialize (Hv eq_refl). set (i := key_index key) in *. clearbody i. apply wp_bind, (wp_load KInv). intros m g (tr & st & HI) Hg.
  pose proof (ki_threads m g tr st HI t φ Hg) as Ht. pose proof (tls_ok_ready m tr st t φ Ht Hp) as Htls.
  destruct (ki_seq m g tr st HI i Hv) as [Hl _]. rewrite in_use_odd.
  destruct (Z.odd (word m (key_map_seq i))) eqn:Hodd.
  - eexists. split; [|by apply (wp_writing t φ (SetSpecific key ptr))]. eapply (kinv_read m g tr st t φ); [done..|simpl; by rewrite Hs, Hl|done| | |done].
    + intros t' j Hne. simpl. by rewrite decide_False by tauto.
    + intros j Hj. destruct (Htls j Hj) as [H1 H2]. cbn [tls live value] in *. destruct (decide (j = i)) as [->|Hne].
      * rewrite decide_True by done. cbn [fst snd]. rewrite Z.eqb_refl. done.
      * rewrite decide_False by tauto. done.
  - exists (effected φ (SetSpecific key ptr) EINVAL Ready). split; [|apply wp_ret; by left].
    apply (kinv_read m g tr st t φ _ _ st); try done. simpl. by rewrite Hs, Hl.
Qed.

(** The number of a slot is incremented: a key is created or deleted. *)
Lemma kinv_bump m g tr st t φ q r st' i :
  kinv m g tr st -> g !! t = Some φ -> next t φ q -> (i < BIONIC_PTHREAD_KEY_COUNT)%nat -> tls_ok m st t Ready ->
  spec_step t q r st = Some st' ->
  (forall j, live st' j = if decide (j = i) then negb (live st i) else live st j) ->
  (forall t' j, j <> i -> value st' t' j = value st t' j) -> (live st' i = true -> forall t', value st' t' i = 0) ->
  KInv (set_word m (key_map_seq i) (wrapU 64 (word m (key_map_seq i) + SEQ_INCREMENT_STEP))) (<[t:=effected φ q r Ready]> g).
Proof using Type.
  intros HI Hg Hn Hi Htls Hs Hl Hv Hz. rewrite (seq_succ m g tr st t φ q i) by done.
  set (m' := set_word _ _ _). exists (tr ++ [(t, (q, r))]), st'.
  assert (Hh : history m' = history m) by (apply history_same, word_set_word_ne; intros [=]).
  assert (Ho : forall t' l, own t' l -> word m' l = word m l)
    by (intros t' l Hl'; apply word_set_word_ne; by destruct (own_not_shared t' l i Hl')).
  assert (Hseq : forall j, word m' (key_map_seq j) = if decide (j = i) then word m (key_map_seq i) + 1 else word m (key_map_seq j)).
  { intros j. destruct (decide (j = i)) as [->|Hne]; [apply word_set_word_eq|apply word_set_word_ne]. by intros [= ->]. }
  apply (kinv_append m m' g tr st st' t φ); [done..| |done|].
  - split; [done..|]. intros j Hj. rewrite Hseq, Hl. destruct (decide (j = i)) as [->|Hne]; [right|left; by auto].
    split_and!; [done..|]. intros H. apply Hz. by rewrite Hl, decide_True.
  - apply (thread_ok_effected m m' tr _ st); try done; [by apply (ki_threads m g tr st HI)| |].
    + rewrite events_of_app. simpl. by rewrite decide_True.
    + intros j Hj. destruct (Htls j Hj) as [H1 H2]. cbn [tls fst snd] in *. rewrite (Ho t (key_data_seq t j)), (Ho t (key_data_data t j)), Hseq by auto.
      destruct (decide (j = i)) as [->|Hne].
      * split; [lia|]. intros H. rewrite Hz by done. destruct (Z.eqb_spec (word m (key_data_seq t i)) (word m (key_map_seq i) + 1)); [lia|done].
      * rewrite Hl, Hv by done. by rewrite decide_False.
Qed.

Lemma wp_delete t φ key :
  - 2 ^ 31 <= key -> k_pending φ = Ready -> next t φ (KeyDelete key) ->
  wp KInv (pthread_key_delete key) t (answered t φ (KeyDelete key)) φ.
Proof using Type.
  intros Hk Hp Hn. unfold pthread_key_delete. destruct (slot_of_valid key Hk) as [Hs Hv].
  destruct (KeyInValidRange key); cbn [negb]; [|apply wp_ret; right; split; [done|]; intros st; simpl; by rewrite Hs].
  specialize (Hv eq_refl). set (i := key_index key) in *. clearbody i. apply wp_bind, (wp_load KInv). intros m g (tr & st & HI) Hg.
  pose proof (ki_threads m g tr st HI t φ Hg) as Ht. pose proof (tls_ok_ready m tr st t φ Ht Hp) as Htls.
  destruct (ki_seq m g tr st HI i Hv) as [Hl _]. rewrite in_use_odd. destruct (Z.odd (word m (key_map_seq i))) eqn:Hodd.
  - exists (at_pending φ (Deleting i (word m (key_map_seq i)))). split.
    { exists tr, st. apply (kinv_private m m g tr st t φ); try done. apply (thread_ok_pending m); try done.
      split_and!; [done..|by left]. }
    set (s := word m (key_map_seq i)) in *. clearbody s. clear m g tr st HI Hg Ht Htls Hl.
    apply wp_bind, wp_act. intros m g (tr & st & HI) Hg [ok seen] m' [E H']. simpl in E, H'. subst seen.
    pose proof (ki_threads m g tr st HI t _ Hg) as Ht. destruct (tk_pending _ _ _ _ _ Ht) as (_ & _ & Hd).
    destruct H' as [(-> & Hw & ->)|(-> & [Hw|?] & ->)]; [| |done].
    + exists (effected φ (KeyDelete key) 0 Ready). split; [|apply wp_ret; by left]. rewrite <-Hw.
      destruct (ki_seq m g tr st HI i Hv) as [Hl _]. rewrite Hw, Hodd in Hl.
      eapply (kinv_bump m g tr st t (at_pending φ (Deleting i s)) (KeyDelete key) 0);
        [done..|exact (tk_tls _ _ _ _ _ Ht)|simpl; by rewrite Hs, Hl| |done|]; simpl.
      * intros j. by rewrite Hl.
      * by rewrite decide_True.
    + exists (effected φ (KeyDelete key) EINVAL Ready). split; [|apply wp_ret; by left]. destruct Hd as [?|Hd]; [done|].
      by apply (kinv_insert m g tr st t (at_pending φ (Deleting i s)) key i s).
  - exists (effected φ (KeyDelete key) EINVAL Ready). split; [|apply wp_ret; by left].
    apply (kinv_read m g tr st t φ _ _ st); try done. simpl. by rewrite Hs, Hl.
Qed.

(** The stores of pthread_key_create once the slot [i] is taken. *)
Lemma wp_taken t φ q d i :
  (i < BIONIC_PTHREAD_KEY_COUNT)%nat ->
  wp KInv (atomic_store (key_map_destructor i) d ;;
           atomic_store (key_var t) (wrapS 32 (Z.lor (Z.of_nat i) KEY_VALID_FLAG)) ;; Ret (inr true : Z + bool)) t
    (fun r φ' => r = inr true /\ φ' = effected φ q (key_of i) (Created (key_of i))) (effected φ q (key_of i) Ready).
Proof using Type.
  intros Hi. rewrite key_of_slot by done. apply wp_bind, (wp_store KInv). intros m g (tr & st & HI) Hg.
  exists (effected φ q (key_of i) Ready). split.
  - exists tr, st. set (m' := set_word _ _ _).
    assert (Hs : forall j, word m' (key_map_seq j) = word m (key_map_seq j)) by (intros j; apply word_set_word_ne; intros [=]).
    assert (Hh : history m' = history m) by (apply history_same, word_set_word_ne; intros [=]).
    assert (Ho : forall t' l, own t' l -> word m' l = word m l)
      by (intros t' l Hl; apply word_set_word_ne; by destruct (own_not_shared t' l i Hl)).
    apply (kinv_private m m' g tr st t (effected φ q (key_of i) Ready)); try done; [eauto|].
    apply (thread_ok_ext m); eauto using ki_threads.
  - clear m g tr st HI Hg. apply wp_bind, (wp_own_store _ _ _ _ (Created (key_of i))); [auto| |by apply wp_ret].
    intros m tr st Ht _. split; [|apply word_set_word_eq]. intros j Hj. pose proof (tk_tls _ _ _ _ _ Ht j Hj) as H. cbn [tls] in *.
    by rewrite !word_set_word_ne by (intros [=]).
Qed.

Lemma wp_try_slot t φ d i s :
  (i < BIONIC_PTHREAD_KEY_COUNT)%nat -> k_pending φ = Ready -> next t φ (KeyCreate d) ->
  wp KInv (loop (fun seq : Z =>
      if SeqOfKeyInUse seq then Ret (inr false) else
      let2 ok, seen <- atomic_compare_exchange_weak (key_map_seq i) seq (wrapU 64 (seq + SEQ_INCREMENT_STEP)) ;;
      if negb ok then Ret (inl seen) else
      atomic_store (key_map_destructor i) d ;;
      atomic_store (key_var t) (wrapS 32 (Z.lor (Z.of_nat i) KEY_VALID_FLAG)) ;;
      Ret (inr true)) s) t
    (fun taken φ' => φ' = if taken : bool then effected φ (KeyCreate d) (key_of i) (Created (key_of i)) else φ) φ.
Proof using Type.
  intros Hi Hp Hn. apply (wp_loop KInv (fun _ φ' => φ' = φ)); [done|]. clear s. intros s φ0 ->. rewrite in_use_odd.
  destruct (Z.odd s) eqn:Hodd; [by apply wp_ret|]. apply wp_bind, wp_act.
  intros m g HI Hg [ok seen] m' [E H']. simpl in E, H'. subst seen. destruct H' as [(-> & Hw & ->)|(-> & _ & ->)]; cbn [negb].
  - exists (effected φ (KeyCreate d) (key_of i) Ready). destruct HI as (tr & st & HI). split.
    + destruct (ki_seq m g tr st HI i Hi) as [Hl _]. rewrite Hw, Hodd in Hl. rewrite <-Hw.
      eapply (kinv_bump m g tr st t φ (KeyCreate d) (key_of i)); [done..| | | | |].
      * by apply (tls_ok_ready m tr st t φ); [apply (ki_threads m g tr st HI)|].
      * simpl. rewrite slot_of_key by done. replace (key_of i =? EAGAIN) with false; [simpl; by rewrite Hl|].
        symmetry. apply Z.eqb_neq. unfold key_of, EAGAIN. lia.
      * intros j. simpl. by rewrite Hl.
      * intros t' j Hne. simpl. by rewrite decide_False.
      * intros _ t'. simpl. by rewrite decide_True.
    + eapply wp_mono; [|by apply wp_taken]. by intros r φ' [-> ->].
  - exists φ. rewrite (list_insert_id g t φ Hg). split; [done|by apply wp_ret].
Qed.

Lemma wp_create t φ d :
  k_pending φ = Ready -> next t φ (KeyCreate d) ->
  wp KInv (key_call t (KeyCreate d)) t (answered t φ (KeyCreate d)) φ.
Proof using Type.
  intros Hp Hn. apply wp_bind.
  apply (wp_mono KInv _ t (fun r φ' => r = EAGAIN /\ φ' = φ \/
    r = 0 /\ exists i, φ' = effected φ (KeyCreate d) (key_of i) (Created (key_of i)))).
  - intros r φ' [[-> ->]|(-> & i & ->)]; simpl; [apply wp_ret; by right|]. apply wp_own_load. intros m tr st Ht. exists Ready.
    split_and!; [exact (tk_tls _ _ _ _ _ Ht)|done|]. left. pose proof (tk_pending _ _ _ _ _ Ht) as Hk. simpl in Hk. by rewrite Hk.
  - apply (wp_loop KInv (fun _ φ' => φ' = φ)); [done|]. intros i φ0 ->.
    destruct (Nat.ltb_spec i BIONIC_PTHREAD_KEY_COUNT) as [Hi|]; cbn [negb]; [|apply wp_ret; by left].
    apply wp_bind, (wp_load KInv). intros m g HI Hg. exists φ. rewrite (list_insert_id g t φ Hg). split; [done|].
    apply wp_bind. eapply wp_mono; [|by apply wp_try_slot]. intros [] φ' ->; apply wp_ret; [right|]; by eauto.
Qed.

Lemma wp_key_call t φ q :
  int_key q -> k_pending φ = Ready -> next t φ q -> wp KInv (key_call t q) t (answered t φ q) φ.
Proof using Type.
  intros Hq Hp Hn. destruct q; simpl in Hq |- *;
    [by apply wp_create|apply wp_delete|apply wp_getspecific|apply wp_setspecific]; lia || done.
Qed.

(** * Clients *)

(** A call is made. *)
Lemma wp_invoke t φ :
  k_pending φ = Ready -> k_calls φ = length (k_log φ) ->
  wp KInv (act (Rmw key_history (note (t, None)))) t
    (fun _ φ' => φ' = mk_kphase (k_log φ) (k_left φ) (S (k_calls φ)) (k_returned φ) Ready) φ.
Proof using Type.
  intros Hp Hc. apply wp_act. intros m g (tr & st & HI) Hg x m' [-> ->]. eexists. split; [|done]. exists tr, st.
  pose proof (ki_threads m g tr st HI t φ Hg) as Ht. pose proof Ht as [H1 H2 H3 H4 [H5 H5'] [H6 H6']].
  apply (kinv_note m g tr st t None φ); [done|done|intros _; rewrite H1, H5; lia|by intros [? ?]|done|].
  rewrite Hp in H3. split; cbn [k_log k_left k_calls k_returned k_pending]; rewrite ?history_note; [done|done| |done| |].
  - intros i Hi. specialize (H3 i Hi). cbn [tls] in *. by rewrite !word_set_word_ne by (intros [=]).
  - rewrite calls_of_app, H5. simpl. rewrite decide_True by done. split; lia.
  - rewrite returns_of_app. simpl. by rewrite app_nil_r.
Qed.

(** It returns; if it has not taken effect, it does now. *)
Lemma wp_return t φ φ' q r :
  answered t φ q r φ' -> k_pending φ = Ready -> next t φ q -> k_returned φ = length (k_log φ) ->
  wp KInv (act (Rmw key_history (note (t, Some r)))) t
    (fun _ φ2 => φ2 = mk_kphase (k_log φ ++ [(q, r)]) (k_left φ - 1) (k_calls φ) (S (k_returned φ)) Ready) φ'.
Proof using Type.
  intros Ha Hp Hn Hr. apply wp_act. intros m g HI Hg x m' [-> ->]. eexists. split; [|done].
  assert (HI' : KInv m (<[t:=effected φ q r Ready]> g)).
  { destruct Ha as [->|[-> Hs]]; [by rewrite (list_insert_id g)|]. destruct HI as (tr & st & HI).
    apply (kinv_read m g tr st t φ q r st); try done. apply (tls_ok_ready m tr st t φ); [|done]. by apply (ki_threads m g tr st HI). }
  destruct HI' as (tr & st & HI'). exists tr, st. rewrite <-(list_insert_insert_eq g t _ (effected φ q r Ready)).
  assert (Hg' : <[t:=effected φ q r Ready]> g !! t = Some (effected φ q r Ready))
    by (apply list_lookup_insert_eq; by eapply lookup_lt_Some).
  destruct (ki_threads m _ tr st HI' t _ Hg') as [H1 H2 H3 _ [H5 H5'] [H6 H6']]. cbn [k_log k_left k_calls k_returned k_pending effected] in *.
  rewrite fmap_app, take_app_le, take_ge in H6 by (rewrite length_fmap; lia).
  apply (kinv_note m _ tr st t (Some r) _ _ HI' Hg'); [done| |done|].
  - intros _. rewrite H1, H6, length_fmap, length_app. simpl. lia.
  - split; cbn [k_log k_left k_calls k_returned k_pending]; rewrite ?history_note; [done|done| |done| |].
    + intros i Hi. specialize (H3 i Hi). cbn [tls] in *. by rewrite !word_set_word_ne by (intros [=]).
    + rewrite calls_of_app. simpl. rewrite decide_False by (by intros [_ ?]). by rewrite Nat.add_0_r.
    + rewrite returns_of_app, H6, fmap_app. simpl. rewrite decide_True by done. rewrite length_app. simpl. split; [|lia].
      rewrite take_ge; [done|]. rewrite length_app, length_fmap. simpl. lia.
Qed.

Lemma wp_key_client t all n φ :
  requests !! t = Some all -> (n <= length all)%nat -> length (k_log φ) = n -> k_calls φ = n -> k_returned φ = n -> k_pending φ = Ready ->
  k_left φ = Z.of_nat (length all) - Z.of_nat n ->
  wp KInv (key_client t (drop n all)) t (fun _ φ' => k_returned φ' = length (k_log φ') /\ k_left φ' = 0) φ.
Proof using Hkeys.
  intros Hall. remember (drop n all) as qs eqn:Eqs. revert n φ Eqs. induction qs as [|q qs IH]; intros n φ Eqs Hn Hlen Hcalls Hrec Hp Hleft; simpl.
  - apply wp_ret. apply (f_equal length) in Eqs. rewrite length_drop in Eqs. simpl in Eqs. split; lia.
  - assert (Hq : all !! n = Some q) by (rewrite <-(Nat.add_0_r n), <-lookup_drop, <-Eqs; done).
    apply wp_bind. eapply wp_mono; [|apply wp_invoke; [done|lia]]. intros _ φ0 ->. set (φ1 := mk_kphase _ _ _ _ _).
    assert (Hnext : next t φ1 q) by (split; [simpl; lia|]; exists all; simpl; by rewrite Hlen).
    apply wp_bind. eapply wp_mono; [|apply (wp_key_call t φ1 q); [|done..]].
    2: { apply (Hkeys all); [by eapply list_elem_of_lookup_2|by eapply list_elem_of_lookup_2]. }
    intros r φ' Ha. apply wp_bind. eapply wp_mono; [|apply (wp_return t φ1 φ' q r); [done|done|done|simpl; lia]].
    intros _ φ2 ->. apply (IH (S n)); simpl; try done; try lia.
    + by rewrite <-(skipn_skipn 1 n), <-Eqs.
    + by apply lookup_lt_Some in Hq.
    + rewrite length_app. simpl. lia.
Qed.

Definition key_threads : list (prog unit) := imap key_client requests.

(** No key exists. *)
Definition key_start (m : mem) : Prop :=
  forall i t, word m (key_map_seq i) = 0 /\ word m (key_data_seq t i) = 0 /\ word m key_history = 0.

Definition all_recorded (φ : kphase) : Prop := k_returned φ = length (k_log φ) /\ k_left φ = 0.

Lemma key_client_inv m c :
  key_start m -> reachable (key_threads, m) c ->
  exists g, KInv c.2 g /\ threads_ok KInv (fun _ φ _ => all_recorded φ) c.1 c.2 g.
Proof using Hkeys Hfew.
  intros Hm Hr. set (g0 := (fun qs => mk_kphase [] (Z.of_nat (length qs)) 0 0 Ready) <$> requests).
  assert (Hh : history m = []) by (unfold history; by destruct (Hm 0%nat 0%nat) as (_ & _ & ->)).
  apply (machine_inv KInv (fun _ φ _ => all_recorded φ) _ _ g0 Hr); simpl.
  - exists [], no_keys. split; rewrite ?Hh; [done| | | | |done].
    + intros i Hi. by destruct (Hm i 0%nat) as (-> & _).
    + replace (total k_left g0) with (total (fun qs : list request => Z.of_nat (length qs)) requests); [done|].
      subst g0. clear. induction requests as [|qs l IH]; simpl; [done|]. by rewrite IH.
    + intros t φ (qs & -> & Hqs)%list_lookup_fmap_Some. split; simpl; rewrite ?Hh; [done| | |done|done|done].
      * exists qs. split_and!; [done|apply prefix_nil|lia].
      * intros i Hi. cbn [tls fst snd]. by destruct (Hm i t) as (-> & -> & _).
    + intros tr1 t e tr2 E. by destruct tr1.
  - split; [unfold key_threads; by rewrite length_imap; subst g0; rewrite length_fmap|]. intros t p (qs & Hqs & ->)%list_lookup_imap_Some.
    eexists. split; [subst g0; by rewrite list_lookup_fmap, Hqs|]. apply (wp_key_client t qs 0); simpl; done || lia.
Qed.

End keys.

(** C5: thread-specific data is linearizable.  Any number of threads create and delete keys, store
    and fetch values, with any ints for keys, in any interleaving.  At every moment there is one
    sequence of calls that the specification allows, in which a creation makes a free slot a key and
    clears its value in all threads (or fails with EAGAIN, which it may at any time).  The sequence contains calls of each
    thread in their order, none that has not been made and all that have returned, with the results they returned.  It
    keeps real time: a call that had returned when another was made is before it.  A thread that has finished has
    made all its calls. *)
Theorem key_calls_linearizable {K : FutexKernel} requests m c :
  (forall qs q, qs ∈ requests -> q ∈ qs -> int_key q) ->
  total (fun qs => Z.of_nat (length qs)) requests < 2 ^ 64 -> key_start m ->
  reachable (key_threads requests, m) c ->
  exists tr st, spec_run no_keys tr = Some st /\ real_time (history c.2) tr /\
    forall t qs, requests !! t = Some qs ->
      (fst <$> events_of t tr) `prefix_of` qs /\
      (length (events_of t tr) <= calls_of t (history c.2))%nat /\
      returns_of t (history c.2) `prefix_of` (snd <$> events_of t tr) /\
      (c.1 !! t = Some (Ret tt) -> length (returns_of t (history c.2)) = length qs).
Proof.
  intros Hkeys Hfew Hm Hr. destruct (key_client_inv requests Hkeys Hfew m c Hm Hr) as (g & (tr & st & HI) & Hlen & Hok).
  pose proof (reachable_length _ _ Hr) as Hl. cbn [fst] in Hl. unfold key_threads in Hl. rewrite length_imap in Hl.
  exists tr, st. split; [by apply (ki_run _ _ _ _ _ HI)|]. split; [by apply (ki_order _ _ _ _ _ HI)|]. intros t qs Hqs.
  destruct (lookup_lt_is_Some_2 g t) as [φ Hg]; [rewrite Hlen, Hl; by eapply lookup_lt_Some|].
  destruct (ki_threads _ _ _ _ _ HI t φ Hg) as [H1 (qs' & Hqs' & Hp & Hleft) _ _ [H5 H5'] [H6 H6']]. simplify_eq. rewrite H1. split_and!; [done|lia| |].
  - rewrite H6. exists (drop (k_returned φ) (snd <$> k_log φ)). by rewrite take_drop.
  - intros Hret. destruct (Hok t _ Hret) as (φ' & Hg' & Hall). unfold wpe in Hall. simplify_eq. destruct Hall as [Ha Hb].
    rewrite H6, length_take, length_fmap. lia.
Qed.

(** Thread 0 makes a key, uses it, deletes it and makes another in the same slot, where the old
    value is not seen; thread 1 uses the key meanwhile and fails to delete it a second time. *)
Definition ex_key_requests : list (list request) :=
  [[KeyCreate 5; SetSpecific (key_of 0) 7; GetSpecific (key_of 0); KeyDelete (key_of 0); KeyCreate 0; GetSpecific (key_of 0)];
   [SetSpecific (key_of 0) 9; GetSpecific (key_of 0); KeyDelete (key_of 0); GetSpecific (key_of 0)]].

Definition ex_key_mem : mem := mk_mem (fun _ => 0) (fun _ _ => []) (fun _ => 0).

Definition ex_key_run : machine :=
  run_schedule (fun _ => mk_timespec 0 0)
    (map (fun t => (t, true))
       (repeat 0%nat 20 ++ repeat 1%nat 12 ++ repeat 0%nat 6 ++ repeat 1%nat 2 ++ repeat 0%nat 14 ++ repeat 1%nat 10))
    (key_threads ex_key_requests, ex_key_mem).

Lemma key_calls_linearizable_witness :
  exists tr st, spec_run no_keys tr = Some st /\ real_time (history ex_key_run.2) tr /\
    forall t qs, ex_key_requests !! t = Some qs ->
      (fst <$> events_of t tr) `prefix_of` qs /\
      (length (events_of t tr) <= calls_of t (history ex_key_run.2))%nat /\
      returns_of t (history ex_key_run.2) `prefix_of` (snd <$> events_of t tr) /\
      (ex_key_run.1 !! t = Some (Ret tt) -> length (returns_of t (history ex_key_run.2)) = length qs).
Proof.
  apply (key_calls_linearizable ex_key_requests ex_key_mem).
  - intros qs q Hqs Hq. assert (H : Forall (Forall int_key) ex_key_requests).
    { repeat constructor; vm_compute; discriminate. }
    rewrite Forall_forall in H. specialize (H qs Hqs). rewrite Forall_forall in H. by apply H.
  - vm_compute. reflexivity.
  - done.
  - exact (run_schedule_reachable _ _ _).
Defined.

Example ex_key_run_results :
  returns_of 0 (history ex_key_run.2) = [key_of 0; 0; 7; 0; key_of 0; 0] /\
  returns_of 1 (history ex_key_run.2) = [0; 9; EINVAL; 0].
Proof. vm_compute. split; reflexivity. Qed.

(** * A thread that runs alone *)

Section alone.
Context (clock : Z -> timespec) (choice : bool) (t : nat).
Abbreviation ends := (ends clock choice t).

Lemma ends_take_slot key d i m :
  (i < BIONIC_PTHREAD_KEY_COUNT)%nat -> (forall j, key <> key_map_seq j /\ key <> key_map_destructor j) ->
  Z.odd (word m (key_map_seq i)) = false ->
  ends (loop (fun seq : Z =>
      if SeqOfKeyInUse seq then Ret (inr false) else
      let2 ok, seen <- atomic_compare_exchange_weak (key_map_seq i) seq (wrapU 64 (seq + SEQ_INCREMENT_STEP)) ;;
      if negb ok then Ret (inl seen) else
      atomic_store (key_map_destructor i) d ;;
      atomic_store key (wrapS 32 (Z.lor (Z.of_nat i) KEY_VALID_FLAG)) ;;
      Ret (inr true)) (word m (key_map_seq i))) m
    (fun taken m' => taken = true /\ word m' key = key_of i /\ word m' (key_map_destructor i) = d /\
       word m' (key_map_seq i) = wrapU 64 (word m (key_map_seq i) + SEQ_INCREMENT_STEP) /\
       forall l, l <> key -> l <> key_map_destructor i -> l <> key_map_seq i -> word m' l = word m l).
Proof using Type.
  intros Hi Hkey Hodd. destruct (Hkey i) as [Hk1 Hk2].
  apply (ends_loop clock choice t _ (fun s m' => s = word m (key_map_seq i) /\ m' = m) (fun _ => 0%nat)); [done|].
  intros s m0 [-> ->]. rewrite in_use_odd, Hodd. eapply ends_bind, ends_act; [simpl; by rewrite Z.eqb_refl|]. cbn [negb].
  apply ends_bind, ends_store, ends_bind, ends_store, ends_ret. rewrite key_of_slot by done. split_and!; [done|..].
  - apply word_set_word_eq.
  - by rewrite word_set_word_ne, word_set_word_eq by congruence.
  - rewrite word_set_word_ne, word_set_word_ne, word_set_word_eq by (congruence || intros [=]). done.
  - intros l H1 H2 H3. by rewrite !word_set_word_ne.
Qed.

(** Pthread_key_create without concurrent calls takes the first slot that is not a key, counts its
    number up, stores the destructor and the key and returns 0; it returns EAGAIN, with no effect, exactly
    when all slots are keys. *)
Theorem key_create_alone key d m :
  (forall j, key <> key_map_seq j /\ key <> key_map_destructor j) ->
  ends (pthread_key_create key d) m (fun r m' =>
    (exists i, (i < BIONIC_PTHREAD_KEY_COUNT)%nat /\ (forall j, (j < i)%nat -> Z.odd (word m (key_map_seq j)) = true) /\
       Z.odd (word m (key_map_seq i)) = false /\ r = 0 /\ word m' key = key_of i /\ word m' (key_map_destructor i) = d /\
       word m' (key_map_seq i) = wrapU 64 (word m (key_map_seq i) + SEQ_INCREMENT_STEP) /\
       forall l, l <> key -> l <> key_map_destructor i -> l <> key_map_seq i -> word m' l = word m l) \/
    ((forall j, (j < BIONIC_PTHREAD_KEY_COUNT)%nat -> Z.odd (word m (key_map_seq j)) = true) /\ r = EAGAIN /\
       forall l, word m' l = word m l)).
Proof using Type.
  intros Hkey. apply (ends_loop clock choice t _ (fun i m' => (i <= BIONIC_PTHREAD_KEY_COUNT)%nat /\
    (forall j, (j < i)%nat -> Z.odd (word m (key_map_seq j)) = true) /\ forall l, word m' l = word m l)
    (fun i => BIONIC_PTHREAD_KEY_COUNT - i)%nat); [split_and!; [lia|lia|done]|].
  intros i m1 (Hi & Hused & Hm1). destruct (Nat.ltb_spec i BIONIC_PTHREAD_KEY_COUNT) as [Hlt|]; cbn [negb].
  2: { apply ends_ret. right. split_and!; [|done..]. intros j Hj. apply Hused. lia. }
  apply ends_bind, ends_load. set (m2 := set_word _ _ _).
  assert (Hm2 : forall l, word m2 l = word m l)
    by (intros l; rewrite <-Hm1; symmetry; apply (proj1 (mem_equiv_same_word m1 (key_map_seq i)))).
  replace (word m1 (key_map_seq i)) with (word m2 (key_map_seq i)) by (by rewrite Hm1, Hm2).
  apply ends_bind. destruct (Z.odd (word m (key_map_seq i))) eqn:Hodd.
  - apply (ends_loop clock choice t _ (fun s m' => s = word m2 (key_map_seq i) /\ m' = m2) (fun _ => 0%nat)); [done|].
    intros s m0 [-> ->]. rewrite in_use_odd, Hm2, Hodd. apply ends_ret, ends_ret. split_and!; [lia| |done|lia].
    intros j Hj. destruct (decide (j = i)) as [->|]; [done|]. apply Hused. lia.
  - eapply ends_mono; [|apply (ends_take_slot key d i m2); [done..|by rewrite Hm2]]. cbv beta.
    intros taken m' (-> & H1 & H2 & H3 & H4). apply ends_ret. left. exists i. rewrite Hm2 in H3. split_and!; try done.
    intros l L1 L2 L3. by rewrite H4, Hm2.
Qed.

(** ** Destructors at the end of a thread *)

(** The words of the keys that the end of the thread looks at. *)
Inductive key_word : loc -> Prop :=
| key_word_seq i : key_word (key_map_seq i)
| key_word_destructor i : key_word (key_map_destructor i)
| key_word_data_seq i : key_word (key_data_seq t i)
| key_word_data i : key_word (key_data_data t i).
#[local] Hint Constructors key_word : core.

(** What the thread can see of a slot: whether it is a key, its destructor, and the value that pthread_getspecific would return. *)
Record slot := mk_slot { slot_live : bool; slot_destructor : Z; slot_value : Z }.

Definition slot_at (m : mem) (i : nat) : slot :=
  let seq := word m (key_map_seq i) in
  mk_slot (Z.odd seq) (word m (key_map_destructor i))
    (if Z.odd seq && (word m (key_data_seq t i) =? seq) then word m (key_data_data t i) else 0).

Definition slots (m : mem) : list slot := slot_at m <$> seq 0 BIONIC_PTHREAD_KEY_COUNT.

(** Destructors return.  They may do anything, to the keys too: [eff] is what a call does to the slots and to whatever else
    of the memory is observed, by [obs]. *)
Context {X : Type} (call : Z -> Z -> prog unit) (obs : mem -> X) (eff : Z -> Z -> list slot * X -> list slot * X).

Definition view_of (m : mem) : list slot * X := (slots m, obs m).

Context (Hcall : forall d v m, ends (call d v) m (fun _ m' => view_of m' = eff d v (view_of m)))
  (Hobs : forall m l v, key_word l -> obs (set_word m l v) = obs m).

(** *** The specification, in which the order of the slots is one that POSIX allows *)

(** The value of a key that has a destructor is cleared, and then the destructor is called with it. *)
Definition clean_slot (st : list slot * X) (i : nat) : (list slot * X) * bool :=
  match st.1 !! i with
  | Some (mk_slot live d v) =>
      if live && negb (v =? 0) && negb (d =? 0) then (eff d v (<[i := mk_slot live d 0]> st.1, st.2), true) else (st, false)
  | None => (st, false)
  end.

(** All slots from [i] on, in their order, and how many destructors were called. *)
Fixpoint clean_slots (n i : nat) (st : list slot * X) : (list slot * X) * nat :=
  match n with
  | O => (st, O)
  | S n =>
      let '(st1, called) := clean_slot st i in
      let '(st2, count) := clean_slots n (S i) st1 in
      (st2, (if called then 1 else 0) + count)%nat
  end.

(** Again as long as one was called, but no more than [rounds] times. *)
Fixpoint clean_rounds (rounds : nat) (st : list slot * X) : list slot * X :=
  match rounds with
  | O => st
  | S rounds =>
      let '(st1, count) := clean_slots BIONIC_PTHREAD_KEY_COUNT 0 st in
      if (count =? 0)%nat then st1 else clean_rounds rounds st1
  end.

(** *** The code does it *)

Definition same (m m1 : mem) : Prop := (forall l, word m1 l = word m l) /\ obs m1 = obs m.

Lemma ends_key_load l m (P : Z -> mem -> Prop) :
  key_word l -> (forall m1, same m m1 -> P (word m l) m1) -> ends (atomic_load l) m P.
Proof using Hobs.
  intros Hl H. apply ends_load, H. split; [|by apply Hobs]. intros l'. symmetry. apply (proj1 (mem_equiv_same_word m l)).
Qed.

Lemma same_trans m m1 m2 : same m m1 -> same m1 m2 -> same m m2.
Proof using Type. intros [H1 H2] [H3 H4]. split; [intros l; by rewrite H3|congruence]. Qed.

Lemma slot_at_same m m1 i : same m m1 -> slot_at m1 i = slot_at m i.
Proof using Type. intros [Hw _]. unfold slot_at. by rewrite !Hw. Qed.

Lemma slots_lookup m i : (i < BIONIC_PTHREAD_KEY_COUNT)%nat -> slots m !! i = Some (slot_at m i).
Proof using Type. intros Hi. unfold slots. by rewrite list_lookup_fmap, lookup_seq_lt. Qed.

(** A change of one slot. *)
Lemma slots_insert m m1 i x : (i < BIONIC_PTHREAD_KEY_COUNT)%nat -> slot_at m1 i = x -> (forall j, j <> i -> slot_at m1 j = slot_at m j) ->
  slots m1 = <[i := x]> (slots m).
Proof using Type.
  intros Hi Hx Hj. apply list_eq. intros j. destruct (decide (j < BIONIC_PTHREAD_KEY_COUNT)%nat) as [Hlt|Hge].
  - rewrite slots_lookup by done. destruct (decide (j = i)) as [->|Hne].
    + rewrite list_lookup_insert_eq; [by rewrite Hx|]. unfold slots. by rewrite length_fmap, length_seq.
    + rewrite list_lookup_insert_ne, slots_lookup by done. by rewrite Hj.
  - rewrite !lookup_ge_None_2; [done|rewrite length_insert|]; unfold slots; rewrite length_fmap, length_seq; lia.
Qed.

Lemma view_same m m1 : same m m1 -> view_of m1 = view_of m.
Proof using Type.
  intros Hs. unfold view_of. f_equal; [|apply Hs]. apply list_fmap_ext. intros i j _. by apply slot_at_same.
Qed.

(** The value of a slot is cleared. *)
Lemma view_clear m i : (i < BIONIC_PTHREAD_KEY_COUNT)%nat ->
  view_of (set_word m (key_data_data t i) 0) =
    (<[i := mk_slot (Z.odd (word m (key_map_seq i))) (word m (key_map_destructor i)) 0]> (slots m), obs m).
Proof using Hobs.
  intros Hi. unfold view_of. f_equal; [|apply Hobs; auto].
  assert (forall j, word (set_word m (key_data_data t i) 0) (key_map_destructor j) = word m (key_map_destructor j))
    as Hd by (intros j; apply word_set_word_ne; intros [=]).
  apply slots_insert; [done| |intros j Hne]; unfold slot_at; rewrite Hd.
  - destruct (set_data m t i 0 i) as (-> & -> & ->). rewrite decide_True by done. by destruct (_ && _).
  - destruct (set_data m t i 0 j) as (-> & -> & ->). by rewrite decide_False.
Qed.

Lemma ends_clean_key m i : (i < BIONIC_PTHREAD_KEY_COUNT)%nat ->
  ends (clean_key call t i) m (fun called m' => (view_of m', called) = clean_slot (view_of m) i).
Proof using Hobs Hcall.
  intros Hi. unfold clean_slot. cbn [view_of fst snd]. rewrite slots_lookup by done. unfold slot_at.
  assert (Hskip : forall m', same m m' -> ends (Ret false) m' (fun called m' => (view_of m', called) = (view_of m, false)))
    by (intros m' Hs; apply ends_ret; by rewrite (view_same m)).
  apply ends_bind, ends_key_load; [auto|]. intros m2 S2. rewrite in_use_odd.
  destruct (Z.odd (word m (key_map_seq i))) eqn:E1; cbn [negb andb]; [|by apply Hskip].
  apply ends_bind, ends_key_load; [auto|]. intros m3 S3. rewrite (proj1 S2). apply (same_trans _ _ _ S2) in S3. rewrite Z.eqb_sym.
  destruct (word m (key_data_seq t i) =? word m (key_map_seq i)) eqn:E2; cbn [negb]; [|by apply Hskip].
  apply ends_bind, ends_key_load; [auto|]. intros m4 S4. rewrite (proj1 S3). apply (same_trans _ _ _ S3) in S4.
  destruct (word m (key_data_data t i) =? 0) eqn:E3; cbn [negb andb]; [by apply Hskip|].
  apply ends_bind, ends_key_load; [auto|]. intros m5 S5. rewrite (proj1 S4). apply (same_trans _ _ _ S4) in S5.
  destruct (word m (key_map_destructor i) =? 0) eqn:E4; cbn [negb]; [by apply Hskip|].
  apply ends_bind, ends_key_load; [auto|]. intros m6 S6. rewrite (proj1 S5), Z.eqb_refl. apply (same_trans _ _ _ S5) in S6. cbn [negb].
  apply ends_bind, ends_key_load; [auto|]. intros m7 S7. rewrite (proj1 S6). apply (same_trans _ _ _ S6) in S7.
  apply ends_bind, ends_store, ends_bind. eapply ends_mono; [|apply Hcall]. cbv beta. intros [] m8 Hm8. apply ends_ret. rewrite Hm8.
  rewrite view_clear by done. pose proof (view_same m m7 S7) as Hv.
  assert (slots m7 = slots m) as -> by exact (f_equal fst Hv). by rewrite (proj2 S7), !(proj1 S7), E1.
Qed.

Lemma ends_clean_round m :
  ends (clean_round call t) m (fun c m' => exists n, c = Z.of_nat n /\ (view_of m', n) = clean_slots BIONIC_PTHREAD_KEY_COUNT 0 (view_of m)).
Proof using Hobs Hcall.
  remember (clean_slots BIONIC_PTHREAD_KEY_COUNT 0 (view_of m)) as final eqn:Ef.
  apply (ends_loop clock choice t _ (fun s m' => (s.1 <= BIONIC_PTHREAD_KEY_COUNT)%nat /\ 0 <= s.2 <= Z.of_nat s.1 /\
    (clean_slots (BIONIC_PTHREAD_KEY_COUNT - s.1) s.1 (view_of m')).1 = final.1 /\
    s.2 + Z.of_nat (clean_slots (BIONIC_PTHREAD_KEY_COUNT - s.1) s.1 (view_of m')).2 = Z.of_nat final.2)
    (fun s => BIONIC_PTHREAD_KEY_COUNT - s.1)%nat); [cbn [fst snd]; rewrite Ef; split_and!; [lia..|done|done]|].
  clear Ef. intros [i c] m1 (Hi & Hc & H1 & H2). cbn [fst snd] in *. destruct (Nat.ltb_spec i BIONIC_PTHREAD_KEY_COUNT) as [Hlt|].
  - apply ends_bind. eapply ends_mono; [|by apply (ends_clean_key m1)]. cbv beta. intros called m' Hm'. apply ends_ret. cbn [fst snd].
    replace (BIONIC_PTHREAD_KEY_COUNT - i)%nat with (S (BIONIC_PTHREAD_KEY_COUNT - S i)) in H1, H2 by lia. cbn [clean_slots] in H1, H2.
    rewrite <-Hm' in H1, H2. destruct (clean_slots (BIONIC_PTHREAD_KEY_COUNT - S i) (S i) (view_of m')) as [st n]. cbn [fst snd] in *.
    rewrite wrapU_small by (destruct called; simpl; lia). destruct called; simpl b2z; split_and!; done || lia.
  - apply ends_ret. replace i with BIONIC_PTHREAD_KEY_COUNT in * by lia. rewrite Nat.sub_diag in *. cbn [clean_slots fst snd] in *.
    exists (Z.to_nat c). split; [lia|]. rewrite H1, (surjective_pairing final). cbn [fst snd]. f_equal. lia.
Qed.


(** A store under a key of the thread, as a destructor may do. *)
Lemma ends_setspecific m i v : (i < BIONIC_PTHREAD_KEY_COUNT)%nat ->
  ends (pthread_setspecific t (key_of i) v) m (fun _ m' =>
    view_of m' = (if Z.odd (word m (key_map_seq i)) then <[i := mk_slot true (word m (key_map_destructor i)) v]> (slots m) else slots m, obs m)).
Proof using Hobs.
  intros Hi. unfold pthread_setspecific. destruct (slot_of_valid (key_of i)) as [Hs Hv]; [unfold key_of; lia|]. rewrite slot_of_key in Hs by done.
  destruct (KeyInValidRange (key_of i)); [|done]. injection Hs as <-. cbn [negb].
  apply ends_bind, ends_key_load; [auto|]. intros m1 S1. rewrite in_use_odd. destruct (Z.odd (word m (key_map_seq i))) eqn:E.
  2: { apply ends_ret. by apply view_same. }
  apply ends_bind, ends_store, ends_bind, ends_store, ends_ret. set (m2 := set_word m1 _ _). unfold view_of. f_equal.
  - assert (Hd : forall l m0 k x, l = key_data_seq t k \/ l = key_data_data t k -> forall j, word (set_word m0 l x) (key_map_destructor j) = word m0 (key_map_destructor j))
      by (intros l m0 k x [-> | ->] j; apply word_set_word_ne; intros [=]).
    apply slots_insert; [done| |intros j Hne]; unfold slot_at; rewrite (Hd _ _ i) by auto; subst m2; rewrite (Hd _ _ i) by auto.
    + destruct (set_data (set_word m1 (key_data_seq t i) (word m (key_map_seq i))) t i v i) as (-> & -> & ->).
      destruct (set_seq m1 t i (word m (key_map_seq i)) i) as (_ & -> & ->). rewrite !decide_True by done.
      rewrite !(proj1 S1), E, Z.eqb_refl. done.
    + destruct (set_data (set_word m1 (key_data_seq t i) (word m (key_map_seq i))) t i v j) as (-> & -> & ->).
      destruct (set_seq m1 t i (word m (key_map_seq i)) j) as (-> & -> & ->). rewrite !decide_False by done. by rewrite !(proj1 S1).
  - subst m2. rewrite !Hobs by auto. apply S1.
Qed.

End alone.

Lemma key_create_alone_witness :
  ends (fun _ => mk_timespec 0 0) true 0 (pthread_key_create (key_var 0) 5) ex_key_mem (fun r m' =>
    (exists i, (i < BIONIC_PTHREAD_KEY_COUNT)%nat /\ (forall j, (j < i)%nat -> Z.odd (word ex_key_mem (key_map_seq j)) = true) /\
       Z.odd (word ex_key_mem (key_map_seq i)) = false /\ r = 0 /\ word m' (key_var 0) = key_of i /\ word m' (key_map_destructor i) = 5 /\
       word m' (key_map_seq i) = wrapU 64 (word ex_key_mem (key_map_seq i) + SEQ_INCREMENT_STEP) /\
       forall l, l <> key_var 0 -> l <> key_map_destructor i -> l <> key_map_seq i -> word m' l = word ex_key_mem l) \/
    ((forall j, (j < BIONIC_PTHREAD_KEY_COUNT)%nat -> Z.odd (word ex_key_mem (key_map_seq j)) = true) /\ r = EAGAIN /\
       forall l, word m' l = word ex_key_mem l)).
Proof. apply (key_create_alone (fun _ => mk_timespec 0 0) true 0 (key_var 0) 5 ex_key_mem). intros j. split; intros [=]. Defined.

(** A destructor that writes its call down in one word, and stores a new value under the key in slot 3. *)
Definition ex_calls (x : Z) : list (Z * Z) := default [] (decode (Z.to_pos x)).
Definition ex_log : loc := (0%nat, "log").
Definition ex_destructor (d v : Z) : prog unit :=
  act (Rmw ex_log (fun x => Z.pos (encode (ex_calls x ++ [(d, v)])))) ;;
  pthread_setspecific 0 (key_of 3) (v + 1) ;;
  Ret tt.

Definition ex_eff (d v : Z) (st : list slot * list (Z * Z)) : list slot * list (Z * Z) :=
  (match st.1 !! 3%nat with
   | Some (mk_slot true d' _) => <[3%nat := mk_slot true d' (v + 1)]> st.1
   | _ => st.1
   end, st.2 ++ [(d, v)]).

(** Thread 0 has a value for a key with a destructor in slot 3. *)
Definition ex_exit_mem : mem :=
  set_word (set_word (set_word (set_word ex_key_mem (key_map_seq 3) 1) (key_map_destructor 3) 5) (key_data_seq 0 3) 1)
    (key_data_data 0 3) 7.

Definition ex_obs (m : mem) : list (Z * Z) := ex_calls (word m ex_log).

