(* ===== verification/NsName.v ===== *)
(** Domain names in DNS messages: libc/dns/nameser/ns_name.c, the wire format.

    A name is a sequence of labels, each with its length in front, and ends with a label of length
    0.  In a message the rest of a name can be a pointer to an earlier place.  [ns_name_unpack2]
    follows the pointers, [ns_name_pack] writes a name and looks for places it can point to.

    A buffer is a list of bytes; a read or a write outside it is a [Fault].  A call that fails
    gives its errno value on the left. *)

From S2P Require Import Prelude Result.

(** * Definitions *)

Abbreviation EMSGSIZE := 90.
Abbreviation NS_CMPRSFLGS := 0xc0.
Abbreviation NS_TYPE_ELT := 0x40.
Abbreviation DNS_LABELTYPE_BITSTRING := 0x41.
Abbreviation NS_MAXCDNAME := 255%nat.

(** The source and the target of memcpy. *)
Definition bytes_at (buf : list Z) (p n : nat) : result (list Z) :=
  if (p + n <=? length buf)%nat then Ok (take n (drop p buf)) else Fault.

Definition write_at (buf : list Z) (p : nat) (bs : list Z) : result (list Z) :=
  if (p + length bs <=? length buf)%nat then Ok (take p buf ++ bs ++ drop (p + length bs) buf) else Fault.

(** Bytes added to what has been written to an array of [dstsiz] bytes. *)
Definition emit (dstsiz : nat) (out bs : list Z) : result (list Z) :=
  if (length out + length bs <=? dstsiz)%nat then Ok (out ++ bs) else Fault.

(** The number of bytes behind the length byte at [lp]; [None] is -1. *)
Definition labellen (buf : list Z) (lp : nat) : result (option nat) :=
  l <-- at_ buf lp ;;
  if Z.land l NS_CMPRSFLGS =? NS_CMPRSFLGS then Ok None else
  if Z.land l NS_CMPRSFLGS =? NS_TYPE_ELT then
    if l =? DNS_LABELTYPE_BITSTRING then
      bitlen <-- at_ buf (lp + 1) ;;
      let bitlen := if bitlen =? 0 then 256 else bitlen in
      Ok (Some (Z.to_nat ((bitlen + 7) / 8 + 1)))
    else Ok None
  else Ok (Some (Z.to_nat l)).

(** The offset in a compression pointer. *)
Definition pointer_offset (n b : Z) : nat := Z.to_nat (Z.lor (Z.shiftl (Z.land n 0x3f) 8) (Z.land b 0xff)).

(** ** Unpacking *)

(** The loop of ns_name_unpack2.  [msg] holds the bytes from [msg] to [eom]; [len] is [None] while
    the code has -1. *)
Fixpoint unpack_loop (fuel : nat) (msg : list Z) (src dstsiz srcp : nat) (len : option nat) (checked : nat)
    (out : list Z) : result (Z + nat * list Z) :=
  match fuel with
  | O => Fault
  | S fuel =>
      n <-- at_ msg srcp ;;
      let srcp := S srcp in
      if n =? 0 then
        out <-- emit dstsiz out [0] ;;
        Ok (inr (match len with Some len => len | None => srcp - src end, out))%nat
      else if (Z.land n NS_CMPRSFLGS =? 0) || (Z.land n NS_CMPRSFLGS =? NS_TYPE_ELT) then
        l <-- labellen msg (srcp - 1) ;;
        match l with
        | None => Ok (inl EMSGSIZE)
        | Some l =>
            if (dstsiz <=? length out + l + 1)%nat || (length msg <=? srcp + l)%nat then Ok (inl EMSGSIZE) else
            bs <-- bytes_at msg srcp l ;;
            out <-- emit dstsiz out (n :: bs) ;;
            unpack_loop fuel msg src dstsiz (srcp + l) len (checked + l + 1) out
        end
      else if Z.land n NS_CMPRSFLGS =? NS_CMPRSFLGS then
        if (length msg <=? srcp)%nat then Ok (inl EMSGSIZE) else
        let len := match len with Some len => Some len | None => Some (srcp - src + 1)%nat end in
        b <-- at_ msg srcp ;;
        let l := pointer_offset n b in
        if (length msg <=? l)%nat then Ok (inl EMSGSIZE) else
        let checked := (checked + 2)%nat in
        if (length msg <=? checked)%nat then Ok (inl EMSGSIZE) else
        unpack_loop fuel msg src dstsiz l len checked out
      else Ok (inl EMSGSIZE)
  end.

(** The number of bytes the name takes in the message, and the name without pointers. *)
Definition ns_name_unpack2 (msg : list Z) (src : Z) (dstsiz : nat) : result (Z + nat * list Z) :=
  if (src <? 0) || (Z.of_nat (length msg) <=? src) then Ok (inl EMSGSIZE) else
  unpack_loop (dstsiz + length msg + 2) msg (Z.to_nat src) dstsiz (Z.to_nat src) None 0 [].

(** ** Skipping *)

Fixpoint skip_loop (fuel : nat) (msg : list Z) (cp : nat) (l : nat) : result (Z + nat) :=
  match fuel with
  | O => Fault
  | S fuel =>
      let ending cp := if (length msg <? cp)%nat then Ok (inl EMSGSIZE) else Ok (inr cp) in
      if negb (cp <? length msg)%nat then ending cp else
      n <-- at_ msg cp ;;
      let cp := S cp in
      if n =? 0 then ending cp else
      if Z.land n NS_CMPRSFLGS =? 0 then skip_loop fuel msg (cp + Z.to_nat n) l else
      if Z.land n NS_CMPRSFLGS =? NS_TYPE_ELT then
        l <-- (if (cp <? length msg)%nat then labellen msg (cp - 1) else Ok (Some l)) ;;
        match l with
        | None => Ok (inl EMSGSIZE)
        | Some l => skip_loop fuel msg (cp + l) l
        end
      else if Z.land n NS_CMPRSFLGS =? NS_CMPRSFLGS then ending (S cp)
      else Ok (inl EMSGSIZE)
  end.

(** [*ptrptr] afterwards.  The variable [l] keeps its last value when a label type is the last byte. *)
Definition ns_name_skip (msg : list Z) (ptrptr : nat) : result (Z + nat) := skip_loop (length msg + 2) msg ptrptr 0.

(** ** Packing *)

Definition mklower (ch : Z) : Z := if (0x41 <=? ch) && (ch <=? 0x5a) then ch + 0x20 else ch.

(** The comparison of [n] bytes of [domain] at [dn] and of [buf] at [cp]. *)
Fixpoint same_bytes (domain buf : list Z) (dn cp n : nat) : result bool :=
  match n with
  | O => Ok true
  | S n =>
      d <-- at_ domain dn ;;
      c <-- at_ buf cp ;;
      if mklower d =? mklower c then same_bytes domain buf (S dn) (S cp) n else Ok false
  end.

Inductive comparison_result := Found | Next | Illegal.

(** The loop of dn_find that compares the rest of [domain] at [dn] with the name at [cp]. *)
Fixpoint compare_names (fuel : nat) (domain buf : list Z) (dn cp : nat) : result comparison_result :=
  match fuel with
  | O => Fault
  | S fuel =>
      n <-- at_ buf cp ;;
      let cp := S cp in
      if n =? 0 then Ok Next else
      if Z.land n NS_CMPRSFLGS =? 0 then
        l <-- labellen buf (cp - 1) ;;
        d <-- at_ domain dn ;;
        match l with
        | None => Ok Next
        | Some l =>
            if negb (Z.of_nat l =? d) then Ok Next else
            same <-- same_bytes domain buf (S dn) cp l ;;
            if negb same then Ok Next else
            let dn := (S dn + l)%nat in
            let cp := (cp + l)%nat in
            d <-- at_ domain dn ;;
            if d =? 0 then
              c <-- at_ buf cp ;;
              Ok (if c =? 0 then Found else Next)
            else compare_names fuel domain buf dn cp
        end
      else if Z.land n NS_CMPRSFLGS =? NS_CMPRSFLGS then
        b <-- at_ buf cp ;;
        compare_names fuel domain buf dn (pointer_offset n b)
      else Ok Illegal
  end.

(** The loop over the labels of the name at [sp]: where it matches, or whether the search ends. *)
Fixpoint find_in_name (fuel : nat) (domain buf : list Z) (dn sp : nat) : result (comparison_result * nat) :=
  match fuel with
  | O => Fault
  | S fuel =>
      b <-- at_ buf sp ;;
      if negb (b =? 0) && (Z.land b NS_CMPRSFLGS =? 0) && (Z.of_nat sp <? 0x4000) then
        r <-- compare_names (2 * length domain + 2) domain buf dn sp ;;
        match r with
        | Next => find_in_name fuel domain buf dn (sp + Z.to_nat b + 1)
        | _ => Ok (r, sp)
        end
      else Ok (Next, sp)
  end.

(** The offset of an earlier occurrence of the name at [dn] in [domain]; [None] is -1. *)
Fixpoint dn_find (domain buf : list Z) (dn : nat) (dnptrs : list nat) : result (option nat) :=
  match dnptrs with
  | [] => Ok None
  | sp :: dnptrs =>
      r <-- find_in_name (length buf + 1) domain buf dn sp ;;
      match r with
      | (Found, sp) => Ok (Some sp)
      | (Next, _) => dn_find domain buf dn dnptrs
      | (Illegal, _) => Ok None
      end
  end.

(** The first loop of ns_name_pack: is the name legal? *)
Fixpoint check_name (fuel : nat) (src : list Z) (srcp l : nat) : result (option Z) :=
  match fuel with
  | O => Fault
  | S fuel =>
      n <-- at_ src srcp ;;
      if Z.land n NS_CMPRSFLGS =? NS_CMPRSFLGS then Ok (Some EMSGSIZE) else
      l0 <-- labellen src srcp ;;
      match l0 with
      | None => Ok (Some EINVAL)
      | Some l0 =>
          let l := (l + l0 + 1)%nat in
          if (NS_MAXCDNAME <? l)%nat then Ok (Some EMSGSIZE) else
          if n =? 0 then Ok None else check_name fuel src (srcp + l0 + 1) l
      end
  end.

(** The second loop: [dnptrs] is [None] if there is no message, otherwise the places of earlier
    names; [room] is [cpp < lastdnptr - 1]; [saved] is the place that has been added to the list.
    The result on success is the place behind the name; [None] is the way to cleanup. *)
Fixpoint pack_loop (fuel : nat) (src : list Z) (dnptrs : option (list nat)) (room : bool) (eob srcp dstp : nat)
    (buf : list Z) (saved : option nat) : result (option nat * list Z * option nat) :=
  match fuel with
  | O => Fault
  | S fuel =>
      n <-- at_ src srcp ;;
      found <-- match dnptrs with
                | Some ptrs => if negb (n =? 0) then dn_find src buf srcp ptrs else Ok None
                | None => Ok None
                end ;;
      match found with
      | Some l =>
          if (eob <=? dstp + 1)%nat then Ok (None, buf, saved) else
          buf <-- write_at buf dstp [Z.lor (Z.shiftr (Z.of_nat l) 8) NS_CMPRSFLGS; Z.of_nat l mod 256] ;;
          Ok (Some (dstp + 2)%nat, buf, saved)
      | None =>
          let saved :=
            match dnptrs, saved with
            | Some _, None => if negb (n =? 0) && room && (Z.of_nat dstp <? 0x4000) then Some dstp else None
            | _, _ => saved
            end in
          if Z.land n NS_CMPRSFLGS =? NS_CMPRSFLGS then Ok (None, buf, saved) else
          l <-- labellen src srcp ;;
          match l with
          | None => Fault (* the first loop has refused such a label *)
          | Some l =>
              if (eob <=? dstp + 1 + l)%nat then Ok (None, buf, saved) else
              bs <-- bytes_at src srcp (l + 1) ;;
              buf <-- write_at buf dstp bs ;;
              if (l =? 0)%nat then
                Ok (if (eob <? dstp + l + 1)%nat then None else Some (dstp + l + 1)%nat, buf, saved)
              else pack_loop fuel src dnptrs room eob (srcp + l + 1) (dstp + l + 1) buf saved
          end
      end
  end.

(** [dst] is a place in [buf], which begins at [msg] if there is a message.  [dnptrs] lists the
    places behind the first entry; [slots] is the number of them the array has room for, with the
    terminator, and [None] if there is no [lastdnptr].  The result is the size or the errno value,
    the buffer and the list afterwards. *)
Definition ns_name_pack (src buf : list Z) (dst dstsiz : nat) (dnptrs : option (list nat)) (slots : option nat)
    : result ((Z + nat) * list Z * option (list nat)) :=
  e <-- check_name (NS_MAXCDNAME + 2) src 0 0 ;;
  match e with
  | Some e => Ok (inl e, buf, dnptrs)
  | None =>
      let room := match dnptrs, slots with
                  | Some ptrs, Some slots => (length ptrs <? slots - 1)%nat
                  | _, _ => false
                  end in
      r <-- pack_loop (NS_MAXCDNAME + 2) src dnptrs room (dst + dstsiz) 0 dst buf None ;;
      match r with
      | (Some dstp, buf, saved) =>
          Ok (inr (dstp - dst)%nat, buf,
              match dnptrs, saved with Some ptrs, Some p => Some (ptrs ++ [p]) | _, _ => dnptrs end)
      | (None, buf, _) => Ok (inl EMSGSIZE, buf, dnptrs)
      end
  end.

(** Forget the places at or behind [src]. *)
Fixpoint ns_name_rollback (src : nat) (dnptrs : list nat) : list nat :=
  match dnptrs with
  | [] => []
  | p :: dnptrs => if (src <=? p)%nat then [] else p :: ns_name_rollback src dnptrs
  end.

(** * Bytes in a buffer *)

Definition is_byte (b : Z) : Prop := 0 <= b < 256.

Definition has (buf : list Z) (p : nat) (bs : list Z) : Prop :=
  forall i b, bs !! i = Some b -> buf !! (p + i)%nat = Some b.

Lemma has_cons buf p b bs : has buf p (b :: bs) <-> buf !! p = Some b /\ has buf (S p) bs.
Proof.
  split.
  - intros H. split; [rewrite <-(Nat.add_0_r p); by apply H|]. intros i c Hc. rewrite Nat.add_succ_comm. by apply H.
  - intros [H1 H2] [|i] c Hc; simplify_eq/=; [by rewrite Nat.add_0_r|]. rewrite <-Nat.add_succ_comm. by apply H2.
Qed.

Lemma has_app buf p bs cs : has buf p (bs ++ cs) <-> has buf p bs /\ has buf (p + length bs) cs.
Proof.
  revert p. induction bs as [|b bs IH]; intros p; simpl.
  - rewrite Nat.add_0_r. split; [|tauto]. intros H. split; [|done]. by intros i c Hc.
  - rewrite !has_cons, IH, Nat.add_succ_comm. tauto.
Qed.

Lemma has_self bs : has bs 0 bs.
Proof. by intros i b. Qed.

Lemma has_slice buf p n : has buf p (take n (drop p buf)).
Proof. intros i b [Hb _]%lookup_take_Some. by rewrite lookup_drop in Hb. Qed.

Lemma has_length buf p b bs : has buf p (b :: bs) -> (p + length (b :: bs) <= length buf)%nat.
Proof.
  intros H. destruct (lookup_lt_is_Some_2 (b :: bs) (length bs)) as [c Hc]; [simpl; lia|].
  apply H, lookup_lt_Some in Hc. simpl. lia.
Qed.

Lemma has_unique buf p bs cs : has buf p bs -> has buf p cs -> length bs = length cs -> bs = cs.
Proof.
  revert p cs. induction bs as [|b bs IH]; intros p [|c cs] Hb Hc Hl; try done.
  apply has_cons in Hb as [Hb1 Hb2], Hc as [Hc1 Hc2]. f_equal; [congruence|]. apply (IH (S p)); [done..|]. simpl in Hl. lia.
Qed.

Lemma bytes_at_has buf p bs : has buf p bs -> (p + length bs <= length buf)%nat -> bytes_at buf p (length bs) = Ok bs.
Proof.
  intros H Hl. unfold bytes_at. rewrite (proj2 (Nat.leb_le _ _)) by lia. f_equal.
  apply (has_unique buf p); [apply has_slice|done|]. rewrite length_take, length_drop. lia.
Qed.

Lemma bytes_at_inv buf p n bs : bytes_at buf p n = Ok bs -> has buf p bs /\ length bs = n /\ (p + n <= length buf)%nat.
Proof.
  unfold bytes_at. destruct (Nat.leb_spec (p + n) (length buf)); [|done]. intros [= <-].
  split; [apply has_slice|]. rewrite length_take, length_drop. lia.
Qed.

Lemma at_Some {A} (l : list A) i x : l !! i = Some x -> at_ l i = Ok x.
Proof. unfold at_. by intros ->. Qed.

Lemma at_inv {A} (l : list A) i x : at_ l i = Ok x -> l !! i = Some x.
Proof. unfold at_. destruct (l !! i); simpl; congruence. Qed.

Lemma emit_ok dstsiz out bs : (length out + length bs <= dstsiz)%nat -> emit dstsiz out bs = Ok (out ++ bs).
Proof. intros H. unfold emit. by rewrite (proj2 (Nat.leb_le _ _)). Qed.

Lemma emit_inv dstsiz out bs r : emit dstsiz out bs = Ok r -> r = out ++ bs /\ (length out + length bs <= dstsiz)%nat.
Proof. unfold emit. destruct (Nat.leb_spec (length out + length bs) dstsiz); [|done]. by intros [= <-]. Qed.

(** * Labels *)

(** A label with its length byte: an ordinary one or a bit string. *)
Definition is_label (lab : list Z) : Prop :=
  match lab with
  | [] => False
  | n :: bs => Forall is_byte lab /\ n <> 0 /\ (Z.land n NS_CMPRSFLGS = 0 \/ Z.land n NS_CMPRSFLGS = NS_TYPE_ELT) /\ labellen lab 0 = Ok (Some (length bs))
  end.

Lemma labellen_has buf p lab : has buf p lab -> is_label lab -> labellen buf p = Ok (Some (length lab - 1)%nat).
Proof.
  destruct lab as [|n bs]; [done|]. intros H (_ & _ & _ & Hl). apply has_cons in H as [Hn H]. simpl. rewrite Nat.sub_0_r.
  unfold labellen in *. simpl in Hl. rewrite (at_Some buf p n) by done. cbn [obind]. rewrite <-Hl.
  destruct (_ =? NS_CMPRSFLGS); [done|]. destruct (_ =? NS_TYPE_ELT); [|done]. destruct (n =? _); [|done].
  destruct bs as [|b bs]; [done|]. rewrite Nat.add_1_r. apply has_cons in H as [Hb _]. by rewrite (at_Some buf (S p) b).
Qed.

Lemma labellen_inv buf p n bs :
  buf !! p = Some n -> n <> 0 -> (Z.land n NS_CMPRSFLGS = 0 \/ Z.land n NS_CMPRSFLGS = NS_TYPE_ELT) ->
  labellen buf p = Ok (Some (length bs)) -> has buf (S p) bs -> Forall is_byte buf -> is_label (n :: bs).
Proof.
  intros Hn Hn0 Hf Hl Hbs Hbuf.
  assert (Forall is_byte (n :: bs)).
  { apply Forall_lookup. intros i b Hb. rewrite Forall_lookup in Hbuf. apply (Hbuf (p + i)%nat). revert i b Hb. by apply has_cons. }
  split_and!; [done..|]. unfold labellen in *.
  rewrite (at_Some buf p n) in Hl by done. rewrite (at_Some (n :: bs) 0 n) by done. cbn [obind] in *.
  destruct (_ =? NS_CMPRSFLGS); [done|]. destruct (_ =? NS_TYPE_ELT); [|done]. destruct (n =? _); [|done].
  rewrite Nat.add_1_r in Hl. destruct (at_ buf (S p)) as [b| |] eqn:Eb; [|done..]. simpl in Hl. apply at_inv in Eb.
  assert (0 <= b) by (rewrite Forall_lookup in Hbuf; by apply (Hbuf (S p))).
  destruct bs as [|c bs]; [injection Hl as Hl; exfalso; destruct (Z.eqb_spec b 0); Z.to_euclidean_division_equations; simpl in Hl; lia|].
  apply has_cons in Hbs as [Hc _]. assert (c = b) as -> by congruence. exact Hl.
Qed.

(** An ordinary label. *)
Lemma is_label_plain bs : Forall is_byte bs -> (0 < length bs < 64)%nat -> is_label (Z.of_nat (length bs) :: bs).
Proof.
  intros Hbs H. assert (E : Z.land (Z.of_nat (length bs)) NS_CMPRSFLGS = 0).
  { change NS_CMPRSFLGS with (3 * 2 ^ 6). rewrite Z.land_comm. apply land_low_bits; lia. }
  split_and!; [constructor; [unfold is_byte; lia|done]|lia|by left|]. unfold labellen.
  rewrite (at_Some _ 0 (Z.of_nat (length bs))) by done. cbn [obind]. rewrite E. simpl. by rewrite Nat2Z.id.
Qed.

(** * The name at a place in a message *)

(** [den k p labs e]: the name at [p] has the labels [labs] and ends before [e]; [k] bytes have been
    followed before, and a pointer is not followed once all bytes of the message have been. *)
Inductive den (msg : list Z) : nat -> nat -> list (list Z) -> nat -> Prop :=
| den_root k p : msg !! p = Some 0 -> den msg k p [] (S p)
| den_label k p lab labs e :
    has msg p lab -> is_label lab -> den msg (k + length lab) (p + length lab) labs e -> den msg k p (lab :: labs) e
| den_pointer k p n b labs e :
    msg !! p = Some n -> Z.land n NS_CMPRSFLGS = NS_CMPRSFLGS -> msg !! S p = Some b -> (k + 2 < length msg)%nat ->
    den msg (k + 2) (pointer_offset n b) labs e -> den msg k p labs (p + 2).

(** The bytes of a name. *)
Definition wire (labs : list (list Z)) : list Z := concat labs ++ [0].

(** * Unpacking *)

(** Inverts a bind that came to a result. *)
Ltac obind_inv H :=
  match type of H with
  | obind ?e _ = Ok _ => let x := fresh "x" in let E := fresh "E" in destruct e as [x| |] eqn:E; cbn [obind] in H; [|done..]
  end.

Lemma unpack_loop_sound msg : Forall is_byte msg -> forall fuel src dstsiz srcp len checked out len' out',
  (len = None -> src <= srcp)%nat -> unpack_loop fuel msg src dstsiz srcp len checked out = Ok (inr (len', out')) ->
  exists labs e, den msg checked srcp labs e /\ out' = out ++ wire labs /\
    len' = (match len with Some len => len | None => e - src end)%nat /\ (length out' <= dstsiz)%nat.
Proof.
  intros Hmsg. induction fuel as [|fuel IH]; intros src dstsiz srcp len checked out len' out' Hs H; [done|]. cbn [unpack_loop] in H.
  obind_inv H. apply at_inv in E. destruct (Z.eqb_spec x 0) as [->|Hx].
  { obind_inv H. apply emit_inv in E0 as [-> Hl]. injection H as <- <-. exists [], (S srcp). split_and!; [by constructor|done|by destruct len|].
    rewrite length_app. done. }
  destruct (_ || _) eqn:Hf.
  - apply orb_true_iff in Hf. rewrite !Z.eqb_eq in Hf. obind_inv H. destruct x0 as [l|]; [|done]. destruct (_ || _) eqn:Hb in H; [done|].
    apply orb_false_iff in Hb as [_ Hb%Nat.leb_gt]. obind_inv H. apply bytes_at_inv in E1 as (Hbs & <- & Hle).
    obind_inv H. apply emit_inv in E1 as [-> He]. replace (S srcp - 1)%nat with srcp in E0 by lia.
    destruct (fun Hs => IH _ _ _ _ _ _ _ _ Hs H) as (labs & e & Hden & -> & -> & Hlen); [intros ->; specialize (Hs eq_refl); lia|]. exists ((x :: x0) :: labs), e. split_and!; [|unfold wire; cbn [concat]; by rewrite <-!app_assoc|done|done].
    apply den_label; [by apply has_cons|by apply (labellen_inv msg srcp)|]. simpl length.
    by replace (checked + S (length x0))%nat with (checked + length x0 + 1)%nat by lia; replace (srcp + S (length x0))%nat with (S srcp + length x0)%nat by lia.
  - destruct (Z.eqb_spec (Z.land x NS_CMPRSFLGS) NS_CMPRSFLGS) as [Hc|]; [|done]. destruct (Nat.leb_spec (length msg) (S srcp)); [done|].
    obind_inv H. apply at_inv in E0. destruct (Nat.leb_spec (length msg) (pointer_offset x x0)); [done|].
    destruct (Nat.leb_spec (length msg) (checked + 2)); [done|].
    destruct (fun Hs => IH _ _ _ _ _ _ _ _ Hs H) as (labs & e & Hden & -> & -> & Hlen); [by destruct len|]. exists labs, (srcp + 2)%nat. split_and!; [|done| |done].
    + by apply (den_pointer msg checked srcp x x0 labs e).
    + destruct len; [done|]. specialize (Hs eq_refl). lia.
Qed.

(** The fuel is enough: every label makes the output longer, and every pointer adds to the count. *)
Lemma unpack_loop_total msg : last msg <> Some DNS_LABELTYPE_BITSTRING -> forall fuel src dstsiz srcp len checked out,
  (srcp < length msg)%nat -> (length out < dstsiz)%nat -> (dstsiz - length out + (length msg - checked) < fuel)%nat ->
  exists r, unpack_loop fuel msg src dstsiz srcp len checked out = Ok r.
Proof.
  intros Hlast. induction fuel as [|fuel IH]; intros src dstsiz srcp len checked out Hp Ho Hf; [lia|]. cbn [unpack_loop].
  destruct (lookup_lt_is_Some_2 msg srcp Hp) as [n Hn]. rewrite (at_Some _ _ _ Hn). cbn [obind].
  destruct (Z.eqb_spec n 0); [rewrite emit_ok by (simpl; lia); cbn [obind]; eauto|].
  destruct (_ || _) eqn:Hfl.
  - replace (S srcp - 1)%nat with srcp by lia.
    assert (exists l, labellen msg srcp = Ok l) as [l Hl].
    { unfold labellen. rewrite (at_Some _ _ _ Hn). cbn [obind]. destruct (_ =? NS_CMPRSFLGS); [eauto|]. destruct (_ =? NS_TYPE_ELT); [|eauto].
      destruct (Z.eqb_spec n DNS_LABELTYPE_BITSTRING) as [->|]; [|eauto]. destruct (lookup_lt_is_Some_2 msg (srcp + 1)) as [b Hb].
      { assert (srcp <> pred (length msg)) by (intros ->; by rewrite <-last_lookup in Hn). lia. }
      rewrite (at_Some _ _ _ Hb). simpl. eauto. }
    rewrite Hl. cbn [obind]. destruct l as [l|]; [|eauto].
    destruct ((dstsiz <=? length out + l + 1)%nat || (length msg <=? S srcp + l)%nat) eqn:Hb; [eauto|].
    apply orb_false_iff in Hb as [Hb1%Nat.leb_gt Hb2%Nat.leb_gt].
    unfold bytes_at. rewrite (proj2 (Nat.leb_le _ _)) by lia. cbn [obind].
    assert (length (n :: take l (drop (S srcp) msg)) = S l) by (simpl; rewrite length_take, length_drop; lia).
    rewrite emit_ok by lia. cbn [obind]. apply IH; rewrite ?length_app; lia.
  - destruct (_ =? NS_CMPRSFLGS); [|eauto]. destruct (Nat.leb_spec (length msg) (S srcp)) as [|Hs]; [eauto|].
    destruct (lookup_lt_is_Some_2 msg (S srcp) Hs) as [b Hb]. rewrite (at_Some _ _ _ Hb). cbn [obind].
    destruct (Nat.leb_spec (length msg) (pointer_offset n b)); [eauto|]. destruct (Nat.leb_spec (length msg) (checked + 2)); [eauto|].
    apply IH; lia.
Qed.

Lemma den_lt msg k p labs e : den msg k p labs e -> (p < length msg)%nat.
Proof.
  destruct 1 as [k p H|k p lab labs e H Hl _|k p n b labs e H _ _ _ _]; [by eapply lookup_lt_Some| |by eapply lookup_lt_Some].
  destruct lab as [|n lab]; [done|]. apply has_length in H. simpl in H. lia.
Qed.

Lemma unpack_loop_complete msg k p labs e : den msg k p labs e -> forall fuel src dstsiz len out,
  (len = None -> src <= p)%nat -> (length out + length (wire labs) <= dstsiz)%nat -> (dstsiz - length out + (length msg - k) < fuel)%nat ->
  unpack_loop fuel msg src dstsiz p len k out =
    Ok (inr (match len with Some len => len | None => e - src end, out ++ wire labs)%nat).
Proof.
  unfold wire. induction 1 as [k p H|k p lab labs e H Hl Hd IH|k p n b labs e Hn Hc Hb Hk Hd IH]; intros fuel src dstsiz len out Hs Hout Hfuel;
    (destruct fuel as [|fuel]; [lia|]); cbn [unpack_loop].
  - rewrite (at_Some _ _ _ H). simpl. rewrite emit_ok by done. by destruct len.
  - pose proof (labellen_has _ _ _ H Hl) as Hll. pose proof (den_lt _ _ _ _ _ Hd) as Hlt. destruct lab as [|n bs]; [done|].
    destruct Hl as (_ & Hn0 & Hf & _). pose proof H as [Hn Hbs]%has_cons. rewrite (at_Some _ _ _ Hn). cbn [obind].
    rewrite (proj2 (Z.eqb_neq _ _) Hn0). replace (S p - 1)%nat with p by lia. rewrite Hll.
    replace (_ || _) with true by (symmetry; apply orb_true_iff; rewrite !Z.eqb_eq; done). simpl in Hlt, Hout |- *.
    rewrite Nat.sub_0_r. rewrite !length_app in Hout. simpl in Hout. rewrite (proj2 (Nat.leb_gt _ _)), (proj2 (Nat.leb_gt _ _)) by lia. cbn [orb].
    rewrite bytes_at_has by (done || lia). cbn [obind]. rewrite emit_ok by (simpl; lia). cbn [obind].
    replace (S (p + length bs)) with (p + S (length bs))%nat by lia. replace (k + length bs + 1)%nat with (k + S (length bs))%nat by lia.
    simpl in IH. rewrite IH; [|intros ->; specialize (Hs eq_refl); lia|rewrite !length_app; simpl; rewrite ?length_app; lia|rewrite length_app; simpl; lia]. by rewrite <-!app_assoc.
  - rewrite (at_Some _ _ _ Hn). cbn [obind]. destruct (Z.eqb_spec n 0) as [->|]; [done|]. rewrite Hc. simpl.
    pose proof (lookup_lt_Some _ _ _ Hb). rewrite (proj2 (Nat.leb_gt _ _)) by lia. rewrite (at_Some _ _ _ Hb). cbn [obind].
    pose proof (den_lt _ _ _ _ _ Hd). rewrite (proj2 (Nat.leb_gt _ (pointer_offset n b))), (proj2 (Nat.leb_gt _ (k + 2))) by lia.
    rewrite IH by (lia || by destruct len). destruct len; [done|]. specialize (Hs eq_refl). do 3 f_equal. lia.
Qed.

(** C10: for any bytes, ns_name_unpack2 returns, without an access outside the message or the target, whatever the pointers
    in the message lead to.  It succeeds exactly if a name can be read at the place and fits, and then gives its labels, without
    pointers, and the number of bytes it takes at the place.  The target has room for the root, and the message does not
    end with the first byte of a bit string, behind which the code reads one byte too many. *)
Theorem unpack_correct msg src dstsiz :
  Forall is_byte msg -> last msg <> Some DNS_LABELTYPE_BITSTRING -> (0 < dstsiz)%nat ->
  (exists r, ns_name_unpack2 msg src dstsiz = Ok r) /\
  forall len out, ns_name_unpack2 msg src dstsiz = Ok (inr (len, out)) <->
    0 <= src /\ exists labs e, den msg 0 (Z.to_nat src) labs e /\ out = wire labs /\ (length out <= dstsiz)%nat /\
      len = (e - Z.to_nat src)%nat.
Proof.
  intros Hmsg Hlast Hd. unfold ns_name_unpack2. destruct (Z.ltb_spec src 0); cbn [orb].
  { split; [eauto|]. intros len out. split; [done|]. intros [? _]. lia. }
  destruct (Z.leb_spec (Z.of_nat (length msg)) src).
  { split; [eauto|]. intros len out. split; [done|]. intros (_ & labs & e & Hden%den_lt & _). lia. }
  split; [apply unpack_loop_total; simpl; done || lia|]. intros len out. split.
  - intros Hu. apply unpack_loop_sound in Hu as (labs & e & Hden & -> & -> & Hl); [|done..]. split; [done|]. eauto 6.
  - intros (_ & labs & e & Hden & -> & Hl & ->). rewrite (unpack_loop_complete msg 0 _ labs e Hden); simpl; done || lia.
Qed.

Definition ex_pointer_message : list Z := [3; 99; 111; 109; 0; 1; 97; 0xc0; 0].

Lemma unpack_correct_witness :
  (exists r, ns_name_unpack2 ex_pointer_message 5 20 = Ok r) /\
  forall len out, ns_name_unpack2 ex_pointer_message 5 20 = Ok (inr (len, out)) <->
    0 <= 5 /\ exists labs e, den ex_pointer_message 0 (Z.to_nat 5) labs e /\ out = wire labs /\ (length out <= 20)%nat /\
      len = (e - Z.to_nat 5)%nat.
Proof.
  apply (unpack_correct ex_pointer_message 5 20); [|done|lia]. repeat constructor; done.
Defined.

Example ex_unpack : ns_name_unpack2 ex_pointer_message 5 20 = Ok (inr (4%nat, [1; 97; 3; 99; 111; 109; 0])) /\
  ns_name_unpack2 [0xc0; 0] 0 20 = Ok (inl EMSGSIZE) /\ ns_name_unpack2 [0x41] 0 20 = Fault.
Proof. vm_compute. repeat split; reflexivity. Qed.

(** * Skipping *)

Lemma den_end msg k p labs e : den msg k p labs e -> (p < e <= length msg)%nat.
Proof.
  induction 1 as [k p H|k p lab labs e H Hl Hd IH|k p n b labs e Hn Hc Hb Hk Hd IH].
  - apply lookup_lt_Some in H. lia.
  - destruct lab; [done|]. simpl in IH. lia.
  - apply lookup_lt_Some in Hb. lia.
Qed.

Lemma skip_loop_complete msg k p labs e : den msg k p labs e -> forall fuel l,
  (length msg - p < fuel)%nat -> skip_loop fuel msg p l = Ok (inr e).
Proof.
  induction 1 as [k p H|k p lab labs e H Hl Hd IH|k p n b labs e Hn Hc Hb Hk Hd IH]; intros fuel l Hf; (destruct fuel as [|fuel]; [lia|]); cbn [skip_loop].
  - pose proof (lookup_lt_Some _ _ _ H). rewrite (proj2 (Nat.ltb_lt _ _)), (at_Some _ _ _ H) by done. cbn [negb obind Z.eqb].
    by rewrite (proj2 (Nat.ltb_ge _ _)) by lia.
  - pose proof (labellen_has _ _ _ H Hl) as Hll. pose proof (den_end _ _ _ _ _ Hd) as Hend. destruct lab as [|n bs]; [done|].
    pose proof (has_length _ _ _ _ H) as Hlen. destruct Hl as (Hb & Hn0 & Hf' & Hl). apply has_cons in H as [Hn _]. simpl in *.
    rewrite (proj2 (Nat.ltb_lt p _)), (at_Some _ _ _ Hn) by lia. cbn [negb obind]. rewrite (proj2 (Z.eqb_neq _ _) Hn0). rewrite Nat.sub_0_r in *.
    replace (p + S (length bs))%nat with (S (p + length bs)) in IH by lia. destruct Hf' as [E|E]; rewrite E; cbn [Z.eqb Pos.eqb].
    + unfold labellen in Hll. rewrite (at_Some _ _ _ Hn) in Hll. cbn [obind] in Hll. rewrite E in Hll. simpl in Hll. injection Hll as ->.
      apply IH. lia.
    + rewrite (proj2 (Nat.ltb_lt (S p) _)) by lia. rewrite Hll. cbn [obind]. apply IH. lia.
  - pose proof (lookup_lt_Some _ _ _ Hb). rewrite (proj2 (Nat.ltb_lt p _)), (at_Some _ _ _ Hn) by lia. cbn [negb obind].
    destruct (Z.eqb_spec n 0) as [->|]; [done|]. rewrite Hc. cbn [Z.eqb Pos.eqb]. rewrite (proj2 (Nat.ltb_ge _ _)) by lia. do 2 f_equal. lia.
Qed.

(** Ns_name_skip goes to the end of every name that ns_name_unpack2 can read. *)
Theorem skip_agrees msg src dstsiz len out :
  Forall is_byte msg -> ns_name_unpack2 msg src dstsiz = Ok (inr (len, out)) ->
  ns_name_skip msg (Z.to_nat src) = Ok (inr (Z.to_nat src + len)%nat).
Proof.
  intros Hmsg. unfold ns_name_unpack2. destruct (_ || _); [done|]. intros (labs & e & Hden & _ & -> & _)%unpack_loop_sound; [|done..].
  unfold ns_name_skip. pose proof (den_end _ _ _ _ _ Hden). rewrite (skip_loop_complete msg _ _ _ _ Hden) by lia. do 2 f_equal. lia.
Qed.

Lemma skip_agrees_witness : ns_name_skip ex_pointer_message (Z.to_nat 5) = Ok (inr (Z.to_nat 5 + 4)%nat).
Proof.
  apply (skip_agrees ex_pointer_message 5 20 4 [1; 97; 3; 99; 111; 109; 0]); [|vm_compute; reflexivity]. repeat constructor; done.
Defined.

(** * Names that only point backwards *)

Definition label_byte (buf : list Z) (p : nat) : Prop := exists n, buf !! p = Some n /\ n <> 0 /\ Z.land n NS_CMPRSFLGS = 0.

(** The name at [p], whose bytes are between [lo] and [e], up to a pointer to bytes before [lo]. *)
Inductive chain (buf : list Z) : nat -> nat -> nat -> list (list Z) -> Prop :=
| chain_root lo p : (lo <= p)%nat -> buf !! p = Some 0 -> chain buf lo (S p) p []
| chain_label lo e p lab labs :
    (lo <= p)%nat -> has buf p lab -> is_label lab -> chain buf lo e (p + length lab) labs -> chain buf lo e p (lab :: labs)
| chain_pointer lo p n b lo' e' labs :
    (lo <= p)%nat -> buf !! p = Some n -> Z.land n NS_CMPRSFLGS = NS_CMPRSFLGS -> buf !! S p = Some b ->
    label_byte buf (pointer_offset n b) -> (e' <= lo)%nat -> chain buf lo' e' (pointer_offset n b) labs -> chain buf lo (p + 2) p labs.

Lemma label_length lab : is_label lab -> (0 < length lab)%nat.
Proof. destruct lab; [done|]. simpl. lia. Qed.

Lemma chain_bounds buf lo e p labs : chain buf lo e p labs -> (lo <= p < e)%nat /\ (e <= length buf)%nat.
Proof.
  induction 1 as [lo p Hp H|lo e p lab labs Hp H Hl Hc IH|lo p n b lo' e' labs Hp Hn Hf Hb Ht He Hc IH].
  - apply lookup_lt_Some in H. lia.
  - apply label_length in Hl. lia.
  - apply lookup_lt_Some in Hb. lia.
Qed.

Lemma has_ext buf buf' n p bs :
  (forall i, (i < n)%nat -> buf' !! i = buf !! i) -> (p + length bs <= n)%nat -> has buf p bs -> has buf' p bs.
Proof. intros Hn Hp H i b Hb. rewrite Hn; [by apply H|]. apply lookup_lt_Some in Hb. lia. Qed.

Lemma chain_ext buf buf' n lo e p labs :
  (forall i, (i < n)%nat -> buf' !! i = buf !! i) -> (e <= n)%nat -> chain buf lo e p labs -> chain buf' lo e p labs.
Proof.
  intros Hn He H. revert He. induction H as [lo p Hp H|lo e p lab labs Hp H Hl Hc IH|lo p m b lo' e' labs Hp Hm Hf Hb Ht He' Hc IH]; intros He.
  - constructor; [done|]. rewrite Hn by lia. done.
  - constructor; [done| |done|by apply IH]. apply (has_ext buf _ n); [done| |done]. apply chain_bounds in Hc. lia.
  - apply chain_bounds in Hc as Hb'. apply (chain_pointer buf' lo p m b lo' e'); try done; [by rewrite Hn by lia..| |apply IH; lia].
    destruct Ht as (c & Hc' & Ht). exists c. by rewrite Hn by lia.
Qed.

(** Such a name can be read: no byte is visited twice. *)
Lemma chain_den buf lo e p labs : chain buf lo e p labs -> forall k, (k + e <= length buf + (p - lo))%nat -> den buf k p labs e.
Proof.
  induction 1 as [lo p Hp H|lo e p lab labs Hp H Hl Hc IH|lo p n b lo' e' labs Hp Hn Hf Hb Ht He Hc IH]; intros k Hk.
  - by constructor.
  - apply den_label; [done..|]. apply IH. lia.
  - apply chain_bounds in Hc. apply (den_pointer buf k p n b labs e'); try done; [lia|]. apply IH. lia.
Qed.
