(* ===== verification/NsPack.v ===== *)
(** Packing domain names: the second half of the wire format of libc/dns/nameser/ns_name.c.

    [dn_find] looks for an earlier occurrence of the rest of a name, whatever the case of its
    letters, and [ns_name_pack] points to it.  The theorem at the end says that all the names of a message
    that is built by calls of [ns_name_pack], with other data in between, can be unpacked. *)

From S2P Require Import Prelude Result NsName.

(** * Names up to the case of letters *)

Definition lower_label (lab : list Z) : list Z := mklower <$> lab.
Definition lower_name (labs : list (list Z)) : list (list Z) := lower_label <$> labs.

Lemma lower_length labs labs' : lower_name labs = lower_name labs' -> length (wire labs) = length (wire labs').
Proof.
  unfold wire. rewrite !length_app. intros H. f_equal. revert labs' H.
  induction labs as [|lab labs IH]; intros [|lab' labs'] H; try done. simpl in *. rewrite !length_app. injection H as H1 H2.
  apply (f_equal length) in H1. unfold lower_label in H1. rewrite !length_fmap in H1. rewrite (IH labs') by done. lia.
Qed.

Lemma lower_cons n bs bs' labs labs' :
  mklower <$> bs' = mklower <$> bs -> lower_name labs' = lower_name labs ->
  lower_name ((n :: bs) :: labs') = lower_name ((n :: bs') :: labs).
Proof. intros H1 H2. unfold lower_name. rewrite !fmap_cons. f_equal; [|done]. unfold lower_label. by rewrite !fmap_cons, H1. Qed.

(** * Looking for a name *)

Section find.
Context (src buf : list Z).

Lemma same_bytes_spec dn cp n : (dn + n <= length src)%nat -> (cp + n <= length buf)%nat -> exists b,
  same_bytes src buf dn cp n = Ok b /\
  (b = true -> mklower <$> take n (drop dn src) = mklower <$> take n (drop cp buf)).
Proof.
  revert dn cp. induction n as [|n IH]; intros dn cp Hd Hc; simpl; [by exists true|].
  destruct (lookup_lt_is_Some_2 src dn) as [d Hdn]; [lia|]. destruct (lookup_lt_is_Some_2 buf cp) as [c Hcp]; [lia|].
  rewrite (at_Some _ _ _ Hdn), (at_Some _ _ _ Hcp). cbn [obind]. rewrite (drop_S _ _ _ Hdn), (drop_S _ _ _ Hcp).
  destruct (Z.eqb_spec (mklower d) (mklower c)) as [E|]; [|by exists false].
  destruct (IH (S dn) (S cp)) as (b & -> & Hb); [lia..|]. exists b. split; [done|]. intros ->. simpl. f_equal; [done|by apply Hb].
Qed.

Lemma wire_cons lab labs : wire (lab :: labs) = lab ++ wire labs.
Proof. unfold wire. simpl. by rewrite <-app_assoc. Qed.

(** The head of a name is 0 exactly if it is the root. *)
Lemma wire_head labs dn : has src dn (wire labs) -> Forall is_label labs ->
  exists d, src !! dn = Some d /\ (d = 0 <-> labs = []).
Proof.
  intros H Hl. destruct Hl as [|lab labs Hlab _].
  - apply has_cons in H as [H _]. by exists 0.
  - destruct lab as [|n bs]; [done|]. rewrite wire_cons in H. apply has_cons in H as [H _]. exists n. split; [done|].
    destruct Hlab as (_ & ? & _). naive_solver.
Qed.

(** The length byte of an ordinary label. *)
Lemma plain_label n bs : is_label (n :: bs) -> (Z.land n NS_CMPRSFLGS = 0 <-> n < 64) /\ (n < 64 -> n = Z.of_nat (length bs)).
Proof.
  intros (Hb & Hn & Hf & Hl). apply Forall_cons_1 in Hb as [Hb _]. unfold is_byte in Hb.
  assert (E : Z.land n NS_CMPRSFLGS = n / 64 * 64).
  { change NS_CMPRSFLGS with (Z.shiftl (Z.ones 2) 6). rewrite land_field by lia. rewrite Z.mod_small; [done|]. Z.to_euclidean_division_equations; lia. }
  split; [rewrite E; Z.to_euclidean_division_equations; lia|]. intros H64. unfold labellen in Hl. rewrite (at_Some _ 0 n) in Hl by done. cbn [obind] in Hl.
  assert (E' : Z.land n NS_CMPRSFLGS = 0) by (rewrite E, Z.div_small by lia; done). rewrite E' in Hl. simpl in Hl. injection Hl as Hl. lia.
Qed.

Lemma plain_length n bs : is_label (n :: bs) -> (0 < length bs)%nat.
Proof.
  intros (Hb & Hn & Hf & Hl). destruct bs as [|b bs]; [exfalso|simpl; lia]. unfold labellen in Hl. rewrite (at_Some _ 0 n) in Hl by done. cbn [obind] in Hl.
  destruct (_ =? NS_CMPRSFLGS); [done|]. destruct (_ =? NS_TYPE_ELT); [by destruct (n =? _)|]. apply Forall_cons_1 in Hb as [Hb _]. unfold is_byte in Hb.
  injection Hl as Hl. lia.
Qed.

Lemma has_take (l : list Z) bs p : has l p bs -> (p + length bs <= length l)%nat -> take (length bs) (drop p l) = bs.
Proof.
  intros H Hl. apply (has_unique l p); [apply has_slice|done|]. rewrite length_take, length_drop. lia.
Qed.

Lemma has_length_app (l : list Z) p bs c cs : has l p (bs ++ c :: cs) -> (p + length bs < length l)%nat.
Proof. intros [_ [H _]%has_cons]%has_app. by apply lookup_lt_Some in H. Qed.

Lemma chain_byte lo e p labs : chain buf lo e p labs -> exists c, buf !! p = Some c /\ (c = 0 -> labs = []).
Proof.
  destruct 1 as [lo p Hp H|lo e p lab labs Hp H Hl Hc|lo p n b lo' e' labs Hp Hn Hf Hb Ht He Hc]; [by exists 0| |].
  - destruct lab as [|n bs]; [done|]. apply has_cons in H as [H _]. exists n. split; [done|]. by destruct Hl as (_ & ? & _).
  - exists n. split; [done|]. by intros ->.
Qed.

(** The labels [n :: bs] of the buffer and [n :: bs'] of the name. *)
Lemma compare_label fuel dn cp n bs bs' labs' labs lo e :
  is_label (n :: bs) -> n < 64 -> has buf cp (n :: bs) -> chain buf lo e (cp + S (length bs)) labs' ->
  length bs' = length bs -> is_label (n :: bs') -> Forall is_label labs -> has src dn (wire ((n :: bs') :: labs)) ->
  (labs <> [] -> exists r, compare_names fuel src buf (dn + S (length bs)) (cp + S (length bs)) = Ok r /\
     (r = Found -> lower_name labs' = lower_name labs)) ->
  exists r, compare_names (S fuel) src buf dn cp = Ok r /\
    (r = Found -> lower_name ((n :: bs) :: labs') = lower_name ((n :: bs') :: labs)).
Proof.
  intros Hlab Hn64 Hbuf Hchain Hlen Hlab' Hlabs Hsrc Hrest. cbn [compare_names].
  pose proof (labellen_has _ _ _ Hbuf Hlab) as Hll. simpl length in Hll. rewrite Nat.sub_succ, Nat.sub_0_r in Hll.
  pose proof Hbuf as [Hn Hbs]%has_cons. rewrite (at_Some _ _ _ Hn). cbn [obind]. replace (S cp - 1)%nat with cp by lia.
  destruct (plain_label n bs Hlab) as [Hplain Hn']. destruct Hlab as (_ & Hn0 & _). rewrite (proj2 (Z.eqb_neq _ _) Hn0), (proj2 (Z.eqb_eq _ _)), Hll by (by apply Hplain).
  rewrite wire_cons in Hsrc. pose proof Hsrc as [[Hd Hbs']%has_cons Hrest']%has_app. rewrite (at_Some _ _ _ Hd). cbn [obind].
  rewrite <-Hn', Z.eqb_refl by done. cbn [negb].
  assert (Hs : (S dn + length bs <= length src)%nat).
  { unfold wire in Hsrc. rewrite app_assoc in Hsrc. apply has_length_app in Hsrc. rewrite length_app in Hsrc. simpl in Hsrc. lia. }
  pose proof (has_length _ _ _ _ Hbuf) as Hb. simpl in Hb.
  destruct (same_bytes_spec (S dn) (S cp) (length bs)) as (b & -> & Heq); [lia..|]. cbn [obind]. destruct b; cbn [negb]; [|by exists Next].
  specialize (Heq eq_refl). rewrite (has_take buf) in Heq by (done || lia). rewrite <-Hlen, (has_take src) in Heq by (done || lia).
  simpl length in Hrest'. rewrite Hlen in *. rewrite !Nat.add_succ_comm. destruct (wire_head labs _ Hrest' Hlabs) as (d & Hd' & Hroot).
  rewrite (at_Some _ _ _ Hd'). cbn [obind]. destruct (Z.eqb_spec d 0) as [Hd0|Hd0].
  - destruct (chain_byte _ _ _ _ Hchain) as (c & Hc & Hc0). rewrite (at_Some _ _ _ Hc). cbn [obind]. eexists. split; [done|].
    destruct (Z.eqb_spec c 0); [|done]. intros _. rewrite (proj1 Hroot), Hc0 by done. by apply lower_cons.
  - destruct Hrest as (r & -> & Hr); [intros ->; by apply Hd0, Hroot|]. exists r. split; [done|]. intros Hf. apply lower_cons; auto.
Qed.

Lemma compare_names_spec labs' lo e cp : chain buf lo e cp labs' -> forall fuel dn labs,
  labs <> [] -> Forall is_label labs -> has src dn (wire labs) ->
  (2 * length labs + 2 <= fuel \/ 2 * length labs + 1 <= fuel /\ label_byte buf cp)%nat ->
  exists r, compare_names fuel src buf dn cp = Ok r /\ (r = Found -> lower_name labs' = lower_name labs).
Proof.
  induction 1 as [lo p Hp H|lo e p lab labs' Hp H Hl Hc IH|lo p n b lo' e' labs' Hp Hn Hf Hb Ht He Hc IH];
    intros fuel dn labs Hne Hlabs Hsrc Hfuel; (destruct fuel as [|fuel]; [lia|]).
  - cbn [compare_names]. rewrite (at_Some _ _ _ H). by exists Next.
  - destruct lab as [|n bs]; [done|]. destruct (plain_label n bs Hl) as [Hplain Hn']. pose proof H as [Hn _]%has_cons.
    destruct Hlabs as [|[|d bs'] labs Hlab Hlabs]; [done..|].
    destruct (Z.eq_dec n d) as [<-|Hd]; [destruct (Z.lt_ge_cases n 64) as [H64|H64]|].
    + destruct (plain_label n bs' Hlab) as [_ Hn2]. apply (compare_label fuel dn p n bs bs' labs' labs lo e); try done; [lia|].
      intros Hne'. apply IH; [done..| |left; simpl in Hfuel; lia]. rewrite wire_cons in Hsrc. apply has_app in Hsrc as [_ Hsrc]. simpl in Hsrc.
      replace (length bs) with (length bs') by lia. done.
    + exists Illegal. split; [|done]. cbn [compare_names]. rewrite (at_Some _ _ _ Hn). cbn [obind]. destruct Hl as (_ & Hn0 & Hf & _).
      rewrite (proj2 (Z.eqb_neq _ _) Hn0). destruct (Z.eqb_spec (Z.land n NS_CMPRSFLGS) 0) as [E|]; [apply Hplain in E; lia|].
      destruct Hf as [|Hf]; [done|]. by rewrite Hf.
    + cbn [compare_names]. pose proof (labellen_has _ _ _ H Hl) as Hll. simpl in Hll. rewrite Nat.sub_0_r in Hll.
      rewrite (at_Some _ _ _ Hn). cbn [obind]. replace (S p - 1)%nat with p by lia. destruct Hl as (_ & Hn0 & Hf & _). rewrite (proj2 (Z.eqb_neq _ _) Hn0).
      destruct (Z.eqb_spec (Z.land n NS_CMPRSFLGS) 0) as [E|E].
      * rewrite Hll. rewrite wire_cons in Hsrc. apply has_cons in Hsrc as [Hd' _]. rewrite (at_Some _ _ _ Hd'). cbn [obind].
        exists Next. rewrite <-Hn' by (by apply Hplain). by rewrite (proj2 (Z.eqb_neq _ _)).
      * exists Illegal. destruct Hf as [|Hf]; [done|]. by rewrite Hf.
  - cbn [compare_names]. rewrite (at_Some _ _ _ Hn). cbn [obind]. destruct (Z.eqb_spec n 0) as [->|]; [done|]. rewrite Hf. simpl.
    rewrite (at_Some _ _ _ Hb). cbn [obind]. apply IH; [done..|]. right. split; [|done].
    destruct Hfuel as [|[_ (n' & Hn' & _ & Hz)]]; [lia|]. simplify_eq. congruence.
Qed.

(** A place where the rest [labs] of the name can be found, in bytes before [n]. *)
Definition good_place (n : nat) (labs : list (list Z)) (p : nat) : Prop :=
  label_byte buf p /\ Z.of_nat p < 0x4000 /\ exists lo e labs', (e <= n)%nat /\ chain buf lo e p labs' /\ lower_name labs' = lower_name labs.

Lemma find_in_name_spec labs n : labs <> [] -> Forall is_label labs -> forall dn, has src dn (wire labs) -> (length labs <= length src)%nat ->
  forall fuel sp lo e labs', chain buf lo e sp labs' -> (e <= n)%nat -> (length buf - sp < fuel)%nat ->
  exists r p, find_in_name fuel src buf dn sp = Ok (r, p) /\ (r = Found -> good_place n labs p).
Proof.
  intros Hne Hlabs dn Hsrc Hlen. induction fuel as [|fuel IH]; intros sp lo e labs' Hc He Hf; [lia|]. cbn [find_in_name].
  destruct (chain_byte _ _ _ _ Hc) as (b & Hb & _). rewrite (at_Some _ _ _ Hb). cbn [obind].
  destruct (_ && _) eqn:Hlb; [|by exists Next, sp]. apply andb_true_iff in Hlb as [[Hb0%negb_true_iff%Z.eqb_neq Hfl%Z.eqb_eq]%andb_true_iff Hsp%Z.ltb_lt].
  destruct (compare_names_spec _ _ _ _ Hc (2 * length src + 2) dn labs) as (r & -> & Hr); [done..|left; lia|]. cbn [obind].
  destruct r; [| |by exists Illegal, sp].
  - exists Found, sp. split; [done|]. intros _. split_and!; [by exists b|done|]. exists lo, e, labs'. auto.
  - inversion Hc as [? ? ? H0|? ? ? lab labs1 Hp H Hl Hc1|? ? m ? ? ? ? ? Hm Hcf]; simplify_eq; [|congruence].
    destruct lab as [|m bs]; [done|]. apply has_cons in H as H'. destruct H' as [Hm _]. simplify_eq. destruct (plain_label b bs Hl) as [Hplain Hn].
    apply Hplain in Hfl. specialize (Hn Hfl). replace (sp + Z.to_nat b + 1)%nat with (sp + length (b :: bs))%nat by (simpl; lia).
    apply (IH _ lo e labs1); [done..|]. apply has_length in H. simpl in *. lia.
Qed.

Lemma dn_find_spec labs n dn ptrs : labs <> [] -> Forall is_label labs -> has src dn (wire labs) -> (length labs <= length src)%nat ->
  Forall (fun p => exists lo e labs', (e <= n)%nat /\ chain buf lo e p labs') ptrs ->
  exists r, dn_find src buf dn ptrs = Ok r /\ forall p, r = Some p -> good_place n labs p.
Proof.
  intros Hne Hlabs Hsrc Hlen Hptrs. induction Hptrs as [|p ptrs (lo & e & labs' & He & Hc) _ IH]; simpl; [by exists None|].
  destruct (find_in_name_spec labs n Hne Hlabs dn Hsrc Hlen (length buf + 1) p lo e labs' Hc He) as (r & q & -> & Hr); [lia|].
  cbn [obind]. destruct r; [|apply IH|by exists None]. exists (Some q). split; [done|]. intros ? [= <-]. auto.
Qed.
End find.

(** * Packing *)

Lemma write_at_spec buf p bs : (p + length bs <= length buf)%nat -> exists buf',
  write_at buf p bs = Ok buf' /\ length buf' = length buf /\ has buf' p bs /\ forall i, (i < p)%nat -> buf' !! i = buf !! i.
Proof.
  intros H. unfold write_at. rewrite (proj2 (Nat.leb_le _ _)) by lia. eexists. split_and!; [done|..].
  - rewrite !length_app, length_take, length_drop. lia.
  - intros i b Hb. rewrite lookup_app_r, length_take by (rewrite length_take; lia). replace (p + i - p `min` length buf)%nat with i by lia.
    by apply lookup_app_l_Some.
  - intros i Hi. rewrite lookup_app_l by (rewrite length_take; lia). by apply lookup_take_lt.
Qed.

Lemma pointer_bytes l : 0 <= l < 0x4000 ->
  Z.land (Z.lor (Z.shiftr l 8) NS_CMPRSFLGS) NS_CMPRSFLGS = NS_CMPRSFLGS /\
  pointer_offset (Z.lor (Z.shiftr l 8) NS_CMPRSFLGS) (l mod 256) = Z.to_nat l.
Proof.
  intros Hl. rewrite Z.shiftr_div_pow2 by done. assert (Hh : 0 <= l / 2 ^ 8 < 2 ^ 6) by (Z.to_euclidean_division_equations; lia).
  change NS_CMPRSFLGS with (3 * 2 ^ 6). rewrite Z.lor_comm, lor_low_bits by lia. split.
  - change (3 * 2 ^ 6) with (Z.shiftl (Z.ones 2) 6) at 2. rewrite land_field by lia. Z.to_euclidean_division_equations; lia.
  - unfold pointer_offset. change 0x3f with (Z.ones 6). change 0xff with (Z.ones 8). rewrite !Z.land_ones, Z.shiftl_mul_pow2 by done.
    rewrite (Z.mod_mod l) by done. rewrite lor_low_bits by (Z.to_euclidean_division_equations; lia). f_equal. Z.to_euclidean_division_equations; lia.
Qed.

(** The places in the list hold names before [dst]. *)
Definition places_ok (buf : list Z) (dst : nat) (ptrs : list nat) : Prop :=
  Forall (fun p => exists lo e labs, (e <= dst)%nat /\ chain buf lo e p labs) ptrs.

Lemma places_ok_ext buf buf' n dst ptrs :
  (forall i, (i < n)%nat -> buf' !! i = buf !! i) -> (dst <= n)%nat -> places_ok buf dst ptrs -> places_ok buf' dst ptrs.
Proof.
  intros Hn Hd H. apply (Forall_impl _ _ _ H). intros p (lo & e & labs & He & Hc). exists lo, e, labs. split; [done|].
  by apply (chain_ext buf buf' n); [|lia|].
Qed.

Section pack.
Context (src : list Z) (dnptrs : option (list nat)) (room : bool) (eob dst : nat).

(** What has been packed: the place behind the name, and the place that may have been added. *)
Definition packed (buf : list Z) (dstp : nat) (saved : option nat) (labs : list (list Z)) (e : nat) (saved' : option nat) : Prop :=
  (e <= eob)%nat /\ exists labs', chain buf dst e dstp labs' /\ lower_name labs' = lower_name labs /\
    forall p, saved' = Some p -> saved = Some p \/ exists labs1, chain buf dst e p labs1.

Definition pack_spec (buf : list Z) (dstp : nat) (saved : option nat) (labs : list (list Z)) (r : result (option nat * list Z * option nat)) : Prop :=
  exists e buf' saved', r = Ok (e, buf', saved') /\ length buf' = length buf /\ (forall i, (i < dstp)%nat -> buf' !! i = buf !! i) /\
    forall e', e = Some e' -> packed buf' dstp saved labs e' saved'.

Lemma pack_fails buf dstp saved labs saved' : pack_spec buf dstp saved labs (Ok (None, buf, saved')).
Proof. by exists None, buf, saved'. Qed.

(** The rest of the name is a pointer. *)
Lemma pack_pointer buf dstp saved labs p :
  good_place buf dst labs p -> (dst <= dstp)%nat -> (eob <= length buf)%nat ->
  pack_spec buf dstp saved labs
    (if (eob <=? dstp + 1)%nat then Ok (None, buf, saved) else
     buf <-- write_at buf dstp [Z.lor (Z.shiftr (Z.of_nat p) 8) NS_CMPRSFLGS; Z.of_nat p mod 256] ;;
     Ok (Some (dstp + 2)%nat, buf, saved)).
Proof.
  intros (Hlb & Hp & lo & e & labs' & He & Hc & Heq) Hd Hb. destruct (Nat.leb_spec eob (dstp + 1)); [apply pack_fails|].
  destruct (write_at_spec buf dstp [Z.lor (Z.shiftr (Z.of_nat p) 8) NS_CMPRSFLGS; Z.of_nat p mod 256]) as (buf' & -> & Hlen & Hhas & Hlt); [simpl; lia|].
  exists (Some (dstp + 2)%nat), buf', saved. split_and!; [done..|]. intros e' [= <-]. split; [lia|]. exists labs'. split_and!; [|done|by left].
  apply has_cons in Hhas as [Hn [Hm _]%has_cons]. destruct (pointer_bytes (Z.of_nat p)) as [Hf Ho]; [lia|]. rewrite Nat2Z.id in Ho.
  apply (chain_pointer buf' dst dstp _ _ lo e labs' Hd Hn Hf Hm); rewrite ?Ho.
  - destruct Hlb as (n & Hn' & Hz). exists n. rewrite Hlt; [done|]. apply chain_bounds in Hc. lia.
  - done.
  - by apply (chain_ext buf buf' dstp); [|lia|].
Qed.

Lemma pack_root fuel srcp dstp buf saved :
  has src srcp [0] -> (dst <= dstp)%nat -> (eob <= length buf)%nat ->
  pack_spec buf dstp saved [] (pack_loop (S fuel) src dnptrs room eob srcp dstp buf saved).
Proof.
  intros Hsrc Hd Hb. pose proof Hsrc as [Hn _]%has_cons. cbn [pack_loop]. rewrite (at_Some _ _ _ Hn). cbn [obind].
  replace (match dnptrs with Some ptrs => if negb (0 =? 0) then dn_find src buf srcp ptrs else Ok None | None => Ok None end)
    with (Ok (A := option nat) None) by (by destruct dnptrs). cbn [obind].
  replace (match dnptrs with Some _ => _ | None => saved end) with saved by (by destruct dnptrs, saved).
  change (Z.land 0 NS_CMPRSFLGS =? NS_CMPRSFLGS) with false. cbv iota.
  assert (labellen src srcp = Ok (Some 0%nat)) as -> by (unfold labellen; by rewrite (at_Some _ _ _ Hn)). cbn [obind].
  destruct (Nat.leb_spec eob (dstp + 1 + 0)); [apply pack_fails|]. pose proof (has_length _ _ _ _ Hsrc).
  change (0 + 1)%nat with (length [0]). rewrite bytes_at_has by done. cbn [obind].
  destruct (write_at_spec buf dstp [0]) as (buf' & -> & Hlen & Hhas & Hlt); [simpl; lia|]. cbn [obind Nat.eqb].
  rewrite (proj2 (Nat.ltb_ge _ _)) by lia. exists (Some (dstp + 0 + 1)%nat), buf', saved. split_and!; [done..|].
  intros e [= <-]. split; [lia|]. exists []. split_and!; [|done|by left]. apply has_cons in Hhas as [Hz _].
  replace (dstp + 0 + 1)%nat with (S dstp) by lia. by apply chain_root.
Qed.

Lemma pack_loop_spec labs : Forall is_label labs -> forall fuel srcp dstp buf saved,
  has src srcp (wire labs) -> (length labs <= length src)%nat -> (length labs < fuel)%nat -> (dst <= dstp)%nat -> (eob <= length buf)%nat ->
  (forall ptrs, dnptrs = Some ptrs -> places_ok buf dst ptrs) ->
  pack_spec buf dstp saved labs (pack_loop fuel src dnptrs room eob srcp dstp buf saved).
Proof.
  induction 1 as [|lab labs Hlab Hlabs IH]; intros fuel srcp dstp buf saved Hsrc Hlen Hfuel Hd Hb Hptrs; (destruct fuel as [|fuel]; [lia|]).
  { by apply pack_root. }
  cbn [pack_loop]. pose proof Hsrc as Hsrc'. rewrite wire_cons in Hsrc'. apply has_app in Hsrc' as [Hl Hrest].
  pose proof (labellen_has _ _ _ Hl Hlab) as Hll. destruct lab as [|n bs]; [done|]. pose proof Hl as [Hn _]%has_cons. rewrite (at_Some _ _ _ Hn). cbn [obind].
  pose proof Hlab as (_ & Hn0 & Hf & _). rewrite (proj2 (Z.eqb_neq _ _) Hn0). cbn [negb].
  assert (exists r, (match dnptrs with Some ptrs => dn_find src buf srcp ptrs | None => Ok None end) = Ok r /\
    forall p, r = Some p -> good_place buf dst ((n :: bs) :: labs) p) as (r & -> & Hr).
  { destruct dnptrs as [ptrs|]; [|by exists None]. apply dn_find_spec; [done|by constructor|done|done|by apply Hptrs]. }
  cbn [obind]. destruct r as [p|]; [apply pack_pointer; auto|]. clear Hr. simpl in Hll. rewrite Nat.sub_0_r in Hll. rewrite Hll.
  set (saved1 := match dnptrs with Some _ => _ | None => _ end).
  assert (Hs1 : forall p, saved1 = Some p -> saved = Some p \/ p = dstp).
  { subst saved1. intros p. destruct dnptrs, saved; try (by left). destruct (_ && _); [|done]. intros [= <-]. by right. }
  clearbody saved1. destruct (Z.eqb_spec (Z.land n NS_CMPRSFLGS) NS_CMPRSFLGS); [apply pack_fails|]. cbn [obind].
  destruct (Nat.leb_spec eob (dstp + 1 + length bs)); [apply pack_fails|]. pose proof (has_length _ _ _ _ Hl).
  replace (length bs + 1)%nat with (length (n :: bs)) by (simpl; lia). rewrite bytes_at_has by done. cbn [obind].
  destruct (write_at_spec buf dstp (n :: bs)) as (buf1 & -> & Hlen1 & Hhas & Hlt); [simpl; lia|]. cbn [obind].
  pose proof (plain_length n bs Hlab) as Hbs. rewrite (proj2 (Nat.eqb_neq _ _)) by lia.
  replace (srcp + length bs + 1)%nat with (srcp + length (n :: bs))%nat by (simpl; lia).
  replace (dstp + length bs + 1)%nat with (dstp + length (n :: bs))%nat by (simpl; lia).
  destruct (IH fuel (srcp + length (n :: bs))%nat (dstp + length (n :: bs))%nat buf1 saved1) as (e & buf' & saved' & -> & Hlen' & Hlt' & Hp);
    [done|simpl in *; lia..| |].
  { intros ptrs Hp. apply (places_ok_ext buf buf1 dstp); auto. }
  exists e, buf', saved'. split_and!; [done|lia|intros i Hi; rewrite Hlt' by (simpl; lia); auto|].
  intros e' He'. destruct (Hp e' He') as (Hle & labs' & Hc & Heq & Hsv).
  assert (Hc' : chain buf' dst e' dstp ((n :: bs) :: labs')).
  { apply chain_label; [done| |done|done]. by apply (has_ext buf1 buf' (dstp + length (n :: bs))). }
  split; [done|]. exists ((n :: bs) :: labs'). split_and!; [done|by apply lower_cons|].
  intros p Hsp. destruct (Hsv p Hsp) as [[?| ->]%Hs1|?]; eauto.
Qed.
End pack.

Lemma check_name_spec src labs : Forall is_label labs -> forall fuel srcp l,
  has src srcp (wire labs) -> (NS_MAXCDNAME + 2 <= l + fuel)%nat -> (l <= NS_MAXCDNAME)%nat ->
  check_name fuel src srcp l = Ok (if (l + length (wire labs) <=? NS_MAXCDNAME)%nat then None else Some EMSGSIZE).
Proof.
  induction 1 as [|lab labs Hlab Hlabs IH]; intros fuel srcp l Hsrc Hfuel Hl; (destruct fuel as [|fuel]; [lia|]); cbn [check_name].
  - apply has_cons in Hsrc as [Hn _]. rewrite (at_Some _ _ _ Hn). cbn [obind].
    assert (labellen src srcp = Ok (Some 0%nat)) as -> by (unfold labellen; by rewrite (at_Some _ _ _ Hn)). simpl.
    destruct (Nat.leb_spec (l + 1) NS_MAXCDNAME), (Nat.ltb_spec NS_MAXCDNAME (l + 0 + 1)); done || lia.
  - rewrite wire_cons in *. apply has_app in Hsrc as [Hsrc Hrest]. pose proof (labellen_has _ _ _ Hsrc Hlab) as Hll. destruct lab as [|n bs]; [done|].
    apply has_cons in Hsrc as [Hn _]. rewrite (at_Some _ _ _ Hn). cbn [obind]. destruct Hlab as (_ & Hn0 & Hf & _). simpl in Hll. rewrite Nat.sub_0_r in Hll.
    rewrite (proj2 (Z.eqb_neq (Z.land n _) _)) by (destruct Hf as [-> | ->]; done). rewrite Hll, (proj2 (Z.eqb_neq _ _) Hn0). cbn [obind].
    rewrite length_app. change (length (n :: bs)) with (S (length bs)) in *. destruct (Nat.ltb_spec NS_MAXCDNAME (l + length bs + 1)).
    + rewrite (proj2 (Nat.leb_gt _ _)) by lia. done.
    + rewrite IH; [do 2 f_equal; destruct (Nat.leb_spec (l + length bs + 1 + length (wire labs)) NS_MAXCDNAME), (Nat.leb_spec (l + (S (length bs) + length (wire labs))) NS_MAXCDNAME); done || lia|..];
        [by replace (srcp + length bs + 1)%nat with (srcp + S (length bs))%nat by lia|lia..].
Qed.

Lemma labs_length labs : Forall is_label labs -> (length labs < length (wire labs))%nat.
Proof. induction 1 as [|lab labs Hl%label_length _ IH]; [simpl; lia|]. rewrite wire_cons, length_app. simpl. lia. Qed.

(** One call of [ns_name_pack] for a name that does not exceed 255 bytes. *)
Lemma ns_name_pack_spec labs buf dst dstsiz ptrs slots :
  Forall is_label labs -> (dst + dstsiz <= length buf)%nat -> places_ok buf dst ptrs ->
  exists r buf' ptrs', ns_name_pack (wire labs) buf dst dstsiz (Some ptrs) slots = Ok (r, buf', Some ptrs') /\
    length buf' = length buf /\ (forall i, (i < dst)%nat -> buf' !! i = buf !! i) /\
    match r with
    | inl _ => ptrs' = ptrs
    | inr n => (n <= dstsiz)%nat /\ (length (wire labs) <= NS_MAXCDNAME)%nat /\ places_ok buf' (dst + n) ptrs' /\
        exists labs', chain buf' dst (dst + n) dst labs' /\ lower_name labs' = lower_name labs
    end.
Proof.
  intros Hlabs Hd Hptrs. unfold ns_name_pack. pose proof (labs_length labs Hlabs) as Hlen.
  rewrite (check_name_spec _ labs) by (done || lia || apply has_self). cbn [obind]. destruct (Nat.leb_spec (0 + length (wire labs)) NS_MAXCDNAME) as [Hle|]; [|by eexists _, _, _].
  set (room := match slots with Some _ => _ | None => _ end).
  destruct (pack_loop_spec (wire labs) (Some ptrs) room (dst + dstsiz) dst labs Hlabs (NS_MAXCDNAME + 2) 0 dst buf None) as (e & buf' & saved & -> & Hlen' & Hlt & Hp);
    [apply has_self|lia..|by intros ? [= <-]|]. cbn [obind]. destruct e as [e|]; [|by eexists _, _, _].
  destruct (Hp e eq_refl) as (He & labs' & Hc & Heq & Hsv). pose proof (chain_bounds _ _ _ _ _ Hc) as Hb.
  exists (inr (e - dst)%nat), buf', (match saved with Some p => ptrs ++ [p] | None => ptrs end). split_and!; [by destruct saved|done..|lia|lia| |].
  - replace (dst + (e - dst))%nat with e by lia.
    assert (Hold : places_ok buf' e ptrs).
    { apply (Forall_impl _ _ _ (places_ok_ext buf buf' dst dst ptrs Hlt (le_n _) Hptrs)). intros p (lo & e' & l & ? & ?). exists lo, e', l. split; [lia|done]. }
    destruct saved as [p|]; [|done]. destruct (Hsv p eq_refl) as [|(labs1 & Hc1)]; [done|]. apply Forall_app. split; [done|].
    constructor; [|constructor]. exists dst, e, labs1. done.
  - replace (dst + (e - dst))%nat with e by lia. by exists labs'.
Qed.

(** * Messages *)

(** A message is built from names and other data; what does not fit is left out. *)
Inductive item := Data (bs : list Z) | DomainName (labs : list (list Z)).

(** The buffer, the number of bytes used, and the names with their places and sizes. *)
Fixpoint build (slots : option nat) (items : list item) (buf : list Z) (off : nat) (ptrs : list nat)
    : result (list Z * nat * list (nat * list (list Z) * nat)) :=
  match items with
  | [] => Ok (buf, off, [])
  | Data bs :: items =>
      if (off + length bs <=? length buf)%nat then
        buf <-- write_at buf off bs ;;
        build slots items buf (off + length bs) ptrs
      else build slots items buf off ptrs
  | DomainName labs :: items =>
      r <-- ns_name_pack (wire labs) buf off (length buf - off) (Some ptrs) slots ;;
      match r with
      | (inr n, buf, ptrs) =>
          r <-- build slots items buf (off + n) (default [] ptrs) ;;
          let '(buf, e, names) := r in
          Ok (buf, e, (off, labs, n) :: names)
      | (inl _, buf, ptrs) => build slots items buf off (default [] ptrs)
      end
  end.

(** A name that is in the buffer to stay. *)
Definition settled (buf : list Z) (off : nat) (x : nat * list (list Z) * nat) : Prop :=
  let '(p, labs, n) := x in
  (p + n <= off)%nat /\ (length (wire labs) <= NS_MAXCDNAME)%nat /\
  exists labs', chain buf p (p + n) p labs' /\ lower_name labs' = lower_name labs.

Lemma settled_ext buf buf' n off off' x :
  (forall i, (i < n)%nat -> buf' !! i = buf !! i) -> (off <= n)%nat -> (off <= off')%nat -> settled buf off x -> settled buf' off' x.
Proof.
  destruct x as [[p labs] m]. intros Hn Ho Ho' (Hle & ? & labs' & Hc & Heq). split_and!; [lia|done|]. exists labs'. split; [|done].
  by apply (chain_ext buf buf' n); [|lia|].
Qed.

Lemma build_spec slots items : Forall (fun x => match x with DomainName labs => Forall is_label labs | Data _ => True end) items ->
  forall buf off ptrs, (off <= length buf)%nat -> places_ok buf off ptrs ->
  exists buf' off' names, build slots items buf off ptrs = Ok (buf', off', names) /\
    (off <= off')%nat /\ length buf' = length buf /\ (off' <= length buf)%nat /\ (forall i, (i < off)%nat -> buf' !! i = buf !! i) /\
    Forall (settled buf' off') names.
Proof.
  induction 1 as [|x items Hx Hitems IH]; intros buf off ptrs Ho Hptrs; simpl; [by exists buf, off, []|]. destruct x as [bs|labs].
  - destruct (Nat.leb_spec (off + length bs) (length buf)); [|by apply IH].
    destruct (write_at_spec buf off bs) as (buf1 & -> & Hlen & _ & Hlt); [done|]. cbn [obind].
    destruct (IH buf1 (off + length bs)%nat ptrs) as (buf' & off' & names & -> & H1 & H2 & H3 & H4 & H5); [lia| |].
    { apply (Forall_impl _ _ _ (places_ok_ext buf buf1 off off ptrs Hlt (le_n _) Hptrs)). intros p (lo & e' & l & ? & ?). exists lo, e', l. split; [lia|done]. }
    exists buf', off', names. split_and!; [done|lia..| |done]. intros i Hi. rewrite H4, Hlt by lia. done.
  - destruct (ns_name_pack_spec labs buf off (length buf - off) ptrs slots) as (r & buf1 & ptrs1 & -> & Hlen & Hlt & Hr); [done|lia|done|]. cbn [obind]. change (default [] (Some ptrs1)) with ptrs1.
    destruct r as [e|n].
    + subst ptrs1. destruct (IH buf1 off ptrs) as (buf' & off' & names & -> & H1 & H2 & H3 & H4 & H5); [lia|by apply (places_ok_ext buf _ off)|].
      exists buf', off', names. split_and!; [done|lia..| |done]. intros i Hi. rewrite H4, Hlt by lia. done.
    + destruct Hr as (Hn & Hmax & Hp1 & labs' & Hc & Heq).
      destruct (IH buf1 (off + n)%nat ptrs1) as (buf' & off' & names & -> & H1 & H2 & H3 & H4 & H5); [lia|done|]. cbn [obind].
      exists buf', off', ((off, labs, n) :: names). split_and!; [done|lia..| |].
      * intros i Hi. rewrite H4, Hlt by lia. done.
      * constructor; [|done]. apply (settled_ext buf1 buf' (off + n) (off + n)); [done|lia..|]. split_and!; [lia|done|]. by exists labs'.
Qed.

Lemma chain_labels buf lo e p labs : chain buf lo e p labs -> Forall is_label labs.
Proof. induction 1; by try constructor. Qed.

(** What [ns_name_unpack2] makes of it. *)
Lemma settled_unpack buf off p labs n : (off <= length buf)%nat -> settled buf off (p, labs, n) ->
  exists labs', Forall is_label labs' /\ lower_name labs' = lower_name labs /\
    forall dstsiz, (length (wire labs) <= dstsiz)%nat -> ns_name_unpack2 (take off buf) (Z.of_nat p) dstsiz = Ok (inr (n, wire labs')).
Proof.
  intros Ho (Hle & _ & labs' & Hc & Heq). exists labs'. split_and!; [by eapply chain_labels|done|].
  intros dstsiz Hd. assert (Hlen' : length (take off buf) = off) by (rewrite length_take; lia).
  assert (Hc' : chain (take off buf) p (p + n) p labs').
  { apply (chain_ext buf _ off); [|done..]. intros i Hi. by apply lookup_take_lt. }
  pose proof (chain_bounds _ _ _ _ _ Hc'). pose proof (chain_den _ _ _ _ _ Hc' 0) as Hden. unfold ns_name_unpack2.
  rewrite (proj2 (Z.ltb_ge _ _)), (proj2 (Z.leb_gt _ _)) by lia. cbn [orb]. rewrite Nat2Z.id.
  rewrite (unpack_loop_complete (take off buf) 0 p labs' (p + n)); [|apply Hden; lia|done|rewrite (lower_length labs' labs) by done; simpl; lia|simpl; lia].
  simpl. do 3 f_equal. lia.
Qed.

(** A message is built from the header on by calls of ns_name_pack, with other data in between, in a buffer of any
    size and with any room for the list of places.  No call goes outside the buffer, and ns_name_unpack2 finds every name that was
    packed at its place, of the size that was returned, and equal but for the case of letters. *)
Theorem pack_unpack slots items buf :
  Forall (fun x => match x with DomainName labs => Forall is_label labs | Data _ => True end) items ->
  exists buf' off names, build slots items buf 0 [] = Ok (buf', off, names) /\
    forall p labs n, (p, labs, n) ∈ names -> exists labs', lower_name labs' = lower_name labs /\
      forall dstsiz, (length (wire labs) <= dstsiz)%nat ->
        ns_name_unpack2 (take off buf') (Z.of_nat p) dstsiz = Ok (inr (n, wire labs')).
Proof.
  intros Hitems. destruct (build_spec slots items Hitems buf 0 []) as (buf' & off & names & -> & _ & Hlen & Ho & _ & Hnames); [lia|constructor|].
  exists buf', off, names. split; [done|]. intros p labs n Hin. rewrite Forall_forall in Hnames. destruct (settled_unpack buf' off p labs n) as (labs' & _ & ? & ?); [lia|by apply Hnames|].
  by exists labs'.
Qed.

(** Names of ordinary labels, and two messages. *)
Definition label (s : string) : list Z := Z.of_nat (length (chars s)) :: chars s.

Definition ex_items : list item :=
  [Data [0; 1; 1; 0; 0; 1; 0; 0; 0; 0; 0; 0]; DomainName [label "www"; label "example"; label "com"]; Data [0; 1; 0; 1];
   DomainName [label "mail"; label "Example"; label "com"]; DomainName [label "WWW"; label "example"; label "com"]; DomainName []].

Lemma pack_unpack_witness :
  exists buf' off names, build (Some 8%nat) ex_items (replicate 60 0) 0 [] = Ok (buf', off, names) /\
    forall p labs n, (p, labs, n) ∈ names -> exists labs', lower_name labs' = lower_name labs /\
      forall dstsiz, (length (wire labs) <= dstsiz)%nat ->
        ns_name_unpack2 (take off buf') (Z.of_nat p) dstsiz = Ok (inr (n, wire labs')).
Proof.
  apply (pack_unpack (Some 8%nat) ex_items (replicate 60 0)).
  repeat constructor; simpl; unfold is_byte; lia.
Defined.

(** The first name takes 17 bytes; the second shares its end and takes 7; the third is a pointer. *)
Example ex_message : match build (Some 8%nat) ex_items (replicate 60 0) 0 [] with
  | Ok (buf, off, names) =>
      off = 43%nat /\ (fun x => (x.1.1, x.2)) <$> names = [(12, 17); (33, 7); (40, 2); (42, 1)]%nat /\
      take 10 (drop 33 buf) = [4; 109; 97; 105; 108; 0xc0; 16; 0xc0; 12; 0]
  | _ => False
  end.
Proof. vm_compute. repeat split; reflexivity. Qed.
