(* ===== verification/NsText.v ===== *)
(** Domain names as text: the presentation format of libc/dns/nameser/ns_name.c, and its composition with the
    wire format.

    [ns_name_ntop] prints a name, with a backslash before characters that mean something and the others as
    three digits; [ns_name_pton2] reads it back.  Bit strings, labels of RFC 2673, are printed in hexadecimal.  A
    character is unsigned, as it is on ARM. *)

From S2P Require Import Prelude Result Ctype StrTol NsName NsPack.

(** * Printing *)

Definition special (ch : Z) : bool := bool_decide (ch ∈ [0x22; 0x2e; 0x3b; 0x5c; 0x28; 0x29; 0x40; 0x24]).

Definition printable (ch : Z) : bool := (0x20 <? ch) && (ch <? 0x7f).

(** [%02x] of a byte. *)
Definition hex_byte (b : Z) : list Z := [hex_digit (b / 16); hex_digit (b mod 16)].

(** The bits of a bit string: [b] are left. *)
Fixpoint decode_bits (fuel : nat) (src : list Z) (cp dstsiz : nat) (b : Z) (out : list Z) : result (nat * list Z) :=
  match fuel with
  | O => Fault
  | S fuel =>
      if 7 <? b then
        c <-- at_ src cp ;;
        out <-- emit dstsiz out (hex_byte c) ;;
        decode_bits fuel src (S cp) dstsiz (b - 8) out
      else if 4 <? b then
        tc <-- at_ src cp ;;
        out <-- emit dstsiz out (hex_byte (Z.land tc (Z.shiftl 0xff (8 - b)))) ;;
        Ok (S cp, out)
      else if 0 <? b then
        tc <-- at_ src cp ;;
        out <-- emit dstsiz out [hex_digit (Z.land (Z.land (Z.shiftr tc 4) 0x0f) (Z.shiftl 0x0f (4 - b)))] ;;
        Ok (S cp, out)
      else Ok (cp, out)
  end.

(** The place behind the label and the text; [None] is -1. *)
Definition decode_bitstring (src : list Z) (cp dstsiz : nat) (out : list Z) : result (option (nat * list Z)) :=
  n <-- at_ src cp ;;
  let blen := if Z.land n 0xff =? 0 then 256 else Z.land n 0xff in
  let plen := (blen + 3) / 4 + 6 + (if 99 <? blen then 3 else if 9 <? blen then 2 else 1) in
  if Z.of_nat dstsiz <=? Z.of_nat (length out) + plen then Ok None else
  out <-- emit dstsiz out (chars "\[x") ;;
  r <-- decode_bits 34 src (S cp) dstsiz blen out ;;
  let '(cp, out) := r in
  out <-- emit dstsiz out (chars "/" ++ decimal blen ++ chars "]") ;;
  Ok (Some (cp, out)).

(** The loop over the [l] characters of a label; [None] is the failure. *)
Fixpoint ntop_label (src : list Z) (cp l dstsiz : nat) (out : list Z) : result (option (list Z)) :=
  match l with
  | O => Ok (Some out)
  | S l =>
      c <-- at_ src cp ;;
      if special c then
        if (dstsiz <=? length out + 1)%nat then Ok None else
        out <-- emit dstsiz out [0x5c; c] ;;
        ntop_label src (S cp) l dstsiz out
      else if negb (printable c) then
        if (dstsiz <=? length out + 3)%nat then Ok None else
        out <-- emit dstsiz out [0x5c; 48 + c / 100; 48 + c mod 100 / 10; 48 + c mod 10] ;;
        ntop_label src (S cp) l dstsiz out
      else
        if (dstsiz <=? length out)%nat then Ok None else
        out <-- emit dstsiz out [c] ;;
        ntop_label src (S cp) l dstsiz out
  end.

Fixpoint ntop_loop (fuel : nat) (src : list Z) (cp dstsiz : nat) (out : list Z) : result (Z + list Z) :=
  match fuel with
  | O => Fault
  | S fuel =>
      n <-- at_ src cp ;;
      let cp := S cp in
      if n =? 0 then Ok (inr out) else
      if Z.land n NS_CMPRSFLGS =? NS_CMPRSFLGS then Ok (inl EMSGSIZE) else
      if negb (length out =? 0)%nat && (dstsiz <=? length out)%nat then Ok (inl EMSGSIZE) else
      out <-- (if (length out =? 0)%nat then Ok out else emit dstsiz out [0x2e]) ;;
      l <-- labellen src (cp - 1) ;;
      match l with
      | None => Ok (inl EMSGSIZE)
      | Some l =>
          if (dstsiz <=? length out + l)%nat then Ok (inl EMSGSIZE) else
          if Z.land n NS_CMPRSFLGS =? NS_TYPE_ELT then
            if negb (n =? DNS_LABELTYPE_BITSTRING) then Ok (inl EINVAL) else
            r <-- decode_bitstring src cp dstsiz out ;;
            match r with
            | None => Ok (inl EMSGSIZE)
            | Some (cp, out) => ntop_loop fuel src cp dstsiz out
            end
          else
            r <-- ntop_label src cp l dstsiz out ;;
            match r with
            | None => Ok (inl EMSGSIZE)
            | Some out => ntop_loop fuel src (cp + l) dstsiz out
            end
      end
  end.

(** The number of bytes written, and the bytes. *)
Definition ns_name_ntop (src : list Z) (dstsiz : nat) : result (Z + nat * list Z) :=
  r <-- ntop_loop (length src + 1) src 0 dstsiz [] ;;
  match r with
  | inl e => Ok (inl e)
  | inr out =>
      if (length out =? 0)%nat && (dstsiz <=? length out)%nat then Ok (inl EMSGSIZE) else
      out <-- (if (length out =? 0)%nat then emit dstsiz out [0x2e] else Ok out) ;;
      if (dstsiz <=? length out)%nat then Ok (inl EMSGSIZE) else
      out <-- emit dstsiz out [0] ;;
      Ok (inr (length out, out))
  end.

(** * Reading *)

Definition digitvalue (c : Z) : Z :=
  if isdigit c then c - 48 else if (65 <=? c) && (c <=? 70) then c - 55 else if (97 <=? c) && (c <=? 102) then c - 87 else -1.

(** The digits after the slash of a bit string, at [beg_blen]. *)
Definition bit_length (str : list Z) (afterslash : bool) (beg_blen : option nat) : result (Z + Z) :=
  if negb afterslash then Ok (inr 0) else
  match beg_blen with
  | None => Ok (inl EINVAL)
  | Some beg =>
      r <-- run (strtol (drop beg str) 10) ;;
      c <-- at_ str (beg + Z.to_nat (st_end r)) ;;
      if negb (c =? 0x5d) then Ok (inl EINVAL) else Ok (inr (wrapS 32 (st_value r)))
  end.

(** The loop of encode_bitsring: the place behind the bracket, the length, the last value, the number of
    bits and the bytes.  [tp] is the index of the first byte. *)
Fixpoint encode_bits (fuel : nat) (str : list Z) (cp endp tp dstsiz : nat) (afterslash : bool) (beg_blen : option nat)
    (value count tbcount : Z) (data : list Z) : result (Z + nat * Z * Z * Z * list Z) :=
  match fuel with
  | O => Fault
  | S fuel =>
      if negb ((cp <? endp)%nat && (tp + length data <? dstsiz)%nat) then Ok (inl EMSGSIZE) else
      c <-- at_ str cp ;;
      if c =? 0x5d then
        blen <-- bit_length str afterslash beg_blen ;;
        match blen with
        | inl e => Ok (inl e)
        | inr blen =>
            let data := if negb (count =? 0) then data ++ [Z.land (Z.shiftl value 4) 0xff] else data in
            if (endp <=? S cp)%nat || (dstsiz <=? tp + length data)%nat then Ok (inl EMSGSIZE)
            else Ok (inr (S cp, blen, value, tbcount, data))
        end
      else if c =? 0x2f then encode_bits fuel str (S cp) endp tp dstsiz true beg_blen value count tbcount data
      else if afterslash then
        if negb (isdigit c) then Ok (inl EINVAL) else
        match beg_blen with
        | None =>
            if c =? 0x30 then Ok (inl EINVAL)
            else encode_bits fuel str (S cp) endp tp dstsiz afterslash (Some cp) value count tbcount data
        | Some _ => encode_bits fuel str (S cp) endp tp dstsiz afterslash beg_blen value count tbcount data
        end
      else if negb (isxdigit c) then Ok (inl EINVAL)
      else
        let value := wrapS 32 (Z.shiftl value 4 + digitvalue c) in
        let count := count + 4 in
        let tbcount := tbcount + 4 in
        if 256 <? tbcount then Ok (inl EINVAL) else
        if count =? 8 then encode_bits fuel str (S cp) endp tp dstsiz afterslash beg_blen value 0 tbcount (data ++ [wrapU 8 value])
        else encode_bits fuel str (S cp) endp tp dstsiz afterslash beg_blen value count tbcount data
  end.

(** The place behind the bracket and the bytes behind the type of the label, or an errno value. *)
Definition encode_bitsring (str : list Z) (bp endp dst dstsiz : nat) : result (Z + nat * list Z) :=
  if (endp - bp <? 2)%nat then Ok (inl EINVAL) else
  x <-- at_ str bp ;;
  if negb (x =? 0x78) then Ok (inl EINVAL) else
  c <-- at_ str (S bp) ;;
  if negb (isxdigit c) then Ok (inl EINVAL) else
  r <-- encode_bits (length str) str (S bp) endp (S dst) dstsiz false None 0 0 0 [] ;;
  match r with
  | inl e => Ok (inl e)
  | inr (cp, blen, value, tbcount, data) =>
      let traillen := tbcount - blen in
      if (0 <? blen) && (negb (Z.land (blen + 3) (Z.lnot 3) =? tbcount) || negb (Z.land (Z.shiftl value (8 - traillen)) 0xff =? 0))
      then Ok (inl EINVAL) else
      let blen := if 0 <? blen then blen else tbcount in
      Ok (inr (cp, (if blen =? 256 then 0 else blen) :: data))
  end.

(** The index of the first [c], if there is one before the terminator. *)
Fixpoint index_of (c : Z) (str : list Z) : result (option nat) :=
  match str with
  | [] => Fault
  | d :: str => if d =? c then Ok (Some 0%nat) else if d =? 0 then Ok None else omap_ok (fmap S) (index_of c str)
  end.

(** The digit [c] of an escape. *)
Definition escape_digit (c : Z) : option Z := if isdigit c then Some (c - 48) else None.

(** The label at [label] is complete, its length is [c]: the end of the name. *)
Definition pton_done (dstsiz label : nat) (out : list Z) (c : Z) (qualified : Z) : result (Z + Z * list Z) :=
  if (dstsiz <=? label)%nat then Ok (inl EMSGSIZE) else
  let out := <[label := c]> out in
  if negb (c =? 0) && (dstsiz <=? length out)%nat then Ok (inl EMSGSIZE) else
  let out := if negb (c =? 0) then out ++ [0] else out in
  if (NS_MAXCDNAME <? length out)%nat then Ok (inl EMSGSIZE) else Ok (inr (qualified, out)).

(** The loop of ns_name_pton2.  [out] holds the bytes up to [bp], with the length of the label to come at
    [label]. *)
Fixpoint pton_loop (fuel : nat) (str : list Z) (pos dstsiz label : nat) (out : list Z) (escaped : bool)
    : result (Z + Z * list Z) :=
  match fuel with
  | O => Fault
  | S fuel =>
      let store c pos :=
        if (dstsiz <=? length out)%nat then Ok (inl EMSGSIZE)
        else pton_loop fuel str pos dstsiz label (out ++ [wrapU 8 c]) false in
      let len := Z.of_nat (length out) - Z.of_nat label - 1 in
      c <-- at_ str pos ;;
      let pos := S pos in
      if c =? 0 then
        if negb (Z.land len NS_CMPRSFLGS =? 0) then Ok (inl EMSGSIZE) else pton_done dstsiz label out len 0
      else if escaped then
        if c =? 0x5b then
          cp <-- index_of 0x5d (drop pos str) ;;
          match cp with
          | None => Ok (inl EINVAL)
          | Some k =>
              r <-- encode_bitsring str pos (pos + k + 2) (length out) dstsiz ;;
              match r with
              | inl e => Ok (inl e)
              | inr (pos, bits) =>
                  let out := <[label := DNS_LABELTYPE_BITSTRING]> out ++ bits in
                  let label := length out in
                  let out := out ++ [0] in
                  c <-- at_ str pos ;;
                  if c =? 0 then pton_done dstsiz label out 0 0 else
                  if negb (c =? 0x2e) then Ok (inl EINVAL) else
                  pton_loop fuel str (S pos) dstsiz label out false
              end
          end
        else
          match escape_digit c with
          | Some d1 =>
              c2 <-- at_ str pos ;;
              match escape_digit c2 with
              | None => Ok (inl EMSGSIZE)
              | Some d2 =>
                  c3 <-- at_ str (S pos) ;;
                  match escape_digit c3 with
                  | None => Ok (inl EMSGSIZE)
                  | Some d3 =>
                      let n := d1 * 100 + d2 * 10 + d3 in
                      if 255 <? n then Ok (inl EMSGSIZE) else store n (S (S pos))
                  end
              end
          | None => store c pos
          end
      else if c =? 0x5c then pton_loop fuel str pos dstsiz label out true
      else if c =? 0x2e then
        if negb (Z.land len NS_CMPRSFLGS =? 0) then Ok (inl EMSGSIZE) else
        if (dstsiz <=? label)%nat then Ok (inl EMSGSIZE) else
        next <-- at_ str pos ;;
        if next =? 0 then pton_done dstsiz label out len 1 else
        if (len =? 0) || (next =? 0x2e) then Ok (inl EMSGSIZE) else
        let out := <[label := len]> out in
        pton_loop fuel str pos dstsiz (length out) (out ++ [0]) false
      else store c pos
  end.

(** 1 if the name was fully qualified and 0 if not, and the name. *)
Definition ns_name_pton2 (src : list Z) (dstsiz : nat) : result (Z + Z * list Z) :=
  pton_loop (length src + 1) src 0 dstsiz 0 [0] false.

(** * Both formats *)

Definition ns_name_uncompress (msg : list Z) (src : Z) (dstsiz : nat) : result (Z + nat * list Z) :=
  r <-- ns_name_unpack2 msg src NS_MAXCDNAME ;;
  match r with
  | inl e => Ok (inl e)
  | inr (n, tmp) =>
      r <-- ns_name_ntop tmp dstsiz ;;
      match r with inl e => Ok (inl e) | inr (_, text) => Ok (inr (n, text)) end
  end.

Definition ns_name_compress (src buf : list Z) (dst dstsiz : nat) (dnptrs : option (list nat)) (slots : option nat)
    : result ((Z + nat) * list Z * option (list nat)) :=
  r <-- ns_name_pton2 src NS_MAXCDNAME ;;
  match r with
  | inl e => Ok (inl e, buf, dnptrs)
  | inr (_, tmp) => ns_name_pack tmp buf dst dstsiz dnptrs slots
  end.

(** * The text of a name *)

(** An ordinary label, and its bytes with the length in front. *)
Definition plain (bs : list Z) : Prop := Forall is_byte bs /\ (0 < length bs < 64)%nat.
Definition plab (bs : list Z) : list Z := Z.of_nat (length bs) :: bs.
Definition encoded (ls : list (list Z)) : list Z := wire (plab <$> ls).

Definition escape (c : Z) : list Z :=
  if special c then [0x5c; c] else if printable c then [c] else [0x5c; 48 + c / 100; 48 + c mod 100 / 10; 48 + c mod 10].

Definition label_text (bs : list Z) : list Z := concat (escape <$> bs).

(** The labels with a dot before each, and with dots between them. *)
Definition rest_text (ls : list (list Z)) : list Z := concat ((fun bs => 0x2e :: label_text bs) <$> ls).

Definition dotted (ls : list (list Z)) : list Z :=
  match ls with [] => [] | bs :: ls => label_text bs ++ rest_text ls end.

(** What is printed: the root is a dot. *)
Definition name_text (ls : list (list Z)) : list Z := match ls with [] => [0x2e] | _ => dotted ls end.

Lemma plain_is_label bs : plain bs -> is_label (plab bs).
Proof. intros [H1 H2]. by apply is_label_plain. Qed.

Lemma plain_labels ls : Forall plain ls -> Forall is_label (plab <$> ls).
Proof. intros H. apply Forall_fmap. apply (Forall_impl _ _ _ H), plain_is_label. Qed.

Lemma plain_flags bs : plain bs -> Z.land (Z.of_nat (length bs)) NS_CMPRSFLGS = 0.
Proof. intros [_ H]. change NS_CMPRSFLGS with (3 * 2 ^ 6). rewrite Z.land_comm. apply land_low_bits; lia. Qed.

Lemma encoded_cons bs ls : encoded (bs :: ls) = plab bs ++ encoded ls.
Proof. apply wire_cons. Qed.

Lemma label_text_cons c bs : label_text (c :: bs) = escape c ++ label_text bs.
Proof. done. Qed.

Lemma label_text_length bs : (length bs <= length (label_text bs))%nat.
Proof.
  induction bs as [|c bs IH]; [done|]. rewrite label_text_cons, length_app. simpl.
  enough (0 < length (escape c))%nat by lia. unfold escape. repeat case_match; simpl; lia.
Qed.

Lemma rest_text_cons bs ls : rest_text (bs :: ls) = 0x2e :: label_text bs ++ rest_text ls.
Proof. done. Qed.

(** * Printing *)

(** One character is printed if there is room for it. *)
Lemma ntop_label_step src cp c l dstsiz out : src !! cp = Some c ->
  ntop_label src cp (S l) dstsiz out
  = if (dstsiz <? length out + length (escape c))%nat then Ok None else ntop_label src (S cp) l dstsiz (out ++ escape c).
Proof.
  intros H. cbn [ntop_label]. rewrite (at_Some _ _ _ H). cbn [obind]. unfold escape.
  destruct (special c); [|destruct (printable c)]; cbn [negb length];
    (match goal with |- (if (?a <=? ?b)%nat then _ else _) = (if (?c <? ?d)%nat then _ else _) =>
       destruct (Nat.leb_spec a b), (Nat.ltb_spec c d); try lia end; [done|by rewrite emit_ok by (simpl; lia)]).
Qed.

Lemma ntop_label_spec src dstsiz bs : forall cp out, has src cp bs -> (length out <= dstsiz)%nat ->
  ntop_label src cp (length bs) dstsiz out
  = Ok (if (length out + length (label_text bs) <=? dstsiz)%nat then Some (out ++ label_text bs) else None).
Proof.
  induction bs as [|c bs IH]; intros cp out H Hout.
  - simpl. by rewrite Nat.add_0_r, (proj2 (Nat.leb_le _ _)), app_nil_r.
  - apply has_cons in H as [Hc H]. change (length (c :: bs)) with (S (length bs)). rewrite (ntop_label_step _ _ c) by done.
    rewrite label_text_cons, length_app. destruct (Nat.ltb_spec dstsiz (length out + length (escape c))).
    + by rewrite (proj2 (Nat.leb_gt _ _)) by lia.
    + rewrite IH, length_app by (done || rewrite length_app; lia). by rewrite Nat.add_assoc, <-app_assoc.
Qed.

(** What is still to be printed when [out] has been. *)
Definition to_print (out : list Z) (ls : list (list Z)) : list Z := if (length out =? 0)%nat then dotted ls else rest_text ls.

Lemma to_print_cons out bs ls : to_print out (bs :: ls) = (if (length out =? 0)%nat then [] else [0x2e]) ++ label_text bs ++ rest_text ls.
Proof. unfold to_print. by destruct (_ =? _)%nat. Qed.

Lemma ntop_loop_spec src dstsiz ls : Forall plain ls -> forall fuel cp out,
  has src cp (encoded ls) -> (length ls < fuel)%nat -> exists r, ntop_loop fuel src cp dstsiz out = Ok r /\
    (r = inr (out ++ to_print out ls) \/ r = inl EMSGSIZE /\ (dstsiz <= length out + length (to_print out ls))%nat).
Proof.
  induction 1 as [|bs ls Hbs Hls IH]; intros fuel cp out Hsrc Hfuel; (destruct fuel as [|fuel]; [simpl in Hfuel; lia|]); cbn [ntop_loop].
  { apply has_cons in Hsrc as [H0 _]. rewrite (at_Some _ _ _ H0). cbn [obind]. eexists. split; [done|]. left.
    unfold to_print. destruct (_ =? _)%nat; by rewrite app_nil_r. }
  rewrite encoded_cons in Hsrc. apply has_app in Hsrc as [Hlab Hrest]. pose proof (labellen_has _ _ _ Hlab (plain_is_label _ Hbs)) as Hll.
  apply has_cons in Hlab as [Hn Hlab]. rewrite (at_Some _ _ _ Hn). cbn [obind]. pose proof (plain_flags _ Hbs) as Hf. destruct Hbs as [Hby Hlen].
  rewrite (proj2 (Z.eqb_neq _ _)) by lia. rewrite Hf. cbn [Z.eqb]. rewrite to_print_cons, !length_app.
  destruct (negb _ && _) eqn:Hd.
  { apply andb_true_iff in Hd as [Hd1 Hd2%Nat.leb_le]. eexists. split; [done|]. right. split; [done|]. lia. }
  set (dot := if (length out =? 0)%nat then [] else [46]).
  assert ((if (length out =? 0)%nat then Ok out else emit dstsiz out [46]) = Ok (out ++ dot)) as ->.
  { subst dot. destruct (_ =? 0)%nat eqn:E0; [by rewrite app_nil_r|]. simpl in Hd. apply Nat.leb_gt in Hd. apply emit_ok. simpl. lia. }
  cbn [obind]. replace (S cp - 1)%nat with cp by lia. rewrite Hll. cbn [obind]. unfold plab. simpl length. rewrite Nat.sub_succ, Nat.sub_0_r.
  pose proof (label_text_length bs). rewrite length_app. destruct (Nat.leb_spec dstsiz (length out + length dot + length bs)).
  { eexists. split; [done|]. right. split; [done|lia]. }
  rewrite ntop_label_spec by (done || rewrite length_app; lia). cbn [obind]. rewrite length_app.
  destruct (Nat.leb_spec (length out + length dot + length (label_text bs)) dstsiz); [|eexists; split; [done|right; split; [done|lia]]].
  replace (S cp + length bs)%nat with (cp + length (plab bs))%nat by (simpl; lia).
  destruct (IH fuel (cp + length (plab bs))%nat ((out ++ dot) ++ label_text bs)) as (r & -> & Hr); [done|simpl in Hfuel; lia|].
  unfold to_print in Hr. rewrite !length_app, (proj2 (Nat.eqb_neq _ _)) in Hr by lia. exists r. split; [done|].
  destruct Hr as [->|[-> ?]]; [left; by rewrite <-!app_assoc|right; split; [done|lia]].
Qed.

Lemma ns_name_ntop_spec ls tail dstsiz : Forall plain ls ->
  ns_name_ntop (encoded ls ++ tail) dstsiz
  = Ok (if (length (name_text ls) <? dstsiz)%nat then inr (S (length (name_text ls)), name_text ls ++ [0]) else inl EMSGSIZE).
Proof.
  intros Hls. unfold ns_name_ntop.
  destruct (ntop_loop_spec (encoded ls ++ tail) dstsiz ls Hls (length (encoded ls ++ tail) + 1) 0 []) as (r & -> & Hr).
  { apply (has_app _ 0 (encoded ls) tail), has_self. }
  { pose proof (labs_length _ (plain_labels _ Hls)) as H. rewrite length_fmap in H. rewrite length_app. unfold encoded. lia. }
  cbn [obind]. unfold to_print in Hr. simpl in Hr.
  destruct ls as [|bs ls]; [|assert (0 < length (name_text (bs :: ls)))%nat].
  - destruct Hr as [->|[-> Hr]]; simpl in *; [|destruct dstsiz; [done|lia]]. by destruct dstsiz as [|[|d]].
  - apply Forall_cons in Hls as [[_ Hb] _]. simpl. rewrite length_app. pose proof (label_text_length bs). lia.
  - change (dotted (bs :: ls)) with (name_text (bs :: ls)) in Hr. destruct Hr as [->|[-> Hr]].
    + rewrite (proj2 (Nat.eqb_neq _ _)) by lia. cbn [andb obind].
      destruct (Nat.leb_spec dstsiz (length (name_text (bs :: ls)))), (Nat.ltb_spec (length (name_text (bs :: ls))) dstsiz); try lia; [done|].
      rewrite emit_ok by (cbn [length]; lia). cbn [obind]. rewrite length_app, Nat.add_1_r. done.
    + by rewrite (proj2 (Nat.ltb_ge _ _)).
Qed.

(** * Reading *)

Section read.
Context (str : list Z) (dstsiz label : nat).
Implicit Types (fuel pos : nat) (out : list Z) (c : Z).

(** The end of an iteration that stores [c]. *)
Let store fuel pos out c : result (Z + Z * list Z) :=
  if (dstsiz <=? length out)%nat then Ok (inl EMSGSIZE) else pton_loop fuel str pos dstsiz label (out ++ [c]) false.

Lemma pton_ordinary fuel pos out c : str !! pos = Some c -> is_byte c -> c <> 0 -> c <> 0x5c -> c <> 0x2e ->
  pton_loop (S fuel) str pos dstsiz label out false = store fuel (S pos) out c.
Proof.
  intros H Hc H0 H1 H2. cbn [pton_loop]. rewrite (at_Some _ _ _ H). cbn [obind].
  rewrite !(proj2 (Z.eqb_neq _ _)) by done. unfold store, wrapU. by rewrite Z.mod_small.
Qed.

Lemma pton_backslash fuel pos out : str !! pos = Some 0x5c ->
  pton_loop (S fuel) str pos dstsiz label out false = pton_loop fuel str (S pos) dstsiz label out true.
Proof. intros H. cbn [pton_loop]. by rewrite (at_Some _ _ _ H). Qed.

Lemma pton_escaped fuel pos out c : str !! pos = Some c -> is_byte c -> c <> 0 -> c <> 0x5b -> isdigit c = false ->
  pton_loop (S fuel) str pos dstsiz label out true = store fuel (S pos) out c.
Proof.
  intros H Hc H0 H1 H2. cbn [pton_loop]. rewrite (at_Some _ _ _ H). cbn [obind].
  rewrite !(proj2 (Z.eqb_neq _ _)) by done. unfold escape_digit. rewrite H2. unfold store, wrapU. by rewrite Z.mod_small.
Qed.

Lemma escape_digit_of d : 0 <= d < 10 -> escape_digit (48 + d) = Some d.
Proof. intros H. unfold escape_digit, isdigit. rewrite !(proj2 (Z.leb_le _ _)) by lia. simpl. f_equal. lia. Qed.

Lemma pton_digits fuel pos out c : is_byte c -> has str pos [48 + c / 100; 48 + c mod 100 / 10; 48 + c mod 10] ->
  pton_loop (S fuel) str pos dstsiz label out true = store fuel (pos + 3) out c.
Proof.
  intros Hc H. apply has_cons in H as [H1 H]. apply has_cons in H as [H2 H]. apply has_cons in H as [H3 _]. unfold is_byte in Hc.
  assert (0 <= c / 100 < 10 /\ 0 <= c mod 100 / 10 < 10 /\ 0 <= c mod 10 < 10 /\ c / 100 * 100 + c mod 100 / 10 * 10 + c mod 10 = c) as (D1 & D2 & D3 & Hn)
    by (Z.to_euclidean_division_equations; lia).
  cbn [pton_loop]. rewrite (at_Some _ _ _ H1), (at_Some _ _ _ H2), (at_Some _ _ _ H3). cbn [obind]. rewrite !(proj2 (Z.eqb_neq _ _)) by lia.
  rewrite !escape_digit_of, Hn by done. rewrite (proj2 (Z.ltb_ge _ _)) by lia. unfold store, wrapU. rewrite Z.mod_small by lia.
  by replace (S (S (S pos))) with (pos + 3)%nat by lia.
Qed.

(** A character that was printed is read back, if there is room for it. *)
Lemma pton_char fuel pos out c : is_byte c -> has str pos (escape c) -> (length (escape c) <= fuel)%nat ->
  exists fuel', (fuel <= fuel' + length (escape c))%nat /\
    pton_loop fuel str pos dstsiz label out false = store fuel' (pos + length (escape c)) out c.
Proof.
  intros Hc Hstr Hfuel. unfold escape in *. destruct (special c) eqn:Hs; [|destruct (printable c) eqn:Hp].
  - apply has_cons in Hstr as [H1 Hstr]. apply has_cons in Hstr as [H2 _]. simpl in Hfuel. destruct fuel as [|[|fuel]]; [lia..|].
    exists fuel. split; [simpl; lia|]. rewrite pton_backslash by done. replace (pos + _)%nat with (S (S pos)) by (simpl; lia).
    apply bool_decide_eq_true in Hs. rewrite !elem_of_cons, elem_of_nil in Hs. apply pton_escaped; [done|done|lia..|]. by decompose [or] Hs; subst.
  - apply has_cons in Hstr as [H1 _]. simpl in Hfuel. destruct fuel as [|fuel]; [lia|]. exists fuel. split; [simpl; lia|].
    rewrite Nat.add_1_r. apply bool_decide_eq_false in Hs. rewrite !elem_of_cons in Hs. unfold printable in Hp. apply pton_ordinary; try done; lia || naive_solver.
  - apply has_cons in Hstr as [H1 Hstr]. simpl in Hfuel. destruct fuel as [|[|fuel]]; [lia..|]. exists fuel. split; [simpl; lia|].
    rewrite pton_backslash by done. rewrite (pton_digits _ _ _ c) by done. by replace (S pos + 3)%nat with (pos + 4)%nat by lia.
Qed.

Lemma pton_label_text bs : Forall is_byte bs -> forall fuel pos out,
  has str pos (label_text bs) -> (length (label_text bs) <= fuel)%nat ->
  exists fuel', (fuel <= fuel' + length (label_text bs))%nat /\
    pton_loop fuel str pos dstsiz label out false
    = if (dstsiz <? length out + length bs)%nat && (0 <? length bs)%nat then Ok (inl EMSGSIZE)
      else pton_loop fuel' str (pos + length (label_text bs)) dstsiz label (out ++ bs) false.
Proof.
  induction 1 as [|c bs Hc Hbs IH]; intros fuel pos out Hstr Hfuel.
  - exists fuel. split; [lia|]. simpl. by rewrite andb_false_r, Nat.add_0_r, app_nil_r.
  - rewrite label_text_cons, length_app in *. apply has_app in Hstr as [H1 H2].
    destruct (pton_char fuel pos out c Hc H1) as (f1 & Hf1 & ->); [lia|]. unfold store.
    destruct (IH f1 (pos + length (escape c))%nat (out ++ [c]) H2) as (f2 & Hf2 & ->); [lia|]. exists f2. split; [lia|].
    rewrite length_app, <-app_assoc, Nat.add_assoc. cbn [length app].
    destruct (Nat.leb_spec dstsiz (length out)); [rewrite (proj2 (Nat.ltb_lt _ (length out + _))) by lia; done|].
    rewrite andb_true_r, <-Nat.add_assoc. simpl Nat.add. destruct bs as [|d bs]; [|by rewrite andb_true_r].
    rewrite andb_false_r, (proj2 (Nat.ltb_ge _ _)) by (simpl; lia). done.
Qed.
End read.

Lemma pton_done_spec dstsiz before h bs q : plain bs -> (length before + length bs < dstsiz)%nat ->
  pton_done dstsiz (length before) (before ++ h :: bs) (Z.of_nat (length bs)) q
  = Ok (if (length before + length (encoded [bs]) <=? dstsiz)%nat && (length before + length (encoded [bs]) <=? NS_MAXCDNAME)%nat
        then inr (q, before ++ encoded [bs]) else inl EMSGSIZE).
Proof.
  intros [_ Hbs] Hd. unfold pton_done. rewrite (proj2 (Nat.leb_gt _ _)), insert_middle, (proj2 (Z.eqb_neq _ _)) by lia. cbn [negb andb].
  assert (length (encoded [bs]) = S (S (length bs))) as -> by (rewrite encoded_cons, length_app; simpl; lia).
  assert (before ++ encoded [bs] = (before ++ Z.of_nat (length bs) :: bs) ++ [0]) as -> by (rewrite encoded_cons, <-app_assoc; done).
  rewrite !length_app. cbn [length].
  destruct (Nat.leb_spec dstsiz (length before + S (length bs))), (Nat.leb_spec (length before + S (S (length bs))) dstsiz); try lia; [done|].
  destruct (Nat.ltb_spec NS_MAXCDNAME (length before + S (length bs) + 1)), (Nat.leb_spec (length before + S (S (length bs))) NS_MAXCDNAME); done || lia.
Qed.

(** What follows the labels. *)
Definition ending (absolute : bool) : list Z := if absolute then [0x2e; 0] else [0].

Section labels.
Context (str : list Z) (dstsiz : nat) (absolute : bool).

Lemma out_len (before : list Z) h bs : Z.of_nat (length (before ++ h :: bs)) - Z.of_nat (length before) - 1 = Z.of_nat (length bs).
Proof. rewrite length_app. simpl. lia. Qed.

Lemma pton_ending fuel pos before h bs : plain bs -> has str pos (ending absolute) -> (length before + length bs < dstsiz)%nat ->
  pton_loop (S fuel) str pos dstsiz (length before) (before ++ h :: bs) false
  = pton_done dstsiz (length before) (before ++ h :: bs) (Z.of_nat (length bs)) (Z.b2z absolute).
Proof.
  intros Hbs H Hd. cbn [pton_loop]. rewrite out_len. unfold ending in H. destruct absolute.
  - apply has_cons in H as [H1 H]. apply has_cons in H as [H2 _]. rewrite (at_Some _ _ _ H1), (at_Some _ _ _ H2). cbn [obind].
    rewrite plain_flags by done. cbn -[pton_done Nat.leb]. by rewrite (proj2 (Nat.leb_gt _ _)) by lia.
  - apply has_cons in H as [H1 _]. rewrite (at_Some _ _ _ H1). cbn [obind]. by rewrite plain_flags.
Qed.

(** The dot before the next label. *)
Lemma pton_dot fuel pos before h bs c : plain bs -> has str pos [0x2e; c] -> c <> 0 -> c <> 0x2e -> (length before + length bs < dstsiz)%nat ->
  pton_loop (S fuel) str pos dstsiz (length before) (before ++ h :: bs) false
  = pton_loop fuel str (S pos) dstsiz (length (before ++ plab bs)) ((before ++ plab bs) ++ [0]) false.
Proof.
  intros Hbs H H0 H1 Hd. cbn [pton_loop]. rewrite out_len. apply has_cons in H as [Hp H]. apply has_cons in H as [Hc _].
  rewrite (at_Some _ _ _ Hp), (at_Some _ _ _ Hc). cbn [obind]. rewrite plain_flags by done.
  cbn -[pton_loop Nat.leb Z.eqb]. rewrite (proj2 (Nat.leb_gt _ _)) by lia. destruct Hbs as [_ Hbs].
  change (46 =? 0) with false. change (46 =? 92) with false. change (46 =? 46) with true. change (0 =? 0) with true. cbn [negb].
  rewrite (proj2 (Z.eqb_neq c 0)), (proj2 (Z.eqb_neq c 46)), (proj2 (Z.eqb_neq _ 0)) by lia. cbn [orb]. by rewrite insert_middle.
Qed.

(** The first character of the text of a label is not a dot. *)
Lemma label_text_head bs : plain bs -> exists c t, label_text bs = c :: t /\ c <> 0 /\ c <> 0x2e.
Proof.
  intros [_ Hbs]. destruct bs as [|c bs]; [simpl in Hbs; lia|]. rewrite label_text_cons. unfold escape.
  destruct (special c) eqn:Hs; [eexists _, _; split; [done|lia]|]. destruct (printable c) eqn:Hp; [|eexists _, _; split; [done|lia]].
  eexists _, _. split; [done|]. unfold printable in Hp. split; [lia|]. by intros ->.
Qed.

Lemma pton_labels ls : Forall plain ls -> forall bs fuel pos before h,
  plain bs -> has str pos (dotted (bs :: ls) ++ ending absolute) -> (length (dotted (bs :: ls)) < fuel)%nat ->
  pton_loop fuel str pos dstsiz (length before) (before ++ [h]) false
  = Ok (if (length before + length (encoded (bs :: ls)) <=? dstsiz)%nat && (length before + length (encoded (bs :: ls)) <=? NS_MAXCDNAME)%nat
        then inr (Z.b2z absolute, before ++ encoded (bs :: ls)) else inl EMSGSIZE).
Proof.
  induction 1 as [|bs' ls Hbs' Hls IH]; intros bs fuel pos before h Hbs H Hfuel.
  all: unfold dotted in H, Hfuel; rewrite <-app_assoc in H; apply has_app in H as [Ht H]; rewrite length_app in Hfuel.
  all: destruct (pton_label_text str dstsiz (length before) bs (proj1 Hbs) fuel pos (before ++ [h]) Ht) as (f & Hf & ->); [lia|].
  all: pose proof (proj2 Hbs) as Hlen; rewrite (proj2 (Nat.ltb_lt 0 _)), andb_true_r, length_app, <-app_assoc by lia; cbn [length app].
  all: destruct (Nat.ltb_spec dstsiz (length before + 1 + length bs)) as [Hlt|Hge];
    [rewrite (proj2 (Nat.leb_gt (length before + length (encoded _)) dstsiz)); [done|rewrite encoded_cons, length_app; simpl; lia]|].
  all: destruct f as [|f]; [lia|].
  - rewrite pton_ending, pton_done_spec by (done || lia). done.
  - rewrite rest_text_cons in H, Hfuel. destruct (label_text_head bs' Hbs') as (c & t & Et & Hc0 & Hc1).
    rewrite (pton_dot _ _ _ _ _ c); [|done| |done|done|lia].
    2: { rewrite Et in H. by apply (has_app _ _ [46; c] ((t ++ rest_text ls) ++ ending absolute)) in H as [H _]. }
    apply (has_app _ _ [46]) in H as [_ H]. rewrite Nat.add_1_r in H.
    rewrite (IH bs'); [|done|exact H|cbn [length] in Hfuel; unfold dotted; lia].
    rewrite (encoded_cons bs), !length_app, <-app_assoc, !Nat.add_assoc. done.
Qed.
End labels.

Lemma ns_name_pton2_spec ls absolute tail dstsiz : Forall plain ls -> (0 < dstsiz)%nat ->
  ns_name_pton2 (dotted ls ++ ending absolute ++ tail) dstsiz
  = Ok (if (length (encoded ls) <=? dstsiz)%nat && (length (encoded ls) <=? NS_MAXCDNAME)%nat
        then inr (Z.b2z absolute, encoded ls) else inl EMSGSIZE).
Proof.
  intros Hls Hd. unfold ns_name_pton2. destruct Hls as [|bs ls Hbs Hls].
  - destruct dstsiz as [|d]; [lia|]. by destruct absolute.
  - rewrite app_assoc. apply (pton_labels _ dstsiz absolute ls Hls bs _ 0 [] 0 Hbs); [apply (has_app _ 0 _ tail), has_self|].
    rewrite !length_app. lia.
Qed.

Lemma name_text_dotted ls : name_text ls ++ [0] = dotted ls ++ ending (bool_decide (ls = [])).
Proof. destruct ls as [|bs ls]; [done|]. by rewrite bool_decide_false. Qed.

(** For a name of ordinary labels, ns_name_ntop gives the text and its size with the terminator if it fits
    and EMSGSIZE if not; ns_name_pton2 gives the name and whether the text ends with a dot if the name fits and has at most
    255 bytes, and EMSGSIZE if not; and what ns_name_ntop printed is read back as the same name. *)
Theorem ntop_pton ls : Forall plain ls ->
  (forall dstsiz tail, ns_name_ntop (encoded ls ++ tail) dstsiz
    = Ok (if (length (name_text ls) <? dstsiz)%nat then inr (S (length (name_text ls)), name_text ls ++ [0]) else inl EMSGSIZE)) /\
  (forall dstsiz absolute tail, (0 < dstsiz)%nat -> ns_name_pton2 (dotted ls ++ ending absolute ++ tail) dstsiz
    = Ok (if (length (encoded ls) <=? dstsiz)%nat && (length (encoded ls) <=? NS_MAXCDNAME)%nat
          then inr (Z.b2z absolute, encoded ls) else inl EMSGSIZE)) /\
  (forall dstsiz n text, (length (encoded ls) <= NS_MAXCDNAME)%nat -> ns_name_ntop (encoded ls) dstsiz = Ok (inr (n, text)) ->
    ns_name_pton2 text NS_MAXCDNAME = Ok (inr (Z.b2z (bool_decide (ls = [])), encoded ls))).
Proof.
  intros Hls. split_and!; [intros; by apply ns_name_ntop_spec|intros; by apply ns_name_pton2_spec|].
  intros dstsiz n text Hmax H. rewrite <-(app_nil_r (encoded ls)), ns_name_ntop_spec in H by done.
  destruct (_ <? _)%nat; [|done]. injection H as _ <-. rewrite name_text_dotted, <-(app_nil_r (ending _)), ns_name_pton2_spec by (done || lia).
  by rewrite (proj2 (Nat.leb_le _ _)) by done.
Qed.

(** The labels of a name with dots, an empty list for the root. *)
Definition ex_name : list (list Z) := [chars "a.b"; chars "\"; [0; 200]; chars "Com"].

Lemma ntop_pton_witness :
  ns_name_ntop (encoded ex_name) 30 = Ok (inr (21%nat, chars "a\.b.\\.\000\200.Com" ++ [0])) /\
  ns_name_pton2 (chars "a\.b.\\.\000\200.Com" ++ [0]) NS_MAXCDNAME = Ok (inr (0, encoded ex_name)).
Proof.
  assert (Forall plain ex_name) as H by (repeat constructor; simpl; unfold is_byte; lia). split; [by vm_compute|].
  apply (proj2 (proj2 (ntop_pton ex_name H)) 30%nat 21%nat); [simpl; lia|by vm_compute].
Defined.

(** * Messages of text *)

(** A message is built from names in text form and other data. *)
Inductive text_item := TextData (bs : list Z) | TextName (ls : list (list Z)).

Definition packed_item (x : text_item) : item :=
  match x with TextData bs => Data bs | TextName ls => DomainName (plab <$> ls) end.

Fixpoint build_text (slots : option nat) (items : list text_item) (buf : list Z) (off : nat) (ptrs : list nat)
    : result (list Z * nat * list (nat * list (list Z) * nat)) :=
  match items with
  | [] => Ok (buf, off, [])
  | TextData bs :: items =>
      if (off + length bs <=? length buf)%nat then
        buf <-- write_at buf off bs ;;
        build_text slots items buf (off + length bs) ptrs
      else build_text slots items buf off ptrs
  | TextName ls :: items =>
      r <-- ns_name_compress (name_text ls ++ [0]) buf off (length buf - off) (Some ptrs) slots ;;
      match r with
      | (inr n, buf, ptrs) =>
          r <-- build_text slots items buf (off + n) (default [] ptrs) ;;
          let '(buf, e, names) := r in
          Ok (buf, e, (off, ls, n) :: names)
      | (inl _, buf, ptrs) => build_text slots items buf off (default [] ptrs)
      end
  end.

(** Compressing the text of a name is packing the name. *)
Lemma ns_name_compress_spec ls buf dst dstsiz ptrs slots : Forall plain ls ->
  ns_name_compress (name_text ls ++ [0]) buf dst dstsiz ptrs slots = ns_name_pack (encoded ls) buf dst dstsiz ptrs slots.
Proof.
  intros Hls. unfold ns_name_compress. rewrite name_text_dotted, <-(app_nil_r (ending _)), ns_name_pton2_spec by (done || lia).
  destruct (_ <=? _)%nat eqn:E; [done|]. cbn [obind andb]. unfold ns_name_pack.
  rewrite (check_name_spec _ (plab <$> ls)) by (by apply plain_labels || apply has_self || lia). simpl plus. unfold encoded in E. by rewrite E.
Qed.

(** A name that was added, with its labels in the form of the wire. *)
Definition packed_place (x : nat * list (list Z) * nat) : nat * list (list Z) * nat := let '(p, ls, n) := x in (p, plab <$> ls, n).

Definition plain_item (x : text_item) : Prop := match x with TextName ls => Forall plain ls | TextData _ => True end.

Lemma build_text_spec slots items : Forall plain_item items -> forall buf off ptrs,
  build slots (packed_item <$> items) buf off ptrs
  = omap_ok (fun r => (r.1, packed_place <$> r.2)) (build_text slots items buf off ptrs).
Proof.
  induction 1 as [|x items Hx Hitems IH]; intros buf off ptrs; [done|]. destruct x as [bs|ls]; simpl.
  - destruct (_ <=? _)%nat; [|done]. by destruct (write_at buf off bs); cbn.
  - rewrite ns_name_compress_spec by done. unfold encoded. destruct (ns_name_pack _ _ _ _ _ _) as [[[[e|n] buf'] ptrs']| |]; cbn; [done| |done..].
    rewrite IH. by destruct (build_text _ _ _ _ _) as [[[b e] names]| |].
Qed.

(** Names with the same letters as a name of ordinary labels. *)
Lemma lower_plain ls labs : Forall plain ls -> Forall is_label labs -> lower_name labs = lower_name (plab <$> ls) ->
  exists ls', labs = plab <$> ls' /\ Forall plain ls' /\ lower_name ls' = lower_name ls.
Proof.
  intros Hls. revert labs. induction Hls as [|bs ls Hbs Hls IH]; intros labs Hlabs H.
  { exists []. by destruct labs. }
  destruct Hlabs as [|lab labs Hlab Hlabs]; [done|]. destruct lab as [|n bs']; [done|]. injection H as Hn Hb Hr.
  destruct (IH labs Hlabs Hr) as (ls' & -> & Hls' & Heq). destruct Hbs as [_ Hlen]. change (mklower <$> bs' = mklower <$> bs) in Hb. apply (f_equal length) in Hb as Hl. rewrite !length_fmap in Hl.
  assert (n = Z.of_nat (length bs)) as -> by (unfold mklower in Hn; repeat case_match; lia).
  exists (bs' :: ls'). rewrite <-Hl in *. split; [done|]. split.
  - constructor; [|done]. destruct Hlab as (Hby & _). apply Forall_cons in Hby as [_ Hby]. split; [done|lia].
  - unfold lower_name in *. rewrite !fmap_cons. f_equal; [|done]. exact Hb.
Qed.

Lemma escape_length c c' : mklower c = mklower c' -> length (escape c) = length (escape c').
Proof.
  intros H. destruct (decide (c = c')) as [->|Hne]; [done|].
  enough (forall d, 0x41 <= mklower d <= 0x7a -> d <> 0x5c -> d <> 0x40 -> length (escape d) = 1%nat) as He.
  { unfold mklower in *. rewrite !He; [done|repeat case_match; lia..]. }
  intros d Hd H1 H2. unfold escape, mklower in *. assert (special d = false) as ->.
  { apply bool_decide_eq_false. rewrite !elem_of_cons, elem_of_nil. repeat case_match; lia. }
  unfold printable. by rewrite !(proj2 (Z.ltb_lt _ _)) by (repeat case_match; lia).
Qed.

Lemma label_text_lower bs bs' : lower_label bs = lower_label bs' -> length (label_text bs) = length (label_text bs').
Proof.
  revert bs'. induction bs as [|c bs IH]; intros [|c' bs'] H; try done. injection H as H1 H2.
  rewrite !label_text_cons, !length_app, (escape_length c c') by done. f_equal. by apply IH.
Qed.

Lemma name_text_lower ls ls' : lower_name ls = lower_name ls' -> length (name_text ls) = length (name_text ls').
Proof.
  assert (forall ls ls', lower_name ls = lower_name ls' -> length (rest_text ls) = length (rest_text ls')) as Hr.
  { induction ls0 as [|bs l IH]; intros [|bs' l'] H; try done. injection H as H1 H2.
    rewrite !rest_text_cons. simpl. rewrite !length_app, (label_text_lower bs bs') by done. by rewrite (IH l'). }
  destruct ls as [|bs ls], ls' as [|bs' ls']; try done. intros H. injection H as H1 H2. simpl.
  by rewrite !length_app, (label_text_lower bs bs'), (Hr ls ls').
Qed.

Lemma build_text_names slots items : forall buf off ptrs r, build_text slots items buf off ptrs = Ok r ->
  forall p ls n, (p, ls, n) ∈ r.2 -> TextName ls ∈ items.
Proof.
  induction items as [|[bs|ls0] items IH]; intros buf off ptrs r H p ls n Hin; simpl in H.
  - injection H as <-. by apply elem_of_nil in Hin.
  - apply list_elem_of_further. destruct (_ <=? _)%nat; [obind_inv H|]; by eapply IH.
  - obind_inv H. destruct x as [[[e|m] buf'] ptrs']; [apply list_elem_of_further; by eapply IH|]. obind_inv H.
    destruct x as [[b e] names]. injection H as <-. simpl in Hin. apply elem_of_cons in Hin as [[= _ -> _]|Hin]; [by apply list_elem_of_here|].
    apply list_elem_of_further. by eapply (IH _ _ _ _ E0).
Qed.

(** C7: a message is built from the header on by calls of ns_name_compress on the text of names, with other data in
    between, in a buffer of any size.  No call goes outside the buffer, and ns_name_uncompress gives for every name that was
    added the size that was returned and its text, but for the case of letters, in every array that is large enough. *)
Theorem compress_uncompress slots items buf : Forall plain_item items ->
  exists buf' off names, build_text slots items buf 0 [] = Ok (buf', off, names) /\
    forall p ls n, (p, ls, n) ∈ names -> exists ls', lower_name ls' = lower_name ls /\
      forall dstsiz, (length (name_text ls) < dstsiz)%nat ->
        ns_name_uncompress (take off buf') (Z.of_nat p) dstsiz = Ok (inr (n, name_text ls' ++ [0])).
Proof.
  intros Hitems. destruct (build_spec slots (packed_item <$> items)) with (buf := buf) (off := 0%nat) (ptrs := @nil nat)
    as (buf' & off & names & H & _ & Hlen & Ho & _ & Hnames); [|lia|constructor|].
  { apply Forall_fmap, (Forall_impl _ _ _ Hitems). intros [bs|ls] Hx; [done|]. by apply plain_labels. }
  rewrite build_text_spec in H by done. destruct (build_text _ _ _ _ _) as [[[b e] names']| |] eqn:Hb; [|done..]. injection H as <- <- <-.
  exists b, e, names'. split; [done|]. intros p ls n Hin.
  assert (Hls : Forall plain ls) by (rewrite Forall_forall in Hitems; apply (Hitems (TextName ls)); by apply (build_text_names _ _ _ _ _ _ Hb p ls n)).
  rewrite Forall_fmap, Forall_forall in Hnames. specialize (Hnames _ Hin).
  pose proof (proj1 (proj2 Hnames)) as Hmax. destruct (settled_unpack b e p (plab <$> ls) n) as (labs & Hlabs & Heq & Hu); [lia|done|].
  destruct (lower_plain ls labs Hls Hlabs Heq) as (ls' & -> & Hls' & Heq'). exists ls'. split; [done|]. intros dstsiz Hd.
  unfold ns_name_uncompress. rewrite Hu by done. cbn [obind]. change (wire (plab <$> ls')) with (encoded ls').
  rewrite <-(app_nil_r (encoded ls')), ns_name_ntop_spec by done. by rewrite (proj2 (Nat.ltb_lt _ _)) by (rewrite (name_text_lower ls' ls); done).
Qed.

Definition ex_texts : list text_item :=
  [TextData (replicate 12 0); TextName [chars "www"; chars "example"; chars "com"]; TextData [0; 1; 0; 1];
   TextName [chars "mail"; chars "Example"; chars "com"]; TextName []].

Lemma compress_uncompress_witness :
  exists buf' off names, build_text (Some 8%nat) ex_texts (replicate 60 0) 0 [] = Ok (buf', off, names) /\
    forall p ls n, (p, ls, n) ∈ names -> exists ls', lower_name ls' = lower_name ls /\
      forall dstsiz, (length (name_text ls) < dstsiz)%nat ->
        ns_name_uncompress (take off buf') (Z.of_nat p) dstsiz = Ok (inr (n, name_text ls' ++ [0])).
Proof.
  apply (compress_uncompress (Some 8%nat) ex_texts (replicate 60 0)).
  repeat constructor; simpl; unfold is_byte; lia.
Defined.

(** The second name comes back with the letters of the first. *)
Example ex_text : match build_text (Some 8%nat) ex_texts (replicate 60 0) 0 [] with
  | Ok (buf, off, names) =>
      (fun x => (x.1.1, x.2)) <$> names = [(12, 17); (33, 7); (40, 1)]%nat /\
      ns_name_uncompress (take off buf) 33 20 = Ok (inr (7%nat, chars "mail.example.com" ++ [0]))
  | _ => False
  end.
Proof. vm_compute. split; reflexivity. Qed.

(** A bit string of 20 bits is read and printed again. *)
Example ex_bit_string :
  ns_name_pton2 (chars "\[x12ab0/20].com" ++ [0]) NS_MAXCDNAME = Ok (inr (0, [0x41; 20; 0x12; 0xab; 0x00; 3; 99; 111; 109; 0])) /\
  ns_name_ntop [0x41; 20; 0x12; 0xab; 0x00; 3; 99; 111; 109; 0] 40 = Ok (inr (17%nat, chars "\[x12ab0/20].com" ++ [0])).
Proof. vm_compute. split; reflexivity. Qed.
