(* ===== verification/Inet.v ===== *)
(** Internet addresses as text: inet_pton.c and inet_ntop.c under libc/upstream-openbsd/lib/libc/net, and inet_aton
    of libc/bionic/arpa_inet.cpp.

    A string is the list of its bytes with the terminator; a pointer into it is the list from there on.  A call that fails
    gives its errno value on the left.  The local arrays are lists of the bytes that have been written; a
    write behind their end or a read of a byte without a value is a [Fault]. *)

From S2P Require Import Prelude Result Ctype StrTol NsName.

(** * Definitions *)

Abbreviation AF_INET := 2.
Abbreviation AF_INET6 := 10.
Abbreviation EAFNOSUPPORT := 97.
Abbreviation ENOSPC := 28.
Abbreviation INADDRSZ := 4%nat.
Abbreviation IN6ADDRSZ := 16%nat.
Abbreviation INT16SZ := 2%nat.

(** [strchr(digits, ch) - digits], of a character that is not the terminator. *)
Definition digit_value (ch : Z) : option Z := if (48 <=? ch) && (ch <=? 57) then Some (ch - 48) else None.

(** The same for the two strings of hexadecimal digits. *)
Definition xdigit_value (ch : Z) : option Z :=
  if (48 <=? ch) && (ch <=? 57) then Some (ch - 48)
  else if (97 <=? ch) && (ch <=? 102) then Some (ch - 87)
  else if (65 <=? ch) && (ch <=? 70) then Some (ch - 55)
  else None.

(** ** Reading *)

(** The loop of inet_pton4; [tp] points to the last byte of [tmp].  The result is 0 ([None]) or 1 with the bytes. *)
Fixpoint pton4_loop (src : list Z) (tmp : list Z) (saw_digit : bool) (octets : Z) : result (option (list Z)) :=
  match src with
  | [] => Fault
  | ch :: src =>
      if ch =? 0 then
        if octets <? 4 then Ok None else
        bs <-- bytes_at tmp 0 INADDRSZ ;;
        Ok (Some bs)
      else match digit_value ch with
      | Some d =>
          cur <-- at_ tmp (length tmp - 1) ;;
          let new := cur * 10 + d in
          if 255 <? new then Ok None else
          if negb saw_digit && (4 <? octets + 1) then Ok None else
          pton4_loop src (<[(length tmp - 1)%nat := new]> tmp) true (if saw_digit then octets else octets + 1)
      | None =>
          if (ch =? 0x2e) && saw_digit then
            if octets =? 4 then Ok None else
            tmp <-- emit INADDRSZ tmp [0] ;;
            pton4_loop src tmp false octets
          else Ok None
      end
  end.

Definition inet_pton4 (src : list Z) : result (option (list Z)) := pton4_loop src [0] false 0.

(** [for (i = 1; i <= n; i++) { endp[-i] = colonp[n - i]; colonp[n - i] = 0; }], with [k] bytes to go; [e] is the
    place behind the next target. *)
Fixpoint shift_run (k e colonp : nat) (tmp : list Z) : result (list Z) :=
  match k with
  | O => Ok tmp
  | S k =>
      c <-- at_ tmp (colonp + k) ;;
      shift_run k (e - 1) colonp (<[(colonp + k)%nat := 0]> (<[(e - 1)%nat := c]> tmp))
  end.

(** What follows the loop of inet_pton6: [tmp] has been cleared and holds 16 bytes. *)
Definition pton6_finish (tmp : list Z) (tp : nat) (colonp : option nat) (saw_xdigit : bool) (val : Z) : result (option (list Z)) :=
  let finish tmp tp :=
    match colonp with
    | Some colonp =>
        if (tp =? IN6ADDRSZ)%nat then Ok None else omap_ok Some (shift_run (tp - colonp) IN6ADDRSZ colonp tmp)
    | None => if negb (tp =? IN6ADDRSZ)%nat then Ok None else Ok (Some tmp)
    end in
  if saw_xdigit then
    if (IN6ADDRSZ <? tp + INT16SZ)%nat then Ok None else
    tmp <-- write_at tmp tp [Z.land (Z.shiftr val 8) 0xff; Z.land val 0xff] ;;
    finish tmp (tp + INT16SZ)%nat
  else finish tmp tp.

Fixpoint pton6_loop (src curtok : list Z) (tmp : list Z) (tp : nat) (colonp : option nat) (saw_xdigit : bool) (count_xdigit : Z) (val : Z)
    : result (option (list Z)) :=
  match src with
  | [] => Fault
  | ch :: src =>
      if ch =? 0 then pton6_finish tmp tp colonp saw_xdigit val else
      match xdigit_value ch with
      | Some d =>
          if 4 <=? count_xdigit then Ok None else
          let val := Z.lor (wrapU 32 (Z.shiftl val 4)) d in
          if 0xffff <? val then Ok None else
          pton6_loop src curtok tmp tp colonp true (count_xdigit + 1) val
      | None =>
          if ch =? 0x3a then
            let curtok := src in
            if negb saw_xdigit then
              match colonp with
              | Some _ => Ok None
              | None => pton6_loop src curtok tmp tp (Some tp) saw_xdigit count_xdigit val
              end
            else
              next <-- at_ src 0 ;;
              if next =? 0 then Ok None else
              if (IN6ADDRSZ <? tp + INT16SZ)%nat then Ok None else
              tmp <-- write_at tmp tp [Z.land (Z.shiftr val 8) 0xff; Z.land val 0xff] ;;
              pton6_loop src curtok tmp (tp + INT16SZ) colonp false 0 0
          else if (ch =? 0x2e) && (tp + INADDRSZ <=? IN6ADDRSZ)%nat then
            r <-- inet_pton4 curtok ;;
            match r with
            | Some bs =>
                tmp <-- write_at tmp tp bs ;;
                pton6_finish tmp (tp + INADDRSZ) colonp false val
            | None => Ok None
            end
          else Ok None
      end
  end.

Definition inet_pton6 (src : list Z) : result (option (list Z)) :=
  let start src := pton6_loop src src (replicate IN6ADDRSZ 0) 0 None false 0 0 in
  c <-- at_ src 0 ;;
  if c =? 0x3a then
    c <-- at_ src 1 ;;
    if negb (c =? 0x3a) then Ok None else start (drop 1 src)
  else start src.

(** 0 is [None]; 1 is [Some] with the bytes at [dst]. *)
Definition inet_pton (af : Z) (src : list Z) : result (Z + option (list Z)) :=
  if af =? AF_INET then omap_ok inr (inet_pton4 src)
  else if af =? AF_INET6 then omap_ok inr (inet_pton6 src)
  else Ok (inl EAFNOSUPPORT).

(** ** Printing *)

(** [%x] of a number below 65536. *)
Definition hex_word (w : Z) : list Z :=
  if w <? 0x10 then [hex_digit w]
  else if w <? 0x100 then [hex_digit (w / 0x10); hex_digit (w mod 0x10)]
  else if w <? 0x1000 then [hex_digit (w / 0x100); hex_digit (w / 0x10 mod 0x10); hex_digit (w mod 0x10)]
  else [hex_digit (w / 0x1000); hex_digit (w / 0x100 mod 0x10); hex_digit (w / 0x10 mod 0x10); hex_digit (w mod 0x10)].

(** The text at [dst], with the terminator. *)
Definition inet_ntop4 (src : list Z) (size : nat) : result (Z + list Z) :=
  a <-- at_ src 0 ;;
  b <-- at_ src 1 ;;
  c <-- at_ src 2 ;;
  d <-- at_ src 3 ;;
  let tmp := decimal a ++ [0x2e] ++ decimal b ++ [0x2e] ++ decimal c ++ [0x2e] ++ decimal d in
  if (size <=? length tmp)%nat then Ok (inl ENOSPC) else Ok (inr (tmp ++ [0])).

(** [words[i / 2] |= (src[i] << ((1 - (i % 2)) << 3))] for each [i]. *)
Fixpoint words_loop (i : nat) (src words : list Z) : list Z :=
  match src with
  | [] => words
  | b :: src => words_loop (S i) src (alter (fun w => Z.lor w (Z.shiftl b (Z.shiftl (1 - Z.of_nat i mod 2) 3))) (i / 2)%nat words)
  end.

(** The comparison of [cur] with [best], which have a base and a length; [None] has base -1. *)
Definition better (cur best : option (nat * nat)) : option (nat * nat) :=
  match cur, best with
  | Some (_, l), Some (_, l') => if (l' <? l)%nat then cur else best
  | Some _, None => cur
  | None, _ => best
  end.

(** The longest run of zeros. *)
Fixpoint run_loop (i : nat) (words : list Z) (best cur : option (nat * nat)) : option (nat * nat) :=
  match words with
  | [] => match better cur best with
          | Some (_, l) as b => if (l <? 2)%nat then None else b
          | None => None
          end
  | w :: words =>
      if w =? 0 then
        run_loop (S i) words best (match cur with None => Some (i, 1%nat) | Some (base, l) => Some (base, S l) end)
      else run_loop (S i) words (better cur best) None
  end.

Abbreviation TMP_SIZE := 46%nat.

(** The loop that formats the words from [i] on; [src] is the whole address.  [out] has been written to [tmp]. *)
Fixpoint ntop6_loop (i : nat) (src words : list Z) (best : option (nat * nat)) (word5 : Z) (out : list Z) : result (Z + list Z) :=
  match words with
  | [] => Ok (inr out)
  | w :: words =>
      if negb (length out <? TMP_SIZE)%nat then Ok (inr out) else
      if match best with Some (base, len) => (base <=? i)%nat && (i <? base + len)%nat | None => false end then
        if match best with Some (base, _) => (i =? base)%nat | None => false end then
          if (TMP_SIZE <=? length out + 1)%nat then Ok (inl ENOSPC) else
          out <-- emit TMP_SIZE out [0x3a] ;;
          ntop6_loop (S i) src words best word5 out
        else ntop6_loop (S i) src words best word5 out
      else if negb (i =? 0)%nat && (TMP_SIZE <=? length out + 1)%nat then Ok (inl ENOSPC) else
      out <-- (if negb (i =? 0)%nat then emit TMP_SIZE out [0x3a] else Ok out) ;;
      if (i =? 6)%nat && match best with Some (base, len) => (base =? 0)%nat && ((len =? 6)%nat || (len =? 5)%nat && (word5 =? 0xffff)) | None => false end then
        r <-- inet_ntop4 (drop 12 src) (TMP_SIZE - length out) ;;
        match r with
        | inl e => Ok (inl e)
        | inr text =>
            out <-- emit TMP_SIZE out (take (length text - 1) text) ;;
            Ok (inr out)
        end
      else if (TMP_SIZE - length out <=? length (hex_word w))%nat then Ok (inl ENOSPC) else
      out <-- emit TMP_SIZE out (hex_word w) ;;
      ntop6_loop (S i) src words best word5 out
  end.

Definition inet_ntop6 (src : list Z) (size : nat) : result (Z + list Z) :=
  src <-- bytes_at src 0 IN6ADDRSZ ;;
  let words := words_loop 0 src (replicate 8 0) in
  let best := run_loop 0 words None None in
  word5 <-- at_ words 5 ;;
  r <-- ntop6_loop 0 src words best word5 [] ;;
  match r with
  | inl e => Ok (inl e)
  | inr out =>
      let trailing := match best with Some (base, len) => (base + len =? 8)%nat | None => false end in
      if trailing && (TMP_SIZE <=? length out + 1)%nat then Ok (inl ENOSPC) else
      out <-- (if trailing then emit TMP_SIZE out [0x3a] else Ok out) ;;
      if (TMP_SIZE <=? length out + 1)%nat then Ok (inl ENOSPC) else
      out <-- emit TMP_SIZE out [0] ;;
      if (size <? length out)%nat then Ok (inl ENOSPC) else Ok (inr out)
  end.

Definition inet_ntop (af : Z) (src : list Z) (size : nat) : result (Z + list Z) :=
  if af =? AF_INET then inet_ntop4 src size
  else if af =? AF_INET6 then inet_ntop6 src size
  else Ok (inl EAFNOSUPPORT).

(** ** The older functions *)

(** The loop of inet_aton: the parts and [i], or [None] for 0. *)
Fixpoint aton_loop (n i : nat) (cp : list Z) (parts : list Z) : result (option (nat * list Z)) :=
  match n with
  | O => Ok (Some (i, parts))
  | S n =>
      r <-- run (strtoul cp 0) ;;
      let parts := parts ++ [st_value r] in
      c <-- at_ cp (Z.to_nat (st_end r)) ;;
      if match st_errno r with Some _ => true | None => false end || (st_end r =? 0) || (negb (c =? 0x2e) && negb (c =? 0)) then Ok None else
      if c =? 0 then Ok (Some (i, parts)) else
      aton_loop n (S i) (drop (Z.to_nat (st_end r) + 1) cp) parts
  end.

(** The address as a number, the first byte of it in front; it is stored in network order. *)
Definition inet_aton (cp : list Z) : result (option Z) :=
  r <-- aton_loop 4 0 cp [] ;;
  match r with
  | Some (O, [a]) => Ok (if 0xffffffff <? a then None else Some a)
  | Some (1%nat, [a; b]) => Ok (if (0xff <? a) || (0xffffff <? b) then None else Some (Z.lor (Z.shiftl a 24) b))
  | Some (2%nat, [a; b; c]) =>
      Ok (if (0xff <? a) || (0xff <? b) || (0xffff <? c) then None else Some (Z.lor (Z.lor (Z.shiftl a 24) (Z.shiftl b 16)) c))
  | Some (3%nat, [a; b; c; d]) =>
      Ok (if (0xff <? a) || (0xff <? b) || (0xff <? c) || (0xff <? d) then None
          else Some (Z.lor (Z.lor (Z.lor (Z.shiftl a 24) (Z.shiftl b 16)) (Z.shiftl c 8)) d))
  | _ => Ok None
  end.

Abbreviation INADDR_NONE := 0xffffffff.

Definition inet_addr (cp : list Z) : result Z := omap_ok (default INADDR_NONE) (inet_aton cp).

(** * IPv4 *)

Definition text4 (a b c d : Z) : list Z := decimal a ++ 0x2e :: decimal b ++ 0x2e :: decimal c ++ 0x2e :: decimal d.

Lemma digit_value_of d : 0 <= d < 10 -> digit_value (48 + d) = Some d.
Proof. intros H. unfold digit_value. rewrite !(proj2 (Z.leb_le _ _)) by lia. simpl. f_equal. lia. Qed.

Lemma pton4_first bs rest d k : 0 <= d < 10 -> k < 4 ->
  pton4_loop (48 + d :: rest) (bs ++ [0]) false k = pton4_loop rest (bs ++ [d]) true (k + 1).
Proof.
  intros Hd Hk. cbn [pton4_loop]. rewrite (proj2 (Z.eqb_neq _ _)), digit_value_of by lia.
  rewrite length_app, Nat.add_sub, (at_Some _ _ 0) by (by apply list_lookup_middle). cbn [obind].
  rewrite (proj2 (Z.ltb_ge _ _)), (proj2 (Z.ltb_ge 4 _)) by lia. cbn [negb andb]. by rewrite insert_middle.
Qed.

Lemma pton4_next bs rest n d k : 0 <= d < 10 -> 0 <= n * 10 + d < 256 ->
  pton4_loop (48 + d :: rest) (bs ++ [n]) true k = pton4_loop rest (bs ++ [n * 10 + d]) true k.
Proof.
  intros Hd Hn. cbn [pton4_loop]. rewrite (proj2 (Z.eqb_neq _ _)), digit_value_of by lia.
  rewrite length_app, Nat.add_sub, (at_Some _ _ n) by (by apply list_lookup_middle). cbn [obind].
  rewrite (proj2 (Z.ltb_ge _ _)) by lia. cbn [negb andb]. by rewrite insert_middle.
Qed.

Lemma pton4_octet bs rest n k : is_byte n -> k < 4 ->
  pton4_loop (decimal n ++ rest) (bs ++ [0]) false k = pton4_loop rest (bs ++ [n]) true (k + 1).
Proof.
  unfold is_byte. intros Hn Hk. unfold decimal. destruct (Z.ltb_spec n 10); [by apply pton4_first; lia|].
  destruct (Z.ltb_spec n 100); cbn [app].
  - rewrite pton4_first, pton4_next by (Z.to_euclidean_division_equations; lia). do 3 f_equal. Z.to_euclidean_division_equations; lia.
  - rewrite pton4_first, !pton4_next by (Z.to_euclidean_division_equations; lia). do 3 f_equal. Z.to_euclidean_division_equations; lia.
Qed.

Lemma pton4_dot tmp rest k : k = Z.of_nat (length tmp) -> k < 4 -> pton4_loop (0x2e :: rest) tmp true k = pton4_loop rest (tmp ++ [0]) false k.
Proof.
  intros -> Hk. cbn [pton4_loop]. cbn -[pton4_loop emit]. rewrite (proj2 (Z.eqb_neq _ _)) by lia. by rewrite emit_ok by (simpl; lia).
Qed.

Lemma inet_pton4_text a b c d tail : is_byte a -> is_byte b -> is_byte c -> is_byte d ->
  inet_pton4 (text4 a b c d ++ 0 :: tail) = Ok (Some [a; b; c; d]).
Proof.
  intros. unfold inet_pton4, text4. rewrite <-!app_assoc. rewrite (pton4_octet []) by (done || lia). cbn [app].
  rewrite pton4_dot, <-app_assoc, pton4_octet by (done || lia). cbn [app].
  rewrite pton4_dot, <-app_assoc, pton4_octet by (done || lia). cbn [app].
  rewrite pton4_dot, pton4_octet by (done || lia). done.
Qed.

Lemma decimal_length n : (1 <= length (decimal n) <= 3)%nat.
Proof. unfold decimal. repeat case_match; simpl; lia. Qed.

Lemma text4_length a b c d : (7 <= length (text4 a b c d) <= 15)%nat.
Proof.
  unfold text4. repeat (rewrite length_app; simpl). pose proof (decimal_length a). pose proof (decimal_length b).
  pose proof (decimal_length c). pose proof (decimal_length d). lia.
Qed.

Lemma inet_ntop4_text a b c d tail size :
  inet_ntop4 (a :: b :: c :: d :: tail) size
  = Ok (if (length (text4 a b c d) <? size)%nat then inr (text4 a b c d ++ [0]) else inl ENOSPC).
Proof.
  unfold inet_ntop4. cbn [at_ lookup list_lookup run obind]. change (_ ++ [46] ++ _) with (text4 a b c d).
  destruct (Nat.leb_spec size (length (text4 a b c d))), (Nat.ltb_spec (length (text4 a b c d)) size); done || lia.
Qed.

(** * IPv6: reading *)

Definition is_word (w : Z) : Prop := 0 <= w < 0x10000.

Definition word_bytes (w : Z) : list Z := [w / 256; w mod 256].

(** The array when [out] has been written. *)
Definition filled (out : list Z) : list Z := out ++ replicate (IN6ADDRSZ - length out) 0.

Lemma write_filled out bs : (length out + length bs <= IN6ADDRSZ)%nat -> write_at (filled out) (length out) bs = Ok (filled (out ++ bs)).
Proof.
  intros H. unfold write_at, filled. rewrite !length_app, length_replicate, (proj2 (Nat.leb_le _ _)) by lia. f_equal.
  rewrite take_app_length, drop_app_ge by lia. replace (_ + _ - _)%nat with (length bs) by lia. rewrite drop_replicate, <-app_assoc. do 2 f_equal. f_equal. lia.
Qed.

Lemma word_bytes_code w : is_word w -> [Z.land (Z.shiftr w 8) 0xff; Z.land w 0xff] = word_bytes w.
Proof.
  unfold is_word. intros H. change 0xff with (Z.ones 8). rewrite !Z.land_ones, Z.shiftr_div_pow2 by lia. unfold word_bytes. change (2 ^ 8) with 256.
  f_equal. apply Z.mod_small. Z.to_euclidean_division_equations; lia.
Qed.

Lemma xdigit_value_of d : 0 <= d < 16 -> xdigit_value (hex_digit d) = Some d /\ hex_digit d <> 0.
Proof.
  intros H. unfold hex_digit, xdigit_value. destruct (Z.ltb_spec d 10).
  - rewrite !(proj2 (Z.leb_le _ _)) by lia. simpl. split; [f_equal; lia|lia].
  - rewrite (proj2 (Z.leb_gt (87 + d) 57)), !(proj2 (Z.leb_le _ _)) by lia. simpl. split; [f_equal; lia|lia].
Qed.

Lemma pton6_digit rest cur tmp tp colonp saw count val d : 0 <= d < 16 -> count < 4 -> 0 <= val -> val * 16 + d < 0x10000 ->
  pton6_loop (hex_digit d :: rest) cur tmp tp colonp saw count val = pton6_loop rest cur tmp tp colonp true (count + 1) (val * 16 + d).
Proof.
  intros Hd Hc Hv Hv'. cbn [pton6_loop]. destruct (xdigit_value_of d Hd) as [-> H0]. rewrite (proj2 (Z.eqb_neq _ _) H0), (proj2 (Z.leb_gt _ _)) by lia.
  rewrite Z.shiftl_mul_pow2, wrapU_small by lia. rewrite lor_low_bits by lia. change (2 ^ 4) with 16. by rewrite (proj2 (Z.ltb_ge _ _)) by lia.
Qed.

Lemma pton6_word rest cur tmp tp colonp w : is_word w -> exists count,
  pton6_loop (hex_word w ++ rest) cur tmp tp colonp false 0 0 = pton6_loop rest cur tmp tp colonp true count w.
Proof.
  unfold is_word. intros H. unfold hex_word. repeat case_match; cbn [app]; rewrite ?Z.ltb_lt, ?Z.ltb_ge in *; eexists.
  all: rewrite !pton6_digit by (Z.to_euclidean_division_equations; lia); f_equal; Z.to_euclidean_division_equations; lia.
Qed.

(** Words with a colon behind each. *)
Definition words_colon (ws : list Z) : list Z := concat ((fun w => hex_word w ++ [0x3a]) <$> ws).
Definition words_bytes (ws : list Z) : list Z := concat (word_bytes <$> ws).

Lemma words_bytes_length ws : length (words_bytes ws) = (2 * length ws)%nat.
Proof. induction ws as [|w ws IH]; [done|]. change (words_bytes (w :: ws)) with (word_bytes w ++ words_bytes ws). rewrite length_app, IH. simpl. lia. Qed.

Lemma hex_word_head w : is_word w -> exists c t, hex_word w = c :: t /\ c <> 0 /\ c <> 0x3a.
Proof.
  unfold is_word. intros H. unfold hex_word. repeat case_match; eexists _, _; (split; [done|]); unfold hex_digit; case_match; Z.to_euclidean_division_equations; lia.
Qed.

(** Words before a place where more follows. *)
Lemma pton6_words ws rest : Forall is_word ws -> rest !! 0%nat <> Some 0 -> rest <> [] -> forall cur out colonp,
  (length out + 2 * length ws <= IN6ADDRSZ)%nat -> exists cur', (ws <> [] -> cur' = rest) /\ (ws = [] -> cur' = cur) /\
  pton6_loop (words_colon ws ++ rest) cur (filled out) (length out) colonp false 0 0
  = pton6_loop rest cur' (filled (out ++ words_bytes ws)) (length (out ++ words_bytes ws)) colonp false 0 0.
Proof.
  intros Hws Hr Hne. induction Hws as [|w ws Hw Hws IH]; intros cur out colonp Hl.
  { exists cur. split_and!; [done..|]. unfold words_bytes. simpl. by rewrite app_nil_r. }
  simpl in Hl. change (words_colon (w :: ws)) with ((hex_word w ++ [0x3a]) ++ words_colon ws). rewrite <-!app_assoc.
  destruct (pton6_word (0x3a :: words_colon ws ++ rest) cur (filled out) (length out) colonp w Hw) as [count E]. cbn [app]. rewrite E. cbn [pton6_loop].
  change (xdigit_value 0x3a) with (@None Z). change (0x3a =? 0) with false. change (0x3a =? 0x3a) with true. cbn [negb].
  assert (exists c t, words_colon ws ++ rest = c :: t /\ c <> 0) as (c & t & Ec & Hc).
  { destruct Hws as [|w' ws' Hw' _]; [destruct rest as [|c t]; [done|]; exists c, t; naive_solver|].
    destruct (hex_word_head w' Hw') as (c & t & Ec & Hc & _). eexists c, _. split; [|done].
    change (words_colon (w' :: ws')) with ((hex_word w' ++ [0x3a]) ++ words_colon ws'). rewrite Ec. done. }
  rewrite (at_Some _ 0 c) by (by rewrite Ec). cbn [obind]. rewrite (proj2 (Z.eqb_neq _ _) Hc), (proj2 (Nat.ltb_ge _ _)) by lia.
  rewrite word_bytes_code, write_filled by (done || simpl; lia). cbn [obind].
  destruct (IH (words_colon ws ++ rest) (out ++ word_bytes w) colonp) as (cur' & H1 & H2 & H3); [rewrite length_app; simpl; lia|].
  exists cur'. split_and!; [|done|].
  - intros _. destruct ws; [|by apply H1]. by rewrite H2.
  - replace (length out + INT16SZ)%nat with (length (out ++ word_bytes w)) by (rewrite length_app; simpl; lia). rewrite H3.
    unfold words_bytes. by rewrite fmap_cons, <-app_assoc.
Qed.

(** The last word, and the last words as an IPv4 address. *)
Lemma pton6_last w cur out colonp tail : is_word w -> (length out + 2 <= IN6ADDRSZ)%nat ->
  pton6_loop (hex_word w ++ 0 :: tail) cur (filled out) (length out) colonp false 0 0
  = pton6_finish (filled (out ++ word_bytes w)) (length (out ++ word_bytes w)) colonp false 0.
Proof.
  intros Hw Hl. destruct (pton6_word (0 :: tail) cur (filled out) (length out) colonp w Hw) as [count ->]. cbn [pton6_loop Z.eqb].
  unfold pton6_finish. rewrite (proj2 (Nat.ltb_ge _ _)), word_bytes_code, write_filled by (done || simpl; lia). cbn [obind].
  by replace (length out + INT16SZ)%nat with (length (out ++ word_bytes w)) by (rewrite length_app; simpl; lia).
Qed.

Lemma pton6_octet n rest cur tmp tp colonp : is_byte n -> exists count val,
  pton6_loop (decimal n ++ rest) cur tmp tp colonp false 0 0 = pton6_loop rest cur tmp tp colonp true count val.
Proof.
  unfold is_byte. intros H. assert (forall d, 0 <= d < 10 -> 48 + d = hex_digit d) as Hd by (intros d Hd; unfold hex_digit; by rewrite (proj2 (Z.ltb_lt _ _)) by lia).
  unfold decimal. repeat case_match; cbn [app]; rewrite ?Z.ltb_lt, ?Z.ltb_ge in *; eexists _, _.
  all: rewrite !Hd by (Z.to_euclidean_division_equations; lia); by rewrite !pton6_digit by (Z.to_euclidean_division_equations; lia).
Qed.

Lemma pton6_last4 a b c d out colonp tail : is_byte a -> is_byte b -> is_byte c -> is_byte d -> (length out + 4 <= IN6ADDRSZ)%nat ->
  pton6_loop (text4 a b c d ++ 0 :: tail) (text4 a b c d ++ 0 :: tail) (filled out) (length out) colonp false 0 0
  = pton6_finish (filled (out ++ [a; b; c; d])) (length (out ++ [a; b; c; d])) colonp false 0.
Proof.
  intros Ha Hb Hc Hd Hl. set (cur := text4 _ _ _ _ ++ _) at 2. unfold text4. rewrite <-app_assoc.
  match goal with |- context [decimal a ++ ?r] => destruct (pton6_octet a r cur (filled out) (length out) colonp Ha) as (count & val & ->) end.
  cbn [app pton6_loop]. change (xdigit_value 0x2e) with (@None Z). change (0x2e =? 0) with false. change (0x2e =? 0x3a) with false. change (0x2e =? 0x2e) with true.
  rewrite (proj2 (Nat.leb_le _ _)) by lia. cbn [andb]. unfold cur. rewrite inet_pton4_text by done. cbn [obind].
  rewrite write_filled by (simpl; lia). cbn [obind]. by rewrite (length_app out).
Qed.

(** The shift that fills the gap. *)
Lemma shift_run_spec ys : forall xs m zs, (0 < m)%nat ->
  shift_run (length ys) (length xs + length ys + m) (length xs) (xs ++ ys ++ replicate m 0 ++ zs) = Ok (xs ++ replicate m 0 ++ ys ++ zs).
Proof.
  induction ys as [|y ys IH] using rev_ind; intros xs m zs Hm; [done|]. rewrite length_app, Nat.add_1_r. cbn [shift_run].
  rewrite (at_Some _ _ y) by (rewrite <-app_assoc, app_assoc; apply list_lookup_middle; by rewrite length_app). cbn [obind].
  destruct m as [|m]; [lia|]. rewrite replicate_S_end at 1.
  replace (xs ++ (ys ++ [y]) ++ (replicate m 0 ++ [0]) ++ zs) with ((xs ++ ys ++ y :: replicate m 0) ++ 0 :: zs) by (by rewrite <-!app_assoc).
  rewrite insert_middle by (rewrite !length_app; simpl; rewrite length_replicate; lia).
  replace ((xs ++ ys ++ y :: replicate m 0) ++ y :: zs) with ((xs ++ ys) ++ y :: replicate m 0 ++ y :: zs) by (by rewrite <-!app_assoc).
  rewrite insert_middle by (rewrite length_app; lia). specialize (IH xs (S m) (y :: zs)).
  replace (length xs + S (length ys) + S m - 1)%nat with (length xs + length ys + S m)%nat by lia.
  rewrite <-app_assoc. cbn [app replicate] in IH. rewrite IH by lia. by rewrite <-app_assoc.
Qed.

Lemma pton6_finish_gap xs ys : (length xs + length ys < IN6ADDRSZ)%nat ->
  pton6_finish (filled (xs ++ ys)) (length (xs ++ ys)) (Some (length xs)) false 0
  = Ok (Some (xs ++ replicate (IN6ADDRSZ - length xs - length ys) 0 ++ ys)).
Proof.
  intros H. unfold pton6_finish, filled. rewrite length_app, (proj2 (Nat.eqb_neq _ _)) by lia.
  replace (length xs + length ys - length xs)%nat with (length ys) by lia. rewrite <-app_assoc.
  pose proof (shift_run_spec ys xs (IN6ADDRSZ - (length xs + length ys)) []) as E. rewrite !app_nil_r in E.
  replace (length xs + length ys + (IN6ADDRSZ - (length xs + length ys)))%nat with IN6ADDRSZ in E by lia. rewrite E by lia. cbn [omap_ok]. by rewrite Nat.sub_add_distr.
Qed.

Lemma pton6_finish_full out : length out = IN6ADDRSZ -> pton6_finish (filled out) (length out) None false 0 = Ok (Some out).
Proof. intros H. unfold pton6_finish, filled. rewrite H. simpl. by rewrite app_nil_r. Qed.

(** * IPv6: printing *)

Lemma word_of_bytes a b : is_byte a -> is_byte b -> is_word (Z.lor (Z.shiftl a 8) b) /\ word_bytes (Z.lor (Z.shiftl a 8) b) = [a; b].
Proof.
  unfold is_byte, is_word, word_bytes. intros Ha Hb. rewrite Z.shiftl_mul_pow2, lor_low_bits by lia. change (2 ^ 8) with 256. split; [lia|].
  f_equal; [|f_equal]; Z.to_euclidean_division_equations; lia.
Qed.

(** The words of an address. *)
Lemma words_loop_spec src : Forall is_byte src -> length src = IN6ADDRSZ -> exists ws, words_loop 0 src (replicate 8 0) = ws /\
  words_bytes ws = src /\ Forall is_word ws /\ length ws = 8%nat.
Proof.
  intros Hb Hl. do 16 (destruct src as [|? src]; [done|]). destruct src; [|done]. rewrite !Forall_cons in Hb. destruct_and! Hb.
  set (word a b := Z.lor (Z.shiftl a 8) b).
  exists [word z z0; word z1 z2; word z3 z4; word z5 z6; word z7 z8; word z9 z10; word z11 z12; word z13 z14].
  split; [reflexivity|]. unfold words_bytes. cbn -[word word_bytes]. subst word.
  rewrite !Forall_cons. split_and!; [|by apply word_of_bytes..|constructor|done].
  by rewrite !(fun a b H1 H2 => proj2 (word_of_bytes a b H1 H2)) by done.
Qed.

(** A run of zeros. *)
Definition zero_run (ws : list Z) (r : nat * nat) : Prop := forall j, (r.1 <= j < r.1 + r.2)%nat -> ws !! j = Some 0.

Definition run_len (r : option (nat * nat)) : nat := match r with Some (_, l) => l | None => 0%nat end.

Lemma better_cases cur best : (better cur best = cur \/ better cur best = best) /\ (run_len cur <= run_len (better cur best))%nat /\ (run_len best <= run_len (better cur best))%nat.
Proof. destruct cur as [[b l]|], best as [[b' l']|]; simpl; try case_match; rewrite ?Nat.ltb_lt, ?Nat.ltb_ge in *; simpl; split_and!; auto; lia. Qed.

(** [best] and [cur] are runs, [cur] ends at [i], and no run up to [i] is longer. *)
Definition runs_ok (ws : list Z) (i : nat) (best cur : option (nat * nat)) : Prop :=
  (forall r, best = Some r -> zero_run ws r) /\ (forall r, cur = Some r -> zero_run ws r /\ (r.1 + r.2 = i)%nat) /\
  (forall r, zero_run ws r -> (r.1 + r.2 <= i)%nat -> (r.2 <= run_len best \/ r.2 <= run_len cur)%nat) /\
  (forall r, zero_run ws r -> (r.1 + r.2 = i)%nat -> (r.2 <= run_len cur)%nat).

Lemma runs_zero ws i best cur : ws !! i = Some 0 -> runs_ok ws i best cur ->
  runs_ok ws (S i) best (match cur with None => Some (i, 1%nat) | Some (base, l) => Some (base, S l) end).
Proof.
  intros Hi (H1 & H2 & H3 & H4).
  assert (H4' : forall r, zero_run ws r -> (r.1 + r.2 = S i)%nat -> (r.2 <= S (run_len cur))%nat).
  { intros [b l] Hr Hl. simpl in *. destruct l as [|l]; [lia|]. specialize (H4 (b, l)). simpl in H4. enough (l <= run_len cur)%nat by lia.
    apply H4; [|lia]. intros j Hj. apply Hr. simpl in *. lia. }
  split_and!; [done| | |].
  - intros r Hr. destruct cur as [[b l]|]; injection Hr as <-; simpl.
    + destruct (H2 _ eq_refl) as [Hz He]. split; [|simpl in He; lia]. intros j Hj. simpl in *. destruct (decide (j = i)) as [->|]; [done|]. apply Hz. simpl. lia.
    + split; [|lia]. intros j Hj. simpl in Hj. by replace j with i by lia.
  - intros r Hr Hl. destruct (decide (r.1 + r.2 = S i)%nat) as [He|]; [right; specialize (H4' r Hr He); by destruct cur as [[b l]|]|].
    destruct (H3 r Hr) as [|H]; [lia|by left|right]. destruct cur as [[b l]|]; simpl in *; lia.
  - intros r Hr He. specialize (H4' r Hr He). by destruct cur as [[b l]|].
Qed.

Lemma runs_nonzero ws i w best cur : ws !! i = Some w -> w <> 0 -> runs_ok ws i best cur -> runs_ok ws (S i) (better cur best) None.
Proof.
  intros Hi Hw (H1 & H2 & H3 & H4). destruct (better_cases cur best) as (Hb & Hc1 & Hc2). split_and!; [|done| |].
  - intros r Hr. destruct Hb as [Hb|Hb]; rewrite Hb in Hr; [by apply H2|by apply H1].
  - intros r Hr Hl. left. destruct (decide (r.1 + r.2 = S i)%nat) as [He|].
    + destruct (decide (r.2 = 0%nat)); [lia|]. specialize (Hr i). rewrite Hi in Hr. exfalso. enough (Some w = Some 0) by congruence. apply Hr. lia.
    + destruct (H3 r Hr); lia.
  - intros r Hr He. destruct (decide (r.2 = 0%nat)); [simpl; lia|]. specialize (Hr i). rewrite Hi in Hr. exfalso. enough (Some w = Some 0) by congruence. apply Hr. lia.
Qed.

Lemma run_loop_spec all ws : forall i best cur, drop i all = ws -> (i <= length all)%nat -> runs_ok all i best cur ->
  match run_loop i ws best cur with
  | Some r => zero_run all r /\ (2 <= r.2)%nat /\ forall r', zero_run all r' -> (r'.1 + r'.2 <= length all)%nat -> (r'.2 <= r.2)%nat
  | None => forall r', zero_run all r' -> (r'.1 + r'.2 <= length all)%nat -> (r'.2 < 2)%nat
  end.
Proof.
  induction ws as [|w ws IH]; intros i best cur Hd Hi Hok; simpl.
  - assert (i = length all) as -> by (apply (f_equal length) in Hd; rewrite length_drop in Hd; simpl in Hd; lia).
    destruct (better_cases cur best) as (Hb & Hc1 & Hc2). destruct Hok as (H1 & H2 & H3 & H4).
    assert (H3' : forall r', zero_run all r' -> (r'.1 + r'.2 <= length all)%nat -> (r'.2 <= run_len (better cur best))%nat).
    { intros r' Hr' Hl. destruct (H3 r' Hr' Hl); lia. }
    destruct (better cur best) as [[b l]|]; [|intros r' Hr' Hl; specialize (H3' r' Hr' Hl); simpl in H3'; lia].
    simpl in H3'. destruct (Nat.ltb_spec l 2); [intros r' Hr' Hl; specialize (H3' r' Hr' Hl); lia|]. split_and!; [|done|done].
    destruct Hb as [Hb|Hb]; [by apply H2|by apply H1].
  - assert (Hw : all !! i = Some w) by (rewrite <-(Nat.add_0_r i), <-lookup_drop, Hd; done). pose proof (lookup_lt_Some _ _ _ Hw).
    assert (Hd' : drop (S i) all = ws) by (rewrite <-Nat.add_1_r, <-drop_drop, Hd; done).
    destruct (Z.eqb_spec w 0) as [->|Hne]; (apply IH; [done|lia|]); [by apply runs_zero|by apply (runs_nonzero all i w)].
Qed.

Lemma longest_run ws :
  match run_loop 0 ws None None with
  | Some r => zero_run ws r /\ (2 <= r.2)%nat /\ forall r', zero_run ws r' -> (r'.1 + r'.2 <= length ws)%nat -> (r'.2 <= r.2)%nat
  | None => forall r', zero_run ws r' -> (r'.1 + r'.2 <= length ws)%nat -> (r'.2 < 2)%nat
  end.
Proof. apply run_loop_spec; [done|lia|]. split_and!; [done..| |]; intros r _ Hr; simpl; lia. Qed.

(** Words with a colon before each but the first. *)
Definition sep (i : nat) : list Z := if (i =? 0)%nat then [] else [0x3a].

Fixpoint out_words (i : nat) (ws : list Z) : list Z :=
  match ws with [] => [] | w :: ws => sep i ++ hex_word w ++ out_words (S i) ws end.

Lemma hex_word_length w : (1 <= length (hex_word w) <= 4)%nat.
Proof. unfold hex_word. repeat case_match; simpl; lia. Qed.

Lemma sep_length i : (length (sep i) <= 1)%nat.
Proof. unfold sep. case_match; simpl; lia. Qed.

Lemma out_words_length ws : forall i, (length (out_words i ws) <= 5 * length ws)%nat.
Proof.
  induction ws as [|w ws IH]; intros i; simpl; [lia|]. rewrite !length_app. specialize (IH (S i)). pose proof (hex_word_length w). pose proof (sep_length i). lia.
Qed.

(** Does the address end like an IPv4 address? *)
Definition embeds_v4 (best : option (nat * nat)) (word5 : Z) : bool :=
  match best with Some (base, len) => (base =? 0)%nat && ((len =? 6)%nat || (len =? 5)%nat && (word5 =? 0xffff)) | None => false end.

Definition in_run (best : option (nat * nat)) (i : nat) : bool :=
  match best with Some (base, len) => (base <=? i)%nat && (i <? base + len)%nat | None => false end.

Lemma ntop6_zeros src word5 base len rest : forall k i out, (base < i)%nat -> (i + k = base + len)%nat -> (length out < TMP_SIZE)%nat ->
  ntop6_loop i src (replicate k 0 ++ rest) (Some (base, len)) word5 out = ntop6_loop (i + k) src rest (Some (base, len)) word5 out.
Proof.
  induction k as [|k IH]; intros i out Hi He Hl; [by rewrite Nat.add_0_r|]. cbn [replicate app ntop6_loop].
  rewrite (proj2 (Nat.ltb_lt (length out) _)) by done. cbn [negb].
  rewrite (proj2 (Nat.leb_le base _)), (proj2 (Nat.ltb_lt i _)), (proj2 (Nat.eqb_neq i base)) by lia. cbn [andb].
  rewrite IH by lia. f_equal. lia.
Qed.

Lemma ntop6_run src word5 base len rest out : (0 < len)%nat -> (length out + 1 < TMP_SIZE)%nat ->
  ntop6_loop base src (replicate len 0 ++ rest) (Some (base, len)) word5 out = ntop6_loop (base + len) src rest (Some (base, len)) word5 (out ++ [0x3a]).
Proof.
  intros Hlen Hl. destruct len as [|len]; [lia|]. cbn [replicate app ntop6_loop].
  rewrite (proj2 (Nat.ltb_lt (length out) _)) by lia. cbn [negb].
  rewrite Nat.leb_refl, (proj2 (Nat.ltb_lt base _)), Nat.eqb_refl, (proj2 (Nat.leb_gt _ _)) by lia. cbn [andb].
  rewrite emit_ok by (simpl; lia). cbn [obind]. rewrite ntop6_zeros by (rewrite ?length_app; simpl; lia). f_equal. lia.
Qed.

Section format.
Context (src : list Z) (best : option (nat * nat)) (word5 : Z).

Lemma ntop6_words ws rest : forall i out,
  (forall j, (i <= j < i + length ws)%nat -> in_run best j = false /\ (j <> 6%nat \/ embeds_v4 best word5 = false)) ->
  (length out + 5 * length ws < TMP_SIZE)%nat ->
  ntop6_loop i src (ws ++ rest) best word5 out = ntop6_loop (i + length ws) src rest best word5 (out ++ out_words i ws).
Proof.
  induction ws as [|w ws IH]; intros i out H Hl; [simpl; by rewrite Nat.add_0_r, app_nil_r|]. cbn [length] in *. pose proof (hex_word_length w).
  cbn [app ntop6_loop]. rewrite (proj2 (Nat.ltb_lt _ _)) by lia. cbn [negb]. destruct (H i) as [Hi Hv]; [lia|].
  unfold in_run in Hi. rewrite Hi. rewrite (proj2 (Nat.leb_gt TMP_SIZE (length out + 1))), andb_false_r by lia.
  assert ((if negb (i =? 0)%nat then emit TMP_SIZE out [58] else Ok out) = Ok (out ++ sep i)) as ->.
  { unfold sep. destruct (i =? 0)%nat; simpl; [by rewrite app_nil_r|]. by rewrite emit_ok by (simpl; lia). }
  cbn [obind]. assert ((i =? 6)%nat && embeds_v4 best word5 = false) as Hv'.
  { destruct Hv as [Hv| ->]; [by rewrite (proj2 (Nat.eqb_neq _ _) Hv)|by rewrite andb_false_r]. }
  unfold embeds_v4 in Hv'. rewrite Hv'. pose proof (sep_length i). rewrite length_app.
  rewrite (proj2 (Nat.leb_gt _ _)), emit_ok by (rewrite ?length_app; lia). cbn [obind].
  rewrite IH; [|intros j Hj; apply H; lia|rewrite !length_app; lia]. simpl out_words. rewrite <-!app_assoc. f_equal. lia.
Qed.

Lemma ntop6_v4 a b c d w rest out : drop 12 src = [a; b; c; d] -> embeds_v4 best word5 = true -> in_run best 6 = false -> (length out + 16 < TMP_SIZE)%nat ->
  ntop6_loop 6 src (w :: rest) best word5 out = Ok (inr (out ++ 0x3a :: text4 a b c d)).
Proof.
  intros Hs Hv Hi Hl. pose proof (text4_length a b c d). cbn [ntop6_loop]. rewrite (proj2 (Nat.ltb_lt _ _)) by lia. cbn [negb]. unfold in_run in Hi. rewrite Hi.
  change (6 =? 0)%nat with false. cbn [negb andb]. rewrite (proj2 (Nat.leb_gt _ _)), emit_ok by (simpl; lia). cbn [obind].
  unfold embeds_v4 in Hv. rewrite Hv. change (6 =? 6)%nat with true. cbn [andb]. rewrite Hs, inet_ntop4_text, length_app. cbn [length].
  rewrite (proj2 (Nat.ltb_lt _ _)) by lia. cbn [obind]. rewrite length_app, Nat.add_sub, take_app_length.
  rewrite emit_ok by (rewrite length_app; simpl; lia). cbn [obind]. by rewrite <-app_assoc.
Qed.
End format.

(** The last two words as an IPv4 address. *)
Definition v4_words (w6 w7 : Z) : list Z := text4 (w6 / 256) (w6 mod 256) (w7 / 256) (w7 mod 256).

(** The words behind the run. *)
Definition tail_text (i : nat) (v4 : bool) (ws : list Z) : list Z :=
  match ws with
  | [] => [0x3a]
  | _ => if v4 then match reverse ws with
                    | w7 :: w6 :: mid => out_words i (reverse mid) ++ 0x3a :: v4_words w6 w7
                    | _ => []
                    end
         else out_words i ws
  end.

(** The text of an address of eight words: two colons for the longest run of zeros. *)
Definition text6 (ws : list Z) : list Z :=
  match run_loop 0 ws None None with
  | None => out_words 0 ws
  | Some (base, len) =>
      out_words 0 (take base ws) ++ 0x3a :: tail_text (base + len) (embeds_v4 (Some (base, len)) (ws !!! 5%nat)) (drop (base + len) ws)
  end.

Lemma split_run ws base len : length ws = 8%nat -> zero_run ws (base, len) -> (2 <= len)%nat ->
  (base + len <= 8)%nat /\ ws = take base ws ++ replicate len 0 ++ drop (base + len) ws.
Proof.
  intros Hl Hz Hlen. assert (Hle : (base + len <= 8)%nat).
  { specialize (Hz (base + len - 1)%nat). simpl in Hz. rewrite <-Hl. enough (base + len - 1 < length ws)%nat by lia.
    apply lookup_lt_is_Some. exists 0. apply Hz. lia. }
  split; [done|]. rewrite <-(take_drop base ws) at 1. f_equal. rewrite <-(take_drop len (drop base ws)) at 1. rewrite drop_drop. f_equal.
  apply list_eq_same_length with len; [by rewrite length_replicate|rewrite length_take, length_drop; lia|].
  intros i x y Hi Hx Hy. apply lookup_take_Some in Hx as [Hx _]. rewrite lookup_drop, (Hz (base + i)%nat) in Hx by (simpl; lia).
  apply lookup_replicate in Hy as [-> _]. congruence.
Qed.

Lemma drop_words k ws : drop (2 * k) (words_bytes ws) = words_bytes (drop k ws).
Proof.
  revert ws. induction k as [|k IH]; intros ws; [done|]. destruct ws as [|w ws]; [by rewrite drop_nil|].
  replace (2 * S k)%nat with (2 + 2 * k)%nat by lia. rewrite <-drop_drop. apply IH.
Qed.

(** A run of which the rest ends like an IPv4 address. *)
Lemma ntop6_loop_v4 ws len : length ws = 8%nat -> ws = replicate len 0 ++ drop len ws -> embeds_v4 (Some (0%nat, len)) (ws !!! 5%nat) = true ->
  exists out, ntop6_loop 0 (words_bytes ws) ws (Some (0%nat, len)) (ws !!! 5%nat) [] = Ok (inr out) /\
    out = 0x3a :: tail_text len true (drop len ws) /\ (length out <= 44)%nat /\ (len < 8)%nat.
Proof.
  intros Hl Hws Hv. pose proof Hv as Hv'. simpl in Hv'. set (x := ws !!! 5%nat) in *. clearbody x. pose proof (drop_words 6 ws) as Hd.
  generalize dependent (words_bytes ws). intros src Hd. do 8 (destruct ws as [|? ws]; [done|]). destruct ws; [|done]. simpl drop in Hd.
  match goal with |- context [ntop6_loop 0 src ?l ?b x []] => assert (ntop6_loop 0 src l b x [] = ntop6_loop 0 src (replicate len 0 ++ drop len l) b x []) as -> by (by rewrite <-Hws) end.
  apply orb_true_iff in Hv' as [->%Nat.eqb_eq|[->%Nat.eqb_eq _]%andb_true_iff].
  all: rewrite (ntop6_run _ _ 0) by (simpl; lia); simpl drop; simpl Nat.add.
  2: rewrite (ntop6_words _ _ _ [z4] [z5; z6]); [|intros j Hj; simpl in Hj; replace j with 5%nat by lia; split; [done|by left]|simpl; lia].
  all: erewrite ntop6_v4; [|apply Hd|done|done|]; [|rewrite ?length_app; pose proof (out_words_length [z4] 5); simpl length in *; lia].
  all: eexists; (split_and!; [done|done| |lia]); pose proof (text4_length (z5 / 256) (z5 mod 256) (z6 / 256) (z6 mod 256)).
  all: rewrite ?length_app; pose proof (out_words_length [z4] 5); simpl length in *; lia.
Qed.

Lemma ntop6_loop_text ws : length ws = 8%nat -> let best := run_loop 0 ws None None in
  exists out, ntop6_loop 0 (words_bytes ws) ws best (ws !!! 5%nat) [] = Ok (inr out) /\
    text6 ws = out ++ (if match best with Some (base, len) => (base + len =? 8)%nat | None => false end then [0x3a] else []) /\
    (length (text6 ws) <= 44)%nat.
Proof.
  intros Hl best. pose proof (longest_run ws) as Hr. subst best. unfold text6. destruct (run_loop 0 ws None None) as [[base len]|].
  - destruct Hr as (Hz & Hlen & _). simpl in Hlen. destruct (split_run ws base len Hl Hz Hlen) as [Hle Hws].
    destruct (embeds_v4 (Some (base, len)) (ws !!! 5%nat)) eqn:Hv.
    + assert (base = 0%nat) as -> by (simpl in Hv; apply andb_true_iff in Hv as [?%Nat.eqb_eq _]; done).
      destruct (ntop6_loop_v4 ws len Hl Hws Hv) as (out & -> & Hout & Hlo & Hlt). exists out. simpl Nat.add. rewrite (proj2 (Nat.eqb_neq _ _)) by lia.
      split_and!; [done|by rewrite app_nil_r, Hout|by rewrite <-Hout].
    + set (word5 := ws !!! 5%nat) in *. pose proof (out_words_length (take base ws) 0) as L1. pose proof (out_words_length (drop (base + len) ws) (base + len)) as L2.
      rewrite length_take in L1. rewrite length_drop in L2.
      assert (ntop6_loop 0 (words_bytes ws) ws (Some (base, len)) word5 [] = Ok (inr ((out_words 0 (take base ws) ++ [58]) ++ out_words (base + len) (drop (base + len) ws)))) as ->.
      { rewrite Hws at 2. rewrite ntop6_words; [|intros j Hj; rewrite length_take in Hj; split; [|by right]|rewrite length_take; simpl; lia].
        2: { simpl. rewrite (proj2 (Nat.leb_gt _ _)) by lia. done. }
        rewrite length_take. replace (0 + base `min` length ws)%nat with base by lia. rewrite ntop6_run by (simpl; lia).
        rewrite <-(app_nil_r (drop (base + len) ws)) at 1. rewrite ntop6_words; [done| |rewrite !length_app, length_drop; simpl; lia].
        intros j Hj. split; [|by right]. simpl. rewrite (proj2 (Nat.ltb_ge j _)), andb_false_r by lia. done. }
      eexists. split_and!; [done| |].
      * unfold tail_text. destruct (Nat.eqb_spec (base + len) 8) as [He|].
        -- rewrite !drop_ge by lia. simpl. by rewrite <-!app_assoc.
        -- destruct (drop (base + len) ws) as [|w post] eqn:E; [apply (f_equal length) in E; rewrite length_drop in E; simpl in E; lia|].
           by rewrite app_nil_r, <-!app_assoc.
      * rewrite length_app. simpl. unfold tail_text. destruct (drop (base + len) ws) as [|w post] eqn:E; [simpl; lia|]. lia.
  - exists (out_words 0 ws). pose proof (out_words_length ws 0). split_and!; [|by rewrite app_nil_r|lia].
    rewrite <-(app_nil_r ws) at 2. rewrite ntop6_words; [done|by split; [|right]|simpl; lia].
Qed.

Lemma inet_ntop6_text src tail : Forall is_byte src -> length src = IN6ADDRSZ ->
  exists ws, words_bytes ws = src /\ Forall is_word ws /\ length ws = 8%nat /\ forall size,
    inet_ntop6 (src ++ tail) size = Ok (if (length (text6 ws) <? size)%nat then inr (text6 ws ++ [0]) else inl ENOSPC).
Proof.
  intros Hsrc Hl. destruct (words_loop_spec src Hsrc Hl) as (ws & Hw & Hb & Hws & Hlw). exists ws. split_and!; [done..|]. intros size.
  unfold inet_ntop6. assert (bytes_at (src ++ tail) 0 IN6ADDRSZ = Ok src) as ->.
  { rewrite <-Hl. apply bytes_at_has; [apply (has_app _ 0 src tail), has_self|rewrite length_app; lia]. }
  cbn [obind]. rewrite Hw.
  destruct (lookup_lt_is_Some_2 ws 5) as [w5 Hw5]; [lia|]. rewrite (at_Some _ _ _ Hw5). cbn [obind]. rewrite <-Hb, <-(list_lookup_total_correct _ _ _ Hw5).
  destruct (ntop6_loop_text ws Hlw) as (out & -> & Ht & Hlen). cbn [obind]. set (tr := match run_loop 0 ws None None with Some _ => _ | None => _ end) in *.
  rewrite Ht, length_app in Hlen. assert (tr && (TMP_SIZE <=? length out + 1)%nat = false) as ->.
  { destruct tr; [|done]. simpl in Hlen. cbn [andb]. apply Nat.leb_gt. lia. }
  assert ((if tr then emit TMP_SIZE out [58] else Ok out) = Ok (text6 ws)) as ->.
  { rewrite Ht. destruct tr; [|by rewrite app_nil_r]. apply emit_ok. simpl in *. lia. }
  cbn [obind]. rewrite <-length_app, <-Ht in Hlen. rewrite (proj2 (Nat.leb_gt _ _)), emit_ok by (simpl; lia). cbn [obind]. rewrite length_app. cbn [length].
  destruct (Nat.ltb_spec size (length (text6 ws) + 1)), (Nat.ltb_spec (length (text6 ws)) size); done || lia.
Qed.

(** * The text of an IPv6 address is read back *)

Lemma words_colon_cons w ws : words_colon (w :: ws) = hex_word w ++ 0x3a :: words_colon ws.
Proof. unfold words_colon. simpl. by rewrite <-app_assoc. Qed.

Lemma words_bytes_app ws ws' : words_bytes (ws ++ ws') = words_bytes ws ++ words_bytes ws'.
Proof. unfold words_bytes. by rewrite fmap_app, concat_app. Qed.

Lemma out_words_colon ws : forall i, out_words (S i) ws ++ [0x3a] = 0x3a :: words_colon ws.
Proof. induction ws as [|w ws IH]; intros i; [done|]. rewrite words_colon_cons. simpl. by rewrite <-app_assoc, IH. Qed.

Lemma out_words_first w ws : out_words 0 (w :: ws) ++ [0x3a] = words_colon (w :: ws).
Proof. rewrite words_colon_cons. simpl. by rewrite <-app_assoc, out_words_colon. Qed.

Lemma out_words_snoc ws w : forall i, out_words i (ws ++ [w]) = out_words i ws ++ sep (i + length ws) ++ hex_word w.
Proof.
  induction ws as [|w' ws IH]; intros i; simpl; [by rewrite Nat.add_0_r, app_nil_r|]. rewrite IH, <-!app_assoc. simpl. by rewrite Nat.add_succ_r.
Qed.

(** The rest behind the two colons. *)
Definition rest_text6 (v4 : bool) (ws : list Z) : list Z :=
  match reverse ws with
  | [] => []
  | w7 :: ws' => if v4 then match ws' with w6 :: mid => words_colon (reverse mid) ++ v4_words w6 w7 | [] => [] end
                 else words_colon (reverse ws') ++ hex_word w7
  end.

Lemma tail_text_rest i v4 ws : (v4 = true -> 2 <= length ws)%nat -> tail_text (S i) v4 ws = 0x3a :: rest_text6 v4 ws.
Proof.
  intros Hv. unfold tail_text, rest_text6. destruct (reverse ws) as [|w7 ws'] eqn:E.
  { apply (f_equal length) in E. rewrite length_reverse in E. by destruct ws. }
  assert (Hws : ws = reverse ws' ++ [w7]) by (by rewrite <-(reverse_involutive ws), E, reverse_cons).
  destruct ws as [|w ws0]; [by destruct (reverse ws')|]. rewrite Hws in *. clear E Hws. destruct v4.
  - destruct ws' as [|w6 mid]; [specialize (Hv eq_refl); simpl in Hv; lia|]. change (58 :: v4_words w6 w7) with ([58] ++ v4_words w6 w7).
    by rewrite app_assoc, out_words_colon.
  - rewrite out_words_snoc. simpl sep. by rewrite app_assoc, out_words_colon.
Qed.

Lemma v4_bytes w6 w7 : is_word w6 -> is_word w7 -> Forall is_byte [w6 / 256; w6 mod 256; w7 / 256; w7 mod 256].
Proof. unfold is_word, is_byte. intros H6 H7. repeat constructor; Z.to_euclidean_division_equations; lia. Qed.

Lemma text_head_nonzero w rest : is_word w -> (hex_word w ++ rest) !! 0%nat <> Some 0 /\ hex_word w ++ rest <> [].
Proof. intros Hw. destruct (hex_word_head w Hw) as (c & t & -> & Hc & _). simpl. split; congruence. Qed.

Lemma v4_head w6 w7 rest : is_word w6 -> (v4_words w6 w7 ++ rest) !! 0%nat <> Some 0 /\ v4_words w6 w7 ++ rest <> [].
Proof.
  unfold is_word. intros H. unfold v4_words, text4, decimal. repeat case_match; simpl; (split; [|done]); intros [= E];
    rewrite ?Z.ltb_lt, ?Z.ltb_ge in *; Z.to_euclidean_division_equations; lia.
Qed.

(** Reading the rest fills the end of the address. *)
Lemma pton6_rest v4 ws xs tail : Forall is_word ws -> (v4 = true -> 2 <= length ws)%nat -> (length xs + 2 * length ws < IN6ADDRSZ)%nat ->
  pton6_loop (rest_text6 v4 ws ++ 0 :: tail) (rest_text6 v4 ws ++ 0 :: tail) (filled xs) (length xs) (Some (length xs)) false 0 0
  = Ok (Some (xs ++ replicate (IN6ADDRSZ - length xs - 2 * length ws) 0 ++ words_bytes ws)).
Proof.
  intros Hws Hv Hl. unfold rest_text6. destruct (reverse ws) as [|w7 ws'] eqn:E.
  { apply (f_equal length) in E. rewrite length_reverse in E. destruct ws; [|done]. cbn [app pton6_loop Z.eqb].
    pose proof (pton6_finish_gap xs []) as F. rewrite app_nil_r in F. rewrite F by (simpl in *; lia). simpl length. by rewrite Nat.mul_0_r. }
  assert (ws = reverse ws' ++ [w7]) as -> by (by rewrite <-(reverse_involutive ws), E, reverse_cons). clear E.
  apply Forall_app in Hws as [Hws' Hw7]. rewrite Forall_singleton in Hw7. rewrite length_app in Hl. cbn [length] in Hl.
  assert (Hgap : forall ys, length ys = (2 * length (reverse ws' ++ [w7]))%nat -> ys = words_bytes (reverse ws' ++ [w7]) ->
    pton6_finish (filled (xs ++ ys)) (length (xs ++ ys)) (Some (length xs)) false 0
    = Ok (Some (xs ++ replicate (IN6ADDRSZ - length xs - 2 * length (reverse ws' ++ [w7])) 0 ++ words_bytes (reverse ws' ++ [w7])))).
  { intros ys Hy1 Hy2. rewrite pton6_finish_gap by (rewrite Hy1, length_app; simpl; lia). by rewrite Hy1, <-Hy2. }
  destruct v4.
  - destruct ws' as [|w6 mid]; [specialize (Hv eq_refl); simpl in Hv; lia|]. rewrite reverse_cons in *. apply Forall_app in Hws' as [Hmid Hw6].
    rewrite Forall_singleton in Hw6. rewrite length_app in Hl. cbn [length] in Hl. rewrite <-app_assoc.
    destruct (v4_head w6 w7 (0 :: tail) Hw6) as [Hh1 Hh2].
    destruct (pton6_words (reverse mid) (v4_words w6 w7 ++ 0 :: tail) Hmid Hh1 Hh2 (words_colon (reverse mid) ++ v4_words w6 w7 ++ 0 :: tail) xs (Some (length xs))) as (cur & Hc1 & Hc2 & ->); [lia|].
    assert (cur = v4_words w6 w7 ++ 0 :: tail) as ->.
    { destruct (reverse mid); [by rewrite Hc2|by apply Hc1]. }
    pose proof (v4_bytes w6 w7 Hw6 Hw7) as Hb. rewrite !Forall_cons in Hb. destruct_and! Hb. unfold v4_words.
    rewrite pton6_last4 by (done || rewrite length_app, words_bytes_length; lia). rewrite <-app_assoc. apply Hgap.
    + rewrite !length_app, words_bytes_length. simpl. lia.
    + by rewrite !words_bytes_app, <-app_assoc.
  - rewrite <-app_assoc. destruct (text_head_nonzero w7 (0 :: tail) Hw7) as [Hh1 Hh2].
    destruct (pton6_words (reverse ws') (hex_word w7 ++ 0 :: tail) Hws' Hh1 Hh2 (words_colon (reverse ws') ++ hex_word w7 ++ 0 :: tail) xs (Some (length xs))) as (cur & _ & _ & ->); [lia|].
    rewrite pton6_last by (done || rewrite length_app, words_bytes_length; lia). rewrite <-app_assoc. apply Hgap.
    + rewrite !length_app, words_bytes_length. simpl. lia.
    + by rewrite words_bytes_app.
Qed.

Lemma pton6_gap ws xs v4 tail : Forall is_word ws -> Forall is_word xs -> (v4 = true -> 2 <= length ws)%nat -> (2 * length xs + 2 * length ws < IN6ADDRSZ)%nat -> forall cur,
  pton6_loop (words_colon xs ++ 0x3a :: rest_text6 v4 ws ++ 0 :: tail) cur (replicate IN6ADDRSZ 0) 0 None false 0 0
  = Ok (Some (words_bytes xs ++ replicate (IN6ADDRSZ - 2 * length xs - 2 * length ws) 0 ++ words_bytes ws)).
Proof.
  intros Hws Hxs Hv Hl cur.
  destruct (pton6_words xs (0x3a :: rest_text6 v4 ws ++ 0 :: tail) Hxs) with (cur := cur) (out := @nil Z) (colonp := @None nat) as (cur' & _ & _ & E); [done..|simpl; lia|].
  change (filled []) with (replicate IN6ADDRSZ 0) in E. cbn [length app] in E. rewrite E.
  cbn [pton6_loop]. change (xdigit_value 0x3a) with (@None Z). change (0x3a =? 0) with false. change (0x3a =? 0x3a) with true. cbn [negb].
  rewrite pton6_rest by (done || rewrite words_bytes_length; lia). by rewrite words_bytes_length.
Qed.

Lemma words_colon_start w ws rest : is_word w -> exists c t, words_colon (w :: ws) ++ rest = c :: t /\ c <> 0x3a.
Proof. intros Hw. rewrite words_colon_cons. destruct (hex_word_head w Hw) as (c & t & -> & _ & Hc). by exists c, ((t ++ 58 :: words_colon ws) ++ rest). Qed.

Lemma words_bytes_zeros n : words_bytes (replicate n 0) = replicate (2 * n) 0.
Proof.
  induction n as [|n IH]; [done|]. replace (2 * S n)%nat with (S (S (2 * n))) by lia. cbn [replicate].
  change (words_bytes (0 :: replicate n 0)) with (0 :: 0 :: words_bytes (replicate n 0)). by rewrite IH.
Qed.

Lemma pton6_text_gap pre len e v4 post tail : (length pre + len + length post = 8)%nat -> (0 < len)%nat -> Forall is_word pre -> Forall is_word post ->
  (v4 = true -> 2 <= length post)%nat ->
  inet_pton6 ((out_words 0 pre ++ 0x3a :: tail_text (S e) v4 post) ++ 0 :: tail) = Ok (Some (words_bytes (pre ++ replicate len 0 ++ post))).
Proof.
  intros Hl Hlen Hw1 Hw2 Hv4. rewrite tail_text_rest, !words_bytes_app, words_bytes_zeros by done.
  replace (2 * len)%nat with (IN6ADDRSZ - 2 * length pre - 2 * length post)%nat by lia. unfold inet_pton6. destruct pre as [|w pre].
  - cbn [out_words app at_ lookup list_lookup run obind]. change (0x3a =? 0x3a) with true. cbn [negb drop skipn].
    apply (pton6_gap post [] v4 tail); [done..|simpl in *; lia].
  - replace ((out_words 0 (w :: pre) ++ 58 :: 58 :: rest_text6 v4 post) ++ 0 :: tail) with (words_colon (w :: pre) ++ 0x3a :: rest_text6 v4 post ++ 0 :: tail)
      by (rewrite <-out_words_first, <-!app_assoc; done).
    destruct (words_colon_start w pre (0x3a :: rest_text6 v4 post ++ 0 :: tail)) as (c & t & E & Hc); [by apply Forall_inv in Hw1|].
    rewrite E at 1. cbn [at_ lookup list_lookup run obind]. rewrite (proj2 (Z.eqb_neq _ _) Hc).
    apply pton6_gap; [done..|lia].
Qed.

Lemma pton6_text_full ws w7 tail : length ws = 7%nat -> Forall is_word ws -> is_word w7 ->
  inet_pton6 (out_words 0 (ws ++ [w7]) ++ 0 :: tail) = Ok (Some (words_bytes (ws ++ [w7]))).
Proof.
  intros Hl Hws Hw7. rewrite out_words_snoc, Hl. destruct ws as [|w ws]; [done|]. simpl sep. rewrite app_assoc, out_words_first, <-app_assoc. unfold inet_pton6.
  destruct (words_colon_start w ws (hex_word w7 ++ 0 :: tail)) as (c & t & E & Hc); [by apply Forall_inv in Hws|].
  rewrite E at 1. cbn [at_ lookup list_lookup run obind]. rewrite (proj2 (Z.eqb_neq _ _) Hc).
  destruct (text_head_nonzero w7 (0 :: tail) Hw7) as [Hh1 Hh2].
  destruct (pton6_words (w :: ws) (hex_word w7 ++ 0 :: tail) Hws Hh1 Hh2 (words_colon (w :: ws) ++ hex_word w7 ++ 0 :: tail) [] None) as (cur & _ & _ & E'); [simpl in *; lia|].
  change (filled []) with (replicate IN6ADDRSZ 0) in E'. cbn [length app] in E'. rewrite E'.
  rewrite pton6_last by (done || rewrite words_bytes_length; lia). rewrite pton6_finish_full, words_bytes_app; [done|].
  rewrite length_app, words_bytes_length. simpl in *. lia.
Qed.

Lemma inet_pton6_text ws tail : Forall is_word ws -> length ws = 8%nat -> inet_pton6 (text6 ws ++ 0 :: tail) = Ok (Some (words_bytes ws)).
Proof.
  intros Hws Hl. pose proof (longest_run ws) as Hr. unfold text6. destruct (run_loop 0 ws None None) as [[base len]|].
  - destruct Hr as (Hz & Hlen & _). simpl in Hlen. destruct (split_run ws base len Hl Hz Hlen) as [Hle Hsplit]. rewrite Hsplit at 4.
    destruct (base + len)%nat as [|e] eqn:He; [lia|].
    assert (length (take base ws) = base /\ length (drop (S e) ws) = (8 - S e)%nat) as [L1 L2] by (rewrite length_take, length_drop; lia).
    apply pton6_text_gap; [lia..|by apply Forall_take|by apply Forall_drop|].
    rewrite L2. unfold embeds_v4. rewrite andb_true_iff, orb_true_iff, andb_true_iff, !Nat.eqb_eq. lia.
  - destruct ws as [|w7 ws _] using rev_ind; [done|]. rewrite length_app in Hl. simpl in Hl. apply Forall_app in Hws as [Hws Hw7].
    rewrite Forall_singleton in Hw7. apply pton6_text_full; [lia|done..].
Qed.

(** * Strings that are not addresses *)

Lemma digit_value_range ch d : digit_value ch = Some d -> 0 <= d < 10.
Proof. unfold digit_value. destruct (_ && _) eqn:E; [|done]. intros [= <-]. apply andb_true_iff in E. lia. Qed.

Lemma xdigit_value_range ch d : xdigit_value ch = Some d -> 0 <= d < 16.
Proof. unfold xdigit_value. repeat case_match; intros [= <-]; rewrite ?andb_true_iff, ?Z.leb_le in *; lia. Qed.

Lemma Forall_insert_byte i n tmp : Forall is_byte tmp -> is_byte n -> Forall is_byte (<[i := n]> tmp).
Proof. intros H Hn. by apply Forall_insert. Qed.

(** The loop over a string returns, and stays in its array. *)
Lemma pton4_loop_total src : 0 ∈ src -> forall tmp (saw : bool) octets, Forall is_byte tmp -> (1 <= length tmp <= INADDRSZ)%nat ->
  octets = Z.of_nat (length tmp) - (if saw then 0 else 1) ->
  exists r, pton4_loop src tmp saw octets = Ok r /\ forall bs, r = Some bs -> Forall is_byte bs /\ length bs = INADDRSZ.
Proof.
  induction src as [|ch src IH]; intros H0 tmp saw octets Hb Hl Ho; [by apply elem_of_nil in H0|]. cbn [pton4_loop].
  destruct (Z.eqb_spec ch 0) as [->|Hch].
  { destruct (Z.ltb_spec octets 4); [by eexists|]. assert (length tmp = 4%nat) by (destruct saw; lia).
    exists (Some tmp). split; [|by intros bs [= <-]]. replace INADDRSZ with (length tmp) by done. by rewrite bytes_at_has by (apply has_self || lia). }
  apply elem_of_cons in H0 as [?|H0]; [congruence|]. destruct (digit_value ch) as [d|] eqn:Ed.
  - apply digit_value_range in Ed. destruct (lookup_lt_is_Some_2 tmp (length tmp - 1)) as [cur Hcur]; [lia|]. rewrite (at_Some _ _ _ Hcur). cbn [obind].
    assert (is_byte cur) as Hcb by (rewrite Forall_lookup in Hb; by apply (Hb _ _ Hcur)). unfold is_byte in Hcb.
    destruct (Z.ltb_spec 255 (cur * 10 + d)); [by eexists|]. destruct (negb saw && _); [by eexists|].
    apply IH; [done|apply Forall_insert_byte; [done|unfold is_byte; lia]|by rewrite length_insert|]. rewrite length_insert. destruct saw; lia.
  - destruct (_ && _) eqn:Es; [|by eexists]. apply andb_true_iff in Es as [_ ->]. destruct (Z.eqb_spec octets 4); [by eexists|].
    rewrite emit_ok by (simpl; lia). cbn [obind]. apply IH; [done|apply Forall_app; split; [done|by constructor]|rewrite length_app; simpl; lia|].
    rewrite length_app. simpl. lia.
Qed.

Lemma inet_pton4_total src : 0 ∈ src -> exists r, inet_pton4 src = Ok r /\ forall bs, r = Some bs -> Forall is_byte bs /\ length bs = INADDRSZ.
Proof. intros H. apply pton4_loop_total; [done|by constructor|simpl; lia|done]. Qed.

Lemma write_at_bytes tmp p bs : Forall is_byte tmp -> Forall is_byte bs -> (p + length bs <= length tmp)%nat ->
  exists tmp', write_at tmp p bs = Ok tmp' /\ Forall is_byte tmp' /\ length tmp' = length tmp.
Proof.
  intros H1 H2 Hl. unfold write_at. rewrite (proj2 (Nat.leb_le _ _)) by done. eexists. split; [done|]. split.
  - rewrite !Forall_app. split_and!; [by apply Forall_take|done|by apply Forall_drop].
  - rewrite !length_app, length_take, length_drop. lia.
Qed.

Lemma shift_run_total k e colonp tmp : Forall is_byte tmp -> (colonp + k <= length tmp)%nat ->
  exists tmp', shift_run k e colonp tmp = Ok tmp' /\ Forall is_byte tmp' /\ length tmp' = length tmp.
Proof.
  revert e tmp. induction k as [|k IH]; intros e tmp Hb Hl; [by exists tmp|]. cbn [shift_run].
  destruct (lookup_lt_is_Some_2 tmp (colonp + k)) as [c Hc]; [lia|]. rewrite (at_Some _ _ _ Hc). cbn [obind].
  assert (is_byte c) by (rewrite Forall_lookup in Hb; by apply (Hb _ _ Hc)).
  destruct (IH (e - 1)%nat (<[(colonp + k)%nat := 0]> (<[(e - 1)%nat := c]> tmp))) as (tmp' & -> & H1 & H2).
  - by repeat apply Forall_insert_byte.
  - rewrite !length_insert. lia.
  - exists tmp'. by rewrite !length_insert in H2.
Qed.

Definition is_ok6 (r : result (option (list Z))) : Prop := exists o, r = Ok o /\ forall bs, o = Some bs -> Forall is_byte bs /\ length bs = IN6ADDRSZ.

Lemma low_byte x : is_byte (Z.land x 0xff).
Proof. change 0xff with (Z.ones 8). rewrite Z.land_ones by lia. apply Z.mod_pos_bound. lia. Qed.

Lemma pton6_finish_total tmp tp colonp saw val : Forall is_byte tmp -> length tmp = IN6ADDRSZ -> (tp <= IN6ADDRSZ)%nat ->
  (forall p, colonp = Some p -> p <= tp)%nat -> is_ok6 (pton6_finish tmp tp colonp saw val).
Proof.
  intros Hb Hl Htp Hc. unfold pton6_finish.
  assert (forall tmp tp, Forall is_byte tmp -> length tmp = IN6ADDRSZ -> (tp <= IN6ADDRSZ)%nat -> (forall p, colonp = Some p -> p <= tp)%nat ->
    is_ok6 (match colonp with
            | Some colonp => if (tp =? IN6ADDRSZ)%nat then Ok None else omap_ok Some (shift_run (tp - colonp) IN6ADDRSZ colonp tmp)
            | None => if negb (tp =? IN6ADDRSZ)%nat then Ok None else Ok (Some tmp)
            end)) as Hf.
  { intros tmp0 tp0 Hb0 Hl0 Htp0 Hc0. destruct colonp as [p|]; destruct (tp0 =? _)%nat; simpl; try by eexists.
    - specialize (Hc0 p eq_refl). destruct (shift_run_total (tp0 - p) IN6ADDRSZ p tmp0) as (tmp' & -> & H1 & H2); [done|lia|].
      eexists. split; [done|]. intros bs [= <-]. by rewrite H2.
    - eexists. split; [done|]. by intros bs [= <-]. }
  destruct saw; [|by apply Hf]. destruct (Nat.ltb_spec IN6ADDRSZ (tp + INT16SZ)); [by eexists|].
  destruct (write_at_bytes tmp tp [Z.land (Z.shiftr val 8) 0xff; Z.land val 0xff]) as (tmp' & -> & H1 & H2);
    [done|repeat constructor; apply low_byte|simpl; lia|]. cbn [obind]. apply Hf; [done|lia|lia|]. intros p Hp. specialize (Hc p Hp). lia.
Qed.

Lemma pton6_loop_total src : 0 ∈ src -> forall cur tmp tp colonp saw count val, 0 ∈ cur -> Forall is_byte tmp -> length tmp = IN6ADDRSZ ->
  (tp <= IN6ADDRSZ)%nat -> (forall p, colonp = Some p -> p <= tp)%nat -> is_ok6 (pton6_loop src cur tmp tp colonp saw count val).
Proof.
  induction src as [|ch src IH]; intros H0 cur tmp tp colonp saw count val Hcur Hb Hl Htp Hc; [by apply elem_of_nil in H0|]. cbn [pton6_loop].
  destruct (Z.eqb_spec ch 0) as [->|Hch]; [by apply pton6_finish_total|]. apply elem_of_cons in H0 as [?|H0]; [congruence|].
  destruct (xdigit_value ch) as [d|]; [destruct (4 <=? count); [by eexists|]; destruct (0xffff <? _); [by eexists|by apply IH]|].
  destruct (ch =? 0x3a).
  - destruct saw; simpl.
    + destruct src as [|nx src']; [by apply elem_of_nil in H0|]. cbn [at_ lookup list_lookup run obind]. destruct (nx =? 0); [by eexists|].
      destruct (Nat.ltb_spec IN6ADDRSZ (tp + INT16SZ)); [by eexists|].
      destruct (write_at_bytes tmp tp [Z.land (Z.shiftr val 8) 0xff; Z.land val 0xff]) as (tmp' & -> & H1 & H2);
        [done|repeat constructor; apply low_byte|simpl; lia|]. cbn [obind]. apply IH; [done|done|done|lia|lia|]. intros p Hp. specialize (Hc p Hp). lia.
    + destruct colonp; [by eexists|]. apply IH; [done..|]. by intros p [= <-].
  - destruct (_ && _) eqn:E; [|by eexists]. apply andb_true_iff in E as [_ E%Nat.leb_le].
    destruct (inet_pton4_total cur Hcur) as (r & -> & Hr). cbn [obind]. destruct r as [bs|]; [|by eexists]. destruct (Hr bs eq_refl) as [Hb4 Hl4].
    destruct (write_at_bytes tmp tp bs) as (tmp' & -> & H1 & H2); [done|done|lia|]. cbn [obind]. apply pton6_finish_total; [done|lia|lia|].
    intros p Hp. specialize (Hc p Hp). lia.
Qed.

Lemma inet_pton6_total src : 0 ∈ src -> is_ok6 (inet_pton6 src).
Proof.
  intros H0. unfold inet_pton6. assert (forall s, 0 ∈ s -> is_ok6 (pton6_loop s s (replicate IN6ADDRSZ 0) 0 None false 0 0)) as Hs.
  { intros s Hs. apply pton6_loop_total; [done..|by repeat constructor|done|lia|done]. }
  destruct src as [|c src]; [by apply elem_of_nil in H0|]. cbn [at_ lookup list_lookup run obind]. destruct (Z.eqb_spec c 0x3a) as [->|]; [|by apply Hs].
  apply elem_of_cons in H0 as [?|H0]; [done|]. destruct src as [|c' src]; [by apply elem_of_nil in H0|]. cbn [at_ lookup list_lookup run obind].
  destruct (negb _); [by eexists|by apply Hs].
Qed.

(** * The older reader *)

(** What follows a number: the end or a dot. *)
Definition stops (rest : list Z) : Prop := rest = [] \/ exists rest', rest = 0x2e :: rest'.

Lemma digits_stop base rest : stops rest -> digits base rest = [].
Proof. by intros [->|[rest' ->]]. Qed.

Lemma digits_digit base d rest : 0 <= d < 10 -> d < base -> digits base (48 + d :: rest) = d :: digits base rest.
Proof.
  intros Hd Hb. cbn [digits]. unfold digit_of, isdigit. rewrite !(proj2 (Z.leb_le _ _)) by lia. cbn [andb].
  replace (48 + d - 48) with d by lia. by rewrite (proj2 (Z.ltb_lt _ _)) by done.
Qed.

Lemma decimal_digits n rest : is_byte n -> stops rest -> exists base ds,
  subject (decimal n ++ rest) 0 = (false, base, ds, Z.of_nat (length (decimal n))) /\ number base ds = n /\ ds <> [].
Proof.
  unfold is_byte. intros Hn Hs.
  assert (forall d t, 0 < d < 10 -> subject (48 + d :: t) 0 = (false, 10, digits 10 (48 + d :: t), Z.of_nat (length (digits 10 (48 + d :: t))))) as Hsub.
  { intros d t Hd. unfold subject. assert (isspace (48 + d) = false) as E1 by (unfold isspace; lia).
    simpl drop_space. rewrite E1. unfold split_sign. rewrite !(proj2 (Z.eqb_neq _ _)) by lia.
    rewrite split_prefix_other by (simpl; lia). simpl Z.eqb. cbv iota. by rewrite Z.sub_diag. }
  destruct (decide (n = 0)) as [->|Hn0].
  { exists 8, [0]. split_and!; [|done..]. destruct Hs as [->|[[|x rest'] ->]]; [done..|].
    change (decimal 0) with [48]. unfold subject. cbn -[Z.sub Z.add Z.of_nat length]. by rewrite (Z.sub_diag (Z.of_nat _)). }
  exists 10. unfold decimal. destruct (Z.ltb_spec n 10); [|destruct (Z.ltb_spec n 100)]; cbn [app].
  all: rewrite Hsub by (Z.to_euclidean_division_equations; lia).
  all: rewrite !digits_digit, digits_stop by (done || Z.to_euclidean_division_equations; lia); eexists; split_and!; [done| |done].
  all: unfold number; cbn [fold_left]; Z.to_euclidean_division_equations; lia.
Qed.

Lemma strtoul_decimal n rest tail : is_byte n -> stops rest ->
  strtoul (decimal n ++ rest ++ 0 :: tail) 0 = Some (mk_strto n (Z.of_nat (length (decimal n))) None).
Proof.
  intros Hn Hs. rewrite app_assoc. unfold strtoul. rewrite StrToU_spec by (done || lia). unfold strtoul_spec.
  destruct (decimal_digits n rest Hn Hs) as (base & ds & -> & -> & Hne). unfold is_byte in Hn.
  rewrite (proj2 (Z.ltb_ge _ _)) by lia. by destruct ds.
Qed.

Lemma aton_part n i rest parts k tail : is_byte n -> stops rest ->
  aton_loop (S k) i (decimal n ++ rest ++ 0 :: tail) parts
  = match rest with [] => Ok (Some (i, parts ++ [n])) | _ :: rest => aton_loop k (S i) (rest ++ 0 :: tail) (parts ++ [n]) end.
Proof.
  intros Hn Hs. pose proof (decimal_length n). cbn [aton_loop]. rewrite strtoul_decimal by done. cbn [run obind st_value st_end st_errno orb]. rewrite Nat2Z.id.
  rewrite (proj2 (Z.eqb_neq _ _)) by lia. destruct Hs as [->|[rest' ->]]; cbn [app].
  - by rewrite (at_Some _ _ 0) by (by apply list_lookup_middle).
  - rewrite (at_Some _ _ 46) by (by apply list_lookup_middle). cbn -[aton_loop drop]. f_equal. rewrite drop_app_ge by lia.
    by replace (length (decimal n) + 1 - length (decimal n))%nat with 1%nat by lia.
Qed.

Lemma inet_aton_text a b c d tail : is_byte a -> is_byte b -> is_byte c -> is_byte d ->
  inet_aton (text4 a b c d ++ 0 :: tail) = Ok (Some (((a * 256 + b) * 256 + c) * 256 + d)).
Proof.
  intros Ha Hb Hc Hd. unfold inet_aton, text4.
  replace ((decimal a ++ _) ++ 0 :: tail) with (decimal a ++ (0x2e :: decimal b ++ 0x2e :: decimal c ++ 0x2e :: decimal d) ++ 0 :: tail) by (by rewrite <-!app_assoc).
  rewrite aton_part by (done || right; eauto). rewrite <-app_assoc. rewrite (aton_part b 1 (46 :: decimal c ++ 46 :: decimal d)) by (done || right; eauto).
  rewrite <-app_assoc. rewrite (aton_part c 2 (46 :: decimal d)) by (done || right; eauto). change (decimal d ++ 0 :: tail) with (decimal d ++ [] ++ 0 :: tail). rewrite aton_part by (done || by left).
  cbn [obind app]. unfold is_byte in *. rewrite !(proj2 (Z.ltb_ge _ _)) by lia. cbn [orb]. do 2 f_equal. rewrite !Z.shiftl_mul_pow2 by lia.
  rewrite (lor_low_bits 24 a) by lia. replace (a * 2 ^ 24 + b * 2 ^ 16) with ((a * 256 + b) * 2 ^ 16) by lia.
  rewrite lor_low_bits by lia. replace ((a * 256 + b) * 2 ^ 16 + c * 2 ^ 8) with (((a * 256 + b) * 256 + c) * 2 ^ 8) by lia. rewrite lor_low_bits by lia. lia.
Qed.

(** * Addresses *)

(** An address of a family. *)
Definition is_address (af : Z) (src : list Z) : Prop :=
  Forall is_byte src /\ (af = AF_INET /\ length src = INADDRSZ \/ af = AF_INET6 /\ length src = IN6ADDRSZ).

(** C9: every IPv4 and IPv6 address has a text of at most 15 or 44 characters.  inet_ntop stores it if the array has room
    for it and its terminator and gives ENOSPC if not, and inet_pton reads it back as the same address.  The text of an IPv4
    address is read by inet_aton, too. *)
Theorem inet_ntop_pton af src : is_address af src -> exists text,
  (length text <= if (af =? AF_INET)%Z then 15 else 44)%nat /\
  (forall size, inet_ntop af src size = Ok (if (length text <? size)%nat then inr (text ++ [0]) else inl ENOSPC)) /\
  (forall tail, inet_pton af (text ++ 0 :: tail) = Ok (inr (Some src))) /\
  (af = AF_INET -> forall tail, inet_aton (text ++ 0 :: tail) = Ok (Some (fold_left (fun n b => n * 256 + b) src 0))).
Proof.
  intros [Hb [[-> Hl]|[-> Hl]]].
  - do 4 (destruct src as [|? src]; [done|]). destruct src; [|done]. rewrite !Forall_cons in Hb. destruct_and! Hb.
    exists (text4 z z0 z1 z2). pose proof (text4_length z z0 z1 z2). split_and!; [simpl; lia| | |].
    + intros size. apply inet_ntop4_text.
    + intros tail. unfold inet_pton. simpl Z.eqb. cbv iota. by rewrite inet_pton4_text.
    + intros _ tail. by rewrite inet_aton_text.
  - destruct (inet_ntop6_text src [] Hb Hl) as (ws & Hw & Hws & Hlw & Hn). exists (text6 ws). split_and!; [| | |done].
    + by destruct (ntop6_loop_text ws Hlw) as (_ & _ & _ & ?).
    + intros size. rewrite app_nil_r in Hn. apply Hn.
    + intros tail. unfold inet_pton. simpl Z.eqb. cbv iota. by rewrite inet_pton6_text, Hw.
Qed.

(** The address 2001:db8::1:0:0:1. *)
Definition ex_address : list Z := [0x20; 1; 0xd; 0xb8; 0; 0; 0; 0; 0; 1; 0; 0; 0; 0; 0; 1].

Lemma inet_ntop_pton_witness : exists text,
  (length text <= 44)%nat /\
  (forall size, inet_ntop AF_INET6 ex_address size = Ok (if (length text <? size)%nat then inr (text ++ [0]) else inl ENOSPC)) /\
  (forall tail, inet_pton AF_INET6 (text ++ 0 :: tail) = Ok (inr (Some ex_address))) /\
  (AF_INET6 = AF_INET -> forall tail, inet_aton (text ++ 0 :: tail) = Ok (Some (fold_left (fun n b => n * 256 + b) ex_address 0))).
Proof. apply (inet_ntop_pton AF_INET6 ex_address). split; [repeat constructor; done|by right]. Defined.

Example ex_texts6 :
  inet_ntop AF_INET6 ex_address 46 = Ok (inr (chars "2001:db8::1:0:0:1" ++ [0])) /\
  inet_ntop AF_INET6 (replicate 10 0 ++ [0xff; 0xff; 192; 0; 2; 1]) 46 = Ok (inr (chars "::ffff:192.0.2.1" ++ [0])) /\
  inet_ntop AF_INET6 (replicate 16 0) 46 = Ok (inr (chars "::" ++ [0])) /\
  inet_pton AF_INET6 (chars "1::2:3::4" ++ [0]) = Ok (inr None) /\
  inet_pton AF_INET (chars "1.2.3.256" ++ [0]) = Ok (inr None) /\
  inet_aton (chars "0x7f.1" ++ [0]) = Ok (Some 0x7f000001).
Proof. vm_compute. repeat split; reflexivity. Qed.

(** C39: whatever string it is given, inet_pton returns, stays inside its arrays and reads nothing behind the
    terminator; what it accepts is an address of the family, and only another family is refused with EAFNOSUPPORT. *)
Theorem inet_pton_safe af str : 0 ∈ str -> exists r, inet_pton af str = Ok r /\
  match r with
  | inl e => e = EAFNOSUPPORT /\ af <> AF_INET /\ af <> AF_INET6
  | inr None => True
  | inr (Some src) => is_address af src
  end.
Proof.
  intros H0. unfold inet_pton. destruct (Z.eqb_spec af AF_INET) as [->|H4]; [|destruct (Z.eqb_spec af AF_INET6) as [->|H6]].
  - destruct (inet_pton4_total str H0) as (r & -> & Hr). exists (inr r). split; [done|]. destruct r as [bs|]; [|done].
    destruct (Hr bs eq_refl). split; [done|by left].
  - destruct (inet_pton6_total str H0) as (r & -> & Hr). exists (inr r). split; [done|]. destruct r as [bs|]; [|done].
    destruct (Hr bs eq_refl). split; [done|by right].
  - by exists (inl EAFNOSUPPORT).
Qed.

Lemma inet_pton_safe_witness : exists r, inet_pton AF_INET6 (chars "::1.2.3.4:5" ++ [0]) = Ok r /\
  match r with
  | inl e => e = EAFNOSUPPORT /\ AF_INET6 <> AF_INET /\ AF_INET6 <> AF_INET6
  | inr None => True
  | inr (Some src) => is_address AF_INET6 src
  end.
Proof. apply (inet_pton_safe AF_INET6). apply (bool_decide_unpack _). by vm_compute. Defined.
