(* ===== verification/Base64.v ===== *)
(** Base 64: libc/upstream-openbsd/lib/libc/net/base64.c.

    [b64_ntop] encodes three bytes as four characters; [b64_pton] decodes them, whatever white space is between
    them.  The target of [b64_pton] is an array of bytes, or [None] for a null pointer; a call that returns -1 gives
    [None], whatever it has stored. *)

From S2P Require Import Prelude Result Ctype NsName.

(** * Definitions *)

Definition Base64 : list Z := chars "ABCDEFGHIJKLMNOPQRSTUVWXYZabcdefghijklmnopqrstuvwxyz0123456789+/".

Abbreviation Pad64 := 0x3d.

(** ** Encoding *)

(** The four values of three bytes. *)
Definition output0 (a : Z) : Z := Z.shiftr a 2.
Definition output1 (a b : Z) : Z := Z.shiftl (Z.land a 0x03) 4 + Z.shiftr b 4.
Definition output2 (b c : Z) : Z := Z.shiftl (Z.land b 0x0f) 2 + Z.shiftr c 6.
Definition output3 (c : Z) : Z := Z.land c 0x3f.

(** [Base64[i]]. *)
Definition base64_at (i : Z) : result Z := at_ Base64 (Z.to_nat i).

(** [target] has been written. *)
Fixpoint b64_ntop_loop (src : list Z) (targsize : nat) (target : list Z) : result (option (list Z)) :=
  let finish target :=
    if (targsize <=? length target)%nat then Ok None else
    target <-- emit targsize target [0] ;;
    Ok (Some target) in
  match src with
  | a :: b :: c :: src =>
      if (targsize <? length target + 4)%nat then Ok None else
      w <-- base64_at (output0 a) ;;
      x <-- base64_at (output1 a b) ;;
      y <-- base64_at (output2 b c) ;;
      z <-- base64_at (output3 c) ;;
      target <-- emit targsize target [w; x; y; z] ;;
      b64_ntop_loop src targsize target
  | [a; b] =>
      if (targsize <? length target + 4)%nat then Ok None else
      w <-- base64_at (output0 a) ;;
      x <-- base64_at (output1 a b) ;;
      y <-- base64_at (output2 b 0) ;;
      target <-- emit targsize target [w; x; y; Pad64] ;;
      finish target
  | [a] =>
      if (targsize <? length target + 4)%nat then Ok None else
      w <-- base64_at (output0 a) ;;
      x <-- base64_at (output1 a 0) ;;
      target <-- emit targsize target [w; x; Pad64; Pad64] ;;
      finish target
  | [] => finish target
  end.

(** The text with its terminator, which the returned length does not count: a size_t that is returned as an int. *)
Definition b64_ntop (src : list Z) (targsize : nat) : result (option (Z * list Z)) :=
  omap_ok (option_map (fun target => (wrapS 32 (Z.of_nat (length target - 1)), target))) (b64_ntop_loop src targsize []).

(** ** Decoding *)

(** [strchr(Base64, ch) - Base64]. *)
Fixpoint position (ch : Z) (l : list Z) : option Z :=
  match l with
  | [] => None
  | d :: l => if d =? ch then Some 0 else option_map (Z.add 1) (position ch l)
  end.

(** The first of two bytes that [v] goes to: [or] keeps what the byte has; [next] is [nextbyte].  The result is
    [None] for -1. *)
Definition put_bits (target : option (list Z)) (tarindex : nat) (v : Z) (next : option Z) : result (option (option (list Z))) :=
  match target with
  | None => Ok (Some None)
  | Some t =>
      if (length t <=? tarindex)%nat then Ok None else
      old <-- at_ t tarindex ;;
      let t := <[tarindex := Z.lor old v]> t in
      match next with
      | None => Ok (Some (Some t))
      | Some next =>
          if (tarindex + 1 <? length t)%nat then Ok (Some (Some (<[(tarindex + 1)%nat := next]> t)))
          else if negb (next =? 0) then Ok None else Ok (Some (Some t))
      end
  end.

Abbreviation INT_MAX := (2 ^ 31 - 1).

(** [tarindex++] of an int. *)
Definition tarindex_next (tarindex : nat) : result nat :=
  if Z.of_nat tarindex <? INT_MAX then Ok (tarindex + 1)%nat else Fault.

(** [for (; ch != '\0'; ch = *src++) if (!isspace(ch)) break;], then [ch] and the rest. *)
Fixpoint skip_spaces (src : list Z) : result (list Z) :=
  match src with
  | [] => Fault
  | ch :: src' => if ch =? 0 then Ok src else if negb (isspace ch) then Ok src else skip_spaces src'
  end.

(** What follows the loop when it ended at the pad character. *)
Definition b64_pton_pad (src : list Z) (state : nat) (tarindex : nat) (target : option (list Z)) : result (option (nat * option (list Z))) :=
  let finish src :=
    rest <-- skip_spaces src ;;
    ch <-- at_ rest 0 ;;
    if negb (ch =? 0) then Ok None else
    match target with
    | Some t =>
        if (tarindex <? length t)%nat then
          b <-- at_ t tarindex ;;
          if negb (b =? 0) then Ok None else Ok (Some (tarindex, target))
        else Ok (Some (tarindex, target))
    | None => Ok (Some (tarindex, target))
    end in
  match state with
  | 2%nat =>
      rest <-- skip_spaces src ;;
      ch <-- at_ rest 0 ;;
      if negb (ch =? Pad64) then Ok None else finish (drop 1 rest)
  | 3%nat => finish src
  | _ => Ok None
  end.

Fixpoint b64_pton_loop (src : list Z) (state : nat) (tarindex : nat) (target : option (list Z)) : result (option (nat * option (list Z))) :=
  match src with
  | [] => Fault
  | ch :: src =>
      if ch =? 0 then Ok (if negb (state =? 0)%nat then None else Some (tarindex, target)) else
      if isspace ch then b64_pton_loop src state tarindex target else
      if ch =? Pad64 then b64_pton_pad src state tarindex target else
      match position ch Base64 with
      | None => Ok None
      | Some pos =>
          match state with
          | 0%nat =>
              match target with
              | None => b64_pton_loop src 1 tarindex target
              | Some t =>
                  if (length t <=? tarindex)%nat then Ok None
                  else b64_pton_loop src 1 tarindex (Some (<[tarindex := wrapU 8 (Z.shiftl pos 2)]> t))
              end
          | 1%nat =>
              r <-- put_bits target tarindex (Z.shiftr pos 4) (Some (wrapU 8 (Z.shiftl (Z.land pos 0x0f) 4))) ;;
              match r with None => Ok None | Some target => i <-- tarindex_next tarindex ;; b64_pton_loop src 2 i target end
          | 2%nat =>
              r <-- put_bits target tarindex (Z.shiftr pos 2) (Some (wrapU 8 (Z.shiftl (Z.land pos 0x03) 6))) ;;
              match r with None => Ok None | Some target => i <-- tarindex_next tarindex ;; b64_pton_loop src 3 i target end
          | _ =>
              r <-- put_bits target tarindex pos None ;;
              match r with None => Ok None | Some target => i <-- tarindex_next tarindex ;; b64_pton_loop src 0 i target end
          end
      end
  end.

(** The number of bytes and the target. *)
Definition b64_pton (src : list Z) (target : option (list Z)) : result (option (nat * option (list Z))) := b64_pton_loop src 0 0 target.

(** * The alphabet *)

Definition sym64 (v : Z) : Z := Base64 !!! Z.to_nat v.

Lemma alphabet v : 0 <= v < 64 ->
  Base64 !! Z.to_nat v = Some (sym64 v) /\ position (sym64 v) Base64 = Some v /\ isspace (sym64 v) = false /\ sym64 v <> 0 /\ sym64 v <> Pad64.
Proof.
  revert v. apply (all_below (fun v => Base64 !! Z.to_nat v = Some (sym64 v) /\ position (sym64 v) Base64 = Some v /\ isspace (sym64 v) = false /\
    sym64 v <> 0 /\ sym64 v <> Pad64) 64). by vm_compute.
Qed.

Lemma position_inv ch v : position ch Base64 = Some v -> 0 <= v < 64 /\ ch = sym64 v.
Proof.
  assert (forall l v, position ch l = Some v -> 0 <= v /\ l !! Z.to_nat v = Some ch) as Hp.
  { clear v. induction l as [|d l IH]; intros v H; [done|]. simpl in H. destruct (Z.eqb_spec d ch) as [->|]; [by injection H as <-|].
    destruct (position ch l) as [w|]; [|done]. injection H as <-. destruct (IH w eq_refl) as [Hw Hl]. split; [lia|].
    rewrite Z2Nat.inj_add, Nat.add_1_l by lia. done. }
  intros H. destruct (Hp _ _ H) as [Hv Hl]. apply lookup_lt_Some in Hl as Hlt. change (length Base64) with 64%nat in Hlt.
  split; [lia|]. unfold sym64. by rewrite (list_lookup_total_correct _ _ _ Hl).
Qed.

(** * Encoding *)

Fixpoint enc (bs : list Z) : list Z :=
  match bs with
  | a :: b :: c :: bs => sym64 (output0 a) :: sym64 (output1 a b) :: sym64 (output2 b c) :: sym64 (output3 c) :: enc bs
  | [a; b] => [sym64 (output0 a); sym64 (output1 a b); sym64 (output2 b 0); Pad64]
  | [a] => [sym64 (output0 a); sym64 (output1 a 0); Pad64; Pad64]
  | [] => []
  end.

Lemma outputs a b : is_byte a -> is_byte b ->
  output0 a = a / 4 /\ output1 a b = a mod 4 * 16 + b / 16 /\ output2 a b = a mod 16 * 4 + b / 64 /\ output3 a = a mod 64.
Proof.
  intros _ _. unfold output0, output1, output2, output3. change 0x03 with (Z.ones 2). change 0x0f with (Z.ones 4). change 0x3f with (Z.ones 6).
  rewrite !Z.land_ones, !Z.shiftl_mul_pow2, !Z.shiftr_div_pow2 by lia. done.
Qed.

Lemma output_range a b : is_byte a -> is_byte b -> 0 <= output0 a < 64 /\ 0 <= output1 a b < 64 /\ 0 <= output2 a b < 64 /\ 0 <= output3 a < 64.
Proof.
  intros Ha Hb. destruct (outputs a b Ha Hb) as (-> & -> & -> & ->). unfold is_byte in *. Z.to_euclidean_division_equations; lia.
Qed.

Lemma base64_at_sym v : 0 <= v < 64 -> base64_at v = Ok (sym64 v).
Proof. intros Hv. by apply at_Some, alphabet. Qed.

Lemma is_byte_0 : is_byte 0.
Proof. unfold is_byte. lia. Qed.

(** Induction by groups of three bytes. *)
Lemma groups_ind (P : list Z -> Prop) :
  P [] -> (forall a, P [a]) -> (forall a b, P [a; b]) -> (forall a b c bs, P bs -> P (a :: b :: c :: bs)) -> forall bs, P bs.
Proof.
  intros H0 H1 H2 H3 bs. enough (P bs /\ (forall a, P (a :: bs)) /\ (forall a b, P (a :: b :: bs))) by tauto.
  induction bs as [|c bs (IH1 & IH2 & IH3)]; [done|]. split_and!; [apply IH2|intros a; apply IH3|]. intros a b. by apply H3.
Qed.

Lemma b64_ntop_loop_spec src : Forall is_byte src -> forall targsize target, (length target <= targsize)%nat ->
  b64_ntop_loop src targsize target
  = Ok (if (length target + length (enc src) <? targsize)%nat then Some (target ++ enc src ++ [0]) else None).
Proof.
  assert (forall targsize target, (if (targsize <=? length target)%nat then Ok None else target <-- emit targsize target [0] ;; Ok (Some target))
    = Ok (if (length target <? targsize)%nat then Some (target ++ [0]) else None)) as Hfin.
  { intros n t. destruct (Nat.leb_spec n (length t)), (Nat.ltb_spec (length t) n); try lia; [done|]. by rewrite emit_ok by (simpl; lia). }
  induction src as [|a|a b|a b c src IH] using groups_ind; intros Hs n t Ht; rewrite ?Forall_cons in Hs; cbn [b64_ntop_loop enc].
  - rewrite Hfin. by rewrite Nat.add_0_r.
  - destruct Hs as [Ha _]. pose proof (output_range a 0 Ha is_byte_0). destruct (Nat.ltb_spec n (length t + 4)).
    { by rewrite (proj2 (Nat.ltb_ge _ _)) by (simpl; lia). }
    rewrite !base64_at_sym by tauto. cbn [obind]. rewrite emit_ok by (simpl; lia). cbn [obind]. rewrite Hfin, length_app, <-app_assoc. done.
  - destruct Hs as (Ha & Hb & _). pose proof (output_range a b Ha Hb). pose proof (output_range b 0 Hb is_byte_0). destruct (Nat.ltb_spec n (length t + 4)).
    { by rewrite (proj2 (Nat.ltb_ge _ _)) by (simpl; lia). }
    rewrite !base64_at_sym by tauto. cbn [obind]. rewrite emit_ok by (simpl; lia). cbn [obind]. rewrite Hfin, length_app, <-app_assoc. done.
  - destruct Hs as (Ha & Hb & Hc & Hs). pose proof (output_range a b Ha Hb). pose proof (output_range b c Hb Hc). pose proof (output_range c 0 Hc is_byte_0).
    destruct (Nat.ltb_spec n (length t + 4)).
    { by rewrite (proj2 (Nat.ltb_ge _ _)) by (simpl; lia). }
    rewrite !base64_at_sym by tauto. cbn [obind]. rewrite emit_ok by (simpl; lia). cbn [obind]. rewrite IH by (done || rewrite length_app; simpl; lia).
    rewrite length_app, <-app_assoc. simpl length. by replace (length t + 4 + length (enc src))%nat with (length t + S (S (S (S (length (enc src))))))%nat by lia.
Qed.

Lemma b64_ntop_spec src targsize : Forall is_byte src ->
  b64_ntop src targsize = Ok (if (length (enc src) <? targsize)%nat then Some (wrapS 32 (Z.of_nat (length (enc src))), enc src ++ [0]) else None).
Proof.
  intros Hs. unfold b64_ntop. rewrite b64_ntop_loop_spec by (done || simpl; lia). simpl. destruct (_ <? _)%nat; [|done]. simpl.
  rewrite length_app. simpl. by rewrite Nat.add_sub.
Qed.

(** * White space *)

Definition nonspace (str : list Z) : list Z := filter (fun c => isspace c = false) str.

Lemma nonspace_space c str : isspace c = true -> nonspace (c :: str) = nonspace str.
Proof. intros H. unfold nonspace. by rewrite filter_cons_False by congruence. Qed.

Lemma nonspace_other c str : isspace c = false -> nonspace (c :: str) = c :: nonspace str.
Proof. intros H. unfold nonspace. by rewrite filter_cons_True. Qed.

Lemma skip_spaces_spec str tail : 0 ∉ str -> exists str', skip_spaces (str ++ 0 :: tail) = Ok (str' ++ 0 :: tail) /\ (0 ∉ str') /\
  match nonspace str with [] => str' = [] | c :: s => exists str'', str' = c :: str'' /\ nonspace str'' = s end.
Proof.
  induction str as [|c str IH]; intros H0; [by exists []|]. rewrite not_elem_of_cons in H0. destruct H0 as [Hc H0]. cbn [app skip_spaces].
  rewrite (proj2 (Z.eqb_neq c 0)) by done. destruct (isspace c) eqn:E; cbn [negb].
  - rewrite nonspace_space by done. by apply IH.
  - rewrite nonspace_other by done. exists (c :: str). split_and!; [done|by rewrite not_elem_of_cons|by exists str].
Qed.

(** The end of a text: the bits that are left over must be zero. *)
Definition pton_end (tarindex : nat) (target : option (list Z)) : result (option (nat * option (list Z))) :=
  match target with
  | Some t =>
      if (tarindex <? length t)%nat then
        b <-- at_ t tarindex ;;
        if negb (b =? 0) then Ok None else Ok (Some (tarindex, target))
      else Ok (Some (tarindex, target))
  | None => Ok (Some (tarindex, target))
  end.

Lemma b64_pton_pad_spec str tail state tarindex target : 0 ∉ str ->
  b64_pton_pad (str ++ 0 :: tail) state tarindex target
  = if bool_decide (state = 2%nat /\ nonspace str = [Pad64] \/ state = 3%nat /\ nonspace str = []) then pton_end tarindex target else Ok None.
Proof.
  intros H0.
  assert (forall str, 0 ∉ str -> (rest <-- skip_spaces (str ++ 0 :: tail) ;; ch <-- at_ rest 0 ;; if negb (ch =? 0) then Ok None else pton_end tarindex target)
    = if bool_decide (nonspace str = []) then pton_end tarindex target else Ok None) as Hfin.
  { intros str1 H1. destruct (skip_spaces_spec str1 tail H1) as (str' & -> & Hn & Hs). cbn [obind]. destruct (nonspace str1) as [|c s].
    - subst str'. done.
    - destruct Hs as (str'' & -> & _). rewrite not_elem_of_cons in Hn. cbn [app at_ lookup list_lookup run obind]. destruct Hn as [Hn _]. by rewrite (proj2 (Z.eqb_neq c 0)) by done. }
  unfold b64_pton_pad. destruct state as [|[|[|[|state]]]].
  1, 2, 5: rewrite bool_decide_false; [done|]; by intros [[? _]|[? _]].
  - destruct (skip_spaces_spec str tail H0) as (str' & -> & Hn & Hs). cbn [obind]. destruct (nonspace str) as [|c s].
    + subst str'. by rewrite bool_decide_false by (by intros [[_ ?]|[? _]]).
    + destruct Hs as (str'' & -> & Hs). rewrite not_elem_of_cons in Hn. cbn [app at_ lookup list_lookup run obind drop skipn].
      destruct (Z.eqb_spec c Pad64) as [->|]; cbn [negb]; [|rewrite bool_decide_false; [done|]; by intros [[_ [= ? _]]|[? _]]].
      etrans; [apply (Hfin str''); apply Hn|]. rewrite Hs.
      by rewrite (bool_decide_ext (s = []) (2%nat = 2%nat /\ Pad64 :: s = [Pad64] \/ 2%nat = 3%nat /\ Pad64 :: s = []))
        by (split; [by intros ->; left|by intros [[_ [= ->]]|[? _]]]).
  - etrans; [by apply (Hfin str)|].
    by rewrite (bool_decide_ext (nonspace str = []) (3%nat = 2%nat /\ nonspace str = [Pad64] \/ 3%nat = 3%nat /\ nonspace str = []))
      by (split; [by intros ->; right|by intros [[? _]|[_ ?]]]).
Qed.

(** White space makes no difference. *)
Lemma b64_pton_loop_space str tail : 0 ∉ str -> forall state tarindex target,
  b64_pton_loop (str ++ 0 :: tail) state tarindex target = b64_pton_loop (nonspace str ++ [0]) state tarindex target.
Proof.
  induction str as [|c str IH]; intros H0 state tarindex target; [done|]. rewrite not_elem_of_cons in H0. destruct H0 as [Hc H0].
  assert (forall str', 0 ∉ str' -> 0 ∉ nonspace str') as Hns by (intros s Hs [_ Hin]%list_elem_of_filter; done).
  assert (forall s : list Z, nonspace (nonspace s) = nonspace s) as Hid.
  { induction s as [|d s IHs]; [done|]. destruct (isspace d) eqn:E; [by rewrite nonspace_space|]. by rewrite !nonspace_other, IHs. }
  destruct (isspace c) eqn:E.
  - rewrite nonspace_space by done. rewrite <-IH by done. cbn [app b64_pton_loop]. by rewrite (proj2 (Z.eqb_neq c 0)), E by done.
  - rewrite nonspace_other by done. cbn [app b64_pton_loop]. rewrite (proj2 (Z.eqb_neq c 0)), E by done.
    destruct (c =? Pad64); [by rewrite !b64_pton_pad_spec, Hid by auto|]. destruct (position c Base64) as [v|]; [|done].
    destruct state as [|[|[|state]]].
    + destruct target as [t|]; [|by apply IH]. destruct (_ <=? _)%nat; [done|]. by apply IH.
    + destruct (put_bits _ _ _ _) as [[t|]| |]; cbn [obind]; [|done..]. destruct (tarindex_next _); cbn [obind]; [by apply IH|done..].
    + destruct (put_bits _ _ _ _) as [[t|]| |]; cbn [obind]; [|done..]. destruct (tarindex_next _); cbn [obind]; [by apply IH|done..].
    + destruct (put_bits _ _ _ _) as [[t|]| |]; cbn [obind]; [|done..]. destruct (tarindex_next _); cbn [obind]; [by apply IH|done..].
Qed.

(** * Decoding *)

(** One character of the alphabet, with room for the byte it goes to: [l] is what has been decoded, [x] the byte
    that is being put together and [r] the rest of the array. *)
Definition next_byte (r : list Z) (n : Z) : option (list Z) :=
  match r with [] => if n =? 0 then Some [] else None | _ :: r => Some (n :: r) end.

Lemma put_bits_spec l x r v n : put_bits (Some (l ++ x :: r)) (length l) v (Some n) = Ok (option_map (fun r => Some (l ++ Z.lor x v :: r)) (next_byte r n)).
Proof.
  unfold put_bits. rewrite length_app. cbn [length]. rewrite (proj2 (Nat.leb_gt _ _)) by lia.
  rewrite (at_Some _ _ x) by (by apply list_lookup_middle). cbn [obind]. rewrite insert_middle, length_app by done. cbn [length]. destruct r as [|y r].
  - rewrite (proj2 (Nat.ltb_ge _ _)) by (simpl; lia). simpl. by destruct (n =? 0).
  - rewrite (proj2 (Nat.ltb_lt _ _)) by (simpl; lia). simpl. do 3 f_equal.
    replace (l ++ Z.lor x v :: y :: r) with ((l ++ [Z.lor x v]) ++ y :: r) by (by rewrite <-app_assoc).
    rewrite insert_middle by (rewrite length_app; done). by rewrite <-app_assoc.
Qed.

Lemma put_bits_last l x r v : put_bits (Some (l ++ x :: r)) (length l) v None = Ok (Some (Some (l ++ Z.lor x v :: r))).
Proof.
  unfold put_bits. rewrite length_app. cbn [length]. rewrite (proj2 (Nat.leb_gt _ _)) by lia.
  rewrite (at_Some _ _ x) by (by apply list_lookup_middle). cbn [obind]. by rewrite insert_middle.
Qed.

Section steps.
Context (v : Z) (Hv : 0 <= v < 64) (s l r : list Z) (x : Z) (Hl : Z.of_nat (length l) < INT_MAX).

Lemma tarindex_next_ok : tarindex_next (length l) = Ok (length l + 1)%nat.
Proof using Hl. unfold tarindex_next. by rewrite (proj2 (Z.ltb_lt _ _)). Qed.

Lemma step0 : b64_pton_loop (sym64 v :: s) 0 (length l) (Some (l ++ x :: r)) = b64_pton_loop s 1 (length l) (Some (l ++ v * 4 :: r)).
Proof using Hv.
  destruct (alphabet v Hv) as (_ & Hp & Hs & H0 & H1). cbn [b64_pton_loop]. rewrite Hp, Hs, !(proj2 (Z.eqb_neq (sym64 v) _)) by done.
  rewrite length_app. cbn [length]. rewrite (proj2 (Nat.leb_gt _ _)) by lia. rewrite Z.shiftl_mul_pow2, wrapU_small by lia. by rewrite insert_middle.
Qed.

Lemma step1 : b64_pton_loop (sym64 v :: s) 1 (length l) (Some (l ++ x :: r))
  = match next_byte r (v mod 16 * 16) with
    | Some r => b64_pton_loop s 2 (length l + 1) (Some (l ++ Z.lor x (v / 16) :: r))
    | None => Ok None
    end.
Proof using Hv Hl.
  destruct (alphabet v Hv) as (_ & Hp & Hs & H0 & H1). cbn [b64_pton_loop]. rewrite Hp, Hs, !(proj2 (Z.eqb_neq (sym64 v) _)) by done.
  rewrite put_bits_spec. change 0x0f with (Z.ones 4). rewrite Z.land_ones, Z.shiftl_mul_pow2, Z.shiftr_div_pow2, wrapU_small by (Z.to_euclidean_division_equations; lia).
  change (2 ^ 4) with 16. destruct (next_byte r _); [|done]. cbn [option_map obind]. by rewrite tarindex_next_ok.
Qed.

Lemma step2 : b64_pton_loop (sym64 v :: s) 2 (length l) (Some (l ++ x :: r))
  = match next_byte r (v mod 4 * 64) with
    | Some r => b64_pton_loop s 3 (length l + 1) (Some (l ++ Z.lor x (v / 4) :: r))
    | None => Ok None
    end.
Proof using Hv Hl.
  destruct (alphabet v Hv) as (_ & Hp & Hs & H0 & H1). cbn [b64_pton_loop]. rewrite Hp, Hs, !(proj2 (Z.eqb_neq (sym64 v) _)) by done.
  rewrite put_bits_spec. change 0x03 with (Z.ones 2). rewrite Z.land_ones, Z.shiftl_mul_pow2, Z.shiftr_div_pow2, wrapU_small by (Z.to_euclidean_division_equations; lia).
  change (2 ^ 2) with 4. change (2 ^ 6) with 64. destruct (next_byte r _); [|done]. cbn [option_map obind]. by rewrite tarindex_next_ok.
Qed.

Lemma step3 : b64_pton_loop (sym64 v :: s) 3 (length l) (Some (l ++ x :: r)) = b64_pton_loop s 0 (length l + 1) (Some (l ++ Z.lor x v :: r)).
Proof using Hv Hl.
  destruct (alphabet v Hv) as (_ & Hp & Hs & H0 & H1). cbn [b64_pton_loop]. rewrite Hp, Hs, !(proj2 (Z.eqb_neq (sym64 v) _)) by done.
  rewrite put_bits_last. cbn [obind]. by rewrite tarindex_next_ok.
Qed.
End steps.

Lemma step_pad s state tarindex target : 0 ∉ s ->
  b64_pton_loop (Pad64 :: s ++ [0]) state tarindex target
  = if bool_decide (state = 2%nat /\ nonspace s = [Pad64] \/ state = 3%nat /\ nonspace s = []) then pton_end tarindex target else Ok None.
Proof. intros H0. cbn [b64_pton_loop]. simpl Z.eqb. cbv iota. by apply b64_pton_pad_spec. Qed.

(** The bytes of four values. *)
Definition byte0 (v0 v1 : Z) : Z := v0 * 4 + v1 / 16.
Definition byte1 (v1 v2 : Z) : Z := v1 mod 16 * 16 + v2 / 4.
Definition byte2 (v2 v3 : Z) : Z := v2 mod 4 * 64 + v3.

Lemma bytes_of v w : 0 <= v < 64 -> 0 <= w < 64 ->
  Z.lor (v * 4) (w / 16) = byte0 v w /\ Z.lor (v mod 16 * 16) (w / 4) = byte1 v w /\ Z.lor (v mod 4 * 64) w = byte2 v w /\
  is_byte (byte0 v w) /\ is_byte (byte1 v w) /\ is_byte (byte2 v w).
Proof.
  intros Hv Hw. unfold byte0, byte1, byte2, is_byte.
  rewrite (lor_low_bits 2 v), (lor_low_bits 4 (v mod 16)), (lor_low_bits 6 (v mod 4)) by (Z.to_euclidean_division_equations; lia).
  split_and!; try done; Z.to_euclidean_division_equations; lia.
Qed.

(** Two, three and four characters. *)
Lemma decode2 v0 v1 s l x r : Z.of_nat (length l) < INT_MAX -> 0 <= v0 < 64 -> 0 <= v1 < 64 ->
  b64_pton_loop (sym64 v0 :: sym64 v1 :: s) 0 (length l) (Some (l ++ x :: r))
  = match next_byte r (v1 mod 16 * 16) with
    | Some r => b64_pton_loop s 2 (length (l ++ [byte0 v0 v1])) (Some ((l ++ [byte0 v0 v1]) ++ r))
    | None => Ok None
    end.
Proof.
  intros Hl H0 H1. rewrite step0, step1, (proj1 (bytes_of v0 v1 H0 H1)) by done. rewrite length_app. destruct (next_byte r _); [|done]. by rewrite <-app_assoc.
Qed.

Lemma decode3 v0 v1 v2 s l x y r : Z.of_nat (length l) + 1 < INT_MAX -> 0 <= v0 < 64 -> 0 <= v1 < 64 -> 0 <= v2 < 64 ->
  b64_pton_loop (sym64 v0 :: sym64 v1 :: sym64 v2 :: s) 0 (length l) (Some (l ++ x :: y :: r))
  = match next_byte r (v2 mod 4 * 64) with
    | Some r => b64_pton_loop s 3 (length (l ++ [byte0 v0 v1; byte1 v1 v2])) (Some ((l ++ [byte0 v0 v1; byte1 v1 v2]) ++ r))
    | None => Ok None
    end.
Proof.
  intros Hl H0 H1 H2. rewrite decode2 by (done || lia). cbn [next_byte].
  rewrite step2, (proj1 (proj2 (bytes_of v1 v2 H1 H2))) by (done || rewrite length_app; simpl; lia). destruct (next_byte r _) as [r'|]; [|done].
  f_equal; [rewrite !length_app; simpl; lia|by rewrite <-!app_assoc].
Qed.

Lemma decode4 v0 v1 v2 v3 s l x y z r : Z.of_nat (length l) + 2 < INT_MAX -> 0 <= v0 < 64 -> 0 <= v1 < 64 -> 0 <= v2 < 64 -> 0 <= v3 < 64 ->
  b64_pton_loop (sym64 v0 :: sym64 v1 :: sym64 v2 :: sym64 v3 :: s) 0 (length l) (Some (l ++ x :: y :: z :: r))
  = b64_pton_loop s 0 (length (l ++ [byte0 v0 v1; byte1 v1 v2; byte2 v2 v3])) (Some ((l ++ [byte0 v0 v1; byte1 v1 v2; byte2 v2 v3]) ++ r)).
Proof.
  intros Hl H0 H1 H2 H3. rewrite decode3 by (done || lia). cbn [next_byte].
  rewrite step3, (proj1 (proj2 (proj2 (bytes_of v2 v3 H2 H3)))) by (done || rewrite length_app; simpl; lia).
  f_equal; [rewrite !length_app; simpl; lia|by rewrite <-!app_assoc].
Qed.

(** The values of bytes give the bytes. *)
Lemma bytes_outputs a b c : is_byte a -> is_byte b -> is_byte c ->
  byte0 (output0 a) (output1 a b) = a /\ byte1 (output1 a b) (output2 b c) = b /\ byte2 (output2 b c) (output3 c) = c.
Proof.
  intros Ha Hb Hc. destruct (outputs a b Ha Hb) as (-> & -> & _ & _). destruct (outputs b c Hb Hc) as (_ & _ & -> & _). destruct (outputs c c Hc Hc) as (_ & _ & _ & ->).
  unfold byte0, byte1, byte2, is_byte in *. Z.to_euclidean_division_equations; lia.
Qed.

Lemma outputs_bytes v0 v1 v2 v3 : 0 <= v0 < 64 -> 0 <= v1 < 64 -> 0 <= v2 < 64 -> 0 <= v3 < 64 ->
  output0 (byte0 v0 v1) = v0 /\ output1 (byte0 v0 v1) (byte1 v1 v2) = v1 /\ output2 (byte1 v1 v2) (byte2 v2 v3) = v2 /\ output3 (byte2 v2 v3) = v3.
Proof.
  intros H0 H1 H2 H3. destruct (bytes_of v0 v1 H0 H1) as (_ & _ & _ & Ha & _ & _). destruct (bytes_of v1 v2 H1 H2) as (_ & _ & _ & _ & Hb & _).
  destruct (bytes_of v2 v3 H2 H3) as (_ & _ & _ & _ & _ & Hc).
  destruct (outputs _ _ Ha Hb) as (-> & -> & _ & _). destruct (outputs _ _ Hb Hc) as (_ & _ & -> & _). destruct (outputs _ _ Hc Hc) as (_ & _ & _ & ->).
  unfold byte0, byte1, byte2. Z.to_euclidean_division_equations; lia.
Qed.

(** The end of a text, with zero left over. *)
Lemma pton_end_zero l r r' : next_byte r 0 = Some r' -> pton_end (length l) (Some (l ++ r')) = Ok (Some (length l, Some (l ++ r'))).
Proof.
  intros H. unfold pton_end. rewrite length_app. destruct r as [|y r]; simpl in H; injection H as <-; simpl.
  - by rewrite (proj2 (Nat.ltb_ge _ _)) by lia.
  - rewrite (proj2 (Nat.ltb_lt _ _)) by lia. by rewrite (at_Some _ _ 0) by (by apply list_lookup_middle).
Qed.

(** Every encoding is decoded, if the array has room for the bytes. *)
Lemma decode_enc bs : Forall is_byte bs -> forall l t, (length bs <= length t)%nat -> Z.of_nat (length l + length bs) <= INT_MAX -> exists r',
  b64_pton_loop (enc bs ++ [0]) 0 (length l) (Some (l ++ t)) = Ok (Some (length (l ++ bs), Some ((l ++ bs) ++ r'))).
Proof.
  induction bs as [|a|a b|a b c bs IH] using groups_ind; intros Hb l t Ht Hl; rewrite ?Forall_cons in Hb; cbn [enc app]; cbn [length] in Hl.
  - exists t. simpl. by rewrite !app_nil_r.
  - destruct Hb as [Ha _]. pose proof (output_range a 0 Ha is_byte_0) as (? & ? & _). destruct (bytes_outputs a 0 0 Ha is_byte_0 is_byte_0) as [E _].
    destruct t as [|x r]; [simpl in Ht; lia|]. rewrite decode2, E by (done || lia).
    assert (output1 a 0 mod 16 * 16 = 0) as -> by (destruct (outputs a 0 Ha is_byte_0) as (_ & -> & _); Z.to_euclidean_division_equations; lia).
    destruct (next_byte r 0) as [r'|] eqn:Er; [|by destruct r]. exists r'. rewrite (step_pad [Pad64]) by (by intros ?%list_elem_of_singleton). rewrite bool_decide_true by (by left).
    by apply (pton_end_zero _ r).
  - destruct Hb as (Ha & Hb & _). pose proof (output_range a b Ha Hb) as (? & ? & _). pose proof (output_range b 0 Hb is_byte_0) as (_ & _ & ? & _).
    destruct (bytes_outputs a b 0 Ha Hb is_byte_0) as (E1 & E2 & _). destruct t as [|x [|y r]]; [simpl in Ht; lia..|]. rewrite decode3, E1, E2 by (done || lia).
    assert (output2 b 0 mod 4 * 64 = 0) as -> by (destruct (outputs b 0 Hb is_byte_0) as (_ & _ & -> & _); Z.to_euclidean_division_equations; lia).
    destruct (next_byte r 0) as [r'|] eqn:Er; [|by destruct r]. exists r'. rewrite (step_pad []) by (by intros ?%elem_of_nil). rewrite bool_decide_true by (by right).
    by apply (pton_end_zero _ r).
  - destruct Hb as (Ha & Hb & Hc & Hbs). pose proof (output_range a b Ha Hb) as (? & ? & _). pose proof (output_range b c Hb Hc) as (_ & _ & ? & _).
    pose proof (output_range c c Hc Hc) as (_ & _ & _ & ?). destruct (bytes_outputs a b c Ha Hb Hc) as (E1 & E2 & E3).
    destruct t as [|x [|y [|z r]]]; [simpl in Ht; lia..|]. rewrite decode4, E1, E2, E3 by (done || lia).
    destruct (IH Hbs (l ++ [a; b; c]) r) as [r' E]; [simpl in Ht; lia|rewrite length_app; simpl; lia|]. exists r'. rewrite E. by rewrite <-(app_assoc l).
Qed.

(** * Only encodings are decoded *)

(** A text without white space. *)
Definition solid (s : list Z) : Prop := Forall (fun c => c <> 0 /\ isspace c = false) s.

Lemma solid_nonspace s : solid s -> (0 ∉ s) /\ nonspace s = s.
Proof.
  induction 1 as [|c s [Hc Hs] _ [IH1 IH2]]; [split; [by intros ?%elem_of_nil|done]|]. rewrite not_elem_of_cons, nonspace_other, IH2 by done. auto.
Qed.

Lemma char_cases c s state i t : c <> 0 -> isspace c = false ->
  c = Pad64 \/ (exists v, 0 <= v < 64 /\ c = sym64 v) \/ b64_pton_loop (c :: s) state i t = Ok None.
Proof.
  intros H0 Hs. destruct (decide (c = Pad64)) as [|Hp]; [by left|right]. cbn [b64_pton_loop]. rewrite Hs, !(proj2 (Z.eqb_neq c _)) by done.
  destruct (position c Base64) as [v|] eqn:E; [left|by right]. apply position_inv in E as [Hv ->]. by exists v.
Qed.

(** After a pad character the text ends, and the bits left over, if they are in the array, are zero. *)
Lemma pad_inv s state l t m : solid s -> b64_pton_loop ((Pad64 :: s) ++ [0]) state (length l) (Some (l ++ t)) = Ok (Some m) ->
  (state = 2%nat /\ s = [Pad64] \/ state = 3%nat /\ s = []) /\ hd 0 t = 0.
Proof.
  intros Hs H. destruct (solid_nonspace s Hs) as [H0 Hns]. cbn [app] in H. rewrite step_pad, Hns in H by done.
  destruct (bool_decide _) eqn:E; [|done]. apply bool_decide_eq_true in E. split; [done|]. unfold pton_end in H.
  destruct t as [|b r]; [done|].
  rewrite length_app in H. cbn [length] in H. rewrite (proj2 (Nat.ltb_lt _ _)), (at_Some _ _ b) in H by (lia || by apply list_lookup_middle).
  cbn [obind] in H. by destruct (Z.eqb_spec b 0).
Qed.

Ltac all_bytes := repeat (apply Forall_cons_2; [done|]); done || apply Forall_nil_2.

Lemma ends_here state i t m : state <> 0%nat -> b64_pton_loop ([] ++ [0]) state i t = Ok (Some m) -> False.
Proof. intros Hs H. by destruct state. Qed.

(** A character of the alphabet needs a byte of the array. *)
Lemma no_room v s state l : 0 <= v < 64 -> b64_pton_loop (sym64 v :: s) state (length l) (Some l) = Ok None.
Proof.
  intros Hv. destruct (alphabet v Hv) as (_ & Hp & Hs & H0 & H1). cbn [b64_pton_loop]. rewrite Hp, Hs, !(proj2 (Z.eqb_neq (sym64 v) _)) by done.
  unfold put_bits. rewrite (proj2 (Nat.leb_le _ _)) by done. by destruct state as [|[|[|state]]].
Qed.

(** The next character of a text that is accepted: it is of the alphabet, or a pad character where the group may end. *)
Lemma next_char c s state l t m : solid (c :: s) -> b64_pton_loop ((c :: s) ++ [0]) state (length l) (Some (l ++ t)) = Ok (Some m) ->
  (exists v b r, 0 <= v < 64 /\ c = sym64 v /\ t = b :: r) \/
  hd 0 t = 0 /\ (state = 2%nat /\ c :: s = [Pad64; Pad64] \/ state = 3%nat /\ c :: s = [Pad64]).
Proof.
  intros Hs H. apply Forall_cons in Hs as [[Hc0 Hcs] Hs].
  destruct (char_cases c (s ++ [0]) state (length l) (Some (l ++ t)) Hc0 Hcs) as [->|[(v & Hv & ->)|E]].
  - right. destruct (pad_inv s state l t m Hs H) as [[[-> ->]|[-> ->]] ?]; auto.
  - left. destruct t as [|b r]; [|by exists v, b, r]. cbn [app] in H. by rewrite app_nil_r, no_room in H.
  - cbn [app] in H. congruence.
Qed.

(** In the middle of a group there is another character. *)
Lemma next_char_mid s state l t m : solid s -> state <> 0%nat -> b64_pton_loop (s ++ [0]) state (length l) (Some (l ++ t)) = Ok (Some m) ->
  (exists v s' b r, 0 <= v < 64 /\ s = sym64 v :: s' /\ t = b :: r /\ solid s') \/
  hd 0 t = 0 /\ (state = 2%nat /\ s = [Pad64; Pad64] \/ state = 3%nat /\ s = [Pad64]).
Proof.
  intros Hs Hst H. destruct s as [|c s]; [by destruct (ends_here _ _ _ _ Hst H)|]. pose proof (Forall_inv_tail Hs) as Hs'.
  destruct (next_char c s state l t m Hs H) as [(v & b & r & Hv & -> & ->)|Hr]; [|by right]. left. by exists v, s, b, r.
Qed.

Lemma next_byte_zero r n r' : next_byte r n = Some r' -> hd 0 r' = 0 -> n = 0.
Proof. destruct r as [|y r]; simpl; [destruct (Z.eqb_spec n 0); done|]. by intros [= <-]. Qed.

Lemma next_byte_cons r n b r' : next_byte r n = Some (b :: r') -> exists y, r = y :: r' /\ b = n.
Proof. destruct r as [|y r]; simpl; [by destruct (n =? 0)|]. intros [= <- <-]. by exists y. Qed.

Lemma accepted s : solid s -> forall l t m, Z.of_nat (length l + length s) <= INT_MAX ->
  b64_pton_loop (s ++ [0]) 0 (length l) (Some (l ++ t)) = Ok (Some m) ->
  exists bs, Forall is_byte bs /\ s = enc bs /\ (length bs <= length t)%nat.
Proof.
  induction s as [s IH] using (induction_ltof1 _ length). intros Hs l t m Hl H. destruct s as [|c s]; [exists []; simpl; split_and!; [done..|lia]|].
  destruct (next_char c s 0 l t m Hs H) as [(v0 & x & t0 & Hv0 & -> & ->)|[_ [[? _]|[? _]]]]; [|done..].
  apply Forall_inv_tail in Hs. cbn [app length] in H, Hl. pose proof H as H1. rewrite step0 in H1 by done.
  apply next_char_mid in H1 as [(v1 & s1 & ? & ? & Hv1 & -> & _ & Hs1)|[_ [[? _]|[? _]]]]; [|done..]. cbn [app length] in H, Hl.
  pose proof H as H2. rewrite decode2 in H2 by (done || lia). destruct (next_byte t0 _) as [t1|] eqn:En1; [|done].
  apply next_char_mid in H2 as [(v2 & s2 & b1 & r1 & Hv2 & -> & -> & Hs2)|[Hz [[_ ->]|[? _]]]]; [| |done..].
  2: { apply (next_byte_zero _ _ _ En1) in Hz. destruct (outputs_bytes v0 v1 0 0) as (E0 & E1 & _); [done|done|lia..|].
       destruct (bytes_of v0 v1 Hv0 Hv1) as (_ & _ & _ & Hb & _). exists [byte0 v0 v1]. split_and!; [all_bytes| |simpl; lia].
       assert (byte1 v1 0 = 0) as Eb by (unfold byte1; rewrite Hz; done). rewrite Eb in E1. cbn [enc]. by rewrite E0, E1. }
  apply next_byte_cons in En1 as (y & -> & ->). cbn [app length] in H, Hl.
  pose proof H as H3. rewrite decode3 in H3 by (done || lia). destruct (next_byte r1 _) as [t2|] eqn:En2; [|done].
  apply next_char_mid in H3 as [(v3 & s3 & b2 & r2 & Hv3 & -> & -> & Hs3)|[Hz [[? _]|[_ ->]]]]; [|done| |done..].
  2: { apply (next_byte_zero _ _ _ En2) in Hz. destruct (outputs_bytes v0 v1 v2 0) as (E0 & E1 & E2 & _); [done..|lia|].
       destruct (bytes_of v0 v1 Hv0 Hv1) as (_ & _ & _ & Hb & _). destruct (bytes_of v1 v2 Hv1 Hv2) as (_ & _ & _ & _ & Hb' & _).
       exists [byte0 v0 v1; byte1 v1 v2]. split_and!; [all_bytes| |simpl; lia].
       assert (byte2 v2 0 = 0) as Eb by (unfold byte2; rewrite Hz; done). rewrite Eb in E2. cbn [enc]. by rewrite E0, E1, E2. }
  apply next_byte_cons in En2 as (z & -> & ->). cbn [app length] in H, Hl. rewrite decode4 in H by (done || lia).
  apply IH in H as (bs & Hbs & -> & Hlen); [|unfold ltof; simpl; lia|done|rewrite length_app; simpl; lia].
  destruct (outputs_bytes v0 v1 v2 v3 Hv0 Hv1 Hv2 Hv3) as (E0 & E1 & E2 & E3).
  destruct (bytes_of v0 v1 Hv0 Hv1) as (_ & _ & _ & Ha & _). destruct (bytes_of v1 v2 Hv1 Hv2) as (_ & _ & _ & _ & Hb & _). destruct (bytes_of v2 v3 Hv2 Hv3) as (_ & _ & _ & _ & _ & Hc).
  exists (byte0 v0 v1 :: byte1 v1 v2 :: byte2 v2 v3 :: bs). split_and!; [all_bytes| |simpl; lia]. cbn [enc]. by rewrite E0, E1, E2, E3.
Qed.

(** * Round trip *)

Lemma enc_solid bs : Forall is_byte bs -> solid (enc bs).
Proof.
  assert (forall v, 0 <= v < 64 -> sym64 v <> 0 /\ isspace (sym64 v) = false) as Hv by (intros v Hv; destruct (alphabet v Hv) as (_ & _ & ? & ? & _); done).
  assert (Pad64 <> 0 /\ isspace Pad64 = false) as Hp by done.
  induction bs as [|a|a b|a b c bs IH] using groups_ind; intros Hb; rewrite ?Forall_cons in Hb; unfold solid in *; cbn [enc]; rewrite ?Forall_cons.
  - constructor.
  - destruct Hb as [Ha _]. pose proof (output_range a 0 Ha is_byte_0) as (? & ? & _). split_and!; by (apply Hv || constructor || idtac).
  - destruct Hb as (Ha & Hb & _). pose proof (output_range a b Ha Hb) as (? & ? & _). pose proof (output_range b 0 Hb is_byte_0) as (_ & _ & ? & _).
    split_and!; by (apply Hv || constructor || idtac).
  - destruct Hb as (Ha & Hb & Hc & Hbs). pose proof (output_range a b Ha Hb) as (? & ? & _). pose proof (output_range b c Hb Hc) as (_ & _ & ? & _).
    pose proof (output_range c c Hc Hc) as (_ & _ & _ & ?). split_and!; by (apply Hv || apply IH || idtac).
Qed.

Lemma enc_length bs : (length bs <= length (enc bs))%nat.
Proof. induction bs as [|a|a b|a b c bs IH] using groups_ind; simpl; lia. Qed.

Lemma nonspace_solid str : 0 ∉ str -> solid (nonspace str).
Proof.
  intros H0. apply Forall_forall. intros c [Hs Hc]%list_elem_of_filter. split; [|done]. by intros ->.
Qed.

(** No call goes outside the array. *)
Lemma put_bits_total target i v n : exists r, put_bits target i v n = Ok r /\ forall t', r = Some t' -> (length <$> t') = (length <$> target).
Proof.
  unfold put_bits. destruct target as [t|]; [|by eexists; split; [done|intros t' [= <-]]]. destruct (Nat.leb_spec (length t) i); [by eexists|].
  destruct (lookup_lt_is_Some_2 t i) as [old Ho]; [done|]. rewrite (at_Some _ _ _ Ho). cbn [obind]. destruct n as [n|].
  - destruct (_ <? _)%nat; [|destruct (negb _)]; eexists; (split; [done|]); intros t' [= <-]; simpl; by rewrite ?length_insert.
  - eexists. split; [done|]. intros t' [= <-]. simpl. by rewrite length_insert.
Qed.

Lemma b64_pton_loop_total s : 0 ∉ s -> forall state i target, Z.of_nat (i + length s) <= INT_MAX -> exists r, b64_pton_loop (s ++ [0]) state i target = Ok r.
Proof.
  induction s as [|c s IH]; intros H0 state i target Hi; [by eexists|]. cbn [length] in Hi. rewrite not_elem_of_cons in H0. destruct H0 as [Hc H0]. cbn [app b64_pton_loop].
  rewrite (proj2 (Z.eqb_neq c 0)) by done. destruct (isspace c); [apply IH; [done|lia]|]. destruct (c =? Pad64).
  - rewrite b64_pton_pad_spec by done. destruct (bool_decide _); [|by eexists]. unfold pton_end. destruct target as [t|]; [|by eexists].
    destruct (Nat.ltb_spec i (length t)); [|by eexists]. destruct (lookup_lt_is_Some_2 t i) as [b Hb]; [done|]. rewrite (at_Some _ _ _ Hb). cbn [obind].
    destruct (negb _); by eexists.
  - destruct (position c Base64) as [v|]; [|by eexists]. destruct state as [|[|[|state]]]; [destruct target as [t|]; [destruct (_ <=? _)%nat; [by eexists|]|]; apply IH; (done || lia)|..].
    all: match goal with |- context [put_bits ?t ?i ?v ?n] => destruct (put_bits_total t i v n) as (r & -> & _) end; cbn [obind]; destruct r; [|by eexists];
      unfold tarindex_next; rewrite (proj2 (Z.ltb_lt _ _)) by lia; apply IH; (done || lia).
Qed.

(** C40: b64_ntop gives the encoding of the bytes if the array has room for it and the terminator, and -1 if not; it returns
    the length of the text as an int, which is the length when that is less than 2^31.  For every string shorter than
    2^31 characters and every array or null pointer b64_pton returns, with no overflow of its int index.  With an array it
    accepts exactly the encodings of the bytes that the array has room for, with white space anywhere, and gives the
    bytes.  (With a null pointer the bits left over are not looked at, and more is accepted.) *)
Theorem b64_correct :
  (forall bs targsize, Forall is_byte bs ->
    b64_ntop bs targsize = Ok (if (length (enc bs) <? targsize)%nat then Some (wrapS 32 (Z.of_nat (length (enc bs))), enc bs ++ [0]) else None)) /\
  (forall str tail target, 0 ∉ str -> Z.of_nat (length str) < 2 ^ 31 -> exists r, b64_pton (str ++ 0 :: tail) target = Ok r) /\
  (forall str tail t bs, 0 ∉ str -> Z.of_nat (length str) < 2 ^ 31 -> Forall is_byte bs -> nonspace str = enc bs -> (length bs <= length t)%nat ->
    exists r, b64_pton (str ++ 0 :: tail) (Some t) = Ok (Some (length bs, Some (bs ++ r)))) /\
  (forall str tail t n t', 0 ∉ str -> Z.of_nat (length str) < 2 ^ 31 ->
    b64_pton (str ++ 0 :: tail) (Some t) = Ok (Some (n, Some t')) ->
    exists bs r, Forall is_byte bs /\ nonspace str = enc bs /\ (length bs <= length t)%nat /\ n = length bs /\ t' = bs ++ r).
Proof.
  assert (Hns : forall str, (length (nonspace str) <= length str)%nat) by (intros str; apply (length_filter (fun c => isspace c = false))).
  split_and!; [by intros; apply b64_ntop_spec| | |].
  - intros str tail target H0 Hl. unfold b64_pton. rewrite b64_pton_loop_space by done.
    apply b64_pton_loop_total; [by apply solid_nonspace, nonspace_solid|]. specialize (Hns str). lia.
  - intros str tail t bs H0 Hl Hbs Hs Ht. unfold b64_pton. rewrite b64_pton_loop_space, Hs by done. specialize (Hns str).
    rewrite Hs in Hns. pose proof (enc_length bs). apply (decode_enc bs Hbs [] t Ht). cbn [length]. lia.
  - intros str tail t n t' H0 Hl31 H. unfold b64_pton in H. rewrite b64_pton_loop_space in H by done. specialize (Hns str).
    destruct (accepted (nonspace str) (nonspace_solid str H0) [] t _ ltac:(simpl; lia) H) as (bs & Hbs & Hs & Ht). rewrite Hs in *.
    pose proof (enc_length bs). destruct (decode_enc bs Hbs [] t) as [r E]; [lia|cbn [length]; lia|].
    cbn [app length] in E, H. rewrite E in H. injection H as <- <-. by exists bs, r.
Qed.

(** The text of "light work". *)
Example ex_base64 :
  b64_ntop (chars "light work") 17 = Ok (Some (16, chars "bGlnaHQgd29yaw==" ++ [0])) /\
  b64_ntop (chars "light work") 16 = Ok None /\
  b64_pton (chars "bGln aHQg d29yaw =  =" ++ [10; 0]) (Some (replicate 10 7)) = Ok (Some (10%nat, Some (chars "light work"))) /\
  b64_pton (chars "bGlnaHQgd29yax==" ++ [0]) (Some (replicate 16 7)) = Ok None /\
  b64_pton (chars "AB==" ++ [0]) (Some [7; 7]) = Ok None /\
  b64_pton (chars "AB==" ++ [0]) None = Ok (Some (1%nat, None)).
Proof. vm_compute. repeat split; reflexivity. Qed.
