(* ===== verification/NsParse.v ===== *)
(** Reading DNS messages: libc/dns/nameser/ns_parse.c and ns_netint.c, dn_skipname and dn_expand of
    libc/dns/resolv/res_comp.c, and the time to live of an answer in libc/dns/resolv/res_cache.c.

    A message is the list of its bytes and a pointer into it is a place.  [ns_initparse] finds the sections of a
    message; [ns_parserr] reads a record, going on from the last one or from the start of the section. *)

From S2P Require Import Prelude Result NsName NsText.

(** * Definitions *)

Abbreviation ENODEV := 19.
Abbreviation NS_MAXDNAME := 1025%nat.
Abbreviation NS_MAXNNAME := 256%nat.
Abbreviation ns_s_qd := 0.
Abbreviation ns_s_an := 1.
Abbreviation ns_s_ns := 2.
Abbreviation ns_s_max := 4.
Abbreviation ns_t_soa := 6.

Definition ns_get16 (msg : list Z) (src : nat) : result Z :=
  a <-- at_ msg src ;;
  b <-- at_ msg (src + 1) ;;
  Ok (Z.lor (Z.shiftl a 8) b).

Definition ns_get32 (msg : list Z) (src : nat) : result Z :=
  a <-- at_ msg src ;;
  b <-- at_ msg (src + 1) ;;
  c <-- at_ msg (src + 2) ;;
  d <-- at_ msg (src + 3) ;;
  Ok (Z.lor (Z.lor (Z.lor (Z.shiftl a 24) (Z.shiftl b 16)) (Z.shiftl c 8)) d).

Definition ns_put16 (src : Z) (buf : list Z) (dst : nat) : result (list Z) :=
  write_at buf dst [wrapU 8 (Z.shiftr src 8); wrapU 8 src].

Definition ns_put32 (src : Z) (buf : list Z) (dst : nat) : result (list Z) :=
  write_at buf dst [wrapU 8 (Z.shiftr src 24); wrapU 8 (Z.shiftr src 16); wrapU 8 (Z.shiftr src 8); wrapU 8 src].

(** The number of bytes of a name. *)
Definition dn_skipname (msg : list Z) (ptr : nat) : result (Z + nat) :=
  r <-- ns_name_skip msg ptr ;;
  Ok (match r with inl e => inl e | inr p => inr (p - ptr)%nat end).

(** The root is the empty string. *)
Definition dn_expand (msg : list Z) (src : nat) (dstsiz : nat) : result (Z + nat * list Z) :=
  r <-- ns_name_uncompress msg (Z.of_nat src) dstsiz ;;
  match r with
  | inl e => Ok (inl e)
  | inr (n, dst) =>
      if (0 <? n)%nat then
        c <-- at_ dst 0 ;;
        Ok (inr (n, if c =? 0x2e then <[0%nat := 0]> dst else dst))
      else Ok (inr (n, dst))
  end.

(** ** Skipping records *)

(** The place behind [count] records, which may be behind the end of the message. *)
Fixpoint skiprr_loop (msg : list Z) (section : Z) (count ptr : nat) : result (Z + nat) :=
  match count with
  | O => Ok (inr ptr)
  | S count =>
      r <-- dn_skipname msg ptr ;;
      match r with
      | inl _ => Ok (inl EMSGSIZE)
      | inr b =>
          let ptr := (ptr + b + 2 + 2)%nat in
          if section =? ns_s_qd then skiprr_loop msg section count ptr else
          if (length msg <? ptr + 4 + 2)%nat then Ok (inl EMSGSIZE) else
          rdlength <-- ns_get16 msg (ptr + 4) ;;
          skiprr_loop msg section count (ptr + 4 + 2 + Z.to_nat rdlength)
      end
  end.

Definition ns_skiprr (msg : list Z) (ptr : nat) (section count : Z) : result (Z + nat) :=
  r <-- skiprr_loop msg section (Z.to_nat count) ptr ;;
  Ok (match r with inl e => inl e | inr p => if (length msg <? p)%nat then inl EMSGSIZE else inr (p - ptr)%nat end).

(** ** A message *)

Record ns_msg := Handle {
  _msg : list Z;
  _id : Z;
  _flags : Z;
  _counts : list Z;
  _sections : list (option nat);
  _sect : Z;
  _rrnum : Z;
  _msg_ptr : option nat;
}.

Definition setsection (h : ns_msg) (sect : Z) : result ns_msg :=
  if sect =? ns_s_max then Ok (Handle (_msg h) (_id h) (_flags h) (_counts h) (_sections h) sect (-1) None) else
  s <-- at_ (_sections h) (Z.to_nat sect) ;;
  Ok (Handle (_msg h) (_id h) (_flags h) (_counts h) (_sections h) sect 0 s).

(** The flag of a handle: QR, OPCODE, AA, TC, RD, RA, Z, AD, CD and RCODE, and six that are always 0. *)
Definition _ns_flagdata : list (Z * Z) :=
  [(0x8000, 15); (0x7800, 11); (0x0400, 10); (0x0200, 9); (0x0100, 8); (0x0080, 7); (0x0040, 6); (0x0020, 5); (0x0010, 4);
   (0x000f, 0); (0, 0); (0, 0); (0, 0); (0, 0); (0, 0); (0, 0)].

Definition ns_msg_getflag (h : ns_msg) (flag : nat) : result Z :=
  f <-- at_ _ns_flagdata flag ;;
  Ok (Z.shiftr (Z.land (_flags h) f.1) f.2).

(** The numbers of the header from [msg] on; the place behind them. *)
Fixpoint read_counts (msg : list Z) (p n : nat) : result (Z + list Z * nat) :=
  match n with
  | O => Ok (inr ([], p))
  | S n =>
      if (length msg <? p + 2)%nat then Ok (inl EMSGSIZE) else
      c <-- ns_get16 msg p ;;
      r <-- read_counts msg (p + 2) n ;;
      Ok (match r with inl e => inl e | inr (cs, p) => inr (c :: cs, p) end)
  end.

(** The sections; the place behind the last. *)
Fixpoint find_sections (msg : list Z) (p : nat) (i : Z) (counts : list Z) : result (Z + list (option nat) * nat) :=
  match counts with
  | [] => Ok (inr ([], p))
  | c :: counts =>
      if c =? 0 then
        r <-- find_sections msg p (i + 1) counts ;;
        Ok (match r with inl e => inl e | inr (ss, p) => inr (None :: ss, p) end)
      else
        b <-- ns_skiprr msg p i c ;;
        match b with
        | inl e => Ok (inl e)
        | inr b =>
            r <-- find_sections msg (p + b) (i + 1) counts ;;
            Ok (match r with inl e => inl e | inr (ss, q) => inr (Some p :: ss, q) end)
        end
  end.

Definition ns_initparse (msg : list Z) : result (Z + ns_msg) :=
  if (length msg <? 2)%nat then Ok (inl EMSGSIZE) else
  id <-- ns_get16 msg 0 ;;
  if (length msg <? 4)%nat then Ok (inl EMSGSIZE) else
  flags <-- ns_get16 msg 2 ;;
  r <-- read_counts msg 4 (Z.to_nat ns_s_max) ;;
  match r with
  | inl e => Ok (inl e)
  | inr (counts, p) =>
      r <-- find_sections msg p 0 counts ;;
      match r with
      | inl e => Ok (inl e)
      | inr (sections, p) =>
          if negb (p =? length msg)%nat then Ok (inl EMSGSIZE) else
          h <-- setsection (Handle msg id flags counts sections 0 0 None) ns_s_max ;;
          Ok (inr h)
      end
  end.

(** ** A record *)

Record ns_rr := Rr { name : list Z; type : Z; rr_class : Z; ttl : Z; rdlength : Z; rdata : option nat }.

(** The handle with its pointer at [p], and the number of its record. *)
Definition with_ptr (h : ns_msg) (p : nat) : ns_msg :=
  Handle (_msg h) (_id h) (_flags h) (_counts h) (_sections h) (_sect h) (_rrnum h) (Some p).

Definition with_rrnum (h : ns_msg) (n : Z) : ns_msg :=
  Handle (_msg h) (_id h) (_flags h) (_counts h) (_sections h) (_sect h) n (_msg_ptr h).

Section parserr.
(** Reads a name at a place: the text of the name, or the name without pointers. *)
Context (expand : list Z -> nat -> result (Z + nat * list Z)).

(** The record at the pointer of a handle.  The handle keeps what was read of it when there is an error. *)
Definition parse_rr (h : ns_msg) (section : Z) : result (ns_msg * (Z + ns_rr)) :=
  let msg := _msg h in
  p <-- run (_msg_ptr h) ;;
  r <-- expand msg p ;;
  match r with
  | inl e => Ok (h, inl e)
  | inr (b, name) =>
      let p := (p + b)%nat in
      if (length msg <? p + 2 + 2)%nat then Ok (with_ptr h p, inl EMSGSIZE) else
      type <-- ns_get16 msg p ;;
      class <-- ns_get16 msg (p + 2) ;;
      let p := (p + 2 + 2)%nat in
      r <-- (if section =? ns_s_qd then Ok (with_ptr h p, inr (Rr name type class 0 0 None)) else
             if (length msg <? p + 4 + 2)%nat then Ok (with_ptr h p, inl EMSGSIZE) else
             ttl <-- ns_get32 msg p ;;
             rdlength <-- ns_get16 msg (p + 4) ;;
             let p := (p + 4 + 2)%nat in
             if (length msg <? p + Z.to_nat rdlength)%nat then Ok (with_ptr h p, inl EMSGSIZE) else
             Ok (with_ptr h (p + Z.to_nat rdlength), inr (Rr name type class ttl rdlength (Some p)))) ;;
      match r with
      | (h, inl e) => Ok (h, inl e)
      | (h, inr rr) =>
          let h := with_rrnum h (_rrnum h + 1) in
          c <-- at_ (_counts h) (Z.to_nat section) ;;
          h <-- (if c <? _rrnum h then setsection h (section + 1) else Ok h) ;;
          Ok (h, inr rr)
      end
  end.

Definition parserr (h : ns_msg) (section rrnum : Z) : result (ns_msg * (Z + ns_rr)) :=
  if (section <? 0) || (ns_s_max <=? section) then Ok (h, inl ENODEV) else
  h <-- (if negb (section =? _sect h) then setsection h section else Ok h) ;;
  let rrnum := if rrnum =? -1 then _rrnum h else rrnum in
  c <-- at_ (_counts h) (Z.to_nat section) ;;
  if (rrnum <? 0) || (c <=? rrnum) then Ok (h, inl ENODEV) else
  h <-- (if rrnum <? _rrnum h then setsection h section else Ok h) ;;
  if _rrnum h <? rrnum then
    p <-- run (_msg_ptr h) ;;
    b <-- ns_skiprr (_msg h) p section (rrnum - _rrnum h) ;;
    match b with
    | inl e => Ok (h, inl e)
    | inr b => parse_rr (with_rrnum (with_ptr h (p + b)) rrnum) section
    end
  else parse_rr h section.
End parserr.

Definition ns_parserr : ns_msg -> Z -> Z -> result (ns_msg * (Z + ns_rr)) := parserr (fun msg p => dn_expand msg p NS_MAXDNAME).

Definition ns_parserr2 : ns_msg -> Z -> Z -> result (ns_msg * (Z + ns_rr)) :=
  parserr (fun msg p => ns_name_unpack2 msg (Z.of_nat p) NS_MAXNNAME).

(** ** The time to live of an answer *)

(** The lower of the time to live of a SOA record and the field MINIMUM of its data. *)
Definition soa_ttl (msg : list Z) (rr : ns_rr) : result (option Z) :=
  p <-- run (rdata rr) ;;
  let edata := (p + Z.to_nat (rdlength rr))%nat in
  len <-- dn_skipname (take edata msg) p ;;
  match len with
  | inl _ => Ok None
  | inr len =>
      let p := (p + len)%nat in
      len <-- dn_skipname (take edata msg) p ;;
      match len with
      | inl _ => Ok None
      | inr len =>
          let p := (p + len)%nat in
          if negb (Z.of_nat edata - Z.of_nat p =? 5 * 4) then Ok None else
          t <-- ns_get32 msg (p + 4 * 4) ;;
          Ok (Some (if t <? ttl rr then t else ttl rr))
      end
  end.

(** The loops over the records of a section: [one] gives the time to live of a record that counts. *)
Fixpoint ttl_loop (one : ns_rr -> result (option Z)) (h : ns_msg) (section n : Z) (count : nat) (res : Z) : result Z :=
  match count with
  | O => Ok res
  | S count =>
      r <-- ns_parserr h section n ;;
      let '(h, rr) := r in
      t <-- (match rr with inl _ => Ok None | inr rr => one rr end) ;;
      let res := match t with None => res | Some t => if (n =? 0) || (t <? res) then t else res end in
      ttl_loop one h section (n + 1) count res
  end.

Definition answer_getNegativeTTL (h : ns_msg) : result Z :=
  nscount <-- at_ (_counts h) (Z.to_nat ns_s_ns) ;;
  ttl_loop (fun rr => if type rr =? ns_t_soa then soa_ttl (_msg h) rr else Ok None) h ns_s_ns 0 (Z.to_nat nscount) 0.

Definition answer_getTTL (answer : list Z) : result Z :=
  r <-- ns_initparse answer ;;
  match r with
  | inl _ => Ok 0
  | inr h =>
      ancount <-- at_ (_counts h) (Z.to_nat ns_s_an) ;;
      if ancount =? 0 then answer_getNegativeTTL h else ttl_loop (fun rr => Ok (Some (ttl rr))) h ns_s_an 0 (Z.to_nat ancount) 0
  end.

(** * Places of records *)

Lemma skiprr_loop_add msg section j k ptr : skiprr_loop msg section (j + k) ptr
  = (r <-- skiprr_loop msg section j ptr ;; match r with inl e => Ok (inl e) | inr p => skiprr_loop msg section k p end).
Proof.
  revert ptr. induction j as [|j IH]; intros ptr; [done|]. cbn [skiprr_loop plus]. destruct (dn_skipname msg ptr) as [[e|b]| |]; cbn [obind]; [done| |done..].
  destruct (_ =? _); [apply IH|]. destruct (_ <? _)%nat; [done|]. destruct (ns_get16 _ _); cbn [obind]; [apply IH|done..].
Qed.

Lemma skiprr_loop_mono msg section k ptr p : skiprr_loop msg section k ptr = Ok (inr p) -> (ptr <= p)%nat.
Proof.
  revert ptr. induction k as [|k IH]; intros ptr H; cbn [skiprr_loop] in H; [injection H as ->; lia|]. obind_inv H. destruct x as [e|b]; [done|].
  destruct (_ =? _); [apply IH in H; lia|]. destruct (_ <? _)%nat; [done|]. obind_inv H. apply IH in H. lia.
Qed.

(** Where all records of a section can be skipped, so can the first ones. *)
Lemma skiprr_prefix msg section j c ptr e : (j <= c)%nat -> skiprr_loop msg section c ptr = Ok (inr e) ->
  exists p, skiprr_loop msg section j ptr = Ok (inr p) /\ skiprr_loop msg section (c - j) p = Ok (inr e) /\ (ptr <= p <= e)%nat.
Proof.
  intros Hj H. replace c with (j + (c - j))%nat in H by lia. rewrite skiprr_loop_add in H. obind_inv H. destruct x as [|p]; [done|].
  exists p. pose proof (skiprr_loop_mono _ _ _ _ _ E). pose proof (skiprr_loop_mono _ _ _ _ _ H). split_and!; [done|done|lia|lia].
Qed.

Lemma skiprr_step msg section n p q q' : 0 <= n -> skiprr_loop msg section (Z.to_nat n) p = Ok (inr q) -> skiprr_loop msg section 1 q = Ok (inr q') ->
  skiprr_loop msg section (Z.to_nat (n + 1)) p = Ok (inr q').
Proof. intros Hn H H1. replace (Z.to_nat (n + 1)) with (Z.to_nat n + 1)%nat by lia. rewrite skiprr_loop_add, H. done. Qed.

(** * Records *)

Lemma get16_pos msg p n : Forall is_byte msg -> ns_get16 msg p = Ok n -> 0 <= n.
Proof.
  intros Hb H. unfold ns_get16 in H. obind_inv H. obind_inv H. injection H as <-. apply at_inv in E, E0. rewrite Forall_lookup in Hb.
  pose proof (Hb _ _ E) as Hx. pose proof (Hb _ _ E0) as Hx0. unfold is_byte in *. rewrite Z.shiftl_mul_pow2, lor_low_bits by lia. lia.
Qed.

Lemma get32_pos msg p n : Forall is_byte msg -> ns_get32 msg p = Ok n -> 0 <= n.
Proof.
  intros Hb H. unfold ns_get32 in H. do 4 obind_inv H. injection H as <-. apply at_inv in E, E0, E1, E2. rewrite Forall_lookup in Hb.
  pose proof (Hb _ _ E) as H1. pose proof (Hb _ _ E0) as H2. pose proof (Hb _ _ E1) as H3. pose proof (Hb _ _ E2) as H4. unfold is_byte in *.
  rewrite !Z.lor_nonneg, !Z.shiftl_nonneg. lia.
Qed.

Section random_access.
Context (expand : list Z -> nat -> result (Z + nat * list Z)).
Context (expand_skip : forall msg p b nm, Forall is_byte msg -> expand msg p = Ok (inr (b, nm)) -> dn_skipname msg p = Ok (inr b)).

(** The record at a place. *)
Definition rr_at (msg : list Z) (section : Z) (q : nat) : result (Z + ns_rr) :=
  r <-- expand msg q ;;
  match r with
  | inl e => Ok (inl e)
  | inr (b, name) =>
      type <-- ns_get16 msg (q + b) ;;
      class <-- ns_get16 msg (q + b + 2) ;;
      if section =? ns_s_qd then Ok (inr (Rr name type class 0 0 None)) else
      ttl <-- ns_get32 msg (q + b + 4) ;;
      rdlength <-- ns_get16 msg (q + b + 8) ;;
      Ok (inr (Rr name type class ttl rdlength (Some (q + b + 10)%nat)))
  end.

Lemma parse_rr_spec h section q q' c :
  Forall is_byte (_msg h) -> _msg_ptr h = Some q -> skiprr_loop (_msg h) section 1 q = Ok (inr q') -> (q' <= length (_msg h))%nat ->
  _counts h !! Z.to_nat section = Some c -> _rrnum h < c ->
  parse_rr expand h section
  = (r <-- rr_at (_msg h) section q ;; Ok (match r with inl _ => h | inr _ => with_rrnum (with_ptr h q') (_rrnum h + 1) end, r)).
Proof using expand_skip.
  intros Hb Hq Hs Hq' Hc Hn. unfold parse_rr, rr_at. rewrite Hq. cbn [run obind]. destruct (expand (_msg h) q) as [[e|[b nm]]| |] eqn:Ex; cbn [obind]; [done| |done..].
  apply expand_skip in Ex; [|done]. cbn [skiprr_loop] in Hs. rewrite Ex in Hs. cbn [obind] in Hs. set (msg := _msg h) in *.
  replace (q + b + 2 + 2)%nat with (q + b + 4)%nat in * by lia.
  destruct (section =? ns_s_qd).
  - injection Hs as <-. rewrite (proj2 (Nat.ltb_ge _ _)) by lia. destruct (ns_get16 msg (q + b)); cbn [obind]; [|done..].
    destruct (ns_get16 msg (q + b + 2)); cbn [obind]; [|done..]. cbn. rewrite (at_Some _ _ _ Hc). cbn [obind]. by rewrite (proj2 (Z.ltb_ge _ _)) by lia.
  - destruct (Nat.ltb_spec (length msg) (q + b + 4 + 4 + 2)); [done|]. rewrite (proj2 (Nat.ltb_ge _ _)) by lia. replace (q + b + 4 + 4)%nat with (q + b + 8)%nat in * by lia.
    replace (q + b + 8 + 2)%nat with (q + b + 10)%nat in * by lia.
    destruct (ns_get16 msg (q + b)); cbn [obind]; [|done..]. destruct (ns_get16 msg (q + b + 2)); cbn [obind]; [|done..].
    destruct (ns_get32 msg (q + b + 4)); cbn [obind]; [|done..]. destruct (ns_get16 msg (q + b + 8)); cbn [obind] in *; [|done..].
    injection Hs as <-. rewrite (proj2 (Nat.ltb_ge _ _)) by lia. cbn. rewrite (at_Some _ _ _ Hc). cbn [obind]. by rewrite (proj2 (Z.ltb_ge _ _)) by lia.
Qed.

(** The sections of a handle, as ns_initparse finds them. *)
Definition framed (h : ns_msg) : Prop := Forall is_byte (_msg h) /\ length (_counts h) = 4%nat /\ length (_sections h) = 4%nat /\
  forall i c, 0 <= i -> _counts h !! Z.to_nat i = Some c -> 0 <= c /\ (c <> 0 -> exists p e, _sections h !! Z.to_nat i = Some (Some p) /\
    skiprr_loop (_msg h) i (Z.to_nat c) p = Ok (inr e) /\ (e <= length (_msg h))%nat).

(** The pointer of a handle is at the record with its number. *)
Definition placed (h : ns_msg) : Prop := (_sect h = ns_s_max /\ _rrnum h = -1) \/
  (0 <= _sect h < ns_s_max /\ exists c s, _counts h !! Z.to_nat (_sect h) = Some c /\ _sections h !! Z.to_nat (_sect h) = Some s /\ 0 <= _rrnum h <= c /\
    forall p, s = Some p -> exists q, _msg_ptr h = Some q /\ skiprr_loop (_msg h) (_sect h) (Z.to_nat (_rrnum h)) p = Ok (inr q)).

(** Two handles of the same message. *)
Definition same_message (h h' : ns_msg) : Prop :=
  _msg h = _msg h' /\ _counts h = _counts h' /\ _sections h = _sections h'.

Lemma same_framed h h' : same_message h h' -> framed h -> framed h'.
Proof. intros (E1 & E2 & E3). unfold framed. by rewrite E1, E2, E3. Qed.

(** The place of a record. *)
Definition rr_place (h : ns_msg) (section n : Z) (q : nat) : Prop :=
  exists p, _sections h !! Z.to_nat section = Some (Some p) /\ skiprr_loop (_msg h) section (Z.to_nat n) p = Ok (inr q).

Lemma setsection_spec h section : framed h -> 0 <= section < ns_s_max -> exists h', setsection h section = Ok h' /\ same_message h h' /\
  _sect h' = section /\ _rrnum h' = 0 /\ placed h'.
Proof.
  intros (_ & Hc & Hs & Hf) Hr. unfold setsection. rewrite (proj2 (Z.eqb_neq _ _)) by lia. destruct (lookup_lt_is_Some_2 (_sections h) (Z.to_nat section)) as [s Es]; [lia|].
  rewrite (at_Some _ _ _ Es). cbn [obind]. eexists. split; [done|]. split; [done|]. split; [done|]. split; [done|]. right. cbn. split; [lia|].
  destruct (lookup_lt_is_Some_2 (_counts h) (Z.to_nat section)) as [c Ec]; [lia|]. destruct (Hf section c) as [Hc0 _]; [lia|done|]. exists c, s. split_and!; [done|done|lia|lia|].
  intros p ->. by exists p.
Qed.

(** A handle is brought to a section. *)
Lemma to_section h section : framed h -> placed h -> 0 <= section < ns_s_max ->
  exists h', (if negb (section =? _sect h) then setsection h section else Ok h) = Ok h' /\ same_message h h' /\ _sect h' = section /\ placed h' /\
    _rrnum h' = if section =? _sect h then _rrnum h else 0.
Proof.
  intros Hf Hp Hr. destruct (Z.eqb_spec section (_sect h)) as [->|]; cbn [negb]; [by exists h|].
  destruct (setsection_spec h section Hf Hr) as (h' & -> & ? & ? & ? & ?). by exists h'.
Qed.

(** The handle is brought to a record of its section, going back to the start if it is behind it. *)
Lemma back_to h section n : framed h -> placed h -> _sect h = section -> 0 <= section < ns_s_max -> 0 <= n ->
  exists h', (if n <? _rrnum h then setsection h section else Ok h) = Ok h' /\ same_message h h' /\ _sect h' = section /\ placed h' /\ _rrnum h' <= n.
Proof.
  intros Hf Hp <- Hr Hn. destruct (Z.ltb_spec n (_rrnum h)); [|by exists h].
  destruct (setsection_spec h _ Hf Hr) as (h' & -> & ? & ? & ? & ?). exists h'. split_and!; [done| |done|done|lia]. done.
Qed.

Lemma same_message_trans h1 h2 h3 : same_message h1 h2 -> same_message h2 h3 -> same_message h1 h3.
Proof. unfold same_message. intros (-> & -> & ->). done. Qed.

(** Parsing at a handle that is at the record. *)
Lemma parse_rr_placed h c p : framed h -> placed h -> 0 <= _sect h < ns_s_max -> _counts h !! Z.to_nat (_sect h) = Some c -> _sections h !! Z.to_nat (_sect h) = Some (Some p) -> _rrnum h < c ->
  exists q h2, rr_place h (_sect h) (_rrnum h) q /\ same_message h h2 /\ placed h2 /\ _sect h2 = _sect h /\ _rrnum h2 = _rrnum h + 1 /\
    parse_rr expand h (_sect h) = (r <-- rr_at (_msg h) (_sect h) q ;; Ok (match r with inl _ => h | inr _ => h2 end, r)).
Proof using expand_skip.
  intros Hf Hp Hr Hc Hs Hn. destruct Hp as [[? _]|(_ & c' & s & Hc' & Hs' & Hrr & Hptr)]; [lia|]. assert (c' = c) as -> by congruence. assert (s = Some p) as -> by congruence. destruct (Hptr p eq_refl) as (q & Hq & Hskip).
  pose proof Hf as (Hb & _ & _ & Hsec). destruct (Hsec (_sect h) c) as [_ (p' & e & Hs2 & He & Hle)]; [lia|done|lia|]. assert (p' = p) as -> by congruence.
  destruct (skiprr_prefix (_msg h) (_sect h) (Z.to_nat (_rrnum h + 1)) (Z.to_nat c) p e) as (q' & Hq' & _ & Hqe); [lia|done|].
  assert (skiprr_loop (_msg h) (_sect h) 1 q = Ok (inr q')) as H1.
  { replace (Z.to_nat (_rrnum h + 1)) with (Z.to_nat (_rrnum h) + 1)%nat in Hq' by lia. rewrite skiprr_loop_add, Hskip in Hq'. done. }
  exists q, (with_rrnum (with_ptr h q') (_rrnum h + 1)). split; [by exists p|]. split; [done|]. split; [|split; [done|split; [done|]]].
  - right. cbn. split; [done|]. exists c, (Some p). split_and!; [done|done|lia|lia|]. intros ? [= <-]. by exists q'.
  - by apply (parse_rr_spec h (_sect h) q q' c); try (done || lia).
Qed.

Lemma parserr_place h section n : framed h -> placed h -> 0 <= section < ns_s_max -> 0 <= n -> exists c, _counts h !! Z.to_nat section = Some c /\
  if c <=? n then exists h', parserr expand h section n = Ok (h', inl ENODEV) /\ same_message h h' /\ placed h'
  else exists q h1 h2, rr_place h section n q /\ same_message h h1 /\ placed h1 /\ same_message h h2 /\ placed h2 /\ _sect h2 = section /\ _rrnum h2 = n + 1 /\
    parserr expand h section n = (r <-- rr_at (_msg h) section q ;; Ok (match r with inl _ => h1 | inr _ => h2 end, r)).
Proof using expand_skip.
  intros Hf Hp Hr Hn. destruct (lookup_lt_is_Some_2 (_counts h) (Z.to_nat section)) as [c Hc]; [destruct Hf as (_ & -> & _); lia|]. exists c. split; [done|].
  unfold parserr. rewrite (proj2 (Z.ltb_ge section 0)), (proj2 (Z.leb_gt _ section)) by lia. cbn [orb].
  destruct (to_section h section Hf Hp Hr) as (h' & -> & Hsame & Hsect & Hp' & _). cbn [obind]. rewrite (proj2 (Z.eqb_neq n (-1))) by lia.
  destruct Hsame as (E1 & E2 & E3). rewrite E2 in Hc. rewrite (at_Some _ _ _ Hc). cbn [obind]. rewrite (proj2 (Z.ltb_ge n 0)) by lia. cbn [orb].
  destruct (Z.leb_spec c n); [by exists h'|]. assert (same_message h h') as Hsame by done. pose proof (same_framed _ _ Hsame Hf) as Hf'.
  destruct (back_to h' section n Hf' Hp' Hsect Hr Hn) as (h1 & -> & Hsame1 & Hsect1 & Hp1 & Hle). cbn [obind].
  pose proof (same_framed _ _ Hsame1 Hf') as Hf1. pose proof (same_message_trans _ _ _ Hsame Hsame1) as Hs01. destruct Hsame1 as (E1' & E2' & E3'). rewrite E2' in Hc.
  pose proof Hf1 as (Hb & _ & _ & Hsec). destruct (Hsec section c) as [_ (p & e & Hs & He & Hlen)]; [lia|done|lia|].
  clear Hsect. subst section. unfold rr_place. rewrite E1, E3, E1', E3'. destruct (Z.ltb_spec (_rrnum h1) n).
  - pose proof Hp1 as [[? _]|(_ & c' & s & Hc' & Hs' & Hrr & Hptr)]; [lia|]. assert (c' = c) as -> by congruence. assert (s = Some p) as -> by congruence. destruct (Hptr p eq_refl) as (q & Hq & Hskip). rewrite Hq. cbn [run obind].
    destruct (skiprr_prefix (_msg h1) (_sect h1) (Z.to_nat n) (Z.to_nat c) p e) as (q' & Hq' & _ & Hqe); [lia|done|].
    assert (skiprr_loop (_msg h1) (_sect h1) (Z.to_nat (n - _rrnum h1)) q = Ok (inr q')) as H1.
    { replace (Z.to_nat n) with (Z.to_nat (_rrnum h1) + Z.to_nat (n - _rrnum h1))%nat in Hq' by lia. rewrite skiprr_loop_add, Hskip in Hq'. done. }
    pose proof (skiprr_loop_mono _ _ _ _ _ H1). unfold ns_skiprr. rewrite H1. cbn [obind]. rewrite (proj2 (Nat.ltb_ge _ _)) by lia. replace (q + (q' - q))%nat with q' by lia.
    set (h1' := with_rrnum (with_ptr h1 q') n). assert (placed h1').
    { right. cbn. split; [done|]. exists c, (Some p). split_and!; [done|done|lia|lia|]. intros ? [= <-]. by exists q'. }
    destruct (parse_rr_placed h1' c p) as (q2 & h2 & Hpl & Hs2 & Hp2 & Hsect2 & Hrr2 & Heq); try (done || lia).
    exists q2, h1', h2. split; [exact Hpl|]. split_and!; try done. by apply (same_message_trans h h1').
  - assert (n = _rrnum h1) as -> by lia. destruct (parse_rr_placed h1 c p) as (q2 & h2 & Hpl & Hs2 & Hp2 & Hsect2 & Hrr2 & Heq); try (done || lia).
    exists q2, h1, h2. split; [exact Hpl|]. split_and!; try done. by apply (same_message_trans h h1).
Qed.

(** The number -1 stands for the next record. *)
Lemma parserr_next h section : framed h -> placed h -> 0 <= section < ns_s_max ->
  parserr expand h section (-1) = parserr expand h section (if section =? _sect h then _rrnum h else 0).
Proof using.
  intros Hf Hp Hr. unfold parserr. rewrite (proj2 (Z.ltb_ge section 0)), (proj2 (Z.leb_gt _ section)) by lia. cbn [orb].
  destruct (to_section h section Hf Hp Hr) as (h' & -> & _ & Hsect & Hp' & <-). cbn [obind]. destruct Hp' as [[? _]|(_ & c' & s & _ & _ & Hrr & _)]; [lia|].
  by rewrite (proj2 (Z.eqb_neq (_rrnum h') (-1))) by lia.
Qed.

Lemma parserr_keeps h section n h' r : framed h -> placed h -> parserr expand h section n = Ok (h', r) -> same_message h h' /\ placed h'.
Proof using expand_skip.
  intros Hf Hp H. destruct (decide (0 <= section < ns_s_max)) as [Hr|Hr].
  2: { unfold parserr in H. replace ((section <? 0) || (ns_s_max <=? section)) with true in H by lia. by injection H as <- <-. }
  assert (forall n, 0 <= n -> parserr expand h section n = Ok (h', r) -> same_message h h' /\ placed h') as Hpos.
  { clear n H. intros n Hn H. destruct (parserr_place h section n Hf Hp Hr Hn) as (c & _ & Hc). destruct (c <=? n).
    - destruct Hc as (h1 & E & Hs & Hp1). rewrite E in H. injection H as <- _. done.
    - destruct Hc as (q & h1 & h2 & _ & Hs1 & Hp1 & Hs2 & Hp2 & _ & _ & E). rewrite E in H. obind_inv H. injection H as <- _. by destruct x. }
  destruct (decide (0 <= n)) as [Hn|Hn]; [by apply (Hpos n)|]. destruct (decide (n = -1)) as [->|Hn1].
  - rewrite parserr_next in H by done. eapply Hpos; [|done]. destruct (Z.eqb_spec section (_sect h)); [|lia]. destruct Hp as [[? _]|(_ & c' & s & _ & _ & Hrr & _)]; lia.
  - unfold parserr in H. replace ((section <? 0) || (ns_s_max <=? section)) with false in H by lia. destruct (to_section h section Hf Hp Hr) as (h1 & E & Hs & _ & Hp1 & _).
    rewrite E in H. cbn [obind] in H. rewrite (proj2 (Z.eqb_neq n (-1))) in H by done. obind_inv H. rewrite (proj2 (Z.ltb_lt n 0)) in H by lia. by injection H as <- _.
Qed.

(** What a handle of the message gives for a record does not depend on where it is. *)
Lemma parserr_same h h' section n : framed h -> placed h -> placed h' -> same_message h h' -> n <> -1 ->
  omap_ok snd (parserr expand h' section n) = omap_ok snd (parserr expand h section n).
Proof using expand_skip.
  intros Hf Hp Hp' Hsame Hn1. pose proof (same_framed _ _ Hsame Hf) as Hf'. destruct (decide (0 <= section < ns_s_max)) as [Hr|Hr].
  2: { unfold parserr. by replace ((section <? 0) || (ns_s_max <=? section)) with true by lia. }
  destruct (decide (0 <= n)) as [Hn|Hn].
  - destruct (parserr_place h section n Hf Hp Hr Hn) as (c & Hc & H), (parserr_place h' section n Hf' Hp' Hr Hn) as (c' & Hc' & H').
    pose proof Hsame as (E1 & E2 & E3). assert (c' = c) as -> by congruence. destruct (c <=? n).
    + destruct H as (? & -> & _), H' as (? & -> & _). done.
    + destruct H as (q & h1 & h2 & (p & Hs & Hq) & _ & _ & _ & _ & _ & _ & ->), H' as (q' & h1' & h2' & (p' & Hs' & Hq') & _ & _ & _ & _ & _ & _ & ->).
      rewrite E1, E3 in *. assert (p' = p) as -> by congruence. assert (q' = q) as -> by congruence. by destruct (rr_at _ _ _).
  - unfold parserr. rewrite (proj2 (Z.ltb_ge section 0)), (proj2 (Z.leb_gt _ section)) by lia. cbn [orb].
    destruct (to_section h section Hf Hp Hr) as (h1 & -> & (_ & E & _) & _ & _ & _), (to_section h' section Hf' Hp' Hr) as (h2 & -> & (_ & E' & _) & _ & _ & _). cbn [obind].
    pose proof Hsame as (_ & E2 & _). rewrite <-E, <-E', E2, (proj2 (Z.eqb_neq n (-1))) by done. destruct (at_ _ _); cbn [obind]; [|done..]. by rewrite (proj2 (Z.ltb_lt n 0)) by lia.
Qed.

(** A record that was read: the handle is at the next one, and its data is in the message. *)
Lemma parserr_read h section n h' rr : framed h -> placed h -> n <> -1 -> parserr expand h section n = Ok (h', inr rr) ->
  0 <= section < ns_s_max /\ 0 <= n /\ _sect h' = section /\ _rrnum h' = n + 1 /\ 0 <= ttl rr /\
  forall p, rdata rr = Some p -> (p + Z.to_nat (rdlength rr) <= length (_msg h))%nat.
Proof using expand_skip.
  intros Hf Hp Hn1 H. destruct (decide (0 <= section < ns_s_max)) as [Hr|Hr].
  2: { unfold parserr in H. by replace ((section <? 0) || (ns_s_max <=? section)) with true in H by lia. }
  destruct (decide (0 <= n)) as [Hn|Hn].
  2: { unfold parserr in H. rewrite (proj2 (Z.ltb_ge section 0)), (proj2 (Z.leb_gt _ section)) in H by lia. cbn [orb] in H. obind_inv H. rewrite (proj2 (Z.eqb_neq n (-1))) in H by done.
       obind_inv H. by rewrite (proj2 (Z.ltb_lt n 0)) in H by lia. }
  split; [done|]. split; [done|]. destruct (parserr_place h section n Hf Hp Hr Hn) as (c & Hc & H'). destruct (Z.leb_spec c n); [destruct H' as (? & E & _); congruence|].
  destruct H' as (q & h1 & h2 & (p & Hs & Hq) & _ & _ & _ & _ & Hse & Hrr & E). rewrite E in H. obind_inv H. destruct x as [|x]; [done|]. injection H as <- ->. split; [done|]. split; [done|]. destruct Hf as (Hb & _ & _ & Hsec). split.
  { unfold rr_at in E0. obind_inv E0. destruct x as [|[b nm]]; [done|]. obind_inv E0. obind_inv E0. destruct (section =? ns_s_qd); [by injection E0 as <-|].
    obind_inv E0. obind_inv E0. injection E0 as <-. by apply (get32_pos (_msg h) (q + b + 4)). }
  intros p' Hp'. destruct (Hsec section c) as [_ (p1 & e & Hs1 & He & Hlen)]; [lia|done|lia|]. assert (p1 = p) as -> by congruence.
  destruct (skiprr_prefix (_msg h) section (Z.to_nat n + 1) (Z.to_nat c) p e) as (q' & Hq' & _ & Hqe); [lia|done|]. rewrite skiprr_loop_add, Hq in Hq'. cbn [obind skiprr_loop] in Hq'.
  unfold rr_at in E0. obind_inv E0. destruct x as [|[b nm]]; [done|]. apply expand_skip in E1; [|done]. rewrite E1 in Hq'. cbn [obind] in Hq'. obind_inv E0. obind_inv E0.
  destruct (section =? ns_s_qd); [by injection E0 as <-|]. obind_inv E0. obind_inv E0. injection E0 as <-. injection Hp' as <-. cbn.
  destruct (_ <? _)%nat; [done|]. replace (q + b + 2 + 2 + 4)%nat with (q + b + 8)%nat in Hq' by lia. rewrite E5 in Hq'. cbn [obind] in Hq'. injection Hq' as <-. lia.
Qed.

(** ** Sequences of calls *)

(** The handle after some calls. *)
Fixpoint after (h : ns_msg) (calls : list (Z * Z)) : result ns_msg :=
  match calls with
  | [] => Ok h
  | (section, n) :: calls => r <-- parserr expand h section n ;; after r.1 calls
  end.

Lemma after_keeps calls : forall h h', framed h -> placed h -> after h calls = Ok h' -> same_message h h' /\ placed h'.
Proof using expand_skip.
  induction calls as [|[section n] calls IH]; intros h h' Hf Hp H; cbn [after] in H; [by injection H as <-|]. obind_inv H. destruct x as [h1 r].
  destruct (parserr_keeps h section n h1 r Hf Hp E) as [Hs Hp1]. destruct (IH h1 h' (same_framed _ _ Hs Hf) Hp1 H) as [Hs' Hp']. split; [by apply (same_message_trans h h1)|done].
Qed.

Lemma after_spec h0 calls h section n : framed h0 -> placed h0 -> after h0 calls = Ok h -> n <> -1 ->
  omap_ok snd (parserr expand h section n) = omap_ok snd (parserr expand h0 section n) /\
  forall h' rr, parserr expand h section n = Ok (h', inr rr) ->
    omap_ok snd (parserr expand h' section (-1)) = omap_ok snd (parserr expand h0 section (n + 1)) /\
    forall p, rdata rr = Some p -> (p + Z.to_nat (rdlength rr) <= length (_msg h0))%nat.
Proof using expand_skip.
  intros Hf Hp Ha Hn. destruct (after_keeps calls h0 h Hf Hp Ha) as [Hs Hp']. pose proof (same_framed _ _ Hs Hf) as Hf'. split; [by apply parserr_same|]. intros h' rr H.
  destruct (parserr_read h section n h' rr Hf' Hp' Hn H) as (Hr & Hn0 & Hsect & Hrr & _ & Hdata). destruct (parserr_keeps h section n h' _ Hf' Hp' H) as [Hs2 Hp2].
  pose proof (same_message_trans _ _ _ Hs Hs2) as Hs3. split; [|pose proof Hs as (-> & _); exact Hdata].
  rewrite (parserr_next h' section) by (done || by apply (same_framed h0)). rewrite Hsect, Z.eqb_refl, Hrr. apply parserr_same; [done..|lia].
Qed.
End random_access.

(** * The sections of a message *)

Lemma read_counts_spec msg : Forall is_byte msg -> forall n p cs e, read_counts msg p n = Ok (inr (cs, e)) -> length cs = n /\ Forall (fun c => 0 <= c) cs.
Proof.
  intros Hb. induction n as [|n IH]; intros p cs e H; cbn [read_counts] in H; [by injection H as <- <-|]. destruct (_ <? _)%nat; [done|]. obind_inv H. obind_inv H.
  destruct x0 as [|[cs' e']]; [done|]. injection H as <- <-. destruct (IH _ _ _ E0) as [Hl Hc]. split; [simpl; lia|]. constructor; [by apply (get16_pos msg p)|done].
Qed.

Lemma find_sections_spec msg counts : Forall (fun c => 0 <= c) counts -> forall p i ss e, find_sections msg p i counts = Ok (inr (ss, e)) -> length ss = length counts /\
  forall k c, counts !! k = Some c -> c <> 0 -> exists q f, ss !! k = Some (Some q) /\ skiprr_loop msg (i + Z.of_nat k) (Z.to_nat c) q = Ok (inr f) /\ (f <= length msg)%nat.
Proof.
  induction 1 as [|c counts Hc Hcs IH]; intros p i ss e H; cbn [find_sections] in H; [by injection H as <- <-|]. destruct (Z.eqb_spec c 0) as [->|Hc0].
  - obind_inv H. destruct x as [|[ss' e']]; [done|]. injection H as <- <-. destruct (IH _ _ _ _ E) as [Hl Hk]. split; [simpl; lia|]. intros [|k] c' Hc' H0; [simpl in Hc'; congruence|].
    destruct (Hk k c' Hc' H0) as (q & f & Hq & Hf & Hle). exists q, f. split; [done|]. split; [|done]. by replace (i + Z.of_nat (S k)) with (i + 1 + Z.of_nat k) by lia.
  - obind_inv H. destruct x as [|b]; [done|]. obind_inv H. destruct x as [|[ss' e']]; [done|]. injection H as <- <-. destruct (IH _ _ _ _ E0) as [Hl Hk]. split; [simpl; lia|].
    intros [|k] c' Hc' H0; simpl in Hc'.
    + injection Hc' as <-. unfold ns_skiprr in E. obind_inv E. destruct x as [|f]; [done|]. exists p, f. rewrite Z.add_0_r. destruct (Nat.ltb_spec (length msg) f); [done|]. done.
    + destruct (Hk k c' Hc' H0) as (q & f & Hq & Hf & Hle). exists q, f. split; [done|]. split; [|done]. by replace (i + Z.of_nat (S k)) with (i + 1 + Z.of_nat k) by lia.
Qed.

Lemma initparse_framed msg h : Forall is_byte msg -> ns_initparse msg = Ok (inr h) -> framed h /\ placed h /\ _msg h = msg.
Proof.
  intros Hb H. unfold ns_initparse in H. destruct (_ <? _)%nat; [done|]. obind_inv H. destruct (_ <? _)%nat; [done|]. obind_inv H. obind_inv H. destruct x1 as [|[counts p]]; [done|].
  obind_inv H. destruct x1 as [|[ss e]]; [done|]. destruct (negb _); [done|]. cbn [setsection Z.eqb Pos.eqb obind] in H. injection H as <-.
  apply read_counts_spec in E1 as [Hl Hc]; [|done]. destruct (find_sections_spec _ _ Hc _ _ _ _ E2) as [Hl2 Hs]. split; [|split; [by left|done]]. split; [done|]. split; [done|].
  split; [cbn; lia|]. intros i c Hi Hic. cbn in *. split; [by apply (proj1 (Forall_lookup _ _) Hc _ _ Hic)|]. intros H0.
  destruct (Hs _ _ Hic H0) as (q & f & Hq & Hf & Hle). exists q, f. rewrite Z2Nat.id in Hf by done. done.
Qed.

Lemma unpack_skip msg p dstsiz b nm : Forall is_byte msg -> ns_name_unpack2 msg (Z.of_nat p) dstsiz = Ok (inr (b, nm)) -> dn_skipname msg p = Ok (inr b).
Proof. intros Hb H. apply skip_agrees in H; [|done]. rewrite Nat2Z.id in H. unfold dn_skipname. rewrite H. cbn [obind]. do 2 f_equal. lia. Qed.

Lemma dn_expand_skip msg p dstsiz b nm : Forall is_byte msg -> dn_expand msg p dstsiz = Ok (inr (b, nm)) -> dn_skipname msg p = Ok (inr b).
Proof.
  intros Hb H. unfold dn_expand, ns_name_uncompress in H. destruct (ns_name_unpack2 msg (Z.of_nat p) NS_MAXCDNAME) as [[e|[n tmp]]| |] eqn:E; cbn [obind] in H; [done| |done..].
  destruct (ns_name_ntop tmp dstsiz) as [[e|[m text]]| |]; cbn [obind] in H; [done| |done..]. apply (unpack_skip msg p NS_MAXCDNAME b tmp Hb). rewrite E.
  destruct (0 <? n)%nat; [obind_inv H|]; by injection H as <- _.
Qed.

(** The two functions that read records, with the way they read names. *)
Definition reads (one : ns_msg -> Z -> Z -> result (ns_msg * (Z + ns_rr))) (expand : list Z -> nat -> result (Z + nat * list Z)) : Prop :=
  (one = ns_parserr /\ expand = fun msg p => dn_expand msg p NS_MAXDNAME) \/
  (one = ns_parserr2 /\ expand = fun msg p => ns_name_unpack2 msg (Z.of_nat p) NS_MAXNNAME).

(** C11: For any bytes that ns_initparse accepts as a message, the records can be read in any order: whatever calls of ns_parserr,
    or of ns_parserr2, came before, failed ones included, a call gives the record, or the error, that it gives as the first
    call; -1 then stands for the record behind the one that was read; and the data of a record is inside the message. *)
Theorem parserr_any_order msg h0 calls h one expand section n :
  Forall is_byte msg -> ns_initparse msg = Ok (inr h0) -> reads one expand -> after expand h0 calls = Ok h -> n <> -1 ->
  omap_ok snd (one h section n) = omap_ok snd (one h0 section n) /\
  forall h' rr, one h section n = Ok (h', inr rr) ->
    omap_ok snd (one h' section (-1)) = omap_ok snd (one h0 section (n + 1)) /\
    forall p, rdata rr = Some p -> (p + Z.to_nat (rdlength rr) <= length msg)%nat.
Proof.
  intros Hb Hi Hone Ha Hn. destruct (initparse_framed msg h0 Hb Hi) as (Hf & Hp & <-).
  destruct Hone as [[-> ->]|[-> ->]]; unfold ns_parserr, ns_parserr2; (eapply after_spec; [|done..]); cbv beta; intros; [by eapply dn_expand_skip|by eapply unpack_skip].
Qed.

(** A question, two answers and a SOA record. *)
Definition ex_message : list Z :=
  [0; 7; 0x81; 0x80; 0; 1; 0; 2; 0; 1; 0; 0] ++ [1; 97; 0; 0; 1; 0; 1] ++
  [0xc0; 12; 0; 1; 0; 1; 0; 0; 1; 44; 0; 4; 10; 0; 0; 1] ++ [0xc0; 12; 0; 1; 0; 1; 0; 0; 0; 60; 0; 4; 10; 0; 0; 2] ++
  [0; 0; 6; 0; 1; 0; 0; 2; 0; 0; 22; 0; 0] ++ replicate 18 0 ++ [14; 16].

Lemma ex_message_bytes : Forall is_byte ex_message.
Proof. unfold ex_message, is_byte. simpl. repeat (constructor; [lia|]). constructor. Qed.

Definition ex_handle : ns_msg := Handle ex_message 7 0x8180 [1; 2; 1; 0] [Some 12; Some 19; Some 51; None]%nat ns_s_max (-1) None.

Lemma parserr_any_order_witness : exists h, after (fun msg p => dn_expand msg p NS_MAXDNAME) ex_handle [(1, 0); (7, 0); (2, 0); (1, 1); (1, -1)] = Ok h /\
  omap_ok snd (ns_parserr h 1 0) = omap_ok snd (ns_parserr ex_handle 1 0).
Proof.
  assert (exists h, after (fun msg p => dn_expand msg p NS_MAXDNAME) ex_handle [(1, 0); (7, 0); (2, 0); (1, 1); (1, -1)] = Ok h) as [h E].
  { eexists. vm_compute. reflexivity. }
  exists h. split; [exact E|]. refine (proj1 (parserr_any_order ex_message ex_handle _ h ns_parserr _ 1 0 ex_message_bytes _ (or_introl (conj eq_refl eq_refl)) E _)); [|lia].
  vm_compute. reflexivity.
Defined.

(** The time to live is that of the second answer. *)
Example ex_ttl : answer_getTTL ex_message = Ok 60.
Proof. vm_compute. reflexivity. Qed.

(** * The time to live *)

(** The record with a number. *)
Definition record (h : ns_msg) (section n : Z) : result (Z + ns_rr) := omap_ok snd (ns_parserr h section n).

Section ttl.
Context (h0 : ns_msg) (Hf : framed h0) (Hp : placed h0) (section c : Z).
Context (Htot : forall n, 0 <= n < c -> exists r, record h0 section n = Ok r).

Lemma record_step h n : same_message h0 h -> placed h -> 0 <= n < c -> exists h' r, ns_parserr h section n = Ok (h', r) /\ record h0 section n = Ok r /\ same_message h0 h' /\ placed h'.
Proof using Hf Hp Htot.
  intros Hs Hph Hn. destruct (Htot n Hn) as [r Hr]. pose proof Hr as E. unfold record, ns_parserr in E.
  rewrite <-(parserr_same (fun msg p => dn_expand msg p NS_MAXDNAME) (fun msg p => dn_expand_skip msg p _) h0 h section n Hf Hp Hph Hs) in E by lia.
  change (omap_ok snd (ns_parserr h section n) = Ok r) in E. destruct (ns_parserr h section n) as [[h' r']| |] eqn:E'; cbn in E; [|done..]. injection E as ->.
  exists h', r. destruct (parserr_keeps _ (fun msg p => dn_expand_skip msg p _) h section n h' r (same_framed _ _ Hs Hf) Hph E') as [Hs' Hp']. split_and!; [done|done|by apply (same_message_trans h0 h)|done].
Qed.

Lemma record_ttl n rr : 0 <= n -> record h0 section n = Ok (inr rr) -> 0 <= ttl rr.
Proof using Hf Hp.
  intros Hn H. unfold record in H. destruct (ns_parserr h0 section n) as [[h' r]| |] eqn:E; cbn in H; [|done..]. injection H as ->.
  by destruct (parserr_read _ (fun msg p => dn_expand_skip msg p _) h0 section n h' rr Hf Hp ltac:(lia) E) as (_ & _ & _ & _ & ? & _).
Qed.

(** The loop takes the lowest time to live of the records that are left. *)
Lemma ttl_loop_spec count : forall h n res, same_message h0 h -> placed h -> 1 <= n -> n + Z.of_nat count <= c ->
  exists t, ttl_loop (fun rr => Ok (Some (ttl rr))) h section n count res = Ok t /\ t <= res /\
    (t = res \/ exists k rr, n <= k < n + Z.of_nat count /\ record h0 section k = Ok (inr rr) /\ ttl rr = t) /\
    forall k rr, n <= k < n + Z.of_nat count -> record h0 section k = Ok (inr rr) -> t <= ttl rr.
Proof using Hf Hp Htot.
  induction count as [|count IH]; intros h n res Hs Hph Hn Hc; cbn [ttl_loop]; [exists res; split_and!; [done|lia|by left|lia]|].
  destruct (record_step h n Hs Hph) as (h' & r & -> & Hr & Hs' & Hp'); [lia|]. cbn [obind]. rewrite (proj2 (Z.eqb_neq n 0)) by lia. cbn [orb].
  assert (forall k, n <= k < n + Z.of_nat (S count) -> k = n \/ n + 1 <= k < n + 1 + Z.of_nat count) as Hk by lia. destruct r as [e|rr]; cbn [obind].
  - destruct (IH h' (n + 1) res Hs' Hp') as (t & -> & Hle & Hor & Hall); [lia|lia|]. exists t. split_and!; [done|done| |].
    + destruct Hor as [?|(k & rr & ? & ? & ?)]; [by left|]. right. exists k, rr. split_and!; [lia|lia|done|done].
    + intros k rr [->|?]%Hk Hrr; [congruence|by apply (Hall k)].
  - destruct (IH h' (n + 1) (if ttl rr <? res then ttl rr else res) Hs' Hp') as (t & -> & Hle & Hor & Hall); [lia|lia|].
    exists t. destruct (Z.ltb_spec (ttl rr) res); (split_and!; [done|lia| |]).
    + right. destruct Hor as [->|(k & rr' & ? & ? & ?)]; [exists n, rr|exists k, rr']; split_and!; done || lia.
    + intros k rr' [->|?]%Hk Hrr; [assert (rr' = rr) as -> by congruence; lia|by apply (Hall k)].
    + destruct Hor as [?|(k & rr' & ? & ? & ?)]; [by left|]. right. exists k, rr'. split_and!; done || lia.
    + intros k rr' [->|?]%Hk Hrr; [assert (rr' = rr) as -> by congruence; lia|by apply (Hall k)].
Qed.
End ttl.

(** An answer with records is kept as long as the record of it with the lowest time to live, and not at all if the first
    record cannot be read; a record behind it that cannot be read does not count. *)
Theorem getTTL_lowest msg h c :
  Forall is_byte msg -> ns_initparse msg = Ok (inr h) -> _counts h !! Z.to_nat ns_s_an = Some c -> 0 < c ->
  (forall n, 0 <= n < c -> exists r, record h ns_s_an n = Ok r) ->
  exists t, answer_getTTL msg = Ok t /\
    ((exists e, record h ns_s_an 0 = Ok (inl e)) /\ t = 0 \/
     (exists n rr, 0 <= n < c /\ record h ns_s_an n = Ok (inr rr) /\ ttl rr = t) /\
     forall n rr, 0 <= n < c -> record h ns_s_an n = Ok (inr rr) -> t <= ttl rr).
Proof.
  intros Hb Hi Hc Hpos Htot. destruct (initparse_framed msg h Hb Hi) as (Hf & Hp & _). unfold answer_getTTL. rewrite Hi. cbn [obind].
  rewrite (at_Some _ _ _ Hc). cbn [obind]. rewrite (proj2 (Z.eqb_neq c 0)) by lia. replace (Z.to_nat c) with (S (Z.to_nat (c - 1))) by lia. cbn [ttl_loop].
  destruct (record_step h Hf Hp ns_s_an c Htot h 0) as (h' & r & -> & Hr & Hs' & Hp'); [done|done|lia|]. cbn [obind orb Z.eqb].
  destruct r as [e|rr]; cbn [obind].
  - destruct (ttl_loop_spec h Hf Hp ns_s_an c Htot (Z.to_nat (c - 1)) h' (0 + 1) 0 Hs' Hp') as (t & -> & Hle & Hor & _); [lia|lia|].
    exists t. split; [done|]. left. split; [by exists e|]. destruct Hor as [?|(k & rr & ? & Hrr & <-)]; [done|]. apply (record_ttl h Hf Hp) in Hrr; lia.
  - destruct (ttl_loop_spec h Hf Hp ns_s_an c Htot (Z.to_nat (c - 1)) h' (0 + 1) (ttl rr) Hs' Hp') as (t & -> & Hle & Hor & Hall); [lia|lia|].
    exists t. split; [done|]. right. split.
    + destruct Hor as [->|(k & rr' & ? & ? & ?)]; [exists 0, rr|exists k, rr']; split_and!; done || lia.
    + intros n rr' Hn Hrr. destruct (decide (n = 0)) as [->|]; [assert (rr' = rr) as -> by congruence; lia|apply (Hall n); [lia|done]].
Qed.

Lemma getTTL_lowest_witness : exists t, answer_getTTL ex_message = Ok t /\
    ((exists e, record ex_handle ns_s_an 0 = Ok (inl e)) /\ t = 0 \/
     (exists n rr, 0 <= n < 2 /\ record ex_handle ns_s_an n = Ok (inr rr) /\ ttl rr = t) /\
     forall n rr, 0 <= n < 2 -> record ex_handle ns_s_an n = Ok (inr rr) -> t <= ttl rr).
Proof.
  apply (getTTL_lowest ex_message ex_handle 2); [exact ex_message_bytes|vm_compute; reflexivity|reflexivity|lia|].
  intros n Hn. assert (n = 0 \/ n = 1) as [->| ->] by lia; eexists; vm_compute; reflexivity.
Defined.

(** A negative answer is kept as long as its SOA record says, but only if that is the first record of its section: of two
    answers that have the same records in another order one is not kept. *)
Definition ex_negative (records : list (list Z)) : list Z :=
  [0; 7; 0x81; 0x83; 0; 0; 0; 0; 0; 2; 0; 0] ++ concat records.

Definition ex_soa : list Z := [0; 0; 6; 0; 1; 0; 0; 2; 0; 0; 22; 0; 0] ++ replicate 18 0 ++ [1; 44].
Definition ex_ns : list Z := [0; 0; 2; 0; 1; 0; 0; 2; 0; 0; 1; 0].

Example ex_negative_ttl : answer_getTTL (ex_negative [ex_soa; ex_ns]) = Ok 300 /\ answer_getTTL (ex_negative [ex_ns; ex_soa]) = Ok 0.
Proof. split; vm_compute; reflexivity. Qed.
