(* ===== verification/DnsPacket.v ===== *)
(** Queries as keys of the cache of the resolver: the packets of libc/dns/resolv/res_cache.c.

    A packet is the list of its bytes; the cursor is a place in it.  The functions that check a query, hash it and
    compare two of them read the bytes from the cursor on. *)

From S2P Require Import Prelude Result NsName.

(** * Definitions *)

Abbreviation DNS_HEADER_SIZE := 12%nat.

(** The strings DNS_TYPE_A, DNS_TYPE_PTR, DNS_TYPE_MX, DNS_TYPE_AAAA, DNS_TYPE_ALL and DNS_CLASS_IN.  An octal escape has
    at most three digits: "\0377" is the byte 037 and the digit 7. *)
Abbreviation DNS_TYPE_A := [0; 1].
Abbreviation DNS_TYPE_PTR := [0; 12].
Abbreviation DNS_TYPE_MX := [0; 15].
Abbreviation DNS_TYPE_AAAA := [0; 28].
Abbreviation DNS_TYPE_ALL := [0; 31; 55].
Abbreviation DNS_CLASS_IN := [0; 1].

Abbreviation FNV_MULT := 16777619.
Abbreviation FNV_BASIS := 2166136261.

Definition _dnsPacket_skip (q : list Z) (cursor count : nat) : nat := Nat.min (cursor + count) (length q).

(** The number, or -1, and the cursor. *)
Definition _dnsPacket_readInt16 (q : list Z) (p : nat) : result (Z * nat) :=
  if (length q <? p + 2)%nat then Ok (-1, p) else
  a <-- at_ q p ;;
  b <-- at_ q (p + 1) ;;
  Ok (Z.lor (Z.shiftl a 8) b, (p + 2)%nat).

(** ** Checking: the cursor on success *)

Definition _dnsPacket_checkBytes (q : list Z) (p numBytes : nat) (bytes : list Z) : result (option nat) :=
  if (length q <? p + numBytes)%nat then Ok None else
  bs <-- bytes_at q p numBytes ;;
  if bool_decide (bs = take numBytes bytes) then Ok (Some (p + numBytes)%nat) else Ok None.

Fixpoint check_qname_loop (fuel : nat) (q : list Z) (p : nat) : result (option nat) :=
  match fuel with
  | O => Fault
  | S fuel =>
      if (length q <=? p)%nat then Ok None else
      c <-- at_ q p ;;
      if c =? 0 then Ok (Some (p + 1)%nat) else
      if 64 <=? c then Ok None else check_qname_loop fuel q (p + 1 + Z.to_nat c)
  end.

Definition _dnsPacket_checkQName (q : list Z) (cursor : nat) : result (option nat) := check_qname_loop (length q + 1) q cursor.

(** The first of several strings that is at the cursor. *)
Fixpoint check_any (q : list Z) (p : nat) (types : list (list Z)) : result (option nat) :=
  match types with
  | [] => Ok None
  | t :: types =>
      r <-- _dnsPacket_checkBytes q p 2 t ;;
      match r with Some p => Ok (Some p) | None => check_any q p types end
  end.

Definition _dnsPacket_checkQR (q : list Z) (cursor : nat) : result (option nat) :=
  r <-- _dnsPacket_checkQName q cursor ;;
  match r with
  | None => Ok None
  | Some p =>
      r <-- check_any q p [DNS_TYPE_A; DNS_TYPE_PTR; DNS_TYPE_MX; DNS_TYPE_AAAA; DNS_TYPE_ALL] ;;
      match r with
      | None => Ok None
      | Some p => _dnsPacket_checkBytes q p 2 DNS_CLASS_IN
      end
  end.

Fixpoint check_qrs (count : nat) (q : list Z) (p : nat) : result bool :=
  match count with
  | O => Ok true
  | S count =>
      r <-- _dnsPacket_checkQR q p ;;
      match r with None => Ok false | Some p => check_qrs count q p end
  end.

(** A number of the header. *)
Definition header_count (q : list Z) (i : nat) : result Z :=
  a <-- at_ q i ;;
  b <-- at_ q (i + 1) ;;
  Ok (Z.lor (Z.shiftl a 8) b).

Definition _dnsPacket_checkQuery (q : list Z) : result bool :=
  if (length q <? DNS_HEADER_SIZE)%nat then Ok false else
  p2 <-- at_ q 2 ;;
  p3 <-- at_ q 3 ;;
  if negb (Z.land p2 0xFC =? 0) || negb (Z.land p3 0xCF =? 0) then Ok false else
  qdCount <-- header_count q 4 ;;
  anCount <-- header_count q 6 ;;
  dnCount <-- header_count q 8 ;;
  arCount <-- header_count q 10 ;;
  if negb (anCount =? 0) || negb (dnCount =? 0) || (1 <? arCount) then Ok false else
  if qdCount =? 0 then Ok false else
  check_qrs (Z.to_nat qdCount) q DNS_HEADER_SIZE.

(** ** Hashing *)

Definition fnv (hash b : Z) : Z := Z.lxor (wrapU 32 (hash * FNV_MULT)) b.

(** The loop does not count: it runs to the end of the packet if there is a byte to hash at all. *)
Definition _dnsPacket_hashBytes (q : list Z) (cursor : nat) (numBytes hash : Z) : Z * nat :=
  if 0 <? numBytes then (fold_left fnv (drop cursor q) hash, Nat.max cursor (length q)) else (hash, cursor).

Fixpoint hash_qname_loop (fuel : nat) (q : list Z) (p : nat) (hash : Z) : result (Z * nat) :=
  match fuel with
  | O => Fault
  | S fuel =>
      if (length q <=? p)%nat then Ok (hash, p) else
      c <-- at_ q p ;;
      let p := (p + 1)%nat in
      if c =? 0 then Ok (hash, p) else
      if 64 <=? c then Ok (hash, p) else
      if (length q <=? p + Z.to_nat c)%nat then Ok (hash, p) else
      bs <-- bytes_at q p (Z.to_nat c) ;;
      hash_qname_loop fuel q (p + Z.to_nat c) (fold_left fnv bs hash)
  end.

Definition _dnsPacket_hashQName (q : list Z) (cursor : nat) (hash : Z) : result (Z * nat) := hash_qname_loop (length q + 1) q cursor hash.

Definition _dnsPacket_hashQR (q : list Z) (cursor : nat) (hash : Z) : result (Z * nat) :=
  r <-- _dnsPacket_hashQName q cursor hash ;;
  let '(hash, p) := r in
  Ok (_dnsPacket_hashBytes q p 4 hash).

Definition _dnsPacket_hashRR (q : list Z) (cursor : nat) (hash : Z) : result (Z * nat) :=
  r <-- _dnsPacket_hashQR q cursor hash ;;
  let '(hash, p) := r in
  let '(hash, p) := _dnsPacket_hashBytes q p 4 hash in
  r <-- _dnsPacket_readInt16 q p ;;
  let '(rdlength, p) := r in
  Ok (_dnsPacket_hashBytes q p rdlength hash).

Fixpoint hash_times (one : list Z -> nat -> Z -> result (Z * nat)) (count : nat) (q : list Z) (p : nat) (hash : Z) : result (Z * nat) :=
  match count with
  | O => Ok (hash, p)
  | S count =>
      r <-- one q p hash ;;
      let '(hash, p) := r in
      hash_times one count q p hash
  end.

Definition _dnsPacket_hashQuery (q : list Z) : result Z :=
  let p := _dnsPacket_skip q 0 2 in
  b <-- at_ q 2 ;;
  let hash := fnv FNV_BASIS (Z.land b 1) in
  let p := _dnsPacket_skip q p 1 in
  let '(hash, p) := _dnsPacket_hashBytes q p 1 hash in
  r <-- _dnsPacket_readInt16 q p ;;
  let '(count, p) := r in
  let p := _dnsPacket_skip q p 4 in
  r <-- _dnsPacket_readInt16 q p ;;
  let '(arcount, p) := r in
  r <-- hash_times _dnsPacket_hashQR (Z.to_nat count) q p hash ;;
  let '(hash, p) := r in
  r <-- hash_times _dnsPacket_hashRR (Z.to_nat arcount) q p hash ;;
  Ok r.1.

(** ** Comparing: the cursors if they are equal *)

Fixpoint equal_name_loop (fuel : nat) (q1 q2 : list Z) (p1 p2 : nat) : result (option (nat * nat)) :=
  match fuel with
  | O => Fault
  | S fuel =>
      if (length q1 <=? p1)%nat || (length q2 <=? p2)%nat then Ok None else
      c1 <-- at_ q1 p1 ;;
      c2 <-- at_ q2 p2 ;;
      if negb (c1 =? c2) then Ok None else
      let p1 := (p1 + 1)%nat in
      let p2 := (p2 + 1)%nat in
      if c1 =? 0 then Ok (Some (p1, p2)) else
      if 64 <=? c1 then Ok None else
      let n := Z.to_nat c1 in
      if (length q1 <? p1 + n)%nat || (length q2 <? p2 + n)%nat then Ok None else
      b1 <-- bytes_at q1 p1 n ;;
      b2 <-- bytes_at q2 p2 n ;;
      if bool_decide (b1 = b2) then equal_name_loop fuel q1 q2 (p1 + n) (p2 + n) else Ok None
  end.

Definition _dnsPacket_isEqualDomainName (q1 q2 : list Z) (p1 p2 : nat) : result (option (nat * nat)) :=
  equal_name_loop (length q1 + 1) q1 q2 p1 p2.

(** A negative number of bytes is refused by memcmp, whose argument is then huge. *)
Definition _dnsPacket_isEqualBytes (q1 q2 : list Z) (p1 p2 : nat) (numBytes : Z) : result (option (nat * nat)) :=
  if (Z.of_nat (length q1) <? Z.of_nat p1 + numBytes) || (Z.of_nat (length q2) <? Z.of_nat p2 + numBytes) then Ok None else
  if numBytes <? 0 then Fault else
  b1 <-- bytes_at q1 p1 (Z.to_nat numBytes) ;;
  b2 <-- bytes_at q2 p2 (Z.to_nat numBytes) ;;
  if bool_decide (b1 = b2) then Ok (Some (p1 + Z.to_nat numBytes, p2 + Z.to_nat numBytes)%nat) else Ok None.

Definition _dnsPacket_isEqualQR (q1 q2 : list Z) (p1 p2 : nat) : result (option (nat * nat)) :=
  r <-- _dnsPacket_isEqualDomainName q1 q2 p1 p2 ;;
  match r with
  | None => Ok None
  | Some (p1, p2) => _dnsPacket_isEqualBytes q1 q2 p1 p2 4
  end.

Definition _dnsPacket_isEqualRR (q1 q2 : list Z) (p1 p2 : nat) : result (option (nat * nat)) :=
  r <-- _dnsPacket_isEqualQR q1 q2 p1 p2 ;;
  match r with
  | None => Ok None
  | Some (p1, p2) =>
      r <-- _dnsPacket_isEqualBytes q1 q2 p1 p2 4 ;;
      match r with
      | None => Ok None
      | Some (p1, p2) =>
          r1 <-- _dnsPacket_readInt16 q1 p1 ;;
          r2 <-- _dnsPacket_readInt16 q2 p2 ;;
          let '(rdlength1, p1) := r1 in
          let '(rdlength2, p2) := r2 in
          if negb (rdlength1 =? rdlength2) then Ok None else _dnsPacket_isEqualBytes q1 q2 p1 p2 rdlength1
      end
  end.

Fixpoint equal_times (one : list Z -> list Z -> nat -> nat -> result (option (nat * nat))) (count : nat) (q1 q2 : list Z) (p1 p2 : nat)
    : result (option (nat * nat)) :=
  match count with
  | O => Ok (Some (p1, p2))
  | S count =>
      r <-- one q1 q2 p1 p2 ;;
      match r with
      | None => Ok None
      | Some (p1, p2) => equal_times one count q1 q2 p1 p2
      end
  end.

Definition _dnsPacket_isEqualQuery (q1 q2 : list Z) : result bool :=
  a2 <-- at_ q1 2 ;;
  b2 <-- at_ q2 2 ;;
  if negb (Z.land a2 1 =? Z.land b2 1) then Ok false else
  a3 <-- at_ q1 3 ;;
  b3 <-- at_ q2 3 ;;
  if negb (a3 =? b3) then Ok false else
  r1 <-- _dnsPacket_readInt16 q1 (_dnsPacket_skip q1 0 4) ;;
  r2 <-- _dnsPacket_readInt16 q2 (_dnsPacket_skip q2 0 4) ;;
  let '(count1, p1) := r1 in
  let '(count2, p2) := r2 in
  if negb (count1 =? count2) || (count1 <? 0) then Ok false else
  r1 <-- _dnsPacket_readInt16 q1 (_dnsPacket_skip q1 p1 4) ;;
  r2 <-- _dnsPacket_readInt16 q2 (_dnsPacket_skip q2 p2 4) ;;
  let '(arcount1, p1) := r1 in
  let '(arcount2, p2) := r2 in
  if negb (arcount1 =? arcount2) || (arcount1 <? 0) then Ok false else
  r <-- equal_times _dnsPacket_isEqualQR (Z.to_nat count1) q1 q2 p1 p2 ;;
  match r with
  | None => Ok false
  | Some (p1, p2) =>
      r <-- equal_times _dnsPacket_isEqualRR (Z.to_nat arcount1) q1 q2 p1 p2 ;;
      Ok (match r with Some _ => true | None => false end)
  end.

(** * The hash *)

(** The hash is that of one bit of the third byte and of all bytes behind it. *)
Lemma hashQuery_spec q b : q !! 2%nat = Some b ->
  _dnsPacket_hashQuery q = Ok (fold_left fnv (drop 3 q) (fnv FNV_BASIS (Z.land b 1))).
Proof.
  intros Hb. pose proof (lookup_lt_Some _ _ _ Hb) as Hl. unfold _dnsPacket_hashQuery. rewrite (at_Some _ _ _ Hb). cbn [obind].
  unfold _dnsPacket_hashBytes, _dnsPacket_skip. replace (Nat.min (0 + 2) (length q)) with 2%nat by lia. replace (Nat.min (2 + 1) (length q)) with 3%nat by lia.
  change (0 <? 1) with true. cbv iota. replace (Nat.max 3 (length q)) with (length q) by lia.
  assert (forall p, (length q <= p)%nat -> _dnsPacket_readInt16 q p = Ok (-1, p)) as Hread.
  { intros p Hp. unfold _dnsPacket_readInt16. by rewrite (proj2 (Nat.ltb_lt _ _)) by lia. }
  rewrite Hread by lia. cbn [obind]. rewrite Hread by lia. done.
Qed.

(** * Comparing is symmetric *)

Definition swapped (r : result (option (nat * nat))) : result (option (nat * nat)) := omap_ok (option_map (fun x => (x.2, x.1))) r.

Lemma readInt16_total q p : exists n p', _dnsPacket_readInt16 q p = Ok (n, p').
Proof.
  unfold _dnsPacket_readInt16. destruct (Nat.ltb_spec (length q) (p + 2)); [by eexists _, _|].
  destruct (lookup_lt_is_Some_2 q p) as [a Ha]; [lia|]. destruct (lookup_lt_is_Some_2 q (p + 1)) as [b Hb]; [lia|].
  rewrite (at_Some _ _ _ Ha), (at_Some _ _ _ Hb). by eexists _, _.
Qed.

Lemma bytes_at_total q p n : (p + n <= length q)%nat -> exists bs, bytes_at q p n = Ok bs.
Proof. intros H. unfold bytes_at. rewrite (proj2 (Nat.leb_le _ _)) by done. by eexists. Qed.

Section symmetric.
Context (q1 q2 : list Z) (Hlen : length q1 = length q2).

Lemma equal_name_sym fuel p1 p2 : equal_name_loop fuel q1 q2 p1 p2 = swapped (equal_name_loop fuel q2 q1 p2 p1).
Proof.
  clear Hlen. revert p1 p2. induction fuel as [|fuel IH]; intros p1 p2; [done|]. cbn [equal_name_loop].
  rewrite (orb_comm (length q2 <=? p2)%nat). destruct ((length q1 <=? p1)%nat || (length q2 <=? p2)%nat) eqn:E; [done|].
  apply orb_false_iff in E as [E1%Nat.leb_gt E2%Nat.leb_gt]. destruct (lookup_lt_is_Some_2 q1 p1 E1) as [c1 H1], (lookup_lt_is_Some_2 q2 p2 E2) as [c2 H2].
  rewrite (at_Some _ _ _ H1), (at_Some _ _ _ H2). cbn [obind]. rewrite (Z.eqb_sym c2). destruct (Z.eqb_spec c1 c2) as [->|]; cbn [negb]; [|done].
  destruct (c2 =? 0); [done|]. destruct (64 <=? c2); [done|]. set (n := Z.to_nat c2). rewrite (orb_comm (length q2 <? p2 + 1 + n)%nat).
  destruct ((length q1 <? p1 + 1 + n)%nat || (length q2 <? p2 + 1 + n)%nat) eqn:E; [done|]. apply orb_false_iff in E as [E3%Nat.ltb_ge E4%Nat.ltb_ge].
  destruct (bytes_at_total q1 (p1 + 1) n E3) as [b1 ->], (bytes_at_total q2 (p2 + 1) n E4) as [b2 ->]. cbn [obind].
  rewrite (bool_decide_ext (b2 = b1) (b1 = b2)) by (split; congruence). destruct (bool_decide _); [apply IH|done].
Qed.

Lemma equal_bytes_sym p1 p2 n : _dnsPacket_isEqualBytes q1 q2 p1 p2 n = swapped (_dnsPacket_isEqualBytes q2 q1 p2 p1 n).
Proof.
  clear Hlen. unfold _dnsPacket_isEqualBytes. rewrite (orb_comm (Z.of_nat (length q2) <? _)).
  destruct ((Z.of_nat (length q1) <? Z.of_nat p1 + n) || (Z.of_nat (length q2) <? Z.of_nat p2 + n)) eqn:E; [done|].
  apply orb_false_iff in E as [E1%Z.ltb_ge E2%Z.ltb_ge]. destruct (Z.ltb_spec n 0); [done|].
  destruct (bytes_at_total q1 p1 (Z.to_nat n)) as [b1 ->]; [lia|]. destruct (bytes_at_total q2 p2 (Z.to_nat n)) as [b2 ->]; [lia|]. cbn [obind].
  rewrite (bool_decide_ext (b2 = b1) (b1 = b2)) by (split; congruence). by destruct (bool_decide _).
Qed.

Lemma equal_qr_sym p1 p2 : _dnsPacket_isEqualQR q1 q2 p1 p2 = swapped (_dnsPacket_isEqualQR q2 q1 p2 p1).
Proof using Hlen.
  unfold _dnsPacket_isEqualQR, _dnsPacket_isEqualDomainName. rewrite equal_name_sym, Hlen.
  destruct (equal_name_loop _ _ _ _ _) as [[[e2 e1]|]| |]; cbn [swapped omap_ok option_map obind fst snd]; [apply equal_bytes_sym|done..].
Qed.

Lemma equal_rr_sym p1 p2 : _dnsPacket_isEqualRR q1 q2 p1 p2 = swapped (_dnsPacket_isEqualRR q2 q1 p2 p1).
Proof using Hlen.
  unfold _dnsPacket_isEqualRR. rewrite equal_qr_sym. destruct (_dnsPacket_isEqualQR q2 q1 p2 p1) as [[[e2 e1]|]| |]; cbn [swapped omap_ok option_map obind fst snd]; [|done..].
  rewrite equal_bytes_sym. destruct (_dnsPacket_isEqualBytes q2 q1 e2 e1 4) as [[[f2 f1]|]| |]; cbn [swapped omap_ok option_map obind fst snd]; [|done..].
  destruct (readInt16_total q1 f1) as (n1 & g1 & ->), (readInt16_total q2 f2) as (n2 & g2 & ->). cbn [obind].
  rewrite (Z.eqb_sym n2). destruct (Z.eqb_spec n1 n2) as [->|]; cbn [negb]; [apply equal_bytes_sym|done].
Qed.

Lemma equal_times_sym one1 one2 count : (forall p1 p2, one1 q1 q2 p1 p2 = swapped (one2 q2 q1 p2 p1)) -> forall p1 p2,
  equal_times one1 count q1 q2 p1 p2 = swapped (equal_times one2 count q2 q1 p2 p1).
Proof.
  clear Hlen. intros H. induction count as [|count IH]; intros p1 p2; [done|]. cbn [equal_times]. rewrite H.
  destruct (one2 q2 q1 p2 p1) as [[[e2 e1]|]| |]; cbn [swapped omap_ok option_map obind fst snd]; [apply IH|done..].
Qed.
End symmetric.

Lemma equal_query_sym q1 q2 : length q1 = length q2 -> _dnsPacket_isEqualQuery q1 q2 = _dnsPacket_isEqualQuery q2 q1.
Proof.
  intros Hlen. unfold _dnsPacket_isEqualQuery. destruct (decide (2 < length q1)%nat) as [H2|H2].
  2: { unfold at_. rewrite (lookup_ge_None_2 q1), (lookup_ge_None_2 q2) by lia. done. }
  destruct (lookup_lt_is_Some_2 q1 2) as [a2 Ha2]; [lia|]. destruct (lookup_lt_is_Some_2 q2 2) as [b2 Hb2]; [lia|].
  rewrite (at_Some _ _ _ Ha2), (at_Some _ _ _ Hb2). cbn [obind]. rewrite (Z.eqb_sym (Z.land b2 1)). destruct (_ =? _); cbn [negb]; [|done].
  destruct (decide (3 < length q1)%nat) as [H3|H3].
  2: { unfold at_. rewrite (lookup_ge_None_2 q1), (lookup_ge_None_2 q2) by lia. done. }
  destruct (lookup_lt_is_Some_2 q1 3) as [a3 Ha3]; [lia|]. destruct (lookup_lt_is_Some_2 q2 3) as [b3 Hb3]; [lia|].
  rewrite (at_Some _ _ _ Ha3), (at_Some _ _ _ Hb3). cbn [obind]. rewrite (Z.eqb_sym b3). destruct (a3 =? b3); cbn [negb]; [|done].
  destruct (readInt16_total q1 (_dnsPacket_skip q1 0 4)) as (n1 & p1 & ->), (readInt16_total q2 (_dnsPacket_skip q2 0 4)) as (n2 & p2 & ->). cbn [obind].
  rewrite (Z.eqb_sym n2). destruct (Z.eqb_spec n1 n2) as [->|]; cbn [negb orb]; [|done]. destruct (n2 <? 0); [done|].
  destruct (readInt16_total q1 (_dnsPacket_skip q1 p1 4)) as (m1 & r1 & ->), (readInt16_total q2 (_dnsPacket_skip q2 p2 4)) as (m2 & r2 & ->). cbn [obind].
  rewrite (Z.eqb_sym m2). destruct (Z.eqb_spec m1 m2) as [->|]; cbn [negb orb]; [|done]. destruct (m2 <? 0); [done|].
  rewrite (equal_times_sym q1 q2 _ _ _ (equal_qr_sym q1 q2 Hlen)). destruct (equal_times _ _ q2 q1 r2 r1) as [[[e2 e1]|]| |]; cbn [swapped omap_ok option_map obind fst snd]; [|done..].
  rewrite (equal_times_sym q1 q2 _ _ _ (equal_rr_sym q1 q2 Hlen)). by destruct (equal_times _ _ q2 q1 e2 e1) as [[[? ?]|]| |].
Qed.

(** * Queries that are equal to themselves *)

(** The bytes from [p] to [e]. *)
Definition slice (q : list Z) (p e : nat) : list Z := take (e - p) (drop p q).

Lemma slice_length q p e : (e <= length q)%nat -> length (slice q p e) = (e - p)%nat.
Proof. intros H. unfold slice. rewrite length_take, length_drop. lia. Qed.

Lemma slice_app q p m e : (p <= m <= e)%nat -> slice q p e = slice q p m ++ slice q m e.
Proof.
  intros H. unfold slice. replace (e - p)%nat with ((m - p) + (e - m))%nat by lia. rewrite <-take_take_drop, drop_drop. do 3 f_equal. lia.
Qed.

Lemma slice_one q p c : q !! p = Some c -> slice q p (p + 1) = [c].
Proof. intros H. unfold slice. replace (p + 1 - p)%nat with 1%nat by lia. rewrite (drop_S _ _ _ H). done. Qed.

Lemma slice_bytes q p n : bytes_at q p n = (if (p + n <=? length q)%nat then Ok (slice q p (p + n)) else Fault).
Proof. unfold bytes_at, slice. by replace (p + n - p)%nat with n by lia. Qed.

(** A query whose records can be read is compared with every other of its length. *)
Definition regular (q : list Z) : Prop := _dnsPacket_isEqualQuery q q = Ok true.

Section lockstep.
Context (q1 q2 : list Z) (Hlen : length q1 = length q2) (Hb1 : Forall is_byte q1) (Hb2 : Forall is_byte q2).

Lemma slice_split p m e : (p <= m <= e)%nat -> (e <= length q1)%nat ->
  bool_decide (slice q1 p e = slice q2 p e) = bool_decide (slice q1 p m = slice q2 p m) && bool_decide (slice q1 m e = slice q2 m e).
Proof using Hlen.
  intros H He. rewrite !(slice_app _ p m e) by done. rewrite <-bool_decide_and. apply bool_decide_ext. split; [|by intros [-> ->]].
  intros E. by apply app_inj_1 in E; [|rewrite !slice_length by lia].
Qed.

(** Where the query reads its own record, the other has an equal record if it has the same bytes. *)
Definition lockstep (one : list Z -> list Z -> nat -> nat -> result (option (nat * nat))) : Prop := forall p a b,
  (p <= length q1)%nat -> one q1 q1 p p = Ok (Some (a, b)) -> a = b /\ (p <= a <= length q1)%nat /\
    one q1 q2 p p = Ok (if bool_decide (slice q1 p a = slice q2 p a) then Some (a, a) else None).

Lemma lockstep_name fuel : lockstep (equal_name_loop fuel).
Proof using Hlen.
  induction fuel as [|fuel IH]; intros p a b Hp H; [done|]. cbn [equal_name_loop] in *. rewrite orb_diag in H. rewrite <-Hlen, orb_diag.
  destruct (Nat.leb_spec (length q1) p); [done|]. destruct (lookup_lt_is_Some_2 q1 p) as [c Hc]; [done|]. destruct (lookup_lt_is_Some_2 q2 p) as [c2 Hc2]; [lia|].
  rewrite (at_Some _ _ _ Hc) in *. rewrite (at_Some _ _ _ Hc2). cbn [obind] in *. rewrite Z.eqb_refl in H. cbn [negb] in H.
  assert (Hhead : forall a, (p + 1 <= a <= length q1)%nat -> bool_decide (slice q1 p a = slice q2 p a) = (c =? c2) && bool_decide (slice q1 (p + 1) a = slice q2 (p + 1) a)).
  { intros a' Ha. rewrite (slice_split p (p + 1)) by lia. f_equal. rewrite (slice_one q1 p c), (slice_one q2 p c2) by done.
    destruct (Z.eqb_spec c c2) as [->|]; [by rewrite bool_decide_true|]. rewrite bool_decide_false; [done|congruence]. }
  destruct (Z.eqb_spec c 0) as [Hz|Hc0].
  { injection H as <- <-. split_and!; [done|lia|lia|]. rewrite Hhead by lia. destruct (c =? c2); [|done]. cbn [andb negb]. by rewrite bool_decide_true by (unfold slice; by rewrite Nat.sub_diag). }
  destruct (Z.leb_spec 64 c); [done|]. rewrite orb_diag in *. destruct (Nat.ltb_spec (length q1) (p + 1 + Z.to_nat c)) as [|Hle]; [done|].
  rewrite slice_bytes, (proj2 (Nat.leb_le _ _)) in H by done. cbn [obind] in H. rewrite bool_decide_true in H by done.
  destruct (IH _ _ _ Hle H) as (-> & [Ha1 Ha2] & Ho). split_and!; [done|lia|lia|]. rewrite Hhead by lia. destruct (c =? c2); cbn [negb andb]; [|done].
  rewrite !slice_bytes, <-Hlen, (proj2 (Nat.leb_le _ _)) by done. cbn [obind]. rewrite (slice_split (p + 1) (p + 1 + Z.to_nat c) b) by lia.
  destruct (bool_decide (slice q1 (p + 1) _ = _)); [done|done].
Qed.

Lemma lockstep_bytes n : lockstep (fun q q' p p' => _dnsPacket_isEqualBytes q q' p p' n).
Proof using Hlen.
  intros p a b Hp H. unfold _dnsPacket_isEqualBytes in *. rewrite orb_diag in H. rewrite <-Hlen, orb_diag.
  destruct (Z.ltb_spec (Z.of_nat (length q1)) (Z.of_nat p + n)); [done|]. destruct (Z.ltb_spec n 0); [done|].
  rewrite !slice_bytes, <-?Hlen, (proj2 (Nat.leb_le _ _)) in * by lia. cbn [obind] in *. rewrite bool_decide_true in H by done. injection H as <- <-.
  split_and!; [done|lia|lia|]. by destruct (bool_decide _).
Qed.

Lemma lockstep_qr : lockstep _dnsPacket_isEqualQR.
Proof using Hlen.
  intros p a b Hp H. unfold _dnsPacket_isEqualQR, _dnsPacket_isEqualDomainName in *.
  destruct (equal_name_loop _ q1 q1 p p) as [[[e e']|]| |] eqn:E; cbn [obind] in H; [|done..].
  destruct (lockstep_name _ _ _ _ Hp E) as (-> & [He1 He2] & ->). destruct (lockstep_bytes _ _ _ _ He2 H) as (-> & [Hf1 Hf2] & Hf). split_and!; [done|lia|lia|].
  rewrite (slice_split p e' b) by lia. by destruct (bool_decide (slice q1 p e' = _)).
Qed.

(** Numbers are equal if their bytes are. *)
Lemma read_both p n1 e : _dnsPacket_readInt16 q1 p = Ok (n1, e) -> n1 <> -1 -> (p + 2 <= length q1)%nat /\ e = (p + 2)%nat /\
  exists n2, _dnsPacket_readInt16 q2 p = Ok (n2, e) /\ (n1 =? n2) = bool_decide (slice q1 p (p + 2) = slice q2 p (p + 2)).
Proof using Hlen Hb1 Hb2.
  intros H Hn. unfold _dnsPacket_readInt16 in *. rewrite <-Hlen. destruct (Nat.ltb_spec (length q1) (p + 2)); [congruence|]. obind_inv H. obind_inv H. injection H as <- <-.
  destruct (lookup_lt_is_Some_2 q2 p) as [c Hc]; [lia|]. destruct (lookup_lt_is_Some_2 q2 (p + 1)) as [d Hd]; [lia|].
  apply at_inv in E, E0. rewrite (at_Some _ _ _ Hc), (at_Some _ _ _ Hd). cbn [obind]. split_and!; [lia|done|]. eexists. split; [done|].
  rewrite !(slice_app _ p (p + 1) (p + 2)) by lia. replace (p + 2)%nat with (p + 1 + 1)%nat by lia.
  rewrite (slice_one q1 p x), (slice_one q1 (p + 1) x0), (slice_one q2 p c), (slice_one q2 (p + 1) d) by done. simpl app.
  assert (is_byte x /\ is_byte x0 /\ is_byte c /\ is_byte d) as (B1 & B2 & B3 & B4) by (rewrite Forall_lookup in Hb1; rewrite Forall_lookup in Hb2; split_and!; by eauto). unfold is_byte in *.
  rewrite !Z.shiftl_mul_pow2, !lor_low_bits by lia. destruct (Z.eqb_spec (x * 2 ^ 8 + x0) (c * 2 ^ 8 + d)) as [Ee|Ee].
  - rewrite bool_decide_true; [done|]. f_equal; [lia|f_equal; lia].
  - rewrite bool_decide_false; [done|]. intros [= -> ->]. done.
Qed.

Lemma lockstep_rr : lockstep _dnsPacket_isEqualRR.
Proof using Hlen Hb1 Hb2.
  intros p a b Hp H. unfold _dnsPacket_isEqualRR in *.
  destruct (_dnsPacket_isEqualQR q1 q1 p p) as [[[e e']|]| |] eqn:E; cbn [obind] in H; [|done..].
  destruct (lockstep_qr _ _ _ Hp E) as (-> & [He1 He2] & ->). destruct (_dnsPacket_isEqualBytes q1 q1 e' e' 4) as [[[f f']|]| |] eqn:E2; cbn [obind] in H; [|done..].
  destruct (lockstep_bytes _ _ _ _ He2 E2) as (-> & [Hf1 Hf2] & Hf). destruct (_dnsPacket_readInt16 q1 f') as [[n1 g]| |] eqn:Er; cbn [obind] in H; [|done..].
  rewrite Z.eqb_refl in H. cbn [negb] in H. destruct (decide (n1 = -1)) as [->|Hn].
  { unfold _dnsPacket_isEqualBytes in H. rewrite orb_diag in H. destruct (_ <? _); done. }
  destruct (read_both f' n1 g Er Hn) as (Hl & -> & n2 & Er2 & En). destruct (lockstep_bytes _ _ _ _ Hl H) as (-> & [Hg1 Hg2] & Hg). split_and!; [done|lia|lia|].
  rewrite (slice_split p e' b), (slice_split e' f' b), (slice_split f' (f' + 2) b) by lia. destruct (bool_decide (slice q1 p e' = _)); cbn [obind andb]; [|done].
  rewrite Hf. destruct (bool_decide (slice q1 e' f' = _)); cbn [obind andb]; [|done]. rewrite Er, Er2. cbn [obind]. rewrite En.
  destruct (bool_decide (slice q1 f' (f' + 2) = _)); cbn [negb andb]; [done|done].
Qed.

Lemma lockstep_times one : lockstep one -> forall count, lockstep (equal_times one count).
Proof using Hlen.
  intros H1. induction count as [|count IH]; intros p a b Hp H; cbn [equal_times] in *.
  { injection H as <- <-. split_and!; [done|lia|lia|]. by rewrite bool_decide_true by (unfold slice; by rewrite Nat.sub_diag). }
  destruct (one q1 q1 p p) as [[[e e']|]| |] eqn:E; cbn [obind] in H; [|done..]. destruct (H1 _ _ _ Hp E) as (-> & [He1 He2] & ->). destruct (IH _ _ _ He2 H) as (-> & [Ha1 Ha2] & Ho).
  split_and!; [done|lia|lia|]. rewrite (slice_split p e' b) by lia. by destruct (bool_decide (slice q1 p e' = _)).
Qed.
End lockstep.

(** ** Whole queries *)

(** The bit RD. *)
Definition rd_bit (q : list Z) : option Z := (fun b => Z.land b 1) <$> q !! 2%nat.

(** The parts of the header that are compared, and the bytes of the records up to [e]. *)
Definition same_header (q1 q2 : list Z) : bool :=
  bool_decide (rd_bit q1 = rd_bit q2) && bool_decide (slice q1 3 6 = slice q2 3 6) && bool_decide (slice q1 10 12 = slice q2 10 12).

Definition same_query (e : nat) (q1 q2 : list Z) : bool := same_header q1 q2 && bool_decide (slice q1 12 e = slice q2 12 e).

(** A number of the header of a packet that is long enough. *)
Lemma read_header q p : Forall is_byte q -> (p + 2 <= length q)%nat -> exists n, _dnsPacket_readInt16 q p = Ok (n, (p + 2)%nat) /\ 0 <= n.
Proof.
  intros Hb Hl. unfold _dnsPacket_readInt16. rewrite (proj2 (Nat.ltb_ge _ _)) by lia.
  destruct (lookup_lt_is_Some_2 q p) as [a Ha]; [lia|]. destruct (lookup_lt_is_Some_2 q (p + 1)) as [b Hb']; [lia|].
  rewrite (at_Some _ _ _ Ha), (at_Some _ _ _ Hb'). cbn [obind]. eexists. split; [done|].
  assert (is_byte a /\ is_byte b) as [? ?] by (rewrite Forall_lookup in Hb; split; by eauto). unfold is_byte in *.
  rewrite Z.shiftl_mul_pow2, lor_low_bits by lia. lia.
Qed.

(** The comparison of two packets of the same length, once the header has been read. *)
Definition compare_records (q1 q2 : list Z) (n m : Z) : result bool :=
  r <-- equal_times _dnsPacket_isEqualQR (Z.to_nat n) q1 q2 12 12 ;;
  match r with
  | None => Ok false
  | Some (p1, p2) =>
      r <-- equal_times _dnsPacket_isEqualRR (Z.to_nat m) q1 q2 p1 p2 ;;
      Ok (match r with Some _ => true | None => false end)
  end.

Lemma equal_query_header q1 q2 n m : length q1 = length q2 -> Forall is_byte q1 -> Forall is_byte q2 -> (12 <= length q1)%nat ->
  _dnsPacket_readInt16 q1 4 = Ok (n, 6%nat) -> _dnsPacket_readInt16 q1 10 = Ok (m, 12%nat) -> 0 <= n -> 0 <= m ->
  _dnsPacket_isEqualQuery q1 q2 = if same_query 12 q1 q2 then compare_records q1 q2 n m else Ok false.
Proof.
  intros Hlen Hb1 Hb2 Hl Hn Hm Hn0 Hm0. unfold _dnsPacket_isEqualQuery, same_query, same_header, rd_bit.
  destruct (lookup_lt_is_Some_2 q1 2) as [a2 Ha2]; [lia|]. destruct (lookup_lt_is_Some_2 q2 2) as [b2 Hb2']; [lia|].
  destruct (lookup_lt_is_Some_2 q1 3) as [a3 Ha3]; [lia|]. destruct (lookup_lt_is_Some_2 q2 3) as [b3 Hb3]; [lia|].
  rewrite (at_Some _ _ _ Ha2), (at_Some _ _ _ Ha3), (at_Some _ _ _ Hb2'), (at_Some _ _ _ Hb3), Ha2, Hb2'. cbn [obind fmap option_fmap option_map].
  destruct (Z.eqb_spec (Z.land a2 1) (Z.land b2 1)) as [E2|E2]; cbn [negb]; [|rewrite bool_decide_false; [done|congruence]].
  rewrite (bool_decide_true (Some _ = Some _)) by congruence. cbn [andb]. rewrite (slice_split q1 q2 Hlen 3 4 6) by lia.
  change (slice q1 3 4) with (slice q1 3 (3 + 1)). change (slice q2 3 4) with (slice q2 3 (3 + 1)). rewrite (slice_one q1 3 a3), (slice_one q2 3 b3) by done.
  destruct (Z.eqb_spec a3 b3) as [->|E3]; cbn [negb]; [|rewrite (bool_decide_false ([a3] = [b3])) by congruence; done].
  rewrite (bool_decide_true ([b3] = [b3])) by done. cbn [andb]. unfold _dnsPacket_skip.
  replace (Nat.min (0 + 4) (length q1)) with 4%nat by lia. replace (Nat.min (0 + 4) (length q2)) with 4%nat by lia. rewrite Hn.
  destruct (read_both q1 q2 Hlen Hb1 Hb2 4 n 6 Hn) as (_ & _ & n2 & -> & En); [lia|]. cbn [obind]. rewrite En. change (4 + 2)%nat with 6%nat.
  destruct (bool_decide (slice q1 4 6 = _)); cbn [negb orb andb]; [|done].
  rewrite (proj2 (Z.ltb_ge _ _)) by done. replace (Nat.min (6 + 4) (length q1)) with 10%nat by lia. replace (Nat.min (6 + 4) (length q2)) with 10%nat by lia. rewrite Hm.
  destruct (read_both q1 q2 Hlen Hb1 Hb2 10 m 12 Hm) as (_ & _ & m2 & -> & Em); [lia|]. cbn [obind]. rewrite Em. change (10 + 2)%nat with 12%nat.
  destruct (bool_decide (slice q1 10 12 = _)); cbn [negb orb andb]; [|done].
  rewrite (proj2 (Z.ltb_ge _ _)), bool_decide_true by (done || (unfold slice; by rewrite Nat.sub_diag)). done.
Qed.

Lemma regular_length q : regular q -> (12 <= length q)%nat.
Proof.
  unfold regular, _dnsPacket_isEqualQuery. intros H. obind_inv H. rewrite Z.eqb_refl in H. cbn [negb] in H.
  obind_inv H. apply at_inv, lookup_lt_Some in E0 as Hl'. rewrite Z.eqb_refl in H. cbn [negb] in H.
  assert (_dnsPacket_skip q 0 4 = 4%nat) as Es by (unfold _dnsPacket_skip; lia). rewrite Es in H.
  destruct (_dnsPacket_readInt16 q 4) as [[n p]| |] eqn:Er; cbn [obind] in H; [|done..]. rewrite Z.eqb_refl in H. cbn [negb orb] in H.
  unfold _dnsPacket_readInt16 in Er. destruct (Nat.ltb_spec (length q) (4 + 2)); [injection Er as <- <-; done|]. obind_inv Er. obind_inv Er. injection Er as <- <-.
  destruct (_ <? 0); [done|]. replace (4 + 2)%nat with 6%nat in H by lia. unfold _dnsPacket_readInt16 in H. destruct (Nat.ltb_spec (length q) (_dnsPacket_skip q 6 4 + 2)) as [Hs|Hs].
  - cbn [obind] in H. done.
  - unfold _dnsPacket_skip in Hs. lia.
Qed.

(** The end of the records of a query. *)
Definition records_end (q : list Z) (e : nat) : Prop := exists n m f, _dnsPacket_readInt16 q 4 = Ok (n, 6%nat) /\ _dnsPacket_readInt16 q 10 = Ok (m, 12%nat) /\ 0 <= n /\ 0 <= m /\
  equal_times _dnsPacket_isEqualQR (Z.to_nat n) q q 12 12 = Ok (Some (f, f)) /\ equal_times _dnsPacket_isEqualRR (Z.to_nat m) q q f f = Ok (Some (e, e)).

Lemma regular_end q : regular q -> Forall is_byte q -> exists e, records_end q e.
Proof.
  intros Hreg Hb. pose proof (regular_length q Hreg) as Hl. unfold regular in Hreg.
  destruct (read_header q 4) as (n & Hn & Hn0); [done|lia|]. destruct (read_header q 10) as (m & Hm & Hm0); [done|lia|].
  rewrite (equal_query_header q q n m) in Hreg by done. unfold same_query, same_header in Hreg. rewrite !bool_decide_true in Hreg by done. cbn [andb] in Hreg. unfold compare_records in Hreg.
  destruct (equal_times _ (Z.to_nat n) q q 12 12) as [[[e e']|]| |] eqn:Eq; cbn [obind] in Hreg; [|done..].
  destruct (equal_times _ (Z.to_nat m) q q e e') as [[[g g']|]| |] eqn:Er; cbn [obind] in Hreg; [|done..].
  destruct (lockstep_times q q eq_refl _ (lockstep_qr q q eq_refl) _ _ _ _ Hl Eq) as (-> & [He1 He2] & _).
  destruct (lockstep_times q q eq_refl _ (lockstep_rr q q eq_refl Hb Hb) _ _ _ _ He2 Er) as (-> & _ & _). by exists g', n, m, e'.
Qed.

Section compared.
Context (q1 q2 : list Z) (Hlen : length q1 = length q2) (Hb1 : Forall is_byte q1) (Hb2 : Forall is_byte q2) (Hl : (12 <= length q1)%nat).

(** The comparison of a query with another of its length. *)
Lemma compared_end e : records_end q1 e -> (12 <= e <= length q1)%nat /\ _dnsPacket_isEqualQuery q1 q2 = Ok (same_query e q1 q2).
Proof using Hlen Hb1 Hb2 Hl.
  intros (n & m & f & Hn & Hm & Hn0 & Hm0 & Eq & Er). destruct (lockstep_times q1 q2 Hlen _ (lockstep_qr q1 q2 Hlen) _ _ _ _ Hl Eq) as (_ & [Hf1 Hf2] & Ef).
  destruct (lockstep_times q1 q2 Hlen _ (lockstep_rr q1 q2 Hlen Hb1 Hb2) _ _ _ _ Hf2 Er) as (_ & [He1 He2] & Ee). split; [lia|].
  rewrite (equal_query_header q1 q2 n m) by done. unfold same_query, compare_records. rewrite (bool_decide_true (slice q1 12 12 = _)) by (unfold slice; by rewrite Nat.sub_diag).
  rewrite andb_true_r, (slice_split q1 q2 Hlen 12 f e) by lia. destruct (same_header q1 q2); cbn [andb]; [|done]. rewrite Ef.
  destruct (bool_decide (slice q1 12 f = _)); cbn [obind andb]; [|done]. rewrite Ee. by destruct (bool_decide _).
Qed.

(** The records of equal queries end at the same place. *)
Lemma equal_ends e e' : records_end q1 e -> records_end q2 e' -> same_query e q1 q2 = true -> e = e'.
Proof using Hlen Hb1 Hb2 Hl.
  intros (n & m & f & Hn & Hm & Hn0 & Hm0 & Eq & Er) (n' & m' & f' & Hn' & Hm' & _ & _ & Eq' & Er') Hs.
  destruct (lockstep_times q1 q2 Hlen _ (lockstep_qr q1 q2 Hlen) _ _ _ _ Hl Eq) as (_ & [Hf1 Hf2] & Ef).
  destruct (lockstep_times q1 q2 Hlen _ (lockstep_rr q1 q2 Hlen Hb1 Hb2) _ _ _ _ Hf2 Er) as (_ & [He1 He2] & Ee).
  unfold same_query, same_header in Hs. rewrite (slice_split q1 q2 Hlen 12 f e) in Hs by lia.
  rewrite (slice_split q1 q2 Hlen 3 4 6) in Hs by lia. apply andb_true_iff in Hs as [Hh [Hs1 Hs2]%andb_true_iff]. apply andb_true_iff in Hh as [[_ [_ H46]%andb_true_iff]%andb_true_iff H1012].
  rewrite Hs1 in Ef. rewrite Hs2 in Ee. destruct (read_both q1 q2 Hlen Hb1 Hb2 4 n 6 Hn) as (_ & _ & n2 & En & Enn); [lia|]. destruct (read_both q1 q2 Hlen Hb1 Hb2 10 m 12 Hm) as (_ & _ & m2 & Em & Emm); [lia|].
  change (4 + 2)%nat with 6%nat in Enn. change (10 + 2)%nat with 12%nat in Emm. rewrite H46 in Enn. rewrite H1012 in Emm. apply Z.eqb_eq in Enn as <-. apply Z.eqb_eq in Emm as <-.
  assert (n' = n) as -> by congruence. assert (m' = m) as -> by congruence.
  rewrite (equal_times_sym q1 q2 _ _ _ (equal_qr_sym q1 q2 Hlen)) in Ef. assert (Hl2 : (12 <= length q2)%nat) by lia.
  destruct (lockstep_times q2 q1 (eq_sym Hlen) _ (lockstep_qr q2 q1 (eq_sym Hlen)) _ _ _ _ Hl2 Eq') as (_ & [Hg1 Hg2] & Eg). rewrite Eg in Ef. cbn in Ef.
  case_match; [|done]. injection Ef as ->. rewrite (equal_times_sym q1 q2 _ _ _ (equal_rr_sym q1 q2 Hlen)) in Ee.
  destruct (lockstep_times q2 q1 (eq_sym Hlen) _ (lockstep_rr q2 q1 (eq_sym Hlen) Hb2 Hb1) _ _ _ _ Hg2 Er') as (_ & _ & Eg2). rewrite Eg2 in Ee. cbn in Ee. case_match; [|done]. by injection Ee as ->.
Qed.
End compared.

(** Regular queries of a length: the comparison gives a result, and is an equivalence. *)
Lemma equal_query_total q1 q2 : regular q1 -> Forall is_byte q1 -> Forall is_byte q2 -> length q1 = length q2 -> exists b, _dnsPacket_isEqualQuery q1 q2 = Ok b.
Proof.
  intros H1 Hb1 Hb2 Hlen. pose proof (regular_length q1 H1) as Hl. destruct (regular_end q1 H1 Hb1) as [e He]. destruct (compared_end q1 q2 Hlen Hb1 Hb2 Hl e He) as [_ ->]. by eexists.
Qed.

Lemma same_query_trans e q1 q2 q3 : same_query e q1 q2 = true -> same_query e q2 q3 = true -> same_query e q1 q3 = true.
Proof.
  unfold same_query, same_header. rewrite !andb_true_iff, !bool_decide_eq_true. intros [[[-> ->] ->] ->]. done.
Qed.

Lemma equal_query_trans q1 q2 q3 : regular q1 -> regular q2 -> Forall is_byte q1 -> Forall is_byte q2 -> Forall is_byte q3 -> length q1 = length q2 -> length q2 = length q3 ->
  _dnsPacket_isEqualQuery q1 q2 = Ok true -> _dnsPacket_isEqualQuery q2 q3 = Ok true -> _dnsPacket_isEqualQuery q1 q3 = Ok true.
Proof.
  intros R1 R2 B1 B2 B3 L12 L23 E12 E23. pose proof (regular_length q1 R1) as Hl. destruct (regular_end q1 R1 B1) as [e1 H1]. destruct (regular_end q2 R2 B2) as [e2 H2].
  destruct (compared_end q1 q2 L12 B1 B2 Hl e1 H1) as [_ E]. rewrite E in E12. injection E12 as E12. pose proof (equal_ends q1 q2 L12 B1 B2 Hl e1 e2 H1 H2 E12) as <-.
  destruct (compared_end q2 q3 L23 B2 B3 ltac:(lia) e1 H2) as [_ E']. rewrite E' in E23. injection E23 as E23.
  destruct (compared_end q1 q3 ltac:(congruence) B1 B3 Hl e1 H1) as [_ ->]. by rewrite (same_query_trans e1 q1 q2 q3).
Qed.

(** * Queries that pass the check *)

Lemma check_qname_total fuel q p : (1 <= fuel)%nat -> (length q < p + fuel)%nat -> exists r, check_qname_loop fuel q p = Ok r.
Proof.
  revert p. induction fuel as [|fuel IH]; intros p H1 H; cbn [check_qname_loop]; [lia|]. destruct (Nat.leb_spec (length q) p); [by eexists|].
  destruct (lookup_lt_is_Some_2 q p) as [c Hc]; [done|]. rewrite (at_Some _ _ _ Hc). cbn [obind]. destruct (c =? 0); [by eexists|]. destruct (64 <=? c); [by eexists|].
  apply IH; lia.
Qed.

Lemma check_qname_equal fuel q p e : check_qname_loop fuel q p = Ok (Some e) -> equal_name_loop fuel q q p p = Ok (Some (e, e)) /\ (e <= length q)%nat.
Proof.
  revert p. induction fuel as [|fuel IH]; intros p H; [done|]. cbn [check_qname_loop equal_name_loop] in *. rewrite orb_diag.
  destruct (Nat.leb_spec (length q) p); [done|]. obind_inv H. cbn [obind]. rewrite Z.eqb_refl. cbn [negb]. destruct (x =? 0); [injection H as <-; split; [done|lia]|].
  destruct (64 <=? x); [done|]. rewrite orb_diag. assert (p + 1 + Z.to_nat x < length q)%nat as Hlt.
  { destruct fuel as [|fuel]; [done|]. cbn [check_qname_loop] in H. destruct (Nat.leb_spec (length q) (p + 1 + Z.to_nat x)); [done|lia]. }
  rewrite (proj2 (Nat.ltb_ge _ _)), slice_bytes, (proj2 (Nat.leb_le _ _)) by lia. cbn [obind]. rewrite bool_decide_true by done. by apply IH.
Qed.

Lemma checkBytes_total q p bytes n : exists r, _dnsPacket_checkBytes q p n bytes = Ok r /\ forall e, r = Some e -> e = (p + n)%nat /\ (e <= length q)%nat.
Proof.
  unfold _dnsPacket_checkBytes. destruct (Nat.ltb_spec (length q) (p + n)); [by eexists|]. rewrite slice_bytes, (proj2 (Nat.leb_le _ _)) by lia. cbn [obind].
  destruct (bool_decide _); eexists; (split; [done|]); intros e [= <-]; split; [done|lia].
Qed.

Lemma check_any_total q p types : exists r, check_any q p types = Ok r /\ forall e, r = Some e -> e = (p + 2)%nat /\ (e <= length q)%nat.
Proof.
  induction types as [|t types (r & E & Hr)]; [by eexists|]. cbn [check_any]. destruct (checkBytes_total q p t 2) as (r1 & -> & H1). cbn [obind].
  destruct r1 as [e|]; [eexists; split; [done|]; by intros e' [= <-]; apply H1|eauto].
Qed.

Lemma checkQR_spec q p : exists r, _dnsPacket_checkQR q p = Ok r /\ forall e, r = Some e -> _dnsPacket_isEqualQR q q p p = Ok (Some (e, e)).
Proof.
  unfold _dnsPacket_checkQR, _dnsPacket_checkQName, _dnsPacket_isEqualQR, _dnsPacket_isEqualDomainName.
  destruct (check_qname_total (length q + 1) q p) as [[e1|] E1]; [lia|lia| |rewrite E1; by eexists]. rewrite E1. cbn [obind]. apply check_qname_equal in E1 as [-> He1]. cbn [obind].
  destruct (check_any_total q e1 [DNS_TYPE_A; DNS_TYPE_PTR; DNS_TYPE_MX; DNS_TYPE_AAAA; DNS_TYPE_ALL]) as ([e2|] & -> & H2); cbn [obind]; [|by eexists].
  destruct (H2 e2 eq_refl) as [-> _]. destruct (checkBytes_total q (e1 + 2) DNS_CLASS_IN 2) as (r & -> & H3). eexists. split; [done|]. intros e He. destruct (H3 e He) as [-> Hle].
  unfold _dnsPacket_isEqualBytes. rewrite orb_diag, (proj2 (Z.ltb_ge _ _)) by lia. change (4 <? 0) with false. cbv iota.
  rewrite slice_bytes, (proj2 (Nat.leb_le _ _)) by lia. cbn [obind]. rewrite bool_decide_true by done. do 3 f_equal; lia.
Qed.

Lemma check_qrs_spec count q : forall p, exists b, check_qrs count q p = Ok b /\ (b = true -> exists e, equal_times _dnsPacket_isEqualQR count q q p p = Ok (Some (e, e))).
Proof.
  induction count as [|count IH]; intros p; cbn [check_qrs equal_times]; [eexists; split; [done|by eexists]|].
  destruct (checkQR_spec q p) as ([e|] & -> & H); cbn [obind]; [|by eexists]. rewrite (H e eq_refl). cbn [obind]. apply IH.
Qed.

Lemma header_read q i n : (i + 2 <= length q)%nat -> _dnsPacket_readInt16 q i = Ok (n, (i + 2)%nat) <-> header_count q i = Ok n.
Proof.
  intros Hl. unfold _dnsPacket_readInt16, header_count. rewrite (proj2 (Nat.ltb_ge _ _)) by lia.
  destruct (lookup_lt_is_Some_2 q i) as [a Ha]; [lia|]. destruct (lookup_lt_is_Some_2 q (i + 1)) as [b Hb]; [lia|].
  rewrite (at_Some _ _ _ Ha), (at_Some _ _ _ Hb). cbn [obind]. split; congruence.
Qed.

Lemma checkQuery_total q : Forall is_byte q -> exists b, _dnsPacket_checkQuery q = Ok b /\
  (b = true -> (12 <= length q)%nat /\ exists n m e, _dnsPacket_readInt16 q 4 = Ok (n, 6%nat) /\ 0 <= n /\ _dnsPacket_readInt16 q 10 = Ok (m, 12%nat) /\ 0 <= m <= 1 /\
     slice q 6 10 = [0; 0; 0; 0] /\ equal_times _dnsPacket_isEqualQR (Z.to_nat n) q q 12 12 = Ok (Some (e, e))).
Proof.
  intros Hq. unfold _dnsPacket_checkQuery. destruct (Nat.ltb_spec (length q) 12); [by eexists|].
  destruct (lookup_lt_is_Some_2 q 2) as [a2 Ha2]; [lia|]. destruct (lookup_lt_is_Some_2 q 3) as [a3 Ha3]; [lia|].
  rewrite (at_Some _ _ _ Ha2), (at_Some _ _ _ Ha3). cbn [obind]. destruct (negb _ || negb _); [by eexists|].
  destruct (read_header q 4) as (n & En & Hn); [done|lia|]. destruct (read_header q 6) as (an & Ean & Han); [done|lia|].
  destruct (read_header q 8) as (ns & Ens & Hns); [done|lia|]. destruct (read_header q 10) as (m & Em & Hm); [done|lia|].
  rewrite (proj1 (header_read q 4 n ltac:(lia)) En), (proj1 (header_read q 6 an ltac:(lia)) Ean), (proj1 (header_read q 8 ns ltac:(lia)) Ens), (proj1 (header_read q 10 m ltac:(lia)) Em). cbn [obind].
  destruct (Z.eqb_spec an 0) as [->|]; cbn [negb orb]; [|by eexists]. destruct (Z.eqb_spec ns 0) as [->|]; cbn [negb orb]; [|by eexists].
  destruct (Z.ltb_spec 1 m); [by eexists|]. destruct (n =? 0); [by eexists|]. destruct (check_qrs_spec (Z.to_nat n) q 12) as (b & -> & Hb). exists b. split; [done|].
  intros Hbt. split; [lia|]. destruct (Hb Hbt) as [e He]. exists n, m, e. split_and!; [done|done|done|done|done| |done].
  assert (forall i, (i + 2 <= length q)%nat -> _dnsPacket_readInt16 q i = Ok (0, (i + 2)%nat) -> slice q i (i + 2) = [0; 0]) as Hz.
  { intros i Hi Hr. unfold _dnsPacket_readInt16 in Hr. rewrite (proj2 (Nat.ltb_ge _ _)) in Hr by lia.
    obind_inv Hr. obind_inv Hr. injection Hr as Hr. apply at_inv in E, E0. assert (is_byte x /\ is_byte x0) as [B1 B2] by (rewrite Forall_lookup in Hq; split; by eauto). unfold is_byte in *.
    rewrite Z.shiftl_mul_pow2, lor_low_bits in Hr by lia. rewrite (slice_app q i (i + 1)) by lia. replace (i + 2)%nat with (i + 1 + 1)%nat by lia. rewrite (slice_one q i x), (slice_one q (i + 1) x0) by done.
    assert (x = 0) as -> by lia. by assert (x0 = 0) as -> by lia. }
  rewrite (slice_app q 6 8 10) by lia. by rewrite (Hz 6%nat ltac:(lia) Ean : slice q 6 8 = _), (Hz 8%nat ltac:(lia) Ens : slice q 8 10 = _).
Qed.

Lemma check_regular q : Forall is_byte q -> _dnsPacket_checkQuery q = Ok true -> header_count q 10 = Ok 0 -> regular q.
Proof.
  intros Hq Hc Har. destruct (checkQuery_total q Hq) as (b & Hc' & Hb). rewrite Hc in Hc'. injection Hc' as <-. destruct (Hb eq_refl) as (Hl & n & m & e & En & Hn & Em & Hm & _ & Ee).
  apply (header_read q 10) in Har; [|lia]. rewrite Em in Har. injection Har as ->. unfold regular. rewrite (equal_query_header q q n 0) by done.
  unfold same_query, same_header, compare_records. rewrite !bool_decide_true by done. cbn [andb]. rewrite Ee. done.
Qed.

(** * Keys *)

Lemma slice_to_end q p : slice q p (length q) = drop p q.
Proof. unfold slice. rewrite take_ge; [done|]. rewrite length_drop. lia. Qed.

(** C29: For any bytes the check gives a result.  A query that passes it, and has no additional record, is equal to exactly the
    packets of its length that have its bit RD, its fourth byte, its numbers of records and the same bytes up to the end of its
    records, from either side: the ID and the bits AA, TC and the opcode do not count.  Two that pass and are equal have the same
    hash if the bytes behind the records are the same. *)
Theorem query_key q1 : Forall is_byte q1 ->
  (exists b, _dnsPacket_checkQuery q1 = Ok b) /\
  (_dnsPacket_checkQuery q1 = Ok true -> header_count q1 10 = Ok 0 -> exists e, (12 <= e <= length q1)%nat /\
    forall q2, Forall is_byte q2 -> length q1 = length q2 ->
      _dnsPacket_isEqualQuery q1 q2 = Ok (same_query e q1 q2) /\ _dnsPacket_isEqualQuery q2 q1 = Ok (same_query e q1 q2) /\
      (_dnsPacket_checkQuery q2 = Ok true -> same_query e q1 q2 = true -> drop e q1 = drop e q2 ->
       exists h, _dnsPacket_hashQuery q1 = Ok h /\ _dnsPacket_hashQuery q2 = Ok h)).
Proof.
  intros B1. destruct (checkQuery_total q1 B1) as (b & Hc & Hb). split; [by exists b|]. intros Ht Har. assert (b = true) as -> by congruence. destruct (Hb eq_refl) as (Hl & _ & _ & _ & _ & _ & _ & _ & Hz1 & _).
  destruct (regular_end q1 (check_regular q1 B1 Ht Har) B1) as [e He]. exists e. split; [by apply (compared_end q1 q1 eq_refl B1 B1 Hl e)|]. intros q2 B2 Hlen.
  destruct (compared_end q1 q2 Hlen B1 B2 Hl e He) as [Hle ->]. rewrite <-(equal_query_sym q1 q2) by done. destruct (compared_end q1 q2 Hlen B1 B2 Hl e He) as [_ ->].
  split; [done|]. split; [done|]. intros Ht2 Hs Hd. destruct (checkQuery_total q2 B2) as (b2 & Hc2 & Hb2). assert (b2 = true) as -> by congruence. destruct (Hb2 eq_refl) as (_ & _ & _ & _ & _ & _ & _ & _ & Hz2 & _).
  unfold same_query, same_header in Hs. rewrite !andb_true_iff, !bool_decide_eq_true in Hs. destruct Hs as [[[Hrd H36] H1012] H12e]. unfold rd_bit in Hrd.
  destruct (lookup_lt_is_Some_2 q1 2) as [a Ha]; [lia|]. destruct (lookup_lt_is_Some_2 q2 2) as [a' Ha']; [lia|]. rewrite Ha, Ha' in Hrd. injection Hrd as Hrd.
  rewrite (hashQuery_spec q1 a Ha), (hashQuery_spec q2 a' Ha'), Hrd. eexists. split; [done|]. do 2 f_equal.
  rewrite <-!slice_to_end in *. rewrite !(slice_app _ 3 6 (length _)), !(slice_app _ 6 10 (length _)), !(slice_app _ 10 12 (length _)), !(slice_app _ 12 e (length _)) by lia. congruence.
Qed.

(** The query for the addresses of a.b, with a number. *)
Definition ex_query (id type : Z) : list Z := [0; id; 1; 0; 0; 1; 0; 0; 0; 0; 0; 0; 1; 97; 1; 98; 0; 0; type; 0; 1].

Lemma query_key_witness : _dnsPacket_checkQuery (ex_query 7 1) = Ok true /\ _dnsPacket_isEqualQuery (ex_query 7 1) (ex_query 8 1) = Ok true /\
  exists e, (12 <= e <= length (ex_query 7 1))%nat /\ _dnsPacket_isEqualQuery (ex_query 7 1) (ex_query 8 28) = Ok (same_query e (ex_query 7 1) (ex_query 8 28)).
Proof.
  assert (forall id type, is_byte id -> is_byte type -> Forall is_byte (ex_query id type)) as Hb.
  { intros id ty Hi Ht. unfold ex_query, is_byte in *. repeat (constructor; [lia|]). constructor. }
  split; [vm_compute; reflexivity|]. split; [vm_compute; reflexivity|].
  destruct (proj2 (query_key (ex_query 7 1) (Hb 7 1 ltac:(unfold is_byte; lia) ltac:(unfold is_byte; lia)))) as (e & He & H); [vm_compute; reflexivity|vm_compute; reflexivity|].
  exists e. split; [exact He|]. apply (H (ex_query 8 28)); [apply Hb; unfold is_byte; lia|reflexivity].
Defined.

(** A query for all records (type 255) is refused, one of type 31 passes. *)
Example ex_all : _dnsPacket_checkQuery (ex_query 7 255) = Ok false /\ _dnsPacket_checkQuery (ex_query 7 31) = Ok true.
Proof. split; vm_compute; reflexivity. Qed.

(** A query that passes although its additional record is cut off is not equal to itself. *)
Definition ex_cut : list Z := [0; 7; 1; 0; 0; 1; 0; 0; 0; 0; 0; 1; 1; 97; 1; 98; 0; 0; 1; 0; 1; 0; 0; 41].

Example ex_irregular : _dnsPacket_checkQuery ex_cut = Ok true /\ _dnsPacket_isEqualQuery ex_cut ex_cut = Ok false.
Proof. split; vm_compute; reflexivity. Qed.
