(* ===== verification/ResCache.v ===== *)
(** The cache of the resolver: libc/dns/resolv/res_cache.c, from the entries on.

    A cache keeps answers to queries.  Its entries are in a hash table with a chain for every slot and in a list in the order of
    their last use, both threaded through the entries.  The model keeps the entries in a memory with addresses: address 0 is
    [mru_list], the head of the list of uses, which is part of the cache.  A pointer to a pointer is a place, the slot of the table or
    the field [hlink] of an entry.

    A lookup that waits for the answer to the same query lets go of the lock: it is a call that ends with [Waits], and goes on
    with [lookup_resume] at any later time.  The times the code reads, and the allocator, are arguments. *)

From stdpp Require Import gmap.
From S2P Require Import Prelude Result NsName DnsPacket NsParse.
Local Open Scope Z_scope.

(** * Definitions *)

Record Entry := MkEntry {
  hash : Z;
  hlink : option nat;
  mru_prev : option nat;
  mru_next : option nat;
  query : list Z;
  answer : list Z;
  expires : Z;
  id : Z;
}.

Abbreviation heap := (gmap nat Entry).

Record Cache := MkCache {
  max_entries : Z;
  num_entries : Z;
  memory : heap;
  last_id : Z;
  entries : list (option nat);
  pending_requests : list Z;
}.

Abbreviation mru_list := 0%nat.

Definition with_memory (c : Cache) (h : heap) : Cache :=
  MkCache (max_entries c) (num_entries c) h (last_id c) (entries c) (pending_requests c).

Definition with_pending (c : Cache) (ps : list Z) : Cache :=
  MkCache (max_entries c) (num_entries c) (memory c) (last_id c) (entries c) ps.

Definition with_num (c : Cache) (n : Z) : Cache :=
  MkCache (max_entries c) n (memory c) (last_id c) (entries c) (pending_requests c).

Definition deref (h : heap) (p : nat) : result Entry := run (h !! p).

Definition set_hlink (h : heap) (p : nat) (v : option nat) : result heap :=
  e <-- deref h p ;;
  Ok (<[p := MkEntry (hash e) v (mru_prev e) (mru_next e) (query e) (answer e) (expires e) (id e)]> h).

Definition set_prev (h : heap) (p : nat) (v : option nat) : result heap :=
  e <-- deref h p ;;
  Ok (<[p := MkEntry (hash e) (hlink e) v (mru_next e) (query e) (answer e) (expires e) (id e)]> h).

Definition set_next (h : heap) (p : nat) (v : option nat) : result heap :=
  e <-- deref h p ;;
  Ok (<[p := MkEntry (hash e) (hlink e) (mru_prev e) v (query e) (answer e) (expires e) (id e)]> h).

Definition set_id (h : heap) (p : nat) (v : Z) : result heap :=
  e <-- deref h p ;;
  Ok (<[p := MkEntry (hash e) (hlink e) (mru_prev e) (mru_next e) (query e) (answer e) (expires e) v]> h).

(** ** Entries *)

Definition entry_mru_remove (h : heap) (p : nat) : result heap :=
  e <-- deref h p ;;
  prev <-- run (mru_prev e) ;;
  h <-- set_next h prev (mru_next e) ;;
  e <-- deref h p ;;
  next <-- run (mru_next e) ;;
  set_prev h next (mru_prev e).

Definition entry_mru_add (h : heap) (p lst : nat) : result heap :=
  l <-- deref h lst ;;
  let first := mru_next l in
  h <-- set_next h p first ;;
  h <-- set_prev h p (Some lst) ;;
  h <-- set_next h lst (Some p) ;;
  first <-- run first ;;
  set_prev h first (Some p).

(** The key of a query, and whether the query can be kept. *)
Definition entry_init_key (q : list Z) : result (Entry * bool) :=
  h <-- _dnsPacket_hashQuery q ;;
  ok <-- _dnsPacket_checkQuery q ;;
  Ok (MkEntry h None None None q [] 0 0, ok).

(** The entry that is written to the memory calloc gives. *)
Definition entry_alloc (init : Entry) (ans : list Z) : Entry := MkEntry (hash init) None None None (query init) ans 0 0.

Definition entry_equals (e1 e2 : Entry) : result bool :=
  if negb (length (query e1) =? length (query e2))%nat then Ok false else _dnsPacket_isEqualQuery (query e1) (query e2).

(** ** The table *)

Inductive place := Slot (i : nat) | Link (p : nat).

Definition read_place (c : Cache) (l : place) : result (option nat) :=
  match l with
  | Slot i => at_ (entries c) i
  | Link p => e <-- deref (memory c) p ;; Ok (hlink e)
  end.

Definition write_place (c : Cache) (l : place) (v : option nat) : result Cache :=
  match l with
  | Slot i =>
      if (i <? length (entries c))%nat
      then Ok (MkCache (max_entries c) (num_entries c) (memory c) (last_id c) (<[i := v]> (entries c)) (pending_requests c)) else Fault
  | Link p => h <-- set_hlink (memory c) p v ;; Ok (with_memory c h)
  end.

Fixpoint lookup_loop (fuel : nat) (c : Cache) (key : Entry) (pnode : place) : result place :=
  match fuel with
  | O => Fault
  | S fuel =>
      node <-- read_place c pnode ;;
      match node with
      | None => Ok pnode
      | Some node =>
          e <-- deref (memory c) node ;;
          same <-- (if hash e =? hash key then entry_equals e key else Ok false) ;;
          if same then Ok pnode else lookup_loop fuel c key (Link node)
      end
  end.

(** The remainder of a division by 0 is a fault. *)
Definition _cache_lookup_p (c : Cache) (key : Entry) : result place :=
  if max_entries c =? 0 then Fault else
  lookup_loop (size (memory c) + 1) c key (Slot (Z.to_nat (hash key mod max_entries c))).

(** The counter of additions is an int. *)
Definition _cache_add_p (c : Cache) (lookup : place) (p : nat) : result Cache :=
  c <-- write_place c lookup (Some p) ;;
  if 2 ^ 31 <=? last_id c + 1 then Fault else
  h <-- set_id (memory c) p (last_id c + 1) ;;
  h <-- entry_mru_add h p mru_list ;;
  Ok (MkCache (max_entries c) (num_entries c + 1) h (last_id c + 1) (entries c) (pending_requests c)).

Definition _cache_remove_p (c : Cache) (lookup : place) : result Cache :=
  e <-- read_place c lookup ;;
  p <-- run e ;;
  h <-- entry_mru_remove (memory c) p ;;
  let c := with_memory c h in
  e <-- deref h p ;;
  c <-- write_place c lookup (hlink e) ;;
  let c := with_memory c (delete p (memory c)) in
  Ok (with_num c (num_entries c - 1)).

Definition _cache_remove_oldest (c : Cache) : result Cache :=
  l <-- deref (memory c) mru_list ;;
  p <-- run (mru_prev l) ;;
  oldest <-- deref (memory c) p ;;
  lookup <-- _cache_lookup_p c oldest ;;
  e <-- read_place c lookup ;;
  match e with None => Ok c | Some _ => _cache_remove_p c lookup end.

Fixpoint remove_expired_loop (fuel : nat) (c : Cache) (now : Z) (p : nat) : result Cache :=
  match fuel with
  | O => Fault
  | S fuel =>
      if (p =? mru_list)%nat then Ok c else
      e <-- deref (memory c) p ;;
      if expires e <=? now then
        lookup <-- _cache_lookup_p c e ;;
        node <-- read_place c lookup ;;
        match node with
        | None => Ok c
        | Some _ =>
            next <-- run (mru_next e) ;;
            c <-- _cache_remove_p c lookup ;;
            remove_expired_loop fuel c now next
        end
      else
        next <-- run (mru_next e) ;;
        remove_expired_loop fuel c now next
  end.

Definition _cache_remove_expired (c : Cache) (now : Z) : result Cache :=
  l <-- deref (memory c) mru_list ;;
  first <-- run (mru_next l) ;;
  remove_expired_loop (size (memory c) + 1) c now first.

(** ** Requests that are not answered yet *)

Definition _cache_flush_pending_requests_locked (c : Cache) : Cache := with_pending c [].

(** Whether there is a request for the same hash; if not one is added if there is memory for it. *)
Definition _cache_check_pending_request_locked (c : Cache) (key : Entry) (mem : bool) : Cache * bool :=
  if bool_decide (hash key ∈ pending_requests c) then (c, true)
  else ((if mem then with_pending c (pending_requests c ++ [hash key]) else c), false).

Fixpoint remove_first (x : Z) (l : list Z) : list Z :=
  match l with
  | [] => []
  | y :: l => if y =? x then l else y :: remove_first x l
  end.

Definition _cache_notify_waiting_tid_locked (c : Cache) (key : Entry) : Cache := with_pending c (remove_first (hash key) (pending_requests c)).

(** ** Operations of a cache *)

Fixpoint flush_chain (fuel : nat) (h : heap) (node : option nat) : result heap :=
  match node with
  | None => Ok h
  | Some p =>
      match fuel with
      | O => Fault
      | S fuel => e <-- deref h p ;; flush_chain fuel (delete p h) (hlink e)
      end
  end.

Fixpoint flush_slots (h : heap) (slots : list (option nat)) : result heap :=
  match slots with
  | [] => Ok h
  | s :: slots => h <-- flush_chain (size h) h s ;; flush_slots h slots
  end.

Definition _cache_flush_locked (c : Cache) : result Cache :=
  h <-- flush_slots (memory c) (entries c) ;;
  h <-- set_next h mru_list (Some mru_list) ;;
  h <-- set_prev h mru_list (Some mru_list) ;;
  Ok (MkCache (max_entries c) 0 h 0 (replicate (length (entries c)) None) (pending_requests (_cache_flush_pending_requests_locked c))).

Abbreviation CONFIG_MAX_ENTRIES := (64 * 2 * 5).

(** The argument is the value of ANDROID_DNS_MODE. *)
Definition _res_cache_get_max_entries (cache_mode : option string) : Z :=
  match cache_mode with
  | Some m => if bool_decide (m = "local"%string) then CONFIG_MAX_ENTRIES else 0
  | None => 0
  end.

Definition _resolv_cache_create (cache_mode : option string) : Cache :=
  let n := _res_cache_get_max_entries cache_mode in
  MkCache n 0 {[mru_list := MkEntry 0 None (Some mru_list) (Some mru_list) [] [] 0 0]} 0 (replicate (Z.to_nat n) None) [].

Inductive ResolvCacheStatus := RESOLV_CACHE_UNSUPPORTED | RESOLV_CACHE_NOTFOUND | RESOLV_CACHE_FOUND.

(** What a lookup gives: the status, [*answerlen] and the answer, where they are set, or that the thread waits. *)
Inductive looked := Returns (s : ResolvCacheStatus) (answerlen : option nat) (ans : option (list Z)) | Waits.

(** The part of a lookup behind the search. *)
Definition lookup_found (c : Cache) (lookup : place) (p : nat) (answersize : nat) (now : Z) : result (Cache * looked) :=
  e <-- deref (memory c) p ;;
  if expires e <=? now then
    c <-- _cache_remove_p c lookup ;;
    Ok (c, Returns RESOLV_CACHE_NOTFOUND None None)
  else
    let len := length (answer e) in
    if (answersize <? len)%nat then Ok (c, Returns RESOLV_CACHE_UNSUPPORTED (Some len) None) else
    l <-- deref (memory c) mru_list ;;
    c <-- (if bool_decide (Some p = mru_next l) then Ok c else
           h <-- entry_mru_remove (memory c) p ;;
           h <-- entry_mru_add h p mru_list ;;
           Ok (with_memory c h)) ;;
    Ok (c, Returns RESOLV_CACHE_FOUND (Some len) (Some (answer e))).

Definition lookup_begin (c : Cache) (key : Entry) (answersize : nat) (now : Z) (mem : bool) : result (Cache * looked) :=
  lookup <-- _cache_lookup_p c key ;;
  e <-- read_place c lookup ;;
  match e with
  | Some p => lookup_found c lookup p answersize now
  | None =>
      let '(c, pending) := _cache_check_pending_request_locked c key mem in
      Ok (c, if pending then Waits else Returns RESOLV_CACHE_NOTFOUND None None)
  end.

Definition lookup_resume (c : Cache) (key : Entry) (answersize : nat) (now : Z) : result (Cache * looked) :=
  lookup <-- _cache_lookup_p c key ;;
  e <-- read_place c lookup ;;
  match e with
  | Some p => lookup_found c lookup p answersize now
  | None => Ok (c, Returns RESOLV_CACHE_NOTFOUND None None)
  end.

(** Room for an entry, and the place for it; [None] if the query is in the cache. *)
Definition make_room (c : Cache) (key : Entry) (now : Z) : result (Cache * option place) :=
  lookup <-- _cache_lookup_p c key ;;
  e <-- read_place c lookup ;;
  match e with
  | Some _ => Ok (c, None)
  | None =>
      if max_entries c <=? num_entries c then
        c <-- _cache_remove_expired c now ;;
        c <-- (if max_entries c <=? num_entries c then _cache_remove_oldest c else Ok c) ;;
        lookup <-- _cache_lookup_p c key ;;
        e <-- read_place c lookup ;;
        Ok (c, match e with Some _ => None | None => Some lookup end)
      else Ok (c, Some lookup)
  end.

(** [calloc] gives an address of memory that is not in use, and [mem] tells whether there is such memory. *)
Definition cache_add (calloc : heap -> nat) (c : Cache) (key : Entry) (ans : list Z) (now now2 : Z) (mem : bool) : result Cache :=
  r <-- make_room c key now ;;
  let '(c, lookup) := r in
  c <-- (match lookup with
         | None => Ok c
         | Some lookup =>
             ttl <-- answer_getTTL ans ;;
             if (0 <? ttl) && mem then
               let p := calloc (memory c) in
               let e := entry_alloc key ans in
               let e := MkEntry (hash e) (hlink e) (mru_prev e) (mru_next e) (query e) (answer e) (wrapS 64 (ttl + now2)) (id e) in
               _cache_add_p (with_memory c (<[p := e]> (memory c))) lookup p
             else Ok c
         end) ;;
  Ok (_cache_notify_waiting_tid_locked c key).

(** ** The caches of all networks *)

(** The list of [resolv_cache_info]: the number of a network and its cache. *)
Abbreviation cache_infos := (list (Z * Cache)).

Fixpoint _find_cache_info_locked (infos : cache_infos) (netid : Z) : option nat :=
  match infos with
  | [] => None
  | (n, _) :: infos => if n =? netid then Some 0%nat else S <$> _find_cache_info_locked infos netid
  end.

Definition _find_named_cache_locked (infos : cache_infos) (netid : Z) : option (nat * Cache) :=
  i ← _find_cache_info_locked infos netid; x ← infos !! i; Some (i, x.2).

Definition _insert_cache_info_locked (infos : cache_infos) (netid : Z) (c : Cache) : cache_infos := infos ++ [(netid, c)].

(** The cache of a network at its place in the list. *)
Definition put_cache (infos : cache_infos) (netid : Z) (i : nat) (c : Cache) : cache_infos := <[i := (netid, c)]> infos.

(** [mem] tells whether there is memory for a new cache. *)
Definition _get_res_cache_for_net_locked (cache_mode : option string) (infos : cache_infos) (netid : Z) (mem : bool) : cache_infos :=
  match _find_named_cache_locked infos netid with
  | Some _ => infos
  | None => if mem then _insert_cache_info_locked infos netid (_resolv_cache_create cache_mode) else infos
  end.

Definition _flush_cache_for_net_locked (infos : cache_infos) (netid : Z) : result cache_infos :=
  match _find_named_cache_locked infos netid with
  | Some (i, c) => c <-- _cache_flush_locked c ;; Ok (put_cache infos netid i c)
  | None => Ok infos
  end.

Definition _resolv_delete_cache_for_net (infos : cache_infos) (netid : Z) : result cache_infos :=
  match _find_named_cache_locked infos netid with
  | Some (i, c) => c <-- _cache_flush_locked c ;; Ok (delete i infos)
  | None => Ok infos
  end.

Definition _resolv_cache_query_failed (infos : cache_infos) (netid : Z) (q : list Z) : result cache_infos :=
  r <-- entry_init_key q ;;
  let '(key, ok) := r in
  if negb ok then Ok infos else
  Ok (match _find_named_cache_locked infos netid with
      | Some (i, c) => put_cache infos netid i (_cache_notify_waiting_tid_locked c key)
      | None => infos
      end).

Definition _resolv_cache_lookup (infos : cache_infos) (netid : Z) (q : list Z) (answersize : nat) (now : Z) (mem : bool) : result (cache_infos * looked) :=
  r <-- entry_init_key q ;;
  let '(key, ok) := r in
  if negb ok then Ok (infos, Returns RESOLV_CACHE_UNSUPPORTED None None) else
  match _find_named_cache_locked infos netid with
  | None => Ok (infos, Returns RESOLV_CACHE_UNSUPPORTED None None)
  | Some (i, c) =>
      r <-- lookup_begin c key answersize now mem ;;
      Ok (put_cache infos netid i r.1, r.2)
  end.

(** The rest of a lookup that waited. *)
Definition resolv_cache_lookup_resume (infos : cache_infos) (netid : Z) (q : list Z) (answersize : nat) (now : Z) : result (cache_infos * looked) :=
  r <-- entry_init_key q ;;
  match _find_named_cache_locked infos netid with
  | None => Ok (infos, Returns RESOLV_CACHE_NOTFOUND None None)
  | Some (i, c) =>
      r <-- lookup_resume c r.1 answersize now ;;
      Ok (put_cache infos netid i r.1, r.2)
  end.

Definition _resolv_cache_add (calloc : heap -> nat) (infos : cache_infos) (netid : Z) (q ans : list Z) (now now2 : Z) (mem : bool) : result cache_infos :=
  r <-- entry_init_key q ;;
  let '(key, ok) := r in
  if negb ok then Ok infos else
  match _find_named_cache_locked infos netid with
  | None => Ok infos
  | Some (i, c) =>
      c <-- cache_add calloc c key ans now now2 mem ;;
      Ok (put_cache infos netid i c)
  end.
