(* ===== verification/ResCacheCorrect.v ===== *)
(** The cache of the resolver keeps its promise: a list of answers in the order of their last use.

    The table and the list of uses of [ResCache] represent a list of items, the one used last in front.  Every operation of the
    code does what the operation on the list says. *)

From stdpp Require Import gmap.
From S2P Require Import Prelude Result NsName DnsPacket NsParse ResCache.
Local Open Scope Z_scope.

(** * Doubly linked lists *)

Section links.
Implicit Types (nx pv : gmap nat (option nat)).

(** Every element has the one behind it as its successor, and is the predecessor of it. *)
Fixpoint links nx pv (l : list nat) : Prop :=
  match l with
  | a :: ((b :: _) as l') => nx !! a = Some (Some b) /\ pv !! b = Some (Some a) /\ links nx pv l'
  | _ => True
  end.

Lemma links_cons nx pv a b l : links nx pv (a :: b :: l) <-> nx !! a = Some (Some b) /\ pv !! b = Some (Some a) /\ links nx pv (b :: l).
Proof. done. Qed.

Lemma links_app nx pv xs b ys : links nx pv (xs ++ b :: ys) <-> links nx pv (xs ++ [b]) /\ links nx pv (b :: ys).
Proof.
  induction xs as [|a xs IH]; [simpl; tauto|]. destruct xs as [|a' xs]; [simpl; tauto|].
  change ((a :: a' :: xs) ++ b :: ys) with (a :: a' :: (xs ++ b :: ys)). change ((a :: a' :: xs) ++ [b]) with (a :: a' :: (xs ++ [b])).
  rewrite !links_cons. change (a' :: xs ++ b :: ys) with ((a' :: xs) ++ b :: ys). change (a' :: xs ++ [b]) with ((a' :: xs) ++ [b]). tauto.
Qed.

Lemma links_frame_next nx pv x v xs b : x ∉ xs -> links nx pv (xs ++ [b]) -> links (<[x:=v]> nx) pv (xs ++ [b]).
Proof.
  induction xs as [|a xs IH]; intros Hx H; [done|]. apply not_elem_of_cons in Hx as [Ha Hx]. specialize (IH Hx).
  destruct xs as [|a' xs]; cbn [app] in *; rewrite links_cons in *; (rewrite lookup_insert_ne by done); tauto.
Qed.

Lemma links_frame_prev nx pv y v a ys : y ∉ ys -> links nx pv (a :: ys) -> links nx (<[y:=v]> pv) (a :: ys).
Proof.
  revert a. induction ys as [|b ys IH]; intros a Hy H; [done|]. apply not_elem_of_cons in Hy as [Hb Hy]. specialize (IH b Hy).
  rewrite links_cons in *. rewrite lookup_insert_ne by done. tauto.
Qed.

Lemma links_remove nx pv l1 p l2 : NoDup (0%nat :: l1 ++ p :: l2) -> links nx pv (0%nat :: l1 ++ p :: l2 ++ [0%nat]) -> exists b n ys,
  nx !! p = Some (Some n) /\ pv !! p = Some (Some b) /\ b ∈ 0%nat :: l1 /\ l2 ++ [0%nat] = n :: ys /\
  links (<[b := Some n]> nx) (<[n := Some b]> pv) (0%nat :: l1 ++ l2 ++ [0%nat]).
Proof.
  intros Hnd H. destruct (exists_last (l := 0%nat :: l1)) as (xs & b & Hb); [done|]. assert (exists n ys, l2 ++ [0%nat] = n :: ys) as (n & ys & Hn) by (destruct l2; by eexists _, _).
  change (0%nat :: l1 ++ p :: l2 ++ [0%nat]) with ((0%nat :: l1) ++ p :: l2 ++ [0%nat]) in H. rewrite Hb, <-app_assoc, Hn in H. cbn [app] in H.
  rewrite links_app, !links_cons in H. destruct H as (H1 & Hbp & Hpb & Hpn & Hnp & H2). exists b, n, ys. split_and!; [done|done|rewrite Hb; apply elem_of_app; right; by apply list_elem_of_singleton|done|].
  change (0%nat :: l1 ++ l2 ++ [0%nat]) with ((0%nat :: l1) ++ l2 ++ [0%nat]). rewrite Hn. 
  apply NoDup_cons in Hnd as [H0 Hnd]. apply NoDup_app in Hnd as (Hnd1 & Hdis & Hnd2). apply NoDup_cons in Hnd2 as [Hp2 Hnd2].
  assert (Hnl : n ∈ l2 ++ [0%nat]) by (rewrite Hn; by apply list_elem_of_here). assert (Hbl : b ∈ 0%nat :: l1) by (rewrite Hb; apply elem_of_app; right; by apply list_elem_of_singleton).
  assert (n ∉ l1) as Hn1. { apply elem_of_app in Hnl as [Hnl| ->%list_elem_of_singleton]; [|rewrite elem_of_app in H0; tauto]. intros Hin. apply (Hdis n Hin). by right. }
  assert (b ∉ l2) as Hb2. { apply elem_of_cons in Hbl as [->|Hbl]; [|intros Hin; apply (Hdis b Hbl); by right]. intros Hin. apply H0. apply elem_of_app. right. by right. }
  assert (NoDup (xs ++ [b])) as Hndb by (rewrite <-Hb; constructor; [rewrite elem_of_app in H0; tauto|done]).
  assert (NoDup (n :: ys)) as Hndn. { rewrite <-Hn. apply NoDup_app. split; [done|]. split; [|apply NoDup_singleton]. intros x Hx ->%list_elem_of_singleton. apply H0. apply elem_of_app. right. by right. }
  rewrite Hb, <-app_assoc. cbn [app]. rewrite links_app. split; [|rewrite links_cons; split_and!].
  - apply links_frame_next; [apply NoDup_app in Hndb as (_ & Hd & _); intros Hin; apply (Hd b Hin); by apply list_elem_of_singleton|]. rewrite <-Hb in *. by apply links_frame_prev.
  - by rewrite lookup_insert_eq.
  - by rewrite lookup_insert_eq.
  - apply links_frame_prev; [by apply NoDup_cons in Hndn as [? _]|]. rewrite <-Hn in *. by apply links_frame_next.
Qed.

Lemma links_add nx pv p l : p <> 0%nat -> p ∉ l -> 0%nat ∉ l -> NoDup l -> links nx pv (0%nat :: l ++ [0%nat]) -> exists f ys, l ++ [0%nat] = f :: ys /\ nx !! 0%nat = Some (Some f) /\
  links (<[0%nat := Some p]> (<[p := Some f]> nx)) (<[f := Some p]> (<[p := Some 0%nat]> pv)) (0%nat :: p :: l ++ [0%nat]).
Proof.
  intros Hp0 Hpl H0 Hnd H. assert (exists f ys, l ++ [0%nat] = f :: ys) as (f & ys & Hf) by (destruct l; by eexists _, _). exists f, ys. rewrite Hf in *. rewrite !links_cons in *. destruct H as (H1 & H2 & H3).
  assert (Hfl : f ∈ l ++ [0%nat]) by (rewrite Hf; by apply list_elem_of_here). assert (p <> f) as Hpf by (rewrite elem_of_app, list_elem_of_singleton in Hfl; intros ->; tauto).
  assert (NoDup (f :: ys)) as Hndf. { rewrite <-Hf. apply NoDup_app. split; [done|]. split; [|apply NoDup_singleton]. by intros x Hx ->%list_elem_of_singleton. }
  split_and!; [done|done| | | | |].
  - by rewrite lookup_insert_eq.
  - by rewrite lookup_insert_ne, lookup_insert_eq.
  - by rewrite lookup_insert_ne, lookup_insert_eq.
  - by rewrite lookup_insert_eq.
  - apply links_frame_prev; [by apply NoDup_cons in Hndf as [? _]|]. rewrite <-Hf in *. apply links_frame_next; [done|]. apply links_frame_next; [done|]. rewrite Hf in *.
    apply links_frame_prev; [|done]. intros Hin. assert (p ∈ l ++ [0%nat]) as Hin' by (rewrite Hf; by right). rewrite elem_of_app, list_elem_of_singleton in Hin'. tauto.
Qed.
End links.

(** * The memory, field by field *)

Definition hlinks (h : heap) : gmap nat (option nat) := hlink <$> h.
Definition prevs (h : heap) : gmap nat (option nat) := mru_prev <$> h.
Definition nexts (h : heap) : gmap nat (option nat) := mru_next <$> h.
Definition data (e : Entry) : Z * list Z * list Z * Z := (hash e, query e, answer e, expires e).
Definition datas (h : heap) : gmap nat (Z * list Z * list Z * Z) := data <$> h.

(** All but the links of uses, and all but the links of the table. *)
Definition same_table (h h' : heap) : Prop := hlinks h' = hlinks h /\ datas h' = datas h.
Definition same_uses (h h' : heap) : Prop := nexts h' = nexts h /\ prevs h' = prevs h /\ datas h' = datas h.

(** A field of an entry is written. *)
Lemma fmap_field {A} (f : Entry -> A) (h : heap) p e e' : h !! p = Some e -> f e' = f e -> f <$> <[p := e']> h = f <$> h.
Proof. intros He Hf. rewrite fmap_insert, Hf. apply insert_id. by rewrite lookup_fmap, He. Qed.

Lemma deref_Some h p e : h !! p = Some e -> deref h p = Ok e.
Proof. intros H. unfold deref. by rewrite H. Qed.

Lemma set_next_spec h p v : is_Some (h !! p) -> exists h', set_next h p v = Ok h' /\ same_table h h' /\ nexts h' = <[p := v]> (nexts h) /\ prevs h' = prevs h.
Proof.
  intros [e He]. unfold set_next. rewrite (deref_Some _ _ _ He). cbn [obind]. eexists. split; [done|]. unfold same_table, hlinks, datas, nexts, prevs.
  rewrite (fmap_field hlink h p e), (fmap_field mru_prev h p e), (fmap_field data h p e) by done. by rewrite fmap_insert.
Qed.

Lemma set_prev_spec h p v : is_Some (h !! p) -> exists h', set_prev h p v = Ok h' /\ same_table h h' /\ prevs h' = <[p := v]> (prevs h) /\ nexts h' = nexts h.
Proof.
  intros [e He]. unfold set_prev. rewrite (deref_Some _ _ _ He). cbn [obind]. eexists. split; [done|]. unfold same_table, hlinks, datas, nexts, prevs.
  rewrite (fmap_field hlink h p e), (fmap_field mru_next h p e), (fmap_field data h p e) by done. by rewrite fmap_insert.
Qed.

Lemma set_hlink_spec h p v : is_Some (h !! p) -> exists h', set_hlink h p v = Ok h' /\ same_uses h h' /\ hlinks h' = <[p := v]> (hlinks h).
Proof.
  intros [e He]. unfold set_hlink. rewrite (deref_Some _ _ _ He). cbn [obind]. eexists. split; [done|]. unfold same_uses, hlinks, datas, nexts, prevs.
  rewrite (fmap_field mru_next h p e), (fmap_field mru_prev h p e), (fmap_field data h p e) by done. by rewrite fmap_insert.
Qed.

Lemma set_id_spec h p v : is_Some (h !! p) -> exists h', set_id h p v = Ok h' /\ same_uses h h' /\ hlinks h' = hlinks h.
Proof.
  intros [e He]. unfold set_id. rewrite (deref_Some _ _ _ He). cbn [obind]. eexists. split; [done|]. unfold same_uses, hlinks, datas, nexts, prevs.
  by rewrite (fmap_field hlink h p e), (fmap_field mru_prev h p e), (fmap_field mru_next h p e), (fmap_field data h p e) by done.
Qed.

(** An address is in use if it has any of the fields. *)
Lemma used_next h p v : nexts h !! p = Some v -> exists e, h !! p = Some e /\ mru_next e = v.
Proof. unfold nexts. rewrite lookup_fmap. destruct (h !! p) as [e|]; [|done]. intros [= <-]. by exists e. Qed.

Lemma used_prev h p v : prevs h !! p = Some v -> exists e, h !! p = Some e /\ mru_prev e = v.
Proof. unfold prevs. rewrite lookup_fmap. destruct (h !! p) as [e|]; [|done]. intros [= <-]. by exists e. Qed.

Lemma used_data h p d : datas h !! p = Some d -> exists e, h !! p = Some e /\ data e = d.
Proof. unfold datas. rewrite lookup_fmap. destruct (h !! p) as [e|]; [|done]. intros [= <-]. by exists e. Qed.

Lemma used_hlink h p v : hlinks h !! p = Some v -> exists e, h !! p = Some e /\ hlink e = v.
Proof. unfold hlinks. rewrite lookup_fmap. destruct (h !! p) as [e|]; [|done]. intros [= <-]. by exists e. Qed.

Lemma datas_used h h' p : datas h' = datas h -> is_Some (h !! p) <-> is_Some (h' !! p).
Proof. intros E. apply (f_equal (.!! p)) in E. unfold datas in E. rewrite !lookup_fmap in E. rewrite <-!(fmap_is_Some data). by rewrite E. Qed.

(** The list of uses. *)
Definition ring (h : heap) (ps : list nat) : Prop := links (nexts h) (prevs h) (0%nat :: ps ++ [0%nat]).

Lemma ring_used h ps p : ring h ps -> p ∈ 0%nat :: ps -> is_Some (h !! p).
Proof.
  unfold ring. intros H Hin. assert (forall l, links (nexts h) (prevs h) (l ++ [0%nat]) -> forall p, p ∈ l -> is_Some (h !! p)) as Hl.
  { clear. induction l as [|a l IH]; intros H p Hin; [by apply elem_of_nil in Hin|]. apply elem_of_cons in Hin as [->|Hin].
    - destruct l as [|b l]; cbn [app] in H; rewrite links_cons in H; destruct H as [H _]; destruct (used_next _ _ _ H) as (e & -> & _); by eexists.
    - apply IH; [|done]. destruct l as [|b l]; cbn [app] in H; rewrite links_cons in H; tauto. }
  by apply (Hl (0%nat :: ps)).
Qed.

Lemma mru_remove_spec h l1 p l2 : NoDup (0%nat :: l1 ++ p :: l2) -> ring h (l1 ++ p :: l2) ->
  exists h', entry_mru_remove h p = Ok h' /\ same_table h h' /\ ring h' (l1 ++ l2).
Proof.
  intros Hnd Hr. pose proof (ring_used _ _ p Hr) as [e He]; [right; apply elem_of_app; right; apply list_elem_of_here|]. pose proof Hr as Hl. unfold ring in Hl. rewrite <-app_assoc in Hl. cbn [app] in Hl.
  destruct (links_remove _ _ _ _ _ Hnd Hl) as (b & n & ys & Hn & Hb & Hbin & Hys & Hnew). unfold nexts in Hn. unfold prevs in Hb. rewrite lookup_fmap, He in Hn, Hb. injection Hn as Hn. injection Hb as Hb.
  unfold entry_mru_remove. rewrite (deref_Some _ _ _ He). cbn [obind]. rewrite Hb, Hn. cbn [run obind].
  destruct (set_next_spec h b (Some n)) as (h1 & -> & [Ht1 Ht2] & Hn1 & Hp1). { apply (ring_used _ _ _ Hr). rewrite elem_of_cons, elem_of_app in *. tauto. } cbn [obind].
  assert (b <> p) as Hbp. { intros ->. apply NoDup_cons in Hnd as [H0 Hnd]. apply NoDup_app in Hnd as (_ & Hd & _). apply elem_of_cons in Hbin as [->|Hbin]; [apply H0, elem_of_app; right; apply list_elem_of_here|]. apply (Hd p Hbin), list_elem_of_here. }
  assert (nexts h1 !! p = Some (Some n)) as Hn2 by (rewrite Hn1, lookup_insert_ne by done; unfold nexts; rewrite lookup_fmap, He; simpl; congruence).
  assert (prevs h1 !! p = Some (Some b)) as Hp2 by (rewrite Hp1; unfold prevs; rewrite lookup_fmap, He; simpl; congruence).
  destruct (used_next _ _ _ Hn2) as (e1 & He1 & Hne). destruct (used_prev _ _ _ Hp2) as (e1' & He1' & Hpe). assert (e1' = e1) as -> by congruence.
  rewrite (deref_Some _ _ _ He1). cbn [obind]. rewrite Hne, Hpe. cbn [run obind].
  assert (is_Some (h !! n)) as Hnu. { apply (ring_used _ _ _ Hr). assert (n ∈ l2 ++ [0%nat]) as Hin by (rewrite Hys; apply list_elem_of_here). rewrite elem_of_app, list_elem_of_singleton in Hin. rewrite elem_of_cons, elem_of_app, elem_of_cons. tauto. }
  destruct (set_prev_spec h1 n (Some b)) as (h2 & -> & [Ht3 Ht4] & Hp3 & Hn3); [by apply (datas_used h h1)|]. exists h2. split; [done|]. split; [split; congruence|].
  unfold ring. rewrite Hn3, Hp3, Hn1, Hp1, <-app_assoc. done.
Qed.

Lemma mru_add_spec h p l : p <> 0%nat -> p ∉ l -> 0%nat ∉ l -> NoDup l -> is_Some (h !! p) -> ring h l ->
  exists h', entry_mru_add h p 0%nat = Ok h' /\ same_table h h' /\ ring h' (p :: l).
Proof.
  intros Hp0 Hpl H0 Hnd Hp Hr. destruct (links_add _ _ p l Hp0 Hpl H0 Hnd Hr) as (f & ys & Hf & Hn & Hnew). destruct (used_next _ _ _ Hn) as (e & He & Hne). unfold entry_mru_add. rewrite (deref_Some _ _ _ He). cbn [obind]. rewrite Hne.
  assert (is_Some (h !! f)) as Hfu. { apply (ring_used _ _ _ Hr). assert (f ∈ l ++ [0%nat]) as Hin by (rewrite Hf; apply list_elem_of_here). rewrite elem_of_app, list_elem_of_singleton in Hin. rewrite elem_of_cons. tauto. }
  destruct (set_next_spec h p (Some f)) as (h1 & -> & [A1 B1] & N1 & P1); [done|]. cbn [obind].
  destruct (set_prev_spec h1 p (Some 0%nat)) as (h2 & -> & [A2 B2] & P2 & N2); [by apply (datas_used h h1)|]. cbn [obind].
  destruct (set_next_spec h2 0 (Some p)) as (h3 & -> & [A3 B3] & N3 & P3); [apply (datas_used h h2); [congruence|by eexists]|]. cbn [run obind].
  destruct (set_prev_spec h3 f (Some p)) as (h4 & -> & [A4 B4] & P4 & N4); [apply (datas_used h h3); [congruence|done]|]. exists h4. split; [done|]. split; [split; congruence|].
  unfold ring. rewrite N4, P4, N3, P3, N2, P2, N1, P1. exact Hnew.
Qed.

(** * Chains of the table *)

#[export] Instance place_eq_dec : EqDecision place.
Proof. solve_decision. Defined.

#[export] Instance Link_inj : Inj (=) (=) Link.
Proof. intros p q E. by injection E. Qed.

(** The table and the links of the entries. *)
Definition links_of (c : Cache) : list (option nat) * gmap nat (option nat) := (entries c, hlinks (memory c)).

Section walk.
Implicit Types (st : list (option nat) * gmap nat (option nat)) (l x : place) (c : list nat) (o : option nat).

Definition rd st l : option (option nat) := match l with Slot i => st.1 !! i | Link p => st.2 !! p end.
Definition wr st l o := match l with Slot i => (<[i := o]> st.1, st.2) | Link p => (st.1, <[p := o]> st.2) end.

Lemma rd_wr st x v : is_Some (rd st x) -> rd (wr st x v) x = Some v.
Proof. destruct x as [i|p]; simpl; intros H; [|by rewrite lookup_insert_eq]. apply list_lookup_insert_eq. by apply lookup_lt_is_Some. Qed.

Lemma rd_wr_ne st x y v : y <> x -> rd (wr st x v) y = rd st y.
Proof. destruct x as [i|p], y as [j|q]; simpl; intros H; try done; [rewrite list_lookup_insert_ne|rewrite lookup_insert_ne]; congruence. Qed.

(** Going from [l] through the entries of [c] one comes to a place with [o]. *)
Fixpoint walk st l c o : Prop :=
  match c with
  | [] => rd st l = Some o
  | p :: c => rd st l = Some (Some p) /\ walk st (Link p) c o
  end.

Definition endp l c : place := match last c with Some p => Link p | None => l end.

Lemma endp_cons l p c : endp l (p :: c) = endp (Link p) c.
Proof. unfold endp. rewrite last_cons. by destruct (last c). Qed.

Lemma endp_in l c : endp l c ∈ l :: (Link <$> c).
Proof. revert l. induction c as [|p c IH]; intros l; [apply list_elem_of_here|]. rewrite endp_cons. right. apply IH. Qed.

Lemma walk_app st l c1 p c2 o : walk st l (c1 ++ p :: c2) o <-> walk st l c1 (Some p) /\ walk st (Link p) c2 o.
Proof. revert l. induction c1 as [|q c1 IH]; intros l; simpl; [done|]. rewrite IH. tauto. Qed.

Lemma walk_end st l c o : walk st l c o -> rd st (endp l c) = Some o.
Proof. revert l. induction c as [|p c IH]; intros l H; [done|]. destruct H as [_ H]. rewrite endp_cons. by apply IH. Qed.

Lemma walk_frame st l c o x v : x ∉ l :: (Link <$> c) -> walk st l c o -> walk (wr st x v) l c o.
Proof.
  revert l. induction c as [|p c IH]; intros l Hx; apply not_elem_of_cons in Hx as [Hx Hc]; simpl; (rewrite rd_wr_ne by done); [done|]. intros [H1 H2]. split; [done|]. by apply IH.
Qed.

Lemma walk_write st l c o v : NoDup (l :: (Link <$> c)) -> walk st l c o -> walk (wr st (endp l c) v) l c v.
Proof.
  revert l. induction c as [|p c IH]; intros l Hnd H.
  - simpl in *. apply rd_wr. by rewrite H.
  - destruct H as [H1 H2]. rewrite endp_cons. apply NoDup_cons in Hnd as [Hl Hnd]. split; [|by apply IH]. rewrite rd_wr_ne; [done|]. intros ->. apply Hl, endp_in.
Qed.

Lemma NoDup_slot i c : NoDup c -> NoDup (Slot i :: (Link <$> c)).
Proof. intros H. constructor; [by intros (p & ? & _)%list_elem_of_fmap|]. by apply NoDup_fmap_2; [apply _|]. Qed.

(** An entry is added at the end of a chain. *)
Lemma walk_append st i c p : NoDup c -> p ∉ c -> st.2 !! p = Some None -> walk st (Slot i) c None -> walk (wr st (endp (Slot i) c) (Some p)) (Slot i) (c ++ [p]) None.
Proof.
  intros Hnd Hp Hhl H. apply walk_app. split; [apply (walk_write _ _ _ None); [by apply NoDup_slot|done]|]. cbn [walk]. rewrite (rd_wr_ne _ _ (Link p)); [done|].
  intros E. pose proof (endp_in (Slot i) c) as Hin. rewrite <-E in Hin. apply elem_of_cons in Hin as [|(q & [= ->] & Hq)%list_elem_of_fmap]; done.
Qed.

(** An entry is taken out of a chain. *)
Lemma walk_remove st i c1 p c2 o : NoDup (c1 ++ p :: c2) -> walk st (Slot i) (c1 ++ p :: c2) None -> st.2 !! p = Some o -> walk (wr st (endp (Slot i) c1) o) (Slot i) (c1 ++ c2) None.
Proof.
  intros Hnd H Ho. apply walk_app in H as [H1 H2]. apply NoDup_app in Hnd as (Hnd1 & Hdis & Hnd2). pose proof (walk_write _ _ _ _ o (NoDup_slot i c1 Hnd1) H1) as Hw.
  destruct c2 as [|q c2]; [rewrite app_nil_r; simpl in H2; congruence|]. destruct H2 as [Hq H2]. simpl in Hq. assert (o = Some q) as -> by congruence. apply walk_app. split; [done|].
  apply walk_frame; [|done]. intros Hin. pose proof (endp_in (Slot i) c1) as Hin1. destruct (endp (Slot i) c1) as [j|r]; [apply elem_of_cons in Hin as [|(? & ? & _)%list_elem_of_fmap]; done|].
  apply elem_of_cons in Hin1 as [|(r' & [= <-] & Hr)%list_elem_of_fmap]; [done|]. apply (Hdis r Hr). right. apply (list_elem_of_fmap_inj Link). exact Hin.
Qed.

Lemma walk_delete st i c o p : p ∉ c -> walk st (Slot i) c o -> walk (st.1, delete p st.2) (Slot i) c o.
Proof.
  intros Hp. enough (forall l, l <> Link p -> walk st l c o -> walk (st.1, delete p st.2) l c o) as H by by apply H.
  induction c as [|q c IH]; intros l Hl.
  - destruct l as [j|r]; simpl; [done|]. rewrite lookup_delete_ne by congruence. done.
  - apply not_elem_of_cons in Hp as [Hpq Hp]. intros [H1 H2]. split; [|apply IH; [done|congruence|done]]. destruct l as [j|r]; simpl in *; [done|]. by rewrite lookup_delete_ne by congruence.
Qed.

Lemma walk_insert_fresh st i c o p v : p ∉ c -> walk st (Slot i) c o -> walk (st.1, <[p := v]> st.2) (Slot i) c o.
Proof.
  intros Hp. apply (walk_frame st (Slot i) c o (Link p) v). intros [|(q & [= ->] & Hq)%list_elem_of_fmap]%elem_of_cons; done.
Qed.
End walk.

Lemma read_place_spec c l : read_place c l = run (rd (links_of c) l).
Proof. destruct l as [i|p]; simpl; [done|]. unfold deref, hlinks. rewrite lookup_fmap. by destruct (memory c !! p). Qed.

(** The fields of a cache but its memory and its table. *)
Definition same_counts (c c' : Cache) : Prop :=
  max_entries c' = max_entries c /\ num_entries c' = num_entries c /\ last_id c' = last_id c /\ pending_requests c' = pending_requests c.

Lemma write_place_spec c l v : is_Some (rd (links_of c) l) -> exists c', write_place c l v = Ok c' /\ same_uses (memory c) (memory c') /\ links_of c' = wr (links_of c) l v /\ same_counts c c'.
Proof.
  destruct l as [i|p]; simpl; intros H.
  - rewrite (proj2 (Nat.ltb_lt _ _)) by (by apply lookup_lt_is_Some). eexists. split; [done|]. done.
  - destruct H as [o Ho]. destruct (used_hlink _ _ _ Ho) as (e & He & _). destruct (set_hlink_spec (memory c) p v) as (h & -> & Hs & Hh); [by eexists|]. cbn [obind]. eexists. split; [done|].
    split; [done|]. split; [|done]. unfold links_of. cbn [memory entries with_memory]. by rewrite Hh.
Qed.

(** * Keys *)

Definition qhash (q : list Z) : Z := match _dnsPacket_hashQuery q with Ok h => h | _ => 0 end.

(** Two queries have the same entry. *)
Definition same_key (q1 q2 : list Z) : bool :=
  (qhash q1 =? qhash q2) && (length q1 =? length q2)%nat && match _dnsPacket_isEqualQuery q1 q2 with Ok b => b | _ => false end.

Definition good (q : list Z) : Prop := Forall is_byte q /\ regular q.

Lemma good_hash q : good q -> _dnsPacket_hashQuery q = Ok (qhash q).
Proof.
  intros [_ Hr]. unfold qhash. destruct (lookup_lt_is_Some_2 q 2) as [b Hb]; [apply regular_length in Hr; lia|]. by rewrite (hashQuery_spec q b Hb).
Qed.

Lemma same_key_true q1 q2 : same_key q1 q2 = true <-> qhash q1 = qhash q2 /\ length q1 = length q2 /\ _dnsPacket_isEqualQuery q1 q2 = Ok true.
Proof.
  unfold same_key. rewrite !andb_true_iff, Z.eqb_eq, Nat.eqb_eq. destruct (_dnsPacket_isEqualQuery q1 q2) as [[]| |]; split; intros; destruct_and?; done.
Qed.

Lemma same_key_refl q : good q -> same_key q q = true.
Proof. intros [_ H]. by apply same_key_true. Qed.

Lemma same_key_sym q1 q2 : same_key q1 q2 = true -> same_key q2 q1 = true.
Proof. rewrite !same_key_true. intros (H1 & H2 & H3). by rewrite equal_query_sym. Qed.

Lemma same_key_trans q1 q2 q3 : good q1 -> good q2 -> good q3 -> same_key q1 q2 = true -> same_key q2 q3 = true -> same_key q1 q3 = true.
Proof.
  intros [B1 R1] [B2 R2] [B3 R3]. rewrite !same_key_true. intros (H1 & L1 & E1) (H2 & L2 & E2). split_and!; [congruence|congruence|]. by apply (equal_query_trans q1 q2 q3).
Qed.

(** The comparison of an entry of a chain with the key. *)
Lemma entry_match e key : good (query e) -> good (query key) -> hash e = qhash (query e) -> hash key = qhash (query key) ->
  (if hash e =? hash key then entry_equals e key else Ok false) = Ok (same_key (query e) (query key)).
Proof.
  intros [B1 R1] [B2 R2] -> ->. unfold same_key, entry_equals. destruct (_ =? _); [|done]. destruct (Nat.eqb_spec (length (query e)) (length (query key))); cbn [negb andb]; [|done].
  by destruct (equal_query_total (query e) (query key) R1 B1 B2) as [b ->].
Qed.

(** * Items *)

Record item := Item { iq : list Z; ians : list Z; iexp : Z }.

Definition fields (x : item) : Z * list Z * list Z * Z := (qhash (iq x), iq x, ians x, iexp x).

(** The entries at the addresses [ps], the one used last in front, hold the items [l]; [cs] are the chains of the table. *)
Record represents (c : Cache) (ps : list nat) (cs : list (list nat)) (l : list item) : Prop := Represents {
  r_nodup : NoDup (0%nat :: ps);
  r_ring : ring (memory c) ps;
  r_used : forall p, is_Some (memory c !! p) <-> p ∈ 0%nat :: ps;
  r_data : Forall2 (fun p x => datas (memory c) !! p = Some (fields x)) ps l;
  r_max : 0 < max_entries c;
  r_len : length (entries c) = Z.to_nat (max_entries c);
  r_cs : length cs = Z.to_nat (max_entries c);
  r_walk : forall i cl, cs !! i = Some cl -> walk (links_of c) (Slot i) cl None;
  r_bucket : forall i cl p d, cs !! i = Some cl -> p ∈ cl -> datas (memory c) !! p = Some d -> Z.to_nat (d.1.1.1 mod max_entries c) = i;
  r_perm : concat cs ≡ₚ ps;
  r_num : num_entries c = Z.of_nat (length l);
  r_good : forall n x, l !! n = Some x -> good (iq x);
  r_distinct : forall i j x y, l !! i = Some x -> l !! j = Some y -> same_key (iq x) (iq y) = true -> i = j;
}.

Lemma elem_of_concat {A} (x : A) ls : x ∈ concat ls <-> exists l, x ∈ l /\ l ∈ ls.
Proof. rewrite list_elem_of_In, in_concat. split; intros (l & H1 & H2); exists l; rewrite !list_elem_of_In in *; done. Qed.

Section represented.
Context (c : Cache) (ps : list nat) (cs : list (list nat)) (l : list item) (R : represents c ps cs l).

Lemma r_size : size (memory c) = S (length ps).
Proof using R.
  rewrite <-size_dom. assert (dom (memory c) = list_to_set (C := gset nat) (0%nat :: ps)) as ->.
  { apply set_eq. intros p. rewrite elem_of_dom, elem_of_list_to_set. apply (r_used _ _ _ _ R). }
  by rewrite size_list_to_set by apply (r_nodup _ _ _ _ R).
Qed.

Lemma r_chain i cl p : cs !! i = Some cl -> p ∈ cl -> p ∈ ps.
Proof using R. intros Hi Hp. rewrite <-(r_perm _ _ _ _ R). apply elem_of_concat. exists cl. split; [done|]. by apply list_elem_of_lookup_2 in Hi. Qed.

Lemma r_item n p : ps !! n = Some p -> exists x e, l !! n = Some x /\ memory c !! p = Some e /\ data e = fields x /\ good (iq x).
Proof using R.
  intros Hp. destruct (Forall2_lookup_l _ _ _ _ _ (r_data _ _ _ _ R) Hp) as (x & Hx & Hd). destruct (used_data _ _ _ Hd) as (e & He & Hde).
  exists x, e. split_and!; [done|done|done|by apply (r_good _ _ _ _ R n)].
Qed.

Lemma r_place n p x : ps !! n = Some p -> l !! n = Some x -> exists e, memory c !! p = Some e /\ data e = fields x.
Proof using R. intros Hp Hx. destruct (r_item n p Hp) as (x' & e & Hx' & He & Hd & _). exists e. split; [done|]. congruence. Qed.

(** The chain of an entry. *)
Lemma r_in_chain p d : p ∈ ps -> datas (memory c) !! p = Some d -> exists cl, cs !! Z.to_nat (d.1.1.1 mod max_entries c) = Some cl /\ p ∈ cl.
Proof using R.
  intros Hp Hd. rewrite <-(r_perm _ _ _ _ R), elem_of_concat in Hp. destruct Hp as (cl & Hin & Hcl). apply list_elem_of_lookup_1 in Hcl as [i Hi].
  rewrite (r_bucket _ _ _ _ R i cl p d Hi Hin Hd). by exists cl.
Qed.

Lemma r_chain_nodup i cl : cs !! i = Some cl -> NoDup cl.
Proof using R.
  intros Hi. pose proof (r_nodup _ _ _ _ R) as Hnd. apply NoDup_cons in Hnd as [_ Hnd]. rewrite <-(r_perm _ _ _ _ R) in Hnd.
  rewrite (delete_Permutation cs i cl Hi) in Hnd. cbn [concat] in Hnd. by apply NoDup_app in Hnd as [? _].
Qed.

Section key.
Context (key : Entry) (Hkey : good (query key)) (Hhash : hash key = qhash (query key)).

Lemma lookup_walk cl : (forall p, p ∈ cl -> p ∈ ps) -> forall fuel pl, (length cl < fuel)%nat -> walk (links_of c) pl cl None ->
  exists c1 c2, cl = c1 ++ c2 /\ lookup_loop fuel c key pl = Ok (endp pl c1) /\
    (forall n p x, p ∈ c1 -> ps !! n = Some p -> l !! n = Some x -> same_key (iq x) (query key) = false) /\
    (c2 = [] \/ exists p c3 n x, c2 = p :: c3 /\ ps !! n = Some p /\ l !! n = Some x /\ same_key (iq x) (query key) = true).
Proof using R Hkey Hhash.
  induction cl as [|p cl IH]; intros Hin fuel pl Hf Hw; (destruct fuel as [|fuel]; [simpl in Hf; lia|]); cbn [lookup_loop]; rewrite read_place_spec.
  - simpl in Hw. rewrite Hw. cbn [run obind]. exists [], []. split_and!; [done|done|by intros ??? ?%elem_of_nil|by left].
  - destruct Hw as [Hr Hw]. rewrite Hr. cbn [run obind]. destruct (list_elem_of_lookup_1 ps p) as [n Hn]; [apply Hin, list_elem_of_here|].
    destruct (r_item n p Hn) as (x & e & Hx & He & Hd & Hg). rewrite (deref_Some _ _ _ He). cbn [obind]. injection Hd as Hh Hq Ha Hexp.
    rewrite entry_match by (rewrite ?Hq, ?Hh; done). cbn [obind]. rewrite Hq. destruct (same_key (iq x) (query key)) eqn:Hs.
    + exists [], (p :: cl). split_and!; [done|done|by intros ??? ?%elem_of_nil|]. right. by exists p, cl, n, x.
    + destruct (IH ltac:(intros q Hq'; apply Hin; by right) fuel (Link p)) as (c1 & c2 & -> & -> & Hno & Hc2); [simpl in Hf; lia|done|].
      exists (p :: c1), c2. rewrite endp_cons. split_and!; [done|done| |done]. intros m q y [->|Hq']%elem_of_cons Hm Hy; [|by apply (Hno m q)].
      assert (m = n) as ->; [|congruence]. pose proof (r_nodup _ _ _ _ R) as Hnd. apply NoDup_cons in Hnd as [_ Hnd]. by apply (NoDup_lookup ps m n p).
Qed.

Lemma lookup_p_spec : exists i c1 c2, i = Z.to_nat (hash key mod max_entries c) /\ cs !! i = Some (c1 ++ c2) /\ _cache_lookup_p c key = Ok (endp (Slot i) c1) /\
  ((c2 = [] /\ forall n x, l !! n = Some x -> same_key (iq x) (query key) = false) \/
   exists p c3 n x, c2 = p :: c3 /\ ps !! n = Some p /\ l !! n = Some x /\ same_key (iq x) (query key) = true).
Proof using R Hkey Hhash.
  pose proof (r_max _ _ _ _ R) as Hm. set (i := Z.to_nat (hash key mod max_entries c)).
  assert (exists cl, cs !! i = Some cl) as [cl Hcl]. { apply lookup_lt_is_Some. rewrite (r_cs _ _ _ _ R). pose proof (Z.mod_pos_bound (hash key) _ Hm). lia. }
  assert (length cl <= length ps)%nat as Hlen.
  { rewrite <-(r_perm _ _ _ _ R), (delete_Permutation cs i cl Hcl). cbn [concat]. rewrite length_app. lia. }
  destruct (lookup_walk cl (fun p => r_chain i cl p Hcl) (size (memory c) + 1) (Slot i)) as (c1 & c2 & -> & Hlk & Hno & Hc2); [rewrite r_size; lia|by apply (r_walk _ _ _ _ R)|].
  exists i, c1, c2. split; [done|]. split; [done|]. split; [unfold _cache_lookup_p; by rewrite (proj2 (Z.eqb_neq _ _)) by lia|]. destruct Hc2 as [->|Hc2]; [|by right]. left. split; [done|]. intros n x Hx.
  destruct (same_key (iq x) (query key)) eqn:Hs; [|done]. rewrite <-Hs. destruct (Forall2_lookup_r _ _ _ _ _ (r_data _ _ _ _ R) Hx) as (p & Hp & Hd).
  apply (Hno n p x); [|done|done]. destruct (r_in_chain p _ (list_elem_of_lookup_2 _ _ _ Hp) Hd) as (cl & Hcl' & Hin). cbn in Hcl'. apply same_key_true in Hs as (Hh & _).
  rewrite Hh, <-Hhash in Hcl'. fold i in Hcl'. rewrite Hcl in Hcl'. injection Hcl' as <-. by rewrite app_nil_r in Hin.
Qed.
End key.
End represented.

(** * Removing an entry *)

Lemma links_delete nx pv p L : p ∉ L -> links nx pv L -> links (delete p nx) (delete p pv) L.
Proof.
  induction L as [|a L IH]; intros Hp H; [done|]. apply not_elem_of_cons in Hp as [Ha Hp]. specialize (IH Hp). destruct L as [|b L]; [done|]. apply not_elem_of_cons in Hp as [Hb _].
  rewrite links_cons in *. rewrite !lookup_delete_ne by done. tauto.
Qed.

(** The element of a shorter list was in the list. *)
Lemma lookup_delete_inv {A} (l : list A) n k x : delete n l !! k = Some x -> l !! (if (k <? n)%nat then k else S k) = Some x.
Proof. intros H. destruct (Nat.ltb_spec k n); [by rewrite list_lookup_delete_lt in H|by rewrite list_lookup_delete_ge in H]. Qed.

Lemma concat_insert {A} (cs : list (list A)) i cl cl' : cs !! i = Some cl -> exists rest, concat cs ≡ₚ cl ++ rest /\ concat (<[i := cl']> cs) ≡ₚ cl' ++ rest.
Proof.
  intros Hi. exists (concat (take i cs ++ drop (S i) cs)). pose proof (lookup_lt_Some _ _ _ Hi) as Hl. rewrite <-(take_drop_middle cs i cl Hi) at 1. rewrite insert_take_drop by done.
  rewrite !concat_app. cbn [concat]. split; apply Permutation_app_swap_app.
Qed.

Lemma r_disjoint c ps cs l i j a b x : represents c ps cs l -> cs !! i = Some a -> cs !! j = Some b -> x ∈ a -> x ∈ b -> i = j.
Proof.
  intros R Hi Hj Ha Hb. pose proof (r_chain _ _ _ _ R i a x Hi Ha) as Hp. apply list_elem_of_lookup_1 in Hp as [n Hn]. destruct (r_item _ _ _ _ R n x Hn) as (y & e & _ & He & Hd & _).
  assert (datas (memory c) !! x = Some (fields y)) as Hdat by (unfold datas; rewrite lookup_fmap, He; simpl; congruence).
  rewrite <-(r_bucket _ _ _ _ R i a x _ Hi Ha Hdat). by rewrite <-(r_bucket _ _ _ _ R j b x _ Hj Hb Hdat).
Qed.

(** A chain is not changed by writing to the end of a part of another. *)
Lemma r_other_chain c ps cs l st i j c1 c2 cl o : represents c ps cs l -> cs !! i = Some (c1 ++ c2) -> cs !! j = Some cl -> i <> j ->
  walk st (Slot j) cl None -> walk (wr st (endp (Slot i) c1) o) (Slot j) cl None.
Proof.
  intros R Hi Hj Hij. apply walk_frame. pose proof (endp_in (Slot i) c1) as Hin. intros Hin2.
  apply elem_of_cons in Hin as [E|(x & E & Hx)%list_elem_of_fmap]; rewrite E in Hin2; apply elem_of_cons in Hin2 as [E2|(y & E2 & Hy)%list_elem_of_fmap]; [congruence|done|done|].
  injection E2 as ->. apply Hij. apply (r_disjoint _ _ _ _ i j _ _ y R Hi Hj); [rewrite elem_of_app; tauto|done].
Qed.

Lemma nodup_delete (ps : list nat) n p : ps !! n = Some p -> NoDup (0%nat :: ps) -> NoDup (0%nat :: delete n ps) /\ p ∉ 0%nat :: delete n ps.
Proof.
  intros Hn Hnd. rewrite (delete_Permutation ps n p Hn) in Hnd. apply NoDup_cons in Hnd as [H0 Hnd]. apply NoDup_cons in Hnd as [Hp Hnd]. apply not_elem_of_cons in H0 as [H0 H1].
  split; [by constructor|]. apply not_elem_of_cons. done.
Qed.

(** The table without an entry. *)
Lemma table_delete c ps cs l i c1 p c3 n o : represents c ps cs l -> cs !! i = Some (c1 ++ p :: c3) -> ps !! n = Some p -> hlinks (memory c) !! p = Some o ->
  let st := wr (links_of c) (endp (Slot i) c1) o in let cs' := <[i := c1 ++ c3]> cs in
  concat cs' ≡ₚ delete n ps /\
  (forall j cl, cs' !! j = Some cl -> walk (st.1, delete p st.2) (Slot j) cl None) /\
  (forall j cl q, cs' !! j = Some cl -> q ∈ cl -> exists cl', cs !! j = Some cl' /\ q ∈ cl').
Proof.
  intros R Hi Hn Ho st cs'. pose proof (r_chain_nodup _ _ _ _ R i _ Hi) as Hndc. split_and!.
  - unfold cs'. destruct (concat_insert cs i _ (c1 ++ c3) Hi) as (rest & H1 & ->). pose proof (r_perm _ _ _ _ R) as Hperm. rewrite H1, (delete_Permutation ps n p Hn) in Hperm.
    apply (Permutation_cons_inv (a := p)). rewrite <-Hperm. rewrite <-!app_assoc. cbn [app]. apply Permutation_middle.
  - intros j cl Hj. destruct (decide (i = j)) as [<-|Hij].
    + unfold cs' in Hj. rewrite list_lookup_insert_eq in Hj by (by apply lookup_lt_Some in Hi). injection Hj as <-. apply walk_delete.
      * apply NoDup_app in Hndc as (_ & Hdis & Hnd2). apply NoDup_cons in Hnd2 as [Hp3 _]. rewrite elem_of_app. intros [Hx|Hx]; [apply (Hdis p Hx), list_elem_of_here|done].
      * by apply (walk_remove _ _ _ p); [|apply (r_walk _ _ _ _ R)|].
    + unfold cs' in Hj. rewrite list_lookup_insert_ne in Hj by done. apply walk_delete; [|by apply (r_other_chain _ _ _ _ _ i j c1 (p :: c3) cl o R); [| | |apply (r_walk _ _ _ _ R)]].
      intros Hx. apply Hij. apply (r_disjoint _ _ _ _ i j _ _ p R Hi Hj); [rewrite elem_of_app, elem_of_cons; tauto|done].
  - intros j cl q Hj Hq. destruct (decide (i = j)) as [<-|Hij]; unfold cs' in Hj.
    + rewrite list_lookup_insert_eq in Hj by (by apply lookup_lt_Some in Hi). injection Hj as <-. eexists. split; [done|]. rewrite elem_of_app, elem_of_cons in *. tauto.
    + rewrite list_lookup_insert_ne in Hj by done. by exists cl.
Qed.

(** What operations keep. *)
Definition same_rest (c c' : Cache) : Prop := max_entries c' = max_entries c /\ last_id c' = last_id c /\ pending_requests c' = pending_requests c.

(** The steps of removing an entry: its fields go, the links around it are those of the shorter list and chain. *)
Lemma remove_p_steps c ps cs l i c1 p c3 n : represents c ps cs l -> cs !! i = Some (c1 ++ p :: c3) -> ps !! n = Some p ->
  exists c' o, _cache_remove_p c (endp (Slot i) c1) = Ok c' /\ same_rest c c' /\ num_entries c' = num_entries c - 1 /\ hlinks (memory c) !! p = Some o /\
    datas (memory c') = delete p (datas (memory c)) /\ links (nexts (memory c')) (prevs (memory c')) (0%nat :: delete n ps ++ [0%nat]) /\
    links_of c' = ((wr (links_of c) (endp (Slot i) c1) o).1, delete p (wr (links_of c) (endp (Slot i) c1) o).2).
Proof.
  intros R Hi Hn. pose proof (r_walk _ _ _ _ R i _ Hi) as Hw. pose proof (r_nodup _ _ _ _ R) as Hnd.
  unfold _cache_remove_p. rewrite read_place_spec, (walk_end _ _ _ _ (proj1 (proj1 (walk_app _ _ _ _ _ _) Hw))). cbn [run obind].
  pose proof (take_drop_middle ps n p Hn) as Hps. pose proof (r_ring _ _ _ _ R) as Hr. destruct (nodup_delete ps n p Hn Hnd) as [_ Hpd]. rewrite <-Hps in Hr, Hnd.
  destruct (mru_remove_spec _ _ _ _ Hnd Hr) as (h1 & -> & [Hhl1 Hd1] & Hr1). cbn [obind].
  assert (is_Some (h1 !! p)) as [e He]. { apply (datas_used (memory c) h1); [done|]. apply (r_used _ _ _ _ R). right. by apply list_elem_of_lookup_2 in Hn. }
  rewrite (deref_Some _ _ _ He). cbn [obind]. assert (links_of (with_memory c h1) = links_of c) as Hlo by (unfold links_of; cbn [memory entries with_memory]; by rewrite Hhl1).
  destruct (write_place_spec (with_memory c h1) (endp (Slot i) c1) (hlink e)) as (c2 & -> & (Hn2 & Hp2 & Hd2) & Hlo2 & (M1 & M2 & M3 & M4)).
  { rewrite Hlo, (walk_end _ _ _ _ (proj1 (proj1 (walk_app _ _ _ _ _ _) Hw))). by eexists. }
  cbn [obind]. rewrite Hlo in Hlo2. cbn [memory with_memory max_entries num_entries last_id pending_requests] in M1, M2, M3, M4, Hn2, Hp2, Hd2.
  eexists _, (hlink e). split; [done|]. cbn [memory with_num with_memory num_entries max_entries]. split_and!; [by split_and!|lia| | | |].
  - rewrite <-Hhl1. unfold hlinks. by rewrite lookup_fmap, He.
  - unfold datas. rewrite fmap_delete. f_equal. fold (datas (memory c2)) (datas (memory c)). congruence.
  - unfold nexts, prevs. rewrite !fmap_delete. fold (nexts (memory c2)) (prevs (memory c2)). apply links_delete.
    + rewrite not_elem_of_cons, not_elem_of_app, list_elem_of_singleton. rewrite elem_of_cons in Hpd. tauto.
    + rewrite Hn2, Hp2, delete_take_drop. exact Hr1.
  - rewrite <-Hlo2. unfold links_of, hlinks. cbn. by rewrite fmap_delete.
Qed.

Lemma remove_p_spec c ps cs l i c1 p c3 n : represents c ps cs l -> cs !! i = Some (c1 ++ p :: c3) -> ps !! n = Some p ->
  exists c' cs', _cache_remove_p c (endp (Slot i) c1) = Ok c' /\ represents c' (delete n ps) cs' (delete n l) /\ same_rest c c'.
Proof.
  intros R Hi Hn. destruct (remove_p_steps c ps cs l i c1 p c3 n R Hi Hn) as (c' & o & -> & Hrest & Hnum & Ho & Hd & Hlinks & Hlo). pose proof Hrest as (M1 & M2 & M3).
  destruct (nodup_delete ps n p Hn (r_nodup _ _ _ _ R)) as [Hnd Hpd]. destruct (table_delete c ps cs l i c1 p c3 n o R Hi Hn Ho) as (Hperm & Hwalk & Hsub).
  pose proof (Forall2_length _ _ _ (r_data _ _ _ _ R)) as Hlen. pose proof (lookup_lt_Some _ _ _ Hn) as Hln.
  exists c', (<[i := c1 ++ c3]> cs). split; [done|]. split; [|done]. constructor; [done|done| | | | | | | |done| | |].
  - intros q. destruct (decide (q = p)) as [->|Hq].
    + split; [|done]. intros [e He]. assert (datas (memory c') !! p = Some (data e)) as E by (unfold datas; by rewrite lookup_fmap, He). by rewrite Hd, lookup_delete_eq in E.
    + transitivity (is_Some (memory c !! q)); [|].
      2: { rewrite (r_used _ _ _ _ R), !elem_of_cons. assert (q ∈ ps <-> q = p \/ q ∈ delete n ps) as -> by (by rewrite <-elem_of_cons, <-(delete_Permutation ps n p Hn)). tauto. }
      apply (f_equal (.!! q)) in Hd. unfold datas in Hd. rewrite lookup_delete_ne, !lookup_fmap in Hd by done. rewrite <-!(fmap_is_Some data). by rewrite Hd.
  - apply Forall2_same_length_lookup. split; [rewrite !length_delete by (apply lookup_lt_is_Some; lia); lia|].
    intros k q x Hq Hx. rewrite Hd, lookup_delete_ne; [|intros ->; apply Hpd; right; by apply list_elem_of_lookup_2 in Hq].
    apply lookup_delete_inv in Hq, Hx. pose proof (r_data _ _ _ _ R) as Hf. rewrite Forall2_same_length_lookup in Hf. by apply (proj2 Hf _ _ _ Hq Hx).
  - rewrite M1. apply (r_max _ _ _ _ R).
  - apply (f_equal fst) in Hlo. cbn in Hlo. rewrite Hlo, M1. destruct (endp (Slot i) c1); cbn; rewrite ?length_insert; apply (r_len _ _ _ _ R).
  - rewrite length_insert, M1. apply (r_cs _ _ _ _ R).
  - rewrite Hlo. exact Hwalk.
  - rewrite M1. intros j cl q d Hj Hq Hdq. rewrite Hd in Hdq. apply lookup_delete_Some in Hdq as [_ Hdq]. destruct (Hsub j cl q Hj Hq) as (cl' & Hj' & Hq'). by apply (r_bucket _ _ _ _ R j cl' q d).
  - rewrite Hnum, (r_num _ _ _ _ R), length_delete by (apply lookup_lt_is_Some; lia). lia.
  - intros k x Hx%lookup_delete_inv. by apply (r_good _ _ _ _ R _ _ Hx).
  - intros k m x y Hx%lookup_delete_inv Hy%lookup_delete_inv Hs. pose proof (r_distinct _ _ _ _ R _ _ _ _ Hx Hy Hs) as E. destruct (Nat.ltb_spec k n), (Nat.ltb_spec m n); lia.
Qed.

(** * Adding an entry *)

(** The table with one more entry. *)
Lemma table_insert c ps cs l i cl p : represents c ps cs l -> cs !! i = Some cl -> memory c !! p = None ->
  let st := wr (entries c, <[p := None]> (hlinks (memory c))) (endp (Slot i) cl) (Some p) in let cs' := <[i := cl ++ [p]]> cs in
  concat cs' ≡ₚ p :: ps /\
  (forall j cl, cs' !! j = Some cl -> walk st (Slot j) cl None) /\
  (forall j cl q, cs' !! j = Some cl -> q ∈ cl -> q = p /\ j = i \/ exists cl', cs !! j = Some cl' /\ q ∈ cl').
Proof.
  intros R Hi Hp st cs'. assert (forall j cl, cs !! j = Some cl -> p ∉ cl) as Hfresh.
  { intros j cl' Hj Hin. apply (r_chain _ _ _ _ R j cl' p Hj) in Hin. assert (is_Some (memory c !! p)) as [? ?]; [apply (r_used _ _ _ _ R); by right|congruence]. }
  assert (forall j cl, cs !! j = Some cl -> walk (entries c, <[p := None]> (hlinks (memory c))) (Slot j) cl None) as Hw.
  { intros j cl' Hj. apply (walk_insert_fresh (links_of c)); [by apply (Hfresh j)|by apply (r_walk _ _ _ _ R)]. } split_and!.
  - unfold cs'. destruct (concat_insert cs i _ (cl ++ [p]) Hi) as (rest & H1 & ->). pose proof (r_perm _ _ _ _ R) as Hperm. rewrite H1 in Hperm. rewrite <-Hperm, <-app_assoc. cbn [app]. symmetry. apply Permutation_middle.
  - intros j cl' Hj. unfold cs' in Hj. destruct (decide (i = j)) as [<-|Hij].
    + rewrite list_lookup_insert_eq in Hj by (by apply lookup_lt_Some in Hi). injection Hj as <-. apply walk_append; [by apply (r_chain_nodup _ _ _ _ R i)|by apply (Hfresh i)|by cbn; rewrite lookup_insert_eq|by apply Hw].
    + rewrite list_lookup_insert_ne in Hj by done. apply (r_other_chain c ps cs l _ i j cl [] cl' _ R); [by rewrite app_nil_r|done|done|by apply Hw].
  - intros j cl' q Hj Hq. unfold cs' in Hj. destruct (decide (i = j)) as [<-|Hij].
    + rewrite list_lookup_insert_eq in Hj by (by apply lookup_lt_Some in Hi). injection Hj as <-. apply elem_of_app in Hq as [Hq| ->%list_elem_of_singleton]; [right; by exists cl|by left].
    + rewrite list_lookup_insert_ne in Hj by done. right. by exists cl'.
Qed.

Lemma add_p_steps c ps cs l i cl p e : represents c ps cs l -> cs !! i = Some cl -> memory c !! p = None -> hlink e = None -> last_id c + 1 < 2 ^ 31 ->
  exists c', _cache_add_p (with_memory c (<[p := e]> (memory c))) (endp (Slot i) cl) p = Ok c' /\ max_entries c' = max_entries c /\ num_entries c' = num_entries c + 1 /\
    last_id c' = last_id c + 1 /\ pending_requests c' = pending_requests c /\ ring (memory c') (p :: ps) /\ datas (memory c') = <[p := data e]> (datas (memory c)) /\
    links_of c' = wr (entries c, <[p := None]> (hlinks (memory c))) (endp (Slot i) cl) (Some p).
Proof.
  intros R Hi Hp He Hid. set (c0 := with_memory c (<[p := e]> (memory c))). assert (links_of c0 = (entries c, <[p := None]> (hlinks (memory c)))) as Hlo by (unfold links_of, hlinks; cbn; by rewrite fmap_insert, He).
  assert (p ∉ 0%nat :: ps) as Hfresh by (rewrite <-(r_used _ _ _ _ R), Hp; by intros [? ?]). pose proof (r_nodup _ _ _ _ R) as Hnd. apply NoDup_cons in Hnd as [H0 Hnd].
  assert (ring (memory c0) ps) as Hr.
  { unfold ring, nexts, prevs. cbn. rewrite !fmap_insert. apply (links_frame_prev _ _ _ _ 0%nat); [|apply (links_frame_next _ _ _ _ (0%nat :: ps)); [done|apply (r_ring _ _ _ _ R)]].
    rewrite elem_of_app, list_elem_of_singleton. rewrite elem_of_cons in Hfresh. tauto. }
  unfold _cache_add_p. destruct (write_place_spec c0 (endp (Slot i) cl) (Some p)) as (c1 & -> & (N1 & P1 & D1) & L1 & (M1 & M2 & M3 & M4)).
  { rewrite Hlo. rewrite (walk_end _ _ cl None); [by eexists|]. apply (walk_insert_fresh (links_of c)); [|by apply (r_walk _ _ _ _ R)]. intros Hin%(r_chain _ _ _ _ R i cl p Hi). apply Hfresh. by right. }
  cbn [obind]. rewrite M3. change (last_id c0) with (last_id c). rewrite (proj2 (Z.leb_gt _ _)) by done.
  assert (is_Some (memory c1 !! p)) as Hp1 by (apply (datas_used (memory c0) (memory c1)); [done|]; cbn; rewrite lookup_insert_eq; by eexists).
  destruct (set_id_spec (memory c1) p (last_id c + 1) Hp1) as (h2 & -> & (N2 & P2 & D2) & L2). cbn [obind].
  destruct (mru_add_spec h2 p ps) as (h3 & -> & [L3 D3] & R3); [intros ->; apply Hfresh, list_elem_of_here|intros ?; apply Hfresh; by right|done|done|by apply (datas_used (memory c1) h2)|unfold ring in *; by rewrite N2, P2, N1, P1|].
  cbn [obind]. eexists. split; [done|]. cbn [max_entries num_entries last_id pending_requests memory]. split_and!; [done|by rewrite M2|done|done|done| |].
  - rewrite D3, D2, D1. unfold datas. cbn. by rewrite fmap_insert.
  - rewrite <-Hlo, <-L1. unfold links_of. cbn [memory entries]. by rewrite L3, L2.
Qed.

Lemma add_p_spec c ps cs l i cl p e x : represents c ps cs l -> i = Z.to_nat (qhash (iq x) mod max_entries c) -> cs !! i = Some cl -> memory c !! p = None -> hlink e = None -> data e = fields x ->
  good (iq x) -> (forall n y, l !! n = Some y -> same_key (iq y) (iq x) = false) -> last_id c + 1 < 2 ^ 31 ->
  exists c', _cache_add_p (with_memory c (<[p := e]> (memory c))) (endp (Slot i) cl) p = Ok c' /\ represents c' (p :: ps) (<[i := cl ++ [p]]> cs) (x :: l) /\
    max_entries c' = max_entries c /\ last_id c' = last_id c + 1 /\ pending_requests c' = pending_requests c.
Proof.
  intros R Hix Hi Hp He Hdx Hg Hno Hid. destruct (add_p_steps c ps cs l i cl p e R Hi Hp He Hid) as (c' & -> & M1 & M2 & M3 & M4 & Hr & Hd & Hlo).
  destruct (table_insert c ps cs l i cl p R Hi Hp) as (Hperm & Hwalk & Hsub). assert (p ∉ 0%nat :: ps) as Hfresh by (rewrite <-(r_used _ _ _ _ R), Hp; by intros [? ?]).
  pose proof (r_nodup _ _ _ _ R) as Hnd. apply NoDup_cons in Hnd as [H0 Hnd]. apply not_elem_of_cons in Hfresh as [Hp0 Hfresh].
  exists c'. split; [done|]. split; [|done]. constructor; [|done| | | | | | | |done| | |].
  - constructor; [by intros [E|?]%elem_of_cons|by constructor].
  - intros q. apply (f_equal (.!! q)) in Hd. unfold datas in Hd. rewrite !elem_of_cons. destruct (decide (q = p)) as [->|Hq].
    + rewrite lookup_insert_eq, lookup_fmap in Hd. split; [tauto|]. intros _. apply (fmap_is_Some data). by eexists.
    + rewrite lookup_insert_ne, !lookup_fmap in Hd by done. rewrite <-(fmap_is_Some data), Hd, fmap_is_Some, (r_used _ _ _ _ R), elem_of_cons. tauto.
  - constructor; [by rewrite Hd, lookup_insert_eq, Hdx|]. pose proof (r_data _ _ _ _ R) as Hf. rewrite Forall2_same_length_lookup in *. destruct Hf as [Hf1 Hf2]. split; [done|].
    intros k q y Hq Hy. rewrite Hd, lookup_insert_ne; [by apply (Hf2 k)|]. intros ->. apply Hfresh. by apply list_elem_of_lookup_2 in Hq.
  - rewrite M1. apply (r_max _ _ _ _ R).
  - apply (f_equal fst) in Hlo. cbn in Hlo. rewrite Hlo, M1. destruct (endp (Slot i) cl); cbn; rewrite ?length_insert; apply (r_len _ _ _ _ R).
  - rewrite length_insert, M1. apply (r_cs _ _ _ _ R).
  - rewrite Hlo. exact Hwalk.
  - rewrite M1. intros j cl' q d Hj Hq Hdq. rewrite Hd in Hdq. destruct (Hsub j cl' q Hj Hq) as [[-> ->]|(cl0 & Hj' & Hq')].
    + rewrite lookup_insert_eq in Hdq. injection Hdq as <-. by rewrite Hdx.
    + rewrite lookup_insert_ne in Hdq; [by apply (r_bucket _ _ _ _ R j cl0 q d)|]. intros ->. by apply Hfresh, (r_chain _ _ _ _ R j cl0).
  - rewrite M2, (r_num _ _ _ _ R). simpl. lia.
  - intros [|n] y Hy; simpl in Hy; [by injection Hy as <-|by apply (r_good _ _ _ _ R n)].
  - intros [|n] [|m] y z Hy Hz Hs; simpl in Hy, Hz; [done| | |f_equal; by apply (r_distinct _ _ _ _ R n m y z)].
    + injection Hy as <-. apply same_key_sym in Hs. by rewrite (Hno m z Hz) in Hs.
    + injection Hz as <-. by rewrite (Hno n y Hy) in Hs.
Qed.

(** * Using an entry *)

Lemma r_first c ps cs l : represents c ps cs l -> exists e f, memory c !! 0%nat = Some e /\ mru_next e = Some f /\ f = default 0%nat (head ps).
Proof.
  intros R. pose proof (r_ring _ _ _ _ R) as Hr. unfold ring in Hr. destruct ps as [|p ps]; cbn [app] in Hr; rewrite links_cons in Hr; destruct Hr as [Hr _]; destruct (used_next _ _ _ Hr) as (e & He & Hn); by eexists e, _.
Qed.

Lemma bump_spec c ps cs l n p x : represents c ps cs l -> ps !! n = Some p -> l !! n = Some x ->
  exists h, (h <-- entry_mru_remove (memory c) p ;; entry_mru_add h p 0%nat) = Ok h /\ represents (with_memory c h) (p :: delete n ps) cs (x :: delete n l).
Proof.
  intros R Hn Hx. pose proof (r_nodup _ _ _ _ R) as Hnd. destruct (nodup_delete ps n p Hn Hnd) as [Hnd' Hpd]. apply NoDup_cons in Hnd' as [H0 Hnd']. apply not_elem_of_cons in Hpd as [Hp0 Hpd].
  pose proof (take_drop_middle ps n p Hn) as Hps. pose proof (r_ring _ _ _ _ R) as Hr. rewrite <-Hps in Hr, Hnd.
  destruct (mru_remove_spec _ _ _ _ Hnd Hr) as (h1 & -> & [L1 D1] & R1). cbn [obind]. rewrite <-delete_take_drop in R1.
  assert (is_Some (memory c !! p)) as Hpu by (apply (r_used _ _ _ _ R); right; by apply list_elem_of_lookup_2 in Hn).
  destruct (mru_add_spec h1 p (delete n ps)) as (h2 & -> & [L2 D2] & R2); [done|done|done|done|by apply (datas_used (memory c) h1)|done|]. exists h2. split; [done|].
  assert (D3 : datas h2 = datas (memory c)) by congruence. assert (L3 : links_of (with_memory c h2) = links_of c) by (unfold links_of; cbn [entries memory with_memory]; by rewrite L2, L1).
  pose proof (r_data _ _ _ _ R) as Hf. rewrite Forall2_same_length_lookup in Hf. destruct Hf as [Hf1 Hf2]. pose proof (lookup_lt_Some _ _ _ Hn) as Hln.
  constructor; cbn [memory with_memory max_entries entries num_entries].
  - constructor; [by intros [E|?]%elem_of_cons|by constructor].
  - done.
  - intros q. rewrite <-(datas_used (memory c) h2) by done. rewrite (r_used _ _ _ _ R), !elem_of_cons.
    assert (q ∈ ps <-> q = p \/ q ∈ delete n ps) as -> by (by rewrite <-elem_of_cons, <-(delete_Permutation ps n p Hn)). tauto.
  - rewrite D3. constructor; [by apply (Hf2 n)|]. apply Forall2_same_length_lookup. split; [rewrite !length_delete by (apply lookup_lt_is_Some; lia); lia|].
    intros k q y Hq%lookup_delete_inv Hy%lookup_delete_inv. by apply (Hf2 _ _ _ Hq Hy).
  - apply (r_max _ _ _ _ R).
  - apply (r_len _ _ _ _ R).
  - apply (r_cs _ _ _ _ R).
  - rewrite L3. apply (r_walk _ _ _ _ R).
  - rewrite D3. apply (r_bucket _ _ _ _ R).
  - rewrite <-(delete_Permutation ps n p Hn). apply (r_perm _ _ _ _ R).
  - rewrite (r_num _ _ _ _ R). simpl. rewrite length_delete by (apply lookup_lt_is_Some; lia). lia.
  - intros [|k] y Hy; simpl in Hy; [injection Hy as <-; by apply (r_good _ _ _ _ R n)|]. apply lookup_delete_inv in Hy. by apply (r_good _ _ _ _ R _ _ Hy).
  - assert (forall k y, (x :: delete n l) !! k = Some y -> l !! (match k with O => n | S k => if (k <? n)%nat then k else S k end) = Some y) as Hidx.
    { intros [|k] y Hy; simpl in Hy; [congruence|by apply lookup_delete_inv]. }
    intros i j y z Hy%Hidx Hz%Hidx Hs. pose proof (r_distinct _ _ _ _ R _ _ _ _ Hy Hz Hs) as E. destruct i as [|i], j as [|j]; try destruct (Nat.ltb_spec i n); try destruct (Nat.ltb_spec j n); lia.
Qed.

(** * Operations on items *)

Record acache := ACache { items : list item; awaited : list Z }.

Definition find_item (q : list Z) (l : list item) : option (nat * item) := list_find (fun x => same_key (iq x) q = true) l.

(** A lookup that finds an item: an expired one goes, another one comes to the front. *)
Definition item_found (a : acache) (n : nat) (x : item) (answersize : nat) (now : Z) : acache * looked :=
  if iexp x <=? now then (ACache (delete n (items a)) (awaited a), Returns RESOLV_CACHE_NOTFOUND None None)
  else if (answersize <? length (ians x))%nat then (a, Returns RESOLV_CACHE_UNSUPPORTED (Some (length (ians x))) None)
  else (ACache (x :: delete n (items a)) (awaited a), Returns RESOLV_CACHE_FOUND (Some (length (ians x))) (Some (ians x))).

Definition items_lookup (a : acache) (q : list Z) (answersize : nat) (now : Z) (mem : bool) : acache * looked :=
  match find_item q (items a) with
  | Some (n, x) => item_found a n x answersize now
  | None =>
      if bool_decide (qhash q ∈ awaited a) then (a, Waits)
      else (if mem then ACache (items a) (awaited a ++ [qhash q]) else a, Returns RESOLV_CACHE_NOTFOUND None None)
  end.

Definition items_resume (a : acache) (q : list Z) (answersize : nat) (now : Z) : acache * looked :=
  match find_item q (items a) with
  | Some (n, x) => item_found a n x answersize now
  | None => (a, Returns RESOLV_CACHE_NOTFOUND None None)
  end.

(** In a full cache the expired items go, and the one that was not used for longest if there is none. *)
Definition evict (max : nat) (l : list item) (now : Z) : list item :=
  if (max <=? length l)%nat then
    let l := filter (fun x => now < iexp x) l in
    if (max <=? length l)%nat then delete (length l - 1)%nat l else l
  else l.

(** A new item comes to the front, if the answer may be kept at all. *)
Definition items_add (max : nat) (a : acache) (q ans : list Z) (now now2 : Z) (mem : bool) : acache :=
  ACache
    (match find_item q (items a) with
     | Some _ => items a
     | None =>
         let l := evict max (items a) now in
         match answer_getTTL ans with
         | Ok ttl => if (0 <? ttl) && mem then Item q ans (wrapS 64 (ttl + now2)) :: l else l
         | _ => l
         end
     end) (remove_first (qhash q) (awaited a)).

(** * The search *)

Lemma find_item_Some c ps cs l q n x : represents c ps cs l -> good q -> l !! n = Some x -> same_key (iq x) q = true -> find_item q l = Some (n, x).
Proof.
  intros R Hq Hx Hs. apply list_find_Some. split_and!; [done|done|]. intros j y Hy Hj Hsy. assert (j = n); [|lia]. apply (r_distinct _ _ _ _ R j n y x Hy Hx).
  apply (same_key_trans _ q); [by apply (r_good _ _ _ _ R j)|done|by apply (r_good _ _ _ _ R n)|done|by apply same_key_sym].
Qed.

Section search.
Context (c : Cache) (ps : list nat) (cs : list (list nat)) (l : list item) (R : represents c ps cs l).

(** The search for a key, and what is at the place it gives. *)
Lemma search key : good (query key) -> hash key = qhash (query key) -> exists i c1, i = Z.to_nat (hash key mod max_entries c) /\ _cache_lookup_p c key = Ok (endp (Slot i) c1) /\
  match find_item (query key) l with
  | Some (n, x) => exists p c3, cs !! i = Some (c1 ++ p :: c3) /\ ps !! n = Some p /\ l !! n = Some x /\ read_place c (endp (Slot i) c1) = Ok (Some p)
  | None => cs !! i = Some c1 /\ read_place c (endp (Slot i) c1) = Ok None /\ forall n x, l !! n = Some x -> same_key (iq x) (query key) = false
  end.
Proof using R.
  intros Hg Hh. destruct (lookup_p_spec c ps cs l R key Hg Hh) as (i & c1 & c2 & Hi & Hcs & Hlk & Hc2). exists i, c1. split; [done|]. split; [done|]. rewrite read_place_spec.
  pose proof (r_walk _ _ _ _ R i _ Hcs) as Hw. destruct Hc2 as [[-> Hno]|(p & c3 & n & x & -> & Hp & Hx & Hs)].
  - rewrite app_nil_r in *. destruct (find_item (query key) l) as [[n x]|] eqn:E.
    + apply list_find_Some in E as (Hx & Hs & _). by rewrite (Hno n x Hx) in Hs.
    + by rewrite (walk_end _ _ _ _ Hw).
  - rewrite (find_item_Some c ps cs l (query key) n x R Hg Hx Hs). exists p, c3. split_and!; [done|done|done|]. apply walk_app in Hw as [Hw _]. by rewrite (walk_end _ _ _ _ Hw).
Qed.

(** The search for an entry of the cache finds it. *)
Lemma search_self n p x e : ps !! n = Some p -> l !! n = Some x -> memory c !! p = Some e -> data e = fields x ->
  exists i c1 c3, _cache_lookup_p c e = Ok (endp (Slot i) c1) /\ cs !! i = Some (c1 ++ p :: c3) /\ read_place c (endp (Slot i) c1) = Ok (Some p).
Proof using R.
  intros Hp Hx He Hd. injection Hd as Hh Hq _ _. assert (good (query e)) as Hg by (rewrite Hq; by apply (r_good _ _ _ _ R n)). assert (hash e = qhash (query e)) as Hh' by congruence.
  destruct (search e Hg Hh') as (i & c1 & _ & Hlk & Hf). rewrite (find_item_Some c ps cs l (query e) n x R Hg Hx) in Hf by (rewrite Hq in *; by apply same_key_refl).
  destruct Hf as (p' & c3 & Hcs & Hp' & _ & Hr). assert (p' = p) as -> by congruence. by exists i, c1, c3.
Qed.

Lemma ring_next pre p rest : ps = pre ++ p :: rest -> exists e, memory c !! p = Some e /\ mru_next e = Some (default 0%nat (head rest)).
Proof using R.
  intros ->. pose proof (r_ring _ _ _ _ R) as Hr. unfold ring in Hr. rewrite <-app_assoc in Hr. cbn [app] in Hr.
  change (0%nat :: pre ++ p :: rest ++ [0%nat]) with ((0%nat :: pre) ++ p :: rest ++ [0%nat]) in Hr. rewrite links_app in Hr. destruct Hr as [_ Hr].
  destruct rest as [|q rest]; cbn [app] in Hr; rewrite links_cons in Hr; destruct Hr as [Hr _]; by apply used_next in Hr.
Qed.

Lemma ring_last pre p : ps = pre ++ [p] -> exists e, memory c !! 0%nat = Some e /\ mru_prev e = Some p.
Proof using R.
  intros ->. pose proof (r_ring _ _ _ _ R) as Hr. unfold ring in Hr. rewrite <-app_assoc in Hr. cbn [app] in Hr.
  change (0%nat :: pre ++ [p; 0%nat]) with ((0%nat :: pre) ++ p :: [0%nat]) in Hr. rewrite links_app, links_cons in Hr. destruct Hr as (_ & _ & Hr & _). by apply used_prev in Hr.
Qed.
End search.

(** * Making room *)

Lemma same_rest_trans c1 c2 c3 : same_rest c1 c2 -> same_rest c2 c3 -> same_rest c1 c3.
Proof. intros (A1 & A2 & A3) (B1 & B2 & B3). split_and!; congruence. Qed.

Lemma expired_loop_spec now rest : forall fuel c pre cs lpre lrest, represents c (pre ++ rest) cs (lpre ++ lrest) -> length pre = length lpre -> (length rest < fuel)%nat ->
  exists c' ps' cs', remove_expired_loop fuel c now (default 0%nat (head rest)) = Ok c' /\ represents c' ps' cs' (lpre ++ filter (fun x => now < iexp x) lrest) /\ same_rest c c'.
Proof.
  induction rest as [|p rest IH]; intros fuel c pre cs lpre lrest R Hlen Hf; (destruct fuel as [|fuel]; [simpl in Hf; lia|]); cbn [remove_expired_loop head].
  - pose proof (Forall2_length _ _ _ (r_data _ _ _ _ R)) as Hl. rewrite !length_app in Hl. destruct lrest; [|simpl in Hl; lia]. by exists c, (pre ++ []), cs.
  - pose proof (Forall2_length _ _ _ (r_data _ _ _ _ R)) as Hl. rewrite !length_app in Hl. destruct lrest as [|x lrest]; [simpl in Hl; lia|].
    assert (Hp : (pre ++ p :: rest) !! length pre = Some p) by (by rewrite list_lookup_middle). assert (Hx : (lpre ++ x :: lrest) !! length pre = Some x) by (by rewrite list_lookup_middle).
    destruct (r_place _ _ _ _ R _ _ _ Hp Hx) as (e & He & Hd). destruct (ring_next _ _ _ _ R pre p rest eq_refl) as (e' & He' & Hnext). assert (e' = e) as -> by congruence.
    assert (p <> 0%nat) as Hp0. { pose proof (r_nodup _ _ _ _ R) as Hnd. apply NoDup_cons in Hnd as [H0 _]. intros ->. apply H0, elem_of_app. right. apply list_elem_of_here. }
    change (default 0%nat (Some p)) with p. rewrite (proj2 (Nat.eqb_neq _ _) Hp0), (deref_Some _ _ _ He). cbn [obind]. pose proof Hd as Hd'. injection Hd' as _ _ _ ->. rewrite filter_cons. destruct (Z.leb_spec (iexp x) now).
    + rewrite decide_False by lia. destruct (search_self _ _ _ _ R _ _ _ _ Hp Hx He Hd) as (i & c1 & c3 & -> & Hcs & Hrd). cbn [obind]. rewrite Hrd. cbn [obind]. rewrite Hnext. cbn [run obind].
      destruct (remove_p_spec c _ cs _ i c1 p c3 _ R Hcs Hp) as (c' & cs' & -> & R' & Hs). cbn [obind]. rewrite delete_middle in R'. rewrite Hlen, delete_middle in R'.
      destruct (IH fuel c' pre cs' lpre lrest R' Hlen) as (c2 & ps2 & cs2 & -> & R2 & Hs2); [simpl in Hf; lia|]. exists c2, ps2, cs2. split_and!; [done|done|by apply (same_rest_trans c c')].
    + rewrite decide_True by lia. rewrite Hnext. cbn [run obind].
      destruct (IH fuel c (pre ++ [p]) cs (lpre ++ [x]) lrest) as (c2 & ps2 & cs2 & -> & R2 & Hs2); [by rewrite <-!app_assoc|rewrite !length_app; simpl; lia|simpl in Hf; lia|].
      rewrite <-app_assoc in R2. by exists c2, ps2, cs2.
Qed.

Lemma remove_expired_spec c ps cs l now : represents c ps cs l ->
  exists c' ps' cs', _cache_remove_expired c now = Ok c' /\ represents c' ps' cs' (filter (fun x => now < iexp x) l) /\ same_rest c c'.
Proof.
  intros R. unfold _cache_remove_expired. destruct (r_first _ _ _ _ R) as (e & f & He & Hn & ->). rewrite (deref_Some _ _ _ He). cbn [obind]. rewrite Hn. cbn [run obind].
  apply (expired_loop_spec now ps _ c [] cs [] l R); [done|]. rewrite (r_size _ _ _ _ R). lia.
Qed.

Lemma remove_oldest_spec c ps cs l : represents c ps cs l -> l <> [] ->
  exists c' ps' cs', _cache_remove_oldest c = Ok c' /\ represents c' ps' cs' (delete (length l - 1)%nat l) /\ same_rest c c'.
Proof.
  intros R Hl. pose proof (Forall2_length _ _ _ (r_data _ _ _ _ R)) as Hlen. destruct (exists_last (l := ps)) as (pre & p & Hps); [by intros ->; destruct l|]. subst ps.
  destruct (exists_last Hl) as (lpre & x & ->). rewrite !length_app in Hlen. simpl in Hlen.
  assert (Hp : (pre ++ [p]) !! length pre = Some p) by (by rewrite list_lookup_middle). assert (Hx : (lpre ++ [x]) !! length pre = Some x) by (rewrite list_lookup_middle; [done|lia]).
  unfold _cache_remove_oldest. destruct (ring_last _ _ _ _ R pre p eq_refl) as (e0 & He0 & Hprev). rewrite (deref_Some _ _ _ He0). cbn [obind]. rewrite Hprev. cbn [run obind].
  destruct (r_place _ _ _ _ R _ _ _ Hp Hx) as (e & He & Hd). rewrite (deref_Some _ _ _ He). cbn [obind].
  destruct (search_self _ _ _ _ R _ _ _ _ Hp Hx He Hd) as (i & c1 & c3 & -> & Hcs & Hrd). cbn [obind]. rewrite Hrd. cbn [obind].
  destruct (remove_p_spec c _ cs _ i c1 p c3 _ R Hcs Hp) as (c' & cs' & -> & R' & Hs). exists c', (delete (length pre) (pre ++ [p])), cs'. split; [done|]. split; [|done].
  replace (length (lpre ++ [x]) - 1)%nat with (length pre) by (rewrite length_app; simpl; lia). exact R'.
Qed.

(** * Empty caches *)

Lemma represents_empty c : 0 < max_entries c -> num_entries c = 0 -> entries c = replicate (Z.to_nat (max_entries c)) None -> ring (memory c) [] -> (forall p, is_Some (memory c !! p) <-> p = 0%nat) ->
  represents c [] (replicate (Z.to_nat (max_entries c)) []) [].
Proof.
  intros Hm Hn He Hr Hu. constructor; try done.
  - apply NoDup_singleton.
  - intros p. by rewrite Hu, list_elem_of_singleton.
  - by rewrite He, length_replicate.
  - by rewrite length_replicate.
  - intros i cl [-> Hi]%lookup_replicate. simpl. rewrite He. by apply lookup_replicate.
  - intros i cl p d [-> _]%lookup_replicate Hp. by apply elem_of_nil in Hp.
  - enough (forall n, concat (replicate n (@nil nat)) = []) as -> by done. by induction n.
Qed.

(** The entries of a chain, in the memory. *)
Fixpoint hchain (h : heap) (s : option nat) (cl : list nat) : Prop :=
  match cl with
  | [] => s = None
  | p :: cl => s = Some p /\ exists e, h !! p = Some e /\ hchain h (hlink e) cl
  end.

Lemma walk_hchain c l s cl : rd (links_of c) l = Some s -> walk (links_of c) l cl None -> hchain (memory c) s cl.
Proof.
  revert l s. induction cl as [|p cl IH]; intros l s Hs Hw; simpl in *; [congruence|]. destruct Hw as [Hr Hw]. split; [congruence|].
  assert (exists o, rd (links_of c) (Link p) = Some o) as [o Ho] by (destruct cl; [by eexists|destruct Hw; by eexists]). pose proof Ho as Hh. apply used_hlink in Hh as (e & He & Hl). exists e. split; [done|].
  rewrite Hl. by apply (IH (Link p)).
Qed.

Lemma hchain_used h cl p : forall s, hchain h s cl -> p ∈ cl -> is_Some (h !! p).
Proof. induction cl as [|q cl IH]; intros s H Hp; [by apply elem_of_nil in Hp|]. destruct H as (_ & e & He & H). apply elem_of_cons in Hp as [->|Hp]; [by eexists|by apply (IH (hlink e))]. Qed.

Lemma hchain_ext h h' cl : forall s, (forall p, p ∈ cl -> h' !! p = h !! p) -> hchain h s cl -> hchain h' s cl.
Proof.
  induction cl as [|q cl IH]; intros s Hext H; [done|]. destruct H as (-> & e & He & H). split; [done|]. exists e. split; [rewrite Hext; [done|apply list_elem_of_here]|].
  apply IH; [|done]. intros p Hp. apply Hext. by right.
Qed.

Lemma flush_chain_spec cl : forall fuel h s, NoDup cl -> (length cl <= fuel)%nat -> hchain h s cl ->
  exists h', flush_chain fuel h s = Ok h' /\ forall p, h' !! p = if decide (p ∈ cl) then None else h !! p.
Proof.
  induction cl as [|q cl IH]; intros fuel h s Hnd Hf H; [simpl in H; subst s; exists h; split; [by destruct fuel|done]|]. destruct H as (-> & e & He & H). apply NoDup_cons in Hnd as [Hq Hnd].
  destruct fuel as [|fuel]; [simpl in Hf; lia|]. cbn [flush_chain]. rewrite (deref_Some _ _ _ He). cbn [obind].
  destruct (IH fuel (delete q h) (hlink e) Hnd) as (h' & -> & Hh'); [simpl in Hf; lia|apply (hchain_ext h); [|done]; intros p Hp; rewrite lookup_delete_ne; congruence|].
  exists h'. split; [done|]. intros p. rewrite Hh'. destruct (decide (p = q)) as [->|Hpq].
  - rewrite (decide_True (P := q ∈ q :: cl)) by apply list_elem_of_here. rewrite lookup_delete_eq. by case_decide.
  - rewrite lookup_delete_ne by done. destruct (decide (p ∈ cl)), (decide (p ∈ q :: cl)) as [Hin|Hin]; try done; [exfalso; apply Hin; by right|apply elem_of_cons in Hin; tauto].
Qed.

Lemma flush_slots_spec slots css : forall h, NoDup (concat css) -> Forall2 (hchain h) slots css ->
  exists h', flush_slots h slots = Ok h' /\ forall p, h' !! p = if decide (p ∈ concat css) then None else h !! p.
Proof.
  revert css. induction slots as [|s slots IH]; intros css h Hnd H; inversion H as [|? cl ? css' Hs Hss E1 E2]; subst; [by exists h|]. cbn [concat] in Hnd. apply NoDup_app in Hnd as (Hnd1 & Hdis & Hnd2).
  cbn [flush_slots]. assert (length cl <= size h)%nat as Hsize.
  { rewrite <-(size_list_to_set (C := gset nat) cl Hnd1), <-size_dom. apply subseteq_size. intros p Hp%elem_of_list_to_set. apply elem_of_dom. by apply (hchain_used h cl p s). }
  destruct (flush_chain_spec cl (size h) h s Hnd1 Hsize Hs) as (h1 & -> & Hh1). cbn [obind].
  destruct (IH css' h1 Hnd2) as (h2 & -> & Hh2).
  { rewrite Forall2_same_length_lookup in *. destruct Hss as [Hl Hk]. split; [done|]. intros k s' cl' Hs' Hcl'. apply (hchain_ext h); [|by apply (Hk k)].
    intros p Hp. rewrite Hh1, decide_False; [done|]. intros Hin. apply (Hdis p Hin). apply elem_of_concat. exists cl'. split; [done|]. by apply list_elem_of_lookup_2 in Hcl'. }
  exists h2. split; [done|]. intros p. rewrite Hh2, Hh1. cbn [concat]. destruct (decide (p ∈ concat css')), (decide (p ∈ cl)), (decide (p ∈ cl ++ concat css')) as [Hin|Hin]; try done; rewrite elem_of_app in Hin; tauto.
Qed.

Lemma flush_spec c ps cs l : represents c ps cs l ->
  exists c' cs', _cache_flush_locked c = Ok c' /\ represents c' [] cs' [] /\ max_entries c' = max_entries c /\ last_id c' = 0 /\ pending_requests c' = [].
Proof.
  intros R. unfold _cache_flush_locked. pose proof (r_nodup _ _ _ _ R) as Hnd. apply NoDup_cons in Hnd as [H0 Hnd]. pose proof (r_perm _ _ _ _ R) as Hperm.
  destruct (flush_slots_spec (entries c) cs (memory c)) as (h1 & -> & Hh1).
  - by rewrite Hperm.
  - rewrite Forall2_same_length_lookup. split; [rewrite (r_len _ _ _ _ R); symmetry; apply (r_cs _ _ _ _ R)|]. intros i s cl Hs Hcl. apply (walk_hchain c (Slot i)); [done|by apply (r_walk _ _ _ _ R)].
  - cbn [obind]. assert (forall p, is_Some (h1 !! p) <-> p = 0%nat) as Hu.
    { intros p. rewrite Hh1. destruct (decide (p ∈ concat cs)) as [Hin|Hin]; rewrite Hperm in Hin.
      - split; [by intros [? ?]|]. by intros ->.
      - rewrite (r_used _ _ _ _ R), elem_of_cons. tauto. }
    destruct (set_next_spec h1 0 (Some 0%nat)) as (h2 & -> & [L2 D2] & N2 & P2); [by apply Hu|]. cbn [obind].
    destruct (set_prev_spec h2 0 (Some 0%nat)) as (h3 & -> & [L3 D3] & P3 & N3); [by apply (datas_used h1 h2), Hu|]. cbn [obind].
    eexists _, _. split; [done|]. split; [|done]. apply represents_empty; cbn [max_entries num_entries entries memory]; [apply (r_max _ _ _ _ R)|done|by rewrite (r_len _ _ _ _ R)| |].
    + unfold ring. cbn [app]. rewrite links_cons, N3, N2, P3, !lookup_insert_eq. done.
    + intros p. rewrite <-Hu. symmetry. apply datas_used. congruence.
Qed.

Lemma create_spec mode : _res_cache_get_max_entries mode = CONFIG_MAX_ENTRIES -> exists cs, represents (_resolv_cache_create mode) [] cs [].
Proof.
  intros Hm. eexists. apply represents_empty; unfold _resolv_cache_create; rewrite Hm; [done|done|done| |].
  - unfold ring, nexts, prevs. cbn [memory app]. rewrite links_cons, !map_fmap_singleton, !lookup_singleton_eq. done.
  - intros p. cbn [memory]. rewrite lookup_singleton_is_Some. done.
Qed.

(** * The operations of a cache *)

(** A cache holds items; at most [k] entries were added since it was empty. *)
Record holds (k : Z) (c : Cache) (a : acache) : Prop := Holds {
  h_items : exists ps cs, represents c ps cs (items a);
  h_pending : pending_requests c = awaited a;
  h_max : max_entries c = CONFIG_MAX_ENTRIES;
  h_id : last_id c <= k;
  h_room : Z.of_nat (length (items a)) <= CONFIG_MAX_ENTRIES;
}.

Lemma represents_pending c ps cs l ps' : represents c ps cs l -> represents (with_pending c ps') ps cs l.
Proof. intros [? ? ? ? ? ? ? ? ? ? ? ? ?]. by constructor. Qed.

Lemma item_found_fewer a n x size now : items a !! n = Some x -> (length (items (item_found a n x size now).1) <= length (items a))%nat.
Proof.
  intros Hx. pose proof (lookup_lt_Some _ _ _ Hx). unfold item_found. destruct (_ <=? _); [simpl; rewrite length_delete by (by eexists); lia|]. destruct (_ <? _)%nat; [done|]. simpl. rewrite length_delete by (by eexists). lia.
Qed.

(** The part of a lookup behind a search that found an item. *)
Lemma found_spec k c a ps cs i c1 p c3 n x size now : holds k c a -> represents c ps cs (items a) -> cs !! i = Some (c1 ++ p :: c3) -> ps !! n = Some p -> items a !! n = Some x ->
  exists c', lookup_found c (endp (Slot i) c1) p size now = Ok (c', (item_found a n x size now).2) /\ holds k c' (item_found a n x size now).1.
Proof.
  intros [_ Hp Hm Hid Hroom] R Hi Hn Hx. pose proof (item_found_fewer a n x size now Hx) as Hfew. destruct (r_place _ _ _ _ R _ _ _ Hn Hx) as (e & He & Hd). injection Hd as _ _ Ha Hexp.
  unfold lookup_found, item_found in *. rewrite (deref_Some _ _ _ He). cbn [obind]. rewrite Ha, Hexp. destruct (iexp x <=? now).
  - destruct (remove_p_spec c ps cs _ i c1 p c3 n R Hi Hn) as (c' & cs' & -> & R' & (M1 & M2 & M3)). cbn [obind]. exists c'. split; [done|]. constructor; cbn [items awaited fst] in *; [by eexists _, _|congruence|congruence|lia|lia].
  - destruct (size <? length (ians x))%nat; [exists c; split; [done|]; constructor; try done; by exists ps, cs|].
    destruct (r_first _ _ _ _ R) as (e0 & f & He0 & Hnext & Hf). rewrite (deref_Some _ _ _ He0). cbn [obind]. rewrite Hnext. destruct (bool_decide_reflect (Some p = Some f)) as [E|E].
    + cbn [obind]. exists c. split; [done|]. constructor; cbn [items awaited fst] in *; [|done|done|done|lia]. exists ps, cs. injection E as <-.
      assert (n = 0%nat) as ->; [|destruct (items a); simpl in *; congruence]. destruct ps as [|p' ps]; [done|]. simpl in Hf. subst p'. pose proof (r_nodup _ _ _ _ R) as Hnd. apply NoDup_cons in Hnd as [_ Hnd].
      by apply (NoDup_lookup (p :: ps) n 0 p).
    + destruct (bump_spec c ps cs _ n p x R Hn Hx) as (h & Hh & R'). destruct (entry_mru_remove (memory c) p) as [h1| |]; cbn [obind] in *; [|done..]. rewrite Hh. cbn [obind].
      eexists. split; [done|]. constructor; cbn [items awaited fst] in *; [by eexists _, _|done|done|done|lia].
Qed.

Definition key_of (q : list Z) : Entry := MkEntry (qhash q) None None None q [] 0 0.

Lemma begin_spec k c a q size now mem : holds k c a -> good q ->
  exists c', lookup_begin c (key_of q) size now mem = Ok (c', (items_lookup a q size now mem).2) /\ holds k c' (items_lookup a q size now mem).1.
Proof.
  intros H Hg. pose proof H as [(ps & cs & R) Hp Hm Hid Hroom]. unfold lookup_begin, items_lookup. destruct (search c ps cs _ R (key_of q) Hg eq_refl) as (i & c1 & _ & -> & Hf). cbn [obind]. cbn [query key_of] in Hf.
  destruct (find_item q (items a)) as [[n x]|].
  - destruct Hf as (p & c3 & Hcs & Hn & Hx & ->). cbn [obind]. by apply (found_spec k c a ps cs i c1 p c3 n x).
  - destruct Hf as (Hcs & -> & _). cbn [obind]. unfold _cache_check_pending_request_locked. cbn [hash key_of]. rewrite Hp. destruct (bool_decide _); [by exists c|]. eexists. split; [done|].
    destruct mem; [|done]. constructor; cbn [items awaited fst]; [exists ps, cs; by apply represents_pending|done|done|done|done].
Qed.

Lemma resume_spec k c a q size now : holds k c a -> good q ->
  exists c', lookup_resume c (key_of q) size now = Ok (c', (items_resume a q size now).2) /\ holds k c' (items_resume a q size now).1.
Proof.
  intros H Hg. pose proof H as [(ps & cs & R) Hp Hm Hid Hroom]. unfold lookup_resume, items_resume. destruct (search c ps cs _ R (key_of q) Hg eq_refl) as (i & c1 & _ & -> & Hf). cbn [obind]. cbn [query key_of] in Hf.
  destruct (find_item q (items a)) as [[n x]|].
  - destruct Hf as (p & c3 & Hcs & Hn & Hx & ->). cbn [obind]. by apply (found_spec k c a ps cs i c1 p c3 n x).
  - destruct Hf as (Hcs & -> & _). by exists c.
Qed.

(** No item of the smaller list has the key. *)
Lemma evict_keeps max l now x : x ∈ evict max l now -> x ∈ l.
Proof.
  unfold evict. destruct (_ <=? _)%nat; [|done]. intros Hx. assert (x ∈ filter (fun x => now < iexp x) l) as Hf; [|by apply list_elem_of_filter in Hf as [_ ?]].
  destruct (_ <=? _)%nat; [|done]. apply list_elem_of_lookup_1 in Hx as [k Hk]. apply lookup_delete_inv in Hk. by apply list_elem_of_lookup_2 in Hk.
Qed.

Lemma evict_room l now : (Z.of_nat (length (evict (Z.to_nat CONFIG_MAX_ENTRIES) l now)) < CONFIG_MAX_ENTRIES) \/ (length l > Z.to_nat CONFIG_MAX_ENTRIES)%nat.
Proof.
  unfold evict. destruct (Nat.leb_spec (Z.to_nat CONFIG_MAX_ENTRIES) (length l)); [|lia]. pose proof (length_filter (fun x => now < iexp x) l) as Hl. set (l' := filter _ l) in *.
  destruct (Nat.leb_spec (Z.to_nat CONFIG_MAX_ENTRIES) (length l')); [|lia]. rewrite length_delete by (apply lookup_lt_is_Some; lia). lia.
Qed.

(** The cache after room was made. *)
Lemma evict_spec c ps cs l now : represents c ps cs l -> max_entries c = CONFIG_MAX_ENTRIES -> max_entries c <= num_entries c ->
  exists c' ps' cs', (c1 <-- _cache_remove_expired c now ;; if max_entries c1 <=? num_entries c1 then _cache_remove_oldest c1 else Ok c1) = Ok c' /\
    represents c' ps' cs' (evict (Z.to_nat CONFIG_MAX_ENTRIES) l now) /\ same_rest c c'.
Proof.
  intros R Hm Hfull. pose proof (r_num _ _ _ _ R) as Hnum. destruct (remove_expired_spec c ps cs l now R) as (c1 & ps1 & cs1 & -> & R1 & S1). cbn [obind]. unfold evict.
  rewrite (proj2 (Nat.leb_le (Z.to_nat CONFIG_MAX_ENTRIES) (length l))) by lia. set (l1 := filter _ l) in *. pose proof (r_num _ _ _ _ R1) as Hnum1. pose proof S1 as (M1 & _ & _). rewrite M1, Hm, Hnum1.
  destruct (Nat.leb_spec (Z.to_nat CONFIG_MAX_ENTRIES) (length l1)) as [Hle|Hle].
  - rewrite (proj2 (Z.leb_le _ _)) by lia. destruct (remove_oldest_spec c1 ps1 cs1 l1 R1) as (c2 & ps2 & cs2 & -> & R2 & S2); [intros E; rewrite E in Hle; change (length []) with 0%nat in Hle; lia|]. exists c2, ps2, cs2. split_and!; [done|done|by apply (same_rest_trans c c1)].
  - rewrite (proj2 (Z.leb_gt _ _)) by lia. by exists c1, ps1, cs1.
Qed.

Lemma find_item_None q l : (forall n x, l !! n = Some x -> same_key (iq x) q = false) -> find_item q l = None.
Proof. intros H. apply list_find_None, Forall_lookup. intros n x Hx. by rewrite (H n x Hx). Qed.

Lemma make_room_spec k c a q now : holds k c a -> good q -> exists c' ps' cs' l', represents c' ps' cs' l' /\ same_rest c c' /\ Z.of_nat (length l') <= CONFIG_MAX_ENTRIES /\
  match find_item q (items a) with
  | Some _ => make_room c (key_of q) now = Ok (c', None) /\ l' = items a
  | None => l' = evict (Z.to_nat CONFIG_MAX_ENTRIES) (items a) now /\ Z.of_nat (length l') < CONFIG_MAX_ENTRIES /\ (forall n x, l' !! n = Some x -> same_key (iq x) q = false) /\
      exists i cl, i = Z.to_nat (qhash q mod max_entries c') /\ cs' !! i = Some cl /\ make_room c (key_of q) now = Ok (c', Some (endp (Slot i) cl))
  end.
Proof.
  intros [(ps & cs & R) Hp Hm Hid Hroom] Hg. unfold make_room. destruct (search c ps cs _ R (key_of q) Hg eq_refl) as (i & c1 & Hi & -> & Hf). cbn [obind]. cbn [query key_of hash] in Hf, Hi.
  destruct (find_item q (items a)) as [[n x]|].
  { destruct Hf as (p & c3 & Hcs & Hn & Hx & ->). cbn [obind]. by exists c, ps, cs, (items a). }
  destruct Hf as (Hcs & -> & Hno). cbn [obind]. pose proof (r_num _ _ _ _ R) as Hnum. destruct (evict_room (items a) now) as [Hev|]; [|lia]. destruct (Z.leb_spec (max_entries c) (num_entries c)) as [Hfull|Hfull].
  - destruct (evict_spec c ps cs _ now R Hm Hfull) as (c' & ps' & cs' & E & R' & S'). destruct (_cache_remove_expired c now) as [c2| |]; cbn [obind] in *; [|done..]. rewrite E. cbn [obind].
    set (l' := evict _ _ now) in *. assert (forall n x, l' !! n = Some x -> same_key (iq x) q = false) as Hno'.
    { intros n x Hx. apply list_elem_of_lookup_2, evict_keeps, list_elem_of_lookup_1 in Hx as [n' Hx']. by apply (Hno n'). }
    destruct (search c' ps' cs' _ R' (key_of q) Hg eq_refl) as (j & c1' & Hj & -> & Hf'). cbn [obind query key_of hash] in *. rewrite (find_item_None q l' Hno') in Hf'. destruct Hf' as (Hcs' & -> & _). cbn [obind].
    exists c', ps', cs', l'. split_and!; [done|done|lia|done|done|done|]. by exists j, c1'.
  - assert (evict (Z.to_nat CONFIG_MAX_ENTRIES) (items a) now = items a) as Hsame by (unfold evict; by rewrite (proj2 (Nat.leb_gt _ _)) by lia).
    exists c, ps, cs, (items a). rewrite Hsame in *. split_and!; [done|done|lia|done|done|done|]. by exists i, c1.
Qed.

Section add.
Context (calloc : heap -> nat) (calloc_fresh : forall h, h !! calloc h = None).

Lemma cache_add_spec k c a q ans now now2 mem : holds k c a -> good q -> (exists ttl, answer_getTTL ans = Ok ttl) -> k + 1 < 2 ^ 31 ->
  exists c', cache_add calloc c (key_of q) ans now now2 mem = Ok c' /\ holds (k + 1) c' (items_add (Z.to_nat CONFIG_MAX_ENTRIES) a q ans now now2 mem).
Proof using calloc_fresh.
  intros H Hg [ttl Httl] Hk. pose proof H as [_ Hp Hm Hid Hroom]. destruct (make_room_spec k c a q now H Hg) as (c1 & ps & cs & l & R & (M1 & M2 & M3) & Hlen & Hf). unfold cache_add, items_add. rewrite Httl.
  assert (forall c2 ps cs l, represents c2 ps cs l -> max_entries c2 = CONFIG_MAX_ENTRIES -> last_id c2 <= k + 1 -> pending_requests c2 = awaited a -> Z.of_nat (length l) <= CONFIG_MAX_ENTRIES ->
    holds (k + 1) (_cache_notify_waiting_tid_locked c2 (key_of q)) (ACache l (remove_first (qhash q) (awaited a)))) as Hend.
  { intros c2 ps2 cs2 l2 R2 A1 A2 A3 A4. constructor; cbn [items awaited]; [exists ps2, cs2; by apply represents_pending|cbn; by rewrite A3|done|done|done]. }
  destruct (find_item q (items a)) as [[n x]|].
  { destruct Hf as [-> ->]. cbn [obind]. eexists. split; [done|]. apply (Hend _ ps cs); [done|congruence|lia|congruence|lia]. }
  destruct Hf as (-> & Hlt & Hno & i & cl & Hi & Hcs & ->). cbn [obind]. set (l := evict _ _ now) in *. destruct ((0 <? ttl) && mem).
  - set (x := Item q ans (wrapS 64 (ttl + now2))).
    destruct (add_p_spec c1 ps cs l i cl (calloc (memory c1)) (MkEntry (qhash q) None None None q ans (wrapS 64 (ttl + now2)) 0) x R Hi Hcs (calloc_fresh _) eq_refl eq_refl Hg Hno) as (c2 & E & R2 & A1 & A2 & A3); [lia|].
    cbn [entry_alloc hash hlink mru_prev mru_next query answer id key_of]. rewrite E. cbn [obind]. eexists. split; [done|]. apply (Hend _ _ _ _ R2); [congruence|lia|congruence|simpl; lia].
  - cbn [obind]. eexists. split; [done|]. apply (Hend _ ps cs); [done|congruence|lia|congruence|lia].
Qed.
End add.
