(* ===== verification/ResCacheRefine.v ===== *)
(** The caches of all networks: any sequence of calls does what it does on lists of items.

    The abstract state has for every network with a cache its items, the one used last in front, and the hashes of the queries
    that are being asked. *)

From stdpp Require Import gmap.
From S2P Require Import Prelude Result NsName DnsPacket NsParse ResCache ResCacheCorrect.
Local Open Scope Z_scope.

(** * Calls *)

(** A lookup, the rest of one that waited, the other functions of the cache, and the creation of the cache of a network. *)
Inductive call :=
| Lookup (netid : Z) (q : list Z) (answersize : nat) (now : Z) (mem : bool)
| Resume (netid : Z) (q : list Z) (answersize : nat) (now : Z)
| Add (netid : Z) (q ans : list Z) (now now2 : Z) (mem : bool)
| Failed (netid : Z) (q : list Z)
| Flush (netid : Z)
| Create (netid : Z) (mem : bool)
| Delete (netid : Z).

Definition no_output (r : result cache_infos) : result (cache_infos * option looked) := omap_ok (fun infos => (infos, None)) r.
Definition output (r : result (cache_infos * looked)) : result (cache_infos * option looked) := omap_ok (fun r => (r.1, Some r.2)) r.

Definition step (mode : option string) (calloc : heap -> nat) (infos : cache_infos) (ev : call) : result (cache_infos * option looked) :=
  match ev with
  | Lookup netid q size now mem => output (_resolv_cache_lookup infos netid q size now mem)
  | Resume netid q size now => output (resolv_cache_lookup_resume infos netid q size now)
  | Add netid q ans now now2 mem => no_output (_resolv_cache_add calloc infos netid q ans now now2 mem)
  | Failed netid q => no_output (_resolv_cache_query_failed infos netid q)
  | Flush netid => no_output (_flush_cache_for_net_locked infos netid)
  | Create netid mem => no_output (Ok (_get_res_cache_for_net_locked mode infos netid mem))
  | Delete netid => no_output (_resolv_delete_cache_for_net infos netid)
  end.

Fixpoint steps (mode : option string) (calloc : heap -> nat) (infos : cache_infos) (evs : list call) : result (cache_infos * list (option looked)) :=
  match evs with
  | [] => Ok (infos, [])
  | ev :: evs =>
      r <-- step mode calloc infos ev ;;
      rs <-- steps mode calloc r.1 evs ;;
      Ok (rs.1, r.2 :: rs.2)
  end.

(** * The calls on items *)

Definition accepted (q : list Z) : bool := match _dnsPacket_checkQuery q with Ok b => b | _ => false end.

Definition unsupported : looked := Returns RESOLV_CACHE_UNSUPPORTED None None.

Definition astep (m : gmap Z acache) (ev : call) : gmap Z acache * option looked :=
  match ev with
  | Lookup netid q size now mem =>
      match m !! netid with
      | Some a => if accepted q then let r := items_lookup a q size now mem in (<[netid := r.1]> m, Some r.2) else (m, Some unsupported)
      | None => (m, Some unsupported)
      end
  | Resume netid q size now =>
      match m !! netid with
      | Some a => let r := items_resume a q size now in (<[netid := r.1]> m, Some r.2)
      | None => (m, Some (Returns RESOLV_CACHE_NOTFOUND None None))
      end
  | Add netid q ans now now2 mem =>
      match m !! netid with
      | Some a => if accepted q then (<[netid := items_add (Z.to_nat CONFIG_MAX_ENTRIES) a q ans now now2 mem]> m, None) else (m, None)
      | None => (m, None)
      end
  | Failed netid q =>
      match m !! netid with
      | Some a => if accepted q then (<[netid := ACache (items a) (remove_first (qhash q) (awaited a))]> m, None) else (m, None)
      | None => (m, None)
      end
  | Flush netid => match m !! netid with Some a => (<[netid := ACache [] []]> m, None) | None => (m, None) end
  | Create netid mem => match m !! netid with Some a => (m, None) | None => if mem then (<[netid := ACache [] []]> m, None) else (m, None) end
  | Delete netid => (delete netid m, None)
  end.

Fixpoint asteps (m : gmap Z acache) (evs : list call) : gmap Z acache * list (option looked) :=
  match evs with
  | [] => (m, [])
  | ev :: evs => let r := astep m ev in let rs := asteps r.1 evs in (rs.1, r.2 :: rs.2)
  end.

(** * The list of caches *)

Section infos.
Implicit Types (infos : cache_infos).

Lemma find_info infos netid : match _find_cache_info_locked infos netid with
  | Some i => exists c, infos !! i = Some (netid, c)
  | None => netid ∉ infos.*1
  end.
Proof.
  induction infos as [|[n c] infos IH]; simpl; [by intros ?%elem_of_nil|]. destruct (Z.eqb_spec n netid) as [->|Hn]; [by exists c|].
  destruct (_find_cache_info_locked infos netid) as [i|]; simpl; [done|]. rewrite elem_of_cons. intros [->|?]; done.
Qed.

Lemma find_named infos netid : match _find_named_cache_locked infos netid with
  | Some (i, c) => infos !! i = Some (netid, c)
  | None => netid ∉ infos.*1
  end.
Proof.
  unfold _find_named_cache_locked. pose proof (find_info infos netid) as H. destruct (_find_cache_info_locked infos netid) as [i|]; simpl; [|done]. destruct H as [c H]. rewrite H. simpl. done.
Qed.

(** The caches of the list hold the items of the networks. *)
Record caches_hold (k : Z) infos (m : gmap Z acache) : Prop := CachesHold {
  ch_nodup : NoDup infos.*1;
  ch_cache : forall i netid c, infos !! i = Some (netid, c) -> exists a, m !! netid = Some a /\ holds k c a;
  ch_net : forall netid, is_Some (m !! netid) -> netid ∈ infos.*1;
}.

Lemma find_held k infos m netid : caches_hold k infos m ->
  (_find_named_cache_locked infos netid = None /\ m !! netid = None) \/
  exists i c a, _find_named_cache_locked infos netid = Some (i, c) /\ infos !! i = Some (netid, c) /\ m !! netid = Some a /\ holds k c a.
Proof.
  intros H. pose proof (find_named infos netid) as Hf. destruct (_find_named_cache_locked infos netid) as [[i c]|].
  - right. destruct (ch_cache _ _ _ H i netid c Hf) as (a & Ha & Hh). by exists i, c, a.
  - left. split; [done|]. apply eq_None_not_Some. intros Hs. by apply Hf, (ch_net _ _ _ H).
Qed.

Lemma keys_insert infos i netid c c' : infos !! i = Some (netid, c) -> (<[i := (netid, c')]> infos).*1 = infos.*1.
Proof. intros Hi. rewrite list_fmap_insert. apply list_insert_id. by rewrite list_lookup_fmap, Hi. Qed.

Lemma holds_mono k k' c a : k <= k' -> holds k c a -> holds k' c a.
Proof. intros Hk [H1 H2 H3 H4 H5]. constructor; try done. lia. Qed.

Lemma caches_mono k k' infos m : k <= k' -> caches_hold k infos m -> caches_hold k' infos m.
Proof.
  intros Hk [H1 H2 H3]. constructor; [done| |done]. intros i netid c Hi. destruct (H2 i netid c Hi) as (a & Ha & Hh). exists a. split; [done|]. by apply (holds_mono k).
Qed.

(** A cache of the list is changed. *)
Lemma put_holds k k' infos m netid i c c' a' : k <= k' -> caches_hold k infos m -> infos !! i = Some (netid, c) -> holds k' c' a' -> caches_hold k' (put_cache infos netid i c') (<[netid := a']> m).
Proof.
  intros Hk H Hi Hh. unfold put_cache. constructor.
  - rewrite (keys_insert _ _ _ c) by done. apply (ch_nodup _ _ _ H).
  - intros j n d Hj. apply list_lookup_insert_Some in Hj as [(<- & [= <- <-] & _)|[Hij Hj]]; [exists a'; split; [by rewrite lookup_insert_eq|done]|].
    destruct (ch_cache _ _ _ H j n d Hj) as (a & Ha & Hd). exists a. split; [|by apply (holds_mono k)]. rewrite lookup_insert_ne; [done|]. intros ->. apply Hij.
    apply (NoDup_lookup infos.*1 i j n (ch_nodup _ _ _ H)); by rewrite list_lookup_fmap, ?Hi, ?Hj.
  - intros n Hn. rewrite (keys_insert _ _ _ c) by done. destruct (decide (n = netid)) as [->|Hne]; [apply list_elem_of_fmap; exists (netid, c); split; [done|]; by apply list_elem_of_lookup_2 in Hi|].
    rewrite lookup_insert_ne in Hn by done. by apply (ch_net _ _ _ H).
Qed.

Lemma insert_holds k infos m netid c a : caches_hold k infos m -> m !! netid = None -> holds k c a -> caches_hold k (_insert_cache_info_locked infos netid c) (<[netid := a]> m).
Proof.
  intros H Hm Hh. assert (netid ∉ infos.*1) as Hfresh.
  { intros Hin. apply list_elem_of_fmap in Hin as ([n d] & -> & Hin). apply list_elem_of_lookup_1 in Hin as [i Hi]. destruct (ch_cache _ _ _ H i n d Hi) as (? & ? & _). simpl in *. congruence. }
  unfold _insert_cache_info_locked. constructor.
  - rewrite fmap_app. apply NoDup_app. split; [apply (ch_nodup _ _ _ H)|]. split; [|apply NoDup_singleton]. by intros x Hx ->%list_elem_of_singleton.
  - intros i n d Hi. apply lookup_snoc_Some in Hi as [[Hl Hi]|[_ [= <- <-]]]; [|exists a; by rewrite lookup_insert_eq]. destruct (ch_cache _ _ _ H i n d Hi) as (a' & Ha & Hd). exists a'. split; [|done].
    rewrite lookup_insert_ne; [done|]. congruence.
  - intros n Hn. rewrite fmap_app, elem_of_app. destruct (decide (n = netid)) as [->|Hne]; [right; by apply list_elem_of_singleton|]. rewrite lookup_insert_ne in Hn by done. left. by apply (ch_net _ _ _ H).
Qed.

Lemma delete_holds k infos m netid i c : caches_hold k infos m -> infos !! i = Some (netid, c) -> caches_hold k (delete i infos) (delete netid m).
Proof.
  intros H Hi. assert (Hp : infos.*1 ≡ₚ netid :: (delete i infos).*1) by (rewrite (delete_Permutation infos i _ Hi) at 1; done). pose proof (ch_nodup _ _ _ H) as Hnd. rewrite Hp in Hnd. apply NoDup_cons in Hnd as [Hn Hnd]. constructor.
  - done.
  - intros j n d Hj. assert (n ∈ (delete i infos).*1) as Hin by (apply list_elem_of_fmap; exists (n, d); split; [done|]; by apply list_elem_of_lookup_2 in Hj).
    apply lookup_delete_inv in Hj. destruct (ch_cache _ _ _ H _ n d Hj) as (a & Ha & Hd). exists a. split; [|done]. rewrite lookup_delete_ne; [done|]. by intros ->.
  - intros n [a Ha]. apply lookup_delete_Some in Ha as [Hne Ha]. assert (n ∈ infos.*1) as Hin by (apply (ch_net _ _ _ H); by eexists). rewrite Hp in Hin. apply elem_of_cons in Hin as [->|?]; done.
Qed.
End infos.

(** * The refinement *)

(** A query the callers may ask: at least three bytes, and if it passes the check its records can be read.  One without additional
    records that passes always is. *)
Definition query_ok (q : list Z) : Prop := Forall is_byte q /\ (3 <= length q)%nat /\ (_dnsPacket_checkQuery q = Ok true -> regular q).

Definition call_ok (ev : call) : Prop :=
  match ev with
  | Lookup _ q _ _ _ | Failed _ q => query_ok q
  | Resume _ q _ _ => query_ok q /\ _dnsPacket_checkQuery q = Ok true
  | Add _ q ans _ _ _ => query_ok q /\ exists ttl, answer_getTTL ans = Ok ttl
  | _ => True
  end.

Lemma init_key_spec q : query_ok q -> entry_init_key q = Ok (key_of q, accepted q) /\ (accepted q = true -> good q).
Proof.
  intros (Hb & Hl & Hr). unfold entry_init_key, accepted, key_of, qhash. destruct (lookup_lt_is_Some_2 q 2) as [b Hb2]; [lia|]. rewrite (hashQuery_spec q b Hb2). cbn [obind].
  destruct (checkQuery_total q Hb) as (v & Hv & _). rewrite Hv. cbn [obind]. split; [done|]. intros ->. split; [done|by apply Hr].
Qed.

Section refine.
Context (mode : option string) (calloc : heap -> nat).
Context (mode_local : _res_cache_get_max_entries mode = CONFIG_MAX_ENTRIES) (calloc_fresh : forall h, h !! calloc h = None).

Lemma empty_holds k : 0 <= k -> holds k (_resolv_cache_create mode) (ACache [] []).
Proof using mode_local. intros Hk. destruct (create_spec mode mode_local) as [cs R]. constructor; [by exists [], cs|done|done|done|done]. Qed.

Lemma flush_holds k c a : 0 <= k -> holds k c a -> exists c', _cache_flush_locked c = Ok c' /\ holds k c' (ACache [] []).
Proof using.
  intros Hk [(ps & cs & R) Hp Hm Hid Hroom]. destruct (flush_spec c ps cs _ R) as (c' & cs' & -> & R' & M1 & M2 & M3). exists c'. split; [done|]. constructor; [by exists [], cs'|done|congruence|lia|done].
Qed.

Lemma step_refines k infos m ev : 0 <= k -> k + 1 < 2 ^ 31 -> call_ok ev -> caches_hold k infos m ->
  exists infos', step mode calloc infos ev = Ok (infos', (astep m ev).2) /\ caches_hold (k + 1) infos' (astep m ev).1.
Proof using mode_local calloc_fresh.
  intros Hk Hk1 Hok H. assert (Hle : k <= k + 1) by lia. pose proof (caches_mono k (k + 1) infos m Hle H) as H1. destruct ev as [netid q size now mem|netid q size now|netid q ans now now2 mem|netid q|netid|netid mem|netid]; cbn [step astep call_ok] in *.
  - destruct (init_key_spec q Hok) as [Hkey Hg]. unfold _resolv_cache_lookup. rewrite Hkey. cbn [obind]. destruct (find_held k infos m netid H) as [[-> ->]|(i & c & a & -> & Hi & -> & Hh)].
    + exists infos. by destruct (accepted q).
    + destruct (accepted q); cbn [negb]; [|by exists infos]. destruct (begin_spec k c a q size now mem Hh (Hg eq_refl)) as (c' & -> & Hc'). cbn [obind]. eexists. split; [done|]. apply (put_holds k (k + 1) infos m netid i c); [lia|done|done|by apply (holds_mono k)].
  - destruct Hok as [Hq Hc]. destruct (init_key_spec q Hq) as [Hkey Hg]. unfold resolv_cache_lookup_resume. rewrite Hkey. cbn [obind fst]. destruct (find_held k infos m netid H) as [[-> ->]|(i & c & a & -> & Hi & -> & Hh)]; [by exists infos|].
    destruct (resume_spec k c a q size now Hh) as (c' & -> & Hc'); [apply Hg; unfold accepted; by rewrite Hc|]. cbn [obind]. eexists. split; [done|]. apply (put_holds k (k + 1) infos m netid i c); [lia|done|done|by apply (holds_mono k)].
  - destruct Hok as [Hq Hans]. destruct (init_key_spec q Hq) as [Hkey Hg]. unfold _resolv_cache_add. rewrite Hkey. cbn [obind]. destruct (find_held k infos m netid H) as [[-> ->]|(i & c & a & -> & Hi & -> & Hh)].
    + exists infos. by destruct (accepted q).
    + destruct (accepted q); cbn [negb]; [|by exists infos]. destruct (cache_add_spec calloc calloc_fresh k c a q ans now now2 mem Hh (Hg eq_refl) Hans Hk1) as (c' & -> & Hc'). cbn [obind]. eexists. split; [done|]. by apply (put_holds k (k + 1) infos m netid i c).
  - destruct (init_key_spec q Hok) as [Hkey Hg]. unfold _resolv_cache_query_failed. rewrite Hkey. cbn [obind]. destruct (find_held k infos m netid H) as [[-> ->]|(i & c & a & -> & Hi & -> & Hh)].
    + exists infos. by destruct (accepted q).
    + destruct (accepted q); cbn [negb]; [|by exists infos]. eexists. split; [done|]. apply (put_holds k (k + 1) infos m netid i c); [lia|done|done|].
      destruct Hh as [(ps & cs & R) Hp Hm Hid Hroom]. constructor; cbn [items awaited]; [exists ps, cs; by apply represents_pending|cbn; by rewrite Hp|done|cbn; lia|done].
  - unfold _flush_cache_for_net_locked. destruct (find_held k infos m netid H) as [[-> ->]|(i & c & a & -> & Hi & -> & Hh)]; [by exists infos|]. destruct (flush_holds k c a Hk Hh) as (c' & -> & Hc'). cbn [obind].
    eexists. split; [done|]. apply (put_holds k (k + 1) infos m netid i c); [lia|done|done|by apply (holds_mono k)].
  - unfold _get_res_cache_for_net_locked. destruct (find_held k infos m netid H) as [[-> Hm]|(i & c & a & -> & Hi & -> & Hh)]; [|by exists infos]. rewrite Hm. destruct mem; [|by exists infos]. eexists. split; [done|].
    apply insert_holds; [done|done|]. apply empty_holds. lia.
  - unfold _resolv_delete_cache_for_net. destruct (find_held k infos m netid H) as [[-> Hm]|(i & c & a & -> & Hi & Hm & Hh)]; [exists infos; rewrite delete_id by done; done|].
    destruct (flush_holds k c a Hk Hh) as (c' & -> & _). cbn [obind]. eexists. split; [done|]. by apply (delete_holds _ infos m netid i c).
Qed.

Lemma steps_refine evs : forall k infos m, 0 <= k -> k + Z.of_nat (length evs) < 2 ^ 31 -> Forall call_ok evs -> caches_hold k infos m ->
  exists infos', steps mode calloc infos evs = Ok (infos', (asteps m evs).2) /\ caches_hold (k + Z.of_nat (length evs)) infos' (asteps m evs).1.
Proof using mode_local calloc_fresh.
  induction evs as [|ev evs IH]; intros k infos m Hk Hlen Hok H; cbn [steps asteps].
  { exists infos. split; [done|]. by rewrite Z.add_0_r. }
  apply Forall_cons in Hok as [Hev Hok]. cbn [length] in *. destruct (step_refines k infos m ev Hk ltac:(lia) Hev H) as (infos1 & -> & H1). cbn [obind fst snd].
  destruct (IH (k + 1) infos1 _ ltac:(lia) ltac:(lia) Hok H1) as (infos2 & -> & H2). cbn [obind fst snd]. exists infos2. split; [done|]. by replace (k + Z.of_nat (S (length evs))) with (k + 1 + Z.of_nat (length evs)) by lia.
Qed.
End refine.

Lemma no_caches : caches_hold 0 [] ∅.
Proof. constructor; [constructor|done|]. intros netid Hn. rewrite lookup_empty in Hn. by destruct Hn. Qed.

(** C6: Any sequence of calls on the caches of all networks, with lookups that wait and go on at any later time, returns, and gives
    the results that it gives on lists of items in the order of their last use: the operations on the hash table and on the list
    of uses, with their pointers, do what the list says.  A cache never holds more entries than its maximum, the number it counts is that of
    its items, and all memory in use is that of its items.  ANDROID_DNS_MODE is "local", queries have at least three bytes and, if
    they pass the check, records that can be read, so that they are equal to themselves (without that the cache can exceed its
    maximum), the lifetime of an answer that is added can be computed, and there are less than 2^31 calls. *)
Theorem cache_refines mode calloc evs :
  _res_cache_get_max_entries mode = CONFIG_MAX_ENTRIES -> (forall h, h !! calloc h = None) -> Forall call_ok evs -> Z.of_nat (length evs) < 2 ^ 31 ->
  exists infos, steps mode calloc [] evs = Ok (infos, (asteps ∅ evs).2) /\
    forall netid i c, _find_named_cache_locked infos netid = Some (i, c) -> exists a, (asteps ∅ evs).1 !! netid = Some a /\
      num_entries c = Z.of_nat (length (items a)) /\ num_entries c <= max_entries c /\ size (memory c) = S (length (items a)) /\ pending_requests c = awaited a.
Proof.
  intros Hmode Hcalloc Hok Hlen. destruct (steps_refine mode calloc Hmode Hcalloc evs 0 [] ∅ ltac:(lia) ltac:(lia) Hok no_caches) as (infos & -> & H). exists infos. split; [done|].
  intros netid i c Hf. destruct (find_held _ infos _ netid H) as [[E _]|(i' & c' & a & E & _ & Ha & Hh)]; [congruence|]. assert (c' = c) as -> by congruence. exists a.
  destruct Hh as [(ps & cs & R) Hp Hm _ Hroom]. pose proof (r_num _ _ _ _ R). split_and!; [done|done|lia| |done]. rewrite (r_size _ _ _ _ R). f_equal. apply (Forall2_length _ _ _ (r_data _ _ _ _ R)).
Qed.

(** An allocator. *)
Definition next_free (h : heap) : nat := fresh (dom h).

Lemma next_free_fresh h : h !! next_free h = None.
Proof. apply not_elem_of_dom. unfold next_free. apply is_fresh. Qed.

Lemma ex_query_ok : query_ok (ex_query 7 1).
Proof. split_and!; [unfold ex_query, is_byte; repeat (constructor; [lia|]); constructor|simpl; lia|]. intros _. vm_compute. reflexivity. Qed.

Definition ex_calls : list call :=
  [Create 1 true; Lookup 1 (ex_query 7 1) 512 100 true; Lookup 1 (ex_query 7 1) 512 100 true; Add 1 (ex_query 7 1) ex_message 101 101 true;
   Resume 1 (ex_query 7 1) 512 102; Lookup 1 (ex_query 7 1) 10 103 true; Lookup 1 (ex_query 7 1) 512 161 true; Delete 1; Lookup 1 (ex_query 7 1) 512 161 true].

Lemma ex_calls_ok : Forall call_ok ex_calls.
Proof.
  assert (exists ttl, answer_getTTL ex_message = Ok ttl) as Hans by (exists 60; vm_compute; reflexivity). assert (_dnsPacket_checkQuery (ex_query 7 1) = Ok true) as Hc by (vm_compute; reflexivity).
  pose proof ex_query_ok as Hq. unfold ex_calls. repeat (apply Forall_cons_2; [cbn [call_ok]; auto|]). constructor.
Qed.

Lemma cache_refines_witness : exists infos, steps (Some "local"%string) next_free [] ex_calls = Ok (infos, (asteps ∅ ex_calls).2).
Proof.
  destruct (cache_refines (Some "local"%string) next_free ex_calls) as (infos & H & _); [reflexivity|exact next_free_fresh|exact ex_calls_ok|simpl; lia|exists infos; exact H].
Defined.

(** The second lookup waits for the first, finds the answer when it goes on, and the answer goes when it expires. *)
Example ex_outputs : (asteps ∅ ex_calls).2 =
  [None; Some (Returns RESOLV_CACHE_NOTFOUND None None); Some Waits; None; Some (Returns RESOLV_CACHE_FOUND (Some 84%nat) (Some ex_message));
   Some (Returns RESOLV_CACHE_UNSUPPORTED (Some 84%nat) None); Some (Returns RESOLV_CACHE_NOTFOUND None None); None; Some unsupported].
Proof. vm_compute. reflexivity. Qed.

(** * What is kept *)

Lemma asteps_app evs evs' : forall m, asteps m (evs ++ evs') = ((asteps (asteps m evs).1 evs').1, (asteps m evs).2 ++ (asteps (asteps m evs).1 evs').2).
Proof. induction evs as [|ev evs IH]; intros m; cbn [asteps app fst snd]; [by destruct (asteps m evs')|]. by rewrite IH. Qed.

(** After any calls, the answer that is added for a query the cache does not have is the answer the query is given until it expires, in
    every buffer that is large enough; and from the time it expires on the query is not found. *)
Theorem added_is_found mode calloc evs netid q ans ttl now now2 size now3 mem a :
  _res_cache_get_max_entries mode = CONFIG_MAX_ENTRIES -> (forall h, h !! calloc h = None) -> Forall call_ok evs -> Z.of_nat (length evs) + 2 < 2 ^ 31 ->
  query_ok q -> _dnsPacket_checkQuery q = Ok true -> answer_getTTL ans = Ok ttl -> 0 < ttl -> 0 <= now2 -> now2 + ttl < 2 ^ 63 -> (length ans <= size)%nat ->
  (asteps ∅ evs).1 !! netid = Some a -> find_item q (items a) = None ->
  exists infos, steps mode calloc [] (evs ++ [Add netid q ans now now2 true; Lookup netid q size now3 mem])
    = Ok (infos, (asteps ∅ evs).2 ++
        [None; Some (if now3 <? now2 + ttl then Returns RESOLV_CACHE_FOUND (Some (length ans)) (Some ans) else Returns RESOLV_CACHE_NOTFOUND None None)]).
Proof.
  intros Hmode Hcalloc Hok Hlen Hq Hc Httl Hpos Hnow2 Hexp Hsize Ha Hnew. destruct (init_key_spec q Hq) as [_ Hg]. assert (accepted q = true) as Hacc by (unfold accepted; by rewrite Hc). specialize (Hg Hacc).
  destruct (steps_refine mode calloc Hmode Hcalloc (evs ++ [Add netid q ans now now2 true; Lookup netid q size now3 mem]) 0 [] ∅ ltac:(lia)) as (infos & -> & _);
    [rewrite length_app; simpl; lia|apply Forall_app_2; [done|]; repeat (apply Forall_cons_2; [cbn [call_ok]; eauto|]); constructor|exact no_caches|].
  exists infos. do 2 f_equal. rewrite asteps_app. cbn [snd asteps astep]. rewrite Ha, Hacc. cbn [fst snd]. rewrite lookup_insert_eq. cbn [fst snd]. do 2 f_equal.
  unfold items_add, items_lookup. rewrite Hnew, Httl, (proj2 (Z.ltb_lt 0 ttl)) by done. cbn [andb items]. unfold find_item. cbn [list_find]. rewrite decide_True by (by apply same_key_refl).
  unfold item_found. cbn [iexp ians]. replace (wrapS 64 (ttl + now2)) with (now2 + ttl) by (rewrite wrapS_small; lia). destruct (Z.leb_spec (now2 + ttl) now3), (Z.ltb_spec now3 (now2 + ttl)); try lia; [done|].
  by rewrite (proj2 (Nat.ltb_ge _ _)) by done.
Qed.

Lemma added_is_found_witness : exists infos, steps (Some "local"%string) next_free [] ([Create 1 true] ++ [Add 1 (ex_query 7 1) ex_message 100 100 true; Lookup 1 (ex_query 7 1) 512 159 true])
    = Ok (infos, (asteps ∅ [Create 1 true]).2 ++
        [None; Some (if 159 <? 100 + 60 then Returns RESOLV_CACHE_FOUND (Some (length ex_message)) (Some ex_message) else Returns RESOLV_CACHE_NOTFOUND None None)]).
Proof.
  apply (added_is_found (Some "local"%string) next_free [Create 1 true] 1 (ex_query 7 1) ex_message 60 100 100 512 159 true (ACache [] []));
    [reflexivity|exact next_free_fresh|repeat constructor|simpl; lia|exact ex_query_ok|vm_compute; reflexivity|vm_compute; reflexivity|lia|lia|lia|vm_compute; lia|reflexivity|reflexivity].
Defined.

(** * What goes wrong otherwise *)

(** A cache for two entries after three answers to a query that passes the check and is not equal to itself: it has three entries, and none
    is found. *)
Definition ex_two : Cache := MkCache 2 0 (memory (_resolv_cache_create None)) 0 [None; None] [].

Example ex_grows :
  let add c := (r <-- entry_init_key ex_cut ;; cache_add next_free c r.1 ex_message 100 100 true) in
  (c <-- add ex_two ;; c <-- add c ;; c <-- add c ;; r <-- entry_init_key ex_cut ;; r <-- lookup_resume c r.1 512 101 ;; Ok (max_entries r.1, num_entries r.1, r.2))
  = Ok (2, 3, Returns RESOLV_CACHE_NOTFOUND None None).
Proof. vm_compute. reflexivity. Qed.

(** Unless ANDROID_DNS_MODE is "local", a cache has no slots, and a lookup divides by 0. *)
Example ex_no_slots : steps (Some "remote"%string) next_free [] [Create 1 true; Lookup 1 (ex_query 7 1) 512 100 true] = Fault.
Proof. vm_compute. reflexivity. Qed.
