(* ===== verification/ResMkquery.v ===== *)
(** Making queries: libc/dns/resolv/res_mkquery.c.

    The queries the resolver makes are the keys of its cache: those for addresses, names of addresses and mail exchangers pass the check
    of [DnsPacket], with and without the additional record of EDNS0. *)

From stdpp Require Import gmap.
From S2P Require Import Prelude Result NsName NsPack NsText NsParse DnsPacket ResCache ResCacheCorrect ResCacheRefine.

Local Open Scope Z_scope.

(** * Definitions *)

Abbreviation HFIXEDSZ := 12%nat.
Abbreviation QFIXEDSZ := 4%nat.
Abbreviation RRFIXEDSZ := 10%nat.
Abbreviation RES_RECURSE := 0x40.
Abbreviation RES_USE_DNSSEC := 0x200000.
Abbreviation QUERY := 0.
Abbreviation IQUERY := 1.
Abbreviation NS_NOTIFY_OP := 4.
Abbreviation T_NULL := 10.
Abbreviation T_OPT := 41.
Abbreviation NS_OPT_DNSSEC_OK := 0x8000.
Abbreviation NS_OPT_PADDING := 12.
Abbreviation EDNS0_PADDING := 128.

(** The array dnptrs has 20 entries, of which the first is the start of the message. *)
Definition dn_comp (src buf : list Z) (dst dstsiz : nat) (dnptrs : list nat) : result (option nat * list Z * list nat) :=
  r <-- ns_name_compress src buf dst dstsiz (Some dnptrs) (Some 19%nat) ;;
  let '(n, buf, ptrs) := r in
  Ok (match n with inl _ => None | inr n => Some n end, buf, default [] ptrs).

(** The header: the bit fields are in the order of little-endian machines. *)
Definition write_header (buf : list Z) (id op options : Z) : result (list Z) :=
  let rd := Z.b2z (negb (Z.land options RES_RECURSE =? 0)) in
  let ad := Z.b2z (negb (Z.land options RES_USE_DNSSEC =? 0)) in
  write_at buf 0 ([Z.shiftr id 8; wrapU 8 id; Z.lor (Z.shiftl (op mod 16) 3) rd; Z.shiftl ad 5] ++ replicate 8 0).

(** The size of the query, if there is one, and the buffer.  [id] is a number below 2^16. *)
Definition res_nmkquery (options id op : Z) (dname : list Z) (class type : Z) (data : option (list Z)) (datalen : nat) (buf : list Z) : result (option nat * list Z) :=
  if (length buf <? HFIXEDSZ)%nat then Ok (None, buf) else
  buf <-- write_header buf id op options ;;
  let cp := HFIXEDSZ in
  let ep := length buf in
  if (op =? QUERY) || (op =? NS_NOTIFY_OP) then
    if (ep - cp <? QFIXEDSZ)%nat then Ok (None, buf) else
    r <-- dn_comp dname buf cp (ep - cp - QFIXEDSZ) [] ;;
    let '(n, buf, dnptrs) := r in
    match n with
    | None => Ok (None, buf)
    | Some n =>
        let cp := (cp + n)%nat in
        buf <-- ns_put16 type buf cp ;;
        buf <-- ns_put16 class buf (cp + 2) ;;
        let cp := (cp + 2 + 2)%nat in
        buf <-- ns_put16 1 buf 4 ;;
        match (if op =? QUERY then None else data) with
        | None => Ok (Some cp, buf)
        | Some data =>
            if (ep - cp <? RRFIXEDSZ)%nat then Ok (None, buf) else
            r <-- dn_comp data buf cp (ep - cp - RRFIXEDSZ) dnptrs ;;
            let '(n, buf, _) := r in
            match n with
            | None => Ok (None, buf)
            | Some n =>
                let cp := (cp + n)%nat in
                buf <-- ns_put16 T_NULL buf cp ;;
                buf <-- ns_put16 class buf (cp + 2) ;;
                buf <-- ns_put32 0 buf (cp + 4) ;;
                buf <-- ns_put16 0 buf (cp + 8) ;;
                buf <-- ns_put16 1 buf 10 ;;
                Ok (Some (cp + 10)%nat, buf)
            end
        end
    end
  else if op =? IQUERY then
    if (ep - cp <? 1 + RRFIXEDSZ + datalen)%nat then Ok (None, buf) else
    buf <-- write_at buf cp [0] ;;
    let cp := (cp + 1)%nat in
    buf <-- ns_put16 type buf cp ;;
    buf <-- ns_put16 class buf (cp + 2) ;;
    buf <-- ns_put32 0 buf (cp + 4) ;;
    buf <-- ns_put16 (Z.of_nat datalen) buf (cp + 8) ;;
    let cp := (cp + 10)%nat in
    r <-- (if (datalen =? 0)%nat then Ok (cp, buf) else
           d <-- run data ;;
           bs <-- bytes_at d 0 datalen ;;
           buf <-- write_at buf cp bs ;;
           Ok ((cp + datalen)%nat, buf)) ;;
    let '(cp, buf) := r in
    buf <-- ns_put16 1 buf 6 ;;
    Ok (Some cp, buf)
  else Ok (None, buf).

(** The bytes of the additional record that make the query a multiple of 128 bytes long, if there is room. *)
Definition padding (minlen buflen : nat) : nat :=
  let extra := (minlen mod 128)%nat in
  Nat.min ((128 - extra) mod 128) (buflen - minlen).

(** [n0] is the size of the query, which is below 2^16 - 15. *)
Definition res_nopt (options : Z) (n0 : nat) (buf : list Z) (anslen : Z) : result (option nat * list Z) :=
  let buflen := length buf in
  if (buflen - n0 <? 1 + RRFIXEDSZ)%nat then Ok (None, buf) else
  buf <-- write_at buf n0 [0] ;;
  buf <-- ns_put16 T_OPT buf (n0 + 1) ;;
  let anslen := if 0xffff <? anslen then 0xffff else anslen in
  buf <-- ns_put16 anslen buf (n0 + 3) ;;
  buf <-- write_at buf (n0 + 5) [0] ;;
  buf <-- write_at buf (n0 + 6) [0] ;;
  let flags := if negb (Z.land options RES_USE_DNSSEC =? 0) then NS_OPT_DNSSEC_OK else 0 in
  buf <-- ns_put16 flags buf (n0 + 7) ;;
  let cp := (n0 + 9)%nat in
  let minlen := (cp + 3 * 2)%nat in
  if (buflen <? minlen)%nat then Ok (None, buf) else
  let padlen := padding minlen buflen in
  buf <-- ns_put16 (Z.of_nat padlen + 2 * 2) buf cp ;;
  buf <-- ns_put16 NS_OPT_PADDING buf (cp + 2) ;;
  buf <-- ns_put16 (Z.of_nat padlen) buf (cp + 4) ;;
  buf <-- write_at buf (cp + 6) (replicate padlen 0) ;;
  arcount <-- ns_get16 buf 10 ;;
  buf <-- ns_put16 (arcount + 1) buf 10 ;;
  Ok (Some (cp + 6 + padlen)%nat, buf).

(** * Writing *)

Lemma write_end pre rest bs : (length bs <= length rest)%nat -> write_at (pre ++ rest) (length pre) bs = Ok ((pre ++ bs) ++ drop (length bs) rest).
Proof.
  intros H. unfold write_at. rewrite length_app, (proj2 (Nat.leb_le _ _)), take_app_length, drop_app_ge, <-app_assoc by lia. by replace (length pre + length bs - length pre)%nat with (length bs) by lia.
Qed.

Lemma write_two buf p a b : (p + length a + length b <= length buf)%nat -> (buf' <-- write_at buf p a ;; write_at buf' (p + length a) b) = write_at buf p (a ++ b).
Proof.
  intros H. assert (p <= length buf)%nat as Hp by lia. pose proof (length_take_le buf p Hp) as Ht. rewrite <-(take_drop p buf).
  assert (length (drop p buf) = length buf - p)%nat as Hd by apply length_drop. set (pre := take p buf) in *. set (rest := drop p buf) in *. rewrite <-Ht.
  rewrite (write_end pre rest a) by lia. cbn [obind]. rewrite <-(length_app pre a), (write_end (pre ++ a)), (write_end pre) by (rewrite ?length_app, ?length_drop; lia).
  by rewrite drop_drop, !length_app, !app_assoc.
Qed.

Lemma put_end x pre rest p : p = length pre -> (2 <= length rest)%nat -> ns_put16 x (pre ++ rest) p = Ok ((pre ++ [wrapU 8 (Z.shiftr x 8); wrapU 8 x]) ++ drop 2 rest).
Proof. intros -> H. by apply (write_end pre rest [_; _]). Qed.

Lemma append_bytes bs pre rest p : p = length pre -> (length bs <= length rest)%nat -> write_at (pre ++ rest) p bs = Ok ((pre ++ bs) ++ drop (length bs) rest).
Proof. intros ->. apply write_end. Qed.

(** * Names that are not compressed *)

(** The name does not reach the end of the array: a byte is left. *)
Lemma pack_plain src room eob ls : Forall plain ls -> forall fuel srcp dstp buf saved,
  has src srcp (encoded ls) -> (eob <= length buf)%nat -> (length ls < fuel)%nat -> (srcp + length (encoded ls) <= length src)%nat ->
  exists buf' saved', pack_loop fuel src (Some []) room eob srcp dstp buf saved
    = Ok (if (dstp + length (encoded ls) <? eob)%nat then Some (dstp + length (encoded ls))%nat else None, buf', saved') /\
    length buf' = length buf /\ ((dstp + length (encoded ls) < eob)%nat -> write_at buf dstp (encoded ls) = Ok buf').
Proof.
  induction 1 as [|bs ls Hbs Hls IH]; intros fuel srcp dstp buf saved Hsrc He Hf Hl; (destruct fuel as [|fuel]; [lia|]); cbn [pack_loop dn_find].
  - apply has_cons in Hsrc as [Hn _]. rewrite (at_Some _ _ _ Hn). cbn [obind negb Z.eqb]. assert (labellen src srcp = Ok (Some 0%nat)) as -> by (unfold labellen; by rewrite (at_Some _ _ _ Hn)).
    cbn [obind]. change (Z.land 0 NS_CMPRSFLGS =? NS_CMPRSFLGS) with false. cbv iota. change (length (encoded [])) with 1%nat in *.
    destruct (Nat.leb_spec eob (dstp + 1 + 0)), (Nat.ltb_spec (dstp + 1) eob); try lia; [eexists _, _; split_and!; [done|done|lia]|].
    unfold bytes_at. rewrite (proj2 (Nat.leb_le _ _)) by lia. cbn [obind]. replace (take (0 + 1) (drop srcp src)) with (encoded []) by (by rewrite (drop_S _ _ _ Hn)).
    destruct (write_at_spec buf dstp (encoded [])) as (buf' & E & Hlen & _); [simpl; lia|]. rewrite E. cbn [obind Nat.eqb].
    rewrite (proj2 (Nat.ltb_ge _ _)) by lia. eexists _, _. split_and!; [by replace (dstp + 0 + 1)%nat with (dstp + 1)%nat by lia|done|done].
  - rewrite encoded_cons in *. apply has_app in Hsrc as [Hlab Hrest]. pose proof (labellen_has _ _ _ Hlab (plain_is_label _ Hbs)) as Hll. pose proof (plain_flags bs Hbs) as Hfl.
    pose proof Hlab as [Hn _]%has_cons. rewrite (at_Some _ _ _ Hn). cbn [obind]. destruct Hbs as [_ Hpos]. rewrite (proj2 (Z.eqb_neq (Z.of_nat _) 0)) by lia. cbn [negb obind].
    rewrite Hfl, Hll. change (0 =? NS_CMPRSFLGS) with false. cbv iota. cbn [obind]. rewrite length_app in *. change (length (plab bs)) with (S (length bs)) in *. rewrite Nat.sub_succ, Nat.sub_0_r.
    set (sv := match saved with Some _ => _ | None => _ end). destruct (Nat.leb_spec eob (dstp + 1 + length bs)) as [Hout|Hin].
    + rewrite (proj2 (Nat.ltb_ge _ _)) by lia. eexists _, _. split_and!; [done|done|lia].
    + unfold bytes_at. rewrite (proj2 (Nat.leb_le _ _)) by lia. cbn [obind]. replace (take (length bs + 1) (drop srcp src)) with (plab bs) by (rewrite Nat.add_1_r; symmetry; apply (has_take src (plab bs)); simpl; lia || done).
      destruct (write_at_spec buf dstp (plab bs)) as (buf1 & E & Hlen & _); [simpl; lia|]. rewrite E. cbn [obind]. rewrite (proj2 (Nat.eqb_neq _ _)) by lia.
      destruct (IH fuel (srcp + length bs + 1)%nat (dstp + length bs + 1)%nat buf1 sv) as (buf' & saved' & -> & Hlen' & Hw); [by replace (srcp + length bs + 1)%nat with (srcp + S (length bs))%nat by lia|simpl in Hf; lia..|].
      replace (dstp + length bs + 1 + length (encoded ls))%nat with (dstp + (S (length bs) + length (encoded ls)))%nat in * by lia. eexists _, _. split_and!; [done|lia|].
      intros Hlt. rewrite <-Hw, <-write_two, E by (done || (simpl; lia)). cbn [obind]. f_equal. simpl. lia.
Qed.

Lemma compress_plain ls absolute tail buf dst dstsiz slots : Forall plain ls -> (dst + dstsiz <= length buf)%nat ->
  exists r buf' ptrs, ns_name_compress (dotted ls ++ ending absolute ++ tail) buf dst dstsiz (Some []) slots = Ok (r, buf', ptrs) /\ length buf' = length buf /\
  if (length (encoded ls) <=? NS_MAXCDNAME)%nat && (length (encoded ls) <? dstsiz)%nat then r = inr (length (encoded ls)) /\ write_at buf dst (encoded ls) = Ok buf' else exists e, r = inl e.
Proof.
  intros Hls Hd. unfold ns_name_compress. rewrite ns_name_pton2_spec by (done || lia). cbn [obind]. rewrite andb_diag. destruct (Nat.leb_spec (length (encoded ls)) NS_MAXCDNAME) as [Hle|Hgt]; cbn [andb].
  2:{ eexists _, _, _. split_and!; [done|done|by eexists]. }
  pose proof (labs_length _ (plain_labels ls Hls)) as Hlen. rewrite length_fmap in Hlen. fold (encoded ls) in Hlen. unfold ns_name_pack.
  rewrite (check_name_spec _ (plab <$> ls)) by (by apply plain_labels || apply has_self || lia). cbn [obind]. fold (encoded ls). rewrite (proj2 (Nat.leb_le _ _)) by lia.
  set (room := match slots with Some _ => _ | None => _ end).
  destruct (pack_plain (encoded ls) room (dst + dstsiz) ls Hls (NS_MAXCDNAME + 2) 0 dst buf None) as (buf' & saved & -> & Hl' & Hw); [apply has_self|lia..|]. cbn [obind].
  destruct (Nat.ltb_spec (length (encoded ls)) dstsiz), (Nat.ltb_spec (dst + length (encoded ls)) (dst + dstsiz)); try lia.
  - eexists _, _, _. split_and!; [done|done|f_equal; lia|apply Hw; lia].
  - eexists _, _, _. split_and!; [done|done|by eexists].
Qed.

(** * The queries *)

Definition be16 (x : Z) : list Z := [wrapU 8 (Z.shiftr x 8); wrapU 8 x].

(** A header with one question and [ar] additional records, and the question. *)
Definition query_header (options id ar : Z) : list Z :=
  [Z.shiftr id 8; wrapU 8 id; Z.b2z (negb (Z.land options RES_RECURSE =? 0)); Z.shiftl (Z.b2z (negb (Z.land options RES_USE_DNSSEC =? 0))) 5; 0; 1; 0; 0; 0; 0; 0; ar].

Definition question (ls : list (list Z)) (type : Z) : list Z := encoded ls ++ [0; type; 0; 1].

(** The record of EDNS0 with [pad] bytes of padding. *)
Definition opt_record (options anslen : Z) (pad : nat) : list Z :=
  0 :: be16 T_OPT ++ be16 (Z.min anslen 0xffff) ++ [0; 0] ++ be16 (if negb (Z.land options RES_USE_DNSSEC =? 0) then NS_OPT_DNSSEC_OK else 0) ++
  be16 (Z.of_nat pad + 4) ++ be16 NS_OPT_PADDING ++ be16 (Z.of_nat pad) ++ replicate pad 0.

(** The types A, PTR, MX and AAAA. *)
Definition kept (type : Z) : Prop := type ∈ [1; 12; 15; 28].

Lemma wrapU_byte x : is_byte (wrapU 8 x).
Proof. unfold is_byte, wrapU. apply Z.mod_pos_bound. done. Qed.

Lemma encoded_bytes ls : Forall plain ls -> Forall is_byte (encoded ls).
Proof.
  induction 1 as [|bs ls [Hb Hl] _ IH]; [apply Forall_singleton; unfold is_byte; lia|]. rewrite encoded_cons. apply Forall_app. split; [|done]. constructor; [unfold is_byte; lia|done].
Qed.

Lemma qname_plain q ls : Forall plain ls -> forall fuel p, has q p (encoded ls) -> (length ls < fuel)%nat -> check_qname_loop fuel q p = Ok (Some (p + length (encoded ls))%nat).
Proof.
  induction 1 as [|bs ls Hbs _ IH]; intros fuel p Hq Hf; (destruct fuel as [|fuel]; [lia|]); cbn [check_qname_loop].
  - apply has_cons in Hq as [Hn _]. rewrite (at_Some _ _ _ Hn). apply lookup_lt_Some in Hn. by rewrite (proj2 (Nat.leb_gt _ _)).
  - rewrite encoded_cons in *. apply has_app in Hq as [[Hn _]%has_cons Hq]. rewrite (at_Some _ _ _ Hn). apply lookup_lt_Some in Hn. rewrite (proj2 (Nat.leb_gt _ _)) by done. cbn [obind].
    destruct Hbs as [_ Hl]. rewrite (proj2 (Z.eqb_neq _ _)), (proj2 (Z.leb_gt _ _)), IH by (lia || (simpl in *; lia) || by replace (p + 1 + _)%nat with (p + length (plab bs))%nat by (simpl; lia)).
    rewrite length_app. do 2 f_equal. simpl. lia.
Qed.

Lemma check_bytes_has q p a b bytes : has q p [a; b] ->
  _dnsPacket_checkBytes q p 2 bytes = Ok (if bool_decide ([a; b] = take 2 bytes) then Some (p + 2)%nat else None).
Proof.
  intros H. pose proof (has_length _ _ _ _ H) as Hl. simpl in Hl. unfold _dnsPacket_checkBytes, bytes_at. rewrite (proj2 (Nat.ltb_ge _ _)), (proj2 (Nat.leb_le _ _)) by lia. cbn [obind].
  rewrite (has_take q [a; b] p H ltac:(simpl; lia) : take 2 (drop p q) = _). by destruct (bool_decide _).
Qed.

Lemma question_checked q ls type p : has q p (question ls type) -> Forall plain ls -> kept type -> (length ls < length q)%nat ->
  _dnsPacket_checkQR q p = Ok (Some (p + length (encoded ls) + 4)%nat).
Proof.
  intros [Hn Ht]%has_app Hls Hk Hlen. unfold _dnsPacket_checkQR, _dnsPacket_checkQName. rewrite (qname_plain q ls) by (done || lia). cbn [obind].
  apply (has_app _ _ [0; type] [0; 1]) in Ht as [Ht Hc]. simpl length in Hc.
  assert (check_any q (p + length (encoded ls)) [DNS_TYPE_A; DNS_TYPE_PTR; DNS_TYPE_MX; DNS_TYPE_AAAA; DNS_TYPE_ALL] = Ok (Some (p + length (encoded ls) + 2)%nat)) as Ha.
  { cbn [check_any]. rewrite !(check_bytes_has _ _ _ _ _ Ht). unfold kept in Hk. rewrite !elem_of_cons, elem_of_nil in Hk. by destruct Hk as [->|[->|[->|[->|[]]]]]. }
  rewrite Ha. cbn [obind]. rewrite (check_bytes_has _ _ _ _ _ Hc). rewrite bool_decide_true by done. do 2 f_equal. lia.
Qed.

(** A question with what comes behind it. *)
Lemma query_checked options id ar ls type more : Forall plain ls -> kept type -> 0 <= ar <= 1 ->
  _dnsPacket_checkQuery (query_header options id ar ++ question ls type ++ more) = Ok true.
Proof.
  intros Hls Hk Har. set (q := _ ++ _). assert (Hq : has q 12 (question ls type)) by (intros i b Hb; unfold q; simpl; by apply lookup_app_l_Some).
  assert (Hll : (length ls < length q)%nat).
  { pose proof (labs_length _ (plain_labels ls Hls)) as H. rewrite length_fmap in H. fold (encoded ls) in H. unfold q, question. rewrite !length_app. lia. }
  unfold _dnsPacket_checkQuery. rewrite (proj2 (Nat.ltb_ge _ _)) by (unfold q; rewrite length_app; simpl; lia). unfold header_count, q at 1 2 3 4 5 6 7 8 9 10, at_. simpl.
  rewrite (proj2 (Z.ltb_ge 1 _)) by (change (Z.shiftl 0 8) with 0; rewrite Z.lor_0_l; lia).
  rewrite (question_checked q ls type 12 Hq Hls Hk Hll). destruct (Z.land options RES_RECURSE =? 0), (Z.land options RES_USE_DNSSEC =? 0); done.
Qed.

Lemma query_bytes options id ar ls type more : Forall plain ls -> kept type -> 0 <= ar <= 1 -> 0 <= id < 2 ^ 16 -> Forall is_byte more ->
  Forall is_byte (query_header options id ar ++ question ls type ++ more).
Proof.
  intros Hls Hk Har Hid Hm. unfold kept in Hk. rewrite !elem_of_cons, elem_of_nil in Hk. apply Forall_app. split; [|apply Forall_app; split; [apply Forall_app; split; [by apply encoded_bytes|]|done]].
  - assert (is_byte (Z.shiftr id 8)) by (unfold is_byte; rewrite Z.shiftr_div_pow2 by done; Z.to_euclidean_division_equations; lia). pose proof (wrapU_byte id).
    unfold query_header. destruct (Z.land options RES_RECURSE =? 0), (Z.land options RES_USE_DNSSEC =? 0); repeat (apply Forall_cons_2; [done || (unfold is_byte; simpl; lia)|]); constructor.
  - repeat (apply Forall_cons_2; [unfold is_byte; lia|]). constructor.
Qed.

Lemma opt_bytes options anslen pad : Forall is_byte (opt_record options anslen pad).
Proof.
  unfold opt_record, be16. cbn [app]. repeat (apply Forall_cons_2; [apply wrapU_byte || (unfold is_byte; lia)|]). apply Forall_replicate. unfold is_byte. lia.
Qed.

Lemma self_bytes q p n : (p + n <= length q)%nat -> _dnsPacket_isEqualBytes q q p p (Z.of_nat n) = Ok (Some (p + n, p + n)%nat).
Proof.
  intros H. unfold _dnsPacket_isEqualBytes. rewrite orb_diag, !(proj2 (Z.ltb_ge _ _)), slice_bytes, Nat2Z.id, (proj2 (Nat.leb_le _ _)) by lia. cbn [obind]. by rewrite bool_decide_true.
Qed.

Lemma opt_length options anslen pad : length (opt_record options anslen pad) = (15 + pad)%nat.
Proof. unfold opt_record, be16. cbn [app length]. rewrite length_replicate. lia. Qed.

Lemma opt_regular q p options anslen pad : has q p (opt_record options anslen pad) -> (pad < 128)%nat ->
  _dnsPacket_isEqualRR q q p p = Ok (Some (p + 15 + pad, p + 15 + pad)%nat).
Proof.
  intros Hq Hp. pose proof (has_length _ _ _ _ Hq) as Hl. change (p + length (opt_record options anslen pad) <= length q)%nat in Hl. rewrite opt_length in Hl.
  unfold _dnsPacket_isEqualRR, _dnsPacket_isEqualQR, _dnsPacket_isEqualDomainName. pose proof Hq as [Hn _]%has_cons.
  assert (check_qname_loop (length q + 1) q p = Ok (Some (p + 1)%nat)) as [-> _]%check_qname_equal.
  { rewrite Nat.add_1_r. cbn [check_qname_loop]. rewrite (proj2 (Nat.leb_gt _ _)), (at_Some _ _ _ Hn) by lia. done. }
  cbn [obind]. rewrite (self_bytes q (p + 1) 4 ltac:(lia) : _dnsPacket_isEqualBytes q q _ _ 4 = _). cbn [obind]. rewrite (self_bytes q (p + 1 + 4) 4 ltac:(lia) : _dnsPacket_isEqualBytes q q _ _ 4 = _). cbn [obind].
  replace (p + 1 + 4 + 4)%nat with (p + 9)%nat by lia. unfold _dnsPacket_readInt16. rewrite (proj2 (Nat.ltb_ge _ _)) by lia.
  rewrite (at_Some _ _ _ (Hq 9%nat _ eq_refl)). replace (p + 9 + 1)%nat with (p + 10)%nat by lia. rewrite (at_Some _ _ _ (Hq 10%nat _ eq_refl)). cbn [obind]. rewrite Z.eqb_refl. cbn [negb].
  replace (Z.lor _ _) with (Z.of_nat (pad + 4)); [rewrite self_bytes by lia; do 3 f_equal; lia|].
  unfold wrapU. rewrite Z.shiftr_div_pow2, (Z.div_small _ (2 ^ 8)), !(Z.mod_small _ (2 ^ 8)) by lia. change (Z.shiftl 0 8) with 0. rewrite Z.lor_0_l. lia.
Qed.

(** A query, with the record of EDNS0 if there is a size for answers and a number of bytes of padding. *)
Definition with_opt (options : Z) (edns : option (Z * nat)) : list Z := match edns with Some (anslen, pad) => opt_record options anslen pad | None => [] end.
Definition additional (edns : option (Z * nat)) : Z := match edns with Some _ => 1 | None => 0 end.
Definition made (options id : Z) (ls : list (list Z)) (type : Z) (edns : option (Z * nat)) : list Z :=
  query_header options id (additional edns) ++ question ls type ++ with_opt options edns.
Definition short_pad (edns : option (Z * nat)) : Prop := match edns with Some (_, pad) => (pad < 128)%nat | None => True end.

Lemma made_bytes options id ls type edns : Forall plain ls -> kept type -> 0 <= id < 2 ^ 16 -> Forall is_byte (made options id ls type edns).
Proof. intros. apply query_bytes; [done|done|by destruct edns|done|]. destruct edns as [[anslen pad]|]; [apply opt_bytes|constructor]. Qed.

Lemma made_length options id ls type edns : Forall plain ls -> (length ls + 16 < length (made options id ls type edns))%nat.
Proof.
  intros Hls. pose proof (labs_length _ (plain_labels ls Hls)) as H. rewrite length_fmap in H. fold (encoded ls) in H. unfold made, question. rewrite !length_app. simpl. lia.
Qed.

(** The records fill the query. *)
Lemma made_end options id ls type edns : Forall plain ls -> kept type -> 0 <= id < 2 ^ 16 -> short_pad edns ->
  records_end (made options id ls type edns) (length (made options id ls type edns)).
Proof.
  intros Hls Hk Hid Hp. pose proof (made_bytes options id ls type edns Hls Hk Hid) as Hb. pose proof (made_length options id ls type edns Hls) as Hl. set (q := made _ _ _ _ _) in *.
  assert (Hq : has q 12 (question ls type ++ with_opt options edns)) by (intros i b; done). pose proof Hq as [Hquestion Hopt]%has_app.
  unfold question in Hopt. rewrite length_app in Hopt. simpl length in Hopt at 2. rewrite Nat.add_assoc in Hopt.
  assert (forall i n, (i + 2 <= length q)%nat -> header_count q i = Ok n -> _dnsPacket_readInt16 q i = Ok (n, (i + 2)%nat)) as Hread by (intros i n Hi; by apply header_read).
  exists 1, (additional edns), (12 + length (encoded ls) + 4)%nat. split_and!; [apply Hread; [lia|reflexivity]|apply Hread; [lia|by destruct edns]|done|by destruct edns| |].
  - change (Z.to_nat 1) with 1%nat. cbn [equal_times]. destruct (checkQR_spec q 12) as (r & Er & Hr). rewrite (question_checked q ls type 12) in Er by (done || lia).
    rewrite (Hr (12 + length (encoded ls) + 4)%nat) by congruence. done.
  - assert (length q = 12 + length (encoded ls) + 4 + length (with_opt options edns))%nat as -> by (unfold q, made, question; rewrite !length_app; simpl; lia).
    destruct edns as [[anslen pad]|]; [|cbn; by rewrite Nat.add_0_r]. change (Z.to_nat (additional _)) with 1%nat. cbn [equal_times with_opt]. rewrite opt_length.
    rewrite (opt_regular q _ options anslen pad Hopt Hp), Nat.add_assoc. done.
Qed.

Lemma made_ok options id ls type edns : Forall plain ls -> kept type -> 0 <= id < 2 ^ 16 -> short_pad edns ->
  query_ok (made options id ls type edns) /\ _dnsPacket_checkQuery (made options id ls type edns) = Ok true.
Proof.
  intros Hls Hk Hid Hp. pose proof (made_bytes options id ls type edns Hls Hk Hid) as Hb. pose proof (made_length options id ls type edns Hls) as Hl.
  split; [split_and!; [done|lia|]|by apply query_checked; [..|destruct edns]]. intros _.
  destruct (compared_end _ (made options id ls type edns) eq_refl Hb Hb ltac:(lia) _ (made_end _ _ _ _ _ Hls Hk Hid Hp)) as [_ H]. unfold regular. rewrite H. unfold same_query, same_header. by rewrite !bool_decide_true.
Qed.

(** ** Keys *)

Lemma encoded_prefix ls ls' : Forall plain ls -> Forall plain ls' -> forall a b, encoded ls ++ a = encoded ls' ++ b -> ls = ls' /\ a = b.
Proof.
  intros Hls. revert ls'. induction Hls as [|bs ls Hbs _ IH]; intros ls' Hls' a b; destruct Hls' as [|bs' ls' Hbs' Hls']; rewrite ?encoded_cons; unfold plab; cbn [app]; intros H.
  - by injection H as H.
  - destruct Hbs' as [_ ?]. injection H as H _. lia.
  - destruct Hbs as [_ ?]. injection H as H _. lia.
  - injection H as H1 H2. rewrite <-!app_assoc in H2. apply app_inj_1 in H2 as [-> H2]; [|lia]. apply IH in H2 as [-> ->]; done.
Qed.

Lemma made_hash options id ls type edns : qhash (made options id ls type edns)
  = fold_left fnv (drop 3 (made options 0 ls type edns)) (fnv FNV_BASIS (Z.land (Z.b2z (negb (Z.land options RES_RECURSE =? 0))) 1)).
Proof. unfold qhash. by rewrite (hashQuery_spec _ (Z.b2z (negb (Z.land options RES_RECURSE =? 0)))). Qed.

(** Queries with the same options have the same key exactly if they are for the same name and type. *)
Lemma made_key options id id' ls ls' type type' edns edns' : Forall plain ls -> Forall plain ls' -> kept type -> kept type' -> 0 <= id < 2 ^ 16 -> 0 <= id' < 2 ^ 16 ->
  short_pad edns -> short_pad edns' -> additional edns = additional edns' -> (ls = ls' -> edns = edns') ->
  same_key (made options id ls type edns) (made options id' ls' type' edns') = bool_decide (ls = ls' /\ type = type').
Proof.
  intros Hls Hls' Hk Hk' Hid Hid' Hp Hp' Hadd Hedns. pose proof (made_length options id ls type edns Hls) as Hl.
  pose proof (made_bytes options id ls type edns Hls Hk Hid) as Hb. pose proof (made_bytes options id' ls' type' edns' Hls' Hk' Hid') as Hb'.
  unfold same_key. destruct (Nat.eqb_spec (length (made options id ls type edns)) (length (made options id' ls' type' edns'))) as [Hlen|Hlen].
  - destruct (compared_end _ _ Hlen Hb Hb' ltac:(lia) _ (made_end _ _ _ _ _ Hls Hk Hid Hp)) as [_ ->]. unfold same_query. rewrite slice_to_end.
    assert (slice (made options id' ls' type' edns') 12 (length (made options id ls type edns)) = drop 12 (made options id' ls' type' edns')) as -> by (rewrite Hlen; apply slice_to_end).
    assert (same_header (made options id ls type edns) (made options id' ls' type' edns') = true) as -> by (unfold same_header, made; rewrite <-Hadd; by rewrite !bool_decide_true).
    rewrite andb_true_r. cbn [andb]. change (drop 12 (made options id ls type edns)) with (question ls type ++ with_opt options edns).
    change (drop 12 (made options id' ls' type' edns')) with (question ls' type' ++ with_opt options edns'). destruct (decide (ls = ls' /\ type = type')) as [[<- <-]|Hne].
    + rewrite <-Hedns, !made_hash, Z.eqb_refl, !bool_decide_true by done. done.
    + rewrite !bool_decide_false; [by rewrite andb_false_r|done|]. unfold question. rewrite <-!app_assoc. intros [-> H]%encoded_prefix; [|done..]. apply Hne. split; [done|]. cbn [app] in H. congruence.
  - rewrite andb_false_r, bool_decide_false; [done|]. intros [-> ->]. rewrite Hedns in Hlen by done. done.
Qed.

(** * Theorems *)

Lemma put_byte type : kept type -> be16 type = [0; type].
Proof. unfold kept. rewrite !elem_of_cons, elem_of_nil. by intros [->|[->|[->|[->|[]]]]]. Qed.

Lemma header_written buf id options : (12 <= length buf)%nat -> write_header buf id QUERY options
  = Ok ([Z.shiftr id 8; wrapU 8 id; Z.b2z (negb (Z.land options RES_RECURSE =? 0)); Z.shiftl (Z.b2z (negb (Z.land options RES_USE_DNSSEC =? 0))) 5; 0; 0; 0; 0; 0; 0; 0; 0] ++ drop 12 buf).
Proof. intros H. apply (write_end [] buf). done. Qed.

Lemma mkquery_spec options id ls absolute tail type data datalen buf : Forall plain ls -> kept type ->
  let q := made options id ls type None in
  if (length (encoded ls) <=? NS_MAXCDNAME)%nat && (length q <? length buf)%nat
  then res_nmkquery options id QUERY (dotted ls ++ ending absolute ++ tail) 1 type data datalen buf = Ok (Some (length q), q ++ drop (length q) buf)
  else exists buf', res_nmkquery options id QUERY (dotted ls ++ ending absolute ++ tail) 1 type data datalen buf = Ok (None, buf').
Proof.
  intros Hls Hk q. assert (length q = 12 + length (encoded ls) + 4)%nat as Hq by (unfold q, made, question; rewrite !length_app; simpl; lia). unfold res_nmkquery.
  destruct (Nat.ltb_spec (length buf) 12) as [Hs|Hs]; [rewrite (proj2 (Nat.ltb_ge _ _)), andb_false_r by lia; by eexists|]. rewrite header_written by done. cbn [obind].
  set (hdr := [_; _; _; _; _; _; _; _; _; _; _; _]). change (QUERY =? QUERY) with true. cbn [orb].
  assert (length (hdr ++ drop 12 buf) = length buf) as Hlen by (rewrite length_app, length_drop; simpl; lia). rewrite Hlen.
  destruct (Nat.ltb_spec (length buf - 12) 4); [rewrite (proj2 (Nat.ltb_ge _ _)), andb_false_r by lia; by eexists|]. unfold dn_comp.
  destruct (compress_plain ls absolute tail (hdr ++ drop 12 buf) 12 (length buf - 12 - 4) (Some 19%nat) Hls) as (r & buf' & ptrs & -> & _ & Hr); [lia|]. cbn [obind].
  replace (length q <? length buf)%nat with (length (encoded ls) <? length buf - 12 - 4)%nat by (destruct (Nat.ltb_spec (length (encoded ls)) (length buf - 12 - 4)), (Nat.ltb_spec (length q) (length buf)); done || lia).
  destruct (_ && _) eqn:Hfit; [|destruct Hr as [e ->]; by eexists]. apply andb_true_iff in Hfit as [_ Hfit%Nat.ltb_lt]. destruct Hr as [-> Hw].
  rewrite (write_end hdr (drop 12 buf) (encoded ls) ltac:(rewrite length_drop; lia) : write_at _ 12 _ = _) in Hw. assert (buf' = (hdr ++ encoded ls) ++ drop (length (encoded ls)) (drop 12 buf)) as -> by congruence. cbv iota beta. cbn [obind].
  rewrite put_end by (rewrite ?length_app, ?length_drop; simpl; lia). cbn [obind]. fold (be16 type). rewrite (put_byte type Hk).
  rewrite put_end by (rewrite ?length_app, ?length_drop; simpl; lia). cbn [obind]. rewrite !drop_drop, <-!app_assoc. cbn [obind].
  set (rest := encoded ls ++ _). change (ns_put16 1 (hdr ++ rest) 4) with (Ok (query_header options id 0 ++ rest)). cbn [obind]. unfold rest.
  replace (12 + (length (encoded ls) + (2 + 2)))%nat with (length q) by lia. replace (12 + length (encoded ls) + 2 + 2)%nat with (length q) by lia.
  set (d := drop (length q) buf). do 2 f_equal. unfold q, made, question. cbn [with_opt additional]. by rewrite app_nil_r, <-!app_assoc.
Qed.

Lemma nopt_spec options id ls type rest anslen : 
  let n0 := length (made options id ls type None) in
  let pad := padding (n0 + 15) (n0 + length rest) in
  let q := made options id ls type (Some (anslen, pad)) in
  if (15 <=? length rest)%nat
  then res_nopt options n0 (made options id ls type None ++ rest) anslen = Ok (Some (length q), q ++ drop (15 + pad) rest)
  else exists buf', res_nopt options n0 (made options id ls type None ++ rest) anslen = Ok (None, buf').
Proof.
  intros n0 pad q. unfold res_nopt. rewrite length_app. fold n0. destruct (Nat.ltb_spec (n0 + length rest - n0) (1 + 10)) as [Hs|Hs]; [rewrite (proj2 (Nat.leb_gt _ _)) by lia; by eexists|].
  remember (made options id ls type None) as pre eqn:Hpre. assert (n0 = length pre) as Hn by done. clearbody n0.
  rewrite (append_bytes [0] pre rest) by (simpl; lia). cbn [obind]. do 2 (rewrite put_end by (rewrite ?length_app, ?length_drop; simpl; lia); cbn [obind]).
  do 2 (rewrite (append_bytes [0]) by (rewrite ?length_app, ?length_drop; simpl; lia); cbn [obind]). rewrite put_end by (rewrite ?length_app, ?length_drop; simpl; lia). cbn [obind].
  destruct (Nat.ltb_spec (n0 + length rest) (n0 + 9 + 3 * 2)) as [Hm|Hm]; [rewrite (proj2 (Nat.leb_gt _ _)) by lia; by eexists|]. rewrite (proj2 (Nat.leb_le _ _)) by lia.
  replace (n0 + 9 + 3 * 2)%nat with (n0 + 15)%nat by lia. fold pad. assert (pad <= length rest - 15)%nat as Hpad by (unfold pad, padding; lia).
  do 3 (rewrite put_end by (rewrite ?length_app, ?length_drop; simpl; lia); cbn [obind]). rewrite (append_bytes (replicate pad 0)) by (rewrite ?length_app, ?length_drop, ?length_replicate; simpl; lia). cbn [obind].
  rewrite !drop_drop, <-!app_assoc, length_replicate. assert ((if 65535 <? anslen then 65535 else anslen) = Z.min anslen 0xffff) as -> by (destruct (Z.ltb_spec 65535 anslen); lia).
  match goal with |- context [ns_get16 (pre ++ ?more) 10] => replace more with (opt_record options anslen pad ++ drop (15 + pad) rest) by (unfold opt_record, be16; cbn [app]; done) end.
  set (more := opt_record _ _ _ ++ _). assert (pre ++ more = query_header options id 0 ++ question ls type ++ more) as -> by (rewrite Hpre; unfold made; cbn [with_opt]; by rewrite app_nil_r, <-app_assoc).
  change (ns_get16 (query_header options id 0 ++ question ls type ++ more) 10) with (Ok 0). cbn [obind].
  change (ns_put16 (0 + 1) (query_header options id 0 ++ question ls type ++ more) 10) with (Ok (query_header options id 1 ++ question ls type ++ more)). cbn [obind].
  unfold q, made, more. cbn [with_opt additional]. rewrite <-!app_assoc. do 3 f_equal. rewrite Hn, Hpre. unfold made. cbn [with_opt]. rewrite !length_app, opt_length. simpl. lia.
Qed.

Lemma padding_short n m : (padding n m < 128)%nat.
Proof. unfold padding. pose proof (Nat.mod_upper_bound (128 - n mod 128) 128). lia. Qed.

Lemma padding_fills n m : (n + 127 <= m)%nat -> ((n + padding n m) mod 128 = 0)%nat.
Proof.
  intros H. unfold padding. pose proof (Nat.mod_upper_bound (128 - n mod 128) 128). rewrite Nat.min_l by lia. rewrite Nat.Div0.add_mod_idemp_r.
  pose proof (Nat.mod_upper_bound n 128). pose proof (Nat.div_mod_eq n 128) as E. replace (n + (128 - n mod 128))%nat with ((n / 128 + 1) * 128)%nat by lia. apply Nat.Div0.mod_mul.
Qed.

(** The record of EDNS0 for a query for [ls] in an array of [size] bytes. *)
Definition opt_for (use : bool) (anslen : Z) (size : nat) (ls : list (list Z)) : option (Z * nat) :=
  if use then Some (anslen, padding (16 + length (encoded ls) + 15) size) else None.

Lemma opt_short use anslen size ls : short_pad (opt_for use anslen size ls).
Proof. destruct use; [apply padding_short|done]. Qed.

(** C13: For the text of a name of ordinary labels, with or without the final dot, and the types A, PTR, MX and AAAA, a query is made
    exactly if the name does not exceed 255 bytes and a byte of the array is left; it is a header with one question, the
    name as it is written, the type and the class IN.  The record of EDNS0 is then appended exactly if there are 15 bytes for it, and
    makes the query a multiple of 128 bytes long if there is room.  Both queries pass the check of the cache and can be keys of
    it, and two queries made with the same options have the same entry exactly if the name and the type are the same,
    whatever the IDs. *)
Theorem query_made options id ls absolute tail type data datalen buf anslen : Forall plain ls -> kept type -> 0 <= id < 2 ^ 16 ->
  let q := made options id ls type None in
  let q' := made options id ls type (opt_for true anslen (length buf) ls) in
  (if (length (encoded ls) <=? NS_MAXCDNAME)%nat && (length q <? length buf)%nat
   then res_nmkquery options id QUERY (dotted ls ++ ending absolute ++ tail) 1 type data datalen buf = Ok (Some (length q), q ++ drop (length q) buf) /\
     if (length q + 15 <=? length buf)%nat
     then res_nopt options (length q) (q ++ drop (length q) buf) anslen = Ok (Some (length q'), q' ++ drop (length q') buf) /\
       ((length q + 15 + 127 <= length buf)%nat -> (length q' mod 128 = 0)%nat)
     else exists buf', res_nopt options (length q) (q ++ drop (length q) buf) anslen = Ok (None, buf')
   else exists buf', res_nmkquery options id QUERY (dotted ls ++ ending absolute ++ tail) 1 type data datalen buf = Ok (None, buf')) /\
  forall use, let edns := opt_for use anslen (length buf) in
    query_ok (made options id ls type (edns ls)) /\ _dnsPacket_checkQuery (made options id ls type (edns ls)) = Ok true /\
    forall id' ls' type', Forall plain ls' -> kept type' -> 0 <= id' < 2 ^ 16 ->
      same_key (made options id ls type (edns ls)) (made options id' ls' type' (edns ls')) = bool_decide (ls = ls' /\ type = type').
Proof.
  intros Hls Hk Hid q q'. assert (length q = 16 + length (encoded ls))%nat as Hq by (unfold q, made, question; rewrite !length_app; simpl; lia).
  assert (length q' = length q + 15 + padding (length q + 15) (length buf))%nat as Hq'.
  { rewrite Hq. unfold q', made, question, opt_for. cbn [with_opt]. rewrite !length_app, opt_length. simpl. lia. }
  split.
  - pose proof (mkquery_spec options id ls absolute tail type data datalen buf Hls Hk) as H. fold q in H. cbv zeta in H. destruct (_ && _) eqn:Hfit; [|done]. split; [done|].
    apply andb_true_iff in Hfit as [_ Hfit%Nat.ltb_lt]. pose proof (nopt_spec options id ls type (drop (length q) buf) anslen) as Ho. cbv zeta in Ho. fold q in Ho. rewrite length_drop in Ho.
    replace (length q + (length buf - length q))%nat with (length buf) in Ho by lia. destruct (Nat.leb_spec 15 (length buf - length q)), (Nat.leb_spec (length q + 15) (length buf)); try lia; [|done].
    rewrite drop_drop in Ho. replace (length q + (15 + padding (length q + 15) (length buf)))%nat with (length q') in Ho by lia. 
    assert (made options id ls type (Some (anslen, padding (length q + 15) (length buf))) = q') as Eq by (unfold q', opt_for; by rewrite Hq).
    rewrite Eq in Ho. split; [done|]. rewrite Hq'. apply padding_fills.
  - intros use edns. pose proof (made_ok options id ls type (edns ls) Hls Hk Hid (opt_short _ _ _ _)) as [H1 H2]. split; [done|]. split; [done|]. intros id' ls' type' Hls' Hk' Hid'.
    apply made_key; try done; [apply opt_short..|by destruct use|by intros ->].
Qed.

(** A query for www.example and its record of EDNS0 in an array of 512 bytes. *)
Definition ex_labels : list (list Z) := [[119; 119; 119]; [101; 120; 97; 109; 112; 108; 101]].
Definition ex_text : list Z := [119; 119; 119; 46; 101; 120; 97; 109; 112; 108; 101; 0].

Lemma ex_plain : Forall plain ex_labels.
Proof. unfold ex_labels, plain, is_byte. repeat (apply Forall_cons_2; [split; [repeat (apply Forall_cons_2; [lia|]); constructor|simpl; lia]|]). constructor. Qed.

Lemma query_made_witness : exists q n,
  res_nmkquery RES_RECURSE 7 QUERY ex_text 1 28 None 0 (replicate 512 255) = Ok (Some (length q), q ++ drop (length q) (replicate 512 255)) /\
  res_nopt RES_RECURSE (length q) (q ++ drop (length q) (replicate 512 255)) 4096 = Ok (Some 128%nat, n) /\ same_key q (made RES_RECURSE 8 ex_labels 28 None) = true.
Proof.
  assert (kept 28) as Hk by (unfold kept; rewrite !elem_of_cons; tauto).
  destruct (query_made RES_RECURSE 7 ex_labels false [] 28 None 0 (replicate 512 255) 4096 ex_plain Hk ltac:(lia)) as [[H1 [H2 _]] H]. destruct (H false) as (_ & _ & H3).
  exists (made RES_RECURSE 7 ex_labels 28 None). eexists. split; [exact H1|]. split; [exact H2|]. exact (H3 8 ex_labels 28 ex_plain Hk ltac:(lia)).
Defined.

(** An array of the size of the query is too small.  A query for records of all types does not pass the check of the cache: the string for 255
    in the code is another one. *)
Example ex_any : exists q, res_nmkquery RES_RECURSE 7 QUERY ex_text 1 255 None 0 (replicate 29 0) = Ok (None, q) /\
  exists q, res_nmkquery RES_RECURSE 7 QUERY ex_text 1 255 None 0 (replicate 30 0) = Ok (Some 29%nat, q) /\ _dnsPacket_checkQuery (take 29 q) = Ok false.
Proof. eexists. split; [vm_compute; reflexivity|]. eexists. split; vm_compute; reflexivity. Qed.

(** A notification with a second name, which is a pointer to the first, and an inverse query. *)
Example ex_notify :
  res_nmkquery 0 1 NS_NOTIFY_OP [97; 46; 98; 0] 1 6 (Some [98; 0]) 0 (replicate 40 0)
  = Ok (Some 33%nat, [0; 1; 32; 0; 0; 1; 0; 0; 0; 0; 0; 1; 1; 97; 1; 98; 0; 0; 6; 0; 1; 192; 14; 0; 10; 0; 1; 0; 0; 0; 0; 0; 0] ++ replicate 7 0) /\
  res_nmkquery 0 1 IQUERY [0] 1 1 (Some [10; 0; 0; 1]) 4 (replicate 27 255)
  = Ok (Some 27%nat, [0; 1; 8; 0; 0; 0; 0; 1; 0; 0; 0; 0; 0; 0; 1; 0; 1; 0; 0; 0; 0; 0; 4; 10; 0; 0; 1]).
Proof. split; vm_compute; reflexivity. Qed.
