(* ===== verification/AddrSort.v ===== *)
(** The order of addresses: _rfc6724_sort and what it calls, in libc/dns/net/getaddrinfo.c, with the tests of
    libc/include/netinet/in6.h.

    The answers to a query for addresses are sorted by the rules of RFC 6724: each is compared together with the source address
    that a connection to it would have.  A list of [struct addrinfo] is a memory of links: the node 0 is the sentinel.  An address is
    seen through its family and the bytes of both of the fields that may hold it, which do not overlap. *)

From stdpp Require Import gmap sorting.
From S2P Require Import Prelude Result NsName Sort.
Local Open Scope Z_scope.

(** * Definitions *)

Record sockaddr := SockAddr { sa_family : Z; sin_addr : list Z; sin6_addr : list Z }.

Abbreviation AF_INET := 2.
Abbreviation AF_INET6 := 10.
Abbreviation IPV6_ADDR_SCOPE_NODELOCAL := 1.
Abbreviation IPV6_ADDR_SCOPE_LINKLOCAL := 2.
Abbreviation IPV6_ADDR_SCOPE_SITELOCAL := 5.
Abbreviation IPV6_ADDR_SCOPE_GLOBAL := 14.

(** A byte of an address. *)
Definition s6 (a : list Z) (i : nat) : Z := nth i a 0.

Definition zero_bytes (a : list Z) (i n : nat) : bool := forallb (fun k => s6 a k =? 0) (seq i n).

Abbreviation IN6_IS_ADDR_LOOPBACK a := (zero_bytes a 0 15 && (s6 a 15 =? 1)).
Abbreviation IN6_IS_ADDR_V4COMPAT a := (zero_bytes a 0 12 && negb (zero_bytes a 12 4) && negb (zero_bytes a 12 3 && (s6 a 15 =? 1))).
Abbreviation IN6_IS_ADDR_V4MAPPED a := (zero_bytes a 0 10 && (s6 a 10 =? 0xff) && (s6 a 11 =? 0xff)).
Abbreviation IN6_IS_ADDR_LINKLOCAL a := ((s6 a 0 =? 0xfe) && (Z.land (s6 a 1) 0xc0 =? 0x80)).
Abbreviation IN6_IS_ADDR_SITELOCAL a := ((s6 a 0 =? 0xfe) && (Z.land (s6 a 1) 0xc0 =? 0xc0)).
Abbreviation IN6_IS_ADDR_MULTICAST a := (s6 a 0 =? 0xff).
Abbreviation IN6_IS_ADDR_ULA a := (Z.land (s6 a 0) 0xfe =? 0xfc).
Abbreviation IPV6_ADDR_MC_SCOPE a := (Z.land (s6 a 1) 0x0f).
Abbreviation IN6_IS_ADDR_TEREDO a := ((s6 a 0 =? 0x20) && (s6 a 1 =? 1) && zero_bytes a 2 2).
Abbreviation IN6_IS_ADDR_6TO4 a := ((s6 a 0 =? 0x20) && (s6 a 1 =? 2)).
Abbreviation IN6_IS_ADDR_6BONE a := ((s6 a 0 =? 0x3f) && (s6 a 1 =? 0xfe)).

(** An IPv4 address as a number. *)
Definition ntohl (a : list Z) : Z := s6 a 0 * 2 ^ 24 + s6 a 1 * 2 ^ 16 + s6 a 2 * 2 ^ 8 + s6 a 3.

Definition _get_scope (addr : sockaddr) : Z :=
  if sa_family addr =? AF_INET6 then
    let a := sin6_addr addr in
    if IN6_IS_ADDR_MULTICAST a then IPV6_ADDR_MC_SCOPE a
    else if IN6_IS_ADDR_LOOPBACK a || IN6_IS_ADDR_LINKLOCAL a then IPV6_ADDR_SCOPE_LINKLOCAL
    else if IN6_IS_ADDR_SITELOCAL a then IPV6_ADDR_SCOPE_SITELOCAL
    else IPV6_ADDR_SCOPE_GLOBAL
  else if sa_family addr =? AF_INET then
    let na := ntohl (sin_addr addr) in
    if (Z.land na 0xff000000 =? 0x7f000000) || (Z.land na 0xffff0000 =? 0xa9fe0000) then IPV6_ADDR_SCOPE_LINKLOCAL
    else IPV6_ADDR_SCOPE_GLOBAL
  else IPV6_ADDR_SCOPE_NODELOCAL.

Definition _get_label (addr : sockaddr) : Z :=
  if sa_family addr =? AF_INET then 4
  else if sa_family addr =? AF_INET6 then
    let a := sin6_addr addr in
    if IN6_IS_ADDR_LOOPBACK a then 0
    else if IN6_IS_ADDR_V4MAPPED a then 4
    else if IN6_IS_ADDR_6TO4 a then 2
    else if IN6_IS_ADDR_TEREDO a then 5
    else if IN6_IS_ADDR_ULA a then 13
    else if IN6_IS_ADDR_V4COMPAT a then 3
    else if IN6_IS_ADDR_SITELOCAL a then 11
    else if IN6_IS_ADDR_6BONE a then 12
    else 1
  else 1.

Definition _get_precedence (addr : sockaddr) : Z :=
  if sa_family addr =? AF_INET then 35
  else if sa_family addr =? AF_INET6 then
    let a := sin6_addr addr in
    if IN6_IS_ADDR_LOOPBACK a then 50
    else if IN6_IS_ADDR_V4MAPPED a then 35
    else if IN6_IS_ADDR_6TO4 a then 30
    else if IN6_IS_ADDR_TEREDO a then 5
    else if IN6_IS_ADDR_ULA a then 3
    else if IN6_IS_ADDR_V4COMPAT a || IN6_IS_ADDR_SITELOCAL a || IN6_IS_ADDR_6BONE a then 1
    else 40
  else 1.

(** The loop over the bits of a byte, from bit [j] on; [None] if none is set. *)
Fixpoint first_bit (todo j : nat) (x : Z) : option nat :=
  match todo with
  | O => None
  | S todo => if negb (Z.land x (Z.shiftl 1 (8 - 1)) =? 0) then Some j else first_bit todo (S j) (Z.shiftl x 1)
  end.

Fixpoint prefix_loop (todo i : nat) (a1 a2 : list Z) : nat :=
  match todo with
  | O => (16 * 8)%nat
  | S todo =>
      if s6 a1 i =? s6 a2 i then prefix_loop todo (S i) a1 a2 else
      match first_bit 8 0 (Z.lxor (s6 a1 i) (s6 a2 i)) with
      | Some j => (i * 8 + j)%nat
      | None => prefix_loop todo (S i) a1 a2
      end
  end.

Definition _common_prefix_len (a1 a2 : list Z) : Z := Z.of_nat (prefix_loop 16 0 a1 a2).

(** ** Comparing *)

Record addrinfo_sort_elem := SortElem { ai : nat; ai_addr : sockaddr; has_src_addr : Z; src_addr : sockaddr; original_order : Z }.

Definition _rfc6724_compare (a1 a2 : addrinfo_sort_elem) : Z :=
  if negb (has_src_addr a1 =? has_src_addr a2) then has_src_addr a2 - has_src_addr a1 else
  let scope_dst1 := _get_scope (ai_addr a1) in
  let scope_match1 := Z.b2z (_get_scope (src_addr a1) =? scope_dst1) in
  let scope_dst2 := _get_scope (ai_addr a2) in
  let scope_match2 := Z.b2z (_get_scope (src_addr a2) =? scope_dst2) in
  if negb (scope_match1 =? scope_match2) then scope_match2 - scope_match1 else
  let label_match1 := Z.b2z (_get_label (src_addr a1) =? _get_label (ai_addr a1)) in
  let label_match2 := Z.b2z (_get_label (src_addr a2) =? _get_label (ai_addr a2)) in
  if negb (label_match1 =? label_match2) then label_match2 - label_match1 else
  let precedence1 := _get_precedence (ai_addr a1) in
  let precedence2 := _get_precedence (ai_addr a2) in
  if negb (precedence1 =? precedence2) then precedence2 - precedence1 else
  if negb (scope_dst1 =? scope_dst2) then scope_dst1 - scope_dst2 else
  if negb (has_src_addr a1 =? 0) && (sa_family (ai_addr a1) =? AF_INET6) && negb (has_src_addr a2 =? 0) && (sa_family (ai_addr a2) =? AF_INET6) then
    let prefixlen1 := _common_prefix_len (sin6_addr (src_addr a1)) (sin6_addr (ai_addr a1)) in
    let prefixlen2 := _common_prefix_len (sin6_addr (src_addr a2)) (sin6_addr (ai_addr a2)) in
    if negb (prefixlen1 =? prefixlen2) then prefixlen2 - prefixlen1 else original_order a1 - original_order a2
  else original_order a1 - original_order a2.

(** ** The source address *)

Abbreviation EAFNOSUPPORT := 97.

(** What the system calls give: the errno value of socket, whether setsockopt and fchown succeed, whether a connection to an address
    succeeds once it is not interrupted, and the address of the socket then. *)
Record system := System {
  sys_socket : Z -> option Z;
  sys_setsockopt : bool;
  sys_fchown : bool;
  sys_connect : sockaddr -> bool;
  sys_getsockname : sockaddr -> option sockaddr;
}.

(** The result, and the address that was written if one was. *)
Definition _find_src_addr (sys : system) (addr : sockaddr) (mark uid : Z) : Z * option sockaddr :=
  if negb ((sa_family addr =? AF_INET) || (sa_family addr =? AF_INET6)) then (0, None) else
  match sys_socket sys (sa_family addr) with
  | Some e => if e =? EAFNOSUPPORT then (0, None) else (-1, None)
  | None =>
      if negb (mark =? 0) && negb (sys_setsockopt sys) then (0, None) else
      if (0 <? uid) && negb (uid =? 2 ^ 32 - 1) && negb (sys_fchown sys) then (0, None) else
      if negb (sys_connect sys addr) then (0, None) else
      match sys_getsockname sys addr with
      | None => (-1, None)
      | Some a => (1, Some a)
      end
  end.

(** ** Sorting the list *)

(** The links [ai_next]. *)
Abbreviation links := (gmap nat (option nat)).
Abbreviation list_sentinel := 0%nat.

(** The number of nodes behind [p]. *)
Fixpoint count_nodes (fuel : nat) (nx : links) (p : nat) : result nat :=
  match fuel with
  | O => Fault
  | S fuel =>
      next <-- run (nx !! p) ;;
      match next with
      | None => Ok 0%nat
      | Some q => n <-- count_nodes fuel nx q ;; Ok (S n)
      end
  end.

Section sort.
Context (sys : system) (addr_of : nat -> sockaddr) (mark uid : Z).

(** The array, with what malloc left in it; [None] if there was a fatal error. *)
Fixpoint fill_elems (nx : links) (garbage : nat -> sockaddr) (cur : option nat) (i n : nat) : result (option (list addrinfo_sort_elem)) :=
  match n with
  | O => Ok (Some [])
  | S n =>
      p <-- run cur ;;
      let '(has, src) := _find_src_addr sys (addr_of p) mark uid in
      if has =? -1 then Ok None else
      next <-- run (nx !! p) ;;
      r <-- fill_elems nx garbage next (S i) n ;;
      Ok (cons (SortElem p (addr_of p) has (default (garbage i) src) (Z.of_nat i)) <$> r)
  end.

(** The nodes of the array, linked behind [p] in its order. *)
Fixpoint relink (nx : links) (p : nat) (elems : list addrinfo_sort_elem) : links :=
  match elems with
  | [] => <[p := None]> nx
  | e :: elems => relink (<[p := Some (ai e)]> nx) (ai e) elems
  end.

(** [mem] tells whether malloc succeeds, and [garbage] what it gives. *)
Definition _rfc6724_sort (nx : links) (mem : bool) (garbage : nat -> sockaddr) : result links :=
  nelem <-- count_nodes (size nx + 1) nx list_sentinel ;;
  if negb mem then Ok nx else
  first <-- run (nx !! list_sentinel) ;;
  r <-- fill_elems nx garbage first 0 nelem ;;
  match r with
  | None => Ok nx
  | Some elems =>
      elems <-- run (qsort _rfc6724_compare (S (Nat.log2 nelem)) elems) ;;
      match elems with
      | [] => Fault
      | _ => Ok (relink nx list_sentinel elems)
      end
  end.
End sort.

(** * The common prefix *)

(** The bits of a byte and of an address, the first one in front. *)
Definition bits8 (x : Z) : list bool := Z.testbit x <$> [7; 6; 5; 4; 3; 2; 1; 0].
Definition addr_bits (a : list Z) : list bool := concat (bits8 <$> a).

(** The length of the common prefix of two lists. *)
Fixpoint common {A} `{EqDecision A} (l1 l2 : list A) : nat :=
  match l1, l2 with
  | x :: l1, y :: l2 => if decide (x = y) then S (common l1 l2) else O
  | _, _ => O
  end.

Lemma common_app {A} `{EqDecision A} (l l1 l2 : list A) : common (l ++ l1) (l ++ l2) = (length l + common l1 l2)%nat.
Proof. induction l as [|x l IH]; [done|]. simpl. rewrite decide_True by done. by rewrite IH. Qed.

Lemma common_differ {A} `{EqDecision A} (k1 k2 l1 l2 : list A) : length k1 = length k2 -> k1 <> k2 -> common (k1 ++ l1) (k2 ++ l2) = common k1 k2.
Proof.
  revert k2. induction k1 as [|x k1 IH]; intros [|y k2] Hl Hne; try done. simpl. case_decide as E; [|done]. subst y. f_equal. apply IH; [by injection Hl|congruence].
Qed.

Lemma common_self {A} `{EqDecision A} (l : list A) : common l l = length l.
Proof. induction l as [|x l IH]; [done|]. simpl. rewrite decide_True by done. by rewrite IH. Qed.

(** The place of the first bit of a byte that is set. *)
Lemma first_bit_spec z : 0 < z < 256 -> first_bit 8 0 z = Some (common (bits8 z) (replicate 8 false)).
Proof.
  intros Hz. refine (all_below (fun z => 0 < z -> first_bit 8 0 z = Some (common (bits8 z) (replicate 8 false))) 256 _ z _ _); [vm_compute; reflexivity|lia|lia].
Qed.

Lemma lxor_byte x y : is_byte x -> is_byte y -> x <> y -> 0 < Z.lxor x y < 256.
Proof.
  unfold is_byte. intros Hx Hy Hne. assert (forall b, 0 <= b < 256 -> Z.log2 b < 8) as Hlog.
  { intros b Hb. destruct (Z.eq_dec b 0) as [->|]; [done|]. apply Z.log2_lt_pow2; lia. }
  assert (0 <= Z.lxor x y) as H0 by (apply Z.lxor_nonneg; lia). assert (Z.lxor x y <> 0) as Hn by (intros E; apply Hne; by apply Z.lxor_eq). split; [lia|].
  apply (Z.log2_lt_pow2 _ 8); [lia|]. eapply Z.le_lt_trans; [apply Z.log2_lxor; lia|]. apply Z.max_lub_lt; by apply Hlog.
Qed.

Lemma common_xor x y : common (bits8 x) (bits8 y) = common (bits8 (Z.lxor x y)) (replicate 8 false).
Proof.
  unfold bits8. change (replicate 8 false) with ((fun _ : Z => false) <$> [7; 6; 5; 4; 3; 2; 1; 0]). induction [7; 6; 5; 4; 3; 2; 1; 0] as [|i l IH]; [done|]. rewrite !fmap_cons. cbn [common]. rewrite Z.lxor_spec.
  destruct (Z.testbit x i), (Z.testbit y i); simpl; try done; by rewrite IH.
Qed.

Lemma bits8_ne x y : is_byte x -> is_byte y -> x <> y -> bits8 x <> bits8 y.
Proof.
  intros Hx Hy Hne E. pose proof (lxor_byte x y Hx Hy Hne) as Hz.
  pose proof (first_bit_spec _ Hz) as Hf. rewrite <-common_xor, E, common_self in Hf.
  assert (forall t j z r, first_bit t j z = Some r -> (r < j + t)%nat) as Hlt.
  { clear. induction t as [|t IH]; intros j z r H; [done|]. cbn [first_bit] in H. destruct (negb _); [injection H as <-; lia|]. apply IH in H. lia. }
  apply Hlt in Hf. simpl in Hf. lia.
Qed.

Lemma prefix_loop_spec a1 a2 todo : length a1 = 16%nat -> length a2 = 16%nat -> Forall is_byte a1 -> Forall is_byte a2 -> (todo <= 16)%nat ->
  prefix_loop todo (16 - todo) a1 a2 = ((16 - todo) * 8 + common (addr_bits (drop (16 - todo) a1)) (addr_bits (drop (16 - todo) a2)))%nat.
Proof.
  intros L1 L2 B1 B2. induction todo as [|todo IH]; intros Ht.
  { cbn [prefix_loop]. rewrite !drop_ge by lia. done. }
  cbn [prefix_loop]. destruct (lookup_lt_is_Some_2 a1 (16 - S todo)) as [x Hx]; [lia|]. destruct (lookup_lt_is_Some_2 a2 (16 - S todo)) as [y Hy]; [lia|].
  assert (is_byte x /\ is_byte y) as [Bx By] by (rewrite Forall_lookup in B1; rewrite Forall_lookup in B2; split; by eauto).
  assert (s6 a1 (16 - S todo) = x) as -> by (unfold s6; by rewrite (nth_lookup_Some _ _ _ _ Hx)). assert (s6 a2 (16 - S todo) = y) as -> by (unfold s6; by rewrite (nth_lookup_Some _ _ _ _ Hy)).
  rewrite (drop_S _ _ _ Hx), (drop_S _ _ _ Hy). unfold addr_bits. rewrite !fmap_cons. cbn [concat]. replace (S (16 - S todo)) with (16 - todo)%nat by lia.
  destruct (Z.eqb_spec x y) as [->|Hne].
  - rewrite common_app, IH by lia. unfold addr_bits. change (length (bits8 y)) with 8%nat. lia.
  - rewrite common_differ by (done || by apply bits8_ne). rewrite common_xor.
    by rewrite (first_bit_spec _ (lxor_byte x y Bx By Hne)).
Qed.

Lemma common_prefix_spec a1 a2 : length a1 = 16%nat -> length a2 = 16%nat -> Forall is_byte a1 -> Forall is_byte a2 ->
  _common_prefix_len a1 a2 = Z.of_nat (common (addr_bits a1) (addr_bits a2)).
Proof. intros L1 L2 B1 B2. unfold _common_prefix_len. pose proof (prefix_loop_spec a1 a2 16 L1 L2 B1 B2 ltac:(lia)) as H. simpl drop in H. change (16 - 16)%nat with 0%nat in H. by rewrite H. Qed.

(** * The tables of RFC 6724 *)

(** An address starts with the first [n] bits of a prefix. *)
Definition starts (a p : list Z) (n : nat) : bool := bool_decide (take n (addr_bits a) = take n (addr_bits p)).

(** A line of the policy table. *)
Record policy := Policy { pol_prefix : list Z; pol_length : nat; pol_precedence : Z; pol_label : Z }.

(** An IPv6 prefix from its first and last bytes. *)
Definition prefix6 (front back : list Z) : list Z := front ++ replicate (16 - length front - length back) 0 ++ back.

(** The default table of section 2.1, in its order. *)
Definition rfc_table : list policy :=
  [Policy (prefix6 [] [1]) 128 50 0; Policy (prefix6 [] []) 0 40 1; Policy (prefix6 [] [0xff; 0xff; 0; 0; 0; 0]) 96 35 4; Policy (prefix6 [0x20; 2] []) 16 30 2;
   Policy (prefix6 [0x20; 1] []) 32 5 5; Policy (prefix6 [0xfc] []) 7 3 13; Policy (prefix6 [] []) 96 1 3; Policy (prefix6 [0xfe; 0xc0] []) 10 1 11;
   Policy (prefix6 [0x3f; 0xfe] []) 16 1 12].

(** The line with the longest prefix that an address matches. *)
Definition longer (a : list Z) (best : option policy) (e : policy) : option policy :=
  if starts a (pol_prefix e) (pol_length e) then
    match best with
    | Some b => if (pol_length b <? pol_length e)%nat then Some e else best
    | None => Some e
    end
  else best.

Definition longest (a : list Z) (table : list policy) : option policy := fold_left (longer a) table None.

(** The table that the code has: the unspecified address is taken out of ::/96. *)
Definition code_table : list policy := Policy (prefix6 [] []) 128 40 1 :: rfc_table.

(** An address in IPv6 form. *)
Definition addr6 (a : sockaddr) : list Z := if sa_family a =? AF_INET then prefix6 [] ([0xff; 0xff] ++ sin_addr a) else sin6_addr a.

Definition rfc_label (a : sockaddr) : Z :=
  if (sa_family a =? AF_INET) || (sa_family a =? AF_INET6) then from_option pol_label 1 (longest (addr6 a) code_table) else 1.

Definition rfc_precedence (a : sockaddr) : Z :=
  if (sa_family a =? AF_INET) || (sa_family a =? AF_INET6) then from_option pol_precedence 1 (longest (addr6 a) code_table) else 1.

(** The scopes of sections 3.1 and 3.2: that of a multicast address is in its second byte; 127/8 and 169.254/16 are
    link-local.  An address of another family is node-local. *)
Definition rfc_scope (a : sockaddr) : Z :=
  if sa_family a =? AF_INET6 then
    let b := sin6_addr a in
    if starts b [0xff] 8 then nth 1 b 0 mod 16
    else if starts b (prefix6 [] [1]) 128 || starts b [0xfe; 0x80] 10 then 2
    else if starts b [0xfe; 0xc0] 10 then 5
    else 14
  else if sa_family a =? AF_INET then if starts (sin_addr a) [127] 8 || starts (sin_addr a) [169; 254] 16 then 2 else 14
  else 1.

(** ** The code has the tables *)

Definition sock_ok (a : sockaddr) : Prop :=
  length (sin_addr a) = 4%nat /\ Forall is_byte (sin_addr a) /\ length (sin6_addr a) = 16%nat /\ Forall is_byte (sin6_addr a).

Lemma take_bits n x a : take (8 + n) (addr_bits (x :: a)) = bits8 x ++ take n (addr_bits a).
Proof. done. Qed.

Lemma bits8_inj x y : is_byte x -> is_byte y -> bits8 x = bits8 y -> x = y.
Proof. intros Hx Hy E. destruct (decide (x = y)) as [|Hne]; [done|]. by destruct (bits8_ne x y Hx Hy Hne). Qed.

(** A prefix of whole bytes, and one of a byte's first bits. *)
Lemma starts_cons x y a p n : is_byte x -> is_byte y -> starts (x :: a) (y :: p) (8 + n) = (x =? y) && starts a p n.
Proof.
  intros Hx Hy. unfold starts. rewrite !take_bits. apply eq_bool_prop_intro. rewrite andb_True, !bool_decide_spec, Is_true_true, Z.eqb_eq. split.
  - intros E. apply app_inj_1 in E as [E1 E2]; [|done]. split; [by apply bits8_inj|done].
  - by intros [-> ->].
Qed.

Lemma starts_nil a p : starts a p 0 = true.
Proof. by apply bool_decide_true. Qed.

Lemma starts_bits (n : nat) mask y x a p : (n <= 8)%nat -> is_byte x -> is_byte y ->
  forallb (fun x => bool_decide (take n (bits8 x) = take n (bits8 y) <-> Z.land x mask = y)) (Z.of_nat <$> seq 0 256) = true ->
  starts (x :: a) (y :: p) n = (Z.land x mask =? y).
Proof.
  intros Hn Hx Hy Hall. unfold starts, addr_bits. rewrite !fmap_cons. cbn [concat]. rewrite !take_app_le by done.
  pose proof (all_below (fun x => take n (bits8 x) = take n (bits8 y) <-> Z.land x mask = y) 256 Hall x Hx) as Hiff.
  apply eq_bool_prop_intro. by rewrite bool_decide_spec, Is_true_true, Z.eqb_eq.
Qed.

(** The first bytes of two lists. *)
Fixpoint same_bytes (k : nat) (a p : list Z) : bool :=
  match k, a, p with
  | S k, x :: a, y :: p => (x =? y) && same_bytes k a p
  | _, _, _ => true
  end.

Lemma starts_bytes k : forall a p, (k <= length a)%nat -> (k <= length p)%nat -> Forall is_byte a -> Forall is_byte p ->
  starts a p (k * 8) = same_bytes k a p.
Proof.
  induction k as [|k IH]; intros a p Ha Hp Ba Bp; [apply starts_nil|]. destruct a as [|x a]; [simpl in Ha; lia|]. destruct p as [|y p]; [simpl in Hp; lia|].
  apply Forall_cons in Ba as [Bx Ba]. apply Forall_cons in Bp as [By Bp]. cbn [length] in Ha, Hp. change (S k * 8)%nat with (8 + k * 8)%nat.
  rewrite starts_cons by done. cbn [same_bytes]. by rewrite IH by (done || lia).
Qed.

Lemma take_16 {A} (l : list A) : length l = 16%nat ->
  exists a0 a1 a2 a3 a4 a5 a6 a7 a8 a9 a10 a11 a12 a13 a14 a15, l = [a0; a1; a2; a3; a4; a5; a6; a7; a8; a9; a10; a11; a12; a13; a14; a15].
Proof. intros H. do 17 (destruct l as [|? l]; try done). by do 16 eexists. Qed.

Ltac bytes_done := repeat (first [apply Forall_cons_2; [unfold is_byte; lia|]|apply Forall_nil_2]).

(** The tests of the code are matches with prefixes. *)
Lemma tests_spec a : length a = 16%nat -> Forall is_byte a ->
  (starts a (prefix6 [] [1]) 128 = IN6_IS_ADDR_LOOPBACK a /\ starts a (prefix6 [] [0xff; 0xff; 0; 0; 0; 0]) 96 = IN6_IS_ADDR_V4MAPPED a /\
   starts a (prefix6 [0x20; 2] []) 16 = IN6_IS_ADDR_6TO4 a /\ starts a (prefix6 [0x20; 1] []) 32 = IN6_IS_ADDR_TEREDO a /\
   starts a (prefix6 [0x3f; 0xfe] []) 16 = IN6_IS_ADDR_6BONE a /\ starts a [0xff] 8 = IN6_IS_ADDR_MULTICAST a) /\
  (starts a (prefix6 [0xfc] []) 7 = IN6_IS_ADDR_ULA a /\ starts a (prefix6 [0xfe; 0xc0] []) 10 = IN6_IS_ADDR_SITELOCAL a /\
   starts a [0xfe; 0x80] 10 = IN6_IS_ADDR_LINKLOCAL a /\ starts a [0xfe; 0xc0] 10 = IN6_IS_ADDR_SITELOCAL a) /\
  (starts a (prefix6 [] []) 96 = zero_bytes a 0 12 /\ starts a (prefix6 [] []) 128 = zero_bytes a 0 16).
Proof.
  intros Hl Hb. split; [|split].
  - rewrite (starts_bytes 16), (starts_bytes 12), !(starts_bytes 2), (starts_bytes 4), (starts_bytes 1) by (done || (simpl; lia) || (simpl; bytes_done)).
    destruct (take_16 a Hl) as (? & ? & ? & ? & ? & ? & ? & ? & ? & ? & ? & ? & ? & ? & ? & ? & ->).
    split_and!; cbn -[Z.eqb]; rewrite ?andb_true_r, <-?andb_assoc; done.
  - destruct a as [|x [|y a]]; [done..|]. apply Forall_cons in Hb as [Hx Hb]. apply Forall_cons in Hb as [Hy Hb].
    unfold prefix6. cbn [app]. split_and!; [apply starts_bits; (done || lia || vm_compute; reflexivity)|..];
      rewrite (starts_cons x _ _ _ 2) by (done || unfold is_byte; lia); f_equal; apply starts_bits; (done || lia || vm_compute; reflexivity).
  - rewrite (starts_bytes 12), (starts_bytes 16) by (done || (simpl; lia) || (simpl; bytes_done)).
    destruct (take_16 a Hl) as (? & ? & ? & ? & ? & ? & ? & ? & ? & ? & ? & ? & ? & ? & ? & ? & ->).
    split_and!; cbn -[Z.eqb]; rewrite ?andb_true_r; done.
Qed.

(** The line of an IPv6 address, by the tests of the code. *)
Definition line6 (a : list Z) : Z * Z :=
  if IN6_IS_ADDR_LOOPBACK a then (50, 0)
  else if IN6_IS_ADDR_V4MAPPED a then (35, 4)
  else if IN6_IS_ADDR_6TO4 a then (30, 2)
  else if IN6_IS_ADDR_TEREDO a then (5, 5)
  else if IN6_IS_ADDR_ULA a then (3, 13)
  else if IN6_IS_ADDR_V4COMPAT a then (1, 3)
  else if IN6_IS_ADDR_SITELOCAL a then (1, 11)
  else if IN6_IS_ADDR_6BONE a then (1, 12)
  else (40, 1).

(** Which of the prefixes exclude each other, by the first two bytes. *)
Lemma tests_exclude a :
  (IN6_IS_ADDR_6TO4 a = true -> IN6_IS_ADDR_TEREDO a = false) /\
  (zero_bytes a 0 12 = true -> IN6_IS_ADDR_V4MAPPED a = false /\ IN6_IS_ADDR_6TO4 a = false /\ IN6_IS_ADDR_TEREDO a = false /\ IN6_IS_ADDR_ULA a = false /\
    IN6_IS_ADDR_SITELOCAL a = false /\ IN6_IS_ADDR_6BONE a = false) /\
  (IN6_IS_ADDR_ULA a = true -> IN6_IS_ADDR_SITELOCAL a = false /\ IN6_IS_ADDR_6BONE a = false) /\
  (IN6_IS_ADDR_6BONE a = true -> IN6_IS_ADDR_SITELOCAL a = false).
Proof.
  split_and!.
  - rewrite !andb_true_iff, !Z.eqb_eq. intros [-> ->]. done.
  - cbn [zero_bytes forallb seq]. rewrite !andb_true_iff, !Z.eqb_eq. intros H. destruct H as (-> & ? & ? & ? & ? & ? & ? & ? & ? & ? & -> & _). split_and!; [by rewrite andb_false_r|done..].
  - rewrite Z.eqb_eq. intros H. destruct (Z.eqb_spec (s6 a 0) 0xfe) as [E|]; [by rewrite E in H|]. destruct (Z.eqb_spec (s6 a 0) 0x3f) as [E|]; [by rewrite E in H|]. done.
  - rewrite andb_true_iff, Z.eqb_eq. by intros [-> _].
Qed.

Lemma zero_bytes_split a : zero_bytes a 0 16 = zero_bytes a 0 12 && zero_bytes a 12 4 /\
  zero_bytes a 0 15 = zero_bytes a 0 12 && zero_bytes a 12 3 /\ (zero_bytes a 12 4 = true -> (s6 a 15 =? 1) = false).
Proof.
  unfold zero_bytes. change (seq 0 16) with (seq 0 (12 + 4)). change (seq 0 15) with (seq 0 (12 + 3)). rewrite (seq_app 12 4 0), (seq_app 12 3 0), !forallb_app. split_and!; [done..|].
  cbn [forallb seq]. rewrite !andb_true_iff, !Z.eqb_eq. by intros (_ & _ & _ & -> & _).
Qed.

(** The choice of a line, given which of them match. *)
Fixpoint pick (matches : list bool) (table : list policy) (best : option policy) : option policy :=
  match matches, table with
  | m :: matches, e :: table =>
      pick matches table (if m then match best with Some b => if (pol_length b <? pol_length e)%nat then Some e else best | None => Some e end else best)
  | _, _ => best
  end.

Lemma longest_pick a table : longest a table = pick (map (fun e => starts a (pol_prefix e) (pol_length e)) table) table None.
Proof. unfold longest. generalize (@None policy). induction table as [|e table IH]; intros best; [done|]. cbn [fold_left map pick]. by rewrite IH. Qed.

Lemma longest_line a : length a = 16%nat -> Forall is_byte a ->
  option_map (fun e => (pol_precedence e, pol_label e)) (longest a code_table) = Some (line6 a).
Proof.
  intros Hl Hb. destruct (tests_spec a Hl Hb) as ((HL & HM & H6 & HT & HB & _) & (HU & HS & _) & Hz12 & Hz16).
  destruct (tests_exclude a) as (E1 & E2 & E3 & E4). destruct (zero_bytes_split a) as (Z1 & Z2 & Z3).
  rewrite longest_pick. unfold code_table, rfc_table at 1. cbn [map pol_prefix pol_length]. rewrite Hz16, HL, starts_nil, HM, H6, HT, HU, Hz12, HS, HB, Z1, Z2.
  unfold line6. rewrite Z2. clear -E1 E2 E3 E4 Z3. revert E1 E2 E3 E4 Z3.
  generalize (IN6_IS_ADDR_6TO4 a) (IN6_IS_ADDR_TEREDO a) (IN6_IS_ADDR_V4MAPPED a) (IN6_IS_ADDR_ULA a) (IN6_IS_ADDR_SITELOCAL a) (IN6_IS_ADDR_6BONE a)
    (zero_bytes a 0 12) (zero_bytes a 12 4) (zero_bytes a 12 3) (s6 a 15 =? 1).
  intros b6 bT bM bU bS bB z12 z4 z3 e E1 E2 E3 E4 Z3. destruct z12; [destruct E2 as (-> & -> & -> & -> & -> & ->); [done|]|].
  - clear E1 E3 E4. destruct z4; [rewrite Z3 by done|]; destruct z3; try destruct e; vm_compute; reflexivity.
  - clear E2 Z3. destruct b6; [rewrite E1 by done|]; destruct bU; try (destruct E3 as [-> ->]; [done|]); destruct bM; try destruct bT;
      try (destruct bB; [rewrite E4 by done|]); try destruct bS; vm_compute; reflexivity.
Qed.

Lemma line6_code a : sa_family a = AF_INET6 -> line6 (sin6_addr a) = (_get_precedence a, _get_label a).
Proof. intros E. unfold line6, _get_precedence, _get_label. rewrite E. cbn [Z.eqb Pos.eqb]. repeat (case_match; try done). Qed.

Lemma line6_mapped a : length (sin_addr a) = 4%nat -> line6 (prefix6 [] ([0xff; 0xff] ++ sin_addr a)) = (35, 4).
Proof. destruct (sin_addr a) as [|? [|? [|? [|? [|? ?]]]]]; done. Qed.

Lemma addr6_ok a : sock_ok a -> length (addr6 a) = 16%nat /\ Forall is_byte (addr6 a).
Proof.
  intros (L4 & B4 & L6 & B6). unfold addr6. destruct (_ =? _); [|done]. unfold prefix6. cbn [app length]. rewrite L4. split; [cbn; by rewrite L4|].
  cbn. bytes_done. done.
Qed.

Lemma policy_spec a : sock_ok a -> _get_label a = rfc_label a /\ _get_precedence a = rfc_precedence a.
Proof.
  intros Ha. pose proof Ha as (L4 & _). destruct (addr6_ok a Ha) as [L6 B6]. pose proof (longest_line (addr6 a) L6 B6) as El.
  unfold rfc_label, rfc_precedence. destruct (longest (addr6 a) code_table) as [e|]; [|done]. injection El as El. cbn [from_option]. unfold addr6 in El. destruct (Z.eqb_spec (sa_family a) AF_INET) as [E4|E4].
  - rewrite line6_mapped in El by done. injection El as -> ->. unfold _get_label, _get_precedence. by rewrite E4.
  - destruct (Z.eqb_spec (sa_family a) AF_INET6) as [E6|E6]; [rewrite line6_code in El by done; by injection El as -> ->|].
    unfold _get_label, _get_precedence. by rewrite !(proj2 (Z.eqb_neq (sa_family a) _)).
Qed.

(** The tests of IPv4 addresses. *)
Lemma ntohl_spec a : length a = 4%nat -> Forall is_byte a ->
  starts a [127] 8 = (Z.land (ntohl a) 0xff000000 =? 0x7f000000) /\ starts a [169; 254] 16 = (Z.land (ntohl a) 0xffff0000 =? 0xa9fe0000).
Proof.
  intros L B. rewrite (starts_bytes 1), (starts_bytes 2) by (done || (simpl; lia) || bytes_done).
  destruct a as [|a [|b [|c [|d [|? ?]]]]]; try done. rewrite !Forall_cons in B. destruct B as (Ba & Bb & Bc & Bd & _). unfold is_byte in *.
  assert (Hland : forall x k, 0 <= x < 2 ^ 32 -> 0 <= k < 32 -> Z.land x (2 ^ 32 - 2 ^ k) = x / 2 ^ k * 2 ^ k).
  { intros x k Hx Hk. rewrite <-(Z.shiftl_mul_pow2 (x / 2 ^ k)), <-(Z.shiftr_div_pow2 x) by lia. apply Z.bits_inj'. intros i Hi.
    replace (2 ^ 32 - 2 ^ k) with (Z.shiftl (Z.ones (32 - k)) k) by (rewrite Z.shiftl_mul_pow2, Z.ones_equiv, <-Z.sub_1_r, Z.mul_sub_distr_r, <-Z.pow_add_r by lia; f_equal; [f_equal|]; lia).
    rewrite Z.land_spec, !Z.shiftl_spec by lia. destruct (Z.ltb_spec i k); [rewrite !(Z.testbit_neg_r _ (i - k)) by lia; by rewrite andb_false_r|].
    rewrite Z.shiftr_spec by lia. replace (i - k + k) with i by lia. destruct (decide (i < 32)); [rewrite Z.ones_spec_low by lia; by rewrite andb_true_r|].
    rewrite Z.ones_spec_high by lia. rewrite andb_false_r. symmetry. rewrite <-(Z.mod_small x (2 ^ 32)) by lia. apply Z.mod_pow2_bits_high. lia. }
  assert (Hn : 0 <= ntohl [a; b; c; d] < 2 ^ 32) by (unfold ntohl, s6; cbn [nth]; lia).
  change 0xff000000 with (2 ^ 32 - 2 ^ 24). change 0xffff0000 with (2 ^ 32 - 2 ^ 16). rewrite !Hland by lia. unfold ntohl, s6. cbn [nth same_bytes]. rewrite !andb_true_r.
  split; apply eq_bool_prop_intro; rewrite ?andb_True, !Is_true_true, !Z.eqb_eq; Z.to_euclidean_division_equations; lia.
Qed.

Lemma scope_spec a : sock_ok a -> _get_scope a = rfc_scope a.
Proof.
  intros (L4 & B4 & L6 & B6). unfold _get_scope, rfc_scope. destruct (tests_spec _ L6 B6) as ((-> & _ & _ & _ & _ & ->) & (_ & _ & -> & ->) & _).
  destruct (ntohl_spec _ L4 B4) as [-> ->]. change 0x0f with (Z.ones 4). by rewrite Z.land_ones by lia.
Qed.

(** * The order *)

(** The first difference of two lists. *)
Fixpoint lexdiff (k1 k2 : list Z) : Z :=
  match k1, k2 with
  | x :: k1, y :: k2 => if x =? y then lexdiff k1 k2 else x - y
  | _, _ => 0
  end.

Lemma lexdiff_flip k1 : forall k2, Z.sgn (lexdiff k2 k1) = - Z.sgn (lexdiff k1 k2).
Proof.
  induction k1 as [|x k1 IH]; intros [|y k2]; try done. cbn [lexdiff]. rewrite (Z.eqb_sym y x). destruct (Z.eqb_spec x y); [apply IH|]. rewrite <-Z.sgn_opp. f_equal. lia.
Qed.

Lemma lexdiff_trans k1 : forall k2 k3, length k1 = length k2 -> length k2 = length k3 -> lexdiff k1 k2 <= 0 -> lexdiff k2 k3 <= 0 -> lexdiff k1 k3 <= 0.
Proof.
  induction k1 as [|x k1 IH]; intros [|y k2] [|z k3] L1 L2; try done. cbn [lexdiff]. injection L1 as L1. injection L2 as L2. intros H1 H2.
  destruct (Z.eqb_spec x y) as [Exy|Exy], (Z.eqb_spec y z) as [Eyz|Eyz].
  - rewrite (proj2 (Z.eqb_eq _ _)) by lia. by apply (IH k2).
  - rewrite (proj2 (Z.eqb_neq _ _)) by lia. lia.
  - rewrite (proj2 (Z.eqb_neq _ _)) by lia. lia.
  - rewrite (proj2 (Z.eqb_neq _ _)) by lia. lia.
Qed.

(** The rules of section 6 of RFC 6724 that are applied, each as a number of which the lower is preferred: an address that can be reached (1), a
    source of the same scope (2), a source of the same label (5), a higher precedence (6), a smaller scope (8), for IPv6 a longer prefix in common
    with the source, of all 128 bits (9), and the order before (10). *)
Definition rules (e : addrinfo_sort_elem) : list Z :=
  [- has_src_addr e;
   - Z.b2z (rfc_scope (src_addr e) =? rfc_scope (ai_addr e));
   - Z.b2z (rfc_label (src_addr e) =? rfc_label (ai_addr e));
   - rfc_precedence (ai_addr e);
   rfc_scope (ai_addr e);
   - (if negb (has_src_addr e =? 0) && (sa_family (ai_addr e) =? AF_INET6)
      then Z.of_nat (common (addr_bits (sin6_addr (src_addr e))) (addr_bits (sin6_addr (ai_addr e)))) else 0);
   original_order e].

(** The addresses of an element have their lengths. *)
Definition elem_ok (e : addrinfo_sort_elem) : Prop := sock_ok (ai_addr e) /\ sock_ok (src_addr e).

(** The rules with the numbers of the code. *)
Lemma rules_code e : elem_ok e -> rules e =
  [- has_src_addr e;
   - Z.b2z (_get_scope (src_addr e) =? _get_scope (ai_addr e));
   - Z.b2z (_get_label (src_addr e) =? _get_label (ai_addr e));
   - _get_precedence (ai_addr e);
   _get_scope (ai_addr e);
   - (if negb (has_src_addr e =? 0) && (sa_family (ai_addr e) =? AF_INET6) then _common_prefix_len (sin6_addr (src_addr e)) (sin6_addr (ai_addr e)) else 0);
   original_order e].
Proof.
  intros [Ha Hs]. unfold rules. destruct (policy_spec _ Ha) as [-> ->]. destruct (policy_spec _ Hs) as [-> _]. rewrite !scope_spec by done.
  destruct Ha as (_ & _ & ? & ?), Hs as (_ & _ & ? & ?). by rewrite common_prefix_spec.
Qed.

(** Addresses of both families whose precedence is the same, and that can be reached, are not in one list. *)
Definition unmixed (e1 e2 : addrinfo_sort_elem) : Prop :=
  has_src_addr e1 <> 0 -> has_src_addr e2 <> 0 -> _get_precedence (ai_addr e1) = _get_precedence (ai_addr e2) -> (sa_family (ai_addr e1) = AF_INET6 <-> sa_family (ai_addr e2) = AF_INET6).

Lemma compare_rules e1 e2 : elem_ok e1 -> elem_ok e2 -> unmixed e1 e2 -> _rfc6724_compare e1 e2 = lexdiff (rules e1) (rules e2).
Proof.
  intros H1 H2 Hu. rewrite !rules_code by done. unfold _rfc6724_compare. cbn [lexdiff].
  assert (forall a b : Z, (- a =? - b) = (a =? b)) as Hopp by lia. rewrite !Hopp.
  destruct (Z.eqb_spec (has_src_addr e1) (has_src_addr e2)) as [Eh|]; cbn [negb]; [|lia]. set (m1 := Z.b2z (_get_scope (src_addr e1) =? _)). set (m2 := Z.b2z (_get_scope (src_addr e2) =? _)).
  destruct (m1 =? m2); cbn [negb]; [|lia]. set (l1 := Z.b2z (_get_label (src_addr e1) =? _)). set (l2 := Z.b2z (_get_label (src_addr e2) =? _)). destruct (l1 =? l2); cbn [negb]; [|lia].
  destruct (Z.eqb_spec (_get_precedence (ai_addr e1)) (_get_precedence (ai_addr e2))) as [Ep|]; cbn [negb]; [|lia]. destruct (_get_scope (ai_addr e1) =? _get_scope (ai_addr e2)); cbn [negb]; [|done].
  assert (original_order e1 - original_order e2 = (if original_order e1 =? original_order e2 then 0 else original_order e1 - original_order e2)) as Hord by (destruct (Z.eqb_spec (original_order e1) (original_order e2)); lia).
  rewrite <-Eh. destruct (Z.eqb_spec (has_src_addr e1) 0) as [|Hh]; cbn [negb andb]; [rewrite Z.eqb_refl; exact Hord|].
  specialize (Hu Hh ltac:(congruence) Ep). destruct (Z.eqb_spec (sa_family (ai_addr e1)) AF_INET6) as [E1|E1], (Z.eqb_spec (sa_family (ai_addr e2)) AF_INET6) as [E2|E2]; try (exfalso; tauto); cbn [andb].
  - destruct (_common_prefix_len (sin6_addr (src_addr e1)) _ =? _); cbn [negb]; [exact Hord|lia].
  - rewrite Z.eqb_refl. exact Hord.
Qed.

(** An address of either family; [mapped] tells whether it is an IPv4 address in IPv6 form. *)
Definition inet (a : sockaddr) : Prop := sa_family a = AF_INET \/ sa_family a = AF_INET6.
Definition mapped (a : sockaddr) : Prop := sa_family a = AF_INET6 /\ IN6_IS_ADDR_V4MAPPED (sin6_addr a) = true.

Lemma precedence_mixed a b : inet a -> inet b -> ~ mapped a -> ~ mapped b -> _get_precedence a = _get_precedence b -> sa_family a = AF_INET6 <-> sa_family b = AF_INET6.
Proof.
  assert (forall a, sa_family a = AF_INET6 -> ~ mapped a -> _get_precedence a <> 35) as H6.
  { intros c E Hm. unfold _get_precedence. rewrite E. cbn [Z.eqb Pos.eqb]. destruct (IN6_IS_ADDR_LOOPBACK _); [done|]. destruct (IN6_IS_ADDR_V4MAPPED (sin6_addr c)) eqn:E2; [exfalso; by apply Hm|].
    by repeat case_match. }
  intros Ha Hb Hma Hmb E. unfold inet in *. assert (forall c, sa_family c = AF_INET -> _get_precedence c = 35) as H4 by (intros c Ec; unfold _get_precedence; by rewrite Ec).
  split; intros E6; (destruct (decide (sa_family a = AF_INET)) as [A4|A4], (decide (sa_family b = AF_INET)) as [B4|B4]; try lia; try tauto).
  - exfalso. apply (H6 a E6 Hma). rewrite E. by apply H4.
  - exfalso. apply (H6 b E6 Hmb). rewrite <-E. by apply H4.
Qed.

(** * The list *)

(** The nodes behind [p], in their order. *)
Fixpoint walks (nx : links) (p : nat) (l : list nat) : Prop :=
  match l with
  | [] => nx !! p = Some None
  | q :: l => nx !! p = Some (Some q) /\ walks nx q l
  end.

Lemma walks_insert nx p v q l : p ∉ q :: l -> walks nx q l -> walks (<[p := v]> nx) q l.
Proof.
  revert q. induction l as [|r l IH]; intros q Hp H; apply not_elem_of_cons in Hp as [Hq Hp]; simpl in *; (rewrite lookup_insert_ne by done); [done|]. destruct H as [H1 H2]. split; [done|]. by apply IH.
Qed.

Lemma count_spec nx l : forall p fuel, walks nx p l -> (length l < fuel)%nat -> count_nodes fuel nx p = Ok (length l).
Proof.
  induction l as [|q l IH]; intros p fuel H Hf; (destruct fuel as [|fuel]; [simpl in Hf; lia|]); cbn [count_nodes]; simpl in H; [by rewrite H|].
  destruct H as [-> H]. cbn [run obind]. by rewrite (IH q fuel H) by (simpl in Hf; lia).
Qed.

Lemma walks_size nx p l : NoDup (p :: l) -> walks nx p l -> (length l < size nx)%nat.
Proof.
  intros Hnd H. assert (forall q, q ∈ p :: l -> is_Some (nx !! q)) as Hin.
  { clear Hnd. revert p H. induction l as [|r l IH]; intros p H q Hq; simpl in H; [apply list_elem_of_singleton in Hq as ->; rewrite H; by eexists|]. destruct H as [H1 H2].
    apply elem_of_cons in Hq as [->|Hq]; [rewrite H1; by eexists|by apply (IH r)]. }
  change (length l < size nx)%nat with (length (p :: l) <= size nx)%nat. rewrite <-(size_list_to_set (C := gset nat) (p :: l) Hnd), <-size_dom. apply subseteq_size.
  intros q Hq%elem_of_list_to_set. by apply elem_of_dom, Hin.
Qed.

Lemma relink_spec nx elems : forall p, NoDup (p :: (ai <$> elems)) -> walks (relink nx p elems) p (ai <$> elems) /\ forall q, q ∉ p :: (ai <$> elems) -> relink nx p elems !! q = nx !! q.
Proof.
  revert nx. induction elems as [|e elems IH]; intros nx p Hnd.
  - simpl. split; [by rewrite lookup_insert_eq|]. intros q Hq. rewrite lookup_insert_ne; [done|]. intros ->. apply Hq, list_elem_of_here.
  - rewrite fmap_cons in *. cbn [relink walks]. apply NoDup_cons in Hnd as [Hp Hnd]. destruct (IH (<[p := Some (ai e)]> nx) (ai e) Hnd) as [Hw Hout]. split.
    + split; [|done]. rewrite Hout by done. by rewrite lookup_insert_eq.
    + intros q Hq. apply not_elem_of_cons in Hq as [Hqp Hq]. rewrite Hout by done. by rewrite lookup_insert_ne.
Qed.

Section sorted.
Context (sys : system) (addr_of : nat -> sockaddr) (mark uid : Z) (garbage : nat -> sockaddr).

(** The element of the array for a node. *)
Definition sort_elem (i p : nat) : addrinfo_sort_elem :=
  let r := _find_src_addr sys (addr_of p) mark uid in SortElem p (addr_of p) r.1 (default (garbage i) r.2) (Z.of_nat i).

Definition no_error (p : nat) : Prop := (_find_src_addr sys (addr_of p) mark uid).1 <> -1.

#[local] Instance no_error_dec p : Decision (no_error p).
Proof. unfold no_error. apply _. Defined.

Lemma fill_spec nx l : forall p i, walks nx p l -> fill_elems sys addr_of mark uid nx garbage (head l) i (length l) =
  Ok (if decide (Forall no_error l) then Some (imap (fun k => sort_elem (i + k)) l) else None).
Proof.
  induction l as [|q l IH]; intros p i H; cbn [fill_elems length head].
  { by rewrite decide_True by constructor. }
  destruct H as [_ H]. cbn [run obind]. destruct (_find_src_addr sys (addr_of q) mark uid) as [has src] eqn:Ef. destruct (Z.eqb_spec has (-1)) as [->|Hh].
  { rewrite decide_False; [done|]. intros [Hq _]%Forall_cons. unfold no_error in Hq. by rewrite Ef in Hq. }
  assert (nx !! q = Some (head l)) as Hnext by (destruct l; simpl in H; [done|by destruct H]). rewrite Hnext. cbn [run obind]. rewrite (IH q (S i) H). cbn [obind].
  assert (no_error q) as Hq by (unfold no_error; by rewrite Ef). destruct (decide (Forall no_error l)) as [Hl|Hl].
  - rewrite decide_True by (by constructor). cbn [fmap option_fmap option_map]. rewrite imap_cons. do 3 f_equal; [unfold sort_elem; by rewrite Ef, Nat.add_0_r|]. apply imap_ext. intros k r _. cbn. f_equal. lia.
  - rewrite decide_False; [done|]. by intros [_ ?]%Forall_cons.
Qed.

Lemma imap_ai l i : ai <$> imap (fun k => sort_elem (i + k)) l = l.
Proof.
  revert i. induction l as [|p l IH]; intros i; [done|]. rewrite imap_cons, fmap_cons. f_equal. rewrite <-(IH (S i)) at 2. f_equal. apply imap_ext. intros k q _. cbn. f_equal. lia.
Qed.

(** All elements of the array are of one kind where it matters. *)
Definition one_kind (l : list nat) : Prop := Forall (fun p => inet (addr_of p)) l /\ (Forall (fun p => ~ mapped (addr_of p)) l \/ Forall (fun p => sa_family (addr_of p) <> AF_INET) l).

Lemma one_kind_unmixed l p q i j : one_kind l -> p ∈ l -> q ∈ l -> unmixed (sort_elem i p) (sort_elem j q).
Proof.
  intros [Hi Hk] Hp Hq _ _ E. cbn in *. rewrite !Forall_forall in *. destruct Hk as [Hk|Hk].
  - apply precedence_mixed; [by apply Hi|by apply Hi|by apply Hk|by apply Hk|done].
  - pose proof (Hi p Hp) as Hip. pose proof (Hi q Hq) as Hiq. pose proof (Hk p Hp). pose proof (Hk q Hq). unfold inet in *. tauto.
Qed.

(** The addresses have their lengths: the destinations, those that getsockname gives and the memory that malloc gives. *)
Definition addresses_ok (l : list nat) : Prop :=
  (forall p, p ∈ l -> sock_ok (addr_of p)) /\ (forall a b, sys_getsockname sys a = Some b -> sock_ok b) /\ forall i, sock_ok (garbage i).

Lemma find_src_addr_some a b : (_find_src_addr sys a mark uid).2 = Some b -> sys_getsockname sys a = Some b.
Proof. unfold _find_src_addr. repeat (case_match; try done). Qed.

Lemma addresses_elem l i p : addresses_ok l -> p ∈ l -> elem_ok (sort_elem i p).
Proof.
  intros (Hd & Hs & Hg) Hp. split; cbn; [by apply Hd|]. destruct (_find_src_addr _ _ _ _).2 as [b|] eqn:E; [|apply Hg].
  apply find_src_addr_some in E. by apply (Hs (addr_of p)).
Qed.

Lemma compare_elems l i j p q : one_kind l -> addresses_ok l -> p ∈ l -> q ∈ l ->
  _rfc6724_compare (sort_elem i p) (sort_elem j q) = lexdiff (rules (sort_elem i p)) (rules (sort_elem j q)).
Proof. intros Hk Ha Hp Hq. apply compare_rules; [by apply (addresses_elem l)|by apply (addresses_elem l)|by apply (one_kind_unmixed l)]. Qed.

Lemma elems_in l e : e ∈ imap sort_elem l -> exists i p, e = sort_elem i p /\ p ∈ l.
Proof.
  intros He. apply list_elem_of_lookup_1 in He as [i He]. rewrite list_lookup_imap in He. destruct (l !! i) as [p|] eqn:Hp; [|done]. injection He as <-. exists i, p. split; [done|]. by apply list_elem_of_lookup_2 in Hp.
Qed.
End sorted.

(** * The sort *)


(** Two IPv6 addresses and an IPv4 address. *)
Definition ex_ip4 (d : Z) : sockaddr := SockAddr AF_INET [192; 0; 2; d] (replicate 16 0).
Definition ex_ip6 (d : Z) : sockaddr := SockAddr AF_INET6 [0; 0; 0; 0] ([0x20; 1; 0x0d; 0xb8; d] ++ replicate 11 0).
Definition ex_addr (p : nat) : sockaddr := match p with 1%nat => ex_ip4 7 | 2%nat => ex_ip6 0xf0 | _ => ex_ip6 1 end.

(** A system with one address of each family. *)
Definition ex_system : system := System (fun _ => None) true true (fun _ => true) (fun a => Some (if sa_family a =? AF_INET then ex_ip4 9 else ex_ip6 0)).

Definition ex_links : links := <[0%nat := Some 1%nat]> (<[1%nat := Some 2%nat]> (<[2%nat := Some 3%nat]> {[3%nat := None]})).

Lemma ex_ok d : is_byte d -> sock_ok (ex_ip4 d) /\ sock_ok (ex_ip6 d).
Proof. intros Hd. unfold is_byte in Hd. split; (split_and!; [done|simpl; bytes_done|done|simpl; bytes_done]). Qed.

Lemma ex_addr_ok p : sock_ok (ex_addr p).
Proof. destruct p as [|[|[|p]]]; apply ex_ok; unfold is_byte; lia. Qed.


(** With IPv4 addresses in both forms the comparison is not an order: each of these is before the next, and the last before the first. *)
Definition ex_map (a b : Z) : sockaddr := SockAddr AF_INET6 [0; 0; 0; 0] (replicate 10 0 ++ [255; 255; a; b; 0; 1]).
Definition ex_cycle : list addrinfo_sort_elem :=
  [SortElem 1 (ex_map 192 0) 1 (ex_map 192 1) 2; SortElem 2 (ex_map 8 8) 1 (ex_map 192 1) 0; SortElem 3 (ex_ip4 7) 1 (ex_ip4 9) 1].

Example ex_not_transitive : forall i, (i < 3)%nat ->
  match ex_cycle !! i, ex_cycle !! ((i + 1) mod 3)%nat with Some a, Some b => _rfc6724_compare a b < 0 | _, _ => False end.
Proof. intros [|[|[|i]]] Hi; [vm_compute; done..|lia]. Qed.

(** Of two addresses that cannot be reached, the one whose memory for the source looks like the address is preferred. *)
Example ex_garbage :
  _rfc6724_compare (SortElem 1 (ex_ip4 1) 0 (ex_ip4 9) 0) (SortElem 2 (ex_ip4 2) 0 (ex_ip6 9) 1) < 0 /\
  0 < _rfc6724_compare (SortElem 1 (ex_ip4 1) 0 (ex_ip6 9) 0) (SortElem 2 (ex_ip4 2) 0 (ex_ip4 9) 1).
Proof. split; vm_compute; done. Qed.
